(* ===== verification/_CoqProject ===== *)
-Q . S2P
Prelude.v
ToolPattern.v
Precedence.v
ToolApproval.v
ApprovalStore.v
ApprovalMemory.v
SyncBroadcaster.v
ApprovalService.v
ApprovalConcurrency.v
ApprovalServiceFacts.v
ApprovalCache.v
ApprovalCacheFacts.v
ApprovalHandlers.v
ApprovalHandlersFacts.v
ApprovalGate.v
ApprovalGateFacts.v
ApprovalSystem.v
OAuthSessions.v
OAuthSessionsFacts.v
ClientAssertion.v
UserGrants.v
UserGrantsFacts.v
Consent.v
ConsentFacts.v
FositeStorage.v
FositeStorageFacts.v
ProviderAuth.v
SigningKeys.v
SigningKeysFacts.v
KeyLifecycle.v
KeyPublication.v
KeyLifecycleFacts.v
KeyBootstrap.v
KeyPublicationFacts.v
JWKSFreshness.v
UriValidation.v
UriValidationFacts.v
UniqueIndex.v
Agents.v
AgentsFacts.v
PermissionSets.v
PermissionSetsFacts.v
AgentService.v
AgentServiceFacts.v
AgentConcurrency.v
BrokerErrors.v
NetPolicy.v
Providers.v
ProviderStore.v
ProviderStoreFacts.v
UserSessions.v
ServiceSessions.v
SessionExpiry.v
SessionLocks.v
ProviderTokens.v
ProviderTokensFacts.v
SessionRefresh.v
SessionRefreshFacts.v
SessionSweep.v
SessionSweepFacts.v
ExchangeInputs.v
TokenExchange.v
TokenExchangeFacts.v
AuthorizationFlow.v
AuthorizationFlowFacts.v
BackgroundPool.v
AuthChallenge.v
ResourceDiscovery.v
ResourceDiscoveryFacts.v
ProviderService.v
ServiceEffects.v
ProviderServiceFacts.v
ExchangeErrors.v
TokenExchanger.v
TokenExchangerFacts.v
McpMessages.v
McpMessagesFacts.v
ExtProcServer.v
ExtProcServerFacts.v
