(* ===== verification/Prelude.v ===== *)
(** * Agentic Identity Broker: verification development (root file)

    The broker lets users delegate access to AI agents.  Seven subsystems carry its
    own logic and are verified here.

    Tool approvals.  An external processor in front of an agent's tools asks a
    gate before every tool call.  The gate looks for a matching approval in a
    local cache, which a syncer keeps up to date from the broker by long polling,
    and otherwise creates a pending approval the user decides on.  On the broker
    side an HTTP API and a service work on an approval repository; every mutation
    increments a version and wakes the waiting long polls through a broadcaster.

    Consent and token issuing.  A user grants an agent permission sets; the local
    OAuth2 issuer (on the fosite library) stores authorization codes, PKCE
    challenges and refresh tokens, checks the user's grant whenever a refresh
    token is presented, and authenticates clients by secret or by signed
    assertion.

    Signing keys.  Two services (token signing, and the broker's own client
    authentication) share a key store and a lifecycle engine: keys are bootstrapped
    once across replicas, generated with a grace period, promoted and deleted, and
    published as key sets through versioned caches.

    Agents and permission sets.  Administrators register agents and bundles of
    scopes; agents are found by id, canonical id, external id, client id and client
    URI pattern, and a declarative API reconciles an agent by its external id.

    Third-party services and sessions.  Administrators register upstream OAuth2
    services; a service owns the protected resources agents ask tokens for.  A user
    connects to a service once and the broker keeps the session: encrypted upstream
    tokens under a key per user and service, bound to the issuer and audience the
    user consented to.  Sessions are refreshed on demand, in the background and by a
    sweep, under a lock per session.

    Token exchange.  An agent's gateway presents the user's token and its own client
    assertion for a protected resource, and gets the user's access token for the service
    that owns the resource, if policies admit the client and the user's grant to the agent
    covers the service.

    External processor.  Envoy streams every tool call through a processor, which
    requires the user's identity token, asks the approval gate, exchanges the token at
    the broker for the access token of the resource (cached per subject and resource,
    renewed behind a circuit breaker and a single flight) and only then lets the request
    pass with the exchanged token in its header, or answers with a challenge.

    ** Files (sources under src/internal)

    - Prelude: Go time and strings, results, handlers as sequences of atomic
      actions ([prog]), their interleavings ([pool_step]) and a rely-guarantee
      logic for them ([rg]).
    - ToolPattern: domain/approval/toolpattern/toolpattern.go, the glob matcher,
      escaping, canonical JSON, validation, matching.
    - Precedence: extproc/approval/precedence.go, which approval wins.
    - ToolApproval: domain/storage/tool_approval.go, the approval record and its
      transitions.
    - ApprovalStore: ports/storage.go, the repository contract as a class of
      operations with laws, and the lifecycle every approval follows.
    - ApprovalMemory: adapters/storage/memory/tool_approval_repository.go and
      approval_sync_state_repository.go, an instance of the contract.
    - SyncBroadcaster: domain/approval/sync_broadcaster.go and the long-poll
      protocol as a transition system.
    - ApprovalService: domain/approval/service.go, exact_patterns.go and
      rate_limiter.go against the contract; ApprovalServiceFacts and
      ApprovalConcurrency hold what it guarantees alone and interleaved.
    - ApprovalCache, ApprovalCacheFacts: extproc/approval/cache.go.
    - ApprovalHandlers, ApprovalHandlersFacts: adapters/http/handlers/approval.
    - ApprovalGate, ApprovalGateFacts: extproc/approval/gate.go, client.go,
      syncer.go.
    - ApprovalSystem: gate, cache, client, handlers and service composed.
    - OAuthSessions, OAuthSessionsFacts: the repositories of authorization codes,
      PKCE sessions, refresh tokens and consumed assertions under
      adapters/storage/memory, their records under domain/storage, and
      domain/oauth2server/session_cleanup.go.
    - ClientAssertion: domain/oauth2server/client_assertion.go and the key profile
      of domain/oauth2/cimd/keyset.go.
    - UserGrants, UserGrantsFacts: domain/storage/user_grant.go and
      adapters/storage/memory/user_grants.go.
    - Consent, ConsentFacts: domain/consent/service.go.
    - FositeStorage, FositeStorageFacts: domain/oauth2server/fosite_storage.go,
      fosite_client.go, profile_session.go and domain/oauth2/scope.go.
    - ProviderAuth: client authentication in domain/oauth2server/provider.go and
      client_auth.go.
    - SigningKeys, SigningKeysFacts: domain/storage/signing_key.go and
      adapters/storage/memory/signing_key_store.go, refined to a plain key ring.
    - KeyLifecycle, KeyLifecycleFacts, KeyBootstrap: domain/keylifecycle/engine.go,
      domain/encryption/subject.go and the lifecycle operations of
      domain/oauth2server/signing_key_service.go and domain/cimdclient/key_service.go.
    - KeyPublication, KeyPublicationFacts, JWKSFreshness: the key sets the two
      services publish, with their caches and single-flight rebuilds.
    - UriValidation, UriValidationFacts: domain/urivalidation and
      domain/canonical/id.go.
    - UniqueIndex: secondary indices with unique keys, shared by two repositories.
    - Agents, AgentsFacts: domain/storage/agent.go, requirement_type.go,
      service_requirement.go and adapters/storage/memory/agent_repository.go.
    - PermissionSets, PermissionSetsFacts: domain/storage/permission_set.go,
      adapters/storage/memory/permission_set_repository.go and
      domain/permissionset/service.go.
    - AgentService, AgentServiceFacts, AgentConcurrency: domain/agents/service.go
      and reconcile.go.
    - BrokerErrors: domain/oauth2session/errors.go, domain/tokenexchange/errors.go and
      diagnostic.go, domain/model/credential_source_error.go.
    - NetPolicy: domain/netpolicy/blocklist.go.
    - Providers: domain/model, the service aggregate and its validation.
    - ProviderStore, ProviderStoreFacts: adapters/storage/memory/thirdparty_provider.go
      and thirdparty_provider_record.go.
    - UserSessions, SessionExpiry: domain/storage/user_session.go and
      adapters/storage/memory/user_session.go, and the exactness of its expiry pages.
    - ServiceSessions: the two repositories composed.
    - SessionLocks: programs with locks, their interleavings and a rely-guarantee logic
      for what a lock protects; the per-session locks of
      adapters/storage/memory/user_session.go.
    - ProviderTokens, ProviderTokensFacts: domain/oauth2session/token_response.go,
      credentials.go and the token requests of service.go.
    - SessionRefresh, SessionRefreshFacts: refreshing, storing and terminating sessions
      in domain/oauth2session/service.go and background_refresh.go, under the locks.
    - SessionSweep, SessionSweepFacts: domain/oauth2session/sweep.go.
    - ExchangeInputs: domain/tokenexchange/request.go, resource_uri.go, jwt_validator.go,
      cel_evaluator.go, cel_fields.go, human_subject.go and domain/jwtclaims.
    - TokenExchange, TokenExchangeFacts: domain/tokenexchange/service.go and
      session_diagnostic.go.
    - AuthorizationFlow, AuthorizationFlowFacts: domain/oauth2session/state_token.go and
      connecting to a service in service.go: the request, the callback, the code exchange.
    - BackgroundPool: domain/oauth2session/background_refresh.go, the worker pool.
    - AuthChallenge, ResourceDiscovery, ResourceDiscoveryFacts:
      domain/thirdparty/protected_resource_discovery.go.
    - ProviderService, ServiceEffects, ProviderServiceFacts: domain/thirdparty/service.go,
      on the repositories of ServiceSessions and on discovery.
    - ExchangeErrors: extproc/tokenexchange/errors.go, which failures ask the user to sign
      in again and what metadata of an upstream error is kept.
    - TokenExchanger, TokenExchangerFacts: extproc/tokenexchange/exchanger.go and client.go,
      the token cache, its eviction, the circuit breaker and the client assertion.
    - McpMessages, McpMessagesFacts: the MCP message decoder and the policy verdicts under
      extproc/authorization.
    - ExtProcServer, ExtProcServerFacts: extproc/server/server.go and exchange.go, the
      stream of one request.

    ** How the code is modelled

    Go values are records and inductive types with the source's fields; ids are
    the text of the UUIDs; times are nanoseconds in [Z] and durations are int64
    where overflow matters.  A function that locks a store for its whole body is
    one function on the store.  A service method or handler is a [prog]: one
    atomic action per repository call, so its theorems can quantify over every
    interleaving with other handlers.  Pointers are modelled where they are shared
    (the two indices of the code store and of the key store); deep copies are
    values.  Errors are values of [result].  Map iteration order is a parameter
    where it can be observed.  Clock readings and random ids are arguments; where a
    theorem relates readings of one clock (key activation, caches), time is part of
    the world and only grows.

    Library code is a class with the documented laws a theorem needs: [GoFloat]
    (float formatting), [GoHash] (SHA-256 and JSON text), [TokenBucket] (the rate
    limiter), [UUID] (parsing), [JWT] (JWS/JWT parsing and verification), [GoURL]
    (net/url), [GoNet] (IP addresses and networks), [ProviderParsers] (query strings and
    Google credentials), [KeyCrypto] (key material, encryption, JWK encoding).  Parts of
    the broker that a file only calls are classes of ports as well:
    [ConsentPorts], [ClientPorts], [ProviderPorts], [AgentPorts], [TokenPorts] (clock,
    contexts, key management, HTTP and signing of token requests), [ExchangePorts],
    [FlowPorts] (the oauth2 library and the sealing of the state),
    [DiscoveryPorts] and [DiscoveryJSON] (the HTTP client of discovery, JSON documents),
    [ServicePorts] (clock, ids, branch keys and envelope encryption of services);
    [ProcessorPorts], [JSONText] and [EnvoyAuth] are the HTTP client and breaker, the JSON
    tokens and the check requests of the external processor;
    [JWTLib], [CELLib] and [InputPorts] are jwx, cel-go and their evaluation.

    Fuel: the glob matcher runs with a bound (pattern length times the square of
    the text length) that is proved sufficient; sifting in the expiry heap is bounded by
    its size, and the listing is proved exact with that bound; a sweep
    runs with a bound on its pages, and a dry run is proved to end when it exceeds the
    number of due sessions; trimming and the decoding of runes
    are bounded by the number of bytes; the decoding of a message and of its values
    is bounded by the number of its tokens and twice that number, which is proved enough; all other recursion is structural.

    ** What the theorems show

    - The exchange: a token is only given for an authorized request
      (C5), a denial reveals nothing about the
      user's sessions (C6); that failures say how
      to recover is proved beside them.
    - The system: no tool call proceeds without an approval its user granted for
      it, under any interleaving of gates, syncers and broker requests
      (C1); a once-approval is handed out
      once (C10).
    - Approvals: lifecycle and store invariant under concurrency
      (C7,
      C27); every branch of creating,
      approving, consuming, denying and revoking, and of the endpoints in front, is
      proved as well.
    - Matching: the glob matcher terminates and is exact
      (C36), exact parameters cover their call,
      and so are precedence and the cache's answers.
    - Synchronisation: no lost wake-up (C28), poll
      timeouts (C39); ETags are proved to round-trip.
    - Tokens: deleted grants block refresh under concurrency
      (C8), replay of assertions
      (C31), no authentication downgrade
      (C32).
    - External processor: whatever Envoy, the gate and the broker answer, a stream that fails
      does not let its request pass (C2), and the token
      put in the header is one the broker gave for this subject and resource
      (C3, C4);
      eviction never changes an answer (C18), a refused
      user is not served a stale token (C16), the
      lifetimes reported are bounded (C38); messages
      are decoded exactly or refused (C17).
    - Consent: what granting does, and that revoking is complete, is proved beside them.
    - Keys: a domain that can sign stays able to
      (C9), one bootstrap key across replicas
      (C13), published sets are current
      (C11).
    - Agents: concurrent reconciliations agree
      (C12) and are idempotent; what client URI patterns accept is proved with them.
    - Services and sessions: a session stays bound to the issuer and audience it was
      started under (C26), the blocklist for outbound
      requests is exact (C35); that concurrent administrators
      do not overwrite each other and that resources resolve to one service is proved too.
    - Administration: an operation writes once or not at all
      (C19), and all of them together only take the
      repositories' own steps (C20), so that
      secrets at rest are ciphertext; a secret is read back
      (C21), and a refreshed service keeps its client
      (C22).
    - Connecting: a callback only stores the provider's answer to a flow of the same user
      and service (C14), the state of a flow serves
      nobody else (C15); a service's parameters
      are proved to stay out of the protocol's.
    - Discovery: no request leaves for a private address
      (C29), what a discovered configuration rests
      on (C30); challenges are proved to round-trip.
    - Session refresh: whatever is interleaved, only the stored and not rejected refresh
      token is sent (C23), the upstream
      client of a connection is pinned (C24),
      the session locks neither deadlock nor starve a finite set of requests
      (C25), a sweep visits every
      due session once (C34), the pool of background
      refreshes is bounded and drains (C33); that requests are
      repeated only when that is safe is proved with them.
    - Refinements: an indexed store behaves as a plain map
      (C37; that of grants is proved alike), and so is that the
      permission-set cache is invisible to calls that take turns.
    - C40 proves a defect of the
      in-memory code store: overlapping exchanges of one code can both pass.
      C39 includes the overflow of very large
      timeouts.

    ** What is not modelled

    PostgreSQL adapters (SQL text, run by the database), HTTP routing and the text of
    requests and responses, telemetry and logging, the loading and checking of
    configuration, start-up, the token library's own flows, key material and encryption
    (library code, behind the classes above). *)

From stdpp Require Export base tactics list gmap strings pretty sorting relations.
From Stdlib Require Export ZArith Lia.
From Stdlib Require Export Ascii.

Declare Scope broker_scope.
Delimit Scope broker_scope with broker.

(** ** Machine integers and Go time *)

Definition int64_min : Z := (- 2 ^ 63)%Z.
Definition int64_max : Z := (2 ^ 63 - 1)%Z.

(** int64 arithmetic wraps. *)
Definition int64_wrap (z : Z) : Z := ((z + 2 ^ 63) mod 2 ^ 64 - 2 ^ 63)%Z.

(** [time.Time]: nanoseconds since the zero time; [IsZero] tests the origin. *)
Abbreviation time := Z (only parsing).
Abbreviation duration := Z (only parsing).

Definition zero_time : time := 0%Z.
Definition IsZero (t : time) : bool := bool_decide (t = zero_time).
Definition After (t u : time) : bool := bool_decide (u < t)%Z.
Definition Before (t u : time) : bool := bool_decide (t < u)%Z.

(** [t.Sub(u)] saturates at the limits of [time.Duration] (an int64). *)
Definition Sub (t u : time) : duration :=
  Z.max int64_min (Z.min int64_max (t - u)).

Definition second : duration := 1000000000%Z.

(** ** Go strings: byte strings *)

(** The bytes of a Go string. *)
Fixpoint bytes (s : string) : list ascii :=
  match s with
  | EmptyString => []
  | String c s => c :: bytes s
  end.

Fixpoint of_bytes (l : list ascii) : string :=
  match l with
  | [] => EmptyString
  | c :: l => String c (of_bytes l)
  end.

(** The byte of code [n]. *)
Definition byte (n : N) : ascii := ascii_of_N n.

(** [strings.HasPrefix] / [strings.TrimPrefix], on bytes. *)
Fixpoint strip_prefix (p s : list ascii) : option (list ascii) :=
  match p, s with
  | [], _ => Some s
  | _ :: _, [] => None
  | c :: p, d :: s => if decide (c = d) then strip_prefix p s else None
  end.

Definition HasPrefix (s p : string) : bool :=
  match strip_prefix (bytes p) (bytes s) with Some _ => true | None => false end.

Definition TrimPrefix (s p : string) : string :=
  match strip_prefix (bytes p) (bytes s) with
  | Some r => of_bytes r
  | None => s
  end.

(** The UTF-8 encodings of the runes [unicode.IsSpace] accepts. *)
Definition space_seqs : list (list ascii) :=
  map (map byte)
    [ [9]; [10]; [11]; [12]; [13]; [32];
      [194; 133]; [194; 160]; [225; 154; 128];
      [226; 128; 128]; [226; 128; 129]; [226; 128; 130]; [226; 128; 131];
      [226; 128; 132]; [226; 128; 133]; [226; 128; 134]; [226; 128; 135];
      [226; 128; 136]; [226; 128; 137]; [226; 128; 138]; [226; 128; 168];
      [226; 128; 169]; [226; 128; 175]; [226; 129; 159]; [227; 128; 128] ]%N.

(** Drop one of [seqs] from the front, if the bytes start with one. *)
Fixpoint strip_any (seqs : list (list ascii)) (s : list ascii) : option (list ascii) :=
  match seqs with
  | [] => None
  | q :: seqs =>
      match strip_prefix q s with
      | Some r => Some r
      | None => strip_any seqs s
      end
  end.

Fixpoint trim_left (fuel : nat) (seqs : list (list ascii)) (s : list ascii) : list ascii :=
  match fuel with
  | O => s
  | S fuel =>
      match strip_any seqs s with
      | Some r => trim_left fuel seqs r
      | None => s
      end
  end.

(** Trim every leading and trailing occurrence of one of [seqs]; the number of
    bytes bounds the number of removals (no sequence is empty). *)
Definition trim_bytes (seqs : list (list ascii)) (s : list ascii) : list ascii :=
  let l := trim_left (length s) seqs s in
  reverse (trim_left (length l) (map reverse seqs) (reverse l)).

(** [strings.TrimSpace]. *)
Definition TrimSpace (s : string) : string :=
  of_bytes (trim_bytes space_seqs (bytes s)).

(** [strings.Trim(s, cutset)] for a cutset of single-byte characters. *)
Definition Trim (s : string) (cutset : list ascii) : string :=
  of_bytes (trim_bytes (map (λ c, [c]) cutset) (bytes s)).

(** [strings.Join]. *)
Fixpoint Join (parts : list string) (sep : string) : string :=
  match parts with
  | [] => ""
  | [p] => p
  | p :: parts => p +:+ sep +:+ Join parts sep
  end.

(** The double-quote character as a one-byte string. *)
Definition dquote : ascii := byte 34.
Definition dquote_str : string := String dquote EmptyString.

(** *** [strconv.ParseInt(s, 10, 64)] *)

Definition digit_val (c : ascii) : option Z :=
  let n := Z.of_N (N_of_ascii c) in
  if bool_decide (48 ≤ n ≤ 57)%Z then Some (n - 48)%Z else None.

Fixpoint parse_digits (l : list ascii) (acc : Z) : option Z :=
  match l with
  | [] => Some acc
  | c :: l =>
      match digit_val c with
      | Some d => parse_digits l (acc * 10 + d)%Z
      | None => None
      end
  end.

Definition parse_unsigned (l : list ascii) : option Z :=
  match l with [] => None | _ => parse_digits l 0 end.

Definition ParseInt64 (s : string) : option Z :=
  let '(neg, digits) :=
    match bytes s with
    | c :: l =>
        if decide (c = "-"%char) then (true, l)
        else if decide (c = "+"%char) then (false, l)
        else (false, c :: l)
    | [] => (false, [])
    end in
  match parse_unsigned digits with
  | Some v =>
      let v := if (neg : bool) then (- v)%Z else v in
      if bool_decide (int64_min ≤ v ≤ int64_max)%Z then Some v else None
  | None => None
  end.

(** ** Results

    Go's [(value, error)] pairs: exactly one of the two is meaningful. *)

Inductive result (E A : Type) : Type :=
  | Ok (a : A)
  | Err (e : E).
Arguments Ok {E A} a.
Arguments Err {E A} e.

#[export] Instance result_ret E : MRet (result E) := λ A a, Ok a.
#[export] Instance result_bind E : MBind (result E) := λ A B f r,
  match r with Ok a => f a | Err e => Err e end.

(** ** Atomic actions and handlers

    A handler is a sequence of atomic actions on a shared world (each one a
    repository call under its lock, a counter update, ...), each action
    returning a value the rest of the handler depends on.  [run] executes one
    handler alone; [pool_step] interleaves the actions of concurrent handlers. *)

Inductive prog (W A : Type) : Type :=
  | Ret (a : A)
  | Act {X : Type} (f : W → W * X) (k : X → prog W A).
Arguments Ret {W A} a.
Arguments Act {W A X} f k.

Fixpoint pbind {W A B} (p : prog W A) (g : A → prog W B) : prog W B :=
  match p with
  | Ret a => g a
  | Act f k => Act f (λ x, pbind (k x) g)
  end.

Definition act {W X} (f : W → W * X) : prog W X := Act f Ret.

#[export] Instance prog_ret W : MRet (prog W) := λ A a, Ret a.
#[export] Instance prog_bind W : MBind (prog W) := λ A B g p, pbind p g.

Fixpoint run {W A} (p : prog W A) (w : W) : W * A :=
  match p with
  | Ret a => (w, a)
  | Act f k => let '(w', x) := f w in run (k x) w'
  end.

(** A pool of concurrent handlers over one world. *)
Inductive pool_step {W A} : (W * list (prog W A)) → (W * list (prog W A)) → Prop :=
  | pool_act w ps i X (f : W → W * X) k w' x :
      ps !! i = Some (Act f k) →
      f w = (w', x) →
      pool_step (w, ps) (w', <[i := k x]> ps).

Create HintDb broker.

(** Case split on the first [match] or [if] of the goal or a hypothesis. *)
Ltac split_match :=
  match goal with
  | |- context [match ?x with _ => _ end] => destruct x eqn:?
  | H : context [match ?x with _ => _ end] |- _ => destruct x eqn:?
  end.

(** Turn boolean tests in the context into the propositions they decide. *)
Ltac breflect :=
  repeat match goal with
  | H : bool_decide _ = true |- _ => apply bool_decide_eq_true_1 in H
  | H : bool_decide _ = false |- _ => apply bool_decide_eq_false_1 in H
  | H : negb _ = true |- _ => apply negb_true_iff in H
  | H : negb _ = false |- _ => apply negb_false_iff in H
  | H : (_ && _)%bool = true |- _ => apply andb_true_iff in H as [? ?]
  | H : (_ || _)%bool = false |- _ => apply orb_false_iff in H as [? ?]
  end.

(** ** Generic lemmas *)

Lemma of_bytes_bytes s : of_bytes (bytes s) = s.
Proof. induction s; simpl; congruence. Qed.

Lemma bytes_of_bytes l : bytes (of_bytes l) = l.
Proof. induction l; simpl; congruence. Qed.

#[export] Instance bytes_inj : Inj (=) (=) bytes.
Proof. intros s t H. by rewrite <-(of_bytes_bytes s), H, of_bytes_bytes. Qed.

Lemma bytes_app s t : bytes (s +:+ t) = bytes s ++ bytes t.
Proof. unfold String.app. induction s; simpl; [done | by f_equal]. Qed.

Lemma After_spec t u : After t u = true ↔ (u < t)%Z.
Proof. unfold After. by rewrite bool_decide_eq_true. Qed.

Lemma After_false t u : After t u = false ↔ (t ≤ u)%Z.
Proof. unfold After. rewrite bool_decide_eq_false. lia. Qed.

Lemma run_pbind {W A B} (p : prog W A) (g : A → prog W B) w :
  run (pbind p g) w = let '(w', a) := run p w in run (g a) w'.
Proof.
  revert w. induction p as [a | X f k IH]; intros w; simpl; [done |].
  destruct (f w) as [w' x]. apply IH.
Qed.

Lemma run_act {W X B} (f : W → W * X) (g : X → prog W B) w :
  run (pbind (act f) g) w = let '(w', x) := f w in run (g x) w'.
Proof. simpl. by destruct (f w). Qed.

(** ** Rely-guarantee

    [rg R G Q p w]: started in [w], with the other handlers making [R]-steps in
    between, every atomic action of [p] is a [G]-step, and the value returned
    satisfies [Q] in the world it is returned in. *)

Fixpoint rg {W A} (R G : W → W → Prop) (Q : A → W → Prop) (p : prog W A) (w : W) : Prop :=
  match p with
  | Ret a => ∀ w1, rtc R w w1 → Q a w1
  | Act f k => ∀ w1, rtc R w w1 → G w1 (f w1).1 ∧ rg R G Q (k (f w1).2) (f w1).1
  end.

Lemma rg_rely {W A} (R G : W → W → Prop) Q (p : prog W A) w w' :
  rtc R w w' → rg R G Q p w → rg R G Q p w'.
Proof. destruct p; simpl; intros Hr Hp w1 Hw1; apply Hp; by etrans. Qed.

Lemma rg_ret {W A} (R G : W → W → Prop) (Q : A → W → Prop) a w :
  (∀ w1, rtc R w w1 → Q a w1) → rg R G Q (Ret a) w.
Proof. done. Qed.

Lemma rg_pbind {W A B} (R G : W → W → Prop) (Q : A → W → Prop) (Q' : B → W → Prop)
    (p : prog W A) (g : A → prog W B) w :
  rg R G Q p w → (∀ a w1, Q a w1 → rg R G Q' (g a) w1) → rg R G Q' (pbind p g) w.
Proof.
  intros Hp Hg. revert w Hp. induction p as [a | X f k IH]; intros w Hp; simpl in *.
  - apply Hg. by apply Hp.
  - intros w1 Hw1. destruct (Hp w1 Hw1) as [HG Hk]. split; [done |]. by apply IH.
Qed.

Lemma rg_act {W X} (R G : W → W → Prop) (Q : X → W → Prop) (f : W → W * X) w :
  (∀ w1, rtc R w w1 → G w1 (f w1).1) →
  (∀ w1 w2, rtc R w w1 → rtc R (f w1).1 w2 → Q (f w1).2 w2) →
  rg R G Q (act f) w.
Proof. intros HG HQ w1 Hw1. split; [by apply HG |]. intros w2 Hw2. by eapply HQ. Qed.

Lemma rg_impl {W A} (R G : W → W → Prop) (Q Q' : A → W → Prop) (p : prog W A) w :
  (∀ a w1, Q a w1 → Q' a w1) → rg R G Q p w → rg R G Q' p w.
Proof.
  intros HQ. revert w. induction p as [a | X f k IH]; intros w; simpl; [eauto |].
  intros Hp w1 Hw1. destruct (Hp w1 Hw1) as [HG Hk]. split; [done |]. by apply IH.
Qed.

Lemma rg_mono {W A} (R R' G G' : W → W → Prop) (Q : A → W → Prop) (p : prog W A) w :
  (∀ w w', R' w w' → R w w') → (∀ w w', G w w' → G' w w') →
  rg R G Q p w → rg R' G' Q p w.
Proof.
  intros HR HG. revert w. induction p as [a | X f k IH]; intros w Hp w1 Hw1; simpl in *.
  - apply Hp. by eapply rtc_subrel.
  - destruct (Hp w1) as [? Hk]; [by eapply rtc_subrel |]. eauto.
Qed.

(** A verified handler run alone, as a critical section does. *)
Lemma rg_run {W A} (R G : W → W → Prop) (Q : A → W → Prop) (p : prog W A) w :
  rg R G Q p w → rtc G w (run p w).1 ∧ Q (run p w).2 (run p w).1.
Proof.
  revert w. induction p as [a | X f k IH]; intros w Hp; simpl in *.
  - split; [done |]. by apply Hp.
  - destruct (Hp w) as [HG Hk]; [done |]. destruct (f w) as [w' x]. simpl in *.
    destruct (IH x w' Hk) as [H1 H2]. split; [by eapply rtc_l | done].
Qed.

(** What a program relies on and guarantees includes how it got where it returns. *)
Lemma rg_reached {W A} (R : W → W → Prop) (Q : A → W → Prop) (p : prog W A) w :
  rg R R Q p w → rg R R (λ a w1, Q a w1 ∧ rtc R w w1) p w.
Proof.
  assert (∀ w0, rtc R w0 w → rg R R Q p w → rg R R (λ a w1, Q a w1 ∧ rtc R w0 w1) p w) as Hgen.
  { revert w. induction p as [a | X f k IH]; intros w w0 Hw0 Hp w1 Hw1; simpl in *.
    - split; [by apply Hp | by etrans].
    - destruct (Hp w1 Hw1) as [HG Hk]. split; [done |]. apply IH; [| done].
      eapply rtc_r; [| exact HG]. by etrans. }
  by apply Hgen.
Qed.

(** The steps of all handlers but the [i]-th. *)
Definition others {W} (G : nat → W → W → Prop) (i : nat) (w w' : W) : Prop :=
  ∃ j, j ≠ i ∧ G j w w'.

Definition pool_rg {W A} (G : nat → W → W → Prop) (Q : nat → A → W → Prop)
    (c : W * list (prog W A)) : Prop :=
  ∀ i p, c.2 !! i = Some p → rg (others G i) (G i) (Q i) p c.1.

Lemma pool_rg_step {W A} (G : nat → W → W → Prop) Q (c c' : W * list (prog W A)) :
  pool_step c c' → pool_rg G Q c → (∃ i, G i c.1 c'.1) ∧ pool_rg G Q c'.
Proof.
  intros Hstep Hrg. inversion Hstep as [w ps i X f k w' x Hi Hf]; subst; simpl in *.
  destruct (Hrg i _ Hi w) as [HG Hk]; [done |]. simpl in *. rewrite Hf in HG, Hk. simpl in *.
  split; [by exists i |]. intros j p Hj. simpl in *.
  destruct (decide (i = j)) as [<- | Hne].
  - rewrite list_lookup_insert_eq in Hj by (by eapply lookup_lt_Some). by simplify_eq.
  - rewrite list_lookup_insert_ne in Hj by done.
    eapply rg_rely; [| by apply Hrg]. apply rtc_once. by exists i.
Qed.

(** Any interleaving of a verified pool only makes guaranteed steps. *)
Lemma pool_rg_steps {W A} (G : nat → W → W → Prop) Q (c c' : W * list (prog W A)) :
  rtc pool_step c c' → pool_rg G Q c →
  rtc (λ w w', ∃ i, G i w w') c.1 c'.1 ∧ pool_rg G Q c'.
Proof.
  induction 1 as [c | c c1 c2 Hs _ IH]; intros Hrg; [done |].
  destruct (pool_rg_step _ _ _ _ Hs Hrg) as [HG Hrg1]. destruct (IH Hrg1) as [IH1 IH2].
  split; [by eapply rtc_l | done].
Qed.

(** Run the pool by a given schedule of handler indices; an index without a
    pending action is skipped. *)
Fixpoint schedule {W A} (order : list nat) (c : W * list (prog W A)) : W * list (prog W A) :=
  match order with
  | [] => c
  | i :: order =>
      match c.2 !! i with
      | Some (Act f k) => let r := f c.1 in schedule order (r.1, <[i := k r.2]> c.2)
      | _ => schedule order c
      end
  end.

Lemma schedule_steps {W A} order (c : W * list (prog W A)) : rtc pool_step c (schedule order c).
Proof.
  revert c. induction order as [| i order IH]; intros [w ps]; simpl; [done |].
  destruct (ps !! i) as [[a | X f k] |] eqn:Hi; [apply IH | | apply IH].
  eapply rtc_l; [| apply IH]. eapply pool_act; [exact Hi | apply surjective_pairing].
Qed.

(** ** Decimal round trip *)

Lemma digit_val_pretty x : (x < 10)%N → digit_val (pretty_N_char x) = Some (Z.of_N x).
Proof.
  intros Hx. assert (x = 0 ∨ x = 1 ∨ x = 2 ∨ x = 3 ∨ x = 4 ∨ x = 5 ∨ x = 6 ∨ x = 7 ∨ x = 8 ∨ x = 9)%N
    as Hc by lia. repeat (destruct Hc as [-> | Hc]; [reflexivity |]). by subst.
Qed.

Lemma pretty_N_go_digits x s :
  Forall (λ c, is_Some (digit_val c)) (bytes s) →
  Forall (λ c, is_Some (digit_val c)) (bytes (pretty_N_go x s)) ∧
  parse_digits (bytes (pretty_N_go x s)) 0 = parse_digits (bytes s) (Z.of_N x) ∧
  ((0 < x)%N ∨ bytes s ≠ [] → bytes (pretty_N_go x s) ≠ []).
Proof.
  revert s. induction (N.lt_wf_0 x) as [x _ IH]; intros s Hs.
  destruct (decide (x = 0)%N) as [-> | Hx].
  { rewrite pretty_N_go_0. split_and!; [done | done |]. intros [? | ?]; [lia | done]. }
  rewrite pretty_N_go_step by lia.
  pose proof (N.mod_lt x 10 ltac:(lia)) as Hmod.
  destruct (IH (x `div` 10)%N ltac:(apply N.div_lt; lia) (String (pretty_N_char (x `mod` 10)) s))
    as (IH1 & IH2 & IH3).
  { simpl. constructor; [| done]. rewrite digit_val_pretty by done. by eexists. }
  split_and!; [done | | intros _; apply IH3; by right].
  rewrite IH2. simpl. rewrite digit_val_pretty by done. f_equal.
  rewrite <-(N2Z.inj_mul _ 10), <-N2Z.inj_add. f_equal. pose proof (N.div_mod x 10). lia.
Qed.

Lemma pretty_N_digits (x : N) :
  Forall (λ c, is_Some (digit_val c)) (bytes (pretty x)) ∧
  parse_unsigned (bytes (pretty x)) = Some (Z.of_N x).
Proof.
  unfold pretty, pretty_N. destruct (decide (x = 0)%N) as [-> | Hx].
  { split; [| done]. repeat constructor. by eexists. }
  destruct (pretty_N_go_digits x "") as (H1 & H2 & H3); [constructor |].
  split; [done |]. unfold parse_unsigned.
  destruct (bytes (pretty_N_go x "")) eqn:E; [destruct H3; [lia | done] |]. exact H2.
Qed.

(** The bytes of a printed integer. *)
Definition int_byte (c : ascii) : Prop := c = "-"%char ∨ is_Some (digit_val c).

Lemma pretty_Z_bytes (z : Z) : Forall int_byte (bytes (pretty z)) ∧ bytes (pretty z) ≠ [].
Proof.
  assert (∀ x : N, Forall int_byte (bytes (pretty x)) ∧ bytes (pretty x) ≠ []) as HN.
  { intros x. destruct (pretty_N_digits x) as [H1 H2]. split.
    - eapply Forall_impl; [exact H1 |]. by right.
    - intros E. by rewrite E in H2. }
  destruct z as [| p | p]; [apply (HN 0%N) | apply (HN (Npos p)) |].
  destruct (HN (Npos p)) as [H1 _].
  assert (bytes (pretty (Zneg p)) = "-"%char :: bytes (pretty (Npos p))) as -> by done.
  split; [| done]. constructor; [by left | done].
Qed.

Lemma ParseInt64_pretty (z : Z) :
  (int64_min ≤ z ≤ int64_max)%Z → ParseInt64 (pretty z) = Some z.
Proof.
  intros Hz. unfold ParseInt64.
  assert (∀ x : N, (match bytes (pretty x) with
    | [] => (false, []) | c :: l =>
      if decide (c = "-"%char) then (true, l)
      else if decide (c = "+"%char) then (false, l) else (false, c :: l) end) = (false, bytes (pretty x))) as HN.
  { intros x. destruct (pretty_N_digits x) as [H1 _].
    destruct (bytes (pretty x)) as [| c l]; [done |].
    apply Forall_cons in H1 as [[d Hd] _].
    destruct (decide (c = "-"%char)) as [-> |]; [done |].
    by destruct (decide (c = "+"%char)) as [-> |]. }
  destruct z as [| p | p]; [done | |].
  - change (pretty (Zpos p)) with (pretty (Npos p)). rewrite HN.
    destruct (pretty_N_digits (Npos p)) as [_ ->]. simpl. by rewrite bool_decide_eq_true_2.
  - change (bytes (pretty (Zneg p))) with ("-"%char :: bytes (pretty (Npos p))).
    cbv beta iota. rewrite decide_True by done. cbv beta iota. destruct (pretty_N_digits (Npos p)) as [_ ->].
    simpl. by rewrite bool_decide_eq_true_2.
Qed.

(** ** Trimming *)

Lemma trim_bytes_id seqs s :
  strip_any seqs s = None → strip_any (map reverse seqs) (reverse s) = None → trim_bytes seqs s = s.
Proof.
  intros H1 H2. unfold trim_bytes. destruct s as [| c s]; [done |].
  cbn [length trim_left]. rewrite H1. cbn [length trim_left]. rewrite H2. apply reverse_involutive.
Qed.

(** ** int64 arithmetic *)

Lemma int64_wrap_id z : (int64_min ≤ z ≤ int64_max)%Z → int64_wrap z = z.
Proof. unfold int64_wrap, int64_min, int64_max. intros Hz. rewrite Z.mod_small; lia. Qed.

Lemma int64_wrap_range z : (int64_min ≤ int64_wrap z ≤ int64_max)%Z.
Proof.
  unfold int64_wrap, int64_min, int64_max. pose proof (Z.mod_pos_bound (z + 2 ^ 63) (2 ^ 64)). lia.
Qed.
