(* ===== verification/ToolPattern.v ===== *)
(** * Tool-call patterns

    The pattern language shared by the broker and the gateway extension
    (internal/domain/approval/toolpattern/toolpattern.go): glob matching with
    escapes, literal escaping, canonical rendering of decoded JSON argument
    values, validation, and the human-readable form.

    [match_loop] is the index-based backtracking loop of [match]; [glob] is the
    reference meaning of a pattern, and the theorems relate the two. *)

From S2P Require Import Prelude.

Definition star : ascii := "*"%char.
Definition bslash : ascii := "\"%char.

(** ** Glob matching *)

(** The final loop of [match]: skip trailing stars, succeed at the end. *)
Fixpoint match_tail (g : list ascii) : bool :=
  match g with
  | [] => true
  | c :: g => if decide (c = star) then match_tail g else false
  end.

(** The main loop.  [best] is the index of the last star ([-1] in Go is
    [None]), [retry] the string index the last retry started from. *)
Fixpoint match_loop (fuel : nat) (g s : list ascii)
    (gi si : nat) (best : option nat) (retry : nat) : option bool :=
  match fuel with
  | O => None
  | S fuel =>
      match s !! si with
      | None => Some (match_tail (drop gi g))
      | Some c =>
          let backtrack :=
            match best with
            | None => Some false
            | Some st => match_loop fuel g s (S st) (S retry) best (S retry)
            end in
          match g !! gi with
          | None => backtrack
          | Some gc =>
              if decide (gc = star) then
                match_loop fuel g s (S gi) si (Some gi) si
              else if decide (gc = bslash) then
                match g !! S gi with
                | Some gc' =>
                    if decide (gc' = c)
                    then match_loop fuel g s (S (S gi)) (S si) best retry
                    else backtrack
                | None => backtrack
                end
              else if decide (gc = c)
              then match_loop fuel g s (S gi) (S si) best retry
              else backtrack
          end
      end
  end.

Definition match_fuel (g s : list ascii) : nat :=
  S (S (length g) * (S (length s) * S (length s))).

Definition match_glob (glob s : string) : bool :=
  let g := bytes glob in
  let t := bytes s in
  default false (match_loop (match_fuel g t) g t 0 0 None 0).

(** ** Escaping *)

(** [strings.NewReplacer] with the pairs backslash and star works byte by byte. *)
Definition escape_byte (c : ascii) : list ascii :=
  if decide (c = bslash) then [bslash; bslash]
  else if decide (c = star) then [bslash; star]
  else [c].

Definition escape_bytes (l : list ascii) : list ascii := l ≫= escape_byte.

Definition EscapeLiteral (s : string) : string :=
  of_bytes (escape_bytes (bytes s)).

(** ** Decoded JSON values *)

(** Go's float64 with [strconv.FormatFloat(_, 'f', -1, 64)] and
    [json.Number.Float64]: no theorem depends on the digits they produce. *)
Class GoFloat := {
  float64 : Type;
  FormatFloat : float64 → string;
  Number_Float64 : string → option float64;
}.

(** A Go [any] as the JSON decoder (or a caller) produces it.  [AMapOther] is a
    map whose key kind is not string, [AOther] any other dynamic type. *)
#[warnings="-register-all"]
Inductive any `{GoFloat} : Type :=
  | AString (s : string)
  | AFloat64 (f : float64)
  | AFloat32 (f : float64)
  | ANumber (s : string)
  | AInt (z : Z)
  | AUint (n : N)
  | ABool (b : bool)
  | ANil
  | AMap (entries : list (string * any))
  | AMapOther
  | ASlice (elems : list any)
  | APtr (target : option any)
  | AOther.

Definition FormatBool (b : bool) : string := if b then "true" else "false".

Definition hex_digit (n : N) : ascii :=
  if bool_decide (n < 10)%N then byte (48 + n) else byte (87 + n).

(** One byte of a quoted JSON string. *)
Definition quote_byte (c : ascii) : list ascii :=
  let n := N_of_ascii c in
  if decide (c = dquote) then [bslash; dquote]
  else if decide (c = bslash) then [bslash; bslash]
  else if decide (n = 8%N) then [bslash; "b"%char]
  else if decide (n = 9%N) then [bslash; "t"%char]
  else if decide (n = 10%N) then [bslash; "n"%char]
  else if decide (n = 12%N) then [bslash; "f"%char]
  else if decide (n = 13%N) then [bslash; "r"%char]
  else if bool_decide (n < 32)%N then
    [bslash; "u"%char; "0"%char; "0"%char;
     hex_digit (N.shiftr n 4); hex_digit (N.land n 15)]
  else [c].

Definition quoteJSON (s : string) : string :=
  of_bytes (dquote :: (bytes s ≫= quote_byte) ++ [dquote]).

(** Entries ordered by key, bytewise. *)
Definition key_le {A} (p q : string * A) : Prop := (p.1 ≤ q.1)%string.
#[export] Instance key_le_dec {A} : RelDecision (@key_le A).
Proof. intros p q. unfold key_le. apply _. Defined.

Definition sort_by_key {A} (l : list (string * A)) : list (string * A) :=
  merge_sort key_le l.

Section canonical.
Context `{GoFloat}.

Definition canonical_number (s : string) : string :=
  match Number_Float64 s with
  | Some f => FormatFloat f
  | None => s
  end.

(** [canonicalJSON]: keys sorted; a pointer is followed, and a pointer to
    anything but a map, array or slice renders as null. *)
Fixpoint canonicalJSON (v : any) : string :=
  match v with
  | ANil => "null"
  | AString s => quoteJSON s
  | ABool b => FormatBool b
  | AFloat64 f | AFloat32 f => FormatFloat f
  | ANumber s => canonical_number s
  | AInt z => pretty z
  | AUint n => pretty n
  | AMap entries =>
      let rendered :=
        (fix go (l : list (string * any)) : list (string * string) :=
          match l with
          | [] => []
          | (k, x) :: l => (k, canonicalJSON x) :: go l
          end) entries in
      "{" +:+
        Join (map (λ p, quoteJSON p.1 +:+ ":" +:+ p.2) (sort_by_key rendered)) "," +:+
      "}"
  | AMapOther => "null"
  | ASlice elems =>
      "[" +:+ Join (map canonicalJSON elems) "," +:+ "]"
  | APtr None => "null"
  | APtr (Some x) =>
      match x with
      | AMap _ | ASlice _ | APtr _ => canonicalJSON x
      | _ => "null"
      end
  | AOther => "null"
  end.

Definition Canonical (v : any) : string :=
  match v with
  | AString s => s
  | AFloat64 f | AFloat32 f => FormatFloat f
  | ANumber s => canonical_number s
  | AInt z => pretty z
  | AUint n => pretty n
  | ABool b => FormatBool b
  | ANil => "null"
  | _ => canonicalJSON v
  end.

(** Argument maps: a nil Go map is [None]. *)
Definition arguments : Type := option (gmap string any).

Definition ExactParams (args : arguments) : gmap string string :=
  (λ v, EscapeLiteral (Canonical v)) <$> default ∅ args.

(** ** Matching a whole invocation *)

Definition param_matches (args : arguments) (p : string * string) : bool :=
  match args ≫= (.!! p.1) with
  | Some v => match_glob p.2 (Canonical v)
  | None => false
  end.

Definition Matches (toolPattern : string) (paramsPattern : gmap string string)
    (toolName : string) (args : arguments) : bool :=
  match_glob toolPattern toolName &&
  forallb (param_matches args) (map_to_list paramsPattern).

End canonical.

(** ** Validation *)

Inductive pattern_error : Type :=
  | ToolPatternLength
  | ToolPatternTrailingEscape
  | ToolPatternCharacter (c : ascii)
  | ParamsTooManyEntries
  | ParamsInvalidKey (k : string)
  | ParamsValueTooLong (k : string)
  | ParamsTrailingEscape (k : string).

Definition code (c : ascii) : N := N_of_ascii c.

Definition tool_char (c : ascii) : bool :=
  bool_decide (c = star) ||
  bool_decide (65 ≤ code c ≤ 90)%N ||
  bool_decide (97 ≤ code c ≤ 122)%N ||
  bool_decide (48 ≤ code c ≤ 57)%N ||
  bool_decide (c ∈ ["_"; "."; ":"; "/"; "-"]%char).

(** The scan of [ValidateToolPattern]: an escape consumes the next byte. *)
Fixpoint validate_tool_bytes (p : list ascii) : result pattern_error unit :=
  match p with
  | [] => Ok ()
  | c :: p =>
      if decide (c = bslash) then
        match p with
        | [] => Err ToolPatternTrailingEscape
        | _ :: p => validate_tool_bytes p
        end
      else if tool_char c then validate_tool_bytes p
      else Err (ToolPatternCharacter c)
  end.

Definition ValidateToolPattern (p : string) : result pattern_error unit :=
  if decide (p = "" ∨ 255 < length (bytes p)) then Err ToolPatternLength
  else validate_tool_bytes (bytes p).

(** The number of backslashes at the end of the string. *)
Fixpoint count_leading (c : ascii) (l : list ascii) : nat :=
  match l with
  | [] => 0
  | d :: l => if decide (d = c) then S (count_leading c l) else 0
  end.

Definition hasEscapedTrailingBackslash (s : string) : bool :=
  Nat.even (count_leading bslash (reverse (bytes s))).

Definition HasSuffixBackslash (s : string) : bool :=
  bool_decide (last (bytes s) = Some bslash).

Definition validate_param (p : string * string) : result pattern_error unit :=
  if decide (p.1 = "" ∨ 255 < length (bytes p.1)) then Err (ParamsInvalidKey p.1)
  else if decide (1024 < length (bytes p.2)) then Err (ParamsValueTooLong p.1)
  else if HasSuffixBackslash p.2 && negb (hasEscapedTrailingBackslash p.2)
  then Err (ParamsTrailingEscape p.1)
  else Ok ().

Fixpoint validate_params (l : list (string * string)) : result pattern_error unit :=
  match l with
  | [] => Ok ()
  | p :: l => _ ← validate_param p; validate_params l
  end.

(** Go ranges over the map in an unspecified order; which invalid entry is
    reported depends on it, whether one is does not. *)
Definition ValidateParamsPattern (m : gmap string string) : result pattern_error unit :=
  if decide (64 < size m) then Err ParamsTooManyEntries
  else validate_params (map_to_list m).

(** [Format]: keys sorted, comma separated. *)
Definition Format (toolPattern : string) (paramsPattern : gmap string string) : string :=
  if decide (size paramsPattern = 0) then toolPattern
  else toolPattern +:+ "(" +:+
    Join (map (λ p, p.1 +:+ "=" +:+ p.2) (sort_by_key (map_to_list paramsPattern))) "," +:+
    ")".

(** ** The meaning of a pattern *)

(** A star matches any run of bytes, an escape its next byte, any other byte
    itself; a trailing lone backslash matches nothing. *)
Inductive glob : list ascii → list ascii → Prop :=
  | glob_nil : glob [] []
  | glob_star_skip g s : glob g s → glob (star :: g) s
  | glob_star_take g c s : glob (star :: g) s → glob (star :: g) (c :: s)
  | glob_escape g c s : glob g s → glob (bslash :: c :: g) (c :: s)
  | glob_literal g c s : c ≠ star → c ≠ bslash → glob g s → glob (c :: g) (c :: s).

(** [lits k g s g' s']: [k] star-free tokens of [g] match the first [k] bytes
    of [s], leaving [g'] and [s']. *)
Inductive lits : nat → list ascii → list ascii → list ascii → list ascii → Prop :=
  | lits_nil g s : lits 0 g s g s
  | lits_escape k g c s g' s' : lits k g s (bslash :: c :: g') (c :: s') → lits (S k) g s g' s'
  | lits_literal k g c s g' s' :
      c ≠ star → c ≠ bslash → lits k g s (c :: g') (c :: s') → lits (S k) g s g' s'.

#[export] Hint Constructors glob lits : broker.

Lemma lits_drop k g s g' s' : lits k g s g' s' → s' = drop k s ∧ k ≤ length s.
Proof.
  induction 1 as [| k g c s g' s' _ [IH1 IH2] | k g c s g' s' _ _ _ [IH1 IH2]];
    simpl; [split; [done | lia] | ..].
  all: assert (s !! k = Some c) as Hk
    by (rewrite <-(Nat.add_0_r k), <-lookup_drop, <-IH1; done).
  all: pose proof (lookup_lt_Some _ _ _ Hk); split; [| lia].
  all: rewrite <-Nat.add_1_r, <-drop_drop, <-IH1; done.
Qed.

(** Matching a shorter suffix passes through the same tokens. *)
Lemma lits_glob k g s g' s' t :
  lits k g s g' s' → glob g t → k ≤ length t ∧ glob g' (drop k t).
Proof.
  induction 1 as [| k g c s g' s' _ IH | k g c s g' s' Hc1 Hc2 _ IH]; intros Ht;
    [split; [lia | done] | ..]; specialize (IH Ht) as [Hl IH]; inversion IH as
      [| | | g0 c0 t0 Hg E1 E2 | g0 c0 t0 ?? Hg E1 E2]; simplify_eq.
  all: assert (t !! k = Some c) as Hk
    by (rewrite <-(Nat.add_0_r k), <-lookup_drop, <-E2; done).
  all: pose proof (lookup_lt_Some _ _ _ Hk).
  all: rewrite <-Nat.add_1_r, <-drop_drop, <-E2; split; [lia | done].
Qed.

Lemma glob_star_drop g s j : glob (star :: g) (drop j s) → glob (star :: g) s.
Proof.
  revert j. induction s as [| c s IH]; intros j; [by rewrite drop_nil |].
  destruct j as [| j]; simpl; eauto with broker.
Qed.

Lemma glob_star_inv g s :
  glob (star :: g) s ↔ ∃ j, j ≤ length s ∧ glob g (drop j s).
Proof.
  split.
  - remember (star :: g) as p eqn:E. induction 1; simplify_eq.
    + exists 0. split; [lia | done].
    + destruct IHglob as (j & ? & ?); [done |]. exists (S j). simpl. split; [lia | done].
  - intros (j & _ & ?). eapply (glob_star_drop _ _ j). by constructor.
Qed.

Lemma match_tail_spec g : match_tail g = true ↔ glob g [].
Proof.
  induction g as [| c g IH]; simpl; [split; eauto with broker |].
  case_decide; subst.
  - rewrite IH. split; [by constructor |].
    rewrite glob_star_inv. intros (j & _ & ?). by rewrite drop_nil in *.
  - split; [done |]. inversion 1; simplify_eq.
Qed.

Section match_loop_correct.
Context (g s : list ascii).

(** What the loop still accepts: the current position, or a later retry. *)
Definition accepts (gi si : nat) (best : option nat) (retry : nat) : Prop :=
  glob (drop gi g) (drop si s) ∨
  ∃ st j, best = Some st ∧ retry < j ≤ length s ∧ glob (drop (S st) g) (drop j s).

Definition loop_inv (gi si : nat) (best : option nat) (retry : nat) : Prop :=
  si ≤ length s ∧ gi ≤ length g ∧
  ∀ st, best = Some st →
    st < gi ∧ retry ≤ si ∧ ∃ k, lits k (drop (S st) g) (drop retry s) (drop gi g) (drop si s).

(** The iterations left: stars still to be passed, then retries, then bytes. *)
Definition loop_measure (gi si : nat) (best : option nat) (retry : nat) : nat :=
  match best with
  | None => S (length g) * (S (length s) * S (length s)) - si
  | Some st =>
      (length g - S st) * (S (length s) * S (length s)) +
      (length s - retry) * S (length s) + (length s - si)
  end.

Lemma drop_cons i (l : list ascii) c : l !! i = Some c → drop i l = c :: drop (S i) l.
Proof. apply drop_S. Qed.

(** A later retry that succeeds is also reached through a new star. *)
Lemma retry_through_star gi si best retry st j :
  loop_inv gi si best retry → best = Some st → g !! gi = Some star →
  retry < j ≤ length s → glob (drop (S st) g) (drop j s) → glob (drop gi g) (drop si s).
Proof.
  intros (_ & _ & Hinv) -> Hg Hj Hglob.
  destruct (Hinv _ eq_refl) as (_ & _ & k & Hl).
  destruct (lits_glob _ _ _ _ _ _ Hl Hglob) as [_ Hm].
  destruct (lits_drop _ _ _ _ _ Hl) as [Hs _].
  rewrite (drop_cons _ _ _ Hg) in Hm |- *. rewrite Hs, drop_drop.
  rewrite drop_drop in Hm. apply (glob_star_drop _ _ (j - retry)).
  rewrite drop_drop. by replace (retry + k + (j - retry)) with (j + k) by lia.
Qed.

(** With the string consumed no later retry can succeed. *)
Lemma no_retry_at_end gi si best retry st j :
  loop_inv gi si best retry → best = Some st → s !! si = None →
  retry < j ≤ length s → ¬ glob (drop (S st) g) (drop j s).
Proof.
  intros (Hsi & _ & Hinv) -> Hs Hj Hglob.
  destruct (Hinv _ eq_refl) as (_ & _ & k & Hl).
  destruct (lits_glob _ _ _ _ _ _ Hl Hglob) as [Hk _]. rewrite length_drop in Hk.
  destruct (lits_drop _ _ _ _ _ Hl) as [E Hk'].
  apply (f_equal length) in E. rewrite !length_drop in *.
  apply lookup_ge_None in Hs. lia.
Qed.

(** What remains to be tried when the current position fails. *)
Lemma accepts_backtrack gi si best retry :
  loop_inv gi si best retry → ¬ glob (drop gi g) (drop si s) → si < length s →
  match best with
  | None => ¬ accepts gi si best retry
  | Some st =>
      loop_inv (S st) (S retry) best (S retry) ∧
      loop_measure (S st) (S retry) best (S retry) < loop_measure gi si best retry ∧
      (accepts gi si best retry ↔ accepts (S st) (S retry) best (S retry))
  end.
Proof.
  intros (Hsi & Hgi & Hinv) Hno Hlt. destruct best as [st |]; unfold accepts.
  - destruct (Hinv _ eq_refl) as (Hst & Hre & _). split_and!.
    + split_and!; [lia | lia |]. intros st' [= <-].
      split_and!; [lia | lia |]. exists 0. constructor.
    + unfold loop_measure. assert (length s - retry = S (length s - S retry)) as -> by lia.
      simpl. lia.
    + split.
      * intros [? | (st' & j & [= <-] & Hj & ?)]; [done |].
        destruct (decide (j = S retry)) as [-> |]; [by left |].
        right. exists st, j. split_and!; [done | lia | lia | done].
      * intros [? | (st' & j & [= <-] & Hj & ?)]; right; eexists st, _;
          (split_and!; [done | | | eassumption]; lia).
  - intros [? | (? & ? & ? & ?)]; done.
Qed.

Lemma glob_literal_inv p c d t :
  c ≠ star → c ≠ bslash → glob (c :: p) (d :: t) ↔ c = d ∧ glob p t.
Proof.
  intros. split; [inversion 1; simplify_eq; done |]. intros [-> ?]. by constructor.
Qed.

Lemma glob_escape_inv p c d t : glob (bslash :: c :: p) (d :: t) ↔ c = d ∧ glob p t.
Proof.
  split; [inversion 1; simplify_eq; done |]. intros [-> ?]. by constructor.
Qed.

(** Advancing over one matched token of [n] pattern bytes. *)
Lemma accepts_advance n gi si best retry c :
  loop_inv gi si best retry → s !! si = Some c → gi + n ≤ length g →
  (glob (drop gi g) (drop si s) ↔ glob (drop (gi + n) g) (drop (S si) s)) →
  (∀ st k, lits k (drop (S st) g) (drop retry s) (drop gi g) (drop si s) →
     lits (S k) (drop (S st) g) (drop retry s) (drop (gi + n) g) (drop (S si) s)) →
  loop_inv (gi + n) (S si) best retry ∧
  loop_measure (gi + n) (S si) best retry < loop_measure gi si best retry ∧
  (accepts gi si best retry ↔ accepts (gi + n) (S si) best retry).
Proof.
  intros (Hsi & Hgi & Hinv) Hs Hn Hiff Hstep.
  pose proof (lookup_lt_Some _ _ _ Hs) as Hlt. split_and!.
  - split_and!; [lia | lia |]. intros st ->.
    destruct (Hinv _ eq_refl) as (? & ? & k & Hk). split_and!; [lia | lia |].
    exists (S k). by apply Hstep.
  - unfold loop_measure. destruct best; [lia |].
    enough (si < S (length g) * (S (length s) * S (length s))) by lia. simpl. lia.
  - unfold accepts. by rewrite Hiff.
Qed.

(** Passing a star. *)
Lemma accepts_star gi si best retry c :
  loop_inv gi si best retry → s !! si = Some c → g !! gi = Some star →
  loop_inv (S gi) si (Some gi) si ∧
  loop_measure (S gi) si (Some gi) si < loop_measure gi si best retry ∧
  (accepts gi si best retry ↔ accepts (S gi) si (Some gi) si).
Proof.
  intros Hfull Hs Hg. pose proof Hfull as (Hsi & Hgi & Hinv).
  pose proof (lookup_lt_Some _ _ _ Hs) as Hlt.
  pose proof (lookup_lt_Some _ _ _ Hg) as Hltg. split_and!.
  - split_and!; [lia | lia |]. intros st [= <-]. split_and!; [lia | lia |].
    exists 0. constructor.
  - unfold loop_measure. destruct best as [st |].
    + destruct (Hinv _ eq_refl) as (? & _).
      assert (length g - S st = S (length g - S (S st))) as -> by lia.
      assert ((length g - S gi) * (S (length s) * S (length s)) ≤
              (length g - S (S st)) * (S (length s) * S (length s)))
        by (apply Nat.mul_le_mono_r; lia).
      assert ((length s - si) * S (length s) ≤ length s * S (length s))
        by (apply Nat.mul_le_mono_r; lia). simpl in *. lia.
    + assert (S (length g) = S (S gi) + (length g - S gi)) as -> by lia.
      assert ((length s - si) * S (length s) ≤ length s * S (length s))
        by (apply Nat.mul_le_mono_r; lia). simpl in *. lia.
  - assert (glob (drop gi g) (drop si s) ↔
      ∃ j, si ≤ j ≤ length s ∧ glob (drop (S gi) g) (drop j s)) as Hstar.
    { rewrite (drop_cons _ _ _ Hg), glob_star_inv, length_drop. split.
      - intros (j & ? & ?). exists (si + j). rewrite drop_drop in *. split; [lia | done].
      - intros (j & ? & ?). exists (j - si). rewrite drop_drop.
        replace (si + (j - si)) with j by lia. split; [lia | done]. }
    unfold accepts. split.
    + intros Hacc. assert (glob (drop gi g) (drop si s)) as Hcur.
      { destruct Hacc as [? | (st & j & ? & ? & ?)]; [done |].
        by eapply retry_through_star. }
      apply Hstar in Hcur as (j & ? & ?).
      destruct (decide (j = si)) as [-> |]; [by left |].
      right. exists gi, j. split_and!; [done | lia | lia | done].
    + intros [? | (st & j & [= <-] & ? & ?)]; left; apply Hstar;
        [exists si; split; [lia | done] | exists j; split; [lia | done]].
Qed.

(** The escaped and the literal byte that match move both cursors on. *)
Lemma accepts_escape gi si best retry c :
  loop_inv gi si best retry → g !! gi = Some bslash → g !! S gi = Some c → s !! si = Some c →
  loop_inv (S (S gi)) (S si) best retry ∧
  loop_measure (S (S gi)) (S si) best retry < loop_measure gi si best retry ∧
  (accepts gi si best retry ↔ accepts (S (S gi)) (S si) best retry).
Proof.
  intros Hinv Hg Hg' Hs. pose proof (lookup_lt_Some _ _ _ Hg'). pose proof (lookup_lt_Some _ _ _ Hs).
  replace (S (S gi)) with (gi + 2) by lia.
  eapply accepts_advance; [done | done | lia | |]; rewrite (Nat.add_comm gi); simpl.
  - rewrite (drop_cons _ _ _ Hg), (drop_cons _ _ _ Hg'), (drop_cons _ _ _ Hs).
    rewrite glob_escape_inv. naive_solver.
  - intros st k. rewrite (drop_cons gi _ _ Hg), (drop_cons (S gi) _ _ Hg'), (drop_cons si _ _ Hs).
    by econstructor.
Qed.

Lemma accepts_literal gi si best retry c :
  loop_inv gi si best retry → c ≠ star → c ≠ bslash → g !! gi = Some c → s !! si = Some c →
  loop_inv (S gi) (S si) best retry ∧
  loop_measure (S gi) (S si) best retry < loop_measure gi si best retry ∧
  (accepts gi si best retry ↔ accepts (S gi) (S si) best retry).
Proof.
  intros Hinv Hst Hbs Hg Hs. pose proof (lookup_lt_Some _ _ _ Hg). pose proof (lookup_lt_Some _ _ _ Hs).
  replace (S gi) with (gi + 1) by lia.
  eapply accepts_advance; [done | done | lia | |]; rewrite (Nat.add_comm gi); simpl.
  - rewrite (drop_cons _ _ _ Hg), (drop_cons _ _ _ Hs). rewrite glob_literal_inv by done. naive_solver.
  - intros st k. rewrite (drop_cons gi _ _ Hg), (drop_cons si _ _ Hs). by eapply lits_literal.
Qed.

Lemma match_loop_correct fuel gi si best retry :
  loop_inv gi si best retry → loop_measure gi si best retry < fuel →
  ∃ b, match_loop fuel g s gi si best retry = Some b ∧
    (b = true ↔ accepts gi si best retry).
Proof.
  revert gi si best retry.
  induction fuel as [| fuel IH]; intros gi si best retry Hinv Hfuel; [lia |].
  assert (∀ gi' si' best' retry',
    loop_inv gi' si' best' retry' ∧
    loop_measure gi' si' best' retry' < loop_measure gi si best retry ∧
    (accepts gi si best retry ↔ accepts gi' si' best' retry') →
    ∃ b, match_loop fuel g s gi' si' best' retry' = Some b ∧
      (b = true ↔ accepts gi si best retry)) as Hgo.
  { intros gi' si' best' retry' (? & ? & Hacc). setoid_rewrite Hacc. apply IH; [done | lia]. }
  simpl. destruct (s !! si) as [c |] eqn:Hs.
  2:{ eexists. split; [done |]. rewrite match_tail_spec. unfold accepts.
      assert (drop si s = []) as -> by (apply drop_ge; by apply lookup_ge_None).
      split; [by left |]. intros [? | (st & j & ? & ? & ?)]; [done |].
      by eapply no_retry_at_end in Hinv. }
  pose proof (lookup_lt_Some _ _ _ Hs) as Hlt.
  assert (¬ glob (drop gi g) (drop si s) → ∃ b,
    match best with
    | None => Some false
    | Some st => match_loop fuel g s (S st) (S retry) best (S retry)
    end = Some b ∧ (b = true ↔ accepts gi si best retry)) as Hback.
  { intros Hno. pose proof (accepts_backtrack _ _ _ _ Hinv Hno Hlt) as Hb.
    destruct best; [by apply Hgo | by exists false]. }
  rewrite (drop_cons _ _ _ Hs) in Hback.
  destruct (g !! gi) as [gc |] eqn:Hg.
  2:{ apply Hback. rewrite drop_ge by (by apply lookup_ge_None). inversion 1. }
  rewrite (drop_cons _ _ _ Hg) in Hback.
  case_decide; [subst; apply Hgo; by eapply accepts_star |].
  case_decide as Hbs.
  - subst gc. destruct (g !! S gi) as [gc' |] eqn:Hg'.
    + rewrite (drop_cons _ _ _ Hg'), glob_escape_inv in Hback.
      case_decide; [subst; apply Hgo; by eapply accepts_escape | by apply Hback; intros [??]].
    + apply Hback. rewrite (drop_ge g) by (by apply lookup_ge_None). by inversion 1.
  - rewrite glob_literal_inv in Hback by done.
    case_decide; [subst; apply Hgo; by eapply accepts_literal | by apply Hback; intros [??]].
Qed.
End match_loop_correct.

Lemma match_glob_loop p s :
  match_loop (match_fuel (bytes p) (bytes s)) (bytes p) (bytes s) 0 0 None 0 =
    Some (match_glob p s) ∧
  (match_glob p s = true ↔ glob (bytes p) (bytes s)).
Proof.
  destruct (match_loop_correct (bytes p) (bytes s)
    (match_fuel (bytes p) (bytes s)) 0 0 None 0) as (b & Hb & Hacc).
  - split_and!; [lia | lia | done].
  - unfold loop_measure, match_fuel. lia.
  - unfold match_glob. rewrite Hb. simpl. split; [done |]. rewrite Hacc. unfold accepts.
    rewrite !drop_0. naive_solver.
Qed.

Lemma match_glob_spec p s : match_glob p s = true ↔ glob (bytes p) (bytes s).
Proof. apply match_glob_loop. Qed.

Lemma glob_escape_byte c g t :
  glob (escape_byte c ++ g) t ↔ ∃ t', t = c :: t' ∧ glob g t'.
Proof.
  unfold escape_byte. repeat case_decide; subst; simpl; split.
  all: try (intros (t' & -> & ?); by constructor).
  all: inversion 1; simplify_eq; eauto.
Qed.

Lemma escape_glob l t : glob (escape_bytes l) t ↔ t = l.
Proof.
  unfold escape_bytes. revert t.
  induction l as [| c l IH]; intros t; simpl.
  - split; [by inversion 1 | intros ->; constructor].
  - rewrite glob_escape_byte. setoid_rewrite IH. naive_solver.
Qed.

Lemma match_EscapeLiteral s t : match_glob (EscapeLiteral s) t = true ↔ t = s.
Proof.
  unfold EscapeLiteral. rewrite match_glob_spec, bytes_of_bytes, escape_glob.
  split; [apply (inj bytes) | by intros ->].
Qed.

(** *** Escapes and validation *)

(** Whether the bytes end inside an escape, reading from the left. *)
Definition ends_in_escape (l : list ascii) : bool :=
  foldl (λ (e : bool) c, negb e && bool_decide (c = bslash)) false l.

Lemma ends_in_escape_trailing s :
  HasSuffixBackslash s && negb (hasEscapedTrailingBackslash s) = ends_in_escape (bytes s).
Proof.
  unfold HasSuffixBackslash, hasEscapedTrailingBackslash, ends_in_escape.
  generalize (bytes s). clear s. intros l.
  assert (Nat.odd (count_leading bslash (reverse l)) =
    foldl (λ (e : bool) c, negb e && bool_decide (c = bslash)) false l) as Hodd.
  { induction l as [| c l IH] using rev_ind; [done |].
    rewrite reverse_snoc, foldl_snoc, <-IH. simpl. case_decide as Hc.
    - rewrite bool_decide_eq_true_2, andb_true_r by done. by rewrite Nat.odd_succ, <-Nat.negb_odd.
    - by rewrite bool_decide_eq_false_2, andb_false_r by done. }
  rewrite <-Hodd. destruct l as [| c l _] using rev_ind; [done |].
  rewrite last_snoc, reverse_snoc. simpl. rewrite Nat.negb_even. case_decide as Hc.
  - by rewrite bool_decide_eq_true_2 by congruence.
  - by rewrite bool_decide_eq_false_2 by congruence.
Qed.

Lemma ends_in_escape_star g : ends_in_escape (star :: g) = ends_in_escape g.
Proof. done. Qed.

Lemma ends_in_escape_pair c g : ends_in_escape (bslash :: c :: g) = ends_in_escape g.
Proof. done. Qed.

Lemma ends_in_escape_lit c g : c ≠ bslash → ends_in_escape (c :: g) = ends_in_escape g.
Proof. intros. unfold ends_in_escape. simpl. by rewrite bool_decide_eq_false_2. Qed.

Lemma glob_not_dangling g s : glob g s → ends_in_escape g = false.
Proof.
  induction 1; try done.
  by rewrite ends_in_escape_lit.
Qed.

Lemma not_dangling_glob g : ends_in_escape g = false → ∃ s, glob g s.
Proof.
  induction g as [g IH] using (induction_ltof1 _ (@length _)); unfold ltof in IH.
  destruct g as [| c g]; [eauto with broker |].
  destruct (decide (c = star)) as [-> |].
  { intros Hd. destruct (IH g) as [s ?]; [simpl; lia | done |]. exists s. by constructor. }
  destruct (decide (c = bslash)) as [-> |].
  - destruct g as [| d g]; [done |]. intros Hd.
    destruct (IH g) as [s ?]; [simpl; lia | done |]. exists (d :: s). by constructor.
  - rewrite ends_in_escape_lit by done. intros Hd.
    destruct (IH g) as [s ?]; [simpl; lia | done |]. exists (c :: s). by constructor.
Qed.

Lemma escape_not_dangling l : ends_in_escape (escape_bytes l) = false.
Proof. eapply glob_not_dangling. by apply escape_glob. Qed.

Lemma validate_param_ok k v :
  validate_param (k, v) = Ok () ↔
  k ≠ "" ∧ length (bytes k) ≤ 255 ∧ length (bytes v) ≤ 1024 ∧ ends_in_escape (bytes v) = false.
Proof.
  unfold validate_param. simpl. rewrite ends_in_escape_trailing.
  repeat case_decide; try (destruct (ends_in_escape _)); naive_solver lia.
Qed.

Lemma validate_params_ok l :
  validate_params l = Ok () ↔ Forall (λ p, validate_param p = Ok ()) l.
Proof.
  induction l as [| p l IH]; simpl; [split; [constructor | done] |].
  rewrite Forall_cons, <-IH. unfold mbind, result_bind.
  destruct (validate_param p) as [[] | e]; naive_solver.
Qed.

Lemma ValidateParamsPattern_ok m :
  ValidateParamsPattern m = Ok () ↔
  size m ≤ 64 ∧ map_Forall (λ k v, validate_param (k, v) = Ok ()) m.
Proof.
  unfold ValidateParamsPattern. case_decide; [naive_solver lia |].
  rewrite validate_params_ok, Forall_forall. split.
  - intros Hl. split; [lia |]. intros k v Hx.
    apply (Hl (k, v)). by apply elem_of_map_to_list.
  - intros [_ Hl] [k v] Hx. apply Hl. by apply elem_of_map_to_list.
Qed.

Lemma validate_escaped l :
  validate_tool_bytes (escape_bytes l) = Ok () ↔
  Forall (λ c, c = bslash ∨ tool_char c = true) l.
Proof.
  unfold escape_bytes. induction l as [| c l IH]; simpl; [split; [constructor | done] |].
  rewrite Forall_cons, <-IH. unfold escape_byte at 1.
  case_decide; subst; [simpl; naive_solver |].
  case_decide; subst; [simpl; naive_solver |].
  simpl. rewrite decide_False by done. destruct (tool_char c); naive_solver.
Qed.

(** ** Properties *)

(** Claim C36.  The index loop of [match] returns for every pattern and string
    (its iterations are bounded by [match_fuel]), and answers true exactly when
    the pattern's meaning [glob] accepts the string. *)
Theorem match_glob_correct (p s : string) :
  match_loop (match_fuel (bytes p) (bytes s)) (bytes p) (bytes s) 0 0 None 0 =
    Some (match_glob p s) ∧
  (match_glob p s = true ↔ glob (bytes p) (bytes s)).
Proof. apply match_glob_loop. Qed.

(** The escaped form of a string matches that string and no other. *)
Theorem EscapeLiteral_exact (s t : string) :
  match_glob (EscapeLiteral s) t = true ↔ t = s.
Proof. apply match_EscapeLiteral. Qed.

(** [ValidateParamsPattern] accepts a params pattern exactly when it
    has at most 64 entries, every key has 1 to 255 bytes, every value at most
    1024, and every value is a satisfiable glob: the trailing-escape test, which
    counts backslashes from the right, rejects exactly the values that match no
    string at all. *)
Theorem ValidateParamsPattern_spec (m : gmap string string) :
  ValidateParamsPattern m = Ok () ↔
  size m ≤ 64 ∧
  map_Forall (λ k v, k ≠ "" ∧ length (bytes k) ≤ 255 ∧ length (bytes v) ≤ 1024 ∧
    ∃ s, match_glob v s = true) m.
Proof.
  rewrite ValidateParamsPattern_ok. apply and_iff_compat_l.
  split; intros Hm k v Hk; specialize (Hm k v Hk).
  - apply validate_param_ok in Hm as (? & ? & ? & Hd). split_and!; [done.. |].
    destruct (not_dangling_glob _ Hd) as [s Hs]. exists (of_bytes s).
    by rewrite match_glob_spec, bytes_of_bytes.
  - destruct Hm as (? & ? & ? & s & Hs). apply validate_param_ok. split_and!; [done.. |].
    rewrite match_glob_spec in Hs. by eapply glob_not_dangling.
Qed.

Lemma forallb_map_Forall `{GoFloat} args (m : gmap string string) :
  forallb (param_matches args) (map_to_list m) = true ↔
  map_Forall (λ k p, ∃ v, args ≫= (.!! k) = Some v ∧ match_glob p (Canonical v) = true) m.
Proof.
  rewrite forallb_forall. setoid_rewrite <-list_elem_of_In. split.
  - intros Hl k p Hk. specialize (Hl (k, p)). unfold param_matches in Hl. simpl in Hl.
    destruct (args ≫= _) as [v |]; [exists v; split; [done |] |];
      [| exfalso; apply diff_false_true]; apply Hl; by apply elem_of_map_to_list.
  - intros Hm [k p] Hk. apply elem_of_map_to_list in Hk.
    destruct (Hm k p Hk) as (v & Hv & Hp). unfold param_matches. simpl. by rewrite Hv.
Qed.

Lemma Matches_spec `{GoFloat} tp (pp : gmap string string) tool args :
  Matches tp pp tool args = true ↔
  match_glob tp tool = true ∧
  map_Forall (λ k p, ∃ v, args ≫= (.!! k) = Some v ∧ match_glob p (Canonical v) = true) pp.
Proof. unfold Matches. by rewrite andb_true_iff, forallb_map_Forall. Qed.

(** The exact pattern of a reviewed call covers a call exactly when
    the tool name is the same and every reviewed argument is present with the
    same canonical rendering. *)
Theorem ExactParams_covers `{GoFloat} (tool tool' : string) (args args' : arguments) :
  Matches (EscapeLiteral tool) (ExactParams args) tool' args' = true ↔
  tool' = tool ∧
  ∀ k v, args ≫= (.!! k) = Some v →
    ∃ v', args' ≫= (.!! k) = Some v' ∧ Canonical v' = Canonical v.
Proof.
  rewrite Matches_spec, match_EscapeLiteral. apply and_iff_compat_l. unfold ExactParams.
  rewrite map_Forall_fmap. unfold map_Forall. simpl.
  setoid_rewrite match_EscapeLiteral. by destruct args.
Qed.

(** The escaped tool name is a legal tool pattern exactly when the
    name is not empty, fits 255 bytes once escaped, and consists of the
    permitted characters (or backslashes). *)
Theorem ValidateToolPattern_escaped (name : string) :
  ValidateToolPattern (EscapeLiteral name) = Ok () ↔
  name ≠ "" ∧ length (escape_bytes (bytes name)) ≤ 255 ∧
  Forall (λ c, c = bslash ∨ tool_char c = true) (bytes name).
Proof.
  unfold ValidateToolPattern, EscapeLiteral. rewrite bytes_of_bytes, <-validate_escaped.
  assert (of_bytes (escape_bytes (bytes name)) = "" ↔ name = "") as Hempty.
  { destruct name as [| c name]; [done |]. simpl. unfold escape_byte.
    repeat case_decide; done. }
  case_decide as Hd; [split; [done |]; naive_solver lia |].
  rewrite Hempty in Hd. naive_solver lia.
Qed.

(** An instance of the float interface, for evaluation: integral floats. *)
Definition IntFloat : GoFloat := {|
  float64 := Z;
  FormatFloat := λ z, pretty z;
  Number_Float64 := λ s, ParseInt64 s;
|}.
