(* ===== verification/Precedence.v ===== *)
(** * Precedence among approved patterns

    internal/extproc/approval/precedence.go: how the gateway extension ranks the
    approvals that cover a tool call and picks one. *)

From S2P Require Import Prelude ToolPattern.

Record candidateRank := CandidateRank {
  exactTool : bool;
  constrainedParams : nat;
  wildcards : nat;
}.

(** Unescaped stars; a lone trailing backslash is not an escape. *)
Fixpoint count_wildcard_bytes (p : list ascii) : nat :=
  match p with
  | [] => 0
  | c :: p =>
      if decide (c = bslash) then
        match p with
        | [] => 0
        | _ :: p => count_wildcard_bytes p
        end
      else if decide (c = star) then S (count_wildcard_bytes p)
      else count_wildcard_bytes p
  end.

Definition countWildcards (pattern : string) : nat := count_wildcard_bytes (bytes pattern).

Definition rank_param (rank : candidateRank) (p : string * string) : candidateRank :=
  {| exactTool := exactTool rank;
     constrainedParams :=
       if decide (p.2 = "*") then constrainedParams rank else S (constrainedParams rank);
     wildcards := wildcards rank + countWildcards p.2 |}.

Definition specificity (toolPattern : string) (paramsPattern : gmap string string) : candidateRank :=
  foldl rank_param
    {| exactTool := bool_decide (countWildcards toolPattern = 0);
       constrainedParams := 0;
       wildcards := countWildcards toolPattern |}
    (map_to_list paramsPattern).

(** Positive: [a] is more specific; negative: [b] is; zero: a tie. *)
Definition compareRank (a b : candidateRank) : Z :=
  if negb (Bool.eqb (exactTool a) (exactTool b)) then
    (if exactTool a then 1 else -1)%Z
  else if negb (Nat.eqb (constrainedParams a) (constrainedParams b)) then
    (if Nat.ltb (constrainedParams b) (constrainedParams a) then 1 else -1)%Z
  else if negb (Nat.eqb (wildcards a) (wildcards b)) then
    (if Nat.ltb (wildcards a) (wildcards b) then 1 else -1)%Z
  else 0%Z.

Record candidate := Candidate {
  cand_id : string;
  cand_toolPattern : string;
  cand_paramsPattern : gmap string string;
  cand_decidedAt : time;
}.

Definition cand_rank (c : candidate) : candidateRank :=
  specificity (cand_toolPattern c) (cand_paramsPattern c).

(** Go's [<] on strings. *)
Definition str_lt (a b : string) : bool := bool_decide (¬ (b ≤ a)%string).

(** The replacement test of [selectBest]'s loop body. *)
Definition better (c d : candidate) : bool :=
  let comparison := compareRank (cand_rank c) (cand_rank d) in
  bool_decide (0 < comparison)%Z ||
  (bool_decide (comparison = 0%Z) &&
    (After (cand_decidedAt c) (cand_decidedAt d) ||
      (bool_decide (cand_decidedAt c = cand_decidedAt d) &&
        str_lt (cand_id c) (cand_id d)))).

Section select.
Context `{GoFloat}.

Definition cand_matches (toolName : string) (args : arguments) (c : candidate) : bool :=
  Matches (cand_toolPattern c) (cand_paramsPattern c) toolName args.

(** The loop of [selectBest] over [candidates[i:]]; [best] is the index held
    ([-1] in Go is [None]). *)
Fixpoint select_loop (toolName : string) (args : arguments)
    (all rest : list candidate) (i : nat) (best : option nat) : option nat :=
  match rest with
  | [] => best
  | c :: rest =>
      let best' :=
        if negb (cand_matches toolName args c) then best
        else match best ≫= (all !!.) with
             | None => Some i
             | Some d => if better c d then Some i else best
             end in
      select_loop toolName args all rest (S i) best'
  end.

Definition selectBest (candidates : list candidate) (toolName : string)
    (args : arguments) : option nat :=
  select_loop toolName args candidates candidates 0 None.

End select.

(** ** The order behind the choice *)

(** [better] is the lexicographic order on (rank, decision time, smaller id). *)
Definition rank_key (r : candidateRank) : Z * Z * Z :=
  ((if exactTool r then 1 else 0)%Z, Z.of_nat (constrainedParams r), (- Z.of_nat (wildcards r))%Z).

Definition rank_gt (a b : candidateRank) : Prop :=
  let '(a1, a2, a3) := rank_key a in
  let '(b1, b2, b3) := rank_key b in
  (b1 < a1 ∨ (b1 = a1 ∧ (b2 < a2 ∨ (b2 = a2 ∧ b3 < a3))))%Z.

Lemma compareRank_pos a b : (0 < compareRank a b)%Z ↔ rank_gt a b.
Proof.
  unfold compareRank, rank_gt, rank_key. destruct a as [[] a2 a3], b as [[] b2 b3]; simpl;
    destruct (Nat.eqb_spec a2 b2), (Nat.ltb_spec b2 a2), (Nat.eqb_spec a3 b3),
      (Nat.ltb_spec a3 b3); simpl; lia.
Qed.

Lemma compareRank_zero a b : compareRank a b = 0%Z ↔ rank_key a = rank_key b.
Proof.
  unfold compareRank, rank_key. destruct a as [[] a2 a3], b as [[] b2 b3]; simpl;
    destruct (Nat.eqb_spec a2 b2), (Nat.ltb_spec b2 a2), (Nat.eqb_spec a3 b3),
      (Nat.ltb_spec a3 b3); simpl; split; intros; simplify_eq; try lia; try congruence.
  all: repeat f_equal; lia.
Qed.

Lemma str_lt_spec a b : str_lt a b = true ↔ ¬ (b ≤ a)%string.
Proof. unfold str_lt. by rewrite bool_decide_eq_true. Qed.

Lemma str_lt_irrefl a : ¬ str_lt a a = true.
Proof. rewrite str_lt_spec. intros Hn. by apply Hn. Qed.

Lemma str_lt_trans a b c : str_lt a b = true → str_lt b c = true → str_lt a c = true.
Proof.
  rewrite !str_lt_spec. intros H1 H2 H3.
  destruct (total String.le a b) as [Hab | Hba]; [| done].
  apply H2. by etrans.
Qed.

Lemma str_lt_total a b : a = b ∨ str_lt a b = true ∨ str_lt b a = true.
Proof.
  rewrite !str_lt_spec. destruct (decide (b ≤ a)%string), (decide (a ≤ b)%string); auto.
  left. by apply (anti_symm String.le).
Qed.

Lemma eq_comm {A} (x y : A) : x = y ↔ y = x.
Proof. by split. Qed.

Lemma better_spec c d :
  better c d = true ↔
  rank_gt (cand_rank c) (cand_rank d) ∨
  (rank_key (cand_rank c) = rank_key (cand_rank d) ∧
    ((cand_decidedAt d < cand_decidedAt c)%Z ∨
     (cand_decidedAt d = cand_decidedAt c ∧ str_lt (cand_id c) (cand_id d) = true))).
Proof.
  unfold better. rewrite orb_true_iff, andb_true_iff, orb_true_iff, andb_true_iff.
  rewrite !bool_decide_eq_true, compareRank_pos, compareRank_zero, After_spec.
  by rewrite (eq_comm (cand_decidedAt c)).
Qed.

Lemma better_irrefl c : better c c = false.
Proof.
  apply not_true_is_false. rewrite better_spec. unfold rank_gt.
  destruct (rank_key _) as [[??]?].
  intros [? | (_ & [? | [_ ?%str_lt_irrefl]])]; lia || done.
Qed.

Lemma better_trans c d e : better c d = true → better d e = true → better c e = true.
Proof.
  rewrite !better_spec. unfold rank_gt.
  destruct (rank_key (cand_rank c)) as [[c1 c2] c3], (rank_key (cand_rank d)) as [[d1 d2] d3],
    (rank_key (cand_rank e)) as [[e1 e2] e3].
  intros [Hcd | (Ecd & Hcd)] [Hde | (Ede & Hde)]; simplify_eq; try (left; lia).
  right. split; [done |].
  destruct Hcd as [? | [? Hs]], Hde as [? | [? Ht]]; try (left; lia).
  right. split; [lia |]. by eapply str_lt_trans.
Qed.

Lemma better_total c d :
  cand_id c ≠ cand_id d → better c d = true ∨ better d c = true.
Proof.
  intros Hid. rewrite !better_spec. unfold rank_gt.
  destruct (rank_key (cand_rank c)) as [[c1 c2] c3] eqn:Ec,
    (rank_key (cand_rank d)) as [[d1 d2] d3] eqn:Ed.
  destruct (decide ((c1, c2, c3) = (d1, d2, d3))) as [[= -> -> ->] | Hne].
  - destruct (Z.lt_trichotomy (cand_decidedAt c) (cand_decidedAt d)) as [? | [? | ?]].
    + right; right; auto.
    + destruct (str_lt_total (cand_id c) (cand_id d)) as [? | [? | ?]]; [done | |].
      * left; right; auto with lia.
      * right; right; auto with lia.
    + left; right; auto.
  - assert (c1 ≠ d1 ∨ c2 ≠ d2 ∨ c3 ≠ d3) as Hn.
    { destruct (decide (c1 = d1)), (decide (c2 = d2)), (decide (c3 = d3)); auto. congruence. }
    assert ((d1 < c1 ∨ d1 = c1 ∧ (d2 < c2 ∨ d2 = c2 ∧ d3 < c3)) ∨
            (c1 < d1 ∨ c1 = d1 ∧ (c2 < d2 ∨ c2 = d2 ∧ c3 < d3)))%Z by lia.
    tauto.
Qed.

Section select_correct.
Context `{GoFloat} (toolName : string) (args : arguments).

(** What the loop holds after the candidates [done]. *)
Definition holds_best (done : list candidate) (best : option candidate) : Prop :=
  match best with
  | None => Forall (λ c, cand_matches toolName args c = false) done
  | Some d =>
      d ∈ done ∧ cand_matches toolName args d = true ∧
      Forall (λ c, cand_matches toolName args c = true → better c d = false) done
  end.

Lemma holds_best_step done best c :
  holds_best done best →
  holds_best (done ++ [c])
    (if negb (cand_matches toolName args c) then best
     else match best with
          | None => Some c
          | Some d => if better c d then Some c else best
          end).
Proof.
  intros Hb. destruct (cand_matches toolName args c) eqn:Hc; simpl.
  - destruct best as [d |]; simpl in Hb.
    + destruct Hb as (Hd & Hm & HF). destruct (better c d) eqn:Hcd; simpl.
      * split_and!; [set_solver | done |]. apply Forall_app. split.
        -- eapply Forall_impl; [exact HF |]. intros e He1 He2.
           apply not_true_is_false. intros Hec.
           specialize (He1 He2). rewrite (better_trans e c d) in He1; done.
        -- apply Forall_singleton. intros _. apply better_irrefl.
      * split_and!; [set_solver | done |]. apply Forall_app. split; [done |].
        by apply Forall_singleton.
    + split_and!; [set_solver | done |]. apply Forall_app. split.
      * eapply Forall_impl; [exact Hb |]. intros e He. simpl. by rewrite He.
      * apply Forall_singleton. intros _. apply better_irrefl.
  - destruct best as [d |]; simpl in *.
    + destruct Hb as (? & ? & ?). split_and!; [set_solver | done |].
      apply Forall_app. split; [done |]. apply Forall_singleton. by rewrite Hc.
    + apply Forall_app. split; [done |]. by apply Forall_singleton.
Qed.

Lemma select_loop_correct all done rest best :
  all = done ++ rest →
  match best with Some i => is_Some (all !! i) | None => True end →
  holds_best done (best ≫= (all !!.)) →
  let r := select_loop toolName args all rest (length done) best in
  match r with Some i => is_Some (all !! i) | None => True end ∧
  holds_best all (r ≫= (all !!.)).
Proof.
  revert done best. induction rest as [| c rest IH]; intros done best Hall Hin Hb; simpl.
  { rewrite app_nil_r in Hall. subst. done. }
  assert (all !! length done = Some c) as Hc.
  { rewrite Hall, lookup_app_r, Nat.sub_diag by lia. done. }
  pose proof (holds_best_step done _ c Hb) as Hstep.
  rewrite <-(Nat.add_1_r (length done)).
  replace (length done + 1) with (length (done ++ [c])) by (rewrite length_app; done).
  apply IH.
  - by rewrite <-app_assoc.
  - destruct (negb _); [done |]. destruct best as [i |]; simpl in *.
    + destruct Hin as [d Hd]. rewrite Hd. destruct (better _ _); [by rewrite Hc | by rewrite Hd].
    + by rewrite Hc.
  - destruct (negb _); [done |]. destruct best as [i |]; simpl in *.
    + destruct Hin as [d Hd]. rewrite Hd in *. destruct (better _ _); simpl;
        [by rewrite Hc | by rewrite Hd].
    + by rewrite Hc.
Qed.

(** The candidate [selectBest] picks. *)
Definition selected (candidates : list candidate) : option candidate :=
  selectBest candidates toolName args ≫= (candidates !!.).

Lemma selected_best candidates :
  holds_best candidates (selected candidates) ∧
  (selectBest candidates toolName args = None ↔ selected candidates = None).
Proof.
  unfold selected, selectBest.
  destruct (select_loop_correct candidates [] candidates None) as [Hin Hb];
    [done | done | by constructor |].
  simpl in *. split; [done |]. destruct (select_loop _ _ _ _ _ _) as [i |]; [| done].
  destruct Hin as [c Hc]. simpl. rewrite Hc. done.
Qed.
End select_correct.

(** [selectBest] returns no index exactly when no candidate covers
    the call; otherwise the chosen candidate covers the call and no candidate
    that covers it is better in the precedence order. *)
Theorem selectBest_spec `{GoFloat} (candidates : list candidate) (tool : string) (args : arguments) :
  match selectBest candidates tool args with
  | None => Forall (λ c, cand_matches tool args c = false) candidates
  | Some i => ∃ d, candidates !! i = Some d ∧ cand_matches tool args d = true ∧
      Forall (λ c, cand_matches tool args c = true → better c d = false) candidates
  end.
Proof.
  destruct (selected_best tool args candidates) as [Hb Hn]. unfold selected in *.
  destruct (selectBest _ _ _) as [i |]; simpl in *; [| done].
  destruct (candidates !! i) as [d |]; [| discriminate (proj2 Hn eq_refl)].
  destruct Hb as (_ & ? & ?). eauto.
Qed.

(** With pairwise different ids the winner does not depend on the
    order in which the candidates are listed. *)
Theorem selectBest_order_independent `{GoFloat} (l l' : list candidate) (tool : string) (args : arguments) :
  l ≡ₚ l' → NoDup (map cand_id l) →
  selected tool args l = selected tool args l'.
Proof.
  intros Hp Hnd.
  destruct (selected_best tool args l) as [Hb _], (selected_best tool args l') as [Hb' _].
  assert (∀ c d, c ∈ l → d ∈ l → cand_id c = cand_id d → c = d) as Hinj.
  { intros c d [i Hi]%list_elem_of_lookup [j Hj]%list_elem_of_lookup Hid.
    assert (i = j) as ->; [| congruence].
    eapply (NoDup_lookup (map cand_id l)); [done | ..];
      rewrite list_lookup_fmap; [rewrite Hi | rewrite Hj]; simpl; [done | by rewrite Hid]. }
  destruct (selected tool args l) as [c |], (selected tool args l') as [d |]; simpl in *; try done.
  - destruct Hb as (Hc & Hmc & HFc), Hb' as (Hd & Hmd & HFd). f_equal.
    rewrite <-Hp in Hd, HFd. apply Hinj; [done | done |].
    destruct (decide (cand_id c = cand_id d)) as [| Hne]; [done |].
    rewrite Forall_forall in HFc, HFd.
    destruct (better_total c d Hne) as [E | E]; [rewrite HFd in E | rewrite HFc in E]; done.
  - destruct Hb as (Hc & Hmc & _). rewrite Hp in Hc. rewrite Forall_forall in Hb'.
    by rewrite Hb' in Hmc.
  - destruct Hb' as (Hd & Hmd & _). rewrite <-Hp in Hd. rewrite Forall_forall in Hb.
    by rewrite Hb in Hmd.
Qed.

Definition example_candidates : list candidate :=
  [ Candidate "wild" "*" ∅ 1; Candidate "exact" "create_pull_request" ∅ 1;
    Candidate "other" "create_pull_request" {["repo" := "acme/*"]} 0 ].

(** C16 at three candidates and the reversed listing. *)
Lemma selectBest_order_independent_witness :
  @selected IntFloat "create_pull_request" (Some ∅) example_candidates =
  @selected IntFloat "create_pull_request" (Some ∅) (reverse example_candidates).
Proof.
  apply (@selectBest_order_independent IntFloat).
  - symmetry. apply reverse_Permutation.
  - apply (bool_decide_unpack _). vm_compute. exact I.
Defined.

Example selectBest_prefers_exact :
  @selectBest IntFloat example_candidates "create_pull_request" (Some ∅) = Some 1.
Proof. vm_compute. reflexivity. Qed.
