(* ===== verification/ToolApproval.v ===== *)
(** * The tool-approval aggregate

    internal/domain/storage/tool_approval.go: the record of a human-in-the-loop
    decision, its lifecycle transitions and their errors. *)

From S2P Require Import Prelude ToolPattern.

(** UUIDs are represented by their canonical text. *)
Abbreviation ApprovalID := string (only parsing).
Abbreviation AgentID := string (only parsing).
Abbreviation Principal := string (only parsing).

Inductive ApprovalStatus := Pending | Approved | Denied.
#[export] Instance ApprovalStatus_eq_dec : EqDecision ApprovalStatus.
Proof. solve_decision. Defined.

(** The stored text is one of three; a request may carry any other text. *)
Inductive ApprovalPersistence := Once | Session | Permanent | OtherPersistence (s : string).
#[export] Instance ApprovalPersistence_eq_dec : EqDecision ApprovalPersistence.
Proof. solve_decision. Defined.

Definition Persistence_IsValid (p : ApprovalPersistence) : bool :=
  match p with OtherPersistence _ => false | _ => true end.

(** [nil] maps are [None]. *)
Record ApprovalDecision := {
  dec_Persistence : ApprovalPersistence;
  dec_ToolPattern : string;
  dec_ParamsPattern : option (gmap string string);
}.

Inductive lifecycle_error :=
  | LErrNotPending
  | LErrExpired
  | LErrPrincipalMismatch
  | LErrNotApproved
  | LErrNotOnce.

Record ToolApproval `{GoFloat} := {
  ID : ApprovalID;
  Prin : Principal;
  AgentId : AgentID;
  GatewayClientID : string;
  ToolName : string;
  Arguments : arguments;
  ArgumentsHash : string;
  ToolPattern : string;
  ParamsPattern : option (gmap string string);
  Description : string;
  RiskLevel : string;
  MCPSessionID : option string;
  AgentSessionID : option string;
  ToolInvocationID : option string;
  OpenTelemetryTraceparent : option string;
  Status : ApprovalStatus;
  Persistence : option ApprovalPersistence;
  Consumed : bool;
  ApprovalURL : string;
  CreatedAt : time;
  ApprovedAt : option time;
  DeniedAt : option time;
  ConsumedAt : option time;
  ExpiresAt : time;
}.

Section aggregate.
Context `{GoFloat}.

(** Assignment to the fields the lifecycle changes; every other field is kept. *)
Definition set_lifecycle (a : ToolApproval) (status : ApprovalStatus)
    (persistence : option ApprovalPersistence) (consumed : bool)
    (toolPattern : string) (paramsPattern : option (gmap string string))
    (approvedAt deniedAt consumedAt : option time) : ToolApproval :=
  {| ID := ID a; Prin := Prin a; AgentId := AgentId a;
     GatewayClientID := GatewayClientID a; ToolName := ToolName a;
     Arguments := Arguments a; ArgumentsHash := ArgumentsHash a;
     ToolPattern := toolPattern; ParamsPattern := paramsPattern;
     Description := Description a; RiskLevel := RiskLevel a;
     MCPSessionID := MCPSessionID a; AgentSessionID := AgentSessionID a;
     ToolInvocationID := ToolInvocationID a;
     OpenTelemetryTraceparent := OpenTelemetryTraceparent a;
     Status := status; Persistence := persistence; Consumed := consumed;
     ApprovalURL := ApprovalURL a; CreatedAt := CreatedAt a;
     ApprovedAt := approvedAt; DeniedAt := deniedAt; ConsumedAt := consumedAt;
     ExpiresAt := ExpiresAt a |}.

Definition IsExpired (a : ToolApproval) (now : time) : bool := After now (ExpiresAt a).

Definition IsActionable (a : ToolApproval) (now : time) : bool :=
  bool_decide (Status a = Pending) && negb (IsExpired a now).

Definition EnsureApprovable (a : ToolApproval) (actingPrincipal : Principal) (now : time)
    : result lifecycle_error unit :=
  if negb (bool_decide (Prin a = actingPrincipal)) then Err LErrPrincipalMismatch
  else if negb (bool_decide (Status a = Pending)) then Err LErrNotPending
  else if IsExpired a now then Err LErrExpired
  else Ok ().

(** The assignments of [Approve], shared with the repository's update. *)
Definition apply_decision (a : ToolApproval) (d : ApprovalDecision)
    (paramsPattern : option (gmap string string)) (at_ : time) : ToolApproval :=
  set_lifecycle a Approved (Some (dec_Persistence d)) (Consumed a)
    (dec_ToolPattern d) paramsPattern (Some at_) (DeniedAt a) (ConsumedAt a).

Definition Approve (a : ToolApproval) (actingPrincipal : Principal)
    (decision : ApprovalDecision) (now : time) : result lifecycle_error ToolApproval :=
  _ ← EnsureApprovable a actingPrincipal now;
  Ok (apply_decision a decision (dec_ParamsPattern decision) now).

(** The assignments of [Deny]: a permanent denial drops the parameter
    constraints, so it covers every call of the tool. *)
Definition apply_denial (a : ToolApproval) (persistence : option ApprovalPersistence)
    (at_ : time) : ToolApproval :=
  set_lifecycle a Denied persistence (Consumed a) (ToolPattern a)
    (if decide (persistence = Some Permanent) then Some ∅ else ParamsPattern a)
    (ApprovedAt a) (Some at_) (ConsumedAt a).

Definition Deny (a : ToolApproval) (actingPrincipal : Principal)
    (persistence : option ApprovalPersistence) (now : time)
    : result lifecycle_error ToolApproval :=
  if negb (bool_decide (Prin a = actingPrincipal)) then Err LErrPrincipalMismatch
  else if negb (bool_decide (Status a = Pending)) then Err LErrNotPending
  else if IsExpired a now then Err LErrExpired
  else Ok (apply_denial a persistence now).

Definition mark_consumed (a : ToolApproval) (at_ : option time) : ToolApproval :=
  set_lifecycle a (Status a) (Persistence a) true (ToolPattern a) (ParamsPattern a)
    (ApprovedAt a) (DeniedAt a) at_.

Definition Consume (a : ToolApproval) (now : time) : result lifecycle_error ToolApproval :=
  if negb (bool_decide (Status a = Approved)) then Err LErrNotApproved
  else if negb (bool_decide (Persistence a = Some Once)) then Err LErrNotOnce
  else if Consumed a then Ok a
  else Ok (mark_consumed a (Some now)).

End aggregate.

(** [json.Marshal] of an argument map ([None] on failure) and
    [hex(sha256(_))]: abstract, no theorem depends on the digest. *)
Class GoHash `{GoFloat} := {
  json_Marshal : arguments → option string;
  sha256_hex : string → string;
}.

Definition ComputeArgumentsHash `{GoHash} (args : arguments) : string :=
  sha256_hex (default "{}" (json_Marshal args)).

(** ** Lemmas *)

Section aggregate_lemmas.
Context `{GoFloat}.
Implicit Types a : ToolApproval.

Lemma IsExpired_true a now : IsExpired a now = true ↔ (ExpiresAt a < now)%Z.
Proof. apply After_spec. Qed.

Lemma IsExpired_false a now : IsExpired a now = false ↔ (now ≤ ExpiresAt a)%Z.
Proof. apply After_false. Qed.

Lemma IsExpired_mono a t u : (t ≤ u)%Z → IsExpired a t = true → IsExpired a u = true.
Proof. rewrite !IsExpired_true. lia. Qed.

Lemma IsActionable_true a now :
  IsActionable a now = true ↔ Status a = Pending ∧ IsExpired a now = false.
Proof.
  unfold IsActionable. rewrite andb_true_iff, bool_decide_eq_true, negb_true_iff. done.
Qed.

Lemma EnsureApprovable_ok a p now :
  EnsureApprovable a p now = Ok () ↔ Prin a = p ∧ IsActionable a now = true.
Proof.
  rewrite IsActionable_true. unfold EnsureApprovable.
  repeat case_bool_decide; simpl; try (destruct (IsExpired a now)); naive_solver.
Qed.

Lemma Deny_ok a p pers now b :
  Deny a p pers now = Ok b ↔
  Prin a = p ∧ IsActionable a now = true ∧ b = apply_denial a pers now.
Proof.
  rewrite IsActionable_true. unfold Deny.
  repeat case_bool_decide; simpl; try (destruct (IsExpired a now)); naive_solver.
Qed.

Lemma Approve_ok a p d now b :
  Approve a p d now = Ok b ↔
  Prin a = p ∧ IsActionable a now = true ∧
  b = apply_decision a d (dec_ParamsPattern d) now.
Proof.
  pose proof (EnsureApprovable_ok a p now) as HE. unfold Approve, mbind, result_bind.
  destruct (EnsureApprovable a p now) as [[] | e]; naive_solver.
Qed.

End aggregate_lemmas.
