(* ===== verification/ApprovalStore.v ===== *)
(** * The approval repository contract

    internal/ports/storage.go (ToolApprovalRepository,
    ToolApprovalQueryRepository, ToolApprovalMetricsRepository,
    ApprovalSyncStateRepository, ApprovalMutationSyncRepository): the operations
    the approval service calls, what they promise, and the lifecycle every
    stored approval follows under any sequence of them.

    The service is verified against [ApprovalStore] and [ApprovalStoreLaws];
    ApprovalMemory.v gives the in-memory implementation. *)

From S2P Require Import Prelude ToolPattern ToolApproval.

(** internal/domain/storage/errors.go *)
Inductive ErrorKind :=
  | KConnection | KTimeout | KValidation | KNotFound | KConflict | KUnknown.
#[export] Instance ErrorKind_eq_dec : EqDecision ErrorKind.
Proof. solve_decision. Defined.

Abbreviation approval_map := (gmap string ToolApproval) (only parsing).

(** ** Selection predicates *)

Section predicates.
Context `{GoFloat}.
Implicit Types a : ToolApproval.

(** The deduplication key: principal, agent, tool, arguments hash. *)
Definition same_key a b : bool :=
  bool_decide (Prin a = Prin b) && bool_decide (AgentId a = AgentId b) &&
  bool_decide (ToolName a = ToolName b) && bool_decide (ArgumentsHash a = ArgumentsHash b).

(** Pending and not consumed: what the partial unique index ranges over. *)
Definition open_pending a : bool := bool_decide (Status a = Pending) && negb (Consumed a).

Definition duplicate_of a e : bool := same_key e a && open_pending e.

Definition is_permanent a : bool := bool_decide (Persistence a = Some Permanent).

(** The guard of [RevokePermanent]. *)
Definition revocable a : bool :=
  is_permanent a && (bool_decide (Status a = Approved) || bool_decide (Status a = Denied)).

(** The guard of [Consume]. *)
Definition consumable a : bool :=
  bool_decide (Status a = Approved) && bool_decide (Persistence a = Some Once).

(** The assignments of [RevokePermanent]. *)
Definition apply_revocation a (at_ : time) : ToolApproval :=
  set_lifecycle a Denied None (Consumed a) (ToolPattern a) (ParamsPattern a)
    (ApprovedAt a) (Some at_) (ConsumedAt a).

(** [Consume] leaves an already consumed approval alone. *)
Definition apply_consumption a (at_ : time) : ToolApproval :=
  if Consumed a then a else mark_consumed a (Some at_).

(** Expired duplicates are retired: marked consumed, without a timestamp. *)
Definition retire a : ToolApproval := mark_consumed a (ConsumedAt a).

Definition retire_expired (now : time) (fresh : ToolApproval) (m : approval_map) : approval_map :=
  (λ e, if duplicate_of fresh e && IsExpired e now then retire e else e) <$> m.

(** A nil params pattern is stored as the empty one. *)
Definition with_params a : ToolApproval :=
  set_lifecycle a (Status a) (Persistence a) (Consumed a) (ToolPattern a)
    (Some (default ∅ (ParamsPattern a))) (ApprovedAt a) (DeniedAt a) (ConsumedAt a).

(** What [ListAllActive] returns. *)
Definition is_active (now : time) (principalFilter : option Principal)
    (activeSessions : list string) a : bool :=
  match principalFilter with Some p => bool_decide (Prin a = p) | None => true end &&
  negb (bool_decide (Status a = Pending) && IsExpired a now) &&
  negb (Consumed a) &&
  (if decide (Persistence a = Some Session) then
     match AgentSessionID a with
     | None => false
     | Some sid => negb (bool_decide (sid = "")) && bool_decide (sid ∈ activeSessions)
     end
   else true).

End predicates.

(** ** The contract *)

Section contract.
Context `{GoFloat}.
Implicit Types (m : approval_map) (a : ToolApproval).

(** A guarded single-row update, decided and applied atomically. *)
Definition guarded_update (guard : ToolApproval → bool) (upd : ToolApproval → ToolApproval)
    (id : ApprovalID) m m' (res : result ErrorKind ToolApproval) : Prop :=
  (∃ a, m !! id = Some a ∧ guard a = true ∧ m' = <[id := upd a]> m ∧ res = Ok (upd a)) ∨
  ((∀ a, m !! id = Some a → guard a = false) ∧ m' = m ∧
    (res = Err KNotFound ∨ (is_Some (m !! id) ∧ res = Err KValidation))) ∨
  (m' = m ∧ ∃ k, res = Err k ∧ k ≠ KNotFound).

(** Creation returns a live duplicate, or retires the expired ones and stores
    the new approval. *)
Definition create_contract (now : time) (fresh : ToolApproval) m m'
    (res : result ErrorKind ToolApproval) : Prop :=
  (∃ id e, m !! id = Some e ∧ duplicate_of fresh e = true ∧ IsExpired e now = false ∧
     res = Ok e ∧
     ∀ i, m' !! i = m !! i ∨ m' !! i = retire_expired now fresh m !! i) ∨
  ((∀ id e, m !! id = Some e → duplicate_of fresh e = true → IsExpired e now = true) ∧
     ToolPattern fresh ≠ "" ∧
     m' = <[ID fresh := with_params fresh]> (retire_expired now fresh m) ∧
     res = Ok (with_params fresh)) ∨
  (m' = m ∧ ∃ k, res = Err k).

(** The order in which a backend visits its rows. *)
Definition row_order : Type := approval_map → list ApprovalID.
Definition valid_order (iter : row_order) : Prop := ∀ m, iter m ≡ₚ (map_to_list m).*1.

(** A query returns the rows that satisfy [P], in any order. *)
Definition query_contract (P : ToolApproval → bool) m (res : result ErrorKind (list ToolApproval)) : Prop :=
  (∃ l, res = Ok l ∧ l ≡ₚ filter (λ a, P a = true) (map_to_list m).*2) ∨ (∃ k, res = Err k).

End contract.

Class ApprovalStore `{GoFloat} (St : Type) := {
  view : St → approval_map;
  version : St → Z;
  st_Create : row_order → time → ToolApproval → St → St * result ErrorKind ToolApproval;
  st_Get : ApprovalID → St → result ErrorKind ToolApproval;
  st_Approve : time → ApprovalID → ApprovalDecision → time → St → St * result ErrorKind ToolApproval;
  st_Deny : time → ApprovalID → option ApprovalPersistence → time → St → St * result ErrorKind ToolApproval;
  st_RevokePermanent : ApprovalID → time → St → St * result ErrorKind ToolApproval;
  st_Consume : ApprovalID → time → St → St * result ErrorKind ToolApproval;
  st_ListAllActive : row_order → time → option Principal → list string → St →
    result ErrorKind (list ToolApproval);
  st_FindPendingByKey : row_order → time → Principal → AgentID → string → string → St →
    result ErrorKind (option ToolApproval);
  st_ListPermanentByPrincipal : row_order → Principal → St → result ErrorKind (list ToolApproval);
  st_CountPending : row_order → time → Principal → AgentID → St → result ErrorKind Z;
  st_GetVersion : St → result ErrorKind Z;
  st_IncrementVersion : St → St * result ErrorKind Z;
  MutationsSyncAtomically : bool;
}.

(** The row a pending lookup by key may return. *)
Definition pending_key `{GoFloat} (now : time) (p : Principal) (agent : AgentID)
    (tool hash : string) (a : ToolApproval) : bool :=
  bool_decide (Prin a = p) && bool_decide (AgentId a = agent) &&
  bool_decide (ToolName a = tool) && bool_decide (ArgumentsHash a = hash) &&
  open_pending a && negb (IsExpired a now).

(** The rows [CountPendingByPrincipalAndAgent] counts. *)
Definition live_pending `{GoFloat} (now : time) (p : Principal) (agent : AgentID)
    (a : ToolApproval) : bool :=
  bool_decide (Prin a = p) && bool_decide (AgentId a = agent) && IsActionable a now.

Class ApprovalStoreLaws `{ApprovalStore St} := {
  law_Create iter now a s : valid_order iter →
    let r := st_Create iter now a s in
    create_contract now a (view s) (view r.1) r.2;
  law_Get id s :
    match view s !! id with
    | Some a => st_Get id s = Ok a
    | None => st_Get id s = Err KNotFound
    end ∨ ∃ k, st_Get id s = Err k ∧ k ≠ KNotFound;
  law_Approve now id d at_ s :
    let r := st_Approve now id d at_ s in
    guarded_update (λ a, negb (bool_decide (dec_ToolPattern d = "")) && IsActionable a now)
      (λ a, apply_decision a d (Some (default ∅ (dec_ParamsPattern d))) at_)
      id (view s) (view r.1) r.2;
  law_Deny now id p at_ s :
    let r := st_Deny now id p at_ s in
    guarded_update (λ a, IsActionable a now) (λ a, apply_denial a p at_)
      id (view s) (view r.1) r.2;
  law_Revoke id at_ s :
    let r := st_RevokePermanent id at_ s in
    guarded_update revocable (λ a, apply_revocation a at_) id (view s) (view r.1) r.2;
  law_Consume id at_ s :
    let r := st_Consume id at_ s in
    guarded_update consumable (λ a, apply_consumption a at_) id (view s) (view r.1) r.2;
  law_ListAllActive iter now p sids s : valid_order iter →
    query_contract (is_active now p sids) (view s) (st_ListAllActive iter now p sids s);
  law_ListPermanent iter p s : valid_order iter →
    query_contract (λ a, bool_decide (Prin a = p) && is_permanent a) (view s)
      (st_ListPermanentByPrincipal iter p s);
  law_FindPending iter now p ag t h s : valid_order iter →
    match st_FindPendingByKey iter now p ag t h s with
    | Ok None => map_Forall (λ _ a, pending_key now p ag t h a = false) (view s)
    | Ok (Some a) => ∃ id, view s !! id = Some a ∧ pending_key now p ag t h a = true
    | Err _ => True
    end;
  law_CountPending iter now p ag s n : valid_order iter →
    st_CountPending iter now p ag s = Ok n →
    n = Z.of_nat (length (filter (λ a, live_pending now p ag a = true) (map_to_list (view s)).*2));
  law_versions s : MutationsSyncAtomically = false →
    (∀ iter now a, version (st_Create iter now a s).1 = version s) ∧
    (∀ now id d at_, version (st_Approve now id d at_ s).1 = version s) ∧
    (∀ now id p at_, version (st_Deny now id p at_ s).1 = version s) ∧
    (∀ id at_, version (st_RevokePermanent id at_ s).1 = version s) ∧
    (∀ id at_, version (st_Consume id at_ s).1 = version s);
  law_GetVersion s : st_GetVersion s = Ok (version s) ∨ ∃ k, st_GetVersion s = Err k;
  law_Increment s :
    let r := st_IncrementVersion s in
    view r.1 = view s ∧
    match r.2 with
    | Ok v => v = int64_wrap (version s + 1) ∧ version r.1 = v
    | Err _ => version r.1 = version s
    end;
}.

(** ** The lifecycle of a stored approval *)

Section lifecycle.
Context `{GoFloat}.
Implicit Types (a b c : ToolApproval) (m : approval_map).

(** The decision is for the approval's own tool and covers the reviewed call. *)
Definition covers a (d : ApprovalDecision) : Prop :=
  dec_ToolPattern d = EscapeLiteral (ToolName a) ∧
  Matches (dec_ToolPattern d) (default ∅ (dec_ParamsPattern d)) (ToolName a) (Arguments a) = true.

(** One transition of one approval, as the contract and the service allow it. *)
Inductive approval_step : ToolApproval → ToolApproval → Prop :=
  | step_approve a d now at_ :
      IsActionable a now = true → dec_ToolPattern d ≠ "" → covers a d →
      approval_step a (apply_decision a d (Some (default ∅ (dec_ParamsPattern d))) at_)
  | step_deny a p now at_ :
      IsActionable a now = true → approval_step a (apply_denial a p at_)
  | step_revoke a at_ : revocable a = true → approval_step a (apply_revocation a at_)
  | step_consume a at_ : consumable a = true → approval_step a (apply_consumption a at_)
  | step_retire a now :
      open_pending a = true → IsExpired a now = true → approval_step a (retire a).

(** The fields no operation ever changes. *)
Definition identity_of a :=
  (ID a, Prin a, AgentId a, GatewayClientID a, ToolName a, Arguments a, ArgumentsHash a,
   (Description a, RiskLevel a, MCPSessionID a, AgentSessionID a, ToolInvocationID a,
    OpenTelemetryTraceparent a, ApprovalURL a, CreatedAt a, ExpiresAt a)).

(** The decision an approved approval carries. *)
Definition decision_of a := (Persistence a, ToolPattern a, ParamsPattern a, ApprovedAt a).

(** What may have happened to [a] for it to be [b] now. *)
Record evolves a b : Prop := {
  ev_identity : identity_of b = identity_of a;
  ev_decided : Status a ≠ Pending → Status b ≠ Pending;
  ev_denied : Status a = Denied → Status b = Denied;
  ev_consumed : Consumed a = true → Consumed b = true;
  ev_decision : Status a = Approved → Status b = Approved → decision_of b = decision_of a;
}.

Definition approval_wf a : Prop :=
  ToolPattern a ≠ "" ∧ ToolPattern a = EscapeLiteral (ToolName a) ∧ is_Some (ParamsPattern a) ∧
  match Status a with
  | Pending => Persistence a = None ∧ ApprovedAt a = None
  | Approved =>
      is_Some (Persistence a) ∧ is_Some (ApprovedAt a) ∧
      Matches (ToolPattern a) (default ∅ (ParamsPattern a)) (ToolName a) (Arguments a) = true
  | Denied => is_Some (DeniedAt a)
  end.

Definition store_wf m : Prop := map_Forall (λ id a, ID a = id ∧ approval_wf a) m.

(** At most one open pending approval per deduplication key. *)
Definition dedup_inv m : Prop :=
  ∀ i j a b, m !! i = Some a → m !! j = Some b →
    open_pending a = true → open_pending b = true → same_key a b = true → i = j.

(** A newly built approval, as the service submits it. *)
Definition new_approval a : Prop :=
  ToolPattern a = EscapeLiteral (ToolName a) ∧ Status a = Pending ∧ Persistence a = None ∧ Consumed a = false ∧
  ApprovedAt a = None ∧ DeniedAt a = None ∧ ConsumedAt a = None.

Lemma revocable_true a :
  revocable a = true ↔ Persistence a = Some Permanent ∧ Status a ≠ Pending.
Proof.
  unfold revocable, is_permanent. rewrite andb_true_iff, orb_true_iff, !bool_decide_eq_true.
  destruct (Status a); naive_solver.
Qed.

Lemma consumable_true a :
  consumable a = true ↔ Status a = Approved ∧ Persistence a = Some Once.
Proof. unfold consumable. by rewrite andb_true_iff, !bool_decide_eq_true. Qed.

Lemma open_pending_true a : open_pending a = true ↔ Status a = Pending ∧ Consumed a = false.
Proof. unfold open_pending. by rewrite andb_true_iff, bool_decide_eq_true, negb_true_iff. Qed.

Lemma same_key_true a b :
  same_key a b = true ↔
  Prin a = Prin b ∧ AgentId a = AgentId b ∧ ToolName a = ToolName b ∧
  ArgumentsHash a = ArgumentsHash b.
Proof. unfold same_key. rewrite !andb_true_iff, !bool_decide_eq_true. naive_solver. Qed.

#[local] Instance evolves_refl : Reflexive evolves.
Proof. intros a. by constructor. Qed.

(** [evolves] is not transitive in general ([ev_decision] needs the middle
    state), but composes along [approval_step]. *)
Lemma evolves_step a b c : evolves a b → approval_step b c → evolves a c.
Proof.
  intros [Hid Hdec Hden Hcon Hd] Hs.
  destruct Hs as [b d now at_ Hg _ _ | b p now at_ Hg | b at_ Hg | b at_ Hg | b now Hg _].
  - apply IsActionable_true in Hg as [Hb _].
    constructor; [exact Hid | simpl; intuition congruence..].
  - apply IsActionable_true in Hg as [Hb _].
    constructor; [exact Hid | simpl; intuition congruence..].
  - apply revocable_true in Hg as [_ Hb].
    constructor; [exact Hid | simpl; intuition congruence..].
  - unfold apply_consumption. destruct (Consumed b) eqn:Ec; [by constructor |].
    constructor; [exact Hid | simpl; auto..].
  - constructor; [exact Hid | simpl; auto..].
Qed.

Lemma rtc_evolves a b : rtc approval_step a b → evolves a b.
Proof.
  apply (rtc_ind_r (evolves a)); [reflexivity |].
  intros b' c _ Hs Hev. by eapply evolves_step.
Qed.

Lemma approval_step_wf a b : approval_step a b → approval_wf a → approval_wf b.
Proof.
  unfold approval_wf. intros Hs (Htp & Hesc & Hpp & Hst).
  destruct Hs as [a d now at_ _ Hne [Hc1 Hc2] | | | |]; simpl in *.
  - split_and!; eauto.
  - split_and!; [done | done | by case_decide | eauto].
  - split_and!; eauto.
  - unfold apply_consumption. by destruct (Consumed a).
  - done.
Qed.

Lemma approval_step_ID a b : approval_step a b → ID b = ID a.
Proof. inversion 1; subst; try done. unfold apply_consumption. by destruct (Consumed a). Qed.

(** *** Effect of the contracts on the map *)

(** Every row of [m] is still there, one lifecycle step further or unchanged. *)
Definition rows_step m m' : Prop :=
  ∀ i a, m !! i = Some a → ∃ b, m' !! i = Some b ∧ (b = a ∨ approval_step a b).

Lemma guarded_update_rows guard upd id m m' res :
  (∀ a, guard a = true → approval_step a (upd a)) →
  guarded_update guard upd id m m' res → rows_step m m'.
Proof.
  intros Hstep [(a & Ha & Hg & -> & _) | [(_ & -> & _) | (-> & _)]]; intros i b Hb; [| eauto..].
  destruct (decide (i = id)) as [-> |].
  - simplify_eq. exists (upd a). rewrite lookup_insert_eq. eauto.
  - exists b. rewrite lookup_insert_ne by done. eauto.
Qed.

Lemma retire_expired_lookup now fresh m i :
  retire_expired now fresh m !! i =
  (λ e, if duplicate_of fresh e && IsExpired e now then retire e else e) <$> m !! i.
Proof. unfold retire_expired. by rewrite lookup_fmap. Qed.

Lemma retire_expired_step now fresh a :
  (if duplicate_of fresh a && IsExpired a now then retire a else a) = a ∨
  approval_step a (if duplicate_of fresh a && IsExpired a now then retire a else a).
Proof.
  destruct (duplicate_of fresh a && IsExpired a now) eqn:E; [right | by left].
  apply andb_true_iff in E as [Hd He]. unfold duplicate_of in Hd.
  apply andb_true_iff in Hd as [_ Ho]. by eapply step_retire.
Qed.

Lemma create_rows now fresh m m' res i a :
  create_contract now fresh m m' res → i ≠ ID fresh → m !! i = Some a →
  ∃ b, m' !! i = Some b ∧ (b = a ∨ approval_step a b).
Proof.
  intros [(_ & _ & _ & _ & _ & _ & Hm') | [(_ & _ & -> & _) | (-> & _)]] Hi Ha; [| | eauto].
  - destruct (Hm' i) as [-> | ->]; [eauto |]. rewrite retire_expired_lookup, Ha. simpl.
    eexists. split; [done | apply retire_expired_step].
  - rewrite lookup_insert_ne, retire_expired_lookup, Ha by done. simpl.
    eexists. split; [done | apply retire_expired_step].
Qed.

(** *** Deduplication *)

(** An update that never yields an open pending row preserves uniqueness. *)
Lemma guarded_update_dedup guard upd id m m' res :
  (∀ a, guard a = true → open_pending (upd a) = false) →
  guarded_update guard upd id m m' res → dedup_inv m → dedup_inv m'.
Proof.
  intros Hclosed [(a & Ha & Hg & -> & _) | [(_ & -> & _) | (-> & _)]] Hinv; [| done..].
  intros i j b c Hb Hc Hob Hoc Hk. specialize (Hclosed a Hg).
  rewrite lookup_insert_Some in Hb, Hc.
  destruct Hb as [[-> <-] | [_ Hb]]; [congruence |].
  destruct Hc as [[-> <-] | [_ Hc]]; [congruence |]. by eapply Hinv.
Qed.

Lemma retire_subset_dedup now fresh m m' :
  (∀ i, m' !! i = m !! i ∨ m' !! i = retire_expired now fresh m !! i) →
  dedup_inv m → dedup_inv m'.
Proof.
  intros Hm' Hinv i j b c Hb Hc Hob Hoc Hk.
  assert (∀ k e, m' !! k = Some e → open_pending e = true → m !! k = Some e) as Hback.
  { intros k e He Ho. destruct (Hm' k) as [E | E]; rewrite E in He; [done |].
    rewrite retire_expired_lookup in He. destruct (m !! k) as [e' |]; simpl in He; [| done].
    destruct (duplicate_of fresh e' && IsExpired e' now); [| done].
    injection He as <-. apply open_pending_true in Ho as [_ Ho]. done. }
  by eapply Hinv; eauto.
Qed.

Lemma create_dedup now fresh m m' res :
  create_contract now fresh m m' res → dedup_inv m → dedup_inv m'.
Proof.
  intros [(_ & _ & _ & _ & _ & _ & Hm') | [(Hexp & _ & -> & _) | (-> & _)]] Hinv; [| | done].
  { by eapply retire_subset_dedup. }
  assert (dedup_inv (retire_expired now fresh m)) as Hr
    by (eapply retire_subset_dedup; [by right | done]).
  assert (∀ k e, retire_expired now fresh m !! k = Some e → open_pending e = true →
    same_key e fresh = true → False) as Hno.
  { intros k e He Ho Hk. rewrite retire_expired_lookup in He.
    destruct (m !! k) as [e' |] eqn:Ek; simpl in He; [| done].
    destruct (duplicate_of fresh e') eqn:Hd; simpl in He.
    - rewrite (Hexp _ _ Ek Hd) in He. injection He as <-.
      by apply open_pending_true in Ho as [_ Ho].
    - injection He as <-. unfold duplicate_of in Hd. by rewrite Hk, Ho in Hd. }
  assert (∀ e, same_key (with_params fresh) e = true → same_key e fresh = true) as Hsym.
  { intros e. rewrite !same_key_true. simpl. naive_solver. }
  assert (∀ e, same_key e (with_params fresh) = true → same_key e fresh = true) as Hsame.
  { intros e. rewrite !same_key_true. simpl. naive_solver. }
  intros i j b c Hb Hc Hob Hoc Hk. rewrite lookup_insert_Some in Hb, Hc.
  destruct Hb as [[<- <-] | [Hi Hb]], Hc as [[<- <-] | [Hj Hc]]; [done | ..].
  - exfalso. eauto.
  - exfalso. eauto.
  - by eapply Hr.
Qed.

(** *** Well-formedness *)

Lemma rows_step_wf m m' :
  rows_step m m' → dom m' = dom m → store_wf m → store_wf m'.
Proof.
  intros Hrows Hdom Hwf i b Hb.
  assert (is_Some (m !! i)) as [a Ha]
    by (apply elem_of_dom; rewrite <-Hdom; apply elem_of_dom; eauto).
  destruct (Hrows i a Ha) as (b' & Hb' & Hab). simplify_eq.
  destruct (Hwf i a Ha) as [Hid Hw]. destruct Hab as [-> | Hab]; [done |].
  rewrite (approval_step_ID _ _ Hab). split; [done | by eapply approval_step_wf].
Qed.

Lemma guarded_update_dom guard upd id m m' res :
  guarded_update guard upd id m m' res → dom m' = dom m.
Proof.
  intros [(a & Ha & _ & -> & _) | [(_ & -> & _) | (-> & _)]]; [| done..].
  rewrite dom_insert_L. apply elem_of_dom_2 in Ha. set_solver.
Qed.

Lemma create_wf now fresh m m' res :
  new_approval fresh → create_contract now fresh m m' res → store_wf m → store_wf m'.
Proof.
  intros Hnew Hc Hwf i b Hb.
  destruct Hc as [(_ & _ & _ & _ & _ & _ & Hm') | [(_ & Htp & -> & _) | (-> & _)]]; [| | eauto].
  - assert (rows_step m m') as Hrows.
    { intros k e He. destruct (Hm' k) as [-> | ->]; [eauto |].
      rewrite retire_expired_lookup, He. eexists. split; [done | apply retire_expired_step]. }
    eapply (rows_step_wf m m'); [done | | done | done].
    apply set_eq. intros k. rewrite !elem_of_dom. destruct (Hm' k) as [-> | ->]; [done |].
    rewrite retire_expired_lookup. by rewrite fmap_is_Some.
  - rewrite lookup_insert_Some in Hb. destruct Hb as [[<- <-] | [_ Hb]].
    + destruct Hnew as (He & Hs & Hp & _ & Ha & _). split; [done |].
      split_and!; [done | done | eauto |]. simpl. by rewrite Hs.
    + rewrite retire_expired_lookup in Hb. destruct (m !! i) as [a |] eqn:Ea; [| done].
      simpl in Hb. injection Hb as <-. destruct (Hwf i a Ea) as [Hid Hw].
      destruct (retire_expired_step now fresh a) as [-> | Hs]; [done |].
      rewrite (approval_step_ID _ _ Hs). split; [done | by eapply approval_step_wf].
Qed.

End lifecycle.
