(* ===== verification/ApprovalMemory.v ===== *)
(** * The in-memory approval repository

    internal/adapters/storage/memory/tool_approval_repository.go and
    approval_sync_state_repository.go.  Every method runs under the repository's
    lock, so each is one atomic function of the stored map.  Returned approvals
    are copies ([copyApproval]), so values, not references, leave the map.  Go
    visits a map in an unspecified order: the order is the argument [iter].

    The instance at the end discharges the contract of ApprovalStore.v. *)

From S2P Require Import Prelude ToolPattern ToolApproval ApprovalStore.

Section memory.
Context `{GoFloat}.
Implicit Types (m : approval_map) (a : ToolApproval).

(** The duplicate scan of [Create]: expired duplicates met on the way are
    marked consumed, the first live one ends the scan. *)
Fixpoint create_scan (now : time) (approval : ToolApproval) (ids : list ApprovalID) m
    : approval_map * option ToolApproval :=
  match ids with
  | [] => (m, None)
  | k :: ids =>
      match m !! k with
      | Some existing =>
          if bool_decide (Prin existing = Prin approval) &&
             bool_decide (AgentId existing = AgentId approval) &&
             bool_decide (ToolName existing = ToolName approval) &&
             bool_decide (ArgumentsHash existing = ArgumentsHash approval) &&
             bool_decide (Status existing = Pending) &&
             negb (Consumed existing)
          then
            if IsExpired existing now
            then create_scan now approval ids (<[k := retire existing]> m)
            else (m, Some existing)
          else create_scan now approval ids m
      | None => create_scan now approval ids m
      end
  end.

Definition mem_Create (iter : row_order) (now : time) (approval : ToolApproval) m
    : approval_map * result ErrorKind ToolApproval :=
  if decide (ToolPattern approval = "") then (m, Err KValidation)
  else
    let approval := with_params approval in
    let '(m', dup) := create_scan now approval (iter m) m in
    match dup with
    | Some existing => (m', Ok existing)
    | None => (<[ID approval := approval]> m', Ok approval)
    end.

Definition mem_Get (approvalID : ApprovalID) m : result ErrorKind ToolApproval :=
  match m !! approvalID with
  | None => Err KNotFound
  | Some a => Ok a
  end.

Definition mem_Approve (now : time) (approvalID : ApprovalID) (decision : ApprovalDecision)
    (approvedAt : time) m : approval_map * result ErrorKind ToolApproval :=
  if decide (dec_ToolPattern decision = "") then (m, Err KValidation)
  else
    match m !! approvalID with
    | None => (m, Err KNotFound)
    | Some a =>
        if negb (bool_decide (Status a = Pending)) || IsExpired a now then (m, Err KNotFound)
        else
          let a' := apply_decision a decision
            (Some (default ∅ (dec_ParamsPattern decision))) approvedAt in
          (<[approvalID := a']> m, Ok a')
    end.

Definition mem_Deny (now : time) (approvalID : ApprovalID)
    (persistence : option ApprovalPersistence) (deniedAt : time) m
    : approval_map * result ErrorKind ToolApproval :=
  match m !! approvalID with
  | None => (m, Err KNotFound)
  | Some a =>
      if negb (bool_decide (Status a = Pending)) || IsExpired a now then (m, Err KNotFound)
      else
        let a' := apply_denial a persistence deniedAt in
        (<[approvalID := a']> m, Ok a')
  end.

Definition mem_RevokePermanent (approvalID : ApprovalID) (revokedAt : time) m
    : approval_map * result ErrorKind ToolApproval :=
  match m !! approvalID with
  | None => (m, Err KNotFound)
  | Some a =>
      if negb (bool_decide (Persistence a = Some Permanent)) ||
         (negb (bool_decide (Status a = Approved)) && negb (bool_decide (Status a = Denied)))
      then (m, Err KNotFound)
      else
        let a' := set_lifecycle a Denied None (Consumed a) (ToolPattern a) (ParamsPattern a)
                    (ApprovedAt a) (Some revokedAt) (ConsumedAt a) in
        (<[approvalID := a']> m, Ok a')
  end.

Definition mem_Consume (approvalID : ApprovalID) (consumedAt : time) m
    : approval_map * result ErrorKind ToolApproval :=
  match m !! approvalID with
  | None => (m, Err KNotFound)
  | Some a =>
      if negb (bool_decide (Status a = Approved)) || negb (bool_decide (Persistence a = Some Once))
      then (m, Err KValidation)
      else if Consumed a then (m, Ok a)
      else
        let a' := mark_consumed a (Some consumedAt) in
        (<[approvalID := a']> m, Ok a')
  end.

(** The rows in the order the loop visits them. *)
Definition rows (iter : row_order) m : list ToolApproval := omap (m !!.) (iter m).

(** The chain of [continue]s of [ListAllActive]. *)
Definition list_active_keep (principalFilter : option Principal)
    (activeAgentSessionIDs : list string) (now : time) a : bool :=
  if match principalFilter with Some p => negb (bool_decide (Prin a = p)) | None => false end
  then false
  else if bool_decide (Status a = Pending) && IsExpired a now then false
  else if Consumed a then false
  else if bool_decide (Persistence a = Some Session) &&
          match AgentSessionID a with None => true | Some sid => bool_decide (sid = "") end
  then false
  else if bool_decide (Persistence a = Some Session) &&
          negb (bool_decide (default "" (AgentSessionID a) ∈ activeAgentSessionIDs))
  then false
  else true.

Definition mem_ListAllActive (iter : row_order) (now : time) (principalFilter : option Principal)
    (activeAgentSessionIDs : list string) m : result ErrorKind (list ToolApproval) :=
  Ok (filter (λ a, list_active_keep principalFilter activeAgentSessionIDs now a = true) (rows iter m)).

Definition mem_FindPendingByKey (iter : row_order) (now : time) (principal : Principal)
    (agentID : AgentID) (toolName argumentsHash : string) m
    : result ErrorKind (option ToolApproval) :=
  Ok (head (filter (λ a,
    bool_decide (Prin a = principal) && bool_decide (AgentId a = agentID) &&
    bool_decide (ToolName a = toolName) && bool_decide (ArgumentsHash a = argumentsHash) &&
    bool_decide (Status a = Pending) && negb (Consumed a) && negb (IsExpired a now) = true)
    (rows iter m))).

Definition mem_ListPermanentByPrincipal (iter : row_order) (principal : Principal) m
    : result ErrorKind (list ToolApproval) :=
  Ok (filter (λ a,
    bool_decide (Prin a = principal) && bool_decide (Persistence a = Some Permanent) = true)
    (rows iter m)).

Definition mem_CountPending (iter : row_order) (now : time) (principal : Principal)
    (agentID : AgentID) m : result ErrorKind Z :=
  Ok (foldl (λ count a,
    if bool_decide (Prin a = principal) && bool_decide (AgentId a = agentID) &&
       bool_decide (Status a = Pending) && negb (IsExpired a now)
    then (count + 1)%Z else count) 0%Z (rows iter m)).

(** The repository with its version counter ([atomic.Int64]). *)
Record memory_store := MemoryStore {
  ms_approvals : approval_map;
  ms_version : Z;
}.

Definition mem_GetVersion (s : memory_store) : result ErrorKind Z := Ok (ms_version s).

Definition mem_IncrementVersion (s : memory_store) : memory_store * result ErrorKind Z :=
  let v := int64_wrap (ms_version s + 1) in
  ({| ms_approvals := ms_approvals s; ms_version := v |}, Ok v).

(** A map operation on the store. *)
Definition on_map {A} (f : approval_map → approval_map * A) (s : memory_store) : memory_store * A :=
  let '(m, r) := f (ms_approvals s) in
  ({| ms_approvals := m; ms_version := ms_version s |}, r).

End memory.

#[export] Instance MemoryApprovalStore `{GoFloat} : ApprovalStore memory_store := {|
  view := ms_approvals;
  version := ms_version;
  st_Create iter now a := on_map (mem_Create iter now a);
  st_Get id s := mem_Get id (ms_approvals s);
  st_Approve now id d at_ := on_map (mem_Approve now id d at_);
  st_Deny now id p at_ := on_map (mem_Deny now id p at_);
  st_RevokePermanent id at_ := on_map (mem_RevokePermanent id at_);
  st_Consume id at_ := on_map (mem_Consume id at_);
  st_ListAllActive iter now p sids s := mem_ListAllActive iter now p sids (ms_approvals s);
  st_FindPendingByKey iter now p ag t h s := mem_FindPendingByKey iter now p ag t h (ms_approvals s);
  st_ListPermanentByPrincipal iter p s := mem_ListPermanentByPrincipal iter p (ms_approvals s);
  st_CountPending iter now p ag s := mem_CountPending iter now p ag (ms_approvals s);
  st_GetVersion := mem_GetVersion;
  st_IncrementVersion := mem_IncrementVersion;
  MutationsSyncAtomically := false;
|}.

Section memory_laws.
Context `{GoFloat}.
Implicit Types (m : approval_map) (a : ToolApproval).

Lemma rows_perm iter m : valid_order iter → rows iter m ≡ₚ (map_to_list m).*2.
Proof.
  intros Hv. unfold rows. rewrite (Hv m). clear Hv.
  assert (∀ l : list (string * ToolApproval), (∀ k a, (k, a) ∈ l → m !! k = Some a) →
    omap (m !!.) l.*1 = l.*2) as Hl.
  { induction l as [| [k a] l IH]; intros Hm; csimpl; [done |].
    rewrite (Hm k a) by set_solver. f_equal. apply IH. set_solver. }
  rewrite Hl; [done |]. intros k a. by rewrite elem_of_map_to_list.
Qed.

Lemma query_rows iter (P Q : ToolApproval → bool) m :
  valid_order iter → (∀ a, P a = Q a) →
  query_contract P m (Ok (filter (λ a, Q a = true) (rows iter m))).
Proof.
  intros Hv HPQ. left. eexists. split; [done |]. rewrite (rows_perm _ _ Hv).
  erewrite list_filter_iff; [done |]. intros a. simpl. by rewrite HPQ.
Qed.

(** What the scan has done after a prefix of the visit order. *)
(** What the scan of [ids] did: retired expired duplicates up to the first live
    one, which it found. *)
Definition scanned now approval (ids : list ApprovalID) m m' (dup : option ToolApproval) : Prop :=
  (∀ i, m' !! i = m !! i ∨ (i ∈ ids ∧ m' !! i = retire_expired now approval m !! i)) ∧
  match dup with
  | Some e => ∃ k, m !! k = Some e ∧ duplicate_of approval e = true ∧ IsExpired e now = false
  | None =>
      ∀ i, i ∈ ids → m' !! i = retire_expired now approval m !! i ∧
        ∀ e, m !! i = Some e → duplicate_of approval e = true → IsExpired e now = true
  end.

(** A row that is no duplicate is left alone. *)
Lemma scanned_skip now approval k ids m m' dup :
  k ∉ ids → (∀ e, m !! k = Some e → duplicate_of approval e = false) →
  scanned now approval ids m m' dup → scanned now approval (k :: ids) m m' dup.
Proof.
  intros Hk Hno [Hm Hd]. split.
  - intros i. destruct (Hm i) as [? | [??]]; [by left | right; set_solver].
  - destruct dup; [done |]. intros i [-> | Hi]%elem_of_cons; [| by apply Hd].
    rewrite retire_expired_lookup. split.
    + destruct (Hm k) as [-> | [? _]]; [| done]. destruct (m !! k) as [e |]; [| done]. simpl. by rewrite Hno.
    + intros e He Hde. by rewrite (Hno e He) in Hde.
Qed.

(** An expired duplicate is retired. *)
Lemma scanned_retire now approval k ids m m' e dup :
  k ∉ ids → m !! k = Some e → duplicate_of approval e = true → IsExpired e now = true →
  scanned now approval ids (<[k := retire e]> m) m' dup → scanned now approval (k :: ids) m m' dup.
Proof.
  intros Hk Ek Hde Hex [Hm Hd].
  assert (∀ i, i ≠ k → retire_expired now approval (<[k := retire e]> m) !! i =
    retire_expired now approval m !! i) as Hne.
  { intros i Hi. by rewrite !retire_expired_lookup, lookup_insert_ne. }
  assert (m' !! k = retire_expired now approval m !! k) as Hkk.
  { destruct (Hm k) as [-> | [? _]]; [| done].
    by rewrite lookup_insert_eq, retire_expired_lookup, Ek; simpl; rewrite Hde, Hex. }
  split.
  - intros i. destruct (decide (i = k)) as [-> |]; [right; set_solver |].
    destruct (Hm i) as [E | [? E]]; rewrite E.
    + left. by rewrite lookup_insert_ne.
    + right. rewrite Hne by done. set_solver.
  - destruct dup as [e' |].
    + destruct Hd as (j & Hj & Hdj & Hej). rewrite lookup_insert_Some in Hj.
      destruct Hj as [[<- <-] | [_ Hj]]; [| eauto].
      exfalso. unfold duplicate_of in Hdj. apply andb_true_iff in Hdj as [_ Ho].
      by apply open_pending_true in Ho as [_ ?].
    + intros i [-> | Hi]%elem_of_cons.
      * split; [done |]. intros e' He' _. by simplify_eq.
      * destruct (Hd i Hi) as [E Hi']. assert (i ≠ k) by set_solver.
        rewrite E, Hne by done. split; [done |]. intros e' He'. apply Hi'. by rewrite lookup_insert_ne.
Qed.

Lemma create_scan_spec now approval ids m m' dup :
  NoDup ids → create_scan now approval ids m = (m', dup) → scanned now approval ids m m' dup.
Proof.
  revert m. induction ids as [| k ids IH]; intros m Hnd Hs; simpl in Hs.
  { simplify_eq. split; [by left |]. set_solver. }
  apply NoDup_cons in Hnd as [Hk Hnd].
  destruct (m !! k) as [e |] eqn:Ek; [| apply scanned_skip; [done | congruence | by apply IH]].
  fold (same_key e approval) in Hs.
  assert (same_key e approval && bool_decide (Status e = Pending) && negb (Consumed e) =
    duplicate_of approval e) as Hdup.
  { unfold duplicate_of, open_pending. by rewrite andb_assoc. }
  rewrite Hdup in Hs. destruct (duplicate_of approval e) eqn:Hde.
  - destruct (IsExpired e now) eqn:Hex.
    + eapply scanned_retire; eauto.
    + simplify_eq. split; [by left |]. eauto.
  - apply scanned_skip; [done | | by apply IH]. intros e' He'. congruence.
Qed.

Lemma duplicate_of_with_params a e : duplicate_of (with_params a) e = duplicate_of a e.
Proof. done. Qed.

Lemma mem_Create_contract iter now a m :
  valid_order iter →
  create_contract now a m (mem_Create iter now a m).1 (mem_Create iter now a m).2.
Proof.
  intros Hv. unfold mem_Create. case_decide as Htp; [right; right; simpl; eauto |].
  destruct (create_scan now (with_params a) (iter m) m) as [m' dup] eqn:Hs.
  apply create_scan_spec in Hs as [Hm Hd].
  2:{ rewrite (Hv m). apply NoDup_fst_map_to_list. }
  assert (retire_expired now (with_params a) m = retire_expired now a m) as Hre by done.
  rewrite Hre in *. destruct dup as [e |]; simpl.
  - left. destruct Hd as (k & Hk & Hdk & Hek). exists k, e. split_and!; try done.
    intros i. destruct (Hm i) as [? | [_ ?]]; auto.
  - right; left.
    assert (∀ i e, m !! i = Some e → i ∈ iter m) as Hall.
    { intros i e He. rewrite (Hv m). apply list_elem_of_fmap. exists (i, e).
      split; [done |]. by apply elem_of_map_to_list. }
    split_and!; [| done | | done].
    + intros i e He Hdup. destruct (Hd i (Hall _ _ He)) as [_ Hi]. by apply (Hi e).
    + f_equal. apply map_eq. intros i. destruct (m !! i) as [e |] eqn:Ei.
      * apply Hd. by eapply Hall.
      * destruct (Hm i) as [-> | [_ ->]]; [| done]. by rewrite retire_expired_lookup, Ei.
Qed.

Lemma list_active_keep_spec p sids now a :
  list_active_keep p sids now a = is_active now p sids a.
Proof.
  unfold list_active_keep, is_active.
  assert (match p with Some p0 => negb (bool_decide (Prin a = p0)) | None => false end =
    negb match p with Some p0 => bool_decide (Prin a = p0) | None => true end) as ->
    by (by destruct p).
  destruct (match p with Some _ => _ | None => true end); simpl; [| done].
  destruct (bool_decide (Status a = Pending) && IsExpired a now); simpl; [done |].
  destruct (Consumed a); simpl; [done |].
  case_decide as Hp; [rewrite bool_decide_eq_true_2 by done | by rewrite bool_decide_eq_false_2 by done].
  simpl. destruct (AgentSessionID a) as [sid |]; simpl; [| done].
  by destruct (bool_decide (sid = "")), (bool_decide (sid ∈ sids)).
Qed.

Lemma count_filter (P : ToolApproval → bool) l n :
  foldl (λ count a, if P a then (count + 1)%Z else count) n l =
  (n + Z.of_nat (length (filter (λ a, P a = true) l)))%Z.
Proof.
  revert n. induction l as [| a l IH]; intros n; simpl; [lia |].
  rewrite IH, filter_cons. destruct (P a); simpl; lia.
Qed.

(** A method that looks the row up, tests a guard and writes the row back. *)
Lemma guarded_method guard upd reject id m (res : approval_map * result ErrorKind ToolApproval) :
  reject = KNotFound ∨ reject = KValidation →
  res = match m !! id with
        | None => (m, Err KNotFound)
        | Some a => if negb (guard a) then (m, Err reject) else (<[id := upd a]> m, Ok (upd a))
        end →
  guarded_update guard upd id m res.1 res.2.
Proof.
  intros Hrej ->. destruct (m !! id) as [a |] eqn:Ea.
  2:{ right; left. simpl. split_and!; [congruence | done | by left]. }
  destruct (guard a) eqn:Hg; simpl.
  - left. by exists a.
  - right; left. split_and!; [congruence | done |].
    destruct Hrej as [-> | ->]; [by left | right; rewrite Ea; eauto].
Qed.

Lemma mem_Approve_contract now id d at_ m :
  guarded_update (λ a, negb (bool_decide (dec_ToolPattern d = "")) && IsActionable a now)
    (λ a, apply_decision a d (Some (default ∅ (dec_ParamsPattern d))) at_)
    id m (mem_Approve now id d at_ m).1 (mem_Approve now id d at_ m).2.
Proof.
  unfold mem_Approve. case_decide as Htp.
  { right; right. split; [done |]. by exists KValidation. }
  rewrite bool_decide_eq_false_2 by done. eapply guarded_method; [by left |].
  destruct (m !! id) as [a |]; [| done]. unfold IsActionable. simpl.
  by destruct (bool_decide (Status a = Pending)), (IsExpired a now).
Qed.

Lemma mem_Deny_contract now id p at_ m :
  guarded_update (λ a, IsActionable a now) (λ a, apply_denial a p at_)
    id m (mem_Deny now id p at_ m).1 (mem_Deny now id p at_ m).2.
Proof.
  eapply guarded_method; [by left |]. unfold mem_Deny.
  destruct (m !! id) as [a |]; [| done]. unfold IsActionable.
  by destruct (bool_decide (Status a = Pending)), (IsExpired a now).
Qed.

Lemma mem_Revoke_contract id at_ m :
  guarded_update revocable (λ a, apply_revocation a at_)
    id m (mem_RevokePermanent id at_ m).1 (mem_RevokePermanent id at_ m).2.
Proof.
  eapply guarded_method; [by left |]. unfold mem_RevokePermanent.
  destruct (m !! id) as [a |]; [| done]. unfold revocable, is_permanent.
  by destruct (bool_decide (Persistence a = _)), (bool_decide (Status a = Approved)),
    (bool_decide (Status a = Denied)).
Qed.

Lemma mem_Consume_contract id at_ m :
  guarded_update consumable (λ a, apply_consumption a at_)
    id m (mem_Consume id at_ m).1 (mem_Consume id at_ m).2.
Proof.
  eapply guarded_method; [by right |]. unfold mem_Consume.
  destruct (m !! id) as [a |] eqn:Ea; [| done]. unfold consumable, apply_consumption.
  destruct (bool_decide (Status a = _)), (bool_decide (Persistence a = _)); simpl; try done.
  destruct (Consumed a); [by rewrite insert_id | done].
Qed.

Lemma mem_Find_contract iter now p ag t h m :
  valid_order iter →
  match mem_FindPendingByKey iter now p ag t h m with
  | Ok None => map_Forall (λ _ a, pending_key now p ag t h a = false) m
  | Ok (Some a) => ∃ id, m !! id = Some a ∧ pending_key now p ag t h a = true
  | Err _ => True
  end.
Proof.
  intros Hv. unfold mem_FindPendingByKey.
  erewrite (list_filter_iff _ (λ a, pending_key now p ag t h a = true)).
  2:{ intros a. unfold pending_key, open_pending. by rewrite !andb_assoc. }
  assert (∀ i a, m !! i = Some a → a ∈ rows iter m) as Hin.
  { intros i a Ha. rewrite (rows_perm _ _ Hv). apply list_elem_of_fmap.
    exists (i, a). split; [done |]. by apply elem_of_map_to_list. }
  destruct (filter _ (rows iter m)) as [| a l] eqn:El; simpl.
  - intros i a Ha. apply not_true_is_false. intros Hp.
    apply (not_elem_of_nil a). rewrite <-El. apply list_elem_of_filter. eauto.
  - assert (a ∈ filter (λ a, pending_key now p ag t h a = true) (rows iter m)) as Ha
      by (rewrite El; set_solver).
    apply list_elem_of_filter in Ha as [Hp Ha]. rewrite (rows_perm _ _ Hv) in Ha.
    apply list_elem_of_fmap in Ha as ([i a'] & -> & Ha).
    exists i. split; [by apply elem_of_map_to_list | done].
Qed.

Lemma mem_Count_contract iter now p ag m n :
  valid_order iter → mem_CountPending iter now p ag m = Ok n →
  n = Z.of_nat (length (filter (λ a, live_pending now p ag a = true) (map_to_list m).*2)).
Proof.
  intros Hv. unfold mem_CountPending. intros [= <-].
  etrans; [| rewrite <-(rows_perm iter m Hv); apply (count_filter (live_pending now p ag) _ 0)].
  generalize 0%Z. induction (rows iter m) as [| a l IH]; intros k; [done |]. simpl.
  rewrite IH. unfold live_pending, IsActionable. by rewrite !andb_assoc.
Qed.

Lemma on_map_fst {A} (f : approval_map → approval_map * A) s :
  ms_approvals (on_map f s).1 = (f (ms_approvals s)).1 ∧
  (on_map f s).2 = (f (ms_approvals s)).2 ∧ ms_version (on_map f s).1 = ms_version s.
Proof. unfold on_map. by destruct (f (ms_approvals s)). Qed.

Ltac by_on_map :=
  match goal with
  | |- context [on_map ?f ?s] => destruct (on_map_fst f s) as (-> & -> & _)
  end.

#[export] Instance MemoryApprovalStoreLaws : ApprovalStoreLaws (St := memory_store).
Proof.
  split; simpl.
  - intros. by_on_map. by apply mem_Create_contract.
  - intros id s. left. unfold mem_Get. by destruct (ms_approvals s !! id).
  - intros. by_on_map. apply mem_Approve_contract.
  - intros. by_on_map. apply mem_Deny_contract.
  - intros. by_on_map. apply mem_Revoke_contract.
  - intros. by_on_map. apply mem_Consume_contract.
  - intros. apply query_rows; [done |]. intros a. by rewrite list_active_keep_spec.
  - intros. by apply query_rows.
  - intros. by apply mem_Find_contract.
  - intros. by eapply mem_Count_contract.
  - intros s _. split_and!; intros; apply on_map_fst.
  - by left.
  - done.
Qed.

End memory_laws.
