(* ===== verification/SyncBroadcaster.v ===== *)
(** * Long-poll wake-ups

    internal/domain/approval/sync_broadcaster.go and the waiting part of
    internal/adapters/http/handlers/approval/sync_handler.go: subscriber
    channels of capacity one, coalesced broadcasts, and the argument that a
    waiting client is never left asleep after a change. *)

From S2P Require Import Prelude.

(** Channels are named by numbers; the value tells whether the one-slot buffer
    holds a signal.  [coalesceTimer] is the deadline of the pending
    [time.AfterFunc]. *)
Record broadcaster := Broadcaster {
  subscribers : gmap nat bool;
  coalesceWindow : duration;
  coalesceTimer : option time;
  coalescePending : bool;
}.

Definition NewApprovalSyncBroadcaster (window : duration) : broadcaster :=
  {| subscribers := ∅; coalesceWindow := window; coalesceTimer := None;
     coalescePending := false |}.

Definition set_subscribers (b : broadcaster) (subs : gmap nat bool) : broadcaster :=
  {| subscribers := subs; coalesceWindow := coalesceWindow b;
     coalesceTimer := coalesceTimer b; coalescePending := coalescePending b |}.

(** [make(chan struct{}, 1)] yields a channel not in use. *)
Definition Subscribe (b : broadcaster) : broadcaster * nat :=
  let ch := fresh (dom (subscribers b)) in
  (set_subscribers b (<[ch := false]> (subscribers b)), ch).

Definition Unsubscribe (ch : nat) (b : broadcaster) : broadcaster :=
  set_subscribers b (delete ch (subscribers b)).

(** A send to a full buffer is skipped, so every buffer ends up full. *)
Definition notifyAll (b : broadcaster) : broadcaster :=
  set_subscribers b ((λ _, true) <$> subscribers b).

Definition Broadcast (now : time) (b : broadcaster) : broadcaster :=
  if bool_decide (coalesceWindow b ≤ 0)%Z then notifyAll b
  else if coalescePending b then b
  else {| subscribers := subscribers b; coalesceWindow := coalesceWindow b;
          coalesceTimer := Some (now + coalesceWindow b)%Z; coalescePending := true |}.

(** The timer callback clears the flag under the lock, then notifies. *)
Definition timer_clear (b : broadcaster) : broadcaster :=
  {| subscribers := subscribers b; coalesceWindow := coalesceWindow b;
     coalesceTimer := None; coalescePending := false |}.

(** Receiving takes the signal out of the buffer. *)
Definition receive (ch : nat) (b : broadcaster) : broadcaster :=
  set_subscribers b (<[ch := false]> (subscribers b)).

(** ** The long-poll protocol

    A mutation increments the version and then broadcasts.  The handler
    subscribes, reads the version, and waits only if it equals the client's.
    [mutators] counts mutations between the two, [callbacks] timer callbacks
    between clearing the flag and notifying; [waiting] maps the channel of a
    waiting handler to the version it read. *)
Record sys := Sys {
  ver : Z;
  bc : broadcaster;
  mutators : nat;
  callbacks : nat;
  waiting : gmap nat Z;
}.

Inductive sys_step : sys → sys → Prop :=
  | s_subscribe s :
      sys_step s {| ver := ver s; bc := (Subscribe (bc s)).1; mutators := mutators s;
                    callbacks := callbacks s; waiting := waiting s |}
  | s_wait s ch clientVersion :
      is_Some (subscribers (bc s) !! ch) → waiting s !! ch = None →
      ver s = clientVersion →
      sys_step s {| ver := ver s; bc := bc s; mutators := mutators s;
                    callbacks := callbacks s; waiting := <[ch := clientVersion]> (waiting s) |}
  | s_increment s :
      sys_step s {| ver := ver s + 1; bc := bc s; mutators := S (mutators s);
                    callbacks := callbacks s; waiting := waiting s |}
  | s_broadcast s n now :
      mutators s = S n →
      sys_step s {| ver := ver s; bc := Broadcast now (bc s); mutators := n;
                    callbacks := callbacks s; waiting := waiting s |}
  | s_fire s t :
      coalesceTimer (bc s) = Some t →
      sys_step s {| ver := ver s; bc := timer_clear (bc s); mutators := mutators s;
                    callbacks := S (callbacks s); waiting := waiting s |}
  | s_notify s n :
      callbacks s = S n →
      sys_step s {| ver := ver s; bc := notifyAll (bc s); mutators := mutators s;
                    callbacks := n; waiting := waiting s |}
  | s_wake s ch :
      subscribers (bc s) !! ch = Some true →
      sys_step s {| ver := ver s; bc := receive ch (bc s); mutators := mutators s;
                    callbacks := callbacks s; waiting := delete ch (waiting s) |}
  | s_leave s ch :
      sys_step s {| ver := ver s; bc := Unsubscribe ch (bc s); mutators := mutators s;
                    callbacks := callbacks s; waiting := delete ch (waiting s) |}.

Definition sys_init (window : duration) (v : Z) : sys :=
  {| ver := v; bc := NewApprovalSyncBroadcaster window; mutators := 0; callbacks := 0;
     waiting := ∅ |}.

(** Every waiter with an outdated version has its signal, or one is coming. *)
Definition wake_inv (s : sys) : Prop :=
  (coalescePending (bc s) = true → is_Some (coalesceTimer (bc s))) ∧
  ∀ ch v, waiting s !! ch = Some v →
    (v ≤ ver s)%Z ∧ ∃ sig, subscribers (bc s) !! ch = Some sig ∧
    ((v < ver s)%Z → sig = true ∨ 0 < mutators s ∨ coalescePending (bc s) = true ∨ 0 < callbacks s).

Lemma wake_inv_init window v : wake_inv (sys_init window v).
Proof. split; [done |]. intros ch w Hw. simpl in Hw. by rewrite lookup_empty in Hw. Qed.

Lemma wake_inv_step s s' : sys_step s s' → wake_inv s → wake_inv s'.
Proof.
  intros Hstep [Ht Hw].
  destruct Hstep as [s | s ch cv [sig Hsig] Hn Hv | s | s n now Hm | s t Hf | s n Hc | s ch Hs | s ch];
    (split; [| intros c v Hc'; simpl in *]).
  - done.
  - destruct (Hw c v Hc') as (? & sig & Hsig & ?). split; [done |]. exists sig. split; [| done].
    rewrite lookup_insert_ne; [done |]. intros <-.
    apply elem_of_dom_2 in Hsig. by eapply (is_fresh (dom (subscribers (bc s)))).
  - done.
  - apply lookup_insert_Some in Hc' as [[<- <-] | [_ Hc']]; [| by apply Hw].
    split; [lia |]. exists sig. split; [done |]. lia.
  - done.
  - destruct (Hw c v Hc') as (? & sig & ? & ?). split; [lia |]. exists sig.
    split; [done |]. intros _. right; left. lia.
  - simpl. unfold Broadcast. case_bool_decide; [exact Ht |].
    destruct (coalescePending (bc s)) eqn:E; simpl; [by rewrite E | eauto].
  - destruct (Hw c v Hc') as (? & sig & Hsig & Hor). split; [done |]. unfold Broadcast.
    case_bool_decide; [| destruct (coalescePending (bc s)) eqn:E]; simpl.
    + exists true. rewrite lookup_fmap, Hsig. auto.
    + exists sig. split; [done |]. auto.
    + exists sig. split; [done |]. auto.
  - done.
  - destruct (Hw c v Hc') as (? & sig & ? & ?). split; [done |]. exists sig.
    split; [done |]. intros. right; right; right. lia.
  - done.
  - destruct (Hw c v Hc') as (? & sig & Hsig & ?). split; [done |]. exists true.
    rewrite lookup_fmap, Hsig. auto.
  - done.
  - apply lookup_delete_Some in Hc' as [Hne Hc']. rewrite lookup_insert_ne by done. by apply Hw.
  - done.
  - apply lookup_delete_Some in Hc' as [Hne Hc']. rewrite lookup_delete_ne by done. by apply Hw.
Qed.

(** Claim C28.  No wake-up is lost.  In every state the protocol reaches, a
    handler waiting with a version older than the current one finds a signal in
    its channel, unless a mutation has not broadcast yet, a coalesced broadcast
    is armed on a timer, or the timer's callback is about to notify; so once
    those have run, every outdated waiter is woken. *)
Theorem no_lost_wakeup (window : duration) (v0 : Z) (s : sys) :
  rtc sys_step (sys_init window v0) s →
  (coalescePending (bc s) = true → is_Some (coalesceTimer (bc s))) ∧
  ∀ ch v, waiting s !! ch = Some v → v ≠ ver s →
    subscribers (bc s) !! ch = Some true ∨
    0 < mutators s ∨ coalescePending (bc s) = true ∨ 0 < callbacks s.
Proof.
  intros Hr. assert (wake_inv s) as [Ht Hw].
  { revert Hr. apply (rtc_ind_r (λ s, wake_inv s)); [apply wake_inv_init |].
    intros s1 s2 _ Hs Hi. by eapply wake_inv_step. }
  split; [done |]. intros ch v Hc Hne. destruct (Hw ch v Hc) as (Hle & sig & Hsig & Hor).
  destruct Hor as [-> | Hor]; [lia | by left | by right].
Qed.

(** A waiter, a mutation, a coalesced broadcast: the signal is on its way. *)
Definition example_sys : sys :=
  {| ver := 1;
     bc := Broadcast 5 (Subscribe (NewApprovalSyncBroadcaster 100)).1;
     mutators := 0; callbacks := 0; waiting := {[ 0 := 0%Z ]} |}.

Lemma no_lost_wakeup_witness :
  subscribers (bc example_sys) !! 0 = Some true ∨
  0 < mutators example_sys ∨ coalescePending (bc example_sys) = true ∨
  0 < callbacks example_sys.
Proof.
  apply (no_lost_wakeup 100 0 example_sys) with (v := 0%Z); [| reflexivity | discriminate].
  eapply rtc_l; [apply s_subscribe |].
  eapply rtc_l; [apply (s_wait _ 0 0%Z); [by eexists | reflexivity | reflexivity] |].
  eapply rtc_l; [apply s_increment |].
  eapply rtc_l; [apply (s_broadcast _ 0 5); reflexivity |]. reflexivity.
Defined.
