(* ===== verification/ApprovalService.v ===== *)
(** * The approval service

    internal/domain/approval/service.go, exact_patterns.go and rate_limiter.go.
    Each service method is a handler ([prog]): one atomic action per repository
    call, version increment, broadcast or limiter access, in the order of the
    source, with its early returns.  [env] supplies the readings of the clock in
    the order the method takes them, the row order of the backend, and the
    generated UUID.  Logging, spans and metrics are left out.

    [CreatePendingApproval] runs under the service's creation mutex; the
    handlers below may be interleaved more freely than the mutex allows. *)

From S2P Require Import Prelude ToolPattern ToolApproval ApprovalStore SyncBroadcaster.

(** ** Errors *)

Inductive service_error :=
  | ErrApprovalNotFound
  | ErrApprovalForbidden
  | ErrApprovalGone
  | ErrApprovalNotPending
  | ErrApprovalRateLimit
  | ErrApprovalNotConsumable
  | ErrApprovalInvalidPattern (why : option pattern_error)
  | ErrApprovalNotRevocable
  | ErrDomainValidation (e : lifecycle_error)
  | ErrStorage (k : ErrorKind).

(** ** Rate limiting *)

(** golang.org/x/time/rate: a token bucket per key. *)
Class TokenBucket := {
  limiter : Type;
  NewLimiter : Z → limiter;
  Allow : time → limiter → limiter * bool;
}.

Record ApprovalRateLimiter `{TokenBucket} := RateLimiter {
  limiters : gmap string limiter;
  maxPending : Z;
  ratePerMin : Z;
}.

Definition limiter_key (principal agentID : string) : string := principal +:+ "|" +:+ agentID.

(** First critical section of [AllowCreation]: find or create the bucket. *)
Definition ensure_limiter `{TokenBucket} (key : string) (rl : ApprovalRateLimiter) : ApprovalRateLimiter :=
  match limiters rl !! key with
  | Some _ => rl
  | None => {| limiters := <[key := NewLimiter (ratePerMin rl)]> (limiters rl);
               maxPending := maxPending rl; ratePerMin := ratePerMin rl |}
  end.

(** [limiter.Allow()] on the bucket found. *)
Definition take_token `{TokenBucket} (now : time) (key : string) (rl : ApprovalRateLimiter)
    : ApprovalRateLimiter * bool :=
  match limiters rl !! key with
  | None => (rl, false)
  | Some l =>
      let '(l', ok) := Allow now l in
      ({| limiters := <[key := l']> (limiters rl);
          maxPending := maxPending rl; ratePerMin := ratePerMin rl |}, ok)
  end.

(** ** Requests *)

Record CreateApprovalRequest `{GoFloat} := {
  req_Principal : Principal;
  req_AgentID : AgentID;
  req_GatewayClientID : string;
  req_ToolName : string;
  req_Arguments : arguments;
  req_Description : string;
  req_RiskLevel : string;
  req_MCPSessionID : option string;
  req_AgentSessionID : option string;
  req_ToolInvocationID : option string;
  req_Traceparent : option string;
}.

Record ApproveRequest := {
  apr_Persistence : ApprovalPersistence;
  apr_ParamsPattern : option (gmap string string);
}.

(** [strings.ToLower] on the bytes that can matter here: ASCII capitals, and the
    two non-ASCII runes whose lower case is ASCII (U+0130 and U+212A).  Every
    other non-ASCII rune stays non-ASCII, so it can never complete one of the
    ASCII words compared below. *)
Fixpoint to_lower_bytes (l : list ascii) : list ascii :=
  match l with
  | [] => []
  | c :: l' =>
      let n := code c in
      if bool_decide (65 ≤ n ≤ 90)%N then byte (n + 32) :: to_lower_bytes l'
      else if decide (n = 196%N) then
        match l' with
        | d :: l'' => if decide (code d = 176%N) then "i"%char :: to_lower_bytes l''
                      else c :: to_lower_bytes l'
        | [] => [c]
        end
      else if decide (n = 226%N) then
        match l' with
        | d :: e :: l'' =>
            if decide (code d = 132%N ∧ code e = 170%N) then "k"%char :: to_lower_bytes l''
            else c :: to_lower_bytes l'
        | _ => c :: to_lower_bytes l'
        end
      else c :: to_lower_bytes l'
  end.

Definition canonicalRiskLevel (riskLevel : string) : string * bool :=
  let normalized := of_bytes (to_lower_bytes (bytes (TrimSpace riskLevel))) in
  if decide (normalized = "") then ("", true)
  else if decide (normalized ∈ ["low"; "medium"; "critical"]) then (normalized, true)
  else ("critical", false).

Section patterns.
Context `{GoFloat}.

(** exact_patterns.go *)
Definition ApplyExactPatterns (a : ToolApproval) : result service_error ToolApproval :=
  let toolPattern := EscapeLiteral (ToolName a) in
  let paramsPattern := ExactParams (Arguments a) in
  match ValidateToolPattern toolPattern with
  | Err e => Err (ErrApprovalInvalidPattern (Some e))
  | Ok _ =>
      match ValidateParamsPattern paramsPattern with
      | Err e => Err (ErrApprovalInvalidPattern (Some e))
      | Ok _ =>
          Ok (set_lifecycle a (Status a) (Persistence a) (Consumed a) toolPattern
                (Some paramsPattern) (ApprovedAt a) (DeniedAt a) (ConsumedAt a))
      end
  end.

Definition resolveApprovalDecision (a : ToolApproval) (req : ApproveRequest)
    : result service_error ApprovalDecision :=
  if bool_decide (apr_Persistence req = Once) && bool_decide (is_Some (apr_ParamsPattern req))
  then Err (ErrApprovalInvalidPattern None)
  else
    let toolPattern := EscapeLiteral (ToolName a) in
    let paramsPattern :=
      match apr_ParamsPattern req with
      | None => ExactParams (Arguments a)
      | Some p => p
      end in
    match ValidateToolPattern toolPattern with
    | Err e => Err (ErrApprovalInvalidPattern (Some e))
    | Ok _ =>
        match ValidateParamsPattern paramsPattern with
        | Err e => Err (ErrApprovalInvalidPattern (Some e))
        | Ok _ =>
            if negb (Matches toolPattern paramsPattern (ToolName a) (Arguments a))
            then Err (ErrApprovalInvalidPattern None)
            else Ok {| dec_Persistence := apr_Persistence req;
                       dec_ToolPattern := toolPattern;
                       dec_ParamsPattern := Some paramsPattern |}
        end
    end.

(** The parameters shown in a preview: the reviewed exact ones overridden by
    the decision's, unless the decision only repeats exact ones. *)
Definition preview_params (a : ToolApproval) (decided : gmap string string) : gmap string string :=
  let exact := ExactParams (Arguments a) in
  if forallb (λ p, bool_decide (p.2 = default "" (exact !! p.1))) (map_to_list decided)
  then decided
  else decided ∪ exact.

Record ScopePreview := {
  sp_ToolPattern : string;
  sp_ParamsPattern : option (gmap string string);
  sp_Preview : string;
}.

(** The user-facing view of an approval. *)
Record ApprovalDetail := {
  ad_ID : ApprovalID; ad_Principal : Principal; ad_AgentID : AgentID;
  ad_AgentDisplayName : string; ad_MCPSessionID : option string;
  ad_AgentSessionID : option string; ad_ToolInvocationID : option string;
  ad_ToolName : string; ad_Arguments : arguments; ad_ToolPattern : string;
  ad_ParamsPattern : option (gmap string string); ad_PatternPreview : string;
  ad_Description : string; ad_RiskLevel : string; ad_Status : ApprovalStatus;
  ad_Persistence : option ApprovalPersistence; ad_Consumed : bool; ad_ApprovalURL : string;
  ad_CreatedAt : time; ad_ApprovedAt : option time; ad_DeniedAt : option time;
  ad_ConsumedAt : option time; ad_ExpiresAt : time;
}.

Definition newApprovalDetail (a : ToolApproval) (agentDisplayName : string) : ApprovalDetail :=
  {| ad_ID := ID a; ad_Principal := Prin a; ad_AgentID := AgentId a;
     ad_AgentDisplayName := agentDisplayName; ad_MCPSessionID := MCPSessionID a;
     ad_AgentSessionID := AgentSessionID a; ad_ToolInvocationID := ToolInvocationID a;
     ad_ToolName := ToolName a; ad_Arguments := Arguments a; ad_ToolPattern := ToolPattern a;
     ad_ParamsPattern := ParamsPattern a;
     ad_PatternPreview := Format (ToolPattern a) (default ∅ (ParamsPattern a));
     ad_Description := Description a; ad_RiskLevel := RiskLevel a; ad_Status := Status a;
     ad_Persistence := Persistence a; ad_Consumed := Consumed a; ad_ApprovalURL := ApprovalURL a;
     ad_CreatedAt := CreatedAt a; ad_ApprovedAt := ApprovedAt a; ad_DeniedAt := DeniedAt a;
     ad_ConsumedAt := ConsumedAt a; ad_ExpiresAt := ExpiresAt a |}.

(** [sort.SliceStable] with "later creation first". *)
Fixpoint insert_latest (a : ToolApproval) (l : list ToolApproval) : list ToolApproval :=
  match l with
  | [] => [a]
  | b :: l' => if After (CreatedAt b) (CreatedAt a) then b :: insert_latest a l' else a :: l
  end.

Definition sort_latest (l : list ToolApproval) : list ToolApproval := foldr insert_latest [] l.

End patterns.

(** ** The service *)

(** Configuration and collaborators of [Service]: the nil checks on the query
    and metrics ports, and agent display names from the agent repository. *)
Record service_config := ServiceConfig {
  has_queries : bool;
  has_metrics : bool;
  agents : option (AgentID → option string);
  pendingTTL : duration;
  publicURL : string;
}.

(** What one invocation observes from its surroundings. *)
Record env `{GoFloat} := Env {
  clk : nat → time;
  iter : row_order;
  newID : ApprovalID;
}.

Record world `{TokenBucket} (St : Type) := World {
  w_store : St;
  w_bcast : option broadcaster;
  w_limiter : option ApprovalRateLimiter;
}.
Arguments World {_ _} _ _ _.
Arguments w_store {_ _} _.
Arguments w_bcast {_ _} _.
Arguments w_limiter {_ _} _.

Section service.
Context `{GoHash} `{TokenBucket} `{!ApprovalStore St} (cfg : service_config).
Abbreviation handler A := (prog (world St) (result service_error A)).
Implicit Types (w : world St) (e : env).

Definition store_act {A} (f : St → St * A) : prog (world St) A :=
  act (λ w, let '(s, x) := f (w_store w) in (World s (w_bcast w) (w_limiter w), x)).

Definition store_read {A} (f : St → A) : prog (world St) A :=
  act (λ w, (w, f (w_store w))).

(** [s.approvals.Get] with the not-found mapping every method applies. *)
Definition get_approval (approvalID : ApprovalID) : handler ToolApproval :=
  r ← store_read (st_Get approvalID);
  match r with
  | Ok a => Ret (Ok a)
  | Err KNotFound => Ret (Err ErrApprovalNotFound)
  | Err k => Ret (Err (ErrStorage k))
  end.

Definition broadcast (now : time) : prog (world St) unit :=
  act (λ w, (World (w_store w) (Broadcast now <$> w_bcast w) (w_limiter w), ())).

Definition syncApprovalMutation (now : time) : handler unit :=
  if MutationsSyncAtomically then
    _ ← broadcast now; Ret (Ok ())
  else
    r ← store_act st_IncrementVersion;
    match r with
    | Err k => Ret (Err (ErrStorage k))
    | Ok _ => _ ← broadcast now; Ret (Ok ())
    end.

Definition resolveApprovalMutationError (now : time) (approvalID : ApprovalID) (k : ErrorKind)
    : prog (world St) service_error :=
  if negb (bool_decide (k = KNotFound)) then Ret (ErrStorage k)
  else
    r ← get_approval approvalID;
    match r with
    | Err err => Ret err
    | Ok a =>
        if bool_decide (Status a = Pending) && IsExpired a now
        then Ret ErrApprovalGone
        else Ret ErrApprovalNotPending
    end.

Definition agent_display_name (agentID : AgentID) : string :=
  match agents cfg with
  | None => ""
  | Some get => default "" (get agentID)
  end.

Definition enrichApproval (a : ToolApproval) : ApprovalDetail :=
  newApprovalDetail a (agent_display_name (AgentId a)).

Definition enrichApprovals (l : list ToolApproval) : list ApprovalDetail := map enrichApproval l.

Definition GetApproval (e : env) (approvalID : ApprovalID) (actingPrincipal : Principal)
    : handler ApprovalDetail :=
  r ← get_approval approvalID;
  match r with
  | Err err => Ret (Err err)
  | Ok a =>
      if negb (bool_decide (Prin a = actingPrincipal)) then Ret (Err ErrApprovalForbidden)
      else if IsExpired a (clk e 0) && bool_decide (Status a = Pending)
      then Ret (Err ErrApprovalGone)
      else Ret (Ok (enrichApproval a))
  end.

(** Lifecycle errors as [ApproveApproval] and [DenyApproval] report them. *)
Definition lifecycle_to_service (err : lifecycle_error) : service_error :=
  match err with
  | LErrExpired => ErrApprovalGone
  | LErrNotPending => ErrApprovalNotPending
  | _ => ErrDomainValidation err
  end.

(** Readings: 0 in the method, 1 in the repository, 2 on a re-read, 3 for the
    coalescing timer. *)
Definition ApproveApproval (e : env) (approvalID : ApprovalID) (actingPrincipal : Principal)
    (req : ApproveRequest) : handler ToolApproval :=
  r ← get_approval approvalID;
  match r with
  | Err err => Ret (Err err)
  | Ok a =>
      if negb (bool_decide (Prin a = actingPrincipal)) then Ret (Err ErrApprovalForbidden)
      else
        let now := clk e 0 in
        match EnsureApprovable a actingPrincipal now with
        | Err err => Ret (Err (lifecycle_to_service err))
        | Ok _ =>
            match resolveApprovalDecision a req with
            | Err err => Ret (Err err)
            | Ok decision =>
                match Approve a actingPrincipal decision now with
                | Err err => Ret (Err (ErrDomainValidation err))
                | Ok _ =>
                    r ← store_act (st_Approve (clk e 1) approvalID decision now);
                    match r with
                    | Err k =>
                        err ← resolveApprovalMutationError (clk e 2) approvalID k;
                        Ret (Err err)
                    | Ok result =>
                        r ← syncApprovalMutation (clk e 3);
                        match r with
                        | Err err => Ret (Err err)
                        | Ok _ => Ret (Ok result)
                        end
                    end
                end
            end
        end
  end.

Definition PreviewApprovalScope (approvalID : ApprovalID) (actingPrincipal : Principal)
    (req : ApproveRequest) : handler ScopePreview :=
  r ← get_approval approvalID;
  match r with
  | Err err => Ret (Err err)
  | Ok a =>
      if negb (bool_decide (Prin a = actingPrincipal)) then Ret (Err ErrApprovalForbidden)
      else
        match resolveApprovalDecision a req with
        | Err err => Ret (Err err)
        | Ok decision =>
            Ret (Ok {| sp_ToolPattern := dec_ToolPattern decision;
                       sp_ParamsPattern := dec_ParamsPattern decision;
                       sp_Preview := Format (dec_ToolPattern decision)
                         (preview_params a (default ∅ (dec_ParamsPattern decision))) |})
        end
  end.

Definition DenyApproval (e : env) (approvalID : ApprovalID) (actingPrincipal : Principal)
    (persistence : option ApprovalPersistence) : handler ToolApproval :=
  r ← get_approval approvalID;
  match r with
  | Err err => Ret (Err err)
  | Ok a =>
      if negb (bool_decide (Prin a = actingPrincipal)) then Ret (Err ErrApprovalForbidden)
      else
        let now := clk e 0 in
        match Deny a actingPrincipal persistence now with
        | Err err => Ret (Err (lifecycle_to_service err))
        | Ok _ =>
            r ← store_act (st_Deny (clk e 1) approvalID persistence now);
            match r with
            | Err k =>
                err ← resolveApprovalMutationError (clk e 2) approvalID k;
                Ret (Err err)
            | Ok result =>
                r ← syncApprovalMutation (clk e 3);
                match r with
                | Err err => Ret (Err err)
                | Ok _ => Ret (Ok result)
                end
            end
        end
  end.

Definition findExistingPendingApproval (e : env) (i : nat) (principal : Principal)
    (agentID : AgentID) (toolName argumentsHash : string) : handler (option ToolApproval) :=
  if negb (has_queries cfg) then Ret (Ok None)
  else
    r ← store_read (st_FindPendingByKey (iter e) (clk e i) principal agentID toolName argumentsHash);
    match r with
    | Err k => Ret (Err (ErrStorage k))
    | Ok (Some a) => if IsExpired a (clk e (S i)) then Ret (Ok None) else Ret (Ok (Some a))
    | Ok None => Ret (Ok None)
    end.

(** [AllowCreation]: two critical sections. *)
Definition AllowCreation (now : time) (principal agentID : string) : prog (world St) bool :=
  let key := limiter_key principal agentID in
  _ ← act (λ w, (World (w_store w) (w_bcast w) (ensure_limiter key <$> w_limiter w), ()));
  act (λ w,
    match w_limiter w with
    | None => (w, true)
    | Some rl =>
        let '(rl', ok) := take_token now key rl in
        (World (w_store w) (w_bcast w) (Some rl'), ok)
    end).

Definition limiter_config : prog (world St) (option Z) :=
  act (λ w, (w, match w_limiter w with Some rl => Some (maxPending rl) | None => None end)).

(** The approval [CreatePendingApproval] builds. *)
Definition build_approval (e : env) (req : CreateApprovalRequest) (now : time) : ToolApproval :=
  {| ID := newID e; Prin := req_Principal req; AgentId := req_AgentID req;
     GatewayClientID := req_GatewayClientID req; ToolName := req_ToolName req;
     Arguments := req_Arguments req;
     ArgumentsHash := ComputeArgumentsHash (req_Arguments req);
     ToolPattern := ""; ParamsPattern := None;
     Description := req_Description req;
     RiskLevel := (canonicalRiskLevel (req_RiskLevel req)).1;
     MCPSessionID := req_MCPSessionID req; AgentSessionID := req_AgentSessionID req;
     ToolInvocationID := req_ToolInvocationID req;
     OpenTelemetryTraceparent := req_Traceparent req;
     Status := Pending; Persistence := None; Consumed := false;
     ApprovalURL := publicURL cfg +:+ "/approvals/" +:+ newID e;
     CreatedAt := now; ApprovedAt := None; DeniedAt := None; ConsumedAt := None;
     ExpiresAt := (now + pendingTTL cfg)%Z |}.

(** From the built approval to the stored one. *)
Definition submit_approval (e : env) (req : CreateApprovalRequest)
    : handler (ToolApproval * bool) :=
  match ApplyExactPatterns (build_approval e req (clk e 6)) with
  | Err err => Ret (Err err)
  | Ok newApproval =>
      r ← store_act (st_Create (iter e) (clk e 7) newApproval);
      match r with
      | Err k => Ret (Err (ErrStorage k))
      | Ok result =>
          if bool_decide (ID result = newID e) then
            r ← syncApprovalMutation (clk e 8);
            match r with
            | Err err => Ret (Err err)
            | Ok _ => Ret (Ok (result, true))
            end
          else Ret (Ok (result, false))
      end
  end.

(** The pending-count check; a failing count is logged and ignored. *)
Definition pending_limit_reached (e : env) (req : CreateApprovalRequest) (limit : Z)
    : prog (world St) bool :=
  if negb (has_metrics cfg) then Ret false
  else
    r ← store_read (st_CountPending (iter e) (clk e 5) (req_Principal req) (req_AgentID req));
    match r with
    | Err _ => Ret false
    | Ok n => Ret (bool_decide (limit ≤ n)%Z)
    end.

Definition CreatePendingApproval (e : env) (req : CreateApprovalRequest)
    : handler (ToolApproval * bool) :=
  let argsHash := ComputeArgumentsHash (req_Arguments req) in
  let find i := findExistingPendingApproval e i (req_Principal req) (req_AgentID req)
                  (req_ToolName req) argsHash in
  r ← find 0;
  match r with
  | Err err => Ret (Err err)
  | Ok (Some existing) => Ret (Ok (existing, false))
  | Ok None =>
      limit ← limiter_config;
      match limit with
      | None => submit_approval e req
      | Some limit =>
          ok ← AllowCreation (clk e 2) (req_Principal req) (req_AgentID req);
          if negb ok then
            r ← find 3;
            match r with
            | Err err => Ret (Err err)
            | Ok (Some existing) => Ret (Ok (existing, false))
            | Ok None => Ret (Err ErrApprovalRateLimit)
            end
          else
            full ← pending_limit_reached e req limit;
            if full : bool then Ret (Err ErrApprovalRateLimit)
            else submit_approval e req
      end
  end.

Record SyncPair := {
  pair_Principal : Principal;
  pair_AgentID : AgentID;
  pair_Approvals : list ToolApproval;
}.

Record SyncState := {
  sync_Version : Z;
  sync_Pairs : list SyncPair;
}.

(** Grouping by (principal, agent); each pair keeps the row order. *)
Definition group_pairs (l : list ToolApproval) : gmap (string * string) (list ToolApproval) :=
  foldl (λ m a,
    let key := (Prin a, AgentId a) in
    <[key := default [] (m !! key) ++ [a]]> m) ∅ l.

Definition sync_pairs (l : list ToolApproval) : list SyncPair :=
  map (λ kv, {| pair_Principal := kv.1.1; pair_AgentID := kv.1.2; pair_Approvals := kv.2 |})
    (map_to_list (group_pairs l)).

Definition GetSyncState (e : env) (principalFilter : option Principal)
    (activeAgentSessionIDs : list string) : handler SyncState :=
  v ← store_read st_GetVersion;
  match v with
  | Err k => Ret (Err (ErrStorage k))
  | Ok version =>
      r ← store_read (st_ListAllActive (iter e) (clk e 0) principalFilter activeAgentSessionIDs);
      match r with
      | Err k => Ret (Err (ErrStorage k))
      | Ok approvals =>
          Ret (Ok {| sync_Version := version; sync_Pairs := sync_pairs approvals |})
      end
  end.

Definition GetVersion : handler Z :=
  v ← store_read st_GetVersion;
  match v with
  | Err k => Ret (Err (ErrStorage k))
  | Ok version => Ret (Ok version)
  end.

Definition ConsumeApproval (e : env) (approvalID : ApprovalID) (actingPrincipal : Principal)
    : handler ToolApproval :=
  r ← get_approval approvalID;
  match r with
  | Err err => Ret (Err err)
  | Ok existing =>
      if negb (bool_decide (Prin existing = actingPrincipal)) then Ret (Err ErrApprovalForbidden)
      else if Consumed existing then Ret (Ok existing)
      else if negb (consumable existing) then Ret (Err ErrApprovalNotConsumable)
      else
        r ← store_act (st_Consume approvalID (clk e 0));
        match r with
        | Err KNotFound =>
            r ← get_approval approvalID;
            match r with
            | Err err => Ret (Err err)
            | Ok reloaded =>
                if negb (bool_decide (Prin reloaded = actingPrincipal))
                then Ret (Err ErrApprovalForbidden)
                else if Consumed reloaded then Ret (Ok reloaded)
                else Ret (Err ErrApprovalNotFound)
            end
        | Err k => Ret (Err (ErrStorage k))
        | Ok result =>
            r ← syncApprovalMutation (clk e 1);
            match r with
            | Err err => Ret (Err err)
            | Ok _ => Ret (Ok result)
            end
        end
  end.

Definition ListPendingApprovals (e : env) (principal : Principal) : handler (list ApprovalDetail) :=
  r ← store_read (st_ListAllActive (iter e) (clk e 0) (Some principal) []);
  match r with
  | Err k => Ret (Err (ErrStorage k))
  | Ok all => Ret (Ok (enrichApprovals (sort_latest (filter (λ a, Status a = Pending) all))))
  end.

Definition ListPermanentApprovals (e : env) (principal : Principal) : handler (list ApprovalDetail) :=
  r ← store_read (st_ListPermanentByPrincipal (iter e) principal);
  match r with
  | Err k => Ret (Err (ErrStorage k))
  | Ok approvals => Ret (Ok (enrichApprovals approvals))
  end.

Definition RevokePermanentApproval (e : env) (approvalID : ApprovalID) (actingPrincipal : Principal)
    : handler ToolApproval :=
  r ← get_approval approvalID;
  match r with
  | Err err => Ret (Err err)
  | Ok existing =>
      if negb (bool_decide (Prin existing = actingPrincipal)) then Ret (Err ErrApprovalForbidden)
      else if negb (is_permanent existing) then Ret (Err ErrApprovalNotRevocable)
      else
        r ← store_act (st_RevokePermanent approvalID (clk e 0));
        match r with
        | Err KNotFound =>
            r ← store_read (st_Get approvalID);
            match r with
            | Ok current =>
                if bool_decide (Prin current = actingPrincipal)
                then Ret (Err ErrApprovalNotRevocable)
                else Ret (Err ErrApprovalNotFound)
            | Err _ => Ret (Err ErrApprovalNotFound)
            end
        | Err k => Ret (Err (ErrStorage k))
        | Ok result =>
            r ← syncApprovalMutation (clk e 1);
            match r with
            | Err err => Ret (Err err)
            | Ok _ => Ret (Ok result)
            end
        end
  end.

End service.

(** ** Concrete surroundings for the examples *)

(** A digest that tells every argument map apart from the absent one only, and
    a bucket without refill. *)
Definition ExampleHash : @GoHash IntFloat :=
  {| json_Marshal args := match args with Some _ => Some "args" | None => None end;
     sha256_hex s := s |}.

Definition ExampleBucket : TokenBucket :=
  {| limiter := Z; NewLimiter n := n;
     Allow _ n := if bool_decide (0 < n)%Z then ((n - 1)%Z, true) else (n, false) |}.

Definition map_order `{GoFloat} : row_order := λ m, (map_to_list m).*1.

Lemma map_order_valid `{GoFloat} : valid_order map_order.
Proof. by intros m. Qed.

Definition example_config : service_config :=
  {| has_queries := true; has_metrics := true; agents := None;
     pendingTTL := 600; publicURL := "https://broker" |}.

(** The approval [req] asks for, as the service builds and stores it. *)
Definition example_request : @CreateApprovalRequest IntFloat :=
  {| req_Principal := "alice"; req_AgentID := "agent"; req_GatewayClientID := "gw";
     req_ToolName := "create_issue"; req_Arguments := Some ∅; req_Description := "";
     req_RiskLevel := "low"; req_MCPSessionID := None; req_AgentSessionID := None;
     req_ToolInvocationID := None; req_Traceparent := None |}.

(** Requests at time [t], with [id] as the next generated UUID. *)
Definition example_env (t : time) (id : ApprovalID) : @env IntFloat :=
  {| clk := λ n, (t + Z.of_nat n)%Z; iter := map_order; newID := id |}.
