(* ===== verification/ApprovalConcurrency.v ===== *)
(** * Concurrent approval requests

    Every service method, interleaved with any others at the granularity of
    repository calls, only makes the lifecycle steps of ApprovalStore.v.  The
    proof is by rely-guarantee: a handler's own generated UUID is the only row
    it may add, other handlers never add that row, and rows already present
    keep their identity. *)

From S2P Require Import Prelude ToolPattern ToolApproval ApprovalStore ApprovalMemory SyncBroadcaster ApprovalService.

Section steps.
Context `{GoFloat}.
Implicit Types (m : approval_map) (a b : ToolApproval).

(** What one atomic action of a handler that generated [nid] may do. *)
Inductive view_step (nid : ApprovalID) m : approval_map → Prop :=
  | vs_same : view_step nid m m
  | vs_update id a b :
      m !! id = Some a → approval_step a b → open_pending b = false →
      view_step nid m (<[id := b]> m)
  | vs_create now fresh m' res :
      new_approval fresh → ID fresh = nid → m !! nid = None →
      create_contract now fresh m m' res → view_step nid m m'.

Definition store_inv m : Prop := store_wf m ∧ dedup_inv m.

Lemma view_step_rows nid m m' : view_step nid m m' → rows_step m m'.
Proof.
  intros [| id a b Ha Hs Ho | now fr m1 res Hnew Hid Hn Hc] i c Hi; [eauto | |].
  - destruct (decide (i = id)) as [-> |].
    + simplify_eq. rewrite lookup_insert_eq. eauto.
    + rewrite lookup_insert_ne by done. eauto.
  - eapply create_rows; [done | | done]. intros ->. congruence.
Qed.

Lemma view_step_None nid m m' i :
  view_step nid m m' → i ≠ nid → m !! i = None → m' !! i = None.
Proof.
  intros [| id a b Ha Hs Ho | now fr m1 res Hnew Hid Hn Hc] Hi Hm; [done | |].
  - rewrite lookup_insert_ne; [done |]. congruence.
  - destruct Hc as [(_ & _ & _ & _ & _ & _ & Hm') | [(_ & _ & -> & _) | (-> & _)]]; [| | done].
    + destruct (Hm' i) as [-> | ->]; [done |]. by rewrite retire_expired_lookup, Hm.
    + by rewrite lookup_insert_ne, retire_expired_lookup, Hm by congruence.
Qed.

Lemma view_step_inv nid m m' : view_step nid m m' → store_inv m → store_inv m'.
Proof.
  intros Hvs [Hwf Hdd].
  destruct Hvs as [| id a b Ha Hs Ho | now fr m1 res Hnew Hid Hn Hc]; [done | |].
  - assert (guarded_update (λ _, true) (λ _, b) id m (<[id := b]> m) (Ok b)) as Hg
      by (left; eauto).
    split.
    + eapply rows_step_wf; [| by eapply guarded_update_dom | done].
      eapply (view_step_rows nid). by eapply vs_update.
    + eapply guarded_update_dedup; [| exact Hg | exact Hdd]. intros ? _. exact Ho.
  - split; [by eapply create_wf | by eapply create_dedup].
Qed.

(** A contract-conforming update is a step when its effect is one. *)
Lemma guarded_update_view guard upd id m m' res nid :
  (∀ a, m !! id = Some a → guard a = true → approval_step a (upd a) ∧ open_pending (upd a) = false) →
  guarded_update guard upd id m m' res → view_step nid m m'.
Proof.
  intros Hstep [(a & Ha & Hg & -> & _) | [(_ & -> & _) | (-> & _)]]; [| constructor..].
  destruct (Hstep a Ha Hg). by econstructor.
Qed.

End steps.

(** Rows survive sequences of steps, each one lifecycle step at a time. *)
Definition rows_reach `{GoFloat} (m m' : approval_map) : Prop :=
  ∀ i a, m !! i = Some a → ∃ b, m' !! i = Some b ∧ rtc approval_step a b.

#[export] Instance rows_reach_preorder `{GoFloat} : PreOrder rows_reach.
Proof.
  split.
  - intros m i a Ha. by exists a.
  - intros m1 m2 m3 H1 H2 i a Ha. destruct (H1 i a Ha) as (b & Hb & ?).
    destruct (H2 i b Hb) as (c & Hc & ?). exists c. split; [done | by etrans].
Qed.

Lemma rows_step_reach `{GoFloat} (m m' : approval_map) : rows_step m m' → rows_reach m m'.
Proof.
  intros Hs i a Ha. destruct (Hs i a Ha) as (b & Hb & [-> | ?]); [by exists a |].
  exists b. split; [done | by apply rtc_once].
Qed.

Lemma covers_identity `{GoFloat} (a b : ToolApproval) d :
  identity_of b = identity_of a → covers a d → covers b d.
Proof. unfold covers, identity_of. intros [=] ?. congruence. Qed.

(** The decision of [resolveApprovalDecision] covers the reviewed call. *)
Lemma resolveApprovalDecision_covers `{GoFloat} (a : ToolApproval) req d :
  resolveApprovalDecision a req = Ok d → covers a d.
Proof.
  unfold resolveApprovalDecision. intros Hd.
  destruct (bool_decide _ && bool_decide _); [done |].
  destruct (ValidateToolPattern _); [| done]. destruct (ValidateParamsPattern _); [| done].
  destruct (Matches _ _ _ _) eqn:Hm; [| done]. injection Hd as <-. done.
Qed.

Lemma ApplyExactPatterns_new `{GoHash} cfg e req now (a : ToolApproval) :
  ApplyExactPatterns (build_approval cfg e req now) = Ok a → new_approval a ∧ ID a = newID e.
Proof.
  unfold ApplyExactPatterns. destruct (ValidateToolPattern _); [| done].
  destruct (ValidateParamsPattern _); [| done]. by intros [= <-].
Qed.

Section handlers.
Context `{GoHash} `{TokenBucket} `{!ApprovalStore St} `{!ApprovalStoreLaws (St := St)}.
Context (cfg : service_config) (nid : ApprovalID).
Implicit Types (w : world St) (e : env).

Abbreviation vw w := (view (w_store w)).

Definition G w w' : Prop := view_step nid (vw w) (vw w').

(** The interference: rows keep their identity, [nid] is not taken. *)
Context (R : world St → world St → Prop).
Context (R_rows : ∀ w w', R w w' → rows_step (vw w) (vw w')).
Context (R_fresh : ∀ w w', R w w' → vw w !! nid = None → vw w' !! nid = None).

Lemma R_reach w w' : rtc R w w' → rows_reach (vw w) (vw w').
Proof.
  induction 1 as [| w1 w2 w3 Hs _ IH]; [reflexivity |].
  etrans; [| exact IH]. apply rows_step_reach. by apply R_rows.
Qed.

Lemma R_fresh_rtc w w' : rtc R w w' → vw w !! nid = None → vw w' !! nid = None.
Proof. induction 1; eauto. Qed.

(** Facts that survive interference. *)
Definition row_from (id : ApprovalID) (a : ToolApproval) w : Prop :=
  ∃ b, vw w !! id = Some b ∧ rtc approval_step a b.

Lemma row_from_stable id a w w' : rtc R w w' → row_from id a w → row_from id a w'.
Proof.
  intros Hr (b & Hb & ?). destruct (R_reach _ _ Hr id b Hb) as (c & Hc & ?).
  exists c. split; [done | by etrans].
Qed.

Lemma rg_store_read {A} (f : St → A) (Q : A → world St → Prop) w :
  (∀ w1 w2, rtc R w w1 → rtc R w1 w2 → Q (f (w_store w1)) w2) →
  rg R G Q (store_read f) w.
Proof. intros HQ. apply rg_act; simpl; [intros; constructor | eauto]. Qed.

Lemma rg_store_act {A} (f : St → St * A) (Q : A → world St → Prop) w :
  (∀ w1, rtc R w w1 → view_step nid (vw w1) (view (f (w_store w1)).1)) →
  (∀ a w2, Q a w2) → rg R G Q (store_act f) w.
Proof.
  intros HG HQ. apply rg_act.
  - intros w1 Hw1. specialize (HG w1 Hw1). unfold G. by destruct (f (w_store w1)).
  - intros. apply HQ.
Qed.

Lemma rg_get id (Q : result service_error ToolApproval → world St → Prop) w :
  (∀ err w1, Q (Err err) w1) → (∀ a w1, row_from id a w1 → Q (Ok a) w1) →
  rg R G Q (get_approval id) w.
Proof.
  intros Herr Hok. unfold get_approval.
  eapply (rg_pbind _ _ (λ r w1, ∀ a, r = Ok a → row_from id a w1)).
  - apply rg_store_read. intros w1 w2 _ Hr a Ha.
    eapply row_from_stable; [exact Hr |].
    destruct (law_Get id (w_store w1)) as [Hg | (k & Hk & _)]; [| congruence].
    destruct (vw w1 !! id) as [a' |] eqn:Ea; [| congruence].
    rewrite Hg in Ha. simplify_eq. by exists a.
  - intros r w1 Hr. destruct r as [a | k]; [| destruct k]; apply rg_ret; intros w2 Hw2; auto.
    apply Hok. eapply row_from_stable; [exact Hw2 |]. auto.
Qed.

Abbreviation triv := (λ _ _, True).

Lemma rg_sync now w : rg R G triv (syncApprovalMutation now) w.
Proof.
  unfold syncApprovalMutation, broadcast.
  assert (∀ w, rg R G triv (pbind (act (λ w : world St,
    (World (w_store w) (Broadcast now <$> w_bcast w) (w_limiter w), ())))
    (λ _ : (), Ret (Ok (E := service_error) ()))) w) as Hb.
  { intros w0 w1 _. split; [constructor | done]. }
  destruct MutationsSyncAtomically; [apply Hb |].
  eapply (rg_pbind _ _ triv); [| intros [?|?] w1 _; [apply Hb | done]].
  apply rg_store_act; [| done]. intros w1 _.
  destruct (law_Increment (w_store w1)) as [-> _]. constructor.
Qed.

Lemma rg_resolve now id k w : rg R G triv (resolveApprovalMutationError now id k) w.
Proof.
  unfold resolveApprovalMutationError. destruct (negb _); [done |].
  eapply (rg_pbind _ _ triv); [by apply rg_get |].
  intros [a | err] w1 _; [by destruct (_ && _) | done].
Qed.

(** After a mutation: report the error, or synchronise and return. *)
Lemma rg_finish {A} (now now' : time) id (r : result ErrorKind A) w :
  rg R G triv
    (match r with
     | Err k => err ← resolveApprovalMutationError now id k; Ret (Err err)
     | Ok result =>
         r ← syncApprovalMutation now';
         match r with Err err => Ret (Err err) | Ok _ => Ret (Ok result) end
     end) w.
Proof.
  destruct r as [a | k].
  - eapply (rg_pbind _ _ triv); [apply rg_sync |]. by intros [[] | err].
  - eapply (rg_pbind _ _ triv); [apply rg_resolve | done].
Qed.

Lemma rg_ApproveApproval e id p req w : rg R G triv (ApproveApproval e id p req) w.
Proof.
  eapply (rg_pbind _ _ (λ r w1, ∀ a, r = Ok a → row_from id a w1));
    [by apply rg_get; [| intros a w1 Hr b [= <-]] |].
  intros [a | err] w1 Ha; [specialize (Ha a eq_refl) | done].
  destruct (negb _); [done |]. cbv zeta. destruct (EnsureApprovable _ _ _); [| done].
  destruct (resolveApprovalDecision a req) as [d |] eqn:Hd; [| done].
  destruct (Approve _ _ _ _); [| done]. apply resolveApprovalDecision_covers in Hd.
  eapply (rg_pbind _ _ triv); [| intros r w2 _; apply rg_finish].
  apply rg_store_act; [| done]. intros w2 Hw2.
  destruct (row_from_stable _ _ _ _ Hw2 Ha) as (b & Hb & Hab).
  apply rtc_evolves, ev_identity in Hab. pose proof (covers_identity _ _ _ Hab Hd) as Hcov.
  eapply guarded_update_view; [| apply law_Approve]. intros b' Hb' Hg.
  rewrite Hb in Hb'. injection Hb' as <-.
  apply andb_true_iff in Hg as [Hne Hact]. split; [| done].
  eapply step_approve; [exact Hact | | exact Hcov].
  by apply negb_true_iff, bool_decide_eq_false_1 in Hne.
Qed.

Lemma rg_DenyApproval e id p pers w : rg R G triv (DenyApproval e id p pers) w.
Proof.
  eapply (rg_pbind _ _ triv); [by apply rg_get |].
  intros [a | err] w1 _; [| done].
  destruct (negb _); [done |]. cbv zeta. destruct (Deny _ _ _ _); [| done].
  eapply (rg_pbind _ _ triv); [| intros r w2 _; apply rg_finish].
  apply rg_store_act; [| done]. intros w2 _.
  eapply guarded_update_view; [| apply law_Deny]. intros b _ Hg.
  split; [eapply step_deny; exact Hg | done].
Qed.

Lemma rg_ConsumeApproval e id p w : rg R G triv (ConsumeApproval e id p) w.
Proof.
  eapply (rg_pbind _ _ triv); [by apply rg_get |].
  intros [a | err] w1 _; [| done].
  destruct (negb _); [done |]. destruct (Consumed a); [done |].
  destruct (negb _); [done |].
  eapply (rg_pbind _ _ triv).
  - apply rg_store_act; [| done]. intros w2 _.
    eapply guarded_update_view; [| apply law_Consume]. intros b _ Hg.
    split; [by eapply step_consume |]. apply consumable_true in Hg as [Hs _].
    unfold apply_consumption, open_pending.
    destruct (Consumed b); simpl; by rewrite Hs.
  - intros [a' | k] w2 _.
    + eapply (rg_pbind _ _ triv); [apply rg_sync |]. by intros [[] | err].
    + destruct k; try done. eapply (rg_pbind _ _ triv); [by apply rg_get |].
      intros [b | err] w3 _; [| done]. destruct (negb _); [done |]. by destruct (Consumed b).
Qed.

Lemma rg_RevokePermanentApproval e id p w : rg R G triv (RevokePermanentApproval e id p) w.
Proof.
  eapply (rg_pbind _ _ triv); [by apply rg_get |].
  intros [a | err] w1 _; [| done].
  destruct (negb _); [done |]. destruct (negb _); [done |].
  eapply (rg_pbind _ _ triv).
  - apply rg_store_act; [| done]. intros w2 _.
    eapply guarded_update_view; [| apply law_Revoke]. intros b _ Hg.
    split; [by eapply step_revoke | done].
  - intros [a' | k] w2 _.
    + eapply (rg_pbind _ _ triv); [apply rg_sync |]. by intros [[] | err].
    + destruct k; try done. eapply (rg_pbind _ _ triv); [by apply rg_store_read |].
      intros [b | k] w3 _; [by destruct (bool_decide _) | done].
Qed.

Lemma rg_find e i p ag t h w : rg R G triv (findExistingPendingApproval cfg e i p ag t h) w.
Proof.
  unfold findExistingPendingApproval. destruct (negb _); [done |].
  eapply (rg_pbind _ _ triv); [by apply rg_store_read |].
  intros [[a |] | k] w1 _; [by destruct (IsExpired _ _) | done | done].
Qed.

Abbreviation nid_free := (λ _ w, vw w !! nid = None).

(** An action that leaves the store alone keeps [nid] free. *)
Lemma rg_keep {X} (f : world St → world St * X) w :
  (∀ w1, vw (f w1).1 = vw w1) → vw w !! nid = None → rg R G nid_free (act f) w.
Proof.
  intros Hf Hn. apply rg_act.
  - intros w1 _. unfold G. rewrite Hf. constructor.
  - intros w1 w2 Hf1 Hf2. apply (R_fresh_rtc _ _ Hf2). rewrite Hf. by apply (R_fresh_rtc _ _ Hf1).
Qed.

Lemma rg_keep_ret {X} (x : X) w : vw w !! nid = None → rg R G nid_free (Ret x) w.
Proof. intros Hn w1 Hf1. by apply (R_fresh_rtc _ _ Hf1). Qed.

Lemma rg_find_keep e i p ag t h w :
  vw w !! nid = None → rg R G nid_free (findExistingPendingApproval cfg e i p ag t h) w.
Proof.
  intros Hn. unfold findExistingPendingApproval. destruct (negb _); [by apply rg_keep_ret |].
  eapply (rg_pbind _ _ nid_free); [by apply rg_keep |].
  intros [[a |] | k] w1 Hw1; [destruct (IsExpired _ _) | |]; by apply rg_keep_ret.
Qed.

Lemma rg_submit e req w :
  valid_order (iter e) → newID e = nid → vw w !! nid = None →
  rg R G triv (submit_approval cfg e req) w.
Proof.
  intros Hv He Hn. unfold submit_approval.
  destruct (ApplyExactPatterns _) as [fr |] eqn:Hfr; [| done].
  apply ApplyExactPatterns_new in Hfr as [Hnew Hid].
  eapply (rg_pbind _ _ triv).
  - apply rg_store_act; [| done]. intros w1 Hf1.
    eapply vs_create; [done | congruence | by apply (R_fresh_rtc _ _ Hf1) |].
    by apply law_Create.
  - intros [a | k] w1 _; [| done]. destruct (bool_decide _); [| done].
    eapply (rg_pbind _ _ triv); [apply rg_sync |]. by intros [[] | err].
Qed.

Lemma rg_AllowCreation_keep now p ag w :
  vw w !! nid = None → rg R G nid_free (AllowCreation (St := St) now p ag) w.
Proof.
  intros Hn. unfold AllowCreation.
  eapply (rg_pbind _ _ nid_free); [by apply rg_keep |]. intros _ w1 Hw1. apply rg_keep; [| done].
  intros w2. destruct (w_limiter w2) as [rl |]; [| done]. by destruct (take_token _ _ rl).
Qed.

Lemma rg_limit_keep e req limit w :
  vw w !! nid = None → rg R G nid_free (pending_limit_reached (St := St) cfg e req limit) w.
Proof.
  intros Hn. unfold pending_limit_reached. destruct (negb _); [by apply rg_keep_ret |].
  eapply (rg_pbind _ _ nid_free); [by apply rg_keep |].
  intros [n | k] w1 Hw1; by apply rg_keep_ret.
Qed.

Lemma rg_CreatePendingApproval e req w :
  valid_order (iter e) → newID e = nid → vw w !! nid = None →
  rg R G triv (CreatePendingApproval cfg e req) w.
Proof.
  intros Hv He Hn. unfold CreatePendingApproval.
  eapply (rg_pbind _ _ nid_free); [by apply rg_find_keep |].
  intros [[a |] | err] w1 Hf1; [done | | done].
  eapply (rg_pbind _ _ nid_free); [by apply rg_keep |].
  intros [limit |] w2 Hf2; [| by apply rg_submit].
  eapply (rg_pbind _ _ nid_free); [by apply rg_AllowCreation_keep |].
  intros [] w3 Hf3; simpl.
  - eapply (rg_pbind _ _ nid_free); [by apply rg_limit_keep |].
    intros [] w4 Hf4; [done | by apply rg_submit].
  - eapply (rg_pbind _ _ triv); [apply rg_find |]. by intros [[a |] | err].
Qed.

(** The read-only methods. *)
Lemma rg_GetApproval e id p w : rg R G triv (GetApproval cfg e id p) w.
Proof.
  eapply (rg_pbind _ _ triv); [by apply rg_get |]. intros [a | err] w1 _; [| done].
  destruct (negb _); [done |]. by destruct (_ && _).
Qed.

Lemma rg_PreviewApprovalScope id p req w : rg R G triv (PreviewApprovalScope id p req) w.
Proof.
  eapply (rg_pbind _ _ triv); [by apply rg_get |]. intros [a | err] w1 _; [| done].
  destruct (negb _); [done |]. by destruct (resolveApprovalDecision _ _).
Qed.

Lemma rg_GetSyncState e p sids w : rg R G triv (GetSyncState e p sids) w.
Proof.
  eapply (rg_pbind _ _ triv); [by apply rg_store_read |]. intros [v | k] w1 _; [| done].
  eapply (rg_pbind _ _ triv); [by apply rg_store_read |]. by intros [l | k].
Qed.

Lemma rg_query {A B} (f : St → result ErrorKind A) (g : A → B) w :
  rg R G triv (r ← store_read f;
    match r with Err k => Ret (Err (ErrStorage k)) | Ok x => Ret (Ok (g x)) end) w.
Proof. eapply (rg_pbind _ _ triv); [by apply rg_store_read |]. by intros [x | k]. Qed.

End handlers.

(** ** Pools of requests *)

Inductive call `{GoFloat} :=
  | CallGet (id : ApprovalID) (p : Principal)
  | CallApprove (id : ApprovalID) (p : Principal) (req : ApproveRequest)
  | CallPreview (id : ApprovalID) (p : Principal) (req : ApproveRequest)
  | CallDeny (id : ApprovalID) (p : Principal) (pers : option ApprovalPersistence)
  | CallCreate (req : CreateApprovalRequest)
  | CallSync (filter : option Principal) (sids : list string)
  | CallVersion
  | CallConsume (id : ApprovalID) (p : Principal)
  | CallListPending (p : Principal)
  | CallListPermanent (p : Principal)
  | CallRevoke (id : ApprovalID) (p : Principal).

Section pool.
Context `{GoHash} `{TokenBucket} `{!ApprovalStore St} `{!ApprovalStoreLaws (St := St)}.
Context (cfg : service_config).
Implicit Types w : world St.

Definition drop_reply {A} (p : prog (world St) A) : prog (world St) () := _ ← p; Ret ().

(** One request as the handler that serves it; the reply is dropped. *)
Definition exec (ec : env * call) : prog (world St) () :=
  let '(e, c) := ec in
  match c with
  | CallGet id p => drop_reply (GetApproval cfg e id p)
  | CallApprove id p req => drop_reply (ApproveApproval e id p req)
  | CallPreview id p req => drop_reply (PreviewApprovalScope id p req)
  | CallDeny id p pers => drop_reply (DenyApproval e id p pers)
  | CallCreate req => drop_reply (CreatePendingApproval cfg e req)
  | CallSync f sids => drop_reply (GetSyncState e f sids)
  | CallVersion => drop_reply GetVersion
  | CallConsume id p => drop_reply (ConsumeApproval e id p)
  | CallListPending p => drop_reply (ListPendingApprovals cfg e p)
  | CallListPermanent p => drop_reply (ListPermanentApprovals cfg e p)
  | CallRevoke id p => drop_reply (RevokePermanentApproval e id p)
  end.

Lemma rg_exec (R : world St → world St → Prop) e c w :
  (∀ w w', R w w' → rows_step (view (w_store w)) (view (w_store w'))) →
  (∀ w w', R w w' → view (w_store w) !! newID e = None → view (w_store w') !! newID e = None) →
  valid_order (iter e) → view (w_store w) !! newID e = None →
  rg R (G (newID e)) (λ _ _, True) (exec (e, c)) w.
Proof.
  intros Hr Hf Hv Hn.
  destruct c; (eapply (rg_pbind _ _ (λ _ _, True)); [| by intros]);
    [ by apply rg_GetApproval | by apply rg_ApproveApproval | by apply rg_PreviewApprovalScope
    | by apply rg_DenyApproval | by apply rg_CreatePendingApproval | by apply rg_GetSyncState
    | by apply (rg_query _ _ _ (λ v, v)) | by apply rg_ConsumeApproval
    | by apply rg_query | by apply rg_query | by apply rg_RevokePermanentApproval ].
Qed.

(** The step the [i]-th request may make. *)
Definition call_step (calls : list (env * call)) (i : nat) w w' : Prop :=
  ∃ e c, calls !! i = Some (e, c) ∧ G (newID e) w w'.

Lemma exec_pool_rg (calls : list (env * call)) w :
  NoDup (map (λ ec, newID ec.1) calls) →
  Forall (λ ec, valid_order (iter ec.1) ∧ view (w_store w) !! newID ec.1 = None) calls →
  pool_rg (call_step calls) (λ _ _ _, True) (w, map exec calls).
Proof.
  intros Hnd HF i p Hi. simpl in Hi. rewrite list_lookup_fmap in Hi.
  destruct (calls !! i) as [[e c] |] eqn:Hc; [| done]. injection Hi as <-.
  rewrite Forall_lookup in HF. destruct (HF _ _ Hc) as [Hv Hn]. simpl in Hv, Hn.
  eapply (rg_mono (others (call_step calls) i) _ (G (newID e))); [done | | ].
  { intros w1 w2 HG. exists e, c. done. }
  apply rg_exec; [| | done | done].
  - intros w1 w2 (j & _ & e' & c' & _ & HG). by eapply view_step_rows.
  - intros w1 w2 (j & Hji & e' & c' & Hj & HG). eapply view_step_None; [exact HG |].
    intros Heq. apply Hji. eapply (NoDup_lookup _ _ _ (newID e) Hnd);
      rewrite list_lookup_fmap; [rewrite Hj | rewrite Hc]; simpl; congruence.
Qed.

Lemma exec_pool_steps (calls : list (env * call)) w w' ps :
  NoDup (map (λ ec, newID ec.1) calls) →
  Forall (λ ec, valid_order (iter ec.1) ∧ view (w_store w) !! newID ec.1 = None) calls →
  rtc pool_step (w, map exec calls) (w', ps) →
  (store_inv (view (w_store w)) → store_inv (view (w_store w'))) ∧
  rows_reach (view (w_store w)) (view (w_store w')).
Proof.
  intros Hnd HF Hr.
  destruct (pool_rg_steps _ _ _ _ Hr (exec_pool_rg calls w Hnd HF)) as [Hsteps _].
  simpl in Hsteps. clear Hr Hnd HF.
  induction Hsteps as [| w1 w2 w3 (i & e & c & _ & HG) _ [IH1 IH2]]; [split; [done | reflexivity] |].
  split.
  - intros Hi. apply IH1. by eapply view_step_inv.
  - etrans; [| exact IH2]. apply rows_step_reach. by eapply view_step_rows.
Qed.

End pool.

(** Claim C7.  Under any interleaving of any service requests, an approval
    present at the start is never lost, its identity never changes, a decided
    approval never becomes pending again, a denied one never becomes approved,
    an approved one keeps the decision it was given, and consumption is never
    undone. *)
Theorem concurrent_lifecycle `{GoHash} `{TokenBucket} `{!ApprovalStore St}
    `{!ApprovalStoreLaws (St := St)} (cfg : service_config)
    (calls : list (env * call)) (w w' : world St) ps i a :
  NoDup (map (λ ec, newID ec.1) calls) →
  Forall (λ ec, valid_order (iter ec.1) ∧ view (w_store w) !! newID ec.1 = None) calls →
  rtc pool_step (w, map (exec cfg) calls) (w', ps) →
  view (w_store w) !! i = Some a →
  ∃ b, view (w_store w') !! i = Some b ∧ evolves a b.
Proof.
  intros Hnd HF Hr Ha. destruct (exec_pool_steps cfg _ _ _ _ Hnd HF Hr) as [_ Hreach].
  destruct (Hreach i a Ha) as (b & Hb & Hs). exists b. split; [done | by apply rtc_evolves].
Qed.

(** Claim C27.  Under any interleaving of any service requests the store keeps
    its invariant: rows are filed under their id; every row has its own tool's
    exact pattern; an approved row carries a persistence, a decision time and a
    pattern that covers the call the user reviewed; and at most one open pending
    row exists per (principal, agent, tool, arguments). *)
Theorem concurrent_store_invariant `{GoHash} `{TokenBucket} `{!ApprovalStore St}
    `{!ApprovalStoreLaws (St := St)} (cfg : service_config)
    (calls : list (env * call)) (w w' : world St) ps :
  NoDup (map (λ ec, newID ec.1) calls) →
  Forall (λ ec, valid_order (iter ec.1) ∧ view (w_store w) !! newID ec.1 = None) calls →
  store_inv (view (w_store w)) →
  rtc pool_step (w, map (exec cfg) calls) (w', ps) →
  store_inv (view (w_store w')).
Proof.
  intros Hnd HF Hi Hr. by apply (exec_pool_steps cfg _ _ _ _ Hnd HF Hr).
Qed.

(** ** Two interleaved requests *)

#[local] Existing Instances IntFloat ExampleHash ExampleBucket.

(** A permanent, an approved once and a pending approval of alice's. *)
Definition example_row (id : ApprovalID) (tool : string) : @ToolApproval IntFloat :=
  {| ID := id; Prin := "alice"; AgentId := "agent"; GatewayClientID := "gw"; ToolName := tool;
     Arguments := Some ∅; ArgumentsHash := "args"; ToolPattern := tool;
     ParamsPattern := Some ∅; Description := ""; RiskLevel := ""; MCPSessionID := None;
     AgentSessionID := None; ToolInvocationID := None; OpenTelemetryTraceparent := None;
     Status := Pending; Persistence := None; Consumed := false; ApprovalURL := "";
     CreatedAt := 0; ApprovedAt := None; DeniedAt := None; ConsumedAt := None; ExpiresAt := 600 |}.

Definition example_approved (p : ApprovalPersistence) (a : @ToolApproval IntFloat) : ToolApproval :=
  apply_decision a {| dec_Persistence := p; dec_ToolPattern := ToolPattern a;
    dec_ParamsPattern := Some ∅ |} (Some ∅) 1.

Definition example_rows : gmap string (@ToolApproval IntFloat) :=
  {[ "perm" := example_approved Permanent (example_row "perm" "read");
     "once" := example_approved Once (example_row "once" "write");
     "open" := example_row "open" "create_issue" ]}.

Definition example_world : world memory_store :=
  World {| ms_approvals := example_rows; ms_version := 3 |} None None.

(** Approve and deny the same pending row while a request to create it again
    and two consumptions of the once-approval are in flight. *)
Definition example_calls : list (env * call) :=
  [ (example_env 10 "n0", CallApprove "open" "alice"
       {| apr_Persistence := Once; apr_ParamsPattern := None |});
    (example_env 10 "n1", CallDeny "open" "alice" (Some Permanent));
    (example_env 10 "n2", CallCreate example_request);
    (example_env 10 "n3", CallConsume "once" "alice");
    (example_env 10 "n4", CallConsume "once" "alice") ].

Definition example_schedule : list nat :=
  [0; 1; 2; 3; 4; 1; 0; 3; 4; 2; 2; 1; 0; 1; 0; 3; 4; 3; 4; 2; 2; 2; 2].

Definition example_run : world memory_store * list (prog (world memory_store) ()) :=
  schedule example_schedule (example_world, map (exec example_config) example_calls).

Definition example_end : world memory_store := example_run.1.

Lemma example_run_steps :
  rtc pool_step (example_world, map (exec example_config) example_calls) (example_end, example_run.2).
Proof. unfold example_end. rewrite <-surjective_pairing. apply schedule_steps. Qed.

Lemma example_calls_fresh :
  NoDup (map (λ ec, newID ec.1) example_calls) ∧
  Forall (λ ec : env * call, valid_order (iter ec.1) ∧
    view (w_store example_world) !! newID ec.1 = None) example_calls.
Proof.
  split; [apply (bool_decide_unpack _); vm_compute; exact I |].
  unfold example_calls.
  repeat (apply Forall_cons; split; [split; [exact map_order_valid | reflexivity] |]).
  constructor.
Qed.

(** C2 at the interleaving above: the denial won the race, and the row is
    denied from then on. *)
Lemma concurrent_lifecycle_witness :
  ∃ b, view (w_store example_end) !! "open" = Some b ∧ evolves (example_row "open" "create_issue") b.
Proof.
  eapply (concurrent_lifecycle example_config example_calls example_world).
  - apply example_calls_fresh.
  - apply example_calls_fresh.
  - apply example_run_steps.
  - reflexivity.
Defined.

Definition example_end_row (id : ApprovalID) : option (@ToolApproval IntFloat) :=
  ms_approvals (w_store example_end) !! id.

Example example_end_denied :
  (@Status IntFloat <$> example_end_row "open") = Some Denied ∧
  (@Consumed IntFloat <$> example_end_row "once") = Some true.
Proof. split; vm_compute; reflexivity. Qed.

Lemma example_rows_cases i a :
  example_rows !! i = Some a →
  (i = "perm" ∧ a = example_approved Permanent (example_row "perm" "read")) ∨
  (i = "once" ∧ a = example_approved Once (example_row "once" "write")) ∨
  (i = "open" ∧ a = example_row "open" "create_issue").
Proof. unfold example_rows. rewrite !lookup_insert_Some, lookup_singleton_Some. naive_solver. Qed.

Lemma example_store_inv : store_inv (view (w_store example_world)).
Proof.
  split.
  - intros i a [[-> ->] | [[-> ->] | [-> ->]]]%example_rows_cases.
    all: repeat split; try done; by eexists.
  - intros i j a b [[-> ->] | [[-> ->] | [-> ->]]]%example_rows_cases
      [[-> ->] | [[-> ->] | [-> ->]]]%example_rows_cases; done.
Qed.

(** C5 at the same interleaving. *)
Lemma concurrent_store_invariant_witness : store_inv (view (w_store example_end)).
Proof.
  eapply (concurrent_store_invariant example_config example_calls example_world).
  - apply example_calls_fresh.
  - apply example_calls_fresh.
  - apply example_store_inv.
  - apply example_run_steps.
Defined.
