(* ===== verification/ApprovalServiceFacts.v ===== *)
(** * What the approval service does on the in-memory store

    Functional behaviour of the service methods, every branch, when a request
    runs alone on the in-memory repository: results, errors, and the exact
    change of the store. *)

From S2P Require Import Prelude ToolPattern ToolApproval ApprovalStore ApprovalMemory SyncBroadcaster ApprovalService ApprovalConcurrency.

Section runs.
Context `{GoHash} `{TokenBucket} (cfg : service_config).
Implicit Types (w : world memory_store) (e : env).

Abbreviation rowsof w := (ms_approvals (w_store w)).

(** The world after a stored change has been announced. *)
Definition announced (now : time) (m : approval_map) w : world memory_store :=
  World {| ms_approvals := m; ms_version := int64_wrap (ms_version (w_store w) + 1) |}
    (Broadcast now <$> w_bcast w) (w_limiter w).

Lemma run_get {B} id (k : result service_error ToolApproval → prog (world memory_store) B) w :
  run (get_approval id ≫= k) w =
  run (k (match rowsof w !! id with Some a => Ok a | None => Err ErrApprovalNotFound end)) w.
Proof.
  unfold mbind, prog_bind, get_approval. rewrite !run_pbind. simpl. unfold mem_Get.
  by destruct (rowsof w !! id).
Qed.

Lemma run_sync {B} now (k : result service_error () → prog (world memory_store) B) w :
  run (syncApprovalMutation now ≫= k) w = run (k (Ok ())) (announced now (rowsof w) w).
Proof. by unfold mbind, prog_bind, syncApprovalMutation. Qed.

Lemma run_resolve now id w :
  run (resolveApprovalMutationError now id KNotFound) w =
  (w, match rowsof w !! id with
      | None => ErrApprovalNotFound
      | Some a => if bool_decide (Status a = Pending) && IsExpired a now
                  then ErrApprovalGone else ErrApprovalNotPending
      end).
Proof.
  unfold resolveApprovalMutationError. rewrite bool_decide_eq_true_2 by done. cbn [negb].
  rewrite run_get.
  destruct (rowsof w !! id) as [a |]; [| done]. by destruct (_ && _).
Qed.

Lemma run_store_act {A B} (f : approval_map → approval_map * A) (k : A → prog (world memory_store) B) w :
  run (store_act (on_map f) ≫= k) w =
  run (k (f (rowsof w)).2)
    (World {| ms_approvals := (f (rowsof w)).1; ms_version := ms_version (w_store w) |}
       (w_bcast w) (w_limiter w)).
Proof.
  unfold mbind, prog_bind, store_act, on_map. simpl. by destruct (f (rowsof w)).
Qed.

Lemma world_eta w :
  World {| ms_approvals := rowsof w; ms_version := ms_version (w_store w) |}
    (w_bcast w) (w_limiter w) = w.
Proof. by destruct w as [[] ? ?]. Qed.

End runs.

(** What remains of a decision method once the row is known to be actionable
    at the method's own reading of the clock. *)
Lemma run_decision `{GoHash} `{TokenBucket} (w : world memory_store) (e : env) id (a : ToolApproval)
    (f : approval_map → approval_map * result ErrorKind ToolApproval) (a' : ToolApproval) :
  ms_approvals (w_store w) !! id = Some a → Status a = Pending →
  f (ms_approvals (w_store w)) =
    (if IsExpired a (clk e 1) then (ms_approvals (w_store w), Err KNotFound)
     else (<[id := a']> (ms_approvals (w_store w)), Ok a')) →
  run (r ← store_act (on_map f);
       match r with
       | Err k => err ← resolveApprovalMutationError (clk e 2) id k; Ret (Err err)
       | Ok result =>
           r ← syncApprovalMutation (clk e 3);
           match r with Err err => Ret (Err err) | Ok _ => Ret (Ok result) end
       end) w =
  if IsExpired a (clk e 1)
  then (w, Err (if IsExpired a (clk e 2) then ErrApprovalGone else ErrApprovalNotPending))
  else (announced (clk e 3) (<[id := a']> (ms_approvals (w_store w))) w, Ok a').
Proof.
  intros Ha Hp Hf. rewrite run_store_act, Hf. destruct (IsExpired a (clk e 1)); cbn [fst snd].
  - unfold mbind, prog_bind. rewrite run_pbind, world_eta, run_resolve, Ha.
    rewrite bool_decide_eq_true_2 by done. by destruct (IsExpired a (clk e 2)).
  - by rewrite run_sync.
Qed.

Lemma ApproveApproval_run `{GoHash} `{TokenBucket} (w : world memory_store) (e : env)
    (id : ApprovalID) (p : Principal) (req : ApproveRequest) :
  run (ApproveApproval e id p req) w =
  match ms_approvals (w_store w) !! id with
  | None => (w, Err ErrApprovalNotFound)
  | Some a =>
      if decide (Prin a ≠ p) then (w, Err ErrApprovalForbidden)
      else if decide (Status a ≠ Pending) then (w, Err ErrApprovalNotPending)
      else if IsExpired a (clk e 0) then (w, Err ErrApprovalGone)
      else match resolveApprovalDecision a req with
           | Err err => (w, Err err)
           | Ok d =>
               if IsExpired a (clk e 1)
               then (w, Err (if IsExpired a (clk e 2) then ErrApprovalGone else ErrApprovalNotPending))
               else
                 let a' := apply_decision a d (dec_ParamsPattern d) (clk e 0) in
                 (announced (clk e 3) (<[id := a']> (ms_approvals (w_store w))) w, Ok a')
           end
  end.
Proof.
  unfold ApproveApproval. rewrite run_get.
  destruct (ms_approvals (w_store w) !! id) as [a |] eqn:Ha; [| done].
  case_decide as Hp; [by rewrite bool_decide_eq_false_2|].
  rewrite bool_decide_eq_true_2 by (by destruct (decide (Prin a = p))). cbn [negb].
  unfold EnsureApprovable at 1. rewrite bool_decide_eq_true_2 by (by destruct (decide (Prin a = p))).
  cbn [negb]. case_decide as Hs; [by rewrite bool_decide_eq_false_2|].
  assert (Status a = Pending) as Hpend by (by destruct (decide (Status a = Pending))).
  rewrite bool_decide_eq_true_2 by done. cbn [negb].
  destruct (IsExpired a (clk e 0)) eqn:He0; [done |].
  destruct (resolveApprovalDecision a req) as [d |] eqn:Hd; [| done].
  assert (Approve a p d (clk e 0) = Ok (apply_decision a d (dec_ParamsPattern d) (clk e 0))) as ->.
  { apply Approve_ok. rewrite IsActionable_true. by split_and!. }
  assert (dec_ToolPattern d ≠ "" ∧ is_Some (dec_ParamsPattern d)) as [Htp [pp Hpp]].
  { unfold resolveApprovalDecision in Hd. destruct (bool_decide _ && _); [done |].
    destruct (ValidateToolPattern _) eqn:Hv; [| done]. destruct (ValidateParamsPattern _); [| done].
    destruct (negb _); [done |]. injection Hd as <-. simpl. split; [| eauto].
    intros Heq. unfold ValidateToolPattern in Hv. rewrite decide_True in Hv by (by left). done. }
  eapply run_decision; [done | done |].
  unfold mem_Approve. rewrite decide_False, Ha by done.
  rewrite bool_decide_eq_true_2 by done. cbn [negb orb].
  rewrite Hpp. by destruct (IsExpired a (clk e 1)).
Qed.

(** [ApproveApproval] on every branch.  An unknown id, another
    user's approval, a decided one, an expired one and an inadmissible pattern
    are refused, each with its own error and without any change; if the
    approval expires between the method's check and the repository's, the
    caller is told so and nothing changes; otherwise exactly that row becomes
    approved with the resolved decision, the version is incremented and
    subscribers are notified. *)
Theorem ApproveApproval_spec `{GoHash} `{TokenBucket} (w : world memory_store) (e : env)
    (id : ApprovalID) (p : Principal) (req : ApproveRequest) :
  run (ApproveApproval e id p req) w =
  match ms_approvals (w_store w) !! id with
  | None => (w, Err ErrApprovalNotFound)
  | Some a =>
      if decide (Prin a ≠ p) then (w, Err ErrApprovalForbidden)
      else if decide (Status a ≠ Pending) then (w, Err ErrApprovalNotPending)
      else if IsExpired a (clk e 0) then (w, Err ErrApprovalGone)
      else match resolveApprovalDecision a req with
           | Err err => (w, Err err)
           | Ok d =>
               if IsExpired a (clk e 1)
               then (w, Err (if IsExpired a (clk e 2) then ErrApprovalGone else ErrApprovalNotPending))
               else
                 let a' := apply_decision a d (dec_ParamsPattern d) (clk e 0) in
                 (announced (clk e 3) (<[id := a']> (ms_approvals (w_store w))) w, Ok a')
           end
  end.
Proof. apply ApproveApproval_run. Qed.

Lemma DenyApproval_run `{GoHash} `{TokenBucket} (w : world memory_store) (e : env)
    (id : ApprovalID) (p : Principal) (pers : option ApprovalPersistence) :
  run (DenyApproval e id p pers) w =
  match ms_approvals (w_store w) !! id with
  | None => (w, Err ErrApprovalNotFound)
  | Some a =>
      if decide (Prin a ≠ p) then (w, Err ErrApprovalForbidden)
      else if decide (Status a ≠ Pending) then (w, Err ErrApprovalNotPending)
      else if IsExpired a (clk e 0) then (w, Err ErrApprovalGone)
      else if IsExpired a (clk e 1)
      then (w, Err (if IsExpired a (clk e 2) then ErrApprovalGone else ErrApprovalNotPending))
      else
        let a' := set_lifecycle a Denied pers (Consumed a) (ToolPattern a)
          (if decide (pers = Some Permanent) then Some ∅ else ParamsPattern a)
          (ApprovedAt a) (Some (clk e 0)) (ConsumedAt a) in
        (announced (clk e 3) (<[id := a']> (ms_approvals (w_store w))) w, Ok a')
  end.
Proof.
  unfold DenyApproval. rewrite run_get.
  destruct (ms_approvals (w_store w) !! id) as [a |] eqn:Ha; [| done].
  case_decide as Hp; [by rewrite bool_decide_eq_false_2|].
  rewrite bool_decide_eq_true_2 by (by destruct (decide (Prin a = p))). cbn [negb].
  unfold Deny at 1. rewrite bool_decide_eq_true_2 by (by destruct (decide (Prin a = p))).
  cbn [negb]. case_decide as Hs; [by rewrite bool_decide_eq_false_2|].
  assert (Status a = Pending) as Hpend by (by destruct (decide (Status a = Pending))).
  rewrite bool_decide_eq_true_2 by done. cbn [negb].
  destruct (IsExpired a (clk e 0)) eqn:He0; [done |].
  eapply run_decision; [done | done |].
  unfold mem_Deny. rewrite Ha, bool_decide_eq_true_2 by done. cbn [negb orb].
  by destruct (IsExpired a (clk e 1)).
Qed.

(** [DenyApproval] on every branch, with the same refusals as
    [ApproveApproval]; a permanent denial drops the parameter constraints, so
    that it covers every call of the tool. *)
Theorem DenyApproval_spec `{GoHash} `{TokenBucket} (w : world memory_store) (e : env)
    (id : ApprovalID) (p : Principal) (pers : option ApprovalPersistence) :
  run (DenyApproval e id p pers) w =
  match ms_approvals (w_store w) !! id with
  | None => (w, Err ErrApprovalNotFound)
  | Some a =>
      if decide (Prin a ≠ p) then (w, Err ErrApprovalForbidden)
      else if decide (Status a ≠ Pending) then (w, Err ErrApprovalNotPending)
      else if IsExpired a (clk e 0) then (w, Err ErrApprovalGone)
      else if IsExpired a (clk e 1)
      then (w, Err (if IsExpired a (clk e 2) then ErrApprovalGone else ErrApprovalNotPending))
      else
        let a' := set_lifecycle a Denied pers (Consumed a) (ToolPattern a)
          (if decide (pers = Some Permanent) then Some ∅ else ParamsPattern a)
          (ApprovedAt a) (Some (clk e 0)) (ConsumedAt a) in
        (announced (clk e 3) (<[id := a']> (ms_approvals (w_store w))) w, Ok a')
  end.
Proof. apply DenyApproval_run. Qed.

Lemma ConsumeApproval_run `{GoHash} `{TokenBucket} (w : world memory_store) (e : env)
    (id : ApprovalID) (p : Principal) :
  run (ConsumeApproval e id p) w =
  match ms_approvals (w_store w) !! id with
  | None => (w, Err ErrApprovalNotFound)
  | Some a =>
      if decide (Prin a ≠ p) then (w, Err ErrApprovalForbidden)
      else if Consumed a then (w, Ok a)
      else if decide (Status a = Approved ∧ Persistence a = Some Once) then
        let a' := mark_consumed a (Some (clk e 0)) in
        (announced (clk e 1) (<[id := a']> (ms_approvals (w_store w))) w, Ok a')
      else (w, Err ErrApprovalNotConsumable)
  end.
Proof.
  unfold ConsumeApproval. rewrite run_get.
  destruct (ms_approvals (w_store w) !! id) as [a |] eqn:Ha; [| done].
  case_decide as Hp; [by rewrite bool_decide_eq_false_2|].
  rewrite bool_decide_eq_true_2 by (by destruct (decide (Prin a = p))). cbn [negb].
  destruct (Consumed a) eqn:Hc; [done |]. case_decide as Hok.
  - rewrite (proj2 (consumable_true a)) by done. cbn [negb].
    destruct Hok as [Hs Hpers]. cbn [st_Consume MemoryApprovalStore]. rewrite run_store_act.
    unfold mem_Consume. rewrite Ha, !bool_decide_eq_true_2 by done. cbn [negb orb].
    rewrite Hc. cbn [fst snd]. by rewrite run_sync.
  - destruct (consumable a) eqn:Hcn; [| done]. by apply consumable_true in Hcn.
Qed.

(** [ConsumeApproval] on every branch: only the owner may consume,
    only an approved once-approval is consumable, consuming sets the flag and
    the time on exactly that row and announces it, and consuming it again
    returns the stored approval without any change. *)
Theorem ConsumeApproval_spec `{GoHash} `{TokenBucket} (w : world memory_store) (e : env)
    (id : ApprovalID) (p : Principal) :
  run (ConsumeApproval e id p) w =
  match ms_approvals (w_store w) !! id with
  | None => (w, Err ErrApprovalNotFound)
  | Some a =>
      if decide (Prin a ≠ p) then (w, Err ErrApprovalForbidden)
      else if Consumed a then (w, Ok a)
      else if decide (Status a = Approved ∧ Persistence a = Some Once) then
        let a' := mark_consumed a (Some (clk e 0)) in
        (announced (clk e 1) (<[id := a']> (ms_approvals (w_store w))) w, Ok a')
      else (w, Err ErrApprovalNotConsumable)
  end.
Proof. apply ConsumeApproval_run. Qed.

Lemma RevokePermanentApproval_run `{GoHash} `{TokenBucket} (w : world memory_store) (e : env)
    (id : ApprovalID) (p : Principal) :
  store_wf (ms_approvals (w_store w)) →
  run (RevokePermanentApproval e id p) w =
  match ms_approvals (w_store w) !! id with
  | None => (w, Err ErrApprovalNotFound)
  | Some a =>
      if decide (Prin a ≠ p) then (w, Err ErrApprovalForbidden)
      else if decide (Persistence a = Some Permanent) then
        let a' := set_lifecycle a Denied None (Consumed a) (ToolPattern a) (ParamsPattern a)
          (ApprovedAt a) (Some (clk e 0)) (ConsumedAt a) in
        (announced (clk e 1) (<[id := a']> (ms_approvals (w_store w))) w, Ok a')
      else (w, Err ErrApprovalNotRevocable)
  end.
Proof.
  intros Hwf. unfold RevokePermanentApproval. rewrite run_get.
  destruct (ms_approvals (w_store w) !! id) as [a |] eqn:Ha; [| done].
  case_decide as Hp; [by rewrite bool_decide_eq_false_2|].
  rewrite bool_decide_eq_true_2 by (by destruct (decide (Prin a = p))). cbn [negb].
  unfold is_permanent. case_decide as Hperm; [| by rewrite bool_decide_eq_false_2].
  rewrite bool_decide_eq_true_2 by done. cbn [negb].
  cbn [st_RevokePermanent MemoryApprovalStore]. rewrite run_store_act.
  unfold mem_RevokePermanent. rewrite Ha, (bool_decide_eq_true_2 (Persistence a = _)) by done.
  destruct (Hwf _ _ Ha) as [_ (_ & _ & _ & Hst)].
  destruct (Status a) eqn:Hs; [by destruct Hst; congruence | |]; cbn [negb orb andb];
    rewrite ?bool_decide_eq_true_2 by done; cbn [negb orb andb];
    rewrite ?andb_false_r; cbn [fst snd]; by rewrite run_sync.
Qed.

(** [RevokePermanentApproval] on every branch: only the owner may
    revoke, only a permanent decision is revocable, and revoking turns exactly
    that row into a denial without persistence, which later calls no longer
    match. *)
Theorem RevokePermanentApproval_spec `{GoHash} `{TokenBucket} (w : world memory_store) (e : env)
    (id : ApprovalID) (p : Principal) :
  store_wf (ms_approvals (w_store w)) →
  run (RevokePermanentApproval e id p) w =
  match ms_approvals (w_store w) !! id with
  | None => (w, Err ErrApprovalNotFound)
  | Some a =>
      if decide (Prin a ≠ p) then (w, Err ErrApprovalForbidden)
      else if decide (Persistence a = Some Permanent) then
        let a' := set_lifecycle a Denied None (Consumed a) (ToolPattern a) (ParamsPattern a)
          (ApprovedAt a) (Some (clk e 0)) (ConsumedAt a) in
        (announced (clk e 1) (<[id := a']> (ms_approvals (w_store w))) w, Ok a')
      else (w, Err ErrApprovalNotRevocable)
  end.
Proof. apply RevokePermanentApproval_run. Qed.

(** ** Creation *)

(** The row stands for the request: an open pending approval with its key. *)
Definition pending_for `{GoHash} (req : CreateApprovalRequest) (a : ToolApproval) : Prop :=
  Prin a = req_Principal req ∧ AgentId a = req_AgentID req ∧ ToolName a = req_ToolName req ∧
  ArgumentsHash a = ComputeArgumentsHash (req_Arguments req) ∧ open_pending a = true.

Section creation.
Context `{GoHash} `{TokenBucket} (cfg : service_config).
Implicit Types (w : world memory_store) (e : env).
Abbreviation rowsof w := (ms_approvals (w_store w)).

Lemma pending_key_true now req (a : ToolApproval) :
  pending_key now (req_Principal req) (req_AgentID req) (req_ToolName req)
    (ComputeArgumentsHash (req_Arguments req)) a = true ↔
  pending_for req a ∧ IsExpired a now = false.
Proof.
  unfold pending_key, pending_for.
  rewrite !andb_true_iff, !bool_decide_eq_true, negb_true_iff. naive_solver.
Qed.

Abbreviation find e i req := (findExistingPendingApproval (St := memory_store) cfg e i
  (req_Principal req) (req_AgentID req) (req_ToolName req)
  (ComputeArgumentsHash (req_Arguments req))).

Lemma run_find e i req w :
  valid_order (iter e) →
  (run (find e i req) w).1 = w ∧
  match (run (find e i req) w).2 with
  | Ok (Some a) => ∃ id, rowsof w !! id = Some a ∧ pending_for req a
  | Ok None => True
  | Err _ => False
  end.
Proof.
  intros Hv. unfold findExistingPendingApproval. destruct (has_queries cfg); [| done]. cbn [negb].
  unfold mbind, prog_bind, store_read. rewrite run_act. cbn [st_FindPendingByKey MemoryApprovalStore].
  pose proof (mem_Find_contract (iter e) (clk e i) (req_Principal req) (req_AgentID req)
    (req_ToolName req) (ComputeArgumentsHash (req_Arguments req)) (rowsof w) Hv) as Hc.
  unfold mem_FindPendingByKey in *. destruct (head _) as [a |]; [| done].
  destruct Hc as (id & Ha & Hk). apply pending_key_true in Hk as [Hp He].
  destruct (IsExpired a (clk e (S i))); simpl; eauto.
Qed.

Lemma run_submit e req w w1 a isNew :
  valid_order (iter e) →
  run (submit_approval cfg e req) w = (w1, Ok (a, isNew)) →
  ∃ id, rowsof w1 !! id = Some a ∧ pending_for req a.
Proof.
  intros Hv. unfold submit_approval.
  destruct (ApplyExactPatterns _) as [fr |] eqn:Hfr; [| done].
  assert (pending_for req fr) as Hpf.
  { unfold ApplyExactPatterns in Hfr. destruct (ValidateToolPattern _); [| done].
    destruct (ValidateParamsPattern _); [| done]. by injection Hfr as <-. }
  cbn [st_Create MemoryApprovalStore]. rewrite run_store_act.
  pose proof (mem_Create_contract (iter e) (clk e 7) fr (rowsof w) Hv) as Hc.
  destruct (mem_Create (iter e) (clk e 7) fr (rowsof w)) as [m' r]. cbn [fst snd] in *.
  assert (∀ b, r = Ok b → ∃ id, m' !! id = Some b ∧ pending_for req b) as Hrow.
  { intros b ->. destruct Hc as [(i & x & Hi & Hd & He & [= ->] & Hm') | [(_ & _ & -> & [= ->]) | (_ & k & [=])]].
    - exists i. unfold duplicate_of in Hd. apply andb_true_iff in Hd as [Hk Ho].
      apply same_key_true in Hk as (? & ? & ? & ?). destruct Hpf as (? & ? & ? & ? & _). split.
      + destruct (Hm' i) as [-> | ->]; [done |]. rewrite retire_expired_lookup, Hi. simpl.
        by rewrite He, andb_false_r.
      + split_and!; congruence.
    - exists (ID fr). by rewrite lookup_insert_eq. }
  destruct r as [b | k]; [| done]. destruct (Hrow b eq_refl) as (id & Hid & Hb).
  destruct (bool_decide _); [rewrite run_sync |]; intros [= <- <- _]; by exists id.
Qed.

Lemma run_create_row e req w w1 a isNew :
  valid_order (iter e) →
  run (CreatePendingApproval cfg e req) w = (w1, Ok (a, isNew)) →
  ∃ id, rowsof w1 !! id = Some a ∧ pending_for req a.
Proof.
  intros Hv. unfold CreatePendingApproval, mbind, prog_bind. rewrite run_pbind.
  destruct (run_find e 0 req w Hv) as [Hw Hr].
  destruct (run (find e 0 req) w) as [w0 r0]; cbn [fst snd] in *; subst w0.
  destruct r0 as [[x |] | err]; [intros [= -> -> _]; done | | done].
  unfold limiter_config. rewrite run_act. destruct (w_limiter w) as [rl |] eqn:Hrl;
    [| intros Hrun; by eapply run_submit].
  unfold AllowCreation, mbind, prog_bind. rewrite run_pbind, run_pbind. cbn [run act]. rewrite Hrl.
  cbn [fmap option_fmap option_map w_limiter].
  destruct (take_token _ _ _) as [rl' ok]. cbn [run w_store].
  destruct ok; cbn [negb].
  - unfold pending_limit_reached, mbind, prog_bind.
    destruct (has_metrics cfg); cbn [negb]; [| intros Hrun; by eapply run_submit].
    rewrite run_pbind. unfold store_read. rewrite run_act. cbn [st_CountPending MemoryApprovalStore w_store].
    unfold mem_CountPending. cbn [run]. destruct (bool_decide _); [done |].
    intros Hrun. by eapply run_submit.
  - set (w2 := World _ _ _). rewrite run_pbind.
    destruct (run_find e 3 req w2 Hv) as [Hw2 Hr2].
    destruct (run (find e 3 req) w2) as [w0 r0]; cbn [fst snd] in *; subst w0.
    destruct r0 as [[x |] | err]; [intros [= <- -> _]; done | done | done].
Qed.

End creation.

(** Creation is idempotent.  After a successful
    [CreatePendingApproval], repeating the request while the approval is
    pending and not expired returns that very approval, flagged as not new, and
    changes nothing: no second row, no version increment, no token taken. *)
Theorem CreatePendingApproval_idempotent `{GoHash} `{TokenBucket} (cfg : service_config)
    (w w1 : world memory_store) (e e2 : env) (req : CreateApprovalRequest) a isNew :
  has_queries cfg = true → valid_order (iter e) → valid_order (iter e2) →
  dedup_inv (ms_approvals (w_store w1)) →
  run (CreatePendingApproval cfg e req) w = (w1, Ok (a, isNew)) →
  IsExpired a (clk e2 0) = false → IsExpired a (clk e2 1) = false →
  run (CreatePendingApproval cfg e2 req) w1 = (w1, Ok (a, false)).
Proof.
  intros Hq Hv Hv2 Hdd Hrun He0 He1.
  destruct (run_create_row _ _ _ _ _ _ _ Hv Hrun) as (id & Hid & Ha).
  unfold CreatePendingApproval at 1, mbind, prog_bind. rewrite run_pbind.
  unfold findExistingPendingApproval at 1. rewrite Hq. cbn [negb].
  unfold mbind, prog_bind, store_read. rewrite run_act. cbn [st_FindPendingByKey MemoryApprovalStore].
  pose proof (mem_Find_contract (iter e2) (clk e2 0) (req_Principal req) (req_AgentID req)
    (req_ToolName req) (ComputeArgumentsHash (req_Arguments req)) (ms_approvals (w_store w1)) Hv2) as Hc.
  unfold mem_FindPendingByKey in *. destruct (head _) as [b |].
  - destruct Hc as (id' & Hb & Hk). apply pending_key_true in Hk as [Hpb _].
    assert (id' = id) as ->.
    { destruct Ha as (? & ? & ? & ? & ?), Hpb as (? & ? & ? & ? & ?).
      eapply Hdd; [exact Hb | exact Hid | done | done |]. apply same_key_true.
      split_and!; congruence. }
    assert (b = a) as -> by congruence. by rewrite He1.
  - exfalso. specialize (Hc id a Hid). apply (diff_true_false). rewrite <-Hc. symmetry.
    by apply pending_key_true.
Qed.

(** ** The hypotheses at concrete requests *)

#[local] Existing Instances IntFloat ExampleHash ExampleBucket.

(** C20 at alice's permanent approval. *)
Lemma RevokePermanentApproval_spec_witness :
  (run (RevokePermanentApproval (example_env 10 "n0") "perm" "alice") example_world).2 =
  Ok (set_lifecycle (example_approved Permanent (example_row "perm" "read")) Denied None false
        "read" (Some ∅) (Some 1%Z) (Some 10%Z) None).
Proof.
  rewrite (RevokePermanentApproval_spec example_world (example_env 10 "n0") "perm" "alice")
    by apply example_store_inv.
  reflexivity.
Defined.

Definition empty_world : world memory_store :=
  World {| ms_approvals := ∅; ms_version := 0 |} None
    (Some {| limiters := ∅; maxPending := 5; ratePerMin := 1 |}).

Definition example_created : world memory_store * result service_error (ToolApproval * bool) :=
  run (CreatePendingApproval example_config (example_env 10 "n0") example_request) empty_world.

Definition created_row : ToolApproval :=
  match example_created.2 with
  | Ok (a, _) => a
  | Err _ => example_row "" ""
  end.

(** C21 at a first creation in an empty store with one token in the bucket:
    the second request finds the row although the bucket is empty. *)
Lemma CreatePendingApproval_idempotent_witness :
  run (CreatePendingApproval example_config (example_env 20 "n1") example_request) example_created.1 =
  (example_created.1, Ok (created_row, false)).
Proof.
  apply (CreatePendingApproval_idempotent example_config empty_world example_created.1
    (example_env 10 "n0") (example_env 20 "n1") example_request created_row true).
  - reflexivity.
  - exact map_order_valid.
  - exact map_order_valid.
  - intros i j a b Hi Hj _ _ _.
    assert (ms_approvals (w_store example_created.1) = {["n0" := created_row]}) as E by reflexivity.
    rewrite E in Hi, Hj. apply lookup_singleton_Some in Hi as [<- _], Hj as [<- _]. done.
  - reflexivity.
  - reflexivity.
  - reflexivity.
Defined.
