(* ===== verification/ApprovalCache.v ===== *)
(** * The approval cache of the gateway extension

    internal/extproc/approval/cache.go: the local copy of the broker's approval
    state that the gate consults on every tool call.  Every exported method
    takes the cache's mutex for its whole body, so each is one function on
    [Cache]; [now] is the reading of the clock the method takes. *)

From S2P Require Import Prelude ToolPattern Precedence.

(** ** Data *)

Record Identity := MkIdentity {
  id_Principal : string;
  id_AgentID : string;
}.

Definition Valid (i : Identity) : bool :=
  negb (bool_decide (id_Principal i = "")) && negb (bool_decide (id_AgentID i = "")).

(** The record as received from the broker, plus the local reservation flag.
    [nil] pointers and maps are [None]. *)
Record CRecord := MkRecord {
  r_ID : string;
  r_ToolName : string;
  r_ToolPattern : string;
  r_ParamsPattern : option (gmap string string);
  r_Status : string;
  r_Persistence : option string;
  r_Consumed : bool;
  r_AgentSessionID : option string;
  r_ApprovedAt : option time;
  r_reserved : bool;
}.

Abbreviation pairKey := (string * string)%type (only parsing).

Definition key_of (i : Identity) : pairKey := (id_Principal i, id_AgentID i).

Record pairEntry := PairEntry {
  records : list CRecord;
  lastSeen : time;
  syncedAt : time;
}.

Record Cache := MkCache {
  pairs : gmap pairKey pairEntry;
  sessions : gmap string time;
  etag : string;
  c_version : Z;
  lastSync : time;
  createdAt : time;
  idleTTL : duration;
  maxStaleness : duration;
}.

Record Pair := MkPair {
  p_Identity : Identity;
  p_Approvals : list CRecord;
}.

#[export] Instance Identity_eq_dec : EqDecision Identity.
Proof. solve_decision. Defined.
#[export] Instance CRecord_eq_dec : EqDecision CRecord.
Proof. solve_decision. Defined.
#[export] Instance Pair_eq_dec : EqDecision Pair.
Proof. solve_decision. Defined.

Definition set_flags (r : CRecord) (consumed reserved : bool) : CRecord :=
  {| r_ID := r_ID r; r_ToolName := r_ToolName r; r_ToolPattern := r_ToolPattern r;
     r_ParamsPattern := r_ParamsPattern r; r_Status := r_Status r;
     r_Persistence := r_Persistence r; r_Consumed := consumed;
     r_AgentSessionID := r_AgentSessionID r; r_ApprovedAt := r_ApprovedAt r;
     r_reserved := reserved |}.

Definition set_records (e : pairEntry) (l : list CRecord) : pairEntry :=
  {| records := l; lastSeen := lastSeen e; syncedAt := syncedAt e |}.

Definition set_lastSeen (e : pairEntry) (now : time) : pairEntry :=
  {| records := records e; lastSeen := now; syncedAt := syncedAt e |}.

Definition set_pairs (c : Cache) (m : gmap pairKey pairEntry) : Cache :=
  {| pairs := m; sessions := sessions c; etag := etag c; c_version := c_version c;
     lastSync := lastSync c; createdAt := createdAt c; idleTTL := idleTTL c;
     maxStaleness := maxStaleness c |}.

Definition set_sessions (c : Cache) (s : gmap string time) : Cache :=
  {| pairs := pairs c; sessions := s; etag := etag c; c_version := c_version c;
     lastSync := lastSync c; createdAt := createdAt c; idleTTL := idleTTL c;
     maxStaleness := maxStaleness c |}.

Definition set_version (c : Cache) (v : Z) : Cache :=
  {| pairs := pairs c; sessions := sessions c; etag := etag c; c_version := v;
     lastSync := lastSync c; createdAt := createdAt c; idleTTL := idleTTL c;
     maxStaleness := maxStaleness c |}.

Definition set_sync (c : Cache) (tag : string) (t : time) : Cache :=
  {| pairs := pairs c; sessions := sessions c; etag := tag; c_version := c_version c;
     lastSync := t; createdAt := createdAt c; idleTTL := idleTTL c;
     maxStaleness := maxStaleness c |}.

Definition NewCache (now : time) (ttl staleness : duration) : Cache :=
  {| pairs := ∅; sessions := ∅; etag := ""; c_version := 0; lastSync := zero_time;
     createdAt := now; idleTTL := ttl; maxStaleness := staleness |}.

(** ** Operations *)

Definition freshLocked (c : Cache) (entry : pairEntry) (now : time) : bool :=
  let freshest := if After (syncedAt entry) (lastSync c) then syncedAt entry else lastSync c in
  negb (IsZero freshest) && bool_decide (Sub now freshest ≤ maxStaleness c)%Z.

(** A record bound to the session [sessionID]. *)
Definition session_record (sessionID : string) (r : CRecord) : bool :=
  bool_decide (r_Persistence r = Some "session") && bool_decide (r_AgentSessionID r = Some sessionID).

Definition filterSessionRecords (sessionID : string) (l : list CRecord) : list CRecord :=
  filter (λ r, session_record sessionID r = false) l.

(** One iteration of the loop over sessions. *)
Definition evict_session (now : time) (c : Cache) (s : string * time) : Cache :=
  if bool_decide (Sub now s.2 ≤ idleTTL c)%Z then c
  else set_pairs (set_sessions c (delete s.1 (sessions c)))
         ((λ e, set_records e (filterSessionRecords s.1 (records e))) <$> pairs c).

(** The loop over pairs. *)
Definition evict_pairs (now : time) (c : Cache) : Cache :=
  set_pairs c (filter (λ ke, (Sub now (lastSeen ke.2) ≤ idleTTL c)%Z) (pairs c)).

Definition evictIdleLocked (now : time) (c : Cache) : Cache :=
  evict_pairs now (foldl (evict_session now) c (map_to_list (sessions c))).

Definition EvictIdle (now : time) (c : Cache) : Cache := evictIdleLocked now c.

Definition RecordSession (now : time) (sessionID : string) (c : Cache) : Cache :=
  if decide (sessionID = "") then c
  else
    let c := evictIdleLocked now c in
    set_sessions c (<[sessionID := now]> (sessions c)).

(** Sorted by [sort.Strings]. *)
Definition ActiveSessions (c : Cache) : list string :=
  merge_sort String.le (map_to_list (sessions c)).*1.

Definition parseSyncVersion (tag : string) : option Z :=
  let tag := TrimSpace tag in
  let tag := if HasPrefix tag "W/" then TrimSpace (TrimPrefix tag "W/") else tag in
  let tag := Trim (TrimSpace tag) [dquote] in
  ParseInt64 (TrimPrefix tag "v").

Definition acceptVersionLocked (tag : string) (c : Cache) : Cache * bool :=
  match parseSyncVersion tag with
  | Some version =>
      if bool_decide (version < c_version c)%Z then (c, false) else (set_version c version, true)
  | None => (c, true)
  end.

Definition MarkSynced (now : time) (c : Cache) : Cache :=
  match parseSyncVersion (etag c) with
  | Some version =>
      if bool_decide (version < c_version c)%Z then c else set_sync c (etag c) now
  | None => set_sync c (etag c) now
  end.

(** [int64(time.Since(lastSync) / time.Second)]; Go division truncates. *)
Definition SyncAgeSeconds (now : time) (c : Cache) : Z :=
  let t := if IsZero (lastSync c) then createdAt c else lastSync c in
  Z.quot (Sub now t) second.

(** The inner loop of [snapshotRecords]: flags carried over from the first
    previous record with the same non-empty id. *)
Fixpoint carry_flags (r : CRecord) (previous : list CRecord) : CRecord :=
  match previous with
  | [] => r
  | old :: previous =>
      if bool_decide (r_ID r = "") || negb (bool_decide (r_ID old = r_ID r))
      then carry_flags r previous
      else
        let consumed := r_Consumed r || r_Consumed old in
        set_flags r consumed (negb consumed && r_reserved old)
  end.

Definition snapshotRecords (l previous : list CRecord) : list CRecord :=
  map (λ r, carry_flags r previous) l.

Definition snapshotEntry (l : list CRecord) (current : option pairEntry) (now : time) : pairEntry :=
  let seen := match current with Some e => lastSeen e | None => now end in
  let previous := match current with Some e => records e | None => [] end in
  {| records := snapshotRecords l previous;
     lastSeen := if IsZero seen then now else seen;
     syncedAt := now |}.

(** The loop building [replacement]; [keep] is the loop's own filter. *)
Definition replacement (keep : Identity → bool) (current : gmap pairKey pairEntry) (now : time)
    (l : list Pair) : gmap pairKey pairEntry :=
  foldl (λ m p,
    if keep (p_Identity p)
    then <[key_of (p_Identity p) :=
             snapshotEntry (p_Approvals p) (current !! key_of (p_Identity p)) now]> m
    else m) ∅ l.

Definition Replace (now : time) (l : list Pair) (tag : string) (c : Cache) : Cache :=
  let '(c, ok) := acceptVersionLocked tag c in
  if negb ok then c
  else set_sync (set_pairs c (replacement Valid (pairs c) now l)) tag now.

Definition of_principal (principal : string) (i : Identity) : bool :=
  Valid i && bool_decide (id_Principal i = principal).

Definition ReplaceForPrincipal (now : time) (principal : string) (l : list Pair) (tag : string)
    (c : Cache) : Cache * bool :=
  if decide (principal = "") then (c, true)
  else
    let '(c, ok) := acceptVersionLocked tag c in
    if negb ok then (c, false)
    else
      let rep := replacement (of_principal principal) (pairs c) now l in
      let others := filter (λ ke, ke.1.1 ≠ principal) (pairs c) in
      (set_pairs c (rep ∪ others), true).

(** *** Matching *)

Definition matchable (sessionID : string) (r : CRecord) : bool :=
  if bool_decide (r_ID r = "") || bool_decide (r_ToolPattern r = "") ||
     negb (bool_decide (r_Status r = "approved")) || r_Consumed r || r_reserved r ||
     bool_decide (r_ApprovedAt r = None) || bool_decide (r_Persistence r = None)
  then false
  else
    match r_Persistence r with
    | Some p =>
        if decide (p = "permanent" ∨ p = "once") then true
        else if decide (p = "session") then bool_decide (r_AgentSessionID r = Some sessionID)
        else false
    | None => false
    end.

(** The test of the denial loop. *)
Definition denies (tool : string) (r : CRecord) : bool :=
  negb (bool_decide (r_ID r = "")) && bool_decide (r_Status r = "denied") &&
  bool_decide (r_Persistence r = Some "permanent") && bool_decide (r_ToolName r = tool).

(** [matchable] has checked that the approval time is present. *)
Definition candidate_of (r : CRecord) : candidate :=
  {| cand_id := r_ID r; cand_toolPattern := r_ToolPattern r;
     cand_paramsPattern := default ∅ (r_ParamsPattern r);
     cand_decidedAt := default zero_time (r_ApprovedAt r) |}.

(** The loop collecting candidates with their indices. *)
Fixpoint collect (sessionID : string) (i : nat) (l : list CRecord) : list (candidate * nat) :=
  match l with
  | [] => []
  | r :: l =>
      if matchable sessionID r then (candidate_of r, i) :: collect sessionID (S i) l
      else collect sessionID (S i) l
  end.

Section matching.
Context `{GoFloat}.

Definition reserve (r : CRecord) : CRecord :=
  if decide (r_Persistence r = Some "once") then set_flags r (r_Consumed r) true else r.

(** The part of [Match] on the records of a fresh entry. *)
Definition match_records (sessionID tool : string) (args : arguments) (l : list CRecord)
    : list CRecord * option CRecord :=
  match list_find (λ r, denies tool r = true) l with
  | Some (_, r) => (l, Some r)
  | None =>
      let found := collect sessionID 0 l in
      match selectBest found.*1 tool args with
      | None => (l, None)
      | Some best =>
          match found.*2 !! best with
          | None => (l, None)
          | Some i => (alter reserve i l, reserve <$> l !! i)
          end
      end
  end.

Definition Match (now : time) (identity : Identity) (sessionID tool : string) (args : arguments)
    (c : Cache) : Cache * option CRecord :=
  if negb (Valid identity) then (c, None)
  else
    let key := key_of identity in
    let c := evictIdleLocked now c in
    match pairs c !! key with
    | None => (c, None)
    | Some entry =>
        if negb (freshLocked c entry now)
        then (set_pairs c (<[key := set_lastSeen entry now]> (pairs c)), None)
        else
          let entry := set_lastSeen entry now in
          let '(l, r) := match_records sessionID tool args (records entry) in
          (set_pairs c (<[key := set_records entry l]> (pairs c)), r)
    end.

End matching.

(** The loop of [setReservation]: the first record with the id. *)
Fixpoint update_reservation (approvalID : string) (consumed : bool) (l : list CRecord) : list CRecord :=
  match l with
  | [] => []
  | r :: l =>
      if decide (r_ID r = approvalID)
      then set_flags r (if consumed then true else r_Consumed r) false :: l
      else r :: update_reservation approvalID consumed l
  end.

Definition setReservation (identity : Identity) (approvalID : string) (consumed : bool) (c : Cache)
    : Cache :=
  if negb (Valid identity) || bool_decide (approvalID = "") then c
  else
    match pairs c !! key_of identity with
    | None => c
    | Some entry =>
        set_pairs c (<[key_of identity :=
          set_records entry (update_reservation approvalID consumed (records entry))]> (pairs c))
    end.

Definition ConfirmConsumed (identity : Identity) (approvalID : string) : Cache → Cache :=
  setReservation identity approvalID true.

Definition Release (identity : Identity) (approvalID : string) : Cache → Cache :=
  setReservation identity approvalID false.
