(* ===== verification/ApprovalCacheFacts.v ===== *)
(** * What the approval cache guarantees

    The decision [Match] takes on every branch, the single use of a once-record
    while it is reserved, the version order of snapshots, and what a snapshot
    leaves behind. *)

From S2P Require Import Prelude ToolPattern Precedence ApprovalCache.

(** ** Eviction only removes *)

(** What eviction may do to an entry. *)
Definition shrinks (e0 e : pairEntry) : Prop :=
  lastSeen e = lastSeen e0 ∧ syncedAt e = syncedAt e0 ∧ ∀ r, r ∈ records e → r ∈ records e0.

Lemma shrinks_refl e : shrinks e e.
Proof. done. Qed.

Lemma shrinks_trans e1 e2 e3 : shrinks e1 e2 → shrinks e2 e3 → shrinks e1 e3.
Proof. intros (? & ? & ?) (? & ? & ?). split_and!; [congruence | congruence | eauto]. Qed.

Lemma evict_session_lookup now c s k e :
  pairs (evict_session now c s) !! k = Some e → ∃ e0, pairs c !! k = Some e0 ∧ shrinks e0 e.
Proof.
  unfold evict_session. case_bool_decide; [eauto using shrinks_refl |].
  cbn [pairs set_pairs]. rewrite lookup_fmap_Some. intros (e0 & <- & He0). exists e0. split; [done |].
  split_and!; [done | done |]. intros r [_ ?]%list_elem_of_filter. done.
Qed.

Lemma evict_loop_lookup now l c k e :
  pairs (foldl (evict_session now) c l) !! k = Some e →
  ∃ e0, pairs c !! k = Some e0 ∧ shrinks e0 e.
Proof.
  revert c. induction l as [| s l IH]; intros c; simpl; [eauto using shrinks_refl |].
  intros (e1 & He1 & Hs1)%IH. apply evict_session_lookup in He1 as (e0 & He0 & Hs0).
  eauto using shrinks_trans.
Qed.

Lemma evict_lookup now c k e :
  pairs (evictIdleLocked now c) !! k = Some e → ∃ e0, pairs c !! k = Some e0 ∧ shrinks e0 e.
Proof.
  unfold evictIdleLocked, evict_pairs. cbn [pairs set_pairs].
  rewrite map_lookup_filter_Some. intros [He _]. by eapply evict_loop_lookup.
Qed.

(** Everything but pairs and sessions is left alone. *)
Definition meta (c : Cache) := (etag c, c_version c, lastSync c, createdAt c, idleTTL c, maxStaleness c).

Lemma evict_meta now c : meta (evictIdleLocked now c) = meta c.
Proof.
  unfold evictIdleLocked, evict_pairs.
  generalize (map_to_list (sessions c)). intros l. revert c.
  induction l as [| s l IH]; intros c; [done |]. simpl.
  specialize (IH (evict_session now c s)). unfold meta in *. simpl in *. rewrite IH.
  unfold evict_session. by case_bool_decide.
Qed.

(** ** Candidates *)

Lemma collect_lookup sid k l j cand i :
  collect sid k l !! j = Some (cand, i) →
  ∃ n r, i = k + n ∧ l !! n = Some r ∧ matchable sid r = true ∧ cand = candidate_of r.
Proof.
  revert k j. induction l as [| r l IH]; intros k j; simpl; [done |].
  destruct (matchable sid r) eqn:Hm.
  - destruct j as [| j]; simpl.
    + intros [= <- <-]. exists 0, r. split_and!; [lia | done | done | done].
    + intros (n & r' & -> & ? & ? & ?)%IH. exists (S n), r'. split_and!; [lia | done | done | done].
  - intros (n & r' & -> & ? & ? & ?)%IH. exists (S n), r'. split_and!; [lia | done | done | done].
Qed.

Lemma collect_complete sid k l r :
  r ∈ l → matchable sid r = true → candidate_of r ∈ (collect sid k l).*1.
Proof.
  intros Hr Hm. revert k Hr. induction l as [| r' l IH]; intros k; [by intros ?%not_elem_of_nil |].
  rewrite elem_of_cons. intros [<- | Hr]; simpl.
  - rewrite Hm. simpl. constructor.
  - destruct (matchable sid r'); simpl; [constructor |]; by apply IH.
Qed.

(** ** The decision on one entry *)

Section decision.
Context `{GoFloat}.

(** The record's pattern covers the call. *)
Definition record_covers (tool : string) (args : arguments) (r : CRecord) : bool :=
  Matches (r_ToolPattern r) (default ∅ (r_ParamsPattern r)) tool args.

(** The record is a usable approval of the call. *)
Definition usable (sid tool : string) (args : arguments) (r : CRecord) : Prop :=
  matchable sid r = true ∧ record_covers tool args r = true.

(** What [match_records] returns, by cases. *)
Definition decision_spec (sid tool : string) (args : arguments) (l : list CRecord)
    (res : option CRecord) : Prop :=
  match res with
  | None => ∀ r, r ∈ l → denies tool r = false ∧ ¬ usable sid tool args r
  | Some r => ∃ r0, r0 ∈ l ∧
      ((denies tool r0 = true ∧ r = r0) ∨
       ((∀ r1, r1 ∈ l → denies tool r1 = false) ∧ usable sid tool args r0 ∧ r = reserve r0 ∧
        ∀ r1, r1 ∈ l → usable sid tool args r1 → better (candidate_of r1) (candidate_of r0) = false))
  end.

(** The index and record [match_records] acts on. *)
Lemma match_records_cases sid tool args l :
  let r := match_records sid tool args l in
  decision_spec sid tool args l r.2 ∧
  (r.1 = l ∧ (∀ x, r.2 = Some x → denies tool x = true) ∨
   ∃ i r0, l !! i = Some r0 ∧ matchable sid r0 = true ∧
     r.1 = alter reserve i l ∧ r.2 = Some (reserve r0)).
Proof.
  unfold match_records. destruct (list_find _ l) as [[i r] |] eqn:Hf; simpl.
  { apply list_find_Some in Hf as (Hi & Hd & _). split.
    - exists r. split; [by eapply list_elem_of_lookup_2 | by left].
    - left. split; [done |]. by intros x [= <-]. }
  rewrite list_find_None, Forall_forall in Hf.
  assert (∀ r1, r1 ∈ l → denies tool r1 = false) as Hden
    by (intros r1 Hr1; by apply not_true_is_false, Hf).
  destruct (selected_best tool args (collect sid 0 l).*1) as [Hb Hn].
  unfold selected in Hb, Hn.
  destruct (selectBest _ tool args) as [best |]; simpl in *.
  - rewrite list_lookup_fmap in Hb, Hn. rewrite list_lookup_fmap.
    destruct (collect sid 0 l !! best) as [[cand i] |] eqn:Hc; simpl in *;
      [| discriminate (proj2 Hn eq_refl)].
    apply collect_lookup in Hc as (n & r0 & -> & Hr0 & Hm & ->). simpl in *.
    rewrite Hr0. simpl. destruct Hb as (_ & Hcov & HF). rewrite Forall_forall in HF. split.
    + exists r0. split; [by eapply list_elem_of_lookup_2 | right]. split_and!; [done | done | done |].
      intros r1 Hr1 [Hm1 Hc1]. apply HF; [| done]. by apply collect_complete.
    + right. exists n, r0. done.
  - split; [| by left]. intros r Hr. split; [by apply Hden |]. intros [Hm Hc].
    rewrite Forall_forall in Hb. assert (candidate_of r ∈ (collect sid 0 l).*1) as Hin
      by (by apply collect_complete).
    specialize (Hb _ Hin). unfold cand_matches in Hb. simpl in Hb. unfold record_covers in Hc. congruence.
Qed.

End decision.

Lemma Match_decision `{GoFloat} (now : time) (i : Identity) (sid tool : string) (args : arguments) (c : Cache) :
  match (Match now i sid tool args c).2 with
  | None =>
      Valid i = true → ∀ e, pairs (evictIdleLocked now c) !! key_of i = Some e →
      freshLocked c e now = true → decision_spec sid tool args (records e) None
  | Some r =>
      Valid i = true ∧ ∃ e, pairs (evictIdleLocked now c) !! key_of i = Some e ∧
      freshLocked c e now = true ∧ decision_spec sid tool args (records e) (Some r)
  end.
Proof.
  unfold Match. destruct (Valid i); [| done]. cbn [negb].
  assert (∀ e, freshLocked (evictIdleLocked now c) e now = freshLocked c e now) as Hfr.
  { intros e. pose proof (f_equal (λ m, m.1.1.1.2) (evict_meta now c)) as Hl.
    pose proof (f_equal snd (evict_meta now c)) as Hs. cbn [meta fst snd] in Hl, Hs.
    unfold freshLocked. by rewrite Hl, Hs. }
  destruct (pairs (evictIdleLocked now c) !! key_of i) as [e |]; [| by intros].
  rewrite Hfr. destruct (freshLocked c e now) eqn:Hf; cbn [negb snd];
    [| intros _ e' [= <-]; by rewrite Hf].
  destruct (match_records_cases sid tool args (records e)) as [Hd _].
  cbn [records set_lastSeen]. destruct (match_records _ _ _ _) as [l [r |]]; cbn [snd] in *;
    [by eauto | by intros _ e' [= <-]].
Qed.

(** What [Match] decides, on every branch.  It answers only for a
    valid identity whose entry survived eviction and is fresh.  A permanent
    denial of the tool always wins; otherwise the answer is an approved,
    unconsumed, unreserved record of the call's session (or unbound) whose
    pattern covers the call and than which no usable record is more specific;
    and no answer means that no such record exists. *)
Theorem Match_spec `{GoFloat} (now : time) (i : Identity) (sid tool : string) (args : arguments) (c : Cache) :
  match (Match now i sid tool args c).2 with
  | None =>
      Valid i = true → ∀ e, pairs (evictIdleLocked now c) !! key_of i = Some e →
      freshLocked c e now = true → decision_spec sid tool args (records e) None
  | Some r =>
      Valid i = true ∧ ∃ e, pairs (evictIdleLocked now c) !! key_of i = Some e ∧
      freshLocked c e now = true ∧ decision_spec sid tool args (records e) (Some r)
  end.
Proof. apply Match_decision. Qed.

(** ** Snapshots *)

Lemma replacement_lookup keep cur now l k e :
  replacement keep cur now l !! k = Some e →
  ∃ p, p ∈ l ∧ keep (p_Identity p) = true ∧ key_of (p_Identity p) = k ∧
    e = snapshotEntry (p_Approvals p) (cur !! k) now.
Proof.
  unfold replacement. revert e.
  assert (∀ e, (∅ : gmap (string * string) pairEntry) !! k = Some e →
    ∃ p, p ∈ l ∧ keep (p_Identity p) = true ∧ key_of (p_Identity p) = k ∧
      e = snapshotEntry (p_Approvals p) (cur !! k) now) as H0 by done.
  revert H0. generalize (∅ : gmap (string * string) pairEntry).
  assert (∀ p, p ∈ l → p ∈ l) as Hsub by done. revert Hsub. generalize l at 1 4. intros l'.
  induction l' as [| p l' IH]; intros Hsub m Hm; simpl; [done |].
  apply IH; [set_solver |]. intros e. destruct (keep (p_Identity p)) eqn:Hk; [| apply Hm].
  rewrite lookup_insert_Some. intros [[<- <-] | [_ He]]; [| by apply Hm].
  exists p. split_and!; [set_solver | done | done | done].
Qed.

(** A pair listed once is installed. *)
Lemma replacement_unique keep cur now l p :
  p ∈ l → keep (p_Identity p) = true →
  (∀ q, q ∈ l → keep (p_Identity q) = true → key_of (p_Identity q) = key_of (p_Identity p) → q = p) →
  replacement keep cur now l !! key_of (p_Identity p) =
    Some (snapshotEntry (p_Approvals p) (cur !! key_of (p_Identity p)) now).
Proof.
  intros Hp Hk Hu. unfold replacement. generalize (∅ : gmap (string * string) pairEntry).
  induction l as [| q l IH] using rev_ind; [by apply not_elem_of_nil in Hp |].
  intros m. rewrite foldl_app. simpl.
  destruct (decide (q = p)) as [-> | Hqp].
  { rewrite Hk. by rewrite lookup_insert_eq. }
  apply elem_of_app in Hp as [Hp | Hp]; [| set_solver].
  assert (foldl (λ (m0 : gmap (string * string) pairEntry) p0,
    if keep (p_Identity p0)
    then <[key_of (p_Identity p0) :=
             snapshotEntry (p_Approvals p0) (cur !! key_of (p_Identity p0)) now]> m0
    else m0) m l !! key_of (p_Identity p) =
    Some (snapshotEntry (p_Approvals p) (cur !! key_of (p_Identity p)) now)) as IH'.
  { apply IH; [done |]. intros q' ? ? ?. apply Hu; [set_solver | done | done]. }
  destruct (keep (p_Identity q)) eqn:Hkq; [| done].
  rewrite lookup_insert_ne; [done |]. intros Hkey. apply Hqp, Hu; [set_solver | done | done].
Qed.

(** Everything of a record but the two local flags. *)
Definition content (r : CRecord) := set_flags r false false.

Lemma content_inj_fields r r0 :
  content r = content r0 →
  r_ID r = r_ID r0 ∧ r_ToolName r = r_ToolName r0 ∧ r_ToolPattern r = r_ToolPattern r0 ∧
  r_ParamsPattern r = r_ParamsPattern r0 ∧ r_Status r = r_Status r0 ∧
  r_Persistence r = r_Persistence r0 ∧ r_AgentSessionID r = r_AgentSessionID r0 ∧
  r_ApprovedAt r = r_ApprovedAt r0.
Proof. unfold content, set_flags. intros [=]. done. Qed.

Lemma carry_flags_content r previous : content (carry_flags r previous) = content r.
Proof. induction previous as [| old l IH]; simpl; [done |]. by destruct (_ || _). Qed.

Lemma carry_flags_consumed r previous : r_Consumed r = true → r_Consumed (carry_flags r previous) = true.
Proof.
  intros Hr. induction previous as [| old l IH]; simpl; [done |].
  destruct (_ || negb _); [done |]. simpl. by rewrite Hr.
Qed.

(** Used up: consumed, or reserved by a call in flight. *)
Definition used (r : CRecord) : bool := r_reserved r || r_Consumed r.

Lemma used_not_matchable sid r : used r = true → matchable sid r = false.
Proof.
  unfold used, matchable. rewrite orb_true_iff.
  intros [-> | ->]; rewrite ?orb_true_r; simpl; rewrite ?orb_true_r; done.
Qed.

Lemma carry_flags_used r previous :
  r_ID r ≠ "" → (∃ old, old ∈ previous ∧ r_ID old = r_ID r) →
  (∀ old, old ∈ previous → r_ID old = r_ID r → used old = true) →
  used (carry_flags r previous) = true.
Proof.
  intros Hne. induction previous as [| old l IH]; intros (o & Ho & Hid) Hu; simpl.
  { by apply not_elem_of_nil in Ho. }
  rewrite (bool_decide_eq_false_2 (r_ID r = "")) by done. simpl. case_bool_decide as Heq; simpl.
  - specialize (Hu old (list_elem_of_here _ _) Heq). unfold used in *. simpl.
    destruct (r_Consumed r), (r_Consumed old), (r_reserved old); done.
  - apply IH; [| intros; apply Hu; [by constructor | done]].
    exists o. split; [| done]. apply elem_of_cons in Ho as [-> | Ho]; done.
Qed.

(** ** Single use *)

(** All records of the pair with this id are used up. *)
Definition all_used (k : string * string) (id : string) (c : Cache) : Prop :=
  ∀ e r, pairs c !! k = Some e → r ∈ records e → r_ID r = id → used r = true.

(** The pair still holds a record with this id. *)
Definition holds_id (k : string * string) (id : string) (c : Cache) : Prop :=
  ∃ e r, pairs c !! k = Some e ∧ r ∈ records e ∧ r_ID r = id.

Lemma all_used_shrinks k id c c' :
  (∀ e, pairs c' !! k = Some e → ∃ e0, pairs c !! k = Some e0 ∧ shrinks e0 e) →
  all_used k id c → all_used k id c'.
Proof. intros Hs Hu e r He Hr Hid. destruct (Hs e He) as (e0 & He0 & _ & _ & Hin). eauto. Qed.

Lemma all_used_evict now k id c : all_used k id c → all_used k id (evictIdleLocked now c).
Proof. apply all_used_shrinks. intros e. apply evict_lookup. Qed.

Lemma all_used_replacement keep now k id c c' l :
  id ≠ "" → holds_id k id c → all_used k id c →
  (∀ e, pairs c' !! k = Some e →
    pairs c !! k = Some e ∨ replacement keep (pairs c) now l !! k = Some e) →
  all_used k id c'.
Proof.
  intros Hne (e0 & r0 & He0 & Hr0 & Hid0) Hu Hc' e r He Hr Hid.
  destruct (Hc' e He) as [He' | (p & _ & _ & _ & ->)%replacement_lookup]; [by eapply Hu |].
  rewrite He0 in Hr. simpl in Hr. unfold snapshotRecords in Hr.
  apply list_elem_of_fmap in Hr as (r1 & -> & _).
  pose proof (content_inj_fields _ _ (carry_flags_content r1 (records e0))) as [Hid1 _].
  apply carry_flags_used; [congruence | exists r0; split; [done | congruence] |].
  intros old Hold Hold2. eapply Hu; [exact He0 | done | congruence].
Qed.

Lemma update_reservation_elem id consumed l r :
  r ∈ update_reservation id consumed l → r ∈ l ∨
    (∃ r0, r0 ∈ l ∧ r_ID r0 = id ∧ r = set_flags r0 (if consumed then true else r_Consumed r0) false).
Proof.
  induction l as [| r0 l IH]; simpl; [by intros ?%not_elem_of_nil |].
  destruct (decide (r_ID r0 = id)); rewrite !elem_of_cons.
  - intros [-> | ?]; [right; exists r0; set_solver | by auto].
  - intros [-> | [? | (r1 & ? & ? & ->)]%IH]; [auto | auto |]. right. exists r1. set_solver.
Qed.

(** The calls the gate, the syncer and the metrics make on the cache. *)
Inductive cache_op `{GoFloat} :=
  | OpRecordSession (now : time) (sid : string)
  | OpMarkSynced (now : time)
  | OpReplace (now : time) (l : list Pair) (tag : string)
  | OpReplaceForPrincipal (now : time) (p : string) (l : list Pair) (tag : string)
  | OpMatch (now : time) (i : Identity) (sid tool : string) (args : arguments)
  | OpConfirmConsumed (i : Identity) (id : string)
  | OpRelease (i : Identity) (id : string)
  | OpEvictIdle (now : time).

Section single_use.
Context `{GoFloat}.

(** The effect of one call; [Match] also answers. *)
Definition apply_op (op : cache_op) (c : Cache) : Cache * option (Identity * CRecord) :=
  match op with
  | OpRecordSession now sid => (RecordSession now sid c, None)
  | OpMarkSynced now => (MarkSynced now c, None)
  | OpReplace now l tag => (Replace now l tag c, None)
  | OpReplaceForPrincipal now p l tag => ((ReplaceForPrincipal now p l tag c).1, None)
  | OpMatch now i sid tool args =>
      let r := Match now i sid tool args c in (r.1, (i,.) <$> r.2)
  | OpConfirmConsumed i id => (ConfirmConsumed i id c, None)
  | OpRelease i id => (Release i id c, None)
  | OpEvictIdle now => (EvictIdle now c, None)
  end.

Lemma accept_pairs tag c : pairs (acceptVersionLocked tag c).1 = pairs c.
Proof. unfold acceptVersionLocked. by repeat split_match. Qed.

Lemma Replace_lookup now l tag c k e :
  pairs (Replace now l tag c) !! k = Some e →
  pairs c !! k = Some e ∨ replacement Valid (pairs c) now l !! k = Some e.
Proof.
  unfold Replace. pose proof (accept_pairs tag c) as Hp.
  destruct (acceptVersionLocked tag c) as [c1 []]; simpl in *; rewrite Hp; auto.
Qed.

Lemma ReplaceForPrincipal_lookup now p l tag c k e :
  pairs (ReplaceForPrincipal now p l tag c).1 !! k = Some e →
  pairs c !! k = Some e ∨ replacement (of_principal p) (pairs c) now l !! k = Some e.
Proof.
  unfold ReplaceForPrincipal. destruct (decide (p = "")); [by left |].
  pose proof (accept_pairs tag c) as Hp.
  destruct (acceptVersionLocked tag c) as [c1 []]; cbn [negb fst pairs set_pairs] in *; rewrite Hp; [| auto].
  rewrite lookup_union_Some_raw, map_lookup_filter_Some. naive_solver.
Qed.

Lemma reserve_used r : used r = true → used (reserve r) = true.
Proof. unfold reserve, used. destruct (decide _); simpl; [done | done]. Qed.

Lemma reserve_content r : content (reserve r) = content r.
Proof. unfold reserve. by destruct (decide _). Qed.

(** How [Match] changes the entries. *)
Lemma Match_lookup now i sid tool args c k e :
  pairs (Match now i sid tool args c).1 !! k = Some e →
  ∃ e0, pairs c !! k = Some e0 ∧
    ∀ r, r ∈ records e → ∃ r0, r0 ∈ records e0 ∧ (r = r0 ∨ r = reserve r0).
Proof.
  assert (∀ e, pairs (evictIdleLocked now c) !! k = Some e → ∃ e0, pairs c !! k = Some e0 ∧
    ∀ r, r ∈ records e → ∃ r0, r0 ∈ records e0 ∧ (r = r0 ∨ r = reserve r0)) as Hev.
  { intros e' (e0 & ? & _ & _ & Hin)%evict_lookup. exists e0. split; [done |].
    intros r Hr. exists r. auto. }
  unfold Match. destruct (Valid i); cbn [negb fst]; 
    [| intros He; exists e; split; [done |]; intros r Hr; exists r; auto].
  destruct (pairs (evictIdleLocked now c) !! key_of i) as [e1 |] eqn:He1; cbn [fst]; [| apply Hev].
  destruct (freshLocked _ _ _); cbn [negb fst set_lastSeen records].
  - destruct (match_records_cases sid tool args (records e1)) as [_ Hcases].
    destruct (match_records _ _ _ _) as [l r]; cbn [fst snd pairs set_pairs] in *.
    rewrite lookup_insert_Some. intros [[<- <-] | [_ He]]; [| by apply Hev].
    destruct (Hev _ He1) as (e0 & He0 & Hin). exists e0. split; [done |]. cbn [records set_records].
    intros r' Hr'. destruct Hcases as [[-> _] | (n & r0 & Hn & Hm & -> & _)]; [by apply Hin |].
    apply list_elem_of_lookup in Hr' as [j Hj]. rewrite list_lookup_alter in Hj.
    destruct (decide (n = j)) as [<- | Hnj].
    + rewrite Hn in Hj. simpl in Hj. injection Hj as <-.
      apply evict_lookup in He1 as (e0' & He0' & _ & _ & Hsub). simplify_eq.
      exists r0. split; [| by right]. apply Hsub. by eapply list_elem_of_lookup_2.
    + apply Hin. by eapply list_elem_of_lookup_2.
  - cbn [pairs set_pairs]. rewrite lookup_insert_Some. intros [[<- <-] | [_ He]]; [| by apply Hev].
    apply (Hev _ He1).
Qed.

Lemma Match_all_used now i sid tool args k id c :
  all_used k id c → all_used k id (Match now i sid tool args c).1.
Proof.
  intros Hu e r He Hr Hid. apply Match_lookup in He as (e0 & He0 & Hin).
  destruct (Hin r Hr) as (r0 & Hr0 & [-> | ->]); [by eapply Hu |].
  apply reserve_used. eapply Hu; [done | done |].
  pose proof (content_inj_fields _ _ (reserve_content r0)) as [? _]. congruence.
Qed.

(** An op other than the release of this very reservation. *)
Definition no_release (k : string * string) (id : string) (op : cache_op) : Prop :=
  match op with OpRelease i id' => key_of i = k → id' ≠ id | _ => True end.

Lemma setReservation_all_used i id' consumed k id c :
  (consumed = false → key_of i = k → id' ≠ id) →
  all_used k id c → all_used k id (setReservation i id' consumed c).
Proof.
  intros Hop Hu. unfold setReservation. destruct (_ || _); [done |].
  destruct (pairs c !! key_of i) as [e |] eqn:He; [| done].
  intros e' r. cbn [pairs set_pairs]. rewrite lookup_insert_Some.
  intros [[<- <-] | [_ He']] Hr Hid; [| by eapply Hu]. cbn [records set_records] in Hr.
  apply update_reservation_elem in Hr as [Hr | (r0 & Hr0 & <- & ->)]; [by eapply Hu |].
  destruct consumed; [done |]. simpl in Hid. by destruct Hop.
Qed.

Lemma apply_op_all_used op k id c :
  id ≠ "" → holds_id k id c → all_used k id c → no_release k id op →
  all_used k id (apply_op op c).1.
Proof.
  intros Hne Hh Hu Hop.
  destruct op as [now sid | now | now l tag | now p l tag | now i sid tool args | i id' | i id' | now];
    cbn [apply_op fst].
  - unfold RecordSession. destruct (decide _); [done |]. by apply (all_used_evict now).
  - unfold MarkSynced. repeat split_match; exact Hu.
  - eapply all_used_replacement; [done | exact Hh | exact Hu |]. intros e. apply Replace_lookup.
  - eapply all_used_replacement; [done | exact Hh | exact Hu |]. intros e. apply ReplaceForPrincipal_lookup.
  - by apply Match_all_used.
  - by apply setReservation_all_used.
  - apply setReservation_all_used; [| done]. intros _. apply Hop.
  - by apply all_used_evict.
Qed.

(** A used-up record is never an answer, unless as a denial. *)
Lemma apply_op_not_used op k id c i r :
  all_used k id c → (apply_op op c).2 = Some (i, r) → key_of i = k → r_Status r = "approved" →
  r_ID r ≠ id.
Proof.
  intros Hu Hop Hk Hst Hid. destruct op as [| | | | now i0 sid tool args | | |]; try done.
  cbn [apply_op snd] in Hop. pose proof (Match_decision now i0 sid tool args c) as Hs.
  destruct (Match _ _ _ _ _ _) as [c' [r' |]]; cbn [snd fmap option_fmap option_map] in *; [| done].
  injection Hop as -> ->. destruct Hs as (_ & e & He & _ & r0 & Hr0 & Hcase).
  apply evict_lookup in He as (e0 & He0 & _ & _ & Hsub). rewrite Hk in He0.
  destruct Hcase as [[Hd ->] | (_ & [Hm _] & -> & _)].
  - unfold denies in Hd. rewrite Hst in Hd. breflect. done.
  - rewrite (used_not_matchable sid r0) in Hm; [done |]. eapply Hu; [exact He0 | by apply Hsub |].
    pose proof (content_inj_fields _ _ (reserve_content r0)) as [? _]. congruence.
Qed.

(** The answers of a sequence of calls. *)
Fixpoint run_ops (ops : list cache_op) (c : Cache) : list (Identity * CRecord) :=
  match ops with
  | [] => []
  | op :: ops =>
      let r := apply_op op c in
      match r.2 with Some x => x :: run_ops ops r.1 | None => run_ops ops r.1 end
  end.

(** The record stays in the pair before each of the calls. *)
Fixpoint holds_along (k : string * string) (id : string) (ops : list cache_op) (c : Cache) : Prop :=
  match ops with
  | [] => True
  | op :: ops => holds_id k id c ∧ holds_along k id ops (apply_op op c).1
  end.

Lemma run_ops_not_used ops k id c :
  id ≠ "" → all_used k id c → holds_along k id ops c → Forall (no_release k id) ops →
  Forall (λ a : Identity * CRecord, key_of a.1 = k → r_Status a.2 = "approved" → r_ID a.2 ≠ id)
    (run_ops ops c).
Proof.
  intros Hne. revert c. induction ops as [| op ops IH]; intros c Hu Hh HF; simpl; [done |].
  destruct Hh as [Hh Hhs]. apply Forall_cons in HF as [Hop HF].
  assert (all_used k id (apply_op op c).1) as Hu' by (by apply apply_op_all_used).
  destruct (apply_op op c).2 as [[i r] |] eqn:Hr; [| by apply IH].
  constructor; [| by apply IH]. intros Hk Hst. simpl in *; eapply apply_op_not_used; [exact Hu | exact Hr | exact Hk | exact Hst].
Qed.

(** Handing out a once-record uses it up. *)
Lemma Match_uses now i sid tool args c r :
  (∀ e, pairs (evictIdleLocked now c) !! key_of i = Some e → NoDup (map r_ID (records e))) →
  (Match now i sid tool args c).2 = Some r →
  r_Status r = "approved" → r_Persistence r = Some "once" →
  r_ID r ≠ "" ∧ all_used (key_of i) (r_ID r) (Match now i sid tool args c).1.
Proof.
  intros Hnd Hm Hst Hp. unfold Match in *. destruct (Valid i); cbn [negb fst snd] in *; [| done].
  destruct (pairs (evictIdleLocked now c) !! key_of i) as [e1 |]; [| done].
  destruct (freshLocked _ _ _); cbn [negb fst snd set_lastSeen records] in *; [| done].
  destruct (match_records_cases sid tool args (records e1)) as [_ Hcases].
  destruct (match_records _ _ _ _) as [l r']. cbn [fst snd] in *. subst r'.
  destruct Hcases as [[_ Hd] | (n & r0 & Hn & Hmat & -> & [= ->])].
  { specialize (Hd r eq_refl). unfold denies in Hd. rewrite Hst in Hd. breflect. done. }
  pose proof (content_inj_fields _ _ (reserve_content r0)) as (Hid & _ & _ & _ & _ & Hpers & _).
  rewrite Hpers in Hp. split.
  { rewrite Hid. intros Hbad. unfold matchable in Hmat.
    rewrite (bool_decide_eq_true_2 _ Hbad) in Hmat. done. }
  intros e r. cbn [pairs set_pairs]. rewrite lookup_insert_eq. intros [= <-]. cbn [records set_records].
  intros [j Hj]%list_elem_of_lookup Hr. rewrite list_lookup_alter in Hj.
  destruct (decide (n = j)) as [<- | Hnj].
  - rewrite Hn in Hj. injection Hj as <-. unfold reserve. rewrite decide_True by done. done.
  - destruct Hnj. apply (NoDup_lookup (map r_ID (records e1)) n j (r_ID r0)); [by apply Hnd | |];
      rewrite list_lookup_fmap; [by rewrite Hn | rewrite Hj; simpl; congruence].
Qed.

End single_use.

(** Claim C10.  A once-approval is handed out at most once.  After [Match] has
    answered with a once-record, no later [Match] for the same principal and
    agent answers with it again, whatever sessions, snapshots, confirmations
    and evictions happen in between, until its reservation is released or the
    record leaves the cache. *)
Theorem once_handed_out_once `{GoFloat} (now : time) (i : Identity) (sid tool : string)
    (args : arguments) (c : Cache) (r : CRecord) (ops : list cache_op) :
  (∀ e, pairs (evictIdleLocked now c) !! key_of i = Some e → NoDup (map r_ID (records e))) →
  (Match now i sid tool args c).2 = Some r →
  r_Status r = "approved" → r_Persistence r = Some "once" →
  Forall (no_release (key_of i) (r_ID r)) ops →
  holds_along (key_of i) (r_ID r) ops (Match now i sid tool args c).1 →
  Forall (λ a : Identity * CRecord,
      key_of a.1 = key_of i → r_Status a.2 = "approved" → r_ID a.2 ≠ r_ID r)
    (run_ops ops (Match now i sid tool args c).1).
Proof.
  intros Hnd Hm Hst Hp HF Hh. destruct (Match_uses _ _ _ _ _ _ _ Hnd Hm Hst Hp) as [Hne Hu].
  by apply run_ops_not_used.
Qed.

(** ** The order of snapshots *)

Lemma accept_version tag c :
  (c_version c ≤ c_version (acceptVersionLocked tag c).1)%Z ∧
  ((acceptVersionLocked tag c).2 = false → (acceptVersionLocked tag c).1 = c).
Proof.
  unfold acceptVersionLocked. destruct (parseSyncVersion tag); [| done].
  case_bool_decide; simpl; [done |]. split; [lia | done].
Qed.

Lemma Match_meta `{GoFloat} now i sid tool args c : meta (Match now i sid tool args c).1 = meta c.
Proof.
  unfold Match. destruct (Valid i); cbn [negb fst]; [| done].
  destruct (_ !! _) as [e |]; [| apply evict_meta].
  destruct (freshLocked _ _ _); cbn [negb fst]; [destruct (match_records _ _ _ _) |];
    rewrite <-(evict_meta now c); done.
Qed.

Lemma setReservation_meta i id b c : meta (setReservation i id b c) = meta c.
Proof. unfold setReservation. by repeat split_match. Qed.

Lemma meta_version c c' : meta c' = meta c → c_version c' = c_version c.
Proof. unfold meta. intros Hm. by simplify_eq. Qed.

Lemma apply_op_version `{GoFloat} op c : (c_version c ≤ c_version (apply_op op c).1)%Z.
Proof.
  destruct op as [now sid | now | now l tag | now p l tag | now i sid tool args | i id | i id | now];
    cbn [apply_op fst].
  - unfold RecordSession. destruct (decide _); [done |].
    pose proof (meta_version _ _ (evict_meta now c)) as Hv. simpl. simpl in Hv. lia.
  - unfold MarkSynced. by repeat split_match.
  - unfold Replace. destruct (accept_version tag c) as [Hv _].
    by destruct (acceptVersionLocked tag c) as [c1 []].
  - unfold ReplaceForPrincipal. destruct (decide _); [done |]. destruct (accept_version tag c) as [Hv _].
    by destruct (acceptVersionLocked tag c) as [c1 []].
  - by rewrite (meta_version _ _ (Match_meta now i sid tool args c)).
  - unfold ConfirmConsumed. by rewrite (meta_version _ _ (setReservation_meta i id true c)).
  - unfold Release. by rewrite (meta_version _ _ (setReservation_meta i id false c)).
  - unfold EvictIdle. by rewrite (meta_version _ _ (evict_meta now c)).
Qed.

(** Snapshots are taken in version order.  No sequence of calls
    lowers the version the cache has accepted, and a snapshot tagged with an
    older version, full or for one principal, leaves the cache untouched. *)
Theorem snapshots_in_version_order `{GoFloat} (c : Cache) (ops : list cache_op) :
  let c' := foldl (λ c op, (apply_op op c).1) c ops in
  (c_version c ≤ c_version c')%Z ∧
  ∀ now l tag v p, parseSyncVersion tag = Some v → (v < c_version c)%Z →
    Replace now l tag c' = c' ∧ (p ≠ "" → ReplaceForPrincipal now p l tag c' = (c', false)).
Proof.
  assert (c_version c ≤ c_version (foldl (λ c op, (apply_op op c).1) c ops))%Z as Hle.
  { revert c. induction ops as [| op ops IH]; intros c; simpl; [done |].
    etrans; [apply apply_op_version | apply IH]. }
  split; [done |]. intros now l tag v p Hv Hlt.
  unfold Replace, ReplaceForPrincipal, acceptVersionLocked. rewrite Hv.
  rewrite bool_decide_eq_true_2 by lia. split; [done |]. intros Hp. by rewrite decide_False.
Qed.

(** What a pair of a snapshot contributes to the cache. *)
Definition from_snapshot (l : list Pair) (k : string * string) (r : CRecord) : Prop :=
  ∃ p r0, p ∈ l ∧ Valid (p_Identity p) = true ∧ key_of (p_Identity p) = k ∧ r0 ∈ p_Approvals p ∧
    content r = content r0 ∧ (r_Consumed r0 = true → r_Consumed r = true).

Lemma replacement_from_snapshot keep cur now l k e r :
  (∀ i, keep i = true → Valid i = true) →
  replacement keep cur now l !! k = Some e → r ∈ records e → from_snapshot l k r.
Proof.
  intros Hkeep (p & Hp & Hk & Hkey & ->)%replacement_lookup Hr. simpl in Hr.
  unfold snapshotRecords in Hr. apply list_elem_of_fmap in Hr as (r0 & -> & Hr0). exists p, r0.
  split_and!; [done | by apply Hkeep | done | done | apply carry_flags_content | apply carry_flags_consumed].
Qed.

(** An accepted full snapshot replaces the state.  Every record the
    cache holds afterwards is a record of the snapshot, so an approval the
    broker no longer lists (revoked, consumed, expired) is gone; every pair the
    snapshot lists once is installed with all its records; and only the
    consumed and reserved flags may differ from what the broker sent. *)
Theorem Replace_installs (now : time) (l : list Pair) (tag : string) (c : Cache) :
  (acceptVersionLocked tag c).2 = true →
  let c' := Replace now l tag c in
  (∀ k e r, pairs c' !! k = Some e → r ∈ records e → from_snapshot l k r) ∧
  (∀ p, p ∈ l → Valid (p_Identity p) = true →
    (∀ q, q ∈ l → key_of (p_Identity q) = key_of (p_Identity p) → q = p) →
    ∃ e, pairs c' !! key_of (p_Identity p) = Some e ∧
      map content (records e) = map content (p_Approvals p)) ∧
  etag c' = tag ∧ lastSync c' = now.
Proof.
  intros Hok. unfold Replace. pose proof (accept_pairs tag c) as Hp.
  destruct (acceptVersionLocked tag c) as [c1 ok]. simpl in Hok, Hp. subst ok. cbn [negb].
  rewrite Hp. split_and!; [| | done | done].
  - intros k e r. by apply replacement_from_snapshot.
  - intros p Hin Hval Hu. eexists. split.
    + apply replacement_unique; [done | done |]. intros q ? _. by apply Hu.
    + simpl. unfold snapshotRecords. rewrite map_map. apply map_ext. intros r. apply carry_flags_content.
Qed.

(** A snapshot for one principal touches nothing else.  Entries of
    every other principal, the sessions, the long-poll tag and the time of the
    last full sync stay as they are, while the principal's entries hold only
    records of the snapshot. *)
Theorem ReplaceForPrincipal_isolated (now : time) (principal : string) (l : list Pair) (tag : string)
    (c : Cache) :
  (acceptVersionLocked tag c).2 = true → principal ≠ "" →
  let '(c', ok) := ReplaceForPrincipal now principal l tag c in
  ok = true ∧
  (∀ k, k.1 ≠ principal → pairs c' !! k = pairs c !! k) ∧
  (∀ k e r, k.1 = principal → pairs c' !! k = Some e → r ∈ records e → from_snapshot l k r) ∧
  sessions c' = sessions c ∧ etag c' = etag c ∧ lastSync c' = lastSync c.
Proof.
  intros Hok Hne. unfold ReplaceForPrincipal. rewrite decide_False by done.
  pose proof (accept_pairs tag c) as Hp.
  assert (sessions (acceptVersionLocked tag c).1 = sessions c ∧
    etag (acceptVersionLocked tag c).1 = etag c ∧ lastSync (acceptVersionLocked tag c).1 = lastSync c)
    as (Hs & He & Hl) by (unfold acceptVersionLocked; by repeat split_match).
  destruct (acceptVersionLocked tag c) as [c1 ok]. simpl in *. subst ok. cbn [negb].
  split_and!; [done | | | done | done | done]; cbn [pairs set_pairs]; rewrite Hp.
  - intros k Hk. rewrite lookup_union_r.
    + destruct (pairs c !! k) as [e |] eqn:E.
      * by apply map_lookup_filter_Some.
      * apply map_lookup_filter_None. by left.
    + destruct (_ !! k) as [e |] eqn:E; [| done].
      apply replacement_lookup in E as (p & _ & Hkeep & <- & _).
      unfold of_principal in Hkeep. breflect. done.
  - intros k e r Hk. rewrite lookup_union_Some_raw, map_lookup_filter_Some.
    intros [E | (_ & _ & Hx)]; [| done]. eapply replacement_from_snapshot; [| exact E].
    intros i. unfold of_principal. intros ?. by breflect.
Qed.

(** ** Examples *)

Definition example_record (id : string) (persistence : string) : CRecord :=
  {| r_ID := id; r_ToolName := "deploy"; r_ToolPattern := "deploy"; r_ParamsPattern := Some ∅;
     r_Status := "approved"; r_Persistence := Some persistence; r_Consumed := false;
     r_AgentSessionID := None; r_ApprovedAt := Some 5%Z; r_reserved := false |}.

Definition alice : Identity := {| id_Principal := "alice"; id_AgentID := "agent" |}.
Definition bob : Identity := {| id_Principal := "bob"; id_AgentID := "agent" |}.

Definition example_snapshot : list Pair :=
  [ {| p_Identity := alice; p_Approvals := [example_record "o1" "once"] |};
    {| p_Identity := bob; p_Approvals := [example_record "b1" "permanent"] |} ].

Definition synced_cache : Cache := Replace 10 example_snapshot "v3" (NewCache 1 100 100).

(** C28 at a first snapshot. *)
Lemma Replace_installs_witness :
  etag synced_cache = "v3" ∧ ∃ e, pairs synced_cache !! key_of alice = Some e ∧
    map content (records e) = map content [example_record "o1" "once"].
Proof.
  destruct (Replace_installs 10 example_snapshot "v3" (NewCache 1 100 100)) as (_ & Hin & Htag & _);
    [reflexivity |].
  split; [exact Htag |].
  apply (Hin {| p_Identity := alice; p_Approvals := [example_record "o1" "once"] |});
    [constructor | reflexivity |].
  intros q Hq. unfold example_snapshot in Hq. rewrite !elem_of_cons, elem_of_nil in Hq.
  destruct Hq as [-> | [-> | []]]; done.
Defined.

(** C29 at a refresh for alice that finds her approval gone: bob keeps his. *)
Lemma ReplaceForPrincipal_isolated_witness :
  let c' := (ReplaceForPrincipal 20 "alice" [] "v4" synced_cache).1 in
  pairs c' !! key_of bob = pairs synced_cache !! key_of bob ∧ lastSync c' = 10%Z.
Proof.
  pose proof (ReplaceForPrincipal_isolated 20 "alice" [] "v4" synced_cache eq_refl ltac:(done)) as Hiso.
  destruct (ReplaceForPrincipal 20 "alice" [] "v4" synced_cache) as [c' ok].
  destruct Hiso as (_ & Hother & _ & _ & _ & Hlast). split; [by apply Hother | exact Hlast].
Defined.

(** C4 when the call is in flight, two syncs arrive and a second identical
    call asks. *)
Lemma once_handed_out_once_witness :
  let ops := [ OpReplace 12 example_snapshot "v3"; OpRecordSession 13 "s1";
               OpReplaceForPrincipal 14 "alice" example_snapshot "v4";
               OpMatch 15 alice "" "deploy" (Some ∅) ] in
  Forall (λ a : Identity * CRecord,
      key_of a.1 = key_of alice → r_Status a.2 = "approved" → r_ID a.2 ≠ "o1")
    (@run_ops IntFloat ops (@Match IntFloat 11 alice "" "deploy" (Some ∅) synced_cache).1).
Proof.
  pose proof (@once_handed_out_once IntFloat 11 alice "" "deploy" (Some ∅) synced_cache
    (reserve (example_record "o1" "once"))) as Hone.
  intros ops. apply (Hone ops).
  - intros e He. vm_compute in He. injection He as <-. apply (bool_decide_unpack _). vm_compute. exact I.
  - vm_compute. reflexivity.
  - reflexivity.
  - reflexivity.
  - repeat constructor.
  - repeat split; eexists _, _; (split; [vm_compute; reflexivity | split; [left | reflexivity]]).
Defined.

Example second_call_waits :
  @run_ops IntFloat [OpMatch 15 alice "" "deploy" (Some ∅)]
    (@Match IntFloat 11 alice "" "deploy" (Some ∅) synced_cache).1 = [].
Proof. vm_compute. reflexivity. Qed.
