(* ===== verification/ApprovalHandlers.v ===== *)
(** * The HTTP layer of the approval API

    internal/adapters/http/handlers/approval/: one definition per handler, from
    the decoded request to status code and body.  Authentication has put the
    acting principal into the request context before ([None]: absent); JSON
    decoding has produced the request fields ([None]: the body is not valid
    JSON).  Times in bodies are kept as times, not as formatted text.  The
    [service == nil] branches of the create and sync handlers are the argument
    [configured]. *)

From S2P Require Import Prelude ToolPattern ToolApproval ApprovalStore SyncBroadcaster ApprovalService.

(** github.com/google/uuid: canonical text of a valid id, and the zero id. *)
Class UUID := {
  uuid_Parse : string → option string;
  uuid_Nil : string;
}.

Definition StatusOK : Z := 200.
Definition StatusCreated : Z := 201.
Definition StatusNotModified : Z := 304.
Definition StatusBadRequest : Z := 400.
Definition StatusUnauthorized : Z := 401.
Definition StatusForbidden : Z := 403.
Definition StatusNotFound : Z := 404.
Definition StatusConflict : Z := 409.
Definition StatusGone : Z := 410.
Definition StatusUnprocessableEntity : Z := 422.
Definition StatusTooManyRequests : Z := 429.
Definition StatusInternalServerError : Z := 500.
Definition StatusNotImplemented : Z := 501.
Definition StatusServiceUnavailable : Z := 503.

Definition status_text (s : ApprovalStatus) : string :=
  match s with Pending => "pending" | Approved => "approved" | Denied => "denied" end.

Definition persistence_text (p : ApprovalPersistence) : string :=
  match p with
  | Once => "once" | Session => "session" | Permanent => "permanent"
  | OtherPersistence s => s
  end.

(** [storage.ApprovalPersistence(s)] *)
Definition persistence_of (s : string) : ApprovalPersistence :=
  if decide (s = "once") then Once
  else if decide (s = "session") then Session
  else if decide (s = "permanent") then Permanent
  else OtherPersistence s.

Record toolApprovalSummary := Summary {
  s_ID : string;
  s_ToolName : string;
  s_ArgumentsHash : string;
  s_ToolPattern : string;
  s_ParamsPattern : gmap string string;
  s_Status : string;
  s_Persistence : option string;
  s_Consumed : bool;
  s_AgentSessionID : option string;
  s_ApprovedAt : option time;
}.

Record syncResponsePair := SyncResponsePair {
  srp_Principal : string;
  srp_AgentID : string;
  srp_Approvals : list toolApprovalSummary;
}.

Section handlers.
Context `{GoHash} `{TokenBucket} `{UUID} `{!ApprovalStore St}.

Inductive body :=
  | BEmpty
  | BError (code : string)
  | BDetail (d : ApprovalDetail)
  | BDetails (l : list ApprovalDetail)
  | BPreview (p : ScopePreview)
  | BApproved (id status persistence : string) (approvedAt : time)
  | BDenied (id status : string) (persistence : option string) (deniedAt : time)
  | BConsumed (id : string) (consumed : bool) (consumedAt : option time)
  | BRevoked (id status : string) (deniedAt : option time) (persistence : option string)
  | BCreated (id status url : string) (createdAt : time)
  | BSync (tag : string) (l : list syncResponsePair).

Record response := Resp { resp_status : Z; resp_body : body }.

Definition writeError (status : Z) (code : string) : response := Resp status (BError code).

Definition mapDomainError (err : service_error) : response :=
  match err with
  | ErrApprovalNotFound => writeError StatusNotFound "not_found"
  | ErrApprovalForbidden => writeError StatusForbidden "forbidden"
  | ErrApprovalGone => writeError StatusGone "gone"
  | ErrApprovalNotPending => writeError StatusConflict "conflict"
  | _ => writeError StatusInternalServerError "internal_error"
  end.

Abbreviation server := (prog (world St) response).

Definition unauthorized : response := writeError StatusUnauthorized "unauthorized".
Definition bad_request : response := writeError StatusBadRequest "bad_request".

(** The two opening checks of the per-approval handlers. *)
Definition with_approval (principal : option string) (rawID : string)
    (k : Principal → ApprovalID → server) : server :=
  match principal with
  | None => Ret unauthorized
  | Some p =>
      if decide (p = "") then Ret unauthorized
      else match uuid_Parse rawID with
           | None => Ret bad_request
           | Some approvalID => k p approvalID
           end
  end.

(** get_handler.go *)
Definition GetHandler (cfg : service_config) (e : env) (principal : option string) (rawID : string)
    : server :=
  with_approval principal rawID (λ p approvalID,
    r ← GetApproval cfg e approvalID p;
    match r with
    | Err err => Ret (mapDomainError err)
    | Ok d => Ret (Resp StatusOK (BDetail d))
    end).

(** The raw [params_pattern] field: absent, JSON null, an object of strings, or
    anything else. *)
Inductive raw_params :=
  | RawAbsent
  | RawNull
  | RawObject (m : gmap string string)
  | RawOther.

Inductive params_error := ErrNullParamsPattern | ErrNotObject.

Definition decodeParamsPattern (raw : raw_params)
    : result params_error (option (gmap string string)) :=
  match raw with
  | RawAbsent => Ok None
  | RawNull => Err ErrNullParamsPattern
  | RawObject m => Ok (Some m)
  | RawOther => Err ErrNotObject
  end.

Definition params_response (err : params_error) : response :=
  match err with
  | ErrNullParamsPattern => writeError StatusUnprocessableEntity "invalid_pattern"
  | ErrNotObject => writeError StatusBadRequest "invalid_request"
  end.

Definition pattern_or_domain (err : service_error) : response :=
  match err with
  | ErrApprovalInvalidPattern _ => writeError StatusUnprocessableEntity "invalid_pattern"
  | _ => mapDomainError err
  end.

(** approve_handler.go; [tool_pattern] tells whether the forbidden field is
    present in the body. *)
Record approveRequest := {
  ar_Persistence : string;
  ar_tool_pattern : bool;
  ar_ParamsPattern : raw_params;
}.

Definition approve_reply (result : ToolApproval) : response :=
  match Persistence result, ApprovedAt result with
  | Some p, Some t =>
      Resp StatusOK (BApproved (ID result) (status_text (Status result)) (persistence_text p) t)
  | _, _ => writeError StatusInternalServerError "internal_error"
  end.

Definition ApproveHandler (e : env) (principal : option string) (rawID : string)
    (req : option approveRequest) : server :=
  with_approval principal rawID (λ p approvalID,
    match req with
    | None => Ret bad_request
    | Some req =>
        if negb (Persistence_IsValid (persistence_of (ar_Persistence req))) then Ret bad_request
        else if ar_tool_pattern req then Ret (writeError StatusBadRequest "invalid_request")
        else
          match decodeParamsPattern (ar_ParamsPattern req) with
          | Err err => Ret (params_response err)
          | Ok params =>
              r ← ApproveApproval e approvalID p
                    {| apr_Persistence := persistence_of (ar_Persistence req);
                       apr_ParamsPattern := params |};
              match r with
              | Err err => Ret (pattern_or_domain err)
              | Ok result => Ret (approve_reply result)
              end
          end
    end).

(** scope_preview_handler.go: the preview asks without a persistence. *)
Definition ScopePreviewHandler (principal : option string) (rawID : string)
    (req : option (bool * raw_params)) : server :=
  with_approval principal rawID (λ p approvalID,
    match req with
    | None => Ret bad_request
    | Some (tool_pattern, raw) =>
        if tool_pattern : bool then Ret (writeError StatusBadRequest "invalid_request")
        else
          match decodeParamsPattern raw with
          | Err err => Ret (params_response err)
          | Ok params =>
              r ← PreviewApprovalScope approvalID p
                    {| apr_Persistence := OtherPersistence ""; apr_ParamsPattern := params |};
              match r with
              | Err err => Ret (pattern_or_domain err)
              | Ok preview => Ret (Resp StatusOK (BPreview preview))
              end
          end
    end).

(** deny_handler.go; an empty body is a request without persistence. *)
Definition deny_reply (result : ToolApproval) : response :=
  match DeniedAt result with
  | None => writeError StatusInternalServerError "internal_error"
  | Some t =>
      Resp StatusOK (BDenied (ID result) (status_text (Status result))
        (persistence_text <$> Persistence result) t)
  end.

Definition DenyHandler (e : env) (principal : option string) (rawID : string)
    (req : option (option string)) : server :=
  with_approval principal rawID (λ p approvalID,
    match req with
    | None => Ret bad_request
    | Some persistence =>
        let run persistence :=
          r ← DenyApproval e approvalID p persistence;
          match r with
          | Err err => Ret (mapDomainError err)
          | Ok result => Ret (deny_reply result)
          end in
        match persistence with
        | None => run None
        | Some s =>
            if decide (persistence_of s = Permanent) then run (Some Permanent) else Ret bad_request
        end
    end).

(** consume_handler.go *)
Definition ConsumeHandler (e : env) (principal : option string) (rawID : string) : server :=
  with_approval principal rawID (λ p approvalID,
    r ← ConsumeApproval e approvalID p;
    match r with
    | Err ErrApprovalNotConsumable => Ret (writeError StatusUnprocessableEntity "not_consumable")
    | Err err => Ret (mapDomainError err)
    | Ok result => Ret (Resp StatusOK (BConsumed (ID result) (Consumed result) (ConsumedAt result)))
    end).

(** revoke_handler.go, pending_handler.go, permanent_handler.go: only the
    absence of the principal is checked. *)
Definition RevokeHandler (e : env) (principal : option string) (rawID : string) : server :=
  match principal with
  | None => Ret unauthorized
  | Some p =>
      match uuid_Parse rawID with
      | None => Ret bad_request
      | Some approvalID =>
          r ← RevokePermanentApproval e approvalID p;
          match r with
          | Err ErrApprovalNotRevocable => Ret (writeError StatusUnprocessableEntity "not_revocable")
          | Err err => Ret (mapDomainError err)
          | Ok result =>
              Ret (Resp StatusOK (BRevoked (ID result) (status_text (Status result))
                (DeniedAt result) (persistence_text <$> Persistence result)))
          end
      end
  end.

Definition PendingHandler (cfg : service_config) (e : env) (principal : option string) : server :=
  match principal with
  | None => Ret unauthorized
  | Some p =>
      r ← ListPendingApprovals cfg e p;
      match r with
      | Err _ => Ret (writeError StatusInternalServerError "internal_error")
      | Ok l => Ret (Resp StatusOK (BDetails l))
      end
  end.

Definition PermanentHandler (cfg : service_config) (e : env) (principal : option string) : server :=
  match principal with
  | None => Ret unauthorized
  | Some p =>
      r ← ListPermanentApprovals cfg e p;
      match r with
      | Err _ => Ret (writeError StatusInternalServerError "internal_error")
      | Ok l => Ret (Resp StatusOK (BDetails l))
      end
  end.

(** create_handler.go; [auth] is the (agent, gateway client) of the approval
    authentication middleware, [traceparent] the propagated trace header. *)
Record createMetadata := {
  cm_MCPSessionID : option string;
  cm_AgentSessionID : option string;
  cm_ToolInvocationID : option string;
  cm_Description : option string;
}.

Record createRequest := {
  cr_Metadata : option createMetadata;
  cr_ToolName : string;
  cr_Arguments : arguments;
  cr_RiskLevel : string;
}.

Definition unconfigured_auth : response := writeError StatusServiceUnavailable "service_unavailable".

Definition create_reply (r : result service_error (ToolApproval * bool)) : response :=
  match r with
  | Err ErrApprovalRateLimit => writeError StatusTooManyRequests "rate_limit_exceeded"
  | Err (ErrApprovalInvalidPattern _) => writeError StatusUnprocessableEntity "invalid_pattern"
  | Err _ => writeError StatusInternalServerError "internal_error"
  | Ok (a, isNew) =>
      Resp (if isNew : bool then StatusCreated else StatusOK)
        (BCreated (ID a) (status_text (Status a)) (ApprovalURL a) (CreatedAt a))
  end.

Definition CreateHandler (configured : bool) (cfg : service_config) (e : env)
    (principal : option string) (auth : option (AgentID * string)) (traceparent : option string)
    (req : option createRequest) : server :=
  if negb configured then Ret (Resp StatusNotImplemented BEmpty)
  else
    match req with
    | None => Ret bad_request
    | Some req =>
        if decide (cr_ToolName req = "") then Ret bad_request
        else if decide (cr_Arguments req = None) then Ret bad_request
        else
          match cr_Metadata req ≫= (λ m, (m,.) <$> cm_Description m) with
          | None => Ret bad_request
          | Some (m, description) =>
              match principal, auth with
              | Some p, Some (agentID, gatewayClientID) =>
                  if decide (p = "" ∨ agentID = uuid_Nil ∨ gatewayClientID = "")
                  then Ret unconfigured_auth
                  else
                    r ← CreatePendingApproval cfg e
                          {| req_Principal := p; req_AgentID := agentID;
                             req_GatewayClientID := gatewayClientID;
                             req_ToolName := cr_ToolName req; req_Arguments := cr_Arguments req;
                             req_Description := description; req_RiskLevel := cr_RiskLevel req;
                             req_MCPSessionID := cm_MCPSessionID m;
                             req_AgentSessionID := cm_AgentSessionID m;
                             req_ToolInvocationID := cm_ToolInvocationID m;
                             req_Traceparent := traceparent |};
                    Ret (create_reply r)
              | _, _ => Ret unconfigured_auth
              end
          end
    end.

(** *** sync_handler.go *)

Definition toSummary (a : ToolApproval) : toolApprovalSummary :=
  {| s_ID := ID a; s_ToolName := ToolName a; s_ArgumentsHash := ArgumentsHash a;
     s_ToolPattern := ToolPattern a; s_ParamsPattern := default ∅ (ParamsPattern a);
     s_Status := status_text (Status a); s_Persistence := persistence_text <$> Persistence a;
     s_Consumed := Consumed a; s_AgentSessionID := AgentSessionID a;
     s_ApprovedAt := if decide (Status a = Approved) then ApprovedAt a else None |}.

Definition sync_pair (p : SyncPair) : syncResponsePair :=
  {| srp_Principal := pair_Principal p; srp_AgentID := pair_AgentID p;
     srp_Approvals := map toSummary (pair_Approvals p) |}.

End handlers.

(** The ETag of a sync response: the version after a v, in double quotes. *)
Definition sync_etag (version : Z) : string :=
  dquote_str +:+ "v" +:+ pretty version +:+ dquote_str.

(** The client version in [If-None-Match]. *)
Definition strip_quotes (tag : list ascii) : list ascii :=
  match tag with
  | c :: rest =>
      match reverse rest with
      | d :: inner => if decide (c = dquote ∧ d = dquote) then reverse inner else tag
      | [] => tag
      end
  | [] => tag
  end.

Definition strip_v (tag : list ascii) : list ascii :=
  match tag with
  | c :: (_ :: _) as rest => if decide (c = "v"%char) then rest else tag
  | _ => tag
  end.

Definition client_version (ifNoneMatch : string) : option Z :=
  if decide (ifNoneMatch = "") then None
  else ParseInt64 (of_bytes (strip_v (strip_quotes (bytes ifNoneMatch)))).

Definition defaultLongPollTimeout : duration := (30 * second)%Z.
Definition maxLongPollTimeout : duration := (120 * second)%Z.

(** [strconv.Atoi] is [ParseInt] at the 64-bit int; the product wraps. *)
Definition poll_timeout (timeoutStr : string) : duration :=
  if decide (timeoutStr = "") then defaultLongPollTimeout
  else
    match ParseInt64 timeoutStr with
    | Some secs =>
        if bool_decide (0 < secs)%Z then
          let timeout := int64_wrap (secs * second) in
          if bool_decide (maxLongPollTimeout < timeout)%Z then maxLongPollTimeout else timeout
        else defaultLongPollTimeout
    | None => defaultLongPollTimeout
    end.

(** How the [select] of the long poll ends. *)
Inductive wait_outcome := Signalled | TimedOut | Cancelled.

Section sync.
Context `{GoHash} `{TokenBucket} `{!ApprovalStore St}.

Definition sync_reply (e : env) (principal : string) (sids : list string) : prog (world St) response :=
  r ← GetSyncState e (if decide (principal = "") then None else Some principal) sids;
  match r with
  | Err _ => Ret (writeError StatusInternalServerError "internal_error")
  | Ok state => Ret (Resp StatusOK (BSync (sync_etag (sync_Version state))
                                     (map sync_pair (sync_Pairs state))))
  end.

(** [Subscribe], answering the channel. *)
Definition subscribe : prog (world St) (option nat) :=
  act (λ w,
    match w_bcast w with
    | None => (w, None)
    | Some b => let '(b', ch) := Subscribe b in (World (w_store w) (Some b') (w_limiter w), Some ch)
    end).

(** The deferred [Unsubscribe], before the reply leaves the handler. *)
Definition unsubscribe (ch : nat) (r : response) : prog (world St) response :=
  act (λ w, (World (w_store w) (Unsubscribe ch <$> w_bcast w) (w_limiter w), r)).

Definition take_signal (ch : nat) : prog (world St) unit :=
  act (λ w, (World (w_store w) (receive ch <$> w_bcast w) (w_limiter w), ())).

(** [wait] is the outcome of the select if the handler waits; a cancelled
    request gets no reply ([BEmpty] with status 0). *)
Definition SyncHandler (configured : bool) (e : env) (wait : wait_outcome)
    (principal : string) (sids : list string) (ifNoneMatch : string) : prog (world St) response :=
  if negb configured then Ret (Resp StatusNotImplemented BEmpty)
  else
    match client_version ifNoneMatch with
    | None => sync_reply e principal sids
    | Some clientVersion =>
        sub ← subscribe;
        match sub with
        | Some ch =>
            v ← GetVersion;
            match v with
            | Err _ => unsubscribe ch (writeError StatusInternalServerError "internal_error")
            | Ok currentVersion =>
                if decide (currentVersion = clientVersion) then
                  match wait with
                  | Signalled =>
                      _ ← take_signal ch;
                      r ← sync_reply e principal sids;
                      unsubscribe ch r
                  | TimedOut => unsubscribe ch (Resp StatusNotModified BEmpty)
                  | Cancelled => unsubscribe ch (Resp 0 BEmpty)
                  end
                else
                  r ← sync_reply e principal sids;
                  unsubscribe ch r
            end
        | None =>
            v ← GetVersion;
            match v with
            | Err _ => Ret (writeError StatusInternalServerError "internal_error")
            | Ok currentVersion =>
                if decide (currentVersion = clientVersion) then Ret (Resp StatusNotModified BEmpty)
                else sync_reply e principal sids
            end
        end
    end.

End sync.
