(* ===== verification/ApprovalHandlersFacts.v ===== *)
(** * The approval API, end to end

    The version travels from the sync handler to the cache and back unchanged;
    the long-poll timeout is bounded; and the decision endpoints change nothing
    but the one row the acting principal owns. *)

From S2P Require Import Prelude ToolPattern Precedence ToolApproval ApprovalStore ApprovalMemory SyncBroadcaster ApprovalService ApprovalConcurrency ApprovalServiceFacts ApprovalHandlers ApprovalCache.

(** ** The version tag *)

(** The bytes between the quotes. *)
Lemma sync_etag_bytes v :
  bytes (sync_etag v) = dquote :: "v"%char :: bytes (pretty v) ++ [dquote].
Proof. unfold sync_etag. rewrite !bytes_app. done. Qed.

Lemma int_byte_not_quote c : int_byte c → c ≠ dquote.
Proof. intros [-> | [d Hd]]; [done |]. by intros ->. Qed.

(** The printed version ends in a byte that is not a quote. *)
Lemma pretty_last (v : Z) : ∃ c l, reverse (bytes (pretty v)) = c :: l ∧ c ≠ dquote.
Proof.
  destruct (pretty_Z_bytes v) as [HF Hne].
  destruct (reverse (bytes (pretty v))) as [| c l] eqn:E.
  { apply (f_equal reverse) in E. rewrite reverse_involutive in E. done. }
  exists c, l. split; [done |]. apply int_byte_not_quote. rewrite Forall_forall in HF. apply HF.
  apply elem_of_reverse. rewrite E. constructor.
Qed.

Lemma TrimSpace_etag v : TrimSpace (sync_etag v) = sync_etag v.
Proof.
  unfold TrimSpace. rewrite trim_bytes_id; [apply of_bytes_bytes | |]; rewrite sync_etag_bytes.
  - reflexivity.
  - rewrite !reverse_cons, reverse_app. reflexivity.
Qed.

Lemma Trim_etag v : Trim (sync_etag v) [dquote] = of_bytes ("v"%char :: bytes (pretty v)).
Proof.
  unfold Trim. f_equal. rewrite sync_etag_bytes. unfold trim_bytes.
  set (x := bytes (pretty v)).
  change (length (dquote :: "v"%char :: x ++ [dquote])) with (S (S (length (x ++ [dquote])))).
  change (trim_left (S (S (length (x ++ [dquote])))) (map (λ c, [c]) [dquote])
    (dquote :: "v"%char :: x ++ [dquote])) with ("v"%char :: x ++ [dquote]).
  cbv beta zeta. rewrite reverse_cons, reverse_app.
  change (reverse [dquote]) with [dquote]. change (map reverse (map (λ c, [c]) [dquote])) with [[dquote]].
  destruct (pretty_last v) as (c & l & Hl & Hc). fold x in Hl.
  cbn [length]. rewrite length_app. simpl. rewrite Hl. simpl.
  rewrite Nat.add_1_r. simpl.
  destruct (decide (dquote = c)) as [Heq |]; [by destruct Hc |].
  rewrite reverse_cons, reverse_app. simpl.
  change (c :: l) with ([c] ++ l) in Hl. rewrite <-(reverse_involutive x), Hl, reverse_app. done.
Qed.

(** The version tag round trip.  The cache reads back the version
    the sync handler put into the ETag, also when an intermediary weakens the
    tag, and the sync handler reads back the tag the cache echoes. *)
Theorem sync_etag_round_trip (v : Z) :
  (int64_min ≤ v ≤ int64_max)%Z →
  parseSyncVersion (sync_etag v) = Some v ∧
  parseSyncVersion ("W/" +:+ sync_etag v) = Some v ∧
  client_version (sync_etag v) = Some v.
Proof.
  intros Hv.
  assert (∀ t, TrimSpace t = sync_etag v → ParseInt64 (TrimPrefix (Trim (TrimSpace t) [dquote]) "v") = Some v) as Hp.
  { intros t ->. rewrite Trim_etag. unfold TrimPrefix. rewrite bytes_of_bytes. simpl.
    rewrite of_bytes_bytes. by apply ParseInt64_pretty. }
  assert (TrimSpace ("W/" +:+ sync_etag v) = "W/" +:+ sync_etag v) as HW.
  { unfold TrimSpace. rewrite trim_bytes_id; [apply of_bytes_bytes | |]; rewrite bytes_app, sync_etag_bytes.
    - reflexivity.
    - rewrite reverse_app, !reverse_cons, reverse_app. reflexivity. }
  split_and!.
  - unfold parseSyncVersion. rewrite TrimSpace_etag.
    unfold HasPrefix. rewrite sync_etag_bytes. apply Hp, TrimSpace_etag.
  - unfold parseSyncVersion. rewrite HW.
    assert (HasPrefix ("W/" +:+ sync_etag v) "W/" = true) as -> by done.
    assert (TrimPrefix ("W/" +:+ sync_etag v) "W/" = sync_etag v) as ->.
    { unfold TrimPrefix. rewrite bytes_app. change (strip_prefix _ _) with (Some (bytes (sync_etag v))).
      apply of_bytes_bytes. }
    rewrite TrimSpace_etag. apply Hp, TrimSpace_etag.
  - unfold client_version. rewrite decide_False by done. rewrite sync_etag_bytes. unfold strip_quotes.
    rewrite reverse_cons, reverse_app. change (reverse [dquote]) with [dquote].
    cbn [app]. rewrite decide_True by done. rewrite reverse_app, reverse_involutive. cbn.
    destruct (pretty_Z_bytes v) as [_ Hne]. destruct (bytes (pretty v)) as [| c l] eqn:E; [done |].
    rewrite decide_True by done. rewrite <-E, of_bytes_bytes. by apply ParseInt64_pretty.
Qed.

(** C37 at a version. *)
Lemma sync_etag_round_trip_witness :
  parseSyncVersion (sync_etag 42) = Some 42%Z ∧
  parseSyncVersion ("W/" +:+ sync_etag 42) = Some 42%Z ∧ client_version (sync_etag 42) = Some 42%Z.
Proof. apply (sync_etag_round_trip 42). unfold int64_min, int64_max. lia. Defined.

(** ** The long-poll timeout *)

(** Claim C39.  No header makes a long poll wait longer than two minutes, and
    every number of seconds whose nanoseconds fit an int64 gives a positive
    wait of that many seconds, capped at the maximum.  One second more wraps
    around to a negative timeout, which ends the long poll at once. *)
Theorem poll_timeout_bounds (s : string) :
  (poll_timeout s ≤ maxLongPollTimeout)%Z ∧
  (∀ n, ParseInt64 s = Some n → (0 < n ≤ int64_max / second)%Z →
    poll_timeout s = Z.min (n * second) maxLongPollTimeout) ∧
  (poll_timeout (pretty (int64_max / second + 1)%Z) < 0)%Z.
Proof.
  assert ((poll_timeout s ≤ maxLongPollTimeout)%Z ∧
    (∀ n, ParseInt64 s = Some n → (0 < n ≤ int64_max / second)%Z →
      poll_timeout s = Z.min (n * second) maxLongPollTimeout)) as [Hmax Hexact].
  2: { split_and!; [done | done | vm_compute; reflexivity]. }
  unfold poll_timeout. destruct (decide (s = "")) as [-> | _]; [split; [done | discriminate] |].
  destruct (ParseInt64 s) as [m |]; [| split; [done | discriminate]].
  case_bool_decide as Hm; [| split; [done |]; intros n [= ->] ?; lia].
  split; [case_bool_decide; lia |]. intros n [= ->] [_ Hn].
  assert (int64_wrap (n * second) = n * second)%Z as ->.
  { unfold int64_wrap. change (int64_max / second)%Z with 9223372036%Z in Hn.
    unfold second in *. rewrite Z.mod_small; lia. }
  case_bool_decide; lia.
Qed.

(** ** The decision endpoints *)

Inductive endpoint :=
  | EApprove (req : option approveRequest)
  | EDeny (req : option (option string))
  | EConsume
  | ERevoke.

Section endpoints.
Context `{GoHash} `{TokenBucket} `{UUID}.
Implicit Types w : world memory_store.

Definition serve (ep : endpoint) (e : env) (principal : option string) (rawID : string)
    : prog (world memory_store) response :=
  match ep with
  | EApprove req => ApproveHandler e principal rawID req
  | EDeny req => DenyHandler e principal rawID req
  | EConsume => ConsumeHandler e principal rawID
  | ERevoke => RevokeHandler e principal rawID
  end.

Definition refusals : list Z :=
  [StatusBadRequest; StatusUnauthorized; StatusForbidden; StatusNotFound; StatusConflict;
   StatusGone; StatusUnprocessableEntity].

(** Refused without any change, or answered 200 with at most the acting
    principal's row changed. *)
Definition safe_outcome (principal : option string) (rawID : string) w
    (r : world memory_store * response) : Prop :=
  (r.1 = w ∧ resp_status r.2 ∈ refusals) ∨
  (resp_status r.2 = StatusOK ∧ ∃ p id a a',
    principal = Some p ∧ uuid_Parse rawID = Some id ∧
    ms_approvals (w_store w) !! id = Some a ∧ Prin a = p ∧
    identity_of a' = identity_of a ∧
    ms_approvals (w_store r.1) = <[id := a']> (ms_approvals (w_store w))).

Lemma refuse principal rawID w resp :
  resp_status resp ∈ refusals → safe_outcome principal rawID w (w, resp).
Proof. by left. Qed.

Lemma accept principal rawID w p id a a' w' resp :
  principal = Some p → uuid_Parse rawID = Some id → ms_approvals (w_store w) !! id = Some a →
  ¬ Prin a ≠ p → ms_approvals (w_store w') = <[id := a']> (ms_approvals (w_store w)) →
  identity_of a' = identity_of a → resp_status resp = StatusOK →
  safe_outcome principal rawID w (w', resp).
Proof.
  intros Hp Hid Ha Hown Hw Hi Hs. right. split; [done |]. exists p, id, a, a'.
  split_and!; [done | done | done | by destruct (decide (Prin a = p)) | done | done].
Qed.

Lemma resolve_invalid a req err :
  resolveApprovalDecision a req = Err err → ∃ o, err = ErrApprovalInvalidPattern o.
Proof. unfold resolveApprovalDecision. intros Hr. repeat (split_match; simplify_eq); eauto. Qed.

Ltac refusal := apply refuse; unfold refusals; simpl; set_solver.

Lemma with_approval_safe principal rawID w (k : Principal → ApprovalID → prog (world memory_store) response) :
  (∀ p id, principal = Some p → uuid_Parse rawID = Some id →
    safe_outcome principal rawID w (run (k p id) w)) →
  safe_outcome principal rawID w (run (with_approval principal rawID k) w).
Proof.
  intros Hk. unfold with_approval. destruct principal as [p |]; [| refusal].
  destruct (decide (p = "")); [refusal |]. destruct (uuid_Parse rawID) as [id |]; [| refusal].
  by apply Hk.
Qed.

(** A run of a service method followed by its reply. *)
Lemma run_reply {A} (p : prog (world memory_store) A) (g : A → prog (world memory_store) response)
    w w' r : run p w = (w', r) → run (p ≫= g) w = run (g r) w'.
Proof. intros E. unfold mbind, prog_bind. by rewrite run_pbind, E. Qed.

Lemma ApproveHandler_safe e principal rawID req w :
  safe_outcome principal rawID w (run (ApproveHandler e principal rawID req) w).
Proof.
  apply with_approval_safe. intros p id Hp Hid. destruct req as [req |]; [| refusal].
  destruct (negb _); [refusal |]. destruct (ar_tool_pattern req); [refusal |].
  destruct (decodeParamsPattern _) as [params | []]; [| refusal | refusal].
  set (areq := Build_ApproveRequest _ _).
  pose proof (ApproveApproval_run w e id p areq) as Hrun.
  destruct (ms_approvals (w_store w) !! id) as [a |] eqn:Ha;
    [| rewrite (run_reply _ _ _ _ _ Hrun); refusal].
  destruct (decide (Prin a ≠ p)); [rewrite (run_reply _ _ _ _ _ Hrun); refusal |].
  destruct (decide (Status a ≠ Pending)); [rewrite (run_reply _ _ _ _ _ Hrun); refusal |].
  destruct (IsExpired a (clk e 0)); [rewrite (run_reply _ _ _ _ _ Hrun); refusal |].
  destruct (resolveApprovalDecision a areq) as [d | err] eqn:Hd.
  2: { destruct (resolve_invalid _ _ _ Hd) as [o ->]. rewrite (run_reply _ _ _ _ _ Hrun). refusal. }
  destruct (IsExpired a (clk e 1)).
  { rewrite (run_reply _ _ _ _ _ Hrun). destruct (IsExpired a (clk e 2)); refusal. }
  rewrite (run_reply _ _ _ _ _ Hrun). by eapply accept.
Qed.

Lemma deny_run_safe e principal rawID p id pers w :
  principal = Some p → uuid_Parse rawID = Some id →
  safe_outcome principal rawID w
    (run (r ← DenyApproval e id p pers;
          match r with Err err => Ret (mapDomainError err) | Ok result => Ret (deny_reply result) end) w).
Proof.
  intros Hp Hid. pose proof (DenyApproval_run w e id p pers) as Hrun.
  destruct (ms_approvals (w_store w) !! id) as [a |] eqn:Ha;
    [| rewrite (run_reply _ _ _ _ _ Hrun); refusal].
  destruct (decide (Prin a ≠ p)); [rewrite (run_reply _ _ _ _ _ Hrun); refusal |].
  destruct (decide (Status a ≠ Pending)); [rewrite (run_reply _ _ _ _ _ Hrun); refusal |].
  destruct (IsExpired a (clk e 0)); [rewrite (run_reply _ _ _ _ _ Hrun); refusal |].
  destruct (IsExpired a (clk e 1)).
  { rewrite (run_reply _ _ _ _ _ Hrun). destruct (IsExpired a (clk e 2)); refusal. }
  rewrite (run_reply _ _ _ _ _ Hrun). by eapply accept.
Qed.

Lemma DenyHandler_safe e principal rawID req w :
  safe_outcome principal rawID w (run (DenyHandler e principal rawID req) w).
Proof.
  apply with_approval_safe. intros p id Hp Hid. destruct req as [[s |] |]; [| | refusal].
  - destruct (decide _); [by apply deny_run_safe | refusal].
  - by apply deny_run_safe.
Qed.

Lemma ConsumeHandler_safe e principal rawID w :
  safe_outcome principal rawID w (run (ConsumeHandler e principal rawID) w).
Proof.
  apply with_approval_safe. intros p id Hp Hid. pose proof (ConsumeApproval_run w e id p) as Hrun.
  destruct (ms_approvals (w_store w) !! id) as [a |] eqn:Ha;
    [| rewrite (run_reply _ _ _ _ _ Hrun); refusal].
  destruct (decide (Prin a ≠ p)); [rewrite (run_reply _ _ _ _ _ Hrun); refusal |].
  destruct (Consumed a).
  { rewrite (run_reply _ _ _ _ _ Hrun). eapply (accept _ _ _ p id a a); [done | done | done | done | | done | done].
    by rewrite insert_id. }
  destruct (decide _); rewrite (run_reply _ _ _ _ _ Hrun); [| refusal].
  by eapply accept.
Qed.

Lemma RevokeHandler_safe e principal rawID w :
  store_wf (ms_approvals (w_store w)) →
  safe_outcome principal rawID w (run (RevokeHandler e principal rawID) w).
Proof.
  intros Hwf. unfold RevokeHandler. destruct principal as [p |]; [| refusal].
  destruct (uuid_Parse rawID) as [id |] eqn:Hid; [| refusal].
  pose proof (RevokePermanentApproval_run w e id p Hwf) as Hrun.
  destruct (ms_approvals (w_store w) !! id) as [a |] eqn:Ha;
    [| rewrite (run_reply _ _ _ _ _ Hrun); refusal].
  destruct (decide (Prin a ≠ p)); [rewrite (run_reply _ _ _ _ _ Hrun); refusal |].
  destruct (decide _); rewrite (run_reply _ _ _ _ _ Hrun); [| refusal].
  by eapply accept.
Qed.

End endpoints.

(** The approve, deny, consume and revoke endpoints either refuse
    with a client error and leave the store alone, or answer 200 and change at
    most the addressed row, which belongs to the acting principal and keeps its
    identity.  They never answer with an internal error. *)
Theorem decision_endpoints_safe `{GoHash} `{TokenBucket} `{UUID} (ep : endpoint) (e : env)
    (principal : option string) (rawID : string) (w : world memory_store) :
  store_wf (ms_approvals (w_store w)) →
  safe_outcome principal rawID w (run (serve ep e principal rawID) w).
Proof.
  intros Hwf. destruct ep;
    [ apply ApproveHandler_safe | apply DenyHandler_safe | apply ConsumeHandler_safe
    | by apply RevokeHandler_safe ].
Qed.

(** Ids are their own text. *)
Definition ExampleUUID : UUID :=
  {| uuid_Parse s := if decide (s = "") then None else Some s; uuid_Nil := "nil" |}.

#[local] Existing Instances IntFloat ExampleHash ExampleBucket ExampleUUID.

(** C22 at a revocation by another user: refused, nothing changes. *)
Lemma decision_endpoints_safe_witness :
  safe_outcome (Some "mallory") "perm" example_world
    (run (serve ERevoke (example_env 10 "n0") (Some "mallory") "perm") example_world) ∧
  resp_status (run (serve ERevoke (example_env 10 "n0") (Some "mallory") "perm") example_world).2 =
    StatusForbidden.
Proof.
  split; [| reflexivity].
  apply (decision_endpoints_safe ERevoke (example_env 10 "n0") (Some "mallory") "perm" example_world).
  apply example_store_inv.
Defined.
