(* ===== verification/ApprovalGate.v ===== *)
(** * The approval gate, its broker client and the syncer

    internal/extproc/approval/gate.go, client.go and syncer.go.  The gate works
    on the local cache and on a broker reached over HTTP; [gworld] pairs the
    two.  Every cache method is one atomic action, and a broker call is the
    handler that serves it, so that concurrent tool calls, sync rounds and user
    decisions interleave as they do in a deployment. *)

From S2P Require Import Prelude ToolPattern Precedence ToolApproval ApprovalStore SyncBroadcaster ApprovalService ApprovalHandlers ApprovalCache.

(** ** The gate *)

Record Invocation `{GoFloat} := MkInvocation {
  inv_Identity : Identity;
  inv_ToolName : string;
  inv_Arguments : arguments;
  inv_AgentSessionID : string;
  inv_MCPSessionID : string;
  inv_RequestID : string;
  inv_SubjectToken : string;
  inv_Description : string;
  inv_RiskLevel : string;
}.

Record Outcome := MkOutcome {
  Proceed : bool;
  URL : string;
  Reason : string;
}.

Definition proceed : Outcome := {| Proceed := true; URL := ""; Reason := "" |}.
Definition elicit (url : string) : Outcome := {| Proceed := false; URL := url; Reason := "" |}.
Definition deny (reason : string) : Outcome := {| Proceed := false; URL := ""; Reason := reason |}.

(** A [StatusError] carries the HTTP status; every other error does not. *)
Inductive broker_error := StatusError (code : Z) | OtherError.

Definition isRateLimited (err : broker_error) : bool :=
  match err with
  | StatusError code => bool_decide (code = StatusTooManyRequests)
  | OtherError => false
  end.

Record CreateRequest `{GoFloat} := MkCreateRequest {
  crq_MCPSessionID : string;
  crq_AgentSessionID : string;
  crq_InvocationID : string;
  crq_Description : string;
  crq_ToolName : string;
  crq_Arguments : arguments;
  crq_RiskLevel : string;
}.

(** The broker interface the gate calls. *)
Record Broker `{GoFloat} (W : Type) := MkBroker {
  br_Read : string → list string → prog W (result broker_error (list Pair * string));
  br_Create : string → CreateRequest → prog W (result broker_error string);
  br_Consume : string → string → prog W (result broker_error unit);
}.
Arguments br_Read {_ _} _.
Arguments br_Create {_ _} _.
Arguments br_Consume {_ _} _.

Record gworld (W : Type) := GWorld {
  g_cache : Cache;
  g_world : W;
}.
Arguments GWorld {_} _ _.
Arguments g_cache {_} _.
Arguments g_world {_} _.

(** A broker call leaves the cache alone. *)
Fixpoint at_broker {W A} (p : prog W A) : prog (gworld W) A :=
  match p with
  | Ret a => Ret a
  | Act f k =>
      Act (λ g, let r := f (g_world g) in (GWorld (g_cache g) r.1, r.2)) (λ x, at_broker (k x))
  end.

Definition cache_act {W A} (f : Cache → Cache * A) : prog (gworld W) A :=
  act (λ g, let r := f (g_cache g) in (GWorld r.1 (g_world g), r.2)).

Section gate.
Context `{GoFloat} {W : Type} (broker : Broker W).

Definition default_arguments (args : arguments) : arguments := Some (default ∅ args).

Definition create_request (invocation : Invocation) : CreateRequest :=
  {| crq_MCPSessionID := inv_MCPSessionID invocation;
     crq_AgentSessionID := inv_AgentSessionID invocation;
     crq_InvocationID := inv_RequestID invocation;
     crq_Description :=
       if decide (inv_Description invocation = "")
       then "Approval required for " +:+ inv_ToolName invocation
       else inv_Description invocation;
     crq_ToolName := inv_ToolName invocation;
     crq_Arguments := default_arguments (inv_Arguments invocation);
     crq_RiskLevel := inv_RiskLevel invocation |}.

Definition enforceDecision (invocation : Invocation) (record : CRecord) : prog (gworld W) Outcome :=
  if decide (r_Status record = "denied") then Ret (deny "tool permanently denied")
  else if decide (r_Persistence record ≠ Some "once") then Ret proceed
  else
    r ← at_broker (br_Consume broker (inv_SubjectToken invocation) (r_ID record));
    match r with
    | Err _ =>
        _ ← cache_act (λ c, (Release (inv_Identity invocation) (r_ID record) c, ()));
        Ret (deny "approval could not be consumed")
    | Ok _ =>
        _ ← cache_act (λ c, (ConfirmConsumed (inv_Identity invocation) (r_ID record) c, ()));
        Ret proceed
    end.

Definition lookup_cache (now : time) (invocation : Invocation) : prog (gworld W) (option CRecord) :=
  cache_act (Match now (inv_Identity invocation) (inv_AgentSessionID invocation)
               (inv_ToolName invocation) (inv_Arguments invocation)).

(** The creation of a pending approval when nothing matches. *)
Definition initiate (invocation : Invocation) : prog (gworld W) Outcome :=
  r ← at_broker (br_Create broker (inv_SubjectToken invocation) (create_request invocation));
  match r with
  | Err err =>
      if isRateLimited err
      then Ret (deny "approval could not be initiated — broker rate limit; retry shortly")
      else Ret (deny "approval could not be initiated")
  | Ok approvalURL =>
      if decide (TrimSpace approvalURL = "") then Ret (deny "approval could not be initiated")
      else Ret (elicit approvalURL)
  end.

(** [configured]: neither the gate, its cache nor its broker is nil.  Readings
    of the clock: 0 recording the session, 1 and 3 matching, 2 refreshing. *)
Definition Evaluate (configured : bool) (clock : nat → time) (invocation : Invocation)
    : prog (gworld W) Outcome :=
  if negb configured then Ret (deny "approval gate unavailable")
  else if negb (Valid (inv_Identity invocation)) then Ret (deny "approval identity unavailable")
  else if decide (TrimSpace (inv_SubjectToken invocation) = "")
  then Ret (deny "approval subject token unavailable")
  else
    _ ← cache_act (λ c, (RecordSession (clock 0) (inv_AgentSessionID invocation) c, ()));
    matched ← lookup_cache (clock 1) invocation;
    match matched with
    | Some record => enforceDecision invocation record
    | None =>
        sids ← cache_act (λ c, (c, ActiveSessions c));
        r ← at_broker (br_Read broker (id_Principal (inv_Identity invocation)) sids);
        match r with
        | Err err =>
            if isRateLimited err
            then Ret (deny "approval state could not be refreshed — broker rate limit; retry shortly")
            else Ret (deny "approval state could not be refreshed")
        | Ok (l, tag) =>
            ok ← cache_act (ReplaceForPrincipal (clock 2) (id_Principal (inv_Identity invocation)) l tag);
            if negb ok then Ret (deny "approval state could not be refreshed")
            else
              matched ← lookup_cache (clock 3) invocation;
              match matched with
              | Some record => enforceDecision invocation record
              | None => initiate invocation
              end
        end
    end.

End gate.

(** ** The syncer *)

Section syncer.
Context {W : Type} (poll : list string → string → prog W (result broker_error (list Pair * string * bool))).

(** [Bootstrap]: one unconditional read; a failure is logged. *)
Definition Bootstrap (now : time) : prog (gworld W) unit :=
  r ← at_broker (poll [] "");
  match r with
  | Err _ => Ret ()
  | Ok (l, tag, _) => cache_act (λ c, (Replace now l tag c, ()))
  end.

(** One round of [Run]; the answer tells whether the poll succeeded. *)
Definition sync_round (now : time) : prog (gworld W) bool :=
  sids ← cache_act (λ c, (c, ActiveSessions c));
  tag ← cache_act (λ c, (c, etag c));
  r ← at_broker (poll sids tag);
  match r with
  | Err _ => Ret false
  | Ok (l, tag, unchanged) =>
      _ ← cache_act (λ c, (if (unchanged : bool) then MarkSynced now c else Replace now l tag c, ()));
      Ret true
  end.

End syncer.

Definition initialBackoff : duration := second.
Definition maximumBackoff : duration := (60 * second)%Z.

(** The backoff after a round: reset by success, doubled by failure; int64. *)
Definition next_backoff (backoff : duration) (ok : bool) : duration :=
  if ok then second else Z.min (int64_wrap (backoff * 2)) maximumBackoff.

(** The backoff [Run] waits with after the rounds [oks]. *)
Definition backoff_after (oks : list bool) : duration := foldl next_backoff initialBackoff oks.

(** ** The client *)

(** A decoded record; the reservation flag is not on the wire. *)
Definition record_of (s : toolApprovalSummary) : CRecord :=
  {| r_ID := s_ID s; r_ToolName := s_ToolName s; r_ToolPattern := s_ToolPattern s;
     r_ParamsPattern := Some (s_ParamsPattern s); r_Status := s_Status s;
     r_Persistence := s_Persistence s; r_Consumed := s_Consumed s;
     r_AgentSessionID := s_AgentSessionID s; r_ApprovedAt := s_ApprovedAt s; r_reserved := false |}.

Definition pair_of (p : syncResponsePair) : Pair :=
  {| p_Identity := {| id_Principal := srp_Principal p; id_AgentID := srp_AgentID p |};
     p_Approvals := map record_of (srp_Approvals p) |}.

(** The loop over the decoded pairs: one invalid identity rejects the answer. *)
Fixpoint client_pairs (l : list syncResponsePair) : option (list Pair) :=
  match l with
  | [] => Some []
  | p :: l =>
      if Valid (p_Identity (pair_of p)) then (pair_of p ::.) <$> client_pairs l else None
  end.

Section client.
Context `{GoHash} `{TokenBucket} `{UUID} `{!ApprovalStore St}.

(** The tail of [read], on the response: pairs, tag, unchanged. *)
Definition client_read (etag : string) (r : response) : result broker_error (list Pair * string * bool) :=
  if decide (resp_status r = StatusNotModified) then
    if decide (etag = "") then Err (StatusError StatusNotModified) else Ok ([], "", true)
  else if decide (resp_status r ≠ StatusOK) then Err (StatusError (resp_status r))
  else
    match resp_body r with
    | BSync tag l =>
        if decide (tag = "") then Err OtherError
        else match client_pairs l with
             | Some ps => Ok (ps, tag, false)
             | None => Err OtherError
             end
    | _ => Err OtherError
    end.

(** What the deployment around the client provides: the workload's client
    assertion ([None]: the provider failed), and the principal and
    (agent, gateway client) the broker's authentication derives from a subject
    token, and the trace header the HTTP transport adds. *)
Record client_config := ClientConfig {
  assertion : option string;
  token_principal : string → option string;
  token_auth : string → option (AgentID * string);
  traceparent : option string;
}.

Definition has_assertion (cc : client_config) : bool :=
  match assertion cc with Some a => negb (bool_decide (TrimSpace a = "")) | None => false end.

Context (cc : client_config) (cfg : service_config).

(** [read]: the request to GET /api/approvals and its answer. *)
Definition read_request (e : env) (wait : wait_outcome) (principal : string) (sids : list string)
    (etag : string) : prog (world St) (result broker_error (list Pair * string * bool)) :=
  if negb (has_assertion cc) then Ret (Err OtherError)
  else
    resp ← SyncHandler true e wait principal (filter (λ s, s ≠ "") sids) etag;
    Ret (client_read etag resp).

Definition client_Read (e : env) (principal : string) (sids : list string)
    : prog (world St) (result broker_error (list Pair * string)) :=
  r ← read_request e TimedOut principal sids "";
  match r with
  | Err err => Ret (Err err)
  | Ok (l, tag, unchanged) =>
      if (unchanged : bool) then Ret (Err (StatusError StatusNotModified)) else Ret (Ok (l, tag))
  end.

Definition client_Poll (e : env) (wait : wait_outcome) (sids : list string) (etag : string)
    : prog (world St) (result broker_error (list Pair * string * bool)) :=
  read_request e wait "" sids etag.

(** [omitempty] *)
Definition omitempty (s : string) : option string := if decide (s = "") then None else Some s.

Definition create_body (request : CreateRequest) : createRequest :=
  {| cr_Metadata := Some {| cm_MCPSessionID := omitempty (crq_MCPSessionID request);
       cm_AgentSessionID := omitempty (crq_AgentSessionID request);
       cm_ToolInvocationID := omitempty (crq_InvocationID request);
       cm_Description := Some (crq_Description request) |};
     cr_ToolName := crq_ToolName request; cr_Arguments := crq_Arguments request;
     cr_RiskLevel := crq_RiskLevel request |}.

Definition client_Create (e : env) (subjectToken : string) (request : CreateRequest)
    : prog (world St) (result broker_error string) :=
  if decide (TrimSpace subjectToken = "") then Ret (Err OtherError)
  else if negb (has_assertion cc) then Ret (Err OtherError)
  else
    resp ← CreateHandler true cfg e (token_principal cc subjectToken) (token_auth cc subjectToken)
             (traceparent cc) (Some (create_body request));
    if decide (resp_status resp ≠ StatusCreated ∧ resp_status resp ≠ StatusOK)
    then Ret (Err (StatusError (resp_status resp)))
    else
      match resp_body resp with
      | BCreated _ _ url _ =>
          if decide (TrimSpace url = "") then Ret (Err OtherError) else Ret (Ok url)
      | _ => Ret (Err OtherError)
      end.

Definition client_Consume (e : env) (subjectToken approvalID : string)
    : prog (world St) (result broker_error unit) :=
  if decide (TrimSpace subjectToken = "") then Ret (Err OtherError)
  else if decide (approvalID = "") then Ret (Err OtherError)
  else
    resp ← ConsumeHandler e (token_principal cc subjectToken) approvalID;
    if decide (resp_status resp = StatusOK) then Ret (Ok ())
    else Ret (Err (StatusError (resp_status resp))).

(** The broker reached through the client; [e] supplies the readings of the
    broker's clock and the UUID it would generate. *)
Definition service_broker (e : env) : Broker (world St) :=
  {| br_Read := client_Read e; br_Create := client_Create e; br_Consume := client_Consume e |}.

End client.
