(* ===== verification/ApprovalGateFacts.v ===== *)
(** * What the gate guarantees

    The gate is verified against an interface of the broker: whatever a read
    returns as approved has been granted, whatever a successful consumption
    names is consumed, and both facts last.  Under any interleaving, a tool call
    proceeds only on a granted approval that covers it. *)

From S2P Require Import Prelude ToolPattern Precedence ToolApproval ApprovalStore SyncBroadcaster ApprovalService ApprovalHandlers ApprovalCache ApprovalCacheFacts ApprovalGate.

(** ** The broker interface

    [R] and [G]: the steps of others and of this client's own broker calls;
    [ready]: what the client's calls need of the broker and keep; [free]: what
    only the creation of an approval needs. *)
Class BrokerLaws `{GoFloat} {W} (B : Broker W) (R G : W → W → Prop) (ready free : W → Prop)
    (granted : W → string * string → CRecord → Prop) (consumed : W → string → Prop) : Prop := {
  bl_granted_R w w' k r : R w w' → ready w → granted w k r → granted w' k r;
  bl_granted_G w w' k r : G w w' → ready w → granted w k r → granted w' k r;
  bl_granted_content w k r r' : content r = content r' → granted w k r → granted w k r';
  bl_consumed_R w w' id : R w w' → ready w → consumed w id → consumed w' id;
  bl_ready_R w w' : R w w' → ready w → ready w';
  bl_ready_G w w' : G w w' → ready w → ready w';
  bl_free_R w w' : R w w' → free w → free w';
  bl_Read p sids w : ready w → free w →
    rg R G (λ res w', free w' ∧ ∀ l tag, res = Ok (l, tag) →
      ∀ q r, q ∈ l → r ∈ p_Approvals q → r_Status r = "approved" → granted w' (key_of (p_Identity q)) r)
      (br_Read B p sids) w;
  bl_Create tok req w : ready w → free w → rg R G (λ _ _, True) (br_Create B tok req) w;
  bl_Consume tok id w : ready w →
    rg R G (λ res w', res = Ok () → consumed w' id) (br_Consume B tok id) w;
}.

Section gate.
Context `{GoFloat} {W : Type} (B : Broker W) (R G : W → W → Prop) (ready free : W → Prop).
Context (granted : W → string * string → CRecord → Prop) (consumed : W → string → Prop).
Context {laws : BrokerLaws B R G ready free granted consumed}.
Implicit Types g : gworld W.

(** Every approved record of the cache has been granted. *)
Definition sound_cache (w : W) (c : Cache) : Prop :=
  ∀ k e r, pairs c !! k = Some e → r ∈ records e → r_Status r = "approved" → granted w k r.

Definition sound g : Prop := sound_cache (g_world g) (g_cache g).

(** The gate's own steps: a broker step, or a cache step that stays sound. *)
Definition GG g g' : Prop :=
  (G (g_world g) (g_world g') ∧ g_cache g' = g_cache g) ∨
  (g_world g' = g_world g ∧ (sound g → sound g')).

(** The steps of others. *)
Context (RR : gworld W → gworld W → Prop).
Context (RR_world : ∀ g g', RR g g' → rtc R (g_world g) (g_world g')).
Context (RR_sound : ∀ g g', RR g g' → ready (g_world g) → sound g → sound g').

Lemma ready_rtc w w' : rtc R w w' → ready w → ready w'.
Proof. induction 1 as [| w1 w2 w3 Hs _ IH]; intros Hr; [done |]. apply IH. by eapply bl_ready_R. Qed.

Lemma free_rtc w w' : rtc R w w' → free w → free w'.
Proof. induction 1 as [| w1 w2 w3 Hs _ IH]; intros Hr; [done |]. apply IH. by eapply bl_free_R. Qed.

Lemma free_rtc2 w1 w2 w3 : rtc R w1 w2 → rtc R w2 w3 → free w1 → free w3.
Proof. intros H12 H23 Hf. by eapply free_rtc; [exact H23 |]; eapply free_rtc. Qed.

Lemma granted_rtc w w' k r : rtc R w w' → ready w → granted w k r → granted w' k r.
Proof.
  induction 1 as [| w1 w2 w3 Hs _ IH]; intros Hr Hg; [done |].
  apply IH; [by eapply bl_ready_R | by eapply bl_granted_R].
Qed.

Lemma consumed_rtc w w' id : rtc R w w' → ready w → consumed w id → consumed w' id.
Proof.
  induction 1 as [| w1 w2 w3 Hs _ IH]; intros Hr Hg; [done |].
  apply IH; [by eapply bl_ready_R | by eapply bl_consumed_R].
Qed.

Lemma RR_rtc g g' :
  rtc RR g g' → ready (g_world g) ∧ sound g →
  rtc R (g_world g) (g_world g') ∧ ready (g_world g') ∧ sound g'.
Proof.
  induction 1 as [g | g1 g2 g3 Hs _ IH]; intros [Hr Hso]; [done |].
  destruct IH as (? & ? & ?).
  { split; [eapply ready_rtc; [by apply RR_world | done] | by eapply RR_sound]. }
  split_and!; [etrans; [by apply RR_world | done] | done | done].
Qed.

Lemma sound_G g w' : G (g_world g) w' → ready (g_world g) → sound g → sound (GWorld (g_cache g) w').
Proof. intros HG Hr Hs k e r He Hin Hst. eapply bl_granted_G; [done | done |]. by eapply Hs. Qed.

(** A broker call in the gate's world. *)
Lemma rg_at_broker {A} (p : prog W A) (Q : A → W → Prop) g :
  ready (g_world g) → sound g → rg R G Q p (g_world g) →
  rg RR GG (λ a g', ready (g_world g') ∧ sound g' ∧ Q a (g_world g')) (at_broker p) g.
Proof.
  revert g. induction p as [a | X f k IH]; intros g Hr Hs Hp; simpl in *.
  - intros g1 Hg1. destruct (RR_rtc _ _ Hg1 (conj Hr Hs)) as (Hw & Hr1 & Hs1). auto.
  - intros g1 Hg1. destruct (RR_rtc _ _ Hg1 (conj Hr Hs)) as (Hw & Hr1 & Hs1).
    destruct (Hp (g_world g1) Hw) as [HG Hk]. split; [by left |].
    apply IH; simpl; [by eapply bl_ready_G | by apply sound_G | done].
Qed.

Lemma rg_cache_act {A} (f : Cache → Cache * A) (Q : A → gworld W → Prop) g :
  ready (g_world g) → sound g →
  (∀ g1, rtc R (g_world g) (g_world g1) → ready (g_world g1) → sound g1 →
    sound_cache (g_world g1) (f (g_cache g1)).1) →
  (∀ g1 g2, rtc R (g_world g) (g_world g1) → ready (g_world g1) → sound g1 →
    rtc R (g_world g1) (g_world g2) → ready (g_world g2) → sound g2 → Q (f (g_cache g1)).2 g2) →
  rg RR GG Q (cache_act f) g.
Proof.
  intros Hr Hs Hf HQ. apply rg_act.
  - intros g1 Hg1. destruct (RR_rtc _ _ Hg1 (conj Hr Hs)) as (Hw1 & Hr1 & Hs1). right.
    split; [done |]. intros _. exact (Hf g1 Hw1 Hr1 Hs1).
  - intros g1 g2 Hg1 Hg2. destruct (RR_rtc _ _ Hg1 (conj Hr Hs)) as (Hw1 & Hr1 & Hs1).
    destruct (RR_rtc _ _ Hg2) as (Hw2 & Hr2 & Hs2); [split; [exact Hr1 | exact (Hf g1 Hw1 Hr1 Hs1)] |].
    exact (HQ g1 g2 Hw1 Hr1 Hs1 Hw2 Hr2 Hs2).
Qed.

(** ** The cache methods keep the cache sound *)

Lemma sound_shrinks w c c' :
  (∀ k e, pairs c' !! k = Some e → ∃ e0, pairs c !! k = Some e0 ∧ shrinks e0 e) →
  sound_cache w c → sound_cache w c'.
Proof. intros Hs Hc k e r He Hr Hst. destruct (Hs k e He) as (e0 & He0 & _ & _ & Hin). eauto. Qed.

Lemma sound_RecordSession now sid w c : sound_cache w c → sound_cache w (RecordSession now sid c).
Proof.
  intros Hc. unfold RecordSession. destruct (decide _); [done |].
  eapply (sound_shrinks w c); [| done]. intros k e. apply (evict_lookup now).
Qed.

Lemma sound_EvictIdle now w c : sound_cache w c → sound_cache w (EvictIdle now c).
Proof. apply sound_shrinks. intros k e. apply evict_lookup. Qed.

Lemma sound_Match now i sid tool args w c :
  sound_cache w c → sound_cache w (Match now i sid tool args c).1.
Proof.
  intros Hc k e r He Hr Hst. apply Match_lookup in He as (e0 & He0 & Hin).
  destruct (Hin r Hr) as (r0 & Hr0 & [-> | ->]); [by eapply Hc |].
  eapply bl_granted_content; [symmetry; apply reserve_content |]. eapply Hc; [done | done |].
  destruct (content_inj_fields _ _ (reserve_content r0)) as (_ & _ & _ & _ & Hst' & _). congruence.
Qed.

Lemma sound_setReservation i id b w c : sound_cache w c → sound_cache w (setReservation i id b c).
Proof.
  intros Hc. unfold setReservation. destruct (_ || _); [done |].
  destruct (pairs c !! key_of i) as [e0 |] eqn:He0; [| done].
  intros k e r. cbn [pairs set_pairs]. rewrite lookup_insert_Some.
  intros [[<- <-] | [_ He]] Hr Hst; [| by eapply Hc]. cbn [records set_records] in Hr.
  apply update_reservation_elem in Hr as [Hr | (r0 & Hr0 & _ & ->)]; [by eapply Hc |].
  eapply (bl_granted_content w _ r0); [done |]. by eapply Hc.
Qed.

(** Every record of the answer is granted. *)
Definition granted_pairs (w : W) (l : list Pair) : Prop :=
  ∀ q r, q ∈ l → r ∈ p_Approvals q → r_Status r = "approved" → granted w (key_of (p_Identity q)) r.

Lemma sound_replacement keep now l w c c' :
  sound_cache w c → granted_pairs w l →
  (∀ k e, pairs c' !! k = Some e →
    pairs c !! k = Some e ∨ replacement keep (pairs c) now l !! k = Some e) →
  sound_cache w c'.
Proof.
  intros Hc Hl Hc' k e r He Hr Hst. destruct (Hc' k e He) as [He' | He']; [by eapply Hc |].
  apply replacement_lookup in He' as (p & Hp & _ & <- & ->). simpl in Hr. unfold snapshotRecords in Hr.
  apply list_elem_of_fmap in Hr as (r0 & -> & Hr0).
  eapply bl_granted_content; [symmetry; apply carry_flags_content |]. apply Hl; [done | done |].
  destruct (content_inj_fields _ _ (carry_flags_content r0 (match pairs c !! key_of (p_Identity p) with
    | Some e => records e | None => [] end))) as (_ & _ & _ & _ & Hst' & _). congruence.
Qed.

(** ** Evaluate *)

(** What a tool call that proceeds relies on. *)
Definition authorised (invocation : Invocation) (w : W) : Prop :=
  ∃ r, granted w (key_of (inv_Identity invocation)) r ∧
    usable (inv_AgentSessionID invocation) (inv_ToolName invocation) (inv_Arguments invocation)
      (set_flags r false false) ∧
    (r_Persistence r = Some "once" → consumed w (r_ID r)).

(** What the gate knows of a record [Match] answered with. *)
Definition matched_fact (invocation : Invocation) (r : CRecord) (w : W) : Prop :=
  r_Status r ≠ "denied" →
  granted w (key_of (inv_Identity invocation)) r ∧
  usable (inv_AgentSessionID invocation) (inv_ToolName invocation) (inv_Arguments invocation)
    (set_flags r false false).

Lemma authorised_rtc invocation w w' :
  rtc R w w' → ready w → authorised invocation w → authorised invocation w'.
Proof.
  intros Hw Hr (r & Hg & Hu & Hc). exists r. split_and!; [by eapply granted_rtc | done |].
  intros Hp. eapply consumed_rtc; [exact Hw | done | by apply Hc].
Qed.

Lemma matchable_clear sid r : matchable sid r = true → matchable sid (set_flags r false false) = true.
Proof.
  unfold matchable. destruct (r_Consumed r) eqn:Hc; [by rewrite !orb_true_r |].
  destruct (r_reserved r) eqn:Hr; [by rewrite !orb_true_r |]. done.
Qed.

Lemma matchable_approved sid r : matchable sid r = true → r_Status r = "approved".
Proof.
  unfold matchable. case_bool_decide; [done |]. case_bool_decide; [done |]. by case_bool_decide.
Qed.

Abbreviation Qproceed inv := (λ o g', Proceed o = true → authorised inv (g_world g')).

Lemma rg_lookup_cache now invocation g :
  ready (g_world g) → sound g →
  rg RR GG (λ m g', ready (g_world g') ∧ sound g' ∧ (free (g_world g) → free (g_world g')) ∧
      ∀ r, m = Some r → matched_fact invocation r (g_world g')) (lookup_cache now invocation) g.
Proof.
  intros Hr Hs. apply rg_cache_act; [done | done | intros; by apply sound_Match |].
  intros g1 g2 Hw1 Hr1 Hs1 Hw Hr2 Hs2. split_and!; [done | done | |].
  { by apply (free_rtc2 _ _ _ Hw1 Hw). }
  intros r Hm Hst.
  pose proof (Match_decision now (inv_Identity invocation) (inv_AgentSessionID invocation)
    (inv_ToolName invocation) (inv_Arguments invocation) (g_cache g1)) as Hd.
  rewrite Hm in Hd. destruct Hd as (_ & e & He & _ & r0 & Hr0 & Hcase).
  apply evict_lookup in He as (e0 & He0 & _ & _ & Hsub).
  destruct Hcase as [[Hden ->] | (_ & [Hmat Hcov] & -> & _)].
  { unfold denies in Hden. breflect. done. }
  destruct (content_inj_fields _ _ (reserve_content r0)) as (_ & _ & Ht & Hp & Hst' & _).
  split.
  - eapply granted_rtc; [exact Hw | done |]. eapply bl_granted_content; [symmetry; apply reserve_content |].
    eapply Hs1; [done | by apply Hsub |]. by eapply matchable_approved.
  - split.
    + change (matchable (inv_AgentSessionID invocation) (content (reserve r0)) = true).
      rewrite reserve_content. by apply matchable_clear.
    + unfold record_covers in *. simpl. by rewrite Ht, Hp.
Qed.

Lemma rg_enforce invocation record g :
  ready (g_world g) → sound g → matched_fact invocation record (g_world g) →
  rg RR GG (Qproceed invocation) (enforceDecision B invocation record) g.
Proof.
  intros Hr Hs Hm. unfold enforceDecision. destruct (decide _) as [| Hst]; [done |].
  destruct (Hm Hst) as [Hg Hu]. destruct (decide _) as [Hp |].
  { intros g1 Hg1 _. destruct (RR_rtc _ _ Hg1 (conj Hr Hs)) as (Hw & Hr1 & Hs1).
    exists record. split_and!; [by eapply granted_rtc | done | done]. }
  eapply (rg_pbind _ _ (λ res g', ready (g_world g') ∧ sound g' ∧
    (res = Ok () → consumed (g_world g') (r_ID record)) ∧ granted (g_world g') (key_of (inv_Identity invocation)) record)).
  - eapply rg_impl; [| eapply (rg_at_broker _ (λ res w', (res = Ok () → consumed w' (r_ID record)) ∧
      granted w' (key_of (inv_Identity invocation)) record)); [done | done |]].
    { naive_solver. }
    pose proof (bl_Consume (BrokerLaws := laws) (inv_SubjectToken invocation) (r_ID record) (g_world g) Hr) as HC.
    revert HC Hg Hr. generalize (br_Consume B (inv_SubjectToken invocation) (r_ID record)). intros p.
    generalize (g_world g). clear Hs Hm Hu g. induction p as [a | X f k IH]; intros w HC Hg Hr; simpl in *.
    + intros w1 Hw1. split; [by apply HC | by eapply granted_rtc].
    + intros w1 Hw1. destruct (HC w1 Hw1) as [HG Hk]. split; [done |].
      apply IH; [done | | eapply bl_ready_G; [done | by eapply ready_rtc]].
      eapply bl_granted_G; [done | by eapply ready_rtc | by eapply granted_rtc].
  - intros [[] | err] g1 (Hr1 & Hs1 & Hc1 & Hg1).
    + eapply (rg_pbind _ _ (λ _ g', ready (g_world g') ∧ sound g' ∧ authorised invocation (g_world g'))).
      * apply rg_cache_act; [done | done | intros; by apply sound_setReservation |].
        intros g2 g3 Hw2 Hr2 Hs2 Hw3 Hr3 Hs3. split_and!; [done | done |].
        eapply authorised_rtc; [exact Hw3 | done |]. eapply authorised_rtc; [exact Hw2 | done |].
        exists record. auto.
      * intros _ g2 (Hr2 & Hs2 & Ha2) g3 Hg3 _. destruct (RR_rtc _ _ Hg3 (conj Hr2 Hs2)) as (Hw & _).
        by eapply authorised_rtc.
    + eapply (rg_pbind _ _ (λ _ _, True)); [| done].
      apply rg_cache_act; [done | done | intros; by apply sound_setReservation | done].
Qed.

Lemma rg_Evaluate configured clock invocation g :
  ready (g_world g) → free (g_world g) → sound g →
  rg RR GG (Qproceed invocation) (Evaluate B configured clock invocation) g.
Proof.
  intros Hr Hf Hs. unfold Evaluate. destruct (negb configured); [done |].
  destruct (negb _); [done |]. destruct (decide _); [done |].
  eapply (rg_pbind _ _ (λ _ g', ready (g_world g') ∧ free (g_world g') ∧ sound g')).
  { apply rg_cache_act; [done | done | intros; by apply sound_RecordSession |].
    intros g1 g2 Ha ?? Hb ??. split_and!; [done | by apply (free_rtc2 _ _ _ Ha Hb) | done]. }
  intros _ g1 (Hr1 & Hf1 & Hs1).
  eapply rg_pbind; [by apply rg_lookup_cache |]. intros [r |] g2 (Hr2 & Hs2 & Hf2 & Hm2);
    [apply rg_enforce; [done | done | by apply Hm2] |].
  eapply (rg_pbind _ _ (λ _ g', ready (g_world g') ∧ free (g_world g') ∧ sound g')).
  { apply rg_cache_act; [done | done | done |].
    intros g3 g4 Ha ?? Hb ??. split_and!; [done | by apply (free_rtc2 _ _ _ Ha Hb), Hf2 | done]. }
  intros sids g3 (Hr3 & Hf3 & Hs3).
  eapply rg_pbind; [eapply rg_at_broker; [done | done | by apply bl_Read] |].
  intros [[l tag] | err] g4 (Hr4 & Hs4 & Hf4 & Hl); [| by destruct (isRateLimited err)].
  specialize (Hl l tag eq_refl).
  eapply (rg_pbind _ _ (λ _ g', ready (g_world g') ∧ free (g_world g') ∧ sound g')).
  { apply rg_cache_act; [done | done | |
      intros g5 g6 Ha ?? Hb ??; split_and!; [done | by apply (free_rtc2 _ _ _ Ha Hb) | done]].
    intros g5 Hw5 Hr5 Hs5.
    eapply sound_replacement; [exact Hs5 | | intros k e; apply ReplaceForPrincipal_lookup].
    intros q r Hq Hrq Hst. eapply granted_rtc; [exact Hw5 | done |]. by apply Hl. }
  intros [] g5 (Hr5 & Hf5 & Hs5); [| done]. cbn [negb].
  eapply rg_pbind; [by apply rg_lookup_cache |]. intros [r |] g6 (Hr6 & Hs6 & Hf6 & Hm6);
    [apply rg_enforce; [done | done | by apply Hm6] |].
  unfold initiate. eapply rg_pbind; [eapply rg_at_broker; [done | done | apply bl_Create; auto] |].
  intros [url | err] g7 _; [by destruct (decide _) | by destruct (isRateLimited err)].
Qed.

(** A sync round keeps the cache sound. *)
Lemma rg_sync_round poll now g :
  (∀ sids tag w, ready w → free w → rg R G (λ res w', ∀ l tag' b, res = Ok (l, tag', b) → granted_pairs w' l)
    (poll sids tag) w) →
  ready (g_world g) → free (g_world g) → sound g →
  rg RR GG (λ _ _, True) (sync_round poll now) g.
Proof.
  intros Hpoll Hr Hf Hs. unfold sync_round.
  eapply (rg_pbind _ _ (λ _ g', ready (g_world g') ∧ free (g_world g') ∧ sound g')).
  { apply rg_cache_act; [done | done | done |].
    intros g1 g2 Ha ?? Hb ??. split_and!; [done | by apply (free_rtc2 _ _ _ Ha Hb) | done]. }
  intros sids g1 (Hr1 & Hf1 & Hs1).
  eapply (rg_pbind _ _ (λ _ g', ready (g_world g') ∧ free (g_world g') ∧ sound g')).
  { apply rg_cache_act; [done | done | done |].
    intros g2 g3 Ha ?? Hb ??. split_and!; [done | by apply (free_rtc2 _ _ _ Ha Hb) | done]. }
  intros tag g2 (Hr2 & Hf2 & Hs2).
  eapply rg_pbind; [eapply rg_at_broker; [done | done | by apply Hpoll] |].
  intros [[[l tag'] unchanged] | err] g3 (Hr3 & Hs3 & Hl); [| done].
  specialize (Hl l tag' unchanged eq_refl).
  eapply (rg_pbind _ _ (λ _ _, True)); [| done].
  apply rg_cache_act; [done | done | | done]. intros g4 Hw4 Hr4 Hs4. destruct unchanged; cbn [fst].
  - unfold MarkSynced. repeat split_match; exact Hs4.
  - eapply sound_replacement; [exact Hs4 | | intros k e; apply Replace_lookup].
    intros q r Hq Hrq Hst. eapply granted_rtc; [exact Hw4 | done |]. by apply Hl.
Qed.

End gate.

(** ** Backoff *)

Lemma next_backoff_exact n :
  (0 ≤ n)%Z →
  next_backoff (Z.min (2 ^ n * second) maximumBackoff) false = Z.min (2 ^ (n + 1) * second) maximumBackoff.
Proof.
  intros Hn. unfold next_backoff. rewrite Z.pow_add_r, Z.pow_1_r by lia.
  assert (int64_wrap (Z.min (2 ^ n * second) maximumBackoff * 2) = Z.min (2 ^ n * second) maximumBackoff * 2)%Z as ->.
  { unfold int64_wrap, maximumBackoff, second. rewrite Z.mod_small; [lia |].
    pose proof (Z.pow_nonneg 2 n). lia. }
  unfold maximumBackoff, second. pose proof (Z.pow_nonneg 2 n). lia.
Qed.

Lemma next_backoff_range b ok :
  (second ≤ b ≤ maximumBackoff)%Z → (second ≤ next_backoff b ok ≤ maximumBackoff)%Z.
Proof.
  unfold next_backoff, int64_wrap, maximumBackoff, second. intros Hb.
  destruct ok; [lia |]. rewrite Z.mod_small; lia.
Qed.

(** Exponential backoff.  After [n] failed rounds since the start or
    since the last success, the syncer waits 2^n seconds, at most a minute; so
    it always waits between one second and one minute. *)
Theorem backoff_exponential (before : list bool) (n : nat) :
  backoff_after (before ++ [true] ++ repeat false n) = Z.min (2 ^ Z.of_nat n * second) maximumBackoff ∧
  backoff_after (repeat false n) = Z.min (2 ^ Z.of_nat n * second) maximumBackoff ∧
  (second ≤ backoff_after before ≤ maximumBackoff)%Z.
Proof.
  assert (∀ n, foldl next_backoff second (repeat false n) = Z.min (2 ^ Z.of_nat n * second) maximumBackoff) as Hn.
  { intros m. induction m as [| m IH]; [done |].
    rewrite <-(Nat.add_1_r m), repeat_app, foldl_app, IH. cbn [repeat foldl].
    rewrite next_backoff_exact by lia. by rewrite Nat2Z.inj_add. }
  unfold backoff_after. split; [by rewrite !foldl_app | split; [done |]].
  induction before as [| b l IH] using rev_ind; [done |]. rewrite foldl_app. by apply next_backoff_range.
Qed.
