(* ===== verification/ApprovalSystem.v ===== *)
(** * The approval system, end to end

    Gateway and broker together: any number of tool calls evaluated by the
    gate, sync rounds and user requests, interleaved arbitrarily.  The approval
    service discharges the broker interface of ApprovalGateFacts.v, and a tool
    call that proceeds turns out to rest on a row of the broker's store that
    its user approved. *)

From S2P Require Import Prelude ToolPattern Precedence ToolApproval ApprovalStore ApprovalMemory SyncBroadcaster ApprovalService ApprovalConcurrency ApprovalHandlers ApprovalCache ApprovalCacheFacts ApprovalGate ApprovalGateFacts.

(** ** Grants *)

Section grants.
Context `{GoFloat}.
Implicit Types (m : approval_map) (a b : ToolApproval).

(** The row behind an approved record: decided, of the pair's principal and
    agent, with the record's patterns and approval time; its persistence is the
    record's, or none after a revocation. *)
Definition grant_of (k : string * string) (r : CRecord) a : Prop :=
  (Prin a, AgentId a) = k ∧ Status a ≠ Pending ∧ ApprovedAt a = r_ApprovedAt r ∧
  ToolPattern a = r_ToolPattern r ∧
  default ∅ (ParamsPattern a) = default ∅ (r_ParamsPattern r) ∧
  ∀ p, Persistence a = Some p → r_Persistence r = Some (persistence_text p).

Definition grant_row m (k : string * string) (r : CRecord) : Prop :=
  ∃ a, m !! r_ID r = Some a ∧ grant_of k r a.

Lemma grant_of_step k r a b : approval_step a b → grant_of k r a → grant_of k r b.
Proof.
  intros Hs (Hk & Hst & Hat & Htp & Hpp & Hper).
  destruct Hs as [a d now at_ Hact _ _ | a p now at_ Hact | a at_ _ | a at_ _ | a now Ho _].
  - apply IsActionable_true in Hact as [? _]. done.
  - apply IsActionable_true in Hact as [? _]. done.
  - split_and!; done.
  - unfold apply_consumption. destruct (Consumed a); split_and!; done.
  - unfold open_pending in Ho. breflect. done.
Qed.

Lemma grant_of_rtc k r a b : rtc approval_step a b → grant_of k r a → grant_of k r b.
Proof. induction 1; eauto using grant_of_step. Qed.

Lemma grant_row_step m m' k r : rows_step m m' → grant_row m k r → grant_row m' k r.
Proof.
  intros Hs (a & Ha & Hg). destruct (Hs _ _ Ha) as (b & Hb & [-> | Hab]); [by exists a |].
  exists b. split; [done | by eapply grant_of_step].
Qed.

Lemma grant_of_content k r r' a : content r = content r' → grant_of k r a → grant_of k r' a.
Proof.
  intros (_ & _ & Ht & Hp & _ & Hpe & _ & Hat)%content_inj_fields. unfold grant_of.
  by rewrite Ht, Hp, Hpe, Hat.
Qed.

(** An approved row, as the sync handler reports it, is a grant. *)
Lemma toSummary_grant a :
  r_Status (record_of (toSummary a)) = "approved" →
  grant_of (Prin a, AgentId a) (record_of (toSummary a)) a.
Proof.
  simpl. intros Hst. assert (Status a = Approved) as E by (by destruct (Status a)).
  unfold grant_of. simpl. rewrite E. split_and!; try done. by intros p ->.
Qed.

Definition consumed_row m (id : ApprovalID) : Prop := ∃ a, m !! id = Some a ∧ Consumed a = true.

Lemma consumed_row_step m m' id : rows_step m m' → consumed_row m id → consumed_row m' id.
Proof.
  intros Hs (a & Ha & Hc). destruct (Hs _ _ Ha) as (b & Hb & Hab). exists b. split; [done |].
  destruct Hab as [-> | Hab]; [done |]. eapply (ev_consumed a b); [| done].
  by apply rtc_evolves, rtc_once.
Qed.

End grants.

(** Grouping loses and invents nothing. *)
Lemma group_pairs_elem `{GoFloat} l k v (a : ToolApproval) :
  group_pairs l !! k = Some v → a ∈ v → a ∈ l ∧ (Prin a, AgentId a) = k.
Proof.
  revert k v. unfold group_pairs. induction l as [| b l IH] using rev_ind; intros k v; [done |].
  rewrite foldl_app. cbn [foldl]. rewrite lookup_insert_Some.
  intros [[<- <-] | [_ Hv]] Ha.
  - apply elem_of_app in Ha as [Ha | ->%list_elem_of_singleton]; [| set_solver].
    destruct (foldl _ ∅ l !! (Prin b, AgentId b)) as [v |] eqn:E; simpl in Ha; [| by apply not_elem_of_nil in Ha].
    destruct (IH _ _ E Ha). set_solver.
  - destruct (IH _ _ Hv Ha). set_solver.
Qed.

(** ** The service as a broker *)

Section service.
Context `{GoHash} `{TokenBucket} `{UUID} `{!ApprovalStore St} `{!ApprovalStoreLaws (St := St)}.
Context (cc : client_config) (cfg : service_config) (nid : ApprovalID).
Implicit Types (w : world St) (e : env).

Abbreviation vw w := (view (w_store w)).
Abbreviation Own := (G (St := St) nid).

(** The steps of requests that generated another id. *)
Definition Others w w' : Prop := ∃ nid', nid' ≠ nid ∧ view_step nid' (vw w) (vw w').

Definition Ready w : Prop := store_inv (vw w).
Definition Free w : Prop := vw w !! nid = None.
Definition Granted w (k : string * string) (r : CRecord) : Prop := grant_row (vw w) k r.
Definition ConsumedId w (s : string) : Prop := ∃ id, uuid_Parse s = Some id ∧ consumed_row (vw w) id.

Lemma Others_rows w w' : Others w w' → rows_step (vw w) (vw w').
Proof. intros (nid' & _ & Hs). by eapply view_step_rows. Qed.

Lemma Others_free w w' : Others w w' → vw w !! nid = None → vw w' !! nid = None.
Proof. intros (nid' & Hne & Hs). by eapply view_step_None. Qed.

(** An action that leaves the rows alone. *)
Lemma rg_same {X} (f : world St → world St * X) (Q : X → world St → Prop) w :
  (∀ w1, vw (f w1).1 = vw w1) →
  (∀ w1 w2, rtc Others w w1 → rtc Others (f w1).1 w2 → Q (f w1).2 w2) →
  rg Others Own Q (act f) w.
Proof. intros Hf HQ. apply rg_act; [| done]. intros w1 _. unfold G. rewrite Hf. constructor. Qed.

(** A property of the rows that others' steps keep. *)
Definition kept (P : approval_map → Prop) : Prop := ∀ w w', Others w w' → P (vw w) → P (vw w').

Lemma kept_rtc P w w' : kept P → rtc Others w w' → P (vw w) → P (vw w').
Proof. intros HP. induction 1; eauto. Qed.

Lemma rg_keeps {X} P (f : world St → world St * X) w :
  kept P → (∀ w1, vw (f w1).1 = vw w1) → P (vw w) → rg Others Own (λ _ w', P (vw w')) (act f) w.
Proof.
  intros HP Hf Hw. apply rg_same; [done |]. intros w1 w2 Hx1 Hx2.
  eapply kept_rtc; [done | exact Hx2 |]. rewrite Hf. by eapply kept_rtc.
Qed.

Lemma kept_ret {X} P (x : X) w : kept P → P (vw w) → rg Others Own (λ _ w', P (vw w')) (Ret x) w.
Proof. intros HP Hw w1 Hx1. by eapply kept_rtc. Qed.

Lemma kept_rows P : (∀ m m', rows_step m m' → P m → P m') → kept P.
Proof. intros HP w w' Hs. apply HP. by apply Others_rows. Qed.

Lemma kept_consumed id : kept (λ m, consumed_row m id).
Proof. apply kept_rows. intros m m'. apply consumed_row_step. Qed.

(** [syncApprovalMutation] leaves the rows alone. *)
Lemma rg_sync_keeps P now w :
  kept P → P (vw w) → rg Others Own (λ _ w', P (vw w')) (syncApprovalMutation now) w.
Proof.
  intros HP Hw. unfold syncApprovalMutation, broadcast.
  assert (∀ w, P (vw w) → rg Others Own (λ _ w', P (vw w')) (pbind (act (λ w : world St,
    (World (w_store w) (Broadcast now <$> w_bcast w) (w_limiter w), ())))
    (λ _ : (), Ret (Ok (E := service_error) ()))) w) as Hb.
  { intros w0 Hw0. eapply rg_pbind; [by apply rg_keeps |]. intros ? w1 Hw1. by apply kept_ret. }
  destruct MutationsSyncAtomically; [by apply Hb |].
  eapply (rg_pbind _ _ (λ _ w', P (vw w'))).
  - unfold store_act. apply rg_keeps; [done | | done]. intros w1.
    destruct (law_Increment (w_store w1)) as [Hv _]. by destruct (st_IncrementVersion (w_store w1)).
  - intros [v | k] w1 Hw1; [by apply Hb | by apply kept_ret].
Qed.

(** What a successful consumption leaves behind. *)
Definition consumed_result (id : ApprovalID) (r : result service_error ToolApproval) w : Prop :=
  match r with Ok _ => consumed_row (vw w) id | Err _ => True end.

Lemma ret_consumed id a w :
  consumed_row (vw w) id → rg Others Own (consumed_result id) (Ret (Ok a)) w.
Proof. intros Hc w1 Hw1. simpl. eapply (kept_rtc _ _ _ (kept_consumed id)); done. Qed.

Lemma row_from_consumed id a w : row_from id a w → Consumed a = true → consumed_row (vw w) id.
Proof.
  intros (b & Hb & Hs) Hc. exists b. split; [done |].
  eapply (ev_consumed a b); [by apply rtc_evolves | done].
Qed.

Lemma rg_get_row id w :
  rg Others Own (λ r w1, ∀ a, r = Ok a → row_from id a w1) (get_approval id) w.
Proof.
  apply (rg_get nid Others Others_rows); [done |]. by intros a w1 Hr b [= <-].
Qed.

Lemma rg_Consume_consumed e id p w :
  rg Others Own (consumed_result id) (ConsumeApproval e id p) w.
Proof.
  eapply rg_pbind; [apply rg_get_row |].
  intros [a | err] w1 Ha; [specialize (Ha a eq_refl) | done].
  destruct (negb _); [done |]. destruct (Consumed a) eqn:Hc.
  { by eapply ret_consumed, row_from_consumed. }
  destruct (negb (consumable a)); [done |].
  eapply (rg_pbind _ _ (λ r w', ∀ x, r = Ok x → consumed_row (vw w') id)).
  - apply rg_act.
    + intros w2 _. unfold G. pose proof (law_Consume id (clk e 0) (w_store w2)) as Hl.
      cbv zeta in Hl. destruct (st_Consume id (clk e 0) (w_store w2)) as [s' res]. simpl in *.
      eapply guarded_update_view; [| exact Hl]. intros b _ Hg.
      split; [by eapply step_consume |]. apply consumable_true in Hg as [Hs _].
      unfold apply_consumption, open_pending. destruct (Consumed b); simpl; by rewrite Hs.
    + intros w2 w3 _ Hr x. pose proof (law_Consume id (clk e 0) (w_store w2)) as Hl.
      cbv zeta in Hl. destruct (st_Consume id (clk e 0) (w_store w2)) as [s' res]. simpl in *.
      intros ->. eapply (kept_rtc _ _ _ (kept_consumed id) Hr). simpl.
      destruct Hl as [(b & _ & _ & -> & _) | [(_ & _ & [? | [_ ?]]) | (_ & k & ? & _)]]; try done.
      eexists. rewrite lookup_insert_eq. split; [done |]. unfold apply_consumption.
      by destruct (Consumed b) eqn:?.
  - intros [a' | k] w2 Hw2.
    + eapply rg_pbind; [eapply (rg_sync_keeps _ _ _ (kept_consumed id)); by eapply Hw2 |].
      intros [[] | err] w3 Hw3; [by apply ret_consumed | done].
    + destruct k; try done. eapply rg_pbind; [apply rg_get_row |].
      intros [b | err] w3 Hb; [specialize (Hb b eq_refl) | done].
      destruct (negb _); [done |]. destruct (Consumed b) eqn:Hcb; [| done].
      by eapply ret_consumed, row_from_consumed.
Qed.

Lemma rg_client_Consume e tok s w :
  rg Others Own (λ res w', res = Ok () → ConsumedId w' s) (client_Consume cc e tok s) w.
Proof.
  unfold client_Consume. destruct (decide _); [done |]. destruct (decide _); [done |].
  eapply (rg_pbind _ _ (λ resp w', resp_status resp = StatusOK → ConsumedId w' s)).
  - unfold ConsumeHandler, with_approval. destruct (token_principal cc tok) as [p |]; [| done].
    destruct (decide _); [done |]. destruct (uuid_Parse s) as [id |] eqn:Hid; [| done].
    eapply rg_pbind; [apply rg_Consume_consumed |].
    intros [a | err] w1 Hw1; [| by destruct err]. intros w2 Hw2 _. exists id. split; [done |].
    by eapply (kept_rtc _ _ _ (kept_consumed id)).
  - intros resp w1 Hw1. destruct (decide _) as [Hok |]; [| done]. intros w2 Hw2 _.
    destruct (Hw1 Hok) as (id & Hid & Hc). exists id. split; [done |].
    by eapply (kept_rtc _ _ _ (kept_consumed id)).
Qed.

(** *** Reading *)

(** Rows a query has seen. *)
Definition seen (l : list ToolApproval) w : Prop := ∀ a, a ∈ l → row_from (ID a) a w.

Lemma seen_rtc l w w' : rtc Others w w' → seen l w → seen l w'.
Proof. intros Hr Hs a Ha. eapply (row_from_stable Others Others_rows); [exact Hr | by apply Hs]. Qed.

Lemma kept_store_inv : kept store_inv.
Proof. intros w w' (nid' & _ & Hs). by eapply view_step_inv. Qed.

Lemma kept_free : kept (λ m, m !! nid = None).
Proof. intros w w'. apply Others_free. Qed.

Lemma kept_start : kept (λ m, store_inv m ∧ m !! nid = None).
Proof. intros w w' Hs [Hi Hf]. split; [by eapply kept_store_inv | by eapply kept_free]. Qed.

Abbreviation start w := (store_inv (vw w) ∧ vw w !! nid = None).

Definition state_seen (r : result service_error SyncState) w : Prop :=
  ∀ st, r = Ok st → ∃ l, sync_Pairs st = sync_pairs l ∧ seen l w.

Lemma rg_GetSyncState_seen e p sids w :
  valid_order (iter e) → start w →
  rg Others Own (λ r w', start w' ∧ state_seen r w') (GetSyncState e p sids) w.
Proof.
  intros Hv Hw. eapply rg_pbind; [by apply (rg_keeps _ _ _ kept_start) |].
  intros [v | k] w1 Hw1; [| intros w2 Hw2; split; [by eapply (kept_rtc _ _ _ kept_start) | by intros st]].
  eapply (rg_pbind _ _ (λ r w', start w' ∧ ∀ l, r = Ok l → seen l w')).
  - apply rg_same; [done |]. intros w2 w3 Hx2 Hx3. simpl in Hx3 |- *.
    pose proof (kept_rtc _ _ _ kept_start Hx2 Hw1) as Hw2.
    split; [by apply (kept_rtc _ _ _ kept_start Hx3) |]. intros l Hl.
    eapply seen_rtc; [exact Hx3 |]. intros a Ha.
    destruct (law_ListAllActive (iter e) (clk e 0) p sids (w_store w2) Hv) as [(l' & Hl' & Hp) | (k & Hk)];
      [| congruence].
    rewrite Hl' in Hl. injection Hl as <-. rewrite Hp in Ha.
    apply list_elem_of_filter in Ha as [_ Ha]. apply list_elem_of_fmap in Ha as ([id b] & -> & Hb).
    apply elem_of_map_to_list in Hb. destruct Hw2 as [[Hwf _] _]. destruct (Hwf id b Hb) as [Hid _].
    exists b. simpl. by rewrite Hid.
  - intros [l | k] w2 [Hw2 Hl] w3 Hw3; (split; [by eapply (kept_rtc _ _ _ kept_start) |]); [| by intros st].
    intros st [= <-]. exists l. split; [done |]. eapply seen_rtc; [exact Hw3 | by apply Hl].
Qed.

(** Everything approved in a sync body is granted. *)
Definition body_granted (resp : response) w : Prop :=
  ∀ tag l, resp_body resp = BSync tag l →
  ∀ p s, p ∈ l → s ∈ srp_Approvals p → r_Status (record_of s) = "approved" →
    Granted w (srp_Principal p, srp_AgentID p) (record_of s).

Abbreviation Qsync := (λ resp w', start w' ∧ body_granted resp w').

Lemma body_granted_rtc resp w w' : rtc Others w w' → body_granted resp w → body_granted resp w'.
Proof.
  intros Hr Hb tag l Hl p s Hp Hs Hst.
  eapply (kept_rtc (λ m, grant_row m _ _)); [| exact Hr | by eapply Hb].
  apply kept_rows. intros m m'. apply grant_row_step.
Qed.

Lemma rg_ret_sync resp w : start w → body_granted resp w → rg Others Own Qsync (Ret resp) w.
Proof.
  intros Hw Hb w1 Hw1. split; [by eapply (kept_rtc _ _ _ kept_start) | by eapply body_granted_rtc].
Qed.

Lemma rg_ret_other resp w :
  (∀ tag l, resp_body resp ≠ BSync tag l) → start w → rg Others Own Qsync (Ret resp) w.
Proof. intros Hn Hw. apply rg_ret_sync; [done |]. intros tag l Hl. by destruct (Hn tag l). Qed.

Lemma rg_sync_reply e p sids w :
  valid_order (iter e) → start w → rg Others Own Qsync (sync_reply e p sids) w.
Proof.
  intros Hv Hw. eapply rg_pbind; [by apply rg_GetSyncState_seen |].
  intros [st | err] w1 [Hw1 Hst]; [| by apply rg_ret_other].
  destruct (Hst st eq_refl) as (l & Hl & Hseen). apply rg_ret_sync; [done |].
  intros tag ps [= _ <-] q s Hq Hs Happ. rewrite Hl in Hq. unfold sync_pairs in Hq.
  rewrite map_map in Hq. apply list_elem_of_fmap in Hq as ([k v] & -> & Hkv).
  apply elem_of_map_to_list in Hkv. simpl in Hs. apply list_elem_of_fmap in Hs as (a & -> & Ha).
  destruct (group_pairs_elem _ _ _ _ Hkv Ha) as [Hal <-].
  destruct (Hseen a Hal) as (b & Hb & Hab). exists b. split; [done |].
  eapply grant_of_rtc; [exact Hab |]. by apply toSummary_grant.
Qed.

Lemma rg_unsubscribe ch resp w :
  start w → body_granted resp w → rg Others Own Qsync (unsubscribe ch resp) w.
Proof.
  intros Hw Hb. apply rg_same; [done |]. intros w1 w2 Hx1 Hx2. split.
  - eapply (kept_rtc _ _ _ kept_start Hx2). simpl. by eapply (kept_rtc _ _ _ kept_start).
  - eapply body_granted_rtc; [exact Hx2 |]. exact (body_granted_rtc _ _ _ Hx1 Hb).
Qed.

Lemma rg_SyncHandler e wait p sids tag w :
  valid_order (iter e) → start w → rg Others Own Qsync (SyncHandler true e wait p sids tag) w.
Proof.
  intros Hv Hw. unfold SyncHandler. cbn [negb].
  destruct (client_version tag) as [cv |]; [| by apply rg_sync_reply].
  assert (∀ resp, (∀ tag l, resp_body resp ≠ BSync tag l) → ∀ w, body_granted resp w) as Hno.
  { intros resp Hn w0 tag' l Hl. by destruct (Hn tag' l). }
  eapply (rg_pbind _ _ (λ _ w', start w')).
  { apply (rg_keeps _ _ _ kept_start); [| done]. intros w1. destruct (w_bcast w1) as [b |]; [| done].
    by destruct (Subscribe b). }
  intros [ch |] w1 Hw1.
  - eapply (rg_pbind _ _ (λ _ w', start w')).
    { eapply rg_pbind; [by apply (rg_keeps _ _ _ kept_start) |].
      intros [v | k] w2 Hw2; by apply (kept_ret _ _ _ kept_start). }
    intros [v | err] w2 Hw2; [| apply rg_unsubscribe; [done | by apply Hno]].
    destruct (decide _).
    + destruct wait; [| apply rg_unsubscribe; [done | by apply Hno] ..].
      eapply (rg_pbind _ _ (λ _ w', start w')); [by apply (rg_keeps _ _ _ kept_start) |].
      intros [] w3 Hw3. eapply rg_pbind; [by apply rg_sync_reply |].
      intros resp w4 [Hw4 Hb]. by apply rg_unsubscribe.
    + eapply rg_pbind; [by apply rg_sync_reply |]. intros resp w4 [Hw4 Hb]. by apply rg_unsubscribe.
  - eapply (rg_pbind _ _ (λ _ w', start w')).
    { eapply rg_pbind; [by apply (rg_keeps _ _ _ kept_start) |].
      intros [v | k] w2 Hw2; by apply (kept_ret _ _ _ kept_start). }
    intros [v | err] w2 Hw2; [| by apply rg_ret_other].
    destruct (decide _); [by apply rg_ret_other | by apply rg_sync_reply].
Qed.

(** The client passes on only what was sent. *)
Lemma client_pairs_elem l ps q r :
  client_pairs l = Some ps → q ∈ ps → r ∈ p_Approvals q →
  ∃ p s, p ∈ l ∧ s ∈ srp_Approvals p ∧ r = record_of s ∧ key_of (p_Identity q) = (srp_Principal p, srp_AgentID p).
Proof.
  revert ps. induction l as [| p l IH]; intros ps; simpl.
  { intros [= <-] Hq. by apply not_elem_of_nil in Hq. }
  destruct (Valid _); [| done]. destruct (client_pairs l) as [ps' |]; [| done].
  intros [= <-] Hq Hr. apply elem_of_cons in Hq as [-> | Hq].
  - simpl in Hr. apply list_elem_of_fmap in Hr as (s & -> & Hs). exists p, s. set_solver.
  - destruct (IH ps' eq_refl Hq Hr) as (p' & s & ? & ? & ? & ?). exists p', s. set_solver.
Qed.

Lemma client_read_granted tag resp l tag' b w :
  client_read tag resp = Ok (l, tag', b) → body_granted resp w → granted_pairs Granted w l.
Proof.
  unfold client_read. intros Hc Hb. destruct (decide _).
  { destruct (decide _); [done |]. injection Hc as <- _ _. intros q r Hq. by apply not_elem_of_nil in Hq. }
  destruct (decide _); [done |]. destruct (resp_body resp) as [ | | | | | | | | | | tg ps] eqn:Hbody; try done.
  destruct (decide _); [done |]. destruct (client_pairs ps) as [ps' |] eqn:Hps; [| done].
  injection Hc as <- _ _. intros q r Hq Hr Hst.
  destruct (client_pairs_elem _ _ _ _ Hps Hq Hr) as (p & s & Hp & Hs & -> & ->). by eapply Hb.
Qed.

Lemma rg_read_request e wait p sids tag w :
  valid_order (iter e) → start w →
  rg Others Own (λ res w', start w' ∧ ∀ l tag' b, res = Ok (l, tag', b) → granted_pairs Granted w' l)
    (read_request cc e wait p sids tag) w.
Proof.
  intros Hv Hw. unfold read_request. destruct (negb _).
  { intros w1 Hw1. split; [by apply (kept_rtc _ _ _ kept_start Hw1) | done]. }
  eapply rg_pbind; [by apply rg_SyncHandler |]. intros resp w1 [Hw1 Hb] w2 Hw2.
  split; [by apply (kept_rtc _ _ _ kept_start Hw2) |]. intros l tag' b Hc.
  eapply client_read_granted; [exact Hc |]. by eapply body_granted_rtc.
Qed.

Lemma rg_client_Create e tok req w :
  valid_order (iter e) → newID e = nid → start w →
  rg Others Own (λ _ _, True) (client_Create cc cfg e tok req) w.
Proof.
  intros Hv He [_ Hf]. unfold client_Create. destruct (decide _); [done |]. destruct (negb _); [done |].
  eapply (rg_pbind _ _ (λ _ _, True)).
  - unfold CreateHandler. cbn [negb]. repeat (destruct (decide _); [done |]).
    destruct (_ ≫= _) as [[md desc] |]; [| done].
    destruct (token_principal cc tok) as [p |]; [| done]. destruct (token_auth cc tok) as [[ag gw] |]; [| done].
    destruct (decide _); [done |]. eapply (rg_pbind _ _ (λ _ _, True)); [| done].
    by apply (rg_CreatePendingApproval cfg nid Others Others_free).
  - intros resp w1 _. destruct (decide _); [done |]. destruct (resp_body resp); try done.
    by destruct (decide _).
Qed.

(** The service keeps the promises of the broker interface. *)
#[export] Instance service_broker_laws e :
  valid_order (iter e) → newID e = nid →
  BrokerLaws (service_broker cc cfg e) Others Own Ready Free Granted ConsumedId.
Proof.
  intros Hv He. split.
  - intros w w' k r Hs _. apply grant_row_step. by apply Others_rows.
  - intros w w' k r Hs _. apply grant_row_step. by eapply view_step_rows.
  - intros w k r r' Hc (a & Ha & Hg). exists a.
    destruct (content_inj_fields _ _ Hc) as [<- _]. split; [done | by eapply grant_of_content].
  - intros w w' s Hs _ (id & Hid & Hc). exists id. split; [done |].
    eapply consumed_row_step; [by apply Others_rows | done].
  - intros w w' Hs. by apply kept_store_inv.
  - intros w w' Hs. by eapply view_step_inv.
  - intros w w' Hs. by apply kept_free.
  - intros p sids w Hr Hf. simpl. unfold client_Read.
    eapply rg_pbind; [by apply rg_read_request |].
    intros [[[l tag] b] | err] w1 [Hw1 Hl]; [destruct b |]; intros w2 Hw2;
      (split; [by apply (kept_rtc _ _ _ kept_start Hw2) |]); try done.
    intros l' tag' [= <- <-] q r Hq Hrq Hst.
    eapply (kept_rtc (λ m, grant_row m _ _)); [| exact Hw2 | by eapply Hl].
    apply kept_rows. intros m m'. apply grant_row_step.
  - intros tok req w Hr Hf. by apply rg_client_Create.
  - intros tok s w _. apply rg_client_Consume.
Qed.

End service.

(** ** Everything at once *)

(** What runs concurrently: tool calls at the gate, rounds of the syncer,
    eviction ticks, and requests to the broker's API. *)
Inductive task `{GoFloat} :=
  | TGate (configured : bool) (clock : nat → time) (invocation : Invocation)
  | TSync (now : time) (wait : wait_outcome)
  | TEvict (now : time)
  | TCall (c : call).

Section system.
Context `{GoHash} `{TokenBucket} `{UUID} `{!ApprovalStore St} `{!ApprovalStoreLaws (St := St)}.
Context (cc : client_config) (cfg : service_config).
Implicit Types g : gworld (world St).

Abbreviation gw_rows g := (view (w_store (g_world g))).

(** Only the outcome of a tool call matters; the rest ends in a dummy one. *)
Definition exec_task (et : env * task) : prog (gworld (world St)) Outcome :=
  let '(e, t) := et in
  match t with
  | TGate configured clock invocation =>
      Evaluate (service_broker cc cfg e) configured clock invocation
  | TSync now wait => _ ← sync_round (client_Poll cc e wait) now; Ret (deny "")
  | TEvict now => _ ← cache_act (λ c, (EvictIdle now c, ())); Ret (deny "")
  | TCall c => _ ← at_broker (exec cfg (e, c)); Ret (deny "")
  end.

Definition gsound g : Prop := sound Granted g.

(** The step the [i]-th task may make. *)
Definition task_step (tasks : list (env * task)) (i : nat) g g' : Prop :=
  ∃ e t, tasks !! i = Some (e, t) ∧ GG (G (newID e)) Granted g g'.

(** A tool call that proceeds is authorised. *)
Definition task_post (tasks : list (env * task)) (i : nat) (o : Outcome) g : Prop :=
  ∀ e configured clock invocation, tasks !! i = Some (e, TGate configured clock invocation) →
  Proceed o = true → authorised Granted ConsumedId invocation (g_world g).

Lemma GG_world nid nid' g g' :
  nid' ≠ nid → GG (G nid') Granted g g' → rtc (Others nid) (g_world g) (g_world g').
Proof.
  intros Hne [[HG _] | [Hw _]]; [| by rewrite Hw]. apply rtc_once. by exists nid'.
Qed.

Lemma GG_sound nid g g' : GG (G nid) Granted g g' → gsound g → gsound g'.
Proof.
  intros [[HG Hc] | [_ Hs]] Hg; [| by apply Hs]. intros k e r. rewrite Hc. intros He Hr Hst.
  eapply grant_row_step; [by eapply view_step_rows |]. by eapply Hg.
Qed.

Lemma exec_task_rg tasks i e t g :
  NoDup (map (λ et, newID et.1) tasks) → tasks !! i = Some (e, t) →
  valid_order (iter e) → gw_rows g !! newID e = None → store_inv (gw_rows g) → gsound g →
  rg (others (task_step tasks) i) (task_step tasks i) (task_post tasks i) (exec_task (e, t)) g.
Proof.
  intros Hnd Hi Hv Hf Hinv Hs.
  set (RR := others (task_step tasks) i).
  assert (∀ g g', RR g g' → rtc (Others (newID e)) (g_world g) (g_world g')) as HRw.
  { intros g1 g2 (j & Hji & e' & t' & Hj & HG). eapply GG_world; [| exact HG].
    intros Heq. apply Hji. eapply (NoDup_lookup _ _ _ (newID e) Hnd);
      rewrite list_lookup_fmap; [rewrite Hj | rewrite Hi]; simpl; congruence. }
  assert (∀ g g', RR g g' → Ready (g_world g) → gsound g → gsound g') as HRs.
  { intros g1 g2 (j & _ & e' & t' & _ & HG) _. by eapply GG_sound. }
  pose proof (service_broker_laws cc cfg (newID e) e Hv eq_refl) as Hlaws.
  eapply (rg_mono RR RR (GG (G (newID e)) Granted)); [done | |].
  { intros g1 g2 HG. exists e, t. done. }
  destruct t as [configured clock inv | now wait | now | c]; cbn [exec_task].
  - eapply rg_impl; [| eapply rg_Evaluate; eauto].
    intros o g1 Ho e' cf cl inv' Hi'. rewrite Hi in Hi'. by simplify_eq.
  - eapply rg_pbind; [eapply rg_sync_round; eauto |].
    { intros sids tag w Hr Hfw. eapply rg_impl; [| by apply (rg_read_request cc (newID e))].
      intros res w' [_ Hl]. exact Hl. }
    by intros b g1 _ g2 _ ?????.
  - eapply (rg_pbind _ _ (λ _ _, True)); [eapply rg_cache_act; eauto |].
    { intros g1 _ _ Hs1. by apply sound_EvictIdle. }
    by intros b g1 _ g2 _ ?????.
  - eapply rg_pbind; [eapply (rg_at_broker _ _ _ _ _ _ _ RR HRw HRs _ (λ _ _, True)); [done | done |] |].
    { apply rg_exec; [apply Others_rows | apply Others_free | done | done]. }
    by intros b g1 _ g2 _ ?????.
Qed.

Lemma system_steps (tasks : list (env * task)) g g' ps :
  NoDup (map (λ et, newID et.1) tasks) →
  Forall (λ et, valid_order (iter et.1) ∧ gw_rows g !! newID et.1 = None) tasks →
  store_inv (gw_rows g) → gsound g →
  rtc pool_step (g, map exec_task tasks) (g', ps) →
  store_inv (gw_rows g') ∧ gsound g' ∧
  ∀ i o, ps !! i = Some (Ret o) → task_post tasks i o g'.
Proof.
  intros Hnd HF Hinv Hs Hr.
  assert (pool_rg (task_step tasks) (task_post tasks) (g, map exec_task tasks)) as Hrg.
  { intros i p Hi. simpl in Hi. rewrite list_lookup_fmap in Hi.
    destruct (tasks !! i) as [[e t] |] eqn:Ht; [| done]. injection Hi as <-.
    rewrite Forall_lookup in HF. destruct (HF _ _ Ht). by apply exec_task_rg. }
  destruct (pool_rg_steps _ _ _ _ Hr Hrg) as [Hsteps Hrg']. simpl in *.
  assert (store_inv (gw_rows g') ∧ gsound g') as [Hinv' Hs'].
  { clear -Hsteps Hinv Hs. induction Hsteps as [| g1 g2 g3 (i & e & t & _ & HG) _ IH]; [done |].
    apply IH; [| by eapply GG_sound]. destruct HG as [[HG _] | [-> _]]; [| done]. by eapply view_step_inv. }
  split_and!; [done | done |]. intros i o Hi. by apply (Hrg' i _ Hi).
Qed.

End system.

(** Claim C1.  No tool call proceeds without the user's approval.  Let any
    number of tool calls, sync rounds, evictions and API requests run
    interleaved, from a sound cache and a store that satisfies its invariant.
    Whenever a tool call has finished with "proceed", the broker's store holds
    an approval of that call's principal and agent, for exactly that tool,
    decided by an approval (it carries an approval time), whose parameter
    pattern covers the call's arguments; and if it is a once-approval, it has
    been consumed. *)
Theorem no_proceed_without_approval `{GoHash} `{TokenBucket} `{UUID} `{!ApprovalStore St}
    `{!ApprovalStoreLaws (St := St)} (cc : client_config) (cfg : service_config)
    (tasks : list (env * task)) (g g' : gworld (world St)) ps i e configured clock invocation o :
  NoDup (map (λ et, newID et.1) tasks) →
  Forall (λ et, valid_order (iter et.1) ∧ view (w_store (g_world g)) !! newID et.1 = None) tasks →
  store_inv (view (w_store (g_world g))) → gsound g →
  rtc pool_step (g, map (exec_task cc cfg) tasks) (g', ps) →
  (∀ id a, view (w_store (g_world g')) !! id = Some a → uuid_Parse id = Some id) →
  tasks !! i = Some (e, TGate configured clock invocation) →
  ps !! i = Some (Ret o) → Proceed o = true →
  ∃ id a, view (w_store (g_world g')) !! id = Some a ∧
    (Prin a, AgentId a) = key_of (inv_Identity invocation) ∧
    ToolName a = inv_ToolName invocation ∧ is_Some (ApprovedAt a) ∧
    Matches (ToolPattern a) (default ∅ (ParamsPattern a))
      (inv_ToolName invocation) (inv_Arguments invocation) = true ∧
    (Persistence a = Some Once → Consumed a = true).
Proof.
  intros Hnd HF Hinv Hs Hr Huuid Hi Hp Hproc.
  destruct (system_steps cc cfg tasks g g' ps Hnd HF Hinv Hs Hr) as ([Hwf _] & _ & Hpost).
  destruct (Hpost i o Hp e configured clock invocation Hi Hproc) as (r & (a & Ha & Hg) & [Hm Hc] & Hcons).
  destruct Hg as (Hk & _ & Hat & Htp & Hpp & Hper). exists (r_ID r), a.
  assert (is_Some (r_ApprovedAt r)) as HsomeAt.
  { unfold matchable in Hm. simpl in Hm. destruct (r_ApprovedAt r); [by eexists |].
    by rewrite (bool_decide_eq_true_2 (None = None)), !orb_true_r in Hm by done. }
  unfold record_covers in Hc. simpl in Hc. rewrite <-Htp, <-Hpp in Hc.
  split_and!; [done | done | | by rewrite Hat | done |].
  - destruct (Hwf _ _ Ha) as (_ & _ & Heq & _). unfold Matches in Hc. rewrite Heq in Hc.
    destruct (match_glob (EscapeLiteral (ToolName a)) (inv_ToolName invocation)) eqn:Hmg; [| done].
    by apply match_EscapeLiteral in Hmg.
  - intros Honce. specialize (Hper _ Honce). destruct (Hcons Hper) as (id & Hid & b & Hb & Hcb).
    rewrite (Huuid _ _ Ha) in Hid. injection Hid as <-. by simplify_eq.
Qed.

(** ** A run *)

#[local] Existing Instances IntFloat ExampleHash ExampleBucket.

(** Ids are their own text. *)
Definition TextUUID : UUID :=
  {| uuid_Parse s := if decide (s = "") then None else Some s; uuid_Nil := "nil" |}.
#[local] Existing Instance TextUUID.

Definition example_client : client_config :=
  {| assertion := Some "assertion"; token_principal := λ _, Some "alice";
     token_auth := λ _, Some ("agent", "gw"); traceparent := None |}.

Definition example_invocation : Invocation :=
  {| inv_Identity := {| id_Principal := "alice"; id_AgentID := "agent" |};
     inv_ToolName := "write"; inv_Arguments := Some ∅; inv_AgentSessionID := "s1";
     inv_MCPSessionID := ""; inv_RequestID := "r1"; inv_SubjectToken := "token";
     inv_Description := ""; inv_RiskLevel := "" |}.

Definition cold_start : gworld (world memory_store) := GWorld (NewCache 1 1000 1000) example_world.

(** A tool call at a gate with an empty cache, and alice denying another
    pending approval in the middle of it. *)
Definition example_tasks : list (env * task) :=
  [ (example_env 10 "n0", TGate true (λ n, (10 + Z.of_nat n)%Z) example_invocation);
    (example_env 12 "n1", TCall (CallDeny "open" "alice" None)) ].

Definition example_gate_run : gworld (world memory_store) * list (prog (gworld (world memory_store)) Outcome) :=
  schedule ([0; 0; 1; 0; 0; 1; 1] ++ replicate 20 0)
    (cold_start, map (exec_task example_client example_config) example_tasks).

Lemma example_tasks_fresh :
  NoDup (map (λ et, newID et.1) example_tasks) ∧
  Forall (λ et : env * task, valid_order (iter et.1) ∧
    view (w_store (g_world cold_start)) !! newID et.1 = None) example_tasks.
Proof.
  split; [apply (bool_decide_unpack _); vm_compute; exact I |].
  unfold example_tasks.
  repeat (apply Forall_cons; split; [split; [exact map_order_valid | reflexivity] |]).
  constructor.
Qed.

Lemma cold_start_sound : gsound cold_start.
Proof. intros k e r He. done. Qed.

(** C1 at the run above: the call consumes alice's once-approval and proceeds. *)
Lemma no_proceed_without_approval_witness :
  ∃ id a, view (w_store (g_world example_gate_run.1)) !! id = Some a ∧
    (Prin a, AgentId a) = ("alice", "agent") ∧ ToolName a = "write" ∧ is_Some (ApprovedAt a) ∧
    Matches (ToolPattern a) (default ∅ (ParamsPattern a)) "write" (Some ∅) = true ∧
    (Persistence a = Some Once → Consumed a = true).
Proof.
  apply (no_proceed_without_approval example_client example_config example_tasks cold_start
    example_gate_run.1 example_gate_run.2 0 (example_env 10 "n0") true
    (λ n, (10 + Z.of_nat n)%Z) example_invocation proceed).
  - apply example_tasks_fresh.
  - apply example_tasks_fresh.
  - apply example_store_inv.
  - apply cold_start_sound.
  - rewrite <-surjective_pairing. apply schedule_steps.
  - intros id a Ha. simpl uuid_Parse. destruct (decide (id = "")) as [-> |]; [| done].
    assert (view (w_store (g_world example_gate_run.1)) !! "" = None) as Hn by reflexivity.
    rewrite Hn in Ha. discriminate Ha.
  - reflexivity.
  - reflexivity.
  - reflexivity.
Defined.
