(* ===== verification/OAuthSessions.v ===== *)
(** * Sessions of the local OAuth2 issuer

    The in-memory repositories under internal/adapters/storage/memory for
    authorization codes, PKCE challenges, refresh-token sessions and consumed
    client assertions, with the records of internal/domain/storage, and the
    cleanup sweep of internal/domain/oauth2server/session_cleanup.go.  Every
    method holds the store's mutex for its whole body, so each is one function on
    the store; [now] is the reading of the clock it takes. *)

From S2P Require Import Prelude ToolApproval ApprovalStore.

(** The text of the zero UUID. *)
Definition zero_uuid : string := "00000000-0000-0000-0000-000000000000".

(** The first failing check decides; every failure is a validation error. *)
Definition required (checks : list bool) : result ErrorKind unit :=
  if forallb id checks then Ok () else Err KValidation.

Definition nonempty (s : string) : bool := negb (bool_decide (s = "")).
Definition nonzero_id (s : string) : bool := negb (bool_decide (s = zero_uuid)).

(** ** Authorization codes *)

Record AuthorizationCode := {
  ac_ID : string;
  ac_CodeHash : string;
  ac_AgentID : AgentID;
  ac_ClientID : string;
  ac_Principal : Principal;
  ac_Email : option string;
  ac_DisplayName : string;
  ac_RedirectURI : string;
  ac_CodeChallenge : string;
  ac_Scope : string;
  ac_ExpiresAt : time;
  ac_UsedAt : option time;
  ac_CreatedAt : time;
}.

Definition AuthorizationCode_Validate (c : AuthorizationCode) : result ErrorKind unit :=
  required [ nonempty (ac_CodeHash c); nonzero_id (ac_AgentID c); nonempty (ac_Principal c);
             nonempty (ac_RedirectURI c); nonempty (ac_CodeChallenge c);
             negb (IsZero (ac_ExpiresAt c)) ].

Definition set_UsedAt (c : AuthorizationCode) (t : time) : AuthorizationCode :=
  {| ac_ID := ac_ID c; ac_CodeHash := ac_CodeHash c; ac_AgentID := ac_AgentID c;
     ac_ClientID := ac_ClientID c; ac_Principal := ac_Principal c; ac_Email := ac_Email c;
     ac_DisplayName := ac_DisplayName c; ac_RedirectURI := ac_RedirectURI c;
     ac_CodeChallenge := ac_CodeChallenge c; ac_Scope := ac_Scope c;
     ac_ExpiresAt := ac_ExpiresAt c; ac_UsedAt := Some t; ac_CreatedAt := ac_CreatedAt c |}.

(** The two indices share pointers to the same objects: [objects] is the heap
    the pointers refer to. *)
Record AuthorizationCodeStore := CodeStore {
  objects : gmap nat AuthorizationCode;
  byID : gmap string nat;
  byCodeHash : gmap string nat;
}.

Definition NewAuthorizationCodeStore : AuthorizationCodeStore := CodeStore ∅ ∅ ∅.

Definition code_Create (code : AuthorizationCode) (s : AuthorizationCodeStore)
    : AuthorizationCodeStore * result ErrorKind unit :=
  match byCodeHash s !! ac_CodeHash code with
  | Some _ => (s, Err KConflict)
  | None =>
      let p := fresh (dom (objects s)) in
      ({| objects := <[p := code]> (objects s);
          byID := <[ac_ID code := p]> (byID s);
          byCodeHash := <[ac_CodeHash code := p]> (byCodeHash s) |}, Ok ())
  end.

(** Dereference. *)
Definition code_at (s : AuthorizationCodeStore) (p : nat) : option AuthorizationCode := objects s !! p.

Definition code_FindByCodeHash (now : time) (codeHash : string) (s : AuthorizationCodeStore)
    : result ErrorKind AuthorizationCode :=
  match byCodeHash s !! codeHash ≫= code_at s with
  | Some code => if After (ac_ExpiresAt code) now then Ok code else Err KNotFound
  | None => Err KNotFound
  end.

Definition code_MarkUsed (now : time) (codeID : string) (s : AuthorizationCodeStore)
    : AuthorizationCodeStore * result ErrorKind unit :=
  match byID s !! codeID with
  | None => (s, Err KNotFound)
  | Some p =>
      ({| objects := alter (λ c, set_UsedAt c now) p (objects s);
          byID := byID s; byCodeHash := byCodeHash s |}, Ok ())
  end.

(** One iteration of the sweep. *)
Definition code_sweep (now : time) (acc : AuthorizationCodeStore * nat) (entry : string * nat)
    : AuthorizationCodeStore * nat :=
  let '(s, count) := acc in
  match code_at s entry.2 with
  | Some code =>
      if Before (ac_ExpiresAt code) now
      then ({| objects := objects s; byID := delete (ac_ID code) (byID s);
               byCodeHash := delete entry.1 (byCodeHash s) |}, S count)
      else acc
  | None => acc
  end.

Definition code_DeleteExpired (now : time) (s : AuthorizationCodeStore)
    : AuthorizationCodeStore * nat :=
  foldl (code_sweep now) (s, 0) (map_to_list (byCodeHash s)).

(** ** PKCE sessions *)

Record PKCESession := {
  pk_Signature : string;
  pk_CodeChallenge : string;
  pk_CodeChallengeMethod : string;
  pk_ExpiresAt : time;
  pk_CreatedAt : time;
}.

Definition PKCESession_Validate (p : PKCESession) : result ErrorKind unit :=
  required [nonempty (pk_Signature p); nonempty (pk_CodeChallenge p); negb (IsZero (pk_ExpiresAt p))].

Abbreviation PKCESessionStore := (gmap string PKCESession) (only parsing).

Definition pkce_Create (session : PKCESession) (s : PKCESessionStore)
    : PKCESessionStore * result ErrorKind unit :=
  match s !! pk_Signature session with
  | Some _ => (s, Err KConflict)
  | None => (<[pk_Signature session := session]> s, Ok ())
  end.

Definition pkce_FindBySignature (signature : string) (s : PKCESessionStore)
    : result ErrorKind PKCESession :=
  match s !! signature with Some session => Ok session | None => Err KNotFound end.

Definition pkce_Delete (signature : string) (s : PKCESessionStore)
    : PKCESessionStore * result ErrorKind unit :=
  match s !! signature with
  | None => (s, Err KNotFound)
  | Some _ => (delete signature s, Ok ())
  end.

(** The sweep of a store keyed by signature: what is kept, and the count. *)
Definition sweep {K A} `{Countable K} (expires : A → time) (now : time) (s : gmap K A)
    : gmap K A * nat :=
  (filter (λ e, Before (expires e.2) now = false) s,
   size (filter (λ e, Before (expires e.2) now = true) s)).

Definition pkce_DeleteExpired (now : time) (s : PKCESessionStore) : PKCESessionStore * nat :=
  sweep pk_ExpiresAt now s.

(** ** Refresh-token sessions *)

Record RefreshTokenSession := {
  rt_Signature : string;
  rt_RequestID : string;
  rt_AgentID : AgentID;
  rt_ClientID : string;
  rt_Principal : Principal;
  rt_GrantID : option string;
  rt_Email : option string;
  rt_DisplayName : string;
  rt_Scope : string;
  rt_ClientAuthMethod : option string;
  rt_ExpiresAt : time;
  rt_UsedAt : option time;
  rt_CreatedAt : time;
}.

Definition RefreshTokenSession_Validate (s : RefreshTokenSession) : result ErrorKind unit :=
  required [ nonempty (rt_Signature s); nonempty (rt_RequestID s); nonzero_id (rt_AgentID s);
             nonempty (rt_ClientID s); nonempty (rt_Principal s); negb (IsZero (rt_ExpiresAt s));
             match rt_ClientAuthMethod s with
             | Some m => bool_decide (m = "private_key_jwt")
             | None => true
             end ].

Definition use_session (now : time) (s : RefreshTokenSession) : RefreshTokenSession :=
  {| rt_Signature := rt_Signature s; rt_RequestID := rt_RequestID s; rt_AgentID := rt_AgentID s;
     rt_ClientID := rt_ClientID s; rt_Principal := rt_Principal s; rt_GrantID := rt_GrantID s;
     rt_Email := rt_Email s; rt_DisplayName := rt_DisplayName s; rt_Scope := rt_Scope s;
     rt_ClientAuthMethod := rt_ClientAuthMethod s; rt_ExpiresAt := rt_ExpiresAt s;
     rt_UsedAt := Some now; rt_CreatedAt := rt_CreatedAt s |}.

(** The stored form: the session and its [revoked] flag. *)
Record refreshTokenSession := StoredSession {
  stored : RefreshTokenSession;
  revoked : bool;
}.

Abbreviation RefreshTokenSessionStore := (gmap string refreshTokenSession) (only parsing).

Definition createLocked (session : RefreshTokenSession) (s : RefreshTokenSessionStore)
    : RefreshTokenSessionStore * result ErrorKind unit :=
  match s !! rt_Signature session with
  | Some _ => (s, Err KConflict)
  | None => (<[rt_Signature session := StoredSession session false]> s, Ok ())
  end.

Definition refresh_Create : RefreshTokenSession → RefreshTokenSessionStore →
    RefreshTokenSessionStore * result ErrorKind unit := createLocked.

Definition refresh_CreateSuccessor (session : RefreshTokenSession) (previousSignature : string)
    (s : RefreshTokenSessionStore) : RefreshTokenSessionStore * result ErrorKind unit :=
  match s !! previousSignature with
  | None => (s, Err KNotFound)
  | Some previous =>
      if revoked previous || bool_decide (rt_UsedAt (stored previous) = None) ||
         negb (bool_decide (rt_RequestID (stored previous) = rt_RequestID session))
      then (s, Err KNotFound)
      else createLocked session s
  end.

Definition refresh_FindBySignature (signature : string) (s : RefreshTokenSessionStore)
    : result ErrorKind RefreshTokenSession :=
  match s !! signature with Some session => Ok (stored session) | None => Err KNotFound end.

Definition refresh_MarkUsed (now : time) (signature : string) (s : RefreshTokenSessionStore)
    : RefreshTokenSessionStore * result ErrorKind unit :=
  match s !! signature with
  | None => (s, Err KNotFound)
  | Some session =>
      match rt_UsedAt (stored session) with
      | Some _ => (s, Err KNotFound)
      | None => (<[signature := StoredSession (use_session now (stored session)) (revoked session)]> s, Ok ())
      end
  end.

(** The body of both revocation loops. *)
Definition revoke_session (now : time) (session : refreshTokenSession) : refreshTokenSession :=
  StoredSession
    (match rt_UsedAt (stored session) with
     | Some _ => stored session
     | None => use_session now (stored session)
     end) true.

Definition refresh_RevokeByRequestID (now : time) (requestID : string) (s : RefreshTokenSessionStore)
    : RefreshTokenSessionStore :=
  (λ session, if decide (rt_RequestID (stored session) = requestID)
              then revoke_session now session else session) <$> s.

(** The condition of [revokeByAgent]. *)
Definition of_agent (agentID : AgentID) (principal : option Principal) (session : refreshTokenSession) : bool :=
  bool_decide (rt_AgentID (stored session) = agentID) &&
  match principal with
  | None => true
  | Some p => bool_decide (rt_Principal (stored session) = p)
  end.

Definition revokeByAgent (now : time) (agentID : AgentID) (principal : option Principal)
    (s : RefreshTokenSessionStore) : RefreshTokenSessionStore * nat :=
  ((λ session, if of_agent agentID principal session then revoke_session now session else session) <$> s,
   size (filter (λ e, of_agent agentID principal e.2 = true ∧ rt_UsedAt (stored e.2) = None) s)).

Definition RevokeByPrincipalAndAgent (now : time) (principal : Principal) (agentID : AgentID) :=
  revokeByAgent now agentID (Some principal).
Definition RevokeByAgent (now : time) (agentID : AgentID) := revokeByAgent now agentID None.

Definition refresh_DeleteExpired (now : time) (s : RefreshTokenSessionStore)
    : RefreshTokenSessionStore * nat :=
  sweep (λ e, rt_ExpiresAt (stored e)) now s.

(** ** Consumed client assertions *)

Record ClientAssertionReplay := {
  ca_ClientID : string;
  ca_JTI : string;
  ca_ExpiresAt : time;
}.

Definition ClientAssertionReplay_Validate (r : ClientAssertionReplay) : result ErrorKind unit :=
  required [nonempty (ca_ClientID r); nonempty (ca_JTI r); negb (IsZero (ca_ExpiresAt r))].

Abbreviation ClientAssertionReplayStore := (gmap (string * string) Z) (only parsing).

Definition replay_Consume (clientID jti : string) (expiresAt : time) (s : ClientAssertionReplayStore)
    : ClientAssertionReplayStore * result ErrorKind unit :=
  match ClientAssertionReplay_Validate {| ca_ClientID := clientID; ca_JTI := jti; ca_ExpiresAt := expiresAt |} with
  | Err k => (s, Err k)
  | Ok _ =>
      match s !! (clientID, jti) with
      | Some _ => (s, Err KConflict)
      | None => (<[(clientID, jti) := expiresAt]> s, Ok ())
      end
  end.

Definition replay_DeleteExpired (now : time) (s : ClientAssertionReplayStore)
    : ClientAssertionReplayStore * nat :=
  sweep (λ e : Z, e) now s.

(** ** The cleanup sweep *)

Record session_stores := SessionStores {
  codes : AuthorizationCodeStore;
  pkces : PKCESessionStore;
  refreshes : RefreshTokenSessionStore;
  replays : ClientAssertionReplayStore;
}.

(** [sweep] of session_cleanup.go: the four repositories in turn, each with its
    own reading of the clock; [stop] is the number of repositories visited
    before the context is cancelled. *)
Definition cleanup_step (clock : nat → time) (i : nat) (s : session_stores) : session_stores :=
  match i with
  | 0 => SessionStores (code_DeleteExpired (clock 0) (codes s)).1 (pkces s) (refreshes s) (replays s)
  | 1 => SessionStores (codes s) (pkce_DeleteExpired (clock 1) (pkces s)).1 (refreshes s) (replays s)
  | 2 => SessionStores (codes s) (pkces s) (refresh_DeleteExpired (clock 2) (refreshes s)).1 (replays s)
  | _ => SessionStores (codes s) (pkces s) (refreshes s) (replay_DeleteExpired (clock 3) (replays s)).1
  end.

Definition cleanup_sweep (clock : nat → time) (stop : nat) (s : session_stores) : session_stores :=
  foldl (λ s i, cleanup_step clock i s) s (seq 0 (Nat.min stop 4)).
