(* ===== verification/OAuthSessionsFacts.v ===== *)
(** * What the session stores guarantee

    The two-index code store is a map, refresh tokens are single use, and a
    revoked refresh chain stays dead. *)

From S2P Require Import Prelude ToolApproval ApprovalStore OAuthSessions.

(** ** Authorization codes: two indices, one map *)

(** The code each hash stands for. *)
Definition codes_of (s : AuthorizationCodeStore) : gmap string AuthorizationCode :=
  omap (code_at s) (byCodeHash s).

(** Both indices point at the same objects, and each object is filed under its
    own hash and its own id. *)
Record codes_wf (s : AuthorizationCodeStore) : Prop := {
  wf_hash h p : byCodeHash s !! h = Some p →
    ∃ c, objects s !! p = Some c ∧ ac_CodeHash c = h ∧ byID s !! ac_ID c = Some p;
  wf_id i p : byID s !! i = Some p →
    ∃ c, objects s !! p = Some c ∧ ac_ID c = i ∧ byCodeHash s !! ac_CodeHash c = Some p;
}.

Lemma codes_of_Some s h c :
  codes_of s !! h = Some c ↔ ∃ p, byCodeHash s !! h = Some p ∧ objects s !! p = Some c.
Proof.
  unfold codes_of, code_at. rewrite lookup_omap. destruct (byCodeHash s !! h); naive_solver.
Qed.

Lemma codes_wf_empty : codes_wf NewAuthorizationCodeStore.
Proof. by split. Qed.

Lemma code_Create_refines code s :
  codes_wf s → byID s !! ac_ID code = None →
  let r := code_Create code s in
  codes_wf r.1 ∧
  match codes_of s !! ac_CodeHash code with
  | Some _ => r = (s, Err KConflict)
  | None => codes_of r.1 = <[ac_CodeHash code := code]> (codes_of s) ∧ r.2 = Ok ()
  end.
Proof.
  intros Hwf Hid. unfold code_Create. destruct (byCodeHash s !! ac_CodeHash code) as [p |] eqn:Hh.
  { destruct (wf_hash s Hwf _ _ Hh) as (c & Hc & _). split; [done |].
    assert (codes_of s !! ac_CodeHash code = Some c) as -> by (apply codes_of_Some; eauto). done. }
  assert (codes_of s !! ac_CodeHash code = None) as ->.
  { unfold codes_of. by rewrite lookup_omap, Hh. }
  set (p := fresh (dom (objects s))).
  assert (objects s !! p = None) as Hp by (apply not_elem_of_dom, is_fresh).
  assert (∀ q c, objects s !! q = Some c → q ≠ p) as Hne by (intros q c Hq ->; congruence).
  simpl. split; [split; simpl |].
  - intros h q. rewrite lookup_insert_Some. intros [[<- <-] | [Hn Hq]].
    + exists code. by rewrite !lookup_insert_eq.
    + destruct (wf_hash s Hwf _ _ Hq) as (c & Hc & <- & Hi). exists c.
      rewrite lookup_insert_ne by (apply not_eq_sym; eauto). split_and!; [done | done |].
      rewrite lookup_insert_ne; [done |]. intros E. congruence.
  - intros i q. rewrite lookup_insert_Some. intros [[<- <-] | [Hn Hq]].
    + exists code. by rewrite !lookup_insert_eq.
    + destruct (wf_id s Hwf _ _ Hq) as (c & Hc & <- & Hhq). exists c.
      rewrite lookup_insert_ne by (apply not_eq_sym; eauto). split_and!; [done | done |].
      rewrite lookup_insert_ne; [done |]. intros E. congruence.
  - split; [| done]. apply map_eq. intros h. apply option_eq. intros c.
    rewrite codes_of_Some, lookup_insert_Some, codes_of_Some. simpl.
    setoid_rewrite lookup_insert_Some. split.
    + intros (q & [[<- <-] | [Hn Hq]] & Hc).
      * left. split; [done |]. destruct Hc as [[_ ->] | [? _]]; done.
      * right. split; [done |]. exists q. split; [done |]. destruct Hc as [[<- _] | [_ Hc]]; [| done].
        destruct (wf_hash s Hwf _ _ Hq) as (c' & Hc' & _). congruence.
    + intros [[<- <-] | (Hn & q & Hq & Hc)]; [exists p; auto |].
      exists q. split; [by right |]. right. split; [| done]. intros <-. congruence.
Qed.

Lemma code_Find_refines now h s :
  code_FindByCodeHash now h s =
  match codes_of s !! h with
  | Some c => if After (ac_ExpiresAt c) now then Ok c else Err KNotFound
  | None => Err KNotFound
  end.
Proof. unfold code_FindByCodeHash, codes_of. by rewrite lookup_omap. Qed.

(** [MarkUsed] through the id index is visible through the hash index. *)
Lemma code_MarkUsed_refines now i s :
  codes_wf s →
  let r := code_MarkUsed now i s in
  codes_wf r.1 ∧
  codes_of r.1 = (λ c, if decide (ac_ID c = i) then set_UsedAt c now else c) <$> codes_of s ∧
  (r.2 = Ok () ↔ ∃ h c, codes_of s !! h = Some c ∧ ac_ID c = i).
Proof.
  intros Hwf. unfold code_MarkUsed. destruct (byID s !! i) as [p |] eqn:Hi; simpl.
  - destruct (wf_id s Hwf _ _ Hi) as (c & Hc & <- & Hh). split; [split; simpl | split].
    + intros h q Hq. destruct (wf_hash s Hwf _ _ Hq) as (c' & Hc' & <- & Hi').
      rewrite lookup_alter. destruct (decide (p = q)) as [-> |]; rewrite Hc'; eexists; (split; [reflexivity | done]).
    + intros i q Hq. destruct (wf_id s Hwf _ _ Hq) as (c' & Hc' & <- & Hh').
      rewrite lookup_alter. destruct (decide (p = q)) as [-> |]; rewrite Hc'; eexists; (split; [reflexivity | done]).
    + apply map_eq. intros h. rewrite lookup_fmap. unfold codes_of at 1. simpl. rewrite lookup_omap.
      unfold codes_of, code_at at 1. rewrite lookup_omap. simpl.
      destruct (byCodeHash s !! h) as [q |] eqn:Hq; [| done]. simpl. unfold code_at.
      destruct (wf_hash s Hwf _ _ Hq) as (c' & Hc' & _ & Hi'). simpl. rewrite lookup_alter, Hc'.
      destruct (decide (p = q)) as [-> | Hn].
      * assert (c' = c) as -> by congruence. simpl. rewrite Hc. simpl. by rewrite decide_True.
      * simpl. rewrite decide_False; [done |]. intros E. rewrite E, Hi in Hi'. congruence.
    + split; [| done]. intros _. exists (ac_CodeHash c), c. split; [| done]. apply codes_of_Some. eauto.
  - assert (∀ h c, codes_of s !! h = Some c → ac_ID c ≠ i) as Hno.
    { intros h c (p & Hp & Hc)%codes_of_Some E. destruct (wf_hash s Hwf _ _ Hp) as (c' & Hc' & _ & Hi').
      simplify_eq. }
    split; [done |]. split.
    + apply map_eq. intros h. rewrite lookup_fmap. destruct (codes_of s !! h) as [c |] eqn:E; [| done].
      simpl. rewrite decide_False; [done |]. by eapply Hno.
    + split; [done |]. intros (h & c & Hc & Hi'). by destruct (Hno _ _ Hc).
Qed.

(** The loop invariant of the sweep after the entries [visited]. *)
Definition swept (now : time) (s0 : AuthorizationCodeStore) (visited : list (string * nat))
    (s : AuthorizationCodeStore) : Prop :=
  let gone p := ∃ h c, (h, p) ∈ visited ∧ objects s0 !! p = Some c ∧ Before (ac_ExpiresAt c) now = true in
  objects s = objects s0 ∧
  (∀ h p, byCodeHash s !! h = Some p ↔ byCodeHash s0 !! h = Some p ∧ ¬ gone p) ∧
  (∀ i p, byID s !! i = Some p ↔ byID s0 !! i = Some p ∧ ¬ gone p).

Lemma swept_step now s0 visited s n h p :
  codes_wf s0 → byCodeHash s0 !! h = Some p → swept now s0 visited s →
  swept now s0 (visited ++ [(h, p)]) (code_sweep now (s, n) (h, p)).1.
Proof.
  intros Hwf Hp (Ho & Hh & Hi). destruct (wf_hash s0 Hwf _ _ Hp) as (c & Hc & Hch & Hci).
  unfold code_sweep, code_at. simpl. rewrite Ho, Hc.
  destruct (Before (ac_ExpiresAt c) now) eqn:Hb; (split; [done |]);
    cbn [objects byID byCodeHash fst]; split.
  - intros h' q. rewrite lookup_delete_Some, Hh. split.
    + intros (Hne & Hq & Hn). split; [done |]. intros (h1 & c1 & [Hv | E]%elem_of_app & Hc1 & Hb1).
      * apply Hn. eauto.
      * apply list_elem_of_singleton in E. simplify_eq.
        destruct (wf_hash s0 Hwf _ _ Hq) as (c2 & Hc2 & Hh2 & _). simplify_eq.
    + intros (Hq & Hn). split_and!; [| done |].
      * intros E. apply Hn. rewrite <-E, Hp in Hq. injection Hq as <-. exists h, c. set_solver.
      * intros (h1 & c1 & ? & ? & ?). apply Hn. exists h1, c1. set_solver.
  - intros i q. rewrite lookup_delete_Some, Hi. split.
    + intros (Hne & Hq & Hn). split; [done |]. intros (h1 & c1 & [Hv | E]%elem_of_app & Hc1 & Hb1).
      * apply Hn. eauto.
      * apply list_elem_of_singleton in E. simplify_eq.
        destruct (wf_id s0 Hwf _ _ Hq) as (c2 & Hc2 & Hi2 & _). simplify_eq.
    + intros (Hq & Hn). split_and!; [| done |].
      * intros E. apply Hn. rewrite <-E, Hci in Hq. injection Hq as <-. exists h, c. set_solver.
      * intros (h1 & c1 & ? & ? & ?). apply Hn. exists h1, c1. set_solver.
  - intros h' q. rewrite Hh. split; intros [Hq Hn]; (split; [done |]); intros (h1 & c1 & Hv & Hc1 & Hb1); apply Hn.
    + apply elem_of_app in Hv as [Hv | E]; [eauto |]. apply list_elem_of_singleton in E. simplify_eq. congruence.
    + exists h1, c1. set_solver.
  - intros i q. rewrite Hi. split; intros [Hq Hn]; (split; [done |]); intros (h1 & c1 & Hv & Hc1 & Hb1); apply Hn.
    + apply elem_of_app in Hv as [Hv | E]; [eauto |]. apply list_elem_of_singleton in E. simplify_eq. congruence.
    + exists h1, c1. set_solver.
Qed.

Lemma swept_fold now s0 rest visited s n :
  codes_wf s0 → (∀ h p, (h, p) ∈ rest → byCodeHash s0 !! h = Some p) → swept now s0 visited s →
  swept now s0 (visited ++ rest) (foldl (code_sweep now) (s, n) rest).1.
Proof.
  intros Hwf. revert visited s n. induction rest as [| [h p] rest IH]; intros visited s n Hr Hs; simpl.
  { by rewrite app_nil_r. }
  pose proof (swept_step now s0 visited s n h p Hwf (Hr h p ltac:(left)) Hs) as Hst.
  destruct (code_sweep now (s, n) (h, p)) as [s' n'] eqn:E.
  change ((h, p) :: rest) with ([(h, p)] ++ rest). rewrite app_assoc.
  assert (code_sweep now (s, n) (h, p) = (s', n')) as E' by exact E.
  unfold code_sweep in E'. simpl in E'. rewrite E'.
  apply IH; [intros; apply Hr; by right | done].
Qed.

Lemma code_DeleteExpired_refines now s :
  codes_wf s →
  let r := code_DeleteExpired now s in
  codes_wf r.1 ∧ codes_of r.1 = filter (λ e, Before (ac_ExpiresAt e.2) now = false) (codes_of s).
Proof.
  intros Hwf. unfold code_DeleteExpired.
  pose proof (swept_fold now s (map_to_list (byCodeHash s)) [] s 0 Hwf) as Hf.
  destruct Hf as (Ho & Hh & Hi).
  { by intros h p ?%elem_of_map_to_list. }
  { split_and!; [done | |]; intros ? ?; (split; [intros ?; split; [done |] | by intros [? _]]);
      by intros (? & ? & ?%not_elem_of_nil & _). }
  simpl in Hh, Hi, Ho |- *. remember (foldl _ _ _).1 as s' eqn:Es. clear Es.
  split; [split |].
  - intros h p [Hp Hn]%Hh. destruct (wf_hash s Hwf _ _ Hp) as (c & Hc & Hch & Hci). exists c.
    rewrite Ho. split_and!; [done | done |]. apply Hi. done.
  - intros i p [Hp Hn]%Hi. destruct (wf_id s Hwf _ _ Hp) as (c & Hc & Hci & Hch). exists c.
    rewrite Ho. split_and!; [done | done |]. apply Hh. done.
  - apply map_eq. intros h. apply option_eq. intros c.
    rewrite map_lookup_filter_Some, !codes_of_Some, Ho. simpl. split.
    + intros (p & [Hp Hn]%Hh & Hc). split; [eauto |]. apply not_true_is_false. intros Hb. apply Hn.
      exists h, c. split_and!; [by apply elem_of_map_to_list | done | done].
    + intros [(p & Hp & Hc) Hb]. exists p. split; [| done]. apply Hh. split; [done |].
      intros (h1 & c1 & Hv & Hc1 & Hb1). simplify_eq. congruence.
Qed.

(** The calls on the code store, and their replies. *)
Inductive code_op :=
  | CCreate (c : AuthorizationCode)
  | CFind (now : time) (h : string)
  | CMarkUsed (now : time) (i : string)
  | CDeleteExpired (now : time).

Inductive code_reply :=
  | RDone (r : result ErrorKind unit)
  | RCode (r : result ErrorKind AuthorizationCode).

Definition code_step (op : code_op) (s : AuthorizationCodeStore) : AuthorizationCodeStore * code_reply :=
  match op with
  | CCreate c => let r := code_Create c s in (r.1, RDone r.2)
  | CFind now h => (s, RCode (code_FindByCodeHash now h s))
  | CMarkUsed now i => let r := code_MarkUsed now i s in (r.1, RDone r.2)
  | CDeleteExpired now => ((code_DeleteExpired now s).1, RDone (Ok ()))
  end.

(** The specification: one map from hash to code. *)
Definition has_code (i : string) (m : gmap string AuthorizationCode) : bool :=
  bool_decide (Exists (λ e : string * AuthorizationCode, ac_ID e.2 = i) (map_to_list m)).

Definition code_spec (op : code_op) (m : gmap string AuthorizationCode)
    : gmap string AuthorizationCode * code_reply :=
  match op with
  | CCreate c =>
      match m !! ac_CodeHash c with
      | Some _ => (m, RDone (Err KConflict))
      | None => (<[ac_CodeHash c := c]> m, RDone (Ok ()))
      end
  | CFind now h =>
      (m, RCode (match m !! h with
                 | Some c => if After (ac_ExpiresAt c) now then Ok c else Err KNotFound
                 | None => Err KNotFound
                 end))
  | CMarkUsed now i =>
      ((λ c, if decide (ac_ID c = i) then set_UsedAt c now else c) <$> m,
       RDone (if has_code i m then Ok () else Err KNotFound))
  | CDeleteExpired now => (filter (λ e, Before (ac_ExpiresAt e.2) now = false) m, RDone (Ok ()))
  end.

(** The ids a sequence of calls creates. *)
Definition created_id (op : code_op) : option string :=
  match op with CCreate c => Some (ac_ID c) | _ => None end.

Lemma has_code_true i m :
  has_code i m = true ↔ ∃ h c, m !! h = Some c ∧ ac_ID c = i.
Proof.
  unfold has_code. rewrite bool_decide_eq_true, Exists_exists. split.
  - intros ([h c] & Hin%elem_of_map_to_list & Hi). eauto.
  - intros (h & c & Hm & Hi). exists (h, c). split; [by apply elem_of_map_to_list | done].
Qed.

Lemma code_step_refines op s :
  codes_wf s → (∀ i, created_id op = Some i → byID s !! i = None) →
  codes_wf (code_step op s).1 ∧
  (codes_of (code_step op s).1, (code_step op s).2) = code_spec op (codes_of s).
Proof.
  intros Hwf Hid. destruct op as [c | now h | now i | now]; cbn [code_step code_spec fst snd].
  - destruct (code_Create_refines c s Hwf (Hid _ eq_refl)) as [Hw Hc]. split; [done |].
    destruct (codes_of s !! ac_CodeHash c); [by rewrite Hc |]. destruct Hc as [Hc1 Hc2]. by rewrite Hc1, Hc2.
  - split; [done |]. by rewrite code_Find_refines.
  - destruct (code_MarkUsed_refines now i s Hwf) as (Hw & Hm & Hr). split; [done |]. rewrite Hm.
    do 2 f_equal. pose proof (has_code_true i (codes_of s)) as Hh. unfold code_MarkUsed in *.
    destruct (byID s !! i); cbn [snd] in *.
    + by rewrite (proj2 Hh (proj1 Hr eq_refl)).
    + destruct (has_code i (codes_of s)); [| done]. by rewrite (proj2 Hr (proj1 Hh eq_refl)).
  - destruct (code_DeleteExpired_refines now s Hwf) as [Hw Hm]. by rewrite Hm.
Qed.

(** Which ids a call can leave in the index. *)
Lemma code_step_ids op s i :
  codes_wf s → (∀ j, created_id op = Some j → byID s !! j = None) →
  is_Some (byID (code_step op s).1 !! i) → is_Some (byID s !! i) ∨ created_id op = Some i.
Proof.
  intros Hwf Hid [p Hp].
  destruct (code_step_refines op s Hwf Hid) as [Hw Hc].
  destruct (wf_id _ Hw _ _ Hp) as (c & Hcp & <- & Hh).
  assert (codes_of (code_step op s).1 !! ac_CodeHash c = Some c) as Hm by (apply codes_of_Some; eauto).
  apply (f_equal fst) in Hc. cbn [fst] in Hc. rewrite Hc in Hm. clear -Hm Hwf.
  assert (∀ h c, codes_of s !! h = Some c → is_Some (byID s !! ac_ID c)) as Hold.
  { intros h c' (q & Hq & Hcq)%codes_of_Some. destruct (wf_hash s Hwf _ _ Hq) as (c2 & ? & _ & ?).
    simplify_eq. by eexists. }
  destruct op as [c' | now h | now i | now]; cbn [code_spec fst created_id] in *.
  - destruct (codes_of s !! ac_CodeHash c') eqn:E; cbn [fst] in Hm; [left; eauto |].
    apply lookup_insert_Some in Hm as [[_ ->] | [_ Hm]]; [by right | left; eauto].
  - left; eauto.
  - rewrite lookup_fmap in Hm. destruct (codes_of s !! ac_CodeHash c) as [c0 |] eqn:E; [| done].
    left. apply Hold in E. simpl in Hm. by destruct (decide _); simplify_eq.
  - apply map_lookup_filter_Some in Hm as [Hm _]. left; eauto.
Qed.

Fixpoint code_run {S : Type} (step : code_op → S → S * code_reply) (ops : list code_op) (s : S)
    : S * list code_reply :=
  match ops with
  | [] => (s, [])
  | op :: ops => let r := step op s in let q := code_run step ops r.1 in (q.1, r.2 :: q.2)
  end.

Lemma code_run_refines ops s :
  codes_wf s → NoDup (omap created_id ops) →
  (∀ i, i ∈ omap created_id ops → byID s !! i = None) →
  (codes_of (code_run code_step ops s).1, (code_run code_step ops s).2) =
    code_run code_spec ops (codes_of s).
Proof.
  revert s. induction ops as [| op ops IH]; intros s Hwf Hnd Hfr; [done |].
  assert (∀ i, created_id op = Some i → byID s !! i = None) as Hid.
  { intros i Hi. apply Hfr. simpl. rewrite Hi. constructor. }
  destruct (code_step_refines op s Hwf Hid) as [Hwf' Hstep].
  assert ((codes_of (code_run code_step ops (code_step op s).1).1,
    (code_run code_step ops (code_step op s).1).2) = code_run code_spec ops (codes_of (code_step op s).1)) as IHs.
  { apply IH; [done | |].
    - simpl in Hnd. destruct (created_id op); [by apply NoDup_cons in Hnd as [_ ?] | done].
    - intros i Hi. apply eq_None_not_Some. intros Hs.
      destruct (code_step_ids op s i Hwf Hid Hs) as [[p Hp] | Hop].
      + rewrite Hfr in Hp; [done |]. simpl. destruct (created_id op); [by right | done].
      + simpl in Hnd. rewrite Hop in Hnd. apply NoDup_cons in Hnd as [Hnot _]. done. }
  cbn [code_run]. rewrite <-Hstep. cbn [fst snd]. rewrite <-IHs. done.
Qed.

(** The code store with its two shared-pointer indices behaves as
    one map from code hash to code.  For every sequence of calls that creates
    each id once, all replies agree with the map's, so in particular marking a
    code used through its id is seen by every later lookup through its hash. *)
Theorem code_store_is_a_map (ops : list code_op) :
  NoDup (omap created_id ops) →
  (code_run code_step ops NewAuthorizationCodeStore).2 = (code_run code_spec ops ∅).2.
Proof.
  intros Hnd. pose proof (code_run_refines ops NewAuthorizationCodeStore codes_wf_empty Hnd) as Hr.
  assert (codes_of NewAuthorizationCodeStore = ∅) as E by reflexivity.
  rewrite E in Hr. rewrite <-Hr; [done |]. done.
Qed.

Definition example_code (i h : string) : AuthorizationCode :=
  {| ac_ID := i; ac_CodeHash := h; ac_AgentID := "agent"; ac_ClientID := "client"; ac_Principal := "alice";
     ac_Email := None; ac_DisplayName := ""; ac_RedirectURI := "https://app/cb"; ac_CodeChallenge := "ch";
     ac_Scope := ""; ac_ExpiresAt := 60; ac_UsedAt := None; ac_CreatedAt := 0 |}.

(** C34 at a redemption. *)
Lemma code_store_is_a_map_witness :
  let ops := [CCreate (example_code "i1" "h1"); CCreate (example_code "i2" "h2"); CMarkUsed 5 "i1";
              CFind 6 "h1"; CFind 6 "h2"; CDeleteExpired 70; CFind 6 "h1"] in
  (code_run code_step ops NewAuthorizationCodeStore).2 = (code_run code_spec ops ∅).2.
Proof.
  intros ops. apply (code_store_is_a_map ops). apply (bool_decide_unpack _). vm_compute. exact I.
Defined.

(** ** Refresh tokens *)

Inductive refresh_op :=
  | RfCreate (s : RefreshTokenSession)
  | RfCreateSuccessor (s : RefreshTokenSession) (previous : string)
  | RfMarkUsed (now : time) (signature : string)
  | RfRevokeByRequestID (now : time) (requestID : string)
  | RfRevokeByAgent (now : time) (agentID : string) (principal : option string)
  | RfDeleteExpired (now : time).

Definition refresh_step (op : refresh_op) (s : gmap string refreshTokenSession)
    : gmap string refreshTokenSession :=
  match op with
  | RfCreate x => (refresh_Create x s).1
  | RfCreateSuccessor x previous => (refresh_CreateSuccessor x previous s).1
  | RfMarkUsed now sig => (refresh_MarkUsed now sig s).1
  | RfRevokeByRequestID now rid => refresh_RevokeByRequestID now rid s
  | RfRevokeByAgent now ag p => (revokeByAgent now ag p s).1
  | RfDeleteExpired now => (refresh_DeleteExpired now s).1
  end.

(** How a call may change the sessions that are present. *)
Definition session_evolves (x y : refreshTokenSession) : Prop :=
  rt_RequestID (stored y) = rt_RequestID (stored x) ∧
  rt_Signature (stored y) = rt_Signature (stored x) ∧
  (revoked x = true → revoked y = true) ∧
  (rt_UsedAt (stored x) ≠ None → rt_UsedAt (stored y) ≠ None) ∧
  rt_GrantID (stored y) = rt_GrantID (stored x).

Lemma session_evolves_refl x : session_evolves x x.
Proof. done. Qed.

Lemma revoke_session_evolves now x : session_evolves x (revoke_session now x).
Proof. unfold revoke_session. split_and!; simpl; destruct (rt_UsedAt (stored x)) eqn:?; simpl; congruence. Qed.

#[export] Hint Resolve session_evolves_refl revoke_session_evolves : broker.

(** The session a creating call adds, if it adds one. *)
Definition new_session (op : refresh_op) : option RefreshTokenSession :=
  match op with RfCreate x | RfCreateSuccessor x _ => Some x | _ => None end.

Lemma createLocked_lookup x s sig y :
  (createLocked x s).1 !! sig = Some y →
  s !! sig = Some y ∨ (s !! sig = None ∧ sig = rt_Signature x ∧ y = StoredSession x false).
Proof.
  unfold createLocked. destruct (s !! rt_Signature x) eqn:E; simpl; [by left |].
  rewrite lookup_insert_Some. intros [[<- <-] | [_ ?]]; [right | left]; done.
Qed.

Lemma refresh_step_lookup op s sig y :
  refresh_step op s !! sig = Some y →
  (∃ x, s !! sig = Some x ∧ session_evolves x y) ∨
  (s !! sig = None ∧ ∃ x, new_session op = Some x ∧ sig = rt_Signature x ∧ y = StoredSession x false ∧
    match op with
    | RfCreateSuccessor _ previous => ∃ z, s !! previous = Some z ∧ revoked z = false ∧
        rt_RequestID (stored z) = rt_RequestID x
    | _ => True
    end).
Proof.
  destruct op as [x | x previous | now sg | now rid | now ag p | now]; cbn [refresh_step new_session].
  - intros [? | (? & ? & ?)]%createLocked_lookup; [left; eauto with broker |].
    right. split; [done |]. exists x. done.
  - unfold refresh_CreateSuccessor. destruct (s !! previous) as [z |] eqn:Hz;
      [| intros; left; eauto with broker].
    destruct (revoked z) eqn:Hrv; simpl; [intros; left; eauto with broker |].
    case_bool_decide; simpl; [intros; left; eauto with broker |].
    case_bool_decide; simpl; [| intros; left; eauto with broker].
    intros [? | (? & ? & ?)]%createLocked_lookup; [left; eauto with broker |].
    right. split; [done |]. exists x. split_and!; [done | done | done |]. by exists z.
  - unfold refresh_MarkUsed. destruct (s !! sg) as [z |] eqn:Hz; [| intros; left; eauto with broker].
    destruct (rt_UsedAt (stored z)) eqn:Hu; simpl; [intros; left; eauto with broker |].
    rewrite lookup_insert_Some. intros [[<- <-] | [_ ?]]; left; [| eauto with broker].
    exists z. done.
  - unfold refresh_RevokeByRequestID. rewrite lookup_fmap_Some. intros (x & <- & Hx). left. exists x.
    split; [done |]. destruct (decide _); [apply revoke_session_evolves | done].
  - unfold revokeByAgent. cbn [fst]. rewrite lookup_fmap_Some. intros (x & <- & Hx). left. exists x.
    split; [done |]. destruct (of_agent _ _ _); [apply revoke_session_evolves | done].
  - unfold refresh_DeleteExpired, sweep. cbn [fst]. rewrite map_lookup_filter_Some. intros [? _].
    left; eauto with broker.
Qed.

Definition spent (sig : string) (s : gmap string refreshTokenSession) : Prop :=
  ∀ x, s !! sig = Some x → rt_UsedAt (stored x) ≠ None.

Lemma spent_step op sig s :
  (∀ x, new_session op = Some x → rt_Signature x ≠ sig) → spent sig s → spent sig (refresh_step op s).
Proof.
  intros Hop Hs y [(x & Hx & _ & _ & _ & Hu & _) | (_ & x & Hn & -> & _)]%refresh_step_lookup.
  - apply Hu. by eapply Hs.
  - by destruct (Hop x Hn).
Qed.

Lemma spent_steps ops sig s :
  Forall (λ op, ∀ x, new_session op = Some x → rt_Signature x ≠ sig) ops → spent sig s →
  spent sig (foldl (λ s op, refresh_step op s) s ops).
Proof.
  intros HF. revert s. induction HF as [| op ops Hop _ IH]; intros s Hs; simpl; [done |].
  apply IH. by apply spent_step.
Qed.

(** Refresh tokens are single use.  Once a token's session has been
    marked used, no later rotation of the same token succeeds, whatever other
    sessions are created, rotated, revoked or swept in between. *)
Theorem refresh_token_single_use (now : time) (sig : string) (s : gmap string refreshTokenSession)
    (ops : list refresh_op) (t : time) :
  (refresh_MarkUsed now sig s).2 = Ok () →
  Forall (λ op, ∀ x, new_session op = Some x → rt_Signature x ≠ sig) ops →
  (refresh_MarkUsed t sig (foldl (λ s op, refresh_step op s) (refresh_MarkUsed now sig s).1 ops)).2 =
    Err KNotFound.
Proof.
  intros Hok HF.
  assert (spent sig (refresh_MarkUsed now sig s).1) as Hs.
  { revert Hok. unfold refresh_MarkUsed. destruct (s !! sig) as [x |]; [| done].
    destruct (rt_UsedAt (stored x)); [done |]. intros _ y. cbn [fst]. rewrite lookup_insert_eq.
    by intros [= <-]. }
  pose proof (spent_steps ops sig _ HF Hs) as Hs'. unfold refresh_MarkUsed at 1.
  destruct (_ !! sig) as [y |] eqn:E; [| done]. specialize (Hs' y E).
  by destruct (rt_UsedAt (stored y)).
Qed.

(** Every session of the chain is revoked and used. *)
Definition dead (rid : string) (s : gmap string refreshTokenSession) : Prop :=
  ∀ sig x, s !! sig = Some x → rt_RequestID (stored x) = rid → revoked x = true ∧ rt_UsedAt (stored x) ≠ None.

Lemma dead_step op rid s :
  (∀ x, op = RfCreate x → rt_RequestID x ≠ rid) → dead rid s → dead rid (refresh_step op s).
Proof.
  intros Hop Hd sig y [(x & Hx & Hrid & _ & Hrv & Hu & _) | (_ & x & Hn & _ & -> & Hsucc)]%refresh_step_lookup Hy.
  - destruct (Hd sig x Hx); [congruence |]. auto.
  - simpl in Hy. destruct op as [x' | x' previous | | | |]; simplify_eq/=.
    + by destruct (Hop x eq_refl).
    + destruct Hsucc as (z & Hz & Hrv & Hzr). destruct (Hd previous z Hz Hzr). congruence.
Qed.

Lemma dead_steps ops rid s :
  Forall (λ op, ∀ x, op = RfCreate x → rt_RequestID x ≠ rid) ops → dead rid s →
  dead rid (foldl (λ s op, refresh_step op s) s ops).
Proof.
  intros HF. revert s. induction HF as [| op ops Hop _ IH]; intros s Hs; simpl; [done |].
  apply IH. by apply dead_step.
Qed.

Lemma revoke_dead now rid s : dead rid (refresh_RevokeByRequestID now rid s).
Proof.
  intros sig y. unfold refresh_RevokeByRequestID. rewrite lookup_fmap_Some. intros (x & <- & Hx).
  destruct (decide (rt_RequestID (stored x) = rid)) as [| Hne]; [| by intros].
  intros _. unfold revoke_session. simpl. split; [done |].
  destruct (rt_UsedAt (stored x)) eqn:E; simpl; [by rewrite E | done].
Qed.

(** A revoked refresh chain stays dead.  After the chain of a request
    id has been revoked, and as long as no new authorization reuses that request
    id, no rotation of any of its tokens succeeds and no successor can be added
    to it, whatever happens to the store in between; this includes a successor
    whose predecessor had been rotated before the revocation. *)
Theorem revoked_chain_stays_dead (now : time) (rid : string) (s : gmap string refreshTokenSession)
    (ops : list refresh_op) :
  Forall (λ op, ∀ x, op = RfCreate x → rt_RequestID x ≠ rid) ops →
  let s' := foldl (λ s op, refresh_step op s) (refresh_RevokeByRequestID now rid s) ops in
  (∀ t sig x, s' !! sig = Some x → rt_RequestID (stored x) = rid → (refresh_MarkUsed t sig s').2 = Err KNotFound) ∧
  (∀ x previous, rt_RequestID x = rid → refresh_CreateSuccessor x previous s' = (s', Err KNotFound)).
Proof.
  intros HF s'. assert (dead rid s') as Hd by (apply dead_steps; [done | apply revoke_dead]).
  clearbody s'. split.
  - intros t sig x Hx Hr. destruct (Hd sig x Hx Hr) as [_ Hu]. unfold refresh_MarkUsed. rewrite Hx.
    by destruct (rt_UsedAt (stored x)).
  - intros x previous Hr. unfold refresh_CreateSuccessor. destruct (s' !! previous) as [z |] eqn:Hz; [| done].
    destruct (revoked z) eqn:Hrv; [done |]. simpl. case_bool_decide; [done |]. simpl.
    case_bool_decide as Hzr; [| done]. destruct (Hd previous z Hz); congruence.
Qed.

Definition example_session (sig rid : string) : RefreshTokenSession :=
  {| rt_Signature := sig; rt_RequestID := rid; rt_AgentID := "agent"; rt_ClientID := "client";
     rt_Principal := "alice"; rt_GrantID := None; rt_Email := None; rt_DisplayName := ""; rt_Scope := "";
     rt_ClientAuthMethod := None; rt_ExpiresAt := 1000; rt_UsedAt := None; rt_CreatedAt := 0 |}.

Definition example_refresh_store : gmap string refreshTokenSession :=
  {[ "t1" := StoredSession (example_session "t1" "r1") false ]}.

(** C11 at a token presented twice. *)
Lemma refresh_token_single_use_witness :
  (refresh_MarkUsed 9 "t1" (foldl (λ s op, refresh_step op s) (refresh_MarkUsed 5 "t1" example_refresh_store).1
     [RfCreateSuccessor (example_session "t2" "r1") "t1"])).2 = Err KNotFound.
Proof.
  apply (refresh_token_single_use 5 "t1" example_refresh_store); [reflexivity |].
  repeat constructor. by intros x [= <-].
Defined.

(** C10 when a rotation is in flight: the token was rotated, then the chain is
    revoked, and the successor is refused. *)
Lemma revoked_chain_stays_dead_witness :
  let s' := refresh_RevokeByRequestID 6 "r1" (refresh_MarkUsed 5 "t1" example_refresh_store).1 in
  refresh_CreateSuccessor (example_session "t2" "r1") "t1" s' = (s', Err KNotFound).
Proof.
  destruct (revoked_chain_stays_dead 6 "r1" (refresh_MarkUsed 5 "t1" example_refresh_store).1 [])
    as [_ Hs]; [constructor |]. by apply Hs.
Defined.
