(* ===== verification/ClientAssertion.v ===== *)
(** * Client assertions

    internal/domain/oauth2server/client_assertion.go (private_key_jwt), with the
    key profile of internal/domain/oauth2/cimd/keyset.go and the replay store of
    OAuthSessions.v.  JWS/JWT parsing and signature verification are library
    code: the class [JWT]. *)

From S2P Require Import Prelude ToolApproval ApprovalStore OAuthSessions.

Definition ClientAssertionTypeJWTBearer : string :=
  "urn:ietf:params:oauth:client-assertion-type:jwt-bearer".
Definition MaxAssertionLifetime : duration := (300 * second)%Z.
Definition ClockSkew : duration := (30 * second)%Z.

(** ** Keys *)

(** The parts of a public JWK the profile looks at; [k_material] is the key. *)
Inductive key_params :=
  | KRSA (modulus_bits : option Z)
  | KEC (curve : option string)
  | KOtherType.

Record jwk := MkJwk {
  k_private : bool;
  k_use : option string;
  k_ops : option (list string);
  k_alg : option string;
  k_params : key_params;
  k_material : string;
}.

Definition clientKeyEligible (key : jwk) (signingAlgorithm : string) : bool :=
  if k_private key then false
  else if match k_use key with Some use => negb (bool_decide (use = "sig")) | None => false end then false
  else if match k_ops key with Some ops => negb (bool_decide ("verify" ∈ ops)) | None => false end then false
  else
    match k_params key with
    | KRSA bits =>
        bool_decide (signingAlgorithm = "RS256" ∨ signingAlgorithm = "") &&
        match bits with Some n => bool_decide (2048 ≤ n)%Z | None => false end
    | KEC curve =>
        bool_decide (signingAlgorithm = "ES256" ∨ signingAlgorithm = "") &&
        bool_decide (curve = Some "P-256")
    | KOtherType => false
    end.

(** A key set; the first key with the id is found. *)
Abbreviation key_set := (list (string * jwk)) (only parsing).

Definition LookupKeyID (set : key_set) (kid : string) : option jwk :=
  snd <$> (snd <$> list_find (λ e, e.1 = kid) set).

(** ** Tokens *)

Record jws_header := { hd_alg : option string; hd_kid : option string }.

Record claims := {
  cl_iss : option string;
  cl_sub : option string;
  cl_aud : option (list string);
  cl_exp : option time;
  cl_iat : option time;
  cl_nbf : option time;
  cl_jti : option string;
}.

(** Headers of the signatures of a JWS, and the claims of a JWT whose signature
    verifies under the key. *)
Class JWT := {
  jws_Parse : string → option (list jws_header);
  jwt_ParseString : string → string → jwk → option claims;
}.

(** The claims are those of the token's payload, whichever key verifies it. *)
Class JWTLaws `{JWT} : Prop := {
  jwt_payload tok alg key alg' key' c c' :
    jwt_ParseString tok alg key = Some c → jwt_ParseString tok alg' key' = Some c' → c = c';
}.

Record CIMDMetadata := {
  md_ClientID : string;
  md_ClientName : string;
  md_LogoURI : string;
  md_RedirectURIs : list string;
  md_AuthMethod : string;
  md_SigningAlg : string;
  md_JWKSURI : string;
  md_KeySet : option key_set;
  md_GrantTypes : list string;
  md_ResponseTypes : list string;
  md_PolicyURI : string;
  md_TosURI : string;
}.

Definition set_AuthMethod (md : CIMDMetadata) (method : string) : CIMDMetadata :=
  {| md_ClientID := md_ClientID md; md_ClientName := md_ClientName md; md_LogoURI := md_LogoURI md;
     md_RedirectURIs := md_RedirectURIs md; md_AuthMethod := method; md_SigningAlg := md_SigningAlg md;
     md_JWKSURI := md_JWKSURI md; md_KeySet := md_KeySet md; md_GrantTypes := md_GrantTypes md;
     md_ResponseTypes := md_ResponseTypes md; md_PolicyURI := md_PolicyURI md; md_TosURI := md_TosURI md |}.

Record VerifiedAssertion := {
  va_ClientID : string;
  va_JTI : string;
  va_ExpiresAt : time;
  va_Method : string;
}.

(** Rejections carry the logged category. *)
Inductive verify_error := ErrClientAuthentication (category : string) | ErrUnavailable.

(** [KeysFor] and [RefreshForKID]: [None] is an error, and a refresh may answer
    with no set. *)
Record key_source := {
  ks_KeysFor : CIMDMetadata → option key_set;
  ks_RefreshForKID : CIMDMetadata → string → option (option key_set);
}.

Record ClientAssertionVerifier := {
  v_keys : option key_source;
  v_has_replay : bool;
  v_audiences : list string;
}.

(** Empty audiences are dropped. *)
Definition NewClientAssertionVerifier (keys : option key_source) (has_replay : bool)
    (audiences : list string) : ClientAssertionVerifier :=
  {| v_keys := keys; v_has_replay := has_replay; v_audiences := filter (λ a, a ≠ "") audiences |}.

Definition assertionSigningAlgorithm (name : string) : option string :=
  if decide (name = "" ∨ name = "RS256") then Some "RS256"
  else if decide (name = "ES256") then Some "ES256"
  else None.

Definition assertionJTI (c : claims) : string := default "" (cl_jti c).

(** The category of the rejection, or the verified assertion. *)
Definition validateClaims (now : time) (audiences : list string) (document : CIMDMetadata) (c : claims)
    : result string VerifiedAssertion :=
  if negb (bool_decide (cl_iss c = Some (md_ClientID document)) &&
           bool_decide (cl_sub c = Some (md_ClientID document))) then Err "claims"
  else if negb (existsb (λ a, bool_decide (a ∈ audiences)) (default [] (cl_aud c))) then Err "audience"
  else
    match cl_exp c with
    | None => Err "claims"
    | Some expiresAt =>
        if Before expiresAt (now - ClockSkew) then Err "expired"
        else if After expiresAt (now + (MaxAssertionLifetime + ClockSkew)) then Err "claims"
        else if match cl_iat c with
                | Some issuedAt =>
                    After issuedAt (now + ClockSkew) || negb (After expiresAt issuedAt) ||
                    bool_decide (MaxAssertionLifetime < Sub expiresAt issuedAt)%Z
                | None => false
                end then Err "claims"
        else if match cl_nbf c with
                | Some notBefore => After notBefore (now + ClockSkew)
                | None => false
                end then Err "claims"
        else if decide (assertionJTI c = "") then Err "claims"
        else Ok {| va_ClientID := md_ClientID document; va_JTI := assertionJTI c;
                   va_ExpiresAt := expiresAt; va_Method := "private_key_jwt" |}
    end.

Section verify.
Context `{JWT}.

(** The key lookup with one refresh on an unknown key id. *)
Definition find_key (keys : key_source) (document : CIMDMetadata) (kid : string)
    : result verify_error (option jwk) :=
  match ks_KeysFor keys document with
  | None => Err ErrUnavailable
  | Some set =>
      match LookupKeyID set kid with
      | Some key => Ok (Some key)
      | None =>
          match ks_RefreshForKID keys document kid with
          | None => Err ErrUnavailable
          | Some None => Ok None
          | Some (Some set) => Ok (LookupKeyID set kid)
          end
      end
  end.

Definition reject {A} (category : string) : result verify_error A := Err (ErrClientAuthentication category).

(** Everything before the replay store is consulted. *)
Definition authenticate (v : ClientAssertionVerifier) (now : time) (document : option CIMDMetadata)
    (assertionType assertion : string) : result verify_error (CIMDMetadata * VerifiedAssertion) :=
  match document with
  | None => reject "missing"
  | Some document =>
      if decide (md_ClientID document = "" ∨ assertionType = "" ∨ assertion = "") then reject "missing"
      else if decide (md_AuthMethod document ≠ "private_key_jwt" ∨ assertionType ≠ ClientAssertionTypeJWTBearer)
      then reject "malformed"
      else
        match assertionSigningAlgorithm (md_SigningAlg document) with
        | None => reject "claims"
        | Some algorithm =>
            match jws_Parse assertion with
            | Some [header] =>
                if decide (hd_alg header ≠ Some algorithm) then reject "signature"
                else
                  match hd_kid header with
                  | None => reject "malformed"
                  | Some kid =>
                      if decide (kid = "") then reject "malformed"
                      else
                        match v_keys v with
                        | None => Err ErrUnavailable
                        | Some keys =>
                            found ← find_key keys document kid;
                            match found with
                            | None => reject "signature"
                            | Some key =>
                                if negb (clientKeyEligible key algorithm) then reject "signature"
                                else if match k_alg key with
                                        | Some a => negb (bool_decide (a = algorithm))
                                        | None => false
                                        end then reject "signature"
                                else
                                  match jwt_ParseString assertion algorithm key with
                                  | None => reject "signature"
                                  | Some c =>
                                      match validateClaims now (v_audiences v) document c with
                                      | Err category => reject category
                                      | Ok verified => Ok (document, verified)
                                      end
                                  end
                            end
                        end
                  end
            | _ => reject "malformed"
            end
        end
  end.

Definition Verify (v : ClientAssertionVerifier) (now : time) (document : option CIMDMetadata)
    (assertionType assertion : string) (s : gmap (string * string) Z)
    : gmap (string * string) Z * result verify_error VerifiedAssertion :=
  match authenticate v now document assertionType assertion with
  | Err err => (s, Err err)
  | Ok (document, verified) =>
      if negb (v_has_replay v) then (s, Err ErrUnavailable)
      else
        match replay_Consume (md_ClientID document) (va_JTI verified)
                (va_ExpiresAt verified + ClockSkew) s with
        | (s', Ok _) => (s', Ok verified)
        | (s', Err KConflict) => (s', reject "replayed")
        | (s', Err _) => (s', Err ErrUnavailable)
        end
  end.

End verify.

(** ** What an accepted assertion proves *)

Lemma find_key_from keys document kid key :
  find_key keys document kid = Ok (Some key) →
  ∃ set, (ks_KeysFor keys document = Some set ∨ ks_RefreshForKID keys document kid = Some (Some set)) ∧
    LookupKeyID set kid = Some key.
Proof.
  unfold find_key. destruct (ks_KeysFor keys document) as [set |]; [| done].
  destruct (LookupKeyID set kid) as [key' |] eqn:Hk; [intros [= <-]; eauto |].
  destruct (ks_RefreshForKID keys document kid) as [[set' |] |]; [| done | done].
  intros [= ?]. eauto.
Qed.

(** The claims an accepted assertion carries. *)
Record good_claims (now : time) (audiences : list string) (document : CIMDMetadata) (c : claims)
    (verified : VerifiedAssertion) : Prop := {
  gc_iss : cl_iss c = Some (md_ClientID document);
  gc_sub : cl_sub c = Some (md_ClientID document);
  gc_aud : ∃ l a, cl_aud c = Some l ∧ a ∈ l ∧ a ∈ audiences;
  gc_exp : cl_exp c = Some (va_ExpiresAt verified);
  gc_window : (now - ClockSkew ≤ va_ExpiresAt verified ≤ now + MaxAssertionLifetime + ClockSkew)%Z;
  gc_iat : ∀ t, cl_iat c = Some t → 
    (t ≤ now + ClockSkew ∧ t < va_ExpiresAt verified ≤ t + MaxAssertionLifetime)%Z;
  gc_nbf : ∀ t, cl_nbf c = Some t → (t ≤ now + ClockSkew)%Z;
  gc_jti : cl_jti c = Some (va_JTI verified) ∧ va_JTI verified ≠ "";
  gc_client : va_ClientID verified = md_ClientID document;
}.

Lemma validateClaims_ok now audiences document c verified :
  validateClaims now audiences document c = Ok verified → good_claims now audiences document c verified.
Proof.
  unfold validateClaims. destruct (bool_decide _) eqn:Hi; [| done]. destruct (bool_decide (cl_sub c = _)) eqn:Hs; [| done].
  cbn [andb negb]. destruct (existsb _ _) eqn:Ha; [| done]. cbn [negb].
  destruct (cl_exp c) as [exp |] eqn:He; [| done].
  destruct (Before _ _) eqn:Hb; [done |]. destruct (After exp _) eqn:Haf; [done |].
  destruct (match cl_iat c with Some _ => _ | None => _ end) eqn:Hiat; [done |].
  destruct (match cl_nbf c with Some _ => _ | None => _ end) eqn:Hnbf; [done |].
  destruct (decide _) as [| Hj]; [done |]. intros [= <-]. breflect.
  apply existsb_exists in Ha as (a & Hal & Haa). apply bool_decide_eq_true_1 in Haa.
  unfold Before in Hb. apply bool_decide_eq_false_1 in Hb. apply After_false in Haf.
  split; simpl; [done | done | | done | lia | | | | done].
  - destruct (cl_aud c) as [l |]; [| done]. exists l, a. simpl in Hal. rewrite list_elem_of_In. done.
  - intros t Ht. rewrite Ht in Hiat. breflect. apply After_false in H. apply After_spec in H1.
    unfold Sub, MaxAssertionLifetime, second, int64_max, int64_min in *. lia.
  - intros t Ht. rewrite Ht in Hnbf. apply After_false in Hnbf. lia.
  - unfold assertionJTI in *. by destruct (cl_jti c).
Qed.

Section sound.
Context `{JWT}.

Lemma authenticate_ok v now document atype assertion d verified :
  authenticate v now document atype assertion = Ok (d, verified) →
  document = Some d ∧ md_AuthMethod d = "private_key_jwt" ∧
  ∃ algorithm kid keys set key c,
    assertionSigningAlgorithm (md_SigningAlg d) = Some algorithm ∧
    jws_Parse assertion = Some [ {| hd_alg := Some algorithm; hd_kid := Some kid |} ] ∧
    v_keys v = Some keys ∧
    (ks_KeysFor keys d = Some set ∨ ks_RefreshForKID keys d kid = Some (Some set)) ∧
    LookupKeyID set kid = Some key ∧ clientKeyEligible key algorithm = true ∧
    jwt_ParseString assertion algorithm key = Some c ∧
    good_claims now (v_audiences v) d c verified.
Proof.
  unfold authenticate. destruct document as [d' |]; [| done]. destruct (decide _); [done |].
  destruct (decide _) as [| Hm]; [done |].
  destruct (assertionSigningAlgorithm (md_SigningAlg d')) as [algorithm |] eqn:Halg; [| done].
  destruct (jws_Parse assertion) as [[| hd [|]] |] eqn:Hp; try done.
  destruct (decide _) as [| Hha]; [done |]. destruct (hd_kid hd) as [kid |] eqn:Hkid; [| done].
  destruct (decide _); [done |]. destruct (v_keys v) as [keys |] eqn:Hkeys; [| done].
  unfold mbind, result_bind. destruct (find_key keys d' kid) as [[key |] |] eqn:Hfk; [| done | done].
  destruct (clientKeyEligible key algorithm) eqn:Hel; [| done]. cbn [negb].
  destruct (match k_alg key with Some _ => _ | None => _ end); [done |].
  destruct (jwt_ParseString assertion algorithm key) as [c |] eqn:Hc; [| done].
  destruct (validateClaims _ _ _ _) as [verified' |] eqn:Hv; [| done]. intros [= <- <-].
  apply find_key_from in Hfk as (set & Hset & Hlk). apply validateClaims_ok in Hv.
  split_and!; [done | destruct (decide (md_AuthMethod d' = "private_key_jwt")); tauto |].
  exists algorithm, kid, keys, set, key, c. split_and!; try done.
  destruct hd as [ha hk]. simpl in *. subst hk. destruct (decide (ha = Some algorithm)) as [-> |]; done.
Qed.

Lemma Verify_ok v now document atype assertion s s' verified :
  Verify v now document atype assertion s = (s', Ok verified) →
  ∃ d, authenticate v now document atype assertion = Ok (d, verified) ∧
    s !! (md_ClientID d, va_JTI verified) = None ∧
    s' = <[(md_ClientID d, va_JTI verified) := (va_ExpiresAt verified + ClockSkew)%Z]> s.
Proof.
  unfold Verify. destruct (authenticate _ _ _ _ _) as [[d verified'] |] eqn:Ha; [| done].
  destruct (negb _); [done |]. unfold replay_Consume.
  destruct (ClientAssertionReplay_Validate _) as [[] | k]; [| by destruct k].
  destruct (s !! _) eqn:Hs; [done |]. intros [= <- <-]. eauto.
Qed.

(** Consumed ids are only forgotten once they have expired. *)
Definition remembers (k : string * string) (until t : time) (s : gmap (string * string) Z) : Prop :=
  s !! k = Some until ∨ (until < t)%Z.

End sound.

(** What happens to the replay store: verifications, and cleanup sweeps. *)
Inductive replay_op `{JWT} :=
  | OpVerify (v : ClientAssertionVerifier) (now : time) (document : option CIMDMetadata)
      (assertionType assertion : string)
  | OpCleanup (now : time).

Section replay.
Context `{JWT}.

Definition replay_step (op : replay_op) (s : gmap (string * string) Z) : gmap (string * string) Z :=
  match op with
  | OpVerify v now document atype assertion => (Verify v now document atype assertion s).1
  | OpCleanup now => (replay_DeleteExpired now s).1
  end.

Lemma Verify_keeps v now document atype assertion s k x :
  s !! k = Some x → (Verify v now document atype assertion s).1 !! k = Some x.
Proof.
  intros Hk. unfold Verify. destruct (authenticate _ _ _ _ _) as [[d verified] |]; [| done].
  destruct (negb _); [done |]. unfold replay_Consume.
  destruct (ClientAssertionReplay_Validate _) as [[] | e]; [| by destruct e].
  destruct (s !! (md_ClientID d, va_JTI verified)) eqn:Hs; [done |]. simpl.
  rewrite lookup_insert_ne; [done |]. intros <-. congruence.
Qed.

Lemma remembers_step op k until t s :
  match op with OpCleanup now => (now ≤ t)%Z | _ => True end →
  remembers k until t s → remembers k until t (replay_step op s).
Proof.
  intros Hop [Hs | Ht]; [| by right]. destruct op as [v now d a b | now]; cbn [replay_step].
  - left. by apply Verify_keeps.
  - unfold replay_DeleteExpired, sweep. cbn [fst]. destruct (Before until now) eqn:Hb.
    + right. unfold Before in Hb. apply bool_decide_eq_true_1 in Hb. lia.
    + left. by apply map_lookup_filter_Some.
Qed.

Lemma remembers_steps ops k until t s :
  Forall (λ op, match op with OpCleanup now => (now ≤ t)%Z | _ => True end) ops →
  remembers k until t s → remembers k until t (foldl (λ s op, replay_step op s) s ops).
Proof.
  intros HF. revert s. induction HF as [| op ops Hop _ IH]; intros s Hs; simpl; [done |].
  apply IH. by apply remembers_step.
Qed.

End replay.

(** A client assertion is accepted only if its document asks for
    private_key_jwt, its single signature uses the document's algorithm and
    verifies under an eligible key published for that key id, issuer and subject
    are the client, an approved audience is named, its lifetime is within the
    limits, and its jti is new; the jti is then recorded past the assertion's
    expiry. *)
Theorem Verify_sound `{JWT} (v : ClientAssertionVerifier) (now : time) (document : option CIMDMetadata)
    (atype assertion : string) (s s' : gmap (string * string) Z) (verified : VerifiedAssertion) :
  Verify v now document atype assertion s = (s', Ok verified) →
  ∃ d algorithm kid keys set key c,
    document = Some d ∧ md_AuthMethod d = "private_key_jwt" ∧
    assertionSigningAlgorithm (md_SigningAlg d) = Some algorithm ∧
    jws_Parse assertion = Some [ {| hd_alg := Some algorithm; hd_kid := Some kid |} ] ∧
    v_keys v = Some keys ∧
    (ks_KeysFor keys d = Some set ∨ ks_RefreshForKID keys d kid = Some (Some set)) ∧
    LookupKeyID set kid = Some key ∧ clientKeyEligible key algorithm = true ∧
    jwt_ParseString assertion algorithm key = Some c ∧
    good_claims now (v_audiences v) d c verified ∧
    s !! (md_ClientID d, va_JTI verified) = None ∧
    s' = <[(md_ClientID d, va_JTI verified) := (va_ExpiresAt verified + ClockSkew)%Z]> s.
Proof.
  intros Hv. apply Verify_ok in Hv as (d & Ha & Hs & ->).
  apply authenticate_ok in Ha as (-> & Hm & al & kid & keys & set & key & c & ? & ? & ? & ? & ? & ? & ? & ?).
  exists d, al, kid, keys, set, key, c. done.
Qed.


(** ** Witnesses *)

Section example.

(** A token library that knows one token, signed by one key. *)
Let key : jwk := MkJwk false (Some "sig") None (Some "RS256") (KRSA (Some 2048%Z)) "n".
Let payload : claims :=
  {| cl_iss := Some "c"; cl_sub := Some "c"; cl_aud := Some ["https://broker"];
     cl_exp := Some (1000 * second)%Z; cl_iat := Some (900 * second)%Z; cl_nbf := None; cl_jti := Some "j" |}.

Definition one_token : JWT := {|
  jws_Parse tok := if decide (tok = "token")
    then Some [ {| hd_alg := Some "RS256"; hd_kid := Some "k1" |} ] else None;
  jwt_ParseString tok alg k :=
    if decide (tok = "token" ∧ alg = "RS256" ∧ k_material k = "n") then Some payload else None;
|}.

Lemma one_token_laws : @JWTLaws one_token.
Proof. split. simpl. intros ???????. repeat case_decide; congruence. Qed.

Definition example_document : CIMDMetadata :=
  {| md_ClientID := "c"; md_ClientName := "C"; md_LogoURI := ""; md_RedirectURIs := [];
     md_AuthMethod := "private_key_jwt"; md_SigningAlg := ""; md_JWKSURI := ""; md_KeySet := None;
     md_GrantTypes := []; md_ResponseTypes := []; md_PolicyURI := ""; md_TosURI := "" |}.
Definition example_verifier : ClientAssertionVerifier :=
  NewClientAssertionVerifier
    (Some {| ks_KeysFor _ := Some []; ks_RefreshForKID _ _ := Some (Some [("k1", key)]) |})
    true ["https://broker"; ""].
Definition example_verified : VerifiedAssertion :=
  {| va_ClientID := "c"; va_JTI := "j"; va_ExpiresAt := (1000 * second)%Z;
     va_Method := "private_key_jwt" |}.
Definition example_start : gmap (string * string) Z := ∅.
Definition example_store : gmap (string * string) Z :=
  {[("c", "j") := (1030 * second)%Z]}.

End example.

Lemma Verify_sound_witness :
  ∃ key, clientKeyEligible key "RS256" = true ∧
    @jwt_ParseString one_token "token" "RS256" key ≠ None.
Proof.
  destruct (@Verify_sound one_token example_verifier (950 * second)%Z (Some example_document)
    ClientAssertionTypeJWTBearer "token" example_start example_store example_verified ltac:(reflexivity))
    as (d & al & kid & keys & set & key & c & [= <-] & _ & [= <-] & _ & _ & _ & _ & He & Hc & _).
  exists key. split; [exact He | rewrite Hc; discriminate].
Defined.

