(* ===== verification/UserGrants.v ===== *)
(** * User grants

    internal/domain/storage/user_grant.go and the in-memory repository of
    internal/adapters/storage/memory/user_grants.go: a grant map with an index by
    principal and agent and an index by agent.  Every method holds the
    repository's lock and exchanges deep copies, so each is one function on the
    repository. *)

From S2P Require Import Prelude ToolApproval ApprovalStore OAuthSessions.

Abbreviation GrantID := string (only parsing).
Abbreviation PermissionSetID := string (only parsing).
Abbreviation ServiceID := string (only parsing).

Record GrantedPermissionSetEntry := GrantedEntry {
  ge_PermissionSetID : PermissionSetID;
  ge_IncludedServiceIDs : list ServiceID;
}.
#[export] Instance GrantedPermissionSetEntry_eq_dec : EqDecision GrantedPermissionSetEntry.
Proof. solve_decision. Defined.

Record UserGrant := MkGrant {
  ug_ID : GrantID;
  ug_Principal : Principal;
  ug_AgentID : AgentID;
  ug_ValidUntil : option time;
  ug_GrantedPermissionSets : list GrantedPermissionSetEntry;
  ug_CreatedAt : time;
  ug_UpdatedAt : time;
}.
#[export] Instance UserGrant_eq_dec : EqDecision UserGrant.
Proof. solve_decision. Defined.

Definition entry_valid (e : GrantedPermissionSetEntry) : bool :=
  nonzero_id (ge_PermissionSetID e) && negb (bool_decide (ge_IncludedServiceIDs e = [])) &&
  forallb nonzero_id (ge_IncludedServiceIDs e).

(** [ValidateForCreate]; [Validate] also asks for an id. *)
Definition UserGrant_ValidateForCreate (now : time) (g : UserGrant) : bool :=
  nonempty (ug_Principal g) && nonzero_id (ug_AgentID g) &&
  match ug_ValidUntil g with Some t => negb (Before t now) | None => true end &&
  forallb entry_valid (ug_GrantedPermissionSets g).

Definition UserGrant_Validate (now : time) (g : UserGrant) : bool :=
  nonzero_id (ug_ID g) && UserGrant_ValidateForCreate now g.

Definition IsActive (now : time) (g : UserGrant) : bool :=
  match ug_ValidUntil g with Some t => After t now | None => true end.

(** ** The repository *)

Record UserGrantRepository := GrantRepo {
  grants : gmap GrantID UserGrant;
  byPrincipalAndAgent : gmap string GrantID;
  grantIDsByAgent : gmap AgentID (list GrantID);
}.

Definition NewUserGrantRepository : UserGrantRepository := GrantRepo ∅ ∅ ∅.

Definition principalAgentKey (principal : Principal) (agentID : AgentID) : string :=
  principal +:+ ":" +:+ agentID.

Definition set_identity (g : UserGrant) (i : GrantID) (created : time) : UserGrant :=
  MkGrant i (ug_Principal g) (ug_AgentID g) (ug_ValidUntil g) (ug_GrantedPermissionSets g) created (ug_UpdatedAt g).

(** Upsert; [newID] is the id drawn when the grant has none.  The result is the
    grant with the persisted metadata copied back. *)
Definition grant_Create (newID : GrantID) (grant : UserGrant) (r : UserGrantRepository)
    : UserGrantRepository * UserGrant :=
  let stored := if nonzero_id (ug_ID grant) then grant else set_identity grant newID (ug_CreatedAt grant) in
  let key := principalAgentKey (ug_Principal stored) (ug_AgentID stored) in
  match byPrincipalAndAgent r !! key with
  | Some existingID =>
      let created :=
        match grants r !! existingID with Some g => ug_CreatedAt g | None => ug_CreatedAt stored end in
      let stored := set_identity stored existingID created in
      (GrantRepo (<[existingID := stored]> (grants r)) (byPrincipalAndAgent r) (grantIDsByAgent r), stored)
  | None =>
      (GrantRepo (<[ug_ID stored := stored]> (grants r))
         (<[key := ug_ID stored]> (byPrincipalAndAgent r))
         (<[ug_AgentID stored := default [] (grantIDsByAgent r !! ug_AgentID stored) ++ [ug_ID stored]]>
            (grantIDsByAgent r)), stored)
  end.

Definition grant_Get (grantID : GrantID) (r : UserGrantRepository) : result ErrorKind UserGrant :=
  match grants r !! grantID with Some g => Ok g | None => Err KNotFound end.

Definition grant_Update (grant : UserGrant) (r : UserGrantRepository)
    : UserGrantRepository * result ErrorKind UserGrant :=
  match grants r !! ug_ID grant with
  | None => (r, Err KNotFound)
  | Some existing =>
      let stored := set_identity grant (ug_ID grant) (ug_CreatedAt existing) in
      (GrantRepo (<[ug_ID grant := stored]> (grants r)) (byPrincipalAndAgent r) (grantIDsByAgent r), Ok stored)
  end.

(** The first occurrence is overwritten by the last element, which is cut off. *)
Definition swap_remove (grantID : GrantID) (l : list GrantID) : list GrantID :=
  match list_find (eq grantID) l, last l with
  | Some (i, _), Some z => take (length l - 1) (<[i := z]> l)
  | _, _ => l
  end.

Definition removeGrantFromAgentIndex (agentID : AgentID) (grantID : GrantID)
    (index : gmap AgentID (list GrantID)) : gmap AgentID (list GrantID) :=
  match index !! agentID with
  | None => index
  | Some l =>
      let l' := swap_remove grantID l in
      if bool_decide (l' = []) then delete agentID index else <[agentID := l']> index
  end.

Definition grant_Delete (grantID : GrantID) (r : UserGrantRepository) : UserGrantRepository :=
  match grants r !! grantID with
  | None => r
  | Some grant =>
      GrantRepo (delete grantID (grants r))
        (delete (principalAgentKey (ug_Principal grant) (ug_AgentID grant)) (byPrincipalAndAgent r))
        (removeGrantFromAgentIndex (ug_AgentID grant) grantID (grantIDsByAgent r))
  end.

Definition grant_FindByPrincipalAndAgent (principal : Principal) (agentID : AgentID) (r : UserGrantRepository)
    : result ErrorKind UserGrant :=
  match byPrincipalAndAgent r !! principalAgentKey principal agentID with
  | None => Err KNotFound
  | Some grantID => match grants r !! grantID with Some g => Ok g | None => Err KNotFound end
  end.

Definition grant_ListByPrincipalAndAgent (principal : Principal) (agentID : AgentID) (r : UserGrantRepository)
    : list UserGrant :=
  match byPrincipalAndAgent r !! principalAgentKey principal agentID with
  | None => []
  | Some grantID => match grants r !! grantID with Some g => [g] | None => [] end
  end.

(** One iteration of the loop of [DeleteByAgent]. *)
Definition drop_grant (acc : gmap GrantID UserGrant * gmap string GrantID) (grantID : GrantID)
    : gmap GrantID UserGrant * gmap string GrantID :=
  match acc.1 !! grantID with
  | None => acc
  | Some grant =>
      (delete grantID acc.1, delete (principalAgentKey (ug_Principal grant) (ug_AgentID grant)) acc.2)
  end.

Definition grant_DeleteByAgent (agentID : AgentID) (r : UserGrantRepository) : UserGrantRepository :=
  match grantIDsByAgent r !! agentID with
  | None | Some [] => r
  | Some grantIDs =>
      let acc := foldl drop_grant (grants r, byPrincipalAndAgent r) grantIDs in
      GrantRepo acc.1 acc.2 (delete agentID (grantIDsByAgent r))
  end.

Definition grant_DeleteByPrincipalAndAgentID (principal : Principal) (agentID : AgentID)
    (r : UserGrantRepository) : UserGrantRepository * result ErrorKind UserGrant :=
  let key := principalAgentKey principal agentID in
  match byPrincipalAndAgent r !! key with
  | None => (r, Err KNotFound)
  | Some grantID =>
      match grants r !! grantID with
      | None => (r, Err KNotFound)
      | Some grant =>
          (GrantRepo (delete grantID (grants r)) (delete key (byPrincipalAndAgent r))
             (removeGrantFromAgentIndex agentID grantID (grantIDsByAgent r)), Ok grant)
      end
  end.

(** The queries that visit every grant; the visiting order is the map's. *)
Definition all_grants (r : UserGrantRepository) : list UserGrant := snd <$> map_to_list (grants r).

Definition grant_ListByPrincipal (now : time) (principal : Principal) (r : UserGrantRepository) : list UserGrant :=
  filter (λ g, ug_Principal g = principal ∧ IsActive now g = true) (all_grants r).

Definition grantReferencesService (serviceID : ServiceID) (g : UserGrant) : bool :=
  existsb (λ e, bool_decide (serviceID ∈ ge_IncludedServiceIDs e)) (ug_GrantedPermissionSets g).

Definition grant_ListByPrincipalAndServiceID (principal : Principal) (serviceID : ServiceID)
    (r : UserGrantRepository) : gset AgentID :=
  list_to_set (ug_AgentID <$>
    filter (λ g, ug_Principal g = principal ∧ grantReferencesService serviceID g = true) (all_grants r)).

Definition grant_CountAgentsByPrincipalAndServiceID (principal : Principal) (serviceID : ServiceID)
    (r : UserGrantRepository) : nat := size (grant_ListByPrincipalAndServiceID principal serviceID r).

Definition grant_CountGrantsReferencingPermissionSet (now : time) (psID : PermissionSetID)
    (r : UserGrantRepository) : nat :=
  length (filter (λ g, IsActive now g = true ∧
    existsb (λ e, bool_decide (ge_PermissionSetID e = psID)) (ug_GrantedPermissionSets g) = true) (all_grants r)).
