(* ===== verification/UserGrantsFacts.v ===== *)
(** * The grant repository is a map

    The three maps of UserGrants.v stay consistent and, seen from outside, behave
    as one map from principal and agent to grant. *)

From S2P Require Import Prelude ToolApproval ApprovalStore OAuthSessions UserGrants.

(** ** The composite key *)

(** Agent ids are UUIDs: their text has no colon. *)
Definition colon_free (a : AgentID) : Prop := ":"%char ∉ bytes a.
#[export] Instance colon_free_dec a : Decision (colon_free a).
Proof. unfold colon_free. apply _. Defined.

Definition key_of (g : UserGrant) : string := principalAgentKey (ug_Principal g) (ug_AgentID g).

Lemma split_last_inj (c : ascii) (p q a b : list ascii) :
  c ∉ a → c ∉ b → p ++ c :: a = q ++ c :: b → p = q ∧ a = b.
Proof.
  intros Ha Hb. revert q. induction p as [| x p IH]; intros [| y q]; simpl; intros E; simplify_eq; [done | | |].
  - destruct Ha. set_solver.
  - destruct Hb. set_solver.
  - destruct (IH q) as [-> ->]; [congruence | done].
Qed.

Lemma principalAgentKey_inj p q a b :
  colon_free a → colon_free b → principalAgentKey p a = principalAgentKey q b → p = q ∧ a = b.
Proof.
  intros Ha Hb E%(f_equal bytes). unfold principalAgentKey in E. rewrite !bytes_app in E.
  apply split_last_inj in E as [?%(inj bytes) ?%(inj bytes)]; done.
Qed.

(** ** The agent index *)

Lemma swap_remove_perm i l : i ∈ l → i :: swap_remove i l ≡ₚ l.
Proof.
  intros Hin. unfold swap_remove.
  destruct (list_find (eq i) l) as [[n j] |] eqn:Hf.
  2:{ apply list_find_None in Hf. rewrite Forall_forall in Hf. by destruct (Hf i Hin). }
  apply list_find_Some in Hf as (Hn & <- & _).
  destruct (list_elem_of_split_length l n i Hn) as (l1 & l2 & -> & ->).
  destruct l2 as [| z l2 _] using rev_ind.
  - rewrite last_app. simpl. rewrite length_app. simpl.
    rewrite list_insert_id by done. replace (length l1 + 1 - 1) with (length l1) by lia.
    rewrite take_app_length. by rewrite Permutation_app_comm.
  - rewrite app_comm_cons, app_assoc, last_snoc.
    rewrite <-app_assoc, <-app_comm_cons, insert_app_r_alt, Nat.sub_diag by lia. simpl.
    rewrite !length_app. simpl. rewrite length_app. simpl.
    replace (length l1 + S (length l2 + 1) - 1) with (length (l1 ++ z :: l2)) by (rewrite length_app; simpl; lia).
    rewrite app_comm_cons, app_assoc, take_app_length. solve_Permutation.
Qed.

Lemma swap_remove_spec i l :
  NoDup l → NoDup (swap_remove i l) ∧ ∀ x, x ∈ swap_remove i l ↔ x ∈ l ∧ x ≠ i.
Proof.
  intros Hnd. destruct (decide (i ∈ l)) as [Hin | Hout].
  - pose proof (swap_remove_perm i l Hin) as Hp. generalize dependent (swap_remove i l). intros l' Hp.
    rewrite <-Hp in Hnd. apply NoDup_cons in Hnd as [Hni Hnd]. split; [done |]. intros x.
    rewrite <-Hp. set_solver.
  - assert (swap_remove i l = l) as ->.
    { unfold swap_remove. destruct (list_find (eq i) l) as [[n j] |] eqn:Hf; [| done].
      apply list_find_Some in Hf as (Hn & <- & _). by apply list_elem_of_lookup_2 in Hn. }
    split; [done |]. set_solver.
Qed.

Definition index_of (index : gmap AgentID (list GrantID)) (a : AgentID) : list GrantID :=
  default [] (index !! a).

Lemma removeGrantFromAgentIndex_spec a i index :
  (∀ b l, index !! b = Some l → NoDup l ∧ l ≠ []) →
  let index' := removeGrantFromAgentIndex a i index in
  (∀ b l, index' !! b = Some l → NoDup l ∧ l ≠ []) ∧
  ∀ b x, x ∈ index_of index' b ↔ x ∈ index_of index b ∧ ¬ (b = a ∧ x = i).
Proof.
  intros Hwf. unfold removeGrantFromAgentIndex. destruct (index !! a) as [l |] eqn:Ha.
  2:{ split; [done |]. intros b x. split; [| by intros [? _]]. intros Hx. split; [done |].
      intros [-> _]. unfold index_of in Hx. rewrite Ha in Hx. set_solver. }
  destruct (Hwf a l Ha) as [Hnd _]. destruct (swap_remove_spec i l Hnd) as [Hnd' Hel].
  case_bool_decide as He.
  - split.
    + intros b l'. rewrite lookup_delete_Some. intros [_ ?]. eauto.
    + intros b x. unfold index_of. destruct (decide (a = b)) as [<- | Hne].
      * rewrite lookup_delete_eq, Ha. simpl. specialize (Hel x). rewrite He in Hel. set_solver.
      * rewrite lookup_delete_ne by done. naive_solver.
  - split.
    + intros b l'. rewrite lookup_insert_Some. intros [[<- <-] | [_ ?]]; eauto.
    + intros b x. unfold index_of. destruct (decide (a = b)) as [<- | Hne].
      * rewrite lookup_insert_eq, Ha. simpl. rewrite Hel. naive_solver.
      * rewrite lookup_insert_ne by done. naive_solver.
Qed.

(** ** The invariant *)

(** Grants and the pair index name each other. *)
Record paired (G : gmap GrantID UserGrant) (B : gmap string GrantID) : Prop := {
  pr_grant i g : G !! i = Some g → B !! key_of g = Some i;
  pr_key k i : B !! k = Some i → ∃ g, G !! i = Some g ∧ key_of g = k;
}.

Record grants_wf (r : UserGrantRepository) : Prop := {
  gw_paired : paired (grants r) (byPrincipalAndAgent r);
  gw_id i g : grants r !! i = Some g → ug_ID g = i ∧ colon_free (ug_AgentID g);
  gw_lists a l : grantIDsByAgent r !! a = Some l → NoDup l ∧ l ≠ [];
  gw_index a i : i ∈ index_of (grantIDsByAgent r) a ↔ ∃ g, grants r !! i = Some g ∧ ug_AgentID g = a;
}.

Lemma grants_wf_empty : grants_wf NewUserGrantRepository.
Proof.
  split; [by split | done | done |]. intros a i. unfold index_of. simpl.
  rewrite lookup_empty. simpl. split; [set_solver | by intros (? & ? & _)].
Qed.

Lemma paired_inj G B i j g h :
  paired G B → G !! i = Some g → G !! j = Some h → key_of g = key_of h → i = j.
Proof. intros Hp Hi%(pr_grant _ _ Hp) Hj%(pr_grant _ _ Hp) E. congruence. Qed.

Lemma paired_delete G B i g :
  paired G B → G !! i = Some g → paired (delete i G) (delete (key_of g) B).
Proof.
  intros Hp Hi. split.
  - intros j h. rewrite lookup_delete_Some. intros [Hne Hj]. rewrite lookup_delete_ne; [by eapply pr_grant |].
    intros E. by destruct Hne; eapply paired_inj.
  - intros k j. rewrite lookup_delete_Some. intros [Hne Hk].
    destruct (pr_key _ _ Hp k j Hk) as (h & Hj & <-). exists h. split; [| done].
    rewrite lookup_delete_ne; [done |]. intros <-. congruence.
Qed.

(** Replacing a grant by one of the same pair. *)
Lemma paired_update G B i g h :
  paired G B → G !! i = Some g → key_of h = key_of g → paired (<[i := h]> G) B.
Proof.
  intros Hp Hi E. split.
  - intros j x. rewrite lookup_insert_Some. intros [[<- <-] | [_ Hj]]; [rewrite E |]; by eapply pr_grant.
  - intros k j Hk. destruct (pr_key _ _ Hp k j Hk) as (x & Hj & <-). destruct (decide (i = j)) as [<- |].
    + exists h. rewrite lookup_insert_eq. split; [done |]. congruence.
    + exists x. by rewrite lookup_insert_ne.
Qed.

Lemma fold_drop G B l :
  paired G B →
  let acc := foldl drop_grant (G, B) l in
  paired acc.1 acc.2 ∧ ∀ j, acc.1 !! j = if decide (j ∈ l) then None else G !! j.
Proof.
  revert G B. induction l as [| i l IH]; intros G B Hp; simpl; [done |].
  assert (paired (drop_grant (G, B) i).1 (drop_grant (G, B) i).2 ∧
    (drop_grant (G, B) i).1 = delete i G) as [Hp' HG].
  { unfold drop_grant. simpl. destruct (G !! i) as [g |] eqn:Hi; simpl.
    - split; [by eapply paired_delete | done].
    - split; [done |]. by rewrite delete_id. }
  destruct (drop_grant (G, B) i) as [G' B'] eqn:E. simpl in *. subst G'.
  destruct (IH _ _ Hp') as [IH1 IH2]. split; [done |]. intros j. rewrite IH2.
  destruct (decide (j = i)) as [-> | Hne].
  - rewrite lookup_delete_eq. rewrite (decide_True (P := i ∈ i :: l)) by set_solver. by destruct (decide _).
  - rewrite lookup_delete_ne by done. repeat case_decide; set_solver.
Qed.

(** ** Refinement *)

Abbreviation pair_map := (gmap (string * string) UserGrant) (only parsing).

(** The map a repository stands for. *)
Definition represents (r : UserGrantRepository) (m : pair_map) : Prop :=
  ∀ p a g, m !! (p, a) = Some g ↔ ∃ i, grants r !! i = Some g ∧ ug_Principal g = p ∧ ug_AgentID g = a.

Inductive grant_op :=
  | GCreate (newID : GrantID) (g : UserGrant)
  | GUpdate (g : UserGrant)
  | GGet (i : GrantID)
  | GFind (p : Principal) (a : AgentID)
  | GList (p : Principal) (a : AgentID)
  | GDelete (i : GrantID)
  | GDeleteByAgent (a : AgentID)
  | GDeleteByPair (p : Principal) (a : AgentID).

Inductive grant_reply :=
  | RGrant (r : result ErrorKind UserGrant)
  | RGrants (l : list UserGrant)
  | RNone.

Definition grant_step (op : grant_op) (r : UserGrantRepository) : UserGrantRepository * grant_reply :=
  match op with
  | GCreate newID g => let x := grant_Create newID g r in (x.1, RGrant (Ok x.2))
  | GUpdate g => let x := grant_Update g r in (x.1, RGrant x.2)
  | GGet i => (r, RGrant (grant_Get i r))
  | GFind p a => (r, RGrant (grant_FindByPrincipalAndAgent p a r))
  | GList p a => (r, RGrants (grant_ListByPrincipalAndAgent p a r))
  | GDelete i => (grant_Delete i r, RNone)
  | GDeleteByAgent a => (grant_DeleteByAgent a r, RNone)
  | GDeleteByPair p a => let x := grant_DeleteByPrincipalAndAgentID p a r in (x.1, RGrant x.2)
  end.

(** The grant with an id, in the map. *)
Definition with_id (i : GrantID) (m : pair_map) : option UserGrant :=
  snd <$> (snd <$> list_find (λ e, ug_ID e.2 = i) (map_to_list m)).

Definition found (o : option UserGrant) : result ErrorKind UserGrant :=
  match o with Some g => Ok g | None => Err KNotFound end.

Definition own_id (newID : GrantID) (g : UserGrant) : GrantID :=
  if nonzero_id (ug_ID g) then ug_ID g else newID.

(** The specification. *)
Definition grant_spec (op : grant_op) (m : pair_map) : pair_map * grant_reply :=
  match op with
  | GCreate newID g =>
      let pair := (ug_Principal g, ug_AgentID g) in
      let g' := match m !! pair with
                | Some old => set_identity g (ug_ID old) (ug_CreatedAt old)
                | None => set_identity g (own_id newID g) (ug_CreatedAt g)
                end in
      (<[pair := g']> m, RGrant (Ok g'))
  | GUpdate g =>
      match with_id (ug_ID g) m with
      | Some old =>
          let g' := set_identity g (ug_ID g) (ug_CreatedAt old) in
          (<[(ug_Principal g, ug_AgentID g) := g']> m, RGrant (Ok g'))
      | None => (m, RGrant (Err KNotFound))
      end
  | GGet i => (m, RGrant (found (with_id i m)))
  | GFind p a => (m, RGrant (found (m !! (p, a))))
  | GList p a => (m, RGrants (match m !! (p, a) with Some g => [g] | None => [] end))
  | GDelete i => (filter (λ e, ug_ID e.2 ≠ i) m, RNone)
  | GDeleteByAgent a => (filter (λ e, e.1.2 ≠ a) m, RNone)
  | GDeleteByPair p a => (delete (p, a) m, RGrant (found (m !! (p, a))))
  end.

(** What callers respect: agent ids are UUIDs, a created grant's id is not the
    id of another pair's grant, and an update keeps the grant's pair. *)
Definition op_ok (op : grant_op) (m : pair_map) : Prop :=
  match op with
  | GCreate newID g =>
      colon_free (ug_AgentID g) ∧
      map_Forall (λ pair old, ug_ID old = own_id newID g → pair = (ug_Principal g, ug_AgentID g)) m
  | GUpdate g => map_Forall (λ pair old, ug_ID old = ug_ID g → pair = (ug_Principal g, ug_AgentID g)) m
  | GFind _ a | GList _ a | GDeleteByPair _ a => colon_free a
  | _ => True
  end.
#[export] Instance op_ok_dec op m : Decision (op_ok op m).
Proof. destruct op; apply _. Defined.

Section refines.
Context (r : UserGrantRepository) (m : pair_map).
Context (Hwf : grants_wf r) (Hrep : represents r m).

Lemma rep_lookup i g : grants r !! i = Some g → m !! (ug_Principal g, ug_AgentID g) = Some g.
Proof. intros Hi. apply Hrep. eauto. Qed.

Lemma with_id_spec i : with_id i m = grants r !! i.
Proof.
  apply option_eq. intros g. unfold with_id.
  rewrite fmap_Some. setoid_rewrite fmap_Some. split.
  - intros ([[p a] g'] & ([n e] & Hf & E) & ->). simpl in E. subst e.
    apply list_find_Some in Hf as (Hn & Hid & _). apply list_elem_of_lookup_2, elem_of_map_to_list in Hn.
    apply Hrep in Hn as (j & Hj & _). destruct (gw_id _ Hwf _ _ Hj) as [E _]. simpl in *. congruence.
  - intros Hi. destruct (gw_id _ Hwf _ _ Hi) as [Hid _].
    destruct (list_find (λ e : (string * string) * UserGrant, ug_ID e.2 = i) (map_to_list m)) as [[n [[p a] g']] |] eqn:Hf.
    + exists ((p, a), g'). split; [by eexists |]. simpl.
      apply list_find_Some in Hf as (Hn & Hid' & _). apply list_elem_of_lookup_2, elem_of_map_to_list in Hn.
      apply Hrep in Hn as (j & Hj & _). destruct (gw_id _ Hwf _ _ Hj) as [E _]. simpl in *. congruence.
    + apply list_find_None in Hf. rewrite Forall_forall in Hf.
      destruct (Hf ((ug_Principal g, ug_AgentID g), g)); [| done].
      apply elem_of_map_to_list. by eapply rep_lookup.
Qed.

(** The pair index agrees with the map, on agent ids that are UUIDs. *)
Lemma index_spec p a :
  colon_free a →
  (byPrincipalAndAgent r !! principalAgentKey p a ≫= λ i, grants r !! i) = m !! (p, a) ∧
  (m !! (p, a) = None → byPrincipalAndAgent r !! principalAgentKey p a = None).
Proof.
  intros Ha. destruct (byPrincipalAndAgent r !! principalAgentKey p a) as [i |] eqn:Hk; simpl.
  - destruct (pr_key _ _ (gw_paired _ Hwf) _ _ Hk) as (g & Hi & Eg).
    destruct (gw_id _ Hwf _ _ Hi) as [_ Hc].
    apply principalAgentKey_inj in Eg as [Hp Hag]; [| done | done].
    assert (m !! (p, a) = Some g) as -> by (apply Hrep; eauto). done.
  - split; [| done]. symmetry. apply eq_None_not_Some. intros [g (i & Hi & <- & <-)%Hrep].
    apply (pr_grant _ _ (gw_paired _ Hwf)) in Hi. unfold key_of in Hi. congruence.
Qed.

Definition refined (r' : UserGrantRepository) (m' : pair_map) : Prop := grants_wf r' ∧ represents r' m'.

(** Storing a new version of a grant under its id. *)
Lemma refined_replace i g h :
  grants r !! i = Some g → ug_ID h = i → ug_Principal h = ug_Principal g → ug_AgentID h = ug_AgentID g →
  refined (GrantRepo (<[i := h]> (grants r)) (byPrincipalAndAgent r) (grantIDsByAgent r))
    (<[(ug_Principal h, ug_AgentID h) := h]> m).
Proof.
  intros Hi Hid Hp Ha. assert (key_of h = key_of g) as Hk by (unfold key_of; congruence).
  destruct (gw_id _ Hwf _ _ Hi) as [Hgid Hc]. split; [split; cbn [grants byPrincipalAndAgent grantIDsByAgent] |].
  - eapply paired_update; [apply Hwf | done | done].
  - intros j x. rewrite lookup_insert_Some. intros [[<- <-] | [_ Hj]]; [| by eapply gw_id].
    split; [done |]. by rewrite Ha.
  - apply Hwf.
  - intros a j. rewrite (gw_index _ Hwf). split; intros (x & Hx & <-).
    + destruct (decide (i = j)) as [<- |].
      * exists h. rewrite lookup_insert_eq. split; [done |]. congruence.
      * exists x. by rewrite lookup_insert_ne.
    + apply lookup_insert_Some in Hx as [[<- <-] | [_ Hx]]; eauto.
  - intros p a x. cbn [grants]. rewrite lookup_insert_Some. setoid_rewrite lookup_insert_Some. split.
    + intros [[[= <- <-] <-] | [Hne (j & Hj & <- & <-)%Hrep]]; [exists i; auto |].
      exists j. split; [| done]. right. split; [| done]. intros <-. destruct Hne. congruence.
    + intros (j & [[<- <-] | [Hne Hj]] & <- & <-); [by left |]. right. split; [| by eapply rep_lookup].
      intros [=]. destruct Hne. eapply paired_inj; [apply Hwf | exact Hi | exact Hj |].
      unfold key_of. congruence.
Qed.

(** Removing the grants whose id is [dead]. *)
Lemma refined_remove (dead : GrantID → Prop) G' B' I' m' :
  paired G' B' → (∀ j g, G' !! j = Some g ↔ grants r !! j = Some g ∧ ¬ dead j) →
  (∀ a l, I' !! a = Some l → NoDup l ∧ l ≠ []) →
  (∀ a x, x ∈ index_of I' a ↔ x ∈ index_of (grantIDsByAgent r) a ∧ ¬ dead x) →
  (∀ pair g, m' !! pair = Some g ↔ m !! pair = Some g ∧ ¬ dead (ug_ID g)) →
  refined (GrantRepo G' B' I') m'.
Proof.
  intros Hp HG HI Hx Hm. split; [split; cbn [grants byPrincipalAndAgent grantIDsByAgent] |].
  - done.
  - intros i g [Hi _]%HG. by eapply gw_id.
  - done.
  - intros a i. rewrite Hx, (gw_index _ Hwf). setoid_rewrite HG. naive_solver.
  - intros p a g. cbn [grants]. rewrite Hm, (Hrep p a g). setoid_rewrite HG. split.
    + intros [(i & Hi & ? & ?) Hd]. exists i. split_and!; try done. by destruct (gw_id _ Hwf _ _ Hi) as [<- _].
    + intros (i & [Hi Hd] & ? & ?). split; [eauto |]. by destruct (gw_id _ Hwf _ _ Hi) as [-> _].
Qed.

(** Removing one grant with its index entries. *)
Lemma refined_delete i g m' :
  grants r !! i = Some g → (∀ pair x, m' !! pair = Some x ↔ m !! pair = Some x ∧ ug_ID x ≠ i) →
  refined (GrantRepo (delete i (grants r)) (delete (key_of g) (byPrincipalAndAgent r))
    (removeGrantFromAgentIndex (ug_AgentID g) i (grantIDsByAgent r))) m'.
Proof.
  intros Hi Hm. destruct (removeGrantFromAgentIndex_spec (ug_AgentID g) i (grantIDsByAgent r) (gw_lists _ Hwf))
    as [Hl Hx]. apply (refined_remove (eq i)).
  - eapply paired_delete; [apply Hwf | done].
  - intros j x. rewrite lookup_delete_Some. naive_solver.
  - done.
  - intros a x. rewrite Hx. split; intros [Hin Hn]; (split; [done |]).
    + intros <-. apply Hn. apply (gw_index _ Hwf) in Hin as (h & Hh & <-). split; congruence.
    + by intros [_ ->].
  - intros pair x. rewrite Hm. naive_solver.
Qed.

(** Adding a grant for a pair that has none. *)
Lemma refined_add g :
  colon_free (ug_AgentID g) → m !! (ug_Principal g, ug_AgentID g) = None → grants r !! ug_ID g = None →
  refined (GrantRepo (<[ug_ID g := g]> (grants r)) (<[key_of g := ug_ID g]> (byPrincipalAndAgent r))
      (<[ug_AgentID g := default [] (grantIDsByAgent r !! ug_AgentID g) ++ [ug_ID g]]> (grantIDsByAgent r)))
    (<[(ug_Principal g, ug_AgentID g) := g]> m).
Proof.
  intros Hc Hm Hi. set (i := ug_ID g) in *.
  destruct (index_spec (ug_Principal g) (ug_AgentID g) Hc) as [_ Hk]. specialize (Hk Hm).
  assert (∀ j h, grants r !! j = Some h → key_of h ≠ key_of g) as Hkey.
  { intros j h Hj E. apply (pr_grant _ _ (gw_paired _ Hwf)) in Hj. unfold key_of in *. congruence. }
  split; [split; cbn [grants byPrincipalAndAgent grantIDsByAgent] |].
  - split.
    + intros j h. rewrite lookup_insert_Some. intros [[<- <-] | [Hne Hj]]; [apply lookup_insert_eq |].
      rewrite lookup_insert_ne by (apply not_eq_sym; eauto). by eapply pr_grant; [apply Hwf |].
    + intros k j. rewrite lookup_insert_Some. intros [[<- <-] | [Hne Hj]].
      * exists g. by rewrite lookup_insert_eq.
      * destruct (pr_key _ _ (gw_paired _ Hwf) _ _ Hj) as (h & Hh & <-). exists h. split; [| done].
        rewrite lookup_insert_ne; [done |]. intros <-. congruence.
  - intros j h. rewrite lookup_insert_Some. intros [[<- <-] | [_ Hj]]; [done | by eapply gw_id].
  - intros a l. rewrite lookup_insert_Some. intros [[<- <-] | [_ Hl]]; [| by eapply gw_lists].
    split; [| by intros [_ ?]%app_eq_nil]. apply NoDup_app. split_and!.
    + destruct (grantIDsByAgent r !! ug_AgentID g) eqn:E; simpl; [by eapply gw_lists | constructor].
    + intros x Hx ->%list_elem_of_singleton. apply (gw_index _ Hwf) in Hx as (h & Hh & _). congruence.
    + apply NoDup_singleton.
  - intros a j. unfold index_of. setoid_rewrite lookup_insert_Some.
    pose proof (gw_index _ Hwf a j) as Hix. unfold index_of in Hix.
    destruct (decide (ug_AgentID g = a)) as [<- | Hne].
    + rewrite lookup_insert_eq. simpl. rewrite elem_of_app, Hix, list_elem_of_singleton. split.
      * intros [(h & Hh & Ha) | ->]; [| eauto]. exists h. split; [| done]. right. split; [| done]. congruence.
      * intros (h & [[<- <-] | [_ Hh]] & Ha); eauto.
    + rewrite lookup_insert_ne by done. rewrite Hix. split.
      * intros (h & Hh & Ha). exists h. split; [| done]. right. split; [| done]. congruence.
      * intros (h & [[<- <-] | [_ Hh]] & Ha); [done | eauto].
  - intros p a x. cbn [grants]. rewrite lookup_insert_Some. setoid_rewrite lookup_insert_Some. split.
    + intros [[[= <- <-] <-] | [Hne (j & Hj & <- & <-)%Hrep]]; [exists i; auto |].
      exists j. split; [| done]. right. split; [| done]. congruence.
    + intros (j & [[<- <-] | [Hne Hj]] & <- & <-); [by left |]. right. split; [| by eapply rep_lookup].
      intros [=]. destruct (Hkey _ _ Hj). unfold key_of. congruence.
Qed.

Lemma create_refines newID g :
  op_ok (GCreate newID g) m →
  refined (grant_step (GCreate newID g) r).1 (grant_spec (GCreate newID g) m).1 ∧
  (grant_step (GCreate newID g) r).2 = (grant_spec (GCreate newID g) m).2.
Proof.
  intros [Hc Hid]. cbn [grant_step grant_spec fst snd]. unfold grant_Create.
  set (stored := if nonzero_id (ug_ID g) then g else _).
  assert (stored = set_identity g (own_id newID g) (ug_CreatedAt g)) as Es.
  { unfold stored, own_id. destruct (nonzero_id (ug_ID g)); [by destruct g | done]. }
  clearbody stored. subst stored. cbn [ug_Principal ug_AgentID ug_ID ug_CreatedAt set_identity].
  destruct (index_spec (ug_Principal g) (ug_AgentID g) Hc) as [Hix Hnone].
  destruct (byPrincipalAndAgent r !! _) as [i |] eqn:Hk.
  - destruct (pr_key _ _ (gw_paired _ Hwf) _ _ Hk) as (old & Hi & Ek). simpl in Hix. rewrite Hi in Hix.
    rewrite Hi, <-Hix. destruct (gw_id _ Hwf _ _ Hi) as [Ei _]. rewrite Ei. split; [| done].
    pose proof (proj1 (Hrep _ _ _) (eq_sym Hix)) as (j & Hj & Hp & Ha).
    exact (refined_replace i old (set_identity g i (ug_CreatedAt old)) Hi eq_refl (eq_sym Hp) (eq_sym Ha)).
  - simpl in Hix. rewrite <-Hix. split; [| done].
    apply (refined_add (set_identity g (own_id newID g) (ug_CreatedAt g))); [done | done |].
    simpl. apply eq_None_not_Some. intros [old Hi]. destruct (gw_id _ Hwf _ _ Hi) as [Ei _].
    pose proof (Hid _ _ (rep_lookup _ _ Hi) Ei) as E. pose proof (rep_lookup _ _ Hi) as Hm.
    rewrite E in Hm. congruence.
Qed.

(** The calls of one kind agree with the map. *)
Definition op_refines (op : grant_op) : Prop :=
  refined (grant_step op r).1 (grant_spec op m).1 ∧ (grant_step op r).2 = (grant_spec op m).2.

Lemma update_op_refines g : op_ok (GUpdate g) m → op_refines (GUpdate g).
Proof.
  intros Hok. unfold op_refines. cbn [grant_step grant_spec fst snd]. unfold grant_Update.
  rewrite with_id_spec. destruct (grants r !! ug_ID g) as [old |] eqn:Hi; [| by split].
  pose proof (rep_lookup _ _ Hi) as Hm. destruct (gw_id _ Hwf _ _ Hi) as [Ei _].
  pose proof (Hok _ _ Hm Ei) as [= Hp Ha]. split; [| done].
  by apply (refined_replace (ug_ID g) old (set_identity g (ug_ID g) (ug_CreatedAt old))).
Qed.

Lemma delete_op_refines i : op_refines (GDelete i).
Proof.
  split; [| done]. cbn [grant_step grant_spec fst]. unfold grant_Delete.
  destruct (grants r !! i) as [g |] eqn:Hi.
  - apply refined_delete; [done |]. intros pair x. by rewrite map_lookup_filter_Some.
  - rewrite map_filter_id; [by split |]. intros [p a] x (j & Hj & _)%Hrep. simpl.
    destruct (gw_id _ Hwf _ _ Hj) as [-> _]. congruence.
Qed.

(** The agent's grants are those listed in the index. *)
Lemma agent_filter a pair x :
  filter (λ e, e.1.2 ≠ a) m !! pair = Some x ↔
  m !! pair = Some x ∧ ug_ID x ∉ index_of (grantIDsByAgent r) a.
Proof.
  destruct pair as [p b]. rewrite map_lookup_filter_Some. simpl. split; intros [Hm Hn]; (split; [done |]).
  - intros (h & Hh & Ha)%(gw_index _ Hwf). apply Hrep in Hm as (j & Hj & Hp & Hb).
    destruct (gw_id _ Hwf _ _ Hj) as [E _]. congruence.
  - intros ->. apply Hn. apply (gw_index _ Hwf). apply Hrep in Hm as (j & Hj & Hp & Hb).
    destruct (gw_id _ Hwf _ _ Hj) as [E _]. exists x. by rewrite E.
Qed.

Lemma delete_by_agent_refines a : op_refines (GDeleteByAgent a).
Proof.
  split; [| done]. cbn [grant_step grant_spec fst]. unfold grant_DeleteByAgent.
  pose proof (agent_filter a) as Hfl. unfold index_of in Hfl.
  destruct (grantIDsByAgent r !! a) as [[| i l] |] eqn:Hl; [by destruct (gw_lists _ Hwf _ _ Hl) | |].
  - destruct (fold_drop _ _ (i :: l) (gw_paired _ Hwf)) as [Hp HG].
    apply (refined_remove (λ x, x ∈ i :: l)); [done | | | | done].
    + intros j g. rewrite HG. destruct (decide _); naive_solver.
    + intros b l'. rewrite lookup_delete_Some. intros [_ ?]. by eapply gw_lists.
    + intros b x. unfold index_of. destruct (decide (a = b)) as [<- | Hne].
      * rewrite lookup_delete_eq, Hl. set_solver.
      * rewrite lookup_delete_ne by done. split; [| by intros [? _]]. intros Hx. split; [done |]. intros Hin.
        assert (x ∈ index_of (grantIDsByAgent r) a) as Hin' by (unfold index_of; by rewrite Hl).
        apply (gw_index _ Hwf) in Hin' as (g & Hg & Ha). apply (gw_index _ Hwf) in Hx as (g' & Hg' & Hb).
        destruct Hne. congruence.
  - rewrite map_filter_id; [by split |]. intros pair x Hx.
    assert (filter (λ e, e.1.2 ≠ a) m !! pair = Some x) as Hf.
    { apply Hfl. split; [done |]. simpl. set_solver. }
    by apply map_lookup_filter_Some in Hf as [_ ?].
Qed.

Lemma delete_by_pair_refines p a : colon_free a → op_refines (GDeleteByPair p a).
Proof.
  intros Hok. unfold op_refines. cbn [grant_step grant_spec fst snd].
  unfold grant_DeleteByPrincipalAndAgentID. destruct (index_spec p a Hok) as [Hix _].
  destruct (byPrincipalAndAgent r !! _) as [i |] eqn:Hk; simpl in Hix; [| rewrite <-Hix, delete_id by done; by split].
  destruct (grants r !! i) as [g |] eqn:Hi; rewrite <-Hix; [| rewrite delete_id by done; by split].
  split; [| done]. pose proof (proj1 (Hrep _ _ _) (eq_sym Hix)) as (j & Hj & <- & <-).
  change (principalAgentKey (ug_Principal g) (ug_AgentID g)) with (key_of g).
  apply refined_delete; [done |]. intros pair x. rewrite lookup_delete_Some.
  destruct (gw_id _ Hwf _ _ Hi) as [Eg _]. split.
  - intros [Hne Hx]. split; [done |]. destruct pair as [p b]. apply Hrep in Hx as (n & Hn & <- & <-).
    destruct (gw_id _ Hwf _ _ Hn) as [-> _]. intros ->. congruence.
  - intros [Hx Hne]. split; [| done]. intros <-. congruence.
Qed.

Lemma grant_step_refines op :
  op_ok op m →
  refined (grant_step op r).1 (grant_spec op m).1 ∧ (grant_step op r).2 = (grant_spec op m).2.
Proof.
  intros Hok. destruct op as [newID g | g | i | p a | p a | i | a | p a];
    [by apply create_refines | by apply update_op_refines | | | |
     by apply delete_op_refines | by apply delete_by_agent_refines | by apply delete_by_pair_refines];
    (split; [by split |]); cbn [grant_step grant_spec snd]; simpl in Hok.
  - unfold grant_Get. by rewrite with_id_spec.
  - unfold grant_FindByPrincipalAndAgent. destruct (index_spec p a Hok) as [<- _].
    by destruct (byPrincipalAndAgent r !! _).
  - unfold grant_ListByPrincipalAndAgent. destruct (index_spec p a Hok) as [<- _].
    by destruct (byPrincipalAndAgent r !! _).
Qed.

End refines.

Fixpoint grant_run {S : Type} (step : grant_op → S → S * grant_reply) (ops : list grant_op) (s : S)
    : list grant_reply :=
  match ops with
  | [] => []
  | op :: ops => (step op s).2 :: grant_run step ops (step op s).1
  end.

(** Every call respects the callers' contract at the time it is made. *)
Fixpoint ops_ok (ops : list grant_op) (m : pair_map) : Prop :=
  match ops with
  | [] => True
  | op :: ops => op_ok op m ∧ ops_ok ops (grant_spec op m).1
  end.

Lemma grant_run_refines ops r m :
  grants_wf r → represents r m → ops_ok ops m → grant_run grant_step ops r = grant_run grant_spec ops m.
Proof.
  revert r m. induction ops as [| op ops IH]; intros r m Hwf Hrep; [done |]. intros [Hok Hoks].
  destruct (grant_step_refines r m Hwf Hrep op Hok) as [[Hwf' Hrep'] Hr]. cbn [grant_run]. rewrite Hr.
  f_equal. by apply IH.
Qed.

(** The grant repository with its three maps behaves as one map from
    principal and agent to grant.  For every sequence of calls whose agent ids are
    UUIDs, whose created ids are not another pair's and whose updates keep the
    pair, all replies are the map's: creation is an upsert that keeps id and
    creation time, and every deletion, by id, pair or agent, removes exactly the
    grants it names from all lookups. *)
Theorem grant_repository_is_a_map (ops : list grant_op) :
  ops_ok ops ∅ → grant_run grant_step ops NewUserGrantRepository = grant_run grant_spec ops ∅.
Proof.
  apply grant_run_refines; [apply grants_wf_empty |]. intros p a g. rewrite lookup_empty.
  split; [done |]. by intros (i & Hi & _).
Qed.

(** C33 at an upsert, a cascade and a revocation. *)
Lemma grant_repository_is_a_map_witness :
  let g i p a := MkGrant i p a None [] 5 5 in
  let ops := [GCreate "n1" (g "g1" "p" "a"); GCreate "n2" (g zero_uuid "q" "a"); GCreate "n3" (g "g3" "p" "a");
              GFind "p" "a"; GCreate "n4" (g "g4" "p" "b"); GDeleteByAgent "a"; GFind "q" "a"; GFind "p" "b";
              GDeleteByPair "p" "b"; GGet "g4"] in
  grant_run grant_step ops NewUserGrantRepository = grant_run grant_spec ops ∅.
Proof.
  intros g ops. apply (grant_repository_is_a_map ops).
  cbn [ops_ok ops]. split_and!; try exact I; apply (bool_decide_unpack _); vm_compute; exact I.
Defined.
