(* ===== verification/Consent.v ===== *)
(** * The consent service

    internal/domain/consent/service.go: granting, renewing and revoking a user's
    consent for an agent, and the access check every token operation makes.  The
    repositories of grants and refresh sessions are the state; agents, permission
    sets and third-party sessions are read through the class [ConsentPorts]. *)

From S2P Require Import Prelude ToolApproval ApprovalStore OAuthSessions UserGrants.

(** ** Agents and permission sets (internal/domain/storage) *)

(** A string type; the validators reject other values, and the consent rules treat
    any value but "mandatory" as optional. *)
Inductive RequirementType := Mandatory | Optional | OtherRequirement (value : string).
#[export] Instance RequirementType_eq_dec : EqDecision RequirementType.
Proof. solve_decision. Defined.

Record ServiceRequirement := {
  sr_ServiceID : ServiceID;
  sr_RequirementType : RequirementType;
  sr_RequiredScopes : list string;
  sr_RequireAllScopes : bool;
}.

Record AgentPermissionSetEntry := {
  aps_PermissionSetID : PermissionSetID;
  aps_RequirementType : RequirementType;
}.

Record Agent := {
  ag_ID : AgentID;
  ag_CanonicalID : option string;
  ag_ClientID : option string;
  ag_ExternalID : option string;
  ag_DisplayName : string;
  ag_Description : string;
  ag_GovernanceURL : option string;
  ag_UserDocumentationURL : option string;
  ag_AgentInterfaceURL : option string;
  ag_ServiceRequirements : list ServiceRequirement;
  ag_PermissionSets : list AgentPermissionSetEntry;
  ag_RedirectURIs : list string;
  ag_AllowedScopes : list string;
  ag_ClientURIs : list string;
  ag_CreatedAt : time;
  ag_UpdatedAt : time;
}.

(** An agent that issues local tokens, with the fields consent looks at. *)
Definition simple_agent (i : AgentID) (requirements : list ServiceRequirement)
    (sets : list AgentPermissionSetEntry) (clientURIs : list string) : Agent :=
  {| ag_ID := i; ag_CanonicalID := None; ag_ClientID := None; ag_ExternalID := None; ag_DisplayName := "Agent";
     ag_Description := "An agent"; ag_GovernanceURL := None; ag_UserDocumentationURL := None;
     ag_AgentInterfaceURL := None; ag_ServiceRequirements := requirements; ag_PermissionSets := sets;
     ag_RedirectURIs := []; ag_AllowedScopes := []; ag_ClientURIs := clientURIs; ag_CreatedAt := 0; ag_UpdatedAt := 0 |}.

Record ServiceScope := {
  ss_ServiceID : ServiceID;
  ss_Scopes : list string;
  ss_RequirementType : RequirementType;
}.

Record PermissionSet := {
  ps_ID : PermissionSetID;
  ps_CanonicalID : option string;
  ps_ClearCanonicalID : bool;
  ps_Name : string;
  ps_Description : string;
  ps_ServiceScopes : list ServiceScope;
  ps_CreatedAt : time;
  ps_UpdatedAt : time;
}.

Inductive ClientType := ProxyClient | CIMDClient | LocalClient | AmbiguousClient.
#[export] Instance ClientType_eq_dec : EqDecision ClientType.
Proof. solve_decision. Defined.

Definition agent_ClientType (a : Agent) : ClientType :=
  if bool_decide (is_Some (ag_ClientID a)) && negb (bool_decide (ag_ClientURIs a = [])) then AmbiguousClient
  else if bool_decide (is_Some (ag_ClientID a)) then ProxyClient
  else if negb (bool_decide (ag_ClientURIs a = [])) then CIMDClient
  else LocalClient.

(** ** Errors and ports *)

Inductive consent_error :=
  | ErrAgentNotFound | ErrInvalidScopes | ErrAgentAccessDenied | ErrGrantExpired | ErrGrantNotFound
  | ErrUnconnectedServices | ErrMissingMandatoryPS | ErrInvalidServiceInclusion | ErrGrantValidation
  | ErrInvalidPermissionSets | ErrRepository (k : ErrorKind).

(** Agent repository, permission-set service and session repository. *)
Class ConsentPorts := {
  agents_Get : AgentID → result ErrorKind Agent;
  ps_ValidateIDs : list PermissionSetID → bool;
  ps_GetByIDs : list PermissionSetID → result ErrorKind (list PermissionSet);
  sessions_ListActiveByPrincipal : Principal → result ErrorKind (list ServiceID);
}.

(** The first error of a loop. *)
Fixpoint each {E A} (f : A → result E unit) (l : list A) : result E unit :=
  match l with
  | [] => Ok ()
  | x :: l => match f x with Ok _ => each f l | Err e => Err e end
  end.

Definition guard_ {E} (b : bool) (e : E) : result E unit := if b then Ok () else Err e.

(** ** The validators *)

Abbreviation consent_result := (result consent_error unit) (only parsing).

(** The services a permission set declares; a later set of the same id wins. *)
Definition ps_service_ids (resolved : list PermissionSet) : gmap PermissionSetID (gset ServiceID) :=
  foldl (λ m ps, <[ps_ID ps := list_to_set (ss_ServiceID <$> ps_ServiceScopes ps)]> m) ∅ resolved.

Definition validateScopeInclusionWithResolved (entries : list GrantedPermissionSetEntry)
    (resolved : list PermissionSet) : consent_result :=
  let ids := ps_service_ids resolved in
  each (λ entry,
    match ids !! ge_PermissionSetID entry with
    | None => Err ErrInvalidServiceInclusion
    | Some valid =>
        each (λ svc, guard_ (bool_decide (svc ∈ valid)) ErrInvalidScopes) (ge_IncludedServiceIDs entry)
    end) entries.

Definition declared_ps (agent : Agent) : gmap PermissionSetID RequirementType :=
  foldl (λ m e, <[aps_PermissionSetID e := aps_RequirementType e]> m) ∅ (ag_PermissionSets agent).

Definition sr_services (agent : Agent) : gset ServiceID :=
  list_to_set (sr_ServiceID <$> ag_ServiceRequirements agent).
Definition sr_mandatory (agent : Agent) : gset ServiceID :=
  list_to_set (sr_ServiceID <$> filter (λ r, sr_RequirementType r = Mandatory) (ag_ServiceRequirements agent)).

(** The service scopes of a permission set the agent may receive. *)
Definition usable_scope (agent : Agent) (ss : ServiceScope) : bool :=
  bool_decide (sr_services agent = ∅) || bool_decide (ss_ServiceID ss ∈ sr_services agent).

Definition scope_mandatory (agent : Agent) (ss : ServiceScope) : bool :=
  usable_scope agent ss &&
  (bool_decide (ss_ServiceID ss ∈ sr_mandatory agent) || bool_decide (ss_RequirementType ss = Mandatory)).

(** The two maps the loop over the resolved sets builds. *)
Definition ps_valid (agent : Agent) (resolved : list PermissionSet) : gmap PermissionSetID (gset ServiceID) :=
  foldl (λ m ps, <[ps_ID ps :=
    list_to_set (ss_ServiceID <$> filter (λ ss, usable_scope agent ss = true) (ps_ServiceScopes ps))]> m) ∅ resolved.
Definition ps_mandatory (agent : Agent) (resolved : list PermissionSet) : gmap PermissionSetID (list ServiceID) :=
  foldl (λ m ps, <[ps_ID ps := default [] (m !! ps_ID ps) ++
    (ss_ServiceID <$> filter (λ ss, scope_mandatory agent ss = true) (ps_ServiceScopes ps))]> m) ∅ resolved.

Definition validateGrantStructureWithResolved (agent : Agent) (entries : list GrantedPermissionSetEntry)
    (resolved : list PermissionSet) : consent_result :=
  if decide (ag_PermissionSets agent = []) then Err ErrMissingMandatoryPS
  else if decide (entries = []) then Err ErrMissingMandatoryPS
  else
    let declared := declared_ps agent in
    let granted : gset PermissionSetID := list_to_set (ge_PermissionSetID <$> entries) in
    let valid := ps_valid agent resolved in
    let mandatory := ps_mandatory agent resolved in
    _ ← each (λ e, guard_ (bool_decide (is_Some (declared !! ge_PermissionSetID e))) ErrGrantValidation) entries;
    _ ← guard_ (forallb (λ a, bool_decide (aps_RequirementType a = Mandatory →
                                           aps_PermissionSetID a ∈ granted)) (ag_PermissionSets agent))
          ErrMissingMandatoryPS;
    _ ← each (λ e, guard_ (negb (bool_decide (declared !! ge_PermissionSetID e = Some Mandatory) &&
                                 bool_decide (ge_IncludedServiceIDs e = []))) ErrInvalidServiceInclusion) entries;
    each (λ e,
      match valid !! ge_PermissionSetID e with
      | None => Ok ()
      | Some v =>
          _ ← each (λ svc, guard_ (bool_decide (svc ∈ v)) ErrInvalidServiceInclusion) (ge_IncludedServiceIDs e);
          each (λ svc, guard_ (bool_decide (svc ∈ ge_IncludedServiceIDs e)) ErrInvalidServiceInclusion)
            (default [] (mandatory !! ge_PermissionSetID e))
      end) entries.

Definition ValidateSubmission (entries : list GrantedPermissionSetEntry) (active : list ServiceID) : consent_result :=
  if decide (entries = []) then Ok ()
  else
    let included := concat (ge_IncludedServiceIDs <$> entries) in
    guard_ (forallb (λ svc, bool_decide (svc ∈ active)) included) ErrUnconnectedServices.

(** ** The service *)

Record GrantRequest := {
  gr_Principal : Principal;
  gr_AgentID : AgentID;
  gr_ValidUntil : option time;
  gr_GrantedPermissionSets : list GrantedPermissionSetEntry;
}.

(** The two repositories the service changes. *)
Record consent_world := CWorld {
  cw_grants : UserGrantRepository;
  cw_refresh : gmap string refreshTokenSession;
}.

Definition grantMatchesRequest (g : UserGrant) (req : GrantRequest) : bool :=
  bool_decide (ug_ValidUntil g = gr_ValidUntil req) &&
  bool_decide (ug_GrantedPermissionSets g = gr_GrantedPermissionSets req).

(** The readings of the clock and the UUID one invocation draws. *)
Record consent_env := CEnv { ce_clk : nat → time; ce_newID : GrantID }.

Definition grants_act {A} (f : UserGrantRepository → UserGrantRepository * A) : prog consent_world A :=
  act (λ w, let '(r, x) := f (cw_grants w) in (CWorld r (cw_refresh w), x)).
Definition grants_read {A} (f : UserGrantRepository → A) : prog consent_world A :=
  act (λ w, (w, f (cw_grants w))).

Definition revokeRefreshSessions (now : time) (principal : Principal) (agentID : AgentID) : prog consent_world unit :=
  act (λ w, (CWorld (cw_grants w) (RevokeByPrincipalAndAgent now principal agentID (cw_refresh w)).1, ())).

Section service.
Context `{ConsentPorts}.
Abbreviation handler A := (prog consent_world (result consent_error A)).

(** Everything before the grant repository is consulted; nothing is changed. *)
Definition validate_request (req : GrantRequest) : consent_result :=
  match agents_Get (gr_AgentID req) with
  | Err KNotFound => Err ErrAgentNotFound
  | Err k => Err (ErrRepository k)
  | Ok agent =>
      let entries := gr_GrantedPermissionSets req in
      let psIDs := ge_PermissionSetID <$> entries in
      if negb (bool_decide (psIDs = [])) && negb (ps_ValidateIDs psIDs) then Err ErrInvalidPermissionSets
      else
        match (if decide (psIDs = []) then Ok [] else ps_GetByIDs psIDs) with
        | Err k => Err (ErrRepository k)
        | Ok resolved =>
            _ ← validateScopeInclusionWithResolved entries resolved;
            _ ← validateGrantStructureWithResolved agent entries resolved;
            if decide (entries = []) then Ok ()
            else
              match sessions_ListActiveByPrincipal (gr_Principal req) with
              | Err k => Err (ErrRepository k)
              | Ok active => ValidateSubmission entries active
              end
        end
  end.

(** [!ValidUntil.UTC().After(now)] of an existing grant. *)
Definition grant_expired (now : time) (g : UserGrant) : bool :=
  match ug_ValidUntil g with Some t => negb (After t now) | None => false end.

Definition renewed (g : UserGrant) (req : GrantRequest) (now : time) : UserGrant :=
  MkGrant (ug_ID g) (ug_Principal g) (ug_AgentID g) (gr_ValidUntil req) (gr_GrantedPermissionSets req)
    (ug_CreatedAt g) now.

Definition fresh_grant (e : consent_env) (req : GrantRequest) : UserGrant :=
  MkGrant (ce_newID e) (gr_Principal req) (gr_AgentID req) (gr_ValidUntil req) (gr_GrantedPermissionSets req)
    (ce_clk e 0) (ce_clk e 1).

Definition GrantConsent (e : consent_env) (req : GrantRequest) : handler UserGrant :=
  match validate_request req with
  | Err err => Ret (Err err)
  | Ok _ =>
      existing ← grants_read (grant_FindByPrincipalAndAgent (gr_Principal req) (gr_AgentID req));
      match existing with
      | Ok g =>
          if grantMatchesRequest g req then Ret (Ok g)
          else
            let expired := grant_expired (ce_clk e 0) g in
            let g' := renewed g req (ce_clk e 1) in
            if negb (UserGrant_Validate (ce_clk e 2) g') then Ret (Err ErrGrantValidation)
            else
              _ ← (if expired then revokeRefreshSessions (ce_clk e 3) (gr_Principal req) (gr_AgentID req)
                   else Ret ());
              updated ← grants_act (grant_Update g');
              match updated with
              | Err k => Ret (Err (ErrRepository k))
              | Ok g'' => Ret (Ok g'')
              end
      | Err KNotFound =>
          let g := fresh_grant e req in
          if negb (UserGrant_ValidateForCreate (ce_clk e 2) g) then Ret (Err ErrGrantValidation)
          else
            g' ← grants_act (grant_Create (ce_newID e) g);
            Ret (Ok g')
      | Err k => Ret (Err (ErrRepository k))
      end
  end.

Definition RevokeConsentForPrincipal (e : consent_env) (principal : Principal) (agentID : AgentID) : handler unit :=
  deleted ← grants_act (grant_DeleteByPrincipalAndAgentID principal agentID);
  match deleted with
  | Err KNotFound => Ret (Err ErrGrantNotFound)
  | Err k => Ret (Err (ErrRepository k))
  | Ok _ => _ ← revokeRefreshSessions (ce_clk e 0) principal agentID; Ret (Ok ())
  end.

(** Idempotent: an absent grant still has its refresh sessions revoked. *)
Definition RevokeConsent (e : consent_env) (principal : Principal) (agentID : AgentID) : handler unit :=
  r ← RevokeConsentForPrincipal e principal agentID;
  match r with
  | Err ErrGrantNotFound => _ ← revokeRefreshSessions (ce_clk e 0) principal agentID; Ret (Ok ())
  | r => Ret r
  end.

(** The access check, on the answer of the grant repository. *)
Definition VerifyAgentAccess (now : time) (found : result ErrorKind UserGrant) : result consent_error UserGrant :=
  match found with
  | Err KNotFound => Err ErrAgentAccessDenied
  | Err k => Err (ErrRepository k)
  | Ok g => if grant_expired now g then Err ErrGrantExpired else Ok g
  end.

Definition GetActiveGrants (now : time) (principal : Principal) (agentID : AgentID) : prog consent_world (list UserGrant) :=
  grants_read (λ r, filter (λ g, IsActive now g = true) (grant_ListByPrincipalAndAgent principal agentID r)).

Definition GetUserGrants (principal : Principal) (agentID : AgentID) : handler (list UserGrant) :=
  match agents_Get agentID with
  | Err KNotFound => Ret (Err ErrAgentNotFound)
  | Err k => Ret (Err (ErrRepository k))
  | Ok _ => l ← grants_read (grant_ListByPrincipalAndAgent principal agentID); Ret (Ok l)
  end.

End service.
