(* ===== verification/ConsentFacts.v ===== *)
(** * What the consent service guarantees *)

From S2P Require Import Prelude ToolApproval ApprovalStore OAuthSessions OAuthSessionsFacts UserGrants UserGrantsFacts Consent.

(** ** Loops that stop at the first error *)

Lemma each_Ok {E A} (f : A → result E unit) l : each f l = Ok () ↔ ∀ x, x ∈ l → f x = Ok ().
Proof.
  induction l as [| x l IH]; simpl; [set_solver |].
  destruct (f x) as [[] |] eqn:Hx; [rewrite IH |]; split; intros Hl; try done.
  - intros y [-> | Hy]%elem_of_cons; auto.
  - intros y Hy. apply Hl. by right.
  - specialize (Hl x ltac:(left)). congruence.
Qed.

Lemma guard_Ok {E} b (e : E) : guard_ b e = Ok () ↔ b = true.
Proof. by destruct b. Qed.

Lemma seq_Ok {E} (a b : result E unit) : (_ ← a; b) = Ok () ↔ a = Ok () ∧ b = Ok ().
Proof. destruct a as [[] |]; simpl; split; [done | by intros [_ ?] | done | by intros [? _]]. Qed.

(** ** Maps built by a loop *)

Lemma foldl_insert_lookup {K A X} `{Countable K} (k : A → K) (f : A → X) (l : list A) i v :
  (∀ x y, x ∈ l → y ∈ l → k x = k y → f x = f y) →
  foldl (λ m x, <[k x := f x]> m) (∅ : gmap K X) l !! i = Some v ↔ ∃ x, x ∈ l ∧ k x = i ∧ f x = v.
Proof.
  induction l as [| x l IH] using rev_ind; intros Hf.
  { simpl. rewrite lookup_empty. split; [done |]. by intros (? & ?%not_elem_of_nil & _). }
  rewrite foldl_snoc. destruct (decide (k x = i)) as [<- | Hne].
  - rewrite lookup_insert_eq. split.
    + intros [= <-]. exists x. set_solver.
    + intros (y & Hy & Hk & <-). f_equal. apply Hf; set_solver.
  - rewrite lookup_insert_ne by done. rewrite IH by (intros y z ? ?; apply Hf; set_solver). split.
    + intros (y & Hy & Hk & Hv). exists y. set_solver.
    + intros (y & [Hy | ->%list_elem_of_singleton]%elem_of_app & Hk & Hv); [eauto | done].
Qed.

Lemma ps_mandatory_elem agent resolved i svc :
  svc ∈ default [] (ps_mandatory agent resolved !! i) ↔
  ∃ ps ss, ps ∈ resolved ∧ ps_ID ps = i ∧ ss ∈ ps_ServiceScopes ps ∧
    scope_mandatory agent ss = true ∧ ss_ServiceID ss = svc.
Proof.
  unfold ps_mandatory. induction resolved as [| ps l IH] using rev_ind.
  { simpl. rewrite lookup_empty. simpl. split; [by intros ?%not_elem_of_nil |].
    by intros (? & ? & ?%not_elem_of_nil & _). }
  rewrite foldl_snoc. destruct (decide (ps_ID ps = i)) as [<- | Hne].
  - rewrite lookup_insert_eq. simpl. rewrite elem_of_app, IH, list_elem_of_fmap.
    setoid_rewrite list_elem_of_filter. split.
    + intros [(q & ss & ? & ? & ? & ? & ?) | (ss & -> & Hm & Hin)]; [exists q, ss | exists ps, ss]; set_solver.
    + intros (q & ss & [Hq | ->%list_elem_of_singleton]%elem_of_app & ? & ? & ? & <-);
        [left; exists q, ss | right; exists ss]; done.
  - rewrite lookup_insert_ne by done. rewrite IH. split.
    + intros (q & ss & ? & ? & ? & ? & ?). exists q, ss. set_solver.
    + intros (q & ss & [Hq | ->%list_elem_of_singleton]%elem_of_app & ? & ? & ? & ?); [exists q, ss |]; done.
Qed.

(** ** Which grants are accepted *)

(** Ids name one element. *)
Definition unique_by {A} (k : A → string) (l : list A) : Prop :=
  ∀ x y, x ∈ l → y ∈ l → k x = k y → x = y.

(** The agent may receive the service. *)
Definition receivable (agent : Agent) (svc : ServiceID) : Prop :=
  ag_ServiceRequirements agent = [] ∨
  ∃ r, r ∈ ag_ServiceRequirements agent ∧ sr_ServiceID r = svc.

(** The service must be part of any grant of the permission set. *)
Definition must_include (agent : Agent) (ss : ServiceScope) : Prop :=
  receivable agent (ss_ServiceID ss) ∧
  (ss_RequirementType ss = Mandatory ∨
   ∃ r, r ∈ ag_ServiceRequirements agent ∧ sr_RequirementType r = Mandatory ∧ sr_ServiceID r = ss_ServiceID ss).

Lemma usable_scope_true agent ss : usable_scope agent ss = true ↔ receivable agent (ss_ServiceID ss).
Proof.
  unfold usable_scope, receivable, sr_services. rewrite orb_true_iff, !bool_decide_eq_true.
  rewrite elem_of_list_to_set, list_elem_of_fmap. split.
  - intros [He | (r & -> & Hr)]; [left | by right; exists r].
    destruct (ag_ServiceRequirements agent); [done | set_solver].
  - intros [-> | (r & Hr & <-)]; [by left | right; by exists r].
Qed.

Lemma scope_mandatory_true agent ss : scope_mandatory agent ss = true ↔ must_include agent ss.
Proof.
  unfold scope_mandatory, must_include, sr_mandatory.
  rewrite andb_true_iff, usable_scope_true, orb_true_iff, !bool_decide_eq_true.
  rewrite elem_of_list_to_set, list_elem_of_fmap. setoid_rewrite list_elem_of_filter. naive_solver.
Qed.

(** What an acceptable grant is. *)
Definition acceptable (agent : Agent) (entries : list GrantedPermissionSetEntry)
    (resolved : list PermissionSet) : Prop :=
  entries ≠ [] ∧
  (∀ e, e ∈ entries → ∃ a, a ∈ ag_PermissionSets agent ∧ aps_PermissionSetID a = ge_PermissionSetID e ∧
     (aps_RequirementType a = Mandatory → ge_IncludedServiceIDs e ≠ [])) ∧
  (∀ a, a ∈ ag_PermissionSets agent → aps_RequirementType a = Mandatory →
     ∃ e, e ∈ entries ∧ ge_PermissionSetID e = aps_PermissionSetID a) ∧
  (∀ e ps, e ∈ entries → ps ∈ resolved → ps_ID ps = ge_PermissionSetID e →
     (∀ svc, svc ∈ ge_IncludedServiceIDs e →
        receivable agent svc ∧ ∃ ss, ss ∈ ps_ServiceScopes ps ∧ ss_ServiceID ss = svc) ∧
     (∀ ss, ss ∈ ps_ServiceScopes ps → must_include agent ss → ss_ServiceID ss ∈ ge_IncludedServiceIDs e)).

Lemma declared_ps_Some agent i t :
  unique_by aps_PermissionSetID (ag_PermissionSets agent) →
  declared_ps agent !! i = Some t ↔
  ∃ a, a ∈ ag_PermissionSets agent ∧ aps_PermissionSetID a = i ∧ aps_RequirementType a = t.
Proof.
  intros Hu. unfold declared_ps. apply foldl_insert_lookup. intros x y Hx Hy E. by rewrite (Hu x y).
Qed.

Lemma ps_valid_Some agent resolved i v :
  unique_by ps_ID resolved →
  ps_valid agent resolved !! i = Some v ↔
  ∃ ps, ps ∈ resolved ∧ ps_ID ps = i ∧
    v = list_to_set (ss_ServiceID <$> filter (λ ss, usable_scope agent ss = true) (ps_ServiceScopes ps)).
Proof.
  intros Hu. unfold ps_valid. rewrite foldl_insert_lookup; [naive_solver |].
  intros x y Hx Hy E. by rewrite (Hu x y).
Qed.

(** The check of one entry's services. *)
Lemma entry_services_Ok agent resolved e :
  unique_by ps_ID resolved →
  match ps_valid agent resolved !! ge_PermissionSetID e with
  | None => Ok ()
  | Some v =>
      _ ← each (λ svc, guard_ (bool_decide (svc ∈ v)) ErrInvalidServiceInclusion) (ge_IncludedServiceIDs e);
      each (λ svc, guard_ (bool_decide (svc ∈ ge_IncludedServiceIDs e)) ErrInvalidServiceInclusion)
        (default [] (ps_mandatory agent resolved !! ge_PermissionSetID e))
  end = Ok () ↔
  ∀ ps, ps ∈ resolved → ps_ID ps = ge_PermissionSetID e →
    (∀ svc, svc ∈ ge_IncludedServiceIDs e →
       receivable agent svc ∧ ∃ ss, ss ∈ ps_ServiceScopes ps ∧ ss_ServiceID ss = svc) ∧
    (∀ ss, ss ∈ ps_ServiceScopes ps → must_include agent ss → ss_ServiceID ss ∈ ge_IncludedServiceIDs e).
Proof.
  intros Hu. destruct (ps_valid agent resolved !! _) as [v |] eqn:Hv.
  - apply ps_valid_Some in Hv as (ps & Hps & Hid & ->); [| done].
    rewrite seq_Ok, !each_Ok. setoid_rewrite guard_Ok. setoid_rewrite bool_decide_eq_true.
    setoid_rewrite elem_of_list_to_set. setoid_rewrite list_elem_of_fmap. setoid_rewrite list_elem_of_filter.
    setoid_rewrite usable_scope_true. setoid_rewrite ps_mandatory_elem. setoid_rewrite scope_mandatory_true.
    split.
    + intros [H1 H2] ps' Hps' Hid'. assert (ps' = ps) as -> by (apply Hu; congruence). split.
      * intros svc Hs. destruct (H1 svc Hs) as (ss & -> & ? & ?). eauto.
      * intros ss Hss Hm. apply H2. exists ps, ss. done.
    + intros H1. split.
      * intros svc Hs. destruct (H1 ps Hps Hid) as [H2 _]. destruct (H2 svc Hs) as (? & ss & ? & <-). eauto.
      * intros svc (ps' & ss & Hps' & Hid' & Hss & Hm & <-). by apply (H1 ps').
  - split; [| done]. intros _ ps Hps Hid. exfalso.
    assert (ps_valid agent resolved !! ge_PermissionSetID e ≠ None) as Hn; [| done].
    rewrite not_eq_None_Some. eexists. apply ps_valid_Some; eauto.
Qed.

Lemma structure_spec agent entries resolved :
  unique_by aps_PermissionSetID (ag_PermissionSets agent) → unique_by ps_ID resolved →
  validateGrantStructureWithResolved agent entries resolved = Ok () ↔ acceptable agent entries resolved.
Proof.
  intros Hua Hur. unfold validateGrantStructureWithResolved, acceptable.
  destruct (decide (ag_PermissionSets agent = [])) as [E |].
  { split; [done |]. intros (Hne & Hd & _). destruct entries as [| e l]; [done |].
    destruct (Hd e ltac:(left)) as (a & Ha & _). rewrite E in Ha. set_solver. }
  destruct (decide (entries = [])) as [-> | Hne]; [split; [done | by intros [? _]] |].
  rewrite !seq_Ok, !each_Ok. setoid_rewrite guard_Ok. rewrite forallb_forall.
  setoid_rewrite entry_services_Ok; [| done]. setoid_rewrite bool_decide_eq_true.
  setoid_rewrite <-list_elem_of_In. setoid_rewrite elem_of_list_to_set. setoid_rewrite list_elem_of_fmap.
  split.
  - intros (H1 & H2 & H3 & H4). split_and!; [done | | |].
    + intros e He. destruct (H1 e He) as [t Ht]. apply declared_ps_Some in Ht as (a & Ha & Hid & <-); [| done].
      exists a. split_and!; [done | done |]. intros Hm Hi. specialize (H3 e He).
      rewrite negb_true_iff, andb_false_iff, !bool_decide_eq_false in H3. destruct H3 as [H3 | H3]; [| done].
      apply H3. apply declared_ps_Some; [done |]. eauto.
    + intros a Ha Hm. destruct (H2 a Ha Hm) as (e & ? & ?). eauto.
    + intros e ps He. by apply H4.
  - intros (_ & H1 & H2 & H4). split_and!.
    + intros e He. destruct (H1 e He) as (a & Ha & Hid & _). exists (aps_RequirementType a).
      apply declared_ps_Some; [done |]. eauto.
    + intros a Ha Hm. destruct (H2 a Ha Hm) as (e & ? & ?). eauto.
    + intros e He. rewrite negb_true_iff, andb_false_iff, !bool_decide_eq_false.
      destruct (H1 e He) as (a & Ha & Hid & Hi).
      destruct (decide (aps_RequirementType a = Mandatory)) as [Hm |]; [right; auto |]. left. intros Hd.
      apply declared_ps_Some in Hd as (b & Hb & Hidb & Hmb); [| done].
      assert (b = a) as -> by (apply Hua; congruence). done.
    + intros e He ps. by apply H4.
Qed.

(** The structure check accepts a submission exactly when it is
    acceptable: something is granted, only permission sets the agent declares,
    every mandatory one among them and with at least one service, and in each
    set only services the set offers and the agent may receive, including every
    service that is mandatory for the agent or in the set. *)
Theorem validateGrantStructure_spec (agent : Agent) (entries : list GrantedPermissionSetEntry)
    (resolved : list PermissionSet) :
  unique_by aps_PermissionSetID (ag_PermissionSets agent) → unique_by ps_ID resolved →
  validateGrantStructureWithResolved agent entries resolved = Ok () ↔ acceptable agent entries resolved.
Proof. apply structure_spec. Qed.

(** ** Refresh sessions of a principal and an agent *)

Definition of_pair (p : Principal) (a : AgentID) (x : refreshTokenSession) : Prop :=
  rt_Principal (stored x) = p ∧ rt_AgentID (stored x) = a.

(** All sessions of the pair are revoked and used, the others untouched. *)
Definition pair_revoked (p : Principal) (a : AgentID) (now : time)
    (s s' : gmap string refreshTokenSession) : Prop :=
  ∀ sig, s' !! sig = (λ x, if decide (of_pair p a x) then revoke_session now x else x) <$> s !! sig.

#[export] Instance of_pair_dec p a x : Decision (of_pair p a x).
Proof. unfold of_pair. apply _. Defined.

Lemma RevokeByPrincipalAndAgent_spec now p a s :
  pair_revoked p a now s (RevokeByPrincipalAndAgent now p a s).1.
Proof.
  intros sig. unfold RevokeByPrincipalAndAgent, revokeByAgent. cbn [fst]. rewrite lookup_fmap.
  destruct (s !! sig) as [x |]; simpl; [| done]. f_equal. unfold of_agent, of_pair.
  destruct (decide _) as [[Hp Ha] | Hn].
  - by rewrite (bool_decide_eq_true_2 (rt_AgentID _ = a)), (bool_decide_eq_true_2 (rt_Principal _ = p)).
  - destruct (bool_decide (rt_AgentID (stored x) = a)) eqn:Ha; simpl; [| done].
    destruct (bool_decide (rt_Principal (stored x) = p)) eqn:Hp; [| done]. breflect. by destruct Hn.
Qed.

(** ** Granting and revoking *)

(** The repository stands for [m] and the pair's grant is [o]. *)
Lemma find_represents r m p a :
  grants_wf r → represents r m → colon_free a → grant_FindByPrincipalAndAgent p a r = found (m !! (p, a)).
Proof.
  intros Hwf Hrep Ha. destruct (grant_step_refines r m Hwf Hrep (GFind p a) Ha) as [_ Hr]. by injection Hr.
Qed.

(** What a successful [GrantConsent] leaves behind. *)
Record granted (e : consent_env) (req : GrantRequest) (m m' : gmap (string * string) UserGrant)
    (s s' : gmap string refreshTokenSession) (g : UserGrant) : Prop := {
  gd_map : m' = <[(gr_Principal req, gr_AgentID req) := g]> m;
  gd_pair : ug_Principal g = gr_Principal req ∧ ug_AgentID g = gr_AgentID req;
  gd_what : ug_ValidUntil g = gr_ValidUntil req ∧ ug_GrantedPermissionSets g = gr_GrantedPermissionSets req;
  gd_id : ug_ID g = match m !! (gr_Principal req, gr_AgentID req) with
                    | Some old => ug_ID old
                    | None => own_id (ce_newID e) (fresh_grant e req)
                    end;
  gd_refresh :
    match m !! (gr_Principal req, gr_AgentID req) with
    | Some old =>
        if grant_expired (ce_clk e 0) old && negb (grantMatchesRequest old req)
        then pair_revoked (gr_Principal req) (gr_AgentID req) (ce_clk e 3) s s'
        else s' = s
    | None => s' = s
    end;
}.

Section runs.
Context `{ConsentPorts} (w : consent_world) (m : gmap (string * string) UserGrant).
Context (Hwf : grants_wf (cw_grants w)) (Hrep : represents (cw_grants w) m).

Lemma pair_of_lookup p a g : m !! (p, a) = Some g → ug_Principal g = p ∧ ug_AgentID g = a.
Proof. intros (i & _ & ? & ?)%Hrep. done. Qed.

Lemma id_determines_pair pair old pair' old' :
  m !! pair = Some old → m !! pair' = Some old' → ug_ID old = ug_ID old' → pair = pair'.
Proof.
  destruct pair as [p a], pair' as [p' a']. intros (i & Hi & <- & <-)%Hrep (j & Hj & <- & <-)%Hrep E.
  destruct (gw_id _ Hwf _ _ Hi), (gw_id _ Hwf _ _ Hj). congruence.
Qed.

(** The update of the pair's grant by one with the same identity. *)
Lemma update_refines old g :
  m !! (ug_Principal g, ug_AgentID g) = Some old → ug_ID g = ug_ID old → ug_CreatedAt g = ug_CreatedAt old →
  (grant_Update g (cw_grants w)).2 = Ok g ∧
  refined (grant_Update g (cw_grants w)).1 (<[(ug_Principal g, ug_AgentID g) := g]> m).
Proof.
  intros Hm Hid Hcr.
  destruct (grant_step_refines _ m Hwf Hrep (GUpdate g)) as [Href Hr].
  { intros pair x Hx E. eapply id_determines_pair; [exact Hx | exact Hm | congruence]. }
  cbn [grant_step grant_spec fst snd] in Href, Hr.
  rewrite (with_id_spec _ m Hwf Hrep) in Href, Hr.
  pose proof (proj1 (Hrep _ _ _) Hm) as (i & Hi & Hp & Ha). destruct (gw_id _ Hwf _ _ Hi) as [Ei _].
  rewrite Hid, Ei, Hi in Href, Hr. cbn [fst snd] in Href, Hr.
  assert (set_identity g i (ug_CreatedAt old) = g) as Eg by (destruct g; simpl in *; unfold set_identity; simpl; congruence).
  rewrite Eg in Href, Hr. split; [by injection Hr | done].
Qed.

(** The update of an existing grant as the service runs it. *)
Lemma update_run old g s :
  m !! (ug_Principal g, ug_AgentID g) = Some old → ug_ID g = ug_ID old → ug_CreatedAt g = ug_CreatedAt old →
  ∃ r', grants_wf r' ∧ represents r' (<[(ug_Principal g, ug_AgentID g) := g]> m) ∧
    run (pbind (grants_act (grant_Update g)) (λ updated, match updated with
      | Ok g' => Ret (Ok g') | Err k => Ret (Err (ErrRepository k)) end)) (CWorld (cw_grants w) s) =
    (CWorld r' s, Ok g : result consent_error UserGrant).
Proof.
  intros Hm Hid Hcr. destruct (update_refines old g Hm Hid Hcr) as [Hr [Hwf' Hrep']].
  exists (grant_Update g (cw_grants w)).1. split_and!; [done | done |].
  unfold grants_act. rewrite run_act. cbn [cw_grants cw_refresh].
  destruct (grant_Update g (cw_grants w)) as [r' x]. cbn [snd fst] in *. by subst x.
Qed.

Lemma GrantConsent_run e req w' g :
  colon_free (gr_AgentID req) →
  map_Forall (λ _ old, ug_ID old ≠ own_id (ce_newID e) (fresh_grant e req)) m →
  run (GrantConsent e req) w = (w', Ok g) →
  validate_request req = Ok () ∧
  ∃ m', grants_wf (cw_grants w') ∧ represents (cw_grants w') m' ∧
    granted e req m m' (cw_refresh w) (cw_refresh w') g.
Proof.
  intros Hc Hfr. unfold GrantConsent. destruct (validate_request req) as [[] |] eqn:Hv; [| done].
  unfold mbind, prog_bind, grants_read. rewrite run_act, (find_represents _ m) by done.
  set (pair := (gr_Principal req, gr_AgentID req)).
  destruct (m !! pair) as [old |] eqn:Hm; cbn [found].
  - destruct (pair_of_lookup _ _ _ Hm) as [Hp Ha].
    destruct (grantMatchesRequest old req) eqn:Hmatch.
    { intros [= <- <-]. split; [done |]. exists m. split_and!; [done | done |].
      unfold grantMatchesRequest in Hmatch. apply andb_true_iff in Hmatch as [H1 H2]. breflect.
      split; fold pair; rewrite ?Hm; try done.
      - by rewrite insert_id.
      - unfold grantMatchesRequest. rewrite !bool_decide_eq_true_2 by done. by rewrite andb_false_r. }
    set (g' := renewed old req (ce_clk e 1)).
    destruct (UserGrant_Validate (ce_clk e 2) g'); [| done]. cbn [negb].
    assert (m !! (ug_Principal g', ug_AgentID g') = Some old) as Hm' by (cbn; by rewrite Hp, Ha).
    set (s' := if grant_expired (ce_clk e 0) old
               then (RevokeByPrincipalAndAgent (ce_clk e 3) (gr_Principal req) (gr_AgentID req) (cw_refresh w)).1
               else cw_refresh w).
    destruct (update_run old g' s' Hm' eq_refl eq_refl) as (r' & Hwf' & Hrep' & Hrun).
    cbn [ug_Principal ug_AgentID g' renewed] in Hrep'. rewrite Hp, Ha in Hrep'. fold pair in Hrep'.
    assert (∀ X (k : () → prog consent_world X), run (pbind (if grant_expired (ce_clk e 0) old
        then revokeRefreshSessions (ce_clk e 3) (gr_Principal req) (gr_AgentID req) else Ret ()) k) w =
      run (k ()) (CWorld (cw_grants w) s')) as ->.
    { intros X k. unfold s'. destruct (grant_expired _ _); [done | by destruct w]. }
    rewrite Hrun. intros [= <- <-]. split; [done |]. exists (<[pair := g']> m). split_and!; [done | done |].
    split; fold pair; rewrite ?Hm; try done. rewrite Hmatch, andb_true_r. unfold s'.
    destruct (grant_expired _ _); [apply RevokeByPrincipalAndAgent_spec | done].
  - destruct (UserGrant_ValidateForCreate _ _); [| done]. cbn [negb].
    set (g0 := fresh_grant e req).
    destruct (grant_step_refines _ m Hwf Hrep (GCreate (ce_newID e) g0)) as [[Hwf' Hrep'] Hr].
    { split; [done |]. intros pair' x Hx E. by destruct (Hfr _ _ Hx). }
    cbn [grant_step grant_spec fst snd] in Hwf', Hrep', Hr.
    change (ug_Principal g0, ug_AgentID g0) with pair in *. rewrite Hm in *.
    unfold grants_act. rewrite run_act. destruct (grant_Create _ _ _) as [r' g'] eqn:Ec.
    cbn [fst snd run] in *. intros [= <- <-]. injection Hr as ->. split; [done |].
    exists (<[pair := set_identity g0 (own_id (ce_newID e) g0) (ug_CreatedAt g0)]> m).
    split_and!; [done | done |]. split; fold pair; rewrite ?Hm; done.
Qed.

(** [RevokeConsent] always succeeds and leaves nothing of the pair. *)
Lemma RevokeConsent_run e p a :
  colon_free a →
  ∃ w', run (RevokeConsent e p a) w = (w', Ok ()) ∧
    grants_wf (cw_grants w') ∧ represents (cw_grants w') (delete (p, a) m) ∧
    pair_revoked p a (ce_clk e 0) (cw_refresh w) (cw_refresh w').
Proof.
  intros Hc. destruct (grant_step_refines _ m Hwf Hrep (GDeleteByPair p a) Hc) as [[Hwf' Hrep'] Hr].
  cbn [grant_step grant_spec fst snd] in Hwf', Hrep', Hr.
  unfold RevokeConsent, RevokeConsentForPrincipal, mbind, prog_bind, grants_act.
  rewrite run_pbind, run_act. destruct (grant_DeleteByPrincipalAndAgentID _ _ _) as [r' x].
  cbn [fst snd] in *. injection Hr as ->. destruct (m !! (p, a)) as [g |]; simpl;
    eexists; (split; [reflexivity |]); cbn [cw_grants cw_refresh];
    (split_and!; [done | done | apply RevokeByPrincipalAndAgent_spec]).
Qed.

End runs.

Lemma validate_request_ok `{ConsentPorts} req :
  validate_request req = Ok () →
  ∃ agent resolved active,
    agents_Get (gr_AgentID req) = Ok agent ∧
    ps_GetByIDs (ge_PermissionSetID <$> gr_GrantedPermissionSets req) = Ok resolved ∧
    validateGrantStructureWithResolved agent (gr_GrantedPermissionSets req) resolved = Ok () ∧
    sessions_ListActiveByPrincipal (gr_Principal req) = Ok active ∧
    ∀ e svc, e ∈ gr_GrantedPermissionSets req → svc ∈ ge_IncludedServiceIDs e → svc ∈ active.
Proof.
  unfold validate_request. destruct (agents_Get _) as [agent | k]; [| by destruct k].
  destruct (negb _ && negb _); [done |]. set (entries := gr_GrantedPermissionSets req).
  intros Hv. assert (entries ≠ []) as Hne.
  { intros E. revert Hv. rewrite E. cbn. unfold validateGrantStructureWithResolved.
    destruct (decide (ag_PermissionSets agent = [])); done. }
  revert Hv. rewrite decide_False by (by destruct entries). destruct (ps_GetByIDs _) as [resolved |] eqn:Hr; [| done].
  rewrite !seq_Ok, decide_False by done. intros (_ & Hs & Hsub).
  destruct (sessions_ListActiveByPrincipal _) as [active |]; [| done].
  exists agent, resolved, active. split_and!; [done | done | done | done |].
  unfold ValidateSubmission in Hsub. rewrite decide_False, guard_Ok, forallb_forall in Hsub by done.
  intros e svc He Hsvc. specialize (Hsub svc). rewrite bool_decide_eq_true in Hsub. apply Hsub.
  apply in_concat. setoid_rewrite <-list_elem_of_In. exists (ge_IncludedServiceIDs e). split; [| done].
  apply list_elem_of_fmap. eauto.
Qed.

(** When [GrantConsent] succeeds, the grant it returns is stored for
    exactly the requested principal and agent with exactly the requested expiry
    and permission sets, the submission is acceptable for the agent and every
    service in it is connected, the pair's grant keeps its id if there was one,
    no other grant changes, and refresh sessions change only when an expired
    grant is renewed: then every session of the pair is revoked. *)
Theorem GrantConsent_sound `{ConsentPorts} (w w' : consent_world) (m : gmap (string * string) UserGrant)
    (e : consent_env) (req : GrantRequest) (g : UserGrant) :
  grants_wf (cw_grants w) → represents (cw_grants w) m → colon_free (gr_AgentID req) →
  map_Forall (λ _ old, ug_ID old ≠ own_id (ce_newID e) (fresh_grant e req)) m →
  run (GrantConsent e req) w = (w', Ok g) →
  (∃ agent resolved active,
     agents_Get (gr_AgentID req) = Ok agent ∧
     ps_GetByIDs (ge_PermissionSetID <$> gr_GrantedPermissionSets req) = Ok resolved ∧
     sessions_ListActiveByPrincipal (gr_Principal req) = Ok active ∧
     (unique_by aps_PermissionSetID (ag_PermissionSets agent) → unique_by ps_ID resolved →
        acceptable agent (gr_GrantedPermissionSets req) resolved) ∧
     ∀ x svc, x ∈ gr_GrantedPermissionSets req → svc ∈ ge_IncludedServiceIDs x → svc ∈ active) ∧
  ∃ m', grants_wf (cw_grants w') ∧ represents (cw_grants w') m' ∧
    granted e req m m' (cw_refresh w) (cw_refresh w') g.
Proof.
  intros Hwf Hrep Hc Hfr Hrun. destruct (GrantConsent_run w m Hwf Hrep e req w' g Hc Hfr Hrun) as [Hv Hg].
  split; [| done]. destruct (validate_request_ok req Hv) as (agent & resolved & active & Ha & Hr & Hs & Hl & Hin).
  exists agent, resolved, active. split_and!; try done. intros Hua Hur. by apply structure_spec.
Qed.

(** Revoking consent always succeeds, whether or not a grant exists.
    Afterwards the access check of the pair is denied at any time, every refresh
    session of the pair is revoked and used, and every other grant and refresh
    session is as before. *)
Theorem RevokeConsent_complete (w : consent_world) (m : gmap (string * string) UserGrant)
    (e : consent_env) (p : Principal) (a : AgentID) :
  grants_wf (cw_grants w) → represents (cw_grants w) m → colon_free a →
  ∃ w', run (RevokeConsent e p a) w = (w', Ok ()) ∧
    grants_wf (cw_grants w') ∧
    (∀ t, VerifyAgentAccess t (grant_FindByPrincipalAndAgent p a (cw_grants w')) = Err ErrAgentAccessDenied) ∧
    (∀ q b, colon_free b → (q, b) ≠ (p, a) →
       grant_FindByPrincipalAndAgent q b (cw_grants w') = grant_FindByPrincipalAndAgent q b (cw_grants w)) ∧
    pair_revoked p a (ce_clk e 0) (cw_refresh w) (cw_refresh w').
Proof.
  intros Hwf Hrep Hc. destruct (RevokeConsent_run w m Hwf Hrep e p a Hc) as (w' & Hrun & Hwf' & Hrep' & Hpr).
  exists w'. split_and!; [done | done | | | done].
  - intros t. rewrite (find_represents _ _ _ _ Hwf' Hrep' Hc), lookup_delete_eq. done.
  - intros q b Hb Hne. rewrite (find_represents _ _ _ _ Hwf' Hrep' Hb), (find_represents _ _ _ _ Hwf Hrep Hb).
    by rewrite lookup_delete_ne.
Qed.

(** ** Witnesses *)

Section example.

Let agent : Agent :=
  simple_agent "a" [ {| sr_ServiceID := "s"; sr_RequirementType := Mandatory;
                        sr_RequiredScopes := ["r"]; sr_RequireAllScopes := false |} ]
    [ {| aps_PermissionSetID := "ps"; aps_RequirementType := Mandatory |} ] [].

Definition example_set : PermissionSet := {|
  ps_ID := "ps"; ps_CanonicalID := None; ps_ClearCanonicalID := false; ps_Name := "PS"; ps_Description := "";
  ps_ServiceScopes := [ {| ss_ServiceID := "s"; ss_Scopes := ["r"]; ss_RequirementType := Optional |};
                        {| ss_ServiceID := "t"; ss_Scopes := ["w"]; ss_RequirementType := Mandatory |} ];
  ps_CreatedAt := 0; ps_UpdatedAt := 0 |}.

Definition example_agent : Agent := agent.
Definition example_entries : list GrantedPermissionSetEntry := [GrantedEntry "ps" ["s"]].

Definition example_ports : ConsentPorts := {|
  agents_Get a := if decide (a = "a") then Ok agent else Err KNotFound;
  ps_ValidateIDs ids := forallb (λ i, bool_decide (i = "ps")) ids;
  ps_GetByIDs ids := Ok [example_set];
  sessions_ListActiveByPrincipal p := Ok ["s"];
|}.

Definition example_request : GrantRequest :=
  {| gr_Principal := "p"; gr_AgentID := "a"; gr_ValidUntil := Some 100%Z;
     gr_GrantedPermissionSets := example_entries |}.
Definition example_cenv : consent_env := CEnv (λ n, Z.of_nat (50 + n)) "g2".

(** A store with an expired grant of the pair and a live refresh session. *)
Definition example_grant : UserGrant := MkGrant "g1" "p" "a" (Some 40%Z) [] 1 1.
Definition example_world : consent_world :=
  CWorld (grant_Create "g0" example_grant NewUserGrantRepository).1
    {[ "t" := StoredSession {| rt_Signature := "t"; rt_RequestID := "r"; rt_AgentID := "a"; rt_ClientID := "a";
         rt_Principal := "p"; rt_GrantID := Some "g1"; rt_Email := None; rt_DisplayName := "";
         rt_Scope := ""; rt_ClientAuthMethod := None; rt_ExpiresAt := 1000; rt_UsedAt := None;
         rt_CreatedAt := 2 |} false ]}.

Lemma example_world_ok :
  grants_wf (cw_grants example_world) ∧ represents (cw_grants example_world) {[ ("p", "a") := example_grant ]}.
Proof.
  destruct (grant_step_refines NewUserGrantRepository ∅ grants_wf_empty) with (op := GCreate "g0" example_grant)
    as [[Hwf Hrep] _].
  - intros q b g. rewrite lookup_empty. split; [done |]. by intros (i & Hi & _).
  - apply (bool_decide_unpack _). vm_compute. exact I.
  - split; [exact Hwf | exact Hrep].
Qed.

End example.

Lemma validateGrantStructure_spec_witness :
  acceptable example_agent example_entries [example_set].
Proof.
  apply validateGrantStructure_spec; [| | reflexivity].
  - intros x y Hx%list_elem_of_singleton Hy%list_elem_of_singleton _. congruence.
  - intros x y Hx%list_elem_of_singleton Hy%list_elem_of_singleton _. congruence.
Defined.

Lemma GrantConsent_sound_witness :
  let r := run (@GrantConsent example_ports example_cenv example_request) example_world in
  r.2 = Ok (MkGrant "g1" "p" "a" (Some 100%Z) example_entries 1 51) ∧
  ∃ m', represents (cw_grants r.1) m'.
Proof.
  intros r. split; [reflexivity |].
  destruct example_world_ok as [Hwf Hrep].
  destruct (@GrantConsent_sound example_ports example_world r.1 _ example_cenv example_request
    (MkGrant "g1" "p" "a" (Some 100%Z) example_entries 1 51) Hwf Hrep) as [_ (m' & _ & Hm' & _)].
  - apply (bool_decide_unpack _). vm_compute. exact I.
  - apply (bool_decide_unpack _). vm_compute. exact I.
  - reflexivity.
  - by exists m'.
Defined.

Lemma RevokeConsent_complete_witness :
  ∃ w', run (RevokeConsent example_cenv "p" "a") example_world = (w', Ok ()) ∧
    VerifyAgentAccess 41 (grant_FindByPrincipalAndAgent "p" "a" (cw_grants w')) = Err ErrAgentAccessDenied.
Proof.
  destruct example_world_ok as [Hwf Hrep].
  destruct (RevokeConsent_complete example_world _ example_cenv "p" "a" Hwf Hrep)
    as (w' & Hrun & _ & Hv & _).
  - apply (bool_decide_unpack _). vm_compute. exact I.
  - exists w'. split; [exact Hrun | apply Hv].
Defined.
