(* ===== verification/FositeStorage.v ===== *)
(** * Storage of the local OAuth2 issuer

    internal/domain/oauth2server/fosite_storage.go, fosite_client.go and
    profile_session.go, internal/domain/oauth2/scope.go: the adapter through
    which the token library fosite reads and writes authorization codes, PKCE
    challenges and refresh tokens.  Sessions, requests and clients are the
    library's data; client resolution and stored credentials are read through
    the class [ClientPorts]. *)

From S2P Require Import Prelude ToolApproval ApprovalStore OAuthSessions UserGrants Consent ClientAssertion.

(** ** Scopes *)

(** [strings.Split] at a one-byte separator. *)
Fixpoint split_bytes (sep : ascii) (l : list ascii) : list (list ascii) :=
  match l with
  | [] => [[]]
  | c :: l =>
      if decide (c = sep) then [] :: split_bytes sep l
      else match split_bytes sep l with
           | p :: ps => (c :: p) :: ps
           | [] => [[c]]
           end
  end.

Definition SplitScope (scope : string) : list string :=
  if decide (scope = "") then [] else of_bytes <$> split_bytes " "%char (bytes scope).

(** ** Clients *)

Record ClientCredential := {
  cc_ID : string;
  cc_AgentID : AgentID;
  cc_SecretHash : string;
  cc_CreatedAt : time;
  cc_RotatedAt : option time;
}.

(** The two client types of the broker, and any other the library may hold. *)
Inductive client :=
  | confidentialClient (clientID : string) (agent : Agent) (credential : ClientCredential)
  | publicClient (clientID : string) (agent : Agent) (redirectURIs grantTypes : list string)
      (metadata : option CIMDMetadata)
  | foreignClient (clientID : string).

Definition GetID (c : client) : string :=
  match c with confidentialClient i _ _ | publicClient i _ _ _ _ | foreignClient i => i end.

Definition IsPublic (c : client) : bool := match c with publicClient _ _ _ _ _ => true | _ => false end.

Definition GetGrantTypes (c : client) : list string :=
  match c with
  | confidentialClient _ _ _ => ["authorization_code"; "client_credentials"; "refresh_token"]
  | publicClient _ _ _ grantTypes _ => grantTypes
  | foreignClient _ => []
  end.

Definition GetRedirectURIs (c : client) : list string :=
  match c with
  | confidentialClient _ a _ => ag_RedirectURIs a
  | publicClient _ _ redirectURIs _ _ => redirectURIs
  | foreignClient _ => []
  end.

Definition requiresPrivateKeyJWT (metadata : option CIMDMetadata) : bool :=
  match metadata with Some md => bool_decide (md_AuthMethod md = "private_key_jwt") | None => false end.

Definition publicClientGrantTypes (cimd : list string) : list string :=
  if decide (cimd = []) then ["authorization_code"] else cimd.

(** ** Errors, sessions and requests *)

(** The library's errors, storage errors passed through, and errors of client
    resolution. *)
Inductive fosite_error :=
  | FNotFound | FInvalidGrant | FInvalidatedAuthorizeCode | FInactiveToken | FServerError | FJTIKnown
  | FStorage (k : ErrorKind) | FClientID (code : string) | FConsent (e : consent_error) | FBadClient | FOther.
#[export] Instance consent_error_eq_dec : EqDecision consent_error.
Proof. solve_decision. Defined.
#[export] Instance fosite_error_eq_dec : EqDecision fosite_error.
Proof. solve_decision. Defined.

Definition mapStorageError (k : ErrorKind) : fosite_error :=
  match k with KNotFound => FNotFound | k => FStorage k end.

Definition extractAgentID (c : client) : result fosite_error AgentID :=
  match c with
  | foreignClient _ => Err FBadClient
  | confidentialClient _ a _ | publicClient _ a _ _ _ =>
      if nonzero_id (ag_ID a) then Ok (ag_ID a) else Err FBadClient
  end.

(** Values of the session's extra claims. *)
Inductive claim := CString (s : string) | CGrantID (g : GrantID) | COther.

Inductive token_type := AuthorizeCode | RefreshToken | AccessToken.
#[export] Instance token_type_eq_dec : EqDecision token_type.
Proof. solve_decision. Defined.

(** [fs_Extra] is [None] for a session type without extra claims. *)
Record fosite_session := FSession {
  fs_Subject : string;
  fs_ExpiresAt : token_type → time;
  fs_Extra : option (gmap string claim);
}.

(** A [DefaultSession] with one expiry. *)
Definition default_session (subject : string) (t : token_type) (expires : time) : fosite_session :=
  FSession subject (λ u, if decide (u = t) then expires else zero_time) (Some ∅).

Definition SetExpiresAt (t : token_type) (expires : time) (s : fosite_session) : fosite_session :=
  FSession (fs_Subject s) (λ u, if decide (u = t) then expires else fs_ExpiresAt s u) (fs_Extra s).

Definition set_claim (k : string) (v : claim) (s : fosite_session) : fosite_session :=
  FSession (fs_Subject s) (fs_ExpiresAt s) (Some (<[k := v]> (default ∅ (fs_Extra s)))).

Definition setSessionProfile (s : fosite_session) (email : option string) (displayName : string) : fosite_session :=
  let s := match email with Some m => set_claim "email" (CString m) s | None => s end in
  if decide (displayName = "") then s else set_claim "display_name" (CString displayName) s.

Definition sessionProfile (s : fosite_session) : option string * string :=
  match fs_Extra s with
  | None => (None, "")
  | Some extra =>
      (match extra !! "email" with Some (CString v) => if decide (v = "") then None else Some v | _ => None end,
       match extra !! "display_name" with Some (CString v) => v | _ => "" end)
  end.

Record requester := {
  rq_ID : string;
  rq_Client : client;
  rq_Session : fosite_session;
  rq_RequestedScope : list string;
  rq_GrantedScope : list string;
  rq_Form : gmap string string;
  rq_RequestedAt : time;
}.

(** [Form.Get]: the empty string when absent. *)
Definition form_Get (r : requester) (k : string) : string := default "" (rq_Form r !! k).

(** The values the context carries. *)
Record context := {
  cx_exchangeClient : option client;
  cx_privateKeyJWTAuthenticated : bool;
  cx_profile : option (option string * string);
}.

(** ** Clients by id *)

Inductive resolve_error := RClientID (code : string) | ROther.

Class ClientPorts := {
  ResolveClient : string → result resolve_error (Agent * option CIMDMetadata);
  GetByAgentID : AgentID → result ErrorKind ClientCredential;
}.

Section clients.
Context `{ClientPorts}.

Definition GetClient (clientID : string) : result fosite_error client :=
  match ResolveClient clientID with
  | Err (RClientID code) => if decide (code = "server_error") then Err (FClientID code) else Err FNotFound
  | Err ROther => Err FOther
  | Ok (agent, Some md) =>
      Ok (publicClient clientID agent (md_RedirectURIs md) (publicClientGrantTypes (md_GrantTypes md)) (Some md))
  | Ok (agent, None) =>
      match GetByAgentID (ag_ID agent) with
      | Err k =>
          if bool_decide (k = KNotFound) && bool_decide (agent_ClientType agent = LocalClient)
          then Ok (publicClient clientID agent (ag_RedirectURIs agent) ["authorization_code"; "refresh_token"] None)
          else Err (mapStorageError k)
      | Ok cred => Ok (confidentialClient clientID agent cred)
      end
  end.

End clients.

(** ** The adapter *)

Record fosite_world := FWorld {
  fw_codes : AuthorizationCodeStore;
  fw_pkces : gmap string PKCESession;
  fw_refresh : gmap string refreshTokenSession;
  fw_grants : UserGrantRepository;
}.

Definition codes_act {A} (f : AuthorizationCodeStore → AuthorizationCodeStore * A) : prog fosite_world A :=
  act (λ w, let '(s, x) := f (fw_codes w) in (FWorld s (fw_pkces w) (fw_refresh w) (fw_grants w), x)).
Definition pkces_act {A} (f : gmap string PKCESession → gmap string PKCESession * A) : prog fosite_world A :=
  act (λ w, let '(s, x) := f (fw_pkces w) in (FWorld (fw_codes w) s (fw_refresh w) (fw_grants w), x)).
Definition refresh_act {A} (f : gmap string refreshTokenSession → gmap string refreshTokenSession * A)
    : prog fosite_world A :=
  act (λ w, let '(s, x) := f (fw_refresh w) in (FWorld (fw_codes w) (fw_pkces w) s (fw_grants w), x)).
Definition fosite_read {A} (f : fosite_world → A) : prog fosite_world A := act (λ w, (w, f w)).

(** The access check of the consent service against the grant repository. *)
Definition verify_access (now : time) (p : Principal) (a : AgentID) : prog fosite_world (result consent_error UserGrant) :=
  fosite_read (λ w, VerifyAgentAccess now (grant_FindByPrincipalAndAgent p a (fw_grants w))).

Definition pass {A} (r : result ErrorKind A) : option fosite_error :=
  match r with Ok _ => None | Err k => Some (mapStorageError k) end.
Definition raw {A} (r : result ErrorKind A) : option fosite_error :=
  match r with Ok _ => None | Err k => Some (FStorage k) end.

(** An error, if any. *)
Abbreviation error_prog := (prog fosite_world (option fosite_error)) (only parsing).
(** A request, possibly beside an error. *)
Abbreviation get_prog := (prog fosite_world (option requester * option fosite_error)) (only parsing).

Definition get_fail (e : fosite_error) : get_prog := Ret (None, Some e).

(** *** Authorization codes *)

Definition CreateAuthorizeCodeSession (cx : context) (now : time) (newID code : string) (req : requester) : error_prog :=
  match extractAgentID (rq_Client req) with
  | Err e => Ret (Some e)
  | Ok agentID =>
      let session := rq_Session req in
      let '(email, displayName) := default (None, "") (cx_profile cx) in
      r ← codes_act (code_Create
        {| ac_ID := newID; ac_CodeHash := code; ac_AgentID := agentID;
           ac_ClientID := form_Get req "client_id"; ac_Principal := fs_Subject session;
           ac_Email := email; ac_DisplayName := displayName;
           ac_RedirectURI := form_Get req "redirect_uri";
           ac_CodeChallenge := form_Get req "code_challenge";
           ac_Scope := Join (rq_RequestedScope req) " ";
           ac_ExpiresAt := fs_ExpiresAt session AuthorizeCode; ac_UsedAt := None; ac_CreatedAt := now |});
      Ret (raw r)
  end.

Section adapter.
Context `{ClientPorts}.

(** The client a code was issued to. *)
Definition code_client_id (c : AuthorizationCode) : string :=
  if decide (ac_ClientID c = "") then ac_AgentID c else ac_ClientID c.

Definition code_client (cx : context) (c : AuthorizationCode) : result fosite_error client :=
  match cx_exchangeClient cx with
  | Some client => Ok client
  | None => GetClient (code_client_id c)
  end.

(** The client is the one the code was issued to. *)
Definition code_client_matches (c : AuthorizationCode) (client : client) : bool :=
  match extractAgentID client with
  | Err _ => false
  | Ok agentID =>
      bool_decide (agentID = ac_AgentID c) && bool_decide (GetID client = code_client_id c) &&
      match client with
      | confidentialClient _ _ credential => bool_decide (cc_AgentID credential = ac_AgentID c)
      | _ => true
      end
  end.

Definition code_request (c : AuthorizationCode) (client : client) : requester :=
  {| rq_ID := ac_ID c; rq_Client := client;
     rq_Session := setSessionProfile (default_session (ac_Principal c) AuthorizeCode (ac_ExpiresAt c))
                     (ac_Email c) (ac_DisplayName c);
     rq_RequestedScope := SplitScope (ac_Scope c); rq_GrantedScope := SplitScope (ac_Scope c);
     rq_Form := {[ "redirect_uri" := ac_RedirectURI c; "code_challenge" := ac_CodeChallenge c;
                   "code_challenge_method" := "S256" ]};
     rq_RequestedAt := ac_CreatedAt c |}.

(** The caller's session, whose expiry is overwritten, is returned beside the
    result. *)
Definition GetAuthorizeCodeSession (cx : context) (now now' : time) (code : string)
    (requestSession : option fosite_session)
    : prog fosite_world (option requester * option fosite_error * option fosite_session) :=
  found ← fosite_read (λ w, code_FindByCodeHash now code (fw_codes w));
  match found with
  | Err k => Ret (None, Some (mapStorageError k), requestSession)
  | Ok c =>
      if negb (After (ac_ExpiresAt c) now') then Ret (None, Some FInvalidGrant, requestSession)
      else
        let requestSession := SetExpiresAt AuthorizeCode (ac_ExpiresAt c) <$> requestSession in
        match code_client cx c with
        | Err e => Ret (None, Some e, requestSession)
        | Ok client =>
            if negb (code_client_matches c client) then Ret (None, Some FNotFound, requestSession)
            else
              let req := code_request c client in
              match ac_UsedAt c with
              | Some _ => Ret (Some req, Some FInvalidatedAuthorizeCode, requestSession)
              | None => Ret (Some req, None, requestSession)
              end
        end
  end.

Definition InvalidateAuthorizeCodeSession (now now' : time) (code : string) : error_prog :=
  found ← fosite_read (λ w, code_FindByCodeHash now code (fw_codes w));
  match found with
  | Err k => Ret (Some (mapStorageError k))
  | Ok c =>
      marked ← codes_act (code_MarkUsed now' (ac_ID c));
      match marked with
      | Ok _ => Ret None
      | Err KNotFound => Ret (Some FInvalidatedAuthorizeCode)
      | Err k => Ret (Some (FStorage k))
      end
  end.

(** *** Access tokens are stateless *)

Definition CreateAccessTokenSession : error_prog := Ret None.
Definition GetAccessTokenSession : get_prog := get_fail FNotFound.
Definition DeleteAccessTokenSession : error_prog := Ret None.
Definition RevokeAccessToken : error_prog := Ret None.

(** *** Refresh tokens *)

Definition refresh_claims (cx : context) (s : fosite_session) : GrantID * string * option string :=
  let authMethod := if cx_privateKeyJWTAuthenticated cx then Some "private_key_jwt" else None in
  match fs_Extra s with
  | None => (zero_uuid, "", authMethod)
  | Some claims =>
      (match claims !! "consent_grant_id" with Some (CGrantID g) => g | _ => zero_uuid end,
       match claims !! "refresh_parent_signature" with Some (CString p) => p | _ => "" end,
       match authMethod with
       | Some m => Some m
       | None =>
           match claims !! "client_auth_method" with
           | Some (CString m) => if decide (m = "") then None else Some m
           | _ => None
           end
       end)
  end.

(** The grant the session is bound to. *)
Definition bound_grant (now : time) (claimed : GrantID) (p : Principal) (a : AgentID)
    : prog fosite_world (result fosite_error GrantID) :=
  if nonzero_id claimed then Ret (Ok claimed)
  else
    v ← verify_access now p a;
    match v with
    | Ok g => Ret (Ok (ug_ID g))
    | Err ErrAgentAccessDenied | Err ErrGrantExpired => Ret (Err FInvalidGrant)
    | Err _ => Ret (Err FServerError)
    end.

Definition CreateRefreshTokenSession (cx : context) (now now' : time) (signature : string) (req : requester)
    : error_prog :=
  match extractAgentID (rq_Client req) with
  | Err e => Ret (Some e)
  | Ok agentID =>
      let '(claimed, previousSignature, clientAuthMethod) := refresh_claims cx (rq_Session req) in
      g ← bound_grant now claimed (fs_Subject (rq_Session req)) agentID;
      match g with
      | Err e => Ret (Some e)
      | Ok grantID =>
          let '(email, displayName) := sessionProfile (rq_Session req) in
          let session :=
            {| rt_Signature := signature; rt_RequestID := rq_ID req; rt_AgentID := agentID;
               rt_ClientID := GetID (rq_Client req); rt_Principal := fs_Subject (rq_Session req);
               rt_GrantID := Some grantID; rt_Email := email; rt_DisplayName := displayName;
               rt_Scope := Join (rq_GrantedScope req) " "; rt_ClientAuthMethod := clientAuthMethod;
               rt_ExpiresAt := fs_ExpiresAt (rq_Session req) RefreshToken; rt_UsedAt := None;
               rt_CreatedAt := now' |} in
          match RefreshTokenSession_Validate session with
          | Err k => Ret (Some (FStorage k))
          | Ok _ =>
              if decide (previousSignature = "") then
                r ← refresh_act (refresh_Create session); Ret (raw r)
              else
                r ← refresh_act (refresh_CreateSuccessor session previousSignature); Ret (pass r)
          end
      end
  end.

Definition refresh_request (x : RefreshTokenSession) (client : client) : requester :=
  {| rq_ID := rt_RequestID x; rq_Client := client;
     rq_Session := setSessionProfile (default_session (rt_Principal x) RefreshToken (rt_ExpiresAt x))
                     (rt_Email x) (rt_DisplayName x);
     rq_RequestedScope := SplitScope (rt_Scope x); rq_GrantedScope := SplitScope (rt_Scope x);
     rq_Form := ∅; rq_RequestedAt := rt_CreatedAt x |}.

Definition set_session (r : requester) (s : fosite_session) : requester :=
  {| rq_ID := rq_ID r; rq_Client := rq_Client r; rq_Session := s; rq_RequestedScope := rq_RequestedScope r;
     rq_GrantedScope := rq_GrantedScope r; rq_Form := rq_Form r; rq_RequestedAt := rq_RequestedAt r |}.

(** The claims that bind the next session to this one. *)
Definition with_chain (x : RefreshTokenSession) (signature : string) (g : UserGrant) (r : requester) : requester :=
  let s := set_claim "refresh_parent_signature" (CString signature)
             (set_claim "consent_grant_id" (CGrantID (ug_ID g)) (rq_Session r)) in
  set_session r (match rt_ClientAuthMethod x with
                 | Some m => set_claim "client_auth_method" (CString m) s
                 | None => s
                 end).

(** Why the consent does not support the session, if it does not. *)
Definition denial_reason (x : RefreshTokenSession) (v : result consent_error UserGrant)
    : result fosite_error (option string * option UserGrant) :=
  match v with
  | Err ErrAgentAccessDenied => Ok (Some "grant_missing", None)
  | Err ErrGrantExpired => Ok (Some "grant_expired", None)
  | Err e => Err (FConsent e)
  | Ok g =>
      match rt_GrantID x with
      | Some bound => if decide (bound = ug_ID g) then Ok (None, Some g) else Ok (Some "grant_mismatch", Some g)
      | None => if After (ug_CreatedAt g) (rt_CreatedAt x) then Ok (Some "grant_mismatch", Some g) else Ok (None, Some g)
      end
  end.

Definition GetRefreshTokenSession (now now' : time) (signature : string) : get_prog :=
  found ← fosite_read (λ w, refresh_FindBySignature signature (fw_refresh w));
  match found with
  | Err k => get_fail (mapStorageError k)
  | Ok x =>
      match GetClient (rt_ClientID x) with
      | Err e => get_fail e
      | Ok client =>
          let req := refresh_request x client in
          match rt_UsedAt x with
          | Some _ => Ret (Some req, Some FInactiveToken)
          | None =>
              v ← verify_access now (rt_Principal x) (rt_AgentID x);
              match denial_reason x v with
              | Err e => get_fail e
              | Ok (None, Some g) => Ret (Some (with_chain x signature g req), None)
              | Ok _ =>
                  _ ← refresh_act (λ s, (refresh_RevokeByRequestID now' (rt_RequestID x) s, ()));
                  get_fail FNotFound
              end
          end
      end
  end.

Definition DeleteRefreshTokenSession (now : time) (signature : string) : error_prog :=
  r ← refresh_act (refresh_MarkUsed now signature);
  match r with
  | Ok _ | Err KNotFound => Ret None
  | Err k => Ret (Some (mapStorageError k))
  end.

Definition RotateRefreshToken (now : time) (signature : string) : error_prog :=
  r ← refresh_act (refresh_MarkUsed now signature); Ret (pass r).

Definition RevokeRefreshToken (now : time) (requestID : string) : error_prog :=
  _ ← refresh_act (λ s, (refresh_RevokeByRequestID now requestID s, ())); Ret None.

(** *** PKCE *)

Definition CreatePKCERequestSession (now : time) (signature : string) (req : requester) : error_prog :=
  let session :=
    {| pk_Signature := signature; pk_CodeChallenge := form_Get req "code_challenge";
       pk_CodeChallengeMethod := form_Get req "code_challenge_method";
       pk_ExpiresAt := fs_ExpiresAt (rq_Session req) AuthorizeCode; pk_CreatedAt := now |} in
  match PKCESession_Validate session with
  | Err k => Ret (Some (FStorage k))
  | Ok _ => r ← pkces_act (pkce_Create session); Ret (raw r)
  end.

(** The form of the request returned for the PKCE check. *)
Definition GetPKCERequestSession (signature : string) : prog fosite_world (result fosite_error (gmap string string)) :=
  r ← fosite_read (λ w, pkce_FindBySignature signature (fw_pkces w));
  match r with
  | Err k => Ret (Err (mapStorageError k))
  | Ok s => Ret (Ok {[ "code_challenge" := pk_CodeChallenge s; "code_challenge_method" := pk_CodeChallengeMethod s ]})
  end.

Definition DeletePKCERequestSession (signature : string) : error_prog :=
  r ← pkces_act (pkce_Delete signature); Ret (pass r).

(** *** Library-side client assertions are never accepted *)

Definition ClientAssertionJWTValid : option fosite_error := Some FJTIKnown.
Definition SetClientAssertionJWT : option fosite_error := None.

End adapter.
