(* ===== verification/FositeStorageFacts.v ===== *)
(** * What the token library's storage guarantees *)

From S2P Require Import Prelude ToolApproval ApprovalStore OAuthSessions OAuthSessionsFacts UserGrants UserGrantsFacts Consent ClientAssertion FositeStorage.

(** ** Scopes survive storage *)

Lemma split_bytes_cons sep l : ∃ p ps, split_bytes sep l = p :: ps.
Proof.
  induction l as [| c l IH]; simpl; [eauto |]. destruct (decide (c = sep)); [eauto |].
  destruct IH as (p & ps & ->). eauto.
Qed.

Lemma Join_split sep l :
  bytes (Join (of_bytes <$> split_bytes sep l) (String sep EmptyString)) = l.
Proof.
  induction l as [| c l IH]; [done |]. cbn [split_bytes]. destruct (decide (c = sep)) as [-> | Hne].
  - destruct (split_bytes_cons sep l) as (p & ps & E). rewrite E in *. cbn [fmap list_fmap] in *.
    cbn [Join]. rewrite !bytes_app. cbn [of_bytes bytes app]. f_equal. exact IH.
  - destruct (split_bytes_cons sep l) as (p & ps & E). rewrite E in *. cbn [fmap list_fmap] in *.
    destruct ps as [| q ps]; cbn [fmap list_fmap Join] in *.
    + cbn [of_bytes bytes]. f_equal. exact IH.
    + rewrite !bytes_app in *. cbn [of_bytes bytes app]. f_equal. exact IH.
Qed.

Lemma Join_SplitScope s : Join (SplitScope s) " " = s.
Proof.
  unfold SplitScope. destruct (decide (s = "")) as [-> | _]; [done |].
  apply (inj bytes). apply Join_split.
Qed.

(** ** The profile survives the session's claims *)

Definition kept_email (email : option string) : option string :=
  match email with Some m => if decide (m = "") then None else Some m | None => None end.

Lemma profile_chain (x : RefreshTokenSession) client signature (g : UserGrant) :
  sessionProfile (rq_Session (with_chain x signature g (refresh_request x client))) =
    (kept_email (rt_Email x), rt_DisplayName x).
Proof.
  unfold sessionProfile, with_chain, refresh_request, setSessionProfile, default_session.
  destruct (rt_Email x), (rt_ClientAuthMethod x), (decide (rt_DisplayName x = "")) as [-> |];
    cbn; simplify_map_eq; done.
Qed.

(** The authentication method recorded next. *)
Definition next_method (cx : context) (x : RefreshTokenSession) : option string :=
  if cx_privateKeyJWTAuthenticated cx then Some "private_key_jwt" else rt_ClientAuthMethod x.

Lemma chain_claims cx x client signature g :
  rt_ClientAuthMethod x ≠ Some "" →
  refresh_claims cx (rq_Session (with_chain x signature g (refresh_request x client))) =
    (ug_ID g, signature, next_method cx x).
Proof.
  intros Hne. unfold refresh_claims, next_method, with_chain, refresh_request, setSessionProfile, default_session.
  destruct (rt_Email x), (rt_ClientAuthMethod x) as [method |], (decide (rt_DisplayName x = ""));
    cbn; simplify_map_eq; destruct (cx_privateKeyJWTAuthenticated cx); try done;
    destruct (decide (method = "")) as [-> |]; done.
Qed.

(** ** Presenting a refresh token *)

Section refresh.
Context `{ClientPorts}.

(** What the answer to a presented refresh token rests on. *)
Record refreshable (now : time) (signature : string) (w : fosite_world) (x : refreshTokenSession)
    (client : client) (g : UserGrant) : Prop := {
  rf_session : fw_refresh w !! signature = Some x;
  rf_unused : rt_UsedAt (stored x) = None;
  rf_client : GetClient (rt_ClientID (stored x)) = Ok client;
  rf_grant : grant_FindByPrincipalAndAgent (rt_Principal (stored x)) (rt_AgentID (stored x)) (fw_grants w) = Ok g;
  rf_active : IsActive now g = true;
  rf_bound : match rt_GrantID (stored x) with
             | Some bound => bound = ug_ID g
             | None => (ug_CreatedAt g ≤ rt_CreatedAt (stored x))%Z
             end;
}.

Lemma VerifyAgentAccess_ok now f g :
  VerifyAgentAccess now f = Ok g → f = Ok g ∧ IsActive now g = true.
Proof.
  unfold VerifyAgentAccess, grant_expired, IsActive. destruct f as [g' | k]; [| by destruct k].
  destruct (ug_ValidUntil g') as [t |] eqn:Ht.
  - destruct (After t now) eqn:Ha; [| done]. cbn. intros [= <-]. by rewrite Ht.
  - intros [= <-]. by rewrite Ht.
Qed.

Lemma denial_reason_none x v g : denial_reason x v = Ok (None, Some g) →
  v = Ok g ∧ match rt_GrantID x with
             | Some bound => bound = ug_ID g
             | None => (ug_CreatedAt g ≤ rt_CreatedAt x)%Z
             end.
Proof.
  unfold denial_reason. destruct v as [g' | e]; [| by destruct e].
  destruct (rt_GrantID x) as [b |].
  - destruct (decide _); by intros [= <-].
  - destruct (After _ _) eqn:Ha; [done |]. intros [= <-]. split; [done |]. by apply After_false.
Qed.

Lemma refreshable_answer now now' signature w x client g :
  refreshable now signature w x client g →
  run (GetRefreshTokenSession now now' signature) w =
    (w, (Some (with_chain (stored x) signature g (refresh_request (stored x) client)), None)).
Proof.
  intros [Hx Hu Hc Hf Ha Hb]. unfold GetRefreshTokenSession, mbind, prog_bind, fosite_read. rewrite run_act.
  unfold refresh_FindBySignature. rewrite Hx, Hc, Hu. unfold verify_access, fosite_read. rewrite run_act, Hf.
  unfold VerifyAgentAccess. assert (grant_expired now g = false) as ->.
  { unfold grant_expired. unfold IsActive in Ha. destruct (ug_ValidUntil g); [by rewrite Ha | done]. }
  unfold denial_reason. destruct (rt_GrantID (stored x)) as [b |].
  - by rewrite decide_True.
  - by rewrite (proj2 (After_false _ _) Hb).
Qed.

Lemma GetRefreshTokenSession_run now now' signature w w' req :
  run (GetRefreshTokenSession now now' signature) w = (w', (Some req, None)) →
  w' = w ∧ ∃ x client g, refreshable now signature w x client g ∧
    req = with_chain (stored x) signature g (refresh_request (stored x) client).
Proof.
  unfold GetRefreshTokenSession, mbind, prog_bind, fosite_read. rewrite run_act.
  unfold refresh_FindBySignature. destruct (fw_refresh w !! signature) as [x |] eqn:Hx; [| done].
  destruct (GetClient _) as [client |] eqn:Hc; [| done].
  destruct (rt_UsedAt (stored x)) eqn:Hu; [done |].
  unfold verify_access, fosite_read. rewrite run_act.
  destruct (denial_reason _ _) as [[[r |] [g |]] |] eqn:Hd; try done. cbn [run].
  intros [= <- <-]. split; [done |]. apply denial_reason_none in Hd as [Hv Hb].
  apply VerifyAgentAccess_ok in Hv as [Hf Ha]. exists x, client, g. by split.
Qed.

Lemma GetClient_id clientID c : GetClient clientID = Ok c → GetID c = clientID.
Proof.
  unfold GetClient. destruct (ResolveClient clientID) as [[a [md |]] | [code |]]; [by intros [= <-] | | |].
  - destruct (GetByAgentID _) as [cred | k]; [by intros [= <-] |]. destruct (_ && _); by intros [= <-].
  - by destruct (decide _).
  - done.
Qed.

(** *** Rotation

    The calls the library's refresh flow makes: look up, rotate, store the
    successor with the session it was given and a new expiry. *)

Definition renew_expiry (t : time) (r : requester) : requester :=
  set_session r (SetExpiresAt RefreshToken t (rq_Session r)).

Definition rotation (cx : context) (clk : nat → time) (expires : time) (signature newSignature : string)
    : prog fosite_world (option fosite_error) :=
  r ← GetRefreshTokenSession (clk 0) (clk 1) signature;
  match r with
  | (Some req, None) =>
      e ← RotateRefreshToken (clk 2) signature;
      match e with
      | Some e => Ret (Some e)
      | None => CreateRefreshTokenSession cx (clk 3) (clk 4) newSignature (renew_expiry expires req)
      end
  | (_, Some e) => Ret (Some e)
  | (None, None) => Ret (Some FOther)
  end.

(** The session that continues [x]. *)
Definition successor (cx : context) (x : RefreshTokenSession) (agentID : AgentID) (g : GrantID)
    (newSignature : string) (expires created : time) : RefreshTokenSession :=
  {| rt_Signature := newSignature; rt_RequestID := rt_RequestID x; rt_AgentID := agentID;
     rt_ClientID := rt_ClientID x; rt_Principal := rt_Principal x; rt_GrantID := Some g;
     rt_Email := kept_email (rt_Email x); rt_DisplayName := rt_DisplayName x; rt_Scope := rt_Scope x;
     rt_ClientAuthMethod := next_method cx x; rt_ExpiresAt := expires; rt_UsedAt := None;
     rt_CreatedAt := created |}.

Definition set_refresh (w : fosite_world) (s : gmap string refreshTokenSession) : fosite_world :=
  FWorld (fw_codes w) (fw_pkces w) s (fw_grants w).

(** Storing the successor, from the request the lookup returned. *)
Lemma create_successor_run cx now now' expires signature newSignature x client g w :
  rt_ClientAuthMethod x ≠ Some "" → nonzero_id (ug_ID g) = true → signature ≠ "" →
  GetID client = rt_ClientID x →
  run (CreateRefreshTokenSession cx now now' newSignature
         (renew_expiry expires (with_chain x signature g (refresh_request x client)))) w =
  match extractAgentID client with
  | Err e => (w, Some e)
  | Ok agentID =>
      let y := successor cx x agentID (ug_ID g) newSignature expires now' in
      match RefreshTokenSession_Validate y with
      | Err k => (w, Some (FStorage k))
      | Ok _ => let r := refresh_CreateSuccessor y signature (fw_refresh w) in (set_refresh w r.1, pass r.2)
      end
  end.
Proof.
  intros Hm Hg Hs Hid. unfold CreateRefreshTokenSession.
  set (req := renew_expiry _ _).
  assert (rq_Client req = client) as -> by done. destruct (extractAgentID client) as [agentID |]; [| done].
  assert (refresh_claims cx (rq_Session req) = (ug_ID g, signature, next_method cx x)) as ->
    by (rewrite <-(chain_claims cx x client signature g Hm); done).
  assert (sessionProfile (rq_Session req) = (kept_email (rt_Email x), rt_DisplayName x)) as ->
    by (rewrite <-(profile_chain x client signature g); done).
  assert (fs_Subject (rq_Session req) = rt_Principal x) as Hsub.
  { unfold req, renew_expiry, with_chain, refresh_request, setSessionProfile, default_session.
    by destruct (rt_Email x), (rt_ClientAuthMethod x), (decide (rt_DisplayName x = "")). }
  assert (rq_GrantedScope req = SplitScope (rt_Scope x)) as -> by done.
  assert (rq_ID req = rt_RequestID x) as -> by done.
  assert (fs_ExpiresAt (rq_Session req) RefreshToken = expires) as -> by done.
  unfold bound_grant. rewrite Hg, Hsub, Join_SplitScope, Hid. unfold mbind, prog_bind. cbn [pbind].
  unfold successor. destruct (RefreshTokenSession_Validate _) as [[] | k]; [| done].
  rewrite decide_False by done. unfold refresh_act. rewrite run_act.
  by destruct (refresh_CreateSuccessor _ _ _) as [s r].
Qed.

Lemma valid_method x : RefreshTokenSession_Validate x = Ok () → rt_ClientAuthMethod x ≠ Some "".
Proof.
  unfold RefreshTokenSession_Validate, required. destruct (forallb id _) eqn:Hf; [| done]. intros _ E.
  rewrite E in Hf. rewrite forallb_forall in Hf.
  assert (id (bool_decide ("" = "private_key_jwt")) = true) by (apply Hf; simpl; tauto). done.
Qed.

Lemma Find_stored p a r g : grant_FindByPrincipalAndAgent p a r = Ok g → ∃ i, grants r !! i = Some g.
Proof.
  unfold grant_FindByPrincipalAndAgent. destruct (byPrincipalAndAgent r !! _) as [i |]; [| done].
  destruct (grants r !! i) eqn:E; [| done]. intros [= <-]. eauto.
Qed.

(** The rotation of a refreshable token. *)
Lemma rotation_refreshable cx clk expires signature newSignature w x client g :
  signature ≠ "" → rt_ClientAuthMethod (stored x) ≠ Some "" → nonzero_id (ug_ID g) = true →
  refreshable (clk 0) signature w x client g →
  let used := <[signature := StoredSession (use_session (clk 2) (stored x)) (revoked x)]> (fw_refresh w) in
  run (rotation cx clk expires signature newSignature) w =
  match extractAgentID client with
  | Err e => (set_refresh w used, Some e)
  | Ok agentID =>
      let y := successor cx (stored x) agentID (ug_ID g) newSignature expires (clk 4) in
      match RefreshTokenSession_Validate y with
      | Err k => (set_refresh w used, Some (FStorage k))
      | Ok _ =>
          if revoked x then (set_refresh w used, Some FNotFound)
          else match used !! newSignature with
               | Some _ => (set_refresh w used, Some (FStorage KConflict))
               | None => (set_refresh w (<[newSignature := StoredSession y false]> used), None)
               end
      end
  end.
Proof.
  intros Hs Hm Hg Hr used. unfold rotation, mbind, prog_bind. rewrite run_pbind, (refreshable_answer _ (clk 1) _ _ _ _ _ Hr).
  destruct Hr as [Hx Hu Hc _ _ _]. unfold RotateRefreshToken, mbind, prog_bind.
  rewrite run_pbind. unfold refresh_act. rewrite run_act. unfold refresh_MarkUsed. rewrite Hx, Hu. cbn [run pass].
  fold used. change (FWorld (fw_codes w) (fw_pkces w) used (fw_grants w)) with (set_refresh w used).
  rewrite create_successor_run by (done || by apply GetClient_id).
  destruct (extractAgentID client) as [agentID |]; [| done].
  cbv zeta. destruct (RefreshTokenSession_Validate _) as [[] |]; [| done].
  unfold refresh_CreateSuccessor. cbn [fw_refresh set_refresh].
  assert (used !! signature = Some (StoredSession (use_session (clk 2) (stored x)) (revoked x))) as ->
    by apply lookup_insert_eq.
  cbn [revoked stored]. destruct (revoked x); [done |]. cbn [orb].
  rewrite bool_decide_eq_false_2 by done. cbn [orb]. rewrite bool_decide_eq_true_2 by done. cbn [negb].
  unfold createLocked. cbn [rt_Signature successor]. by destruct (used !! newSignature).
Qed.

End refresh.

(** A refresh rotation succeeds exactly when the presented token's
    session is unused and not revoked, its client resolves to an agent, and the
    user's current grant is active and is the one the session is bound to.  It
    then marks the presented session used and stores one successor with the same
    request, client, user, scope and profile, an authentication method that is
    never weaker, bound to that grant; nothing else changes.  The successor's
    agent is the one the client currently resolves to. *)
Theorem rotation_spec `{ClientPorts} (cx : context) (clk : nat → time) (expires : time)
    (signature newSignature : string) (w w' : fosite_world) :
  signature ≠ "" →
  (∀ x, fw_refresh w !! signature = Some x → RefreshTokenSession_Validate (stored x) = Ok ()) →
  (∀ i g, grants (fw_grants w) !! i = Some g → nonzero_id (ug_ID g) = true) →
  run (rotation cx clk expires signature newSignature) w = (w', None) ↔
  ∃ x client g agentID,
    refreshable (clk 0) signature w x client g ∧ revoked x = false ∧ extractAgentID client = Ok agentID ∧
    let y := successor cx (stored x) agentID (ug_ID g) newSignature expires (clk 4) in
    RefreshTokenSession_Validate y = Ok () ∧ fw_refresh w !! newSignature = None ∧
    w' = set_refresh w (<[newSignature := StoredSession y false]>
           (<[signature := StoredSession (use_session (clk 2) (stored x)) false]> (fw_refresh w))).
Proof.
  intros Hs Hval Hnz. split.
  - intros Hrun. assert (∃ x client g, refreshable (clk 0) signature w x client g) as (x & client & g & Hr).
    { revert Hrun. unfold rotation, mbind, prog_bind. rewrite run_pbind.
      destruct (run (GetRefreshTokenSession _ _ _) w) as [w1 [[req |] [e |]]] eqn:Hg; try done.
      intros _. apply GetRefreshTokenSession_run in Hg as (_ & x & client & g & Hr & _). eauto. }
    destruct (Find_stored _ _ _ _ (rf_grant _ _ _ _ _ _ Hr)) as [i Hi].
    rewrite (rotation_refreshable cx clk expires signature newSignature w x client g Hs
      (valid_method _ (Hval _ (rf_session _ _ _ _ _ _ Hr))) (Hnz _ _ Hi) Hr) in Hrun.
    destruct (extractAgentID client) as [agentID |] eqn:Ha; [| done]. cbv zeta in Hrun.
    destruct (RefreshTokenSession_Validate _) as [[] |] eqn:Hv; [| done].
    destruct (revoked x) eqn:Hrv; [done |]. destruct (_ !! newSignature) eqn:Hn; [done |].
    injection Hrun as <-. exists x, client, g, agentID. split_and!; try done.
    rewrite lookup_insert_None in Hn. by destruct Hn.
  - intros (x & client & g & agentID & Hr & Hrv & Ha & Hv & Hn & ->).
    destruct (Find_stored _ _ _ _ (rf_grant _ _ _ _ _ _ Hr)) as [i Hi].
    rewrite (rotation_refreshable cx clk expires signature newSignature w x client g Hs
      (valid_method _ (Hval _ (rf_session _ _ _ _ _ _ Hr))) (Hnz _ _ Hi) Hr), Ha.
    cbv zeta in Hv |- *. rewrite Hv, Hrv.
    rewrite lookup_insert_ne, Hn; [done |]. intros <-. rewrite (rf_session _ _ _ _ _ _ Hr) in Hn. done.
Qed.

(** ** Revoked consent and concurrent requests *)

(** Any repository call on grants or refresh sessions. *)
Inductive world_op := WGrant (op : grant_op) | WRefresh (op : refresh_op).

Definition do_op (op : world_op) (w : fosite_world) : fosite_world :=
  match op with
  | WGrant op => FWorld (fw_codes w) (fw_pkces w) (fw_refresh w) (grant_step op (fw_grants w)).1
  | WRefresh op => set_refresh w (refresh_step op (fw_refresh w))
  end.

(** A handler that makes the calls one after the other. *)
Fixpoint calls {A} (ops : list world_op) (a : A) : prog fosite_world A :=
  match ops with
  | [] => Ret a
  | op :: ops => Act (λ w, (do_op op w, ())) (λ _, calls ops a)
  end.

(** The call draws neither the grant id nor the token signature again. *)
Definition draws_fresh (g : GrantID) (signature : string) (op : world_op) : Prop :=
  match op with
  | WGrant (GCreate newID grant) => own_id newID grant ≠ g
  | WRefresh op => ∀ x, new_session op = Some x → rt_Signature x ≠ signature
  | _ => True
  end.

Section revoked.
Context `{ClientPorts} (g : GrantID) (signature : string).

(** The grant is gone, and the token, if present, is bound to it. *)
Definition orphaned (w : fosite_world) : Prop :=
  (∀ i x, grants (fw_grants w) !! i = Some x → i ≠ g ∧ ug_ID x ≠ g) ∧
  (∀ k, byPrincipalAndAgent (fw_grants w) !! k ≠ Some g) ∧
  (∀ x, fw_refresh w !! signature = Some x → rt_GrantID (stored x) = Some g).

Lemma drop_grant_subset (G G0 : gmap GrantID UserGrant) B B0 l :
  G ⊆ G0 → B ⊆ B0 → (foldl drop_grant (G, B) l).1 ⊆ G0 ∧ (foldl drop_grant (G, B) l).2 ⊆ B0.
Proof.
  revert G B. induction l as [| i l IH]; intros G B HG HB; [done |]. simpl.
  destruct (drop_grant (G, B) i) as [G' B'] eqn:E. apply IH.
  - revert E. unfold drop_grant. simpl. destruct (G !! i); intros [= <- <-]; [| done].
    etrans; [apply delete_subseteq | done].
  - revert E. unfold drop_grant. simpl. destruct (G !! i); intros [= <- <-]; [| done].
    etrans; [apply delete_subseteq | done].
Qed.

(** Every grant call either removes entries or stores a grant whose id is not [g]. *)
Lemma grant_step_without op r :
  (∀ i x, grants r !! i = Some x → i ≠ g ∧ ug_ID x ≠ g) → (∀ k, byPrincipalAndAgent r !! k ≠ Some g) →
  draws_fresh g signature (WGrant op) →
  let r' := (grant_step op r).1 in
  (∀ i x, grants r' !! i = Some x → i ≠ g ∧ ug_ID x ≠ g) ∧ (∀ k, byPrincipalAndAgent r' !! k ≠ Some g).
Proof.
  intros HG HB Hop.
  assert (∀ r', grants r' ⊆ grants r → byPrincipalAndAgent r' ⊆ byPrincipalAndAgent r →
    (∀ i x, grants r' !! i = Some x → i ≠ g ∧ ug_ID x ≠ g) ∧ (∀ k, byPrincipalAndAgent r' !! k ≠ Some g)) as Hsub.
  { intros r' H1 H2. split.
    - intros i x Hi. eapply HG. by eapply lookup_weaken.
    - intros k Hk. eapply HB. by eapply lookup_weaken. }
  destruct op as [newID gr | gr | i | p a | p a | i | a | p a]; cbn [grant_step fst]; try by apply Hsub.
  - unfold grant_Create. set (st := if nonzero_id (ug_ID gr) then gr else _).
    assert (ug_ID st ≠ g) as Hst.
    { revert Hop. unfold st, draws_fresh, own_id. by destruct (nonzero_id (ug_ID gr)). }
    destruct (byPrincipalAndAgent r !! _) as [j |] eqn:Hj; cbn [fst grants byPrincipalAndAgent].
    + split; [| done]. intros i x. rewrite lookup_insert_Some. intros [[<- <-] | [_ Hi]]; [| by eapply HG].
      assert (j ≠ g) by (intros ->; by apply (HB _ Hj)). done.
    + split.
      * intros i x. rewrite lookup_insert_Some. intros [[<- <-] | [_ Hi]]; [done | by eapply HG].
      * intros k. rewrite lookup_insert_Some. intros [[_ E] | [_ Hk]]; [done | by eapply HB].
  - unfold grant_Update. destruct (grants r !! ug_ID gr) as [old |] eqn:Ho; cbn [fst]; [| by apply Hsub].
    cbn [grants byPrincipalAndAgent]. split; [| done]. destruct (HG _ _ Ho) as [Hne _].
    intros i x. rewrite lookup_insert_Some. intros [[<- <-] | [_ Hi]]; [done | by eapply HG].
  - unfold grant_Delete. destruct (grants r !! i); [| by apply Hsub].
    apply Hsub; apply delete_subseteq.
  - unfold grant_DeleteByAgent. destruct (grantIDsByAgent r !! a) as [[| i l] |]; [by apply Hsub | | by apply Hsub].
    destruct (drop_grant_subset (grants r) (grants r) (byPrincipalAndAgent r) (byPrincipalAndAgent r) (i :: l))
      as [H1 H2]; [done | done |]. by apply Hsub.
  - unfold grant_DeleteByPrincipalAndAgentID. destruct (byPrincipalAndAgent r !! _) as [i |]; [| by apply Hsub].
    destruct (grants r !! i); [| by apply Hsub]. apply Hsub; apply delete_subseteq.
Qed.

Lemma orphaned_step op w : draws_fresh g signature op → orphaned w → orphaned (do_op op w).
Proof.
  intros Hop (HG & HB & HS). destruct op as [op | op]; cbn [do_op].
  - destruct (grant_step_without op (fw_grants w) HG HB Hop) as [HG' HB']. done.
  - split_and!; [done | done |]. cbn [fw_refresh set_refresh]. intros y Hy.
    apply refresh_step_lookup in Hy as [(x & Hx & _ & _ & _ & _ & ->) | (_ & x & Hn & E & _)]; [by apply HS |].
    by destruct (Hop x Hn).
Qed.

Definition keeps_orphaned (w w' : fosite_world) : Prop := orphaned w → orphaned w'.

Lemma orphaned_rtc w w' : rtc keeps_orphaned w w' → orphaned w → orphaned w'.
Proof. induction 1 as [| ??? Hs _ IH]; [done |]. intros Ho. by apply IH, Hs. Qed.

(** With the grant gone, the lookup of its token always reports an error. *)
Lemma orphaned_lookup now now' w :
  orphaned w →
  rg keeps_orphaned keeps_orphaned (λ r _, r.2 ≠ None) (GetRefreshTokenSession now now' signature) w.
Proof.
  intros Ho. unfold GetRefreshTokenSession, mbind, prog_bind, fosite_read, act. cbn [pbind].
  intros w1 Hw1%orphaned_rtc; [| done]. cbn [fst snd]. split; [by intros ? |].
  unfold refresh_FindBySignature.
  destruct (fw_refresh w1 !! signature) as [x |] eqn:Hx; [| by intros ? ?].
  destruct (GetClient _) as [client |]; [| by intros ? ?].
  destruct (rt_UsedAt (stored x)); [by intros ? ? |].
  unfold verify_access, fosite_read, act. cbn [pbind]. intros w2 Hw2%orphaned_rtc; [| done]. cbn [fst snd].
  split; [by intros ? |]. pose proof (proj2 (proj2 Hw1) x Hx) as Hb.
  destruct (denial_reason (stored x) _) as [[[r |] [gr |]] |] eqn:Hd; [| | | | by intros ? ?].
  3:{ exfalso. apply denial_reason_none in Hd as [Hv Hgr]. rewrite Hb in Hgr.
      apply VerifyAgentAccess_ok in Hv as [(i & Hi)%Find_stored _]. destruct (proj1 Hw2 _ _ Hi). congruence. }
  all: unfold refresh_act, act; cbn [pbind]; intros w3 Hw3%orphaned_rtc; [| done]; cbn [fst snd];
    (split; [| by intros ? ?]);
    intros Ho3; exact (orphaned_step (WRefresh (RfRevokeByRequestID now' (rt_RequestID (stored x)))) w3 ltac:(done) Ho3).
Qed.

Lemma calls_keep {A} ops (a : A) w :
  Forall (draws_fresh g signature) ops → rg keeps_orphaned keeps_orphaned (λ _ _, True) (calls ops a) w.
Proof.
  intros HF. revert w. induction HF as [| op ops Hop _ IH]; intros w; [by intros ? ? |].
  cbn [calls]. intros w1 _. split; [| apply IH]. by intros ?; apply orphaned_step.
Qed.

End revoked.

(** Claim C8.  Once the grant a refresh token is bound to has been deleted, the
    token is refused, whatever runs concurrently.  The lookup of the token runs
    against any number of handlers making any repository calls on grants and
    refresh sessions (new grants for the same user and agent included), as long
    as random ids and signatures do not repeat; it never answers without an
    error. *)
Theorem revoked_grant_blocks_refresh `{ClientPorts} (g : GrantID) (signature : string) (now now' : time)
    (w : fosite_world) (opss : list (list world_op)) c r :
  orphaned g signature w →
  Forall (Forall (draws_fresh g signature)) opss →
  rtc pool_step (w, GetRefreshTokenSession now now' signature :: ((λ ops, calls ops (None, None)) <$> opss)) c →
  c.2 !! 0 = Some (Ret r) → r.2 ≠ None.
Proof.
  intros Ho Hops Hsteps Hr.
  destruct (pool_rg_steps (λ _, keeps_orphaned g signature) (λ i r w', i = 0 ∧ orphaned g signature w → r.2 ≠ None)
    _ _ Hsteps) as [_ Hrg].
  { assert (∀ (i : nat) w w', others (λ _ : nat, keeps_orphaned g signature) i w w' → keeps_orphaned g signature w w')
      as Hoth by (intros ? ? ? (? & _ & ?); done).
    intros [| i] p Hp; cbn in Hp.
    - injection Hp as <-. eapply rg_mono; [apply Hoth | done |].
      eapply rg_impl; [| by apply orphaned_lookup]. by intros.
    - apply list_lookup_fmap_Some in Hp as (ops & -> & Hi). eapply rg_mono; [apply Hoth | done |].
      eapply rg_impl; [| apply calls_keep; by eapply Forall_lookup_1]. by intros ? ? _ [? _]. }
  specialize (Hrg 0 _ Hr c.1). by apply Hrg.
Qed.

(** ** Redeeming authorization codes *)

Section codes.
Context `{ClientPorts}.

(** What redeeming a code rests on. *)
Record redeemable (cx : context) (now now' : time) (code : string) (w : fosite_world)
    (c : AuthorizationCode) (client : client) : Prop := {
  rd_code : byCodeHash (fw_codes w) !! code ≫= code_at (fw_codes w) = Some c;
  rd_alive : (now < ac_ExpiresAt c ∧ now' < ac_ExpiresAt c)%Z;
  rd_unused : ac_UsedAt c = None;
  rd_client : code_client cx c = Ok client;
  rd_agent : extractAgentID client = Ok (ac_AgentID c);
  rd_id : GetID client = code_client_id c;
  rd_credential : ∀ i a cred, client = confidentialClient i a cred → cc_AgentID cred = ac_AgentID c;
}.

Lemma code_client_matches_true c client :
  code_client_matches c client = true ↔
  extractAgentID client = Ok (ac_AgentID c) ∧ GetID client = code_client_id c ∧
  ∀ i a cred, client = confidentialClient i a cred → cc_AgentID cred = ac_AgentID c.
Proof.
  unfold code_client_matches. destruct (extractAgentID client) as [ag |]; [| naive_solver].
  rewrite !andb_true_iff, !bool_decide_eq_true. destruct client; rewrite ?bool_decide_eq_true; naive_solver.
Qed.

Lemma GetAuthorizeCodeSession_run cx now now' code session w w' req session' :
  run (GetAuthorizeCodeSession cx now now' code session) w = (w', (Some req, None, session')) ↔
  w' = w ∧ ∃ c client, redeemable cx now now' code w c client ∧ req = code_request c client ∧
    session' = SetExpiresAt AuthorizeCode (ac_ExpiresAt c) <$> session.
Proof.
  unfold GetAuthorizeCodeSession, mbind, prog_bind, fosite_read. rewrite run_act.
  unfold code_FindByCodeHash. destruct (byCodeHash (fw_codes w) !! code ≫= code_at (fw_codes w)) as [c |] eqn:Hc.
  2:{ split; [done |]. intros (_ & c & client & [Hc' _ _ _ _ _ _] & _). congruence. }
  destruct (After (ac_ExpiresAt c) now) eqn:Ha.
  2:{ split; [done |]. intros (_ & c' & client & [Hc' [Hlt _] _ _ _ _ _] & _).
      apply After_false in Ha. simplify_eq. lia. }
  destruct (After (ac_ExpiresAt c) now') eqn:Ha'; cbn [negb].
  2:{ split; [done |]. intros (_ & c' & client & [Hc' [_ Hlt] _ _ _ _ _] & _).
      apply After_false in Ha'. simplify_eq. lia. }
  apply After_spec in Ha, Ha'. destruct (code_client cx c) as [client |] eqn:Hcl.
  2:{ split; [done |]. intros (_ & c' & client & [Hc' _ _ Hcl' _ _ _] & _). congruence. }
  pose proof (code_client_matches_true c client) as Hm.
  destruct (code_client_matches c client); cbn [negb].
  2:{ split; [done |]. intros (_ & c' & client' & [Hc' _ _ Hcl' ? ? ?] & _).
      assert (c' = c) as -> by congruence. assert (client' = client) as -> by congruence.
      assert (false = true); [| done]. by apply Hm. }
  destruct Hm as [(Hm1 & Hm2 & Hm3) _]; [done |]. destruct (ac_UsedAt c) eqn:Hu.
  { split; [done |]. intros (_ & c' & client' & [Hc' _ Hu' _ _ _ _] & _). congruence. }
  cbn [run]. split.
  - intros [= <- <- <-]. split; [done |]. exists c, client. by split.
  - intros (-> & c' & client' & [Hc' _ _ Hcl' _ _ _] & -> & ->).
    assert (c' = c) as -> by congruence. assert (client' = client) as -> by congruence. reflexivity.
Qed.

End codes.

(** An authorization code is redeemed exactly when it is stored,
    unexpired at both readings of the clock and unused, and the client
    exchanging it is the one it was issued to: same agent, same client id and,
    for a confidential client, a credential of that agent.  The request handed
    to the library carries the code's principal, scope, redirect URI and PKCE
    challenge, and nothing is changed but the caller's session expiry. *)
Theorem code_redeemed_iff `{ClientPorts} (cx : context) (now now' : time) (code : string)
    (session session' : option fosite_session) (w w' : fosite_world) (req : requester) :
  run (GetAuthorizeCodeSession cx now now' code session) w = (w', (Some req, None, session')) ↔
  w' = w ∧ ∃ c client, redeemable cx now now' code w c client ∧ req = code_request c client ∧
    session' = SetExpiresAt AuthorizeCode (ac_ExpiresAt c) <$> session.
Proof. apply GetAuthorizeCodeSession_run. Qed.

(** The code, if still stored, is used. *)
Definition code_used (h : string) (s : AuthorizationCodeStore) : Prop :=
  ∀ c, codes_of s !! h = Some c → ac_UsedAt c ≠ None.

Lemma code_used_step h op s :
  codes_wf s → (∀ i, created_id op = Some i → byID s !! i = None) →
  (∀ c, op = CCreate c → ac_CodeHash c ≠ h) → code_used h s → code_used h (code_step op s).1.
Proof.
  intros Hwf Hid Hop Hu c Hc. destruct (code_step_refines op s Hwf Hid) as [_ Hr].
  apply (f_equal fst) in Hr. cbn [fst] in Hr. rewrite Hr in Hc.
  destruct op as [c' | now h' | now i | now]; cbn [code_spec fst] in Hc.
  - destruct (codes_of s !! ac_CodeHash c'); [by apply Hu |]. cbn [fst] in Hc.
    rewrite lookup_insert_ne in Hc by (by apply Hop). by apply Hu.
  - by apply Hu.
  - rewrite lookup_fmap in Hc. destruct (codes_of s !! h) as [c0 |] eqn:E; [| done]. simpl in Hc.
    destruct (decide _); simplify_eq; [done | by apply Hu].
  - apply map_lookup_filter_Some in Hc as [Hc _]. by apply Hu.
Qed.

Lemma code_used_steps h ops s :
  codes_wf s → NoDup (omap created_id ops) → (∀ i, i ∈ omap created_id ops → byID s !! i = None) →
  Forall (λ op, ∀ c, op = CCreate c → ac_CodeHash c ≠ h) ops → code_used h s →
  code_used h (foldl (λ s op, (code_step op s).1) s ops).
Proof.
  intros Hwf Hnd Hfr HF. revert s Hwf Hnd Hfr.
  induction HF as [| op ops Hop _ IH]; intros s Hwf Hnd Hfr Hu; [done |]. cbn [foldl].
  assert (∀ i, created_id op = Some i → byID s !! i = None) as Hid.
  { intros i Hi. apply Hfr. simpl. rewrite Hi. constructor. }
  apply IH.
  - by apply code_step_refines.
  - simpl in Hnd. destruct (created_id op); [by apply NoDup_cons in Hnd as [_ ?] | done].
  - intros i Hi. apply eq_None_not_Some. intros Hs.
    destruct (code_step_ids op s i Hwf Hid Hs) as [[p Hp] | Ho].
    + rewrite Hfr in Hp; [done |]. simpl. destruct (created_id op); [by right | done].
    + simpl in Hnd. rewrite Ho in Hnd. by apply NoDup_cons in Hnd as [? _].
  - by apply code_used_step.
Qed.

Definition set_codes (w : fosite_world) (s : AuthorizationCodeStore) : fosite_world :=
  FWorld s (fw_pkces w) (fw_refresh w) (fw_grants w).

Lemma Invalidate_used now now' h w w1 :
  codes_wf (fw_codes w) → run (InvalidateAuthorizeCodeSession now now' h) w = (w1, None) →
  codes_wf (fw_codes w1) ∧ code_used h (fw_codes w1) ∧
  (∀ i, byID (fw_codes w) !! i = None → byID (fw_codes w1) !! i = None).
Proof.
  intros Hwf. unfold InvalidateAuthorizeCodeSession, mbind, prog_bind, fosite_read. rewrite run_act.
  rewrite code_Find_refines. destruct (codes_of (fw_codes w) !! h) as [c |] eqn:Hc; [| done].
  destruct (After _ _); [| done]. unfold codes_act. rewrite run_act.
  destruct (code_MarkUsed_refines now' (ac_ID c) (fw_codes w) Hwf) as (Hwf' & Hm & Hr).
  destruct (code_MarkUsed now' (ac_ID c) (fw_codes w)) as [s r] eqn:Em. cbn [fst snd] in *.
  destruct r as [[] | k]; [| by destruct k]. cbn [run]. intros [= <-]. cbn [fw_codes]. split_and!.
  - done.
  - intros c' Hc'. rewrite Hm, lookup_fmap, Hc in Hc'. simpl in Hc'. rewrite decide_True in Hc' by done.
    by simplify_eq.
  - intros i Hi. revert Em. unfold code_MarkUsed. destruct (byID (fw_codes w) !! ac_ID c); [| done].
    by intros [= <-].
Qed.

(** A redeemed code is never redeemed again.  After the exchange has
    invalidated the code, whatever codes are created, marked used or swept
    afterwards, presenting it again is answered with an error. *)
Theorem redeemed_code_refused `{ClientPorts} (cx : context) (h : string) (now now' t t' : time)
    (session : option fosite_session) (w w1 : fosite_world) (ops : list code_op) :
  codes_wf (fw_codes w) →
  run (InvalidateAuthorizeCodeSession now now' h) w = (w1, None) →
  NoDup (omap created_id ops) → (∀ i, i ∈ omap created_id ops → byID (fw_codes w) !! i = None) →
  Forall (λ op, ∀ c, op = CCreate c → ac_CodeHash c ≠ h) ops →
  let w2 := set_codes w1 (foldl (λ s op, (code_step op s).1) (fw_codes w1) ops) in
  (run (GetAuthorizeCodeSession cx t t' h session) w2).2.1.2 ≠ None.
Proof.
  intros Hwf Hinv Hnd Hfr HF w2. destruct (Invalidate_used _ _ _ _ _ Hwf Hinv) as (Hwf1 & Hu & Hids).
  assert (code_used h (fw_codes w2)) as Hu2 by (apply code_used_steps; naive_solver).
  destruct (run (GetAuthorizeCodeSession cx t t' h session) w2) as [w3 [[req e] s']] eqn:Hrun. cbn [fst snd].
  intros ->. destruct req as [req |].
  - apply GetAuthorizeCodeSession_run in Hrun as (_ & c & client & Hr & _).
    apply (Hu2 c); [| apply Hr]. unfold codes_of. rewrite lookup_omap. apply Hr.
  - revert Hrun. unfold GetAuthorizeCodeSession, mbind, prog_bind, fosite_read. rewrite run_act.
    destruct (code_FindByCodeHash _ _ _) as [c | k]; [| done]. destruct (negb _); [done |].
    destruct (code_client cx c); [| done]. destruct (negb _); [done |]. by destruct (ac_UsedAt c).
Qed.

(** ** Concurrent redemptions *)

(** One exchange: look the code up, then invalidate it; [true] when both pass. *)
Definition redemption `{ClientPorts} (cx : context) (clk : nat → time) (h : string) : prog fosite_world bool :=
  r ← GetAuthorizeCodeSession cx (clk 0) (clk 1) h None;
  match r with
  | (Some _, None, _) =>
      e ← InvalidateAuthorizeCodeSession (clk 2) (clk 3) h; Ret (bool_decide (e = None))
  | _ => Ret false
  end.

Section race.
Context `{ClientPorts} (cx : context) (clk : nat → time) (h : string).

Definition after_lookup : prog fosite_world bool :=
  pbind (InvalidateAuthorizeCodeSession (clk 2) (clk 3) h) (λ e, Ret (bool_decide (e = None))).

Lemma redemption_lookup w c client :
  redeemable cx (clk 0) (clk 1) h w c client →
  ∃ f k, redemption cx clk h = Act (X := result ErrorKind AuthorizationCode) f k ∧
    f w = (w, Ok c) ∧ k (Ok c) = after_lookup.
Proof.
  intros [Hc [Ha Ha'] Hu Hcl Hm1 Hm2 Hm3]. do 2 eexists. split; [reflexivity |]. split.
  - cbn beta. unfold code_FindByCodeHash. rewrite Hc. by rewrite (proj2 (After_spec _ _) Ha).
  - cbn beta iota. cbn [pbind]. rewrite (proj2 (After_spec _ _) Ha'), Hcl. cbn [negb].
    rewrite (proj2 (code_client_matches_true c client)), Hu by done. reflexivity.
Qed.

Lemma invalidate_steps w c :
  byCodeHash (fw_codes w) !! h ≫= code_at (fw_codes w) = Some c → (clk 2 < ac_ExpiresAt c)%Z →
  is_Some (byID (fw_codes w) !! ac_ID c) →
  ∃ f k f' k', after_lookup = Act (X := result ErrorKind AuthorizationCode) f k ∧ f w = (w, Ok c) ∧
    k (Ok c) = Act (X := result ErrorKind unit) f' k' ∧
    f' w = (set_codes w (code_MarkUsed (clk 3) (ac_ID c) (fw_codes w)).1, Ok ()) ∧ k' (Ok ()) = Ret true.
Proof.
  intros Hc Ha [p Hp]. do 2 eexists. exists
    (λ w, let '(s, x) := code_MarkUsed (clk 3) (ac_ID c) (fw_codes w) in
          (FWorld s (fw_pkces w) (fw_refresh w) (fw_grants w), x)).
  eexists. split; [reflexivity |]. split_and!.
  - cbn beta. unfold code_FindByCodeHash. rewrite Hc. by rewrite (proj2 (After_spec _ _) Ha).
  - reflexivity.
  - cbn beta. unfold code_MarkUsed. by rewrite Hp.
  - reflexivity.
Qed.

End race.


(** ** Witnesses *)

Definition local_agent : Agent := simple_agent "a" [] [] [].
Definition local_ports : ClientPorts :=
  {| ResolveClient _ := Ok (local_agent, None); GetByAgentID _ := Err KNotFound |}.
Definition plain_context : context :=
  {| cx_exchangeClient := None; cx_privateKeyJWTAuthenticated := false; cx_profile := None |}.

Definition bound_session : RefreshTokenSession :=
  {| rt_Signature := "t"; rt_RequestID := "r"; rt_AgentID := "a"; rt_ClientID := "a"; rt_Principal := "p";
     rt_GrantID := Some "g1"; rt_Email := Some "e"; rt_DisplayName := "P"; rt_Scope := "s1 s2";
     rt_ClientAuthMethod := None; rt_ExpiresAt := 1000; rt_UsedAt := None; rt_CreatedAt := 2 |}.

Definition the_grant (i : GrantID) : UserGrant := MkGrant i "p" "a" None [] 1 1.
Definition one_code : AuthorizationCode :=
  {| ac_ID := "i"; ac_CodeHash := "h"; ac_AgentID := "a"; ac_ClientID := "a"; ac_Principal := "p"; ac_Email := None;
     ac_DisplayName := ""; ac_RedirectURI := "u"; ac_CodeChallenge := "c"; ac_Scope := "s"; ac_ExpiresAt := 60;
     ac_UsedAt := None; ac_CreatedAt := 1 |}.

(** One session and one code; [r] holds the grants. *)
Definition token_world (r : UserGrantRepository) : fosite_world :=
  FWorld (code_Create one_code NewAuthorizationCodeStore).1 ∅
    {[ "t" := StoredSession bound_session false ]} r.
Definition granted_world : fosite_world := token_world (grant_Create "n" (the_grant "g1") NewUserGrantRepository).1.

Lemma token_world_codes r : codes_wf (fw_codes (token_world r)).
Proof. apply code_Create_refines; [apply codes_wf_empty | done]. Qed.

(** C3 while the user consents again: the new grant does not revive the token. *)
Lemma revoked_grant_blocks_refresh_witness :
  let c := schedule [0; 1; 0; 0]
    (token_world NewUserGrantRepository,
     [@GetRefreshTokenSession local_ports 10 11 "t"; calls [WGrant (GCreate "n" (the_grant "g2"))] (None, None)]) in
  c.2 !! 0 = Some (Ret (None, Some FNotFound)) ∧
  (None : option requester, Some FNotFound).2 ≠ None.
Proof.
  intros c. split; [reflexivity |].
  apply (@revoked_grant_blocks_refresh local_ports "g1" "t" 10 11 (token_world NewUserGrantRepository)
    [[WGrant (GCreate "n" (the_grant "g2"))]] c).
  - split_and!; [done | done |]. intros x [= <-]. reflexivity.
  - repeat constructor. discriminate.
  - apply schedule_steps.
  - reflexivity.
Defined.

Lemma rotation_spec_witness :
  ∃ x client g, @refreshable local_ports 10 "t" granted_world x client g.
Proof.
  destruct (@rotation_spec local_ports plain_context (λ n, Z.of_nat (10 + n)) 99 "t" "u" granted_world
    (run (@rotation local_ports plain_context (λ n, Z.of_nat (10 + n)) 99 "t" "u") granted_world).1) as [Hs _].
  - discriminate.
  - intros x [= <-]. reflexivity.
  - intros i g Hi. change (({[ "g1" := the_grant "g1" ]} : gmap string UserGrant) !! i = Some g) in Hi.
    apply lookup_singleton_Some in Hi as [_ <-]. reflexivity.
  - destruct Hs as (x & client & g & agentID & Hr & _); [reflexivity |]. eauto.
Defined.

Lemma redeemed_code_refused_witness :
  let w1 := (run (InvalidateAuthorizeCodeSession 10 11 "h") granted_world).1 in
  let w2 := set_codes w1 (code_DeleteExpired 20 (fw_codes w1)).1 in
  (run (@GetAuthorizeCodeSession local_ports plain_context 30 31 "h" None) w2).2.1.2 ≠ None.
Proof.
  apply (@redeemed_code_refused local_ports plain_context "h" 10 11 30 31 None granted_world
    (run (InvalidateAuthorizeCodeSession 10 11 "h") granted_world).1 [CDeleteExpired 20]).
  - apply token_world_codes.
  - reflexivity.
  - constructor.
  - intros i Hi. by apply not_elem_of_nil in Hi.
  - repeat constructor. discriminate.
Defined.

