(* ===== verification/ProviderAuth.v ===== *)
(** * Client authentication at the token endpoint

    The parts of internal/domain/oauth2server/provider.go and client_auth.go that
    decide whether a client may use an authorization code or a refresh token:
    everything [HandleAuthorizationCodeExchange] and [HandleRefreshToken] do
    before they hand over to the token library.  Secret hashing, token signatures
    and the URL check are the class [ProviderPorts]. *)

From S2P Require Import Prelude ToolApproval ApprovalStore OAuthSessions UserGrants Consent ClientAssertion FositeStorage.

Inductive provider_error := PInvalidClient | PInvalidRequest | PServerError.
#[export] Instance provider_error_eq_dec : EqDecision provider_error.
Proof. solve_decision. Defined.

Class ProviderPorts := {
  hasher_Compare : string → string → bool;
  RefreshTokenSignature : string → string;
  ValidateCIMDClientURL : string → bool;
}.

Record ClientCredentials := {
  cr_Secret : string;
  cr_AssertionType : string;
  cr_Assertion : string;
  cr_HasClientSecret : bool;
  cr_HasAssertionType : bool;
  cr_HasAssertion : bool;
  cr_HasAuthorizationHeader : bool;
}.

Definition invalidCIMDClientCredentials (c : ClientCredentials) : bool :=
  let hasAssertionType := cr_HasAssertionType c || nonempty (cr_AssertionType c) in
  let hasAssertion := cr_HasAssertion c || nonempty (cr_Assertion c) in
  let hasClientSecret := cr_HasClientSecret c || nonempty (cr_Secret c) in
  xorb hasAssertionType hasAssertion || (hasAssertion && hasClientSecret) ||
  (hasAssertion && cr_HasAuthorizationHeader c).

(** The stores the endpoint reads and writes before the library runs. *)
Record auth_world := AWorld {
  aw_refresh : gmap string refreshTokenSession;
  aw_replays : gmap (string * string) Z;
}.

Section auth.
Context `{JWT} `{ClientPorts} `{ProviderPorts}.

(** [ClientAuthService.Authenticate]. *)
Definition Authenticate (agentID : AgentID) (secret : string) : result provider_error (Agent * ClientCredential) :=
  match GetByAgentID agentID with
  | Err _ => Err PInvalidClient
  | Ok cred =>
      match ResolveClient agentID with
      | Err _ => Err PInvalidClient
      | Ok (agent, _) =>
          if hasher_Compare (cc_SecretHash cred) secret then Ok (agent, cred) else Err PInvalidClient
      end
  end.

(** The document the assertion is checked against when the key method is
    required; a document with another method gets its key URL checked first. *)
Definition assertion_document (metadata : option CIMDMetadata) : option (option CIMDMetadata) :=
  match metadata with
  | Some md =>
      if decide (md_AuthMethod md = "private_key_jwt") then Some (Some md)
      else if nonempty (md_JWKSURI md) && negb (ValidateCIMDClientURL (md_JWKSURI md)) then None
      else Some (Some (set_AuthMethod md "private_key_jwt"))
  | None => Some None
  end.

Definition replays_act {A} (f : gmap (string * string) Z → gmap (string * string) Z * A) : prog auth_world A :=
  act (λ w, let '(s, x) := f (aw_replays w) in (AWorld (aw_refresh w) s, x)).

Definition authenticatePublicClientWithRequirement (v : option ClientAssertionVerifier) (now : time)
    (metadata : option CIMDMetadata) (c : ClientCredentials) (requirePrivateKeyJWT : bool)
    : prog auth_world (result provider_error unit) :=
  if bool_decide (is_Some metadata) && invalidCIMDClientCredentials c then Ret (Err PInvalidRequest)
  else if requirePrivateKeyJWT then
    match v with
    | None => Ret (Err PServerError)
    | Some v =>
        match assertion_document metadata with
        | None => Ret (Err PInvalidClient)
        | Some document =>
            r ← replays_act (Verify v now document (cr_AssertionType c) (cr_Assertion c));
            match r with
            | Ok _ => Ret (Ok ())
            | Err (ErrClientAuthentication _) => Ret (Err PInvalidClient)
            | Err ErrUnavailable => Ret (Err PServerError)
            end
        end
    end
  else if nonempty (cr_Assertion c) || nonempty (cr_AssertionType c) then Ret (Err PInvalidClient)
  else Ret (Ok ()).

Definition authenticatePublicClient (v : option ClientAssertionVerifier) (now : time)
    (metadata : option CIMDMetadata) (c : ClientCredentials) : prog auth_world (result provider_error unit) :=
  authenticatePublicClientWithRequirement v now metadata c (requiresPrivateKeyJWT metadata).

Definition refreshRequiresPrivateKeyJWT (clientID : string) (metadata : option CIMDMetadata) (refreshToken : string)
    : prog auth_world (result provider_error bool) :=
  let required := requiresPrivateKeyJWT metadata in
  r ← act (λ w, (w, refresh_FindBySignature (RefreshTokenSignature refreshToken) (aw_refresh w)));
  match r with
  | Err KNotFound => Ret (Ok true)
  | Err _ => Ret (Err PServerError)
  | Ok session =>
      if decide (rt_ClientID session ≠ clientID) then Ret (Ok required)
      else Ret (Ok (required || bool_decide (rt_ClientAuthMethod session = Some "private_key_jwt")))
  end.

(** The switch on the client's type that follows, and the context flag. *)
Definition authenticated_client (clientID : string) (c : client) (creds : ClientCredentials)
    : result provider_error (client * bool) :=
  match c with
  | confidentialClient _ agent _ =>
      match Authenticate (ag_ID agent) (cr_Secret creds) with
      | Err e => Err e
      | Ok (agent, cred) => Ok (confidentialClient clientID agent cred, false)
      end
  | publicClient _ _ _ _ metadata => Ok (c, requiresPrivateKeyJWT metadata)
  | foreignClient _ => Err PServerError
  end.

Definition lookup_client (clientID : string) : result provider_error client :=
  match GetClient clientID with
  | Ok c => Ok c
  | Err FNotFound => Err PInvalidClient
  | Err _ => Err PServerError
  end.

(** [HandleAuthorizationCodeExchange] up to the library: the client, and whether
    it authenticated with a private key. *)
Definition exchange_auth (v : option ClientAssertionVerifier) (now : time) (clientID : string)
    (creds : ClientCredentials) : prog auth_world (result provider_error (client * bool)) :=
  match lookup_client clientID with
  | Err e => Ret (Err e)
  | Ok c =>
      r ← match c with
          | publicClient _ _ _ _ metadata => authenticatePublicClient v now metadata creds
          | _ => Ret (Ok ())
          end;
      match r with
      | Err e => Ret (Err e)
      | Ok _ => Ret (authenticated_client clientID c creds)
      end
  end.

(** [HandleRefreshToken] up to the library. *)
Definition refresh_auth (v : option ClientAssertionVerifier) (now : time) (clientID : string)
    (creds : ClientCredentials) (refreshToken : string) : prog auth_world (result provider_error (client * bool)) :=
  match lookup_client clientID with
  | Err e => Ret (Err e)
  | Ok c =>
      r ← match c with
          | publicClient i _ _ _ metadata =>
              required ← refreshRequiresPrivateKeyJWT i metadata refreshToken;
              match required with
              | Err e => Ret (Err e)
              | Ok required => authenticatePublicClientWithRequirement v now metadata creds required
              end
          | _ => Ret (Ok ())
          end;
      match r with
      | Err e => Ret (Err e)
      | Ok _ => Ret (authenticated_client clientID c creds)
      end
  end.

(** ** No downgrade *)

(** The token endpoint must see a private-key assertion: the client's document
    says so, the presented token's session was obtained with one, or there is no
    such session. *)
Definition key_required (metadata : option CIMDMetadata) (clientID refreshToken : string) (w : auth_world) : Prop :=
  requiresPrivateKeyJWT metadata = true ∨
  match aw_refresh w !! RefreshTokenSignature refreshToken with
  | Some x => rt_ClientID (stored x) = clientID ∧ rt_ClientAuthMethod (stored x) = Some "private_key_jwt"
  | None => True
  end.

Lemma refreshRequires_run clientID metadata token w :
  ∃ b, run (refreshRequiresPrivateKeyJWT clientID metadata token) w = (w, Ok b) ∧
    (key_required metadata clientID token w → b = true).
Proof.
  unfold refreshRequiresPrivateKeyJWT, mbind, prog_bind, key_required. rewrite run_act.
  unfold refresh_FindBySignature. destruct (aw_refresh w !! _) as [x |]; cbn.
  - destruct (decide (rt_ClientID (stored x) ≠ clientID)) as [Hne | He]; cbn; eexists; (split; [reflexivity |]).
    + by intros [? | [? _]].
    + intros [-> | [_ ->]]; [done |]. by rewrite bool_decide_eq_true_2, orb_true_r.
  - eexists. split; [reflexivity |]. done.
Qed.

(** What passing the key requirement means. *)
Lemma authenticate_required_run v now metadata creds w w' :
  run (authenticatePublicClientWithRequirement v now metadata creds true) w = (w', Ok ()) →
  ∃ v' document verified, v = Some v' ∧ assertion_document metadata = Some document ∧
    Verify v' now document (cr_AssertionType creds) (cr_Assertion creds) (aw_replays w) =
      (aw_replays w', Ok verified) ∧ aw_refresh w' = aw_refresh w.
Proof.
  unfold authenticatePublicClientWithRequirement. destruct (_ && _); [done |].
  destruct v as [v |]; [| done]. destruct (assertion_document metadata) as [document |]; [| done].
  unfold mbind, prog_bind, replays_act. rewrite run_act.
  destruct (Verify _ _ _ _ _ _) as [s [verified | [] ]] eqn:Hv; [| done | done].
  cbn [run]. intros [= <-]. exists v, document, verified. done.
Qed.

End auth.

(** Claim C32.  No downgrade of client authentication.  When the client's document
    asks for private_key_jwt, or the presented refresh token was obtained with
    it, or no session exists for the token, a public client passes the refresh
    endpoint only with an assertion the verifier accepts for that client, made
    out to the client itself, with a jti that was never seen and is now
    recorded. *)
Theorem no_auth_downgrade `{JWT} `{ClientPorts} `{ProviderPorts} (v : option ClientAssertionVerifier) (now : time)
    (clientID token : string) (creds : ClientCredentials) (w w' : auth_world) agent uris grantTypes metadata res :
  GetClient clientID = Ok (publicClient clientID agent uris grantTypes metadata) →
  key_required metadata clientID token w →
  run (refresh_auth v now clientID creds token) w = (w', Ok res) →
  ∃ v' md verified, v = Some v' ∧ metadata = Some md ∧
    (∃ document, assertion_document metadata = Some (Some document) ∧ md_ClientID document = md_ClientID md ∧
       Verify v' now (Some document) (cr_AssertionType creds) (cr_Assertion creds) (aw_replays w) =
         (aw_replays w', Ok verified)) ∧
    va_ClientID verified = md_ClientID md ∧
    aw_replays w !! (md_ClientID md, va_JTI verified) = None ∧
    aw_replays w' !! (md_ClientID md, va_JTI verified) = Some (va_ExpiresAt verified + ClockSkew)%Z.
Proof.
  intros Hc Hreq. unfold refresh_auth, lookup_client. rewrite Hc. unfold mbind, prog_bind.
  rewrite run_pbind, run_pbind. destruct (refreshRequires_run clientID metadata token w) as (b & -> & Hb).
  rewrite (Hb Hreq). destruct (run (authenticatePublicClientWithRequirement _ _ _ _ _) w) as [w1 [[] |]] eqn:Ha; [| done].
  cbn [run authenticated_client]. intros [= <- _].
  apply authenticate_required_run in Ha as (v' & document & verified & -> & Hd & Hv & _).
  pose proof (Verify_ok _ _ _ _ _ _ _ _ Hv) as (d & Hauth & Hnone & Hset).
  apply authenticate_ok in Hauth as (-> & _ & al & kid & keys & set & key & cl & _ & _ & _ & _ & _ & _ & _ & Hg).
  assert (∃ md, metadata = Some md ∧ md_ClientID d = md_ClientID md) as (md & -> & Hid).
  { unfold assertion_document in Hd. destruct metadata as [md |]; [| done]. exists md. split; [done |].
    destruct (decide _); [by simplify_eq |]. destruct (_ && _); [done |]. by simplify_eq. }
  exists v', md, verified. rewrite <-Hid. split_and!; [done | done | | by apply Hg | done |].
  - exists d. done.
  - by rewrite Hset, lookup_insert_eq.
Qed.

(** C8 at a client whose document dropped the key method after the refresh chain
    was started with it. *)
Definition cimd_agent : Agent := simple_agent "a" [] [] ["c"].
Definition relaxed_document : CIMDMetadata :=
  set_AuthMethod example_document "none".
Definition cimd_ports : ClientPorts :=
  {| ResolveClient _ := Ok (cimd_agent, Some relaxed_document); GetByAgentID _ := Err KNotFound |}.
Definition plain_ports : ProviderPorts :=
  {| hasher_Compare h s := bool_decide (h = s); RefreshTokenSignature t := t; ValidateCIMDClientURL _ := true |}.
Definition key_credentials : ClientCredentials :=
  {| cr_Secret := ""; cr_AssertionType := ClientAssertionTypeJWTBearer; cr_Assertion := "token";
     cr_HasClientSecret := false; cr_HasAssertionType := true; cr_HasAssertion := true;
     cr_HasAuthorizationHeader := false |}.
Definition key_world : auth_world :=
  AWorld {[ "t" := StoredSession
    {| rt_Signature := "t"; rt_RequestID := "r"; rt_AgentID := "a"; rt_ClientID := "c"; rt_Principal := "p";
       rt_GrantID := Some "g"; rt_Email := None; rt_DisplayName := ""; rt_Scope := "";
       rt_ClientAuthMethod := Some "private_key_jwt"; rt_ExpiresAt := 1000; rt_UsedAt := None;
       rt_CreatedAt := 2 |} false ]} ∅.

Lemma no_auth_downgrade_witness :
  ∃ verified : VerifiedAssertion,
    aw_replays key_world !! ("c", va_JTI verified) = None ∧ va_ClientID verified = "c".
Proof.
  destruct (@no_auth_downgrade one_token cimd_ports plain_ports (Some example_verifier) (950 * second)%Z "c" "t"
    key_credentials key_world
    (run (@refresh_auth one_token cimd_ports plain_ports (Some example_verifier) (950 * second)%Z "c"
       key_credentials "t") key_world).1
    cimd_agent [] ["authorization_code"] (Some relaxed_document)
    (publicClient "c" cimd_agent [] ["authorization_code"] (Some relaxed_document), false))
    as (v' & md & verified & _ & [= <-] & _ & Hcl & Hn & _).
  - reflexivity.
  - right. split; reflexivity.
  - reflexivity.
  - exists verified. split; [exact Hn | exact Hcl].
Defined.
