(* ===== verification/SigningKeys.v ===== *)
(** * Signing keys: the record, the in-memory store and the key ring it implements

    internal/domain/storage/signing_key.go and
    internal/adapters/storage/memory/signing_key_store.go.  The store's two indices
    share pointers to the same objects; [objects] is the heap they refer to.  Every
    method holds the store's mutex for its whole body (or runs inside
    [WithBootstrapLock], which holds it), so each is one function on the store.
    [iter] is the order in which [range s.byID] visits the identifiers.

    The last part is the abstract key ring: each operation on a plain map from key
    ids to keys, which SigningKeysFacts proves the store to implement. *)

From S2P Require Import Prelude ApprovalStore OAuthSessions.

#[local] Open Scope Z_scope.

(** ** Data *)

(** [storage.KeyDomain] is a string type; the two constants are the only values
    [Validate] accepts. *)
Abbreviation KeyDomain := string (only parsing).
Abbreviation KeyID := string (only parsing).
Definition KeyDomainTokenSigning : KeyDomain := "token_signing".
Definition KeyDomainCIMDClientAuthentication : KeyDomain := "cimd_client_authentication".

Definition KeyDomain_Validate (d : KeyDomain) : bool :=
  bool_decide (d = KeyDomainTokenSigning) || bool_decide (d = KeyDomainCIMDClientAuthentication).

(** A [[]byte] that may be nil. *)
Abbreviation nbytes := (option string) (only parsing).

Record SigningKey := {
  sk_ID : string;
  sk_KID : KeyID;
  sk_KeyDomain : KeyDomain;
  sk_Algorithm : string;
  sk_PrivateKeyEncrypted : string;
  sk_PublicJWK : nbytes;
  sk_IsCurrent : bool;
  sk_ActivatesAt : time;
  sk_CreatedAt : time;
  sk_RemovedAt : option time;
}.
#[export] Instance SigningKey_eq_dec : EqDecision SigningKey.
Proof. solve_decision. Defined.

Definition SigningKey_Validate (k : SigningKey) : result ErrorKind unit :=
  required [ nonempty (sk_KID k); KeyDomain_Validate (sk_KeyDomain k); nonempty (sk_Algorithm k);
             nonempty (sk_PrivateKeyEncrypted k) ].

Definition set_IsCurrent (b : bool) (k : SigningKey) : SigningKey :=
  {| sk_ID := sk_ID k; sk_KID := sk_KID k; sk_KeyDomain := sk_KeyDomain k;
     sk_Algorithm := sk_Algorithm k; sk_PrivateKeyEncrypted := sk_PrivateKeyEncrypted k;
     sk_PublicJWK := sk_PublicJWK k; sk_IsCurrent := b; sk_ActivatesAt := sk_ActivatesAt k;
     sk_CreatedAt := sk_CreatedAt k; sk_RemovedAt := sk_RemovedAt k |}.

Definition set_ActivatesAt (t : time) (k : SigningKey) : SigningKey :=
  {| sk_ID := sk_ID k; sk_KID := sk_KID k; sk_KeyDomain := sk_KeyDomain k;
     sk_Algorithm := sk_Algorithm k; sk_PrivateKeyEncrypted := sk_PrivateKeyEncrypted k;
     sk_PublicJWK := sk_PublicJWK k; sk_IsCurrent := sk_IsCurrent k; sk_ActivatesAt := t;
     sk_CreatedAt := sk_CreatedAt k; sk_RemovedAt := sk_RemovedAt k |}.

Definition set_PublicJWK (b : nbytes) (k : SigningKey) : SigningKey :=
  {| sk_ID := sk_ID k; sk_KID := sk_KID k; sk_KeyDomain := sk_KeyDomain k;
     sk_Algorithm := sk_Algorithm k; sk_PrivateKeyEncrypted := sk_PrivateKeyEncrypted k;
     sk_PublicJWK := b; sk_IsCurrent := sk_IsCurrent k; sk_ActivatesAt := sk_ActivatesAt k;
     sk_CreatedAt := sk_CreatedAt k; sk_RemovedAt := sk_RemovedAt k |}.

Definition set_RemovedAt (t : time) (k : SigningKey) : SigningKey :=
  {| sk_ID := sk_ID k; sk_KID := sk_KID k; sk_KeyDomain := sk_KeyDomain k;
     sk_Algorithm := sk_Algorithm k; sk_PrivateKeyEncrypted := sk_PrivateKeyEncrypted k;
     sk_PublicJWK := sk_PublicJWK k; sk_IsCurrent := sk_IsCurrent k;
     sk_ActivatesAt := sk_ActivatesAt k; sk_CreatedAt := sk_CreatedAt k; sk_RemovedAt := Some t |}.

(** [append([]byte(nil), b...)]: the copy of an empty slice is nil. *)
Definition clone_bytes (b : nbytes) : nbytes :=
  match b with Some EmptyString => None | _ => b end.

Definition cloneSigningKey (k : SigningKey) : SigningKey := set_PublicJWK (clone_bytes (sk_PublicJWK k)) k.

(** The key belongs to the domain and has not been removed. *)
Definition active_in (d : KeyDomain) (k : SigningKey) : bool :=
  bool_decide (sk_KeyDomain k = d) && bool_decide (sk_RemovedAt k = None).

(** ** Errors *)

Inductive key_error :=
  | StorageErr (k : ErrorKind)
  | ErrLastActiveKey
  | ErrCurrentKey
  | ErrEffectiveCurrentKey
  | DeadlineExceeded
  | Canceled
  | Opaque (msg : string)
  | Wrapped (msg : string) (e : key_error).
#[export] Instance key_error_eq_dec : EqDecision key_error.
Proof. solve_decision. Defined.

(** ** Selection of the effective current key

    [best == nil || (!best.IsCurrent && key.IsCurrent) || (best.IsCurrent ==
    key.IsCurrent && key.ActivatesAt.After(best.ActivatesAt))] *)

Definition better (key best : SigningKey) : bool :=
  (negb (sk_IsCurrent best) && sk_IsCurrent key) ||
  (bool_decide (sk_IsCurrent best = sk_IsCurrent key) &&
   After (sk_ActivatesAt key) (sk_ActivatesAt best)).

Definition choose (best : option SigningKey) (key : SigningKey) : option SigningKey :=
  match best with
  | None => Some key
  | Some b => if better key b then Some key else best
  end.

Definition currentUsable_step (d : KeyDomain) (now : time) (best : option SigningKey) (key : SigningKey)
    : option SigningKey :=
  if negb (active_in d key) || After (sk_ActivatesAt key) now then best else choose best key.

(** ** The store *)

Record SigningKeyStore := KeyStore {
  sk_objects : gmap nat SigningKey;
  sk_byID : gmap string nat;
  sk_byKID : gmap KeyID nat;
  sk_version : Z;
}.

Definition NewSigningKeyStore : SigningKeyStore := KeyStore ∅ ∅ ∅ 0.

Definition id_order : Type := gmap string nat → list string.
Definition valid_id_order (iter : id_order) : Prop := ∀ m, iter m ≡ₚ (map_to_list m).*1.

(** The pointers and the keys [range s.byID] visits. *)
Definition visited (iter : id_order) (s : SigningKeyStore) : list nat :=
  omap (sk_byID s !!.) (iter (sk_byID s)).
Definition range_keys (iter : id_order) (s : SigningKeyStore) : list SigningKey :=
  omap (sk_objects s !!.) (visited iter s).

(** The key behind a kid. *)
Definition key_at (s : SigningKeyStore) (kid : KeyID) : option SigningKey :=
  sk_byKID s !! kid ≫= (sk_objects s !!.).

Definition with_objects (o : gmap nat SigningKey) (s : SigningKeyStore) : SigningKeyStore :=
  KeyStore o (sk_byID s) (sk_byKID s) (sk_version s + 1).

(** [for _, existing := range s.byID { if existing.KeyDomain == d { existing.IsCurrent = false } }] *)
Definition demote (d : KeyDomain) (k : SigningKey) : SigningKey :=
  if decide (sk_KeyDomain k = d) then set_IsCurrent false k else k.
Definition demote_all (iter : id_order) (d : KeyDomain) (s : SigningKeyStore) : gmap nat SigningKey :=
  foldl (λ o p, alter (demote d) p o) (sk_objects s) (visited iter s).

(** Insertion of a clone into both indices. *)
Definition index_key (clone : SigningKey) (o : gmap nat SigningKey) (s : SigningKeyStore) : SigningKeyStore :=
  let p := fresh (dom (sk_objects s)) in
  KeyStore (<[p := clone]> o) (<[sk_ID clone := p]> (sk_byID s)) (<[sk_KID clone := p]> (sk_byKID s))
    (sk_version s + 1).

Definition key_createLocked (key : SigningKey) (s : SigningKeyStore)
    : SigningKeyStore * result key_error unit :=
  if negb (KeyDomain_Validate (sk_KeyDomain key)) then (s, Err (StorageErr KValidation))
  else match sk_byKID s !! sk_KID key with
  | Some _ => (s, Err (StorageErr KConflict))
  | None => (index_key (cloneSigningKey key) (sk_objects s) s, Ok ())
  end.

Definition createAndSetCurrentLocked (iter : id_order) (key : SigningKey) (s : SigningKeyStore)
    : SigningKeyStore * result key_error unit :=
  if negb (KeyDomain_Validate (sk_KeyDomain key)) then (s, Err (StorageErr KValidation))
  else match sk_byKID s !! sk_KID key with
  | Some _ => (s, Err (StorageErr KConflict))
  | None =>
      (index_key (set_IsCurrent true (cloneSigningKey key)) (demote_all iter (sk_KeyDomain key) s) s, Ok ())
  end.

Definition getByKIDInDomainLocked (d : KeyDomain) (kid : KeyID) (s : SigningKeyStore)
    : result key_error SigningKey :=
  match key_at s kid with
  | Some key => if active_in d key then Ok (cloneSigningKey key) else Err (StorageErr KNotFound)
  | None => Err (StorageErr KNotFound)
  end.

Definition currentUsableSigningKeyInDomain (keys : list SigningKey) (d : KeyDomain) (now : time)
    : option SigningKey :=
  foldl (currentUsable_step d now) None keys.

Definition getCurrentInDomainLocked (iter : id_order) (now : time) (d : KeyDomain) (s : SigningKeyStore)
    : result key_error SigningKey :=
  match currentUsableSigningKeyInDomain (range_keys iter s) d now with
  | None => Err (StorageErr KNotFound)
  | Some current => Ok (cloneSigningKey current)
  end.

Definition listActiveInDomainLocked (iter : id_order) (d : KeyDomain) (s : SigningKeyStore)
    : list SigningKey :=
  cloneSigningKey <$> filter (λ k, active_in d k = true) (range_keys iter s).

Definition KeySetVersion (s : SigningKeyStore) : Z := sk_version s.

Definition setCurrentInDomainLocked (iter : id_order) (d : KeyDomain) (kid : KeyID) (activatesAt : time)
    (s : SigningKeyStore) : SigningKeyStore * result key_error SigningKey :=
  match sk_byKID s !! kid with
  | None => (s, Err (StorageErr KNotFound))
  | Some p =>
      match sk_objects s !! p with
      | None => (s, Err (StorageErr KNotFound))
      | Some target =>
          if active_in d target then
            let promote k := set_ActivatesAt activatesAt (set_IsCurrent true k) in
            let o := alter promote p (demote_all iter d s) in
            (with_objects o s,
             match o !! p with
             | Some target => Ok (cloneSigningKey target)
             | None => Err (StorageErr KNotFound)
             end)
          else (s, Err (StorageErr KNotFound))
      end
  end.

Definition setPublicJWKLocked (kid : KeyID) (publicJWK : nbytes) (s : SigningKeyStore)
    : SigningKeyStore * result key_error bool :=
  match sk_byKID s !! kid with
  | None => (s, Err (StorageErr KNotFound))
  | Some p =>
      match sk_objects s !! p with
      | None => (s, Err (StorageErr KNotFound))
      | Some key =>
          if bool_decide (sk_RemovedAt key = None) then
            match sk_PublicJWK key with
            | None => (with_objects (<[p := set_PublicJWK (clone_bytes publicJWK) key]> (sk_objects s)) s, Ok true)
            | Some _ => (s, Ok false)
            end
          else (s, Err (StorageErr KNotFound))
      end
  end.

Definition countActiveInDomainLocked (iter : id_order) (d : KeyDomain) (s : SigningKeyStore) : nat :=
  length (filter (λ k, active_in d k = true) (range_keys iter s)).

(** The effective-current guard: [current != nil && current.KID == kid]. *)
Definition is_kid (kid : KeyID) (current : option SigningKey) : bool :=
  match current with Some c => bool_decide (sk_KID c = kid) | None => false end.

Definition deleteInDomainLocked (iter : id_order) (now : time) (d : KeyDomain) (kid : KeyID)
    (s : SigningKeyStore) : SigningKeyStore * result key_error unit :=
  match sk_byKID s !! kid with
  | None => (s, Err (StorageErr KNotFound))
  | Some p =>
      match sk_objects s !! p with
      | None => (s, Err (StorageErr KNotFound))
      | Some key =>
          if negb (active_in d key) then (s, Err (StorageErr KNotFound))
          else if bool_decide (countActiveInDomainLocked iter d s ≤ 1)%nat then (s, Err ErrLastActiveKey)
          else if sk_IsCurrent key then (s, Err ErrCurrentKey)
          else if is_kid kid (currentUsableSigningKeyInDomain (range_keys iter s) d now)
          then (s, Err ErrEffectiveCurrentKey)
          else (with_objects (<[p := set_RemovedAt now key]> (sk_objects s)) s, Ok ())
      end
  end.

(** ** The abstract key ring

    What each operation does to the plain map from key ids to keys; [keys] is an
    enumeration of the ring's values. *)

Abbreviation key_ring := (gmap KeyID SigningKey) (only parsing).

Definition ring_create (key : SigningKey) (r : key_ring) : key_ring * result key_error unit :=
  if negb (KeyDomain_Validate (sk_KeyDomain key)) then (r, Err (StorageErr KValidation))
  else match r !! sk_KID key with
  | Some _ => (r, Err (StorageErr KConflict))
  | None => (<[sk_KID key := cloneSigningKey key]> r, Ok ())
  end.

Definition ring_create_current (key : SigningKey) (r : key_ring) : key_ring * result key_error unit :=
  if negb (KeyDomain_Validate (sk_KeyDomain key)) then (r, Err (StorageErr KValidation))
  else match r !! sk_KID key with
  | Some _ => (r, Err (StorageErr KConflict))
  | None =>
      (<[sk_KID key := set_IsCurrent true (cloneSigningKey key)]> (demote (sk_KeyDomain key) <$> r), Ok ())
  end.

Definition ring_get (d : KeyDomain) (kid : KeyID) (r : key_ring) : result key_error SigningKey :=
  match r !! kid with
  | Some key => if active_in d key then Ok key else Err (StorageErr KNotFound)
  | None => Err (StorageErr KNotFound)
  end.

Definition ring_promote (d : KeyDomain) (kid : KeyID) (activatesAt : time) (r : key_ring)
    : key_ring * result key_error SigningKey :=
  match ring_get d kid r with
  | Err e => (r, Err e)
  | Ok key =>
      let key := set_ActivatesAt activatesAt (set_IsCurrent true key) in
      (<[kid := key]> (demote d <$> r), Ok key)
  end.

Definition ring_backfill (kid : KeyID) (publicJWK : nbytes) (r : key_ring)
    : key_ring * result key_error bool :=
  match r !! kid with
  | Some key =>
      if bool_decide (sk_RemovedAt key = None) then
        match sk_PublicJWK key with
        | None => (<[kid := set_PublicJWK (clone_bytes publicJWK) key]> r, Ok true)
        | Some _ => (r, Ok false)
        end
      else (r, Err (StorageErr KNotFound))
  | None => (r, Err (StorageErr KNotFound))
  end.

Definition ring_delete (keys : list SigningKey) (now : time) (d : KeyDomain) (kid : KeyID) (r : key_ring)
    : key_ring * result key_error unit :=
  match ring_get d kid r with
  | Err e => (r, Err e)
  | Ok key =>
      if bool_decide (length (filter (λ k, active_in d k = true) keys) ≤ 1)%nat then (r, Err ErrLastActiveKey)
      else if sk_IsCurrent key then (r, Err ErrCurrentKey)
      else if is_kid kid (currentUsableSigningKeyInDomain keys d now) then (r, Err ErrEffectiveCurrentKey)
      else (<[kid := set_RemovedAt now key]> r, Ok ())
  end.

(** The ring a store represents. *)
Definition ring (s : SigningKeyStore) : key_ring := omap (sk_objects s !!.) (sk_byKID s).
