(* ===== verification/SigningKeysFacts.v ===== *)
(** * What the in-memory signing-key store guarantees

    The two indices stay consistent and the store refines the abstract key ring;
    the ring keeps at most one current key per domain, domains do not affect each
    other, the effective current key is the maximum the code describes, and a
    domain that can sign keeps being able to. *)

From S2P Require Import Prelude ApprovalStore OAuthSessions SigningKeys.

#[local] Open Scope Z_scope.

(** ** Consistency of the indices *)

Record store_wf (s : SigningKeyStore) : Prop := {
  wf_byKID kid p : sk_byKID s !! kid = Some p →
    ∃ k, sk_objects s !! p = Some k ∧ sk_KID k = kid ∧ sk_byID s !! sk_ID k = Some p;
  wf_byID i p : sk_byID s !! i = Some p →
    ∃ k, sk_objects s !! p = Some k ∧ sk_ID k = i ∧ sk_byKID s !! sk_KID k = Some p;
  wf_public p k : sk_objects s !! p = Some k → sk_PublicJWK k ≠ Some "";
}.

Lemma clone_bytes_not_empty b : clone_bytes b ≠ Some "".
Proof. by destruct b as [[] |]. Qed.

Lemma clone_id k : sk_PublicJWK k ≠ Some "" → cloneSigningKey k = k.
Proof. destruct k as [? ? ? ? ? [[] |]]; simpl; done. Qed.

Lemma ring_lookup s kid : ring s !! kid = key_at s kid.
Proof. unfold ring, key_at. by rewrite lookup_omap. Qed.

Lemma store_wf_new : store_wf NewSigningKeyStore.
Proof. split; intros; set_solver. Qed.

(** [range s.byID] visits every key of the ring once. *)
Lemma visited_perm iter s :
  valid_id_order iter → visited iter s ≡ₚ (map_to_list (sk_byID s)).*2.
Proof.
  intros Hi. unfold visited. rewrite (Hi (sk_byID s)).
  assert (∀ l : list (string * nat), l ⊆ map_to_list (sk_byID s) →
    omap (sk_byID s !!.) l.*1 = l.*2) as H; [| by rewrite H].
  induction l as [| [i p] l IH]; intros Hl; [done |]. simpl.
  rewrite (proj1 (elem_of_map_to_list (sk_byID s) i p)) by set_solver. f_equal. apply IH. set_solver.
Qed.

Lemma visited_elem iter s p :
  valid_id_order iter → p ∈ visited iter s ↔ ∃ i, sk_byID s !! i = Some p.
Proof.
  intros Hi. rewrite (visited_perm _ _ Hi), list_elem_of_fmap. split.
  - intros ([i q] & -> & H%elem_of_map_to_list). by exists i.
  - intros [i H]. exists (i, p). by rewrite elem_of_map_to_list.
Qed.

Lemma NoDup_visited iter s : valid_id_order iter → store_wf s → NoDup (visited iter s).
Proof.
  intros Hi Hwf. rewrite (visited_perm _ _ Hi). apply NoDup_fmap_2_strong; [| apply NoDup_map_to_list].
  intros [i p] [j q] Hp%elem_of_map_to_list Hq%elem_of_map_to_list E. simpl in *. subst.
  destruct (wf_byID _ Hwf _ _ Hp) as (k & Hk & <- & _), (wf_byID _ Hwf _ _ Hq) as (k' & Hk' & <- & _).
  by simplify_eq.
Qed.

Lemma range_keys_elem iter s k :
  valid_id_order iter → store_wf s → k ∈ range_keys iter s ↔ ring s !! sk_KID k = Some k.
Proof.
  intros Hi Hwf. unfold range_keys. rewrite list_elem_of_omap, ring_lookup. unfold key_at. split.
  - intros (p & Hp & Hk). apply (visited_elem _ _ _ Hi) in Hp as [i Hp].
    destruct (wf_byID _ Hwf _ _ Hp) as (k' & Hk' & _ & Hkid). simplify_eq/=. by rewrite Hkid.
  - intros (p & Hp & Hk)%bind_Some. destruct (wf_byKID _ Hwf _ _ Hp) as (k' & Hk' & _ & Hid).
    simplify_eq/=. exists p. split; [| done]. apply (visited_elem _ _ _ Hi). eauto.
Qed.

Lemma ring_kid s kid k : store_wf s → ring s !! kid = Some k → sk_KID k = kid.
Proof.
  intros Hwf. rewrite ring_lookup. intros (p & Hp & Hk)%bind_Some.
  destruct (wf_byKID _ Hwf _ _ Hp) as (k' & ? & ? & ?). by simplify_eq.
Qed.

Lemma NoDup_range_keys iter s : valid_id_order iter → store_wf s → NoDup (range_keys iter s).
Proof.
  intros Hi Hwf. unfold range_keys.
  assert (∀ l, NoDup l → l ⊆ visited iter s → NoDup (omap (sk_objects s !!.) l)) as H.
  { induction 1 as [| p l Hp Hl IH]; intros Hsub; [by constructor |]. simpl.
    destruct (sk_objects s !! p) as [k |] eqn:Hk; [| apply IH; set_solver].
    constructor; [| apply IH; set_solver]. intros (q & Hq & Hk')%list_elem_of_omap.
    assert (p = q); [| by subst].
    assert (p ∈ visited iter s ∧ q ∈ visited iter s) as [[i Hi1]%(visited_elem _ _ _ Hi) [j Hj1]%(visited_elem _ _ _ Hi)]
      by set_solver.
    destruct (wf_byID _ Hwf _ _ Hi1) as (? & ? & <- & ?), (wf_byID _ Hwf _ _ Hj1) as (? & ? & <- & ?).
    by simplify_eq. }
  apply H; [by apply NoDup_visited | done].
Qed.

(** The values of the ring, in some order. *)
Definition enumerates (keys : list SigningKey) (r : key_ring) : Prop :=
  NoDup keys ∧ ∀ k, k ∈ keys ↔ r !! sk_KID k = Some k.

Lemma range_keys_enumerates iter s :
  valid_id_order iter → store_wf s → enumerates (range_keys iter s) (ring s).
Proof. intros Hi Hwf. split; [by apply NoDup_range_keys |]. intros k. by apply range_keys_elem. Qed.

(** ** The loop that clears the current marker *)

Lemma demote_idem d k : demote d (demote d k) = demote d k.
Proof. unfold demote. repeat case_decide; done. Qed.

Lemma demote_fields d k :
  sk_KID (demote d k) = sk_KID k ∧ sk_ID (demote d k) = sk_ID k ∧
  sk_KeyDomain (demote d k) = sk_KeyDomain k ∧ sk_PublicJWK (demote d k) = sk_PublicJWK k ∧
  sk_RemovedAt (demote d k) = sk_RemovedAt k ∧ sk_ActivatesAt (demote d k) = sk_ActivatesAt k.
Proof. unfold demote. by case_decide. Qed.

Lemma foldl_alter_lookup {A} (f : A → A) (l : list nat) (o : gmap nat A) p :
  (∀ x, f (f x) = f x) →
  foldl (λ o p, alter f p o) o l !! p = if decide (p ∈ l) then f <$> o !! p else o !! p.
Proof.
  intros Hf. revert o. induction l as [| q l IH]; intros o; cbn [foldl].
  { by destruct (decide (p ∈ [])); [set_solver |]. }
  rewrite IH. destruct (decide (p = q)) as [-> | Hne].
  - rewrite lookup_alter_eq. destruct (decide (q ∈ q :: l)); [| set_solver].
    case_decide; [| done]. destruct (o !! q); simpl; [by rewrite Hf | done].
  - rewrite lookup_alter_ne by done.
    destruct (decide (p ∈ l)), (decide (p ∈ q :: l)); set_solver.
Qed.

Lemma demote_all_lookup iter d s p :
  valid_id_order iter →
  demote_all iter d s !! p =
    if decide (p ∈ visited iter s) then demote d <$> sk_objects s !! p else sk_objects s !! p.
Proof. intros Hi. unfold demote_all. apply foldl_alter_lookup, demote_idem. Qed.

(** The heap after the loop, seen through either index. *)
Lemma demote_all_indexed iter d s kid p :
  valid_id_order iter → store_wf s → sk_byKID s !! kid = Some p →
  demote_all iter d s !! p = demote d <$> sk_objects s !! p.
Proof.
  intros Hi Hwf Hp. rewrite (demote_all_lookup _ _ _ _ Hi).
  destruct (wf_byKID _ Hwf _ _ Hp) as (k & Hk & _ & Hid).
  rewrite decide_True; [done |]. apply (visited_elem _ _ _ Hi). eauto.
Qed.

(** ** Heap updates that keep the indices

    [same_index o o']: the heap [o'] holds, at each pointer of [o], a key with the
    same ids. *)

Definition same_index (o o' : gmap nat SigningKey) : Prop :=
  (∀ p k, o !! p = Some k → ∃ k', o' !! p = Some k' ∧ sk_ID k' = sk_ID k ∧ sk_KID k' = sk_KID k) ∧
  (∀ p k, o' !! p = Some k → sk_PublicJWK k ≠ Some "").

Lemma wf_with_objects s o v :
  store_wf s → same_index (sk_objects s) o →
  store_wf (KeyStore o (sk_byID s) (sk_byKID s) v).
Proof.
  intros Hwf [H1 H2]. split; simpl; [| | apply H2].
  - intros kid p Hp. destruct (wf_byKID _ Hwf _ _ Hp) as (k & Hk & <- & Hid).
    destruct (H1 _ _ Hk) as (k' & ? & Hi & ?). exists k'. by rewrite Hi.
  - intros i p Hp. destruct (wf_byID _ Hwf _ _ Hp) as (k & Hk & <- & Hid).
    destruct (H1 _ _ Hk) as (k' & ? & ? & Hi). exists k'. by rewrite Hi.
Qed.

Lemma demote_all_same_index iter d s :
  valid_id_order iter → store_wf s → same_index (sk_objects s) (demote_all iter d s).
Proof.
  intros Hi Hwf. split; intros p k; rewrite (demote_all_lookup _ _ _ _ Hi).
  - intros ->. destruct (demote_fields d k) as (? & ? & _). case_decide; eauto.
  - case_decide; [| apply (wf_public _ Hwf)]. intros (k' & Hk' & ->)%fmap_Some.
    destruct (demote_fields d k') as (_ & _ & _ & -> & _). by apply (wf_public _ Hwf p).
Qed.

Lemma same_index_insert o o' p k k' :
  same_index o o' → o !! p = Some k → sk_ID k' = sk_ID k → sk_KID k' = sk_KID k →
  sk_PublicJWK k' ≠ Some "" → same_index o (<[p := k']> o').
Proof.
  intros [H1 H2] Hp Hid Hkid Hpub. split; intros q x.
  - intros Hq. destruct (decide (p = q)) as [<- |].
    + simplify_eq. exists k'. by rewrite lookup_insert_eq.
    + rewrite lookup_insert_ne by done. by apply H1.
  - destruct (decide (p = q)) as [<- |].
    + rewrite lookup_insert_eq. by intros [= <-].
    + rewrite lookup_insert_ne by done. by apply H2.
Qed.

Lemma same_index_refl s : store_wf s → same_index (sk_objects s) (sk_objects s).
Proof. intros Hwf. split; [eauto | apply (wf_public _ Hwf)]. Qed.

(** ** Refinement, operation by operation

    An operation refines its ring counterpart: it keeps the indices consistent,
    acts on the ring as specified, returns the same answer, and advances the
    version exactly when it changes anything. *)

Definition refines {A} (s : SigningKeyStore) (out : SigningKeyStore * result key_error A)
    (spec : key_ring * result key_error A) : Prop :=
  store_wf out.1 ∧ (ring out.1, out.2) = spec ∧
  (sk_version out.1 = sk_version s + 1 ∨ out.1 = s).

Lemma refines_same {A} s (r : result key_error A) : store_wf s → refines s (s, r) (ring s, r).
Proof. intros. split_and!; [done | done | by right]. Qed.

(** A heap update behind [kid]: the ring changes there only. *)
Lemma ring_with_objects s o kid p k' r :
  sk_byKID s !! kid = Some p → o !! p = Some k' →
  (∀ kid' q, kid' ≠ kid → sk_byKID s !! kid' = Some q → o !! q = r !! kid') →
  (∀ kid', sk_byKID s !! kid' = None → r !! kid' = None) →
  ring (with_objects o s) = <[kid := k']> r.
Proof.
  intros Hp Ho Hother Hnone. apply map_eq. intros kid'. unfold ring. rewrite lookup_omap. simpl.
  destruct (decide (kid = kid')) as [<- | Hne].
  { by rewrite lookup_insert_eq, Hp. }
  rewrite lookup_insert_ne by done.
  destruct (sk_byKID s !! kid') as [q |] eqn:Hq; simpl; [by apply Hother | by rewrite Hnone].
Qed.

Lemma byKID_inj s kid kid' p :
  store_wf s → sk_byKID s !! kid = Some p → sk_byKID s !! kid' = Some p → kid = kid'.
Proof.
  intros Hwf H1 H2. destruct (wf_byKID _ Hwf _ _ H1) as (? & ? & <- & _), (wf_byKID _ Hwf _ _ H2) as (? & ? & <- & _).
  by simplify_eq.
Qed.

(** Overwriting one object in place. *)
Lemma refines_update {A} s kid p k k' (x : A) :
  store_wf s → sk_byKID s !! kid = Some p → sk_objects s !! p = Some k →
  sk_ID k' = sk_ID k → sk_KID k' = sk_KID k → sk_PublicJWK k' ≠ Some "" →
  refines s (with_objects (<[p := k']> (sk_objects s)) s, Ok x) (<[kid := k']> (ring s), Ok x).
Proof.
  intros Hwf Hp Hk Hid Hkid Hpub. split_and!.
  - apply wf_with_objects; [done |]. by eapply same_index_insert; [apply same_index_refl | ..].
  - f_equal. eapply ring_with_objects; [done | apply lookup_insert_eq | |].
    + intros kid' q Hne Hq. rewrite lookup_insert_ne by (intros ->; by eapply Hne, byKID_inj).
      unfold ring. by rewrite lookup_omap, Hq.
    + intros kid' Hq. unfold ring. by rewrite lookup_omap, Hq.
  - by left.
Qed.

(** Adding an object under fresh ids. *)
Lemma refines_index s (o : gmap nat SigningKey) clone (f : SigningKey → SigningKey) :
  store_wf s → same_index (sk_objects s) o → dom o = dom (sk_objects s) →
  (∀ kid p, sk_byKID s !! kid = Some p → o !! p = f <$> sk_objects s !! p) →
  sk_byKID s !! sk_KID clone = None → sk_byID s !! sk_ID clone = None → sk_PublicJWK clone ≠ Some "" →
  refines s (index_key clone o s, Ok ()) (<[sk_KID clone := clone]> (f <$> ring s), Ok ()).
Proof.
  intros Hwf Hsame Hdom Ho Hkid Hid Hpub. unfold index_key. set (q := fresh (dom (sk_objects s))).
  assert (q ∉ dom (sk_objects s)) as Hq by apply is_fresh.
  pose proof (wf_with_objects _ _ 0 Hwf Hsame) as Hwf'.
  assert (∀ p k, o !! p = Some k → p ≠ q) as Hfresh.
  { intros p k Hp ->. apply Hq. rewrite <-Hdom. by eapply elem_of_dom_2. }
  split_and!; [split | | by left]; simpl.
  - intros kid p. rewrite lookup_insert_Some. intros [[<- <-] | [Hne Hp]].
    { exists clone. by rewrite !lookup_insert_eq. }
    destruct (wf_byKID _ Hwf' _ _ Hp) as (k & Hk & <- & Hki). exists k.
    rewrite lookup_insert_ne by (symmetry; by eapply Hfresh). split_and!; [done | done |].
    simpl in *. rewrite lookup_insert_ne; [done |]. intros E. rewrite E in Hid. congruence.
  - intros i p. rewrite lookup_insert_Some. intros [[<- <-] | [Hne Hp]].
    { exists clone. by rewrite !lookup_insert_eq. }
    destruct (wf_byID _ Hwf' _ _ Hp) as (k & Hk & <- & Hki). exists k.
    rewrite lookup_insert_ne by (symmetry; by eapply Hfresh). split_and!; [done | done |].
    simpl in *. rewrite lookup_insert_ne; [done |]. intros E. rewrite E in Hkid. congruence.
  - intros p k. rewrite lookup_insert_Some. intros [[_ <-] | [_ Hp]]; [done |]. by apply Hsame in Hp.
  - f_equal. apply map_eq. intros kid. unfold ring. rewrite lookup_omap. simpl.
    destruct (decide (sk_KID clone = kid)) as [<- | Hne].
    { rewrite !lookup_insert_eq. simpl. apply lookup_insert_eq. }
    rewrite !lookup_insert_ne, lookup_fmap, lookup_omap by done.
    destruct (sk_byKID s !! kid) as [p |] eqn:Hp; [simpl | done].
    destruct (wf_byKID _ Hwf _ _ Hp) as (k & Hk & _ & _). destruct Hsame as [Hsame _].
    destruct (Hsame _ _ Hk) as (k' & Hk' & _). rewrite lookup_insert_ne by (symmetry; by eapply Hfresh).
    by eapply Ho.
Qed.

Lemma dom_demote_all iter d s : valid_id_order iter → dom (demote_all iter d s) = dom (sk_objects s).
Proof.
  intros Hi. apply set_eq. intros p. rewrite !elem_of_dom, (demote_all_lookup _ _ _ _ Hi).
  case_decide; [apply fmap_is_Some | done].
Qed.

Lemma byKID_ring s kid : store_wf s → sk_byKID s !! kid = None ↔ ring s !! kid = None.
Proof.
  intros Hwf. unfold ring. rewrite lookup_omap. destruct (sk_byKID s !! kid) as [p |] eqn:Hp; simpl; [| done].
  destruct (wf_byKID _ Hwf _ _ Hp) as (k & -> & _). done.
Qed.

(** Case analysis on the object behind a kid. *)
Lemma lookup_cases s kid :
  store_wf s →
  (sk_byKID s !! kid = None ∧ ring s !! kid = None) ∨
  (∃ p k, sk_byKID s !! kid = Some p ∧ sk_objects s !! p = Some k ∧ ring s !! kid = Some k ∧
     sk_KID k = kid ∧ sk_PublicJWK k ≠ Some "" ∧ cloneSigningKey k = k).
Proof.
  intros Hwf. destruct (sk_byKID s !! kid) as [p |] eqn:Hp; [right | left; by rewrite <-byKID_ring].
  destruct (wf_byKID _ Hwf _ _ Hp) as (k & Hk & Hkid & _). exists p, k.
  pose proof (wf_public _ Hwf _ _ Hk). rewrite ring_lookup. unfold key_at. rewrite Hp. simpl.
  split_and!; try done. by apply clone_id.
Qed.

Lemma key_create_refines key s :
  store_wf s → sk_byID s !! sk_ID key = None →
  refines s (key_createLocked key s) (ring_create key (ring s)).
Proof.
  intros Hwf Hid. unfold key_createLocked, ring_create.
  destruct (negb _); [by apply refines_same |].
  destruct (lookup_cases s (sk_KID key) Hwf) as [[Hp Hr] | (p & k & Hp & _ & Hr & _)]; rewrite Hp, Hr;
    [| by apply refines_same].
  pose proof (refines_index s (sk_objects s) (cloneSigningKey key) id Hwf (same_index_refl _ Hwf) eq_refl) as H.
  rewrite map_fmap_id in H. apply H; [| done | done | apply clone_bytes_not_empty].
  intros. by rewrite option_fmap_id.
Qed.

Lemma create_current_refines iter key s :
  valid_id_order iter → store_wf s → sk_byID s !! sk_ID key = None →
  refines s (createAndSetCurrentLocked iter key s) (ring_create_current key (ring s)).
Proof.
  intros Hi Hwf Hid. unfold createAndSetCurrentLocked, ring_create_current.
  destruct (negb _); [by apply refines_same |].
  destruct (lookup_cases s (sk_KID key) Hwf) as [[Hp Hr] | (p & k & Hp & _ & Hr & _)]; rewrite Hp, Hr;
    [| by apply refines_same].
  apply (refines_index s _ (set_IsCurrent true (cloneSigningKey key)) (demote (sk_KeyDomain key)));
    [done | by apply demote_all_same_index | by apply dom_demote_all | | done | done | apply clone_bytes_not_empty].
  intros kid p Hp'. by eapply demote_all_indexed.
Qed.

Lemma get_refines d kid s : store_wf s → getByKIDInDomainLocked d kid s = ring_get d kid (ring s).
Proof.
  intros Hwf. unfold getByKIDInDomainLocked, ring_get. rewrite ring_lookup. unfold key_at.
  destruct (lookup_cases s kid Hwf) as [[-> _] | (p & k & -> & Hk & _ & _ & _ & Hc)]; [done |].
  simpl. by rewrite Hk, Hc.
Qed.

Lemma promote_refines iter d kid t s :
  valid_id_order iter → store_wf s →
  refines s (setCurrentInDomainLocked iter d kid t s) (ring_promote d kid t (ring s)).
Proof.
  intros Hi Hwf. unfold setCurrentInDomainLocked, ring_promote, ring_get.
  destruct (lookup_cases s kid Hwf) as [[-> ->] | (p & k & Hp & Hk & -> & Hkid & Hpub & Hc)];
    [by apply refines_same |]. rewrite Hp, Hk.
  destruct (active_in d k) eqn:Hact; [| by apply refines_same].
  assert (sk_KeyDomain k = d) as Hd by (by apply andb_true_iff in Hact as [?%bool_decide_eq_true_1 _]).
  assert (demote_all iter d s !! p = Some (set_IsCurrent false k)) as Hdem.
  { rewrite (demote_all_indexed _ _ _ _ _ Hi Hwf Hp), Hk. simpl. unfold demote. by rewrite decide_True. }
  rewrite lookup_alter_eq, Hdem. simpl.
  assert (cloneSigningKey (set_ActivatesAt t (set_IsCurrent true (set_IsCurrent false k))) =
          set_ActivatesAt t (set_IsCurrent true k)) as -> by (by rewrite clone_id).
  assert (alter (λ k, set_ActivatesAt t (set_IsCurrent true k)) p (demote_all iter d s) =
          <[p := set_ActivatesAt t (set_IsCurrent true k)]> (demote_all iter d s)) as ->.
  { apply map_eq. intros q. destruct (decide (p = q)) as [<- |].
    - by rewrite lookup_alter_eq, lookup_insert_eq, Hdem.
    - by rewrite lookup_alter_ne, lookup_insert_ne. }
  split_and!; [| | by left]; simpl.
  - apply wf_with_objects; [done |]. eapply same_index_insert; [by apply demote_all_same_index | done ..].
  - f_equal. eapply ring_with_objects; [done | apply lookup_insert_eq | |].
    + intros kid' q Hne Hq. rewrite lookup_insert_ne by (intros ->; by eapply Hne, byKID_inj).
      rewrite (demote_all_indexed _ _ _ _ _ Hi Hwf Hq). unfold ring. by rewrite lookup_fmap, lookup_omap, Hq.
    + intros kid' Hq. unfold ring. by rewrite lookup_fmap, lookup_omap, Hq.
Qed.

Lemma backfill_refines kid b s :
  store_wf s → refines s (setPublicJWKLocked kid b s) (ring_backfill kid b (ring s)).
Proof.
  intros Hwf. unfold setPublicJWKLocked, ring_backfill.
  destruct (lookup_cases s kid Hwf) as [[-> ->] | (p & k & Hp & Hk & -> & Hkid & Hpub & Hc)];
    [by apply refines_same |]. rewrite Hp, Hk.
  destruct (bool_decide _); [| by apply refines_same].
  destruct (sk_PublicJWK k); [by apply refines_same |].
  eapply refines_update; try done. apply clone_bytes_not_empty.
Qed.

Lemma delete_refines iter now d kid s :
  store_wf s →
  refines s (deleteInDomainLocked iter now d kid s) (ring_delete (range_keys iter s) now d kid (ring s)).
Proof.
  intros Hwf. unfold deleteInDomainLocked, ring_delete, ring_get, countActiveInDomainLocked.
  destruct (lookup_cases s kid Hwf) as [[-> ->] | (p & k & Hp & Hk & -> & Hkid & Hpub & Hc)];
    [by apply refines_same |]. rewrite Hp, Hk.
  destruct (active_in d k); [simpl | by apply refines_same].
  destruct (bool_decide _); [by apply refines_same |].
  destruct (sk_IsCurrent k); [by apply refines_same |].
  destruct (is_kid _ _); [by apply refines_same |]. by eapply refines_update.
Qed.

Lemma list_active_refines iter d s :
  valid_id_order iter → store_wf s →
  listActiveInDomainLocked iter d s = filter (λ k, active_in d k = true) (range_keys iter s).
Proof.
  intros Hi Hwf. unfold listActiveInDomainLocked.
  rewrite <-(list_fmap_id (filter _ _)) at 2. apply list_fmap_ext. intros i k Hk%list_elem_of_lookup_2.
  apply list_elem_of_filter in Hk as [_ Hk]. apply (range_keys_elem _ _ _ Hi Hwf) in Hk.
  by destruct (lookup_cases s (sk_KID k) Hwf) as [[_ ?] | (p & k' & _ & _ & ? & _ & _ & ?)]; simplify_eq.
Qed.

(** ** The effective current key *)

(** Eligible to sign at [now]. *)
Definition usable (d : KeyDomain) (now : time) (k : SigningKey) : Prop :=
  active_in d k = true ∧ sk_ActivatesAt k ≤ now.

(** The order the selection maximises: the current marker first, then the
    activation time. *)
Definition outranked (k b : SigningKey) : Prop :=
  if sk_IsCurrent b then sk_IsCurrent k = true → sk_ActivatesAt k ≤ sk_ActivatesAt b
  else sk_IsCurrent k = false ∧ sk_ActivatesAt k ≤ sk_ActivatesAt b.

Lemma better_outranked k b : better k b = false ↔ outranked k b.
Proof.
  unfold better, outranked, After. destruct (sk_IsCurrent k), (sk_IsCurrent b); simpl;
    rewrite ?bool_decide_eq_false; try (split; [done |]); intuition (try done; lia).
Qed.

Lemma outranked_trans k b c : outranked k b → outranked b c → outranked k c.
Proof.
  unfold outranked. destruct (sk_IsCurrent k), (sk_IsCurrent b), (sk_IsCurrent c); intuition (try done; lia).
Qed.

Lemma better_rank k b : better k b = true → outranked b k.
Proof.
  unfold better, outranked, After. destruct (sk_IsCurrent k), (sk_IsCurrent b); simpl; try done;
    rewrite ?bool_decide_eq_true; intuition lia.
Qed.

(** Folding [choose] over the eligible keys selects a maximum. *)
Definition selects (P : SigningKey → Prop) (keys : list SigningKey) (out : option SigningKey) : Prop :=
  match out with
  | None => ∀ k, k ∈ keys → ¬ P k
  | Some b => b ∈ keys ∧ P b ∧ ∀ k, k ∈ keys → P k → outranked k b
  end.

Lemma outranked_refl k : outranked k k.
Proof. unfold outranked. destruct (sk_IsCurrent k); [done | split; [done | lia]]. Qed.

Lemma selects_choose (P : SigningKey → Prop) keys out k :
  selects P keys out → P k → selects P (keys ++ [k]) (choose out k).
Proof.
  intros Hs Hk. destruct out as [b |]; simpl in *; [destruct Hs as (Hb & HP & Hmax); destruct (better k b) eqn:E |];
    (split_and!; [set_solver | done |]); intros x [Hx | ->%list_elem_of_singleton]%elem_of_app HPx;
    try apply outranked_refl.
  - eapply outranked_trans; [by apply Hmax | by apply better_rank].
  - by apply Hmax.
  - by apply better_outranked.
  - by destruct (Hs x).
Qed.

Lemma selects_skip (P : SigningKey → Prop) keys out k :
  selects P keys out → ¬ P k → selects P (keys ++ [k]) out.
Proof. intros Hs Hk. destruct out; simpl in *; set_solver. Qed.

Lemma currentUsable_selects keys d now :
  selects (usable d now) keys (currentUsableSigningKeyInDomain keys d now).
Proof.
  unfold currentUsableSigningKeyInDomain. induction keys as [| k keys IH] using rev_ind; [simpl; set_solver |].
  rewrite foldl_app. cbn [foldl]. set (out := foldl _ None keys) in *.
  unfold currentUsable_step. destruct (negb (active_in d k) || After (sk_ActivatesAt k) now) eqn:E.
  - apply selects_skip; [done |]. intros [Ha Ht]. rewrite Ha in E. simpl in E. apply After_spec in E. lia.
  - apply orb_false_iff in E as [Ha%negb_false_iff Ht%After_false]. by apply selects_choose.
Qed.

(** A usable key in the domain is all the selection needs. *)
Lemma current_exists keys d now k :
  k ∈ keys → usable d now k →
  ∃ c, currentUsableSigningKeyInDomain keys d now = Some c ∧ c ∈ keys ∧ usable d now c ∧ outranked k c.
Proof.
  intros Hk Hu. pose proof (currentUsable_selects keys d now) as Hs.
  destruct (currentUsableSigningKeyInDomain keys d now) as [c |]; simpl in Hs; [naive_solver | by destruct (Hs k)].
Qed.

(** ** Invariant of the ring *)

(** Every key sits under its own kid in a supported domain; a domain has at most
    one current key, and that key is not removed. *)
Record ring_ok (r : key_ring) : Prop := {
  ok_kid kid k : r !! kid = Some k → sk_KID k = kid ∧ KeyDomain_Validate (sk_KeyDomain k) = true;
  ok_unique k1 k2 : r !! sk_KID k1 = Some k1 → r !! sk_KID k2 = Some k2 →
    sk_KeyDomain k1 = sk_KeyDomain k2 → sk_IsCurrent k1 = true → sk_IsCurrent k2 = true →
    sk_KID k1 = sk_KID k2;
  ok_active kid k : r !! kid = Some k → sk_IsCurrent k = true → sk_RemovedAt k = None;
}.

(** Replacing the key behind [kid] after clearing the domain's marker. *)
Lemma ring_ok_new_current r d k :
  ring_ok r → sk_KeyDomain k = d → KeyDomain_Validate d = true → sk_RemovedAt k = None →
  ring_ok (<[sk_KID k := k]> (demote d <$> r)).
Proof.
  intros Hok Hd Hv Hrem.
  assert (∀ kid x, (demote d <$> r) !! kid = Some x → sk_KID x = kid ∧ KeyDomain_Validate (sk_KeyDomain x) = true ∧
    (sk_IsCurrent x = true → sk_KeyDomain x ≠ d ∧ r !! kid = Some x)) as Hold.
  { intros kid x. rewrite lookup_fmap. intros (y & Hy & ->)%fmap_Some.
    destruct (ok_kid _ Hok _ _ Hy) as [<- Hv']. unfold demote. case_decide; simpl; naive_solver. }
  split.
  - intros kid x. rewrite lookup_insert_Some. intros [[<- <-] | [_ Hx]]; [by subst | naive_solver].
  - intros k1 k2. rewrite !lookup_insert_Some.
    intros [[? <-] | [_ H1]] [[? <-] | [_ H2]] E C1 C2; [congruence | | |].
    + apply Hold in H2 as (_ & _ & H2). destruct (H2 C2). congruence.
    + apply Hold in H1 as (_ & _ & H1). destruct (H1 C1). congruence.
    + apply Hold in H1 as (_ & _ & H1), H2 as (_ & _ & H2). destruct (H1 C1), (H2 C2). by eapply (ok_unique _ Hok).
  - intros kid x. rewrite lookup_insert_Some. intros [[<- <-] | [_ Hx]] C; [done |].
    apply Hold in Hx as (_ & _ & Hx). destruct (Hx C). by eapply (ok_active _ Hok).
Qed.

(** Replacing the key behind [kid] by one that is not newly current. *)
Lemma ring_ok_insert r kid k :
  ring_ok r → sk_KID k = kid → KeyDomain_Validate (sk_KeyDomain k) = true →
  (sk_IsCurrent k = true → sk_RemovedAt k = None ∧
     ∃ k0, r !! kid = Some k0 ∧ sk_IsCurrent k0 = true ∧ sk_KeyDomain k0 = sk_KeyDomain k) →
  ring_ok (<[kid := k]> r).
Proof.
  intros Hok <- Hv Hc. split.
  - intros kid x. rewrite lookup_insert_Some. intros [[<- <-] | [_ Hx]]; [done | by apply (ok_kid _ Hok)].
  - intros k1 k2. rewrite !lookup_insert_Some.
    intros [[? <-] | [_ H1]] [[? <-] | [_ H2]] E C1 C2; [done | | | by eapply (ok_unique _ Hok)].
    + destruct (Hc C1) as (_ & k0 & Hk0 & ? & ?). destruct (ok_kid _ Hok _ _ Hk0) as [Ek _].
      rewrite <-Ek in Hk0. rewrite <-Ek. eapply (ok_unique _ Hok); congruence.
    + destruct (Hc C2) as (_ & k0 & Hk0 & ? & ?). destruct (ok_kid _ Hok _ _ Hk0) as [Ek _].
      rewrite <-Ek in Hk0. rewrite <-Ek. eapply (ok_unique _ Hok); congruence.
  - intros kid x. rewrite lookup_insert_Some. intros [[<- <-] | [_ Hx]] C; [by apply Hc | by eapply (ok_active _ Hok)].
Qed.

(** ** The key ring as a transition system

    The steps the lifecycle operations may take at time [now] in domain [d]:
    creation (plain or as the new current key), promotion with an activation time
    that has been reached, the one-time backfill of public material, and guarded
    removal. *)

Inductive ring_step (now : time) (d : KeyDomain) (r : key_ring) : key_ring → Prop :=
  | ring_stutter : ring_step now d r r
  | ring_step_create key :
      sk_KeyDomain key = d → sk_IsCurrent key = false → sk_RemovedAt key = None →
      ring_step now d r (ring_create key r).1
  | ring_step_create_current key :
      sk_KeyDomain key = d → sk_RemovedAt key = None →
      ring_step now d r (ring_create_current key r).1
  | ring_step_promote kid t :
      t ≤ now → ring_step now d r (ring_promote d kid t r).1
  | ring_step_backfill kid b k :
      r !! kid = Some k → sk_KeyDomain k = d →
      ring_step now d r (ring_backfill kid b r).1
  | ring_step_delete keys kid :
      enumerates keys r → ring_step now d r (ring_delete keys now d kid r).1.

Lemma active_in_inv d k : active_in d k = true ↔ sk_KeyDomain k = d ∧ sk_RemovedAt k = None.
Proof. unfold active_in. by rewrite andb_true_iff, !bool_decide_eq_true. Qed.

Lemma ring_get_Ok d kid r k : ring_get d kid r = Ok k ↔ r !! kid = Some k ∧ active_in d k = true.
Proof.
  unfold ring_get. destruct (r !! kid) as [k' |]; [destruct (active_in d k') eqn:E |];
    split; intros H; destruct_and?; simplify_eq; congruence || done.
Qed.

Lemma ring_step_ok now d r r' : ring_step now d r r' → ring_ok r → ring_ok r'.
Proof.
  intros Hs Hok. destruct Hs as [| key Hd Hc Hr | key Hd Hr | kid t Ht | kid b k Hk Hd | keys kid Hen]; [done | ..].
  - unfold ring_create. destruct (KeyDomain_Validate (sk_KeyDomain key)) eqn:Hv; simpl; [| done].
    destruct (r !! sk_KID key) eqn:Hkid; simpl; [done |].
    apply ring_ok_insert; [done | done | done |]. simpl. congruence.
  - unfold ring_create_current. destruct (KeyDomain_Validate (sk_KeyDomain key)) eqn:Hv; simpl; [| done].
    destruct (r !! sk_KID key) eqn:Hkid; simpl; [done |].
    by apply (ring_ok_new_current r (sk_KeyDomain key) (set_IsCurrent true (cloneSigningKey key))).
  - unfold ring_promote. destruct (ring_get d kid r) as [k | e] eqn:Hg; simpl; [| done].
    apply ring_get_Ok in Hg as [Hk [Hd Hrem]%active_in_inv]. destruct (ok_kid _ Hok _ _ Hk) as [<- Hv]. subst.
    by apply (ring_ok_new_current r (sk_KeyDomain k) (set_ActivatesAt t (set_IsCurrent true k))).
  - unfold ring_backfill. rewrite Hk. destruct (bool_decide _) eqn:Hrem; simpl; [| done].
    destruct (sk_PublicJWK k); simpl; [done |]. destruct (ok_kid _ Hok _ _ Hk) as [<- Hv].
    apply ring_ok_insert; [done | done | done |]. simpl. intros Hc. split; [by apply bool_decide_eq_true_1 in Hrem | eauto].
  - unfold ring_delete. destruct (ring_get d kid r) as [k | e] eqn:Hg; simpl; [| done].
    repeat (split_match; simpl; [done |]). apply ring_get_Ok in Hg as [Hk _].
    destruct (ok_kid _ Hok _ _ Hk) as [<- Hv]. apply ring_ok_insert; [done | done | done |]. simpl. congruence.
Qed.

(** Keys of other domains are untouched. *)
Lemma demote_other d (r : key_ring) kid k :
  sk_KeyDomain k ≠ d → (demote d <$> r) !! kid = Some k ↔ r !! kid = Some k.
Proof.
  intros Hd. rewrite lookup_fmap, fmap_Some. split.
  - intros (y & Hy & ->). destruct (demote_fields d y) as (_ & _ & E & _). rewrite E in Hd.
    unfold demote. by rewrite decide_False.
  - intros Hk. exists k. split; [done |]. unfold demote. by rewrite decide_False.
Qed.

Lemma insert_other (r : key_ring) kid0 k0 kid k :
  sk_KeyDomain k ≠ sk_KeyDomain k0 →
  (∀ x, r !! kid0 = Some x → sk_KeyDomain x = sk_KeyDomain k0) →
  <[kid0 := k0]> r !! kid = Some k ↔ r !! kid = Some k.
Proof.
  intros Hd Hr. rewrite lookup_insert_Some. split; [| destruct (decide (kid0 = kid)) as [<- |]]; naive_solver.
Qed.

Lemma ring_step_isolated now d r r' kid k :
  ring_step now d r r' → sk_KeyDomain k ≠ d → r' !! kid = Some k ↔ r !! kid = Some k.
Proof.
  intros Hs Hne. destruct Hs as [| key Hd Hc Hr | key Hd Hr | kid' t Ht | kid' b k' Hk Hd | keys kid' Hen]; [done | ..].
  - unfold ring_create. destruct (negb _); [done |]. destruct (r !! sk_KID key) eqn:E; [done |]. simpl.
    apply insert_other; simpl; naive_solver.
  - unfold ring_create_current. destruct (negb _); [done |]. destruct (r !! sk_KID key) eqn:E; [done |]. simpl.
    rewrite insert_other, Hd; [by apply demote_other | simpl; congruence |].
    rewrite lookup_fmap, E. done.
  - unfold ring_promote. destruct (ring_get d kid' r) as [x | e] eqn:Hg; simpl; [| done].
    apply ring_get_Ok in Hg as [Hk [Hd Hrem]%active_in_inv].
    rewrite insert_other; [by apply demote_other | simpl; congruence |].
    rewrite lookup_fmap, Hk. intros ? [= <-]. by destruct (demote_fields d x) as (_ & _ & -> & _).
  - unfold ring_backfill. rewrite Hk. destruct (bool_decide _); simpl; [| done].
    destruct (sk_PublicJWK k'); simpl; [done |]. apply insert_other; simpl; congruence.
  - unfold ring_delete. destruct (ring_get d kid' r) as [x | e] eqn:Hg; simpl; [| done].
    repeat (split_match; simpl; [done |]). apply ring_get_Ok in Hg as [Hk [Hd Hrem]%active_in_inv].
    apply insert_other; simpl; congruence.
Qed.

(** A stored key keeps its place and its domain. *)
Lemma ring_step_domain now d r r' kid k :
  ring_ok r → ring_step now d r r' → r !! kid = Some k →
  ∃ k', r' !! kid = Some k' ∧ sk_KeyDomain k' = sk_KeyDomain k.
Proof.
  intros Hok Hs Hk.
  assert (∀ d', ∃ k', (demote d' <$> r) !! kid = Some k' ∧ sk_KeyDomain k' = sk_KeyDomain k) as Hdem.
  { intros d'. rewrite lookup_fmap, Hk. simpl. destruct (demote_fields d' k) as (_ & _ & ? & _). eauto. }
  assert (∀ (r0 : key_ring) kid0 k0, (∃ k', r0 !! kid = Some k' ∧ sk_KeyDomain k' = sk_KeyDomain k) →
    (kid0 = kid → sk_KeyDomain k0 = sk_KeyDomain k) →
    ∃ k', <[kid0 := k0]> r0 !! kid = Some k' ∧ sk_KeyDomain k' = sk_KeyDomain k) as Hins.
  { intros r0 kid0 k0 Hr0 Hk0. destruct (decide (kid0 = kid)) as [<- | Hne].
    - exists k0. rewrite lookup_insert_eq. auto.
    - by rewrite lookup_insert_ne. }
  destruct Hs as [| key Hd Hc Hr | key Hd Hr | kid' t Ht | kid' b k' Hk' Hd | keys kid' Hen]; [eauto | ..].
  - unfold ring_create. destruct (negb _); [eauto |]. destruct (r !! sk_KID key) eqn:E; simpl; [eauto |].
    apply Hins; [eauto | congruence].
  - unfold ring_create_current. destruct (negb _); [eauto |]. destruct (r !! sk_KID key) eqn:E; simpl; [eauto |].
    apply Hins; [apply Hdem | congruence].
  - unfold ring_promote. destruct (ring_get d kid' r) as [x | e] eqn:Hg; simpl; [| eauto].
    apply ring_get_Ok in Hg as [Hx _]. apply Hins; [apply Hdem |]. simpl. congruence.
  - unfold ring_backfill. rewrite Hk'. destruct (bool_decide _); simpl; [| eauto].
    destruct (sk_PublicJWK k'); simpl; [eauto |]. apply Hins; [eauto |]. simpl. congruence.
  - unfold ring_delete. destruct (ring_get d kid' r) as [x | e] eqn:Hg; simpl; [| eauto].
    repeat (split_match; simpl; [by eauto |]). apply ring_get_Ok in Hg as [Hx _].
    apply Hins; [eauto |]. simpl. congruence.
Qed.

(** ** Availability *)

(** The domain has a key that may sign at [now]. *)
Definition can_sign (d : KeyDomain) (now : time) (r : key_ring) : Prop :=
  ∃ k, r !! sk_KID k = Some k ∧ usable d now k.

Lemma can_sign_later d now now' r : now ≤ now' → can_sign d now r → can_sign d now' r.
Proof. intros Hn (k & Hk & Ha & Ht). exists k. split; [done | split; [done | lia]]. Qed.

Lemma usable_demote d d' now k : usable d now k → usable d now (demote d' k).
Proof.
  unfold usable. rewrite !active_in_inv. destruct (demote_fields d' k) as (_ & _ & -> & _ & -> & ->). done.
Qed.

(** Inserting over a fresh kid, or over a key that is replaced by a usable one. *)
Lemma can_sign_insert d now (r : key_ring) kid k' :
  sk_KID k' = kid → (∀ k, r !! kid = Some k → usable d now k → usable d now k') →
  can_sign d now r → can_sign d now (<[kid := k']> r).
Proof.
  intros <- Hrep (k & Hk & Hu). destruct (decide (sk_KID k' = sk_KID k)) as [E | Hne].
  - exists k'. rewrite lookup_insert_eq. split; [done |]. apply (Hrep k); [by rewrite E | done].
  - exists k. by rewrite lookup_insert_ne.
Qed.

Lemma can_sign_demote d d' now r : can_sign d now r → can_sign d now (demote d' <$> r).
Proof.
  intros (k & Hk & Hu). exists (demote d' k). destruct (demote_fields d' k) as (-> & _).
  rewrite lookup_fmap, Hk. split; [done | by apply usable_demote].
Qed.

(** Removal leaves the effective current key in place. *)
Lemma can_sign_delete d now r keys kid :
  ring_ok r → enumerates keys r → can_sign d now r → can_sign d now (ring_delete keys now d kid r).1.
Proof.
  intros Hok [_ Hen] Hs. unfold ring_delete. destruct (ring_get d kid r) as [k | e] eqn:Hg; simpl; [| done].
  destruct (bool_decide _); [done |]. destruct (sk_IsCurrent k); [done |].
  destruct (is_kid kid _) eqn:Hc; simpl; [done |].
  destruct Hs as (x & Hx & Hu). apply Hen in Hx.
  destruct (current_exists _ _ _ _ Hx Hu) as (c & Hcur & Hc' & Huc & _). rewrite Hcur in Hc. simpl in Hc.
  apply bool_decide_eq_false_1 in Hc. exists c. rewrite lookup_insert_ne by done. split; [by apply Hen | done].
Qed.

Lemma can_sign_step now d d' r r' :
  ring_ok r → ring_step now d' r r' → can_sign d now r → can_sign d now r'.
Proof.
  intros Hok Hst Hs. destruct (decide (d' = d)) as [-> | Hne].
  2: { destruct Hs as (k & Hk & Hu). exists k. split; [| done]. eapply ring_step_isolated; [done | | done].
       destruct Hu as [[-> _]%active_in_inv _]. done. }
  destruct Hst as [| key Hd Hc Hr | key Hd Hr | kid t Ht | kid b k Hk Hd | keys kid Hen]; [done | ..].
  - unfold ring_create. destruct (negb _); [done |]. destruct (r !! sk_KID key) eqn:E; [done |]. simpl.
    apply can_sign_insert; [done | naive_solver | done].
  - unfold ring_create_current. destruct (negb _); [done |]. destruct (r !! sk_KID key) eqn:E; [done |]. simpl.
    apply can_sign_insert; [done | rewrite lookup_fmap, E; naive_solver | by apply can_sign_demote].
  - unfold ring_promote. destruct (ring_get d kid r) as [k | e] eqn:Hg; simpl; [| done].
    apply ring_get_Ok in Hg as [Hk [Hd Hrem]%active_in_inv]. destruct (ok_kid _ Hok _ _ Hk) as [Hkid _].
    apply can_sign_insert; [done | | by apply can_sign_demote]. intros _ _ _. split; [| done]. by apply active_in_inv.
  - unfold ring_backfill. rewrite Hk. destruct (bool_decide _); simpl; [| done].
    destruct (sk_PublicJWK k); simpl; [done |]. destruct (ok_kid _ Hok _ _ Hk) as [Hkid _].
    apply can_sign_insert; [done | | done]. intros k0 Hk0. by simplify_eq.
  - by apply can_sign_delete.
Qed.

(** What reading the current key returns when the domain can sign. *)
Lemma get_current_Ok iter now d s :
  valid_id_order iter → store_wf s → can_sign d now (ring s) →
  ∃ k, getCurrentInDomainLocked iter now d s = Ok k ∧ ring s !! sk_KID k = Some k ∧ usable d now k ∧
    ∀ k', ring s !! sk_KID k' = Some k' → usable d now k' → outranked k' k.
Proof.
  intros Hi Hwf (k & Hk & Hu). apply (range_keys_elem _ _ _ Hi Hwf) in Hk.
  pose proof (currentUsable_selects (range_keys iter s) d now) as Hs.
  destruct (current_exists _ _ _ _ Hk Hu) as (c & Hcur & Hc & Huc & _).
  unfold getCurrentInDomainLocked. rewrite Hcur in *. destruct Hs as (_ & _ & Hmax).
  apply (range_keys_elem _ _ _ Hi Hwf) in Hc.
  destruct (lookup_cases s (sk_KID c) Hwf) as [[_ ?] | (p & c' & _ & _ & Hr & _ & _ & Hcl)]; simplify_eq.
  exists c. rewrite Hcl. split_and!; [done | done | done |].
  intros k' Hk' Hu'. apply Hmax; [| done]. by apply (range_keys_elem _ _ _ Hi Hwf).
Qed.
