(* ===== verification/KeyLifecycle.v ===== *)
(** * Key lifecycle: branch-key subjects, the engine and the two key services

    internal/domain/encryption/subject.go, internal/domain/keylifecycle/engine.go
    and the lifecycle methods of internal/domain/oauth2server/signing_key_service.go
    and internal/domain/cimdclient/key_service.go, over the in-memory store.

    A method is a [prog]: one action per repository call, clock reading or cache
    invalidation.  Reading the clock lets time pass by an amount of the
    environment's choice, so that time also advances inside critical sections. *)

From S2P Require Import Prelude ApprovalStore OAuthSessions SigningKeys.

#[local] Open Scope Z_scope.

(** ** Branch-key subjects *)

Inductive BranchKeySubjectKind :=
  | KindService | KindSigningKey | KindCIMDClientAuthenticationKey | KindOther (s : string).
#[export] Instance BranchKeySubjectKind_eq_dec : EqDecision BranchKeySubjectKind.
Proof. solve_decision. Defined.

Record BranchKeySubject := Subject {
  bk_kind : BranchKeySubjectKind;
  bk_serviceID : string;
  bk_signingKeyID : KeyID;
  bk_cimdClientAuthenticationKeyID : KeyID;
}.
#[export] Instance BranchKeySubject_eq_dec : EqDecision BranchKeySubject.
Proof. solve_decision. Defined.

Definition ContextKeyServiceID : string := "service_id".
Definition ContextKeyKID : string := "kid".
Definition CIMDClientAuthenticationKeyIDPrefix : string := "cimd-".

Definition NewServiceBranchKeySubject (serviceID : string) : BranchKeySubject :=
  Subject KindService serviceID "" "".
Definition NewSigningKeyBranchKeySubject (kid : KeyID) : BranchKeySubject :=
  Subject KindSigningKey zero_uuid kid "".
Definition NewCIMDClientAuthenticationKeyBranchKeySubject (kid : KeyID) : BranchKeySubject :=
  Subject KindCIMDClientAuthenticationKey zero_uuid "" kid.

Definition subject_EncryptionContext (s : BranchKeySubject) : gmap string string :=
  match bk_kind s with
  | KindService => {[ContextKeyServiceID := bk_serviceID s]}
  | KindSigningKey => {[ContextKeyKID := bk_signingKeyID s]}
  | KindCIMDClientAuthenticationKey => {[ContextKeyKID := bk_cimdClientAuthenticationKeyID s]}
  | KindOther _ => ∅
  end.

(** [value, ok := ctx[key]; ok && value != ""] *)
Definition context_value (ctx : gmap string string) (key : string) : option string :=
  match ctx !! key with Some v => if nonempty v then Some v else None | None => None end.

(** [ParseServiceID] is [uuid.Parse]: it returns the canonical text. *)
Definition BranchKeySubjectFromEncryptionContext (ParseServiceID : string → option string)
    (ctx : gmap string string) : result key_error BranchKeySubject :=
  match context_value ctx ContextKeyServiceID, context_value ctx ContextKeyKID with
  | Some _, Some _ => Err (Opaque "encryption context must include exactly one branch key subject")
  | Some serviceID, None =>
      match ParseServiceID serviceID with
      | Some parsed => Ok (NewServiceBranchKeySubject parsed)
      | None => Err (Opaque "invalid service_id")
      end
  | None, Some kid =>
      if HasPrefix kid CIMDClientAuthenticationKeyIDPrefix
      then Ok (NewCIMDClientAuthenticationKeyBranchKeySubject kid)
      else Ok (NewSigningKeyBranchKeySubject kid)
  | None, None => Err (Opaque "encryption context missing branch key subject")
  end.

Definition subject_ServiceID (s : BranchKeySubject) : option string :=
  match bk_kind s with KindService => Some (bk_serviceID s) | _ => None end.

Definition subject_KeyID (s : BranchKeySubject) : option KeyID :=
  match bk_kind s with
  | KindSigningKey => Some (bk_signingKeyID s)
  | KindCIMDClientAuthenticationKey => Some (bk_cimdClientAuthenticationKeyID s)
  | _ => None
  end.

Definition subject_Identifier (s : BranchKeySubject) : string :=
  match bk_kind s with
  | KindService => bk_serviceID s
  | KindSigningKey => bk_signingKeyID s
  | KindCIMDClientAuthenticationKey => bk_cimdClientAuthenticationKeyID s
  | KindOther _ => "<unknown>"
  end.

Definition subject_Validate (s : BranchKeySubject) : result key_error unit :=
  match bk_kind s with
  | KindService =>
      if nonzero_id (bk_serviceID s) then Ok () else Err (Opaque "service_id is required")
  | KindSigningKey =>
      if nonempty (bk_signingKeyID s) then Ok () else Err (Opaque "kid is required")
  | KindCIMDClientAuthenticationKey =>
      if negb (nonempty (bk_cimdClientAuthenticationKeyID s)) then Err (Opaque "kid is required")
      else if negb (HasPrefix (bk_cimdClientAuthenticationKeyID s) CIMDClientAuthenticationKeyIDPrefix)
      then Err (Opaque "CIMD client-authentication kid must use the prefix")
      else Ok ()
  | KindOther _ => Err (Opaque "branch key subject kind is required")
  end.

(** ** Keys as published, and the caches of the two services *)

(** The jwx and x509 libraries: JWKs with their metadata, parsing and printing,
    and the public key of a PEM-encoded private key ([None] when the key is not an
    ECDSA key). *)
Class KeyCrypto := {
  jwk_key : Type;
  jwk_kid : jwk_key → option string;
  jwk_alg : jwk_key → option string;
  jwk_use : jwk_key → option string;
  jwk_ParseKey : string → result key_error jwk_key;
  jwk_PublicKeyOf : jwk_key → result key_error jwk_key;
  jwk_is_public : jwk_key → bool;
  jwk_curve : jwk_key → option string;
  jwk_is_rsa : jwk_key → bool;
  jwk_Reimport : jwk_key → result key_error jwk_key;
  jwk_Describe : KeyID → string → jwk_key → result key_error jwk_key;
  jwk_Marshal : jwk_key → result key_error string;
  jwk_Thumbprint : jwk_key → result key_error string;
  jwk_AddKey : list jwk_key → jwk_key → result key_error (list jwk_key);
  pem_public : string → result key_error (option jwk_key);
}.

(** [if err != nil { return fmt.Errorf("msg: %w", err) }] and a plain guard. *)
Definition wrap {A} (msg : string) (r : result key_error A) : result key_error A :=
  match r with Ok a => Ok a | Err x => Err (Wrapped msg x) end.
Definition guard_err (b : bool) (msg : string) : result key_error unit :=
  if b then Ok () else Err (Opaque msg).

Section engine.
Context `{KeyCrypto}.

(** *** Public JWKs of signing keys *)

Definition PublicKeyFromPEM (privatePEM algorithm : string) : result key_error jwk_key :=
  k ← pem_public privatePEM;
  _ ← guard_err (bool_decide (algorithm = "ES256")) "unsupported algorithm";
  match k with Some k => Ok k | None => Err (Opaque "expected ECDSA private key") end.

Definition algorithmToJWA (algorithm : string) : result key_error string :=
  if bool_decide (algorithm = "ES256") || bool_decide (algorithm = "RS256") then Ok algorithm
  else Err (Opaque "unrecognized algorithm").

Definition sanitizePublicJWK (key : jwk_key) (kid : KeyID) (algorithm : string) : result key_error jwk_key :=
  publicKey ← wrap "failed to derive public JWK" (jwk_PublicKeyOf key);
  _ ← guard_err (jwk_is_public publicKey) "public JWK must contain an asymmetric public key";
  publicKey ←
    (if decide (algorithm = "ES256") then
       match jwk_curve publicKey with
       | None => Err (Opaque "public JWK does not contain an ES256 key")
       | Some curve =>
           _ ← guard_err (bool_decide (curve = "P-256")) "public JWK does not contain a P-256 key";
           wrap "failed to import ES256 public JWK" (jwk_Reimport publicKey)
       end
     else if decide (algorithm = "RS256") then
       _ ← guard_err (jwk_is_rsa publicKey) "public JWK does not contain an RS256 key";
       wrap "failed to import RS256 public JWK" (jwk_Reimport publicKey)
     else Err (Opaque "unrecognized algorithm"));
  jwaAlgorithm ← algorithmToJWA algorithm;
  jwk_Describe kid jwaAlgorithm publicKey.

Definition publicJWKAndJSON (key : jwk_key) (kid : KeyID) (algorithm : string)
    : result key_error (jwk_key * string) :=
  publicKey ← sanitizePublicJWK key kid algorithm;
  publicJWK ← wrap "failed to marshal public JWK" (jwk_Marshal publicKey);
  Ok (publicKey, publicJWK).

Definition publicJWKAndJSONFromPrivatePEM (privPEM : string) (kid : KeyID) (algorithm : string)
    : result key_error (jwk_key * string) :=
  publicKey ← PublicKeyFromPEM privPEM algorithm;
  publicJWKAndJSON publicKey kid algorithm.

Definition publicJWKFromJSON (publicJWK : string) (kid : KeyID) (algorithm : string)
    : result key_error jwk_key :=
  key ← wrap "failed to parse public JWK" (jwk_ParseKey publicJWK);
  sanitizePublicJWK key kid algorithm.

(** [cimdES256PrivateKeyFromPEM] followed by the import of its public key. *)
Definition cimdES256PrivateKeyFromPEM (privatePEM : string) : result key_error jwk_key :=
  k ← pem_public privatePEM;
  match k with
  | Some k => if bool_decide (jwk_curve k = Some "P-256") then Ok k else Err (Opaque "CIMD key unavailable")
  | None => Err (Opaque "CIMD key unavailable")
  end.

Definition cimdPublicJWKFromPEM (privatePEM : string) (kid : KeyID) : result key_error jwk_key :=
  key ← cimdES256PrivateKeyFromPEM privatePEM;
  jwk_Describe kid "ES256" key.

(** *** Caches *)

Record jwks_cache := JWKSCache {
  jc_set : option (list jwk_key);
  jc_expiresAt : time;
  jc_version : Z;
  jc_generation : nat;
}.
Definition empty_cache : jwks_cache := JWKSCache None zero_time 0 0.

Record cachedSigningKey := {
  cs_kid : KeyID;
  cs_privatePEM : string;
  cs_publicJWK : nbytes;
  cs_algorithm : string;
  cs_expiresAt : time;
}.

Record signer_cache := SignerCache {
  sc_cachedSigner : option cachedSigningKey;
  sc_signerVersion : nat;
}.

(** The world: the store, the clock and the caches. *)
Record key_world := KeyWorld {
  kw_store : SigningKeyStore;
  kw_now : time;
  kw_jwks : jwks_cache;
  kw_signer : signer_cache;
  kw_public : jwks_cache;
}.

Definition set_store (s : SigningKeyStore) (w : key_world) : key_world :=
  KeyWorld s (kw_now w) (kw_jwks w) (kw_signer w) (kw_public w).
Definition set_now (t : time) (w : key_world) : key_world :=
  KeyWorld (kw_store w) t (kw_jwks w) (kw_signer w) (kw_public w).

(** ** Policies and the environment of a call *)

Record Policy := {
  pol_Domain : KeyDomain;
  pol_NewKID : option (string → KeyID);
  pol_NewSubject : option (KeyID → result key_error BranchKeySubject);
  pol_ActivationGrace : duration;
  pol_PublicJWK : option (string → KeyID → string → result key_error string);
}.

(** What one call receives from outside: map orders, elapsed times, the random
    UUID behind a new kid and a new id, fresh key material, the answers of the
    branch-key manager and of the encryption port, and the error of a context
    that ends before the bootstrap lock is acquired. *)
Record key_env := {
  e_iter : nat → id_order;
  e_dt : nat → N;
  e_uuid : string;
  e_newID : string;
  e_pem : result key_error string;
  e_branch : BranchKeySubject → result key_error string;
  e_encrypt : string → gmap string string → result key_error string;
  e_lock : option key_error;
}.

(** [time.Now()] *)
Definition time_Now (dt : N) : prog key_world time :=
  act (λ w, let t := kw_now w + Z.of_N dt in (set_now t w, t)).

(** A repository call. *)
Definition repo {A} (f : SigningKeyStore → SigningKeyStore * A) : prog key_world A :=
  act (λ w, let '(s, a) := f (kw_store w) in (set_store s w, a)).

(** [DeleteInDomain] reads the clock inside the critical section. *)
Definition repo_Delete (iter : id_order) (dt : N) (d : KeyDomain) (kid : KeyID)
    : prog key_world (result key_error unit) :=
  act (λ w, let t := kw_now w + Z.of_N dt in
            let '(s, a) := deleteInDomainLocked iter t d kid (kw_store w) in (set_store s (set_now t w), a)).

Definition CountActiveInDomain (iter : id_order) (d : KeyDomain) : prog key_world (result key_error nat) :=
  repo (λ s, (s, Ok (countActiveInDomainLocked iter d s))).
Definition ListActiveInDomain (iter : id_order) (d : KeyDomain)
    : prog key_world (result key_error (list SigningKey)) :=
  repo (λ s, (s, Ok (listActiveInDomainLocked iter d s))).
Definition GetByKIDInDomain (d : KeyDomain) (kid : KeyID) : prog key_world (result key_error SigningKey) :=
  repo (λ s, (s, getByKIDInDomainLocked d kid s)).
Definition SetCurrentInDomain (iter : id_order) (d : KeyDomain) (kid : KeyID) (activatesAt : time)
    : prog key_world (result key_error SigningKey) :=
  repo (setCurrentInDomainLocked iter d kid activatesAt).

(** [WithBootstrapLock]: the context is checked first and while waiting; the
    callback runs with the store's mutex held, so as one action. *)
Definition WithBootstrapLock {A} (e : key_env) (none : A) (fn : prog key_world (A * option key_error))
    : prog key_world (A * option key_error) :=
  match e_lock e with
  | Some err => mret (none, Some err)
  | None => act (run fn)
  end.

(** ** The engine *)

Definition default_algorithm (algorithm : string) : string :=
  if decide (algorithm = "") then "ES256" else algorithm.

(** The first part of [GenerateAndStore]: everything up to the ciphertext. *)
Definition prepare_key (e : key_env) (policy : Policy) (algorithm : string)
    : result key_error (KeyID * nbytes * string) :=
  _ ← guard_err (KeyDomain_Validate (pol_Domain policy)) "unsupported key domain";
  match pol_NewKID policy, pol_NewSubject policy with
  | Some newKID, Some newSubject =>
      _ ← guard_err (bool_decide (algorithm = "ES256")) "unsupported algorithm";
      let kid := newKID (e_uuid e) in
      _ ← guard_err (nonempty kid) "key lifecycle policy generated an empty kid";
      privatePEM ← wrap "generate ES256 key" (e_pem e);
      publicJWK ← match pol_PublicJWK policy with
                  | None => Ok None
                  | Some f => b ← wrap "derive public JWK" (f privatePEM kid algorithm); Ok (Some b)
                  end;
      subject ← wrap "create branch key subject" (newSubject kid);
      _ ← wrap "validate branch key subject" (subject_Validate subject);
      _ ← wrap "provision branch key" (e_branch e subject);
      ciphertext ← wrap "encrypt private key" (e_encrypt e privatePEM (subject_EncryptionContext subject));
      Ok (kid, publicJWK, ciphertext)
  | _, _ => Err (Opaque "key lifecycle policy is incomplete")
  end.

(** The record it stores. *)
Definition new_key (e : key_env) (policy : Policy) (algorithm : string) (isCurrent : bool)
    (material : KeyID * nbytes * string) (activatesAt createdAt : time) : SigningKey :=
  let '(kid, publicJWK, ciphertext) := material in
  {| sk_ID := e_newID e; sk_KID := kid; sk_KeyDomain := pol_Domain policy; sk_Algorithm := algorithm;
     sk_PrivateKeyEncrypted := ciphertext; sk_PublicJWK := publicJWK; sk_IsCurrent := isCurrent;
     sk_ActivatesAt := activatesAt; sk_CreatedAt := createdAt; sk_RemovedAt := None |}.

Definition GenerateAndStore (e : key_env) (policy : Policy) (algorithm : string) (isCurrent : bool)
    (activatesAt : time) : prog key_world (result key_error SigningKey) :=
  let algorithm := default_algorithm algorithm in
  match prepare_key e policy algorithm with
  | Err x => mret (Err x)
  | Ok material =>
      activatesAt ←
        (if IsZero activatesAt then
           now ← time_Now (e_dt e 0);
           mret (if isCurrent then now + pol_ActivationGrace policy else now)
         else mret activatesAt);
      createdAt ← time_Now (e_dt e 1);
      let key := new_key e policy algorithm isCurrent material activatesAt createdAt in
      r ← repo (if isCurrent then createAndSetCurrentLocked (e_iter e 0) key else key_createLocked key);
      match r with
      | Err x => mret (Err (Wrapped "store signing key" x))
      | Ok _ => mret (Ok key)
      end
  end.

(** [errors.Is] and [errors.As] look through the wrappers. *)
Fixpoint isTimeoutOrCancellation (err : key_error) : bool :=
  match err with
  | DeadlineExceeded | Canceled => true
  | StorageErr KTimeout => true
  | Wrapped _ err => isTimeoutOrCancellation err
  | _ => false
  end.

(** The callback of [EnsureInitialKey]: [created] and the error it returns. *)
Definition ensure_callback (e : key_env) (policy : Policy) (activatesAt : time)
    : prog key_world (option SigningKey * option key_error) :=
  count ← CountActiveInDomain (e_iter e 1) (pol_Domain policy);
  match count with
  | Err x => mret (None, Some (Wrapped "count active keys" x))
  | Ok count =>
      if bool_decide (0 < count)%nat then mret (None, None)
      else
        r ← GenerateAndStore e policy "ES256" true activatesAt;
        match r with
        | Ok key => mret (Some key, None)
        | Err x => mret (None, Some x)
        end
  end.

Definition EnsureInitialKey (e : key_env) (policy : Policy) (activatesAt : time)
    : prog key_world (result key_error (option SigningKey)) :=
  out ← WithBootstrapLock e None (ensure_callback e policy activatesAt);
  let '(created, err) := (out : option SigningKey * option key_error) in
  match err with
  | None => mret (Ok created)
  | Some err =>
      if bool_decide (created ≠ None) || isTimeoutOrCancellation err then
        count ← CountActiveInDomain (e_iter e 2) (pol_Domain policy);
        match count with
        | Ok count => if bool_decide (0 < count)%nat then mret (Ok created) else mret (Err err)
        | Err _ => mret (Err err)
        end
      else mret (Err err)
  end.

Definition GenerateWithInitialActivation (e : key_env) (policy : Policy)
    (firstActivatesAt laterActivatesAt : time) : prog key_world (result key_error SigningKey) :=
  out ← WithBootstrapLock e None (
    count ← CountActiveInDomain (e_iter e 1) (pol_Domain policy);
    match count with
    | Err x => mret (None, Some (Wrapped "count active keys" x))
    | Ok count =>
        let activatesAt := if bool_decide (0 < count)%nat then laterActivatesAt else firstActivatesAt in
        r ← GenerateAndStore e policy "ES256" true activatesAt;
        match r with
        | Ok key => mret (Some key, None)
        | Err x => mret (None, Some x)
        end
    end);
  match (out : option SigningKey * option key_error) with
  | (_, Some err) => mret (Err err)
  | (Some key, None) => mret (Ok key)
  | (None, None) => mret (Err (Opaque "no key"))
  end.

Definition engine_List (e : key_env) (policy : Policy) : prog key_world (result key_error (list SigningKey)) :=
  if KeyDomain_Validate (pol_Domain policy) then ListActiveInDomain (e_iter e 0) (pol_Domain policy)
  else mret (Err (Opaque "unsupported key domain")).

Definition engine_Promote (e : key_env) (policy : Policy) (kid : KeyID) (activatesAt : time)
    : prog key_world (result key_error SigningKey) :=
  if KeyDomain_Validate (pol_Domain policy)
  then SetCurrentInDomain (e_iter e 0) (pol_Domain policy) kid activatesAt
  else mret (Err (Opaque "unsupported key domain")).

(** [EffectiveCurrent]: the selection of the store without the domain and
    removal tests, over a slice that may hold nil. *)
Definition EffectiveCurrent (keys : list (option SigningKey)) (now : time) : option SigningKey :=
  foldl (λ best key,
    match key with
    | None => best
    | Some key => if After (sk_ActivatesAt key) now then best else choose best key
    end) None keys.

Definition engine_Delete (e : key_env) (policy : Policy) (kid : KeyID) (now : time)
    : prog key_world (result key_error unit) :=
  if negb (KeyDomain_Validate (pol_Domain policy)) then mret (Err (Opaque "unsupported key domain")) else
  key ← GetByKIDInDomain (pol_Domain policy) kid;
  match key with
  | Err x => mret (Err (Wrapped "failed to get signing key" x))
  | Ok key =>
      count ← CountActiveInDomain (e_iter e 0) (pol_Domain policy);
      match count with
      | Err x => mret (Err (Wrapped "count active keys" x))
      | Ok count =>
          if bool_decide (count ≤ 1)%nat then mret (Err ErrLastActiveKey)
          else if sk_IsCurrent key then mret (Err ErrCurrentKey)
          else
            keys ← ListActiveInDomain (e_iter e 1) (pol_Domain policy);
            match keys with
            | Err x => mret (Err (Wrapped "failed to list active keys" x))
            | Ok keys =>
                if is_kid kid (EffectiveCurrent (Some <$> keys) now) then mret (Err ErrEffectiveCurrentKey)
                else repo_Delete (e_iter e 2) (e_dt e 2) (pol_Domain policy) kid
            end
      end
  end.

(** ** The token-signing service *)

Definition invalidate (c : jwks_cache) : jwks_cache :=
  JWKSCache None zero_time (jc_version c) (S (jc_generation c)).

Definition invalidateJWKSCache : prog key_world unit :=
  act (λ w, (KeyWorld (kw_store w) (kw_now w) (invalidate (kw_jwks w)) (kw_signer w) (kw_public w), ())).

Definition invalidateSigner : prog key_world unit :=
  act (λ w, (KeyWorld (kw_store w) (kw_now w) (kw_jwks w)
               (SignerCache None (S (sc_signerVersion (kw_signer w)))) (kw_public w), ())).

Definition jwksGracePeriod : duration := 2 * (300 * second).

(** [UUIDKID(prefix)] *)
Definition UUIDKID (prefix uuid : string) : KeyID := prefix +:+ uuid.

Definition newSigningKeySubject (kid : KeyID) : result key_error BranchKeySubject :=
  let subject := NewSigningKeyBranchKeySubject kid in
  _ ← wrap "invalid signing key subject" (subject_Validate subject);
  Ok subject.

Definition tokenSigningPolicy : Policy :=
  {| pol_Domain := KeyDomainTokenSigning; pol_NewKID := Some (UUIDKID "");
     pol_NewSubject := Some newSigningKeySubject; pol_ActivationGrace := jwksGracePeriod;
     pol_PublicJWK := Some (λ privatePEM kid algorithm,
       p ← publicJWKAndJSONFromPrivatePEM privatePEM kid algorithm; Ok p.2) |}.

Definition generateAndStore (e : key_env) (algorithm : string) (makeCurrent : bool) (activatesAt : time)
    : prog key_world (result key_error SigningKey) :=
  r ← GenerateAndStore e tokenSigningPolicy algorithm makeCurrent activatesAt;
  match r with
  | Err x => mret (Err (Wrapped "generate and store signing key" x))
  | Ok key => _ ← invalidateJWKSCache; _ ← invalidateSigner; mret (Ok key)
  end.

Definition GenerateAndStoreKey (e : key_env) (algorithm : string) (makeCurrent : bool) :=
  generateAndStore e algorithm makeCurrent zero_time.

Definition ListKeys (e : key_env) := engine_List e tokenSigningPolicy.

Definition PromoteKey (e : key_env) (kid : KeyID) : prog key_world (result key_error SigningKey) :=
  now ← time_Now (e_dt e 0);
  r ← engine_Promote e tokenSigningPolicy kid now;
  match r with
  | Err x => mret (Err x)
  | Ok key => _ ← invalidateJWKSCache; _ ← invalidateSigner; mret (Ok key)
  end.

Definition DeleteKey (e : key_env) (kid : KeyID) : prog key_world (result key_error unit) :=
  now ← time_Now (e_dt e 0);
  r ← engine_Delete e tokenSigningPolicy kid now;
  match r with
  | Err x => mret (Err (Wrapped "delete signing key" x))
  | Ok _ => _ ← invalidateJWKSCache; _ ← invalidateSigner; mret (Ok ())
  end.

Definition service_EnsureInitialKey (e : key_env) (algorithm : string)
    : prog key_world (result key_error (option SigningKey)) :=
  if bool_decide (default_algorithm algorithm = "ES256") then
    now ← time_Now (e_dt e 0);
    r ← EnsureInitialKey e tokenSigningPolicy (now - second);
    match r with
    | Err x => mret (Err (Wrapped "failed to generate initial signing key" x))
    | Ok out => mret (Ok out)
    end
  else mret (Err (Opaque "unsupported algorithm")).

(** ** The CIMD client-authentication service *)

Definition cimdKeyGracePeriod : duration := 600 * second.

Definition cimdClientAuthenticationPolicy : Policy :=
  {| pol_Domain := KeyDomainCIMDClientAuthentication;
     pol_NewKID := Some (UUIDKID CIMDClientAuthenticationKeyIDPrefix);
     pol_NewSubject := Some (λ kid, Ok (NewCIMDClientAuthenticationKeyBranchKeySubject kid));
     pol_ActivationGrace := 0;
     pol_PublicJWK := Some (λ privatePEM kid _,
       k ← cimdPublicJWKFromPEM privatePEM kid; jwk_Marshal k) |}.

Definition invalidatePublicJWKCache : prog key_world unit :=
  act (λ w, (KeyWorld (kw_store w) (kw_now w) (kw_jwks w) (kw_signer w) (invalidate (kw_public w)), ())).

Definition cimd_GenerateKey (e : key_env) (algorithm : string) : prog key_world (result key_error SigningKey) :=
  if bool_decide (default_algorithm algorithm = "ES256") then
    now ← time_Now (e_dt e 0);
    r ← GenerateWithInitialActivation e cimdClientAuthenticationPolicy now (now + cimdKeyGracePeriod);
    match r with
    | Err x => mret (Err (Wrapped "generate CIMD key" x))
    | Ok key => _ ← invalidatePublicJWKCache; mret (Ok key)
    end
  else mret (Err (Opaque "unsupported CIMD algorithm")).

Definition cimd_ListKeys (e : key_env) := engine_List e cimdClientAuthenticationPolicy.

Definition cimd_PromoteKey (e : key_env) (kid : KeyID) : prog key_world (result key_error SigningKey) :=
  now ← time_Now (e_dt e 0);
  r ← engine_Promote e cimdClientAuthenticationPolicy kid now;
  match r with
  | Err x => mret (Err x)
  | Ok key => _ ← invalidatePublicJWKCache; mret (Ok key)
  end.

Definition cimd_DeleteKey (e : key_env) (kid : KeyID) : prog key_world (result key_error unit) :=
  now ← time_Now (e_dt e 0);
  r ← engine_Delete e cimdClientAuthenticationPolicy kid now;
  match r with
  | Err x => mret (Err x)
  | Ok _ => _ ← invalidatePublicJWKCache; mret (Ok ())
  end.

Definition cimd_EnsureInitialKey (e : key_env) : prog key_world (result key_error (option SigningKey)) :=
  now ← time_Now (e_dt e 0);
  r ← EnsureInitialKey e cimdClientAuthenticationPolicy now;
  match r with
  | Ok (Some key) => _ ← invalidatePublicJWKCache; mret (Ok (Some key))
  | _ => mret r
  end.

End engine.
