(* ===== verification/KeyPublication.v ===== *)
(** * Publication of verification keys

    The JWKS part of internal/domain/oauth2server/signing_key_service.go
    ([BuildJWKS], [rebuildJWKS], [buildJWKS], [publicJWKForSigningKey]) and of
    internal/domain/cimdclient/key_service.go ([PublicJWKSet] and its helpers).
    Both services cache the set under the version of the key store it was built
    for and rebuild it in a flight shared by the callers of one generation.

    A rebuild is a [prog]; the callers, their shared flights and the other calls on
    the key store form the transition system [jwks_step]. *)

From S2P Require Import Prelude ApprovalStore OAuthSessions SigningKeys KeyLifecycle.

#[local] Open Scope Z_scope.

Section publication.
Context `{KeyCrypto}.

(** [encryption.Decrypt(ciphertext, context)] *)
Definition decrypter : Type := string → gmap string string → result key_error string.

Fixpoint IsNotFoundErr (e : key_error) : bool :=
  match e with
  | StorageErr KNotFound => true
  | Wrapped _ e => IsNotFoundErr e
  | _ => false
  end.

Definition SetPublicJWK (kid : KeyID) (publicJWK : string) : prog key_world (result key_error bool) :=
  repo (setPublicJWKLocked kid (Some publicJWK)).

Definition KeySetVersion_act : prog key_world (result key_error Z) := repo (λ s, (s, Ok (KeySetVersion s))).

(** [len(key.PublicJWK) > 0] *)
Definition stored_public (key : SigningKey) : option string :=
  match sk_PublicJWK key with Some b => if nonempty b then Some b else None | None => None end.

(** ** Token-signing keys *)

Definition signingKeyEncCtx (kid : KeyID) : gmap string string :=
  subject_EncryptionContext (NewSigningKeyBranchKeySubject kid).

Definition publicJWKFromLegacyKey (dec : decrypter) (key : SigningKey) : result key_error (jwk_key * string) :=
  privatePEM ← wrap "failed to decrypt signing key"
                 (dec (sk_PrivateKeyEncrypted key) (signingKeyEncCtx (sk_KID key)));
  publicJWKAndJSONFromPrivatePEM privatePEM (sk_KID key) (sk_Algorithm key).

Definition publicJWKForSigningKey (dec : decrypter) (key : SigningKey)
    : prog key_world (result key_error jwk_key) :=
  match stored_public key with
  | Some b => mret (wrap "failed to parse stored public JWK" (publicJWKFromJSON b (sk_KID key) (sk_Algorithm key)))
  | None =>
      match (p ← wrap "failed to build legacy public JWK" (publicJWKFromLegacyKey dec key);
             _ ← wrap "failed to fingerprint derived public JWK" (jwk_Thumbprint p.1);
             Ok p) with
      | Err x => mret (Err x)
      | Ok (jwkKey, publicJWK) =>
          updated ← SetPublicJWK (sk_KID key) publicJWK;
          match updated with
          | Err x =>
              if IsNotFoundErr x then mret (Err (Wrapped "failed to backfill public JWK" x))
              else mret (Ok jwkKey)
          | Ok true => mret (Ok jwkKey)
          | Ok false =>
              stored ← GetByKIDInDomain KeyDomainTokenSigning (sk_KID key);
              mret (
                stored ← wrap "failed to read existing public JWK after backfill race" stored;
                publicKey ← wrap "failed to parse existing public JWK after backfill race"
                  (publicJWKFromJSON (default "" (sk_PublicJWK stored)) (sk_KID stored) (sk_Algorithm stored));
                _ ← wrap "failed to fingerprint existing public JWK" (jwk_Thumbprint publicKey);
                Ok jwkKey)
          end
      end
  end.

(** The loop of [buildJWKS]: a key that cannot be published is skipped. *)
Fixpoint collect_keys (dec : decrypter) (keys : list SigningKey) (set : list jwk_key) (processedKids : gset string)
    : prog key_world (list jwk_key * gset string) :=
  match keys with
  | [] => Ret (set, processedKids)
  | key :: keys =>
      pbind (publicJWKForSigningKey dec key) (λ r,
        match r with
        | Err _ => collect_keys dec keys set processedKids
        | Ok jwkKey =>
            match jwk_AddKey set jwkKey with
            | Err _ => collect_keys dec keys set processedKids
            | Ok set => collect_keys dec keys set ({[sk_KID key]} ∪ processedKids)
            end
        end)
  end.

Definition buildJWKS (iter : id_order) (dt : N) (dec : decrypter)
    : prog key_world (result key_error (list jwk_key)) :=
  keys ← ListActiveInDomain iter KeyDomainTokenSigning;
  match keys with
  | Err x => mret (Err (Wrapped "failed to list active keys" x))
  | Ok keys =>
      out ← collect_keys dec keys [] ∅;
      let '(set, processedKids) := (out : list jwk_key * gset string) in
      now ← time_Now dt;
      mret (
        if match EffectiveCurrent (Some <$> keys) now with
           | Some current => bool_decide (sk_KID current ∉ processedKids)
           | None => false
           end then Err (Opaque "current signing key is missing from JWKS")
        else if bool_decide (keys ≠ []) && bool_decide (set = []) then
          Err (Opaque "all active keys failed processing")
        else Ok set)
  end.

(** ** CIMD keys *)

Definition cimdKeyEncryptionContext (kid : KeyID) : gmap string string :=
  subject_EncryptionContext (NewCIMDClientAuthenticationKeyBranchKeySubject kid).

Definition ErrCIMDPublicKeyUnavailable : key_error := Opaque "CIMD public key unavailable".

(** The checks on a stored CIMD JWK. *)
Definition checkCIMDKey (publicJSON : string) (kid : KeyID) : result key_error jwk_key :=
  publicKey ← wrap "parse stored CIMD public key" (jwk_ParseKey publicJSON);
  _ ← guard_err (bool_decide (jwk_kid publicKey = Some kid) && bool_decide (jwk_alg publicKey = Some "ES256") &&
                 bool_decide (jwk_use publicKey = Some "sig")) "invalid CIMD public key metadata";
  publicKey ← wrap "derive CIMD public key" (jwk_PublicKeyOf publicKey);
  _ ← guard_err (bool_decide (jwk_curve publicKey = Some "P-256")) "invalid CIMD key curve";
  Ok publicKey.

(** The JSON [publicJWKForKey] checks: the stored one, or the derived one once it
    has been persisted, or the one another caller persisted first. *)
Definition cimdPublicJSON (dec : decrypter) (key : SigningKey) : prog key_world (result key_error string) :=
  match stored_public key with
  | Some b => mret (Ok b)
  | None =>
      match (privatePEM ← dec (sk_PrivateKeyEncrypted key) (cimdKeyEncryptionContext (sk_KID key));
             publicKey ← cimdPublicJWKFromPEM privatePEM (sk_KID key);
             jwk_Marshal publicKey) with
      | Err x => mret (Err x)
      | Ok publicJSON =>
          updated ← SetPublicJWK (sk_KID key) publicJSON;
          match updated with
          | Err x => mret (Err x)
          | Ok true => mret (Ok publicJSON)
          | Ok false =>
              stored ← GetByKIDInDomain KeyDomainCIMDClientAuthentication (sk_KID key);
              mret (
                stored ← stored;
                match stored_public stored with
                | Some b => Ok b
                | None => Err (Opaque "retrieve legacy CIMD public key")
                end)
          end
      end
  end.

Definition publicJWKForKey (dec : decrypter) (key : SigningKey) : prog key_world (result key_error jwk_key) :=
  publicJSON ← cimdPublicJSON dec key;
  mret (publicJSON ← publicJSON; checkCIMDKey publicJSON (sk_KID key)).

(** The loop of [buildPublicJWKSet]: the first failure ends it. *)
Fixpoint collect_cimd (dec : decrypter) (keys : list SigningKey) (set : list jwk_key)
    : prog key_world (result key_error (list jwk_key)) :=
  match keys with
  | [] => Ret (Ok set)
  | key :: keys =>
      if bool_decide (sk_Algorithm key ≠ "ES256") then collect_cimd dec keys set else
      pbind (publicJWKForKey dec key) (λ r,
        match (jwkKey ← r; jwk_AddKey set jwkKey) with
        | Err x => Ret (Err x)
        | Ok set => collect_cimd dec keys set
        end)
  end.

Definition buildPublicJWKSet (iter : id_order) (dec : decrypter)
    : prog key_world (result key_error (list jwk_key)) :=
  keys ← ListActiveInDomain iter KeyDomainCIMDClientAuthentication;
  match keys with
  | Err x => mret (Err (Wrapped "list CIMD keys" x))
  | Ok keys =>
      out ← collect_cimd dec keys [];
      mret (set ← out; if bool_decide (set = []) then Err ErrCIMDPublicKeyUnavailable else Ok set)
  end.

(** ** The calls of the two services *)

(** Which of the two services, with its key domain and cache. *)
Inductive service := TokenSigning | CIMDClient.

Definition domain_of (v : service) : KeyDomain :=
  match v with TokenSigning => KeyDomainTokenSigning | CIMDClient => KeyDomainCIMDClientAuthentication end.

Definition build (v : service) (iter : id_order) (dt : N) (dec : decrypter) :=
  match v with TokenSigning => buildJWKS iter dt dec | CIMDClient => buildPublicJWKSet iter dec end.

Inductive key_call :=
  | CallGenerate (algorithm : string) (makeCurrent : bool)
  | CallPromote (v : service) (kid : KeyID)
  | CallDelete (v : service) (kid : KeyID)
  | CallEnsure (v : service) (algorithm : string)
  | CallList (v : service)
  | CallGenerateCIMD (algorithm : string)
  | CallBuild (v : service) (dec : decrypter).

Definition call_service (call : key_call) : service :=
  match call with
  | CallGenerate _ _ => TokenSigning
  | CallGenerateCIMD _ => CIMDClient
  | CallPromote v _ | CallDelete v _ | CallEnsure v _ | CallList v | CallBuild v _ => v
  end.

(** Run a call for its effects. *)
Definition discard {A} (p : prog key_world A) : prog key_world unit := pbind p (λ _, Ret ()).

Definition exec_call (e : key_env) (call : key_call) : prog key_world unit :=
  match call with
  | CallGenerate algorithm makeCurrent => discard (GenerateAndStoreKey e algorithm makeCurrent)
  | CallPromote TokenSigning kid => discard (PromoteKey e kid)
  | CallPromote CIMDClient kid => discard (cimd_PromoteKey e kid)
  | CallDelete TokenSigning kid => discard (DeleteKey e kid)
  | CallDelete CIMDClient kid => discard (cimd_DeleteKey e kid)
  | CallEnsure TokenSigning algorithm => discard (service_EnsureInitialKey e algorithm)
  | CallEnsure CIMDClient _ => discard (cimd_EnsureInitialKey e)
  | CallList TokenSigning => discard (ListKeys e)
  | CallList CIMDClient => discard (cimd_ListKeys e)
  | CallGenerateCIMD algorithm => discard (cimd_GenerateKey e algorithm)
  | CallBuild v dec => discard (build v (e_iter e 0) (e_dt e 0) dec)
  end.

(** ** The shared cache protocol *)

Definition cache_of (v : service) (w : key_world) : jwks_cache :=
  match v with TokenSigning => kw_jwks w | CIMDClient => kw_public w end.
Definition set_cache (v : service) (c : jwks_cache) (w : key_world) : key_world :=
  match v with
  | TokenSigning => KeyWorld (kw_store w) (kw_now w) c (kw_signer w) (kw_public w)
  | CIMDClient => KeyWorld (kw_store w) (kw_now w) (kw_jwks w) (kw_signer w) c
  end.

Definition jwksCacheTTL : duration := 45 * second.
Definition errCacheInvalidated : key_error := Opaque "cache invalidated during rebuild".

Definition rebuild (v : service) (iter : id_order) (dt dt' : N) (dec : decrypter) (generation : nat) (version : Z)
    : prog key_world (result key_error (list jwk_key)) :=
  set ← build v iter dt dec;
  match set with
  | Err x => mret (Err x)
  | Ok set =>
      currentVersion ← KeySetVersion_act;
      match currentVersion with
      | Err x => mret (Err (Wrapped "failed to check key set version after rebuild" x))
      | Ok currentVersion =>
          if bool_decide (currentVersion ≠ version) then mret (Err errCacheInvalidated)
          else act (λ w,
            let c := cache_of v w in
            if bool_decide (jc_generation c ≠ generation) then (w, Err errCacheInvalidated)
            else
              let t := kw_now w + Z.of_N dt' in
              (set_cache v (JWKSCache (Some set) (t + jwksCacheTTL) (jc_version c) (jc_generation c)) (set_now t w),
               Ok set))
      end
  end.

(** The check under the read lock. *)
Definition lookup_cached (c : jwks_cache) (version : Z) (now : time) : option (list jwk_key) :=
  match jc_set c with
  | Some set => if bool_decide (jc_version c = version) && Before now (jc_expiresAt c) then Some set else None
  | None => None
  end.

Inductive entry :=
  | Retry
  | Hit (set : list jwk_key)
  | Join (generation : nat).

(** The section under the write lock. *)
Definition enter (c : jwks_cache) (version : Z) (now : time) : jwks_cache * entry :=
  if bool_decide (version < jc_version c) then (c, Retry)
  else
    let c := if bool_decide (jc_version c ≠ version)
             then JWKSCache None (jc_expiresAt c) version (S (jc_generation c)) else c in
    match jc_set c with
    | Some set => if Before now (jc_expiresAt c) then (c, Hit set) else (c, Join (jc_generation c))
    | None => (c, Join (jc_generation c))
    end.

(** What a caller does with the result of its flight: [None] is another round. *)
Definition after_flight (c : jwks_cache) (generation : nat) (r : result key_error (list jwk_key))
    : option (result key_error (list jwk_key)) :=
  if bool_decide (jc_generation c ≠ generation) then None
  else match r with
  | Err x => if bool_decide (x = errCacheInvalidated) then None else Some r
  | Ok _ => Some r
  end.

(** ** Callers, flights and the other calls *)

(** Where a call of [BuildJWKS] / [PublicJWKSet] is in its loop; [v0] is the
    version of the key store when the call started. *)
Inductive caller :=
  | Starting (v0 : Z)
  | Observed (v0 version : Z)
  | Missed (v0 version : Z)
  | Waiting (v0 : Z) (generation flight : nat)
  | Returned (v0 : Z) (r : result key_error (list jwk_key)).

(** A flight: the generation that is its key in the group, and what is left of
    the rebuild. *)
Record flight := Flight {
  fl_generation : nat;
  fl_rebuild : prog key_world (result key_error (list jwk_key));
}.

(** The configuration; [history] records the key ring of every version. *)
Record jwks_config := Config {
  jw_world : key_world;
  jw_history : gmap Z (gmap string SigningKey);
  jw_calls : list (prog key_world unit);
  jw_flights : list flight;
  jw_callers : list caller;
}.

Definition record_history (w : key_world) (h : gmap Z (gmap string SigningKey)) :=
  <[sk_version (kw_store w) := ring (kw_store w)]> h.

Definition set_caller (i : nat) (x : caller) (c : jwks_config) : jwks_config :=
  Config (jw_world c) (jw_history c) (jw_calls c) (jw_flights c) (<[i := x]> (jw_callers c)).

Definition advance (dt : N) (w : key_world) : key_world := set_now (kw_now w + Z.of_N dt) w.

Inductive jwks_step (v : service) : jwks_config → jwks_config → Prop :=
  (** another call on the keys takes its next action *)
  | step_call c i X (f : key_world → key_world * X) k :
      jw_calls c !! i = Some (Act f k) →
      jwks_step v c (let '(w, x) := f (jw_world c) in
        Config w (record_history w (jw_history c)) (<[i := k x]> (jw_calls c)) (jw_flights c) (jw_callers c))
  (** a flight takes its next action *)
  | step_flight c j g X (f : key_world → key_world * X) k :
      jw_flights c !! j = Some (Flight g (Act f k)) →
      jwks_step v c (let '(w, x) := f (jw_world c) in
        Config w (record_history w (jw_history c)) (jw_calls c) (<[j := Flight g (k x)]> (jw_flights c))
          (jw_callers c))
  (** a new call *)
  | step_arrive c :
      jwks_step v c (Config (jw_world c) (jw_history c) (jw_calls c) (jw_flights c)
        (jw_callers c ++ [Starting (sk_version (kw_store (jw_world c)))]))
  (** [version := KeySetVersion()] *)
  | step_version c i v0 :
      jw_callers c !! i = Some (Starting v0) →
      jwks_step v c (set_caller i (Observed v0 (KeySetVersion (kw_store (jw_world c)))) c)
  (** the check under the read lock *)
  | step_lookup c i v0 version dt :
      jw_callers c !! i = Some (Observed v0 version) →
      jwks_step v c (
        let w := advance dt (jw_world c) in
        let c := Config w (jw_history c) (jw_calls c) (jw_flights c) (jw_callers c) in
        match lookup_cached (cache_of v w) version (kw_now w) with
        | Some set => set_caller i (Returned v0 (Ok set)) c
        | None => set_caller i (Missed v0 version) c
        end)
  (** the section under the write lock, up to [DoChan]: join a flight of the
      generation, or start one *)
  | step_enter c i v0 version dt cache' out x flights' iter dt1 dt2 dec :
      jw_callers c !! i = Some (Missed v0 version) →
      valid_id_order iter →
      (cache', out) = enter (cache_of v (jw_world c)) version (kw_now (jw_world c) + Z.of_N dt) →
      match out with
      | Retry => x = Starting v0 ∧ flights' = jw_flights c
      | Hit set => x = Returned v0 (Ok set) ∧ flights' = jw_flights c
      | Join g =>
          (∃ j fl, x = Waiting v0 g j ∧ jw_flights c !! j = Some fl ∧ fl_generation fl = g ∧ flights' = jw_flights c) ∨
          (x = Waiting v0 g (length (jw_flights c)) ∧
           flights' = jw_flights c ++ [Flight g (rebuild v iter dt1 dt2 dec g version)])
      end →
      jwks_step v c (Config (set_cache v cache' (advance dt (jw_world c))) (jw_history c) (jw_calls c) flights'
        (<[i := x]> (jw_callers c)))
  (** the flight's result arrives *)
  | step_result c i v0 g j r :
      jw_callers c !! i = Some (Waiting v0 g j) →
      jw_flights c !! j = Some (Flight g (Ret r)) →
      jwks_step v c (
        match after_flight (cache_of v (jw_world c)) g r with
        | None => set_caller i (Starting v0) c
        | Some r => set_caller i (Returned v0 r) c
        end)
  (** the caller's context ends *)
  | step_cancel c i v0 g j :
      jw_callers c !! i = Some (Waiting v0 g j) →
      jwks_step v c (set_caller i (Returned v0 (Err Canceled)) c).

End publication.
