(* ===== verification/KeyLifecycleFacts.v ===== *)
(** * What the key lifecycle guarantees

    Under every interleaving of the two key services' calls: the store stays
    consistent, a domain has at most one current key, a domain that can sign keeps
    being able to, and the services do not touch each other's keys.  The engine's
    selection agrees with the store's, and branch-key subjects round-trip through
    their encryption contexts. *)

From S2P Require Import Prelude ApprovalStore OAuthSessions SigningKeys SigningKeysFacts KeyLifecycle KeyPublication.

#[local] Open Scope Z_scope.

(** ** The engine's selection is the store's *)

Lemma effective_current_agrees keys d now :
  EffectiveCurrent (Some <$> filter (λ k, active_in d k = true) keys) now =
  currentUsableSigningKeyInDomain keys d now.
Proof.
  unfold EffectiveCurrent, currentUsableSigningKeyInDomain. generalize (@None SigningKey) as best.
  induction keys as [| k keys IH]; intros best; [done |]. cbn [foldl]. unfold currentUsable_step at 2.
  rewrite filter_cons. destruct (active_in d k) eqn:Ha; simpl; apply IH.
Qed.

Section lifecycle.
Context `{KeyCrypto}.

(** ** Steps of the shared world *)

Definition base (w : key_world) : Prop := store_wf (kw_store w) ∧ ring_ok (ring (kw_store w)).
Definition fresh_id (nid : string) (w : key_world) : Prop := sk_byID (kw_store w) !! nid = None.

(** A cache is left alone or invalidated. *)
Definition cache_kept (c c' : jwks_cache) : Prop := c' = c ∨ c' = invalidate c.

(** One step of a lifecycle call in domain [d] that may add the id [nid]. *)
Record key_step (d : KeyDomain) (nid : string) (w w' : key_world) : Prop := {
  ks_time : kw_now w ≤ kw_now w';
  ks_wf : store_wf (kw_store w) → store_wf (kw_store w');
  ks_ring : ring_step (kw_now w') d (ring (kw_store w)) (ring (kw_store w'));
  ks_ids i : i ≠ nid → sk_byID (kw_store w') !! i = sk_byID (kw_store w) !! i;
  ks_version : sk_version (kw_store w') = sk_version (kw_store w) + 1 ∨ kw_store w' = kw_store w;
}.

(** The same with what calls do to the caches of published keys. *)
Definition call_step (d : KeyDomain) (nid : string) (w w' : key_world) : Prop :=
  key_step d nid w w' ∧ cache_kept (kw_jwks w) (kw_jwks w') ∧ cache_kept (kw_public w) (kw_public w').

Definition key_guar (d : KeyDomain) (nid : string) : key_world → key_world → Prop := rtc (call_step d nid).

(** Steps of other calls, which add other ids; they may do anything to caches. *)
Definition key_rely (nid : string) (w w' : key_world) : Prop :=
  ∃ d nid', nid' ≠ nid ∧ rtc (key_step d nid') w w'.

Lemma key_guar_steps d nid w w' : key_guar d nid w w' → rtc (key_step d nid) w w'.
Proof. apply rtc_subrel. by intros ? ? []. Qed.

Lemma key_step_base d nid w w' : key_step d nid w w' → base w → base w'.
Proof.
  intros Hs [Hwf Hok]. split; [by apply (ks_wf _ _ _ _ Hs) |]. eapply ring_step_ok; [apply (ks_ring _ _ _ _ Hs) | done].
Qed.

Lemma key_steps_base d nid w w' : rtc (key_step d nid) w w' → base w → base w' ∧ kw_now w ≤ kw_now w'.
Proof.
  induction 1 as [w | w w1 w2 Hs _ IH]; intros Hb; [split; [done | lia] |].
  destruct IH as [Hb' Ht]; [by eapply key_step_base |]. pose proof (ks_time _ _ _ _ Hs). split; [done | lia].
Qed.

Lemma key_steps_fresh d nid nid' w w' : nid' ≠ nid → rtc (key_step d nid') w w' → fresh_id nid w → fresh_id nid w'.
Proof.
  intros Hne. induction 1 as [w | w w1 w2 Hs _ IH]; intros Hf; [done |]. apply IH.
  unfold fresh_id. by rewrite (ks_ids _ _ _ _ Hs) by done.
Qed.

Lemma rely_stable nid w w' :
  rtc (key_rely nid) w w' → base w → base w' ∧ kw_now w ≤ kw_now w' ∧ (fresh_id nid w → fresh_id nid w').
Proof.
  induction 1 as [w | w w1 w2 (d & nid' & Hne & Hg) _ IH]; intros Hb; [split_and!; [done | lia | done] |].
  destruct (key_steps_base _ _ _ _ Hg Hb) as [Hb1 Ht1]. destruct (IH Hb1) as (? & ? & Hf).
  split_and!; [done | lia |]. intros Hfr. apply Hf. by eapply key_steps_fresh.
Qed.

(** ** Rules for the actions of the engine *)

Section rules.
Context (d : KeyDomain) (nid : string).
Abbreviation verified Q p w := (rg (key_rely nid) (key_guar d nid) Q p w) (only parsing).

(** Postconditions that other calls cannot falsify. *)
Definition stable {A} (Q : A → key_world → Prop) : Prop :=
  ∀ a w w', base w → Q a w → rtc (key_rely nid) w w' → Q a w'.

(** The two assertions threaded through a call: before and after it has stored
    its key. *)
Definition ready (w : key_world) : Prop := base w ∧ fresh_id nid w.

Lemma ready_stable w w' : rtc (key_rely nid) w w' → ready w → ready w' ∧ kw_now w ≤ kw_now w'.
Proof. intros Hr [Hb Hf]. destruct (rely_stable _ _ _ Hr Hb) as (Hb' & Ht & Hf'). split; [split |]; auto. Qed.

Lemma verified_ret {A} (a : A) (Q : A → key_world → Prop) w :
  base w → (∀ w', base w' → kw_now w ≤ kw_now w' → Q a w') → verified Q (Ret a) w.
Proof. intros Hb HQ w1 Hr. destruct (rely_stable _ _ _ Hr Hb) as (? & ? & _). by apply HQ. Qed.

Lemma verified_now dt w :
  ready w → verified (λ t w', ready w' ∧ kw_now w ≤ t ∧ t ≤ kw_now w') (time_Now dt) w.
Proof.
  intros Hrd. apply rg_act.
  - intros w1 Hr. apply rtc_once. split; [| split; by left].
    split; simpl; [lia | done | constructor | done | by right].
  - intros w1 w2 Hr1 Hr2. simpl. destruct (ready_stable _ _ Hr1 Hrd) as [Hrd1 ?].
    assert (ready (set_now (kw_now w1 + Z.of_N dt) w1)) as Hrd2 by done.
    destruct (ready_stable _ _ Hr2 Hrd2) as [? Ht]. simpl in Ht. split_and!; [done | lia | done].
Qed.

Lemma verified_now_base dt w : base w → verified (λ _ w', base w') (time_Now dt) w.
Proof.
  intros Hb. apply rg_act.
  - intros w1 _. apply rtc_once. split; [| split; by left]. split; simpl; [lia | done | constructor | done | by right].
  - intros w1 w2 Hr1 Hr2. simpl in *. destruct (rely_stable _ _ _ Hr1 Hb) as (Hb1 & _).
    apply (rely_stable _ _ _ Hr2). done.
Qed.

(** What a store operation must satisfy to be a step of the call. *)
Definition store_step (now : time) (s s' : SigningKeyStore) : Prop :=
  (store_wf s → store_wf s') ∧ ring_step now d (ring s) (ring s') ∧
  (∀ i, i ≠ nid → sk_byID s' !! i = sk_byID s !! i) ∧
  (sk_version s' = sk_version s + 1 ∨ s' = s).

Lemma store_step_refl now s : store_step now s s.
Proof. split_and!; [done | constructor | done | by right]. Qed.

(** A repository call that keeps the fresh id fresh, or stores the key. *)
Lemma verified_repo {A} (f : SigningKeyStore → SigningKeyStore * A) (Q : A → key_world → Prop) w :
  ready w →
  (∀ w1, ready w1 → kw_now w ≤ kw_now w1 → store_step (kw_now w1) (kw_store w1) (f (kw_store w1)).1) →
  (∀ w1 w2, ready w1 → kw_now w ≤ kw_now w1 → base (set_store (f (kw_store w1)).1 w1) →
     rtc (key_rely nid) (set_store (f (kw_store w1)).1 w1) w2 → base w2 → Q (f (kw_store w1)).2 w2) →
  verified Q (repo f) w.
Proof.
  intros Hrd Hstep HQ.
  assert (∀ w1, rtc (key_rely nid) w w1 → key_step d nid w1 (set_store (f (kw_store w1)).1 w1)) as Hks.
  { intros w1 Hr. destruct (ready_stable _ _ Hr Hrd) as [Hrd1 Ht]. destruct (Hstep w1 Hrd1 Ht) as (? & ? & ? & ?).
    split; simpl; [lia | done | done | done | done]. }
  apply rg_act.
  - intros w1 Hr. specialize (Hks w1 Hr). destruct (f (kw_store w1)) as [s' a].
    apply rtc_once. split; [done | split; by left].
  - intros w1 w2 Hr1 Hr2. specialize (Hks w1 Hr1). specialize (HQ w1 w2).
    destruct (ready_stable _ _ Hr1 Hrd) as [Hrd1 Ht]. destruct (f (kw_store w1)) as [s' a]. simpl in *.
    assert (base (set_store s' w1)) as Hb by (eapply key_step_base; [done | apply Hrd1]).
    apply HQ; try done. by destruct (rely_stable _ _ _ Hr2 Hb).
Qed.

(** A read. *)
Lemma verified_read {A} (g : SigningKeyStore → A) w :
  ready w → verified (λ a w', ready w' ∧ kw_now w ≤ kw_now w') (repo (λ s, (s, g s))) w.
Proof.
  intros Hrd. apply verified_repo; [done | intros; apply store_step_refl |].
  intros w1 w2 Hrd1 Ht _ Hr _. assert (ready (set_store (kw_store w1) w1)) as Hrd2 by done.
  destruct (ready_stable _ _ Hr Hrd2) as [? Ht2]. split; [done |]. simpl in Ht2. lia.
Qed.

Lemma verified_read_base {A} (g : SigningKeyStore → A) w :
  base w → verified (λ _ w', base w') (repo (λ s, (s, g s))) w.
Proof.
  intros Hb. apply rg_act.
  - intros w1 _. apply rtc_once. split; [| split; by left]. split; simpl; [lia | done | constructor | done | by right].
  - intros w1 w2 Hr1 Hr2. destruct (rely_stable _ _ _ Hr1 Hb) as (Hb1 & _). by apply (rely_stable _ _ _ Hr2).
Qed.

(** *** The mutating operations are steps *)

Lemma refines_step {A} now s (out : SigningKeyStore * result key_error A) spec :
  refines s out spec → ring_step now d (ring s) spec.1 →
  (∀ i, i ≠ nid → sk_byID out.1 !! i = sk_byID s !! i) → store_step now s out.1.
Proof. intros (Hwf & Heq & Hv) Hstep Hid. rewrite <-Heq in Hstep. by split_and!. Qed.

Lemma create_step now key s :
  store_wf s → sk_byID s !! nid = None → sk_ID key = nid → sk_KeyDomain key = d →
  sk_IsCurrent key = false → sk_RemovedAt key = None → store_step now s (key_createLocked key s).1.
Proof.
  intros Hwf Hid Hn Hd Hc Hr. rewrite <-Hn in Hid.
  eapply refines_step; [by apply key_create_refines | by apply ring_step_create |].
  intros i Hi. unfold key_createLocked. repeat split_match; try done. simpl. rewrite lookup_insert_ne; [done | simpl; congruence].
Qed.

Lemma create_current_step iter now key s :
  valid_id_order iter → store_wf s → sk_byID s !! nid = None → sk_ID key = nid → sk_KeyDomain key = d →
  sk_RemovedAt key = None → store_step now s (createAndSetCurrentLocked iter key s).1.
Proof.
  intros Hi Hwf Hid Hn Hd Hr. rewrite <-Hn in Hid.
  eapply refines_step; [by apply create_current_refines | by apply ring_step_create_current |].
  intros i Hne. unfold createAndSetCurrentLocked. repeat split_match; try done. simpl. rewrite lookup_insert_ne; [done | simpl; congruence].
Qed.

Lemma promote_step iter now kid t s :
  valid_id_order iter → store_wf s → t ≤ now → store_step now s (setCurrentInDomainLocked iter d kid t s).1.
Proof.
  intros Hi Hwf Ht. eapply refines_step; [by apply promote_refines | by apply ring_step_promote |].
  intros i Hne. unfold setCurrentInDomainLocked. by repeat split_match.
Qed.

Lemma delete_step iter now kid s :
  valid_id_order iter → store_wf s → store_step now s (deleteInDomainLocked iter now d kid s).1.
Proof.
  intros Hi Hwf. eapply refines_step; [by apply delete_refines | by apply ring_step_delete, range_keys_enumerates |].
  intros i Hne. unfold deleteInDomainLocked. by repeat split_match.
Qed.

Lemma backfill_step now kid b s :
  store_wf s → (∀ k, ring s !! kid = Some k → sk_KeyDomain k = d) → store_step now s (setPublicJWKLocked kid b s).1.
Proof.
  intros Hwf Hd. destruct (ring s !! kid) as [k |] eqn:Hk.
  - eapply refines_step; [by apply backfill_refines | eapply ring_step_backfill; by eauto |].
    intros i Hne. unfold setPublicJWKLocked. by repeat split_match.
  - unfold setPublicJWKLocked. apply byKID_ring in Hk; [| done]. rewrite Hk. apply store_step_refl.
Qed.

(** *** Calls of the engine *)

Abbreviation done_ok := (λ _ w, base w) (only parsing).
Abbreviation valid_orders e := (∀ n, valid_id_order (e_iter e n)) (only parsing).

Lemma verified_promote iter kid t w :
  valid_id_order iter → ready w → t ≤ kw_now w →
  verified done_ok (SetCurrentInDomain iter d kid t) w.
Proof.
  intros Hi Hrd Ht. apply verified_repo; [done | | done].
  intros w1 [[Hwf _] _] Ht1. apply promote_step; [done | done | lia].
Qed.

Lemma verified_delete iter dt kid w :
  valid_id_order iter → ready w → verified done_ok (repo_Delete iter dt d kid) w.
Proof.
  intros Hi Hrd.
  assert (∀ w1, rtc (key_rely nid) w w1 → let t := kw_now w1 + Z.of_N dt in
    key_step d nid w1 (set_store (deleteInDomainLocked iter t d kid (kw_store w1)).1 (set_now t w1))) as Hks.
  { intros w1 Hr t. destruct (ready_stable _ _ Hr Hrd) as [[[Hwf _] _] Ht].
    destruct (delete_step iter t kid (kw_store w1) Hi Hwf) as (? & ? & ? & ?).
    split; simpl; [lia | done | done | done | done]. }
  apply rg_act.
  - intros w1 Hr. specialize (Hks w1 Hr). simpl in *. destruct (deleteInDomainLocked _ _ _ _ _) as [s' a].
    apply rtc_once. split; [done | split; by left].
  - intros w1 w2 Hr1 Hr2. specialize (Hks w1 Hr1). destruct (ready_stable _ _ Hr1 Hrd) as [[Hb1 _] _]. simpl in *.
    destruct (deleteInDomainLocked _ _ _ _ _) as [s' a]. simpl in *.
    apply (rely_stable _ _ _ Hr2). by eapply key_step_base.
Qed.

Lemma verified_fail {A} (a : A) w : base w → verified done_ok (Ret a) w.
Proof. intros Hb. by apply verified_ret. Qed.

Lemma verified_engine_Delete e policy kid now w :
  valid_orders e → pol_Domain policy = d → ready w → verified done_ok (engine_Delete e policy kid now) w.
Proof.
  intros Hi Hd Hrd. unfold engine_Delete. rewrite Hd. destruct (negb _); [by apply verified_fail, Hrd |].
  eapply rg_pbind; [by apply verified_read |]. intros [key | x] w1 [Hrd1 _]; [| by apply verified_fail, Hrd1].
  eapply rg_pbind; [by apply verified_read |]. intros [count | x] w2 [Hrd2 _]; [| by apply verified_fail, Hrd2].
  destruct (bool_decide _); [by apply verified_fail, Hrd2 |].
  destruct (sk_IsCurrent key); [by apply verified_fail, Hrd2 |].
  eapply rg_pbind; [by apply verified_read |]. intros [keys | x] w3 [Hrd3 _]; [| by apply verified_fail, Hrd3].
  destruct (is_kid _ _); [by apply verified_fail, Hrd3 | by apply verified_delete].
Qed.

Lemma verified_Generate e policy algorithm isCurrent activatesAt w :
  valid_orders e → pol_Domain policy = d → e_newID e = nid → ready w →
  verified done_ok (GenerateAndStore e policy algorithm isCurrent activatesAt) w.
Proof.
  intros Hi Hd Hn Hrd. unfold GenerateAndStore.
  destruct (prepare_key _ _ _) as [[[kid pub] cipher] | x]; [| by apply verified_fail, Hrd].
  eapply (rg_pbind _ _ (λ _ w', ready w')).
  { destruct (IsZero activatesAt).
    - eapply rg_pbind; [by apply verified_now |]. intros now w1 [Hrd1 _] w2 Hr. by apply (ready_stable _ _ Hr).
    - intros w1 Hr. by apply (ready_stable _ _ Hr). }
  intros act w1 Hrd1. eapply rg_pbind; [by apply verified_now |]. intros created w2 [Hrd2 _].
  eapply (rg_pbind _ _ (λ _ w', base w')).
  { apply verified_repo; [done | | done]. intros w3 [[Hwf _] Hf] _. destruct isCurrent.
    - by apply create_current_step.
    - by apply create_step. }
  intros [? | x] w3 Hb; by apply verified_fail.
Qed.

(** A critical section: the callback runs alone. *)
Lemma verified_run {A} (fn : prog key_world A) w :
  verified done_ok fn w → key_guar d nid w (run fn w).1 ∧ base (run fn w).1.
Proof.
  intros Hfn. destruct (rg_run _ _ _ _ _ Hfn) as [Hg Hb]. split; [| done].
  clear -Hg. induction Hg as [| ? ? ? Hs _ IH]; [done | by etrans].
Qed.

Lemma verified_lock {A} e (none : A) fn w :
  ready w → (∀ w1, ready w1 → kw_now w ≤ kw_now w1 → verified done_ok fn w1) →
  verified done_ok (WithBootstrapLock e none fn) w.
Proof.
  intros Hrd Hfn. unfold WithBootstrapLock. destruct (e_lock e); [by apply verified_fail, Hrd |].
  assert (∀ w1, rtc (key_rely nid) w w1 → key_guar d nid w1 (run fn w1).1 ∧ base (run fn w1).1) as Hrun.
  { intros w1 Hr. destruct (ready_stable _ _ Hr Hrd) as [Hrd1 Ht]. by apply verified_run, Hfn. }
  apply rg_act; [intros w1 Hr; by apply Hrun |].
  intros w1 w2 Hr1 Hr2. destruct (Hrun w1 Hr1) as [_ Hb]. apply (rely_stable _ _ _ Hr2 Hb).
Qed.

Lemma verified_callback e policy activatesAt w :
  valid_orders e → pol_Domain policy = d → e_newID e = nid → ready w →
  verified done_ok (ensure_callback e policy activatesAt) w.
Proof.
  intros Hi Hd Hn Hrd. unfold ensure_callback.
  eapply rg_pbind; [by apply verified_read |]. intros [count | x] w2 [Hrd2 _]; [| by apply verified_fail, Hrd2].
  destruct (bool_decide _); [by apply verified_fail, Hrd2 |].
  eapply rg_pbind; [by apply verified_Generate |]. intros [key | x] w3 Hb; by apply verified_fail.
Qed.

Lemma verified_ensure e policy activatesAt w :
  valid_orders e → pol_Domain policy = d → e_newID e = nid → ready w →
  verified done_ok (EnsureInitialKey e policy activatesAt) w.
Proof.
  intros Hi Hd Hn Hrd. unfold EnsureInitialKey. eapply (rg_pbind _ _ (λ _ w', base w')).
  { apply verified_lock; [done |]. intros w1 Hrd1 _. by apply verified_callback. }
  intros [created [err |]] w1 Hb; [| by apply verified_fail].
  destruct (_ || _); [| by apply verified_fail].
  eapply rg_pbind; [by apply verified_read_base |]. intros [count | x] w2 Hb2; [| by apply verified_fail].
  by destruct (bool_decide _); apply verified_fail.
Qed.

Lemma verified_initial e policy first later w :
  valid_orders e → pol_Domain policy = d → e_newID e = nid → ready w →
  verified done_ok (GenerateWithInitialActivation e policy first later) w.
Proof.
  intros Hi Hd Hn Hrd. unfold GenerateWithInitialActivation. eapply (rg_pbind _ _ (λ _ w', base w')).
  { apply verified_lock; [done |]. intros w1 Hrd1 _.
    eapply rg_pbind; [by apply verified_read |]. intros [count | x] w2 [Hrd2 _]; [| by apply verified_fail, Hrd2].
    eapply rg_pbind; [by apply verified_Generate |]. intros [key | x] w3 Hb; by apply verified_fail. }
  intros [[key |] [err |]] w1 Hb; by apply verified_fail.
Qed.

(** Invalidating a cache, the signer included. *)
Lemma verified_caches (f : key_world → key_world) w :
  base w →
  (∀ w, kw_store (f w) = kw_store w ∧ kw_now (f w) = kw_now w ∧
        cache_kept (kw_jwks w) (kw_jwks (f w)) ∧ cache_kept (kw_public w) (kw_public (f w))) →
  verified done_ok (act (λ w, (f w, ()))) w.
Proof.
  intros Hb Hf. apply rg_act.
  - intros w1 _. destruct (Hf w1) as (Hs & Ht & Hj & Hp). apply rtc_once. split; [| done].
    split; simpl; rewrite ?Hs, ?Ht; [lia | done | constructor | done | by right].
  - intros w1 w2 Hr1 Hr2. destruct (rely_stable _ _ _ Hr1 Hb) as (Hb1 & _). destruct (Hf w1) as (Hs & _).
    apply (rely_stable _ _ _ Hr2). unfold base in *. simpl. by rewrite Hs.
Qed.

Lemma verified_invalidate {A} (a : A) w :
  base w → verified done_ok (pbind invalidateJWKSCache (λ _, pbind invalidateSigner (λ _, Ret a))) w.
Proof.
  intros Hb. eapply rg_pbind; [apply verified_caches; [done |]; intros; split_and!; [done | done | by right | by left] |].
  intros [] w1 Hb1. eapply rg_pbind; [apply verified_caches; [done |]; intros; split_and!; [done | done | by left | by left] |].
  intros [] w2 Hb2. by apply verified_fail.
Qed.

Lemma verified_invalidate_public {A} (a : A) w :
  base w → verified done_ok (pbind invalidatePublicJWKCache (λ _, Ret a)) w.
Proof.
  intros Hb. eapply rg_pbind; [apply verified_caches; [done |]; intros; split_and!; [done | done | by left | by right] |].
  intros [] w1 Hb1. by apply verified_fail.
Qed.

(** *** Building the published set *)

(** The kid names a key of the domain. *)
Definition in_domain (kid : KeyID) (w : key_world) : Prop :=
  ∃ k, ring (kw_store w) !! kid = Some k ∧ sk_KeyDomain k = d.

Lemma in_domain_steps d' nid' kid w w' :
  rtc (key_step d' nid') w w' → base w → in_domain kid w → in_domain kid w'.
Proof.
  induction 1 as [w | w w1 w2 Hs _ IH]; intros Hb (k & Hk & Hd); [by exists k |].
  apply IH; [by eapply key_step_base |]. destruct Hb as [_ Hok].
  destruct (ring_step_domain _ _ _ _ _ _ Hok (ks_ring _ _ _ _ Hs) Hk) as (k' & ? & ?). exists k'. split; congruence.
Qed.

Lemma in_domain_stable kid w w' :
  rtc (key_rely nid) w w' → base w → in_domain kid w → in_domain kid w'.
Proof.
  induction 1 as [w | w w1 w2 (d' & nid' & _ & Hs) _ IH]; intros Hb Hd; [done |].
  apply IH; [by eapply key_steps_base | by eapply in_domain_steps].
Qed.

Lemma verified_backfill kid b w :
  base w → in_domain kid w → verified done_ok (SetPublicJWK kid b) w.
Proof.
  intros Hb Hd.
  assert (∀ w1, rtc (key_rely nid) w w1 →
    key_step d nid w1 (set_store (setPublicJWKLocked kid (Some b) (kw_store w1)).1 w1) ∧ base w1) as Hks.
  { intros w1 Hr. destruct (rely_stable _ _ _ Hr Hb) as ([Hwf ?] & _).
    destruct (in_domain_stable _ _ _ Hr Hb Hd) as (k & Hk & Hkd).
    destruct (backfill_step (kw_now w1) kid (Some b) (kw_store w1) Hwf) as (? & ? & ? & ?); [naive_solver |].
    split; [| done]. split; simpl; [lia | done | done | done | done]. }
  apply rg_act.
  - intros w1 Hr. destruct (Hks w1 Hr) as [Hk _]. simpl. destruct (setPublicJWKLocked _ _ _) as [s' a].
    apply rtc_once. split; [done | split; by left].
  - intros w1 w2 Hr1 Hr2. destruct (Hks w1 Hr1) as [Hk Hb1]. simpl in *.
    destruct (setPublicJWKLocked _ _ _) as [s' a]. apply (rely_stable _ _ _ Hr2). by eapply key_step_base.
Qed.

(** The world keeps its invariant and [kids] stay in the domain. *)
Definition building (kids : list KeyID) (w : key_world) : Prop := base w ∧ Forall (λ kid, in_domain kid w) kids.

Lemma building_stable kids w w' : rtc (key_rely nid) w w' → building kids w → building kids w'.
Proof.
  intros Hr [Hb Hall]. split; [by apply (rely_stable _ _ _ Hr) |].
  eapply Forall_impl; [exact Hall |]. intros kid Hk. by eapply in_domain_stable.
Qed.

(** [building] also survives the call's own steps. *)
Lemma verified_building {A} kids (p : prog key_world A) w :
  building kids w → verified done_ok p w → verified (λ _ w', building kids w') p w.
Proof.
  revert w. induction p as [a | X f k IH]; intros w Hbd Hp w1 Hr; simpl in *.
  - by eapply building_stable.
  - destruct (Hp w1 Hr) as [HG Hk]. split; [done |]. apply IH; [| done].
    destruct (building_stable _ _ _ Hr Hbd) as [Hb1 Hall]. apply key_guar_steps in HG.
    split; [by eapply key_steps_base |]. eapply Forall_impl; [exact Hall |]. intros kid. by eapply in_domain_steps.
Qed.

Lemma verified_publicJWK dec key w :
  base w → in_domain (sk_KID key) w → verified done_ok (publicJWKForSigningKey dec key) w.
Proof.
  intros Hb Hd. unfold publicJWKForSigningKey. destruct (stored_public key); [by apply verified_fail |].
  destruct (_ ≫= _) as [[j b] | x]; [| by apply verified_fail].
  eapply rg_pbind; [by apply verified_backfill |]. intros [[] | x] w1 Hb1; [by apply verified_fail | |].
  - eapply rg_pbind; [by apply verified_read_base |]. intros r w2 Hb2. by apply verified_fail.
  - destruct (IsNotFoundErr x); by apply verified_fail.
Qed.

Lemma verified_publicKey dec key w :
  base w → in_domain (sk_KID key) w → verified done_ok (publicJWKForKey dec key) w.
Proof.
  intros Hb Hd. unfold publicJWKForKey. eapply (rg_pbind _ _ (λ _ w', base w'));
    [| intros r w1 Hb1; by apply verified_fail].
  unfold cimdPublicJSON. destruct (stored_public key); [by apply verified_fail |].
  destruct (_ ≫= _) as [b | x]; [| by apply verified_fail].
  eapply rg_pbind; [by apply verified_backfill |]. intros [[] | x] w1 Hb1; [by apply verified_fail | | by apply verified_fail].
  eapply rg_pbind; [by apply verified_read_base |]. intros r w2 Hb2. by apply verified_fail.
Qed.

Lemma verified_collect dec keys set kids w :
  building (sk_KID <$> keys) w → verified done_ok (collect_keys dec keys set kids) w.
Proof.
  revert set kids w. induction keys as [| key keys IH]; intros set kids w [Hb Hall]; cbn [collect_keys].
  { by apply verified_fail. }
  apply Forall_cons in Hall as [Hd Hall].
  eapply rg_pbind; [apply (verified_building (sk_KID <$> keys)); [done | by apply verified_publicJWK] |].
  intros [j | x] w1 Hbd; [destruct (jwk_AddKey set j) |]; by apply IH.
Qed.

Lemma verified_collect_cimd dec keys set w :
  building (sk_KID <$> keys) w → verified done_ok (collect_cimd dec keys set) w.
Proof.
  revert set w. induction keys as [| key keys IH]; intros set w [Hb Hall]; cbn [collect_cimd].
  { by apply verified_fail. }
  apply Forall_cons in Hall as [Hd Hall]. destruct (bool_decide _); [by apply IH |].
  eapply rg_pbind; [apply (verified_building (sk_KID <$> keys)); [done | by apply verified_publicKey] |].
  intros r w1 Hbd. destruct (_ ≫= _); [by apply IH | by apply verified_fail, Hbd].
Qed.

(** Listing yields keys of the domain. *)
Lemma verified_list iter w :
  valid_id_order iter → base w →
  verified (λ r w', base w' ∧ match r with Ok keys => building (sk_KID <$> keys) w' | Err _ => True end)
    (ListActiveInDomain iter d) w.
Proof.
  intros Hi Hb. apply rg_act.
  - intros w1 _. apply rtc_once. split; [| split; by left]. split; simpl; [lia | done | constructor | done | by right].
  - intros w1 w2 Hr1 Hr2. simpl in *. destruct (rely_stable _ _ _ Hr1 Hb) as ([Hwf Hok] & _).
    assert (building (sk_KID <$> listActiveInDomainLocked iter d (kw_store w1)) w1) as Hbd.
    { split; [done |]. rewrite (list_active_refines _ _ _ Hi Hwf). apply Forall_fmap, Forall_forall.
      intros k [Ha Hk]%list_elem_of_filter. apply (range_keys_elem _ _ _ Hi Hwf) in Hk.
      apply active_in_inv in Ha as [? _]. by exists k. }
    assert (building (sk_KID <$> listActiveInDomainLocked iter d (kw_store w1)) w2) as Hbd2
      by (by eapply building_stable). split; [apply Hbd2 | done].
Qed.

Lemma verified_build v iter dt dec w :
  valid_id_order iter → domain_of v = d → base w → verified done_ok (build v iter dt dec) w.
Proof.
  intros Hi Hd Hb. destruct v; cbn [domain_of build] in *.
  - unfold buildJWKS. rewrite Hd. eapply rg_pbind; [by apply verified_list |].
    intros [keys | x] w1 [Hb1 Hbd]; [| by apply verified_fail].
    eapply rg_pbind; [by apply verified_collect |]. intros [set kids] w2 Hb2.
    eapply rg_pbind; [by apply verified_now_base |]. intros t w3 Hb3. by apply verified_fail.
  - unfold buildPublicJWKSet. rewrite Hd. eapply rg_pbind; [by apply verified_list |].
    intros [keys | x] w1 [Hb1 Hbd]; [| by apply verified_fail].
    eapply rg_pbind; [by apply verified_collect_cimd |]. intros r w2 Hb2. by apply verified_fail.
Qed.

(** *** Every call of the two services *)

Lemma verified_discard {A} (p : prog key_world A) w : verified done_ok p w → verified done_ok (discard p) w.
Proof. intros Hp. eapply rg_pbind; [exact Hp |]. intros a w1 Hb. by apply verified_fail. Qed.

Lemma verified_clocked {A} (dt : N) (g : time → prog key_world A) w :
  ready w → (∀ t w1, ready w1 → t ≤ kw_now w1 → verified done_ok (g t) w1) →
  verified done_ok (pbind (time_Now dt) g) w.
Proof.
  intros Hrd Hg. eapply rg_pbind; [by apply verified_now |]. intros t w1 (Hrd1 & _ & Ht). by apply Hg.
Qed.

Lemma verified_engine_Promote e policy kid t w :
  valid_orders e → pol_Domain policy = d → ready w → t ≤ kw_now w →
  verified done_ok (engine_Promote e policy kid t) w.
Proof.
  intros Hi Hd Hrd Ht. unfold engine_Promote. rewrite Hd.
  destruct (KeyDomain_Validate d); [by apply verified_promote | by apply verified_fail, Hrd].
Qed.

Lemma verified_engine_List e policy w :
  valid_orders e → pol_Domain policy = d → ready w → verified done_ok (engine_List e policy) w.
Proof.
  intros Hi Hd [Hb _]. unfold engine_List. rewrite Hd.
  destruct (KeyDomain_Validate d); [by apply verified_read_base | by apply verified_fail].
Qed.

Lemma verified_call e call w :
  valid_orders e → domain_of (call_service call) = d → e_newID e = nid → ready w →
  verified done_ok (exec_call e call) w.
Proof.
  intros Hi Hd Hn Hrd. destruct call as [alg cur | [] kid | [] kid | [] alg | [] | alg | v dec];
    cbn [call_service domain_of exec_call] in *; apply verified_discard.
  - eapply rg_pbind; [by apply verified_Generate |].
    intros [key | x] w1 Hb; [by apply verified_invalidate | by apply verified_fail].
  - apply verified_clocked; [done |]. intros t w1 Hrd1 Ht. eapply rg_pbind; [by apply verified_engine_Promote |].
    intros [key | x] w2 Hb; [by apply verified_invalidate | by apply verified_fail].
  - apply verified_clocked; [done |]. intros t w1 Hrd1 Ht. eapply rg_pbind; [by apply verified_engine_Promote |].
    intros [key | x] w2 Hb; [by apply verified_invalidate_public | by apply verified_fail].
  - apply verified_clocked; [done |]. intros t w1 Hrd1 Ht. eapply rg_pbind; [by apply verified_engine_Delete |].
    intros [[] | x] w2 Hb; [by apply verified_invalidate | by apply verified_fail].
  - apply verified_clocked; [done |]. intros t w1 Hrd1 Ht. eapply rg_pbind; [by apply verified_engine_Delete |].
    intros [[] | x] w2 Hb; [by apply verified_invalidate_public | by apply verified_fail].
  - unfold service_EnsureInitialKey. destruct (bool_decide _); [| by apply verified_fail, Hrd].
    apply verified_clocked; [done |]. intros t w1 Hrd1 Ht. eapply rg_pbind; [by apply verified_ensure |].
    intros [key | x] w2 Hb; by apply verified_fail.
  - apply verified_clocked; [done |]. intros t w1 Hrd1 Ht. eapply rg_pbind; [by apply verified_ensure |].
    intros [[key |] | x] w2 Hb; [by apply verified_invalidate_public | by apply verified_fail | by apply verified_fail].
  - by apply verified_engine_List.
  - by apply verified_engine_List.
  - unfold cimd_GenerateKey. destruct (bool_decide _); [| by apply verified_fail, Hrd].
    apply verified_clocked; [done |]. intros t w1 Hrd1 Ht. eapply rg_pbind; [by apply verified_initial |].
    intros [key | x] w2 Hb; [by apply verified_invalidate_public | by apply verified_fail].
  - apply verified_build; [done | done | apply Hrd].
Qed.
End rules.

(** ** Concurrent calls *)

(** Concurrent calls with distinct new ids that the store does not hold. *)
Record admissible (w : key_world) (calls : list (key_env * key_call)) : Prop := {
  adm_orders e c : (e, c) ∈ calls → ∀ n, valid_id_order (e_iter e n);
  adm_fresh e c : (e, c) ∈ calls → fresh_id (e_newID e) w;
  adm_distinct : NoDup ((λ ec, e_newID ec.1) <$> calls);
}.

Definition progs (calls : list (key_env * key_call)) : list (prog key_world unit) :=
  (λ ec, exec_call ec.1 ec.2) <$> calls.

(** The guarantee of the [i]-th call. *)
Definition guar_of (calls : list (key_env * key_call)) (i : nat) (w w' : key_world) : Prop :=
  ∃ ec, calls !! i = Some ec ∧ key_guar (domain_of (call_service ec.2)) (e_newID ec.1) w w'.

Lemma pool_verified w calls :
  base w → admissible w calls →
  pool_rg (guar_of calls) (λ _ _ w, base w) (w, progs calls).
Proof.
  intros Hb Hadm i p Hp. unfold progs in Hp. simpl in *. apply list_lookup_fmap_Some in Hp as ([e c] & -> & Hec). simpl.
  assert ((e, c) ∈ calls) as Hin by (by eapply list_elem_of_lookup_2).
  eapply (rg_mono (key_rely (e_newID e)) _ (key_guar (domain_of (call_service c)) (e_newID e))).
  - intros w1 w2 (j & Hji & [e' c'] & Hj & Hg). simpl in *. eexists _, (e_newID e').
    split; [| by apply key_guar_steps].
    intros E. apply Hji. eapply (NoDup_lookup _ _ _ (e_newID e) (adm_distinct _ _ Hadm));
      apply list_lookup_fmap_Some; [exists (e', c') | exists (e, c)]; split; simpl; congruence.
  - intros w1 w2 Hg. by exists (e, c).
  - apply verified_call; [by eapply (adm_orders _ _ Hadm) | done | done | split; [done |]; by eapply (adm_fresh _ _ Hadm)].
Qed.

(** A property every step keeps holds along any interleaving. *)
Lemma calls_preserve (P : key_world → Prop) w calls c :
  base w → admissible w calls → rtc pool_step (w, progs calls) c → P w →
  (∀ e call nid w w', (e, call) ∈ calls → base w → key_step (domain_of (call_service call)) nid w w' → P w → P w') →
  base c.1 ∧ P c.1.
Proof.
  intros Hb Hadm Hsteps HP Hpres.
  destruct (pool_rg_steps _ _ _ _ Hsteps (pool_verified _ _ Hb Hadm)) as [Hg _]. simpl in Hg.
  clear Hadm Hsteps. induction Hg as [w | w w1 w2 (i & [e call] & Hi & Hg) _ IH]; [done |].
  apply list_elem_of_lookup_2 in Hi. apply key_guar_steps in Hg. simpl in *.
  assert (base w1 ∧ P w1) as [? ?]; [| by apply IH].
  clear IH. induction Hg as [w | w wa wb Hs _ IH]; [done |].
  apply IH; [by eapply key_step_base | by eapply Hpres].
Qed.

Lemma can_sign_key_step d d' nid w w' :
  base w → key_step d' nid w w' →
  can_sign d (kw_now w) (ring (kw_store w)) → can_sign d (kw_now w') (ring (kw_store w')).
Proof.
  intros [_ Hok] Hs Hc. eapply can_sign_step; [done | apply (ks_ring _ _ _ _ Hs) |].
  eapply can_sign_later; [apply (ks_time _ _ _ _ Hs) | done].
Qed.

(** Claim C9.  Signing is never interrupted: when a key domain has a key that may
    sign, then after any interleaving of concurrent generations, promotions,
    deletions, bootstraps and publications of both services, reading the current
    key still succeeds, and the key it returns belongs to the domain, is not
    removed, is past its activation time and is the preferred one: the current key
    if that is active, else the most recently activated. *)
Theorem signing_never_interrupted w calls c d iter :
  base w → admissible w calls → rtc pool_step (w, progs calls) c →
  can_sign d (kw_now w) (ring (kw_store w)) → valid_id_order iter →
  ∃ k, getCurrentInDomainLocked iter (kw_now c.1) d (kw_store c.1) = Ok k ∧
    sk_KeyDomain k = d ∧ sk_RemovedAt k = None ∧ sk_ActivatesAt k ≤ kw_now c.1 ∧
    ∀ k', key_at (kw_store c.1) (sk_KID k') = Some k' → usable d (kw_now c.1) k' → outranked k' k.
Proof.
  intros Hb Hadm Hsteps Hc Hi.
  destruct (calls_preserve (λ w, can_sign d (kw_now w) (ring (kw_store w))) w calls c) as [[Hwf _] Hs]; try done.
  { intros e call nid w1 w2 _ Hb1 Hs. by apply (can_sign_key_step _ _ _ _ _ Hb1 Hs). }
  destruct (get_current_Ok _ _ _ _ Hi Hwf Hs) as (k & Hk & _ & [[? ?]%active_in_inv ?] & Hmax).
  exists k. split_and!; try done. intros k' Hk'. apply Hmax. by rewrite ring_lookup.
Qed.

(** Under every interleaving of the services' calls the two indices of
    the store agree (each entry of either index points to the object the other
    finds), a domain never has two current keys, and a current key is never a
    removed one. *)
Theorem one_current_key w calls c :
  base w → admissible w calls → rtc pool_step (w, progs calls) c →
  let s := kw_store c.1 in
  (∀ kid p, sk_byKID s !! kid = Some p ↔
     ∃ k, sk_objects s !! p = Some k ∧ sk_KID k = kid ∧ sk_byID s !! sk_ID k = Some p) ∧
  (∀ kid k, key_at s kid = Some k →
     KeyDomain_Validate (sk_KeyDomain k) = true ∧ (sk_IsCurrent k = true → sk_RemovedAt k = None)) ∧
  (∀ kid1 kid2 k1 k2, key_at s kid1 = Some k1 → key_at s kid2 = Some k2 →
     sk_KeyDomain k1 = sk_KeyDomain k2 → sk_IsCurrent k1 = true → sk_IsCurrent k2 = true → kid1 = kid2).
Proof.
  intros Hb Hadm Hsteps. destruct (calls_preserve (λ _, True) w calls c) as [[Hwf Hok] _]; try done. cbv zeta.
  split_and!.
  - intros kid p. split; [by apply wf_byKID |]. intros (k & Hk & <- & Hid).
    destruct (wf_byID _ Hwf _ _ Hid) as (k' & ? & _ & ?). by simplify_eq.
  - intros kid k. rewrite <-ring_lookup. intros Hk. destruct (ok_kid _ Hok _ _ Hk).
    split; [done |]. by apply (ok_active _ Hok _ _ Hk).
  - intros kid1 kid2 k1 k2. rewrite <-!ring_lookup. intros H1 H2.
    destruct (ok_kid _ Hok _ _ H1) as [<- _], (ok_kid _ Hok _ _ H2) as [<- _]. by apply (ok_unique _ Hok).
Qed.

(** The two services do not touch each other's keys: whatever calls of
    one service run concurrently, every key of the other service's domain is
    exactly as before, and no key is added to it. *)
Theorem key_domains_isolated w calls c v d kid k :
  base w → admissible w calls → rtc pool_step (w, progs calls) c →
  Forall (λ ec, call_service ec.2 = v) calls → d ≠ domain_of v → sk_KeyDomain k = d →
  key_at (kw_store c.1) kid = Some k ↔ key_at (kw_store w) kid = Some k.
Proof.
  intros Hb Hadm Hsteps Hv Hd Hk. rewrite <-!ring_lookup.
  destruct (calls_preserve (λ w', ring (kw_store w') !! kid = Some k ↔ ring (kw_store w) !! kid = Some k) w calls c)
    as [_ ?]; try done.
  intros e call nid w1 w2 Hin _ Hs HP. rewrite <-HP.
  eapply ring_step_isolated; [apply (ks_ring _ _ _ _ Hs) |].
  rewrite Forall_forall in Hv. specialize (Hv _ Hin). simpl in Hv. congruence.
Qed.
End lifecycle.

(** ** A concrete instance

    Two token-signing keys, the current one [a] and [b]; a promotion of [b] runs
    against a deletion of [b]. *)

Module Demo.

(** Keys are their own JWKs. *)
#[export] Instance demo_crypto : KeyCrypto := {|
  jwk_key := string; jwk_kid := Some; jwk_alg := λ _, Some "ES256"; jwk_use := λ _, Some "sig";
  jwk_ParseKey := Ok; jwk_PublicKeyOf := Ok; jwk_is_public := λ _, true; jwk_curve := λ _, Some "P-256";
  jwk_is_rsa := λ _, false; jwk_Reimport := Ok; jwk_Describe := λ kid _ _, Ok kid; jwk_Marshal := Ok;
  jwk_Thumbprint := Ok; jwk_AddKey := λ l k, Ok (l ++ [k]); pem_public := λ p, Ok (Some p) |}.

Definition demo_order : id_order := λ m, (map_to_list m).*1.
Lemma demo_order_valid : valid_id_order demo_order.
Proof. intros m. reflexivity. Qed.

Definition demo_env (i : string) : key_env :=
  {| e_iter := λ _, demo_order; e_dt := λ _, 1%N; e_uuid := i; e_newID := i; e_pem := Ok i;
     e_branch := λ _, Ok ""; e_encrypt := λ pem _, Ok pem; e_lock := None |}.

Definition demo_key (i : string) (current : bool) : SigningKey :=
  {| sk_ID := i; sk_KID := i; sk_KeyDomain := KeyDomainTokenSigning; sk_Algorithm := "ES256";
     sk_PrivateKeyEncrypted := i; sk_PublicJWK := Some i; sk_IsCurrent := current; sk_ActivatesAt := 5;
     sk_CreatedAt := 5; sk_RemovedAt := None |}.

Definition demo_store1 : SigningKeyStore := (key_createLocked (demo_key "b" false) NewSigningKeyStore).1.
Definition demo_store : SigningKeyStore :=
  (createAndSetCurrentLocked demo_order (demo_key "a" true) demo_store1).1.
Definition demo_world (s : SigningKeyStore) : key_world :=
  KeyWorld s 10 empty_cache (SignerCache None 0) empty_cache.

Lemma base_new : base (demo_world NewSigningKeyStore).
Proof. split; [apply store_wf_new |]. split; intros; set_solver. Qed.

Lemma base_step d nid now s s' :
  base (demo_world s) → store_step d nid now s s' → base (demo_world s').
Proof. intros [Hwf Hok] (Hwf' & Hr & _). split; [by apply Hwf' | by eapply ring_step_ok]. Qed.

Lemma demo_base : base (demo_world demo_store).
Proof.
  assert (base (demo_world demo_store1)) as H1.
  { apply (base_step KeyDomainTokenSigning "b" 10 NewSigningKeyStore); [apply base_new |].
    by apply create_step; [apply store_wf_new | ..]. }
  apply (base_step KeyDomainTokenSigning "a" 10 demo_store1); [done |].
  apply create_current_step; [apply demo_order_valid | apply H1 | done ..].
Qed.

Definition demo_calls : list (key_env * key_call) :=
  [(demo_env "x", CallPromote TokenSigning "b"); (demo_env "y", CallDelete TokenSigning "b")].

Lemma demo_admissible : admissible (demo_world demo_store) demo_calls.
Proof.
  split.
  - intros e c Hin n. unfold demo_calls in Hin. rewrite !elem_of_cons in Hin.
    destruct Hin as [[= -> ->] | [[= -> ->] | Hin]]; [apply demo_order_valid | apply demo_order_valid | set_solver].
  - intros e c Hin. unfold demo_calls in Hin. rewrite !elem_of_cons in Hin.
    destruct Hin as [[= -> ->] | [[= -> ->] | Hin]]; [reflexivity | reflexivity | set_solver].
  - repeat constructor; set_solver.
Qed.

Definition demo_run : key_world * list (prog key_world unit) :=
  schedule [1; 0; 1; 0; 1; 1; 0; 1; 0; 1; 0; 1]%nat (demo_world demo_store, progs demo_calls).

Lemma signing_never_interrupted_witness :
  ∃ k, getCurrentInDomainLocked demo_order (kw_now demo_run.1) KeyDomainTokenSigning (kw_store demo_run.1) = Ok k ∧
    sk_KeyDomain k = KeyDomainTokenSigning ∧ sk_RemovedAt k = None ∧ sk_ActivatesAt k ≤ kw_now demo_run.1 ∧
    ∀ k', key_at (kw_store demo_run.1) (sk_KID k') = Some k' →
      usable KeyDomainTokenSigning (kw_now demo_run.1) k' → outranked k' k.
Proof.
  apply (signing_never_interrupted (demo_world demo_store) demo_calls);
    [apply demo_base | apply demo_admissible | apply schedule_steps | | apply demo_order_valid].
  exists (demo_key "a" true). split; [reflexivity | split; [reflexivity | simpl; lia]].
Defined.

Lemma one_current_key_witness :
  let s := kw_store demo_run.1 in
  (∀ kid p, sk_byKID s !! kid = Some p ↔
     ∃ k, sk_objects s !! p = Some k ∧ sk_KID k = kid ∧ sk_byID s !! sk_ID k = Some p) ∧
  (∀ kid k, key_at s kid = Some k →
     KeyDomain_Validate (sk_KeyDomain k) = true ∧ (sk_IsCurrent k = true → sk_RemovedAt k = None)) ∧
  (∀ kid1 kid2 k1 k2, key_at s kid1 = Some k1 → key_at s kid2 = Some k2 →
     sk_KeyDomain k1 = sk_KeyDomain k2 → sk_IsCurrent k1 = true → sk_IsCurrent k2 = true → kid1 = kid2).
Proof.
  apply (one_current_key (demo_world demo_store) demo_calls);
    [apply demo_base | apply demo_admissible | apply schedule_steps].
Defined.

(** A third key, of the other service. *)
Definition demo_cimd : SigningKey :=
  {| sk_ID := "z"; sk_KID := "cimd-z"; sk_KeyDomain := KeyDomainCIMDClientAuthentication; sk_Algorithm := "ES256";
     sk_PrivateKeyEncrypted := "z"; sk_PublicJWK := None; sk_IsCurrent := true; sk_ActivatesAt := 5;
     sk_CreatedAt := 5; sk_RemovedAt := None |}.
Definition demo_store3 : SigningKeyStore := (createAndSetCurrentLocked demo_order demo_cimd demo_store).1.

Lemma demo_base3 : base (demo_world demo_store3).
Proof.
  apply (base_step KeyDomainCIMDClientAuthentication "z" 10 demo_store); [apply demo_base |].
  apply create_current_step; [apply demo_order_valid | apply demo_base | done ..].
Qed.

Definition demo_run3 : key_world * list (prog key_world unit) :=
  schedule [1; 0; 1; 0; 1; 1; 0; 1; 0; 1; 0; 1]%nat (demo_world demo_store3, progs demo_calls).

Lemma key_domains_isolated_witness : key_at (kw_store demo_run3.1) "cimd-z" = Some demo_cimd.
Proof.
  assert (admissible (demo_world demo_store3) demo_calls) as Hadm.
  { destruct demo_admissible as [Ho _ Hd]. split; [exact Ho | | exact Hd].
    intros e c Hin. unfold demo_calls in Hin. rewrite !elem_of_cons in Hin.
    destruct Hin as [[= -> ->] | [[= -> ->] | Hin]]; [reflexivity | reflexivity | set_solver]. }
  apply (key_domains_isolated (demo_world demo_store3) demo_calls demo_run3 TokenSigning
           KeyDomainCIMDClientAuthentication "cimd-z" demo_cimd
           demo_base3 Hadm (schedule_steps _ _)); [repeat constructor | done | reflexivity | reflexivity].
Defined.

(** The promotion won: [b] signs, [a] is still there and no longer current. *)
Example demo_outcome :
  (sk_IsCurrent <$> key_at (kw_store demo_run.1) "b", sk_IsCurrent <$> key_at (kw_store demo_run.1) "a",
   sk_RemovedAt <$> key_at (kw_store demo_run.1) "b") = (Some true, Some false, Some None).
Proof. reflexivity. Qed.

End Demo.
