(* ===== verification/KeyBootstrap.v ===== *)
(** * Bootstrap of a key domain

    However many replicas run [EnsureInitialKey] of
    internal/domain/keylifecycle/engine.go at the same time on an empty domain, at
    most one key is created, and a call that succeeds leaves a key behind.  The
    count and the creation happen inside the bootstrap lock. *)

From S2P Require Import Prelude ApprovalStore OAuthSessions SigningKeys SigningKeysFacts KeyLifecycle KeyPublication KeyLifecycleFacts.

#[local] Open Scope Z_scope.

Section bootstrap.
Context `{KeyCrypto}.
Context (d : KeyDomain).

Definition some_active (w : key_world) : Prop :=
  ∃ k, ring (kw_store w) !! sk_KID k = Some k ∧ active_in d k = true.
Definition at_most_one (w : key_world) : Prop :=
  ∀ k1 k2, ring (kw_store w) !! sk_KID k1 = Some k1 → ring (kw_store w) !! sk_KID k2 = Some k2 →
    active_in d k1 = true → active_in d k2 = true → k1 = k2.

(** A bootstrap call changes the keys only when the domain is empty, and then adds
    at most one. *)
Definition boot_step (w w' : key_world) : Prop :=
  (some_active w → ring (kw_store w') = ring (kw_store w)) ∧ (at_most_one w → at_most_one w').

Lemma boot_same w w' : ring (kw_store w') = ring (kw_store w) → boot_step w w'.
Proof. intros E. unfold boot_step, at_most_one. by rewrite E. Qed.

#[export] Instance boot_step_preorder : PreOrder boot_step.
Proof.
  split; [intros w; by apply boot_same |]. intros w1 w2 w3 [A1 B1] [A2 B2]. split; [| by auto].
  intros Hs. rewrite A2, A1; [done | done |]. destruct Hs as (k & Hk & ?). exists k. rewrite A1; [done | by exists k].
Qed.

Lemma some_active_step w w' : boot_step w w' → some_active w → some_active w'.
Proof. intros [Hs _] Ha. pose proof (Hs Ha) as E. destruct Ha as (k & Hk & ?). exists k. by rewrite E. Qed.

(** Counting tells whether the domain is empty. *)
Lemma count_active iter w :
  valid_id_order iter → store_wf (kw_store w) →
  (0 < countActiveInDomainLocked iter d (kw_store w))%nat ↔ some_active w.
Proof.
  intros Hi Hwf. unfold countActiveInDomainLocked. split.
  - destruct (filter _ _) as [| k l] eqn:E; simpl; [lia |]. intros _. exists k.
    assert (k ∈ filter (λ k, active_in d k = true) (range_keys iter (kw_store w))) as [Ha Hk]%list_elem_of_filter
      by (rewrite E; set_solver).
    by apply (range_keys_elem _ _ _ Hi Hwf) in Hk.
  - intros (k & Hk & Ha). apply (range_keys_elem _ _ _ Hi Hwf) in Hk.
    destruct (filter _ _) eqn:E; simpl; [| lia]. exfalso. eapply not_elem_of_nil.
    rewrite <-E. by apply list_elem_of_filter.
Qed.

(** Creating the current key of an empty domain. *)
Lemma create_in_empty iter key w :
  valid_id_order iter → base w → sk_byID (kw_store w) !! sk_ID key = None → sk_KeyDomain key = d →
  sk_RemovedAt key = None → ¬ some_active w →
  let out := createAndSetCurrentLocked iter key (kw_store w) in
  at_most_one (set_store out.1 w) ∧ (∀ x, out.2 = Ok x → some_active (set_store out.1 w)).
Proof.
  intros Hi [Hwf Hok] Hid Hd Hr Hempty. destruct (create_current_refines iter key _ Hi Hwf Hid) as (_ & Heq & _).
  simpl. apply (f_equal fst) in Heq as Hring. apply (f_equal snd) in Heq as Hres. simpl in *.
  unfold at_most_one, some_active. simpl. rewrite Hring, Hres. unfold ring_create_current in *.
  destruct (negb _); [simpl; split; [| done]; intros k1 k2 H1 _ A1; exfalso; apply Hempty; by exists k1 |].
  destruct (ring (kw_store w) !! sk_KID key) eqn:E; simpl.
  { split; [| done]. intros k1 k2 H1 _ A1. exfalso. apply Hempty. by exists k1. }
  set (k := set_IsCurrent true (cloneSigningKey key)).
  assert (∀ x, <[sk_KID key := k]> (demote (sk_KeyDomain key) <$> ring (kw_store w)) !! sk_KID x = Some x →
    active_in d x = true → x = k) as Honly.
  { intros x. rewrite lookup_insert_Some. intros [[_ ->] | [_ Hx]] Ha; [done |]. exfalso. apply Hempty.
    rewrite lookup_fmap in Hx. apply fmap_Some in Hx as (y & Hy & ->).
    destruct (ok_kid _ Hok _ _ Hy) as [Ekid _]. exists y. rewrite Ekid. split; [done |].
    destruct (demote_fields (sk_KeyDomain key) y) as (_ & _ & E1 & _ & E2 & _).
    unfold active_in in *. by rewrite E1, E2 in Ha. }
  split.
  - intros k1 k2 H1 H2 A1 A2. rewrite (Honly k1), (Honly k2); done.
  - intros _ _. exists k. rewrite lookup_insert_eq. split; [done |]. by apply active_in_inv.
Qed.

Lemma run_generate e policy algorithm t w :
  valid_id_order (e_iter e 0) → base w → fresh_id (e_newID e) w → pol_Domain policy = d → ¬ some_active w →
  let out := run (GenerateAndStore e policy algorithm true t) w in
  at_most_one out.1 ∧ (∀ k, out.2 = Ok k → some_active out.1).
Proof.
  intros Hi Hb Hf Hd Hempty. unfold GenerateAndStore.
  destruct (prepare_key e policy _) as [[[kid pub] cipher] | x].
  2: { simpl. split; [| done]. intros k1 k2 H1 _ A1. exfalso. apply Hempty. by exists k1. }
  unfold mbind, prog_bind, time_Now, repo. rewrite run_pbind.
  match goal with |- context [run ?p w] => assert (∃ t1 t2, run p w = (set_now t1 w, t2)) as (t1 & t2 & ->) end.
  { destruct (IsZero t); [simpl; eauto |]. exists (kw_now w), t. by destruct w. }
  rewrite run_act. cbn zeta beta. rewrite run_act. cbn [kw_store set_now set_store].
  set (key := new_key _ _ _ _ _ _ _).
  destruct (create_in_empty (e_iter e 0) key w Hi Hb) as [Hone Hsome]; [done | done | done | done |].
  destruct (createAndSetCurrentLocked _ _ _) as [s' [[] | x]]; simpl in *;
    (split; [exact Hone |]); [intros _ _; by eapply Hsome | done].
Qed.

(** ** The call *)

Section call.
Context (nid : string).
Abbreviation boot_guar := (λ w w', key_guar d nid w w' ∧ boot_step w w').
Abbreviation boot_rely := (λ w w', key_rely nid w w' ∧ boot_step w w').
Abbreviation outcome := (λ (r : result key_error (option SigningKey)) w, ∀ x, r = Ok x → some_active w).

Lemma boot_rely_split w w' : rtc boot_rely w w' → rtc (key_rely nid) w w' ∧ boot_step w w'.
Proof.
  induction 1 as [w | w w1 w2 [Hr Hs] _ [IH1 IH2]]; [done |]. split; [by eapply rtc_l | by etrans].
Qed.

(** A read of the store. *)
Lemma boot_read {A} (g : SigningKeyStore → A) (Q : A → key_world → Prop) w :
  base w → (∀ w1 w2, base w1 → boot_step w w1 → boot_step w1 w2 → base w2 → Q (g (kw_store w1)) w2) →
  rg boot_rely boot_guar Q (repo (λ s, (s, g s))) w.
Proof.
  intros Hb HQ. apply rg_act; simpl.
  - intros w1 _. split; [| by apply boot_same]. apply rtc_once. split; [| split; by left].
    split; simpl; [lia | done | constructor | done | by right].
  - intros w1 w2 [Hr1 Hs1]%boot_rely_split [Hr2 Hs2]%boot_rely_split.
    destruct (rely_stable _ _ _ Hr1 Hb) as (Hb1 & _). destruct (rely_stable _ _ _ Hr2 Hb1) as (Hb2 & _).
    by apply HQ.
Qed.

Lemma boot_ret (r : result key_error (option SigningKey)) w :
  outcome r w → rg boot_rely boot_guar outcome (Ret r) w.
Proof. intros Hr w1 [_ Hs]%boot_rely_split x Hx. eapply some_active_step; [done | by eapply Hr]. Qed.

(** The critical section. *)
Lemma boot_section e policy t w :
  (∀ n, valid_id_order (e_iter e n)) → ready nid w → pol_Domain policy = d → e_newID e = nid →
  let out := run (ensure_callback e policy t) w in
  boot_step w out.1 ∧ (out.2.2 = None → some_active out.1).
Proof.
  intros Hi [Hb Hf] Hd Hn. unfold ensure_callback, CountActiveInDomain, repo, mbind, prog_bind.
  rewrite run_act. cbn beta zeta. rewrite Hd.
  destruct (bool_decide (0 < countActiveInDomainLocked (e_iter e 1) d (kw_store w))%nat) eqn:E.
  - apply bool_decide_eq_true_1, (count_active _ _ (Hi 1%nat) (proj1 Hb)) in E. simpl. split; [by apply boot_same | done].
  - apply bool_decide_eq_false_1 in E. rewrite (count_active _ _ (Hi 1%nat) (proj1 Hb)) in E. rewrite run_pbind.
    assert (set_store (kw_store w) w = w) as -> by (by destruct w). rewrite <-Hn in Hf.
    destruct (run_generate e policy "ES256" t w (Hi 0%nat) Hb Hf Hd E) as [Hone Hsome].
    destruct (run (GenerateAndStore _ _ _ _ _) w) as [w' [k | x]]; simpl in *.
    + split; [split; [done | by intros _] | intros _; by eapply Hsome].
    + split; [split; [done | by intros _] | done].
Qed.

Lemma boot_verified e policy t w :
  (∀ n, valid_id_order (e_iter e n)) → ready nid w → pol_Domain policy = d → e_newID e = nid →
  rg boot_rely boot_guar outcome (EnsureInitialKey e policy t) w.
Proof.
  intros Hi Hrd Hd Hn. unfold EnsureInitialKey.
  eapply (rg_pbind _ _ (λ out w', base w' ∧ (out.2 = None → some_active w'))).
  - unfold WithBootstrapLock. destruct (e_lock e) as [err |].
    { intros w1 [Hr _]%boot_rely_split. split; [by apply (ready_stable _ _ _ Hr) | done]. }
    assert (∀ w1, rtc boot_rely w w1 → let out := run (ensure_callback e policy t) w1 in
      key_guar d nid w1 out.1 ∧ base out.1 ∧ boot_step w1 out.1 ∧ (out.2.2 = None → some_active out.1)) as Hsec.
    { intros w1 [Hr _]%boot_rely_split. destruct (ready_stable _ _ _ Hr Hrd) as [Hrd1 _].
      destruct (verified_run _ _ _ _ (verified_callback d nid e policy t w1 Hi Hd Hn Hrd1)).
      destruct (boot_section e policy t w1); done. }
    apply rg_act; [intros w1 Hr; by destruct (Hsec w1 Hr) as (? & _ & ? & _) |].
    intros w1 w2 Hr1 [Hr2 Hs2]%boot_rely_split. destruct (Hsec w1 Hr1) as (_ & Hb & _ & Hsome).
    split; [by apply (rely_stable _ _ _ Hr2) |]. intros E. eapply some_active_step; [done | by apply Hsome].
  - intros [created [err |]] w1 [Hb Hsome]; cbn [snd] in *; [| apply boot_ret; intros x _; by apply Hsome].
    destruct (_ || _); [| by apply boot_ret].
    eapply (rg_pbind _ _ (λ r w', ∀ n, r = Ok n → (0 < n)%nat → some_active w')).
    { apply boot_read; [done |]. intros w2 w3 [Hwf _] _ Hs _ n [= <-] Hn'. rewrite Hd in Hn'.
      eapply some_active_step; [done |]. by apply (count_active _ _ (Hi 2%nat) Hwf) in Hn'. }
    intros [n | x] w2 Hc; [| by apply boot_ret].
    destruct (bool_decide (0 < n)%nat) eqn:E; apply boot_ret; [| done].
    intros x _. apply (Hc n); [done |]. by apply bool_decide_eq_true_1 in E.
Qed.
End call.

(** Claim C13.  However many callers run [EnsureInitialKey] on one key domain at the
    same time, in any interleaving: if the domain starts with at most one active
    key it ends with at most one, and once any caller has returned success the
    domain has exactly one. *)
Theorem bootstrap_creates_one_key w policy (calls : list (key_env * Z)) c :
  base w → at_most_one w → pol_Domain policy = d →
  (∀ e t, (e, t) ∈ calls → (∀ n, valid_id_order (e_iter e n)) ∧ fresh_id (e_newID e) w) →
  NoDup ((λ et, e_newID et.1) <$> calls) →
  rtc pool_step (w, (λ et, EnsureInitialKey et.1 policy et.2) <$> calls) c →
  at_most_one c.1 ∧ ∀ i x, c.2 !! i = Some (Ret (Ok x)) → some_active c.1.
Proof.
  intros Hb Hone Hd Hcalls Hnd Hsteps.
  set (G := λ i w w', ∃ et : key_env * Z, calls !! i = Some et ∧
              key_guar d (e_newID et.1) w w' ∧ boot_step w w').
  destruct (pool_rg_steps G (λ _ r w, ∀ x, r = Ok x → some_active w) _ _ Hsteps) as [Hg Hend].
  - intros i p Hp. simpl in *. apply list_lookup_fmap_Some in Hp as ([e t] & -> & Het). simpl.
    destruct (Hcalls e t) as [Hi Hf]; [by eapply list_elem_of_lookup_2 |].
    eapply (rg_mono (λ w w', key_rely (e_newID e) w w' ∧ boot_step w w') _
              (λ w w', key_guar d (e_newID e) w w' ∧ boot_step w w')).
    + intros w1 w2 (j & Hji & [e' t'] & Hj & Hg & Hs). split; [| done]. eexists d, (e_newID e').
      split; [| by apply key_guar_steps]. intros E. apply Hji. eapply (NoDup_lookup _ _ _ (e_newID e) Hnd);
        apply list_lookup_fmap_Some; [exists (e', t') | exists (e, t)]; split; simpl; congruence.
    + intros w1 w2 Hg. by exists (e, t).
    + by apply boot_verified.
  - simpl in Hg. split.
    + clear -Hg Hone. induction Hg as [| w w1 w2 (i & et & _ & _ & [_ Hs]) _ IH]; [done |]. by apply IH, Hs.
    + intros i x Hix. specialize (Hend i _ Hix c.1). by eapply Hend.
Qed.
End bootstrap.

(** Two replicas start on an empty store. *)
Module Replicas.
Import KeyLifecycleFacts.Demo.

Definition replicas : list (key_env * Z) := [(demo_env "x", 9); (demo_env "y", 9)].
Definition started : key_world * list (prog key_world (result key_error (option SigningKey))) :=
  (demo_world NewSigningKeyStore, (λ et, EnsureInitialKey et.1 tokenSigningPolicy et.2) <$> replicas).
Definition finished := schedule [1; 0; 1; 0]%nat started.

Lemma bootstrap_creates_one_key_witness :
  at_most_one KeyDomainTokenSigning finished.1 ∧ some_active KeyDomainTokenSigning finished.1.
Proof.
  destruct (bootstrap_creates_one_key KeyDomainTokenSigning (demo_world NewSigningKeyStore) tokenSigningPolicy
              replicas finished) as [Hone Hsome].
  - apply base_new.
  - intros k1 k2 H1. inversion H1.
  - reflexivity.
  - intros e t Hin. unfold replicas in Hin. rewrite !elem_of_cons in Hin.
    destruct Hin as [[= -> ->] | [[= -> ->] | Hin]];
      [split; [intros n; apply demo_order_valid | reflexivity] .. | set_solver].
  - repeat constructor; set_solver.
  - apply schedule_steps.
  - split; [exact Hone |]. eapply (Hsome 0%nat). reflexivity.
Defined.
End Replicas.
