(* ===== verification/KeyPublicationFacts.v ===== *)
(** * Published key sets are never stale

    A set returned by [BuildJWKS] or [PublicJWKSet] was built from the keys of one
    version of the store, no older than the version at the start of the call, under
    every interleaving of callers, shared rebuilds, cache invalidations and key
    lifecycle calls. *)

From S2P Require Import Prelude ApprovalStore OAuthSessions SigningKeys SigningKeysFacts KeyLifecycle KeyPublication KeyLifecycleFacts.

#[local] Open Scope Z_scope.

(** Adding a key to a set keeps the others (jwx [Set.AddKey]). *)
Class KeyCryptoLaws `{KeyCrypto} :=
  law_AddKey set j set' : jwk_AddKey set j = Ok set' → ∀ x, x ∈ set' ↔ x ∈ set ∨ x = j.

Section publication.
Context `{KeyCryptoLaws}.

Abbreviation hist := (gmap Z (gmap string SigningKey)) (only parsing).
Abbreviation version w := (sk_version (kw_store w)) (only parsing).

(** ** Versions and history *)

(** What every step does to the store: time passes, and the version grows unless
    nothing changed. *)
Definition store_rel (w w' : key_world) : Prop :=
  kw_now w ≤ kw_now w' ∧ (base w → base w') ∧ version w ≤ version w' ∧
  (version w' = version w → kw_store w' = kw_store w).

#[export] Instance store_rel_preorder : PreOrder store_rel.
Proof.
  split; [intros w; split_and!; [lia | done | lia | done] |].
  intros w1 w2 w3 (T1 & B1 & V1 & E1) (T2 & B2 & V2 & E2). split_and!; [lia | auto | lia |].
  intros E. rewrite E2, E1; [done | lia | lia].
Qed.

Lemma key_step_rel d nid w w' : key_step d nid w w' → store_rel w w'.
Proof.
  intros Hs. split_and!; [apply (ks_time _ _ _ _ Hs) | by apply (key_step_base _ _ _ _ Hs) | |];
    destruct (ks_version _ _ _ _ Hs) as [Hv | ->]; lia || done.
Qed.

Lemma key_steps_rel d nid w w' : rtc (key_step d nid) w w' → store_rel w w'.
Proof. induction 1 as [| ? ? ? Hs _ IH]; [done |]. etrans; [by eapply key_step_rel | done]. Qed.

(** The history holds the ring of the current version and nothing newer. *)
Definition hist_ok (x : key_world * hist) : Prop :=
  x.2 !! version x.1 = Some (ring (kw_store x.1)) ∧ ∀ n r, x.2 !! n = Some r → n ≤ version x.1.

Definition inv (x : key_world * hist) : Prop := base x.1 ∧ hist_ok x.

Definition rel (x y : key_world * hist) : Prop := store_rel x.1 y.1 ∧ (hist_ok x → hist_ok y ∧ x.2 ⊆ y.2).

#[export] Instance rel_preorder : PreOrder rel.
Proof.
  split; [done |]. intros x y z [S1 H1] [S2 H2]. split; [by etrans |]. intros Hx.
  destruct (H1 Hx) as [Hy ?], (H2 Hy). split; [done | by etrans].
Qed.

Lemma rtc_rel x y : rtc rel x y → rel x y.
Proof. induction 1; [done | by etrans]. Qed.

Lemma rel_inv x y : rel x y → inv x → inv y.
Proof. intros [(_ & Hb & _) Hh] [Hbx Hhx]. split; [by apply Hb | by apply Hh]. Qed.

(** A step that is recorded. *)
Lemma rel_record w w' h : store_rel w w' → rel (w, h) (w', record_history w' h).
Proof.
  intros Hs. split; [done |]. intros [Hcur Hmax]. destruct Hs as (_ & _ & Hv & Heq). simpl in *.
  unfold record_history. split; [split; simpl; [apply lookup_insert_eq |] |].
  - intros n r. rewrite lookup_insert_Some. intros [[<- _] | [_ Hn]]; [lia |]. pose proof (Hmax _ _ Hn). lia.
  - simpl. destruct (decide (version w' = version w)) as [E | Hne].
    + rewrite insert_id; [done |]. by rewrite E, (Heq E).
    + apply insert_subseteq. destruct (h !! version w') eqn:E; [| done]. pose proof (Hmax _ _ E). lia.
Qed.

(** A step that leaves the store alone. *)
Lemma rel_same w w' h : kw_store w' = kw_store w → kw_now w ≤ kw_now w' → rel (w, h) (w', h).
Proof.
  intros Hs Ht. split.
  - split_and!; simpl; unfold base; rewrite ?Hs; done || lia.
  - unfold hist_ok. simpl. by rewrite Hs.
Qed.

(** ** Rely-guarantee over the recorded world *)

Fixpoint hrg {A} (G : key_world * hist → key_world * hist → Prop) (Q : A → key_world * hist → Prop)
    (p : prog key_world A) (x : key_world * hist) : Prop :=
  match p with
  | Ret a => ∀ x1, rel x x1 → Q a x1
  | Act f k => ∀ x1, rel x x1 →
      let y := ((f x1.1).1, record_history (f x1.1).1 x1.2) in G x1 y ∧ hrg G Q (k (f x1.1).2) y
  end.

Lemma hrg_rely {A} G Q (p : prog key_world A) x y : rel x y → hrg G Q p x → hrg G Q p y.
Proof. destruct p; simpl; intros Hr Hp x1 Hx1; apply Hp; by etrans. Qed.

Lemma hrg_pbind {A B} G (Q : A → _ → Prop) (Q' : B → _ → Prop) (p : prog key_world A) g x :
  hrg G Q p x → (∀ a y, Q a y → hrg G Q' (g a) y) → hrg G Q' (pbind p g) x.
Proof.
  intros Hp Hg. revert x Hp. induction p as [a | X f k IH]; intros x Hp; simpl in *.
  - apply Hg, Hp. done.
  - intros x1 Hx1. destruct (Hp x1 Hx1). split; [done | by apply IH].
Qed.

Lemma hrg_impl {A} (G G' : _ → _ → Prop) (Q Q' : A → key_world * hist → Prop) (p : prog key_world A) x :
  (∀ x y, G x y → G' x y) → (∀ a y, Q a y → Q' a y) → hrg G Q p x → hrg G' Q' p x.
Proof.
  intros HG HQ. revert x. induction p as [a | X f k IH]; intros x Hp x1 Hx1; simpl in *; [by apply HQ, Hp |].
  destruct (Hp x1 Hx1). split; [by apply HG | by apply IH].
Qed.

Lemma hrg_ret {A} G (Q : A → key_world * hist → Prop) a x :
  (∀ y, rel x y → Q a y) → hrg G Q (Ret a) x.
Proof. done. Qed.

(** A step of a lifecycle call that adds no key. *)
Definition quiet (w w' : key_world) : Prop := ∃ d, ∀ nid, rtc (key_step d nid) w w'.

Lemma quiet_rel w w' : quiet w w' → store_rel w w'.
Proof. intros [d Hq]. apply (key_steps_rel d ""), Hq. Qed.

Lemma quiet_same w w' : kw_store w' = kw_store w → kw_now w ≤ kw_now w' → quiet w w'.
Proof.
  intros Hs Ht. exists "". intros nid. apply rtc_once. split; rewrite ?Hs; [done | done | constructor | done | by right].
Qed.

Lemma quiet_rely nid w w' : quiet w w' → key_rely nid w w'.
Proof. intros [d Hq]. exists d, (String "x" nid). split; [| apply Hq]. induction nid; naive_solver. Qed.

(** The guarantee of building: recorded store steps, caches untouched. *)
Definition build_guar (x y : key_world * hist) : Prop :=
  quiet x.1 y.1 ∧ rel x y ∧ kw_jwks y.1 = kw_jwks x.1 ∧ kw_public y.1 = kw_public x.1.

Lemma hrg_act {X} (f : key_world → key_world * X) (Q : X → key_world * hist → Prop) x :
  (∀ x1, rel x x1 → quiet x1.1 (f x1.1).1 ∧
     kw_jwks (f x1.1).1 = kw_jwks x1.1 ∧ kw_public (f x1.1).1 = kw_public x1.1) →
  (∀ x1 y, rel x x1 → rel ((f x1.1).1, record_history (f x1.1).1 x1.2) y → Q (f x1.1).2 y) →
  hrg build_guar Q (act f) x.
Proof.
  intros Hf HQ x1 Hx1. destruct (Hf x1 Hx1) as (Hs & ? & ?). split; [| intros y Hy; by apply HQ].
  split_and!; [done | | done | done]. destruct x1 as [w h]. by apply rel_record, quiet_rel.
Qed.

(** A fact that no step falsifies is kept along. *)
Lemma hrg_frame {A} (P : key_world * hist → Prop) (Q : A → key_world * hist → Prop) p x :
  (∀ x y, rel x y → P x → P y) → P x → hrg build_guar Q p x → hrg build_guar (λ a y, P y ∧ Q a y) p x.
Proof.
  intros HP. revert x. induction p as [a | X f k IH]; intros x Hx Hp x1 Hx1; simpl in *.
  - split; [by eapply HP | by apply Hp].
  - destruct (Hp x1 Hx1) as [(Hq & Hr & Hc) Hk]. split; [done |]. apply IH; [| done].
    eapply HP; [exact Hr |]. by eapply HP.
Qed.

(** A read of the store, or of the clock. *)
Lemma hrg_read {X} (g : SigningKeyStore → X) (Q : X → key_world * hist → Prop) x :
  (∀ x1 y, rel x x1 → rel x1 y → Q (g (kw_store x1.1)) y) →
  hrg build_guar Q (repo (λ s, (s, g s))) x.
Proof.
  intros HQ. apply hrg_act; [intros; split_and!; [by apply quiet_same | done | done] | intros x1 y Hx Hy; apply HQ; [done |]].
  etrans; [| exact Hy]. destruct x1 as [w h]. apply rel_record, quiet_rel. by apply quiet_same.
Qed.

(** ** What a set is built from *)

(** The JWK a service publishes for a key with stored public material. *)
Definition public_of (v : service) (k : SigningKey) (j : jwk_key) : Prop :=
  ∃ b, stored_public k = Some b ∧
    match v with
    | TokenSigning => publicJWKFromJSON b (sk_KID k) (sk_Algorithm k) = Ok j
    | CIMDClient => checkCIMDKey b (sk_KID k) = Ok j
    end.

(** [set] was built from the ring [r]: every member is the public JWK of an active
    key of the service's domain.  The token service never leaves out the key that
    signs at the time of the build; the CIMD service leaves out no ES256 key. *)
Definition built_from (v : service) (r : key_ring) (set : list jwk_key) : Prop :=
  (∀ j, j ∈ set → ∃ k, r !! sk_KID k = Some k ∧ active_in (domain_of v) k = true ∧ public_of v k j) ∧
  match v with
  | TokenSigning => ∃ t keys, enumerates keys r ∧
      ∀ cur, currentUsableSigningKeyInDomain keys KeyDomainTokenSigning t = Some cur →
        ∃ j, j ∈ set ∧ public_of v cur j
  | CIMDClient => set ≠ [] ∧
      ∀ k, r !! sk_KID k = Some k → active_in KeyDomainCIMDClientAuthentication k = true →
        sk_Algorithm k = "ES256" → ∃ j, j ∈ set ∧ public_of v k j
  end.

(** ** Building from a snapshot

    [r1] is the ring at version [n1], when the keys were listed. *)

Section snapshot.
Context (v : service) (n1 : Z) (r1 : key_ring).

Definition snap (x : key_world * hist) : Prop := inv x ∧ x.2 !! n1 = Some r1 ∧ n1 ≤ version x.1.

(** The store has moved on: the build will be thrown away. *)
Definition moved (x : key_world * hist) : Prop := n1 < version x.1.

Lemma snap_rel x y : rel x y → snap x → snap y.
Proof.
  intros Hr (Hi & Hn & Hv). split_and!; [by eapply rel_inv | | destruct Hr as [(_ & _ & ? & _) _]; lia].
  destruct Hr as [_ Hh], Hi as [_ Hhx]. destruct (Hh Hhx) as [_ Hsub]. by eapply lookup_weaken.
Qed.

Lemma moved_rel x y : rel x y → moved x → moved y.
Proof. intros [(_ & _ & ? & _) _]. unfold moved. lia. Qed.

(** While the version is still [n1], so is the ring. *)
Lemma snap_ring x : snap x → version x.1 = n1 → ring (kw_store x.1) = r1.
Proof. intros ([_ [Hc _]] & Hn & _) E. rewrite E in Hc. congruence. Qed.

(** Backfilling moves the store on. *)
Lemma backfill_quiet kid b w : base w → quiet w (set_store (setPublicJWKLocked kid b (kw_store w)).1 w).
Proof.
  intros [Hwf Hok]. set (d := match ring (kw_store w) !! kid with Some k => sk_KeyDomain k | None => "" end).
  exists d. intros nid. apply rtc_once.
  destruct (backfill_step d nid (kw_now w) kid b (kw_store w) Hwf) as (? & ? & ? & ?).
  { intros k Hk. unfold d. by rewrite Hk. }
  split; simpl; [lia | done | done | done | done].
Qed.

Lemma backfill_moves k b w h :
  snap (w, h) → r1 !! sk_KID k = Some k → sk_RemovedAt k = None → stored_public k = None →
  n1 < sk_version (setPublicJWKLocked (sk_KID k) b (kw_store w)).1.
Proof.
  intros Hsnap Hk Hrem Hpub. pose proof Hsnap as ([[Hwf Hok] _] & _ & Hv). simpl in *.
  destruct (backfill_refines (sk_KID k) b _ Hwf) as (_ & _ & Hver).
  assert (version w = n1 → sk_version (setPublicJWKLocked (sk_KID k) b (kw_store w)).1 = version w + 1) as Hbump.
  { intros E. pose proof (snap_ring _ Hsnap E) as Er. simpl in Er. rewrite <-Er in Hk.
    destruct (lookup_cases _ (sk_KID k) Hwf) as [[_ ?] | (p & k' & Hp & Ho & Hr & _ & Hne & _)]; simplify_eq.
    unfold setPublicJWKLocked. rewrite Hp, Ho, bool_decide_eq_true_2 by done.
    unfold stored_public in Hpub. destruct (sk_PublicJWK k) as [c |]; [| done].
    destruct (nonempty c) eqn:Hc; [done |]. unfold nonempty in Hc. apply negb_false_iff, bool_decide_eq_true_1 in Hc.
    by subst. }
  destruct Hver as [-> | E]; [lia |]. rewrite E in *. destruct (decide (version w = n1)) as [En |]; [| lia].
  specialize (Hbump En). lia.
Qed.

Lemma hrg_backfill k b (Q : result key_error bool → key_world * hist → Prop) x :
  snap x → r1 !! sk_KID k = Some k → sk_RemovedAt k = None → stored_public k = None →
  (∀ r y, snap y → moved y → Q r y) → hrg build_guar Q (SetPublicJWK (sk_KID k) b) x.
Proof.
  intros Hsnap Hk Hrem Hpub HQ.
  assert (∀ x1, rel x x1 → let w' := set_store (setPublicJWKLocked (sk_KID k) (Some b) (kw_store x1.1)).1 x1.1 in
    quiet x1.1 w' ∧ snap (w', record_history w' x1.2) ∧ n1 < version w') as Hstep.
  { intros [w h] Hr. pose proof (snap_rel _ _ Hr Hsnap) as Hs1.
    assert (quiet w (set_store (setPublicJWKLocked (sk_KID k) (Some b) (kw_store w)).1 w)) as Hq
      by apply backfill_quiet, Hs1.
    split_and!; [done | | by eapply backfill_moves]. eapply snap_rel; [by apply rel_record, quiet_rel | done]. }
  apply hrg_act.
  - intros x1 Hr. destruct (Hstep x1 Hr) as [Hrel _]. simpl in *. by destruct (setPublicJWKLocked _ _ _).
  - intros x1 y Hr Hy. destruct (Hstep x1 Hr) as (_ & Hs & Hmv). simpl in *.
    destruct (setPublicJWKLocked _ _ _) as [s' a]. apply HQ; [by eapply snap_rel |]. by eapply moved_rel.
Qed.

(** The result of one key: right, unless the build is thrown away. *)
Definition key_result (k : SigningKey) (r : result key_error jwk_key) (x : key_world * hist) : Prop :=
  snap x ∧ (moved x ∨ ∀ j, r = Ok j → public_of v k j).

Lemma key_result_moved k r x : snap x → moved x → key_result k r x.
Proof. intros. split; [done | by left]. Qed.

Lemma hrg_done {A} (Q : A → key_world * hist → Prop) a x :
  Q a x → (∀ y, rel x y → Q a x → Q a y) → hrg build_guar Q (Ret a) x.
Proof. intros HQ Hst y Hy. by apply Hst. Qed.

Lemma key_result_rel k r x y : rel x y → key_result k r x → key_result k r y.
Proof. intros Hr [Hs [Hm | Hp]]; (split; [by eapply snap_rel |]); [left; by eapply moved_rel | by right]. Qed.

(** A key of the snapshot. *)
Definition listed (k : SigningKey) : Prop := r1 !! sk_KID k = Some k ∧ active_in (domain_of v) k = true.

Lemma hrg_stored k r x :
  snap x → (∀ j, r = Ok j → public_of v k j) → hrg build_guar (key_result k) (Ret r) x.
Proof. intros Hs Hr y Hy. split; [by eapply snap_rel | by right]. Qed.

(** Reading back after a lost race: the build is thrown away anyway. *)
Lemma hrg_reread {A B} (g : SigningKeyStore → A) (h : A → B) (Q : B → key_world * hist → Prop) x :
  snap x → moved x → (∀ b y, snap y → moved y → Q b y) →
  hrg build_guar Q (pbind (repo (λ s, (s, g s))) (λ a, Ret (h a))) x.
Proof.
  intros Hs Hm HQ. eapply (hrg_pbind _ (λ _ y, snap y ∧ moved y)).
  - apply hrg_read. intros x1 y Hx Hy. assert (rel x y) as Hxy by (by etrans).
    split; [by eapply snap_rel | by eapply moved_rel].
  - intros a y [Hs1 Hm1] z Hz. apply HQ; [by eapply snap_rel | by eapply moved_rel].
Qed.
End snapshot.

Lemma hrg_publicJWK n1 r1 dec k x :
  snap n1 r1 x → listed TokenSigning r1 k →
  hrg build_guar (key_result TokenSigning n1 r1 k) (publicJWKForSigningKey dec k) x.
Proof.
  intros Hs [Hk [Hd Hrem]%active_in_inv]. unfold publicJWKForSigningKey. destruct (stored_public k) as [b |] eqn:Hpub.
  { apply hrg_stored; [done |]. intros j Hj. exists b. split; [done |].
    by destruct (publicJWKFromJSON b (sk_KID k) (sk_Algorithm k)); simplify_eq/=. }
  destruct (_ ≫= _) as [[j b] | e]; [| by apply hrg_stored].
  eapply hrg_pbind; [apply (hrg_backfill n1 r1 k b (λ r y, snap n1 r1 y ∧ moved n1 y)); [done .. |]; done |].
  intros [[] | e] y [Hy Hm].
  - intros z Hz. apply key_result_moved; [by eapply snap_rel | by eapply moved_rel].
  - apply (hrg_reread n1 r1); [done | done |]. intros. by apply key_result_moved.
  - destruct (IsNotFoundErr e); intros z Hz; (apply key_result_moved; [by eapply snap_rel | by eapply moved_rel]).
Qed.

Lemma hrg_publicKey n1 r1 dec k x :
  snap n1 r1 x → listed CIMDClient r1 k →
  hrg build_guar (key_result CIMDClient n1 r1 k) (publicJWKForKey dec k) x.
Proof.
  intros Hs [Hk [Hd Hrem]%active_in_inv]. unfold publicJWKForKey.
  eapply (hrg_pbind _ (λ r y, snap n1 r1 y ∧ (moved n1 y ∨ ∀ b, r = Ok b → stored_public k = Some b))).
  - unfold cimdPublicJSON. destruct (stored_public k) as [b |] eqn:Hpub.
    { intros y Hy. split; [by eapply snap_rel |]. right. by intros ? [= ->]. }
    destruct (_ ≫= _) as [b | e]; [| intros y Hy; split; [by eapply snap_rel | by right]].
    eapply hrg_pbind; [apply (hrg_backfill n1 r1 k b (λ r y, snap n1 r1 y ∧ moved n1 y)); [done .. |]; done |].
    intros [[] | e] y [Hy Hm].
    + intros z Hz. split; [by eapply snap_rel | left; by eapply moved_rel].
    + apply (hrg_reread n1 r1); [done | done |]. intros. split; [done | by left].
    + intros z Hz. split; [by eapply snap_rel | left; by eapply moved_rel].
  - intros r y [Hy Hr]. intros z Hz. split; [by eapply snap_rel |].
    destruct Hr as [Hm | Hr]; [left; by eapply moved_rel | right]. intros j Hj.
    destruct r as [b |]; [| done]. exists b. split; [by apply Hr | done].
Qed.

(** The members collected so far are right, unless the build is thrown away. *)
Definition collected (v : service) n1 r1 (set : list jwk_key) (x : key_world * hist) : Prop :=
  snap n1 r1 x ∧ (moved n1 x ∨ ∀ j, j ∈ set → ∃ k, listed v r1 k ∧ public_of v k j).

Lemma collected_rel v n1 r1 set x y : rel x y → collected v n1 r1 set x → collected v n1 r1 set y.
Proof. intros Hr [Hs [Hm | Hp]]; (split; [by eapply snap_rel |]); [left; by eapply moved_rel | by right]. Qed.

Lemma collected_add v n1 r1 set set' k j x :
  listed v r1 k → key_result v n1 r1 k (Ok j) x → jwk_AddKey set j = Ok set' →
  moved n1 x ∨ (∀ j, j ∈ set → ∃ k, listed v r1 k ∧ public_of v k j) →
  collected v n1 r1 set' x.
Proof.
  intros Hl [Hs Hr] Hadd Hset. split; [done |]. destruct Hset as [? | Hset], Hr as [? | Hr]; [by left .. |].
  right. intros j' Hj'. apply (law_AddKey _ _ _ Hadd) in Hj' as [? | ->]; [by apply Hset |]. eauto.
Qed.

(** What the token service's loop has processed is in the set. *)
Definition processed_ok n1 r1 (keys : list SigningKey) (out : list jwk_key * gset string) (x : key_world * hist) : Prop :=
  collected TokenSigning n1 r1 out.1 x ∧
  (moved n1 x ∨ ∀ kid, kid ∈ out.2 → ∃ k j, k ∈ keys ∧ sk_KID k = kid ∧ j ∈ out.1 ∧ public_of TokenSigning k j).

Lemma processed_rel n1 r1 keys out x y : rel x y → processed_ok n1 r1 keys out x → processed_ok n1 r1 keys out y.
Proof.
  intros Hr [Hc [Hm | Hp]]; (split; [by eapply collected_rel |]); [left; by eapply moved_rel | by right].
Qed.

Lemma hrg_collect n1 r1 dec all keys set kids x :
  Forall (listed TokenSigning r1) keys → keys ⊆ all → processed_ok n1 r1 all (set, kids) x →
  hrg build_guar (processed_ok n1 r1 all) (collect_keys dec keys set kids) x.
Proof.
  revert set kids x. induction keys as [| k keys IH]; intros set kids x Hl Hsub Hp; cbn [collect_keys].
  { intros y Hy. by eapply processed_rel. }
  apply Forall_cons in Hl as [Hk Hl].
  eapply (hrg_pbind _ (λ r y, processed_ok n1 r1 all (set, kids) y ∧ key_result TokenSigning n1 r1 k r y)).
  { apply hrg_frame; [by intros ? ?; apply processed_rel | done |]. by apply hrg_publicJWK; [apply Hp |]. }
  intros [j | e] y [Hp1 Hr]; [| by apply IH; [| set_solver |]].
  destruct (jwk_AddKey set j) as [set' | e] eqn:Hadd; [| by apply IH; [| set_solver |]].
  apply IH; [done | set_solver |]. destruct Hp1 as [[Hs Hset] Hkids].
  split; [by eapply collected_add |]. destruct Hkids as [? | Hkids]; [by left |].
  destruct Hr as [_ [? | Hr]]; [by left |]. right. simpl.
  intros kid [->%elem_of_singleton | Hin]%elem_of_union.
  - exists k, j. split_and!; [set_solver | done | apply (law_AddKey _ _ _ Hadd); by right | by apply Hr].
  - destruct (Hkids kid Hin) as (k' & j' & ? & ? & ? & ?). exists k', j'. split_and!; [done | done | | done].
    apply (law_AddKey _ _ _ Hadd). by left.
Qed.

(** The CIMD loop: every ES256 key seen is in the set. *)
Definition complete_ok n1 r1 (done : list SigningKey) (r : result key_error (list jwk_key)) (x : key_world * hist) : Prop :=
  ∀ set, r = Ok set → collected CIMDClient n1 r1 set x ∧
    (moved n1 x ∨ ∀ k, k ∈ done → sk_Algorithm k = "ES256" → ∃ j, j ∈ set ∧ public_of CIMDClient k j).

Lemma complete_rel n1 r1 l r x y : rel x y → complete_ok n1 r1 l r x → complete_ok n1 r1 l r y.
Proof.
  intros Hr Hc set Hset. destruct (Hc set Hset) as [Hs [Hm | Hp]]; (split; [by eapply collected_rel |]);
    [left; by eapply moved_rel | by right].
Qed.

Lemma hrg_collect_cimd n1 r1 dec seen keys set x :
  Forall (listed CIMDClient r1) keys → complete_ok n1 r1 seen (Ok set) x →
  hrg build_guar (complete_ok n1 r1 (seen ++ keys)) (collect_cimd dec keys set) x.
Proof.
  revert seen set x. induction keys as [| k keys IH]; intros seen set x Hl Hp; cbn [collect_cimd].
  { intros y Hy. rewrite app_nil_r. by eapply complete_rel. }
  apply Forall_cons in Hl as [Hk Hl]. replace (seen ++ k :: keys) with ((seen ++ [k]) ++ keys) by (by rewrite <-app_assoc).
  destruct (Hp set eq_refl) as [Hc Hdone].
  case_bool_decide as Halg.
  { apply IH; [done |]. intros set' [= <-]. split; [done |]. destruct Hdone as [? | Hdone]; [by left | right].
    intros k' [? | ->%list_elem_of_singleton]%elem_of_app Ha; [by apply Hdone | done]. }
  eapply (hrg_pbind _ (λ r y, complete_ok n1 r1 seen (Ok set) y ∧ key_result CIMDClient n1 r1 k r y)).
  { apply hrg_frame; [by intros ? ?; apply complete_rel | done |]. by apply hrg_publicKey; [apply Hc |]. }
  intros [j | e] y [Hp1 Hr]; simpl; [| intros z Hz; by intros ? [=]].
  destruct (jwk_AddKey set j) as [set' | e] eqn:Hadd; simpl; [| intros z Hz; by intros ? [=]].
  apply IH; [done |]. intros ? [= <-]. destruct (Hp1 set eq_refl) as [[Hs Hset] Hdone1].
  split; [by eapply collected_add |]. destruct Hdone1 as [? | Hdone1]; [by left |].
  destruct Hr as [_ [? | Hr]]; [by left | right].
  intros k' [Hin | ->%list_elem_of_singleton]%elem_of_app Ha.
  - destruct (Hdone1 k' Hin Ha) as (j' & ? & ?). exists j'. split; [| done]. apply (law_AddKey _ _ _ Hadd). by left.
  - exists j. split; [apply (law_AddKey _ _ _ Hadd); by right | by apply Hr].
Qed.

(** ** A whole build *)

(** The set of a build that was not overtaken is built from the ring of version
    [n1], which the history holds and which is no older than where it started. *)
Definition build_result (v : service) (n0 : Z) (r : result key_error (list jwk_key)) (x : key_world * hist) : Prop :=
  ∀ set, r = Ok set → ∃ n1 r1, n0 ≤ n1 ∧ snap n1 r1 x ∧ (moved n1 x ∨ built_from v r1 set).

Lemma build_result_rel v n0 r x y : rel x y → build_result v n0 r x → build_result v n0 r y.
Proof.
  intros Hr Hb set Hset. destruct (Hb set Hset) as (n1 & r1 & Hn & Hs & Hm). exists n1, r1.
  split_and!; [done | by eapply snap_rel |]. destruct Hm; [left; by eapply moved_rel | by right].
Qed.

(** The listing fixes the snapshot. *)
Lemma hrg_list v iter x :
  valid_id_order iter → inv x →
  hrg build_guar (λ r y, ∃ n1 keys, r = Ok (filter (λ k, active_in (domain_of v) k = true) keys) ∧
      version x.1 ≤ n1 ∧ ∃ r1, snap n1 r1 y ∧ enumerates keys r1)
    (ListActiveInDomain iter (domain_of v)) x.
Proof.
  intros Hi Hx. apply hrg_read. intros x1 y Hx1 Hy. pose proof (rel_inv _ _ Hx1 Hx) as Hinv1.
  destruct Hinv1 as [[Hwf Hok] [Hcur Hmax]].
  exists (version x1.1), (range_keys iter (kw_store x1.1)).
  split_and!; [by rewrite (list_active_refines _ _ _ Hi Hwf) | by destruct Hx1 as [(_ & _ & ? & _) _] |].
  exists (ring (kw_store x1.1)). split; [| by apply range_keys_enumerates].
  eapply snap_rel; [done |]. split_and!; [by split | done | done].
Qed.

Lemma listed_filter v r1 keys :
  enumerates keys r1 → Forall (listed v r1) (filter (λ k, active_in (domain_of v) k = true) keys).
Proof. intros [_ Hen]. apply Forall_forall. intros k [Ha Hk]%list_elem_of_filter. split; [by apply Hen | done]. Qed.

Lemma hrg_buildJWKS iter dt dec x :
  valid_id_order iter → inv x →
  hrg build_guar (build_result TokenSigning (version x.1)) (buildJWKS iter dt dec) x.
Proof.
  intros Hi Hx. unfold buildJWKS. eapply hrg_pbind; [by apply (hrg_list TokenSigning) |].
  intros r y (n1 & keys & -> & Hn & r1 & Hs & Hen). set (act := filter _ keys).
  eapply hrg_pbind; [apply (hrg_collect n1 r1 dec act act [] ∅); [by apply (listed_filter TokenSigning) | done |] |].
  { split; [split; [done |] |]; right; simpl; [intros j Hj | intros kid Hkid]; set_solver. }
  intros [set kids] z Hp. eapply (hrg_pbind _ (λ t, processed_ok n1 r1 act (set, kids))).
  { apply hrg_act; [intros x1 _; split_and!; [apply quiet_same; simpl; [done | lia] | done | done] |].
    intros x1 z1 Hx1 Hz1. eapply processed_rel; [exact Hz1 |]. destruct x1 as [w h].
    eapply processed_rel; [| exact Hp]. etrans; [exact Hx1 |]. apply rel_record, quiet_rel, quiet_same; simpl; [done | lia]. }
  intros t z1 Hp1 z2 Hz2. pose proof (processed_rel _ _ _ _ _ _ Hz2 Hp1) as [[Hs2 Hset] Hkids]. simpl in *.
  intros set' Hout. exists n1, r1. split_and!; [done | done |].
  destruct Hset as [? | Hset]; [by left |]. destruct Hkids as [? | Hkids]; [by left | right].
  unfold act in Hout at 1. rewrite (effective_current_agrees keys KeyDomainTokenSigning t) in Hout.
  destruct (currentUsableSigningKeyInDomain keys KeyDomainTokenSigning t) as [cur |] eqn:Hcur.
  - case_bool_decide as Hin; [done |]. destruct (bool_decide _ && _); simplify_eq.
    split; [intros j Hj; destruct (Hset j Hj) as (k & [? ?] & ?); eauto |]. exists t, keys. split; [done |].
    rewrite Hcur. intros c [= <-]. destruct (Hkids _ Hin) as (k & j & Hk & Hkid & Hj & Hpub).
    exists j. split; [done |]. assert (k = cur) as ->; [| done].
    apply list_elem_of_filter in Hk as [_ Hk]. pose proof (currentUsable_selects keys KeyDomainTokenSigning t) as Hsel.
    rewrite Hcur in Hsel. destruct Hsel as (Hc & _). destruct Hen as [_ Hen]. apply Hen in Hk, Hc.
    rewrite Hkid in Hk. congruence.
  - destruct (bool_decide _ && _); simplify_eq.
    split; [intros j Hj; destruct (Hset j Hj) as (k & [? ?] & ?); eauto |]. exists t, keys. split; [done |].
    by rewrite Hcur.
Qed.

Lemma hrg_buildPublic iter dec x :
  valid_id_order iter → inv x →
  hrg build_guar (build_result CIMDClient (version x.1)) (buildPublicJWKSet iter dec) x.
Proof.
  intros Hi Hx. unfold buildPublicJWKSet. eapply hrg_pbind; [by apply (hrg_list CIMDClient) |].
  intros r y (n1 & keys & -> & Hn & r1 & Hs & Hen). set (act := filter _ keys).
  eapply hrg_pbind; [apply (hrg_frame (snap n1 r1)); [apply snap_rel | done |];
    apply (hrg_collect_cimd n1 r1 dec [] act []); [by apply (listed_filter CIMDClient) |] |].
  { intros ? [= <-]. split; [split; [done |] |]; right; set_solver. }
  intros r z [Hs1 Hc] z2 Hz2 set Hset. exists n1, r1. split_and!; [done | by eapply snap_rel |].
  destruct r as [set0 |]; simpl in Hset; [| done]. case_bool_decide as Hne; simplify_eq.
  destruct (complete_rel _ _ _ _ _ _ Hz2 Hc set eq_refl) as [[_ Hset] Hdone].
  destruct Hset as [? | Hset]; [by left |]. destruct Hdone as [? | Hdone]; [by left | right].
  split; [intros j Hj; destruct (Hset j Hj) as (k & [? ?] & ?); eauto |]. split; [done |].
  intros k Hk Ha Halg. apply Hdone; [| done]. apply list_elem_of_filter. split; [done |]. by apply Hen.
Qed.

Lemma hrg_build v iter dt dec x :
  valid_id_order iter → inv x → hrg build_guar (build_result v (version x.1)) (build v iter dt dec) x.
Proof. destruct v; [apply hrg_buildJWKS | apply hrg_buildPublic]. Qed.

(** ** A whole rebuild *)

(** The set belongs to version [n]. *)
Definition fresh_set (v : service) (h : hist) (n : Z) (set : list jwk_key) : Prop :=
  ∃ r, h !! n = Some r ∧ built_from v r set.

Lemma fresh_set_mono v (h h' : hist) n set : h ⊆ h' → fresh_set v h n set → fresh_set v h' n set.
Proof. intros Hs (r & Hr & Hb). exists r. split; [by eapply lookup_weaken | done]. Qed.

Lemma fresh_set_rel v n set x y : rel x y → inv x → fresh_set v x.2 n set → fresh_set v y.2 n set.
Proof. intros [_ Hh] [_ Hx]. apply fresh_set_mono, (Hh Hx). Qed.

(** A flight for version [n] and generation [g] installs only a set of that
    version, and only while its generation is current. *)
Definition flight_guar (v : service) (n : Z) (g : nat) (x y : key_world * hist) : Prop :=
  quiet x.1 y.1 ∧ rel x y ∧ (∀ v', v' ≠ v → cache_of v' y.1 = cache_of v' x.1) ∧
  (cache_of v y.1 = cache_of v x.1 ∨
   jc_generation (cache_of v x.1) = g ∧ ∃ set t, fresh_set v y.2 n set ∧
     cache_of v y.1 = JWKSCache (Some set) t (jc_version (cache_of v x.1)) (jc_generation (cache_of v x.1))).

Definition flight_result (v : service) (n : Z) (r : result key_error (list jwk_key)) (x : key_world * hist) : Prop :=
  ∀ set, r = Ok set → inv x ∧ fresh_set v x.2 n set.

Lemma build_flight_guar v n g x y : build_guar x y → flight_guar v n g x y.
Proof.
  intros (Hq & Hr & Hj & Hp). split_and!; [done | done | intros [] _; done |]. left. by destruct v.
Qed.

Lemma cache_set_cache v c w : cache_of v (set_cache v c w) = c.
Proof. by destruct v. Qed.
Lemma cache_set_other v v' c w : v' ≠ v → cache_of v' (set_cache v c w) = cache_of v' w.
Proof. by destruct v, v'. Qed.
Lemma quiet_set_cache v c dt w : quiet w (set_cache v c (advance dt w)).
Proof. destruct v; apply quiet_same; simpl; done || lia. Qed.

Lemma hrg_rebuild v iter dt dt' dec g n x :
  valid_id_order iter → inv x → n ≤ version x.1 →
  hrg (flight_guar v n g) (flight_result v n) (rebuild v iter dt dt' dec g n) x.
Proof.
  intros Hi Hx Hn. unfold rebuild.
  assert (∀ e y, hrg (flight_guar v n g) (flight_result v n) (Ret (Err e)) y) as Herr by (by intros ? ? ? ? ? [=]).
  eapply (hrg_pbind _ (λ r y, inv y ∧ build_result v (version x.1) r y)).
  { eapply hrg_impl; [by apply build_flight_guar | intros ? ? Hq; exact Hq |].
    apply hrg_frame; [intros ? ?; by apply rel_inv | done | by apply hrg_build]. }
  intros [set | e] y [Hy Hb]; [| apply Herr].
  eapply (hrg_pbind _ (λ r z, inv z ∧ (r = Ok n → fresh_set v z.2 n set))).
  { eapply hrg_impl; [by apply build_flight_guar | intros ? ? Hq; exact Hq |]. apply hrg_frame; [intros ? ?; by apply rel_inv | done |].
    apply hrg_read. intros y1 z Hy1 Hz [= Hcur]. unfold KeySetVersion in Hcur.
    destruct (build_result_rel _ _ _ _ _ Hy1 Hb set eq_refl) as (n1 & r1 & Hn1 & Hs & Hm).
    pose proof Hs as (_ & Hh & Hle). destruct Hm as [Hm | Hbf]; [unfold moved in Hm; lia |].
    assert (n1 = n) as -> by lia. eapply fresh_set_rel; [exact Hz | by eapply rel_inv |]. by exists r1. }
  intros [cur | e] z [Hz Hf]; [| apply Herr]. case_bool_decide as Hcur; [apply Herr |]. subst cur.
  intros z1 Hz1. pose proof (rel_inv _ _ Hz1 Hz) as Hinv1. specialize (Hf eq_refl).
  apply (fresh_set_rel _ _ _ _ _ Hz1 Hz) in Hf. destruct z1 as [w h]. simpl in *.
  case_bool_decide as Hg; simpl.
  - assert (quiet w w) as Hq by (by apply quiet_same).
    split; [| intros y1 _ ? [=]]. split_and!; [done | by apply rel_record, quiet_rel | done | by left].
  - set (w' := set_cache v _ _). assert (quiet w w') as Hq by apply quiet_set_cache.
    pose proof (rel_record w w' h (quiet_rel _ _ Hq)) as Hr.
    assert (fresh_set v (record_history w' h) n set) as Hf' by (by apply (fresh_set_rel _ _ _ _ _ Hr Hinv1)).
    split.
    + split_and!; [done | done | intros v' Hv'; simpl; unfold w'; rewrite cache_set_other by done; by destruct v' |]. right.
      split; [done |]. exists set, (kw_now w + Z.of_N dt' + jwksCacheTTL). split; [done |]. simpl. unfold w'. by rewrite cache_set_cache.
    + intros y1 Hy1 ? [= <-]. split; [eapply rel_inv; [exact Hy1 |]; by eapply rel_inv |].
      by apply (fresh_set_rel _ _ _ _ _ Hy1 (rel_inv _ _ Hr Hinv1)).
Qed.
End publication.
