(* ===== verification/JWKSFreshness.v ===== *)
(** * Freshness of published key sets under concurrency

    The invariant of the transition system of KeyPublication: the cached set and
    every flight of the current generation belong to the cached version, and a
    waiting caller's start version is no newer than that.  Its consequence is that
    no caller ever receives a set older than its call. *)

From S2P Require Import Prelude ApprovalStore OAuthSessions SigningKeys SigningKeysFacts KeyLifecycle KeyPublication KeyLifecycleFacts KeyPublicationFacts.

#[local] Open Scope Z_scope.

Section freshness.
Context `{KeyCryptoLaws} (v : service).

Abbreviation hist := (gmap Z (gmap string SigningKey)) (only parsing).
Abbreviation version w := (sk_version (kw_store w)) (only parsing).
Abbreviation cache c := (cache_of v (jw_world c)) (only parsing).
Abbreviation gen c := (jc_generation (cache_of v (jw_world c))) (only parsing).
Abbreviation now_at c := ((jw_world c, jw_history c) : key_world * hist) (only parsing).

(** ** The invariant *)

Definition call_ok (w : key_world) (nids : list string) (i : nat) (p : prog key_world unit) : Prop :=
  ∃ d nid, nids !! i = Some nid ∧ rg (key_rely nid) (key_guar d nid) (λ _ w, base w) p w.

(** A flight is for some version, the cached one if its generation is current. *)
Definition flight_ok (x : key_world * hist) (fl : flight) : Prop :=
  (fl_generation fl ≤ jc_generation (cache_of v x.1))%nat ∧
  ∃ n, (fl_generation fl = jc_generation (cache_of v x.1) → n = jc_version (cache_of v x.1)) ∧
    hrg (flight_guar v n (fl_generation fl)) (flight_result v n) (fl_rebuild fl) x.

Definition caller_ok (x : key_world * hist) (flights : list flight) (cl : caller) : Prop :=
  match cl with
  | Starting v0 => v0 ≤ version x.1
  | Observed v0 n | Missed v0 n => v0 ≤ n ∧ n ≤ version x.1
  | Waiting v0 g j =>
      v0 ≤ version x.1 ∧ (∃ fl, flights !! j = Some fl ∧ fl_generation fl = g) ∧
      (g ≤ jc_generation (cache_of v x.1))%nat ∧
      (g = jc_generation (cache_of v x.1) → v0 ≤ jc_version (cache_of v x.1))
  | Returned v0 (Ok set) => ∃ n, v0 ≤ n ∧ n ≤ version x.1 ∧ fresh_set v x.2 n set
  | Returned _ (Err _) => True
  end.

Record config_ok (nids : list string) (c : jwks_config) : Prop := {
  co_inv : inv (now_at c);
  co_distinct : NoDup nids;
  co_calls i p : jw_calls c !! i = Some p → call_ok (jw_world c) nids i p;
  co_flights j fl : jw_flights c !! j = Some fl → flight_ok (now_at c) fl;
  co_cache set : jc_set (cache c) = Some set → fresh_set v (jw_history c) (jc_version (cache c)) set;
  co_version : jc_version (cache c) ≤ version (jw_world c);
  co_callers i cl : jw_callers c !! i = Some cl → caller_ok (now_at c) (jw_flights c) cl;
}.

(** ** What a step of another component does to the pieces *)

(** The cache afterwards: the same generation with the same version, or a later
    generation. *)
Definition cache_moves (c c' : jwks_cache) : Prop :=
  (jc_generation c' = jc_generation c ∧ jc_version c' = jc_version c) ∨
  (jc_generation c < jc_generation c')%nat.

Lemma flight_ok_moves x y fl :
  rel x y → cache_moves (cache_of v x.1) (cache_of v y.1) → flight_ok x fl → flight_ok y fl.
Proof.
  intros Hr Hc [Hg (n & Hn & Hf)]. split; [destruct Hc as [[-> _] | ?]; lia |].
  exists n. split; [| by eapply hrg_rely]. intros E. destruct Hc as [[Eg Ev] | ?]; [| lia].
  rewrite Ev. apply Hn. lia.
Qed.

Lemma caller_ok_moves x y fls fls' cl :
  inv x → rel x y → cache_moves (cache_of v x.1) (cache_of v y.1) →
  (∀ j fl, fls !! j = Some fl → ∃ fl', fls' !! j = Some fl' ∧ fl_generation fl' = fl_generation fl) →
  caller_ok x fls cl → caller_ok y fls' cl.
Proof.
  intros Hx Hr Hc Hfl. pose proof Hr as [(_ & _ & Hv & _) _].
  destruct cl as [v0 | v0 n | v0 n | v0 g j | v0 [set | e]]; simpl; [lia | lia | lia | | | done].
  - intros (? & (fl & Hj & Hg) & Hle & Hw). split_and!; [lia | | destruct Hc as [[-> _] | ?]; lia |].
    + destruct (Hfl _ _ Hj) as (fl' & ? & ?). exists fl'. split; congruence.
    + destruct Hc as [[-> ->] | ?]; [done | lia].
  - intros (n & ? & ? & Hf). exists n. split_and!; [done | lia |]. by apply (fresh_set_rel _ _ _ _ _ Hr Hx).
Qed.

Lemma call_ok_rely w w' nids i p :
  (∀ nid, nids !! i = Some nid → rtc (key_rely nid) w w') → call_ok w nids i p → call_ok w' nids i p.
Proof. intros Hr (d & nid & Hi & Hp). exists d, nid. split; [done |]. eapply rg_rely; [by apply Hr | done]. Qed.

Lemma calls_quiet w w' nids (calls : list (prog key_world unit)) :
  quiet w w' → (∀ i p, calls !! i = Some p → call_ok w nids i p) →
  ∀ i p, calls !! i = Some p → call_ok w' nids i p.
Proof.
  intros Hq Hc i p Hi. eapply call_ok_rely; [| by apply Hc]. intros nid _. by apply rtc_once, quiet_rely.
Qed.

Lemma insert_caller (P : caller → Prop) (l : list caller) i cl :
  (∀ j x, l !! j = Some x → P x) → P cl → ∀ j x, <[i := cl]> l !! j = Some x → P x.
Proof.
  intros Hl Hcl j x. destruct (decide (i = j)) as [<- | Hne].
  - intros Hx. pose proof (lookup_lt_Some _ _ _ Hx) as Hlt. rewrite length_insert in Hlt.
    rewrite list_lookup_insert_eq in Hx by done. by simplify_eq.
  - rewrite list_lookup_insert_ne by done. apply Hl.
Qed.

(** What a lifecycle call does to the cache. *)
Lemma cache_kept_moves c c' :
  cache_kept c c' → cache_moves c c' ∧ jc_version c' = jc_version c ∧ (jc_set c' = jc_set c ∨ jc_set c' = None).
Proof. intros [-> | ->]; simpl; (split_and!; [| done |]); [by left | by left | right; simpl; lia | by right]. Qed.

Lemma guar_cache d nid w w' :
  key_guar d nid w w' →
  cache_moves (cache_of v w) (cache_of v w') ∧ jc_version (cache_of v w') = jc_version (cache_of v w) ∧
  (jc_set (cache_of v w') = jc_set (cache_of v w) ∨ jc_set (cache_of v w') = None).
Proof.
  induction 1 as [w | w w1 w2 [_ [Hj Hp]] _ (M2 & V2 & S2)]; [split_and!; [by left | done | by left] |].
  assert (cache_kept (cache_of v w) (cache_of v w1)) as Hk by (by destruct v).
  destruct (cache_kept_moves _ _ Hk) as (M1 & V1 & S1). split_and!; [| congruence |].
  - destruct M1 as [[] |], M2 as [[] |]; [left; split; congruence | right; lia | right; lia | right; lia].
  - destruct S2 as [-> | ->]; [done | by right].
Qed.

(** ** Every step keeps the invariant *)

Lemma call_keeps nids c i X (f : key_world → key_world * X) k w' x :
  config_ok nids c → jw_calls c !! i = Some (Act f k) → f (jw_world c) = (w', x) →
  config_ok nids (Config w' (record_history w' (jw_history c)) (<[i := k x]> (jw_calls c))
    (jw_flights c) (jw_callers c)).
Proof.
  intros Hok Hi Hf. destruct (co_calls _ _ Hok _ _ Hi) as (d & nid & Hnid & Hrg).
  destruct (Hrg (jw_world c)) as [Hg Hk]; [done |]. rewrite Hf in Hg, Hk. simpl in Hg, Hk.
  assert (rel (now_at c) (w', record_history w' (jw_history c))) as Hr
    by (by eapply rel_record, key_steps_rel, key_guar_steps).
  destruct (guar_cache _ _ _ _ Hg) as (Hm & Hv & Hset). pose proof (co_inv _ _ Hok) as Hinv.
  split; simpl; [by eapply rel_inv | by apply (co_distinct _ _ Hok) | | | | |].
  - intros j p Hj. destruct (decide (i = j)) as [<- | Hne].
    + rewrite list_lookup_insert_eq in Hj by (by eapply lookup_lt_Some). simplify_eq. by exists d, nid.
    + rewrite list_lookup_insert_ne in Hj by done. eapply call_ok_rely; [| by apply (co_calls _ _ Hok)].
      intros nid' Hnid'. apply rtc_once. exists d, nid. split; [| by apply key_guar_steps].
      intros ->. apply Hne. by eapply (NoDup_lookup _ _ _ _ (co_distinct _ _ Hok)).
  - intros j fl Hj. eapply flight_ok_moves; [exact Hr | exact Hm | by apply (co_flights _ _ Hok j)].
  - intros set Hs. rewrite Hv. destruct Hset as [E | E]; [| congruence]. rewrite E in Hs.
    apply (fresh_set_rel _ _ _ _ _ Hr Hinv). by apply (co_cache _ _ Hok).
  - rewrite Hv. pose proof (co_version _ _ Hok). destruct Hr as [(_ & _ & ? & _) _]. simpl in *. lia.
  - intros j cl Hj. eapply caller_ok_moves; [exact Hinv | exact Hr | exact Hm | eauto | by apply (co_callers _ _ Hok j)].
Qed.

Lemma flight_keeps nids c j g X (f : key_world → key_world * X) k w' x :
  config_ok nids c → jw_flights c !! j = Some (Flight g (Act f k)) → f (jw_world c) = (w', x) →
  config_ok nids (Config w' (record_history w' (jw_history c)) (jw_calls c)
    (<[j := Flight g (k x)]> (jw_flights c)) (jw_callers c)).
Proof.
  intros Hok Hj Hfw. destruct (co_flights _ _ Hok _ _ Hj) as [Hgen (n & Hn & Hf)].
  destruct (Hf (now_at c)) as [(Hq & Hr & _ & Hc) Hk]; [done |].
  cbn [fst snd] in *. rewrite Hfw in Hq, Hr, Hc, Hk. cbn [fst snd fl_generation] in *.
  pose proof (co_inv _ _ Hok) as Hinv.
  assert (jc_generation (cache_of v w') = gen c ∧ jc_version (cache_of v w') = jc_version (cache c)) as [Eg Ev]
    by (by destruct Hc as [-> | (_ & set & t & _ & ->)]).
  assert (cache_moves (cache c) (cache_of v w')) as Hm by (left; done).
  assert (∀ j' fl, jw_flights c !! j' = Some fl →
    ∃ fl', <[j := Flight g (k x)]> (jw_flights c) !! j' = Some fl' ∧
           fl_generation fl' = fl_generation fl) as Hfls.
  { intros j' fl Hj'. destruct (decide (j = j')) as [<- | Hne].
    - rewrite list_lookup_insert_eq by (by eapply lookup_lt_Some). simplify_eq. by eexists.
    - rewrite list_lookup_insert_ne by done. eauto. }
  split; simpl; [by eapply rel_inv | by apply (co_distinct _ _ Hok) | | | | |].
  - eapply calls_quiet; [exact Hq | apply (co_calls _ _ Hok)].
  - intros j' fl Hj'. destruct (decide (j = j')) as [<- | Hne].
    + rewrite list_lookup_insert_eq in Hj' by (by eapply lookup_lt_Some). simplify_eq. split; simpl; [lia |].
      exists n. rewrite Eg, Ev. done.
    + rewrite list_lookup_insert_ne in Hj' by done.
      eapply flight_ok_moves; [exact Hr | exact Hm | by apply (co_flights _ _ Hok j')].
  - intros set Hs. rewrite Ev. destruct Hc as [E | (Hg & set' & t & Hfr & E)]; rewrite E in Hs.
    + apply (fresh_set_rel _ _ _ _ _ Hr Hinv). by apply (co_cache _ _ Hok).
    + simpl in Hs. simplify_eq. rewrite <-Hn; [exact Hfr | done].
  - rewrite Ev. pose proof (co_version _ _ Hok). destruct Hr as [(_ & _ & ? & _) _]. simpl in *. lia.
  - intros j' cl Hj'. eapply caller_ok_moves; [exact Hinv | exact Hr | exact Hm | exact Hfls | by apply (co_callers _ _ Hok j')].
Qed.

(** A caller moves; the world changes at most in the clock and the cache. *)
Lemma caller_keeps nids c w' flights' i cl :
  config_ok nids c → quiet (jw_world c) w' → kw_store w' = kw_store (jw_world c) →
  cache_moves (cache c) (cache_of v w') →
  (∀ set, jc_set (cache_of v w') = Some set → fresh_set v (jw_history c) (jc_version (cache_of v w')) set) →
  jc_version (cache_of v w') ≤ version w' →
  (∀ j fl, jw_flights c !! j = Some fl → flights' !! j = Some fl) →
  (∀ j fl, flights' !! j = Some fl → jw_flights c !! j = Some fl ∨ flight_ok (w', jw_history c) fl) →
  caller_ok (w', jw_history c) flights' cl →
  config_ok nids (Config w' (jw_history c) (jw_calls c) flights' (<[i := cl]> (jw_callers c))).
Proof.
  intros Hok Hq Hs Hm Hcache Hver Hsub Hfl Hcl. pose proof (co_inv _ _ Hok) as Hinv.
  assert (rel (now_at c) (w', jw_history c)) as Hr.
  { apply rel_same; [done |]. by destruct (quiet_rel _ _ Hq) as (? & _). }
  split; simpl; [by eapply rel_inv | by apply (co_distinct _ _ Hok) | | | done | done |].
  - eapply calls_quiet; [exact Hq | apply (co_calls _ _ Hok)].
  - intros j fl Hj. destruct (Hfl j fl Hj) as [Hold | ?]; [| done].
    eapply flight_ok_moves; [exact Hr | exact Hm | by apply (co_flights _ _ Hok j)].
  - apply insert_caller; [| done]. intros j x Hj.
    eapply (caller_ok_moves _ _ (jw_flights c)); [exact Hinv | exact Hr | exact Hm | eauto | by apply (co_callers _ _ Hok j)].
Qed.

(** The common case: only the caller changes. *)
Lemma set_caller_keeps nids c i cl :
  config_ok nids c → caller_ok (now_at c) (jw_flights c) cl → config_ok nids (set_caller i cl c).
Proof.
  intros Hok Hcl. apply caller_keeps; [done | by apply quiet_same | done | by left | | | auto | auto | done].
  - apply (co_cache _ _ Hok).
  - apply (co_version _ _ Hok).
Qed.

(** The write-locked section. *)
Lemma enter_spec c n t c' out :
  (c', out) = enter c n t →
  match out with
  | Retry => c' = c
  | Hit set => c' = c ∧ jc_version c = n ∧ jc_set c = Some set
  | Join g => jc_version c' = n ∧ jc_generation c' = g ∧
      (c' = c ∨ jc_set c' = None ∧ (jc_generation c < jc_generation c')%nat)
  end.
Proof.
  unfold enter. case_bool_decide; [by intros [= -> ->] |].
  case_bool_decide as Hne; simpl.
  - intros [= -> ->]. simpl. split_and!; [done | done |]. right. split; [done | lia].
  - destruct (jc_set c) as [set |] eqn:Hset; [destruct (Before _ _) |]; intros [= -> ->]; auto.
Qed.

Lemma enter_keeps nids c i v0 n dt cache' out cl flights' iter dt1 dt2 dec :
  config_ok nids c → jw_callers c !! i = Some (Missed v0 n) → valid_id_order iter →
  (cache', out) = enter (cache c) n (kw_now (jw_world c) + Z.of_N dt) →
  match out with
  | Retry => cl = Starting v0 ∧ flights' = jw_flights c
  | Hit set => cl = Returned v0 (Ok set) ∧ flights' = jw_flights c
  | Join g =>
      (∃ j fl, cl = Waiting v0 g j ∧ jw_flights c !! j = Some fl ∧ fl_generation fl = g ∧ flights' = jw_flights c) ∨
      (cl = Waiting v0 g (length (jw_flights c)) ∧
       flights' = jw_flights c ++ [Flight g (rebuild v iter dt1 dt2 dec g n)])
  end →
  config_ok nids (Config (set_cache v cache' (advance dt (jw_world c))) (jw_history c) (jw_calls c) flights'
    (<[i := cl]> (jw_callers c))).
Proof.
  intros Hok Hi Hiter Henter%enter_spec Hout. destruct (co_callers _ _ Hok _ _ Hi) as [Hv0 Hn]. simpl in Hn.
  set (w' := set_cache v cache' (advance dt (jw_world c))).
  assert (cache_of v w' = cache') as Ec by apply cache_set_cache.
  assert (kw_store w' = kw_store (jw_world c)) as Es by (by destruct v).
  assert (quiet (jw_world c) w') as Hq by apply quiet_set_cache.
  assert (rel (now_at c) (w', jw_history c)) as Hr.
  { apply rel_same; [done |]. by destruct (quiet_rel _ _ Hq) as (? & _). }
  assert (cache_moves (cache c) cache' ∧
    (∀ set, jc_set cache' = Some set → fresh_set v (jw_history c) (jc_version cache') set) ∧
    jc_version cache' ≤ version (jw_world c)) as (Hm & Hcache & Hver).
  { pose proof (co_cache _ _ Hok). pose proof (co_version _ _ Hok).
    destruct out as [| set | g]; [subst; split_and!; [by left | done | done] | |].
    - destruct Henter as (-> & _). split_and!; [by left | done | done].
    - destruct Henter as (<- & _ & [-> | [Hnone Hlt]]); [split_and!; [by left | done | done] |].
      split_and!; [by right | by rewrite Hnone | done]. }
  apply caller_keeps; rewrite ?Ec, ?Es; try done.
  - destruct out as [| set | g]; [destruct Hout as [_ ->]; auto .. |].
    destruct Hout as [(j & fl & _ & _ & _ & ->) | [_ ->]]; [auto |]. intros j fl Hj. by apply lookup_app_l_Some.
  - destruct out as [| set | g]; [destruct Hout as [_ ->]; auto .. |].
    destruct Hout as [(j & fl & _ & _ & _ & ->) | [_ ->]]; [auto |].
    intros j fl [? | [_ Hj]]%lookup_app_Some; [by left | right]. apply list_lookup_singleton_Some in Hj as [_ <-].
    destruct Henter as (Hv' & Hg & _). split; simpl; rewrite Ec; [lia |]. exists n. split; [done |].
    apply hrg_rebuild; [done | eapply rel_inv; [exact Hr | apply (co_inv _ _ Hok)] | simpl; by rewrite Es].
  - destruct out as [| set | g].
    + destruct Hout as [-> _]. simpl. rewrite Es. lia.
    + destruct Hout as [-> _], Henter as (-> & Hv' & Hset). simpl. rewrite Es. exists n. split_and!; [done | done |].
      rewrite <-Hv'. by apply (co_cache _ _ Hok).
    + destruct Henter as (Hv' & Hg & _).
      destruct Hout as [(j & fl & -> & Hj & Hfg & ->) | [-> ->]]; simpl; rewrite Es, Ec;
        (split_and!; [lia | | lia | by rewrite Hv']).
      * by exists fl.
      * eexists. rewrite lookup_app_r, Nat.sub_diag by done. done.
Qed.

Lemma step_keeps nids c c' : jwks_step v c c' → config_ok nids c → config_ok nids c'.
Proof.
  intros Hs Hok. destruct Hs as [c i X f k Hi | c j g X f k Hj | c | c i v0 Hi | c i v0 n dt Hi |
    c i v0 n dt cache' out x flights' iter dt1 dt2 dec Hi Hit Hen Hx | c i v0 g j r Hi Hj | c i v0 g j Hi].
  - destruct (f (jw_world c)) as [w' x] eqn:Hf. by eapply call_keeps.
  - destruct (f (jw_world c)) as [w' x] eqn:Hf. by eapply flight_keeps.
  - destruct Hok as [? ? ? ? ? ? Hcl]. split; simpl; try done.
    intros i cl [Hi | [_ Hi]]%lookup_app_Some; [by apply (Hcl i) |].
    apply list_lookup_singleton_Some in Hi as [_ <-]. simpl. lia.
  - apply set_caller_keeps; [done |]. specialize (co_callers _ _ Hok _ _ Hi). simpl. unfold KeySetVersion. lia.
  - pose proof (co_callers _ _ Hok _ _ Hi) as Hcl. simpl in Hcl.
    assert (cache_of v (advance dt (jw_world c)) = cache c) as Ea by (by destruct v).
    assert (∀ x, caller_ok (advance dt (jw_world c), jw_history c) (jw_flights c) x →
      config_ok nids (set_caller i x (Config (advance dt (jw_world c)) (jw_history c) (jw_calls c) (jw_flights c) (jw_callers c))))
      as Hset.
    { intros x Hx. apply (caller_keeps nids c (advance dt (jw_world c)) (jw_flights c) i x); rewrite ?Ea; auto.
      - apply quiet_same; simpl; [done | lia].
      - by left.
      - apply (co_cache _ _ Hok).
      - apply (co_version _ _ Hok). }
    cbv zeta. rewrite Ea. destruct (lookup_cached _ _ _) as [set |] eqn:Hl; apply Hset; simpl; [| done].
    unfold lookup_cached in Hl. destruct (jc_set _) as [set' |] eqn:Hs'; [| done].
    destruct (bool_decide _ && _) eqn:Hb; [| done]. simplify_eq. apply andb_true_iff in Hb as [Hb%bool_decide_eq_true_1 _].
    exists n. split_and!; [lia | lia |]. rewrite <-Hb. by apply (co_cache _ _ Hok).
  - by eapply enter_keeps.
  - pose proof (co_callers _ _ Hok _ _ Hi) as (Hv0 & _ & _ & Hw). simpl in *.
    destruct (co_flights _ _ Hok _ _ Hj) as [_ (n & Hn & Hf)]. simpl in *.
    unfold after_flight. case_bool_decide as Hg; [by apply set_caller_keeps |].
    destruct r as [set | e]; [| case_bool_decide; by apply set_caller_keeps].
    apply set_caller_keeps; [done |]. simpl. destruct (Hf (now_at c) ltac:(done) set eq_refl) as [_ Hfr].
    exists n. rewrite Hn by done. pose proof (co_version _ _ Hok). split_and!; [by apply Hw | done |].
    rewrite <-Hn by done. exact Hfr.
  - by apply set_caller_keeps.
Qed.

(** ** The start *)

Definition start (w : key_world) (calls : list (key_env * key_call)) : jwks_config :=
  Config w {[version w := ring (kw_store w)]} (progs calls) [] [].

Lemma start_ok w calls :
  base w → admissible w calls → jc_set (cache_of v w) = None → jc_version (cache_of v w) ≤ version w →
  config_ok ((λ ec, e_newID ec.1) <$> calls) (start w calls).
Proof.
  intros Hb Hadm Hc Hv. split; simpl; [| apply (adm_distinct _ _ Hadm) | | done | by rewrite Hc | done | done].
  - split; [done |]. split; simpl; [apply lookup_singleton_eq |].
    intros n r [<- _]%lookup_singleton_Some. lia.
  - intros i p Hp. unfold progs in Hp. apply list_lookup_fmap_Some in Hp as ([e call] & -> & Hec).
    assert ((e, call) ∈ calls) as Hin by (by eapply list_elem_of_lookup_2).
    exists (domain_of (call_service call)), (e_newID e). split; [by rewrite list_lookup_fmap, Hec |].
    apply verified_call; [by eapply (adm_orders _ _ Hadm) | done | done | split; [done |]; by eapply (adm_fresh _ _ Hadm)].
Qed.

End freshness.

(** ** An executable scheduler for the system *)

Section scheduler.
Context `{KeyCrypto} (v : service) (iter : id_order) (dec : decrypter).

Inductive move :=
  | MoveCall (i : nat)
  | MoveFlight (j : nat)
  | MoveArrive
  | MoveCaller (i : nat).

(** The next step of one participant; time passes by one tick at each reading. *)
Definition exec_move (c : jwks_config) (m : move) : jwks_config :=
  match m with
  | MoveCall i =>
      match jw_calls c !! i with
      | Some (Act f k) =>
          let '(w, x) := f (jw_world c) in
          Config w (record_history w (jw_history c)) (<[i := k x]> (jw_calls c)) (jw_flights c) (jw_callers c)
      | _ => c
      end
  | MoveFlight j =>
      match jw_flights c !! j with
      | Some (Flight g (Act f k)) =>
          let '(w, x) := f (jw_world c) in
          Config w (record_history w (jw_history c)) (jw_calls c) (<[j := Flight g (k x)]> (jw_flights c)) (jw_callers c)
      | _ => c
      end
  | MoveArrive =>
      Config (jw_world c) (jw_history c) (jw_calls c) (jw_flights c)
        (jw_callers c ++ [Starting (sk_version (kw_store (jw_world c)))])
  | MoveCaller i =>
      match jw_callers c !! i with
      | Some (Starting v0) => set_caller i (Observed v0 (KeySetVersion (kw_store (jw_world c)))) c
      | Some (Observed v0 n) =>
          let w := advance 1 (jw_world c) in
          let c := Config w (jw_history c) (jw_calls c) (jw_flights c) (jw_callers c) in
          match lookup_cached (cache_of v w) n (kw_now w) with
          | Some set => set_caller i (Returned v0 (Ok set)) c
          | None => set_caller i (Missed v0 n) c
          end
      | Some (Missed v0 n) =>
          let '(cache', out) := enter (cache_of v (jw_world c)) n (kw_now (jw_world c) + Z.of_N 1) in
          let '(cl, flights') :=
            match out with
            | Retry => (Starting v0, jw_flights c)
            | Hit set => (Returned v0 (Ok set), jw_flights c)
            | Join g => (Waiting v0 g (length (jw_flights c)),
                         jw_flights c ++ [Flight g (rebuild v iter 1 1 dec g n)])
            end in
          Config (set_cache v cache' (advance 1 (jw_world c))) (jw_history c) (jw_calls c) flights'
            (<[i := cl]> (jw_callers c))
      | Some (Waiting v0 g j) =>
          match jw_flights c !! j with
          | Some (Flight g' (Ret r)) =>
              if decide (g' = g) then
                match after_flight (cache_of v (jw_world c)) g r with
                | None => set_caller i (Starting v0) c
                | Some r => set_caller i (Returned v0 r) c
                end
              else c
          | _ => c
          end
      | _ => c
      end
  end.

Lemma exec_move_step c m : valid_id_order iter → rtc (jwks_step v) c (exec_move c m).
Proof.
  intros Hi. destruct m as [i | j | | i]; simpl.
  - destruct (jw_calls c !! i) as [[| X f k] |] eqn:E; [done | by eapply rtc_once, step_call | done].
  - destruct (jw_flights c !! j) as [[g [| X f k]] |] eqn:E; [done | by eapply rtc_once, step_flight | done].
  - apply rtc_once, step_arrive.
  - destruct (jw_callers c !! i) as [[v0 | v0 n | v0 n | v0 g j | v0 r] |] eqn:E; [| | | | done | done].
    + by apply rtc_once, step_version.
    + by apply rtc_once, (step_lookup _ _ _ _ _ 1).
    + destruct (enter _ _ _) as [cache' out] eqn:Hen.
      destruct out as [| set | g]; apply rtc_once; (eapply (step_enter _ _ _ _ _ 1 _ _ _ _ iter 1 1 dec); [done | done | done |]); simpl; [done | done |]. by right.
    + destruct (jw_flights c !! j) as [[g' [r |]] |] eqn:Hj; try done.
      case_decide as Hg; [subst | done]. by eapply rtc_once, step_result.
Qed.

Lemma exec_moves_steps c ms : valid_id_order iter → rtc (jwks_step v) c (foldl exec_move c ms).
Proof.
  intros Hi. revert c. induction ms as [| m ms IH]; intros c; [done |]. simpl. etrans; [by apply exec_move_step | apply IH].
Qed.
End scheduler.

(** One caller finds the cache empty and starts a rebuild; another joins late and
    is served from the cache; a promotion of [b] runs in between. *)
Module Caller.
Import KeyLifecycleFacts.Demo.

#[export] Instance demo_laws : KeyCryptoLaws.
Proof. intros set j set' [= <-] x. rewrite elem_of_app, list_elem_of_singleton. done. Qed.

Definition served : jwks_config :=
  foldl (exec_move TokenSigning demo_order (λ s _, Ok s)) (start (demo_world demo_store) demo_calls)
    [MoveArrive; MoveCaller 0; MoveCaller 0; MoveCall 0; MoveCaller 0; MoveFlight 0; MoveFlight 0; MoveFlight 0;
     MoveFlight 0; MoveCaller 0; MoveArrive; MoveCaller 1; MoveCaller 1].

Lemma served_callers :
  jw_callers served = [Returned 2 (Ok ["a"; "b"]); Returned 2 (Ok ["a"; "b"])].
Proof. vm_compute. reflexivity. Qed.

End Caller.
