(* ===== verification/UriValidation.v ===== *)
(** * Redirect and client URIs

    internal/domain/urivalidation (redirect.go, cimd.go, cimd_pattern.go and
    resource.go) and internal/domain/canonical/id.go.  The URL parser and printer of
    net/url are the class [GoURL]; the accessors [Hostname] and [Port] and
    net.SplitHostPort are written out. *)

From S2P Require Import Prelude ApprovalHandlers.

(** ** Strings *)

Fixpoint contains_bytes (sub s : list ascii) : bool :=
  match strip_prefix sub s with
  | Some _ => true
  | None => match s with [] => false | _ :: s => contains_bytes sub s end
  end.
Definition Contains (s sub : string) : bool := contains_bytes (bytes sub) (bytes s).

Definition ContainsByte (s : string) (c : ascii) : bool := bool_decide (c ∈ bytes s).

(** [strings.Split(s, sep)] for a one-byte separator. *)
Fixpoint split_bytes (sep : ascii) (s : list ascii) : list (list ascii) :=
  match s with
  | [] => [[]]
  | c :: s =>
      if decide (c = sep) then [] :: split_bytes sep s
      else match split_bytes sep s with
           | seg :: segs => (c :: seg) :: segs
           | [] => [[c]]
           end
  end.
Definition Split (s : string) (sep : ascii) : list string := of_bytes <$> split_bytes sep (bytes s).

Definition Count (s : string) (c : ascii) : nat := length (filter (λ x, x = c) (bytes s)).
Definition ReplaceByte (s : string) (c : ascii) (by_ : string) : string :=
  of_bytes (concat ((λ x, if decide (x = c) then bytes by_ else [x]) <$> bytes s)).

Definition lower_byte (c : ascii) : ascii :=
  let n := N_of_ascii c in
  if bool_decide (65 ≤ n ≤ 90)%N then byte (n + 32) else c.
(** [strings.ToLower] on ASCII text. *)
Definition ToLower (s : string) : string := of_bytes (lower_byte <$> bytes s).

Definition HasSuffixByte (s : string) (c : ascii) : bool := bool_decide (last (bytes s) = Some c).

(** [strings.TrimRight(s, "/")] *)
Definition TrimRightSlash (s : string) : string :=
  of_bytes (reverse ((fix go l := match l with
                       | c :: l => if decide (c = "/"%char) then go l else c :: l
                       | [] => []
                       end) (reverse (bytes s)))).

(** Split at the last occurrence of [c]: what precedes it and what follows. *)
Fixpoint split_last (c : ascii) (s : list ascii) : option (list ascii * list ascii) :=
  match s with
  | [] => None
  | x :: s =>
      match split_last c s with
      | Some (l, r) => Some (x :: l, r)
      | None => if decide (x = c) then Some ([], s) else None
      end
  end.

(** ** net/url *)

Record URL := {
  u_Scheme : string;
  u_Opaque : string;
  u_User : option string;
  u_Host : string;
  u_Path : string;
  u_RawPath : string;
  u_OmitHost : bool;
  u_ForceQuery : bool;
  u_RawQuery : string;
  u_Fragment : string;
  u_RawFragment : string;
}.

Class GoURL := {
  url_Parse : string → option URL;
  url_ParseRequestURI : string → option URL;
  url_String : URL → string;
  url_EscapedPath : URL → string;
  url_PathUnescape : string → option string;
}.

Definition set_Host (h : string) (u : URL) : URL :=
  {| u_Scheme := u_Scheme u; u_Opaque := u_Opaque u; u_User := u_User u; u_Host := h; u_Path := u_Path u;
     u_RawPath := u_RawPath u; u_OmitHost := u_OmitHost u; u_ForceQuery := u_ForceQuery u;
     u_RawQuery := u_RawQuery u; u_Fragment := u_Fragment u; u_RawFragment := u_RawFragment u |}.

Definition set_Path (p raw : string) (u : URL) : URL :=
  {| u_Scheme := u_Scheme u; u_Opaque := u_Opaque u; u_User := u_User u; u_Host := u_Host u; u_Path := p;
     u_RawPath := raw; u_OmitHost := u_OmitHost u; u_ForceQuery := u_ForceQuery u;
     u_RawQuery := u_RawQuery u; u_Fragment := u_Fragment u; u_RawFragment := u_RawFragment u |}.

(** [splitHostPort] of net/url behind [Hostname] and [Port]: an optional port of
    digits after the last colon, then the brackets of an IPv6 literal. *)
Definition strip_brackets (h : list ascii) : list ascii :=
  match h with
  | c :: t =>
      if decide (c = "["%char) then
        match last t with
        | Some d => if decide (d = "]"%char) then removelast t else h
        | None => h
        end
      else h
  | [] => h
  end.

Definition url_splitHostPort (hostPort : string) : string * string :=
  let h := bytes hostPort in
  let '(host, port) :=
    match split_last ":"%char h with
    | Some (l, r) => if forallb (λ c, bool_decide (is_Some (digit_val c))) r then (l, r) else (h, [])
    | None => (h, [])
    end in
  (of_bytes (strip_brackets host), of_bytes port).

Definition Hostname (u : URL) : string := (url_splitHostPort (u_Host u)).1.
Definition Port (u : URL) : string := (url_splitHostPort (u_Host u)).2.

(** [net.SplitHostPort] *)
Definition SplitHostPort (hostport : string) : option (string * string) :=
  let s := bytes hostport in
  match split_last ":"%char s with
  | None => None
  | Some (l, port) =>
      match s with
      | c :: _ =>
          if decide (c = "["%char) then
            match l with
            | _ :: l' =>
                match last l' with
                | Some d =>
                    let host := removelast l' in
                    if decide (d = "]"%char) then
                      if bool_decide ("]"%char ∈ host) || bool_decide ("["%char ∈ host ++ port) ||
                         bool_decide ("]"%char ∈ port)
                      then None else Some (of_bytes host, of_bytes port)
                    else None
                | None => None
                end
            | [] => None
            end
          else if bool_decide (":"%char ∈ l) || bool_decide ("["%char ∈ s) || bool_decide ("]"%char ∈ s) then None
          else Some (of_bytes l, of_bytes port)
      | [] => None
      end
  end.

(** [n, err := strconv.Atoi(port); err == nil && 1 <= n && n <= 65535] *)
Definition valid_port (port : string) : option Z :=
  match ParseInt64 port with
  | Some n => if bool_decide (1 ≤ n ≤ 65535)%Z then Some n else None
  | None => None
  end.

Section uris.
Context `{GoURL}.

(** ** Redirect URIs *)

Definition hasValidRedirectAuthority (u : URL) : bool :=
  negb (bool_decide (u_Host u = "") || bool_decide (Hostname u = "")) &&
  negb (HasSuffixByte (u_Host u) ":"%char) &&
  (bool_decide (Port u = "") || bool_decide (is_Some (valid_port (Port u)))).

Definition isLoopbackRedirectHost (host : string) : bool :=
  bool_decide (host = "localhost") || bool_decide (host = "127.0.0.1") || bool_decide (host = "::1").

Definition normalizeRedirectHost (host : string) : string :=
  if ContainsByte host ":"%char then "[" +:+ host +:+ "]" else host.

(** The characters [strings.ContainsAny(uriStr, "# \t\n\r")] looks for. *)
Definition has_blank_or_fragment (s : string) : bool :=
  existsb (λ c, bool_decide (c ∈ [byte 35; byte 32; byte 9; byte 10; byte 13])) (bytes s).

Definition parseRedirectURI (uriStr : string) : option URL :=
  if has_blank_or_fragment uriStr then None
  else match url_ParseRequestURI uriStr with
  | None => None
  | Some u => if hasValidRedirectAuthority u then Some u else None
  end.

Definition IsValidRedirectURI (uriStr : string) : bool :=
  match parseRedirectURI uriStr with
  | None => false
  | Some u =>
      if decide (u_Scheme u = "https") then true
      else if decide (u_Scheme u = "http") then isLoopbackRedirectHost (Hostname u)
      else false
  end.

Definition privateUseRedirectURIChars : list ascii :=
  bytes "ABCDEFGHIJKLMNOPQRSTUVWXYZabcdefghijklmnopqrstuvwxyz0123456789-._~:/?@!$&'()+,;=".

Definition deniedPrivateUseSchemes : list string :=
  ["about"; "blob"; "data"; "file"; "filesystem"; "ftp"; "javascript"; "vbscript"; "view-source"; "ws"; "wss"].

Definition has_dot_segment (path : string) : bool :=
  existsb (λ seg, bool_decide (seg = ".") || bool_decide (seg = "..")) (Split path "/"%char).

Definition IsValidPrivateUseRedirectURI (uriStr : string) : bool :=
  negb (bool_decide (uriStr = "")) &&
  forallb (λ c, bool_decide (c ∈ privateUseRedirectURIChars)) (bytes uriStr) &&
  match url_Parse uriStr with
  | None => false
  | Some u =>
      negb (negb (bool_decide (url_String u = uriStr)) || negb (bool_decide (u_Opaque u = "")) ||
            bool_decide (is_Some (u_User u)) || u_ForceQuery u) &&
      negb (bool_decide (String.length (u_Scheme u) < 2)%nat || bool_decide (u_Scheme u = "http") ||
            bool_decide (u_Scheme u = "https") || bool_decide (u_Scheme u ∈ deniedPrivateUseSchemes)) &&
      (if decide (u_Host u = "") then u_OmitHost u
       else bool_decide (u_Host u = ToLower (u_Host u)) && hasValidRedirectAuthority u) &&
      negb (has_dot_segment (u_Path u))
  end.

Definition MatchesRedirectURI (registered incoming : string) : bool :=
  if IsValidPrivateUseRedirectURI registered then bool_decide (registered = incoming)
  else match parseRedirectURI registered, parseRedirectURI incoming with
  | Some r, Some i =>
      if isLoopbackRedirectHost (Hostname r)
      then bool_decide (url_String (set_Host (normalizeRedirectHost (Hostname r)) r) =
                        url_String (set_Host (normalizeRedirectHost (Hostname i)) i))
      else bool_decide (url_String r = url_String i)
  | _, _ => false
  end.

Definition IsRegisteredRedirectURI (clientRedirectURIs agentRedirectURIs : list string) (incoming : string) : bool :=
  if IsValidPrivateUseRedirectURI incoming
  then bool_decide (incoming ∈ clientRedirectURIs) && bool_decide (incoming ∈ agentRedirectURIs)
  else existsb (λ registered, MatchesRedirectURI registered incoming) clientRedirectURIs.

(** ** Client ID Metadata Document URLs *)

Definition containsEncodedPathSeparator (u : URL) : bool :=
  let path := ToLower (url_EscapedPath u) in
  ContainsByte (u_Path u) (byte 92) || Contains path "%2f" || Contains path "%5c".

(** The check of the authority: a port, if there is a port separator at all, must
    be 443; otherwise there must be a host. *)
Definition cimd_authority_ok (u : URL) : bool :=
  if negb (bool_decide (Port u = "")) || (negb (HasPrefix (u_Host u) "[") && ContainsByte (u_Host u) ":"%char)
  then match SplitHostPort (u_Host u) with
       | Some (h, p) =>
           negb (bool_decide (h = "") || bool_decide (p = "")) && bool_decide (valid_port p = Some 443%Z)
       | None => false
       end
  else negb (bool_decide (Hostname u = "")).

Definition ValidateCIMDClientURL (raw : string) : bool :=
  negb (ContainsByte raw "#"%char) && negb (ContainsByte raw "*"%char) &&
  match url_Parse raw with
  | None => false
  | Some u =>
      negb (containsEncodedPathSeparator u) && bool_decide (u_Scheme u = "https") &&
      bool_decide (u_User u = None) && cimd_authority_ok u &&
      negb (bool_decide (u_Path u = "") || bool_decide (u_Path u = "/")) &&
      negb (has_dot_segment (u_Path u))
  end.

Definition cimdClientURIPatternPlaceholder : string := "wildcard".

Definition ValidateCIMDClientURIRegistration (raw : string) : bool :=
  if negb (ContainsByte raw "*"%char) then ValidateCIMDClientURL raw
  else match url_Parse raw with
  | None => false
  | Some u =>
      let wildcardCount := length (filter (λ seg, seg = "*") (Split (url_EscapedPath u) "/"%char)) in
      bool_decide (wildcardCount = Count raw "*"%char) &&
      ValidateCIMDClientURL (ReplaceByte raw "*"%char cimdClientURIPatternPlaceholder)
  end.

(** Segment by segment; a wildcard matches one non-empty segment. *)
Fixpoint match_segments (pattern candidate : list string) : bool :=
  match pattern, candidate with
  | [], [] => true
  | p :: pattern, c :: candidate =>
      (if decide (p = "*") then negb (bool_decide (c = "") || bool_decide (c = "*")) else bool_decide (p = c)) &&
      match_segments pattern candidate
  | _, _ => false
  end.

Definition MatchesCIMDClientURI (pattern candidate : string) : bool :=
  ValidateCIMDClientURIRegistration pattern && ContainsByte pattern "*"%char && ValidateCIMDClientURL candidate &&
  match url_Parse pattern, url_Parse candidate with
  | Some p, Some c =>
      bool_decide (u_Scheme p = u_Scheme c) && bool_decide (u_Host p = u_Host c) &&
      bool_decide (u_RawQuery p = u_RawQuery c) &&
      match_segments (Split (url_EscapedPath p) "/"%char) (Split (url_EscapedPath c) "/"%char)
  | _, _ => false
  end.

(** ** Resource URIs *)

Definition NormalizeResourceURI (uri : string) : string :=
  if decide (uri = "") then "" else
  match url_Parse uri with
  | None => uri
  | Some parsed =>
      let escapedPath := url_EscapedPath parsed in
      let trimmedEscapedPath := TrimRightSlash escapedPath in
      if decide (trimmedEscapedPath = escapedPath) then uri else
      match (if decide (trimmedEscapedPath = "") then Some (set_Path "" "" parsed)
             else match url_PathUnescape trimmedEscapedPath with
                  | None => None
                  | Some trimmedPath =>
                      Some (set_Path trimmedPath
                              (if decide (trimmedEscapedPath = trimmedPath) then "" else trimmedEscapedPath) parsed)
                  end) with
      | None => uri
      | Some parsed =>
          let normalized := url_String parsed in
          if decide (url_Parse normalized = None) then uri else normalized
      end
  end.
End uris.

(** ** Canonical ids *)

Definition canonical_byte (c : ascii) : bool :=
  let n := N_of_ascii c in
  bool_decide (65 ≤ n ≤ 90)%N || bool_decide (97 ≤ n ≤ 122)%N || bool_decide (48 ≤ n ≤ 57)%N ||
  bool_decide (c ∈ ["."; "_"; "-"]%char).

(** [^[A-Za-z0-9._-]{1,128}$], and not the text of a UUID. *)
Definition ValidateCanonicalID `{UUID} (value : option string) : bool :=
  match value with
  | None => true
  | Some v =>
      let b := bytes v in
      bool_decide (1 ≤ length b ≤ 128)%nat && forallb canonical_byte b && bool_decide (uuid_Parse v = None)
  end.
