(* ===== verification/UriValidationFacts.v ===== *)
(** * What a registered client URI pattern can match

    A match of UriValidation.v stays on the pattern's host and path, and redirect URIs of
    private-use schemes are compared exactly. *)

From S2P Require Import Prelude ApprovalHandlers UriValidation.

(** ** Segments *)

Lemma split_bytes_segments sep s : Forall (λ seg, sep ∉ seg) (split_bytes sep s).
Proof.
  induction s as [| c s IH]; simpl; [repeat constructor; set_solver |].
  case_decide as Hc; [constructor; [set_solver | done] |].
  destruct (split_bytes sep s) as [| seg segs]; [repeat constructor; set_solver |].
  apply Forall_cons in IH as [H1 H2]. constructor; [set_solver | done].
Qed.

Lemma split_bytes_join sep s seg segs :
  split_bytes sep s = seg :: segs → s = seg ++ concat ((λ x, sep :: x) <$> segs).
Proof.
  revert seg segs. induction s as [| c s IH]; simpl; intros seg segs E; [by simplify_eq |].
  case_decide as Hc.
  - subst c. destruct (split_bytes sep s) as [| seg' segs'] eqn:Hs.
    { exfalso. destruct s; simpl in Hs; [done |]. case_decide; [done |]. by destruct (split_bytes _ _). }
    simplify_eq/=. f_equal. exact (IH seg' segs' eq_refl).
  - destruct (split_bytes sep s) as [| seg' segs'] eqn:Hs; simplify_eq/=.
    + exfalso. destruct s; simpl in Hs; [done |]. case_decide; [done |]. by destruct (split_bytes _ _).
    + f_equal. exact (IH seg' segs eq_refl).
Qed.

(** A pattern segment and the candidate segment it accepts. *)
Definition segment_accepts (p c : string) : Prop :=
  p = "*" ∧ c ≠ "" ∧ c ≠ "*" ∨ p ≠ "*" ∧ p = c.

Lemma match_segments_spec pattern candidate :
  match_segments pattern candidate = true ↔ Forall2 segment_accepts pattern candidate.
Proof.
  revert candidate. induction pattern as [| p pattern IH]; intros [| c candidate]; simpl.
  - by split; [constructor |].
  - split; [done | inversion 1].
  - split; [done | inversion 1].
  - rewrite andb_true_iff, IH, Forall2_cons. apply and_iff_compat_r. unfold segment_accepts.
    case_decide; [rewrite negb_true_iff, orb_false_iff, !bool_decide_eq_false | rewrite bool_decide_eq_true]; naive_solver.
Qed.

Section facts.
Context `{GoURL}.

(** What a valid client URL is made of. *)
Lemma ValidateCIMDClientURL_inv raw :
  ValidateCIMDClientURL raw = true →
  ∃ u, url_Parse raw = Some u ∧ u_Scheme u = "https" ∧ u_User u = None ∧ ContainsByte raw "#"%char = false ∧
    ContainsByte raw "*"%char = false ∧ containsEncodedPathSeparator u = false ∧ has_dot_segment (u_Path u) = false ∧
    u_Path u ≠ "" ∧ u_Path u ≠ "/" ∧ cimd_authority_ok u = true.
Proof.
  unfold ValidateCIMDClientURL. intros Hv. destruct (url_Parse raw) as [u |]; breflect; [| done].
  exists u. naive_solver.
Qed.

(** A client URI that matches a registered pattern is an https URL without
    user info, fragment, wildcard, dot segment or encoded separator, on exactly the host
    and with exactly the query of the pattern; segment by segment its path equals the
    pattern's, except that a wildcard stands for one non-empty segment (which contains no
    slash). *)
Theorem cimd_match_safe pattern candidate :
  MatchesCIMDClientURI pattern candidate = true →
  ∃ p c, url_Parse pattern = Some p ∧ url_Parse candidate = Some c ∧
    u_Scheme c = "https" ∧ u_User c = None ∧ u_Host c = u_Host p ∧ u_RawQuery c = u_RawQuery p ∧
    ContainsByte candidate "#"%char = false ∧ ContainsByte candidate "*"%char = false ∧
    has_dot_segment (u_Path c) = false ∧ containsEncodedPathSeparator c = false ∧
    Forall2 segment_accepts (Split (url_EscapedPath p) "/"%char) (Split (url_EscapedPath c) "/"%char) ∧
    Forall (λ seg, ContainsByte seg "/"%char = false) (Split (url_EscapedPath c) "/"%char).
Proof.
  unfold MatchesCIMDClientURI. intros Hm. breflect.
  match goal with Hv : ValidateCIMDClientURL candidate = true |- _ =>
    destruct (ValidateCIMDClientURL_inv candidate Hv) as (c & Hc & E1 & E2 & E3 & E4 & E5 & E6 & _) end.
  destruct (url_Parse pattern) as [p |]; [| done]. rewrite Hc in *. breflect. exists p, c.
  split_and!; try done; [by apply match_segments_spec |].
  unfold Split. apply Forall_fmap. eapply Forall_impl; [apply split_bytes_segments |].
  intros seg Hseg. unfold ContainsByte. simpl. rewrite bytes_of_bytes. by apply bool_decide_eq_false_2.
Qed.
End facts.

(** A parser for the three URLs of an example. *)
Module Example.
Definition https_url (path : string) : URL :=
  {| u_Scheme := "https"; u_Opaque := ""; u_User := None; u_Host := "h.io"; u_Path := path; u_RawPath := "";
     u_OmitHost := false; u_ForceQuery := false; u_RawQuery := ""; u_Fragment := ""; u_RawFragment := "" |}.
Instance urls : GoURL :=
  {| url_Parse s := if HasPrefix s "https://h.io/" then Some (https_url (TrimPrefix s "https://h.io")) else None;
     url_ParseRequestURI _ := None; url_String u := "https://h.io" +:+ u_Path u; url_EscapedPath := u_Path;
     url_PathUnescape _ := None |}.

Lemma cimd_match_safe_witness :
  MatchesCIMDClientURI "https://h.io/t/*/c" "https://h.io/t/a/c" = true ∧
  MatchesCIMDClientURI "https://h.io/t/*/c" "https://h.io/t/a/b/c" = false ∧
  ∃ c, url_Parse "https://h.io/t/a/c" = Some c ∧ u_Host c = "h.io".
Proof.
  split; [vm_compute; reflexivity |]. split; [vm_compute; reflexivity |].
  destruct (cimd_match_safe "https://h.io/t/*/c" "https://h.io/t/a/c") as (p & c & Hp & Hc & _ & _ & Hh & _).
  - vm_compute. reflexivity.
  - exists c. split; [exact Hc |]. rewrite Hh. injection Hp as <-. reflexivity.
Defined.
End Example.
