(* ===== verification/UniqueIndex.v ===== *)
(** * Unique keys

    The secondary indices of the in-memory repositories: a map from a unique key to the
    id of the element that has it, kept beside the map of elements. *)

From S2P Require Import Prelude.

(** The loops that look every element up in a set of those seen before. *)
Fixpoint no_repeat_from (seen : gset string) (l : list string) : bool :=
  match l with
  | [] => true
  | x :: l => negb (bool_decide (x ∈ seen)) && no_repeat_from ({[x]} ∪ seen) l
  end.
Definition no_repeat : list string → bool := no_repeat_from ∅.

(** An index entry of another owner. *)
Definition held_by_other `{Countable K} (index : gmap K string) (key : K) (i : string) : bool :=
  match index !! key with Some holder => negb (bool_decide (holder = i)) | None => false end.

Definition index_set `{Countable K} (key : option K) (i : string) (index : gmap K string) : gmap K string :=
  match key with Some k => <[k := i]> index | None => index end.
Definition index_clear `{Countable K} (key : option K) (index : gmap K string) : gmap K string :=
  match key with Some k => delete k index | None => index end.
Definition index_set_all `{Countable K} (keys : list K) (i : string) (index : gmap K string) : gmap K string :=
  foldl (λ m k, <[k := i]> m) index keys.
Definition index_clear_all `{Countable K} (keys : list K) (index : gmap K string) : gmap K string :=
  foldl (λ m k, delete k m) index keys.

(** ** Lemmas *)

Lemma index_set_all_lookup `{Countable K} (keys : list K) i ix k :
  index_set_all keys i ix !! k = if decide (k ∈ keys) then Some i else ix !! k.
Proof.
  unfold index_set_all. revert ix. induction keys as [| x keys IH]; intros ix; simpl.
  { done. }
  rewrite IH. destruct (decide (k ∈ keys)) as [Hin | Hout].
  { by rewrite decide_True by set_solver. }
  destruct (decide (x = k)) as [-> | Hne].
  - rewrite lookup_insert_eq, decide_True by set_solver. done.
  - rewrite lookup_insert_ne, decide_False by set_solver. done.
Qed.

Lemma index_clear_all_lookup `{Countable K} (keys : list K) ix k :
  index_clear_all keys ix !! k = if decide (k ∈ keys) then None else ix !! k.
Proof.
  unfold index_clear_all. revert ix. induction keys as [| x keys IH]; intros ix; simpl.
  { done. }
  rewrite IH. destruct (decide (k ∈ keys)) as [Hin | Hout].
  { by rewrite decide_True by set_solver. }
  destruct (decide (x = k)) as [-> | Hne].
  - rewrite lookup_delete_eq, decide_True by set_solver. done.
  - rewrite lookup_delete_ne, decide_False by set_solver. done.
Qed.

(** A single optional key is a list of at most one. *)
Lemma index_set_option `{Countable K} (key : option K) i ix : index_set key i ix = index_set_all (option_list key) i ix.
Proof. by destruct key. Qed.
Lemma index_clear_option `{Countable K} (key : option K) ix : index_clear key ix = index_clear_all (option_list key) ix.
Proof. by destruct key. Qed.
Lemma elem_of_option_list {A} (k : A) (o : option A) : k ∈ option_list o ↔ o = Some k.
Proof. destruct o; simpl; [rewrite list_elem_of_singleton; naive_solver | set_solver]. Qed.

Section indexes.
Context `{Countable K} {A : Type}.
Implicit Types (keys : A → list K) (m : gmap string A) (ix : gmap K string).

(** [ix] maps every key of an element of [m] to that element, and nothing else. *)
Definition indexes (keys : A → list K) (ix : gmap K string) (m : gmap string A) : Prop :=
  ∀ k i, ix !! k = Some i ↔ ∃ a, m !! i = Some a ∧ k ∈ keys a.

(** Some element other than [i] has the key. *)
Definition taken (keys : A → list K) (k : K) (i : string) (m : gmap string A) : Prop :=
  map_Exists (λ j b, j ≠ i ∧ k ∈ keys b) m.
#[export] Instance taken_dec keys k i m : Decision (taken keys k i m).
Proof. unfold taken. apply _. Defined.

Lemma taken_spec keys k i m : taken keys k i m ↔ ∃ j b, m !! j = Some b ∧ j ≠ i ∧ k ∈ keys b.
Proof. done. Qed.

Lemma held_by_other_spec keys ix m k i :
  indexes keys ix m → held_by_other ix k i = bool_decide (taken keys k i m).
Proof.
  intros Hix. unfold held_by_other. destruct (ix !! k) as [j |] eqn:Hk.
  - destruct (proj1 (Hix k j) Hk) as (a & Ha & Hka). case_bool_decide as Hj; simpl; symmetry.
    + subst j. apply bool_decide_eq_false_2. rewrite taken_spec. intros (j & b & Hb & Hne & Hkb).
      assert (ix !! k = Some j) by (apply Hix; eauto). congruence.
    + apply bool_decide_eq_true_2. rewrite taken_spec. eauto 6.
  - symmetry. apply bool_decide_eq_false_2. rewrite taken_spec. intros (j & b & Hb & _ & Hkb).
    assert (ix !! k = Some j) by (apply Hix; eauto). congruence.
Qed.

(** A new element finds a key taken when the index has it. *)
Lemma present_taken keys ix m k i :
  indexes keys ix m → m !! i = None → bool_decide (is_Some (ix !! k)) = bool_decide (taken keys k i m).
Proof.
  intros Hix Hi. rewrite <-(held_by_other_spec keys ix m k i Hix). unfold held_by_other.
  destruct (ix !! k) as [j |] eqn:Hj; [| done]. rewrite bool_decide_eq_true_2 by eauto.
  rewrite bool_decide_eq_false_2; [done |]. intros ->. apply Hix in Hj as (b & Hb & _). congruence.
Qed.

Lemma indexes_delete keys ix m i a :
  indexes keys ix m → m !! i = Some a → indexes keys (index_clear_all (keys a) ix) (delete i m).
Proof.
  intros Hix Hi k j. rewrite index_clear_all_lookup. case_decide as Hk.
  - split; [done |]. intros (b & [Hne Hb]%lookup_delete_Some & Hkb).
    assert (ix !! k = Some i) by (apply Hix; eauto). assert (ix !! k = Some j) by (apply Hix; eauto). congruence.
  - rewrite (Hix k j). split.
    + intros (b & Hb & Hkb). exists b. rewrite lookup_delete_Some. split; [| done]. split; [| done].
      intros <-. congruence.
    + intros (b & [_ Hb]%lookup_delete_Some & Hkb). eauto.
Qed.

Lemma indexes_insert keys ix m i a :
  indexes keys ix m → m !! i = None → (∀ k, k ∈ keys a → ¬ taken keys k i m) →
  indexes keys (index_set_all (keys a) i ix) (<[i := a]> m).
Proof.
  intros Hix Hi Hfree k j. rewrite index_set_all_lookup. case_decide as Hk.
  - split.
    + intros [= <-]. exists a. by rewrite lookup_insert_eq.
    + intros (b & [[-> _] | [Hne Hb]]%lookup_insert_Some & Hkb); [done |].
      destruct (Hfree k Hk). apply taken_spec. eauto 6.
  - rewrite (Hix k j). split.
    + intros (b & Hb & Hkb). exists b. rewrite lookup_insert_ne; [done |]. intros ->. congruence.
    + intros (b & [[-> <-] | [Hne Hb]]%lookup_insert_Some & Hkb); [done | eauto].
Qed.

(** Replacing an element: its old keys are cleared before the new ones are set. *)
Lemma indexes_update keys ix m i old a :
  indexes keys ix m → m !! i = Some old → (∀ k, k ∈ keys a → ¬ taken keys k i m) →
  indexes keys (index_set_all (keys a) i (index_clear_all (keys old) ix)) (<[i := a]> m).
Proof.
  intros Hix Hi Hfree. rewrite <-insert_delete_eq. apply indexes_insert; [by apply indexes_delete | by rewrite lookup_delete_eq |].
  intros k Hk. rewrite taken_spec. intros (j & b & [_ Hb]%lookup_delete_Some & Hne & Hkb).
  destruct (Hfree k Hk). apply taken_spec. eauto 6.
Qed.

(** Replacing an element, by what the new index holds. *)
Lemma indexes_change keys ix ix' m i a :
  indexes keys ix m →
  (∀ k j, ix' !! k = Some j ↔ (j = i ∧ k ∈ keys a) ∨ (j ≠ i ∧ ix !! k = Some j)) →
  indexes keys ix' (<[i := a]> m).
Proof.
  intros Hix Hch k j. rewrite Hch, (Hix k j). destruct (decide (j = i)) as [-> | Hne].
  - split.
    + intros [[_ Hk] | [? _]]; [| done]. exists a. by rewrite lookup_insert_eq.
    + intros (b & Hb & Hk). rewrite lookup_insert_eq in Hb. simplify_eq. by left.
  - rewrite lookup_insert_ne by done. naive_solver.
Qed.

Lemma indexes_same_keys keys ix m i old a :
  indexes keys ix m → m !! i = Some old → keys a = keys old → indexes keys ix (<[i := a]> m).
Proof.
  intros Hix Hi Hk. eapply indexes_change; [exact Hix |]. intros k j. rewrite Hk. split.
  - intros Hj. destruct (decide (j = i)) as [-> | Hne]; [left | by right]. split; [done |].
    apply Hix in Hj as (b & Hb & ?). by simplify_eq.
  - intros [[-> Hin] | [_ ?]]; [| done]. apply Hix. eauto.
Qed.

Lemma indexes_empty keys : indexes keys ∅ ∅.
Proof. intros k i. rewrite lookup_empty. split; [done |]. by intros (a & ? & _). Qed.

(** An element has at most one owner per key. *)
Lemma indexes_inj keys ix m k i j a b :
  indexes keys ix m → m !! i = Some a → m !! j = Some b → k ∈ keys a → k ∈ keys b → i = j.
Proof.
  intros Hix Ha Hb Hka Hkb. assert (ix !! k = Some i) by (apply Hix; eauto).
  assert (ix !! k = Some j) by (apply Hix; eauto). congruence.
Qed.
End indexes.

Lemma no_repeat_from_spec seen l : no_repeat_from seen l = true ↔ NoDup l ∧ ∀ x, x ∈ l → x ∉ seen.
Proof.
  revert seen. induction l as [| x l IH]; intros seen; simpl.
  { split; [intros _; split; [constructor | set_solver] | done]. }
  rewrite andb_true_iff, negb_true_iff, bool_decide_eq_false, IH, NoDup_cons. set_solver.
Qed.
Lemma no_repeat_spec l : no_repeat l = true ↔ NoDup l.
Proof. unfold no_repeat. rewrite no_repeat_from_spec. set_solver. Qed.
