(* ===== verification/Agents.v ===== *)
(** * Agents

    Validation of agents (internal/domain/storage/agent.go, requirement_type.go and
    service_requirement.go) and their in-memory repository
    (internal/adapters/storage/memory/agent_repository.go): a map of agents with four
    indices, by external id, canonical id, client id and client URI.  Every method
    holds the repository's lock and exchanges deep copies, so each is one function on
    the repository. *)

From S2P Require Import Prelude ToolApproval ApprovalStore ApprovalHandlers OAuthSessions UserGrants Consent UriValidation UniqueIndex.

Abbreviation ExternalID := string (only parsing).
Abbreviation ClientID := string (only parsing).

(** ** UTF-8 text *)

Definition byte_val (c : ascii) : Z := Z.of_N (N_of_ascii c).
Definition RuneError : Z := 65533.

(** [utf8.DecodeRuneInString]: the first rune and its width.  Overlong forms,
    surrogates and values past U+10FFFF are errors of width one. *)
Definition is_cont (lo hi b : Z) : bool := bool_decide (lo ≤ b ≤ hi)%Z.

Definition DecodeRune (s : list Z) : Z * nat :=
  let bad := (RuneError, 1%nat) in
  match s with
  | [] => (RuneError, 0%nat)
  | b0 :: s1 =>
      if bool_decide (b0 < 128)%Z then (b0, 1%nat)
      else if bool_decide (194 ≤ b0 ≤ 223)%Z then
        match s1 with
        | b1 :: _ => if is_cont 128 191 b1 then (((b0 - 192) * 64 + (b1 - 128))%Z, 2%nat) else bad
        | _ => bad
        end
      else if bool_decide (224 ≤ b0 ≤ 239)%Z then
        let lo := if decide (b0 = 224)%Z then 160%Z else 128%Z in
        let hi := if decide (b0 = 237)%Z then 159%Z else 191%Z in
        match s1 with
        | b1 :: b2 :: _ =>
            if is_cont lo hi b1 && is_cont 128 191 b2
            then (((b0 - 224) * 4096 + (b1 - 128) * 64 + (b2 - 128))%Z, 3%nat) else bad
        | _ => bad
        end
      else if bool_decide (240 ≤ b0 ≤ 244)%Z then
        let lo := if decide (b0 = 240)%Z then 144%Z else 128%Z in
        let hi := if decide (b0 = 244)%Z then 143%Z else 191%Z in
        match s1 with
        | b1 :: b2 :: b3 :: _ =>
            if is_cont lo hi b1 && is_cont 128 191 b2 && is_cont 128 191 b3
            then (((b0 - 240) * 262144 + (b1 - 128) * 4096 + (b2 - 128) * 64 + (b3 - 128))%Z, 4%nat) else bad
        | _ => bad
        end
      else bad
  end.

(** The loop of [ValidateExternalID]; a rune has at least one byte, so the number of
    bytes bounds the iterations. *)
Fixpoint external_id_loop (fuel : nat) (value : list Z) (count : nat) : bool :=
  match value with
  | [] => negb (bool_decide (count = 0))
  | _ =>
      match fuel with
      | O => false
      | S fuel =>
          let '(r, size) := DecodeRune value in
          if bool_decide (r = RuneError) && bool_decide (size = 1) then false
          else if bool_decide (r = 0%Z) then false
          else if bool_decide (255 < S count)%nat then false
          else external_id_loop fuel (drop size value) (S count)
      end
  end.

Definition ValidateExternalID (externalID : ExternalID) : bool :=
  let value := byte_val <$> bytes externalID in
  external_id_loop (length value) value 0.

(** ** Validation *)

Definition RequirementType_Valid (t : RequirementType) : bool :=
  bool_decide (t = Mandatory) || bool_decide (t = Optional).

Definition ServiceRequirement_Validate (sr : ServiceRequirement) : bool :=
  nonzero_id (sr_ServiceID sr) && RequirementType_Valid (sr_RequirementType sr) &&
  forallb nonempty (sr_RequiredScopes sr) &&
  negb (sr_RequireAllScopes sr && negb (bool_decide (sr_RequiredScopes sr = []))).

Definition HasScope (scope : string) (sr : ServiceRequirement) : bool :=
  existsb (λ s, bool_decide (s = scope)) (sr_RequiredScopes sr).

Definition ValidateServiceRequirements (a : Agent) : bool :=
  forallb ServiceRequirement_Validate (ag_ServiceRequirements a) &&
  no_repeat (sr_ServiceID <$> ag_ServiceRequirements a).

Definition ValidatePermissionSets (a : Agent) : bool :=
  negb (bool_decide (ag_PermissionSets a = [])) &&
  forallb (λ e, nonzero_id (aps_PermissionSetID e) && RequirementType_Valid (aps_RequirementType e))
    (ag_PermissionSets a) &&
  no_repeat (aps_PermissionSetID <$> ag_PermissionSets a).

Section validation.
Context `{GoURL} `{UUID}.

Definition isValidURL (urlStr : string) : bool :=
  match url_Parse urlStr with
  | None => false
  | Some u => bool_decide (u_Scheme u = "http") || bool_decide (u_Scheme u = "https")
  end.

Definition optional_url (u : option string) : bool := match u with Some u => isValidURL u | None => true end.

Definition validateClientURIFormats (uris : list string) : bool :=
  no_repeat uris && forallb ValidateCIMDClientURIRegistration uris.

Definition validateFields (a : Agent) : bool :=
  ValidateCanonicalID (ag_CanonicalID a) &&
  match ag_ExternalID a with Some x => nonempty x && ValidateExternalID x | None => true end &&
  match ag_ClientID a with Some c => nonempty (TrimSpace c) | None => true end &&
  negb (bool_decide (is_Some (ag_ClientID a)) && negb (bool_decide (ag_ClientURIs a = []))) &&
  nonempty (ag_DisplayName a) && bool_decide (String.length (ag_DisplayName a) ≤ 255)%nat &&
  nonempty (ag_Description a) && bool_decide (String.length (ag_Description a) ≤ 1000)%nat &&
  optional_url (ag_GovernanceURL a) && optional_url (ag_UserDocumentationURL a) &&
  optional_url (ag_AgentInterfaceURL a) &&
  forallb (λ uri, IsValidRedirectURI uri || IsValidPrivateUseRedirectURI uri) (ag_RedirectURIs a) &&
  validateClientURIFormats (ag_ClientURIs a) &&
  ValidateServiceRequirements a && ValidatePermissionSets a.

Definition Agent_Validate (a : Agent) : bool := nonzero_id (ag_ID a) && validateFields a.
Definition Agent_ValidateForCreate (a : Agent) : bool := validateFields a.

(** ** The repository *)

Record AgentRepository := AgentRepo {
  ar_agents : gmap AgentID Agent;
  byExternalID : gmap ExternalID AgentID;
  byCanonicalID : gmap string AgentID;
  byClientID : gmap ClientID (list AgentID);
  byClientURI : gmap string AgentID;
}.

Definition NewAgentRepository : AgentRepository := AgentRepo ∅ ∅ ∅ ∅ ∅.

Definition set_ag_ID (i : AgentID) (a : Agent) : Agent :=
  {| ag_ID := i; ag_CanonicalID := ag_CanonicalID a; ag_ClientID := ag_ClientID a; ag_ExternalID := ag_ExternalID a;
     ag_DisplayName := ag_DisplayName a; ag_Description := ag_Description a; ag_GovernanceURL := ag_GovernanceURL a;
     ag_UserDocumentationURL := ag_UserDocumentationURL a; ag_AgentInterfaceURL := ag_AgentInterfaceURL a;
     ag_ServiceRequirements := ag_ServiceRequirements a; ag_PermissionSets := ag_PermissionSets a;
     ag_RedirectURIs := ag_RedirectURIs a; ag_AllowedScopes := ag_AllowedScopes a; ag_ClientURIs := ag_ClientURIs a;
     ag_CreatedAt := ag_CreatedAt a; ag_UpdatedAt := ag_UpdatedAt a |}.

Definition checkExternalID (a : Agent) (r : AgentRepository) : result ErrorKind unit :=
  match ag_ExternalID a with
  | Some x => if held_by_other (byExternalID r) x (ag_ID a) then Err KConflict else Ok ()
  | None => Ok ()
  end.

Definition client_uris_free (a : Agent) (r : AgentRepository) : bool :=
  forallb (λ uri, negb (held_by_other (byClientURI r) uri (ag_ID a))) (ag_ClientURIs a).

Definition client_append (c : option ClientID) (i : AgentID) (index : gmap ClientID (list AgentID))
    : gmap ClientID (list AgentID) :=
  match c with Some c => <[c := default [] (index !! c) ++ [i]]> index | None => index end.

(** The first occurrence is cut out of the slice. *)
Fixpoint cut_first (i : AgentID) (l : list AgentID) : list AgentID :=
  match l with
  | [] => []
  | x :: l => if decide (x = i) then l else x :: cut_first i l
  end.

Definition removeFromClientIDIndex (c : ClientID) (i : AgentID) (index : gmap ClientID (list AgentID))
    : gmap ClientID (list AgentID) :=
  match cut_first i (default [] (index !! c)) with
  | [] => delete c index
  | ids => <[c := ids]> index
  end.

(** [newID] is the UUID drawn when the agent has none; the result is the stored agent. *)
Definition agent_Create (newID : AgentID) (agent : Agent) (r : AgentRepository)
    : AgentRepository * result ErrorKind Agent :=
  let agent := if nonzero_id (ag_ID agent) then agent else set_ag_ID newID agent in
  if bool_decide (is_Some (ar_agents r !! ag_ID agent)) then (r, Err KConflict)
  else if negb (Agent_ValidateForCreate agent) then (r, Err KValidation)
  else match checkExternalID agent r with
  | Err k => (r, Err k)
  | Ok _ =>
      if match ag_CanonicalID agent with
         | Some c => bool_decide (is_Some (byCanonicalID r !! c)) | None => false end
      then (r, Err KConflict)
      else if negb (client_uris_free agent r) then (r, Err KConflict)
      else
        (AgentRepo (<[ag_ID agent := agent]> (ar_agents r))
           (index_set (ag_ExternalID agent) (ag_ID agent) (byExternalID r))
           (index_set (ag_CanonicalID agent) (ag_ID agent) (byCanonicalID r))
           (client_append (ag_ClientID agent) (ag_ID agent) (byClientID r))
           (index_set_all (ag_ClientURIs agent) (ag_ID agent) (byClientURI r)), Ok agent)
  end.

Definition agent_Get (i : AgentID) (r : AgentRepository) : result ErrorKind Agent :=
  match ar_agents r !! i with Some a => Ok a | None => Err KNotFound end.

Fixpoint agents_by_ids (seen : gset AgentID) (ids : list AgentID) (r : AgentRepository) : list Agent :=
  match ids with
  | [] => []
  | i :: ids =>
      match ar_agents r !! i with
      | Some a => if decide (i ∈ seen) then agents_by_ids seen ids r else a :: agents_by_ids ({[i]} ∪ seen) ids r
      | None => agents_by_ids seen ids r
      end
  end.
Definition agent_GetByIDs (ids : list AgentID) (r : AgentRepository) : list Agent := agents_by_ids ∅ ids r.

(** Lookups through an index.  [Ok None] is a nil agent without an error, for an
    index entry that names no agent. *)
Definition agent_GetByCanonicalID (c : string) (r : AgentRepository) : result ErrorKind (option Agent) :=
  match byCanonicalID r !! c with Some i => Ok (ar_agents r !! i) | None => Err KNotFound end.

Definition agent_GetByExternalID (x : ExternalID) (r : AgentRepository) : result ErrorKind (option Agent) :=
  match byExternalID r !! x with Some i => Ok (ar_agents r !! i) | None => Err KNotFound end.

Definition agent_GetByClientID (c : ClientID) (r : AgentRepository) : result ErrorKind (option Agent) :=
  match byClientID r !! c with Some (i :: _) => Ok (ar_agents r !! i) | _ => Err KNotFound end.

Definition agent_ExistsOtherWithClientID (c : ClientID) (exclude : option AgentID) (r : AgentRepository) : bool :=
  existsb (λ i, match exclude with Some e => negb (bool_decide (i = e)) | None => true end)
    (default [] (byClientID r !! c)).

(** The agents one of whose registered patterns matches. *)
Definition matched_agents (uri : string) (r : AgentRepository) : gset AgentID :=
  list_to_set (snd <$> filter (λ '(registered, i), is_Some (ar_agents r !! i) ∧ MatchesCIMDClientURI registered uri = true)
    (map_to_list (byClientURI r))).

Definition agent_GetByClientURI (uri : string) (r : AgentRepository) : result ErrorKind (option Agent) :=
  match byClientURI r !! uri ≫= (λ i, ar_agents r !! i) with
  | Some a => Ok (Some a)
  | None =>
      match elements (matched_agents uri r) with
      | [] => Err KNotFound
      | [i] => Ok (ar_agents r !! i)
      | _ => Err KConflict
      end
  end.

Definition agent_Update (agent : Agent) (r : AgentRepository) : AgentRepository * result ErrorKind unit :=
  match ar_agents r !! ag_ID agent with
  | None => (r, Err KNotFound)
  | Some existing =>
      match checkExternalID agent r with
      | Err k => (r, Err k)
      | Ok _ =>
          if negb (client_uris_free agent r) then (r, Err KConflict)
          else if negb (Agent_Validate agent) then (r, Err KValidation)
          else if match ag_CanonicalID agent with
                  | Some c => held_by_other (byCanonicalID r) c (ag_ID agent) | None => false end
          then (r, Err KConflict)
          else
            let byClientID' :=
              if decide (ag_ClientID existing = ag_ClientID agent) then byClientID r
              else client_append (ag_ClientID agent) (ag_ID agent)
                     (match ag_ClientID existing with
                      | Some c => removeFromClientIDIndex c (ag_ID agent) (byClientID r)
                      | None => byClientID r
                      end) in
            (AgentRepo (<[ag_ID agent := agent]> (ar_agents r))
               (index_set (ag_ExternalID agent) (ag_ID agent) (index_clear (ag_ExternalID existing) (byExternalID r)))
               (index_set (ag_CanonicalID agent) (ag_ID agent) (index_clear (ag_CanonicalID existing) (byCanonicalID r)))
               byClientID'
               (index_set_all (ag_ClientURIs agent) (ag_ID agent)
                  (index_clear_all (ag_ClientURIs existing) (byClientURI r))), Ok ())
      end
  end.

Definition agent_Delete (i : AgentID) (r : AgentRepository) : AgentRepository * bool :=
  match ar_agents r !! i with
  | None => (r, false)
  | Some a =>
      (AgentRepo (delete i (ar_agents r))
         (index_clear (ag_ExternalID a) (byExternalID r))
         (index_clear (ag_CanonicalID a) (byCanonicalID r))
         (match ag_ClientID a with Some c => removeFromClientIDIndex c i (byClientID r) | None => byClientID r end)
         (index_clear_all (ag_ClientURIs a) (byClientURI r)), true)
  end.

(** In the map's visiting order. *)
Definition agent_List (r : AgentRepository) : list Agent := (map_to_list (ar_agents r)).*2.

End validation.
