(* ===== verification/AgentsFacts.v ===== *)
(** * The agent repository is a map with unique keys

    The four indices of Agents.v always agree with the agents: seen from outside, the
    repository is a plain map of agents in which no two agents share an external id, a
    canonical id or a client URI.  Also: what text is accepted as an external id. *)

From S2P Require Import Prelude ToolApproval ApprovalStore ApprovalHandlers OAuthSessions UserGrants Consent UriValidation UniqueIndex Agents.

(** ** External ids are UTF-8 text *)

(** A Unicode scalar value other than NUL. *)
Definition text_rune (r : Z) : Prop := (1 ≤ r < 55296 ∨ 57344 ≤ r ≤ 1114111)%Z.

Definition encode_rune (r : Z) : list Z :=
  if decide (r < 128)%Z then [r]
  else if decide (r < 2048)%Z then [192 + r / 64; 128 + r mod 64]%Z
  else if decide (r < 65536)%Z then [224 + r / 4096; 128 + r / 64 mod 64; 128 + r mod 64]%Z
  else [240 + r / 262144; 128 + r / 4096 mod 64; 128 + r / 64 mod 64; 128 + r mod 64]%Z.

Ltac decide_byte := repeat (case_bool_decide; try (exfalso; lia); []).

Lemma is_cont_true lo hi b : (lo ≤ b ≤ hi)%Z → is_cont lo hi b = true.
Proof. apply bool_decide_eq_true_2. Qed.

Lemma encode_rune_cases r (P : list Z → Prop) :
  text_rune r →
  ((1 ≤ r < 128)%Z → P [r]) →
  (∀ a b, (128 ≤ r < 2048 ∧ r = a * 64 + b ∧ 0 ≤ b < 64)%Z → P [192 + a; 128 + b]%Z) →
  (∀ a b c, ((2048 ≤ r < 55296 ∨ 57344 ≤ r < 65536) ∧ r = a * 4096 + b * 64 + c ∧ 0 ≤ b < 64 ∧ 0 ≤ c < 64)%Z →
     P [224 + a; 128 + b; 128 + c]%Z) →
  (∀ a b c d, (65536 ≤ r ≤ 1114111 ∧ r = a * 262144 + b * 4096 + c * 64 + d ∧
               0 ≤ b < 64 ∧ 0 ≤ c < 64 ∧ 0 ≤ d < 64)%Z → P [240 + a; 128 + b; 128 + c; 128 + d]%Z) →
  P (encode_rune r).
Proof.
  intros Hr H1 H2 H3 H4. unfold text_rune in Hr. unfold encode_rune.
  repeat case_decide; [apply H1 | apply H2 | apply H3 | apply H4]; Z.to_euclidean_division_equations; lia.
Qed.

Lemma decode_encode r rest : text_rune r → DecodeRune (encode_rune r ++ rest) = (r, length (encode_rune r)).
Proof.
  intros Hr. apply (encode_rune_cases r (λ l, DecodeRune (l ++ rest) = (r, length l))); [done | ..]; intros; simpl.
  - by decide_byte.
  - decide_byte. rewrite is_cont_true by lia. f_equal. lia.
  - decide_byte. rewrite (is_cont_true 128 191 (128 + c)) by lia.
    rewrite is_cont_true by (repeat case_decide; lia). simpl. f_equal. lia.
  - decide_byte. rewrite (is_cont_true 128 191 (128 + c)), (is_cont_true 128 191 (128 + d)) by lia.
    rewrite is_cont_true by (repeat case_decide; lia). simpl. f_equal. lia.
Qed.

(** What decodes without an error is the encoding of the rune. *)
Lemma encode_1 r : (1 ≤ r < 128)%Z → encode_rune r = [r].
Proof. intros. unfold encode_rune. by rewrite decide_True by lia. Qed.
Lemma encode_2 a b : (128 ≤ a * 64 + b < 2048 → 0 ≤ b < 64 → encode_rune (a * 64 + b) = [192 + a; 128 + b])%Z.
Proof.
  intros. unfold encode_rune. rewrite decide_False, decide_True by lia.
  repeat f_equal; Z.to_euclidean_division_equations; lia.
Qed.
Lemma encode_3 a b c :
  (2048 ≤ a * 4096 + b * 64 + c < 65536 → 0 ≤ b < 64 → 0 ≤ c < 64 →
   encode_rune (a * 4096 + b * 64 + c) = [224 + a; 128 + b; 128 + c])%Z.
Proof.
  intros. unfold encode_rune. rewrite !decide_False, decide_True by lia.
  repeat f_equal; Z.to_euclidean_division_equations; lia.
Qed.
Lemma encode_4 a b c d :
  (65536 ≤ a * 262144 + b * 4096 + c * 64 + d → 0 ≤ b < 64 → 0 ≤ c < 64 → 0 ≤ d < 64 →
   encode_rune (a * 262144 + b * 4096 + c * 64 + d) = [240 + a; 128 + b; 128 + c; 128 + d])%Z.
Proof.
  intros. unfold encode_rune. rewrite !decide_False by lia.
  repeat f_equal; Z.to_euclidean_division_equations; lia.
Qed.

Lemma encode_decode s r size :
  s ≠ [] → Forall (λ b, 0 ≤ b < 256)%Z s → DecodeRune s = (r, size) → ¬ (r = RuneError ∧ size = 1) → r ≠ 0%Z →
  text_rune r ∧ s = encode_rune r ++ drop size s ∧ size ≠ 0.
Proof.
  intros Hs Hb. unfold DecodeRune, is_cont, text_rune. destruct s as [| b0 s]; [done |].
  apply Forall_cons in Hb as [Hb0 Hb].
  case_bool_decide as H0.
  { intros [= <- <-] _ Hr. rewrite encode_1 by lia. split_and!; [lia | done | done]. }
  case_bool_decide as H1.
  { destruct s as [| b1 s]; [naive_solver |]. case_bool_decide as H2; [| naive_solver].
    intros [= <- <-] _ Hr. rewrite encode_2 by lia. simpl. split_and!; [lia | repeat f_equal; lia | done]. }
  case_bool_decide as H2.
  { destruct s as [| b1 [| b2 s]]; [naive_solver.. |].
    destruct (_ && _) eqn:Hc; [| naive_solver]. breflect.
    intros [= <- <-] _ Hr. rewrite encode_3 by (repeat case_decide; lia). simpl.
    split_and!; [repeat case_decide; lia | repeat f_equal; lia | done]. }
  case_bool_decide as H3; [| naive_solver].
  destruct s as [| b1 [| b2 [| b3 s]]]; [naive_solver.. |].
  destruct (_ && _) eqn:Hc; [| naive_solver]. breflect.
  intros [= <- <-] _ Hr. rewrite encode_4 by (repeat case_decide; lia). simpl.
  split_and!; [repeat case_decide; lia | repeat f_equal; lia | done].
Qed.

(** [value] is text that, after [count] runes already read, is neither empty nor
    longer than 255 runes. *)
Definition text_after (count : nat) (value : list Z) : Prop :=
  ∃ runes, Forall text_rune runes ∧ value = concat (encode_rune <$> runes) ∧
    1 ≤ count + length runes ∧ (runes ≠ [] → count + length runes ≤ 255).

Lemma encode_rune_nonempty r : encode_rune r ≠ [].
Proof. unfold encode_rune. by repeat case_decide. Qed.

Lemma text_after_nil count : text_after count [] ↔ count ≠ 0.
Proof.
  split.
  - intros ([| r runes] & _ & E & H1 & _); simpl in *; [lia |].
    symmetry in E. apply app_nil in E as [E _]. by apply encode_rune_nonempty in E.
  - intros. exists []. split_and!; simpl; [constructor | done | lia | done].
Qed.

(** One iteration of the loop. *)
Lemma text_after_step count value r size :
  value ≠ [] → Forall (λ b, 0 ≤ b < 256)%Z value → DecodeRune value = (r, size) →
  text_after count value ↔
  ¬ (r = RuneError ∧ size = 1) ∧ r ≠ 0%Z ∧ count < 255 ∧ text_after (S count) (drop size value).
Proof.
  intros Hne Hb Hd. split.
  - intros ([| r' runes] & Hr & -> & H1 & H2); [done |]. simpl in *. apply Forall_cons in Hr as [Hr' Hr].
    rewrite decode_encode in Hd by done. simplify_eq. specialize (H2 ltac:(done)).
    assert (r ≠ 0%Z) by (unfold text_rune in Hr'; lia). split_and!; [| done | lia |].
    + intros [-> E]. revert E. by vm_compute.
    + rewrite drop_app_length. exists runes. split_and!; [done | done | lia |]. intros _. lia.
  - intros (Herr & H0 & Hc & runes & Hr & E & H1 & H2).
    destruct (encode_decode value r size) as (Hr' & E' & _); [done.. |].
    exists (r :: runes). split_and!; [by constructor | | simpl; lia |].
    + etrans; [exact E' |]. simpl. f_equal. exact E.
    + intros _. simpl. destruct runes; simpl in *; [lia |]. specialize (H2 ltac:(done)). lia.
Qed.

Lemma external_id_loop_spec fuel value count :
  Forall (λ b, 0 ≤ b < 256)%Z value → length value ≤ fuel →
  external_id_loop fuel value count = true ↔ text_after count value.
Proof.
  revert value count. induction fuel as [| fuel IH]; intros value count Hb Hl.
  { destruct value; simpl in *; [| lia]. by rewrite negb_true_iff, bool_decide_eq_false, text_after_nil. }
  destruct value as [| b value].
  { simpl. by rewrite negb_true_iff, bool_decide_eq_false, text_after_nil. }
  cbn [external_id_loop]. destruct (DecodeRune (b :: value)) as [r size] eqn:Hd.
  rewrite (text_after_step count (b :: value) r size) by first [exact Hd | exact Hb | discriminate].
  destruct (bool_decide (r = RuneError) && bool_decide (size = 1)) eqn:He; breflect.
  { split; [done |]. intros (Hn & _). by destruct Hn. }
  assert (¬ (r = RuneError ∧ size = 1)) as Hne.
  { intros [-> ->]. by rewrite !bool_decide_eq_true_2 in He. }
  clear He. case_bool_decide; [split; [done | by intros (_ & ? & _)] |].
  case_bool_decide; [split; [done | intros (_ & _ & ? & _); lia] |].
  destruct (encode_decode (b :: value) r size ltac:(discriminate) Hb Hd Hne) as (_ & _ & Hsz); [done |].
  rewrite IH; [| by apply Forall_drop |].
  { split; [intros Ht; split_and!; [done | done | lia | exact Ht] | by intros (_ & _ & _ & ?)]. }
  rewrite length_drop. simpl in *. lia.
Qed.

Lemma byte_val_bound c : (0 ≤ byte_val c < 256)%Z.
Proof.
  unfold byte_val. pose proof (N_ascii_bounded c). lia.
Qed.

(** [ValidateExternalID] accepts exactly the texts of 1 to 255 Unicode
    characters, none of them NUL, in well-formed UTF-8: no surrogates, no overlong
    forms, nothing past U+10FFFF. *)
Theorem ValidateExternalID_spec (externalID : ExternalID) :
  ValidateExternalID externalID = true ↔
  ∃ runes, Forall text_rune runes ∧ 1 ≤ length runes ≤ 255 ∧
    byte_val <$> bytes externalID = concat (encode_rune <$> runes).
Proof.
  unfold ValidateExternalID. rewrite external_id_loop_spec; [| | done].
  2:{ apply Forall_fmap, Forall_true. intros c. apply byte_val_bound. }
  split; intros (runes & Hr & H1 & H2); exists runes; simpl in *.
  - split_and!; [done | lia | | done]. destruct runes; [simpl; lia |]. by apply H2.
  - split_and!; [done | done | lia |]. intros _. lia.
Qed.

(** ** The client-id index *)

Definition ext_keys (a : Agent) : list string := option_list (ag_ExternalID a).
Definition can_keys (a : Agent) : list string := option_list (ag_CanonicalID a).


(** Each list holds, once each, exactly the agents of that client id. *)
Record client_index (ix : gmap ClientID (list AgentID)) (m : gmap AgentID Agent) : Prop := {
  ci_list c l : ix !! c = Some l → NoDup l ∧ l ≠ [];
  ci_mem c i : i ∈ default [] (ix !! c) ↔ ∃ a, m !! i = Some a ∧ ag_ClientID a = Some c;
}.

Lemma cut_first_spec i l : NoDup l → NoDup (cut_first i l) ∧ ∀ x, x ∈ cut_first i l ↔ x ∈ l ∧ x ≠ i.
Proof.
  induction 1 as [| y l Hy Hnd [IH1 IH2]]; simpl; [split; [constructor | set_solver] |].
  case_decide as Hd; [subst; split; [done | set_solver] |].
  split; [| set_solver]. constructor; [| done]. rewrite IH2. naive_solver.
Qed.

Lemma client_index_NoDup ix m c : client_index ix m → NoDup (default [] (ix !! c)).
Proof. intros Hci. destruct (ix !! c) as [l |] eqn:E; simpl; [by eapply ci_list | constructor]. Qed.

Lemma removeFromClientIDIndex_spec c i ix m d :
  client_index ix m →
  let l := default [] (removeFromClientIDIndex c i ix !! d) in
  NoDup l ∧ (∀ l', removeFromClientIDIndex c i ix !! d = Some l' → l' ≠ []) ∧
  ∀ x, x ∈ l ↔ x ∈ default [] (ix !! d) ∧ ¬ (d = c ∧ x = i).
Proof.
  intros Hci. unfold removeFromClientIDIndex.
  destruct (cut_first_spec i (default [] (ix !! c)) (client_index_NoDup _ _ c Hci)) as [Hnd Hel].
  destruct (decide (d = c)) as [-> | Hne].
  - destruct (cut_first i _) as [| x l] eqn:Hcut; simpl.
    + rewrite lookup_delete_eq. simpl. split_and!; [constructor | done |]. intros x. specialize (Hel x). set_solver.
    + rewrite lookup_insert_eq. simpl. split_and!; [done | by intros ? [= <-] |]. intros y. rewrite Hel. naive_solver.
  - assert (∀ o : gmap ClientID (list AgentID), o !! d = ix !! d → NoDup (default [] (o !! d)) ∧
      (∀ l', o !! d = Some l' → l' ≠ []) ∧ ∀ x, x ∈ default [] (o !! d) ↔ x ∈ default [] (ix !! d) ∧ ¬ (d = c ∧ x = i))
      as Hsame.
    { intros o ->. split_and!; [by eapply client_index_NoDup | intros; by eapply ci_list | naive_solver]. }
    destruct (cut_first i _); apply Hsame; [by rewrite lookup_delete_ne | by rewrite lookup_insert_ne].
Qed.

Lemma client_index_delete ix m i a :
  client_index ix m → m !! i = Some a →
  client_index (match ag_ClientID a with Some c => removeFromClientIDIndex c i ix | None => ix end) (delete i m).
Proof.
  intros Hci Hi. destruct (ag_ClientID a) as [c |] eqn:Hc.
  - split.
    + intros d l Hl. destruct (removeFromClientIDIndex_spec c i ix m d Hci) as (H1 & H2 & _).
      rewrite Hl in H1. eauto.
    + intros d x. destruct (removeFromClientIDIndex_spec c i ix m d Hci) as (_ & _ & ->).
      rewrite (ci_mem _ _ Hci). setoid_rewrite lookup_delete_Some. split; [| naive_solver].
      intros [(b & Hb & Hd) Hn]. exists b. split; [| done]. split; [| done]. intros <-. simplify_eq. naive_solver.
  - split; [intros; by eapply ci_list |]. intros d x. rewrite (ci_mem _ _ Hci).
    setoid_rewrite lookup_delete_Some. split; [| naive_solver]. intros (b & Hb & Hd). exists b.
    split; [| done]. split; [| done]. intros <-. congruence.
Qed.

Lemma client_index_insert ix m i a :
  client_index ix m → m !! i = None → client_index (client_append (ag_ClientID a) i ix) (<[i := a]> m).
Proof.
  intros Hci Hi. assert (∀ c, i ∉ default [] (ix !! c)) as Hni.
  { intros c. rewrite (ci_mem _ _ Hci). by intros (b & ? & _); simplify_eq. }
  destruct (ag_ClientID a) as [c |] eqn:Hc; simpl.
  - split.
    + intros d l [[-> <-] | [_ Hd]]%lookup_insert_Some; [| by eapply ci_list].
      split; [| by destruct (default [] _)]. apply NoDup_app. split_and!; [by eapply client_index_NoDup | | apply NoDup_singleton].
      intros x Hx ->%list_elem_of_singleton. by destruct (Hni d).
    + intros d x. destruct (decide (c = d)) as [<- | Hne].
      * rewrite lookup_insert_eq. simpl. rewrite elem_of_app, list_elem_of_singleton, (ci_mem _ _ Hci).
        setoid_rewrite lookup_insert_Some. split; [| naive_solver].
        intros [(b & Hb & Hd) | ->]; [| naive_solver]. exists b. split; [right | done]. split; [congruence | done].
      * rewrite lookup_insert_ne by done. rewrite (ci_mem _ _ Hci). setoid_rewrite lookup_insert_Some.
        split; [| naive_solver]. intros (b & Hb & Hd). exists b. split; [right | done]. split; [congruence | done].
  - split; [intros; by eapply ci_list |]. intros d x. rewrite (ci_mem _ _ Hci).
    setoid_rewrite lookup_insert_Some. split; [| naive_solver].
    intros (b & Hb & Hd). exists b. split; [right | done]. split; [congruence | done].
Qed.

(** ** The repository *)

Section repository.
Context `{GoURL} `{UUID}.

Record agents_wf (r : AgentRepository) : Prop := {
  aw_id i a : ar_agents r !! i = Some a → ag_ID a = i;
  aw_valid i a : ar_agents r !! i = Some a → validateFields a = true;
  aw_ext : indexes ext_keys (byExternalID r) (ar_agents r);
  aw_can : indexes can_keys (byCanonicalID r) (ar_agents r);
  aw_uri : indexes ag_ClientURIs (byClientURI r) (ar_agents r);
  aw_client : client_index (byClientID r) (ar_agents r);
}.

Lemma agents_wf_empty : agents_wf NewAgentRepository.
Proof.
  split; try apply indexes_empty; [done | done |]. split; [done |].
  intros c i. simpl. rewrite lookup_empty. simpl. split; [set_solver | by intros (? & ? & _)].
Qed.

(** *** The abstract repository: a map of agents *)

Inductive agent_op :=
  | OpCreate (newID : AgentID) (a : Agent)
  | OpUpdate (a : Agent)
  | OpDelete (i : AgentID)
  | OpGet (i : AgentID)
  | OpGetByCanonicalID (c : string)
  | OpGetByExternalID (x : ExternalID)
  | OpGetByClientID (c : ClientID)
  | OpExistsOther (c : ClientID) (exclude : option AgentID)
  | OpGetByClientURI (uri : string)
  | OpList.

Inductive agent_answer :=
  | AnsAgent (res : result ErrorKind (option Agent))
  | AnsDone (res : result ErrorKind unit)
  | AnsBool (b : bool)
  | AnsList (l : list Agent).

Definition clashes (keys : Agent → list string) (a : Agent) (m : gmap AgentID Agent) : bool :=
  existsb (λ k, bool_decide (taken keys k (ag_ID a) m)) (keys a).

Definition spec_create (newID : AgentID) (a : Agent) (m : gmap AgentID Agent) : gmap AgentID Agent * agent_answer :=
  let a := if nonzero_id (ag_ID a) then a else set_ag_ID newID a in
  if decide (is_Some (m !! ag_ID a)) then (m, AnsAgent (Err KConflict))
  else if negb (validateFields a) then (m, AnsAgent (Err KValidation))
  else if clashes ext_keys a m || clashes can_keys a m || clashes ag_ClientURIs a m
  then (m, AnsAgent (Err KConflict))
  else (<[ag_ID a := a]> m, AnsAgent (Ok (Some a))).

Definition spec_update (a : Agent) (m : gmap AgentID Agent) : gmap AgentID Agent * agent_answer :=
  if negb (bool_decide (is_Some (m !! ag_ID a))) then (m, AnsDone (Err KNotFound))
  else if clashes ext_keys a m || clashes ag_ClientURIs a m then (m, AnsDone (Err KConflict))
  else if negb (Agent_Validate a) then (m, AnsDone (Err KValidation))
  else if clashes can_keys a m then (m, AnsDone (Err KConflict))
  else (<[ag_ID a := a]> m, AnsDone (Ok ())).

(** The answer to a lookup by a unique key. *)
Definition found_by (keys : Agent → list string) (k : string) (m : gmap AgentID Agent)
    (res : result ErrorKind (option Agent)) : Prop :=
  (∃ i a, m !! i = Some a ∧ k ∈ keys a ∧ res = Ok (Some a) ∧ ∀ j b, m !! j = Some b → k ∈ keys b → j = i) ∨
  ((∀ i a, m !! i = Some a → k ∉ keys a) ∧ res = Err KNotFound).

Definition pattern_match (uri : string) (a : Agent) : Prop :=
  ∃ p, p ∈ ag_ClientURIs a ∧ MatchesCIMDClientURI p uri = true.

(** Exact registrations first; then patterns, which must single out one agent. *)
Definition found_by_uri (uri : string) (m : gmap AgentID Agent) (res : result ErrorKind (option Agent)) : Prop :=
  (∃ i a, m !! i = Some a ∧ uri ∈ ag_ClientURIs a ∧ res = Ok (Some a)) ∨
  (∀ i a, m !! i = Some a → uri ∉ ag_ClientURIs a) ∧
  ((∃ i a, m !! i = Some a ∧ pattern_match uri a ∧ res = Ok (Some a) ∧
      ∀ j b, m !! j = Some b → pattern_match uri b → j = i) ∨
   ((∀ i a, m !! i = Some a → ¬ pattern_match uri a) ∧ res = Err KNotFound) ∨
   ((∃ i j a b, i ≠ j ∧ m !! i = Some a ∧ m !! j = Some b ∧ pattern_match uri a ∧ pattern_match uri b) ∧
      res = Err KConflict)).

Definition agent_spec (op : agent_op) (m m' : gmap AgentID Agent) (ans : agent_answer) : Prop :=
  match op with
  | OpCreate newID a => (m', ans) = spec_create newID a m
  | OpUpdate a => (m', ans) = spec_update a m
  | OpDelete i => m' = delete i m ∧ ans = AnsBool (bool_decide (is_Some (m !! i)))
  | OpGet i => m' = m ∧ ans = AnsAgent (match m !! i with Some a => Ok (Some a) | None => Err KNotFound end)
  | OpGetByCanonicalID c => m' = m ∧ ∃ res, ans = AnsAgent res ∧ found_by can_keys c m res
  | OpGetByExternalID x => m' = m ∧ ∃ res, ans = AnsAgent res ∧ found_by ext_keys x m res
  | OpGetByClientID c =>
      m' = m ∧ ((∃ i a, m !! i = Some a ∧ ag_ClientID a = Some c ∧ ans = AnsAgent (Ok (Some a))) ∨
                ((∀ i a, m !! i = Some a → ag_ClientID a ≠ Some c) ∧ ans = AnsAgent (Err KNotFound)))
  | OpExistsOther c exclude =>
      m' = m ∧ ∃ b, ans = AnsBool b ∧
        (b = true ↔ ∃ i a, m !! i = Some a ∧ ag_ClientID a = Some c ∧ exclude ≠ Some i)
  | OpGetByClientURI uri => m' = m ∧ ∃ res, ans = AnsAgent res ∧ found_by_uri uri m res
  | OpList => m' = m ∧ ∃ l, ans = AnsList l ∧ l ≡ₚ (map_to_list m).*2
  end.

Definition created (res : result ErrorKind Agent) : agent_answer :=
  AnsAgent (match res with Ok a => Ok (Some a) | Err k => Err k end).

Definition agent_exec (op : agent_op) (r : AgentRepository) : AgentRepository * agent_answer :=
  match op with
  | OpCreate newID a => let '(r', res) := agent_Create newID a r in (r', created res)
  | OpUpdate a => let '(r', res) := agent_Update a r in (r', AnsDone res)
  | OpDelete i => let '(r', b) := agent_Delete i r in (r', AnsBool b)
  | OpGet i => (r, created (agent_Get i r))
  | OpGetByCanonicalID c => (r, AnsAgent (agent_GetByCanonicalID c r))
  | OpGetByExternalID x => (r, AnsAgent (agent_GetByExternalID x r))
  | OpGetByClientID c => (r, AnsAgent (agent_GetByClientID c r))
  | OpExistsOther c exclude => (r, AnsBool (agent_ExistsOtherWithClientID c exclude r))
  | OpGetByClientURI uri => (r, AnsAgent (agent_GetByClientURI uri r))
  | OpList => (r, AnsList (agent_List r))
  end.

(** *** The checks against the indices are checks against the map *)

Lemma not_clashes keys a m : clashes keys a m = false ↔ ∀ k, k ∈ keys a → ¬ taken keys k (ag_ID a) m.
Proof.
  unfold clashes. rewrite <-not_true_iff_false, existsb_exists. split.
  - intros Hn k Hk Ht. destruct Hn. exists k. rewrite bool_decide_eq_true. split; [by apply list_elem_of_In | done].
  - intros Hn (k & Hk%list_elem_of_In & Ht%bool_decide_eq_true_1). by apply (Hn k).
Qed.

Lemma checkExternalID_spec a r :
  agents_wf r → checkExternalID a r = if clashes ext_keys a (ar_agents r) then Err KConflict else Ok ().
Proof.
  intros Hw. unfold checkExternalID, clashes. change (ext_keys a) with (option_list (ag_ExternalID a)).
  destruct (ag_ExternalID a) as [x |] eqn:Hx; simpl; [| done].
  rewrite (held_by_other_spec ext_keys _ _ x (ag_ID a) (aw_ext r Hw)). by case_bool_decide.
Qed.

Lemma client_uris_free_spec a r :
  agents_wf r → client_uris_free a r = negb (clashes ag_ClientURIs a (ar_agents r)).
Proof.
  intros Hw. unfold client_uris_free, clashes. induction (ag_ClientURIs a) as [| u l IH]; simpl; [done |].
  rewrite negb_orb, IH, (held_by_other_spec ag_ClientURIs _ _ u (ag_ID a) (aw_uri r Hw)). done.
Qed.

Lemma canonical_held a r :
  agents_wf r →
  match ag_CanonicalID a with Some c => held_by_other (byCanonicalID r) c (ag_ID a) | None => false end =
  clashes can_keys a (ar_agents r).
Proof.
  intros Hw. unfold clashes. change (can_keys a) with (option_list (ag_CanonicalID a)).
  destruct (ag_CanonicalID a) as [c |]; simpl; [| done].
  rewrite (held_by_other_spec can_keys _ _ c (ag_ID a) (aw_can r Hw)). by rewrite orb_false_r.
Qed.

(** For an id that is not stored, any holder is another agent. *)
Lemma canonical_present a r :
  agents_wf r → ar_agents r !! ag_ID a = None →
  match ag_CanonicalID a with Some c => bool_decide (is_Some (byCanonicalID r !! c)) | None => false end =
  clashes can_keys a (ar_agents r).
Proof.
  intros Hw Hi. rewrite <-canonical_held by done. destruct (ag_CanonicalID a) as [c |]; [| done].
  unfold held_by_other. destruct (byCanonicalID r !! c) as [j |] eqn:Hj; [| done].
  rewrite bool_decide_eq_true_2 by eauto. rewrite bool_decide_eq_false_2; [done |].
  intros ->. apply (aw_can r Hw) in Hj as (b & Hb & _). congruence.
Qed.

(** *** Writes *)

Lemma stored_spec (m : gmap AgentID Agent) a i b :
  <[ag_ID a := a]> m !! i = Some b → b = a ∧ i = ag_ID a ∨ m !! i = Some b.
Proof. rewrite lookup_insert_Some. naive_solver. Qed.

Lemma agent_Create_refines newID a r :
  agents_wf r →
  agents_wf (agent_Create newID a r).1 ∧
  (ar_agents (agent_Create newID a r).1, created (agent_Create newID a r).2) = spec_create newID a (ar_agents r).
Proof.
  intros Hw. unfold agent_Create, spec_create. set (a' := if nonzero_id (ag_ID a) then a else _). clearbody a'.
  rewrite <-decide_bool_decide. case_decide as Hi; [done |].
  apply eq_None_not_Some in Hi. unfold Agent_ValidateForCreate. destruct (validateFields a') eqn:Hv; simpl; [| done].
  rewrite checkExternalID_spec, canonical_present, client_uris_free_spec by done. rewrite negb_involutive.
  destruct (clashes ext_keys a' _) eqn:H1; simpl; [done |].
  destruct (clashes can_keys a' _) eqn:H2; simpl; [done |].
  destruct (clashes ag_ClientURIs a' _) eqn:H3; simpl; [done |].
  split; [| done]. rewrite not_clashes in H1, H2, H3. destruct Hw. split; simpl.
  - intros i b [[-> ->] | ?]%stored_spec; eauto.
  - intros i b [[-> ->] | ?]%stored_spec; eauto.
  - rewrite index_set_option. by apply (indexes_insert ext_keys).
  - rewrite index_set_option. by apply (indexes_insert can_keys).
  - by apply indexes_insert.
  - by apply client_index_insert.
Qed.

Lemma client_index_same ix m i old a :
  client_index ix m → m !! i = Some old → ag_ClientID old = ag_ClientID a → client_index ix (<[i := a]> m).
Proof.
  intros Hci Hi E. split; [intros; by eapply ci_list |]. intros c x. rewrite (ci_mem _ _ Hci).
  destruct (decide (i = x)) as [<- | Hne].
  - rewrite lookup_insert_eq, Hi. split; intros (b & [= <-] & Hb); eexists; (split; [done | congruence]).
  - by rewrite lookup_insert_ne.
Qed.

Lemma agent_Update_refines a r :
  agents_wf r →
  agents_wf (agent_Update a r).1 ∧
  (ar_agents (agent_Update a r).1, AnsDone (agent_Update a r).2) = spec_update a (ar_agents r).
Proof.
  intros Hw. unfold agent_Update, spec_update. destruct (ar_agents r !! ag_ID a) as [old |] eqn:Hi.
  2:{ done. }
  simpl. rewrite checkExternalID_spec, canonical_held, client_uris_free_spec by done.
  rewrite negb_involutive.
  destruct (clashes ext_keys a _) eqn:H1; simpl; [done |].
  destruct (clashes ag_ClientURIs a _) eqn:H3; simpl; [done |].
  destruct (Agent_Validate a) eqn:Hv; simpl; [| done].
  destruct (clashes can_keys a _) eqn:H2; simpl; [done |].
  split; [| done]. rewrite not_clashes in H1, H2, H3. destruct Hw. split; simpl.
  - intros i b [[-> ->] | ?]%stored_spec; eauto.
  - intros i b [[-> ->] | ?]%stored_spec; eauto. unfold Agent_Validate in Hv. by breflect.
  - rewrite index_set_option, index_clear_option. by apply (indexes_update ext_keys).
  - rewrite index_set_option, index_clear_option. by apply (indexes_update can_keys).
  - by apply indexes_update.
  - case_decide as Hc; [by eapply client_index_same |]. rewrite <-insert_delete_eq.
    apply client_index_insert; [by apply client_index_delete | by rewrite lookup_delete_eq].
Qed.

Lemma agent_Delete_refines i r :
  agents_wf r →
  agents_wf (agent_Delete i r).1 ∧ ar_agents (agent_Delete i r).1 = delete i (ar_agents r) ∧
  (agent_Delete i r).2 = bool_decide (is_Some (ar_agents r !! i)).
Proof.
  intros Hw. unfold agent_Delete. destruct (ar_agents r !! i) as [a |] eqn:Hi; simpl.
  2:{ split_and!; [done | by rewrite delete_id | done]. }
  split_and!; [| done | done]. destruct Hw. split; simpl.
  - intros j b [_ ?]%lookup_delete_Some; eauto.
  - intros j b [_ ?]%lookup_delete_Some; eauto.
  - rewrite index_clear_option. by apply (indexes_delete ext_keys).
  - rewrite index_clear_option. by apply (indexes_delete can_keys).
  - by apply indexes_delete.
  - by apply client_index_delete.
Qed.

(** *** Lookups *)

Lemma lookup_refines keys ix m k :
  indexes keys ix m →
  found_by keys k m (match ix !! k with Some i => Ok (m !! i) | None => Err KNotFound end).
Proof.
  intros Hix. unfold found_by. destruct (ix !! k) as [i |] eqn:Hk.
  - destruct (proj1 (Hix k i) Hk) as (a & Ha & Hka). left. exists i, a. rewrite Ha. split_and!; [done.. |].
    intros j b Hb Hkb. assert (ix !! k = Some j) by (apply Hix; eauto). congruence.
  - right. split; [| done]. intros i a Ha Hka. assert (ix !! k = Some i) by (apply Hix; eauto). congruence.
Qed.

Lemma matched_agents_spec uri r i :
  agents_wf r →
  i ∈ matched_agents uri r ↔ ∃ a, ar_agents r !! i = Some a ∧ pattern_match uri a.
Proof.
  intros Hw. unfold matched_agents. rewrite elem_of_list_to_set, list_elem_of_fmap. split.
  - intros ([p j] & -> & [[_ Hm] Hp%elem_of_map_to_list]%list_elem_of_filter).
    apply (aw_uri r Hw) in Hp as (a & Ha & Hpa). exists a. split; [done |]. by exists p.
  - intros (a & Ha & p & Hp & Hm). exists (p, i). split; [done |]. apply list_elem_of_filter.
    split; [split; [eauto | done] |]. apply elem_of_map_to_list, (aw_uri r Hw). eauto.
Qed.

Lemma GetByClientURI_refines uri r : agents_wf r → found_by_uri uri (ar_agents r) (agent_GetByClientURI uri r).
Proof.
  intros Hw. unfold agent_GetByClientURI, found_by_uri.
  destruct (byClientURI r !! uri) as [i |] eqn:Hu; simpl.
  { destruct (proj1 (aw_uri r Hw uri i) Hu) as (a & Ha & Hk). rewrite Ha. left. eauto. }
  right. split.
  { intros i a Ha Hk. assert (byClientURI r !! uri = Some i) by (apply (aw_uri r Hw); eauto). congruence. }
  pose proof (matched_agents_spec uri r) as Hm. pose proof (NoDup_elements (matched_agents uri r)) as Hnd.
  assert (∀ i, i ∈ elements (matched_agents uri r) ↔ ∃ a, ar_agents r !! i = Some a ∧ pattern_match uri a) as Hel.
  { intros i. rewrite elem_of_elements. by apply Hm. }
  destruct (elements (matched_agents uri r)) as [| i [| j l]]; [right; left | left | right; right].
  - split; [| done]. intros i a Ha Hp. assert (i ∈ @nil AgentID) by (apply Hel; eauto). set_solver.
  - destruct (proj1 (Hel i)) as (a & Ha & Hp); [set_solver |]. exists i, a. rewrite Ha. split_and!; [done.. |].
    intros j b Hb Hpb. assert (j ∈ [i]) by (apply Hel; eauto). set_solver.
  - split; [| done]. destruct (proj1 (Hel i)) as (a & Ha & Hp); [set_solver |].
    destruct (proj1 (Hel j)) as (b & Hb & Hpb); [set_solver |].
    exists i, j, a, b. split_and!; try done. apply NoDup_cons in Hnd as [? _]. set_solver.
Qed.

Lemma client_lookup_refines c r :
  agents_wf r → agent_spec (OpGetByClientID c) (ar_agents r) (ar_agents r) (AnsAgent (agent_GetByClientID c r)).
Proof.
  intros Hw. split; [done |]. unfold agent_GetByClientID. pose proof (ci_mem _ _ (aw_client r Hw) c) as Hm.
  destruct (byClientID r !! c) as [[| i l] |] eqn:Hc; simpl in Hm.
  - by destruct (ci_list _ _ (aw_client r Hw) c [] Hc).
  - destruct (proj1 (Hm i)) as (a & Ha & E); [set_solver |]. rewrite Ha. left. eauto.
  - right. split; [| done]. intros i a Ha E. assert (i ∈ @nil AgentID) by (apply Hm; eauto). set_solver.
Qed.

Lemma exists_other_refines c exclude r :
  agents_wf r →
  agent_ExistsOtherWithClientID c exclude r = true ↔
  ∃ i a, ar_agents r !! i = Some a ∧ ag_ClientID a = Some c ∧ exclude ≠ Some i.
Proof.
  intros Hw. unfold agent_ExistsOtherWithClientID. rewrite existsb_exists.
  setoid_rewrite <-list_elem_of_In. setoid_rewrite (ci_mem _ _ (aw_client r Hw) c). split.
  - intros (i & (a & Ha & E) & Hex). exists i, a. split_and!; [done | done |].
    destruct exclude; [| done]. breflect. congruence.
  - intros (i & a & Ha & E & Hne). exists i. split; [eauto |]. destruct exclude as [e |]; [| done].
    rewrite negb_true_iff. apply bool_decide_eq_false_2. congruence.
Qed.

Lemma agent_exec_refines op r :
  agents_wf r →
  agents_wf (agent_exec op r).1 ∧
  agent_spec op (ar_agents r) (ar_agents (agent_exec op r).1) (agent_exec op r).2.
Proof.
  intros Hw. destruct op as [newID a | a | i | i | c | x | c | c ex | uri |]; simpl.
  - pose proof (agent_Create_refines newID a r Hw) as H1. by destruct (agent_Create newID a r).
  - pose proof (agent_Update_refines a r Hw) as H1. by destruct (agent_Update a r).
  - pose proof (agent_Delete_refines i r Hw) as H1. destruct (agent_Delete i r); simpl in *.
    destruct H1 as (? & ? & ->). done.
  - split_and!; [done.. |]. unfold created, agent_Get. by destruct (ar_agents r !! i).
  - split_and!; [done.. |]. eexists. split; [done |]. apply lookup_refines, (aw_can r Hw).
  - split_and!; [done.. |]. eexists. split; [done |]. apply lookup_refines, (aw_ext r Hw).
  - split; [done |]. by apply client_lookup_refines.
  - split_and!; [done.. |]. eexists. split; [done |]. by apply exists_other_refines.
  - split_and!; [done.. |]. eexists. split; [done |]. by apply GetByClientURI_refines.
  - split_and!; [done.. |]. eexists. split; [done |]. done.
Qed.

Definition agent_run (ops : list agent_op) : AgentRepository :=
  foldl (λ r op, (agent_exec op r).1) NewAgentRepository ops.

Lemma agents_wf_run ops : agents_wf (agent_run ops).
Proof.
  unfold agent_run. generalize agents_wf_empty. generalize NewAgentRepository as r.
  induction ops as [| op ops IH]; intros r Hw; simpl; [done |]. apply IH. by apply agent_exec_refines.
Qed.

(** Claim C37.  After any sequence of operations, the agent repository with its four
    indices answers every operation as a plain map of agents would: creation and
    update are refused exactly when another agent holds the external id, the canonical
    id or a client URI; a lookup by one of these returns the one agent that has it; a
    client URI is matched exactly first, then by the patterns, and two agents whose
    patterns match are a conflict. *)
Theorem agent_repository_is_a_map ops op :
  agent_spec op (ar_agents (agent_run ops)) (ar_agents (agent_exec op (agent_run ops)).1)
    (agent_exec op (agent_run ops)).2.
Proof. apply agent_exec_refines, agents_wf_run. Qed.

(** No two agents share an external id. *)
Lemma external_id_unique r i j a b x :
  agents_wf r → ar_agents r !! i = Some a → ar_agents r !! j = Some b →
  ag_ExternalID a = Some x → ag_ExternalID b = Some x → i = j.
Proof.
  intros Hw Ha Hb Ea Eb. eapply (indexes_inj ext_keys _ _ x i j a b (aw_ext r Hw) Ha Hb);
    unfold ext_keys; by apply elem_of_option_list.
Qed.
End repository.
