(* ===== verification/PermissionSets.v ===== *)
(** * Permission sets

    Validation of permission sets (internal/domain/storage/permission_set.go), their
    in-memory repository (internal/adapters/storage/memory/permission_set_repository.go)
    and the service with its expiring cache (internal/domain/permissionset/service.go).
    A repository method holds the repository's lock; the service takes its own lock only
    around the cache, so its methods are sequences of atomic actions. *)

From S2P Require Import Prelude ToolApproval ApprovalStore ApprovalHandlers OAuthSessions UserGrants Consent UriValidation UniqueIndex Agents.

(** ** Validation *)

Definition ServiceScope_valid (ss : ServiceScope) : bool :=
  nonzero_id (ss_ServiceID ss) && forallb nonempty (ss_Scopes ss) && no_repeat (ss_Scopes ss) &&
  RequirementType_Valid (ss_RequirementType ss).

Definition ps_validateCommon `{UUID} (ps : PermissionSet) : bool :=
  ValidateCanonicalID (ps_CanonicalID ps) &&
  nonempty (ps_Name ps) && bool_decide (String.length (ps_Name ps) ≤ 255)%nat && nonempty (ps_Description ps) &&
  negb (bool_decide (ps_ServiceScopes ps = [])) && forallb ServiceScope_valid (ps_ServiceScopes ps) &&
  no_repeat (ss_ServiceID <$> ps_ServiceScopes ps).

Definition ps_Validate `{UUID} (ps : PermissionSet) : bool := nonzero_id (ps_ID ps) && ps_validateCommon ps.
Definition ps_ValidateForCreate `{UUID} (ps : PermissionSet) : bool := ps_validateCommon ps.

Definition set_ps_ID (i : PermissionSetID) (ps : PermissionSet) : PermissionSet :=
  {| ps_ID := i; ps_CanonicalID := ps_CanonicalID ps; ps_ClearCanonicalID := ps_ClearCanonicalID ps;
     ps_Name := ps_Name ps; ps_Description := ps_Description ps; ps_ServiceScopes := ps_ServiceScopes ps;
     ps_CreatedAt := ps_CreatedAt ps; ps_UpdatedAt := ps_UpdatedAt ps |}.

(** The deep copy leaves the request flag behind. *)
Definition ps_Copy (ps : PermissionSet) : PermissionSet :=
  {| ps_ID := ps_ID ps; ps_CanonicalID := ps_CanonicalID ps; ps_ClearCanonicalID := false;
     ps_Name := ps_Name ps; ps_Description := ps_Description ps; ps_ServiceScopes := ps_ServiceScopes ps;
     ps_CreatedAt := ps_CreatedAt ps; ps_UpdatedAt := ps_UpdatedAt ps |}.

(** ** The repository *)

Record PermissionSetRepository := PSRepo {
  permissionSets : gmap PermissionSetID PermissionSet;
  canonicalIndex : gmap string PermissionSetID;
  nameIndex : gmap string PermissionSetID;
}.

Definition NewPermissionSetRepository : PermissionSetRepository := PSRepo ∅ ∅ ∅.

Definition psr_Create (newID : PermissionSetID) (ps : PermissionSet) (r : PermissionSetRepository)
    : PermissionSetRepository * result ErrorKind PermissionSet :=
  let ps := if nonzero_id (ps_ID ps) then ps else set_ps_ID newID ps in
  if bool_decide (is_Some (permissionSets r !! ps_ID ps)) then (r, Err KConflict)
  else if bool_decide (is_Some (nameIndex r !! ps_Name ps)) then (r, Err KConflict)
  else if match ps_CanonicalID ps with
          | Some c => bool_decide (is_Some (canonicalIndex r !! c)) | None => false end then (r, Err KConflict)
  else
    (PSRepo (<[ps_ID ps := ps_Copy ps]> (permissionSets r))
       (index_set (ps_CanonicalID ps) (ps_ID ps) (canonicalIndex r))
       (<[ps_Name ps := ps_ID ps]> (nameIndex r)), Ok ps).

Definition psr_Get (i : PermissionSetID) (r : PermissionSetRepository) : result ErrorKind PermissionSet :=
  match permissionSets r !! i with Some ps => Ok (ps_Copy ps) | None => Err KNotFound end.

(** [Ok None] is a nil permission set without an error. *)
Definition psr_GetByCanonicalID (c : string) (r : PermissionSetRepository)
    : result ErrorKind (option PermissionSet) :=
  match canonicalIndex r !! c with
  | Some i => Ok (ps_Copy <$> permissionSets r !! i)
  | None => Err KNotFound
  end.

Definition psr_GetCanonicalIDs (ids : list PermissionSetID) (r : PermissionSetRepository)
    : gmap PermissionSetID string :=
  foldl (λ m i, match permissionSets r !! i ≫= ps_CanonicalID with Some c => <[i := c]> m | None => m end) ∅ ids.

Definition psr_GetByIDs (ids : list PermissionSetID) (r : PermissionSetRepository) : list PermissionSet :=
  omap (λ i, ps_Copy <$> permissionSets r !! i) ids.

Definition psr_Update (ps : PermissionSet) (r : PermissionSetRepository)
    : PermissionSetRepository * result ErrorKind unit :=
  match permissionSets r !! ps_ID ps with
  | None => (r, Err KNotFound)
  | Some existing =>
      if match ps_CanonicalID ps with
         | Some c => held_by_other (canonicalIndex r) c (ps_ID ps) | None => false end then (r, Err KConflict)
      else
        let renamed := negb (bool_decide (ps_Name ps = ps_Name existing)) in
        if renamed && bool_decide (is_Some (nameIndex r !! ps_Name ps)) then (r, Err KConflict)
        else
          (PSRepo (<[ps_ID ps := ps_Copy ps]> (permissionSets r))
             (index_set (ps_CanonicalID ps) (ps_ID ps) (index_clear (ps_CanonicalID existing) (canonicalIndex r)))
             (if renamed then <[ps_Name ps := ps_ID ps]> (delete (ps_Name existing) (nameIndex r))
              else nameIndex r), Ok ())
  end.

Definition psr_Delete (i : PermissionSetID) (r : PermissionSetRepository) : PermissionSetRepository * bool :=
  match permissionSets r !! i with
  | None => (r, false)
  | Some ps =>
      (PSRepo (delete i (permissionSets r)) (index_clear (ps_CanonicalID ps) (canonicalIndex r))
         (delete (ps_Name ps) (nameIndex r)), true)
  end.

Definition scopes_service (serviceID : ServiceID) (ps : PermissionSet) : bool :=
  existsb (λ ss, bool_decide (ss_ServiceID ss = serviceID)) (ps_ServiceScopes ps).

(** In the map's visiting order; the zero id asks for all. *)
Definition psr_List (serviceID : ServiceID) (r : PermissionSetRepository) : list PermissionSet :=
  ps_Copy <$> filter (λ ps, nonzero_id serviceID = false ∨ scopes_service serviceID ps = true)
                (map_to_list (permissionSets r)).*2.

Definition psr_CountPermissionSetsForService (serviceID : ServiceID) (r : PermissionSetRepository) : nat :=
  length (filter (λ ps, scopes_service serviceID ps = true) (map_to_list (permissionSets r)).*2).

Definition references_permission_set (i : PermissionSetID) (a : Agent) : bool :=
  existsb (λ e, bool_decide (aps_PermissionSetID e = i)) (ag_PermissionSets a).

(** Over the list of the agent repository. *)
Definition psr_CountAgentsReferencingPermissionSet (i : PermissionSetID) (agents : AgentRepository) : nat :=
  length (filter (λ a, references_permission_set i a = true) (agent_List agents)).

(** ** The service *)

Record psCacheEntry := PSEntry { ce_ps : PermissionSet; ce_expiresAt : time }.

(** The three repositories and the cache. *)
Record ps_world := PSWorld {
  pw_sets : PermissionSetRepository;
  pw_agents : AgentRepository;
  pw_grants : UserGrantRepository;
  pw_cache : gmap PermissionSetID psCacheEntry;
}.

Definition defaultCacheTTL : duration := (60 * second)%Z.

Definition set_sets (r : PermissionSetRepository) (w : ps_world) : ps_world :=
  PSWorld r (pw_agents w) (pw_grants w) (pw_cache w).
Definition set_pw_cache (c : gmap PermissionSetID psCacheEntry) (w : ps_world) : ps_world :=
  PSWorld (pw_sets w) (pw_agents w) (pw_grants w) c.

(** A storage error of some kind, or a plain error. *)
Inductive ps_error := PSStorage (k : ErrorKind) | PSInvalid.

Abbreviation ps_prog A := (prog ps_world (result ps_error A)).

Definition sets_act {A} (f : PermissionSetRepository → PermissionSetRepository * A) : prog ps_world A :=
  act (λ w, let '(r, x) := f (pw_sets w) in (set_sets r w, x)).
Definition sets_read {A} (f : PermissionSetRepository → A) : prog ps_world A := act (λ w, (w, f (pw_sets w))).

Definition cache_delete (i : PermissionSetID) : prog ps_world unit :=
  act (λ w, (set_pw_cache (delete i (pw_cache w)) w, ())).

(** [time.Now().Before(entry.expiresAt)] *)
Definition fresh_entry (now : time) (e : psCacheEntry) : bool := Before now (ce_expiresAt e).

Definition evictExpired (now : time) : prog ps_world unit :=
  act (λ w, (set_pw_cache (filter (λ '(_, e), After now (ce_expiresAt e) = false) (pw_cache w)) w, ())).

Section service.
Context `{UUID}.

Definition pss_ResolveID (value : string) : ps_prog (option PermissionSetID) :=
  match uuid_Parse value with
  | Some i => Ret (Ok (Some i))
  | None =>
      found ← sets_read (psr_GetByCanonicalID value);
      match found with
      | Ok ps => Ret (Ok (option_map ps_ID ps))
      | Err k => Ret (Err (PSStorage k))
      end
  end.

Definition pss_CanonicalIDs (ids : list PermissionSetID) : prog ps_world (gmap PermissionSetID string) :=
  sets_read (psr_GetCanonicalIDs ids).

Definition pss_Create (newID : PermissionSetID) (ps : PermissionSet) : ps_prog PermissionSet :=
  if negb (ps_ValidateForCreate ps) then Ret (Err PSInvalid)
  else
    let ps := if nonzero_id (ps_ID ps) then ps else set_ps_ID newID ps in
    stored ← sets_act (psr_Create newID ps);
    match stored with
    | Err k => Ret (Err (PSStorage k))
    | Ok ps => _ ← cache_delete (ps_ID ps); Ret (Ok ps)
    end.

Definition pss_Get (now1 now2 : time) (i : PermissionSetID) : ps_prog PermissionSet :=
  cached ← act (λ w, (w, match pw_cache w !! i with
                         | Some e => if fresh_entry now1 e then Some (ps_Copy (ce_ps e)) else None
                         | None => None
                         end));
  match cached with
  | Some ps => Ret (Ok ps)
  | None =>
      found ← sets_read (psr_Get i);
      match found with
      | Err k => Ret (Err (PSStorage k))
      | Ok ps =>
          _ ← act (λ w, (set_pw_cache (<[i := PSEntry ps (now2 + defaultCacheTTL)%Z]> (pw_cache w)) w, ()));
          Ret (Ok (ps_Copy ps))
      end
  end.

(** The snapshot of the valid entries, and the ids to fetch. *)
Definition split_cached (now : time) (ids : list PermissionSetID) (cache : gmap PermissionSetID psCacheEntry)
    : gmap PermissionSetID PermissionSet * list PermissionSetID :=
  foldl (λ '(cached, uncached) i,
    match cache !! i with
    | Some e => if fresh_entry now e then (<[i := ps_Copy (ce_ps e)]> cached, uncached)
                else (cached, uncached ++ [i])
    | None => (cached, uncached ++ [i])
    end) (∅, []) ids.

(** [now2 n] is the reading of the clock for the [n]-th fetched set. *)
Fixpoint store_fetched (now2 : nat → time) (n : nat) (results : list PermissionSet)
    (acc : gmap PermissionSetID psCacheEntry * gmap PermissionSetID PermissionSet)
    : gmap PermissionSetID psCacheEntry * gmap PermissionSetID PermissionSet :=
  match results with
  | [] => acc
  | ps :: results =>
      store_fetched now2 (S n) results
        (<[ps_ID ps := PSEntry ps (now2 n + defaultCacheTTL)%Z]> acc.1, <[ps_ID ps := ps_Copy ps]> acc.2)
  end.

Definition pss_GetByIDs (now1 : time) (now2 : nat → time) (ids : list PermissionSetID)
    : prog ps_world (list PermissionSet) :=
  snapshot ← act (λ w, (w, split_cached now1 ids (pw_cache w)));
  let '(cached, uncached) := snapshot in
  cached ← (if decide (uncached = []) then Ret cached
            else
              results ← sets_read (psr_GetByIDs uncached);
              act (λ w, let '(cache, cached) := store_fetched now2 0 results (pw_cache w, cached) in
                        (set_pw_cache cache w, cached)));
  Ret (omap (λ i, cached !! i) ids).

(** The canonical id is the caller's to fill in: an absent one clears it. *)
Definition pss_Update (ps : PermissionSet) : ps_prog unit :=
  if negb (ps_Validate ps) then Ret (Err PSInvalid)
  else
    existing ← sets_read (psr_Get (ps_ID ps));
    match existing with
    | Err k => Ret (Err (PSStorage k))
    | Ok _ =>
        updated ← sets_act (psr_Update ps);
        match updated with
        | Err k => Ret (Err (PSStorage k))
        | Ok _ => _ ← cache_delete (ps_ID ps); Ret (Ok ())
        end
    end.

Definition pss_Delete (now : time) (i : PermissionSetID) : ps_prog unit :=
  agentCount ← act (λ w, (w, psr_CountAgentsReferencingPermissionSet i (pw_agents w)));
  if decide (agentCount ≠ 0) then Ret (Err (PSStorage KConflict))
  else
    grantCount ← act (λ w, (w, grant_CountGrantsReferencingPermissionSet now i (pw_grants w)));
    if decide (grantCount ≠ 0) then Ret (Err (PSStorage KConflict))
    else
      _ ← sets_act (psr_Delete i);
      _ ← cache_delete i;
      Ret (Ok ()).

Definition pss_List (serviceID : ServiceID) : prog ps_world (list PermissionSet) := sets_read (psr_List serviceID).

Definition pss_ValidateIDs (now1 : time) (now2 : nat → time) (ids : list PermissionSetID) : prog ps_world bool :=
  if decide (ids = []) then Ret true
  else
    results ← pss_GetByIDs now1 now2 ids;
    Ret (forallb (λ i, bool_decide (i ∈ map ps_ID results)) ids).

End service.
