(* ===== verification/PermissionSetsFacts.v ===== *)
(** * Permission sets: unique names, and a cache nobody can see

    The repository of PermissionSets.v is a map in which names and canonical ids are
    unique, and the expiring cache of the service does not change any answer as long as
    the calls do not overlap; overlapping calls can leave a superseded set in it. *)

From S2P Require Import Prelude ToolApproval ApprovalStore ApprovalHandlers OAuthSessions UserGrants Consent UriValidation UniqueIndex Agents PermissionSets.

(** ** The repository *)

Definition name_keys (ps : PermissionSet) : list string := [ps_Name ps].
Definition ps_can_keys (ps : PermissionSet) : list string := option_list (ps_CanonicalID ps).

Record ps_wf (r : PermissionSetRepository) : Prop := {
  pw_id i ps : permissionSets r !! i = Some ps → ps_ID ps = i ∧ ps_Copy ps = ps;
  pw_name : indexes name_keys (nameIndex r) (permissionSets r);
  pw_can : indexes ps_can_keys (canonicalIndex r) (permissionSets r);
}.

Lemma ps_wf_empty : ps_wf NewPermissionSetRepository.
Proof. split; [done | |]; apply indexes_empty. Qed.

Lemma ps_Copy_idemp ps : ps_Copy (ps_Copy ps) = ps_Copy ps.
Proof. done. Qed.

Lemma canonical_taken ps (m : gmap string PermissionSet) ix i :
  indexes ps_can_keys ix m →
  match ps_CanonicalID ps with Some c => held_by_other ix c i | None => false end = false →
  ∀ k, k ∈ ps_can_keys ps → ¬ taken ps_can_keys k i m.
Proof.
  intros Hix Hf k Hk%elem_of_option_list. rewrite Hk, (held_by_other_spec ps_can_keys ix m k i Hix) in Hf. by breflect.
Qed.

Lemma psr_Create_wf newID ps r : ps_wf r → ps_wf (psr_Create newID ps r).1.
Proof.
  intros Hw. unfold psr_Create. set (p := if nonzero_id (ps_ID ps) then ps else _). clearbody p.
  destruct (bool_decide (is_Some (permissionSets r !! _))) eqn:Hi; [done |]. breflect.
  apply eq_None_not_Some in Hi.
  destruct (bool_decide (is_Some (nameIndex r !! _))) eqn:Hn; [done |].
  rewrite (present_taken name_keys _ _ _ (ps_ID p) (pw_name r Hw) Hi) in Hn. breflect.
  destruct (match ps_CanonicalID p with Some _ => _ | None => _ end) eqn:Hc; [done |]. destruct Hw. split; simpl.
  - intros i q [[<- <-] | [_ ?]]%lookup_insert_Some; eauto.
  - apply (indexes_insert name_keys _ _ _ (ps_Copy p)); [done | done |]. intros k Hk.
    apply list_elem_of_singleton in Hk as ->. done.
  - rewrite index_set_option. apply (indexes_insert ps_can_keys _ _ _ (ps_Copy p)); [done | done |].
    apply canonical_taken with (ix := canonicalIndex r); [done |]. simpl. destruct (ps_CanonicalID p) as [c |]; [| done].
    rewrite (held_by_other_spec ps_can_keys _ _ c _ pw_can0), <-(present_taken ps_can_keys _ _ c _ pw_can0 Hi). done.
Qed.

Lemma psr_Update_wf ps r : ps_wf r → ps_wf (psr_Update ps r).1.
Proof.
  intros Hw. unfold psr_Update. destruct (permissionSets r !! ps_ID ps) as [old |] eqn:Hi; [| done].
  destruct (match ps_CanonicalID ps with Some _ => _ | None => _ end) eqn:Hc; [done |].
  destruct (_ && _) eqn:Hn; [done |]. destruct Hw. split; simpl.
  - intros i q [[<- <-] | [_ ?]]%lookup_insert_Some; eauto.
  - destruct (decide (ps_Name ps = ps_Name old)) as [E | Hne].
    + rewrite bool_decide_eq_true_2 by done. simpl. intros k i. rewrite (pw_name0 k i).
      unfold name_keys. setoid_rewrite list_elem_of_singleton. split.
      * intros (q & Hq & ->). destruct (decide (ps_ID ps = i)) as [<- | Hne].
        -- simplify_eq. exists (ps_Copy ps). by rewrite lookup_insert_eq.
        -- exists q. by rewrite lookup_insert_ne.
      * intros (q & [[<- <-] | [_ Hq]]%lookup_insert_Some & ->); [exists old; by rewrite <-E | eauto].
    + rewrite bool_decide_eq_false_2 in Hn |- * by done. simpl in *. breflect.
      apply (indexes_update name_keys _ _ _ old (ps_Copy ps)); [done | done |].
      intros k Hk%list_elem_of_singleton. subst k. rewrite taken_spec. intros (j & q & Hq & _ & Hk).
      destruct Hn. exists j. apply pw_name0. eauto.
  - rewrite index_set_option, index_clear_option.
    apply (indexes_update ps_can_keys _ _ _ old (ps_Copy ps)); [done | done |]. by eapply canonical_taken.
Qed.

Lemma psr_Delete_wf i r : ps_wf r → ps_wf (psr_Delete i r).1.
Proof.
  intros Hw. unfold psr_Delete. destruct (permissionSets r !! i) as [ps |] eqn:Hi; [| done].
  destruct Hw. split; simpl.
  - intros j q [_ ?]%lookup_delete_Some; eauto.
  - by apply (indexes_delete name_keys _ _ _ ps).
  - rewrite index_clear_option. by apply (indexes_delete ps_can_keys _ _ _ ps).
Qed.
#[export] Hint Resolve ps_wf_empty psr_Create_wf psr_Update_wf psr_Delete_wf : broker.

(** ** The service without its cache *)

Inductive ps_call :=
  | CallCreate (newID : PermissionSetID) (ps : PermissionSet)
  | CallGet (now1 now2 : time) (i : PermissionSetID)
  | CallGetByIDs (now1 : time) (now2 : nat → time) (ids : list PermissionSetID)
  | CallValidateIDs (now1 : time) (now2 : nat → time) (ids : list PermissionSetID)
  | CallUpdate (ps : PermissionSet)
  | CallDelete (now : time) (i : PermissionSetID)
  | CallEvict (now : time).

Inductive ps_answer :=
  | AnsSet (res : result ps_error PermissionSet)
  | AnsSets (l : list PermissionSet)
  | AnsUnit (res : result ps_error unit)
  | AnsValid (b : bool).

Section service.
Context `{UUID}.

Definition ps_exec (c : ps_call) (w : ps_world) : ps_world * ps_answer :=
  match c with
  | CallCreate newID ps => let '(w', x) := run (pss_Create newID ps) w in (w', AnsSet x)
  | CallGet now1 now2 i => let '(w', x) := run (pss_Get now1 now2 i) w in (w', AnsSet x)
  | CallGetByIDs now1 now2 ids => let '(w', x) := run (pss_GetByIDs now1 now2 ids) w in (w', AnsSets x)
  | CallValidateIDs now1 now2 ids => let '(w', x) := run (pss_ValidateIDs now1 now2 ids) w in (w', AnsValid x)
  | CallUpdate ps => let '(w', x) := run (pss_Update ps) w in (w', AnsUnit x)
  | CallDelete now i => let '(w', x) := run (pss_Delete now i) w in (w', AnsUnit x)
  | CallEvict now => let '(w', _) := run (evictExpired now) w in (w', AnsUnit (Ok ()))
  end.

Definition lift {A} (r : result ErrorKind A) : result ps_error A :=
  match r with Ok a => Ok a | Err k => Err (PSStorage k) end.

(** The reference: every read goes to the repository. *)
Definition ref_exec (c : ps_call) (w : ps_world) : ps_world * ps_answer :=
  match c with
  | CallCreate newID ps =>
      if negb (ps_ValidateForCreate ps) then (w, AnsSet (Err PSInvalid))
      else
        let '(r, x) := psr_Create newID (if nonzero_id (ps_ID ps) then ps else set_ps_ID newID ps) (pw_sets w) in
        (set_sets r w, AnsSet (lift x))
  | CallGet _ _ i => (w, AnsSet (lift (psr_Get i (pw_sets w))))
  | CallGetByIDs _ _ ids => (w, AnsSets (psr_GetByIDs ids (pw_sets w)))
  | CallValidateIDs _ _ ids =>
      (w, AnsValid (forallb (λ i, bool_decide (is_Some (permissionSets (pw_sets w) !! i))) ids))
  | CallUpdate ps =>
      if negb (ps_Validate ps) then (w, AnsUnit (Err PSInvalid))
      else let '(r, x) := psr_Update ps (pw_sets w) in (set_sets r w, AnsUnit (lift x))
  | CallDelete now i =>
      if decide (psr_CountAgentsReferencingPermissionSet i (pw_agents w) ≠ 0 ∨
                 grant_CountGrantsReferencingPermissionSet now i (pw_grants w) ≠ 0)
      then (w, AnsUnit (Err (PSStorage KConflict)))
      else (set_sets (psr_Delete i (pw_sets w)).1 w, AnsUnit (Ok ()))
  | CallEvict _ => (w, AnsUnit (Ok ()))
  end.

Fixpoint answers (exec : ps_call → ps_world → ps_world * ps_answer) (calls : list ps_call) (w : ps_world)
    : list ps_answer :=
  match calls with
  | [] => []
  | c :: calls => let '(w', x) := exec c w in x :: answers exec calls w'
  end.

(** *** The invariant: a cached set is the stored one *)

Record coherent (w : ps_world) : Prop := {
  co_wf : ps_wf (pw_sets w);
  co_cache i e : pw_cache w !! i = Some e → permissionSets (pw_sets w) !! i = Some (ce_ps e);
}.

(** Same repositories, caches aside. *)
Definition same_repos (w v : ps_world) : Prop :=
  pw_sets w = pw_sets v ∧ pw_agents w = pw_agents v ∧ pw_grants w = pw_grants v.

(** Every set in a working map is the stored one. *)
Definition agrees (m : gmap PermissionSetID PermissionSet) (r : PermissionSetRepository) : Prop :=
  ∀ i ps, m !! i = Some ps → permissionSets r !! i = Some ps.

Lemma split_cached_spec now ids w :
  coherent w →
  let '(cached, uncached) := split_cached now ids (pw_cache w) in
  agrees cached (pw_sets w) ∧ ∀ i, i ∈ ids → is_Some (cached !! i) ∨ i ∈ uncached.
Proof.
  intros [Hw Hc]. unfold split_cached.
  induction ids as [| i ids IH] using rev_ind; [split; [done | set_solver] |].
  rewrite foldl_app. destruct (foldl _ _ ids) as [cached uncached] eqn:Hf. destruct IH as [IH1 IH2]. simpl.
  destruct (pw_cache w !! i) as [e |] eqn:He; [destruct (fresh_entry now e) |].
  2,3: split; [done |]; intros j [Hj%IH2 | ->%list_elem_of_singleton]%elem_of_app; set_solver.
  split.
  - intros j ps [[<- <-] | [_ Hj]]%lookup_insert_Some; [| by apply IH1].
    pose proof (Hc i e He) as Hs. by destruct (pw_id _ Hw i _ Hs) as [_ ->].
  - intros j [Hj%IH2 | ->%list_elem_of_singleton]%elem_of_app.
    + destruct Hj as [Hj |]; [left | by right]. destruct (decide (i = j)) as [<- |]; [by rewrite lookup_insert_eq |].
      by rewrite lookup_insert_ne.
    + left. by rewrite lookup_insert_eq.
Qed.

Lemma store_fetched_spec now2 n results r cache cached :
  (∀ ps, ps ∈ results → permissionSets r !! ps_ID ps = Some ps ∧ ps_Copy ps = ps) →
  (∀ i e, cache !! i = Some e → permissionSets r !! i = Some (ce_ps e)) → agrees cached r →
  let acc := store_fetched now2 n results (cache, cached) in
  (∀ i e, acc.1 !! i = Some e → permissionSets r !! i = Some (ce_ps e)) ∧ agrees acc.2 r ∧
  ∀ i, is_Some (cached !! i) ∨ i ∈ ps_ID <$> results → is_Some (acc.2 !! i).
Proof.
  revert n cache cached. induction results as [| ps results IH]; intros n cache cached Hr Hc Ha; simpl.
  { split_and!; [done | done |]. set_solver. }
  destruct (Hr ps ltac:(set_solver)) as [Hps Hcp].
  destruct (IH (S n) (<[ps_ID ps := PSEntry ps (now2 n + defaultCacheTTL)%Z]> cache) (<[ps_ID ps := ps_Copy ps]> cached))
    as (H1 & H2 & H3).
  - intros q Hq. apply Hr. set_solver.
  - intros i e [[<- <-] | [_ ?]]%lookup_insert_Some; [done | eauto].
  - intros i q [[<- <-] | [_ ?]]%lookup_insert_Some; [by rewrite Hcp | by apply Ha].
  - split_and!; [done | done |]. intros i Hi. apply H3.
    destruct (decide (ps_ID ps = i)) as [<- | Hne]; [left; by rewrite lookup_insert_eq |].
    rewrite lookup_insert_ne by done. set_solver.
Qed.

(** A working map that agrees with the repository and covers the stored ids asked for
    gives the repository's answer. *)
Lemma assemble ids cached r :
  ps_wf r → agrees cached r →
  (∀ i, i ∈ ids → is_Some (permissionSets r !! i) → is_Some (cached !! i)) →
  omap (λ i, cached !! i) ids = psr_GetByIDs ids r.
Proof.
  intros Hw Ha Hcov. unfold psr_GetByIDs. induction ids as [| i ids IH]; [done |]. cbn [omap list_omap].
  change (list_omap _ _ (λ i, cached !! i) ids) with (omap (λ i, cached !! i) ids).
  rewrite IH by (intros; apply Hcov; set_solver).
  destruct (permissionSets r !! i) as [ps |] eqn:Hi.
  - destruct (Hcov i) as [q Hq]; [set_solver | eauto |]. rewrite Hq. pose proof (Ha i q Hq) as Hi'. simplify_eq/=.
    by destruct (pw_id _ Hw i ps Hi) as [_ ->].
  - destruct (cached !! i) as [q |] eqn:Hq; [| done]. apply Ha in Hq. congruence.
Qed.

Lemma pss_GetByIDs_spec now1 now2 ids w :
  coherent w →
  let '(w', l) := run (pss_GetByIDs now1 now2 ids) w in
  coherent w' ∧ same_repos w' w ∧ l = psr_GetByIDs ids (pw_sets w).
Proof.
  intros Hco. unfold pss_GetByIDs, mbind, prog_bind. rewrite run_act.
  pose proof (split_cached_spec now1 ids w Hco) as Hs. destruct (split_cached now1 ids (pw_cache w)) as [cached uncached].
  destruct Hs as [Ha Hcov]. destruct Hco as [Hw Hc]. rewrite run_pbind. case_decide as Hu.
  - subst uncached. simpl. split_and!; [done | done |]. apply assemble; [done | done |].
    intros i Hi _. destruct (Hcov i Hi); [done | set_solver].
  - unfold sets_read. rewrite run_act. cbn [run act].
    destruct (store_fetched_spec now2 0 (psr_GetByIDs uncached (pw_sets w)) (pw_sets w) (pw_cache w) cached)
      as (H1 & H2 & H3); [| done | done |].
    { intros ps Hps. unfold psr_GetByIDs in Hps. apply list_elem_of_omap in Hps as (i & _ & E).
      destruct (permissionSets (pw_sets w) !! i) as [q |] eqn:Hi; simplify_eq/=.
      destruct (pw_id _ Hw i q Hi) as [Hid Hcp]. rewrite Hcp, Hid. by rewrite Hi. }
    destruct (store_fetched _ _ _ _) as [cache cached']. simpl in *.
    split_and!; [by split | done |]. apply assemble; [done | done |].
    intros i Hi [ps Hps]. apply H3. destruct (Hcov i Hi) as [? | Hun]; [by left | right].
    apply list_elem_of_fmap. exists ps. destruct (pw_id _ Hw i ps Hps) as [Hid Hcp]. split; [done |].
    apply list_elem_of_omap. exists i. split; [done |]. rewrite Hps. simpl. by rewrite Hcp.
Qed.

Lemma impl_iff_proper (P Q R : Prop) : (P → Q ↔ R) → (P → Q) ↔ (P → R).
Proof. tauto. Qed.

(** *** Each call *)

Definition refines_call (w v : ps_world) (c : ps_call) : Prop :=
  coherent (ps_exec c w).1 ∧ same_repos (ps_exec c w).1 (ref_exec c v).1 ∧ (ps_exec c w).2 = (ref_exec c v).2.

(** A write that only touches set [i], followed by the invalidation of [i]. *)
Lemma coherent_write w r i :
  coherent w → ps_wf r → (∀ j, j ≠ i → permissionSets r !! j = permissionSets (pw_sets w) !! j) →
  coherent (set_pw_cache (delete i (pw_cache (set_sets r w))) (set_sets r w)).
Proof.
  intros [Hw Hc] Hr Hsame. split; [done |]. simpl. intros j e [Hne Hj]%lookup_delete_Some.
  rewrite Hsame by done. eauto.
Qed.

Lemma set_sets_same w : set_sets (pw_sets w) w = w.
Proof. by destruct w. Qed.

Lemma refines_create w v newID ps : coherent w → same_repos w v → refines_call w v (CallCreate newID ps).
Proof.
  intros Hco (E1 & E2 & E3). unfold refines_call, ps_exec, ref_exec, pss_Create.
  destruct (negb _); [done |]. unfold mbind, prog_bind, sets_act. rewrite run_act, <-E1.
  set (p := if nonzero_id (ps_ID ps) then ps else _). clearbody p.
  pose proof (psr_Create_wf newID p (pw_sets w) (co_wf w Hco)) as Hwf. revert Hwf.
  unfold psr_Create. set (q := if nonzero_id (ps_ID p) then p else _). clearbody q.
  repeat (destruct (bool_decide _); [by rewrite set_sets_same |]).
  destruct (match ps_CanonicalID q with Some _ => _ | None => _ end); [by rewrite set_sets_same |].
  intros Hwf. simpl in *. split_and!; [| done | done].
  apply coherent_write; [done | done |]. intros j Hj. simpl. by rewrite lookup_insert_ne.
Qed.

Lemma refines_get w v now1 now2 i : coherent w → same_repos w v → refines_call w v (CallGet now1 now2 i).
Proof.
  intros Hco (E1 & E2 & E3). unfold refines_call, ps_exec, ref_exec, pss_Get. rewrite <-E1.
  unfold mbind, prog_bind, sets_read. rewrite run_act.
  destruct (match pw_cache w !! i with Some _ => _ | None => None end) as [ps |] eqn:Hc.
  - destruct (pw_cache w !! i) as [e |] eqn:He; [| done]. destruct (fresh_entry now1 e); simplify_eq/=.
    split_and!; [done | done |]. unfold psr_Get. by rewrite (co_cache w Hco i e He).
  - clear Hc. rewrite run_act. unfold psr_Get. destruct (permissionSets (pw_sets w) !! i) as [ps |] eqn:Hi; [| done].
    simpl. split_and!; [| done | done]. destruct Hco as [Hw Hc]. split; [done |]. simpl.
    intros j e [[<- <-] | [_ ?]]%lookup_insert_Some; [| eauto].
    simpl. by destruct (pw_id _ Hw i ps Hi) as [_ ->].
Qed.

Lemma refines_get_by_ids w v now1 now2 ids : coherent w → same_repos w v → refines_call w v (CallGetByIDs now1 now2 ids).
Proof.
  intros Hco (E1 & E2 & E3). unfold refines_call, ps_exec, ref_exec.
  pose proof (pss_GetByIDs_spec now1 now2 ids w Hco) as Hs. destruct (run (pss_GetByIDs now1 now2 ids) w) as [w' l].
  destruct Hs as (Hco' & (F1 & F2 & F3) & ->). simpl. split_and!; [done | | by rewrite E1].
  unfold same_repos. by rewrite F1, F2, F3.
Qed.

Lemma refines_validate w v now1 now2 ids :
  coherent w → same_repos w v → refines_call w v (CallValidateIDs now1 now2 ids).
Proof.
  intros Hco (E1 & E2 & E3). unfold refines_call, ps_exec, ref_exec, pss_ValidateIDs.
  case_decide as Hids; [by subst |]. unfold mbind, prog_bind. rewrite run_pbind.
  pose proof (pss_GetByIDs_spec now1 now2 ids w Hco) as Hs. destruct (run (pss_GetByIDs now1 now2 ids) w) as [w' l].
  destruct Hs as (Hco' & (F1 & F2 & F3) & ->). simpl. split_and!; [done | unfold same_repos; by rewrite F1, F2, F3 |].
  f_equal. apply eq_true_iff_eq. rewrite !forallb_forall. apply forall_proper. intros i.
  setoid_rewrite <-list_elem_of_In. apply impl_iff_proper. intros Hi. rewrite !bool_decide_eq_true, <-E1.
  rewrite list_elem_of_fmap. unfold psr_GetByIDs. setoid_rewrite list_elem_of_omap. split.
  - intros (ps & -> & j & Hj & E). destruct (permissionSets (pw_sets w) !! j) as [q |] eqn:Hq; simplify_eq/=.
    destruct (pw_id _ (co_wf w Hco) j q Hq) as [-> _]. eauto.
  - intros [ps Hps]. destruct (pw_id _ (co_wf w Hco) i ps Hps) as [Hid Hcp]. exists (ps_Copy ps).
    split; [done |]. exists i. by rewrite Hps.
Qed.

Lemma refines_update_call w v ps : coherent w → same_repos w v → refines_call w v (CallUpdate ps).
Proof.
  intros Hco (E1 & E2 & E3). unfold refines_call, ps_exec, ref_exec, pss_Update.
  destruct (negb _); [done |]. unfold mbind, prog_bind, sets_act, sets_read. rewrite run_act, <-E1.
  pose proof (psr_Update_wf ps (pw_sets w) (co_wf w Hco)) as Hwf. revert Hwf.
  unfold psr_Get, psr_Update. destruct (permissionSets (pw_sets w) !! ps_ID ps) as [old |] eqn:Hi; [| done].
  rewrite run_act. rewrite Hi.
  destruct (match ps_CanonicalID ps with Some _ => _ | None => _ end); [by rewrite set_sets_same |].
  destruct (_ && _); [by rewrite set_sets_same |].
  intros Hwf. simpl in *. split_and!; [| done | done].
  apply coherent_write; [done | done |]. intros j Hj. simpl. by rewrite lookup_insert_ne.
Qed.

Lemma refines_delete w v now i : coherent w → same_repos w v → refines_call w v (CallDelete now i).
Proof.
  intros Hco (E1 & E2 & E3). unfold refines_call, ps_exec, ref_exec, pss_Delete.
  unfold mbind, prog_bind, sets_act. rewrite run_act, <-E1, <-E2, <-E3.
  destruct (decide (psr_CountAgentsReferencingPermissionSet i (pw_agents w) ≠ 0)) as [Ha | Ha].
  { by rewrite decide_True by tauto. }
  rewrite run_act. destruct (decide (grant_CountGrantsReferencingPermissionSet now i (pw_grants w) ≠ 0)) as [Hg | Hg].
  { by rewrite decide_True by tauto. }
  rewrite decide_False by tauto. rewrite run_act.
  pose proof (psr_Delete_wf i (pw_sets w) (co_wf w Hco)) as Hwf.
  destruct (psr_Delete i (pw_sets w)) as [r b] eqn:Hd. simpl in *. split_and!; [| done | done].
  apply coherent_write; [done | done |]. intros j Hj. revert Hd. unfold psr_Delete.
  destruct (permissionSets (pw_sets w) !! i); intros [= <- <-]; simpl; [by rewrite lookup_delete_ne | done].
Qed.

Lemma ps_exec_refines w v c : coherent w → same_repos w v → refines_call w v c.
Proof.
  intros Hco Hs. destruct c; eauto using refines_create, refines_get, refines_get_by_ids, refines_validate,
    refines_update_call, refines_delete.
  destruct Hs as (E1 & E2 & E3). split_and!; [| done | done]. destruct Hco as [Hw Hc]. split; [done |].
  intros i e He. simpl in He. apply map_lookup_filter_Some in He as [He _]. by apply Hc.
Qed.

(** The cache is invisible to callers that take turns: any sequence of
    calls of the permission-set service (creation, reads of one or several sets,
    validation of ids, update, deletion, eviction, at any clock readings) is answered
    exactly as by a service that reads the repository every time. *)
Theorem permission_set_cache_transparent calls agents grants :
  let w := PSWorld NewPermissionSetRepository agents grants ∅ in
  answers ps_exec calls w = answers ref_exec calls w.
Proof.
  intros w. assert (coherent w) as Hco by (split; [apply ps_wf_empty | done]).
  assert (same_repos w w) as Hs by done. revert Hco Hs. generalize w at 1 2 4 as u. generalize w as v. clear w.
  induction calls as [| c calls IH]; intros v u Hco Hs; simpl; [done |].
  destruct (ps_exec_refines u v c Hco Hs) as (H1 & H2 & H3).
  destruct (ps_exec c u) as [u' x], (ref_exec c v) as [v' y]. simpl in *. subst y. f_equal. by apply IH.
Qed.

Lemma ps_wf_run calls w : coherent w → ps_wf (pw_sets (foldl (λ w c, (ps_exec c w).1) w calls)).
Proof.
  revert w. induction calls as [| c calls IH]; intros w Hco; simpl; [by destruct Hco |].
  apply IH. by destruct (ps_exec_refines w w c Hco) as (? & _).
Qed.

(** Two sets never share a name or a canonical id. *)
Lemma permission_set_names_unique calls agents grants i j p q :
  let r := pw_sets (foldl (λ w c, (ps_exec c w).1) (PSWorld NewPermissionSetRepository agents grants ∅) calls) in
  permissionSets r !! i = Some p → permissionSets r !! j = Some q →
  ps_Name p = ps_Name q ∨ is_Some (ps_CanonicalID p) ∧ ps_CanonicalID p = ps_CanonicalID q → i = j.
Proof.
  intros r Hp Hq Hor. assert (ps_wf r) as Hw by (apply ps_wf_run; split; [apply ps_wf_empty | done]).
  destruct Hor as [E | [[c Hc] E]].
  - eapply (indexes_inj name_keys _ _ (ps_Name p) i j p q (pw_name r Hw) Hp Hq); unfold name_keys; rewrite ?E; set_solver.
  - eapply (indexes_inj ps_can_keys _ _ c i j p q (pw_can r Hw) Hp Hq); apply elem_of_option_list; congruence.
Qed.
End service.
