(* ===== verification/AgentService.v ===== *)
(** * The agent service

    internal/domain/agents/service.go and reconcile.go: creation and update with the
    rules across components, resolution by client id, and reconciliation of a desired
    definition by external id.  Every call of the repository is one atomic action; the
    permission-set resolver and the validator of service requirements are the class
    [AgentPorts], programs over a world of their own. *)

From S2P Require Import Prelude ToolApproval ApprovalStore ApprovalHandlers OAuthSessions UserGrants Consent UriValidation UniqueIndex Agents.

(** ** Errors and ports *)

(** A storage error of some kind, possibly wrapped; the sentinels of the package; any
    other error.  [ANilAgent]: the repository returned no agent and no error. *)
Inductive agent_error :=
  | AStorage (k : ErrorKind)
  | AErrInvalidExternalID | AErrAmbiguousClientID | AErrAgentRemoved
  | AOther | ANilAgent.
#[export] Instance agent_error_eq_dec : EqDecision agent_error.
Proof. solve_decision. Defined.

(** Their errors: a storage error of some kind, possibly wrapped, or another error. *)
Abbreviation port_error := (option ErrorKind) (only parsing).

Class AgentPorts (E : Type) := {
  resolver_GetByIDs : list PermissionSetID → prog E (result port_error (list PermissionSet));
  provider_ValidateServiceRequirements : list ServiceRequirement → prog E (result port_error unit);
}.

Definition from_port {A} (r : result port_error A) : result agent_error A :=
  match r with Ok a => Ok a | Err (Some k) => Err (AStorage k) | Err None => Err AOther end.

Record agent_config := { multiAgentEnabled : bool; has_permissionSets : bool }.

Record agent_world (E : Type) := AgentWorld { aw_repo : AgentRepository; aw_env : E }.
Arguments AgentWorld {E}.
Arguments aw_repo {E}.
Arguments aw_env {E}.

#[export] Instance ServiceRequirement_eq_dec : EqDecision ServiceRequirement.
Proof. solve_decision. Defined.
#[export] Instance AgentPermissionSetEntry_eq_dec : EqDecision AgentPermissionSetEntry.
Proof. solve_decision. Defined.

Definition with_identity (canonicalID clientID externalID : option string) (created updated : time) (a : Agent) : Agent :=
  {| ag_ID := ag_ID a; ag_CanonicalID := canonicalID; ag_ClientID := clientID; ag_ExternalID := externalID;
     ag_DisplayName := ag_DisplayName a; ag_Description := ag_Description a; ag_GovernanceURL := ag_GovernanceURL a;
     ag_UserDocumentationURL := ag_UserDocumentationURL a; ag_AgentInterfaceURL := ag_AgentInterfaceURL a;
     ag_ServiceRequirements := ag_ServiceRequirements a; ag_PermissionSets := ag_PermissionSets a;
     ag_RedirectURIs := ag_RedirectURIs a; ag_AllowedScopes := ag_AllowedScopes a; ag_ClientURIs := ag_ClientURIs a;
     ag_CreatedAt := created; ag_UpdatedAt := updated |}.

Definition set_ExternalID (x : ExternalID) (a : Agent) : Agent :=
  with_identity (ag_CanonicalID a) (ag_ClientID a) (Some x) (ag_CreatedAt a) (ag_UpdatedAt a) a.
Definition set_ag_times (created updated : time) (a : Agent) : Agent :=
  with_identity (ag_CanonicalID a) (ag_ClientID a) (ag_ExternalID a) created updated a.

Record UpdateInput := { ClearClientID : bool; ui_CanonicalIDPresent : bool }.

Record ReconcileInput := {
  ri_CanonicalIDPresent : bool;
  ri_ExternalIDPresent : bool;
  ri_ExternalIDNull : bool;
}.

Inductive ReconcileOutcome := ReconcileCreated | ReconcileUpdated | ReconcileUnchanged.

(** Equal but for the id and the times; the order of the client URIs does not matter. *)
Definition sameDefinition (a b : Agent) : bool :=
  bool_decide (ag_CanonicalID a = ag_CanonicalID b) && bool_decide (ag_ClientID a = ag_ClientID b) &&
  bool_decide (ag_ExternalID a = ag_ExternalID b) && bool_decide (ag_DisplayName a = ag_DisplayName b) &&
  bool_decide (ag_Description a = ag_Description b) && bool_decide (ag_GovernanceURL a = ag_GovernanceURL b) &&
  bool_decide (ag_UserDocumentationURL a = ag_UserDocumentationURL b) &&
  bool_decide (ag_AgentInterfaceURL a = ag_AgentInterfaceURL b) &&
  bool_decide (ag_PermissionSets a = ag_PermissionSets b) && bool_decide (ag_RedirectURIs a = ag_RedirectURIs b) &&
  bool_decide (ag_AllowedScopes a = ag_AllowedScopes b) &&
  bool_decide (ag_ServiceRequirements a = ag_ServiceRequirements b) &&
  bool_decide (merge_sort String.le (ag_ClientURIs a) = merge_sort String.le (ag_ClientURIs b)).

(** The UUID and the readings of the clock one reconciliation draws. *)
Record reconcile_env := { re_newID : AgentID; re_created : time; re_updated1 : time; re_updated2 : time }.

Section service.
Context {E : Type} `{AgentPorts E} `{GoURL} `{UUID}.
Variable cfg : agent_config.

Abbreviation handler A := (prog (agent_world E) (result agent_error A)).

(** Actions on the repository, and programs of the ports. *)
Definition agents_act {A} (f : AgentRepository → AgentRepository * A) : prog (agent_world E) A :=
  act (λ w, let '(r, x) := f (aw_repo w) in (AgentWorld r (aw_env w), x)).
Definition agents_read {A} (f : AgentRepository → A) : prog (agent_world E) A := act (λ w, (w, f (aw_repo w))).

Fixpoint port_prog {A} (p : prog E A) : prog (agent_world E) A :=
  match p with
  | Ret a => Ret a
  | Act f k =>
      Act (λ w : agent_world E, let '(e, x) := f (aw_env w) in (AgentWorld (aw_repo w) e, x)) (λ x, port_prog (k x))
  end.
Definition port_call {A} (p : prog E (result port_error A)) : handler A :=
  r ← port_prog p; Ret (from_port r).

(** Go's early return on an error. *)
Definition try {A B} (p : handler A) (k : A → handler B) : handler B :=
  r ← p; match r with Ok a => k a | Err e => Ret (Err e) end.

Definition storage_err {A} (r : result ErrorKind A) : result agent_error A :=
  match r with Ok a => Ok a | Err k => Err (AStorage k) end.

(** A nil agent without an error. *)
Definition deref (r : result ErrorKind (option Agent)) : result agent_error Agent :=
  match r with Ok (Some a) => Ok a | Ok None => Err ANilAgent | Err k => Err (AStorage k) end.

Definition agents_ResolveID (value : string) : handler AgentID :=
  match uuid_Parse value with
  | Some i => Ret (Ok i)
  | None => try (r ← agents_read (agent_GetByCanonicalID value); Ret (deref r)) (λ a, Ret (Ok (ag_ID a)))
  end.

Definition covered_services (sets : list PermissionSet) : gset ServiceID :=
  list_to_set (ss_ServiceID <$> concat (ps_ServiceScopes <$> sets)).

Definition validateServiceRequirementsCoverage (reqs : list ServiceRequirement)
    (entries : list AgentPermissionSetEntry) : handler unit :=
  if decide (reqs = []) then Ret (Ok ())
  else if negb (has_permissionSets cfg) then Ret (Err (AStorage KValidation))
  else try (port_call (resolver_GetByIDs (aps_PermissionSetID <$> entries))) (λ sets,
    if forallb (λ sr, bool_decide (sr_ServiceID sr ∈ covered_services sets)) reqs then Ret (Ok ())
    else Ret (Err (AStorage KValidation))).

Definition checkClientIDUniqueness (clientID : ClientID) (exclude : option AgentID) : handler unit :=
  exists_ ← agents_read (agent_ExistsOtherWithClientID clientID exclude);
  Ret (if exists_ : bool then Err (AStorage KConflict) else Ok ()).

(** The checks shared by creation and update, after the field validation. *)
Definition check_definition (agent : Agent) (exclude : option AgentID) : handler unit :=
  try (validateServiceRequirementsCoverage (ag_ServiceRequirements agent) (ag_PermissionSets agent)) (λ _,
  try (port_call (provider_ValidateServiceRequirements (ag_ServiceRequirements agent))) (λ _,
  match ag_ClientID agent with
  | Some c => if multiAgentEnabled cfg then Ret (Ok ()) else checkClientIDUniqueness c exclude
  | None => Ret (Ok ())
  end)).

Definition agents_Create (newID : AgentID) (agent : Agent) : handler Agent :=
  let agent := if nonzero_id (ag_ID agent) then agent else set_ag_ID newID agent in
  if negb (Agent_ValidateForCreate agent) then Ret (Err (AStorage KValidation))
  else try (check_definition agent None) (λ _,
    r ← agents_act (agent_Create newID agent); Ret (storage_err r)).

(** Omitted identities are those of the existing agent. *)
Definition update_candidate_of (existing desired : Agent) (input : UpdateInput) : Agent :=
  set_ag_ID (ag_ID existing)
    (with_identity
       (match ag_CanonicalID desired with
        | None => if ui_CanonicalIDPresent input then None else ag_CanonicalID existing
        | c => c
        end)
       (if ClearClientID input then None
        else match ag_ClientID desired with None => ag_ClientID existing | c => c end)
       (ag_ExternalID desired) (ag_CreatedAt existing) (ag_UpdatedAt desired) desired).

Definition updateCandidate (existing desired : Agent) (input : UpdateInput) : handler Agent :=
  let agent := update_candidate_of existing desired input in
  if negb (Agent_Validate agent) then Ret (Err (AStorage KValidation))
  else try (check_definition agent (Some (ag_ID existing))) (λ _, Ret (Ok agent)).

Definition persistUpdate (agent : Agent) : handler unit :=
  r ← agents_act (agent_Update agent); Ret (storage_err r).

Definition agents_Update (agentID : AgentID) (agent : Agent) (input : UpdateInput) : handler Agent :=
  try (r ← agents_read (agent_Get agentID); Ret (storage_err r)) (λ existing,
  try (updateCandidate existing agent input) (λ candidate,
  try (persistUpdate candidate) (λ _, Ret (Ok candidate)))).

Definition ResolveUniqueByClientID (clientID : ClientID) : handler Agent :=
  try (r ← agents_read (agent_GetByClientID clientID); Ret (deref r)) (λ agent,
  dup ← agents_read (agent_ExistsOtherWithClientID clientID (Some (ag_ID agent)));
  Ret (if dup : bool then Err AErrAmbiguousClientID else Ok agent)).

Definition agents_Get (agentID : AgentID) : handler Agent :=
  r ← agents_read (agent_Get agentID); Ret (storage_err r).
Definition agents_Delete (agentID : AgentID) : handler unit :=
  _ ← agents_act (agent_Delete agentID); Ret (Ok ()).
Definition agents_List : prog (agent_world E) (list Agent) := agents_read agent_List.

Definition validateExternalID (x : ExternalID) : result agent_error unit :=
  if ValidateExternalID x then Ok () else Err AErrInvalidExternalID.

Definition ListByExternalID (x : ExternalID) : handler (list Agent) :=
  match validateExternalID x with
  | Err e => Ret (Err e)
  | Ok _ =>
      r ← agents_read (agent_GetByExternalID x);
      match r with
      | Err KNotFound => Ret (Ok [])
      | Err k => Ret (Err (AStorage k))
      | Ok a => Ret (match a with Some a => Ok [a] | None => Err ANilAgent end)
      end
  end.

(** ** Reconciliation *)

Definition reconcileExisting (now : time) (existing desired : Agent) (selector : ExternalID) (input : ReconcileInput)
    : handler (Agent * ReconcileOutcome) :=
  let u := {| ClearClientID := false; ui_CanonicalIDPresent := ri_CanonicalIDPresent input |} in
  try (updateCandidate existing (set_ExternalID selector desired) u) (λ candidate,
  if sameDefinition existing candidate then Ret (Ok (existing, ReconcileUnchanged))
  else
    let candidate := set_ag_times (ag_CreatedAt candidate) now candidate in
    r ← persistUpdate candidate;
    match r with
    | Err (AStorage KNotFound) => Ret (Err AErrAgentRemoved)
    | Err e => Ret (Err e)
    | Ok _ => Ret (Ok (candidate, ReconcileUpdated))
    end).

Definition reconcileNew (env : reconcile_env) (desired : Agent) (selector : ExternalID) (input : ReconcileInput)
    : handler (Agent * ReconcileOutcome) :=
  let candidate :=
    set_ag_ID (re_newID env) (set_ag_times (re_created env) (re_created env) (set_ExternalID selector desired)) in
  r ← agents_Create (re_newID env) candidate;
  match r with
  | Ok candidate => Ret (Ok (candidate, ReconcileCreated))
  | Err (AStorage KConflict as err) =>
      holder ← agents_read (agent_GetByExternalID selector);
      match holder with
      | Err KNotFound => Ret (Err err)
      | Err k => Ret (Err (AStorage k))
      | Ok None => Ret (Err ANilAgent)
      | Ok (Some holder) =>
          r ← reconcileExisting (re_updated2 env) holder desired selector input;
          match r with
          | Err AErrAgentRemoved => Ret (Err err)
          | r => Ret r
          end
      end
  | Err err => Ret (Err err)
  end.

Definition ReconcileByExternalID (env : reconcile_env) (selector : ExternalID) (desired : Agent) (input : ReconcileInput)
    : handler (Agent * ReconcileOutcome) :=
  match validateExternalID selector with
  | Err e => Ret (Err e)
  | Ok _ =>
      if ri_ExternalIDNull input then Ret (Err AErrInvalidExternalID)
      else if ri_ExternalIDPresent input && negb (bool_decide (ag_ExternalID desired = Some selector))
      then Ret (Err AErrInvalidExternalID)
      else
        existing ← agents_read (agent_GetByExternalID selector);
        match existing with
        | Ok None => Ret (Err ANilAgent)
        | Ok (Some existing) =>
            r ← reconcileExisting (re_updated1 env) existing desired selector input;
            match r with
            | Err AErrAgentRemoved => reconcileNew env desired selector input
            | r => Ret r
            end
        | Err KNotFound => reconcileNew env desired selector input
        | Err k => Ret (Err (AStorage k))
        end
  end.

End service.
