(* ===== verification/AgentServiceFacts.v ===== *)
(** * Reconciliation by external id

    A reconciliation repeated is a reconciliation that changes nothing, and concurrent
    reconciliations of one external id agree on one agent.  Also: resolution by client
    id never picks one of several agents. *)

From S2P Require Import Prelude ToolApproval ApprovalStore ApprovalHandlers OAuthSessions UserGrants Consent UriValidation UniqueIndex Agents AgentsFacts AgentService.

Section facts.
Context {E : Type} `{AgentPorts E} `{GoURL} `{UUID}.
Variable cfg : agent_config.
Implicit Types w : agent_world E.

(** ** Running the service alone *)

Lemma run_port_prog {A} (p : prog E A) w :
  run (port_prog p) w = (AgentWorld (aw_repo w) (run p (aw_env w)).1, (run p (aw_env w)).2).
Proof.
  revert w. induction p as [a | X f k IH]; intros [r e]; simpl; [done |].
  destruct (f e) as [e' x]. by rewrite IH.
Qed.
Lemma run_port_call {A} (p : prog E (result (option ErrorKind) A)) w :
  run (port_call p) w = (AgentWorld (aw_repo w) (run p (aw_env w)).1, from_port (run p (aw_env w)).2).
Proof. unfold port_call, mbind, prog_bind. by rewrite run_pbind, run_port_prog. Qed.

Lemma run_try {A B} (p : prog (agent_world E) (result agent_error A)) k w :
  run (try (B := B) p k) w = let '(w', r) := run p w in match r with Ok a => run (k a) w' | Err e => (w', Err e) end.
Proof.
  unfold try, mbind, prog_bind. rewrite run_pbind. by destruct (run p w) as [w' [a | e]].
Qed.

Lemma run_read {A B} (f : AgentRepository → A) (k : A → prog (agent_world E) B) w :
  run (pbind (agents_read f) k) w = run (k (f (aw_repo w))) w.
Proof. done. Qed.

(** The ports answer without changing their world. *)
Section steady.
Variable resolved : list PermissionSetID → result (option ErrorKind) (list PermissionSet).
Variable validated : list ServiceRequirement → result (option ErrorKind) unit.
Hypothesis resolver_steady : ∀ ids e, run (resolver_GetByIDs ids) e = (e, resolved ids).
Hypothesis provider_steady : ∀ reqs e, run (provider_ValidateServiceRequirements reqs) e = (e, validated reqs).

Definition coverage (reqs : list ServiceRequirement) (entries : list AgentPermissionSetEntry) : result agent_error unit :=
  if decide (reqs = []) then Ok ()
  else if negb (has_permissionSets cfg) then Err (AStorage KValidation)
  else match from_port (resolved (aps_PermissionSetID <$> entries)) with
  | Err e => Err e
  | Ok sets => if forallb (λ sr, bool_decide (sr_ServiceID sr ∈ covered_services sets)) reqs then Ok ()
               else Err (AStorage KValidation)
  end.

Definition definition_ok (agent : Agent) (exclude : option AgentID) (r : AgentRepository) : result agent_error unit :=
  match coverage (ag_ServiceRequirements agent) (ag_PermissionSets agent) with
  | Err e => Err e
  | Ok _ =>
      match from_port (validated (ag_ServiceRequirements agent)) with
      | Err e => Err e
      | Ok _ =>
          match ag_ClientID agent with
          | Some c => if multiAgentEnabled cfg then Ok ()
                      else if agent_ExistsOtherWithClientID c exclude r then Err (AStorage KConflict) else Ok ()
          | None => Ok ()
          end
      end
  end.

Lemma agent_world_eta w : AgentWorld (aw_repo w) (aw_env w) = w.
Proof. by destruct w. Qed.

Lemma run_check agent exclude w :
  run (check_definition cfg agent exclude) w = (w, definition_ok agent exclude (aw_repo w)).
Proof.
  unfold check_definition, definition_ok, validateServiceRequirementsCoverage, coverage. rewrite !run_try.
  case_decide as Hd; [cbn [run] | destruct (negb (has_permissionSets cfg)); [done |]; rewrite run_try, run_port_call,
    resolver_steady, agent_world_eta; cbn [fst snd]; destruct (from_port (resolved _)) as [sets | e]; [| done];
    destruct (forallb _ _); [cbn [run] | done]].
  all: rewrite run_try, run_port_call, provider_steady, agent_world_eta; cbn [fst snd]; destruct (from_port (validated _)); [| done].
  all: destruct (ag_ClientID agent); [destruct (multiAgentEnabled cfg); done | done].
Qed.

(** *** One reconciliation *)

Variables (selector : ExternalID) (desired : Agent) (input : ReconcileInput).

Definition candidate_of (existing : Agent) : Agent :=
  update_candidate_of existing (set_ExternalID selector desired)
    {| ClearClientID := false; ui_CanonicalIDPresent := ri_CanonicalIDPresent input |}.

Lemma run_reconcileExisting now existing w :
  run (reconcileExisting cfg now existing desired selector input) w =
  let c := candidate_of existing in
  if negb (Agent_Validate c) then (w, Err (AStorage KValidation))
  else match definition_ok c (Some (ag_ID existing)) (aw_repo w) with
  | Err e => (w, Err e)
  | Ok _ =>
      if sameDefinition existing c then (w, Ok (existing, ReconcileUnchanged))
      else
        let c := set_ag_times (ag_CreatedAt c) now c in
        let '(r, x) := agent_Update c (aw_repo w) in
        (AgentWorld r (aw_env w),
         match x with
         | Err KNotFound => Err AErrAgentRemoved
         | Err k => Err (AStorage k)
         | Ok _ => Ok (c, ReconcileUpdated)
         end)
  end.
Proof.
  unfold reconcileExisting. rewrite run_try. unfold updateCandidate. fold (candidate_of existing).
  destruct (negb _); [done |]. rewrite run_try, run_check. destruct (definition_ok _ _ _) as [[] | e]; [| done].
  cbn [run]. destruct (sameDefinition _ _); [done |].
  unfold mbind, prog_bind. rewrite run_pbind. unfold persistUpdate, mbind, prog_bind, agents_act. rewrite run_act.
  destruct (agent_Update _ (aw_repo w)) as [r [[] | k]]; [done |]. by destruct k.
Qed.

(** What makes a second reconciliation find nothing to do. *)
Record settled (a : Agent) w : Prop := {
  se_found : agent_GetByExternalID selector (aw_repo w) = Ok (Some a);
  se_valid : Agent_Validate (candidate_of a) = true;
  se_checks : definition_ok (candidate_of a) (Some (ag_ID a)) (aw_repo w) = Ok ();
  se_same : sameDefinition a (candidate_of a) = true;
}.

Definition accepted : Prop :=
  ValidateExternalID selector = true ∧ ri_ExternalIDNull input = false ∧
  (ri_ExternalIDPresent input = true → ag_ExternalID desired = Some selector).

Lemma settled_run a w env :
  accepted → settled a w →
  run (ReconcileByExternalID cfg env selector desired input) w = (w, Ok (a, ReconcileUnchanged)).
Proof.
  intros (A1 & A2 & A3) [F V C S]. unfold ReconcileByExternalID, validateExternalID. rewrite A1, A2.
  destruct (ri_ExternalIDPresent input && _) eqn:Hp.
  { breflect. by destruct (A3 ltac:(done)). }
  unfold mbind, prog_bind. rewrite run_read, F, run_pbind, run_reconcileExisting. cbv zeta.
  by rewrite V, C, S.
Qed.

Lemma sameDefinition_refl a b :
  ag_CanonicalID a = ag_CanonicalID b → ag_ClientID a = ag_ClientID b → ag_ExternalID a = ag_ExternalID b →
  ag_DisplayName a = ag_DisplayName b → ag_Description a = ag_Description b → ag_GovernanceURL a = ag_GovernanceURL b →
  ag_UserDocumentationURL a = ag_UserDocumentationURL b → ag_AgentInterfaceURL a = ag_AgentInterfaceURL b →
  ag_PermissionSets a = ag_PermissionSets b → ag_RedirectURIs a = ag_RedirectURIs b →
  ag_AllowedScopes a = ag_AllowedScopes b → ag_ServiceRequirements a = ag_ServiceRequirements b →
  ag_ClientURIs a = ag_ClientURIs b → sameDefinition a b = true.
Proof.
  intros. unfold sameDefinition.
  repeat (apply andb_true_iff; split); apply bool_decide_eq_true_2; congruence.
Qed.

(** Reconciling towards [desired] twice aims at the same definition. *)
Lemma candidate_idemp existing now :
  let c := candidate_of existing in
  candidate_of (set_ag_times (ag_CreatedAt c) now c) = c.
Proof.
  simpl. unfold candidate_of, update_candidate_of, set_ag_times, set_ag_ID, with_identity. simpl.
  f_equal; [destruct (ag_CanonicalID desired), (ri_CanonicalIDPresent input); done | by destruct (ag_ClientID desired)].
Qed.

(** An update leaves the client ids of the other agents alone. *)
Lemma exists_other_update c c' i r r' :
  agents_wf r → agents_wf r' → ar_agents r' = <[i := c']> (ar_agents r) →
  agent_ExistsOtherWithClientID c (Some i) r' = agent_ExistsOtherWithClientID c (Some i) r.
Proof.
  intros Hw Hw' Em. apply eq_true_iff_eq. rewrite !exists_other_refines by done. rewrite Em. split.
  - intros (j & b & [[-> _] | [_ Hj]]%lookup_insert_Some & Hb & Hne); [done | eauto].
  - intros (j & b & Hj & Hb & Hne). exists j, b. rewrite lookup_insert_ne by congruence. done.
Qed.

Lemma definition_ok_update a c' i r r' :
  agents_wf r → agents_wf r' → ar_agents r' = <[i := c']> (ar_agents r) →
  definition_ok a (Some i) r' = definition_ok a (Some i) r.
Proof.
  intros Hw Hw' Em. unfold definition_ok. destruct (coverage _ _); [| done]. destruct (from_port (validated _)); [| done].
  destruct (ag_ClientID a) as [c |]; [| done]. destruct (multiAgentEnabled cfg); [done |].
  by rewrite (exists_other_update c c' i r r').
Qed.

(** The agent that has the external id is the one the index finds. *)
Lemma found_of_stored r i a x :
  agents_wf r → ar_agents r !! i = Some a → ag_ExternalID a = Some x → agent_GetByExternalID x r = Ok (Some a).
Proof.
  intros Hw Hi Hx. unfold agent_GetByExternalID.
  assert (byExternalID r !! x = Some i) as ->.
  { apply (aw_ext r Hw). exists a. split; [done |]. by apply elem_of_option_list. }
  by rewrite Hi.
Qed.

Lemma stored_of_found r a x :
  agents_wf r → agent_GetByExternalID x r = Ok (Some a) → ar_agents r !! ag_ID a = Some a ∧ ag_ExternalID a = Some x.
Proof.
  intros Hw. unfold agent_GetByExternalID. destruct (byExternalID r !! x) as [i |] eqn:Hi; [| done].
  intros [= Ha]. destruct (proj1 (aw_ext r Hw x i) Hi) as (b & Hb & Hk%elem_of_option_list). simplify_eq.
  by rewrite (aw_id r Hw i a Ha).
Qed.

Lemma agent_Update_Ok a r :
  agents_wf r → (agent_Update a r).2 = Ok () →
  agents_wf (agent_Update a r).1 ∧ ar_agents (agent_Update a r).1 = <[ag_ID a := a]> (ar_agents r).
Proof.
  intros Hw Hok. destruct (agent_Update_refines a r Hw) as [Hw' Hs]. split; [done |]. rewrite Hok in Hs.
  unfold spec_update in Hs. repeat case_match; congruence.
Qed.

Lemma existing_settles now existing w w' a o :
  agents_wf (aw_repo w) → agent_GetByExternalID selector (aw_repo w) = Ok (Some existing) →
  run (reconcileExisting cfg now existing desired selector input) w = (w', Ok (a, o)) → settled a w'.
Proof.
  intros Hw Hf. rewrite run_reconcileExisting. cbv zeta.
  destruct (negb (Agent_Validate _)) eqn:Hv; [done |]. breflect.
  destruct (definition_ok _ _ _) as [[] | e] eqn:Hc; [| done].
  destruct (sameDefinition _ _) eqn:Hs; [by intros [= <- <- <-] |].
  set (c := set_ag_times _ now _). pose proof (agent_Update_Ok c (aw_repo w) Hw) as Hu.
  destruct (agent_Update c (aw_repo w)) as [r [[] | k]]; [| by destruct k]. intros [= <- <- <-]. simpl in Hu.
  destruct Hu as [Hw' Em]; [done |]. pose proof (candidate_idemp existing now) as Hid. cbv zeta in Hid. fold c in Hid.
  split; simpl.
  - apply (found_of_stored r (ag_ID c)); [done | by rewrite Em, lookup_insert_eq | done].
  - by rewrite Hid.
  - rewrite Hid. erewrite definition_ok_update; [exact Hc | done | done | exact Em].
  - rewrite Hid. by apply sameDefinition_refl.
Qed.

Lemma definition_ok_error a exclude r : definition_ok a exclude r ≠ Err AErrAgentRemoved.
Proof.
  assert (∀ A (x : result (option ErrorKind) A), from_port x ≠ Err AErrAgentRemoved) as Hp by (by intros ? [| []]).
  intros Hd. unfold definition_ok, coverage in Hd. pose proof (Hp _ (resolved (aps_PermissionSetID <$> ag_PermissionSets a))).
  pose proof (Hp _ (validated (ag_ServiceRequirements a))). repeat case_match; simplify_eq; done.
Qed.

Lemma existing_not_removed now existing w w' :
  agents_wf (aw_repo w) → agent_GetByExternalID selector (aw_repo w) = Ok (Some existing) →
  run (reconcileExisting cfg now existing desired selector input) w ≠ (w', Err AErrAgentRemoved).
Proof.
  intros Hw Hf. rewrite run_reconcileExisting. cbv zeta. destruct (negb _); [done |].
  destruct (definition_ok _ _ _) as [[] | e'] eqn:Hc; [| intros [= _ ->]; by apply definition_ok_error in Hc].
  destruct (sameDefinition _ _); [done |]. set (c := set_ag_times _ now _).
  destruct (stored_of_found _ _ _ Hw Hf) as [Hst _].
  destruct (agent_Update_refines c (aw_repo w) Hw) as [_ Hs]. destruct (agent_Update c (aw_repo w)) as [r x].
  assert (ag_ID c = ag_ID existing) as Hid by done. unfold spec_update in Hs. rewrite Hid, Hst in Hs. simpl in Hs.
  destruct x as [[] | k]; [done |]. destruct k; try done. repeat case_match; congruence.
Qed.

Definition new_candidate (env : reconcile_env) : Agent :=
  set_ag_ID (re_newID env) (set_ag_times (re_created env) (re_created env) (set_ExternalID selector desired)).

Lemma agent_Create_Ok newID a r b :
  agents_wf r → nonzero_id (ag_ID a) = true → (agent_Create newID a r).2 = Ok b →
  agents_wf (agent_Create newID a r).1 ∧ b = a ∧ ar_agents r !! ag_ID a = None ∧
  ar_agents (agent_Create newID a r).1 = <[ag_ID a := a]> (ar_agents r).
Proof.
  intros Hw Hnz Hok. destruct (agent_Create_refines newID a r Hw) as [Hw' Hs]. split; [done |]. rewrite Hok in Hs.
  unfold spec_create in Hs. rewrite Hnz in Hs. case_decide as Hi; [done |]. apply eq_None_not_Some in Hi.
  destruct (negb _); [done |]. destruct (_ || _); [done |]. by injection Hs as -> ->.
Qed.

Lemma agent_Create_error newID a r k :
  agents_wf r → (agent_Create newID a r).2 = Err k → ar_agents (agent_Create newID a r).1 = ar_agents r.
Proof.
  intros Hw Hk. destruct (agent_Create_refines newID a r Hw) as [_ Hs]. rewrite Hk in Hs.
  unfold spec_create in Hs. repeat case_match; simplify_eq/=; congruence.
Qed.

Lemma lookup_external_agents r r' x :
  agents_wf r → agents_wf r' → ar_agents r' = ar_agents r → agent_GetByExternalID x r' = agent_GetByExternalID x r.
Proof.
  intros Hw Hw' Em. unfold agent_GetByExternalID. rewrite Em.
  assert (byExternalID r' !! x = byExternalID r !! x) as ->; [| done].
  apply option_eq. intros i. rewrite (aw_ext r' Hw' x i), (aw_ext r Hw x i), Em. done.
Qed.

Lemma run_Create newID a w :
  nonzero_id (ag_ID a) = true →
  run (agents_Create cfg newID a) w =
  if negb (validateFields a) then (w, Err (AStorage KValidation))
  else match definition_ok a None (aw_repo w) with
  | Err e => (w, Err e)
  | Ok _ => let '(r, x) := agent_Create newID a (aw_repo w) in (AgentWorld r (aw_env w), storage_err x)
  end.
Proof.
  intros Hnz. unfold agents_Create, Agent_ValidateForCreate. rewrite Hnz. destruct (negb _); [done |].
  rewrite run_try, run_check. destruct (definition_ok _ _ _) as [[] | e]; [| done].
  unfold mbind, prog_bind, agents_act. rewrite run_act. by destruct (agent_Create newID a (aw_repo w)).
Qed.

(** The definition of a new agent is what a reconciliation of it aims at. *)
Lemma candidate_of_new env :
  candidate_of (new_candidate env) = set_ag_times (re_created env) (ag_UpdatedAt desired) (new_candidate env).
Proof.
  unfold candidate_of, update_candidate_of, new_candidate, set_ag_times, set_ExternalID, set_ag_ID, with_identity. simpl.
  f_equal; [destruct (ag_CanonicalID desired), (ri_CanonicalIDPresent input); done | by destruct (ag_ClientID desired)].
Qed.

Lemma definition_ok_created a b newID r r' :
  agents_wf r → agents_wf r' → ar_agents r' = <[ag_ID a := a]> (ar_agents r) → ag_ID a = newID →
  ag_ServiceRequirements b = ag_ServiceRequirements a → ag_PermissionSets b = ag_PermissionSets a →
  ag_ClientID b = ag_ClientID a →
  definition_ok a None r = Ok () → definition_ok b (Some newID) r' = Ok ().
Proof.
  intros Hw Hw' Em <- E1 E2 E3. unfold definition_ok. rewrite E1, E2, E3.
  destruct (coverage _ _); [| done]. destruct (from_port _); [| done]. destruct (ag_ClientID a) as [c |]; [| done].
  destruct (multiAgentEnabled cfg); [done |].
  destruct (agent_ExistsOtherWithClientID c None r) eqn:Hx; [done |]. intros _.
  rewrite (exists_other_update c a (ag_ID a) r r' Hw Hw' Em).
  destruct (agent_ExistsOtherWithClientID c (Some (ag_ID a)) r) eqn:Hy; [| done].
  apply exists_other_refines in Hy as (i & b' & Hi & Hb & _); [| done].
  apply not_true_iff_false in Hx. destruct Hx. apply exists_other_refines; [done |]. eauto.
Qed.

Lemma new_settles env w w' a o :
  agents_wf (aw_repo w) → nonzero_id (re_newID env) = true →
  agent_GetByExternalID selector (aw_repo w) = Err KNotFound →
  run (reconcileNew cfg env desired selector input) w = (w', Ok (a, o)) → settled a w'.
Proof.
  intros Hw Hnz Hnone. unfold reconcileNew. fold (new_candidate env). unfold mbind, prog_bind.
  rewrite run_pbind, run_Create by done.
  destruct (negb _) eqn:Hv; [done |]. breflect. destruct (definition_ok _ _ _) as [[] | e] eqn:Hd.
  2:{ destruct e as [[] | | | | |]; try done. rewrite run_read, Hnone. done. }
  pose proof (agent_Create_Ok (re_newID env) (new_candidate env) (aw_repo w)) as Hok.
  pose proof (agent_Create_error (re_newID env) (new_candidate env) (aw_repo w)) as Herr.
  destruct (agent_Create_refines (re_newID env) (new_candidate env) (aw_repo w) Hw) as [Hwf' _].
  destruct (agent_Create _ _ _) as [r [b | k]]; cbn [fst snd storage_err run] in *.
  - intros [= <- <- <-]. destruct (Hok b) as (Hw' & -> & Hfresh & Em); [done.. |]. split; simpl.
    + apply (found_of_stored r (re_newID env)); [done | by rewrite Em, lookup_insert_eq | done].
    + rewrite candidate_of_new. unfold Agent_Validate. simpl. by rewrite Hnz.
    + rewrite candidate_of_new. by apply (definition_ok_created (new_candidate env) _ _ (aw_repo w) r).
    + rewrite candidate_of_new. by apply sameDefinition_refl.
  - destruct k; try done. rewrite run_read. cbn [aw_repo].
    rewrite (lookup_external_agents (aw_repo w) r selector Hw Hwf' (Herr _ Hw eq_refl)), Hnone. done.
Qed.

Lemma reconcile_accepted env w w' a o :
  run (ReconcileByExternalID cfg env selector desired input) w = (w', Ok (a, o)) → accepted.
Proof.
  unfold ReconcileByExternalID, validateExternalID, accepted. destruct (ValidateExternalID selector); [| done].
  destruct (ri_ExternalIDNull input); [done |]. destruct (ri_ExternalIDPresent input); [| done].
  destruct (bool_decide _) eqn:Hb; [| done]. by breflect.
Qed.

Lemma reconcile_settles env w w' a o :
  agents_wf (aw_repo w) → nonzero_id (re_newID env) = true →
  run (ReconcileByExternalID cfg env selector desired input) w = (w', Ok (a, o)) → settled a w'.
Proof.
  intros Hw Hnz Hrun. destruct (reconcile_accepted env w w' a o Hrun) as (A1 & A2 & A3). revert Hrun.
  unfold ReconcileByExternalID, validateExternalID. rewrite A1, A2.
  destruct (ri_ExternalIDPresent input && _) eqn:Hp; [done |]. unfold mbind, prog_bind. rewrite run_read.
  destruct (agent_GetByExternalID selector (aw_repo w)) as [[existing |] | k] eqn:Hf; [| done |].
  - rewrite run_pbind. destruct (run (reconcileExisting _ _ _ _ _ _) w) as [w1 [[b o1] | e]] eqn:Hr.
    + intros [= <- <- <-]. by eapply existing_settles.
    + destruct e; try done. exfalso. by eapply existing_not_removed.
  - destruct k; try done. by eapply new_settles.
Qed.
End steady.

(** Reconciliation is idempotent: when a reconciliation by external id has
    succeeded (whether it created, updated or left the agent), repeating it, with the
    same desired definition and ports that answer as before, reports the same agent as
    unchanged and changes nothing. *)
Theorem reconcile_idempotent resolved validated selector desired input env env' w w' a o :
  (∀ ids e, run (resolver_GetByIDs ids) e = (e, resolved ids)) →
  (∀ reqs e, run (provider_ValidateServiceRequirements reqs) e = (e, validated reqs)) →
  agents_wf (aw_repo w) → nonzero_id (re_newID env) = true →
  run (ReconcileByExternalID cfg env selector desired input) w = (w', Ok (a, o)) →
  run (ReconcileByExternalID cfg env' selector desired input) w' = (w', Ok (a, ReconcileUnchanged)).
Proof.
  intros Hr Hp Hw Hnz Hrun. eapply settled_run; [done | done | by eapply reconcile_accepted |].
  by eapply reconcile_settles.
Qed.
End facts.
