(* ===== verification/AgentConcurrency.v ===== *)
(** * Concurrent reconciliation

    Any interleaving of reconciliations keeps the repository consistent; those that
    succeed for one external id return one and the same agent, and at most one of them
    created it.  Proved by rely-guarantee: an agent, once stored, stays and keeps its
    external id. *)

From S2P Require Import Prelude ToolApproval ApprovalStore ApprovalHandlers OAuthSessions UserGrants Consent UriValidation UniqueIndex Agents AgentsFacts AgentService AgentServiceFacts.

Section concurrency.
Context {E : Type} `{AgentPorts E} `{GoURL} `{UUID}.
Variable cfg : agent_config.
Implicit Types w : agent_world E.

(** Agent [i] has external id [x]. *)
Definition holds (x : ExternalID) (i : AgentID) w : Prop :=
  ∃ a, ar_agents (aw_repo w) !! i = Some a ∧ ag_ExternalID a = Some x.

(** What every step of a reconciliation guarantees. *)
Definition grows w w' : Prop :=
  agents_wf (aw_repo w) → agents_wf (aw_repo w') ∧ ∀ x i, holds x i w → holds x i w'.

#[local] Instance grows_preorder : PreOrder grows.
Proof.
  split; [done |]. intros w1 w2 w3 H12 H23 Hw. destruct (H12 Hw) as [Hw2 Hh2]. destruct (H23 Hw2) as [Hw3 Hh3].
  split; [done |]. eauto.
Qed.

Lemma rtc_grows w w' : rtc grows w w' → grows w w'.
Proof. induction 1; [done |]. by etrans. Qed.

Abbreviation safe Q p w := (rg grows grows Q p w).

(** ** Rules for the building blocks *)

(** A value read off the repository. *)
Lemma safe_read {A B} (f : AgentRepository → A) (k : A → prog (agent_world E) B) Q w :
  (∀ w1, grows w w1 → safe Q (k (f (aw_repo w1))) w1) → safe Q (pbind (agents_read f) k) w.
Proof. intros Hk w1 Hw1%rtc_grows. split; [done |]. by apply Hk. Qed.

(** A write that grows the repository. *)
Lemma safe_act {A B} (f : AgentRepository → AgentRepository * A) (k : A → prog (agent_world E) B) Q w :
  (∀ w1, grows w w1 → grows w1 (AgentWorld (f (aw_repo w1)).1 (aw_env w1)) ∧
     safe Q (k (f (aw_repo w1)).2) (AgentWorld (f (aw_repo w1)).1 (aw_env w1))) →
  safe Q (pbind (agents_act f) k) w.
Proof.
  intros Hk w1 Hw1%rtc_grows. destruct (Hk w1 Hw1) as [HG HS]. simpl. by destruct (f (aw_repo w1)).
Qed.

Lemma safe_port_prog {A} (p : prog E A) w : safe (λ _ w', grows w w') (port_prog p) w.
Proof.
  enough (∀ w0, grows w w0 → safe (λ _ w', grows w w') (port_prog p) w0) as Hp by by apply Hp.
  induction p as [a | X f k IH]; intros w0 Hw0; cbn [port_prog rg].
  - intros w1 Hw1%rtc_grows. etrans; [exact Hw0 | exact Hw1].
  - intros w1 Hw1%rtc_grows. destruct (f (aw_env w1)) as [e x]. simpl.
    assert (grows w1 (AgentWorld (aw_repo w1) e)) as HG by done. split; [done |]. apply IH. etrans; [exact Hw0 |]. etrans; [exact Hw1 | exact HG].
Qed.

Lemma safe_try {A B} (p : prog (agent_world E) (result agent_error A)) (k : A → prog (agent_world E) (result agent_error B))
    P (Q : result agent_error B → agent_world E → Prop) w :
  safe P p w → (∀ a w1, P (Ok a) w1 → safe Q (k a) w1) → (∀ e w1 w2, P (Err e) w1 → rtc grows w1 w2 → Q (Err e) w2) →
  safe Q (try p k) w.
Proof.
  intros Hp Hk He. unfold try, mbind, prog_bind. eapply rg_pbind; [exact Hp |]. intros [a | e] w1 HP; [by apply Hk |].
  intros w2 Hw2. by eapply He.
Qed.

Lemma safe_ret {A} (Q : A → agent_world E → Prop) a w : (∀ w1, grows w w1 → Q a w1) → safe Q (Ret a) w.
Proof. intros HQ w1 Hw1%rtc_grows. by apply HQ. Qed.

Lemma safe_check a exclude w : safe (λ _ w', grows w w') (check_definition cfg a exclude) w.
Proof.
  assert (∀ A (p : prog E (result (option ErrorKind) A)) w0, grows w w0 → safe (λ _ w', grows w w') (port_call p) w0) as Hport.
  { intros A p w0 Hw0. eapply rg_pbind; [apply safe_port_prog |]. intros r w1 Hw1. apply safe_ret.
    intros w2 Hw2. etrans; [exact Hw0 |]. etrans; [exact Hw1 | exact Hw2]. }
  assert (∀ (r : result agent_error unit) w0, grows w w0 → safe (λ _ w', grows w w') (Ret r) w0) as Hret.
  { intros r w0 Hw0. apply safe_ret. intros w1 Hw1. etrans; [exact Hw0 | exact Hw1]. }
  assert (∀ (e : agent_error) w1 w2, grows w w1 → rtc grows w1 w2 → grows w w2) as Herr.
  { intros e w1 w2 Hw1 Hw2%rtc_grows. etrans; [exact Hw1 | exact Hw2]. }
  unfold check_definition. apply (safe_try _ _ (λ _ w', grows w w')); [| | by eauto].
  - unfold validateServiceRequirementsCoverage. case_decide; [by apply Hret |]. destruct (negb _); [by apply Hret |].
    apply (safe_try _ _ (λ _ w', grows w w')); [by apply Hport | | by eauto]. intros sets w1 Hw1. destruct (forallb _ _); by apply Hret.
  - intros _ w1 Hw1. apply (safe_try _ _ (λ _ w', grows w w')); [by apply Hport | | by eauto]. intros _ w2 Hw2.
    destruct (ag_ClientID a) as [c |]; [| by apply Hret]. destruct (multiAgentEnabled cfg); [by apply Hret |].
    unfold checkClientIDUniqueness. apply safe_read. intros w3 Hw3. apply Hret. etrans; [exact Hw2 | exact Hw3].
Qed.

(** ** The two writes *)

(** Storing an agent under its id, which is new or keeps its external id. *)
Lemma grows_store w r a e :
  (agents_wf (aw_repo w) → agents_wf r) →
  (agents_wf (aw_repo w) → ar_agents r = ar_agents (aw_repo w) ∨
    ar_agents r = <[ag_ID a := a]> (ar_agents (aw_repo w)) ∧
    ∀ x, holds x (ag_ID a) w → ag_ExternalID a = Some x) →
  grows w (AgentWorld r e).
Proof.
  intros Hwf Hst Hw. split; [by apply Hwf |]. intros x i (b & Hb & Hx). unfold holds. simpl.
  destruct (Hst Hw) as [-> | [-> Hkeep]]; [eauto |]. destruct (decide (ag_ID a = i)) as [<- | Hne].
  - exists a. rewrite lookup_insert_eq. split; [done |]. apply Hkeep. by exists b.
  - exists b. by rewrite lookup_insert_ne.
Qed.

Lemma Update_cases a r :
  agents_wf r →
  ((agent_Update a r).2 = Ok () ∧ ar_agents (agent_Update a r).1 = <[ag_ID a := a]> (ar_agents r)) ∨
  ar_agents (agent_Update a r).1 = ar_agents r.
Proof.
  intros Hw. destruct (agent_Update_refines a r Hw) as [_ Hs]. unfold spec_update in Hs.
  repeat case_match; simplify_eq/=; auto.
Qed.

Lemma Create_cases newID a r :
  agents_wf r → nonzero_id (ag_ID a) = true →
  ((agent_Create newID a r).2 = Ok a ∧ ar_agents r !! ag_ID a = None ∧
     ar_agents (agent_Create newID a r).1 = <[ag_ID a := a]> (ar_agents r)) ∨
  ((∃ k, (agent_Create newID a r).2 = Err k) ∧ ar_agents (agent_Create newID a r).1 = ar_agents r).
Proof.
  intros Hw Hnz. destruct ((agent_Create newID a r).2) as [b | k] eqn:Hok.
  - left. destruct (agent_Create_Ok newID a r b Hw Hnz Hok) as (_ & -> & ? & ?). done.
  - right. split; [eauto |]. by eapply agent_Create_error.
Qed.

Lemma grows_Update w a :
  (agents_wf (aw_repo w) → ∀ x, holds x (ag_ID a) w → ag_ExternalID a = Some x) →
  grows w (AgentWorld (agent_Update a (aw_repo w)).1 (aw_env w)).
Proof.
  intros Hkeep. apply (grows_store w _ a).
  - intros Hw. by apply agent_Update_refines.
  - intros Hw. destruct (Update_cases a (aw_repo w) Hw) as [[_ ?] | ?]; [right; eauto | by left].
Qed.

Lemma grows_Create w newID a :
  nonzero_id (ag_ID a) = true → grows w (AgentWorld (agent_Create newID a (aw_repo w)).1 (aw_env w)).
Proof.
  intros Hnz. apply (grows_store w _ a).
  - intros Hw. by apply agent_Create_refines.
  - intros Hw. destruct (Create_cases newID a (aw_repo w) Hw Hnz) as [(_ & Hn & ?) | [_ ?]]; [right | by left].
    split; [done |]. intros x (b & Hb & _). congruence.
Qed.

Lemma holds_inj x y i w : holds x i w → holds y i w → x = y.
Proof. intros (a & Ha & Hx) (b & Hb & Hy). congruence. Qed.

(** ** Reconciliation *)

(** The agent returned holds the external id; a created one has the id drawn. *)
Definition reconciled (newID : AgentID) (selector : ExternalID) (r : result agent_error (Agent * ReconcileOutcome)) w : Prop :=
  match r with
  | Ok (a, o) => holds selector (ag_ID a) w ∧ (o = ReconcileCreated → ag_ID a = newID)
  | Err _ => True
  end.

(** Writing a definition of the agent that holds the external id. *)
Lemma safe_persist i c selector w :
  agents_wf (aw_repo w) → holds selector i w → ag_ID c = i → ag_ExternalID c = Some selector →
  safe (λ _ w', agents_wf (aw_repo w') ∧ holds selector i w') (persistUpdate c) w.
Proof.
  intros Hw Hh <- Hx. unfold persistUpdate, mbind, prog_bind. apply safe_act. intros w1 Hw1.
  destruct (Hw1 Hw) as [Hwf1 Hh1]. apply Hh1 in Hh.
  assert (grows w1 (AgentWorld (agent_Update c (aw_repo w1)).1 (aw_env w1))) as HG.
  { apply grows_Update. intros _ x Hxh. rewrite Hx. f_equal. by eapply holds_inj. }
  split; [done |]. apply safe_ret. intros w2 Hw2. destruct (HG Hwf1) as [Hwf2 Hh2]. destruct (Hw2 Hwf2) as [Hwf3 Hh3].
  split; [done |]. by apply Hh3, Hh2.
Qed.

Lemma safe_updateCandidate existing desired u w :
  safe (λ r w', grows w w' ∧ (∀ a, r = Ok a → a = update_candidate_of existing desired u))
    (updateCandidate cfg existing desired u) w.
Proof.
  unfold updateCandidate. destruct (negb _); [apply safe_ret; by intros |].
  apply (safe_try _ _ (λ _ w', grows w w')); [apply safe_check | |].
  - intros _ w1 Hw1. apply safe_ret. intros w2 Hw2. split; [etrans; [exact Hw1 | exact Hw2] | by intros ? [= <-]].
  - intros e w1 w2 Hw1 Hw2%rtc_grows. split; [etrans; [exact Hw1 | exact Hw2] | done].
Qed.

Lemma reconciled_ret newID selector r w :
  agents_wf (aw_repo w) → reconciled newID selector r w →
  safe (λ r w', agents_wf (aw_repo w') ∧ reconciled newID selector r w') (Ret r) w.
Proof.
  intros Hw Hr. apply safe_ret. intros w1 Hw1. destruct (Hw1 Hw) as [Hwf1 Hh1]. split; [done |].
  destruct r as [[a o] | e]; [| done]. destruct Hr as [Ha Ho]. split; [by apply Hh1 | done].
Qed.

Lemma safe_existing newID now existing desired selector input w :
  agents_wf (aw_repo w) → holds selector (ag_ID existing) w →
  safe (λ r w', agents_wf (aw_repo w') ∧ reconciled newID selector r w')
    (reconcileExisting cfg now existing desired selector input) w.
Proof.
  intros Hw Hh. unfold reconcileExisting. eapply safe_try; [apply safe_updateCandidate | |]; cbv beta.
  2:{ intros e w1 w2 [Hw1 _] Hw2%rtc_grows. split; [| done]. by apply Hw2, Hw1. }
  intros c w1 [Hw1 Hc]. specialize (Hc c eq_refl). destruct (Hw1 Hw) as [Hwf1 Hh1]. apply Hh1 in Hh.
  destruct (sameDefinition existing c); [by apply reconciled_ret |].
  unfold mbind, prog_bind. eapply rg_pbind.
  { eapply (safe_persist (ag_ID existing)); [exact Hwf1 | exact Hh | by subst c | by subst c]. }
  cbv beta. intros r w2 [Hwf2 Hh2].
  destruct r as [[] | e]; [| destruct e as [[] | | | | |]; by apply reconciled_ret].
  apply reconciled_ret; [done |]. split; [| done]. by subst c.
Qed.

Lemma safe_Create newID a selector w :
  agents_wf (aw_repo w) → nonzero_id (ag_ID a) = true → ag_ExternalID a = Some selector →
  safe (λ r w', agents_wf (aw_repo w') ∧ (∀ b, r = Ok b → b = a ∧ holds selector (ag_ID a) w'))
    (agents_Create cfg newID a) w.
Proof.
  intros Hw Hnz Hx. unfold agents_Create. rewrite Hnz.
  destruct (negb _); [apply safe_ret; intros w1 Hw1; split; [by apply Hw1 | done] |].
  eapply safe_try; [apply safe_check | |]; cbv beta.
  2:{ intros e w1 w2 Hw1 Hw2%rtc_grows. split; [| done]. by apply Hw2, Hw1. }
  intros _ w1 Hw1. destruct (Hw1 Hw) as [Hwf1 _]. unfold mbind, prog_bind. apply safe_act. intros w2 Hw2.
  destruct (Hw2 Hwf1) as [Hwf2 _]. assert (grows w2 (AgentWorld (agent_Create newID a (aw_repo w2)).1 (aw_env w2))) as HG
    by (by apply grows_Create).
  split; [done |]. apply safe_ret. intros w3 Hw3. destruct (HG Hwf2) as [Hwf3 _]. destruct (Hw3 Hwf3) as [Hwf4 Hh4].
  split; [done |]. intros b Hb. destruct (Create_cases newID a (aw_repo w2) Hwf2 Hnz) as [(E1 & _ & Em) | [[k Ek] _]].
  - rewrite E1 in Hb. injection Hb as <-. split; [done |]. apply Hh4. exists a. simpl. by rewrite Em, lookup_insert_eq.
  - by rewrite Ek in Hb.
Qed.

Lemma holds_found selector a w :
  agents_wf (aw_repo w) → agent_GetByExternalID selector (aw_repo w) = Ok (Some a) → holds selector (ag_ID a) w.
Proof. intros Hw Hf. destruct (stored_of_found _ _ _ Hw Hf). by exists a. Qed.

Lemma safe_new env desired selector input w :
  agents_wf (aw_repo w) → nonzero_id (re_newID env) = true →
  safe (λ r w', agents_wf (aw_repo w') ∧ reconciled (re_newID env) selector r w')
    (reconcileNew cfg env desired selector input) w.
Proof.
  intros Hw Hnz. unfold reconcileNew, mbind, prog_bind. eapply rg_pbind; [by apply safe_Create |]; cbv beta.
  intros r w1 [Hwf1 Hr]. destruct r as [b | e].
  { destruct (Hr b eq_refl) as [-> Hh]. by apply reconciled_ret. }
  destruct e as [[] | | | | |]; try by apply reconciled_ret.
  apply safe_read. intros w2 Hw2. destruct (Hw2 Hwf1) as [Hwf2 _].
  destruct (agent_GetByExternalID selector (aw_repo w2)) as [[holder |] | k] eqn:Hf.
  - eapply rg_pbind; [apply (safe_existing (re_newID env)); [done | by apply holds_found] |]; cbv beta.
    intros r w3 [Hwf3 Hr3]. destruct r as [[ag o] | er]; [| destruct er]; by apply reconciled_ret.
  - by apply reconciled_ret.
  - destruct k; by apply reconciled_ret.
Qed.

Lemma safe_Reconcile env selector desired input w :
  agents_wf (aw_repo w) → nonzero_id (re_newID env) = true →
  safe (λ r w', agents_wf (aw_repo w') ∧ reconciled (re_newID env) selector r w')
    (ReconcileByExternalID cfg env selector desired input) w.
Proof.
  intros Hw Hnz. unfold ReconcileByExternalID. destruct (validateExternalID selector); [| by apply reconciled_ret].
  destruct (ri_ExternalIDNull input); [by apply reconciled_ret |]. destruct (_ && _); [by apply reconciled_ret |].
  unfold mbind, prog_bind. apply safe_read. intros w1 Hw1. destruct (Hw1 Hw) as [Hwf1 _].
  destruct (agent_GetByExternalID selector (aw_repo w1)) as [[existing |] | k] eqn:Hf.
  - eapply rg_pbind; [apply (safe_existing (re_newID env)); [done | by apply holds_found] |]; cbv beta.
    intros r w2 [Hwf2 Hr2]. destruct r as [[ag o] | er]; [| destruct er]; try by apply reconciled_ret. by apply safe_new.
  - by apply reconciled_ret.
  - destruct k; try by apply reconciled_ret. by apply safe_new.
Qed.

(** ** Any number of reconciliations, in any order *)

Record reconcile_call := ReconcileCall {
  rc_env : reconcile_env;
  rc_selector : ExternalID;
  rc_desired : Agent;
  rc_input : ReconcileInput;
}.

Definition reconcile_prog (c : reconcile_call) : prog (agent_world E) (result agent_error (Agent * ReconcileOutcome)) :=
  ReconcileByExternalID cfg (rc_env c) (rc_selector c) (rc_desired c) (rc_input c).

Lemma reconcile_pool calls w :
  agents_wf (aw_repo w) → Forall (λ c, nonzero_id (re_newID (rc_env c)) = true) calls →
  pool_rg (λ _, grows) (λ i r w', ∀ c, calls !! i = Some c →
    agents_wf (aw_repo w') ∧ reconciled (re_newID (rc_env c)) (rc_selector c) r w') (w, reconcile_prog <$> calls).
Proof.
  intros Hw Hids i p Hp. simpl in *. apply list_lookup_fmap_Some in Hp as (c & -> & Hc).
  eapply (rg_mono grows); [by intros ? ? (_ & _ & ?) | by intros ? ? ? |].
  eapply rg_impl; [| apply safe_Reconcile; [done |]].
  - intros r w' Hr c' Hc'. simplify_eq. exact Hr.
  - rewrite Forall_lookup in Hids. by eapply Hids.
Qed.

(** Claim C12.  Concurrent reconciliations agree: in every interleaving of any number of
    them, on any external ids, the repository stays consistent; two that succeed for the
    same external id return the same agent, which holds it; and at most one of them
    reports having created it (the ids drawn being distinct). *)
Theorem concurrent_reconcile_agrees calls w0 w ps :
  agents_wf (aw_repo w0) → Forall (λ c, nonzero_id (re_newID (rc_env c)) = true) calls →
  NoDup (re_newID ∘ rc_env <$> calls) →
  rtc pool_step (w0, reconcile_prog <$> calls) (w, ps) →
  ∀ i j c d a b o o', calls !! i = Some c → calls !! j = Some d → rc_selector c = rc_selector d →
    ps !! i = Some (Ret (Ok (a, o))) → ps !! j = Some (Ret (Ok (b, o'))) →
    agents_wf (aw_repo w) ∧ byExternalID (aw_repo w) !! rc_selector c = Some (ag_ID a) ∧ ag_ID a = ag_ID b ∧
    (o = ReconcileCreated → o' = ReconcileCreated → i = j).
Proof.
  intros Hw Hids Hnd Hsteps i j c d a b o o' Hc Hd Hsel Hi Hj.
  destruct (pool_rg_steps _ _ _ _ Hsteps (reconcile_pool calls w0 Hw Hids)) as [_ Hpool].
  destruct (Hpool i _ Hi w ltac:(done) c Hc) as [Hwf [Ha Hoa]].
  destruct (Hpool j _ Hj w ltac:(done) d Hd) as [_ [Hb Hob]]. rewrite <-Hsel in Hb.
  assert (∀ k, holds (rc_selector c) k w → byExternalID (aw_repo w) !! rc_selector c = Some k) as Hix.
  { intros k (x & Hk & Hx). apply (aw_ext _ Hwf). exists x. split; [done |]. by apply elem_of_option_list. }
  pose proof (Hix _ Ha) as Ea. pose proof (Hix _ Hb) as Eb. split_and!; [done | done | congruence |].
  intros Ho Ho'. rewrite (Hoa Ho) in Ea. rewrite (Hob Ho') in Eb. rewrite Ea in Eb. injection Eb as Eid.
  eapply NoDup_lookup; [exact Hnd | rewrite list_lookup_fmap, Hc; done | rewrite list_lookup_fmap, Hd; simpl].
  by rewrite Eid.
Qed.

(** ** Resolution by client id *)

(** [ResolveUniqueByClientID] never picks one of several: the agent it
    returns has the client id, and at the moment of the check no other agent has it. *)
Theorem resolve_unique_sound clientID w a :
  agents_wf (aw_repo w) → (run (ResolveUniqueByClientID clientID) w).2 = Ok a →
  ar_agents (aw_repo w) !! ag_ID a = Some a ∧ ag_ClientID a = Some clientID ∧
  ∀ i b, ar_agents (aw_repo w) !! i = Some b → ag_ClientID b = Some clientID → i = ag_ID a.
Proof.
  intros Hw. unfold ResolveUniqueByClientID. rewrite run_try. unfold mbind, prog_bind. rewrite run_read. cbn [run].
  pose proof (client_lookup_refines clientID (aw_repo w) Hw) as [_ Hl].
  destruct Hl as [(i & x & Hi & Hx & E1) | [_ E1]]; injection E1 as ->; cbn [deref]; [| done].
  rewrite run_read. cbn [run snd].
  destruct (agent_ExistsOtherWithClientID clientID (Some (ag_ID x)) (aw_repo w)) eqn:Hex; [done |].
  intros [= <-]. pose proof (aw_id _ Hw i x Hi) as Hid. rewrite Hid in *. split_and!; [done | done |]. intros j y Hj Hy.
  destruct (decide (j = i)) as [| Hne]; [done |]. apply not_true_iff_false in Hex. destruct Hex.
  apply exists_other_refines; [done |]. exists j, y. split_and!; [done | done | congruence].
Qed.
End concurrency.

(** ** Concrete runs *)

Module Demo.

(** Ports that resolve no set and accept every requirement; no text is a URL or a UUID. *)
Instance ports : AgentPorts unit :=
  {| resolver_GetByIDs _ := Ret (Ok []); provider_ValidateServiceRequirements _ := Ret (Ok ()) |}.
Instance urls : GoURL :=
  {| url_Parse _ := None; url_ParseRequestURI _ := None; url_String _ := ""; url_EscapedPath _ := "";
     url_PathUnescape _ := None |}.
Instance uuids : UUID := {| uuid_Parse _ := None; uuid_Nil := zero_uuid |}.

Definition cfg : agent_config := {| multiAgentEnabled := false; has_permissionSets := true |}.

Definition wanted (name : string) : Agent :=
  {| ag_ID := zero_uuid; ag_CanonicalID := Some "c"; ag_ClientID := Some "k"; ag_ExternalID := None;
     ag_DisplayName := name; ag_Description := "d"; ag_GovernanceURL := None; ag_UserDocumentationURL := None;
     ag_AgentInterfaceURL := None; ag_ServiceRequirements := [];
     ag_PermissionSets := [{| aps_PermissionSetID := "p"; aps_RequirementType := Mandatory |}];
     ag_RedirectURIs := []; ag_AllowedScopes := []; ag_ClientURIs := []; ag_CreatedAt := 0; ag_UpdatedAt := 0 |}.

Definition env (i : AgentID) (t : time) : reconcile_env :=
  {| re_newID := i; re_created := t; re_updated1 := (t + 1)%Z; re_updated2 := (t + 2)%Z |}.
Definition plain : ReconcileInput :=
  {| ri_CanonicalIDPresent := false; ri_ExternalIDPresent := false; ri_ExternalIDNull := false |}.

Definition empty_world : agent_world unit := AgentWorld NewAgentRepository ().

(** Both calls find no agent; the second to create hits the conflict and updates the
    agent of the first. *)
Definition calls : list reconcile_call :=
  [ReconcileCall (env "1" 10) "x" (wanted "n") plain; ReconcileCall (env "2" 20) "x" (wanted "m") plain].
Definition order : list nat := [0; 1; 0; 1; 0; 1; 1; 1; 1].

Definition final : agent_world unit * list (prog (agent_world unit) (result agent_error (Agent * ReconcileOutcome))) :=
  schedule order (empty_world, reconcile_prog cfg <$> calls).

Definition result_of (i : nat) : option (AgentID * string * ReconcileOutcome) :=
  match final.2 !! i with Some (Ret (Ok (a, o))) => Some (ag_ID a, ag_DisplayName a, o) | _ => None end.

Example final_results :
  result_of 0 = Some ("1", "n", ReconcileCreated) ∧ result_of 1 = Some ("1", "m", ReconcileUpdated).
Proof. vm_compute. split; reflexivity. Qed.

Definition agent_of (i : nat) : Agent :=
  match final.2 !! i with Some (Ret (Ok (a, _))) => a | _ => wanted "" end.

Lemma concurrent_reconcile_agrees_witness :
  rtc pool_step (empty_world, reconcile_prog cfg <$> calls) (final.1, final.2) ∧
  byExternalID (aw_repo final.1) !! "x" = Some "1" ∧ ag_ID (agent_of 0) = ag_ID (agent_of 1).
Proof.
  assert (rtc pool_step (empty_world, reconcile_prog cfg <$> calls) (final.1, final.2)) as Hsteps.
  { rewrite <-surjective_pairing. apply schedule_steps. }
  destruct (concurrent_reconcile_agrees cfg calls empty_world final.1 final.2) with
    (i := 0) (j := 1) (c := ReconcileCall (env "1" 10) "x" (wanted "n") plain)
    (d := ReconcileCall (env "2" 20) "x" (wanted "m") plain) (a := agent_of 0) (b := agent_of 1)
    (o := ReconcileCreated) (o' := ReconcileUpdated) as (_ & Hx & Hid & _).
  - apply agents_wf_empty.
  - repeat constructor.
  - apply (bool_decide_unpack _). vm_compute. exact I.
  - exact Hsteps.
  - reflexivity.
  - reflexivity.
  - reflexivity.
  - vm_compute. reflexivity.
  - vm_compute. reflexivity.
  - split; [exact Hsteps |]. split; [| exact Hid]. etransitivity; [exact Hx |]. vm_compute. reflexivity.
Defined.

(** The first call alone, and again. *)
Definition first_run := run (ReconcileByExternalID cfg (env "1" 10) "x" (wanted "n") plain) empty_world.
Definition first_agent : Agent := match first_run.2 with Ok (a, _) => a | Err _ => wanted "" end.

Lemma reconcile_idempotent_witness :
  first_run = (first_run.1, Ok (first_agent, ReconcileCreated)) ∧
  run (ReconcileByExternalID cfg (env "2" 20) "x" (wanted "n") plain) first_run.1 =
  (first_run.1, Ok (first_agent, ReconcileUnchanged)).
Proof.
  assert (first_run = (first_run.1, Ok (first_agent, ReconcileCreated))) as H by (vm_compute; reflexivity).
  split; [exact H |].
  apply (reconcile_idempotent cfg (λ _, Ok []) (λ _, Ok ()) "x" (wanted "n") plain (env "1" 10) (env "2" 20)
    empty_world first_run.1 first_agent ReconcileCreated).
  - intros ids e. reflexivity.
  - intros reqs e. reflexivity.
  - apply agents_wf_empty.
  - reflexivity.
  - exact H.
Defined.

Lemma resolve_unique_sound_witness :
  (run (ResolveUniqueByClientID "k") first_run.1).2 = Ok first_agent ∧
  ag_ClientID first_agent = Some "k".
Proof.
  assert ((run (ResolveUniqueByClientID "k") first_run.1).2 = Ok first_agent) as H by (vm_compute; reflexivity).
  split; [exact H |]. apply (resolve_unique_sound "k" first_run.1 first_agent); [| exact H].
  assert (aw_repo first_run.1 = agent_run [OpCreate "1" first_agent]) as -> by (vm_compute; reflexivity).
  apply agents_wf_run.
Defined.
End Demo.
