(* ===== verification/BrokerErrors.v ===== *)
(** * Errors and diagnostics

    The error values that cross component boundaries in a token exchange:
    internal/domain/oauth2session/errors.go (classified session failures),
    internal/domain/tokenexchange/diagnostic.go and errors.go (the diagnostic attached to
    every failed exchange), and the error chains [errors.Is] and [errors.As] walk. *)

From S2P Require Import Prelude ToolApproval ApprovalStore OAuthSessions UserGrants Consent.

(** ** Session failures (oauth2session/errors.go) *)

Module Session.

Inductive Operation :=
  | OperationUnknown | OperationSessionLookup | OperationRefresh | OperationScopeValidation | OperationCodeExchange.
#[global] Instance Operation_eq_dec : EqDecision Operation.
Proof. solve_decision. Defined.

Inductive ErrorDetail :=
  | DetailSessionMissing | DetailAccessTokenExpired | DetailRefreshUnavailable | DetailRefreshRejected
  | DetailProviderClientRejected | DetailProviderRejected | DetailProviderUnavailable | DetailProviderResponseInvalid
  | DetailCredentialSourceUnavailable | DetailRepositoryUnavailable | DetailDecryptionFailed | DetailEncryptionFailed
  | DetailPersistenceFailed | DetailConfiguration | DetailCallerCanceled | DetailInternalUnclassified.
#[global] Instance ErrorDetail_eq_dec : EqDecision ErrorDetail.
Proof. solve_decision. Defined.

Inductive Kind := KindSession | KindProvider | KindInfrastructure | KindConfiguration | KindCanceled | KindInternal.
#[global] Instance Kind_eq_dec : EqDecision Kind.
Proof. solve_decision. Defined.

Inductive Dependency :=
  | DependencyNone | DependencySessionRepository | DependencyProviderRepository | DependencyProvider
  | DependencyEncryption | DependencyCredentialSource | DependencySigning.
#[global] Instance Dependency_eq_dec : EqDecision Dependency.
Proof. solve_decision. Defined.

Record ErrorMetadata := Metadata {
  em_operation : Operation;
  em_detail : ErrorDetail;
  em_kind : Kind;
  em_dependency : Dependency;
  em_statusCode : Z;
  em_oauthCode : string;
}.

Definition NewErrorMetadata (operation : Operation) (detail : ErrorDetail) : ErrorMetadata :=
  let classified k d := Metadata operation detail k d 0 "" in
  match detail with
  | DetailSessionMissing | DetailAccessTokenExpired | DetailRefreshUnavailable =>
      classified KindSession DependencySessionRepository
  | DetailRefreshRejected | DetailProviderRejected | DetailProviderResponseInvalid =>
      classified KindProvider DependencyProvider
  | DetailProviderClientRejected => classified KindConfiguration DependencyProvider
  | DetailProviderUnavailable => classified KindInfrastructure DependencyProvider
  | DetailCredentialSourceUnavailable => classified KindInfrastructure DependencyCredentialSource
  | DetailRepositoryUnavailable | DetailPersistenceFailed => classified KindInfrastructure DependencySessionRepository
  | DetailDecryptionFailed | DetailEncryptionFailed => classified KindInfrastructure DependencyEncryption
  | DetailConfiguration => classified KindConfiguration DependencyNone
  | DetailCallerCanceled => classified KindCanceled DependencyNone
  | DetailInternalUnclassified => classified KindInternal DependencyNone
  end.

Definition WithDependency (d : Dependency) (m : ErrorMetadata) : ErrorMetadata :=
  Metadata (em_operation m) (em_detail m) (em_kind m) d (em_statusCode m) (em_oauthCode m).

Definition IsSafeOAuthErrorCode (code : string) : bool :=
  bool_decide (code ∈ ["invalid_request"; "invalid_client"; "invalid_grant"; "unauthorized_client";
                       "unsupported_grant_type"; "invalid_scope"; "invalid_target"]).

Definition WithProviderResponse (status : Z) (code : string) (m : ErrorMetadata) : ErrorMetadata :=
  Metadata (em_operation m) (em_detail m) (em_kind m) (em_dependency m)
    (if bool_decide (100 ≤ status ≤ 599)%Z then status else 0%Z)
    (if bool_decide (code ≠ "") && negb (IsSafeOAuthErrorCode code) then "unknown" else code).

(** The sentinel errors. *)
Inductive sentinel :=
  | ErrServiceNotFound | ErrSessionNotFound | ErrEncryptionFailed | ErrInvalidConfiguration
  | ErrReauthenticationRequired | ErrRefreshFailed | ErrRefreshRejected | ErrRefreshNotAvailable
  | ErrStateTokenExpired | ErrPrincipalMismatch | ErrUnauthorized | ErrInvalidStateToken | ErrStateTokenTooLarge
  | ErrServiceIDMismatch | ErrTokenExchange
  | ErrCIMDKeyUnavailable | ErrProviderConfiguration | ErrSecretDecryption.
#[global] Instance sentinel_eq_dec : EqDecision sentinel.
Proof. solve_decision. Defined.

(** internal/domain/model/credential_source_error.go *)
Inductive CredentialSourceReason :=
  | MissingBinding | IdentityMissing | IdentityMismatch | GenerationChanged | NotFound | PermissionDenied
  | NotRegular | TooLarge | Empty | ReadFailed.
#[global] Instance CredentialSourceReason_eq_dec : EqDecision CredentialSourceReason.
Proof. solve_decision. Defined.

End Session.

(** ** Diagnostics (tokenexchange/diagnostic.go) *)

Inductive Outcome :=
  | OutcomeSuccess | OutcomeAuthorizationDenied | OutcomeAuthenticationFailed | OutcomeReauthRequired
  | OutcomeInvalidRequest | OutcomeConfigurationError | OutcomeInfrastructureError | OutcomeCanceled.
#[export] Instance Outcome_eq_dec : EqDecision Outcome.
Proof. solve_decision. Defined.

Inductive FailureStage :=
  | StageNone | StageRequestValidation | StageExchangeRouting | StageSubjectValidation | StageClientValidation
  | StageIdentityResolution | StageClientAuthorization | StageResourceResolution | StageGrantAuthorization
  | StageSessionLookup | StageRefresh | StageScopeValidation | StageResponseWrite.
#[export] Instance FailureStage_eq_dec : EqDecision FailureStage.
Proof. solve_decision. Defined.

Inductive FailureDetail :=
  | DetailNone | DetailResourceMissing | DetailRequestMalformed | DetailSubjectInvalid | DetailSubjectExpired
  | DetailClientInvalid | DetailClientExpired | DetailJWKSUnavailable | DetailJWTConfiguration
  | DetailClientPolicyDenied | DetailCELConfiguration | DetailCELEvaluationFailed | DetailAgentMissing
  | DetailAgentInvalid | DetailAgentRepositoryUnavailable | DetailResourceUnregistered | DetailResourceAmbiguous
  | DetailResourceRepositoryUnavailable | DetailGrantMissing | DetailGrantExpired | DetailGrantEmpty
  | DetailGrantPermissionSetUndeclared | DetailGrantPermissionSetMissing | DetailGrantServiceOmitted
  | DetailGrantServiceDefinitionMissing | DetailGrantServiceRequirementExcluded | DetailGrantScopeIntersectionEmpty
  | DetailGrantRepositoryUnavailable | DetailSessionMissing | DetailAccessTokenExpired | DetailRefreshUnavailable
  | DetailRefreshRejected | DetailProviderClientRejected | DetailProviderRejected | DetailProviderUnavailable
  | DetailProviderResponseInvalid | DetailSessionRepositoryUnavailable | DetailSessionDecryptionFailed
  | DetailSessionEncryptionFailed | DetailSessionPersistenceFailed | DetailSessionConfiguration
  | DetailCredentialSourceUnavailable | DetailCredentialIdentityChanged | DetailSessionScopeInsufficient
  | DetailResponseWriteFailed | DetailInternalUnclassified | DetailCallerCanceled
  | DetailSubjectCategoryIneligible | DetailSubjectCategoryUnsupported.
#[export] Instance FailureDetail_eq_dec : EqDecision FailureDetail.
Proof. solve_decision. Defined.

Inductive RecoveryAction :=
  RecoveryNone | RecoveryReconsent | RecoveryReauthenticate | RecoveryFixConfiguration | RecoveryRetry.
Inductive RecoveryTarget :=
  TargetNone | TargetConsent | TargetSubjectIdentity | TargetCallingClient | TargetProviderSession
  | TargetBrokerConfiguration.
Inductive ExchangeKind := ExchangeThirdParty | ExchangeImpersonation.

Record Diagnostic := Diag {
  dg_outcome : Outcome;
  dg_stage : FailureStage;
  dg_detail : FailureDetail;
  dg_action : RecoveryAction;
  dg_target : RecoveryTarget;
  dg_kind : ExchangeKind;
}.

Definition boundedStage (stage : FailureStage) : FailureStage :=
  match stage with StageNone => StageExchangeRouting | s => s end.

Definition NewDiagnostic (stage : FailureStage) (detail : FailureDetail) : Diagnostic :=
  let stage := boundedStage stage in
  let diag s o a t := Diag o s detail a t ExchangeThirdParty in
  let infrastructure s := diag s OutcomeInfrastructureError RecoveryRetry TargetNone in
  match detail with
  | DetailResourceMissing | DetailRequestMalformed =>
      diag StageRequestValidation OutcomeInvalidRequest RecoveryNone TargetNone
  | DetailSubjectInvalid | DetailSubjectExpired =>
      diag StageSubjectValidation OutcomeAuthenticationFailed RecoveryReauthenticate TargetSubjectIdentity
  | DetailClientInvalid | DetailClientExpired =>
      diag StageClientValidation OutcomeAuthenticationFailed RecoveryReauthenticate TargetCallingClient
  | DetailSubjectCategoryUnsupported => diag StageIdentityResolution OutcomeAuthorizationDenied RecoveryNone TargetNone
  | DetailClientPolicyDenied | DetailSubjectCategoryIneligible =>
      diag StageClientAuthorization OutcomeAuthorizationDenied RecoveryNone TargetNone
  | DetailCELConfiguration | DetailJWTConfiguration =>
      diag stage OutcomeConfigurationError RecoveryFixConfiguration TargetBrokerConfiguration
  | DetailAgentMissing | DetailAgentInvalid =>
      diag StageIdentityResolution OutcomeConfigurationError RecoveryFixConfiguration TargetBrokerConfiguration
  | DetailAgentRepositoryUnavailable => infrastructure StageIdentityResolution
  | DetailResourceUnregistered => diag StageResourceResolution OutcomeInvalidRequest RecoveryNone TargetNone
  | DetailResourceAmbiguous =>
      diag StageResourceResolution OutcomeConfigurationError RecoveryFixConfiguration TargetBrokerConfiguration
  | DetailResourceRepositoryUnavailable => infrastructure StageResourceResolution
  | DetailGrantMissing | DetailGrantExpired | DetailGrantEmpty | DetailGrantPermissionSetUndeclared
  | DetailGrantPermissionSetMissing | DetailGrantServiceOmitted | DetailGrantServiceDefinitionMissing
  | DetailGrantServiceRequirementExcluded | DetailGrantScopeIntersectionEmpty =>
      diag StageGrantAuthorization OutcomeAuthorizationDenied RecoveryReconsent TargetConsent
  | DetailGrantRepositoryUnavailable => infrastructure StageGrantAuthorization
  | DetailSessionMissing => diag StageSessionLookup OutcomeReauthRequired RecoveryReauthenticate TargetProviderSession
  | DetailAccessTokenExpired | DetailRefreshUnavailable | DetailCredentialIdentityChanged =>
      diag stage OutcomeReauthRequired RecoveryReauthenticate TargetProviderSession
  | DetailRefreshRejected => diag StageRefresh OutcomeReauthRequired RecoveryReauthenticate TargetProviderSession
  | DetailProviderClientRejected | DetailSessionConfiguration =>
      diag stage OutcomeConfigurationError RecoveryFixConfiguration TargetBrokerConfiguration
  | DetailProviderRejected | DetailProviderUnavailable | DetailProviderResponseInvalid => infrastructure StageRefresh
  | DetailSessionRepositoryUnavailable | DetailSessionDecryptionFailed | DetailSessionEncryptionFailed
  | DetailSessionPersistenceFailed | DetailCredentialSourceUnavailable | DetailJWKSUnavailable
  | DetailCELEvaluationFailed | DetailInternalUnclassified => infrastructure stage
  | DetailSessionScopeInsufficient =>
      diag StageScopeValidation OutcomeReauthRequired RecoveryReauthenticate TargetProviderSession
  | DetailResponseWriteFailed => infrastructure StageResponseWrite
  | DetailCallerCanceled => diag stage OutcomeCanceled RecoveryNone TargetNone
  | DetailNone => Diag OutcomeInfrastructureError stage DetailInternalUnclassified RecoveryRetry TargetNone ExchangeThirdParty
  end.

(** ** Token-exchange errors (tokenexchange/errors.go) *)

Record AuthorizationRef := AuthRef {
  ref_AgentID : AgentID;
  ref_GrantID : GrantID;
  ref_GrantUpdatedAt : time;
  ref_GrantValidUntil : time;
  ref_GrantHasValidUntil : bool;
}.
Definition no_authorization : AuthorizationRef := AuthRef "" "" 0 0 false.

(** The fields of a [TokenExchangeError] but its cause; no diagnostic is the zero value. *)
Record TokenExchangeFields := TEFields {
  te_code : string;
  te_description : string;
  te_httpStatus : Z;
  te_errorURI : string;
  te_diagnostic : option Diagnostic;
  te_service : ServiceID;
  te_authorization : AuthorizationRef;
}.

Inductive ctx_error := Canceled | DeadlineExceeded.
#[export] Instance ctx_error_eq_dec : EqDecision ctx_error.
Proof. solve_decision. Defined.

(** Error values: the leaves the code tests for, and the nodes that wrap others.
    [ERetrieve] is oauth2.RetrieveError with the response's status, [EURL] url.Error and
    [ENetOp] net.OpError. *)
Inductive go_error :=
  | EText
  | ECtx (c : ctx_error)
  | EStorage (k : ErrorKind)
  | EConsent (e : consent_error)
  | ETokenExpired
  | EInvalidIssuer
  | ESentinel (s : Session.sentinel)
  | ECredentialSource (r : Session.CredentialSourceReason)
  | ERefreshRejectedResponse (status : Z) (code : string)
  | ERetrieve (status : option Z) (code : string)
  | EURL (cause : go_error)
  | ENetOp (dial timeout : bool)
  | EOperation (m : Session.ErrorMetadata) (cause : option go_error)
  | EToken (f : TokenExchangeFields) (cause : option go_error)
  | EJoin (l r : go_error).

(** [RefreshRejectedError.Unwrap]: a terminal rejection by the provider. *)
Definition terminal_rejection (status : Z) (code : string) : bool :=
  bool_decide (code = "invalid_grant") && bool_decide (400 ≤ status ≤ 499)%Z && negb (bool_decide (status = 429%Z)).

(** The errors [errors.Is] and [errors.As] visit, outermost first. *)
Fixpoint chain (e : go_error) : list go_error :=
  e :: match e with
       | EOperation _ (Some c) | EToken _ (Some c) | EURL c => chain c
       | ERefreshRejectedResponse status code =>
           if terminal_rejection status code then [ESentinel Session.ErrRefreshRejected] else []
       | EJoin l r => chain l ++ chain r
       | _ => []
       end.

(** [errors.Join] of two errors, of which the second may be nil. *)
Definition join_opt (e : go_error) (o : option go_error) : go_error :=
  match o with Some e' => EJoin e e' | None => e end.

Definition is_ctx_error (c : ctx_error) (e : go_error) : bool :=
  existsb (λ x, match x with ECtx c' => bool_decide (c = c') | _ => false end) (chain e).
Definition is_sentinel (s : Session.sentinel) (e : go_error) : bool :=
  existsb (λ x, match x with ESentinel s' => bool_decide (s = s') | _ => false end) (chain e).
Definition is_not_found (e : go_error) : bool :=
  existsb (λ x, match x with EStorage KNotFound => true | _ => false end) (chain e).
Definition as_operation (e : go_error) : option Session.ErrorMetadata :=
  head (omap (λ x, match x with EOperation m _ => Some m | _ => None end) (chain e)).
Definition as_credential_source (e : go_error) : option Session.CredentialSourceReason :=
  head (omap (λ x, match x with ECredentialSource r => Some r | _ => None end) (chain e)).
Definition as_retrieve (e : go_error) : option (option Z * string) :=
  head (omap (λ x, match x with ERetrieve s c => Some (s, c) | _ => None end) (chain e)).
Definition as_net_op (e : go_error) : option (bool * bool) :=
  head (omap (λ x, match x with ENetOp d t => Some (d, t) | _ => None end) (chain e)).
Definition as_url_error (e : go_error) : bool :=
  existsb (λ x, match x with EURL _ => true | _ => false end) (chain e).
Definition as_token (e : go_error) : option (TokenExchangeFields * option go_error) :=
  head (omap (λ x, match x with EToken f c => Some (f, c) | _ => None end) (chain e)).

(** *** Constructors and builders *)

Record TokenExchangeError := TErr { ter_fields : TokenExchangeFields; ter_cause : option go_error }.
Definition token_error (e : TokenExchangeError) : go_error := EToken (ter_fields e) (ter_cause e).
Coercion token_error : TokenExchangeError >-> go_error.

Definition new_token_error (code : string) (status : Z) (description : string) : TokenExchangeError :=
  TErr (TEFields code description status "" None "" no_authorization) None.

Definition NewInvalidRequestError := new_token_error "invalid_request" 400.
Definition NewInvalidClientError := new_token_error "invalid_client" 401.
Definition NewInvalidGrantError := new_token_error "invalid_grant" 400.
Definition NewInvalidTargetError := new_token_error "invalid_target" 400.
Definition NewAccessDeniedError := new_token_error "access_denied" 403.
Definition NewServerError := new_token_error "server_error" 500.

Definition WithCause (cause : go_error) (e : TokenExchangeError) : TokenExchangeError := TErr (ter_fields e) (Some cause).
Definition WithDiagnostic (d : Diagnostic) (e : TokenExchangeError) : TokenExchangeError :=
  let f := ter_fields e in
  TErr (TEFields (te_code f) (te_description f) (te_httpStatus f) (te_errorURI f) (Some d) (te_service f)
          (te_authorization f)) (ter_cause e).
Definition WithErrorURI (uri : string) (e : TokenExchangeError) : TokenExchangeError :=
  let f := ter_fields e in
  TErr (TEFields (te_code f) (te_description f) (te_httpStatus f) uri (te_diagnostic f) (te_service f)
          (te_authorization f)) (ter_cause e).
Definition WithObservation (d : Diagnostic) (service : ServiceID) (authorization : AuthorizationRef)
    (e : TokenExchangeError) : TokenExchangeError :=
  let f := ter_fields e in
  TErr (TEFields (te_code f) (te_description f) (te_httpStatus f) (te_errorURI f) (Some d) service authorization)
    (ter_cause e).

Definition NewServerErrorWithCause (description : string) (cause : go_error) : TokenExchangeError :=
  WithCause cause (NewServerError description).

Definition error_diagnostic (f : TokenExchangeFields) : Diagnostic :=
  default (NewDiagnostic StageExchangeRouting DetailInternalUnclassified) (te_diagnostic f).

Definition NewResourceUnregisteredError : TokenExchangeError :=
  WithDiagnostic (NewDiagnostic StageResourceResolution DetailResourceUnregistered)
    (WithCause EText (NewInvalidTargetError "no service configured for the requested resource")).
