(* ===== verification/NetPolicy.v ===== *)
(** * Outbound network policy

    internal/domain/netpolicy/blocklist.go: the address ranges an outbound request must not
    reach.  An address is the 16-byte form net.ParseIP returns, as a 128-bit number; an
    IPv4 address is the mapped one, and [To4] gives its 32 bits. *)

From S2P Require Import Prelude.

Local Open Scope Z_scope.

Abbreviation IP := Z (only parsing).

(** The prefix ::ffff:0:0/96 of IPv4-mapped addresses. *)
Definition v4_prefix : Z := 65535.
Definition To4 (ip : IP) : option Z :=
  if decide (Z.shiftr ip 32 = v4_prefix) then Some (Z.land ip (Z.ones 32)) else None.

Definition v4 (a b c d : Z) : Z := ((a * 256 + b) * 256 + c) * 256 + d.
Definition IPv4 (a b c d : Z) : IP := v4_prefix * 2 ^ 32 + v4 a b c d.

(** net.IPNet: the address family (in bits), the network number and the prefix length. *)
Record IPNet := Net { net_bits : Z; net_IP : Z; net_ones : Z }.

Definition mask (n : IPNet) (x : Z) : Z :=
  Z.land x (Z.shiftl (Z.ones (net_ones n)) (net_bits n - net_ones n)).

(** [network.Contains(ip)]: addresses of the other family are not in the network. *)
Definition net_Contains (n : IPNet) (ip : IP) : bool :=
  let '(bits, x) := match To4 ip with Some x => (32, x) | None => (128, ip) end in
  bool_decide (bits = net_bits n) && bool_decide (mask n x = mask n (net_IP n)).

(** [ip.IsGlobalUnicast()] *)
Definition IsUnspecified (ip : IP) : bool := bool_decide (ip = 0) || bool_decide (ip = IPv4 0 0 0 0).
Definition IsLoopback (ip : IP) : bool :=
  match To4 ip with
  | Some x => bool_decide (Z.shiftr x 24 = 127)
  | None => bool_decide (ip = 1)
  end.
Definition IsMulticast (ip : IP) : bool :=
  match To4 ip with
  | Some x => bool_decide (Z.shiftr x 28 = 14)
  | None => bool_decide (Z.shiftr ip 120 = 255)
  end.
Definition IsLinkLocalUnicast (ip : IP) : bool :=
  match To4 ip with
  | Some x => bool_decide (Z.shiftr x 16 = 169 * 256 + 254)
  | None => bool_decide (Z.shiftr ip 118 = 1018)
  end.
Definition IsGlobalUnicast (ip : IP) : bool :=
  negb (bool_decide (ip = IPv4 255 255 255 255)) && negb (IsUnspecified ip) && negb (IsLoopback ip) &&
  negb (IsMulticast ip) && negb (IsLinkLocalUnicast ip).

Definition net4 (a b c d ones : Z) : IPNet := Net 32 (v4 a b c d) ones.
(** An IPv6 network, by the leading 16-bit groups of its number. *)
Definition net6 (groups : list Z) (ones : Z) : IPNet :=
  Net 128 (Z.shiftl (foldl (λ x g, x * 65536 + g) 0 groups) (16 * (8 - Z.of_nat (length groups)))) ones.

Definition defaultBlockedCIDRs : list IPNet :=
  [ net4 127 0 0 0 8; net6 [0; 0; 0; 0; 0; 0; 0; 1] 128; net4 10 0 0 0 8; net4 172 16 0 0 12; net4 192 168 0 0 16;
    net4 169 254 0 0 16; net6 [65152] 10; net4 0 0 0 0 8; net4 100 64 0 0 10; net4 192 0 0 0 24; net4 192 0 2 0 24;
    net4 198 18 0 0 15; net4 198 51 100 0 24; net4 203 0 113 0 24; net4 192 88 99 0 24; net4 240 0 0 0 4;
    net4 255 255 255 255 32; net6 [64512] 7; net6 [8193; 3512] 32;
    net6 [100; 65435] 96; net6 [100; 65435; 1] 48; net6 [8193; 0] 32; net6 [8194] 16 ].

Record SSRFBlocklist := Blocklist { blocked : list IPNet }.

(** net.ParseIP and net.ParseCIDR. *)
Class GoNet := {
  net_ParseIP : string → option IP;
  net_ParseCIDR : string → option IPNet;
}.

Definition NewSSRFBlocklist `{GoNet} (extraCIDRs : list string) : option SSRFBlocklist :=
  extra ← mapM net_ParseCIDR extraCIDRs;
  Some (Blocklist (defaultBlockedCIDRs ++ extra)).

Definition blocklist_Contains (b : SSRFBlocklist) (ip : IP) : bool :=
  if negb (IsGlobalUnicast ip) then true else existsb (λ n, net_Contains n ip) (blocked b).

(** ** What is blocked, as intervals of addresses *)

(** A network as the interval of its addresses. *)
Definition net_interval (n : IPNet) (x : Z) : Prop :=
  let size := 2 ^ (net_bits n - net_ones n) in
  let lo := net_IP n / size * size in
  lo ≤ x < lo + size.
#[export] Instance net_interval_dec n x : Decision (net_interval n x).
Proof. unfold net_interval. apply _. Defined.

Definition net_wf (n : IPNet) : Prop :=
  (net_bits n = 32 ∨ net_bits n = 128) ∧ 0 ≤ net_ones n ≤ net_bits n ∧ 0 ≤ net_IP n < 2 ^ net_bits n.

(** Masking keeps the block number, scaled back. *)
Lemma mask_div n x : 0 ≤ net_ones n ≤ net_bits n → 0 ≤ x < 2 ^ net_bits n →
  mask n x = x / 2 ^ (net_bits n - net_ones n) * 2 ^ (net_bits n - net_ones n).
Proof.
  intros Hones Hx. unfold mask. set (k := net_bits n - net_ones n).
  rewrite <-Z.shiftr_div_pow2, <-Z.shiftl_mul_pow2 by lia.
  apply Z.bits_inj'. intros i Hi.
  rewrite Z.land_spec, !Z.shiftl_spec by lia. rewrite (Z.testbit_ones (net_ones n)) by lia.
  destruct (decide (i < k)) as [Hlt | Hge].
  { replace (0 <=? i - k) with false by lia. rewrite (Z.testbit_neg_r (Z.shiftr x k)) by lia.
    simpl. by rewrite andb_false_r. }
  replace (0 <=? i - k) with true by lia. rewrite Z.shiftr_spec by lia. replace (i - k + k) with i by lia.
  destruct (decide (i < net_bits n)) as [Hin | Hout].
  { replace (i - k <? net_ones n) with true by lia. by rewrite andb_true_r. }
  replace (i - k <? net_ones n) with false by lia. simpl. rewrite andb_false_r. symmetry.
  destruct (decide (x = 0)) as [-> | Hne]; [by rewrite Z.testbit_0_l |].
  apply Z.bits_above_log2; [lia |]. apply Z.log2_lt_pow2; [lia |].
  eapply Z.lt_le_trans; [apply Hx |]. apply Z.pow_le_mono_r; lia.
Qed.

Lemma mask_interval n x : net_wf n → 0 ≤ x < 2 ^ net_bits n →
  mask n x = mask n (net_IP n) ↔ net_interval n x.
Proof.
  intros (_ & Hones & Hip) Hx. rewrite !mask_div by done. unfold net_interval.
  set (size := 2 ^ (net_bits n - net_ones n)).
  assert (0 < size) as Hs by (apply Z.pow_pos_nonneg; lia).
  pose proof (Z.div_mod x size) as Hd. pose proof (Z.mod_pos_bound x size Hs) as Hm.
  split; [intros E; rewrite <-E; nia |].
  intros [H1 H2]. f_equal. symmetry. apply Z.div_unique with (x - net_IP n / size * size); lia.
Qed.

(** The family and value [Contains] compares. *)
Definition ip_family (ip : IP) : Z * Z := match To4 ip with Some x => (32, x) | None => (128, ip) end.

Lemma ip_family_bound ip : 0 ≤ ip < 2 ^ 128 → 0 ≤ (ip_family ip).2 < 2 ^ (ip_family ip).1.
Proof.
  intros Hip. unfold ip_family, To4. case_decide; [| done]. simpl.
  rewrite Z.land_ones by lia. by apply Z.mod_pos_bound.
Qed.

(** An address is in one of the networks of the list, by intervals. *)
Definition in_blocked_range (l : list IPNet) (ip : IP) : Prop :=
  ∃ n, n ∈ l ∧ (ip_family ip).1 = net_bits n ∧ net_interval n (ip_family ip).2.

Lemma net_Contains_interval n ip : net_wf n → 0 ≤ ip < 2 ^ 128 →
  net_Contains n ip = true ↔ (ip_family ip).1 = net_bits n ∧ net_interval n (ip_family ip).2.
Proof.
  intros Hwf Hip. pose proof (ip_family_bound ip Hip) as Hb. unfold net_Contains. fold (ip_family ip).
  destruct (ip_family ip) as [bits x]. simpl in *.
  rewrite andb_true_iff, !bool_decide_eq_true. split; intros [Hf Hm]; (split; [done |]); subst bits.
  - by apply mask_interval.
  - by apply mask_interval.
Qed.

Lemma defaultBlockedCIDRs_wf : Forall net_wf defaultBlockedCIDRs.
Proof. repeat (constructor; [split; [first [by left | by right] | split; vm_compute; split; discriminate || reflexivity] |]). constructor. Qed.

(** *** The special-purpose addresses, written out *)

(** [lo]–[hi] in dotted form. *)
Definition between (lo hi x : Z) : Prop := lo ≤ x ≤ hi.
#[export] Instance between_dec lo hi x : Decision (between lo hi x).
Proof. unfold between. apply _. Defined.

(** This network, private, shared, loopback, link-local, protocol assignments,
    documentation, 6to4 relay, benchmarking, then multicast and all reserved space. *)
Definition special_v4 (x : Z) : Prop :=
  between (v4 0 0 0 0) (v4 0 255 255 255) x ∨ between (v4 10 0 0 0) (v4 10 255 255 255) x ∨
  between (v4 100 64 0 0) (v4 100 127 255 255) x ∨ between (v4 127 0 0 0) (v4 127 255 255 255) x ∨
  between (v4 169 254 0 0) (v4 169 254 255 255) x ∨ between (v4 172 16 0 0) (v4 172 31 255 255) x ∨
  between (v4 192 0 0 0) (v4 192 0 0 255) x ∨ between (v4 192 0 2 0) (v4 192 0 2 255) x ∨
  between (v4 192 88 99 0) (v4 192 88 99 255) x ∨ between (v4 192 168 0 0) (v4 192 168 255 255) x ∨
  between (v4 198 18 0 0) (v4 198 19 255 255) x ∨ between (v4 198 51 100 0) (v4 198 51 100 255) x ∨
  between (v4 203 0 113 0) (v4 203 0 113 255) x ∨ v4 224 0 0 0 ≤ x.

(** The block of 2^[k] addresses with number [q]. *)
Definition v6_block (q k x : Z) : Prop := q * 2 ^ k ≤ x < (q + 1) * 2 ^ k.

(** Unspecified, loopback, NAT64 (well-known and local-use), Teredo, documentation,
    6to4, unique-local, link-local and multicast. *)
Definition special_v6 (x : Z) : Prop :=
  x = 0 ∨ x = 1 ∨ v6_block (0x64ff9b * 2 ^ 64) 32 x ∨ v6_block 0x64ff9b0001 80 x ∨
  v6_block 0x20010000 96 x ∨ v6_block 0x20010db8 96 x ∨ v6_block 0x2002 112 x ∨
  v6_block (0xfc00 / 512) 121 x ∨ v6_block (0xfe80 / 64) 118 x ∨ v6_block 0xff 120 x.

Definition special_purpose (ip : IP) : Prop :=
  match To4 ip with Some x => special_v4 x | None => special_v6 ip end.

Lemma shiftr_block x k q : 0 ≤ k → Z.shiftr x k = q ↔ v6_block q k x.
Proof.
  intros Hk. rewrite Z.shiftr_div_pow2 by lia. unfold v6_block.
  assert (0 < 2 ^ k) as Hs by (apply Z.pow_pos_nonneg; lia).
  pose proof (Z.div_mod x (2 ^ k)). pose proof (Z.mod_pos_bound x (2 ^ k) Hs).
  split; [intros <-; nia |]. intros ?. symmetry. apply Z.div_unique with (x - q * 2 ^ k); lia.
Qed.

Lemma IPv4_To4 ip a b c d : 0 ≤ v4 a b c d < 2 ^ 32 → ip = IPv4 a b c d ↔ To4 ip = Some (v4 a b c d).
Proof.
  intros Hb. unfold To4, IPv4. rewrite Z.land_ones, Z.shiftr_div_pow2 by lia.
  pose proof (Z.div_mod ip (2 ^ 32)). split.
  - intros ->. rewrite decide_True.
    + f_equal. rewrite Z.add_comm, Z.mod_add by lia. by apply Z.mod_small.
    + symmetry. by apply Z.div_unique with (v4 a b c d); lia.
  - case_decide; [| done]. intros [= E]. lia.
Qed.

(** Being in one of a list of networks is a disjunction. *)
Lemma in_blocked_cons n l ip :
  in_blocked_range (n :: l) ip ↔
  ((ip_family ip).1 = net_bits n ∧ net_interval n (ip_family ip).2) ∨ in_blocked_range l ip.
Proof.
  unfold in_blocked_range. setoid_rewrite elem_of_cons. split.
  - intros (m & [-> | Hm] & Hc); [by left | right; by exists m].
  - intros [Hc | (m & Hm & Hc)]; [exists n; by split; [left |] | exists m; by split; [right |]].
Qed.
Lemma in_blocked_nil ip : in_blocked_range [] ip ↔ False.
Proof. split; [| done]. by intros (n & Hn%not_elem_of_nil & _). Qed.

Lemma blocklist_Contains_range b ip : Forall net_wf (blocked b) → 0 ≤ ip < 2 ^ 128 →
  blocklist_Contains b ip = true ↔ IsGlobalUnicast ip = false ∨ in_blocked_range (blocked b) ip.
Proof.
  intros Hwf Hip. unfold blocklist_Contains. destruct (IsGlobalUnicast ip) eqn:E; simpl; [| naive_solver].
  rewrite existsb_exists. setoid_rewrite <-list_elem_of_In. split.
  - intros (n & Hn & Hc). right. exists n. split; [done |]. apply net_Contains_interval; [| done | done].
    by eapply Forall_forall.
  - intros [? | (n & Hn & Hc)]; [done |]. exists n. split; [done |].
    apply net_Contains_interval; [by eapply Forall_forall | done | done].
Qed.

Lemma not_global_unicast ip : IsGlobalUnicast ip = false ↔
  ip = IPv4 255 255 255 255 ∨ IsUnspecified ip = true ∨ IsLoopback ip = true ∨ IsMulticast ip = true ∨
  IsLinkLocalUnicast ip = true.
Proof.
  unfold IsGlobalUnicast. rewrite !andb_false_iff, !negb_false_iff, bool_decide_eq_true. tauto.
Qed.

(** Find the disjunct that follows by arithmetic. *)
Ltac pick_range :=
  lazymatch goal with |- _ ∨ _ => first [left; pick_range | right; pick_range] | _ => lia end.
Ltac each_range H :=
  lazymatch type of H with _ ∨ _ => destruct H as [H | H]; each_range H | _ => pick_range end.

Lemma default_ranges_v4 x ip : To4 ip = Some x → 0 ≤ x < 2 ^ 32 →
  IsGlobalUnicast ip = false ∨ in_blocked_range defaultBlockedCIDRs ip ↔ special_v4 x.
Proof.
  intros E Hx. rewrite not_global_unicast. rewrite (IPv4_To4 ip 255 255 255 255) by done.
  unfold IsUnspecified. rewrite orb_true_iff, !bool_decide_eq_true, (IPv4_To4 ip 0 0 0 0) by done.
  unfold IsLoopback, IsMulticast, IsLinkLocalUnicast. rewrite E, !bool_decide_eq_true, !shiftr_block by lia.
  assert (ip ≠ 0) by (intros ->; by vm_compute in E). rewrite !(inj_iff Some).
  unfold defaultBlockedCIDRs. rewrite !in_blocked_cons, in_blocked_nil. unfold ip_family. rewrite E.
  clear E. change (2 ^ 32) with 4294967296 in Hx. cbv -[Z.le Z.lt not iff].
  split; intros Hd; destruct (decide (x < 4026531840)); each_range Hd.
Qed.

Lemma default_ranges_v6 ip : To4 ip = None → 0 ≤ ip < 2 ^ 128 →
  IsGlobalUnicast ip = false ∨ in_blocked_range defaultBlockedCIDRs ip ↔ special_v6 ip.
Proof.
  intros E Hip. rewrite not_global_unicast. rewrite (IPv4_To4 ip 255 255 255 255) by done.
  unfold IsUnspecified. rewrite orb_true_iff, !bool_decide_eq_true, (IPv4_To4 ip 0 0 0 0) by done.
  unfold IsLoopback, IsMulticast, IsLinkLocalUnicast. rewrite E, !bool_decide_eq_true, !shiftr_block by lia.
  unfold defaultBlockedCIDRs. rewrite !in_blocked_cons, in_blocked_nil. unfold ip_family. rewrite E.
  assert (∀ x : Z, None = Some x ↔ False) as HN by naive_solver. rewrite !HN.
  clear E HN. cbv -[Z.le Z.lt not iff].
  split; intros Hd; each_range Hd.
Qed.

Lemma default_special ip : 0 ≤ ip < 2 ^ 128 →
  IsGlobalUnicast ip = false ∨ in_blocked_range defaultBlockedCIDRs ip ↔ special_purpose ip.
Proof.
  intros Hip. unfold special_purpose. destruct (To4 ip) as [x |] eqn:E; [| by apply default_ranges_v6].
  apply default_ranges_v4; [done |]. pose proof (ip_family_bound ip Hip) as Hb.
  unfold ip_family in Hb. by rewrite E in Hb.
Qed.


