(* ===== verification/Providers.v ===== *)
(** * Third-party services

    The provider entity (internal/domain/model/thirdparty_oauth2_provider.go,
    discovery_config.go, discovery_status.go, client_registration.go, oauth2_flavor.go,
    token_endpoint_auth_method.go, oauth_scope.go, secret.go and google_service_account.go) and
    its validation.  Deep copies are the identity on values.  The URL parser is the class
    [GoURL], query strings and Google's credential format the class [ProviderParsers]. *)

From S2P Require Import Prelude ToolApproval ApprovalStore ApprovalHandlers OAuthSessions UserGrants Consent UriValidation NetPolicy.

(** ** Secrets (secret.go) *)

(** [nil] ciphertext is [None]. *)
Record Secret := MkSecret { sec_plaintext : string; sec_ciphertext : option string; sec_absent : bool }.
#[export] Instance Secret_eq_dec : EqDecision Secret.
Proof. solve_decision. Defined.

Definition NewAbsentSecret : Secret := MkSecret "" None true.
Definition NewPlaintextSecret (plaintext : string) : Secret := MkSecret plaintext None false.
Definition NewEncryptedSecret (ciphertext : string) : Secret := MkSecret "" (Some ciphertext) false.

Definition GetPlaintext (s : Secret) : option string :=
  if sec_absent s then None
  else if decide (is_Some (sec_ciphertext s)) then None
  else if decide (sec_plaintext s = "") then None
  else Some (sec_plaintext s).

Definition GetCiphertext (s : Secret) : option string :=
  if sec_absent s then None
  else match sec_ciphertext s with
       | None => None
       | Some c => if decide (c = "") then None else Some c
       end.

Definition IsAbsent (s : Secret) : bool := sec_absent s.
Definition IsEncrypted (s : Secret) : bool := negb (sec_absent s) && bool_decide (is_Some (sec_ciphertext s)).
Definition IsPlaintext (s : Secret) : bool := negb (sec_absent s) && bool_decide (sec_ciphertext s = None).

(** ** Configuration *)

Record DiscoveryConfig := MkDiscovery {
  dc_EnableDiscovery : bool;
  dc_MetadataURL : option string;
  dc_ResourceURL : option string;
  dc_ClientMethod : string;
}.

Record OAuth2Endpoints := MkEndpoints {
  ep_TokenEndpoint : string;
  ep_AuthorizeEndpoint : string;
  ep_JWKsURI : string;
}.
#[export] Instance OAuth2Endpoints_eq_dec : EqDecision OAuth2Endpoints.
Proof. solve_decision. Defined.

Record DiscoveryStatus := MkStatus {
  ds_LastAttemptAt : option time;
  ds_LastSuccessAt : option time;
  ds_FailureReason : option string;
}.

Record OAuthScope := MkScope { sc_ScopeValue : string; sc_Description : string }.

Definition scope_Validate (s : OAuthScope) : bool := nonempty (sc_ScopeValue s) && nonempty (sc_Description s).

(** The string constants of the provider model. *)
Definition CredentialSourceStored : string := "stored".
Definition CredentialSourceFilesystem : string := "filesystem".
Definition ClientRegistrationStatic : string := "static".
Definition ClientRegistrationCIMD : string := "cimd".
Definition ClientBootstrapCIMD : string := "cimd".
Definition ClientBootstrapDCR : string := "dcr".
Definition AuthMethodNone : string := "none".
Definition AuthMethodPrivateKeyJWT : string := "private_key_jwt".
Definition AuthMethodClientSecretBasic : string := "client_secret_basic".
Definition AuthMethodClientSecretPost : string := "client_secret_post".
Definition FlavorStandard : string := "standard".
Definition FlavorGoogle : string := "google".
Definition FlavorGitHub : string := "github".

Record ThirdpartyOAuth2ProviderEntity := Entity {
  pe_ID : ServiceID;
  pe_CanonicalID : option string;
  pe_ClearCanonicalID : bool;
  pe_DisplayName : string;
  pe_ClientID : string;
  pe_Secret : Secret;
  pe_CredentialSource : string;
  pe_CredentialSourceTransitioned : bool;
  pe_CredentialSourceProvided : bool;
  pe_ClientRegistration : string;
  pe_ClientRegistrationProvided : bool;
  pe_ClientIDProvided : bool;
  pe_ClientSecretProvided : bool;
  pe_TokenEndpointAuthMethod : string;
  pe_Flavor : string;
  pe_IssuerURI : string;
  pe_Discovery : DiscoveryConfig;
  pe_Endpoints : OAuth2Endpoints;
  pe_Scopes : list OAuthScope;
  pe_AuthorizationParams : option (gmap string string);
  pe_ResourceExplicit : bool;
  pe_DiscoveryStatus : DiscoveryStatus;
  pe_ProtectedResources : list string;
  pe_Version : Z;
  pe_ServiceRequirements : list (ServiceID * RequirementType * list string);
  pe_CreatedAt : time;
  pe_UpdatedAt : time;
}.

Definition set_pe_CredentialSource (v : string) (e : ThirdpartyOAuth2ProviderEntity) : ThirdpartyOAuth2ProviderEntity :=
  {| pe_ID := pe_ID e; pe_CanonicalID := pe_CanonicalID e; pe_ClearCanonicalID := pe_ClearCanonicalID e;
     pe_DisplayName := pe_DisplayName e; pe_ClientID := pe_ClientID e; pe_Secret := pe_Secret e;
     pe_CredentialSource := v; pe_CredentialSourceTransitioned := pe_CredentialSourceTransitioned e;
     pe_CredentialSourceProvided := pe_CredentialSourceProvided e; pe_ClientRegistration := pe_ClientRegistration e;
     pe_ClientRegistrationProvided := pe_ClientRegistrationProvided e; pe_ClientIDProvided := pe_ClientIDProvided e;
     pe_ClientSecretProvided := pe_ClientSecretProvided e;
     pe_TokenEndpointAuthMethod := pe_TokenEndpointAuthMethod e; pe_Flavor := pe_Flavor e;
     pe_IssuerURI := pe_IssuerURI e; pe_Discovery := pe_Discovery e; pe_Endpoints := pe_Endpoints e;
     pe_Scopes := pe_Scopes e; pe_AuthorizationParams := pe_AuthorizationParams e;
     pe_ResourceExplicit := pe_ResourceExplicit e; pe_DiscoveryStatus := pe_DiscoveryStatus e;
     pe_ProtectedResources := pe_ProtectedResources e; pe_Version := pe_Version e;
     pe_ServiceRequirements := pe_ServiceRequirements e; pe_CreatedAt := pe_CreatedAt e;
     pe_UpdatedAt := pe_UpdatedAt e |}.

Definition set_pe_ClientRegistration (v : string) (e : ThirdpartyOAuth2ProviderEntity) : ThirdpartyOAuth2ProviderEntity :=
  {| pe_ID := pe_ID e; pe_CanonicalID := pe_CanonicalID e; pe_ClearCanonicalID := pe_ClearCanonicalID e;
     pe_DisplayName := pe_DisplayName e; pe_ClientID := pe_ClientID e; pe_Secret := pe_Secret e;
     pe_CredentialSource := pe_CredentialSource e;
     pe_CredentialSourceTransitioned := pe_CredentialSourceTransitioned e;
     pe_CredentialSourceProvided := pe_CredentialSourceProvided e; pe_ClientRegistration := v;
     pe_ClientRegistrationProvided := pe_ClientRegistrationProvided e; pe_ClientIDProvided := pe_ClientIDProvided e;
     pe_ClientSecretProvided := pe_ClientSecretProvided e;
     pe_TokenEndpointAuthMethod := pe_TokenEndpointAuthMethod e; pe_Flavor := pe_Flavor e;
     pe_IssuerURI := pe_IssuerURI e; pe_Discovery := pe_Discovery e; pe_Endpoints := pe_Endpoints e;
     pe_Scopes := pe_Scopes e; pe_AuthorizationParams := pe_AuthorizationParams e;
     pe_ResourceExplicit := pe_ResourceExplicit e; pe_DiscoveryStatus := pe_DiscoveryStatus e;
     pe_ProtectedResources := pe_ProtectedResources e; pe_Version := pe_Version e;
     pe_ServiceRequirements := pe_ServiceRequirements e; pe_CreatedAt := pe_CreatedAt e;
     pe_UpdatedAt := pe_UpdatedAt e |}.

Definition set_pe_CredentialSourceTransitioned (v : bool) (e : ThirdpartyOAuth2ProviderEntity) : ThirdpartyOAuth2ProviderEntity :=
  {| pe_ID := pe_ID e; pe_CanonicalID := pe_CanonicalID e; pe_ClearCanonicalID := pe_ClearCanonicalID e;
     pe_DisplayName := pe_DisplayName e; pe_ClientID := pe_ClientID e; pe_Secret := pe_Secret e;
     pe_CredentialSource := pe_CredentialSource e; pe_CredentialSourceTransitioned := v;
     pe_CredentialSourceProvided := pe_CredentialSourceProvided e; pe_ClientRegistration := pe_ClientRegistration e;
     pe_ClientRegistrationProvided := pe_ClientRegistrationProvided e; pe_ClientIDProvided := pe_ClientIDProvided e;
     pe_ClientSecretProvided := pe_ClientSecretProvided e;
     pe_TokenEndpointAuthMethod := pe_TokenEndpointAuthMethod e; pe_Flavor := pe_Flavor e;
     pe_IssuerURI := pe_IssuerURI e; pe_Discovery := pe_Discovery e; pe_Endpoints := pe_Endpoints e;
     pe_Scopes := pe_Scopes e; pe_AuthorizationParams := pe_AuthorizationParams e;
     pe_ResourceExplicit := pe_ResourceExplicit e; pe_DiscoveryStatus := pe_DiscoveryStatus e;
     pe_ProtectedResources := pe_ProtectedResources e; pe_Version := pe_Version e;
     pe_ServiceRequirements := pe_ServiceRequirements e; pe_CreatedAt := pe_CreatedAt e;
     pe_UpdatedAt := pe_UpdatedAt e |}.

Definition set_pe_ProtectedResources (v : list string) (e : ThirdpartyOAuth2ProviderEntity) : ThirdpartyOAuth2ProviderEntity :=
  {| pe_ID := pe_ID e; pe_CanonicalID := pe_CanonicalID e; pe_ClearCanonicalID := pe_ClearCanonicalID e;
     pe_DisplayName := pe_DisplayName e; pe_ClientID := pe_ClientID e; pe_Secret := pe_Secret e;
     pe_CredentialSource := pe_CredentialSource e;
     pe_CredentialSourceTransitioned := pe_CredentialSourceTransitioned e;
     pe_CredentialSourceProvided := pe_CredentialSourceProvided e; pe_ClientRegistration := pe_ClientRegistration e;
     pe_ClientRegistrationProvided := pe_ClientRegistrationProvided e; pe_ClientIDProvided := pe_ClientIDProvided e;
     pe_ClientSecretProvided := pe_ClientSecretProvided e;
     pe_TokenEndpointAuthMethod := pe_TokenEndpointAuthMethod e; pe_Flavor := pe_Flavor e;
     pe_IssuerURI := pe_IssuerURI e; pe_Discovery := pe_Discovery e; pe_Endpoints := pe_Endpoints e;
     pe_Scopes := pe_Scopes e; pe_AuthorizationParams := pe_AuthorizationParams e;
     pe_ResourceExplicit := pe_ResourceExplicit e; pe_DiscoveryStatus := pe_DiscoveryStatus e;
     pe_ProtectedResources := v; pe_Version := pe_Version e; pe_ServiceRequirements := pe_ServiceRequirements e;
     pe_CreatedAt := pe_CreatedAt e; pe_UpdatedAt := pe_UpdatedAt e |}.

Definition set_pe_Version (v : Z) (e : ThirdpartyOAuth2ProviderEntity) : ThirdpartyOAuth2ProviderEntity :=
  {| pe_ID := pe_ID e; pe_CanonicalID := pe_CanonicalID e; pe_ClearCanonicalID := pe_ClearCanonicalID e;
     pe_DisplayName := pe_DisplayName e; pe_ClientID := pe_ClientID e; pe_Secret := pe_Secret e;
     pe_CredentialSource := pe_CredentialSource e;
     pe_CredentialSourceTransitioned := pe_CredentialSourceTransitioned e;
     pe_CredentialSourceProvided := pe_CredentialSourceProvided e; pe_ClientRegistration := pe_ClientRegistration e;
     pe_ClientRegistrationProvided := pe_ClientRegistrationProvided e; pe_ClientIDProvided := pe_ClientIDProvided e;
     pe_ClientSecretProvided := pe_ClientSecretProvided e;
     pe_TokenEndpointAuthMethod := pe_TokenEndpointAuthMethod e; pe_Flavor := pe_Flavor e;
     pe_IssuerURI := pe_IssuerURI e; pe_Discovery := pe_Discovery e; pe_Endpoints := pe_Endpoints e;
     pe_Scopes := pe_Scopes e; pe_AuthorizationParams := pe_AuthorizationParams e;
     pe_ResourceExplicit := pe_ResourceExplicit e; pe_DiscoveryStatus := pe_DiscoveryStatus e;
     pe_ProtectedResources := pe_ProtectedResources e; pe_Version := v;
     pe_ServiceRequirements := pe_ServiceRequirements e; pe_CreatedAt := pe_CreatedAt e;
     pe_UpdatedAt := pe_UpdatedAt e |}.

Definition set_pe_DiscoveryStatus (v : DiscoveryStatus) (e : ThirdpartyOAuth2ProviderEntity) : ThirdpartyOAuth2ProviderEntity :=
  {| pe_ID := pe_ID e; pe_CanonicalID := pe_CanonicalID e; pe_ClearCanonicalID := pe_ClearCanonicalID e;
     pe_DisplayName := pe_DisplayName e; pe_ClientID := pe_ClientID e; pe_Secret := pe_Secret e;
     pe_CredentialSource := pe_CredentialSource e;
     pe_CredentialSourceTransitioned := pe_CredentialSourceTransitioned e;
     pe_CredentialSourceProvided := pe_CredentialSourceProvided e; pe_ClientRegistration := pe_ClientRegistration e;
     pe_ClientRegistrationProvided := pe_ClientRegistrationProvided e; pe_ClientIDProvided := pe_ClientIDProvided e;
     pe_ClientSecretProvided := pe_ClientSecretProvided e;
     pe_TokenEndpointAuthMethod := pe_TokenEndpointAuthMethod e; pe_Flavor := pe_Flavor e;
     pe_IssuerURI := pe_IssuerURI e; pe_Discovery := pe_Discovery e; pe_Endpoints := pe_Endpoints e;
     pe_Scopes := pe_Scopes e; pe_AuthorizationParams := pe_AuthorizationParams e;
     pe_ResourceExplicit := pe_ResourceExplicit e; pe_DiscoveryStatus := v;
     pe_ProtectedResources := pe_ProtectedResources e; pe_Version := pe_Version e;
     pe_ServiceRequirements := pe_ServiceRequirements e; pe_CreatedAt := pe_CreatedAt e;
     pe_UpdatedAt := pe_UpdatedAt e |}.

(** The fields a Google credential determines. *)
Definition set_google (clientID : string) (endpoints : OAuth2Endpoints) (issuer : string)
    (e : ThirdpartyOAuth2ProviderEntity) : ThirdpartyOAuth2ProviderEntity :=
  {| pe_ID := pe_ID e; pe_CanonicalID := pe_CanonicalID e; pe_ClearCanonicalID := pe_ClearCanonicalID e;
     pe_DisplayName := pe_DisplayName e; pe_ClientID := clientID; pe_Secret := pe_Secret e;
     pe_CredentialSource := pe_CredentialSource e;
     pe_CredentialSourceTransitioned := pe_CredentialSourceTransitioned e;
     pe_CredentialSourceProvided := pe_CredentialSourceProvided e; pe_ClientRegistration := pe_ClientRegistration e;
     pe_ClientRegistrationProvided := pe_ClientRegistrationProvided e; pe_ClientIDProvided := pe_ClientIDProvided e;
     pe_ClientSecretProvided := pe_ClientSecretProvided e;
     pe_TokenEndpointAuthMethod := pe_TokenEndpointAuthMethod e; pe_Flavor := pe_Flavor e; pe_IssuerURI := issuer;
     pe_Discovery := pe_Discovery e; pe_Endpoints := endpoints; pe_Scopes := pe_Scopes e;
     pe_AuthorizationParams := pe_AuthorizationParams e; pe_ResourceExplicit := pe_ResourceExplicit e;
     pe_DiscoveryStatus := pe_DiscoveryStatus e; pe_ProtectedResources := pe_ProtectedResources e;
     pe_Version := pe_Version e; pe_ServiceRequirements := pe_ServiceRequirements e; pe_CreatedAt := pe_CreatedAt e;
     pe_UpdatedAt := pe_UpdatedAt e |}.

Definition set_pe_Secret (secret : Secret) (e : ThirdpartyOAuth2ProviderEntity) : ThirdpartyOAuth2ProviderEntity :=
  {| pe_ID := pe_ID e; pe_CanonicalID := pe_CanonicalID e; pe_ClearCanonicalID := pe_ClearCanonicalID e;
     pe_DisplayName := pe_DisplayName e; pe_ClientID := pe_ClientID e; pe_Secret := secret;
     pe_CredentialSource := pe_CredentialSource e;
     pe_CredentialSourceTransitioned := pe_CredentialSourceTransitioned e;
     pe_CredentialSourceProvided := pe_CredentialSourceProvided e; pe_ClientRegistration := pe_ClientRegistration e;
     pe_ClientRegistrationProvided := pe_ClientRegistrationProvided e; pe_ClientIDProvided := pe_ClientIDProvided e;
     pe_ClientSecretProvided := pe_ClientSecretProvided e;
     pe_TokenEndpointAuthMethod := pe_TokenEndpointAuthMethod e; pe_Flavor := pe_Flavor e; pe_IssuerURI := pe_IssuerURI e;
     pe_Discovery := pe_Discovery e; pe_Endpoints := pe_Endpoints e; pe_Scopes := pe_Scopes e;
     pe_AuthorizationParams := pe_AuthorizationParams e; pe_ResourceExplicit := pe_ResourceExplicit e;
     pe_DiscoveryStatus := pe_DiscoveryStatus e; pe_ProtectedResources := pe_ProtectedResources e;
     pe_Version := pe_Version e; pe_ServiceRequirements := pe_ServiceRequirements e; pe_CreatedAt := pe_CreatedAt e;
     pe_UpdatedAt := pe_UpdatedAt e |}.

Abbreviation provider := ThirdpartyOAuth2ProviderEntity (only parsing).

Definition IsPublicClient (e : provider) : bool := bool_decide (pe_TokenEndpointAuthMethod e = AuthMethodNone).
Definition IsCIMDConfidentialClient (e : provider) : bool :=
  bool_decide (pe_TokenEndpointAuthMethod e = AuthMethodPrivateKeyJWT).
Definition IsCIMDClient (e : provider) : bool := bool_decide (pe_ClientRegistration e = ClientRegistrationCIMD).
Definition IsCIMDPublicClient (e : provider) : bool := IsCIMDClient e && IsPublicClient e.

(** The parameters of a map; a nil map has none. *)
Definition auth_params (e : provider) : gmap string string := default ∅ (pe_AuthorizationParams e).
(** [params["resource"]] *)
Definition auth_resource (e : provider) : string := default "" (auth_params e !! "resource").
Definition param_names (m : gmap string string) : list string := (map_to_list m).*1.

(** ** Parameter names *)

(** Lower case as [strings.ToLower] gives it wherever the result is an ASCII name: of the
    other letters only U+0130 and U+212A have an ASCII lower case. *)
Fixpoint fold_bytes (l : list ascii) : list ascii :=
  match l with
  | [] => []
  | c :: l' =>
      match strip_prefix [byte 196; byte 176] l, strip_prefix [byte 226; byte 132; byte 170] l with
      | Some _, _ => "i"%char :: match l' with _ :: r => fold_bytes r | [] => [] end
      | _, Some _ => "k"%char :: match l' with _ :: _ :: r => fold_bytes r | _ => [] end
      | _, _ => lower_byte c :: fold_bytes l'
      end
  end.
Definition LowerName (s : string) : string := of_bytes (fold_bytes (bytes s)).

Definition isClientCredentialParameter (name : string) : bool :=
  bool_decide (LowerName name ∈ ["client_assertion"; "client_assertion_type"; "client_secret"]).

Definition reservedAuthorizationParamNames : list string :=
  ["client_id"; "client_secret"; "redirect_uri"; "response_type"; "scope"; "state"; "code"; "grant_type";
   "code_verifier"; "code_challenge"; "code_challenge_method"; "nonce"; "request"; "request_uri"; "refresh_token"].
Definition IsReservedAuthorizationParamName (name : string) : bool :=
  bool_decide (LowerName name ∈ reservedAuthorizationParamNames).

(** [strings.EqualFold(name, "resource")]: the long s, U+017F, folds with s. *)
Fixpoint fold_eq (l w : list ascii) : bool :=
  match w, l with
  | [], [] => true
  | x :: w, c :: l' =>
      if bool_decide (lower_byte c = x) then fold_eq l' w
      else bool_decide (x = "s"%char) &&
           match l' with d :: r => bool_decide (c = byte 197 ∧ d = byte 191) && fold_eq r w | [] => false end
  | _, _ => false
  end.
Definition IsDiscoveryResourceParamName (name : string) : bool := fold_eq (bytes name) (bytes "resource").

Definition validateAuthorizationParams (params : gmap string string) : bool :=
  forallb (λ '(name, value), nonempty (TrimSpace name) && nonempty (TrimSpace value) &&
                             negb (IsReservedAuthorizationParamName name)) (map_to_list params).

(** ** Parsers the validation calls *)

Record GoogleJWTConfig := MkGoogleJWT { gj_Email : string; gj_PrivateKey : string; gj_TokenURL : string }.

(** url.ParseQuery (the names in a query string), Google's credential reader, and the
    client_id and token_uri of the credential's JSON. *)
Class ProviderParsers := {
  url_ParseQuery : string → option (list string);
  google_JWTConfigFromJSON : string → option GoogleJWTConfig;
  json_ClientIDAndTokenURI : string → option (string * string);
}.

Definition maxGoogleServiceAccountKeySize : nat := 32 * 1024.
Definition googleOAuthAuthURL : string := "https://accounts.google.com/o/oauth2/auth".

Record GoogleServiceAccountKey := MkGSK { gsk_TokenURI : string; gsk_ClientID : string }.

Section validation.
Context `{GoURL} `{GoNet} `{UUID} `{ProviderParsers}.

Definition ParseGoogleServiceAccountKey (credential : string) : option GoogleServiceAccountKey :=
  if bool_decide (maxGoogleServiceAccountKeySize < String.length credential)%nat then None
  else match google_JWTConfigFromJSON credential with
  | None => None
  | Some cfg =>
      if negb (nonempty (gj_Email cfg) && nonempty (gj_PrivateKey cfg) && nonempty (gj_TokenURL cfg)) then None
      else match json_ClientIDAndTokenURI credential with
      | None => None
      | Some (clientID, tokenURI) =>
          if negb (nonempty tokenURI && nonempty clientID) then None else Some (MkGSK tokenURI clientID)
      end
  end.

(** ** URLs *)

Definition isAllowedHTTPSScheme (urlStr : string) (skipHTTPSValidation : bool) : bool :=
  match url_Parse urlStr with
  | None => false
  | Some parsed =>
      if decide (u_Scheme parsed = "https") then true
      else if decide (u_Scheme parsed = "http") then
        skipHTTPSValidation || bool_decide (Hostname parsed ∈ ["localhost"; "127.0.0.1"; "::1"])
      else false
  end.

Definition TrimSuffixByte (s : string) (c : ascii) : string :=
  if HasSuffixByte s c then of_bytes (removelast (bytes s)) else s.
Definition HasSuffix (s suffix : string) : bool :=
  match strip_prefix (reverse (bytes suffix)) (reverse (bytes s)) with Some _ => true | None => false end.

Definition isPublicDNSAlnum (b : ascii) : bool :=
  let n := N_of_ascii b in bool_decide (97 ≤ n ≤ 122)%N || bool_decide (48 ≤ n ≤ 57)%N.

Definition dns_label_ok (label : list ascii) : bool :=
  match label with
  | [] => false
  | c :: rest =>
      isPublicDNSAlnum c && match last label with Some d => isPublicDNSAlnum d | None => false end &&
      forallb (λ b, isPublicDNSAlnum b || bool_decide (b = "-"%char)) (removelast rest)
  end.

(** [strconv.Atoi] of a port, and its range. *)
Definition https_port_ok (port : string) : bool :=
  if decide (port = "") then true
  else match ParseInt64 port with Some n => bool_decide (1 ≤ n ≤ 65535)%Z | None => false end.

Definition publicURLBlocklist : SSRFBlocklist := Blocklist defaultBlockedCIDRs.

(** The host of a public URL: an address off the blocklist, or a public DNS name. *)
Definition public_host_ok (u : URL) (host : string) : bool :=
  match net_ParseIP (TrimSuffixByte host "."%char) with
  | Some ip => negb (blocklist_Contains publicURLBlocklist ip)
  | None =>
      if HasPrefix (u_Host u) "[" then false
      else
        let host := TrimSuffixByte (LowerName host) "."%char in
        negb (bool_decide (host = "localhost") || HasSuffix host ".localhost" || HasSuffix host ".local") &&
        forallb dns_label_ok (split_bytes "."%char (bytes host))
  end.

Definition ValidatePublicHTTPSURL (raw : string) : bool :=
  match url_Parse raw with
  | None => false
  | Some u =>
      if negb (bool_decide (u_Scheme u = "https")) || nonempty (u_Opaque u) || negb (nonempty (u_Host u)) ||
         bool_decide (is_Some (u_User u)) || ContainsByte raw "#"%char then false
      else
        let host := Hostname u in
        if negb (nonempty host) || ContainsByte host "%"%char || HasSuffixByte (u_Host u) ":"%char then false
        else https_port_ok (Port u) && public_host_ok u host
  end.

Definition validateDiscoveryIssuer (raw : string) : bool :=
  ValidatePublicHTTPSURL raw &&
  match url_Parse raw with Some u => negb (nonempty (u_RawQuery u)) && negb (u_ForceQuery u) | None => false end.

Definition validateDiscoveredURL (raw : string) : bool := ValidatePublicHTTPSURL raw.

Definition validateExplicitDiscoveryResource (raw : string) : bool :=
  nonempty (TrimSpace raw) &&
  match url_Parse raw with
  | None => false
  | Some u =>
      nonempty (u_Scheme u) && negb (ContainsByte raw "#"%char) &&
      negb (negb (nonempty (u_Opaque u)) && negb (nonempty (u_Host u)) && negb (nonempty (u_Path u))) &&
      negb (bool_decide (u_Scheme u ∈ ["http"; "https"]) && negb (nonempty (u_Host u)))
  end.

(** ** Discovery *)

Definition validateResourceSource (d : DiscoveryConfig) : bool :=
  match dc_ResourceURL d with
  | None => bool_decide (dc_ClientMethod d = "")
  | Some resource =>
      dc_EnableDiscovery d && bool_decide (dc_MetadataURL d = None) && ValidatePublicHTTPSURL resource
  end.

Definition ValidDiscoveryFailureCode (code : string) : bool :=
  let lower b := bool_decide (97 ≤ N_of_ascii b ≤ 122)%N in
  match bytes code with
  | [] => false
  | c :: l =>
      bool_decide (String.length code ≤ 64)%nat && lower c &&
      forallb (λ b, lower b || bool_decide (48 ≤ N_of_ascii b ≤ 57)%N || bool_decide (b = "_"%char)) l
  end.

Definition status_Validate (s : DiscoveryStatus) (resourceURL : option string) : bool :=
  match resourceURL with
  | None => bool_decide (ds_LastAttemptAt s = None ∧ ds_LastSuccessAt s = None ∧ ds_FailureReason s = None)
  | Some _ =>
      match ds_LastAttemptAt s, ds_LastSuccessAt s with
      | Some attempt, Some success =>
          match ds_FailureReason s with
          | None => bool_decide (attempt = success)
          | Some code => ValidDiscoveryFailureCode code && After attempt success
          end
      | _, _ => false
      end
  end.

Definition no_duplicate_resource_param (e : provider) : bool :=
  forallb (λ name, bool_decide (name = "resource") || negb (IsDiscoveryResourceParamName name))
    (param_names (auth_params e)).

Definition effective_resource_ok (e : provider) (resourceURL : string) : bool :=
  match auth_params e !! "resource" with
  | None => false
  | Some resource =>
      if pe_ResourceExplicit e then validateExplicitDiscoveryResource resource
      else bool_decide (resource = resourceURL)
  end.

Definition validateEffectiveDiscoveryResource (e : provider) : bool :=
  match dc_ResourceURL (pe_Discovery e) with
  | None => true
  | Some url => no_duplicate_resource_param e && effective_resource_ok e url
  end.

Definition validateStoredDiscoveryState (e : provider) : bool :=
  status_Validate (pe_DiscoveryStatus e) (dc_ResourceURL (pe_Discovery e)) && validateEffectiveDiscoveryResource e.

(** ** Client authentication *)

Definition AuthMethod_Validate (m : string) : bool :=
  bool_decide (m ∈ [""; AuthMethodNone; AuthMethodPrivateKeyJWT; AuthMethodClientSecretBasic; AuthMethodClientSecretPost]).
Definition is_dcr_secret_method (m : string) : bool :=
  bool_decide (m ∈ [AuthMethodClientSecretBasic; AuthMethodClientSecretPost]).

Definition ResolveClientRegistration (method : string) : string :=
  if decide (method = AuthMethodPrivateKeyJWT) then ClientRegistrationCIMD else ClientRegistrationStatic.

(** The validators that fill in omitted fields return the entity they leave behind. *)
Definition validateCredentialSource (e : provider) : option provider :=
  let e := if bool_decide (pe_CredentialSource e = "") && negb (pe_CredentialSourceProvided e)
           then set_pe_CredentialSource CredentialSourceStored e else e in
  if decide (pe_CredentialSource e = CredentialSourceStored) then Some e
  else if decide (pe_CredentialSource e = CredentialSourceFilesystem) then
    let d := pe_Discovery e in
    if nonempty (pe_TokenEndpointAuthMethod e) || bool_decide (pe_Flavor e = FlavorGoogle) ||
       bool_decide (is_Some (dc_ResourceURL d)) || nonempty (dc_ClientMethod d) then None
    else if bool_decide (pe_CanonicalID e = None) || pe_ClearCanonicalID e then None
    else if negb (ValidateCanonicalID (pe_CanonicalID e)) then None
    else if pe_ClientIDProvided e || pe_ClientSecretProvided e || nonempty (pe_ClientID e) ||
            negb (IsAbsent (pe_Secret e)) then None
    else Some e
  else None.

Definition validateClientRegistration (flavor : string) (e : provider) : option provider :=
  let e := if bool_decide (pe_ClientRegistration e = "") && negb (pe_ClientRegistrationProvided e)
           then set_pe_ClientRegistration (ResolveClientRegistration (pe_TokenEndpointAuthMethod e)) e else e in
  if negb (bool_decide (pe_ClientRegistration e ∈ [ClientRegistrationStatic; ClientRegistrationCIMD])) then None
  else if IsCIMDClient e then
    if bool_decide (flavor = FlavorGoogle) then None
    else if bool_decide (pe_CredentialSource e = CredentialSourceFilesystem) then None
    else if negb (IsCIMDConfidentialClient e) && negb (IsPublicClient e) then None
    else if bool_decide (dc_ClientMethod (pe_Discovery e) = ClientBootstrapDCR) then None
    else Some e
  else
    if IsCIMDConfidentialClient e then None
    else if bool_decide (dc_ClientMethod (pe_Discovery e) = ClientBootstrapCIMD) then None
    else Some e.

Definition validateDCRClientAuthentication (e : provider) : bool :=
  nonempty (pe_ClientID e) && bool_decide (pe_Flavor e ∈ [""; FlavorStandard]) &&
  (if is_dcr_secret_method (pe_TokenEndpointAuthMethod e) then negb (IsAbsent (pe_Secret e))
   else IsPublicClient e && IsAbsent (pe_Secret e)).

Definition ValidateStoredClientAuthentication (e : provider) : option provider :=
  e ← validateClientRegistration (pe_Flavor e) e;
  e ← validateCredentialSource e;
  if negb (AuthMethod_Validate (pe_TokenEndpointAuthMethod e)) then None
  else if negb (validateResourceSource (pe_Discovery e)) then None
  else if negb (validateStoredDiscoveryState e) then None
  else if bool_decide (pe_CredentialSource e = CredentialSourceFilesystem) then Some e
  else
    let method := dc_ClientMethod (pe_Discovery e) in
    let method_ok :=
      if decide (method = ClientBootstrapDCR) then validateDCRClientAuthentication e
      else if decide (method = ClientBootstrapCIMD) then IsCIMDConfidentialClient e
      else if decide (method = "") then negb (is_dcr_secret_method (pe_TokenEndpointAuthMethod e))
      else false in
    if negb method_ok then None
    else if xorb (IsPublicClient e || IsCIMDConfidentialClient e) (IsAbsent (pe_Secret e)) then None
    else if negb (IsAbsent (pe_Secret e)) && negb (IsEncrypted (pe_Secret e)) then None
    else Some e.

Definition validateSecretlessClientOutboundConfiguration (params : gmap string string) (tokenEndpoint : string) : bool :=
  forallb (λ name, negb (isClientCredentialParameter name)) (param_names params) &&
  (if decide (tokenEndpoint = "") then true
   else match url_Parse tokenEndpoint with
        | None => false
        | Some endpoint =>
            bool_decide (u_User endpoint = None) &&
            match url_ParseQuery (u_RawQuery endpoint) with
            | None => false
            | Some names => forallb (λ name, negb (isClientCredentialParameter name)) names
            end
        end).

Definition ValidateOutboundCredentials (e : provider) : option provider :=
  e ← (if nonempty (pe_CredentialSource e) || pe_CredentialSourceProvided e then validateCredentialSource e else Some e);
  if negb (IsPublicClient e) && negb (IsCIMDConfidentialClient e) then Some e
  else if validateSecretlessClientOutboundConfiguration (auth_params e) (ep_TokenEndpoint (pe_Endpoints e)) then Some e
  else None.

(** The entity and whether the client is a public one. *)
Definition validateClientAuthentication (flavor : string) (e : provider) : option (provider * bool) :=
  e ← validateClientRegistration flavor e;
  e ← validateCredentialSource e;
  if negb (AuthMethod_Validate (pe_TokenEndpointAuthMethod e)) then None
  else if bool_decide (pe_CredentialSource e = CredentialSourceFilesystem) then Some (e, false)
  else if is_dcr_secret_method (pe_TokenEndpointAuthMethod e) &&
          (negb (bool_decide (dc_ClientMethod (pe_Discovery e) = ClientBootstrapDCR)) ||
           bool_decide (dc_ResourceURL (pe_Discovery e) = None)) then None
  else if IsCIMDClient e then
    if negb (IsAbsent (pe_Secret e)) || nonempty (pe_ClientID e) then None else Some (e, IsPublicClient e)
  else if IsPublicClient e then
    if bool_decide (flavor = FlavorGoogle) || negb (IsAbsent (pe_Secret e)) || negb (nonempty (pe_ClientID e)) then None
    else Some (e, true)
  else if IsAbsent (pe_Secret e) then None
  else Some (e, false).

Definition validateDiscoverySelection (e : provider) : bool :=
  let d := pe_Discovery e in
  let ep := pe_Endpoints e in
  validateResourceSource d &&
  match dc_ResourceURL d with
  | None => true
  | Some url =>
      (if decide (dc_ClientMethod d = ClientBootstrapCIMD) then
         IsCIMDConfidentialClient e && IsAbsent (pe_Secret e) && negb (nonempty (pe_ClientID e))
       else if decide (dc_ClientMethod d = ClientBootstrapDCR) then validateDCRClientAuthentication e
       else false) &&
      validateDiscoveryIssuer (pe_IssuerURI e) && validateDiscoveredURL (ep_AuthorizeEndpoint ep) &&
      validateDiscoveredURL (ep_TokenEndpoint ep) &&
      (negb (nonempty (ep_JWKsURI ep)) || validateDiscoveredURL (ep_JWKsURI ep)) &&
      match url_Parse (ep_TokenEndpoint ep) ≫= (λ u, url_ParseQuery (u_RawQuery u)) with
      | None => false
      | Some names => forallb (λ name, negb (IsDiscoveryResourceParamName name)) names
      end &&
      effective_resource_ok e url
  end.

(** ** Protected resources *)

Definition NormalizeAndValidateProtectedResource (resourceURI : string) : option string :=
  let normalized := NormalizeResourceURI resourceURI in
  if decide (normalized = "") then None
  else match url_Parse normalized with
       | None => None
       | Some parsed => if nonempty (u_Scheme parsed) && nonempty (u_Host parsed) then Some normalized else None
       end.

(** The loop that collects the normalized resources; a repeated one is an error. *)
Fixpoint normalized_resources (seen : gset string) (resources : list string) : option (gset string) :=
  match resources with
  | [] => Some seen
  | uri :: resources =>
      match NormalizeAndValidateProtectedResource uri with
      | None => None
      | Some r => if decide (r ∈ seen) then None else normalized_resources ({[r]} ∪ seen) resources
      end
  end.
Definition normalizedResourceSet (resources : list string) : option (gset string) := normalized_resources ∅ resources.
Definition ValidateProtectedResources (e : provider) : bool :=
  bool_decide (is_Some (normalizedResourceSet (pe_ProtectedResources e))).

(** ** Create and update *)

Definition validateIssuerURIAgainstTokenURI (issuerURI tokenURI : string) : bool :=
  match url_Parse issuerURI, url_Parse tokenURI with
  | Some issuer, Some token =>
      bool_decide (u_Scheme issuer +:+ "://" +:+ u_Host issuer = u_Scheme token +:+ "://" +:+ u_Host token)
  | _, _ => false
  end.

Definition enrichForGoogleFlavor (credential : string) (e : provider) : option provider :=
  gsk ← ParseGoogleServiceAccountKey credential;
  let endpoints := MkEndpoints (gsk_TokenURI gsk) googleOAuthAuthURL "" in
  if nonempty (pe_IssuerURI e) then
    if validateIssuerURIAgainstTokenURI (pe_IssuerURI e) (gsk_TokenURI gsk)
    then Some (set_google (gsk_ClientID gsk) endpoints (pe_IssuerURI e) e) else None
  else match url_Parse (gsk_TokenURI gsk) with
  | None => None
  | Some parsed =>
      if nonempty (u_Scheme parsed) && nonempty (u_Host parsed)
      then Some (set_google (gsk_ClientID gsk) endpoints (u_Scheme parsed +:+ "://" +:+ u_Host parsed) e)
      else None
  end.

Definition display_name_ok (e : provider) : bool :=
  nonempty (pe_DisplayName e) && bool_decide (String.length (pe_DisplayName e) ≤ 255)%nat.

Definition effective_flavor (e : provider) : string := if decide (pe_Flavor e = "") then FlavorStandard else pe_Flavor e.
Definition flavor_Validate (f : string) : bool := bool_decide (f ∈ [FlavorStandard; FlavorGoogle; FlavorGitHub]).

(** The switch on the flavor; the standard ones need a client, an issuer and endpoints. *)
Definition validate_flavor (skip isPublicOrCIMD : bool) (credential : string) (needCredential : bool) (e : provider)
    : option provider :=
  let filesystem := bool_decide (pe_CredentialSource e = CredentialSourceFilesystem) in
  let ep := pe_Endpoints e in
  if decide (effective_flavor e = FlavorGoogle) then enrichForGoogleFlavor credential e
  else
    if negb (nonempty (pe_ClientID e)) && negb (IsCIMDClient e) && negb filesystem then None
    else if needCredential && negb isPublicOrCIMD && negb filesystem && negb (nonempty credential) then None
    else if negb (nonempty (pe_IssuerURI e)) || negb (isAllowedHTTPSScheme (pe_IssuerURI e) skip) then None
    else if negb (dc_EnableDiscovery (pe_Discovery e)) &&
            (negb (nonempty (ep_TokenEndpoint ep)) || negb (nonempty (ep_AuthorizeEndpoint ep))) then None
    else if nonempty (ep_TokenEndpoint ep) && negb (isAllowedHTTPSScheme (ep_TokenEndpoint ep) skip) then None
    else if nonempty (ep_AuthorizeEndpoint ep) && negb (isAllowedHTTPSScheme (ep_AuthorizeEndpoint ep) skip) then None
    else Some e.

(** The checks after the flavor. *)
Definition validate_remainder (skip : bool) (e : provider) : option provider :=
  if negb match dc_MetadataURL (pe_Discovery e) with Some url => isAllowedHTTPSScheme url skip | None => true end then None
  else if negb (forallb scope_Validate (pe_Scopes e)) then None
  else if negb (ValidateProtectedResources e) then None
  else if negb (validateAuthorizationParams (auth_params e)) then None
  else ValidateOutboundCredentials e.

Definition ValidateForCreate (skip : bool) (e : provider) : option provider :=
  let e := set_pe_CredentialSourceTransitioned false e in
  if negb (validateDiscoverySelection e) then None
  else if negb (ValidateCanonicalID (pe_CanonicalID e)) then None
  else if negb (display_name_ok e) then None
  else
    '(e, isPublicClient) ← validateClientAuthentication (effective_flavor e) e;
    if negb (flavor_Validate (effective_flavor e)) then None
    else
      let secretless := isPublicClient || IsCIMDClient e in
      credential ←
        (if secretless || bool_decide (pe_CredentialSource e = CredentialSourceFilesystem) then Some ""
         else if negb (IsPlaintext (pe_Secret e)) then None else GetPlaintext (pe_Secret e));
      e ← validate_flavor skip secretless credential true e;
      validate_remainder skip e.

Definition ValidateForUpdate (skip : bool) (e : provider) : option provider :=
  if negb (validateDiscoverySelection e) then None
  else if negb (ValidateCanonicalID (pe_CanonicalID e)) then None
  else if negb (nonzero_id (pe_ID e)) then None
  else if negb (display_name_ok e) then None
  else
    '(e, isPublicClient) ← validateClientAuthentication (effective_flavor e) e;
    if negb (flavor_Validate (effective_flavor e)) then None
    else
      let secretless := isPublicClient || IsCIMDClient e in
      credential ←
        (if secretless || bool_decide (pe_CredentialSource e = CredentialSourceFilesystem) then Some ""
         else if IsPlaintext (pe_Secret e) then GetPlaintext (pe_Secret e)
         else if bool_decide (dc_ClientMethod (pe_Discovery e) = ClientBootstrapDCR) && IsEncrypted (pe_Secret e)
         then match GetCiphertext (pe_Secret e) with Some _ => Some "" | None => None end
         else None);
      e ← validate_flavor skip secretless credential false e;
      validate_remainder skip e.

End validation.
