(* ===== verification/ProviderStore.v ===== *)
(** * The repository of third-party services

    internal/adapters/storage/memory/thirdparty_provider.go and thirdparty_provider_record.go:
    one function per critical section.  The repository is bound to the one of user sessions
    ([WithUserSessionRepository]): the number of a service's sessions is an argument of the
    operations that ask for it, [None] when no session repository is bound. *)

From S2P Require Import Prelude ToolApproval ApprovalStore ApprovalHandlers OAuthSessions UserGrants Consent UriValidation NetPolicy UniqueIndex BrokerErrors Providers.

Abbreviation dcrClientIdentity := (string * string)%type (only parsing).

Definition providerDCRIdentity (e : provider) : option dcrClientIdentity :=
  if decide (dc_ClientMethod (pe_Discovery e) = ClientBootstrapDCR) then Some (pe_IssuerURI e, pe_ClientID e) else None.

(** [pr_providers] holds the records; the protected resources are in [pr_resources]. *)
Record ProviderRepository := ProviderRepo {
  pr_providers : gmap ServiceID provider;
  canonicalIndex : gmap string ServiceID;
  dcrIndex : gmap dcrClientIdentity ServiceID;
  pr_resources : gmap ServiceID (gset string);
  resourceOwners : gmap string ServiceID;
}.
Definition NewProviderRepository : ProviderRepository := ProviderRepo ∅ ∅ ∅ ∅ ∅.

Inductive pstore_error :=
  | PStorage (k : ErrorKind)
  | ErrDuplicateDCRClientIdentity
  | ErrProtectedResourceOwned
  | ErrIssuerChangeHasSessions
  | ErrResourceChangeHasSessions.
#[export] Instance pstore_error_eq_dec : EqDecision pstore_error.
Proof. solve_decision. Defined.

Definition resourceSetSlice (resources : gset string) : list string := merge_sort String.le (elements resources).

(** *** Records *)

(** What is kept of an entity: the request flags are reset and the child set is elsewhere. *)
Definition set_stored (source : string) (secret : Secret) (e : provider) : provider :=
  {| pe_ID := pe_ID e; pe_CanonicalID := pe_CanonicalID e; pe_ClearCanonicalID := false;
     pe_DisplayName := pe_DisplayName e; pe_ClientID := pe_ClientID e; pe_Secret := secret;
     pe_CredentialSource := source; pe_CredentialSourceTransitioned := pe_CredentialSourceTransitioned e;
     pe_CredentialSourceProvided := false; pe_ClientRegistration := pe_ClientRegistration e;
     pe_ClientRegistrationProvided := false; pe_ClientIDProvided := false; pe_ClientSecretProvided := false;
     pe_TokenEndpointAuthMethod := pe_TokenEndpointAuthMethod e; pe_Flavor := pe_Flavor e;
     pe_IssuerURI := pe_IssuerURI e; pe_Discovery := pe_Discovery e; pe_Endpoints := pe_Endpoints e;
     pe_Scopes := pe_Scopes e; pe_AuthorizationParams := pe_AuthorizationParams e;
     pe_ResourceExplicit := pe_ResourceExplicit e; pe_DiscoveryStatus := pe_DiscoveryStatus e;
     pe_ProtectedResources := []; pe_Version := pe_Version e; pe_ServiceRequirements := pe_ServiceRequirements e;
     pe_CreatedAt := pe_CreatedAt e; pe_UpdatedAt := pe_UpdatedAt e |}.

Section store.
Context `{GoURL} `{GoNet} `{UUID} `{ProviderParsers}.

Definition providerEntityToRecord (e : provider) : option provider :=
  e ← ValidateStoredClientAuthentication e;
  let source := if bool_decide (pe_CredentialSource e = "") && negb (pe_CredentialSourceProvided e)
                then CredentialSourceStored else pe_CredentialSource e in
  if bool_decide (source = CredentialSourceStored) && negb (nonempty (pe_ClientID e)) then None
  else if bool_decide (source = CredentialSourceFilesystem) &&
          negb (bool_decide (pe_Flavor e ∈ [""; FlavorStandard; FlavorGitHub])) then None
  else
    secret ← (if IsAbsent (pe_Secret e) then Some NewAbsentSecret else NewEncryptedSecret <$> GetCiphertext (pe_Secret e));
    Some (set_stored source secret e).

Definition providerRecordToEntity (e : provider) (resources : option (gset string)) : provider :=
  set_pe_ProtectedResources (resourceSetSlice (default ∅ resources)) e.

(** A resource of the set that another service owns. *)
Definition resources_owned_by_other (resources : gset string) (i : ServiceID) (r : ProviderRepository) : bool :=
  existsb (λ resource, held_by_other (resourceOwners r) resource i) (elements resources).

(** *** Create, read, delete *)

Definition set_created (resources : gset string) (e : provider) : provider :=
  set_pe_Version 1 (set_pe_ProtectedResources (resourceSetSlice resources) e).

Definition provider_Create (entity : provider) (r : ProviderRepository) : ProviderRepository * result pstore_error provider :=
  if negb (nonzero_id (pe_ID entity)) then (r, Err (PStorage KValidation))
  else match normalizedResourceSet (pe_ProtectedResources entity) with
  | None => (r, Err (PStorage KValidation))
  | Some resources =>
      let i := pe_ID entity in
      if bool_decide (is_Some (pr_providers r !! i)) then (r, Err (PStorage KConflict))
      else if match pe_CanonicalID entity with
              | Some c => bool_decide (is_Some (canonicalIndex r !! c)) | None => false end
      then (r, Err (PStorage KConflict))
      else if match providerDCRIdentity entity with
              | Some d => bool_decide (is_Some (dcrIndex r !! d)) | None => false end
      then (r, Err ErrDuplicateDCRClientIdentity)
      else if resources_owned_by_other resources i r then (r, Err ErrProtectedResourceOwned)
      else match providerEntityToRecord (set_created resources entity) with
      | None => (r, Err (PStorage KValidation))
      | Some record =>
          let record := set_pe_CredentialSourceTransitioned false record in
          (ProviderRepo (<[i := record]> (pr_providers r))
             (index_set (pe_CanonicalID entity) i (canonicalIndex r))
             (index_set (providerDCRIdentity record) i (dcrIndex r))
             (<[i := resources]> (pr_resources r))
             (index_set_all (elements resources) i (resourceOwners r)),
           Ok (set_pe_CredentialSourceTransitioned false
                 (set_pe_ClientRegistration (pe_ClientRegistration record)
                    (set_pe_CredentialSource (pe_CredentialSource record) (set_created resources entity)))))
      end
  end.

Definition provider_Get (i : ServiceID) (r : ProviderRepository) : result pstore_error provider :=
  match pr_providers r !! i with
  | Some e => Ok (providerRecordToEntity e (pr_resources r !! i))
  | None => Err (PStorage KNotFound)
  end.

Fixpoint providers_by_ids (seen : gset ServiceID) (ids : list ServiceID) (r : ProviderRepository) : list provider :=
  match ids with
  | [] => []
  | i :: ids =>
      match pr_providers r !! i with
      | Some e => if decide (i ∈ seen) then providers_by_ids seen ids r
                  else providerRecordToEntity e (pr_resources r !! i) :: providers_by_ids ({[i]} ∪ seen) ids r
      | None => providers_by_ids seen ids r
      end
  end.
Definition provider_GetByIDs (ids : list ServiceID) (r : ProviderRepository) : list provider := providers_by_ids ∅ ids r.

(** [Ok None] is a nil entity, for an index entry that names no record. *)
Definition provider_GetByCanonicalID (c : string) (r : ProviderRepository) : result pstore_error (option provider) :=
  match canonicalIndex r !! c with
  | Some i => Ok ((λ e, providerRecordToEntity e (pr_resources r !! i)) <$> pr_providers r !! i)
  | None => Err (PStorage KNotFound)
  end.

Definition provider_GetCanonicalIDs (ids : list ServiceID) (r : ProviderRepository) : gmap ServiceID string :=
  list_to_map (omap (λ i, c ← pr_providers r !! i ≫= pe_CanonicalID; Some (i, c)) ids).

(** In the map's visiting order. *)
Definition provider_List (r : ProviderRepository) : list provider :=
  (λ '(i, e), providerRecordToEntity e (pr_resources r !! i)) <$> map_to_list (pr_providers r).

Definition provider_Delete (sessions : option nat) (i : ServiceID) (r : ProviderRepository)
    : ProviderRepository * result pstore_error unit :=
  if bool_decide (is_Some (pr_providers r !! i)) && match sessions with Some n => negb (bool_decide (n = 0)) | None => false end
  then (r, Err (PStorage KConflict))
  else
    let record := pr_providers r !! i in
    (ProviderRepo (delete i (pr_providers r))
       (index_clear (record ≫= pe_CanonicalID) (canonicalIndex r))
       (index_clear (record ≫= providerDCRIdentity) (dcrIndex r))
       (delete i (pr_resources r))
       (index_clear_all (elements (default ∅ (pr_resources r !! i))) (resourceOwners r)), Ok ()).

(** *** Update *)

(** [t.Truncate(time.Microsecond)] *)
Definition Truncate_us (t : time) : time := (t - t `mod` 1000)%Z.

(** A discovery result that is not newer than the last attempt on record. *)
Definition stale_attempt (entity existing : provider) : bool :=
  match dc_ResourceURL (pe_Discovery entity), ds_LastAttemptAt (pe_DiscoveryStatus entity),
        ds_LastAttemptAt (pe_DiscoveryStatus existing) with
  | Some _, Some attempt, Some lastAttempt => negb (After (Truncate_us attempt) (Truncate_us lastAttempt))
  | _, _, _ => false
  end.

(** The audience the update would leave in force: whether it was pinned by the
    administrator, whether it follows the resource URL, and its value. *)
Record audience := Audience { au_explicit : bool; au_derive : bool; au_resource : string }.

Definition proposed_audience (entity existing : provider) : audience :=
  let params := match pe_AuthorizationParams entity with Some m => m | None => auth_params existing end in
  let explicit := match pe_AuthorizationParams entity with
                  | Some _ => pe_ResourceExplicit entity | None => pe_ResourceExplicit existing end in
  match dc_ResourceURL (pe_Discovery entity) with
  | None => Audience false false (default "" (params !! "resource"))
  | Some url =>
      let derived e := Audience e true url in
      let kept e := Audience e false (default "" (params !! "resource")) in
      match pe_AuthorizationParams entity with
      | None => if explicit then kept true else derived false
      | Some m => match m !! "resource" with None => derived false | Some _ => kept explicit end
      end
  end.

(** A change of issuer or audience that user sessions stand in the way of. *)
Definition session_conflict (sessions : option nat) (entity existing : provider) (au : audience) : option pstore_error :=
  let issuerChanged := negb (bool_decide (pe_IssuerURI entity = pe_IssuerURI existing)) in
  let resourceChanged := negb (bool_decide (au_resource au = auth_resource existing)) in
  if (issuerChanged || resourceChanged) &&
     (bool_decide (is_Some (dc_ResourceURL (pe_Discovery existing))) ||
      bool_decide (is_Some (dc_ResourceURL (pe_Discovery entity))))
  then match sessions with
       | None => Some (PStorage KConflict)
       | Some 0 => None
       | Some _ => Some (if issuerChanged then ErrIssuerChangeHasSessions else ErrResourceChangeHasSessions)
       end
  else None.

Definition proposed_canonical (entity existing : provider) : option string :=
  if pe_ClearCanonicalID entity then None
  else match pe_CanonicalID entity with Some c => Some c | None => pe_CanonicalID existing end.

Definition previous_source (existing : provider) : string :=
  if decide (pe_CredentialSource existing = "") then CredentialSourceStored else pe_CredentialSource existing.

Definition proposed_params (entity existing : provider) (au : audience) : option (gmap string string) :=
  let base := match pe_AuthorizationParams entity with Some m => Some m | None => pe_AuthorizationParams existing end in
  if au_derive au then Some (<["resource" := au_resource au]> (default ∅ base)) else base.

Definition proposed_entity (entity existing : provider) (au : audience) (resources : gset string) : provider :=
  let source := if bool_decide (pe_CredentialSource entity = "") && negb (pe_CredentialSourceProvided entity)
                then previous_source existing else pe_CredentialSource entity in
  let e := entity in
  {| pe_ID := pe_ID e; pe_CanonicalID := proposed_canonical entity existing;
     pe_ClearCanonicalID := pe_ClearCanonicalID e; pe_DisplayName := pe_DisplayName e; pe_ClientID := pe_ClientID e;
     pe_Secret := pe_Secret e; pe_CredentialSource := source;
     pe_CredentialSourceTransitioned := pe_CredentialSourceTransitioned e;
     pe_CredentialSourceProvided := pe_CredentialSourceProvided e; pe_ClientRegistration := pe_ClientRegistration e;
     pe_ClientRegistrationProvided := pe_ClientRegistrationProvided e; pe_ClientIDProvided := pe_ClientIDProvided e;
     pe_ClientSecretProvided := pe_ClientSecretProvided e;
     pe_TokenEndpointAuthMethod := pe_TokenEndpointAuthMethod e; pe_Flavor := pe_Flavor e;
     pe_IssuerURI := pe_IssuerURI e; pe_Discovery := pe_Discovery e; pe_Endpoints := pe_Endpoints e;
     pe_Scopes := pe_Scopes e; pe_AuthorizationParams := proposed_params entity existing au;
     pe_ResourceExplicit := au_explicit au; pe_DiscoveryStatus := pe_DiscoveryStatus e;
     pe_ProtectedResources := resourceSetSlice resources; pe_Version := (pe_Version existing + 1)%Z;
     pe_ServiceRequirements := pe_ServiceRequirements e; pe_CreatedAt := pe_CreatedAt existing;
     pe_UpdatedAt := pe_UpdatedAt e |}.

Definition provider_Update (sessions : option nat) (entity : provider) (expectedVersion : option Z) (r : ProviderRepository)
    : ProviderRepository * result pstore_error provider :=
  let i := pe_ID entity in
  match pr_providers r !! i with
  | None => (r, Err (PStorage KNotFound))
  | Some existing =>
      if match expectedVersion with Some v => negb (bool_decide (pe_Version existing = v)) | None => false end
      then (r, Err (PStorage KConflict))
      else if stale_attempt entity existing then (r, Err (PStorage KConflict))
      else
        let au := proposed_audience entity existing in
        match session_conflict sessions entity existing au with
        | Some e => (r, Err e)
        | None =>
            let canonicalID := proposed_canonical entity existing in
            if match canonicalID with Some c => held_by_other (canonicalIndex r) c i | None => false end
            then (r, Err (PStorage KConflict))
            else if match providerDCRIdentity entity with Some d => held_by_other (dcrIndex r) d i | None => false end
            then (r, Err ErrDuplicateDCRClientIdentity)
            else
              let current := default ∅ (pr_resources r !! i) in
              match (if decide (is_Some expectedVersion) then normalizedResourceSet (pe_ProtectedResources entity)
                     else Some current) with
              | None => (r, Err (PStorage KValidation))
              | Some resources =>
                  if bool_decide (is_Some expectedVersion) && resources_owned_by_other resources i r
                  then (r, Err ErrProtectedResourceOwned)
                  else
                    let proposed := proposed_entity entity existing au resources in
                    match providerEntityToRecord proposed with
                    | None => (r, Err (PStorage KValidation))
                    | Some record =>
                        let transitioned := pe_CredentialSourceTransitioned existing ||
                          negb (bool_decide (previous_source existing = pe_CredentialSource record)) in
                        let record := set_pe_CredentialSourceTransitioned transitioned record in
                        (ProviderRepo (<[i := record]> (pr_providers r))
                           (index_set canonicalID i (index_clear (pe_CanonicalID existing) (canonicalIndex r)))
                           (index_set (providerDCRIdentity record) i (index_clear (providerDCRIdentity existing) (dcrIndex r)))
                           (if decide (is_Some expectedVersion) then <[i := resources]> (pr_resources r) else pr_resources r)
                           (if decide (is_Some expectedVersion)
                            then index_set_all (elements resources) i (index_clear_all (elements current) (resourceOwners r))
                            else resourceOwners r),
                         Ok (set_pe_CredentialSourceTransitioned transitioned
                               (set_pe_ClientRegistration (pe_ClientRegistration record)
                                  (set_pe_CredentialSource (pe_CredentialSource record) proposed))))
                    end
              end
        end
  end.

(** *** Protected resources *)

Record ProtectedResourceMutationResult := MutationResult {
  mr_Resource : string;
  mr_ProtectedResources : list string;
  mr_Version : Z;
  mr_Changed : bool;
}.

Definition mutation_result (i : ServiceID) (e : provider) (resource : string) (changed : bool) (resources : gset string)
    : ProtectedResourceMutationResult :=
  MutationResult resource (resourceSetSlice resources) (pe_Version e) changed.

Definition bump_version (e : provider) : provider := set_pe_Version (pe_Version e + 1)%Z e.

(** Replace the child set and the owners of a service, and count a version. *)
Definition set_resources (i : ServiceID) (e : provider) (resources : gset string) (owners : gmap string ServiceID)
    (r : ProviderRepository) : ProviderRepository :=
  ProviderRepo (<[i := bump_version e]> (pr_providers r)) (canonicalIndex r) (dcrIndex r)
    (<[i := resources]> (pr_resources r)) owners.

Definition provider_FindByProtectedResource (resourceURI : string) (r : ProviderRepository)
    : result TokenExchangeError (option provider) :=
  if decide (resourceURI = "") then
    Err (WithDiagnostic (NewDiagnostic StageRequestValidation DetailResourceMissing)
           (NewInvalidRequestError "resource parameter cannot be empty"))
  else match NormalizeAndValidateProtectedResource resourceURI with
  | None => Err (WithDiagnostic (NewDiagnostic StageRequestValidation DetailRequestMalformed)
                   (WithCause EText (NewInvalidRequestError "resource parameter is invalid")))
  | Some resource =>
      match resourceOwners r !! resource with
      | None => Err NewResourceUnregisteredError
      | Some owner => Ok ((λ e, providerRecordToEntity e (pr_resources r !! owner)) <$> pr_providers r !! owner)
      end
  end.

Definition AddProtectedResource (i : ServiceID) (resourceURI : string) (r : ProviderRepository)
    : ProviderRepository * result pstore_error ProtectedResourceMutationResult :=
  match NormalizeAndValidateProtectedResource resourceURI with
  | None => (r, Err (PStorage KValidation))
  | Some resource =>
      match pr_providers r !! i with
      | None => (r, Err (PStorage KNotFound))
      | Some e =>
          let current := default ∅ (pr_resources r !! i) in
          match resourceOwners r !! resource with
          | Some owner =>
              if decide (owner ≠ i) then (r, Err (PStorage KConflict))
              else (r, Ok (mutation_result i e resource false current))
          | None =>
              let resources := {[resource]} ∪ current in
              (set_resources i e resources (<[resource := i]> (resourceOwners r)) r,
               Ok (mutation_result i (bump_version e) resource true resources))
          end
      end
  end.

Definition RemoveProtectedResource (i : ServiceID) (resourceURI : string) (r : ProviderRepository)
    : ProviderRepository * result pstore_error ProtectedResourceMutationResult :=
  match NormalizeAndValidateProtectedResource resourceURI with
  | None => (r, Err (PStorage KValidation))
  | Some resource =>
      match pr_providers r !! i with
      | None => (r, Err (PStorage KNotFound))
      | Some e =>
          if negb (bool_decide (resourceOwners r !! resource = Some i)) then (r, Err (PStorage KNotFound))
          else
            let resources := default ∅ (pr_resources r !! i) ∖ {[resource]} in
            (set_resources i e resources (delete resource (resourceOwners r)) r,
             Ok (mutation_result i (bump_version e) resource true resources))
      end
  end.

Definition RenameProtectedResource (i : ServiceID) (fromURI toURI : string) (r : ProviderRepository)
    : ProviderRepository * result pstore_error ProtectedResourceMutationResult :=
  match NormalizeAndValidateProtectedResource fromURI, NormalizeAndValidateProtectedResource toURI with
  | Some from, Some to =>
      match pr_providers r !! i with
      | None => (r, Err (PStorage KNotFound))
      | Some e =>
          let current := default ∅ (pr_resources r !! i) in
          if negb (bool_decide (resourceOwners r !! from = Some i)) then (r, Err (PStorage KNotFound))
          else if decide (from = to) then (r, Ok (mutation_result i e to false current))
          else if bool_decide (is_Some (resourceOwners r !! to)) then (r, Err (PStorage KConflict))
          else
            let resources := {[to]} ∪ (current ∖ {[from]}) in
            (set_resources i e resources (<[to := i]> (delete from (resourceOwners r))) r,
             Ok (mutation_result i (bump_version e) to true resources))
      end
  | _, _ => (r, Err (PStorage KValidation))
  end.

Definition ListProtectedResources (i : ServiceID) (r : ProviderRepository) : result pstore_error (list string * Z) :=
  match pr_providers r !! i with
  | None => Err (PStorage KNotFound)
  | Some e => Ok (resourceSetSlice (default ∅ (pr_resources r !! i)), pe_Version e)
  end.

(** *** Discovery failures *)

Definition RecordDiscoveryFailure (i : ServiceID) (expectedVersion : Z) (completedAt : time) (failureCode : string)
    (r : ProviderRepository) : ProviderRepository * result pstore_error unit :=
  if negb (ValidDiscoveryFailureCode failureCode) then (r, Err (PStorage KValidation))
  else match pr_providers r !! i with
  | None => (r, Err (PStorage KNotFound))
  | Some e =>
      if negb (bool_decide (pe_Version e = expectedVersion)) || bool_decide (dc_ResourceURL (pe_Discovery e) = None)
      then (r, Err (PStorage KConflict))
      else match ds_LastAttemptAt (pe_DiscoveryStatus e), ds_LastSuccessAt (pe_DiscoveryStatus e) with
      | Some attempt, Some success =>
          if After (Truncate_us completedAt) (Truncate_us attempt) && After (Truncate_us completedAt) (Truncate_us success)
          then (ProviderRepo (<[i := set_pe_DiscoveryStatus (MkStatus (Some completedAt) (Some success) (Some failureCode)) e]>
                                (pr_providers r))
                  (canonicalIndex r) (dcrIndex r) (pr_resources r) (resourceOwners r), Ok ())
          else (r, Err (PStorage KConflict))
      | _, _ => (r, Err (PStorage KConflict))
      end
  end.

End store.
