(* ===== verification/ProviderStoreFacts.v ===== *)
(** * Facts about the repository of third-party services

    The invariant of the repository and its preservation, what is at rest of a client
    secret, the one owner of a protected resource, and the version counter. *)

From S2P Require Import Prelude ToolApproval ApprovalStore ApprovalHandlers OAuthSessions UserGrants Consent UriValidation NetPolicy UniqueIndex BrokerErrors Providers ProviderStore.

(** ** Records at rest *)

(** A stored record: its secret is absent or ciphertext; a client without a secret is one
    whose method needs none, or one whose credentials are files. *)
Record stored_ok (e : provider) : Prop := {
  so_resources : pe_ProtectedResources e = [];
  so_secret : pe_Secret e = NewAbsentSecret ∨ ∃ c, c ≠ "" ∧ pe_Secret e = NewEncryptedSecret c;
  so_source : pe_CredentialSource e ∈ [CredentialSourceStored; CredentialSourceFilesystem];
  so_stored : pe_CredentialSource e = CredentialSourceStored →
    pe_ClientID e ≠ "" ∧
    (pe_Secret e = NewAbsentSecret ↔ IsPublicClient e = true ∨ IsCIMDConfidentialClient e = true);
  so_filesystem : pe_CredentialSource e = CredentialSourceFilesystem →
    pe_Secret e = NewAbsentSecret ∧ pe_ClientID e = "" ∧ is_Some (pe_CanonicalID e);
  so_registration : IsCIMDConfidentialClient e = true → IsCIMDClient e = true;
}.

Section facts.
Context {GU : GoURL} {GN : GoNet} {UU : UUID} {PP : ProviderParsers}.

Lemma validateCredentialSource_set e e' : validateCredentialSource e = Some e' →
  ∃ v, e' = set_pe_CredentialSource v e ∧
    (v = CredentialSourceStored ∨
     v = CredentialSourceFilesystem ∧ pe_ClientID e = "" ∧ IsAbsent (pe_Secret e) = true ∧ is_Some (pe_CanonicalID e) ∧
     pe_TokenEndpointAuthMethod e = "").
Proof.
  unfold validateCredentialSource.
  set (v := if bool_decide (pe_CredentialSource e = "") && negb (pe_CredentialSourceProvided e)
            then CredentialSourceStored else pe_CredentialSource e).
  assert ((if bool_decide (pe_CredentialSource e = "") && negb (pe_CredentialSourceProvided e)
           then set_pe_CredentialSource CredentialSourceStored e else e) = set_pe_CredentialSource v e) as ->.
  { subst v. case_match; [done |]. by destruct e. }
  intros Hv. exists v. revert Hv. cbn [pe_CredentialSource set_pe_CredentialSource].
  case_decide as Hs. { intros [= <-]. split; [done |]. by left. }
  case_decide as Hf; [| done]. simpl.
  destruct (nonempty (pe_TokenEndpointAuthMethod e)) eqn:Hm; [done |]. simpl.
  repeat (case_match; [done |]). intros [= <-]. split; [done |]. right. breflect.
  repeat match goal with H : (_ || _) = false |- _ => apply orb_false_iff in H as [? ?] end. breflect.
  unfold nonempty in *. breflect. split_and!; try done.
  destruct (pe_CanonicalID e); [by eexists | done].
Qed.

Lemma validateClientRegistration_set f e e' : validateClientRegistration f e = Some e' →
  ∃ v, e' = set_pe_ClientRegistration v e ∧ (IsCIMDConfidentialClient e = true → v = ClientRegistrationCIMD).
Proof.
  unfold validateClientRegistration.
  set (v := if bool_decide (pe_ClientRegistration e = "") && negb (pe_ClientRegistrationProvided e)
            then ResolveClientRegistration (pe_TokenEndpointAuthMethod e) else pe_ClientRegistration e).
  assert ((if bool_decide (pe_ClientRegistration e = "") && negb (pe_ClientRegistrationProvided e)
           then set_pe_ClientRegistration (ResolveClientRegistration (pe_TokenEndpointAuthMethod e)) e else e)
          = set_pe_ClientRegistration v e) as ->.
  { subst v. case_match; [done |]. by destruct e. }
  intros Hv. exists v. revert Hv. case_match; [done |].
  destruct (IsCIMDClient (set_pe_ClientRegistration v e)) eqn:Hc.
  - repeat (case_match; [done |]). intros [= <-]. split; [done |]. intros _.
    unfold IsCIMDClient in Hc. by breflect.
  - destruct (IsCIMDConfidentialClient (set_pe_ClientRegistration v e)) eqn:Hk; [done |].
    case_match; [done |]. intros [= <-]. split; [done |]. unfold IsCIMDConfidentialClient in *. simpl in Hk. congruence.
Qed.

(** What becomes of an accepted entity. *)
Lemma providerEntityToRecord_spec e record : providerEntityToRecord e = Some record →
  ∃ source registration secret,
    record = set_stored source secret (set_pe_CredentialSource source (set_pe_ClientRegistration registration e)) ∧
    stored_ok record.
Proof.
  unfold providerEntityToRecord, ValidateStoredClientAuthentication.
  destruct (validateClientRegistration (pe_Flavor e) e) as [e1 |] eqn:H1; [| done]. simpl.
  destruct (validateCredentialSource e1) as [e2 |] eqn:H2; [| done]. simpl.
  apply validateClientRegistration_set in H1 as (reg & -> & Hreg).
  apply validateCredentialSource_set in H2 as (src & -> & Hsrc). simpl in Hsrc.
  case_match; [done |]. case_match; [done |]. case_match; [done |]. simpl pe_CredentialSource.
  destruct (bool_decide (src = CredentialSourceFilesystem)) eqn:Hfs; breflect.
  - subst src. destruct Hsrc as [? | (_ & Hid & Habs & Hcan & Hm)]; [done |]. simpl. rewrite Habs.
    destruct (bool_decide (pe_Flavor e ∈ _)); simpl; [| done].
    intros [= <-]. eexists _, _, _. split; [done |].
    split; simpl; [done | by left | set_solver | done | done |].
    unfold IsCIMDConfidentialClient. simpl. by rewrite Hm.
  - destruct Hsrc as [-> | [? _]]; [| done].
    match goal with |- context [if negb ?m then None else _] => destruct (negb m); [done |] end.
    destruct (xorb _ _) eqn:Hx; [done |]. apply xorb_eq in Hx.
    match goal with |- context [if ?b && ?c then None else _] => destruct (b && c); [done |] end. simpl.
    unfold nonempty. case_bool_decide as Hid; [done |]. simpl.
    simpl in Hx. destruct (IsAbsent (pe_Secret e)) eqn:Habs; simpl.
    + intros [= <-]. eexists _, _, _. split; [done |]. unfold IsPublicClient, IsCIMDConfidentialClient in Hx, Hreg. simpl in Hx.
      split; simpl; [done | by left | set_solver | | done | intros Hk; unfold IsCIMDClient; simpl; apply bool_decide_eq_true_2; by apply Hreg].
      intros _. split; [done |]. split; [intros _ | done]. apply orb_true_iff in Hx. exact Hx.
    + destruct (GetCiphertext (pe_Secret e)) as [c |] eqn:Hct; [| done]. simpl. intros [= <-].
      eexists _, _, _. split; [done |]. unfold IsPublicClient, IsCIMDConfidentialClient in Hx, Hreg. simpl in Hx.
      assert (c ≠ "") as Hc by (unfold GetCiphertext in Hct; repeat case_match; simplify_eq; done).
      split; simpl; [done | right; eauto | set_solver | | done | intros Hk; unfold IsCIMDClient; simpl; apply bool_decide_eq_true_2; by apply Hreg].
      intros _. split; [done |]. split; [done |]. apply orb_false_iff in Hx as [Hx1 Hx2].
      unfold IsPublicClient, IsCIMDConfidentialClient. simpl. by rewrite Hx1, Hx2; intros [? | ?].
Qed.

(** ** The invariant *)

Definition provider_can_keys (e : provider) : list string := option_list (pe_CanonicalID e).
Definition provider_dcr_keys (e : provider) : list dcrClientIdentity := option_list (providerDCRIdentity e).
Definition resource_keys (X : gset string) : list string := elements X.

Record store_wf (r : ProviderRepository) : Prop := {
  sw_id : map_Forall (λ i e, pe_ID e = i) (pr_providers r);
  sw_stored : map_Forall (λ _ e, stored_ok e ∧ 1 ≤ pe_Version e)%Z (pr_providers r);
  sw_can : indexes provider_can_keys (canonicalIndex r) (pr_providers r);
  sw_dcr : indexes provider_dcr_keys (dcrIndex r) (pr_providers r);
  sw_dom : dom (pr_resources r) = dom (pr_providers r);
  sw_owner : indexes resource_keys (resourceOwners r) (pr_resources r);
  sw_norm : ∀ i X x, pr_resources r !! i = Some X → x ∈ X → ∃ uri, NormalizeAndValidateProtectedResource uri = Some x;
}.

Lemma new_store_wf : store_wf NewProviderRepository.
Proof. by split; try apply indexes_empty. Qed.

Lemma normalized_resources_norm seen l X x : normalized_resources seen l = Some X → x ∈ X →
  x ∈ seen ∨ ∃ uri, NormalizeAndValidateProtectedResource uri = Some x.
Proof.
  revert seen. induction l as [| uri l IH]; intros seen Hn Hx; simpl in Hn.
  { simplify_eq. by left. }
  destruct (NormalizeAndValidateProtectedResource uri) as [r |] eqn:Hr; [| done]. case_decide; [done |].
  destruct (IH _ Hn Hx) as [[->%elem_of_singleton | ?]%elem_of_union | ?]; eauto.
Qed.

Lemma normalizedResourceSet_norm l X x : normalizedResourceSet l = Some X → x ∈ X →
  ∃ uri, NormalizeAndValidateProtectedResource uri = Some x.
Proof. intros Hn Hx. destruct (normalized_resources_norm ∅ l X x Hn Hx); [set_solver | done]. Qed.

Lemma resources_free X i r : store_wf r → resources_owned_by_other X i r = false →
  ∀ k, k ∈ resource_keys X → ¬ taken resource_keys k i (pr_resources r).
Proof.
  intros Hw Ho k Hk Ht. unfold resources_owned_by_other in Ho.
  assert (existsb (λ k, held_by_other (resourceOwners r) k i) (elements X) = true); [| congruence].
  apply existsb_exists. exists k. split; [by apply list_elem_of_In |].
  rewrite (held_by_other_spec resource_keys _ _ k i (sw_owner r Hw)). by apply bool_decide_eq_true_2.
Qed.

(** The check against an index of optional keys, for a new element and for an old one. *)
Lemma optional_key_free `{Countable K} {A} (key : A → option K) ix (m : gmap string A) a i :
  indexes (λ a, option_list (key a)) ix m → m !! i = None →
  match key a with Some c => bool_decide (is_Some (ix !! c)) | None => false end = false →
  ∀ k, k ∈ option_list (key a) → ¬ taken (λ a, option_list (key a)) k i m.
Proof.
  intros Hix Hi Hf k Hk%elem_of_option_list. rewrite Hk in Hf.
  rewrite (present_taken _ _ _ _ i Hix Hi) in Hf. by apply bool_decide_eq_false_1 in Hf.
Qed.
Lemma optional_key_kept `{Countable K} {A} (key : A → option K) ix (m : gmap string A) (o : option K) i :
  indexes (λ a, option_list (key a)) ix m →
  match o with Some c => held_by_other ix c i | None => false end = false →
  ∀ k, k ∈ option_list o → ¬ taken (λ a, option_list (key a)) k i m.
Proof.
  intros Hix Hf k Hk%elem_of_option_list. subst o.
  rewrite (held_by_other_spec _ _ _ k i Hix) in Hf. by apply bool_decide_eq_false_1 in Hf.
Qed.

Lemma provider_Create_wf e r : store_wf r → store_wf (provider_Create e r).1.
Proof.
  intros Hw. unfold provider_Create. case_match; [done |].
  destruct (normalizedResourceSet (pe_ProtectedResources e)) as [X |] eqn:HX; [| done].
  case_bool_decide as Hex; [done |]. destruct (match pe_CanonicalID e with Some _ => _ | None => _ end) eqn:Hcan; [done |].
  destruct (match providerDCRIdentity e with Some _ => _ | None => _ end) eqn:Hdcr; [done |].
  destruct (resources_owned_by_other X (pe_ID e) r) eqn:Hown; [done |].
  destruct (providerEntityToRecord _) as [record |] eqn:Hrec; [| done]. simpl.
  apply providerEntityToRecord_spec in Hrec as (src & reg & sec & -> & Hok).
  assert (pr_providers r !! pe_ID e = None) as Hi by (by apply eq_None_not_Some).
  assert (pr_resources r !! pe_ID e = None) as HiX.
  { apply not_elem_of_dom. rewrite (sw_dom r Hw). by apply not_elem_of_dom. }
  match type of Hok with stored_ok ?e => set (record := set_pe_CredentialSourceTransitioned false e) end.
  split; cbn -[record].
  - apply map_Forall_insert_2; [done | apply Hw].
  - apply map_Forall_insert_2; [split; [by destruct Hok; split | done] | apply Hw].
  - rewrite index_set_option. apply (indexes_insert provider_can_keys _ _ _ record (sw_can r Hw) Hi).
    exact (optional_key_free pe_CanonicalID _ _ e _ (sw_can r Hw) Hi Hcan).
  - rewrite index_set_option. apply (indexes_insert provider_dcr_keys _ _ _ record (sw_dcr r Hw) Hi).
    exact (optional_key_free providerDCRIdentity _ _ e _ (sw_dcr r Hw) Hi Hdcr).
  - by rewrite !dom_insert_L, (sw_dom r Hw).
  - apply (indexes_insert resource_keys _ _ _ _ (sw_owner r Hw) HiX). by apply resources_free.
  - intros j Y x [[<- <-] | [_ HY]]%lookup_insert_Some Hx; [by eapply normalizedResourceSet_norm |].
    by eapply (sw_norm r Hw).
Qed.

Lemma store_resources r i e : store_wf r → pr_providers r !! i = Some e → is_Some (pr_resources r !! i).
Proof. intros Hw Hi. apply elem_of_dom. rewrite (sw_dom r Hw). by eapply elem_of_dom_2. Qed.

Lemma provider_Delete_wf n i r : store_wf r → store_wf (provider_Delete n i r).1.
Proof.
  intros Hw. unfold provider_Delete. case_match; [done |]. simpl.
  destruct (pr_providers r !! i) as [e |] eqn:Hi; simpl.
  - destruct (store_resources r i e Hw Hi) as [X HX]. rewrite HX. simpl.
    split; simpl; rewrite ?index_clear_option.
    + apply map_Forall_delete, Hw.
    + apply map_Forall_delete, Hw.
    + apply (indexes_delete provider_can_keys); [apply Hw | done].
    + apply (indexes_delete provider_dcr_keys); [apply Hw | done].
    + by rewrite !dom_delete_L, (sw_dom r Hw).
    + apply (indexes_delete resource_keys); [apply Hw | done].
    + intros j Y x [_ HY]%lookup_delete_Some. by apply (sw_norm r Hw j).
  - assert (pr_resources r !! i = None) as HX.
    { apply not_elem_of_dom. rewrite (sw_dom r Hw). by apply not_elem_of_dom. }
    rewrite HX. simpl. rewrite (delete_id (pr_providers r)), (delete_id (pr_resources r)) by done. by destruct r.
Qed.

Lemma provider_Update_wf n e v r : store_wf r → store_wf (provider_Update n e v r).1.
Proof.
  intros Hw. unfold provider_Update. destruct (pr_providers r !! pe_ID e) as [old |] eqn:Hi; [| done].
  destruct (match v with Some _ => _ | None => _ end); [done |]. destruct (stale_attempt e old); [done |].
  destruct (session_conflict _ _ _ _); [done |].
  destruct (match proposed_canonical e old with Some _ => _ | None => _ end) eqn:Hcan; [done |].
  destruct (match providerDCRIdentity e with Some _ => _ | None => _ end) eqn:Hdcr; [done |].
  destruct (store_resources r _ old Hw Hi) as [X0 HX0]. rewrite HX0. simpl default.
  destruct (if decide (is_Some v) then _ else _) as [X |] eqn:HX; [| done].
  destruct (bool_decide (is_Some v) && _) eqn:Hown; [done |].
  destruct (providerEntityToRecord _) as [record |] eqn:Hrec; [| done]. simpl.
  apply providerEntityToRecord_spec in Hrec as (src & reg & sec & -> & Hok).
  match goal with |- context [<[pe_ID e := ?rec]> (pr_providers r)] => set (record := rec) end.
  assert (1 ≤ pe_Version old)%Z as Hver by (eapply (sw_stored r Hw); done).
  split; cbn -[record].
  - apply map_Forall_insert_2; [done | apply Hw].
  - apply map_Forall_insert_2; [split; [by destruct Hok; split | simpl; lia] | apply Hw].
  - rewrite index_set_option, index_clear_option. apply (indexes_update provider_can_keys _ _ _ old record); [apply Hw | done |].
    exact (optional_key_kept pe_CanonicalID _ _ _ _ (sw_can r Hw) Hcan).
  - rewrite index_set_option, index_clear_option. apply (indexes_update provider_dcr_keys _ _ _ old record); [apply Hw | done |].
    exact (optional_key_kept providerDCRIdentity _ _ _ _ (sw_dcr r Hw) Hdcr).
  - rewrite dom_insert_lookup_L by eauto. case_decide; [rewrite dom_insert_lookup_L by eauto |]; apply Hw.
  - case_decide as Hv; [| apply Hw]. rewrite bool_decide_eq_true_2 in Hown by done.
    apply (indexes_update resource_keys _ _ _ X0 X); [apply Hw | done |]. by apply resources_free.
  - case_decide as Hv; [| apply Hw].
    intros j Y x [[<- <-] | [_ HY]]%lookup_insert_Some Hx; [by eapply normalizedResourceSet_norm |].
    by eapply (sw_norm r Hw).
Qed.

(** A change of a service's child set, by what the owners hold afterwards. *)
Lemma set_resources_wf i e X Y owners r :
  store_wf r → pr_providers r !! i = Some e → pr_resources r !! i = Some X →
  (∀ k j, owners !! k = Some j ↔ (j = i ∧ k ∈ resource_keys Y) ∨ (j ≠ i ∧ resourceOwners r !! k = Some j)) →
  (∀ x, x ∈ Y → ∃ uri, NormalizeAndValidateProtectedResource uri = Some x) →
  store_wf (set_resources i e Y owners r).
Proof.
  intros Hw Hi HX Hown Hn. destruct (sw_stored r Hw i e Hi) as [Hok Hver].
  split; simpl.
  - apply map_Forall_insert_2; [exact (sw_id r Hw i e Hi) | apply Hw].
  - apply map_Forall_insert_2; [split; [by destruct Hok; split | simpl; lia] | apply Hw].
  - eapply indexes_same_keys; [apply Hw | done | done].
  - eapply indexes_same_keys; [apply Hw | done | done].
  - rewrite !dom_insert_lookup_L by eauto. apply Hw.
  - eapply indexes_change; [apply Hw | done].
  - intros j Z x [[<- <-] | [_ HZ]]%lookup_insert_Some Hx; [by apply Hn | by eapply (sw_norm r Hw)].
Qed.

(** What a service owns. *)
Lemma owner_spec r i X k : store_wf r → pr_resources r !! i = Some X → resourceOwners r !! k = Some i ↔ k ∈ X.
Proof.
  intros Hw HX. rewrite (sw_owner r Hw k i). setoid_rewrite HX. unfold resource_keys. split.
  - intros (Y & [= <-] & Hk). by apply elem_of_elements.
  - intros Hk. exists X. by rewrite elem_of_elements.
Qed.

Lemma AddProtectedResource_wf i uri r : store_wf r → store_wf (AddProtectedResource i uri r).1.
Proof.
  intros Hw. unfold AddProtectedResource. destruct (NormalizeAndValidateProtectedResource uri) as [x |] eqn:Hx; [| done].
  destruct (pr_providers r !! i) as [e |] eqn:Hi; [| done].
  destruct (resourceOwners r !! x) as [j |] eqn:Hj; [by case_decide |]. simpl.
  destruct (store_resources r i e Hw Hi) as [X HX]. rewrite HX. simpl.
  eapply set_resources_wf; [done | done | done | |].
  - intros k j. unfold resource_keys. rewrite elem_of_elements, elem_of_union, elem_of_singleton, <-(owner_spec r i X) by done.
    rewrite lookup_insert_Some. destruct (decide (k = x)) as [-> | ?]; [rewrite Hj |];
      destruct (decide (j = i)) as [-> | ?]; intuition congruence.
  - intros y [->%elem_of_singleton | Hy]%elem_of_union; [by eauto | by eapply (sw_norm r Hw)].
Qed.

Lemma RemoveProtectedResource_wf i uri r : store_wf r → store_wf (RemoveProtectedResource i uri r).1.
Proof.
  intros Hw. unfold RemoveProtectedResource.
  destruct (NormalizeAndValidateProtectedResource uri) as [x |] eqn:Hx; [| done].
  destruct (pr_providers r !! i) as [e |] eqn:Hi; [| done]. case_bool_decide as Hj; [| done]. simpl.
  destruct (store_resources r i e Hw Hi) as [X HX]. rewrite HX. simpl.
  eapply set_resources_wf; [done | done | done | |].
  - intros k j. unfold resource_keys. rewrite elem_of_elements, elem_of_difference, elem_of_singleton, <-(owner_spec r i X) by done.
    rewrite lookup_delete_Some. destruct (decide (k = x)) as [-> | ?]; [rewrite Hj |];
      destruct (decide (j = i)) as [-> | ?]; intuition congruence.
  - intros y [Hy _]%elem_of_difference. by eapply (sw_norm r Hw).
Qed.

Lemma RenameProtectedResource_wf i from to r : store_wf r → store_wf (RenameProtectedResource i from to r).1.
Proof.
  intros Hw. unfold RenameProtectedResource.
  destruct (NormalizeAndValidateProtectedResource from) as [x |] eqn:Hx; [| done].
  destruct (NormalizeAndValidateProtectedResource to) as [y |] eqn:Hy; [| done].
  destruct (pr_providers r !! i) as [e |] eqn:Hi; [| done]. case_bool_decide as Hj; [| done]. simpl.
  case_decide as Hxy; [done |]. case_bool_decide as Hfree; [done |]. simpl. apply eq_None_not_Some in Hfree.
  destruct (store_resources r i e Hw Hi) as [X HX]. rewrite HX. simpl.
  eapply set_resources_wf; [done | done | done | |].
  - intros k j. unfold resource_keys.
    rewrite elem_of_elements, elem_of_union, elem_of_difference, !elem_of_singleton, <-(owner_spec r i X) by done.
    rewrite lookup_insert_Some, lookup_delete_Some.
    destruct (decide (k = y)) as [-> | ?]; [rewrite Hfree | destruct (decide (k = x)) as [-> | ?]; [rewrite Hj |]];
      destruct (decide (j = i)) as [-> | ?]; intuition congruence.
  - intros z [->%elem_of_singleton | [Hz _]%elem_of_difference]%elem_of_union; [by eauto | by eapply (sw_norm r Hw)].
Qed.

Lemma RecordDiscoveryFailure_wf i v t code r : store_wf r → store_wf (RecordDiscoveryFailure i v t code r).1.
Proof.
  intros Hw. unfold RecordDiscoveryFailure. case_match; [done |].
  destruct (pr_providers r !! i) as [e |] eqn:Hi; [| done]. case_match; [done |].
  destruct (ds_LastAttemptAt (pe_DiscoveryStatus e)), (ds_LastSuccessAt (pe_DiscoveryStatus e)); try done.
  case_match; [| done]. simpl.
  destruct (sw_stored r Hw i e Hi) as [Hok Hver].
  split; simpl.
  - apply map_Forall_insert_2; [exact (sw_id r Hw i e Hi) | apply Hw].
  - apply map_Forall_insert_2; [split; [by destruct Hok; split | done] | apply Hw].
  - eapply indexes_same_keys; [apply Hw | done | done].
  - eapply indexes_same_keys; [apply Hw | done | done].
  - rewrite dom_insert_lookup_L by eauto. apply Hw.
  - apply Hw.
  - apply Hw.
Qed.

End facts.
