(* ===== verification/UserSessions.v ===== *)
(** * User sessions with third-party services

    The session aggregate (internal/domain/storage/user_session.go) and the in-memory
    repository (internal/adapters/storage/memory/user_session.go), one atomic function per
    critical section of the repository's mutex.  The per-session lock that spans several of
XX Token bytes are strings, empty for absent ones; stored
    sessions are never changed in place, so the two maps hold values. *)

From S2P Require Import Prelude ToolApproval ApprovalStore ApprovalHandlers OAuthSessions UserGrants Consent UriValidation NetPolicy Providers.

Abbreviation SessionID := string (only parsing).

Record UserSession := MkSession {
  us_ID : SessionID;
  us_Principal : Principal;
  us_ServiceID : ServiceID;
  us_CallbackID : string;
  us_UpstreamClientID : option string;
  us_ExpectedIssuerURI : string;
  us_ExpectedResource : string;
  us_EncryptedAccessToken : string;
  us_EncryptedRefreshToken : string;
  us_TokenType : string;
  us_AccessTokenExpiresAt : option time;
  us_RefreshRejectedAt : option time;
  us_Scope : list string;
  us_EncryptionContext : ServiceID;
  us_InitiatedAt : time;
  us_CreatedAt : time;
  us_UpdatedAt : time;
}.
#[export] Instance UserSession_eq_dec : EqDecision UserSession.
Proof. solve_decision. Defined.

Definition set_us_ID (v : SessionID) (s : UserSession) : UserSession :=
  {| us_ID := v; us_Principal := us_Principal s; us_ServiceID := us_ServiceID s; us_CallbackID := us_CallbackID s;
     us_UpstreamClientID := us_UpstreamClientID s; us_ExpectedIssuerURI := us_ExpectedIssuerURI s;
     us_ExpectedResource := us_ExpectedResource s; us_EncryptedAccessToken := us_EncryptedAccessToken s;
     us_EncryptedRefreshToken := us_EncryptedRefreshToken s; us_TokenType := us_TokenType s;
     us_AccessTokenExpiresAt := us_AccessTokenExpiresAt s; us_RefreshRejectedAt := us_RefreshRejectedAt s;
     us_Scope := us_Scope s; us_EncryptionContext := us_EncryptionContext s; us_InitiatedAt := us_InitiatedAt s;
     us_CreatedAt := us_CreatedAt s; us_UpdatedAt := us_UpdatedAt s |}.
Definition clear_expected (s : UserSession) : UserSession :=
  {| us_ID := us_ID s; us_Principal := us_Principal s; us_ServiceID := us_ServiceID s;
     us_CallbackID := us_CallbackID s; us_UpstreamClientID := us_UpstreamClientID s; us_ExpectedIssuerURI := "";
     us_ExpectedResource := ""; us_EncryptedAccessToken := us_EncryptedAccessToken s;
     us_EncryptedRefreshToken := us_EncryptedRefreshToken s; us_TokenType := us_TokenType s;
     us_AccessTokenExpiresAt := us_AccessTokenExpiresAt s; us_RefreshRejectedAt := us_RefreshRejectedAt s;
     us_Scope := us_Scope s; us_EncryptionContext := us_EncryptionContext s; us_InitiatedAt := us_InitiatedAt s;
     us_CreatedAt := us_CreatedAt s; us_UpdatedAt := us_UpdatedAt s |}.
Definition set_us_UpstreamClientID (v : option string) (s : UserSession) : UserSession :=
  {| us_ID := us_ID s; us_Principal := us_Principal s; us_ServiceID := us_ServiceID s;
     us_CallbackID := us_CallbackID s; us_UpstreamClientID := v; us_ExpectedIssuerURI := us_ExpectedIssuerURI s;
     us_ExpectedResource := us_ExpectedResource s; us_EncryptedAccessToken := us_EncryptedAccessToken s;
     us_EncryptedRefreshToken := us_EncryptedRefreshToken s; us_TokenType := us_TokenType s;
     us_AccessTokenExpiresAt := us_AccessTokenExpiresAt s; us_RefreshRejectedAt := us_RefreshRejectedAt s;
     us_Scope := us_Scope s; us_EncryptionContext := us_EncryptionContext s; us_InitiatedAt := us_InitiatedAt s;
     us_CreatedAt := us_CreatedAt s; us_UpdatedAt := us_UpdatedAt s |}.
(** A recorded rejection of the refresh token. *)
Definition set_rejected (now : time) (s : UserSession) : UserSession :=
  {| us_ID := us_ID s; us_Principal := us_Principal s; us_ServiceID := us_ServiceID s;
     us_CallbackID := us_CallbackID s; us_UpstreamClientID := us_UpstreamClientID s;
     us_ExpectedIssuerURI := us_ExpectedIssuerURI s; us_ExpectedResource := us_ExpectedResource s;
     us_EncryptedAccessToken := us_EncryptedAccessToken s; us_EncryptedRefreshToken := us_EncryptedRefreshToken s;
     us_TokenType := us_TokenType s; us_AccessTokenExpiresAt := us_AccessTokenExpiresAt s;
     us_RefreshRejectedAt := Some now; us_Scope := us_Scope s; us_EncryptionContext := us_EncryptionContext s;
     us_InitiatedAt := us_InitiatedAt s; us_CreatedAt := us_CreatedAt s; us_UpdatedAt := now |}.
(** The fields a token response determines. *)
Definition set_tokens (access : string) (expiry : option time) (refresh : string) (rejected : option time)
    (tokenType : string) (scope : list string) (now : time) (s : UserSession) : UserSession :=
  {| us_ID := us_ID s; us_Principal := us_Principal s; us_ServiceID := us_ServiceID s;
     us_CallbackID := us_CallbackID s; us_UpstreamClientID := us_UpstreamClientID s;
     us_ExpectedIssuerURI := us_ExpectedIssuerURI s; us_ExpectedResource := us_ExpectedResource s;
     us_EncryptedAccessToken := access; us_EncryptedRefreshToken := refresh; us_TokenType := tokenType;
     us_AccessTokenExpiresAt := expiry; us_RefreshRejectedAt := rejected; us_Scope := scope;
     us_EncryptionContext := us_EncryptionContext s; us_InitiatedAt := us_InitiatedAt s;
     us_CreatedAt := us_CreatedAt s; us_UpdatedAt := now |}.

(** ** The aggregate *)

Definition session_Validate (s : UserSession) : bool :=
  nonzero_id (us_ID s) && nonempty (us_Principal s) && bool_decide (String.length (us_Principal s) ≤ 200)%nat &&
  nonzero_id (us_ServiceID s) && negb (bool_decide (us_UpstreamClientID s = Some "")) &&
  nonempty (us_EncryptedAccessToken s) && nonempty (us_TokenType s).

Definition RefreshRejected (s : UserSession) : bool := bool_decide (is_Some (us_RefreshRejectedAt s)).

Definition RequiresReauthentication (now : time) (s : UserSession) : bool :=
  if RefreshRejected s then true
  else match us_AccessTokenExpiresAt s with Some t => negb (After t now) | None => false end &&
       negb (nonempty (us_EncryptedRefreshToken s)).

Definition HasValidAccessToken (now : time) (s : UserSession) : bool :=
  match us_AccessTokenExpiresAt s with None => true | Some t => Before now t end.

Definition AccessTokenExpiresBy (t : time) (s : UserSession) : bool :=
  match us_AccessTokenExpiresAt s with Some e => negb (After e t) | None => false end.

Definition CanRefresh (s : UserSession) : bool := nonempty (us_EncryptedRefreshToken s) && negb (RefreshRejected s).

Record UserSessionSummary := MkSummary {
  sum_ID : SessionID;
  sum_ServiceID : ServiceID;
  sum_ServiceDisplayName : string;
  sum_TokenType : string;
  sum_Scope : list string;
  sum_InitiatedAt : time;
  sum_RequiresReauthentication : bool;
  sum_IsExpired : bool;
  sum_AccessTokenExpired : bool;
  sum_HasRefreshToken : bool;
  sum_DependentAgentCount : nat;
}.

Definition NewUserSessionSummary (now1 now2 : time) (s : UserSession) (displayName : string) (agentCount : nat)
    : UserSessionSummary :=
  let required := RequiresReauthentication now2 s in
  MkSummary (us_ID s) (us_ServiceID s) displayName (us_TokenType s) (us_Scope s) (us_InitiatedAt s) required required
    (negb (HasValidAccessToken now1 s)) (nonempty (us_EncryptedRefreshToken s)) agentCount.

(** ** The repository *)

Record UserSessionRepository := SessionRepo {
  us_sessions : gmap SessionID UserSession;
  us_index : gmap string UserSession;
}.
Definition NewUserSessionRepository : UserSessionRepository := SessionRepo ∅ ∅.

Definition principalServiceKey (principal : Principal) (serviceID : ServiceID) : string :=
  principal +:+ "#" +:+ serviceID.
Definition session_key (s : UserSession) : string := principalServiceKey (us_Principal s) (us_ServiceID s).

(** The issuer and audience a new session must have been started under; [current] is the
    service's record in the provider repository bound to this one. *)
Definition currentDiscoveryStateError (s : UserSession) (current : option provider) : result ErrorKind unit :=
  match current with
  | None => Err KNotFound
  | Some e =>
      let matches :=
        if decide (is_Some (dc_ResourceURL (pe_Discovery e))) then
          nonempty (us_ExpectedIssuerURI s) && nonempty (us_ExpectedResource s) &&
          bool_decide (us_ExpectedIssuerURI s = pe_IssuerURI e) &&
          bool_decide (us_ExpectedResource s = auth_resource e)
        else bool_decide (us_ExpectedIssuerURI s = "") && bool_decide (us_ExpectedResource s = "") in
      if matches then Ok () else Err KConflict
  end.

(** The part of [create] under the session's lock. *)
Definition store_created (session : UserSession) (replace : bool) (r : UserSessionRepository)
    : UserSessionRepository * UserSession :=
  let key := session_key session in
  match us_index r !! key with
  | Some existing =>
      if negb replace then (r, existing)
      else
        let stored := clear_expected (set_us_ID (us_ID existing) session) in
        (SessionRepo (<[us_ID stored := stored]> (delete (us_ID existing) (us_sessions r)))
           (<[key := stored]> (us_index r)), stored)
  | None =>
      let stored := clear_expected session in
      (SessionRepo (<[us_ID stored := stored]> (us_sessions r)) (<[key := stored]> (us_index r)), stored)
  end.

Definition session_create (session : UserSession) (replace : bool) (current : option provider)
    (r : UserSessionRepository) : UserSessionRepository * result ErrorKind UserSession :=
  if negb (session_Validate session) then (r, Err KValidation)
  else match currentDiscoveryStateError session current with
       | Err k => (r, Err k)
       | Ok _ => let '(r, stored) := store_created session replace r in (r, Ok stored)
       end.

Definition session_Get (i : SessionID) (r : UserSessionRepository) : result ErrorKind UserSession :=
  if negb (nonzero_id i) then Err KValidation
  else match us_sessions r !! i with Some s => Ok s | None => Err KNotFound end.

(** [Ok None] is the nil session returned without an error. *)
Definition session_FindByPrincipalAndService (principal : Principal) (serviceID : ServiceID) (r : UserSessionRepository)
    : result ErrorKind (option UserSession) :=
  if negb (nonempty principal) || negb (nonzero_id serviceID) then Err KValidation
  else Ok (us_index r !! principalServiceKey principal serviceID).

Definition all_sessions (r : UserSessionRepository) : list UserSession := (map_to_list (us_sessions r)).*2.

Definition session_ListByPrincipal (principal : Principal) (r : UserSessionRepository) : list UserSession :=
  filter (λ s, us_Principal s = principal) (all_sessions r).
Definition session_ListActiveByPrincipal (now : time) (principal : Principal) (r : UserSessionRepository)
    : list UserSession :=
  filter (λ s, us_Principal s = principal ∧ RequiresReauthentication now s = false) (all_sessions r).
Definition session_ListActiveServiceIDsByPrincipal (now : time) (principal : Principal) (r : UserSessionRepository)
    : list ServiceID := us_ServiceID <$> session_ListActiveByPrincipal now principal r.

Definition session_CountByService (serviceID : ServiceID) (r : UserSessionRepository) : nat :=
  length (filter (λ s, us_ServiceID s = serviceID) (all_sessions r)).

Definition drop_session (i : SessionID) (key : string) (r : UserSessionRepository) : UserSessionRepository :=
  SessionRepo (delete i (us_sessions r)) (delete key (us_index r)).

(** One pass of the loop, under the lock of the session's key. *)
Definition session_Delete (i : SessionID) (r : UserSessionRepository) : UserSessionRepository :=
  match us_sessions r !! i with
  | None => r
  | Some s => drop_session i (session_key s) r
  end.

Definition session_DeleteByPrincipalAndService (principal : Principal) (serviceID : ServiceID)
    (r : UserSessionRepository) : UserSessionRepository :=
  let key := principalServiceKey principal serviceID in
  match us_index r !! key with
  | None => r
  | Some s => drop_session (us_ID s) key r
  end.

(** *** Groups by expiry *)

Inductive AccessExpiryClass := AccessExpiryUnknown | AccessExpiryAfterThreshold | AccessExpiryDue | AccessExpiryExpired.
#[export] Instance AccessExpiryClass_eq_dec : EqDecision AccessExpiryClass.
Proof. solve_decision. Defined.
#[export] Instance AccessExpiryClass_countable : Countable AccessExpiryClass.
Proof.
  refine (inj_countable (λ c, match c with AccessExpiryUnknown => 0 | AccessExpiryAfterThreshold => 1
                                         | AccessExpiryDue => 2 | AccessExpiryExpired => 3 end)
            (λ n, match n with 0 => Some AccessExpiryUnknown | 1 => Some AccessExpiryAfterThreshold
                             | 2 => Some AccessExpiryDue | 3 => Some AccessExpiryExpired | _ => None end) _).
  by intros [].
Defined.

Definition expiry_class (threshold now : time) (s : UserSession) : AccessExpiryClass :=
  match us_AccessTokenExpiresAt s with
  | None => AccessExpiryUnknown
  | Some t => if After t threshold then AccessExpiryAfterThreshold
              else if After t now then AccessExpiryDue else AccessExpiryExpired
  end.

Definition group_key (threshold now : time) (s : UserSession) : ServiceID * AccessExpiryClass * bool :=
  (us_ServiceID s, expiry_class threshold now s, CanRefresh s).

Definition CountSessionsByExpiry (threshold now : time) (r : UserSessionRepository)
    : gmap (ServiceID * AccessExpiryClass * bool) nat :=
  foldl (λ counts s, let key := group_key threshold now s in <[key := S (default 0 (counts !! key))]> counts)
    ∅ (all_sessions r).

(** ** The page of a sweep

    The earliest [limit] sessions that are due, kept in a max-heap while the map is
    visited, in the order [visit]. *)

Record SessionExpiryCursor := MkCursor { cur_AccessTokenExpiresAt : time; cur_ID : SessionID }.

(** [bytes.Compare] on UUIDs agrees with the order of their canonical text. *)
Definition compareExpiryKey (t : time) (i : SessionID) (expiry : time) (sessionID : SessionID) : comparison :=
  match (t ?= expiry)%Z with Eq => String.compare i sessionID | c => c end.

Definition us_expiry (s : UserSession) : time := default 0%Z (us_AccessTokenExpiresAt s).
Definition compareSessionExpiryKey (s : UserSession) (expiry : time) (sessionID : SessionID) : comparison :=
  compareExpiryKey (us_expiry s) (us_ID s) expiry sessionID.
Definition session_lt (s u : UserSession) : bool :=
  match compareSessionExpiryKey s (us_expiry u) (us_ID u) with Lt => true | _ => false end.

Definition swap (l : list UserSession) (i j : nat) : list UserSession :=
  match l !! i, l !! j with
  | Some x, Some y => <[j := x]> (<[i := y]> l)
  | _, _ => l
  end.

(** [for child > 0]: at most [child] rounds. *)
Fixpoint sift_up (fuel : nat) (l : list UserSession) (child : nat) : list UserSession :=
  match fuel with
  | O => l
  | S fuel =>
      if decide (child = 0) then l
      else
        let parent := (child - 1) / 2 in
        match l !! parent, l !! child with
        | Some p, Some c => if session_lt p c then sift_up fuel (swap l parent child) parent else l
        | _, _ => l
        end
  end.

Fixpoint sift_down (fuel : nat) (l : list UserSession) (parent : nat) : list UserSession :=
  match fuel with
  | O => l
  | S fuel =>
      let child := parent * 2 + 1 in
      if decide (length l ≤ child) then l
      else
        let child := match l !! child, l !! S child with
                     | Some c, Some d => if session_lt c d then S child else child
                     | _, _ => child
                     end in
        match l !! parent, l !! child with
        | Some p, Some c => if session_lt p c then sift_down fuel (swap l parent child) child else l
        | _, _ => l
        end
  end.

Definition heap_add (limit : nat) (selected : list UserSession) (s : UserSession) : list UserSession :=
  if decide (length selected < limit) then sift_up (S (length selected)) (selected ++ [s]) (length selected)
  else match selected with
       | root :: rest => if session_lt s root then sift_down (length selected) (s :: rest) 0 else selected
       | [] => selected
       end.

(** The sessions the loop does not skip. *)
Definition expiring (threshold : time) (cursor : SessionExpiryCursor) (s : UserSession) : bool :=
  negb (RefreshRejected s) &&
  match us_AccessTokenExpiresAt s with None => false | Some t => negb (After t threshold) end &&
  negb (nonzero_id (cur_ID cursor) &&
        match compareSessionExpiryKey s (cur_AccessTokenExpiresAt cursor) (cur_ID cursor) with Gt => false | _ => true end).

(** [sort.Slice] by the strict order on keys. *)
Definition session_le (s u : UserSession) : Prop := session_lt u s = false.
#[export] Instance session_le_dec : RelDecision session_le.
Proof. intros s u. unfold session_le. apply _. Defined.

Definition select_expiring (threshold : time) (cursor : SessionExpiryCursor) (limit : nat) (visit : list UserSession)
    : list UserSession :=
  merge_sort session_le (foldl (heap_add limit) [] (filter (λ s, expiring threshold cursor s = true) visit)).

Definition ListExpiringSessions (threshold : time) (cursor : SessionExpiryCursor) (limit : Z)
    (visit : list UserSession) : result ErrorKind (list UserSession) :=
  if negb (bool_decide (1 ≤ limit ≤ 1000)%Z) then Err KValidation
  else if negb (nonzero_id (cur_ID cursor)) && negb (IsZero (cur_AccessTokenExpiresAt cursor)) then Err KValidation
  else Ok (select_expiring threshold cursor (Z.to_nat limit) visit).
