(* ===== verification/ServiceSessions.v ===== *)
(** * Services and their user sessions together

    The two bound in-memory repositories as one state, with one step per operation that
    changes it.  [create] of a session holds the issuer gate from the check of the service
    to the insertion, and [Update] and [Delete] of a service hold it exclusively, so each is
    one step.  The refresh of a session commits under the session's lock. *)

From S2P Require Import Prelude ToolApproval ApprovalStore ApprovalHandlers OAuthSessions UserGrants Consent UriValidation NetPolicy UniqueIndex BrokerErrors Providers ProviderStore ProviderStoreFacts UserSessions.

Record service_world := SvcWorld { sv_providers : ProviderRepository; sv_sessions : UserSessionRepository }.

(** ** Sessions *)

Record sessions_wf (r : UserSessionRepository) : Prop := {
  ssw_id : map_Forall (λ i s, us_ID s = i ∧ session_Validate s = true ∧
                              us_ExpectedIssuerURI s = "" ∧ us_ExpectedResource s = "") (us_sessions r);
  ssw_index : ∀ k s, us_index r !! k = Some s ↔ us_sessions r !! us_ID s = Some s ∧ session_key s = k;
}.

Lemma new_sessions_wf : sessions_wf NewUserSessionRepository.
Proof. split; [done |]. intros k s. simpl. rewrite !lookup_empty. naive_solver. Qed.

(** The write of [WithLockedSession]. *)
Definition store_refreshed (key : string) (s : UserSession) (r : UserSessionRepository) : UserSessionRepository :=
  SessionRepo (<[us_ID s := s]> (us_sessions r)) (<[key := s]> (us_index r)).

Lemma session_lookup_id r i s : sessions_wf r → us_sessions r !! i = Some s → us_ID s = i.
Proof. intros Hw Hs. by destruct (ssw_id r Hw i s Hs). Qed.

Lemma clear_expected_valid s : session_Validate (clear_expected s) = session_Validate s.
Proof. done. Qed.

(** Replacing the session of a key by one with the same id and key. *)
Lemma replace_session_wf r k old s : sessions_wf r → us_index r !! k = Some old →
  us_ID s = us_ID old → session_key s = k → session_Validate s = true →
  us_ExpectedIssuerURI s = "" → us_ExpectedResource s = "" →
  sessions_wf (store_refreshed k s r).
Proof.
  intros Hw Hk Hid Hkey Hv He1 He2. destruct (proj1 (ssw_index r Hw k old) Hk) as [Hs Hok].
  split; simpl.
  - apply map_Forall_insert_2; [done | apply Hw].
  - intros k' s'. rewrite lookup_insert_Some, lookup_insert_Some, (ssw_index r Hw k' s'). split.
    + intros [[<- <-] | [Hne [Hs' Hk']]]; [by split; [left |] |].
      split; [| done]. right. split; [| done]. intros Heq. rewrite <-Heq, Hid, Hs in Hs'. by simplify_eq.
    + intros [[[_ <-] | [Hne Hs']] Hk']; [left; split; congruence |]. right. split; [| done].
      intros ->. subst k'. assert (us_index r !! session_key s' = Some s') as Hi by (by apply (ssw_index r Hw)).
      rewrite Hk', Hk in Hi. by simplify_eq.
Qed.

Lemma insert_session_wf r s : sessions_wf r → us_index r !! session_key s = None → us_sessions r !! us_ID s = None →
  session_Validate s = true → us_ExpectedIssuerURI s = "" → us_ExpectedResource s = "" →
  sessions_wf (store_refreshed (session_key s) s r).
Proof.
  intros Hw Hk Hid Hv He1 He2. split; simpl.
  - apply map_Forall_insert_2; [done | apply Hw].
  - intros k' s'. rewrite lookup_insert_Some, lookup_insert_Some, (ssw_index r Hw k' s'). split.
    + intros [[<- <-] | [Hne [Hs' Hk']]]; [by split; [left |] |].
      split; [| done]. right. split; [congruence | done].
    + intros [[[_ <-] | [Hne Hs']] Hk']; [by left |]. right. split; [| done].
      intros Heq. assert (us_index r !! session_key s' = Some s') by (by apply (ssw_index r Hw)). congruence.
Qed.

Lemma drop_session_wf r k s : sessions_wf r → us_index r !! k = Some s → sessions_wf (drop_session (us_ID s) k r).
Proof.
  intros Hw Hk. destruct (proj1 (ssw_index r Hw k s) Hk) as [Hs Hkey]. split; simpl.
  - apply map_Forall_delete, Hw.
  - intros k' s'. rewrite !lookup_delete_Some, (ssw_index r Hw k' s'). split.
    + intros [Hne [Hs' Hk']]. split; [| done]. split; [| done]. intros Heq. rewrite <-Heq, Hs in Hs'. by simplify_eq.
    + intros [[Hne Hs'] Hk']. split; [| done]. intros ->. subst k'.
      assert (us_index r !! session_key s' = Some s') by (by apply (ssw_index r Hw)). congruence.
Qed.

(** [store_created] as the two cases above. *)
Lemma store_created_eq s b r : sessions_wf r →
  (store_created s b r).1 =
  match us_index r !! session_key s with
  | Some old => if b then store_refreshed (session_key s) (clear_expected (set_us_ID (us_ID old) s)) r else r
  | None => store_refreshed (session_key s) (clear_expected s) r
  end.
Proof.
  intros Hw. unfold store_created, store_refreshed. destruct (us_index r !! session_key s) as [old |]; [| done].
  destruct b; [| done]. simpl. by rewrite insert_delete_eq.
Qed.

Lemma store_created_wf s b r : sessions_wf r → session_Validate s = true → us_sessions r !! us_ID s = None →
  sessions_wf (store_created s b r).1.
Proof.
  intros Hw Hv Hid. rewrite store_created_eq by done.
  destruct (us_index r !! session_key s) as [old |] eqn:Hk.
  - destruct b; [| done]. destruct (proj1 (ssw_index r Hw _ old) Hk) as [Hs _].
    destruct (ssw_id r Hw _ old Hs) as (_ & Hvo & _).
    eapply replace_session_wf; [done | done | done | done | | done | done].
    revert Hv Hvo. unfold session_Validate. simpl. rewrite !andb_true_iff. tauto.
  - by apply (insert_session_wf r (clear_expected s)).
Qed.

Lemma session_Delete_eq i r : sessions_wf r → session_Delete i r =
  match us_sessions r !! i with Some s => drop_session (us_ID s) (session_key s) r | None => r end.
Proof.
  intros Hw. unfold session_Delete. destruct (us_sessions r !! i) as [s |] eqn:Hs; [| done].
  by rewrite (session_lookup_id r i s).
Qed.

Lemma session_Delete_wf i r : sessions_wf r → sessions_wf (session_Delete i r).
Proof.
  intros Hw. rewrite session_Delete_eq by done. destruct (us_sessions r !! i) as [s |] eqn:Hs; [| done].
  apply drop_session_wf; [done |]. apply (ssw_index r Hw). split; [| done]. by rewrite (session_lookup_id r i s).
Qed.

Lemma session_DeleteBy_wf p v r : sessions_wf r → sessions_wf (session_DeleteByPrincipalAndService p v r).
Proof.
  intros Hw. unfold session_DeleteByPrincipalAndService. destruct (us_index r !! _) as [s |] eqn:Hk; [| done].
  by apply drop_session_wf.
Qed.

Lemma count_zero v r : session_CountByService v r = 0 ↔ ∀ i s, us_sessions r !! i = Some s → us_ServiceID s ≠ v.
Proof.
  unfold session_CountByService, all_sessions. rewrite length_zero_iff_nil. split.
  - intros Hnil i s Hs Hv. assert (s ∈ filter (λ s, us_ServiceID s = v) (map_to_list (us_sessions r)).*2) as Hin.
    { apply list_elem_of_filter. split; [done |]. apply list_elem_of_fmap. exists (i, s). split; [done |].
      by apply elem_of_map_to_list. }
    rewrite Hnil in Hin. by apply not_elem_of_nil in Hin.
  - intros Hno. destruct (filter _ _) as [| s l] eqn:E; [done |].
    assert (s ∈ filter (λ s, us_ServiceID s = v) (map_to_list (us_sessions r)).*2) as Hin by (rewrite E; by left).
    apply list_elem_of_filter in Hin as [Hv Hin]. apply list_elem_of_fmap in Hin as ([i s'] & -> & Hin).
    apply elem_of_map_to_list in Hin. by destruct (Hno i s' Hin).
Qed.

(** ** Steps *)

Section world.
Context {GU : GoURL} {GN : GoNet} {UU : UUID} {PP : ProviderParsers}.

Definition on_providers {A} (f : ProviderRepository → ProviderRepository * A) (w : service_world) : service_world :=
  SvcWorld (f (sv_providers w)).1 (sv_sessions w).
Definition on_sessions (f : UserSessionRepository → UserSessionRepository) (w : service_world) : service_world :=
  SvcWorld (sv_providers w) (f (sv_sessions w)).

(** The number of a service's sessions, which the provider repository asks for. *)
Definition sessions_of (i : ServiceID) (w : service_world) : option nat := Some (session_CountByService i (sv_sessions w)).

Definition svc_Update (e : provider) (expectedVersion : option Z) (w : service_world) : service_world :=
  on_providers (provider_Update (sessions_of (pe_ID e) w) e expectedVersion) w.
Definition svc_Delete (i : ServiceID) (w : service_world) : service_world :=
  on_providers (provider_Delete (sessions_of i w) i) w.
Definition svc_CreateSession (s : UserSession) (replace : bool) (w : service_world)
    : service_world * result ErrorKind UserSession :=
  let '(r, res) := session_create s replace (pr_providers (sv_providers w) !! us_ServiceID s) (sv_sessions w) in
  (SvcWorld (sv_providers w) r, res).

(** A new session carries a fresh id; a refresh keeps the identity of the session. *)
Inductive svc_step (w : service_world) : service_world → Prop :=
  | svc_provider_create e : svc_step w (on_providers (provider_Create e) w)
  | svc_provider_update e v : svc_step w (svc_Update e v w)
  | svc_provider_delete i : svc_step w (svc_Delete i w)
  | svc_resource_add i uri : svc_step w (on_providers (AddProtectedResource i uri) w)
  | svc_resource_remove i uri : svc_step w (on_providers (RemoveProtectedResource i uri) w)
  | svc_resource_rename i from to : svc_step w (on_providers (RenameProtectedResource i from to) w)
  | svc_discovery_failure i v t code : svc_step w (on_providers (RecordDiscoveryFailure i v t code) w)
  | svc_session_create s b :
      us_sessions (sv_sessions w) !! us_ID s = None → svc_step w (svc_CreateSession s b w).1
  | svc_session_refresh k old s :
      us_index (sv_sessions w) !! k = Some old → us_ID s = us_ID old →
      us_Principal s = us_Principal old → us_ServiceID s = us_ServiceID old →
      us_ExpectedIssuerURI s = "" → us_ExpectedResource s = "" → session_Validate s = true →
      svc_step w (on_sessions (store_refreshed k s) w)
  | svc_session_delete i : svc_step w (on_sessions (session_Delete i) w)
  | svc_session_delete_by p v : svc_step w (on_sessions (session_DeleteByPrincipalAndService p v) w).

(** The invariant: both repositories are well formed and every session has its service. *)
Record svc_inv (w : service_world) : Prop := {
  si_store : store_wf (sv_providers w);
  si_sessions : sessions_wf (sv_sessions w);
  si_service : map_Forall (λ _ s, is_Some (pr_providers (sv_providers w) !! us_ServiceID s)) (us_sessions (sv_sessions w));
}.

Definition new_service_world : service_world := SvcWorld NewProviderRepository NewUserSessionRepository.

Lemma new_world_inv : svc_inv new_service_world.
Proof. split; [apply new_store_wf | apply new_sessions_wf | done]. Qed.

(** *** What a step on the services keeps *)

(** Every service stays, and changes only as said by [R]. *)
Definition services_kept (R : ServiceID → provider → provider → Prop) (r r' : ProviderRepository) : Prop :=
  ∀ i e, pr_providers r !! i = Some e → ∃ e', pr_providers r' !! i = Some e' ∧ (e' = e ∨ R i e e').

Lemma services_kept_insert R r r' i e e' : pr_providers r !! i = Some e → R i e e' →
  pr_providers r' = <[i := e']> (pr_providers r) → services_kept R r r'.
Proof.
  intros Hi HR Hr' j f Hj. rewrite Hr'. destruct (decide (i = j)) as [<- | Hne].
  - rewrite lookup_insert_eq. simplify_eq. eauto.
  - rewrite lookup_insert_ne by done. eauto.
Qed.

Lemma services_kept_same R r r' : pr_providers r' = pr_providers r → services_kept R r r'.
Proof. intros Hr i e Hi. rewrite Hr. eauto. Qed.

Lemma services_kept_new R r r' i e : pr_providers r !! i = None →
  pr_providers r' = <[i := e]> (pr_providers r) → services_kept R r r'.
Proof. intros Hi Hr' j f Hj. rewrite Hr', lookup_insert_ne by congruence. eauto. Qed.

Definition discovery_backed (e : provider) : Prop := is_Some (dc_ResourceURL (pe_Discovery e)).

(** What an operation may change of a service that has [n i] sessions: the version does
    not go back, and under discovery the issuer and the audience stay. *)
Definition service_change (n : ServiceID → nat) (i : ServiceID) (e e' : provider) : Prop :=
  (pe_Version e ≤ pe_Version e')%Z ∧
  (n i ≠ 0 → discovery_backed e ∨ discovery_backed e' →
   pe_IssuerURI e' = pe_IssuerURI e ∧ auth_resource e' = auth_resource e).

Lemma bump_kept n i e X owners r : pr_providers r !! i = Some e →
  services_kept (service_change n) r (set_resources i e X owners r).
Proof. intros Hi. eapply services_kept_insert; [done | | done]. split; [simpl; lia | done]. Qed.

Lemma AddProtectedResource_kept n i uri r : services_kept (service_change n) r (AddProtectedResource i uri r).1.
Proof.
  unfold AddProtectedResource. repeat (case_match; try by apply services_kept_same). simpl. by apply bump_kept.
Qed.
Lemma RemoveProtectedResource_kept n i uri r : services_kept (service_change n) r (RemoveProtectedResource i uri r).1.
Proof.
  unfold RemoveProtectedResource. repeat (case_match; try by apply services_kept_same). simpl. by apply bump_kept.
Qed.
Lemma RenameProtectedResource_kept n i from to r : services_kept (service_change n) r (RenameProtectedResource i from to r).1.
Proof.
  unfold RenameProtectedResource. repeat (case_match; try by apply services_kept_same). simpl. by apply bump_kept.
Qed.
Lemma RecordDiscoveryFailure_kept n i v t code r :
  services_kept (service_change n) r (RecordDiscoveryFailure i v t code r).1.
Proof.
  unfold RecordDiscoveryFailure. repeat (case_match; try by apply services_kept_same).
  eapply services_kept_insert; [done | | done]. split; [simpl; lia | done].
Qed.
Lemma provider_Create_kept R e r : services_kept R r (provider_Create e r).1.
Proof.
  unfold provider_Create. case_match; [by apply services_kept_same |].
  case_match; [| by apply services_kept_same]. case_bool_decide as Hi; [by apply services_kept_same |].
  repeat (case_match; try by apply services_kept_same); simpl;
    (eapply services_kept_new; [by apply eq_None_not_Some | done]).
Qed.

(** The audience an update leaves in force is the one it was checked for. *)
Lemma proposed_resource e old X : auth_resource (proposed_entity e old (proposed_audience e old) X) = au_resource (proposed_audience e old).
Proof.
  unfold auth_resource, auth_params, proposed_audience. simpl. unfold proposed_params.
  destruct (dc_ResourceURL (pe_Discovery e)) as [url |].
  - destruct (pe_AuthorizationParams e) as [m |] eqn:Hm.
    + destruct (m !! "resource") as [x |] eqn:Hx; simpl; [by rewrite Hx | by rewrite lookup_insert_eq].
    + destruct (pe_ResourceExplicit old); simpl; [done | by rewrite lookup_insert_eq].
  - by destruct (pe_AuthorizationParams e).
Qed.

Lemma session_conflict_none n e old au : n ≠ 0 → session_conflict (Some n) e old au = None →
  discovery_backed old ∨ discovery_backed e →
  pe_IssuerURI e = pe_IssuerURI old ∧ au_resource au = auth_resource old.
Proof.
  unfold session_conflict, discovery_backed. intros Hn Hc Hd.
  rewrite <-(bool_decide_spec (is_Some (dc_ResourceURL (pe_Discovery old)))),
    <-(bool_decide_spec (is_Some (dc_ResourceURL (pe_Discovery e)))) in Hd.
  apply orb_prop_intro, Is_true_true_1 in Hd. rewrite Hd, andb_true_r in Hc.
  destruct n as [| n]; [done |].
  destruct (bool_decide (pe_IssuerURI e = pe_IssuerURI old)) eqn:H1; [| done].
  destruct (bool_decide (au_resource au = auth_resource old)) eqn:H2; [| done]. by breflect.
Qed.

Lemma provider_Update_kept (n : ServiceID → nat) e v r :
  services_kept (service_change n) r (provider_Update (Some (n (pe_ID e))) e v r).1.
Proof.
  unfold provider_Update. destruct (pr_providers r !! pe_ID e) as [old |] eqn:Hi; [| by apply services_kept_same].
  destruct (match v with Some _ => _ | None => _ end); [by apply services_kept_same |].
  destruct (stale_attempt e old); [by apply services_kept_same |].
  destruct (session_conflict _ _ _ _) eqn:Hc; [by apply services_kept_same |].
  destruct (match proposed_canonical e old with Some _ => _ | None => _ end); [by apply services_kept_same |].
  destruct (match providerDCRIdentity e with Some _ => _ | None => _ end); [by apply services_kept_same |].
  destruct (if decide (is_Some v) then _ else _) as [X |]; [| by apply services_kept_same].
  destruct (bool_decide (is_Some v) && _); [by apply services_kept_same |].
  destruct (providerEntityToRecord _) as [record |] eqn:Hrec; [| by apply services_kept_same].
  apply providerEntityToRecord_spec in Hrec as (src & reg & sec & -> & _).
  eapply services_kept_insert; [exact Hi | | done]. split; [simpl; lia |].
  intros Hn Hd. destruct (session_conflict_none _ _ _ _ Hn Hc Hd) as [H1 H2].
  split; [exact H1 |]. rewrite <-H2. apply (proposed_resource e old X).
Qed.

(** *** The invariant holds in every reachable state *)

(** An operation on the services that keeps them all keeps the invariant. *)
Lemma on_providers_inv {A} R (f : ProviderRepository → ProviderRepository * A) w :
  svc_inv w → store_wf (f (sv_providers w)).1 → services_kept R (sv_providers w) (f (sv_providers w)).1 →
  svc_inv (on_providers f w).
Proof.
  intros [Hst Hse Hsv] Hw Hk. split; [done | done |]. intros i s Hs.
  destruct (Hsv i s Hs) as [e He]. destruct (Hk _ e He) as (e' & He' & _). by exists e'.
Qed.

(** One that leaves no session without its service does too. *)
Lemma on_sessions_inv f w : svc_inv w → sessions_wf (f (sv_sessions w)) →
  (∀ i s, us_sessions (f (sv_sessions w)) !! i = Some s →
    (∃ j old, us_sessions (sv_sessions w) !! j = Some old ∧ us_ServiceID s = us_ServiceID old)
    ∨ is_Some (pr_providers (sv_providers w) !! us_ServiceID s)) →
  svc_inv (on_sessions f w).
Proof.
  intros [Hst Hse Hsv] Hw Hf. split; [done | done |]. intros i s Hs.
  destruct (Hf i s Hs) as [(j & old & Hold & ->) | ?]; [by eapply Hsv | done].
Qed.

Lemma drop_session_sub i k r j s : us_sessions (drop_session i k r) !! j = Some s → us_sessions r !! j = Some s.
Proof. simpl. intros [_ ?]%lookup_delete_Some. done. Qed.

Lemma svc_Delete_inv i w : svc_inv w → svc_inv (svc_Delete i w).
Proof.
  intros [Hst Hse Hsv]. split; [by apply provider_Delete_wf | done |]. simpl.
  unfold provider_Delete. intros j s Hs. destruct (Hsv j s Hs) as [e He]. simpl in *.
  destruct (bool_decide (is_Some (pr_providers (sv_providers w) !! i))) eqn:Hi; simpl.
  - destruct (bool_decide (session_CountByService i (sv_sessions w) = 0)) eqn:Hn; simpl; [| by exists e].
    breflect. rewrite lookup_delete_ne; [by exists e |]. intros ->. by eapply (proj1 (count_zero _ _) Hn).
  - rewrite lookup_delete_ne; [by exists e |]. intros ->. breflect. by destruct Hi.
Qed.

Lemma svc_CreateSession_inv s b w : svc_inv w → us_sessions (sv_sessions w) !! us_ID s = None →
  svc_inv (svc_CreateSession s b w).1.
Proof.
  intros Hinv Hfresh. unfold svc_CreateSession, session_create.
  destruct (session_Validate s) eqn:Hv; simpl; [| by destruct w].
  destruct (pr_providers (sv_providers w) !! us_ServiceID s) as [e |] eqn:He; simpl; [| by destruct w].
  destruct (if _ : bool then Ok () else Err KConflict) as [[] | k]; simpl; [| by destruct w].
  destruct (store_created s b (sv_sessions w)) as [r stored] eqn:Hsc. simpl.
  assert (r = (store_created s b (sv_sessions w)).1) as -> by (by rewrite Hsc).
  pose proof (si_sessions w Hinv) as Hse.
  apply (on_sessions_inv (λ r, (store_created s b r).1)); [done | by apply store_created_wf |].
  intros i u. rewrite store_created_eq by done.
  destruct (us_index (sv_sessions w) !! session_key s) as [old |]; [destruct b |]; simpl.
  - intros [[_ <-] | [_ Hu]]%lookup_insert_Some; [right; by exists e | left; eauto].
  - left; eauto.
  - intros [[_ <-] | [_ Hu]]%lookup_insert_Some; [right; by exists e | left; eauto].
Qed.

Lemma svc_step_inv w w' : svc_step w w' → svc_inv w → svc_inv w'.
Proof.
  intros Hstep Hinv. pose proof (si_store w Hinv) as Hst. pose proof (si_sessions w Hinv) as Hse.
  destruct Hstep as [e | e v | i | i uri | i uri | i from to | i v t code | s b Hf | k old s Hk Hid Hp Hv | i | p v].
  - apply (on_providers_inv (λ _ _ _, True)); [done | by apply provider_Create_wf | apply provider_Create_kept].
  - eapply on_providers_inv; [done | by apply provider_Update_wf |].
    apply (provider_Update_kept (λ i, session_CountByService i (sv_sessions w))).
  - by apply svc_Delete_inv.
  - eapply on_providers_inv; [done | by apply AddProtectedResource_wf | apply (AddProtectedResource_kept (λ _, 0))].
  - eapply on_providers_inv; [done | by apply RemoveProtectedResource_wf | apply (RemoveProtectedResource_kept (λ _, 0))].
  - eapply on_providers_inv; [done | by apply RenameProtectedResource_wf | apply (RenameProtectedResource_kept (λ _, 0))].
  - eapply on_providers_inv; [done | by apply RecordDiscoveryFailure_wf | apply (RecordDiscoveryFailure_kept (λ _, 0))].
  - by apply svc_CreateSession_inv.
  - destruct (proj1 (ssw_index _ Hse k old) Hk) as [Hold Hkey].
    apply on_sessions_inv; [done | |].
    + eapply replace_session_wf; try done. unfold session_key in *. congruence.
    + simpl. intros i u [[_ <-] | [_ Hu]]%lookup_insert_Some; left; eauto.
  - apply on_sessions_inv; [done | by apply session_Delete_wf |]. intros j s Hs. left. exists j, s.
    unfold session_Delete in Hs. case_match; [by apply drop_session_sub in Hs | done].
  - apply on_sessions_inv; [done | by apply session_DeleteBy_wf |]. intros j s Hs. left. exists j, s.
    unfold session_DeleteByPrincipalAndService in Hs. case_match; [by apply drop_session_sub in Hs | done].
Qed.

Lemma reachable_inv w : rtc svc_step new_service_world w → svc_inv w.
Proof.
  intros Hr. assert (∀ w0, rtc svc_step w0 w → svc_inv w0 → svc_inv w) as Hi; [| by apply (Hi _ Hr new_world_inv)].
  clear Hr. induction 1; eauto using svc_step_inv.
Qed.

(** *** Every step keeps a service, unless it deletes it while no session uses it *)

Definition session_count (w : service_world) (i : ServiceID) : nat := session_CountByService i (sv_sessions w).

Lemma svc_step_service w w' i e : svc_step w w' → pr_providers (sv_providers w) !! i = Some e →
  (∃ e', pr_providers (sv_providers w') !! i = Some e' ∧ (e' = e ∨ service_change (session_count w) i e e'))
  ∨ (pr_providers (sv_providers w') !! i = None ∧ session_count w i = 0).
Proof.
  intros Hstep He.
  destruct Hstep as [d | d v | j | j uri | j uri | j from to | j v t code | s b Hf | k old s Hk Hid Hp Hv | j | p v].
  - left. by eapply provider_Create_kept.
  - left. eapply (provider_Update_kept (session_count w)), He.
  - simpl. unfold provider_Delete. case_match eqn:Hg; simpl; [left; eauto |].
    destruct (decide (j = i)) as [-> | Hne]; [| left; rewrite lookup_delete_ne by done; eauto].
    right. rewrite lookup_delete_eq. split; [done |]. unfold session_count. simpl in Hg.
    rewrite bool_decide_eq_true_2 in Hg by eauto. simpl in Hg. by breflect.
  - left. by eapply AddProtectedResource_kept.
  - left. by eapply RemoveProtectedResource_kept.
  - left. by eapply RenameProtectedResource_kept.
  - left. by eapply RecordDiscoveryFailure_kept.
  - left. exists e. split; [| by left]. unfold svc_CreateSession. by destruct (session_create _ _ _ _).
  - left. eauto.
  - left. eauto.
  - left. eauto.
Qed.

(** *** Sessions pin the issuer and the audience of a discovered service *)

(** The service exists, was discovered, and has a session. *)
Definition in_use (i : ServiceID) (w : service_world) : Prop :=
  ∃ e, pr_providers (sv_providers w) !! i = Some e ∧ discovery_backed e ∧ session_count w i ≠ 0.
Definition used_step (i : ServiceID) (w w' : service_world) : Prop := svc_step w w' ∧ in_use i w ∧ in_use i w'.

Lemma used_step_pinned i w w' e : used_step i w w' → pr_providers (sv_providers w) !! i = Some e →
  ∃ e', pr_providers (sv_providers w') !! i = Some e' ∧
    pe_IssuerURI e' = pe_IssuerURI e ∧ auth_resource e' = auth_resource e.
Proof.
  intros (Hstep & (e0 & He0 & Hd & Hn) & _) He. assert (e0 = e) by congruence. subst e0.
  destruct (svc_step_service w w' i e Hstep He) as [(e' & He' & [-> | Hch]) | [_ ?]]; [by eauto | | done].
  exists e'. split; [done |]. apply Hch; [done | by left].
Qed.

Lemma used_steps_pinned i w w' e : rtc (used_step i) w w' → pr_providers (sv_providers w) !! i = Some e →
  ∃ e', pr_providers (sv_providers w') !! i = Some e' ∧
    pe_IssuerURI e' = pe_IssuerURI e ∧ auth_resource e' = auth_resource e.
Proof.
  intros Hr. revert e. induction Hr as [w | w w1 w2 Hs _ IH]; intros e He; [eauto |].
  destruct (used_step_pinned i w w1 e Hs He) as (e1 & He1 & H1 & H2).
  destruct (IH e1 He1) as (e2 & He2 & H3 & H4). exists e2. split; [done |]. split; congruence.
Qed.

Lemma CreateSession_expected s b w w1 stored e : svc_CreateSession s b w = (w1, Ok stored) →
  pr_providers (sv_providers w) !! us_ServiceID s = Some e → discovery_backed e →
  sv_providers w1 = sv_providers w ∧
  us_ExpectedIssuerURI s = pe_IssuerURI e ∧ us_ExpectedResource s = auth_resource e.
Proof.
  unfold svc_CreateSession, session_create. intros Hc He Hd.
  destruct (negb (session_Validate s)); [by simplify_eq |]. rewrite He in Hc. unfold currentDiscoveryStateError in Hc.
  rewrite decide_True in Hc by done.
  destruct (_ && bool_decide (us_ExpectedResource s = auth_resource e)) eqn:Hm; [| by simplify_eq].
  destruct (store_created _ _ _). simplify_eq. simpl. breflect. done.
Qed.

(** Claim C26.  A session is only stored for a discovered service under the issuer and audience the
    user's authorization was started with, and they remain the service's issuer and audience
    in every later state, through any sequence of administrator and session operations,
    for as long as the service stays discovered and has a session. *)
Theorem session_stays_bound s replace w w1 wn stored e :
  svc_CreateSession s replace w = (w1, Ok stored) →
  pr_providers (sv_providers w) !! us_ServiceID s = Some e → discovery_backed e →
  rtc (used_step (us_ServiceID s)) w1 wn →
  ∃ en, pr_providers (sv_providers wn) !! us_ServiceID s = Some en ∧
    pe_IssuerURI en = us_ExpectedIssuerURI s ∧ auth_resource en = us_ExpectedResource s.
Proof.
  intros Hc He Hd Hr. destruct (CreateSession_expected s replace w w1 stored e Hc He Hd) as (Hp & -> & ->).
  apply (used_steps_pinned _ w1 wn e Hr). by rewrite Hp.
Qed.

(** *** A stale update is refused *)

Definition kept_step (i : ServiceID) (w w' : service_world) : Prop :=
  svc_step w w' ∧ is_Some (pr_providers (sv_providers w') !! i).

Lemma kept_steps_version i w w' e : rtc (kept_step i) w w' → pr_providers (sv_providers w) !! i = Some e →
  ∃ e', pr_providers (sv_providers w') !! i = Some e' ∧ (pe_Version e ≤ pe_Version e')%Z.
Proof.
  intros Hr. revert e. induction Hr as [w | w w1 w2 [Hs Hk] _ IH]; intros e He; [eauto with lia |].
  destruct (svc_step_service w w1 i e Hs He) as [(e1 & He1 & Hch) | [Hn _]]; [| by destruct Hk; congruence].
  destruct (IH e1 He1) as (e2 & He2 & Hv). exists e2. split; [done |].
  destruct Hch as [-> | [Hv' _]]; lia.
Qed.

Lemma provider_Update_version n e v r r' x : provider_Update n e (Some v) r = (r', Ok x) →
  ∃ old e', pr_providers r !! pe_ID e = Some old ∧ pe_Version old = v ∧
    pr_providers r' !! pe_ID e = Some e' ∧ pe_Version e' = (v + 1)%Z.
Proof.
  unfold provider_Update. destruct (pr_providers r !! pe_ID e) as [old |] eqn:Hi; [| done].
  destruct (bool_decide (pe_Version old = v)) eqn:Hv; [| done]. cbn [negb]. breflect.
  destruct (stale_attempt e old); [done |]. destruct (session_conflict _ _ _ _); [done |].
  destruct (match proposed_canonical e old with Some _ => _ | None => _ end); [done |].
  destruct (match providerDCRIdentity e with Some _ => _ | None => _ end); [done |].
  destruct (if decide _ then _ else _) as [X |]; [| done].
  rewrite (bool_decide_eq_true_2 (is_Some (Some v))) by eauto. cbn [andb].
  destruct (resources_owned_by_other X (pe_ID e) r); [done |].
  destruct (providerEntityToRecord _) as [record |] eqn:Hrec; [| done]. intros [= <- _].
  apply providerEntityToRecord_spec in Hrec as (src & reg & sec & -> & _).
  eexists old, _. split_and!; [done | done | by simpl; rewrite lookup_insert_eq |]. simpl. by rewrite Hv.
Qed.

(** Two administrators who read the same version of a service cannot both have their
    update stored: once one is accepted, the other is refused as a conflict and changes
    nothing, whatever happened in between, unless the service was deleted. *)
Theorem stale_update_refused n e v r' x e2 n2 w wn :
  provider_Update n e (Some v) (sv_providers w) = (r', Ok x) →
  rtc (kept_step (pe_ID e)) (SvcWorld r' (sv_sessions w)) wn →
  pe_ID e2 = pe_ID e →
  provider_Update n2 e2 (Some v) (sv_providers wn) = (sv_providers wn, Err (PStorage KConflict)).
Proof.
  intros Hu Hr Hid. destruct (provider_Update_version n e v _ _ _ Hu) as (old & e1 & _ & _ & He1 & Hv1).
  destruct (kept_steps_version _ _ _ e1 Hr He1) as (en & Hen & Hvn).
  unfold provider_Update. rewrite Hid, Hen. simpl. rewrite bool_decide_eq_false_2 by lia. done.
Qed.

(** *** What is at rest *)

(** In every reachable state no client secret is readable: a stored secret is absent or
    ciphertext, and it is absent exactly for the services that authenticate without one. *)
Theorem stored_secrets_sealed w i e :
  rtc svc_step new_service_world w → pr_providers (sv_providers w) !! i = Some e →
  GetPlaintext (pe_Secret e) = None ∧
  (IsAbsent (pe_Secret e) = true ↔
     pe_CredentialSource e = CredentialSourceFilesystem ∨ IsPublicClient e = true ∨ IsCIMDConfidentialClient e = true) ∧
  (IsAbsent (pe_Secret e) = false → is_Some (GetCiphertext (pe_Secret e))).
Proof.
  intros Hr Hi. destruct (sw_stored _ (si_store w (reachable_inv w Hr)) i e Hi) as [Hok _].
  assert (IsAbsent (pe_Secret e) = true ↔ pe_Secret e = NewAbsentSecret) as Ha.
  { destruct (so_secret e Hok) as [-> | (c & _ & ->)]; done. }
  split_and!.
  - destruct (so_secret e Hok) as [-> | (c & _ & ->)]; done.
  - rewrite Ha. pose proof (so_source e Hok) as Hs. rewrite elem_of_cons, list_elem_of_singleton in Hs.
    destruct Hs as [Hs | Hs].
    + destruct (so_stored e Hok Hs) as [_ ->]. rewrite Hs. split; [by right | by intros [? | ?]].
    + destruct (so_filesystem e Hok Hs) as (-> & _). split; [by left | done].
  - destruct (so_secret e Hok) as [-> | (c & Hc & ->)]; [done |]. intros _. unfold GetCiphertext. simpl.
    rewrite decide_False by done. by eexists.
Qed.

(** *** Protected resources *)

Lemma elem_of_resourceSetSlice x X : x ∈ resourceSetSlice X ↔ x ∈ X.
Proof. unfold resourceSetSlice. by rewrite merge_sort_Permutation, elem_of_elements. Qed.

Lemma provider_Get_spec i r e : provider_Get i r = Ok e ↔
  ∃ rec, pr_providers r !! i = Some rec ∧ e = providerRecordToEntity rec (pr_resources r !! i).
Proof. unfold provider_Get. destruct (pr_providers r !! i); naive_solver. Qed.

(** In every reachable state a token exchange resolves a resource to the one service that
    lists it: the lookup answers with a service exactly when that service, as it is stored,
    lists the normalized resource, no other service lists it, and a resource nobody lists is
    reported as unregistered. *)
Theorem resource_resolution w uri :
  rtc svc_step new_service_world w → uri ≠ "" →
  let r := sv_providers w in
  match NormalizeAndValidateProtectedResource uri, provider_FindByProtectedResource uri r with
  | Some n, Ok (Some e) =>
      n ∈ pe_ProtectedResources e ∧ provider_Get (pe_ID e) r = Ok e ∧
      ∀ i e', provider_Get i r = Ok e' → n ∈ pe_ProtectedResources e' → i = pe_ID e
  | Some n, Err err =>
      err = NewResourceUnregisteredError ∧ ∀ i e', provider_Get i r = Ok e' → n ∉ pe_ProtectedResources e'
  | Some _, Ok None => False
  | None, res => ∃ f c, res = Err (TErr f c) ∧ te_code f = "invalid_request"
  end.
Proof.
  intros Hr Hne r. pose proof (si_store w (reachable_inv w Hr)) as Hw. fold r in Hw.
  unfold provider_FindByProtectedResource. rewrite decide_False by done.
  destruct (NormalizeAndValidateProtectedResource uri) as [n |]; [| by eexists _, _].
  assert (∀ i e', provider_Get i r = Ok e' → n ∈ pe_ProtectedResources e' → resourceOwners r !! n = Some i) as Hown.
  { intros i e' (rec & Hrec & ->)%provider_Get_spec. simpl. rewrite elem_of_resourceSetSlice.
    destruct (store_resources r i rec Hw Hrec) as [X HX]. rewrite HX. simpl. by apply owner_spec. }
  destruct (resourceOwners r !! n) as [owner |] eqn:Ho.
  - destruct (proj1 (sw_owner r Hw n owner) Ho) as (X & HX & Hn).
    assert (is_Some (pr_providers r !! owner)) as [rec Hrec].
    { apply elem_of_dom. rewrite <-(sw_dom r Hw). by eapply elem_of_dom_2. }
    rewrite Hrec, HX. simpl. assert (pe_ID rec = owner) as -> by (by apply (sw_id r Hw)).
    split_and!.
    + rewrite elem_of_resourceSetSlice. by apply elem_of_elements.
    + apply provider_Get_spec. exists rec. by rewrite HX.
    + intros i e' He' Hin. pose proof (Hown i e' He' Hin). congruence.
  - split; [done |]. intros i e' He' Hin. by specialize (Hown i e' He' Hin).
Qed.

End world.

(** ** A concrete run *)

Module Demo.

Definition toy_url (s : string) : URL :=
  {| u_Scheme := "https"; u_Opaque := ""; u_User := None; u_Host := "as.example"; u_Path := ""; u_RawPath := "";
     u_OmitHost := false; u_ForceQuery := false; u_RawQuery := ""; u_Fragment := ""; u_RawFragment := "" |}.
#[global] Instance toy_GoURL : GoURL := Build_GoURL (λ s, Some (toy_url s)) (λ s, Some (toy_url s)) (λ _, "") (λ _, "") Some.
#[global] Instance toy_GoNet : GoNet := Build_GoNet (λ _, None) (λ _, None).
#[global] Instance toy_UUID : UUID := Build_UUID (λ _, None) "0".
#[global] Instance toy_parsers : ProviderParsers := Build_ProviderParsers (λ _, Some []) (λ _, None) (λ _, None).

(** A discovered service with a broker-hosted client. *)
Definition service (displayName : string) : provider :=
  {| pe_ID := "svc"; pe_CanonicalID := None; pe_ClearCanonicalID := false; pe_DisplayName := displayName;
     pe_ClientID := "https://broker/c"; pe_Secret := NewAbsentSecret; pe_CredentialSource := "";
     pe_CredentialSourceTransitioned := false; pe_CredentialSourceProvided := false; pe_ClientRegistration := "";
     pe_ClientRegistrationProvided := false; pe_ClientIDProvided := false; pe_ClientSecretProvided := false;
     pe_TokenEndpointAuthMethod := AuthMethodPrivateKeyJWT; pe_Flavor := ""; pe_IssuerURI := "https://as.example";
     pe_Discovery := MkDiscovery true None (Some "https://api.example") ClientBootstrapCIMD;
     pe_Endpoints := MkEndpoints "https://as.example/t" "https://as.example/a" ""; pe_Scopes := [];
     pe_AuthorizationParams := Some {["resource" := "https://api.example"]}; pe_ResourceExplicit := false;
     pe_DiscoveryStatus := MkStatus (Some 5%Z) (Some 5%Z) None; pe_ProtectedResources := ["https://api.example"];
     pe_Version := 0; pe_ServiceRequirements := []; pe_CreatedAt := 0; pe_UpdatedAt := 0 |}.

Definition started : UserSession :=
  {| us_ID := "s1"; us_Principal := "alice"; us_ServiceID := "svc"; us_CallbackID := "cb"; us_UpstreamClientID := None;
     us_ExpectedIssuerURI := "https://as.example"; us_ExpectedResource := "https://api.example";
     us_EncryptedAccessToken := "A"; us_EncryptedRefreshToken := "R"; us_TokenType := "Bearer";
     us_AccessTokenExpiresAt := None; us_RefreshRejectedAt := None; us_Scope := []; us_EncryptionContext := "svc";
     us_InitiatedAt := 0; us_CreatedAt := 0; us_UpdatedAt := 0 |}.

Definition w1 : service_world := on_providers (provider_Create (service "One")) new_service_world.
Definition w2 : service_world := (svc_CreateSession started true w1).1.
Definition w3 : service_world := on_providers (AddProtectedResource "svc" "https://other.example") w2.

Lemma w1_reachable : rtc svc_step new_service_world w1.
Proof. apply rtc_once. apply svc_provider_create. Qed.

Lemma w3_used : rtc (used_step "svc") w2 w3.
Proof.
  apply rtc_once. split; [apply svc_resource_add |].
  split; (eexists; split; [vm_compute; reflexivity | split; [by eexists | by vm_compute]]).
Qed.

End Demo.

Lemma session_stays_bound_witness :
  ∃ en, pr_providers (sv_providers Demo.w3) !! "svc" = Some en ∧
    pe_IssuerURI en = "https://as.example" ∧ auth_resource en = "https://api.example".
Proof.
  destruct (svc_CreateSession Demo.started true Demo.w1) as [w [stored | k]] eqn:Hc; [| by vm_compute in Hc].
  assert (w = Demo.w2) as -> by (unfold Demo.w2; by rewrite Hc).
  assert (match pr_providers (sv_providers Demo.w1) !! "svc" with
          | Some e => bool_decide (is_Some (dc_ResourceURL (pe_Discovery e))) | None => false end = true) as Hd
    by (vm_compute; reflexivity).
  destruct (pr_providers (sv_providers Demo.w1) !! "svc") as [e |] eqn:He; [| done].
  apply bool_decide_eq_true_1 in Hd.
  exact (session_stays_bound Demo.started true Demo.w1 Demo.w2 Demo.w3 stored e Hc He Hd Demo.w3_used).
Defined.

(** Two administrators edit version 1; the second gets a conflict. *)
Lemma stale_update_refused_witness :
  let e := set_pe_DiscoveryStatus (MkStatus (Some 9000%Z) (Some 9000%Z) None) (Demo.service "Two") in
  let r := (provider_Update (Some 0) e (Some 1%Z) (sv_providers Demo.w1)).1 in
  bool_decide (pr_providers r !! "svc" = None) = false ∧
  provider_Update (Some 0) (Demo.service "Three") (Some 1%Z) r = (r, Err (PStorage KConflict)).
Proof.
  intros e r. split; [vm_compute; reflexivity |].
  destruct (provider_Update (Some 0) e (Some 1%Z) (sv_providers Demo.w1)) as [r' [x | k]] eqn:Hu; [| by vm_compute in Hu].
  change r with (r', Ok x : result pstore_error provider).1.
  exact (stale_update_refused (Some 0) e 1 r' x (Demo.service "Three") (Some 0) Demo.w1
           (SvcWorld r' (sv_sessions Demo.w1)) Hu (rtc_refl _ _) eq_refl).
Defined.

Lemma stored_secrets_sealed_witness :
  rtc svc_step new_service_world Demo.w1 ∧
  match pr_providers (sv_providers Demo.w1) !! "svc" with
  | Some e => GetPlaintext (pe_Secret e) = None
  | None => False
  end.
Proof.
  split; [apply Demo.w1_reachable |].
  destruct (pr_providers (sv_providers Demo.w1) !! "svc") as [e |] eqn:He; [| by vm_compute in He].
  exact (proj1 (stored_secrets_sealed Demo.w1 "svc" e Demo.w1_reachable He)).
Defined.

Lemma resource_resolution_witness :
  match NormalizeAndValidateProtectedResource "https://api.example",
        provider_FindByProtectedResource "https://api.example" (sv_providers Demo.w1) with
  | Some n, Ok (Some e) => n ∈ pe_ProtectedResources e ∧ provider_Get (pe_ID e) (sv_providers Demo.w1) = Ok e
  | _, _ => False
  end.
Proof.
  pose proof (resource_resolution Demo.w1 "https://api.example" Demo.w1_reachable ltac:(done)) as Hr. cbv zeta in Hr.
  destruct (NormalizeAndValidateProtectedResource "https://api.example") as [n |] eqn:Hn; [| by vm_compute in Hn].
  destruct (provider_FindByProtectedResource "https://api.example" (sv_providers Demo.w1)) as [[e |] | err] eqn:Hf;
    [| by vm_compute in Hf | by vm_compute in Hf].
  exact (conj (proj1 Hr) (proj1 (proj2 Hr))).
Defined.
