(* ===== verification/SessionExpiry.v ===== *)
(** * The pages of a session sweep

    The bounded max-heap of [ListExpiringSessions] selects the earliest sessions: whatever
    the order the map is visited in, a page is the prefix of the sorted list of the due
    sessions after the cursor. *)

From S2P Require Import Prelude ToolApproval ApprovalStore ApprovalHandlers OAuthSessions UserGrants Consent UriValidation NetPolicy Providers UserSessions ServiceSessions.

(** ** The order on keys *)

Lemma session_le_spec s u : session_le s u ↔
  (us_expiry s < us_expiry u)%Z ∨ us_expiry s = us_expiry u ∧ String.le (us_ID s) (us_ID u).
Proof.
  unfold session_le, session_lt, compareSessionExpiryKey, compareExpiryKey, String.le, String.leb.
  rewrite (String.compare_antisym (us_ID s) (us_ID u)).
  destruct (Z.compare_spec (us_expiry u) (us_expiry s)) as [E | E | E].
  - rewrite E. destruct (String.compare (us_ID u) (us_ID s)); simpl;
      (split; [intros; try done; right; done | intros [? | [_ ?]]; [lia | done]]).
  - split; [done |]. intros [? | [? _]]; lia.
  - split; [by left | done].
Qed.

#[export] Instance session_le_trans : Transitive session_le.
Proof.
  intros s u v. rewrite !session_le_spec.
  intros [H1 | [H1 H1']] [H2 | [H2 H2']]; [left; lia | left; lia | left; lia |].
  right. split; [congruence |]. by etrans.
Qed.
#[export] Instance session_le_total : Total session_le.
Proof.
  intros s u. rewrite !session_le_spec. destruct (Z.lt_trichotomy (us_expiry s) (us_expiry u)) as [? | [E | ?]]; [by left; left | | by right; left].
  destruct (total String.le (us_ID s) (us_ID u)); [left | right]; right; done.
Qed.
#[export] Instance session_le_refl : Reflexive session_le.
Proof. intros s. destruct (total session_le s s); done. Qed.

Lemma session_le_id s u : session_le s u → session_le u s → us_ID s = us_ID u.
Proof. rewrite !session_le_spec. intros [? | [? H1]] [? | [? H2]]; try lia. by apply (anti_symm String.le). Qed.

Lemma session_lt_false s u : session_lt s u = false ↔ session_le u s.
Proof. done. Qed.
Lemma session_lt_true s u : session_lt s u = true → session_le s u ∧ ¬ session_le u s.
Proof.
  intros Hlt. assert (¬ session_le u s) as Hn by (unfold session_le; congruence).
  split; [| done]. by destruct (total session_le s u).
Qed.

(** ** Swapping two elements *)

Lemma swap_lookup l i j k : i < length l → j < length l →
  swap l i j !! k = if decide (k = j) then l !! i else if decide (k = i) then l !! j else l !! k.
Proof.
  intros Hi Hj. unfold swap. destruct (lookup_lt_is_Some_2 l i Hi) as [x Hx], (lookup_lt_is_Some_2 l j Hj) as [y Hy].
  rewrite Hx, Hy. case_decide as Hkj.
  - subst k. rewrite list_lookup_insert_eq; [done |]. by rewrite length_insert.
  - rewrite list_lookup_insert_ne by done. case_decide as Hki.
    + subst k. by rewrite list_lookup_insert_eq.
    + by rewrite list_lookup_insert_ne.
Qed.

Lemma swap_length l i j : length (swap l i j) = length l.
Proof. unfold swap. repeat case_match; [| done | done]. by rewrite !length_insert. Qed.

Lemma swap_Permutation l i j : i < length l → j < length l → swap l i j ≡ₚ l.
Proof.
  intros Hi Hj. apply Permutation_inj. split; [apply swap_length |].
  exists (λ k, if decide (k = j) then i else if decide (k = i) then j else k). split.
  - intros k k'. repeat case_decide; congruence.
  - intros k. rewrite swap_lookup by done. by repeat case_decide.
Qed.

(** ** Heaps *)

Abbreviation par i := ((i - 1) / 2).

Definition heap (l : list UserSession) : Prop :=
  ∀ i x y, 0 < i → l !! i = Some x → l !! par i = Some y → session_le x y.

(** A heap but for the element at [c], whose children are below its parent. *)
Definition heap_up (l : list UserSession) (c : nat) : Prop :=
  (∀ i x y, 0 < i → i ≠ c → l !! i = Some x → l !! par i = Some y → session_le x y) ∧
  (∀ i x y, 0 < i → 0 < c → par i = c → l !! i = Some x → l !! par c = Some y → session_le x y).

(** A heap but for the element at [p], whose children are below its parent. *)
Definition heap_down (l : list UserSession) (p : nat) : Prop :=
  (∀ i x y, 0 < i → par i ≠ p → l !! i = Some x → l !! par i = Some y → session_le x y) ∧
  (∀ i x y, 0 < i → 0 < p → par i = p → l !! i = Some x → l !! par p = Some y → session_le x y).

Lemma par_lt i : 0 < i → par i < i.
Proof. intros Hi. apply Nat.Div0.div_lt_upper_bound. lia. Qed.
Lemma par_cases i p : 0 < i → par i = p ↔ i = p * 2 + 1 ∨ i = p * 2 + 2.
Proof.
  intros Hi. pose proof (Nat.div_mod (i - 1) 2 ltac:(lia)) as Hd. pose proof (Nat.mod_upper_bound (i - 1) 2 ltac:(lia)).
  split; [intros <-; lia |]. intros Hc. symmetry. apply Nat.div_unique with ((i - 1) - 2 * p); lia.
Qed.

(** The step of [sift_up]: the hole moves to the parent. *)
Lemma heap_up_swap l c x y : 0 < c → l !! par c = Some y → l !! c = Some x → session_le y x →
  heap_up l c → heap_up (swap l (par c) c) (par c).
Proof.
  intros Hc Hy Hx Hyx [H1 H2]. pose proof (par_lt c Hc) as Hp.
  assert (c < length l) as Hlc by (by eapply lookup_lt_Some).
  assert (par c < length l) as Hlp by lia. set (p := par c) in *.
  assert (∀ k, swap l p c !! k = if decide (k = c) then Some y else if decide (k = p) then Some x else l !! k) as Hl.
  { intros k. rewrite swap_lookup by done. by rewrite Hx, Hy. }
  split.
  - intros i a b Hi Hip. rewrite !Hl. pose proof (par_lt i Hi) as Hpi.
    destruct (decide (i = c)) as [-> | Hic].
    + intros [= <-]. rewrite decide_False by lia. rewrite decide_True by done. intros [= <-]. done.
    + rewrite (decide_False (P := i = p)) by done. intros Ha.
      destruct (decide (par i = c)) as [Hpc | Hpc].
      * intros [= <-]. eapply H2; [exact Hi | exact Hc | exact Hpc | exact Ha | exact Hy].
      * destruct (decide (par i = p)) as [Hpp | Hpp].
        -- intros [= <-]. trans y; [| done]. eapply H1; [exact Hi | exact Hic | exact Ha | by rewrite Hpp].
        -- intros Hb. by eapply H1.
  - intros i a b Hi Hp0 Hpi. rewrite !Hl. pose proof (par_lt p Hp0) as Hpp.
    rewrite (decide_False (P := par p = c)) by lia. rewrite (decide_False (P := par p = p)) by lia. intros Ha Hb.
    destruct (decide (i = c)) as [-> | Hic].
    + simplify_eq. eapply H1; [exact Hp0 | lia | exact Hy | exact Hb].
    + destruct (decide (i = p)) as [-> | Hip]; [lia |]. trans y.
      * eapply H1; [exact Hi | exact Hic | exact Ha | by rewrite Hpi].
      * eapply H1; [exact Hp0 | lia | exact Hy | exact Hb].
Qed.

Lemma sift_up_spec fuel l c : c < fuel → c < length l → heap_up l c → heap (sift_up fuel l c) ∧ sift_up fuel l c ≡ₚ l.
Proof.
  revert l c. induction fuel as [| fuel IH]; intros l c Hf Hc Hup; [lia |]. cbn [sift_up].
  case_decide as H0. { subst c. split; [| done]. intros i x y Hi. apply Hup; lia. }
  pose proof (par_lt c ltac:(lia)) as Hp.
  destruct (lookup_lt_is_Some_2 l (par c) ltac:(lia)) as [y Hy], (lookup_lt_is_Some_2 l c Hc) as [x Hx].
  rewrite Hy, Hx. destruct (session_lt y x) eqn:Hlt.
  - apply session_lt_true in Hlt as [Hyx _].
    destruct (IH (swap l (par c) c) (par c)) as [Hh Hperm]; [lia | rewrite swap_length; lia | |].
    + apply (heap_up_swap l c x y); [lia | done..].
    + split; [done |]. rewrite Hperm. apply swap_Permutation; lia.
  - split; [| done]. intros i a b Hi Ha Hb. destruct (decide (i = c)) as [-> | Hne]; [| by eapply (proj1 Hup)].
    rewrite Hx in Ha. rewrite Hy in Hb. by simplify_eq.
Qed.

(** The step of [sift_down]: the hole moves to the larger child [c]. *)
Lemma heap_down_swap l p c x y : 0 < c → par c = p → l !! p = Some y → l !! c = Some x → session_le y x →
  (∀ i z, 0 < i → par i = p → l !! i = Some z → session_le z x) →
  heap_down l p → heap_down (swap l p c) c.
Proof.
  intros Hc0 Hpc Hy Hx Hyx Hmax [H1 H2]. pose proof (par_lt c Hc0) as Hp. rewrite Hpc in Hp.
  assert (c < length l) as Hlc by (by eapply lookup_lt_Some). assert (p < length l) as Hlp by lia.
  assert (∀ k, swap l p c !! k = if decide (k = c) then Some y else if decide (k = p) then Some x else l !! k) as Hl.
  { intros k. rewrite swap_lookup by done. by rewrite Hx, Hy. }
  split.
  - intros i a b Hi Hic. rewrite !Hl. pose proof (par_lt i Hi) as Hpi. rewrite (decide_False (P := par i = c)) by done.
    destruct (decide (i = c)) as [-> | Hne].
    + intros [= <-]. rewrite (decide_True (P := par c = p)) by done. by intros [= <-].
    + destruct (decide (i = p)) as [-> | Hip].
      * intros [= <-]. rewrite decide_False by lia. intros Hb.
        eapply H2; [exact Hc0 | exact Hi | exact Hpc | exact Hx | exact Hb].
      * intros Ha. destruct (decide (par i = p)) as [Hpp | Hpp].
        -- intros [= <-]. by eapply Hmax.
        -- intros Hb. by eapply H1.
  - intros i a b Hi _ Hpi. pose proof (par_lt i Hi) as Hlt. rewrite !Hl, Hpc.
    rewrite (decide_False (P := p = c)) by lia. rewrite (decide_True (P := p = p)) by done.
    rewrite (decide_False (P := i = c)) by lia. rewrite (decide_False (P := i = p)) by lia.
    intros Ha [= <-]. eapply (H1 i); [exact Hi | lia | exact Ha | by rewrite Hpi].
Qed.

Lemma heap_down_done l p : length l ≤ p * 2 + 1 → heap_down l p → heap l.
Proof.
  intros Hl [H1 _] i x y Hi Hx Hy. eapply H1; [exact Hi | | exact Hx | exact Hy].
  intros Hp%par_cases; [| done]. apply lookup_lt_Some in Hx. lia.
Qed.

(** The larger child. *)
Definition larger_child (l : list UserSession) (p : nat) : nat :=
  match l !! (p * 2 + 1), l !! S (p * 2 + 1) with
  | Some c, Some d => if session_lt c d then S (p * 2 + 1) else p * 2 + 1
  | _, _ => p * 2 + 1
  end.

Lemma larger_child_spec l p : p * 2 + 1 < length l →
  par (larger_child l p) = p ∧ 0 < larger_child l p ∧
  ∃ x, l !! larger_child l p = Some x ∧ ∀ i z, 0 < i → par i = p → l !! i = Some z → session_le z x.
Proof.
  intros Hl. unfold larger_child. destruct (lookup_lt_is_Some_2 l _ Hl) as [c Hc]. rewrite Hc.
  destruct (l !! S (p * 2 + 1)) as [d |] eqn:Hd; [destruct (session_lt c d) eqn:Hlt |].
  - split_and!; [apply par_cases; lia | lia |]. exists d. split; [done |].
    intros i z Hi Hp%par_cases Hz; [| done]. destruct Hp as [-> | ->].
    + apply session_lt_true in Hlt as [? _]. by simplify_eq.
    + replace (p * 2 + 2) with (S (p * 2 + 1)) in Hz by lia. by simplify_eq.
  - split_and!; [apply par_cases; lia | lia |]. exists c. split; [done |].
    intros i z Hi Hp%par_cases Hz; [| done]. destruct Hp as [-> | ->]; [by simplify_eq |].
    replace (p * 2 + 2) with (S (p * 2 + 1)) in Hz by lia. by simplify_eq.
  - split_and!; [apply par_cases; lia | lia |]. exists c. split; [done |].
    intros i z Hi Hp%par_cases Hz; [| done]. destruct Hp as [-> | ->]; [by simplify_eq |].
    replace (p * 2 + 2) with (S (p * 2 + 1)) in Hz by lia. congruence.
Qed.

Lemma sift_down_spec fuel l p : length l ≤ p + fuel → p < length l → heap_down l p →
  heap (sift_down fuel l p) ∧ sift_down fuel l p ≡ₚ l.
Proof.
  revert l p. induction fuel as [| fuel IH]; intros l p Hf Hp Hd; [lia |]. cbn [sift_down].
  case_decide as Hend. { split; [by eapply heap_down_done | done]. }
  fold (larger_child l p). set (c := larger_child l p).
  destruct (larger_child_spec l p ltac:(lia)) as (Hpc & Hc0 & x & Hx & Hmax). fold c in Hpc, Hc0, Hx.
  pose proof (par_lt c Hc0) as Hlt. rewrite Hpc in Hlt.
  assert (c < length l) as Hcl by (by eapply lookup_lt_Some).
  destruct (lookup_lt_is_Some_2 l p Hp) as [y Hy]. rewrite Hy, Hx. destruct (session_lt y x) eqn:Hyx.
  - apply session_lt_true in Hyx as [Hyx _].
    destruct (IH (swap l p c) c) as [Hh Hperm]; [rewrite swap_length; lia | by rewrite swap_length | |].
    + by apply (heap_down_swap l p c x y).
    + split; [done |]. rewrite Hperm. by apply swap_Permutation.
  - split; [| done]. intros i a b Hi Ha Hb. destruct (decide (par i = p)) as [Hpp | Hne]; [| by eapply (proj1 Hd)].
    trans x; [by eapply Hmax |]. rewrite Hpp, Hy in Hb. by simplify_eq.
Qed.

(** The root of a heap is its latest element. *)
Lemma heap_root l r x : heap (r :: l) → x ∈ r :: l → session_le x r.
Proof.
  intros Hh (i & Hi)%list_elem_of_lookup. revert x Hi.
  induction (lt_wf i) as [i _ IH]; intros x Hi. destruct (decide (i = 0)) as [-> | Hne].
  { simpl in Hi. by simplify_eq. }
  pose proof (par_lt i ltac:(lia)) as Hp. pose proof (lookup_lt_Some _ _ _ Hi) as Hl.
  destruct (lookup_lt_is_Some_2 (r :: l) (par i) ltac:(lia)) as [y Hy].
  trans y; [by eapply Hh; [| exact Hi | exact Hy]; lia | by eapply IH].
Qed.

(** ** The selection *)

(** [h] holds the earliest [limit] elements of [P], and is a heap. *)
Definition selects (limit : nat) (h P : list UserSession) : Prop :=
  heap h ∧ ∃ R, P ≡ₚ h ++ R ∧ (∀ x y, x ∈ h → y ∈ R → session_le x y) ∧
    length h ≤ limit ∧ (R ≠ [] → length h = limit).

Lemma heap_add_selects limit h P s : 0 < limit → selects limit h P → selects limit (heap_add limit h s) (P ++ [s]).
Proof.
  intros Hlim (Hh & R & HP & Hle & Hlen & HR). unfold heap_add. case_decide as Hl.
  - destruct (sift_up_spec (S (length h)) (h ++ [s]) (length h)) as [H1 H2]; [lia | rewrite length_app; simpl; lia | |].
    { split.
      - intros i x y Hi Hne Hx Hy. pose proof (par_lt i Hi). apply lookup_lt_Some in Hx as Hx'. rewrite length_app in Hx'. simpl in Hx'.
        rewrite lookup_app_l in Hx, Hy by lia. by eapply Hh.
      - intros i x y Hi _ Hp Hx. pose proof (par_lt i Hi). apply lookup_lt_Some in Hx. rewrite length_app in Hx. simpl in Hx. lia. }
    destruct (decide (R = [])) as [-> | HRne]; [| specialize (HR HRne); lia].
    split; [done |]. exists []. rewrite H2, HP, !app_nil_r.
    split_and!; [done | set_solver | rewrite length_app; simpl; lia | done].
  - destruct h as [| root rest]; [simpl in *; lia |]. destruct (session_lt s root) eqn:Hs.
    + apply session_lt_true in Hs as [Hs _].
      destruct (sift_down_spec (length (root :: rest)) (s :: rest) 0) as [H1 H2]; [simpl; lia | simpl; lia | |].
      { split; [| intros; lia]. intros i x y Hi Hp Hx Hy. pose proof (par_lt i Hi).
        destruct i as [| i]; [lia |]. destruct (par (S i)) as [| j] eqn:Hj; [done |].
        eapply (Hh (S i)); [lia | exact Hx | by rewrite Hj]. }
      split; [done |]. exists (root :: R). split_and!.
      * rewrite H2, HP, (Permutation_app_comm _ [s]). simpl. constructor. apply Permutation_middle.
      * intros x y. rewrite H2, !elem_of_cons. intros Hx Hy.
        assert (session_le x root) as Hxr.
        { destruct Hx as [-> | Hx]; [done |]. eapply heap_root; [exact Hh | by right]. }
        destruct Hy as [-> | Hy]; [done |]. trans root; [done |]. apply Hle; [by left | done].
      * rewrite H2. simpl in *. lia.
      * intros _. rewrite H2. simpl in *. lia.
    + apply session_lt_false in Hs. split; [done |]. exists (R ++ [s]). split_and!.
      * by rewrite HP, app_assoc.
      * intros x y Hx [Hy | ->%list_elem_of_singleton]%elem_of_app; [by apply Hle |].
        trans root; [by eapply heap_root | done].
      * done.
      * intros _. simpl in *. lia.
Qed.

Lemma heap_adds_select limit l : 0 < limit → selects limit (foldl (heap_add limit) [] l) l.
Proof.
  intros Hlim. induction l as [| s l IH] using rev_ind.
  - split; [by intros i x y Hi ? |]. exists []. split_and!; [done | set_solver | simpl; lia | done].
  - rewrite foldl_app. simpl. by apply heap_add_selects.
Qed.

(** Two sorted arrangements of sessions with distinct ids are equal. *)
Lemma sorted_sessions_unique l1 l2 : NoDup (us_ID <$> l1) → l1 ≡ₚ l2 →
  Sorted session_le l1 → Sorted session_le l2 → l1 = l2.
Proof.
  intros Hnd Hp H1 H2. apply (Sorted_unique_strong session_le); [| done..].
  intros x y Hx Hy Hxy Hyx. rewrite <-Hp in Hy. pose proof (session_le_id x y Hxy Hyx) as Hid.
  apply list_elem_of_lookup in Hx as [i Hi]. apply list_elem_of_lookup in Hy as [j Hj].
  assert (i = j) as <-; [| congruence]. eapply (NoDup_lookup _ _ _ (us_ID x)); [exact Hnd | |].
  - by rewrite list_lookup_fmap, Hi.
  - by rewrite list_lookup_fmap, Hj; simpl; rewrite Hid.
Qed.

Lemma StronglySorted_app_le (l1 l2 : list UserSession) : StronglySorted session_le l1 → StronglySorted session_le l2 →
  (∀ x y, x ∈ l1 → y ∈ l2 → session_le x y) → StronglySorted session_le (l1 ++ l2).
Proof. intros. by apply StronglySorted_app. Qed.

Lemma select_expiring_take threshold cursor limit visit :
  0 < limit → NoDup (us_ID <$> visit) →
  select_expiring threshold cursor limit visit =
  take limit (merge_sort session_le (filter (λ s, expiring threshold cursor s = true) visit)).
Proof.
  intros Hlim Hnd. unfold select_expiring. set (P := filter _ visit).
  assert (NoDup (us_ID <$> P)) as HndP.
  { subst P. eapply sublist_NoDup; [exact Hnd | apply fmap_sublist, sublist_filter]. }
  destruct (heap_adds_select limit P Hlim) as (_ & R & HP & Hle & Hlen & HR).
  set (h := foldl (heap_add limit) [] P) in *.
  assert (merge_sort session_le P = merge_sort session_le h ++ merge_sort session_le R) as ->.
  { apply sorted_sessions_unique.
    - by rewrite merge_sort_Permutation.
    - by rewrite !merge_sort_Permutation.
    - apply Sorted_merge_sort; apply _.
    - apply StronglySorted_Sorted, StronglySorted_app_le; try (apply StronglySorted_merge_sort; apply _).
      intros x y. rewrite !merge_sort_Permutation. apply Hle. }
  assert (length (merge_sort session_le h) = length h) as Hlh by (by rewrite merge_sort_Permutation).
  destruct (decide (R = [])) as [-> | HRne].
  - replace (merge_sort session_le []) with (@nil UserSession) by done. rewrite app_nil_r, firstn_all2; [done | lia].
  - rewrite take_app_length'; [done |]. rewrite Hlh. symmetry. by apply HR.
Qed.

(** ** Pages *)

Lemma all_sessions_NoDup r : sessions_wf r → NoDup (us_ID <$> all_sessions r).
Proof.
  intros Hw. unfold all_sessions. rewrite <-list_fmap_compose.
  rewrite (list_fmap_ext _ fst).
  - apply NoDup_fst_map_to_list.
  - intros k [i s] Hk. simpl. apply list_elem_of_lookup_2, elem_of_map_to_list in Hk. by eapply session_lookup_id.
Qed.

(** The sessions due at [threshold] after [cursor], earliest first. *)
Definition due_sessions (threshold : time) (cursor : SessionExpiryCursor) (r : UserSessionRepository) : list UserSession :=
  merge_sort session_le (filter (λ s, expiring threshold cursor s = true) (all_sessions r)).

Lemma select_expiring_due r visit threshold cursor limit : sessions_wf r → visit ≡ₚ all_sessions r → 0 < limit →
  select_expiring threshold cursor limit visit = take limit (due_sessions threshold cursor r).
Proof.
  intros Hw Hv Hlim. pose proof (all_sessions_NoDup r Hw) as Hnd.
  rewrite select_expiring_take; [| done | by rewrite Hv]. f_equal. apply sorted_sessions_unique.
  - rewrite merge_sort_Permutation, Hv. eapply sublist_NoDup; [exact Hnd | apply fmap_sublist, sublist_filter].
  - unfold due_sessions. by rewrite !merge_sort_Permutation, Hv.
  - apply Sorted_merge_sort; apply _.
  - apply Sorted_merge_sort; apply _.
Qed.

(** A page of the sweep is the prefix of the sorted due sessions, whatever the
    order in which the map is visited. *)
Theorem sweep_page_exact r visit threshold cursor limit (Hw : sessions_wf r) (Hv : visit ≡ₚ all_sessions r)
    (Hlim : (1 ≤ limit ≤ 1000)%Z) (Hcur : nonzero_id (cur_ID cursor) = true ∨ IsZero (cur_AccessTokenExpiresAt cursor) = true) :
  ∃ due, due ≡ₚ filter (λ s, expiring threshold cursor s = true) (all_sessions r) ∧ StronglySorted session_le due ∧
    ListExpiringSessions threshold cursor limit visit = Ok (take (Z.to_nat limit) due).
Proof.
  exists (due_sessions threshold cursor r). split_and!.
  - apply merge_sort_Permutation.
  - apply StronglySorted_merge_sort; apply _.
  - unfold ListExpiringSessions. rewrite bool_decide_true by done. simpl.
    replace (negb (nonzero_id _) && negb (IsZero _)) with false by (destruct Hcur as [-> | ->]; by rewrite ?andb_false_r).
    rewrite (select_expiring_due r) by (done || lia). done.
Qed.

Module SweepDemo.

Definition session (i v : string) (expires : time) : UserSession :=
  {| us_ID := i; us_Principal := "alice"; us_ServiceID := v; us_CallbackID := "cb"; us_UpstreamClientID := None;
     us_ExpectedIssuerURI := ""; us_ExpectedResource := "";
     us_EncryptedAccessToken := "A"; us_EncryptedRefreshToken := "R"; us_TokenType := "Bearer";
     us_AccessTokenExpiresAt := Some expires; us_RefreshRejectedAt := None; us_Scope := []; us_EncryptionContext := v;
     us_InitiatedAt := 1; us_CreatedAt := 1; us_UpdatedAt := 1 |}.

Definition add (s : UserSession) (r : UserSessionRepository) := store_refreshed (session_key s) s r.
Definition repo : UserSessionRepository :=
  add (session "s3" "v3" 20) (add (session "s2" "v2" 30) (add (session "s1" "v1" 10) NewUserSessionRepository)).

Lemma repo_wf : sessions_wf repo.
Proof.
  unfold repo, add. do 3 (apply insert_session_wf; [| vm_compute; reflexivity ..]). apply new_sessions_wf.
Qed.

End SweepDemo.

Lemma sweep_page_exact_witness :
  let cursor := MkCursor 0 zero_uuid in
  ListExpiringSessions 25 cursor 1 (all_sessions SweepDemo.repo) = Ok [SweepDemo.session "s1" "v1" 10] ∧
  ∃ due, due ≡ₚ filter (λ s, expiring 25 cursor s = true) (all_sessions SweepDemo.repo) ∧ StronglySorted session_le due ∧
    ListExpiringSessions 25 cursor 1 (all_sessions SweepDemo.repo) = Ok (take 1 due).
Proof.
  intros cursor. split; [vm_compute; reflexivity |].
  refine (sweep_page_exact SweepDemo.repo (all_sessions SweepDemo.repo) 25 cursor 1 SweepDemo.repo_wf (Permutation_refl _) _ _).
  - lia.
  - right. vm_compute. reflexivity.
Defined.
