(* ===== verification/SessionLocks.v ===== *)
(** * Programs that take locks

    The per-session locks of internal/adapters/storage/memory/user_session.go
    ([lockSession], [unlockSession]) as primitives of a program, the interleavings of such
    programs, and a rely-guarantee logic for them: what a lock protects changes only
    through its holder.  A verified pool never deadlocks and always terminates. *)

From S2P Require Import Prelude ToolApproval ApprovalStore OAuthSessions UserGrants Consent BrokerErrors.

(** ** Programs *)

(** A program is a sequence of atomic actions, waits for a lock and releases.  A wait is
    answered [None] with the lock held, or with the error of the caller's context, which
    [dn] reads off the world. *)
Inductive lprog (W A : Type) : Type :=
  | LRet (a : A)
  | LAct {X : Type} (f : W → W * X) (k : X → lprog W A)
  | LLock (key : string) (dn : W → option ctx_error) (k : option ctx_error → lprog W A)
  | LUnlock (key : string) (k : lprog W A).
Arguments LRet {W A} a.
Arguments LAct {W A X} f k.
Arguments LLock {W A} key dn k.
Arguments LUnlock {W A} key k.

Fixpoint lbind {W A B} (p : lprog W A) (g : A → lprog W B) : lprog W B :=
  match p with
  | LRet a => g a
  | LAct f k => LAct f (λ x, lbind (k x) g)
  | LLock key dn k => LLock key dn (λ e, lbind (k e) g)
  | LUnlock key k => LUnlock key (lbind k g)
  end.

Definition lact {W X} (f : W → W * X) : lprog W X := LAct f LRet.
Definition unlock {W} (key : string) : lprog W unit := LUnlock key (LRet ()).

#[export] Instance lprog_ret W : MRet (lprog W) := λ A a, LRet a.
#[export] Instance lprog_bind W : MBind (lprog W) := λ A B g p, lbind p g.

(** ** Pools *)

Record lpool W A := LPool { lp_world : W; lp_locks : gmap string nat; lp_threads : list (lprog W A) }.
Arguments LPool {W A} _ _ _.
Arguments lp_world {W A} _.
Arguments lp_locks {W A} _.
Arguments lp_threads {W A} _.

(** One step of thread [i]: an action, a wait that ends, or a release. *)
Inductive lstep {W A} : lpool W A → lpool W A → Prop :=
  | step_act w L ps i X (f : W → W * X) k :
      ps !! i = Some (LAct f k) →
      lstep (LPool w L ps) (LPool (f w).1 L (<[i := k (f w).2]> ps))
  | step_lock w L ps i key dn k :
      ps !! i = Some (LLock key dn k) → L !! key = None →
      lstep (LPool w L ps) (LPool w (<[key := i]> L) (<[i := k None]> ps))
  | step_cancel w L ps i key dn k e :
      ps !! i = Some (LLock key dn k) → dn w = Some e →
      lstep (LPool w L ps) (LPool w L (<[i := k (Some e)]> ps))
  | step_unlock w L ps i key k :
      ps !! i = Some (LUnlock key k) → L !! key = Some i →
      lstep (LPool w L ps) (LPool w (delete key L) (<[i := k]> ps)).

Definition finished {W A} (p : lprog W A) : Prop := match p with LRet _ => True | _ => False end.
#[export] Instance finished_dec {W A} (p : lprog W A) : Decision (finished p).
Proof. destruct p; simpl; apply _. Defined.

(** Run a pool by a schedule of thread indices; a thread that is done or waits for a lock
    that is held is skipped. *)
Fixpoint lschedule {W A} (order : list nat) (c : lpool W A) : lpool W A :=
  match order with
  | [] => c
  | i :: order =>
      let '(LPool w L ps) := c in
      lschedule order
        match ps !! i with
        | Some (LAct f k) => LPool (f w).1 L (<[i := k (f w).2]> ps)
        | Some (LLock key dn k) =>
            match L !! key with None => LPool w (<[key := i]> L) (<[i := k None]> ps) | Some _ => c end
        | Some (LUnlock key k) =>
            if decide (L !! key = Some i) then LPool w (delete key L) (<[i := k]> ps) else c
        | _ => c
        end
  end.

Lemma lschedule_steps {W A} order (c : lpool W A) : rtc lstep c (lschedule order c).
Proof.
  revert c. induction order as [| i order IH]; intros [w L ps]; simpl; [done |].
  destruct (ps !! i) as [[a | X f k | key dn k | key k] |] eqn:Hi; [apply IH | | | | apply IH].
  - eapply rtc_l; [by eapply step_act | apply IH].
  - destruct (L !! key) eqn:HL; [apply IH |]. eapply rtc_l; [by eapply step_lock | apply IH].
  - case_decide as HL; [| apply IH]. eapply rtc_l; [by eapply step_unlock | apply IH].
Qed.

(** ** Termination *)

Section termination.
Context {W A : Type}.

(** What a step leaves of a program. *)
Definition rest (q p : lprog W A) : Prop :=
  match p with
  | LRet _ => False
  | LAct f k => ∃ x, q = k x
  | LLock _ _ k => ∃ e, q = k e
  | LUnlock _ k => q = k
  end.

Lemma rest_wf : well_founded rest.
Proof.
  intros p. induction p as [a | X f k IH | key dn k IH | key k IH]; constructor; intros q Hq; simpl in Hq.
  - done.
  - destruct Hq as [x ->]. apply IH.
  - destruct Hq as [e ->]. apply IH.
  - by rewrite Hq.
Qed.

(** One thread of the list advances. *)
Definition advance (qs ps : list (lprog W A)) : Prop :=
  ∃ i p q, ps !! i = Some p ∧ rest q p ∧ qs = <[i := q]> ps.

Lemma advance_wf : well_founded advance.
Proof.
  intros ps. induction ps as [| p ps IH].
  { constructor. intros qs (i & p & q & Hi & _). done. }
  revert ps IH. induction (rest_wf p) as [p _ IHp]. intros ps Hps. induction Hps as [ps Hps IHps].
  constructor. intros qs ([| i] & p' & q & Hi & Hr & ->); simpl in *.
  - simplify_eq. apply IHp; [done |]. by constructor.
  - apply IHps. by exists i, p', q.
Qed.

Lemma lstep_advance (c c' : lpool W A) : lstep c c' → advance (lp_threads c') (lp_threads c).
Proof.
  destruct 1 as [w L ps i X f k Hi | w L ps i key dn k Hi HL | w L ps i key dn k e Hi He | w L ps i key k Hi HL];
    simpl; exists i; eexists _, _; (split; [exact Hi | split; [simpl; eauto | done]]).
Qed.

(** Every execution is finite. *)
Lemma lstep_terminates (c : lpool W A) : Acc (λ c2 c1 : lpool W A, lstep c1 c2) c.
Proof.
  revert c. assert (∀ ps (c : lpool W A), lp_threads c = ps → Acc (λ c2 c1, lstep c1 c2) c) as Hps; [| eauto].
  intros ps. induction (advance_wf ps) as [ps _ IH]. intros c <-. constructor. intros c' Hc%lstep_advance. by eapply IH.
Qed.
End termination.

(** ** The logic

    [prot key w] is what the lock of [key] protects, [inv] the invariant every step
    keeps.  [safe h h' Q p w]: run from [w] holding the lock [h], with steps of other
    threads in between, [p] keeps the invariant, changes what a lock protects only while
    holding it, waits only when it holds none, and returns a value [a] with [Q] while
    holding [h' a]. *)

Section logic.
Context {W P : Type} (inv : W → Prop) (prot : string → W → P).

(** What others leave alone while this thread holds [h]. *)
Definition rely (h : option string) (w w' : W) : Prop := ∀ key, h = Some key → prot key w' = prot key w.
(** What a thread that holds [h] may do. *)
Definition guar (h : option string) (w w' : W) : Prop := inv w' ∧ ∀ key, h ≠ Some key → prot key w' = prot key w.

#[export] Instance rely_preorder h : PreOrder (rely h).
Proof.
  split; [by intros w key |]. intros w1 w2 w3 H12 H23 key Hk. by rewrite H23, H12.
Qed.

Lemma rely_none w w' : rely None w w'.
Proof. by intros key. Qed.

Fixpoint safe {A} (h : option string) (h' : A → option string) (Q : A → W → Prop) (p : lprog W A) (w : W) : Prop :=
  match p with
  | LRet a => h = h' a ∧ ∀ w1, inv w1 → rely h w w1 → Q a w1
  | LAct f k => ∀ w1, inv w1 → rely h w w1 → guar h w1 (f w1).1 ∧ safe h h' Q (k (f w1).2) (f w1).1
  | LLock key dn k => h = None ∧ ∀ w1, inv w1 →
      safe (Some key) h' Q (k None) w1 ∧ ∀ e, dn w1 = Some e → safe None h' Q (k (Some e)) w1
  | LUnlock key k => h = Some key ∧ ∀ w1, inv w1 → rely h w w1 → safe None h' Q k w1
  end.

Lemma safe_rely {A} h h' (Q : A → W → Prop) p w w' : rely h w w' → safe h h' Q p w → safe h h' Q p w'.
Proof.
  intros Hr. destruct p as [a | X f k | key dn k | key k]; simpl.
  - intros [-> HQ]. split; [done |]. intros w1 Hi Hw1. apply HQ; [done | by etrans].
  - intros Hp w1 Hi Hw1. apply Hp; [done | by etrans].
  - done.
  - intros [-> Hp]. split; [done |]. intros w1 Hi Hw1. apply Hp; [done | by etrans].
Qed.

Lemma safe_bind {A B} h h1 h2 (Q : A → W → Prop) (Q' : B → W → Prop) p (g : A → lprog W B) w :
  safe h h1 Q p w → (∀ a w1, (∀ w2, inv w2 → rely (h1 a) w1 w2 → Q a w2) → safe (h1 a) h2 Q' (g a) w1) →
  safe h h2 Q' (lbind p g) w.
Proof.
  intros Hp Hg. revert h w Hp. induction p as [a | X f k IH | key dn k IH | key k IH]; intros h w; simpl.
  - intros [-> HQ]. by apply Hg.
  - intros Hp w1 Hi Hw1. destruct (Hp w1 Hi Hw1) as [HG Hk]. split; [done |]. by apply IH.
  - intros [-> Hp]. split; [done |]. intros w1 Hi. destruct (Hp w1 Hi) as [Hn He]. split; [by apply IH |].
    intros e Hd. apply IH. by apply He.
  - intros [-> Hp]. split; [done |]. intros w1 Hi Hw1. apply IH. by apply Hp.
Qed.

Lemma lsafe_ret {A} (h : A → option string) (Q : A → W → Prop) a w :
  (∀ w1, inv w1 → rely (h a) w w1 → Q a w1) → safe (h a) h Q (LRet a) w.
Proof. done. Qed.

Lemma safe_unlock key (Q : unit → W → Prop) w :
  (∀ w1, inv w1 → Q () w1) → safe (Some key) (λ _, None) Q (unlock key) w.
Proof. intros HQ. split; [done |]. intros w1 _ _. split; [done |]. eauto. Qed.

(** *** Pools *)

(** Which lock thread [i] holds. *)
Definition holds_lock (L : gmap string nat) (i : nat) (h : option string) : Prop :=
  ∀ key, L !! key = Some i ↔ h = Some key.

Definition pool_safe {A} (Q : nat → A → W → Prop) (c : lpool W A) : Prop :=
  inv (lp_world c) ∧
  (∀ key i, lp_locks c !! key = Some i → is_Some (lp_threads c !! i)) ∧
  ∀ i p, lp_threads c !! i = Some p → ∃ h, holds_lock (lp_locks c) i h ∧ safe h (λ _, None) (Q i) p (lp_world c).

Lemma others_rely L i j hi hj w w' : i ≠ j →
  holds_lock L i hi → holds_lock L j hj → guar hi w w' → rely hj w w'.
Proof. intros Hne Hi Hj [_ Hp] key Hk%Hj. apply Hp. intros Hk'%Hi. congruence. Qed.

(** An update of one thread's program. *)
Lemma pool_thread {A} (Q : nat → A → W → Prop) w L ps i p q w' L' h' :
  pool_safe Q (LPool w L ps) → ps !! i = Some p → inv w' →
  (∀ key j, L' !! key = Some j → L !! key = Some j ∨ j = i) →
  holds_lock L' i h' → safe h' (λ _, None) (Q i) q w' →
  (∀ j hj, i ≠ j → holds_lock L j hj → holds_lock L' j hj ∧ rely hj w w') →
  pool_safe Q (LPool w' L' (<[i := q]> ps)).
Proof.
  intros (Hw & Hown & Hps) Hi Hw' HL Hh Hq Hoth. split_and!; [done | |]; simpl in *.
  - intros key j Hj. apply lookup_lt_is_Some. rewrite length_insert. apply lookup_lt_is_Some.
    destruct (HL key j Hj) as [? | ->]; [by eapply Hown | by eexists].
  - intros j pj Hj. destruct (decide (i = j)) as [<- | Hne].
    + rewrite list_lookup_insert_eq in Hj by (by eapply lookup_lt_Some). simplify_eq. eauto.
    + rewrite list_lookup_insert_ne in Hj by done. destruct (Hps j pj Hj) as (hj & Hlj & Hsj).
      destruct (Hoth j hj Hne Hlj) as [Hl' Hr]. exists hj. split; [done |]. by eapply safe_rely.
Qed.

Lemma holds_lock_fun L i h h' : holds_lock L i h → holds_lock L i h' → h = h'.
Proof.
  intros H1 H2. destruct h as [k |], h' as [k' |]; [| | | done].
  - assert (Some k' = Some k) as [= ->]; [| done]. by rewrite <-(H2 k); apply H1.
  - assert (None = Some k) as ?; [| done]. by apply H2, H1.
  - assert (None = Some k') as ?; [| done]. by apply H1, H2.
Qed.

Lemma pool_safe_step {A} (Q : nat → A → W → Prop) (c c' : lpool W A) :
  lstep c c' → pool_safe Q c → pool_safe Q c'.
Proof.
  intros Hstep Hc. pose proof Hc as (Hw & Hown & Hps).
  destruct Hstep as [w L ps i X f k Hi | w L ps i key dn k Hi HL | w L ps i key dn k e Hi He | w L ps i key k Hi HL];
    simpl in *; destruct (Hps i _ Hi) as (h & Hl & Hs); simpl in Hs.
  - destruct (Hs w) as [HG Hk]; [done | done |].
    eapply (pool_thread _ w L); [done | done | by apply HG | by left | done | done |].
    intros j hj Hne Hlj. split; [done |]. by eapply others_rely.
  - destruct Hs as [-> Hk]. destruct (Hk w) as [Hs _]; [done |].
    eapply (pool_thread _ w L); [done | done | done | | | exact Hs |].
    + intros key' j [[_ <-] | [_ ?]]%lookup_insert_Some; [by right | by left].
    + intros key'. rewrite lookup_insert_Some. specialize (Hl key'). naive_solver.
    + intros j hj Hne Hlj. split; [| done]. intros key'. rewrite lookup_insert_Some. specialize (Hlj key').
      split; [naive_solver |]. intros Hk'. right. split; [| by apply Hlj]. intros ->. apply Hlj in Hk'. congruence.
  - destruct Hs as [-> Hk]. destruct (Hk w) as [_ Hs]; [done |].
    eapply (pool_thread _ w L); [done | done | done | by left | done | by apply Hs |]. done.
  - destruct Hs as [-> Hk].
    eapply (pool_thread _ w L _ _ _ _ _ _ None); [done | done | done | | | by apply Hk |].
    + intros key' j [_ ?]%lookup_delete_Some. by left.
    + intros key'. rewrite lookup_delete_Some. specialize (Hl key'). naive_solver.
    + intros j hj Hne Hlj. split; [| done]. intros key'. rewrite lookup_delete_Some. specialize (Hlj key').
      split; [naive_solver |]. intros Hk'. split; [| by apply Hlj]. intros ->. apply Hlj in Hk'. congruence.
Qed.

Lemma pool_safe_steps {A} (Q : nat → A → W → Prop) (c c' : lpool W A) :
  rtc lstep c c' → pool_safe Q c → pool_safe Q c'.
Proof. induction 1 as [c | c c1 c2 Hs _ IH]; intros Hc; [done |]. apply IH. by eapply pool_safe_step. Qed.

(** A thread that is done answers as promised. *)
Lemma pool_safe_result {A} (Q : nat → A → W → Prop) (c : lpool W A) i a :
  pool_safe Q c → lp_threads c !! i = Some (LRet a) → Q i a (lp_world c).
Proof. intros (Hw & _ & Hps) Hi. destruct (Hps i _ Hi) as (h & _ & _ & HQ). by apply HQ. Qed.

Lemma pool_safe_start {A} (Q : nat → A → W → Prop) w (ps : list (lprog W A)) :
  inv w → (∀ i p, ps !! i = Some p → safe None (λ _, None) (Q i) p w) → pool_safe Q (LPool w ∅ ps).
Proof.
  intros Hw Hps. split_and!; simpl; [done | |].
  - intros key i. by rewrite lookup_empty.
  - intros i p Hi. exists None. split; [| by apply Hps]. intros key. by rewrite lookup_empty.
Qed.

(** No deadlock: as long as a thread is not done, one can step. *)
Lemma pool_safe_progress {A} (Q : nat → A → W → Prop) (c : lpool W A) i p :
  pool_safe Q c → lp_threads c !! i = Some p → ¬ finished p → ∃ c', lstep c c'.
Proof.
  intros (Hw & Hown & Hps) Hi Hp. destruct c as [w L ps]. simpl in *.
  assert (∀ j q key, ps !! j = Some q → L !! key = Some j → ∃ c', lstep (LPool w L ps) c') as Hholder.
  { intros j q key Hj HL. destruct (Hps j q Hj) as (h & Hl & Hs). apply Hl in HL as ->.
    destruct q as [a | X f k | key' dn k | key' k]; simpl in Hs.
    - by destruct Hs.
    - eexists. by eapply step_act.
    - by destruct Hs.
    - destruct Hs as [[= ->] _]. eexists. eapply step_unlock; [exact Hj |]. by apply Hl. }
  destruct (Hps i p Hi) as (h & Hl & Hs). destruct p as [a | X f k | key dn k | key k].
  - by destruct Hp.
  - eexists. by eapply step_act.
  - destruct (L !! key) as [j |] eqn:HL.
    + destruct (Hown key j HL) as [q Hq]. by eapply Hholder.
    + eexists. by eapply step_lock.
  - destruct Hs as [-> _]. eapply (Hholder i); [exact Hi |]. by apply Hl.
Qed.

(** Every execution of a verified pool can be completed. *)
Lemma pool_safe_completes {A} (Q : nat → A → W → Prop) (c : lpool W A) :
  pool_safe Q c → ∃ c', rtc lstep c c' ∧ Forall finished (lp_threads c').
Proof.
  induction (lstep_terminates c) as [c _ IH]. intros Hc.
  destruct (decide (Forall finished (lp_threads c))) as [Hf | (p & Hp & Hnf)%not_Forall_Exists%Exists_exists]; [| | apply _].
  - by exists c.
  - apply list_elem_of_lookup in Hp as [i Hi]. destruct (pool_safe_progress Q c i p Hc Hi Hnf) as [c1 Hs].
    pose proof (pool_safe_step _ _ _ Hs Hc) as Hc1. destruct (IH c1 Hs Hc1) as (c' & Hr & Hf).
    exists c'. split; [by eapply rtc_l | done].
Qed.
End logic.

(** ** A program on its own *)

(** Nobody else runs: a lock is free, and the context of a wait does not end before it. *)
Fixpoint lrun {W A} (p : lprog W A) (w : W) : W * A :=
  match p with
  | LRet a => (w, a)
  | LAct f k => let '(w, x) := f w in lrun (k x) w
  | LLock _ _ k => lrun (k None) w
  | LUnlock _ k => lrun k w
  end.

Lemma lrun_bind {W A B} (p : lprog W A) (g : A → lprog W B) w :
  lrun (p ≫= g) w = let '(w, a) := lrun p w in lrun (g a) w.
Proof.
  unfold mbind, lprog_bind. revert w. induction p as [a | X f k IH | key dn k IH | key k IH]; intros w; simpl; [done | | apply IH | apply IH].
  destruct (f w) as [w' x]. apply IH.
Qed.

(** [p] returns only values of [Q], whatever the world is at each of its steps. *)
Fixpoint returns {W A} (Q : A → Prop) (p : lprog W A) : Prop :=
  match p with
  | LRet a => Q a
  | LAct f k => ∀ w, returns Q (k (f w).2)
  | LLock _ _ k => ∀ e, returns Q (k e)
  | LUnlock _ k => returns Q k
  end.

Lemma returns_seq {W A B} (P : A → Prop) (Q : B → Prop) (p : lprog W A) (g : A → lprog W B) :
  returns P p → (∀ a, P a → returns Q (g a)) → returns Q (p ≫= g).
Proof. intros Hp Hg. unfold mbind, lprog_bind. induction p; simpl in *; auto. Qed.
Lemma returns_any {W A} (p : lprog W A) : returns (λ _, True) p.
Proof. induction p; simpl; auto. Qed.
Lemma returns_bind {W A B} (Q : B → Prop) (p : lprog W A) (g : A → lprog W B) :
  (∀ a, returns Q (g a)) → returns Q (p ≫= g).
Proof. intros Hg. eapply returns_seq; [apply returns_any | auto]. Qed.
Lemma returns_step {W A} (Q : A → Prop) (c c' : lpool W A) i :
  lstep c c' → (∀ p, lp_threads c !! i = Some p → returns Q p) → ∀ p, lp_threads c' !! i = Some p → returns Q p.
Proof.
  intros Hs Hp p. destruct Hs as [w L ps j X f k Hj | w L ps j key dn k Hj _ | w L ps j key dn k e Hj _ | w L ps j key k Hj _];
    cbn [lp_threads] in *; (destruct (decide (i = j)) as [-> | Hne]; [| rewrite list_lookup_insert_ne by done; apply Hp]);
    rewrite list_lookup_insert_eq by (by eapply lookup_lt_Some); intros [= <-]; specialize (Hp _ Hj); apply Hp.
Qed.
Lemma returns_steps {W A} (Q : A → Prop) (c c' : lpool W A) i p a :
  rtc lstep c c' → lp_threads c !! i = Some p → returns Q p → lp_threads c' !! i = Some (LRet a) → Q a.
Proof.
  intros Hs Hi Hp Ha. assert (∀ q, lp_threads c !! i = Some q → returns Q q) as Hq by (intros q Hq; congruence).
  clear Hi Hp. induction Hs as [c | c c1 c' Hs _ IH]; [by apply (Hq (LRet a)) |]. apply IH; [done | by eapply returns_step].
Qed.
