(* ===== verification/ProviderTokens.v ===== *)
(** * Token requests to a third-party service

    The part of internal/domain/oauth2session that talks to a service's token endpoint:
    token_response.go, credentials.go, and from service.go the error classification, the
    identity checks of discovered services, [refreshOnce] and [RefreshAccessToken].  Log
    lines are left out.  The clock, the context, key management, credential files, the
    assertion signer and HTTP are ports; requests sent are recorded. *)

From Stdlib Require Import QArith.
From S2P Require Import Prelude ToolApproval ApprovalStore ApprovalHandlers OAuthSessions UserGrants Consent UriValidation NetPolicy Providers UserSessions BrokerErrors.
Import Session.

(** ** Response fields (token_response.go) *)

(** [strconv.ParseInt(s, 10, 64)] with its two kinds of errors; out of range is reported
    at the digit that leaves the unsigned range, whatever follows. *)
Inductive parsed_int := PSyntax | PRange (clamped : Z) | PInt (n : Z).

Fixpoint parse_uint64 (l : list ascii) (acc : Z) : parsed_int :=
  match l with
  | [] => PInt acc
  | c :: l =>
      match digit_val c with
      | None => PSyntax
      | Some d => let n := (acc * 10 + d)%Z in
                  if bool_decide (2 ^ 64 - 1 < n)%Z then PRange (2 ^ 64 - 1) else parse_uint64 l n
      end
  end.

Definition ParseInt (s : string) : parsed_int :=
  let '(neg, digits) :=
    match bytes s with
    | c :: l => if decide (c = "-"%char) then (true, l) else if decide (c = "+"%char) then (false, l) else (false, c :: l)
    | [] => (false, [])
    end in
  match digits with
  | [] => PSyntax
  | _ =>
      let clamp (n : Z) := if (neg : bool) then (if bool_decide (2 ^ 63 < n)%Z then PRange int64_min else PInt (- n))
                           else if bool_decide (2 ^ 63 ≤ n)%Z then PRange int64_max else PInt n in
      match parse_uint64 digits 0 with
      | PSyntax => PSyntax
      | PRange n => clamp n
      | PInt n => clamp n
      end
  end.

Definition maxLifetimeSeconds : Z := (int64_max / second)%Z.

(** Does the mantissa, the text before an exponent, have a digit other than zero? *)
Definition mantissa_nonzero (s : string) : bool :=
  let fix go (l : list ascii) : bool :=
    match l with
    | [] => false
    | c :: l => if bool_decide (c = "e"%char ∨ c = "E"%char) then false
                else bool_decide (49 ≤ N_of_ascii c ≤ 57)%N || go l
    end in
  go (bytes s).

(** [float] is strconv.ParseFloat: the value of a finite float64. *)
Definition numberSeconds (float : string → option Q) (value : string) : option Z :=
  let value := TrimSpace value in
  if decide (value = "") then None
  else match ParseInt value with
  | PInt seconds => if bool_decide (seconds ≤ maxLifetimeSeconds)%Z then Some (Z.max seconds 0) else None
  | PRange _ => None
  | PSyntax =>
      match float value with
      | None => None
      | Some q =>
          if negb (Qle_bool q (inject_Z maxLifetimeSeconds)) || negb (Qle_bool (inject_Z int64_min) q) then None
          else if Qle_bool 0 q && negb (Qle_bool 1 q) && mantissa_nonzero value then None
          else Some (Z.max (Z.quot (Qnum q) (Zpos (Qden q))) 0)
      end
  end.

Definition maxRetryAfter : duration := (10 * second)%Z.

Definition retryAfter (parse_time : string → option time) (header : string) (now : time) : duration :=
  let header := TrimSpace header in
  let of_seconds (seconds : Z) : duration :=
    if bool_decide (maxRetryAfter / second < seconds)%Z then (maxRetryAfter + second)%Z
    else (Z.max seconds 0 * second)%Z in
  if decide (header = "") then 0%Z
  else match ParseInt header with
  | PInt seconds => of_seconds seconds
  | PRange seconds => of_seconds seconds
  | PSyntax => match parse_time header with Some t => Z.max (Sub t now) 0 | None => 0%Z end
  end.

Definition ScopeSeparator (flavor : string) : ascii := if decide (flavor = FlavorGitHub) then ","%char else " "%char.

(** The trimmed non-empty parts of a scope text. *)
Definition split_scopes (flavor scope : string) : list string :=
  filter (λ s, nonempty s = true) (TrimSpace <$> (of_bytes <$> split_bytes (ScopeSeparator flavor) (bytes scope))).

(** ** Requests, responses and ports *)

Record ctx := Ctx { cx_id : nat; cx_shared : bool }.

Inductive http_client := HTTPDefault | HTTPDiscovery.

Record token_request := TokenRequest {
  rq_client : http_client;
  rq_endpoint : string;
  rq_form : gmap string string;
  rq_basic : option (string * string);
}.

(** A response body: the text, and the error reading it ends with, if any. *)
Record http_body := HTTPBody { hb_text : string; hb_error : option go_error }.
Inductive http_outcome :=
  | HTTPFailed (e : go_error) (wroteHeaders : bool)
  | HTTPResponse (status : Z) (retry_after : string) (body : http_body).

(** The fields decoded from a token response; a lifetime is the text of a number. *)
Record token_json := TokenJSON {
  tj_access_token : string;
  tj_token_type : string;
  tj_expires_in : option string;
  tj_refresh_token : string;
  tj_scope : option string;
}.

Record oauth2_token := OAuth2Token {
  tk_AccessToken : string;
  tk_TokenType : string;
  tk_RefreshToken : string;
  tk_Expiry : time;
  tk_scope : option string;
}.

Class TokenPorts (E : Type) := {
  tp_now : E → E * time;
  tp_ctx_Err : ctx → E → E * option ctx_error;
  tp_Deadline : ctx → E → E * option time;
  (** a timer or the context's end, whichever comes first *)
  tp_Wait : ctx → duration → E → E;
  (** the envelope encryption bound to a service id *)
  tp_Encrypt : ServiceID → string → E → E * result go_error string;
  tp_Decrypt : ServiceID → string → E → E * result go_error string;
  tp_provider_Get : ServiceID → E → E * result go_error provider;
  tp_ReadClientID : string → E → E * result go_error string;
  tp_ReadPair : string → string → E → E * result go_error (string * string);
  tp_SignClientAssertion : string → string → E → E * result go_error string;
  tp_Do : token_request → E → E * http_outcome;
  tp_NewUUID : E → E * string;
  tp_CountAgents : Principal → ServiceID → E → E * result go_error nat;
  (** encoding/json on a token response, as far as it was read, and on an error body *)
  json_DecodeToken : string → option go_error → result go_error token_json;
  json_ErrorCode : string → option string;
  url_QueryEscape : string → string;
  http_ParseTime : string → option time;
  strconv_ParseFloat : string → option Q;
}.

Record session_config := SessionConfig {
  sc_CallbackBaseURL : string;
  sc_StateTokenTTL : duration;
  sc_MaxRetries : Z;
  sc_RetryBaseDelay : duration;
  sc_RefreshLookahead : duration;
  sc_SweepDefaultPageSize : Z;
  sc_CredentialFiles : gmap string (string * string);
  sc_has_discovery_client : bool;
  sc_has_file_reader : bool;
  sc_has_signer : bool;
}.

(** The environment of an operation and the token requests it has sent with what came of
    them, latest first. *)
Record wire (E : Type) := Wire { wr_env : E; wr_sent : list (token_request * http_outcome) }.
Arguments Wire {E} _ _.
Arguments wr_env {E} _.
Arguments wr_sent {E} _.

(** ** Error classification (service.go) *)

Record OperationError := OpErr { oe_metadata : ErrorMetadata; oe_cause : go_error }.
Definition operation_error (e : OperationError) : go_error := EOperation (oe_metadata e) (Some (oe_cause e)).
Coercion operation_error : OperationError >-> go_error.
Definition WithMetadata (m : ErrorMetadata) (e : OperationError) : OperationError := OpErr m (oe_cause e).

Definition sessionFailureMetadata (e : go_error) : ErrorMetadata :=
  default (NewErrorMetadata OperationUnknown DetailInternalUnclassified) (as_operation e).

(** [context.Canceled] or [context.DeadlineExceeded] in the chain. *)
Definition has_ctx_error (e : go_error) : bool := is_ctx_error Canceled e || is_ctx_error DeadlineExceeded e.

Definition classify (shared : bool) (ctx_err : option ctx_error) (operation : Operation) (detail : ErrorDetail)
    (cause : go_error) : OperationError :=
  let detail := if bool_decide (detail = DetailProviderResponseInvalid) && has_ctx_error cause
                then DetailProviderUnavailable else detail in
  match ctx_err with
  | Some c => if shared then OpErr (NewErrorMetadata operation detail) cause
              else OpErr (NewErrorMetadata operation DetailCallerCanceled) (EJoin cause (ECtx c))
  | None => OpErr (NewErrorMetadata operation detail) cause
  end.

Definition caller_canceled (ctx_err : option ctx_error) (fallback : Operation) (cause : go_error) : OperationError :=
  let m := sessionFailureMetadata cause in
  OpErr (Metadata (if decide (em_operation m = OperationUnknown) then fallback else em_operation m)
           DetailCallerCanceled KindCanceled (em_dependency m) (em_statusCode m) (em_oauthCode m))
    (join_opt cause (ECtx <$> ctx_err)).

(** A discovered service's transport errors carry nothing of the response. *)
Definition safeDiscoveredRefreshError (e : go_error) : go_error :=
  if is_ctx_error Canceled e then ECtx Canceled
  else if is_ctx_error DeadlineExceeded e then ECtx DeadlineExceeded else EText.

Definition credentialProviderRejected (e : go_error) : bool :=
  match as_retrieve e with
  | Some (Some status, code) =>
      bool_decide (400 ≤ status < 500)%Z && negb (bool_decide (status = 429%Z)) &&
      (bool_decide (status = 401%Z) || bool_decide (code ∈ ["invalid_client"; "unauthorized_client"]))
  | _ => false
  end.

Definition is_server_busy (status : Z) : bool := bool_decide (status = 429%Z) || bool_decide (500 ≤ status ≤ 599)%Z.

Definition maxThirdpartyErrorBodyBytes : nat := 64 * 1024.
Definition maxTokenResponseBytes : nat := 1024 * 1024.

(** The bytes a reader limited to [n] delivers, with the error that ends them. *)
Definition limit_body (n : nat) (b : http_body) : http_body :=
  if bool_decide (n ≤ String.length (hb_text b))%nat then HTTPBody (of_bytes (take n (bytes (hb_text b)))) None else b.

(** The failure a non-2xx response stands for, and whether its body was read to its end. *)
Definition thirdpartyRefreshError (json_error : string → option string) (status : Z) (body : http_body)
    (discovered : bool) : OperationError * bool :=
  let read := limit_body (S maxThirdpartyErrorBodyBytes) body in
  let err := if discovered then safeDiscoveredRefreshError <$> hb_error read else hb_error read in
  let complete := bool_decide (err = None) && bool_decide (String.length (hb_text read) ≤ maxThirdpartyErrorBodyBytes)%nat in
  let oauthCode := if complete then default "" (json_error (hb_text read)) else "" in
  let errorCode := if IsSafeOAuthErrorCode oauthCode then oauthCode else "" in
  let client_error := bool_decide (400 ≤ status ≤ 499)%Z in
  let detail :=
    if is_server_busy status then DetailProviderUnavailable
    else if negb (bool_decide (err = None)) then DetailProviderUnavailable
    else if client_error && bool_decide (errorCode = "invalid_grant") then DetailRefreshRejected
    else if client_error && bool_decide (errorCode ∈ ["invalid_client"; "unauthorized_client"])
    then DetailProviderClientRejected
    else DetailProviderRejected in
  (OpErr (WithProviderResponse status oauthCode (NewErrorMetadata OperationRefresh detail))
     (join_opt (EJoin (ERefreshRejectedResponse status errorCode) (ERetrieve (Some status) errorCode)) err), complete).

(** ** Configuration checks (service.go) *)

Section tokens.
Context {E : Type} `{TokenPorts E} {GU : GoURL} {GN : GoNet} {UU : UUID} {PP : ProviderParsers}.
Variable cfg : session_config.

Abbreviation M := (prog (wire E)).

Definition port {A} (f : E → E * A) : M A := act (λ w, let '(e, a) := f (wr_env w) in (Wire e (wr_sent w), a)).
Definition now : M time := port tp_now.
Definition ctx_Err (c : ctx) : M (option ctx_error) := port (tp_ctx_Err c).

(** A request on the wire. *)
Definition send (r : token_request) : M http_outcome :=
  act (λ w, let '(e, o) := tp_Do r (wr_env w) in (Wire e ((r, o) :: wr_sent w), o)).

Definition sessionOperationError (c : ctx) (operation : Operation) (detail : ErrorDetail) (cause : go_error)
    : M OperationError := e ← ctx_Err c; mret (classify (cx_shared c) e operation detail cause).

Definition fail {A} (e : M OperationError) : M (result go_error A) := f ← e; mret (Err (operation_error f)).

(** [defer]: a failure after the caller's context ended is a cancellation. *)
Definition on_caller_cancel {A} (c : ctx) (fallback : Operation) (body : M (result go_error A)) : M (result go_error A) :=
  r ← body;
  match r with
  | Ok a => mret (Ok a)
  | Err cause =>
      e ← ctx_Err c;
      mret (Err match e with
                | Some _ => operation_error (caller_canceled e fallback cause)
                | None => cause
                end)
  end.
Definition on_own_cancel {A} (c : ctx) (fallback : Operation) (body : M (result go_error A)) : M (result go_error A) :=
  if cx_shared c then body else on_caller_cancel c fallback body.

Definition is_assertion_param (name : string) : bool :=
  fold_eq (bytes name) (bytes "client_assertion") || fold_eq (bytes name) (bytes "client_assertion_type").

(** The resource a discovered service's tokens are for; [None] is an error. *)
Definition discoveryResource (e : provider) : option string :=
  match dc_ResourceURL (pe_Discovery e) with
  | None => Some ""
  | Some _ =>
      let resource := default "" (auth_params e !! "resource") in
      if negb (nonempty (TrimSpace resource)) then None
      else if negb (no_duplicate_resource_param e) then None
      else match url_Parse (ep_TokenEndpoint (pe_Endpoints e)) ≫= (λ u, url_ParseQuery (u_RawQuery u)) with
      | None => None
      | Some names => if existsb IsDiscoveryResourceParamName names then None else Some resource
      end
  end.

Definition validateDCRTokenIdentity (e : provider) : bool :=
  if negb (bool_decide (dc_ClientMethod (pe_Discovery e) = ClientBootstrapDCR)) then true
  else if negb (nonzero_id (pe_ID e)) || bool_decide (dc_ResourceURL (pe_Discovery e) = None) ||
          negb (nonempty (pe_ClientID e)) then false
  else if negb (validateDiscoveryIssuer (pe_IssuerURI e)) then false
  else if existsb (λ n, IsReservedAuthorizationParamName n || is_assertion_param n) (param_names (auth_params e)) then false
  else match url_Parse (ep_TokenEndpoint (pe_Endpoints e)) with
  | None => false
  | Some u =>
      bool_decide (u_User u = None) &&
      match url_ParseQuery (u_RawQuery u) with
      | None => false
      | Some names => negb (existsb (λ n, IsReservedAuthorizationParamName n || is_assertion_param n) names)
      end &&
      (if decide (pe_TokenEndpointAuthMethod e = AuthMethodNone) then IsAbsent (pe_Secret e)
       else if is_dcr_secret_method (pe_TokenEndpointAuthMethod e) then IsPlaintext (pe_Secret e) else false)
  end.

Definition tokenHTTPClient (e : provider) : option http_client :=
  if negb (validateDCRTokenIdentity e) then None
  else match dc_ResourceURL (pe_Discovery e) with
  | None => Some HTTPDefault
  | Some _ =>
      match discoveryResource e with
      | None => None
      | Some _ =>
          if negb (ValidatePublicHTTPSURL (ep_TokenEndpoint (pe_Endpoints e))) then None
          else if sc_has_discovery_client cfg then Some HTTPDiscovery else None
      end
  end.

(** ** Credentials (credentials.go) *)

Inductive credential_operation := CredInitiation | CredExchange | CredRefresh.
#[export] Instance credential_operation_eq_dec : EqDecision credential_operation.
Proof. solve_decision. Defined.

Definition credentialSourceEligible (e : provider) : bool :=
  negb (IsPublicClient e) && negb (IsCIMDConfidentialClient e) && negb (bool_decide (pe_Flavor e = FlavorGoogle)).

(** The identity check of exchange and refresh. *)
Definition identity_mismatch (candidate : provider) (op : credential_operation) (established : option string)
    (clientID : string) : option CredentialSourceReason :=
  if credentialSourceEligible candidate && negb (bool_decide (op = CredInitiation)) then
    match established with
    | None =>
        if negb (bool_decide (pe_CredentialSource candidate = CredentialSourceStored)) ||
           pe_CredentialSourceTransitioned candidate then Some IdentityMissing else None
    | Some e => if negb (nonempty e) then Some IdentityMissing
                else if bool_decide (clientID = e) then None else Some IdentityMismatch
    end
  else None.

(** The client id and secret of the candidate.  The validation before it rejects a
    filesystem service without a canonical id. *)
Definition acquire_credentials (c : ctx) (candidate : provider) (op : credential_operation) (errorOperation : Operation)
    : M (result go_error (string * string)) :=
  if decide (pe_CredentialSource candidate = CredentialSourceFilesystem) then
    match pe_CanonicalID candidate ≫= (λ i, sc_CredentialFiles cfg !! i) with
    | None => mret (Err (ECredentialSource MissingBinding))
    | Some (idFile, secretFile) =>
        if negb (sc_has_file_reader cfg) then mret (Err (ECredentialSource ReadFailed))
        else if decide (op = CredInitiation) then
          r ← port (tp_ReadClientID idFile);
          mret match r with Ok i => Ok (i, "") | Err e => Err e end
        else port (tp_ReadPair idFile secretFile)
    end
  else if negb (bool_decide (op = CredInitiation)) && negb (IsPublicClient candidate) &&
          negb (IsCIMDConfidentialClient candidate) then
    match GetPlaintext (pe_Secret candidate) with
    | None => fail (sessionOperationError c errorOperation DetailDecryptionFailed EText)
    | Some secret => mret (Ok (pe_ClientID candidate, secret))
    end
  else mret (Ok (pe_ClientID candidate, "")).

Definition selectCredentials (c : ctx) (entity : provider) (op : credential_operation) (established : option string)
    : M (result go_error (string * string)) :=
  let candidate := if bool_decide (pe_CredentialSource entity = "") && negb (pe_CredentialSourceProvided entity)
                   then set_pe_CredentialSource CredentialSourceStored entity else entity in
  let errorOperation := if decide (op = CredRefresh) then OperationRefresh else OperationCodeExchange in
  r ← match ValidateOutboundCredentials candidate with
      | None => fail (sessionOperationError c errorOperation DetailConfiguration (EJoin (ESentinel ErrInvalidConfiguration) EText))
      | Some candidate =>
          r ← acquire_credentials c candidate op errorOperation;
          mret (match r with
                | Err e => Err e
                | Ok (clientID, secret) =>
                    match identity_mismatch candidate op established clientID with
                    | Some reason => Err (ECredentialSource reason)
                    | None => Ok (clientID, secret)
                    end
                end)
      end;
  match r with
  | Err e => if decide (is_Some (as_credential_source e))
             then fail (sessionOperationError c errorOperation DetailCredentialSourceUnavailable e)
             else mret (Err e)
  | Ok x => mret (Ok x)
  end.

(** ** Refresh (service.go) *)

Record refreshAttemptOutcome := Attempt { at_retryable : bool; at_retryAfter : duration }.
Definition no_retry : refreshAttemptOutcome := Attempt false 0.

(** A failed attempt. *)
Definition failed {A} (o : refreshAttemptOutcome) (e : M OperationError)
    : M (result (refreshAttemptOutcome * go_error) A) := f ← e; mret (Err (o, operation_error f)).

Definition is_discovered (e : provider) : bool := bool_decide (is_Some (dc_ResourceURL (pe_Discovery e))).
Definition scrub (e : provider) (err : go_error) : go_error := if is_discovered e then safeDiscoveredRefreshError err else err.

Definition addProviderAuthorizationParams (params form : gmap string string) : gmap string string :=
  filter (λ '(name, _), IsReservedAuthorizationParamName name = false) params ∪ form.

Definition refreshResponseError (c : ctx) (status : Z) (cause : go_error) : M OperationError :=
  f ← sessionOperationError c OperationRefresh DetailProviderResponseInvalid cause;
  mret (WithMetadata (WithProviderResponse status "" (oe_metadata f)) f).

Definition isDCRBasic (e : provider) : bool :=
  bool_decide (dc_ClientMethod (pe_Discovery e) = ClientBootstrapDCR) &&
  bool_decide (pe_TokenEndpointAuthMethod e = AuthMethodClientSecretBasic).

(** The form of a refresh request, but for the assertion. *)
Definition refresh_form (e : provider) (refreshToken clientID clientSecret : string) : gmap string string :=
  let form := {["grant_type" := "refresh_token"; "refresh_token" := refreshToken]} in
  let form := if isDCRBasic e then form else <["client_id" := clientID]> form in
  let form := if nonempty clientSecret && negb (isDCRBasic e) then <["client_secret" := clientSecret]> form else form in
  addProviderAuthorizationParams (auth_params e) form.

Definition with_assertion (assertion : string) (form : gmap string string) : gmap string string :=
  <["client_assertion" := assertion]>
    (<["client_assertion_type" := "urn:ietf:params:oauth:client-assertion-type:jwt-bearer"]> form).

(** The signed assertion of a CIMD client, or nothing for other clients. *)
Definition sign_assertion (c : ctx) (e : provider) (operation : Operation) : M (result go_error (option string)) :=
  if negb (IsCIMDConfidentialClient e) then mret (Ok None)
  else if negb (sc_has_signer cfg) then
    mret (Err (operation_error (OpErr (WithDependency DependencySigning (NewErrorMetadata operation DetailConfiguration))
                 (ESentinel ErrCIMDKeyUnavailable))))
  else
    r ← port (tp_SignClientAssertion (pe_ClientID e) (ep_TokenEndpoint (pe_Endpoints e)));
    match r with
    | Ok assertion => mret (Ok (Some assertion))
    | Err err =>
        f ← sessionOperationError c operation DetailProviderUnavailable (EJoin (ESentinel ErrCIMDKeyUnavailable) err);
        mret (Err (operation_error (WithMetadata (WithDependency DependencySigning (oe_metadata f)) f)))
    end.

(** A 2xx response. *)
Definition read_token (c : ctx) (e : provider) (status : Z) (body : http_body)
    : M (result (refreshAttemptOutcome * go_error) oauth2_token) :=
  let read := limit_body (S maxTokenResponseBytes) body in
  match json_DecodeToken (hb_text read) (hb_error read) with
  | Err err => failed no_retry (refreshResponseError c status (scrub e err))
  | Ok j =>
      match match tj_expires_in j with None => Some 0%Z | Some text => numberSeconds strconv_ParseFloat text end with
      | None => failed no_retry (refreshResponseError c status (scrub e EText))
      | Some expiresIn =>
          match hb_error read with
          | Some err => failed no_retry (refreshResponseError c status (scrub e err))
          | None =>
              if bool_decide (maxTokenResponseBytes < String.length (hb_text read))%nat
              then failed no_retry (refreshResponseError c status EText)
              else if negb (nonempty (tj_access_token j)) then failed no_retry (refreshResponseError c status EText)
              else
                expiry ← (if bool_decide (0 < expiresIn)%Z
                          then t ← now; mret (t + int64_wrap (expiresIn * second))%Z else mret zero_time);
                mret (Ok (OAuth2Token (tj_access_token j) (tj_token_type j) (tj_refresh_token j) expiry (tj_scope j)))
          end
      end
  end.

Definition refreshOnce (c : ctx) (e : provider) (refreshToken clientID clientSecret : string) (client : http_client)
    : M (result (refreshAttemptOutcome * go_error) oauth2_token) :=
  signed ← sign_assertion c e OperationRefresh;
  match signed with
  | Err err => mret (Err (no_retry, err))
  | Ok assertion =>
      let form := refresh_form e refreshToken clientID clientSecret in
      let form := match assertion with Some a => with_assertion a form | None => form end in
      let endpoint := ep_TokenEndpoint (pe_Endpoints e) in
      if bool_decide (url_Parse endpoint = None)
      then failed no_retry (sessionOperationError c OperationRefresh DetailConfiguration (scrub e EText))
      else
        let basic := if isDCRBasic e then Some (url_QueryEscape clientID, url_QueryEscape clientSecret) else None in
        o ← send (TokenRequest client endpoint form basic);
        match o with
        | HTTPFailed err wroteHeaders =>
            cerr ← ctx_Err c;
            let retryable := match as_net_op err with
                             | Some (dial, timeout) => dial && negb timeout && negb wroteHeaders && bool_decide (cerr = None)
                             | None => false
                             end in
            failed (Attempt retryable 0) (sessionOperationError c OperationRefresh DetailProviderUnavailable (scrub e err))
        | HTTPResponse status header body =>
            if bool_decide (200 ≤ status < 300)%Z then read_token c e status body
            else
              t ← now;
              let '(failure, complete) := thirdpartyRefreshError json_ErrorCode status body (is_discovered e) in
              mret (Err (Attempt (is_server_busy status && complete) (retryAfter http_ParseTime header t), operation_error failure))
        end
  end.

(** The loop of [RefreshAccessToken]: [n] attempts are left, [attempt] have failed. *)
Fixpoint refresh_attempts (n : nat) (attempt : Z) (c : ctx) (e : provider) (refreshToken clientID clientSecret : string)
    (client : http_client) : M (result go_error oauth2_token) :=
  r ← refreshOnce c e refreshToken clientID clientSecret client;
  match r with
  | Ok token => mret (Ok token)
  | Err (outcome, err) =>
      match n with
      | O | S O => mret (Err err)
      | S n =>
          if negb (at_retryable outcome) then mret (Err err)
          else
            ended ← ctx_Err c;
            let delay := Z.max (int64_wrap (sc_RetryBaseDelay cfg * int64_wrap (2 ^ attempt))) (at_retryAfter outcome) in
            if bool_decide (is_Some ended) || bool_decide (maxRetryAfter < at_retryAfter outcome)%Z then mret (Err err)
            else
              deadline ← port (tp_Deadline c);
              t ← now;
              if match deadline with Some d => bool_decide (Sub d t ≤ delay)%Z | None => false end then mret (Err err)
              else
                _ ← port (λ x, (tp_Wait c delay x, ()));
                ended ← ctx_Err c;
                if bool_decide (is_Some ended) then mret (Err err)
                else refresh_attempts n (attempt + 1) c e refreshToken clientID clientSecret client
      end
  end.

Definition RefreshAccessToken (c : ctx) (entity : option provider) (refreshToken : string) (established : option string)
    : M (result go_error oauth2_token) :=
  on_own_cancel c OperationRefresh (
    ended ← ctx_Err c;
    match ended, entity with
    | Some err, _ => fail (sessionOperationError c OperationRefresh DetailProviderUnavailable (ECtx err))
    | None, None => fail (sessionOperationError c OperationRefresh DetailConfiguration EText)
    | None, Some e =>
        let configuration {A} : M (result go_error A) :=
          fail (sessionOperationError c OperationRefresh DetailConfiguration (EJoin (ESentinel ErrInvalidConfiguration) EText)) in
        match tokenHTTPClient e, ValidateOutboundCredentials e with
        | None, _ | _, None => configuration
        | Some client, Some e =>
            if negb (nonempty refreshToken)
            then fail (sessionOperationError c OperationRefresh DetailRefreshUnavailable (ESentinel ErrRefreshNotAvailable))
            else
              r ← selectCredentials c e CredRefresh established;
              match r with
              | Err err => mret (Err err)
              | Ok (clientID, clientSecret) =>
                  refresh_attempts (Z.to_nat (Z.max (sc_MaxRetries cfg) 1)) 0 c e refreshToken clientID clientSecret client
              end
        end
    end).

(** The session with the tokens of a response. *)
Definition setSessionTokens (c : ctx) (session : UserSession) (newToken : oauth2_token) (flavor : string)
    : M (result go_error UserSession) :=
  let encryption_failed {A} (err : go_error) : M (result go_error A) :=
    fail (sessionOperationError c OperationRefresh DetailEncryptionFailed (EJoin (ESentinel ErrEncryptionFailed) err)) in
  access ← port (tp_Encrypt (us_ServiceID session) (tk_AccessToken newToken));
  match access with
  | Err err => encryption_failed err
  | Ok access =>
      refresh ← (if nonempty (tk_RefreshToken newToken)
                 then r ← port (tp_Encrypt (us_ServiceID session) (tk_RefreshToken newToken));
                      mret match r with Ok cipher => Ok (cipher, None) | Err err => Err err end
                 else mret (Ok (us_EncryptedRefreshToken session, us_RefreshRejectedAt session)));
      match refresh with
      | Err err => encryption_failed err
      | Ok (refresh, rejected) =>
          t ← now;
          let expiry := if IsZero (tk_Expiry newToken) then None else Some (tk_Expiry newToken) in
          let tokenType := if nonempty (tk_TokenType newToken) then tk_TokenType newToken else us_TokenType session in
          let scope := match tk_scope newToken with Some text => split_scopes flavor text | None => us_Scope session end in
          mret (Ok (set_tokens access expiry refresh rejected tokenType scope t session))
      end
  end.

Definition DecryptAccessToken (session : UserSession) : M (result go_error string) :=
  port (tp_Decrypt (us_ServiceID session) (us_EncryptedAccessToken session)).
Definition DecryptRefreshToken (session : UserSession) : M (result go_error string) :=
  if nonempty (us_EncryptedRefreshToken session)
  then port (tp_Decrypt (us_ServiceID session) (us_EncryptedRefreshToken session))
  else mret (Ok "").

(** Is the service a dynamically registered client of another service? *)
Definition foreign_dcr (service : provider) (serviceID : ServiceID) : bool :=
  bool_decide (dc_ClientMethod (pe_Discovery service) = ClientBootstrapDCR) && negb (bool_decide (pe_ID service = serviceID)).

(** The session with the tokens its refresh token was exchanged for. *)
Definition refreshSessionTokens (c : ctx) (session : UserSession) (service : provider) : M (result go_error UserSession) :=
  if foreign_dcr service (us_ServiceID session) then mret (Err EText)
  else
    r ← DecryptRefreshToken session;
    match r with
    | Err err => fail (sessionOperationError c OperationRefresh DetailDecryptionFailed err)
    | Ok refreshToken =>
        if negb (nonempty refreshToken)
        then fail (sessionOperationError c OperationRefresh DetailRefreshUnavailable (ESentinel ErrRefreshNotAvailable))
        else
          r ← RefreshAccessToken c (Some service) refreshToken (us_UpstreamClientID session);
          match r with
          | Err err =>
              mret (Err (if decide (is_Some (as_credential_source err)) then err
                         else operation_error (OpErr (sessionFailureMetadata err) (EJoin (ESentinel ErrRefreshFailed) err))))
          | Ok newToken => setSessionTokens c session newToken (pe_Flavor service)
          end
    end.

(** internal/domain/thirdparty/service.go *)
Definition decryptSecret (e : provider) : M (result go_error provider) :=
  match GetCiphertext (pe_Secret e) with
  | None => mret (Err EText)
  | Some ciphertext =>
      r ← port (tp_Decrypt (pe_ID e) ciphertext);
      mret match r with Ok plaintext => Ok (set_pe_Secret (NewPlaintextSecret plaintext) e) | Err err => Err err end
  end.

Definition GetForTokenAcquisition (serviceID : ServiceID) : M (result go_error provider) :=
  r ← port (tp_provider_Get serviceID);
  match r with
  | Err err => mret (Err err)
  | Ok e =>
      if negb (bool_decide (pe_ID e = serviceID)) then mret (Err (ESentinel ErrProviderConfiguration))
      else if bool_decide (pe_CredentialSource e = CredentialSourceFilesystem) || IsPublicClient e ||
              IsCIMDConfidentialClient e || IsPlaintext (pe_Secret e) then mret (Ok e)
      else
        r ← decryptSecret e;
        mret match r with Ok e => Ok e | Err err => Err (EJoin (ESentinel ErrSecretDecryption) err) end
  end.

Definition tokenAcquisitionError (c : ctx) (operation : Operation) (cause : go_error) : M OperationError :=
  let not_found := is_not_found cause in
  let cause := if not_found then EJoin (ESentinel ErrServiceNotFound) cause else cause in
  let detail := if not_found || is_sentinel ErrProviderConfiguration cause then DetailConfiguration
                else DetailRepositoryUnavailable in
  let undecryptable := is_sentinel ErrSecretDecryption cause in
  f ← sessionOperationError c operation (if undecryptable then DetailDecryptionFailed else detail) cause;
  mret (if decide (em_detail (oe_metadata f) = DetailCallerCanceled) then f
        else WithMetadata (WithDependency (if undecryptable then DependencyEncryption else DependencyProviderRepository)
                             (oe_metadata f)) f).

Definition getRefreshProvider (c : ctx) (serviceID : ServiceID) : M (result go_error provider) :=
  r ← GetForTokenAcquisition serviceID;
  match r with
  | Err err => fail (tokenAcquisitionError c OperationRefresh err)
  | Ok service => mret (if foreign_dcr service serviceID then Err EText else Ok service)
  end.

(** internal/domain/oauth2session/service.go *)
Definition sessionRepositoryError (c : ctx) (detail : ErrorDetail) (err : go_error) : M OperationError :=
  match as_operation err with
  | Some m => mret (OpErr m err)
  | None =>
      if is_not_found err
      then sessionOperationError c OperationSessionLookup DetailSessionMissing (EJoin (ESentinel ErrSessionNotFound) err)
      else sessionOperationError c OperationRefresh detail err
  end.

Definition refreshUnavailableError (c : ctx) (current : UserSession) (threshold : option time) : M OperationError :=
  if RefreshRejected current then
    sessionOperationError c OperationRefresh DetailRefreshRejected
      (EJoin (ESentinel ErrRefreshRejected) (ESentinel ErrReauthenticationRequired))
  else match threshold with
  | None => sessionOperationError c OperationRefresh DetailRefreshUnavailable (ESentinel ErrRefreshNotAvailable)
  | Some _ =>
      t ← now;
      let expired := match us_AccessTokenExpiresAt current with Some e => negb (After e t) | None => false end in
      sessionOperationError c OperationRefresh (if expired then DetailAccessTokenExpired else DetailRefreshUnavailable)
        (EJoin (ESentinel ErrReauthenticationRequired) (ESentinel ErrRefreshNotAvailable))
  end.
End tokens.
