(* ===== verification/ProviderTokensFacts.v ===== *)
(** * What a token request to a service does

    [sends]: which requests a program puts on the wire.  A refresh presents the token it is
    given and nothing else; failed attempts are repeated only when the provider cannot have
    acted on them; the client identity of a request is the one the session is bound to. *)

From S2P Require Import Prelude ToolApproval ApprovalStore ApprovalHandlers OAuthSessions UserGrants Consent UriValidation NetPolicy Providers UserSessions BrokerErrors ProviderTokens.
Import Session.

(** A program that sends only requests with [P]. *)
Fixpoint sends {E A} (P : token_request → Prop) (p : prog (wire E) A) : Prop :=
  match p with
  | Ret _ => True
  | Act f k => ∀ wi, (∃ l, wr_sent (f wi).1 = l ++ wr_sent wi ∧ Forall (λ x, P x.1) l) ∧ sends P (k (f wi).2)
  end.

Section sends.
Context {E : Type} `{TokenPorts E} {GU : GoURL} {GN : GoNet} {UU : UUID} {PP : ProviderParsers}.
Variable cfg : session_config.
Variable P : token_request → Prop.

Lemma sends_ret {A} (a : A) : sends P (mret a : prog (wire E) A).
Proof. done. Qed.
Lemma sends_bind {A B} (p : prog (wire E) A) (g : A → prog (wire E) B) :
  sends P p → (∀ a, sends P (g a)) → sends P (p ≫= g).
Proof.
  intros Hp Hg. induction p as [a | X f k IH]; [apply Hg |].
  intros wi. destruct (Hp wi) as [Hl Hk]. split; [done |]. by apply IH.
Qed.
Lemma sends_port {A} (f : E → E * A) : sends P (port f).
Proof. intros wi. unfold port. simpl. destruct (f (wr_env wi)). simpl. split; [| done]. by exists []. Qed.
Lemma sends_send r : P r → sends P (send r).
Proof.
  intros Hr wi. unfold send. simpl. destruct (tp_Do r (wr_env wi)) as [e o]. simpl. split; [| done].
  exists [(r, o)]. split; [done |]. by constructor.
Qed.
Lemma sends_port_bind {A B} (f : E → E * A) (g : A → prog (wire E) B) :
  (∀ e, sends P (g (f e).2)) → sends P (port f ≫= g).
Proof.
  intros Hg wi. unfold port. simpl. destruct (f (wr_env wi)) as [e a] eqn:Hf. simpl. split; [by exists [] |].
  specialize (Hg (wr_env wi)). by rewrite Hf in Hg.
Qed.
End sends.

Create HintDb sends.
#[export] Hint Constants Opaque : sends.
#[export] Hint Resolve sends_ret sends_port : sends.
(** Follow a program through its binds and branches. *)
Ltac walk :=
  repeat first
    [ solve [eauto 2 with sends nocore]
    | apply sends_bind; [| intros ?]
    | match goal with |- sends _ (match ?x with _ => _ end) => destruct x eqn:? end
    | progress (cbv zeta) ].

Section quiet.
Context {E : Type} `{TokenPorts E} {GU : GoURL} {GN : GoNet} {UU : UUID} {PP : ProviderParsers}.
Variable cfg : session_config.
Variable P : token_request → Prop.

Lemma sends_sessionOperationError c o d e : sends P (sessionOperationError c o d e).
Proof. unfold sessionOperationError, ctx_Err. walk. Qed.
Hint Resolve sends_sessionOperationError : sends.
Lemma sends_now : sends P now.
Proof. apply sends_port. Qed.
Lemma sends_ctx_Err c : sends P (ctx_Err c).
Proof. apply sends_port. Qed.
Hint Resolve sends_now sends_ctx_Err : sends.
Lemma sends_fail {A} (e : prog (wire E) OperationError) : sends P e → sends P (fail (A:=A) e).
Proof. intros He. unfold fail. walk. Qed.
Lemma sends_failed {A} o (e : prog (wire E) OperationError) : sends P e → sends P (failed (A:=A) o e).
Proof. intros He. unfold failed. walk. Qed.
Lemma sends_refreshResponseError c z e : sends P (refreshResponseError c z e).
Proof. unfold refreshResponseError. walk. Qed.
Hint Resolve sends_fail sends_failed sends_refreshResponseError : sends.
Lemma sends_acquire c e op eo : sends P (acquire_credentials cfg c e op eo).
Proof. unfold acquire_credentials. walk. Qed.
Hint Resolve sends_acquire : sends.
Lemma sends_selectCredentials c e op est : sends P (selectCredentials cfg c e op est).
Proof. unfold selectCredentials. walk. Qed.
Lemma sends_sign c e o : sends P (sign_assertion cfg c e o).
Proof. unfold sign_assertion. walk. Qed.
Lemma sends_read_token c e z b : sends P (read_token c e z b).
Proof. unfold read_token. walk. Qed.
Lemma sends_on_caller_cancel {A} c o (p : prog (wire E) (result go_error A)) : sends P p → sends P (on_caller_cancel c o p).
Proof. intros Hp. unfold on_caller_cancel. walk. Qed.
Lemma sends_on_own_cancel {A} c o (p : prog (wire E) (result go_error A)) : sends P p → sends P (on_own_cancel c o p).
Proof. intros Hp. unfold on_own_cancel. case_match; [done | by apply sends_on_caller_cancel]. Qed.
Lemma sends_refreshUnavailableError c s t : sends P (refreshUnavailableError c s t).
Proof. unfold refreshUnavailableError. walk. Qed.
Lemma sends_sessionRepositoryError c d e : sends P (sessionRepositoryError c d e).
Proof. unfold sessionRepositoryError. walk. Qed.
Lemma sends_getRefreshProvider c i : sends P (getRefreshProvider c i).
Proof. unfold getRefreshProvider, GetForTokenAcquisition, decryptSecret, tokenAcquisitionError. walk. Qed.
Lemma sends_setSessionTokens c s t f : sends P (setSessionTokens c s t f).
Proof. unfold setSessionTokens. walk. Qed.
End quiet.
#[export] Hint Resolve sends_sessionOperationError sends_now sends_ctx_Err sends_fail sends_failed
  sends_refreshResponseError sends_acquire sends_selectCredentials sends_sign sends_read_token
  sends_on_caller_cancel sends_on_own_cancel sends_refreshUnavailableError sends_sessionRepositoryError
  sends_getRefreshProvider sends_setSessionTokens : sends.

(** ** What a refresh sends *)

Definition presents (token : string) (r : token_request) : Prop := rq_form r !! "refresh_token" = Some token.

Lemma sends_mono {E A} (P P' : token_request → Prop) (p : prog (wire E) A) :
  (∀ r, P r → P' r) → sends P p → sends P' p.
Proof.
  intros HP. induction p as [a | X f k IH]; [done |]. intros Hp wi. destruct (Hp wi) as [(l & Hl & HF) Hk].
  split; [| by apply IH]. exists l. split; [done |]. eapply Forall_impl; [exact HF |]. intros x. apply HP.
Qed.

Section presenting.
Context {E : Type} `{TokenPorts E} {GU : GoURL} {GN : GoNet} {UU : UUID} {PP : ProviderParsers}.
Variable cfg : session_config.

Lemma refresh_form_token e token clientID secret : refresh_form e token clientID secret !! "refresh_token" = Some token.
Proof.
  unfold refresh_form, addProviderAuthorizationParams. rewrite lookup_union_r.
  - repeat case_match; by rewrite ?lookup_insert_ne by done.
  - apply map_lookup_filter_None. right. intros v _ Hv. by vm_compute in Hv.
Qed.
Lemma with_assertion_token a form : with_assertion a form !! "refresh_token" = form !! "refresh_token".
Proof. unfold with_assertion. by rewrite !lookup_insert_ne. Qed.

Lemma sends_refreshOnce c e token i s cl : sends (presents token) (refreshOnce cfg c e token i s cl).
Proof.
  unfold refreshOnce. apply sends_bind; [by eauto with sends |]. intros [a | err]; [| by eauto with sends].
  case_match; [by eauto with sends |]. apply sends_bind.
  - apply sends_send. unfold presents. simpl. case_match; rewrite ?with_assertion_token; apply refresh_form_token.
  - intros o. walk.
Qed.

Lemma sends_attempts n k c e token i s cl : sends (presents token) (refresh_attempts cfg n k c e token i s cl).
Proof.
  revert k. induction n as [| n IH]; intros k; cbn [refresh_attempts];
    (apply sends_bind; [apply sends_refreshOnce |]); intros r; walk.
Qed.

Lemma sends_RefreshAccessToken c e token est : sends (presents token) (RefreshAccessToken cfg c e token est).
Proof.
  unfold RefreshAccessToken. apply sends_on_own_cancel. walk. apply sends_attempts.
Qed.

(** [token] is a decryption of the ciphertext under the key of the service. *)
Definition decrypts_to (v : ServiceID) (ciphertext token : string) : Prop := ∃ e, (tp_Decrypt v ciphertext e).2 = Ok token.
(** The stored refresh token of [s] in plaintext. *)
Definition current_token (s : UserSession) (r : token_request) : Prop :=
  ∃ token, decrypts_to (us_ServiceID s) (us_EncryptedRefreshToken s) token ∧ presents token r.

Lemma sends_refreshSessionTokens c s svc : us_EncryptedRefreshToken s ≠ "" →
  sends (current_token s) (refreshSessionTokens cfg c s svc).
Proof.
  intros Hne. unfold refreshSessionTokens, DecryptRefreshToken.
  case_match; [by eauto with sends |]. replace (nonempty (us_EncryptedRefreshToken s)) with true.
  2: { symmetry. unfold nonempty. by destruct (us_EncryptedRefreshToken s). }
  apply sends_port_bind. intros e. destruct (tp_Decrypt _ _ e).2 as [token | err] eqn:Hd; [| walk].
  case_match; [walk |]. apply sends_bind.
  - eapply sends_mono; [| apply sends_RefreshAccessToken]. intros r Hr. exists token. split; [by exists e | done].
  - intros r. walk.
Qed.

End presenting.

(** ** Repeating a request *)

(** The provider cannot have acted on the request: it was never sent, or the provider
    answered completely that it is busy. *)
Definition replayable (o : http_outcome) : bool :=
  match o with
  | HTTPFailed e wroteHeaders =>
      negb wroteHeaders && match as_net_op e with Some (dial, timeout) => dial && negb timeout | None => false end
  | HTTPResponse status _ body =>
      is_server_busy status && bool_decide (hb_error body = None) &&
      bool_decide (String.length (hb_text body) ≤ maxThirdpartyErrorBodyBytes)
  end.

Section retry.
Context {E : Type} `{TokenPorts E} {GU : GoURL} {GN : GoNet} {UU : UUID} {PP : ProviderParsers}.
Variable cfg : session_config.

Lemma run_bind {A B} (p : prog (wire E) A) (g : A → prog (wire E) B) wi :
  run (p ≫= g) wi = run (g (run p wi).2) (run p wi).1.
Proof. unfold mbind, prog_bind. rewrite run_pbind. by destruct (run p wi). Qed.

Lemma run_quiet {A} (p : prog (wire E) A) wi : sends (λ _, False) p → wr_sent (run p wi).1 = wr_sent wi.
Proof.
  revert wi. induction p as [a | X f k IH]; intros wi Hp; [done |]. simpl in *.
  destruct (Hp wi) as [(l & Hl & HF) Hk]. destruct (f wi) as [wi' x]. simpl in *. rewrite IH by done. rewrite Hl.
  destruct HF as [| y l Hy _]; [done | by destruct Hy].
Qed.

Lemma run_quietly {A B} (p : prog (wire E) A) wi (g : A → prog (wire E) B) : sends (λ _, False) p →
  ∃ a wi', run (p ≫= g) wi = run (g a) wi' ∧ wr_sent wi' = wr_sent wi.
Proof. intros Hp. rewrite run_bind. eexists _, _. split; [done | by apply run_quiet]. Qed.

Ltac quiet_step a w Hw :=
  match goal with
  | |- context [run (?p ≫= ?g) ?wi] => destruct (run_quietly p wi g) as (a & w & -> & Hw); [solve [eauto with sends] |]
  end.

(** Every value a program can return satisfies [Q]. *)
Fixpoint yields {A} (Q : A → Prop) (p : prog (wire E) A) : Prop :=
  match p with Ret a => Q a | Act f k => ∀ x, yields Q (k x) end.
Lemma yields_bind {A B} (Q : B → Prop) (p : prog (wire E) A) g : (∀ a, yields Q (g a)) → yields Q (p ≫= g).
Proof. intros Hg. induction p as [a | X f k IH]; [apply Hg |]. intros x. apply IH. Qed.
Lemma yields_run {A} (Q : A → Prop) (p : prog (wire E) A) wi : yields Q p → Q (run p wi).2.
Proof.
  revert wi. induction p as [a | X f k IH]; intros wi Hp; [done |]. simpl. destruct (f wi) as [wi' x]. by apply IH.
Qed.

(** A failure that must not be repeated, or a token. *)
Definition final {A} (r : result (refreshAttemptOutcome * go_error) A) : Prop :=
  match r with Err (o, _) => at_retryable o = false | Ok _ => True end.

Lemma yields_failed {A} (e : prog (wire E) OperationError) : yields final (failed (A:=A) no_retry e).
Proof. apply yields_bind. by intros f. Qed.

Lemma read_token_final c e z b : yields final (read_token c e z b).
Proof.
  unfold read_token. cbv zeta.
  repeat match goal with
  | |- yields _ (match ?x with _ => _ end) => destruct x
  | |- yields _ (failed _ _) => apply yields_failed
  | |- yields _ (_ ≫= _) => apply yields_bind; intros ?
  end; done.
Qed.

Lemma string_length s : String.length s = length (bytes s).
Proof. induction s; simpl; congruence. Qed.

Lemma complete_body status body discovered :
  (thirdpartyRefreshError json_ErrorCode status body discovered).2 =
  bool_decide (hb_error body = None) && bool_decide (String.length (hb_text body) ≤ maxThirdpartyErrorBodyBytes).
Proof.
  unfold thirdpartyRefreshError, limit_body. simpl. set (n := maxThirdpartyErrorBodyBytes).
  destruct (decide (S n ≤ String.length (hb_text body))) as [Hlen | Hlen].
  - rewrite (bool_decide_true _ Hlen). simpl. rewrite (bool_decide_false (String.length (hb_text body) ≤ n)) by lia.
    rewrite andb_false_r. rewrite (bool_decide_false (String.length (of_bytes _) ≤ n)); [by rewrite andb_false_r |].
    intros Hle. enough (String.length (of_bytes (take (S n) (bytes (hb_text body)))) = S n) by lia.
    rewrite string_length, bytes_of_bytes, length_take, <-string_length. lia.
  - rewrite (bool_decide_false _ Hlen). destruct discovered, (hb_error body); simpl; try done;
      by rewrite ?(bool_decide_false (Some _ = None)) by done.
Qed.

(** What one attempt puts on the wire. *)
Definition attempted (wi wi' : wire E) (r : result (refreshAttemptOutcome * go_error) oauth2_token) : Prop :=
  (wr_sent wi' = wr_sent wi ∧ match r with Ok _ => False | Err (out, _) => at_retryable out = false end) ∨
  ∃ rq o, wr_sent wi' = (rq, o) :: wr_sent wi ∧
    match r with
    | Ok _ => ∃ status header body, o = HTTPResponse status header body ∧ (200 ≤ status < 300)%Z
    | Err (out, _) => at_retryable out = true → replayable o = true
    end.

Lemma run_refreshOnce c e token i s cl wi :
  attempted wi (run (refreshOnce cfg c e token i s cl) wi).1 (run (refreshOnce cfg c e token i s cl) wi).2.
Proof.
  unfold refreshOnce. rewrite run_bind. set (wi1 := (run (sign_assertion _ _ _ _) wi).1).
  assert (wr_sent wi1 = wr_sent wi) as Hwi1 by (apply run_quiet; eauto with sends).
  destruct (run (sign_assertion _ _ _ _) wi).2 as [a | err]; [| by left]. cbv zeta.
  case_match.
  { left. split; [rewrite run_quiet; [done | by eauto with sends] |]. unfold failed. by rewrite run_bind. }
  rewrite run_bind. set (rq := TokenRequest _ _ _ _). unfold send at 1 2 3 4. simpl (run _ wi1).
  destruct (tp_Do rq (wr_env wi1)) as [e1 o]. simpl (_, _).1. simpl (_, _).2. right. exists rq, o.
  destruct o as [err wrote | status header body].
  - rewrite run_bind. set (wi2 := (run (ctx_Err c) _).1).
    assert (wr_sent wi2 = (rq, HTTPFailed err wrote) :: wr_sent wi) as Hwi2.
    { subst wi2. rewrite run_quiet by eauto with sends. simpl. by rewrite Hwi1. }
    unfold failed. rewrite run_bind. rewrite run_quiet by done. rewrite run_quiet by eauto with sends. split; [done |].
    simpl. destruct (as_net_op err) as [[dial timeout] |]; [| done].
    intros Hb. simpl in *. by destruct dial, timeout, wrote.
  - destruct (bool_decide (200 ≤ status < 300)%Z) eqn:Hst.
    + apply bool_decide_eq_true_1 in Hst. set (r := run (read_token _ _ _ _) _). split; [subst r; rewrite run_quiet by eauto with sends; simpl; by rewrite Hwi1 |].
      pose proof (yields_run final _ (Wire e1 ((rq, HTTPResponse status header body) :: wr_sent wi1))
        (read_token_final c e status body)) as Hf. fold r in Hf. destruct r.2 as [tok | [out err]]; [by exists status, header, body |].
      simpl in Hf. by rewrite Hf.
    + rewrite run_bind. set (wi2 := (run now _).1). assert (wr_sent wi2 = (rq, HTTPResponse status header body) :: wr_sent wi) as Hwi2.
      { subst wi2. rewrite run_quiet by eauto with sends. simpl. by rewrite Hwi1. }
      pose proof (complete_body status body (is_discovered e)) as Hc. destruct (thirdpartyRefreshError _ _ _ _) as [failure complete].
      simpl in *. split; [done |]. intros [Hb ->]%andb_true_iff. symmetry in Hc. by rewrite Hb, <-andb_assoc, Hc.
Qed.

(** The requests of a sequence of attempts, latest first: all but the latest were
    replayable, and a token comes from a 2xx answer. *)
Definition attempts_ok (n : nat) (l : list (token_request * http_outcome)) (r : result go_error oauth2_token) : Prop :=
  length l ≤ S (pred n) ∧ Forall (λ x, replayable x.2 = true) (tail l) ∧
  match r with
  | Ok _ => ∃ rq status header body l', l = (rq, HTTPResponse status header body) :: l' ∧ (200 ≤ status < 300)%Z
  | Err _ => True
  end.

Definition last_result (r : result (refreshAttemptOutcome * go_error) oauth2_token) : result go_error oauth2_token :=
  match r with Ok token => Ok token | Err (_, e) => Err e end.

Lemma attempts_stop n wi wi' r : attempted wi wi' r →
  ∃ l, wr_sent wi' = l ++ wr_sent wi ∧ attempts_ok n l (last_result r).
Proof.
  intros [[Hs Hf] | (rq & o & Hs & Hr)].
  - exists []. split; [done |]. split_and!; [simpl; lia | done |]. by destruct r as [tok | [out e]].
  - exists [(rq, o)]. split; [done |]. split_and!; [simpl; lia | done |]. destruct r as [tok | [out e]]; [| done].
    destruct Hr as (status & header & body & -> & Hst). by exists rq, status, header, body, [].
Qed.

Lemma attempts_again n rq o l r : attempts_ok (S n) l r → replayable o = true → attempts_ok (S (S n)) (l ++ [(rq, o)]) r.
Proof.
  intros (Hlen & Htail & Hr) Ho. split_and!.
  - rewrite length_app. simpl in *. lia.
  - destruct l as [| x l]; [done |]. simpl in *. apply Forall_app. split; [done |]. by constructor.
  - destruct r as [tok | e]; [| done]. destruct Hr as (rq' & status & header & body & l' & -> & Hst).
    by exists rq', status, header, body, (l' ++ [(rq, o)]).
Qed.

Lemma run_attempts n k c e token i s cl wi :
  let w := run (refresh_attempts cfg n k c e token i s cl) wi in
  ∃ l, wr_sent w.1 = l ++ wr_sent wi ∧ attempts_ok n l w.2.
Proof.
  revert k wi. induction n as [| n IH]; intros k wi w; subst w; cbn [refresh_attempts]; rewrite run_bind;
    set (r := run (refreshOnce _ _ _ _ _ _ _) wi); pose proof (run_refreshOnce c e token i s cl wi : attempted wi r.1 r.2) as Hr;
    pose proof (λ n, attempts_stop n wi r.1 r.2 Hr) as Hstop; destruct r.2 as [tok | [out err]]; simpl in Hstop; try apply Hstop.
  destruct n as [| n]; [apply Hstop |]. destruct (at_retryable out) eqn:Hre; [| apply Hstop]. cbn [negb].
  destruct Hr as [[_ Hf] | (rq & o & Hs & Ho)]; [by rewrite Hre in Hf |]. specialize (Ho Hre).
  assert (∀ wi2, wr_sent wi2 = wr_sent r.1 → ∃ l, wr_sent (run (mret (Err err) : prog (wire E) (result go_error oauth2_token)) wi2).1 = l ++ wr_sent wi ∧
            attempts_ok (S (S n)) l (Err err)) as Hend.
  { intros wi2 Hwi2. simpl. rewrite Hwi2. apply Hstop. }
  quiet_step ended w1 H1. cbv zeta. destruct (_ || _); [by apply Hend |].
  quiet_step deadline w2 H2. quiet_step t w3 H3.
  match goal with |- context [run (if ?b then _ else _) _] => destruct b end; [apply Hend; congruence |].
  quiet_step u w4 H4. quiet_step ended' w5 H5. destruct (bool_decide _); [apply Hend; congruence |].
  destruct (IH (k + 1)%Z w5) as (l & Hl & Hok). exists (l ++ [(rq, o)]). split; [| by apply attempts_again].
  rewrite Hl, H5, H4, H3, H2, H1, Hs, <-app_assoc. done.
Qed.

Lemma run_sends {A} P (p : prog (wire E) A) wi : sends P p →
  ∃ l, wr_sent (run p wi).1 = l ++ wr_sent wi ∧ Forall (λ x, P x.1) l.
Proof.
  revert wi. induction p as [a | X f k IH]; intros wi Hp; [by exists [] |]. simpl.
  destruct (Hp wi) as [(l & Hl & HF) Hk]. destruct (f wi) as [wi' x]. simpl in *.
  destruct (IH x wi' Hk) as (l' & Hl' & HF'). exists (l' ++ l). split; [by rewrite Hl', Hl, app_assoc |].
  by apply Forall_app.
Qed.

(** The result of [p] when a cancelled caller relabels its error. *)
Definition same_outcome {A} (r r' : result go_error A) : Prop :=
  match r, r' with Ok a, Ok a' => a = a' | Err _, Err _ => True | _, _ => False end.

Lemma run_on_own_cancel {A} c o (p : prog (wire E) (result go_error A)) wi :
  let w := run (on_own_cancel c o p) wi in
  wr_sent w.1 = wr_sent (run p wi).1 ∧ same_outcome (run p wi).2 w.2.
Proof.
  unfold on_own_cancel, on_caller_cancel. destruct (cx_shared c); [by destruct (run p wi).2 |]. cbv zeta. rewrite run_bind.
  destruct (run p wi).2 as [a | e]; [done |]. quiet_step ended w1 H1. by simpl.
Qed.

(** A refusal sends nothing. *)
Lemma fail_attempts (e : prog (wire E) OperationError) n wi : sends (λ _, False) e →
  let w := run (fail (A:=oauth2_token) e) wi in ∃ l, wr_sent w.1 = l ++ wr_sent wi ∧ attempts_ok n l w.2.
Proof.
  intros He w. exists []. subst w. unfold fail. quiet_step f w1 H1. split; [done |]. split_and!; [simpl; lia | done..].
Qed.

(** A refresh sends at most the configured number of requests, repeats one only when the
    provider cannot have acted on it, and returns a token only from a 2xx answer to its
    last request. *)
Theorem refresh_replays_safely c e token est wi :
  let w := run (RefreshAccessToken cfg c e token est) wi in
  ∃ l, wr_sent w.1 = l ++ wr_sent wi ∧ (Z.of_nat (length l) ≤ Z.max (sc_MaxRetries cfg) 1)%Z ∧
    Forall (λ x, replayable x.2 = true) (tail l) ∧ Forall (λ x, presents token x.1) l ∧
    match w.2 with
    | Ok _ => ∃ rq status header body l', l = (rq, HTTPResponse status header body) :: l' ∧ (200 ≤ status < 300)%Z
    | Err _ => True
    end.
Proof.
  intros w. set (n := Z.to_nat (Z.max (sc_MaxRetries cfg) 1)).
  enough (∃ l, wr_sent w.1 = l ++ wr_sent wi ∧ attempts_ok n l w.2) as (l & Hl & Hlen & Htail & Hr).
  { exists l. split_and!; [done | lia | done | | done].
    destruct (run_sends _ _ wi (sends_RefreshAccessToken cfg c e token est)) as (l' & Hl' & HF).
    fold w in Hl'. rewrite Hl in Hl'. by apply app_inv_tail in Hl' as ->. }
  subst w. unfold RefreshAccessToken. set (body := _ ← ctx_Err c; _).
  destruct (run_on_own_cancel c OperationRefresh body wi) as [Hs Ho].
  enough (∃ l, wr_sent (run body wi).1 = l ++ wr_sent wi ∧ attempts_ok n l (run body wi).2) as (l & Hl & Hlen & Htail & Hr).
  { exists l. rewrite Hs. split; [done |]. split_and!; [done | done |].
    destruct (run body wi).2, (run (on_own_cancel _ _ _) wi).2; try done; by subst. }
  clear Hs Ho. subst body. quiet_step ended w1 H1. rewrite <-H1.
  destruct ended as [err |]; [apply fail_attempts; eauto with sends |].
  destruct e as [e |]; [| apply fail_attempts; eauto with sends]. cbv zeta.
  destruct (tokenHTTPClient cfg e) as [client |]; [| apply fail_attempts; eauto with sends].
  destruct (ValidateOutboundCredentials e) as [e' |]; [| apply fail_attempts; eauto with sends].
  destruct (negb (nonempty token)); [apply fail_attempts; eauto with sends |].
  quiet_step r w2 H2. rewrite <-H2. destruct r as [[clientID secret] | err].
  - apply run_attempts.
  - exists []. split; [done |]. split_and!; [simpl; lia | done..].
Qed.
End retry.

(** ** The client identity of a request *)

Section identity.
Context {E : Type} `{TokenPorts E} {GU : GoURL} {GN : GoNet} {UU : UUID} {PP : ProviderParsers}.
Variable cfg : session_config.

Lemma validated_source e e' : validateCredentialSource e = Some e' → ∃ s, e' = e ∨ e' = set_pe_CredentialSource s e.
Proof.
  unfold validateCredentialSource. intros Hv. exists CredentialSourceStored.
  repeat first [case_decide | case_match]; simplify_eq; auto.
Qed.
Lemma validated_eligible e e' : ValidateOutboundCredentials e = Some e' →
  credentialSourceEligible e' = credentialSourceEligible e ∧ isDCRBasic e' = isDCRBasic e.
Proof.
  unfold ValidateOutboundCredentials. intros Hv. apply bind_Some in Hv as (e1 & H1 & H2).
  assert (e' = e1) as -> by (repeat case_match; congruence).
  destruct (nonempty _ || _); [apply validated_source in H1 as (s & [-> | ->]); by split | simplify_eq; by split].
Qed.

(** Every request of [P] when the values it depends on satisfy [Q]. *)
Lemma sends_bind_yields {A B} P (Q : A → Prop) (p : prog (wire E) A) (g : A → prog (wire E) B) :
  sends P p → yields Q p → (∀ a, Q a → sends P (g a)) → sends P (p ≫= g).
Proof.
  intros Hp Hy Hg. induction p as [a | X f k IH]; [by apply Hg |].
  intros wi. destruct (Hp wi) as [Hl Hk]. split; [done |]. apply IH; [done | apply Hy].
Qed.

Lemma yields_bind_yields {A B} (Q : A → Prop) (Q' : B → Prop) (p : prog (wire E) A) g :
  yields Q p → (∀ a, Q a → yields Q' (g a)) → yields Q' (p ≫= g).
Proof. intros Hp Hg. induction p as [a | X f k IH]; [by apply Hg |]. intros x. by apply IH. Qed.

(** The client id selected for an established identity. *)
Definition keeps (clientID : string) (r : result go_error (string * string)) : Prop :=
  match r with Ok (i, _) => i = clientID | Err _ => True end.

Lemma selected_identity c e op clientID : credentialSourceEligible e = true → op ≠ CredInitiation →
  yields (keeps clientID) (selectCredentials cfg c e op (Some clientID)).
Proof.
  intros He Hop. unfold selectCredentials. cbv zeta. match goal with |- context [ValidateOutboundCredentials ?x] => set (candidate := x) end.
  assert (credentialSourceEligible candidate = true) as Hc by (subst candidate; by case_match).
  match goal with |- context [acquire_credentials _ _ _ _ ?x] => set (eo := x) end. assert (∀ r, keeps clientID r → yields (keeps clientID) (match r with
     | Err x => if decide (is_Some (as_credential_source x)) then fail (sessionOperationError c eo DetailCredentialSourceUnavailable x) else mret (Err x)
     | Ok x => mret (Ok x) end : prog (wire E) (result go_error (string * string)))) as Hend.
  { intros [[i s] | x] Hk; [done |]. case_decide; [| done]. apply yields_bind. by intros f. }
  apply (yields_bind_yields (keeps clientID)); [| exact Hend].
  destruct (ValidateOutboundCredentials candidate) as [e' |] eqn:Hv; [| apply yields_bind; by intros f].
  apply validated_eligible in Hv as [Hv _]. rewrite Hc in Hv. apply yields_bind. intros [[i s] | x]; [| done].
  unfold identity_mismatch. rewrite Hv, (bool_decide_false (op = CredInitiation)) by done. simpl.
  destruct (nonempty clientID); [| done]. simpl. by case_bool_decide.
Qed.

Lemma refresh_form_client e token clientID secret : isDCRBasic e = false →
  refresh_form e token clientID secret !! "client_id" = Some clientID.
Proof.
  intros Hb. unfold refresh_form, addProviderAuthorizationParams. rewrite Hb. simpl. rewrite lookup_union_r.
  - case_match; by rewrite ?lookup_insert_ne, ?lookup_insert_eq by done.
  - apply map_lookup_filter_None. right. intros v _ Hv. by vm_compute in Hv.
Qed.

(** The request authenticates as [clientID]. *)
Definition identifies (clientID : string) (r : token_request) : Prop :=
  rq_form r !! "client_id" = Some clientID ∨ ∃ secret, rq_basic r = Some (url_QueryEscape clientID, secret).

Lemma sends_identified c e token clientID s cl : sends (identifies clientID) (refreshOnce cfg c e token clientID s cl).
Proof.
  unfold refreshOnce. apply sends_bind; [by eauto with sends |]. intros [a | err]; [| by eauto with sends].
  cbv zeta. destruct (bool_decide _); [by eauto with sends |]. apply sends_bind; [| intros o; walk].
  apply sends_send. unfold identifies. simpl. destruct (isDCRBasic e) eqn:Hb; [right; by eexists |]. left.
  destruct a; [unfold with_assertion; rewrite !lookup_insert_ne by done |]; by apply refresh_form_client.
Qed.

Lemma sends_attempts_identified n k c e token clientID s cl :
  sends (identifies clientID) (refresh_attempts cfg n k c e token clientID s cl).
Proof.
  revert k. induction n as [| n IH]; intros k; cbn [refresh_attempts];
    (apply sends_bind; [apply sends_identified |]); intros r; walk.
Qed.

(** A session bound to a client identity is refreshed under that identity only. *)
Theorem refresh_keeps_client_identity c e token clientID wi (He : credentialSourceEligible e = true) :
  let w := run (RefreshAccessToken cfg c (Some e) token (Some clientID)) wi in
  ∃ l, wr_sent w.1 = l ++ wr_sent wi ∧ Forall (λ x, identifies clientID x.1) l.
Proof.
  apply run_sends. unfold RefreshAccessToken. apply sends_on_own_cancel. apply sends_bind; [by eauto with sends |].
  intros [err |]; [by eauto with sends |]. cbv zeta.
  destruct (tokenHTTPClient cfg e) as [client |]; [| by eauto with sends].
  destruct (ValidateOutboundCredentials e) as [e' |] eqn:Hv; [| by eauto with sends].
  apply validated_eligible in Hv as [Hv _]. rewrite He in Hv. destruct (negb (nonempty token)); [by eauto with sends |].
  eapply sends_bind_yields; [by eauto with sends | by apply (selected_identity c e' CredRefresh clientID) |].
  intros [[i s] | x]; [| by eauto with sends]. intros ->. apply sends_attempts_identified.
Qed.
End identity.
