(* ===== verification/SessionRefresh.v ===== *)
(** * Refreshing third-party sessions

    [WithLockedSession] of internal/adapters/storage/memory/user_session.go and the
    operations of internal/domain/oauth2session/service.go that work on one session:
    refreshing it (on demand, forced, in the background, by a sweep), storing the result of
    an authorization, terminating it.  Every operation is a program over the session
    repository and the environment; a log records what is sent to token endpoints and what
    is stored.  Log lines, metrics and traces are left out. *)

From S2P Require Import Prelude ToolApproval ApprovalStore ApprovalHandlers OAuthSessions UserGrants Consent UriValidation NetPolicy Providers UserSessions BrokerErrors ServiceSessions SessionLocks ProviderTokens.
Import Session.

Inductive session_event :=
  | Sent (key : string) (r : token_request) (o : http_outcome)
  | Stored (key : string) (s : UserSession)
  | Removed (key : string).

(** The log is latest first. *)
Record session_world (E : Type) := SessionWorld {
  sw_repo : UserSessionRepository;
  sw_env : E;
  sw_log : list session_event;
}.
Arguments SessionWorld {E} _ _ _.
Arguments sw_repo {E} _.
Arguments sw_env {E} _.
Arguments sw_log {E} _.

Inductive RefreshTrigger := RefreshTriggerOnDemand | RefreshTriggerBackground | RefreshTriggerSweep.
#[export] Instance RefreshTrigger_eq_dec : EqDecision RefreshTrigger.
Proof. solve_decision. Defined.

(** [refreshFlightResult], the value callers of one refresh share. *)
Record refreshFlightResult := FlightResult {
  fl_session : option UserSession;
  fl_refreshed : bool;
  fl_trigger : RefreshTrigger;
}.

Section refresh.
Context {E : Type} `{TokenPorts E} {GU : GoURL} {GN : GoNet} {UU : UUID} {PP : ProviderParsers}.
Variable cfg : session_config.

Abbreviation W := (session_world E).
Abbreviation LM := (lprog (session_world E)).

(** ** Building blocks *)

(** An action of the environment on behalf of the session [key]. *)
Definition on_wire {A} (key : string) (f : wire E → wire E * A) : W → W * A := λ w,
  let '(wi, a) := f (Wire (sw_env w) []) in
  (SessionWorld (sw_repo w) (wr_env wi) (((λ '(r, o), Sent key r o) <$> wr_sent wi) ++ sw_log w), a).
Fixpoint lift {A} (key : string) (p : prog (wire E) A) : LM A :=
  match p with
  | Ret a => LRet a
  | Act f k => LAct (on_wire key f) (λ x, lift key (k x))
  end.

Definition read_repo {A} (f : UserSessionRepository → A) : LM A := lact (λ w, (w, f (sw_repo w))).
Definition store_session (key : string) (s : UserSession) : LM unit :=
  lact (λ w, (SessionWorld (store_refreshed key s (sw_repo w)) (sw_env w) (Stored key s :: sw_log w), ())).

(** [lockSession]: the wait ends with the lock or with the context's error. *)
Definition lockSession (c : ctx) (key : string) : LM (option ctx_error) :=
  LLock key (λ w, (tp_ctx_Err c (sw_env w)).2) (λ cancelled,
    match cancelled with
    | Some e => LRet (Some e)
    | None =>
        ended ← lift key (ctx_Err c);
        match ended with
        | Some e => _ ← unlock key; mret (Some e)
        | None => mret None
        end
    end).

(** The callback's environment actions run under the lock; [x0] is the state it captures,
    as it is when the callback does not run. *)
Definition WithLockedSession {X} (c : ctx) (principal : Principal) (serviceID : ServiceID) (x0 : X)
    (refresh : UserSession → prog (wire E) (X * result go_error (bool * UserSession)))
    : LM (X * result go_error (option UserSession)) :=
  if negb (nonempty principal) || negb (nonzero_id serviceID) then mret (x0, Err EText)
  else
    let key := principalServiceKey principal serviceID in
    ended ← lockSession c key;
    match ended with
    | Some e => mret (x0, Err (ECtx e))
    | None =>
        current ← read_repo (λ r, us_index r !! key);
        match current with
        | None => _ ← unlock key; mret (x0, Ok None)
        | Some current =>
            '(x, r) ← lift key (refresh current);
            match r with
            | Err e => _ ← unlock key; mret (x, Err e)
            | Ok (updated, session) =>
                let session := if decide (us_CallbackID session = us_CallbackID current)
                               then set_us_UpstreamClientID (us_UpstreamClientID current) session else session in
                if negb updated then _ ← unlock key; mret (x, Ok (Some session))
                else if negb (session_Validate session) then _ ← unlock key; mret (x, Err EText)
                else
                  ended ← lift key (ctx_Err c);
                  match ended with
                  | Some e => _ ← unlock key; mret (x, Err (ECtx e))
                  | None => _ ← store_session key session; _ ← unlock key; mret (x, Ok (Some session))
                  end
            end
        end
    end.

Definition lfail {A} (key : string) (e : prog (wire E) OperationError) : LM (result go_error A) := lift key (fail e).

(** ** Refresh *)

(** The callback of [refreshLockedSession]: whether tokens were refreshed, and the error of
    a rejection that is to be recorded. *)
Definition refresh_locked (c : ctx) (dueBy : option (prog (wire E) time)) (trigger : RefreshTrigger)
    (provider : result go_error provider) (current : UserSession)
    : prog (wire E) ((bool * option go_error) * result go_error (bool * UserSession)) :=
  let unavailable threshold :=
    f ← refreshUnavailableError c current threshold; mret ((false, None), Err (operation_error f)) in
  if RefreshRejected current then
    if bool_decide (trigger = RefreshTriggerOnDemand) then unavailable None
    else mret ((false, None), Ok (false, current))
  else
    due ← match dueBy with None => mret None | Some by_ => t ← by_; mret (Some t) end;
    if match due with Some t => negb (AccessTokenExpiresBy t current) | None => false end
    then mret ((false, None), Ok (false, current))
    else if negb (CanRefresh current) then unavailable due
    else match provider with
    | Err e => mret ((false, None), Err e)
    | Ok p =>
        r ← refreshSessionTokens cfg c current p;
        match r with
        | Ok session => mret ((true, None), Ok (true, session))
        | Err e =>
            if decide (em_detail (sessionFailureMetadata e) = DetailRefreshRejected)
            then rejectedAt ← now; mret ((false, Some e), Ok (true, set_rejected rejectedAt current))
            else mret ((false, None), Err e)
        end
    end.

Definition refreshLockedSession (c : ctx) (principal : Principal) (serviceID : ServiceID)
    (dueBy : option (prog (wire E) time)) (trigger : RefreshTrigger)
    : LM (option provider * result go_error (UserSession * bool)) :=
  let key := principalServiceKey principal serviceID in
  p ← lift key (getRefreshProvider c serviceID);
  let known := match p with Ok x => Some x | Err _ => None end in
  '((refreshed, rejected), r) ← WithLockedSession c principal serviceID (false, None) (refresh_locked c dueBy trigger p);
  r ← match r with
      | Err e =>
          lfail key (sessionRepositoryError c
            (if (refreshed : bool) || bool_decide (is_Some rejected) then DetailPersistenceFailed
             else DetailRepositoryUnavailable) e)
      | Ok current =>
          match rejected, current with
          | Some e, _ => mret (Err e)
          | None, None => lfail key (sessionOperationError c OperationSessionLookup DetailSessionMissing (ESentinel ErrSessionNotFound))
          | None, Some session => mret (Ok (session, refreshed))
          end
      end;
  mret (known, r).

Definition in_lookahead : prog (wire E) time := t ← now; mret (t + sc_RefreshLookahead cfg)%Z.

(** The function callers of one key share: [c] is its own context. *)
Definition refresh_flight (c : ctx) (principal : Principal) (serviceID : ServiceID) (dueBy : prog (wire E) time)
    (trigger : RefreshTrigger) : LM (refreshFlightResult * option go_error) :=
  '(_, r) ← refreshLockedSession c principal serviceID (Some dueBy) trigger;
  mret match r with
       | Ok (session, refreshed) => (FlightResult (Some session) refreshed trigger, None)
       | Err e => (FlightResult None false trigger, Some e)
       end.

(** [refresh] of the background pool, given the outcome of the flight it led or joined. *)
Definition continueSharedRefresh (c : ctx) (principal : Principal) (serviceID : ServiceID)
    (flight : refreshFlightResult) : LM (refreshFlightResult * option go_error) :=
  let key := principalServiceKey principal serviceID in
  match fl_session flight with
  | Some session =>
      if bool_decide (fl_trigger flight = RefreshTriggerOnDemand) && negb (fl_refreshed flight) &&
         negb (RefreshRejected session) then
        due ← lift key in_lookahead;
        if AccessTokenExpiresBy due session
        then refresh_flight c principal serviceID in_lookahead RefreshTriggerBackground
        else mret (flight, None)
      else mret (flight, None)
  | None => mret (flight, None)
  end.

(** [GetValidAccessToken], given what its wait for a refresh flight, led or joined, ends
    with: the flight's outcome or the error of its context.  The answer says whether a
    background refresh was submitted. *)
Definition GetValidAccessToken (c : ctx) (principal : Principal) (serviceID : ServiceID)
    (flight : (refreshFlightResult * option go_error) + ctx_error) : LM (result go_error (UserSession * string * bool)) :=
  let key := principalServiceKey principal serviceID in
  let missing {A} : LM (result go_error A) :=
    lfail key (sessionOperationError c OperationSessionLookup DetailSessionMissing (ESentinel ErrSessionNotFound)) in
  let canceled {A} operation e : LM (result go_error A) :=
    lfail key (sessionOperationError c operation DetailCallerCanceled (ECtx e)) in
  let decrypt operation session submitted : LM (result go_error (UserSession * string * bool)) :=
    token ← lift key (DecryptAccessToken session);
    match token with
    | Err e => lfail key (sessionOperationError c operation DetailDecryptionFailed e)
    | Ok token => submitted ← lift key submitted; mret (Ok (session, token, submitted : bool))
    end in
  let shared := λ '(result, err),
    match err with
    | Some e => mret (Err e)
    | None =>
        match fl_session result with
        | None => missing (* a flight without an error has a session *)
        | Some current =>
            if RefreshRejected current then lfail key (refreshUnavailableError c current None)
            else decrypt OperationRefresh current (mret false)
        end
    end in
  r ← (ended ← lift key (ctx_Err c);
       match ended with
       | Some e => canceled OperationSessionLookup e
       | None =>
           found ← read_repo (session_FindByPrincipalAndService principal serviceID);
           match found with
           | Err _ => lfail key (sessionOperationError c OperationSessionLookup DetailRepositoryUnavailable EText)
           | Ok None => missing
           | Ok (Some session) =>
               if RefreshRejected session then lfail key (refreshUnavailableError c session None)
               else
                 t ← lift key now;
                 if HasValidAccessToken t session then
                   decrypt OperationSessionLookup session
                     (if CanRefresh session
                      then due ← in_lookahead; mret (AccessTokenExpiresBy due session) else mret false)
                 else
                   ended ← lift key (ctx_Err c);
                   match ended, flight with
                   | Some e, _ => canceled OperationRefresh e
                   | None, inr e => canceled OperationRefresh e
                   | None, inl outcome =>
                       ended ← lift key (ctx_Err c);
                       match ended with
                       | Some e => canceled OperationRefresh e
                       | None => shared outcome
                       end
                   end
           end
       end);
  lift key (on_caller_cancel c OperationSessionLookup (mret r)).

(** [ForceRefreshSession]; [c] is the operation's context, derived from [caller]. *)
Definition ForceRefreshSession (caller c : ctx) (principal : Principal) (serviceID : ServiceID)
    : LM (result go_error UserSessionSummary) :=
  let key := principalServiceKey principal serviceID in
  r ← (found ← read_repo (session_FindByPrincipalAndService principal serviceID);
       match found with
       | Err _ => lfail key (sessionOperationError c OperationRefresh DetailRepositoryUnavailable EText)
       | Ok None => lfail key (sessionOperationError c OperationSessionLookup DetailSessionMissing (ESentinel ErrSessionNotFound))
       | Ok (Some _) =>
           '(p, r) ← refreshLockedSession c principal serviceID None RefreshTriggerOnDemand;
           match r with
           | Err e => mret (Err e)
           | Ok (session, _) =>
               count ← lift key (port (tp_CountAgents principal serviceID));
               t1 ← lift key now;
               t2 ← lift key now;
               mret (Ok (NewUserSessionSummary t1 t2 session (default "" (pe_DisplayName <$> p))
                           match count with Ok n => n | Err _ => 0 end))
           end
       end);
  lift key (on_caller_cancel caller OperationRefresh (mret r)).

(** Whether a sweep candidate without a refresh token still has to be refreshed. *)
Definition checkUnrefreshableSweepCandidate (c : ctx) (principal : Principal) (serviceID : ServiceID) (threshold : time)
    : LM (result go_error bool) :=
  '(needsRefresh, r) ← WithLockedSession c principal serviceID false (λ current,
    if RefreshRejected current || negb (AccessTokenExpiresBy threshold current) then mret (false, Ok (false, current))
    else if negb (CanRefresh current)
    then f ← refreshUnavailableError c current (Some threshold); mret (false, Err (operation_error f))
    else mret (true, Ok (false, current)));
  match r with
  | Err e => lfail (principalServiceKey principal serviceID) (sessionRepositoryError c DetailRepositoryUnavailable e)
  | Ok None => mret (Ok false)
  | Ok (Some _) => mret (Ok needsRefresh)
  end.

(** ** Storing and terminating sessions *)

(** The repository's [CreateIfAbsent].  The gate that keeps provider updates out between the
    check and the write is in ServiceSessions.v, where both are one step. *)
Definition CreateIfAbsent (c : ctx) (session : UserSession) : LM (result go_error UserSession) :=
  let key := session_key session in
  if negb (session_Validate session) then mret (Err EText)
  else
    current ← lift key (port (tp_provider_Get (us_ServiceID session)));
    match currentDiscoveryStateError session match current with Ok p => Some p | Err _ => None end with
    | Err k => mret (Err (EStorage k))
    | Ok _ =>
        ended ← lockSession c key;
        match ended with
        | Some e => mret (Err (ECtx e))
        | None =>
            existing ← read_repo (λ r, us_index r !! key);
            stored ← match existing with
                     | Some s => mret s
                     | None => _ ← store_session key (clear_expected session); mret (clear_expected session)
                     end;
            _ ← unlock key;
            mret (Ok stored)
        end
    end.

Definition DeleteByPrincipalAndService (c : ctx) (principal : Principal) (serviceID : ServiceID) : LM (result go_error unit) :=
  let key := principalServiceKey principal serviceID in
  if negb (nonempty principal) || negb (nonzero_id serviceID) then mret (Err EText)
  else
    ended ← lockSession c key;
    match ended with
    | Some e => mret (Err (ECtx e))
    | None =>
        _ ← lact (λ w, (SessionWorld (session_DeleteByPrincipalAndService principal serviceID (sw_repo w)) (sw_env w)
                         (Removed key :: sw_log w), ()));
        _ ← unlock key;
        mret (Ok ())
    end.

Definition TerminateSession (c : ctx) (principal : Principal) (serviceID : ServiceID) : LM (result go_error unit) :=
  found ← read_repo (session_FindByPrincipalAndService principal serviceID);
  match found with
  | Err _ | Ok None => mret (Err (ESentinel ErrSessionNotFound))
  | Ok (Some session) =>
      if negb (bool_decide (us_Principal session = principal)) then mret (Err (ESentinel ErrUnauthorized))
      else DeleteByPrincipalAndService c principal serviceID
  end.

(** What the sealed state of a flow says about the connection (state_token.go). *)
Record connection := Connection {
  cn_SessionID : SessionID;
  cn_CallbackID : string;
  cn_UpstreamClientID : option string;
  cn_IssuerURI : string;
  cn_Resource : string;
}.

(** The session a reconnect leaves: a new callback generation, and nothing of the old tokens. *)
Definition reconnected (serviceID : ServiceID) (cn : connection) (callbackID access refresh : string) (expiry : option time)
    (tokenType : string) (scope : list string) (t : time) (s : UserSession) : UserSession :=
  {| us_ID := us_ID s; us_Principal := us_Principal s; us_ServiceID := us_ServiceID s; us_CallbackID := callbackID;
     us_UpstreamClientID := cn_UpstreamClientID cn; us_ExpectedIssuerURI := us_ExpectedIssuerURI s;
     us_ExpectedResource := us_ExpectedResource s; us_EncryptedAccessToken := access; us_EncryptedRefreshToken := refresh;
     us_TokenType := tokenType; us_AccessTokenExpiresAt := expiry; us_RefreshRejectedAt := None; us_Scope := scope;
     us_EncryptionContext := serviceID; us_InitiatedAt := us_InitiatedAt s; us_CreatedAt := us_CreatedAt s;
     us_UpdatedAt := t |}.

Definition first_session (i : SessionID) (principal : Principal) (serviceID : ServiceID) (cn : connection)
    (callbackID access refresh : string) (expiry : option time) (tokenType : string) (scope : list string) (t : time)
    : UserSession :=
  {| us_ID := i; us_Principal := principal; us_ServiceID := serviceID; us_CallbackID := callbackID;
     us_UpstreamClientID := cn_UpstreamClientID cn; us_ExpectedIssuerURI := cn_IssuerURI cn;
     us_ExpectedResource := cn_Resource cn; us_EncryptedAccessToken := access; us_EncryptedRefreshToken := refresh;
     us_TokenType := tokenType; us_AccessTokenExpiresAt := expiry; us_RefreshRejectedAt := None; us_Scope := scope;
     us_EncryptionContext := serviceID; us_InitiatedAt := t; us_CreatedAt := t; us_UpdatedAt := t |}.

Definition createSession (c : ctx) (principal : Principal) (serviceID : ServiceID) (token : oauth2_token)
    (scope : list string) (cn : connection) : LM (result go_error UserSession) :=
  let key := principalServiceKey principal serviceID in
  let encryption_failed {A} err : LM (result go_error A) :=
    lfail key (sessionOperationError c OperationCodeExchange DetailEncryptionFailed (EJoin (ESentinel ErrEncryptionFailed) err)) in
  let persistence_failed {A} err : LM (result go_error A) :=
    lfail key (sessionOperationError c OperationCodeExchange DetailPersistenceFailed err) in
  access ← lift key (port (tp_Encrypt serviceID (tk_AccessToken token)));
  match access with
  | Err err => encryption_failed err
  | Ok access =>
      refresh ← (if nonempty (tk_RefreshToken token) then lift key (port (tp_Encrypt serviceID (tk_RefreshToken token)))
                 else mret (Ok ""));
      match refresh with
      | Err err => encryption_failed err
      | Ok refresh =>
          t ← lift key now;
          let expiry := if IsZero (tk_Expiry token) then None else Some (tk_Expiry token) in
          let tokenType := if nonempty (tk_TokenType token) then tk_TokenType token else "Bearer" in
          '(_, r) ← WithLockedSession c principal serviceID () (λ current,
            if negb (bool_decide (us_ID current = cn_SessionID cn)) || negb (bool_decide (us_CallbackID current = cn_CallbackID cn))
            then mret ((), Ok (false, current))
            else
              callbackID ← port tp_NewUUID;
              mret ((), Ok (true, reconnected serviceID cn callbackID access refresh expiry tokenType scope t current)));
          match r with
          | Err err => persistence_failed err
          | Ok (Some session) => mret (Ok session)
          | Ok None =>
              if nonzero_id (cn_SessionID cn) then mret (Err (ESentinel ErrSessionNotFound))
              else
                i ← lift key (port tp_NewUUID);
                callbackID ← lift key (port tp_NewUUID);
                r ← CreateIfAbsent c (first_session i principal serviceID cn callbackID access refresh expiry tokenType scope t);
                match r with
                | Err err => persistence_failed err
                | Ok session => mret (Ok session)
                end
          end
      end
  end.
End refresh.
