(* ===== verification/SessionRefreshFacts.v ===== *)
(** * What the session locks guarantee

    For any number of concurrent requests on sessions: every refresh token sent to a
    provider is the one stored for the session at that moment, a session whose refresh
    token was rejected sends nothing until the user reconnects, the client identity a
    session was established with never changes without a reconnect, and no schedule of the
    requests deadlocks. *)

From S2P Require Import Prelude ToolApproval ApprovalStore ApprovalHandlers OAuthSessions UserGrants Consent UriValidation NetPolicy Providers UserSessions BrokerErrors ServiceSessions SessionLocks ProviderTokens ProviderTokensFacts SessionRefresh.
Import Session.

(** ** The answers of a program *)

Section answers.
Context {E : Type} `{TokenPorts E}.

(** Every value [p] returns, whatever the environment is at each of its steps. *)
Fixpoint answers {A} (Q : A → Prop) (p : prog (wire E) A) : Prop :=
  match p with Ret a => Q a | Act f k => ∀ w, answers Q (k (f w).2) end.

Lemma answers_bind {A B} (Q : B → Prop) (p : prog (wire E) A) (g : A → prog (wire E) B) :
  answers (λ a, answers Q (g a)) p → answers Q (p ≫= g).
Proof. induction p as [a | X f k IH]; [done |]. intros Hp w. apply IH, Hp. Qed.
Lemma answers_mono {A} (Q Q' : A → Prop) (p : prog (wire E) A) : (∀ a, Q a → Q' a) → answers Q p → answers Q' p.
Proof. intros HQ. induction p as [a | X f k IH]; [apply HQ |]. intros Hp w. apply IH, Hp. Qed.
Lemma answers_ret {A} (Q : A → Prop) (a : A) : Q a → answers Q (mret a).
Proof. done. Qed.
Lemma answers_port {A} (Q : A → Prop) (f : E → E * A) : (∀ e, Q (f e).2) → answers Q (port f).
Proof. intros HQ w. simpl. specialize (HQ (wr_env w)). by destruct (f (wr_env w)). Qed.
Lemma answers_any {A} (p : prog (wire E) A) : answers (λ _, True) p.
Proof. induction p; simpl; auto. Qed.

Lemma returns_lift {A} (Q : A → Prop) key (p : prog (wire E) A) : answers Q p → returns Q (lift key p).
Proof.
  induction p as [a | X f k IH]; [done |]. intros Hp w. specialize (Hp (Wire (sw_env w) [])). unfold on_wire.
  destruct (f (Wire (sw_env w) [])) as [wi x]. by apply IH.
Qed.
End answers.

(** Step through a program: a port's answer is named by the environment it came from. *)
Ltac ask :=
  repeat match goal with
  | |- answers _ (mret _) => apply answers_ret
  | |- answers _ (Ret _) => apply answers_ret
  | |- answers _ (_ ≫= _) => apply answers_bind
  | |- answers _ (let _ := _ in _) => cbv zeta
  end.

Lemma returns_lfail {E} `{TokenPorts E} {A} (Q : result go_error A → Prop) key (e : prog (wire E) OperationError) :
  (∀ x, Q (Err x)) → returns Q (lfail key e).
Proof.
  intros HQ. apply returns_lift. unfold fail. ask. eapply answers_mono; [| apply answers_any]. intros f _. ask. apply HQ.
Qed.

(** ** Replaying the log *)

(** The sessions by key after the logged events, from [idx]. *)
Fixpoint stored_at (idx : gmap string UserSession) (log : list session_event) : gmap string UserSession :=
  match log with
  | [] => idx
  | Sent _ _ _ :: log => stored_at idx log
  | Stored key s :: log => <[key := s]> (stored_at idx log)
  | Removed key :: log => delete key (stored_at idx log)
  end.

Section locked.
Context {E : Type} `{TokenPorts E} {GU : GoURL} {GN : GoNet} {UU : UUID} {PP : ProviderParsers}.
Variable cfg : session_config.

Lemma sends_refresh_locked c due trigger p s :
  (∀ d, due = Some d → ∀ P, sends P d) →
  sends (λ r, RefreshRejected s = false ∧ current_token s r) (refresh_locked cfg c due trigger p s).
Proof.
  intros Hdue. unfold refresh_locked. destruct (RefreshRejected s) eqn:Hrej; [walk |].
  apply sends_bind; [destruct due; walk; by apply Hdue |]. intros threshold. walk.
  eapply sends_mono; [| apply sends_refreshSessionTokens]; [done |].
  intros Hempty. unfold CanRefresh in *. rewrite Hempty in *. done.
Qed.
End locked.

(** ** Requests on sessions *)

Section pool.
Context {E : Type} `{TokenPorts E} {GU : GoURL} {GN : GoNet} {UU : UUID} {PP : ProviderParsers}.
Variable cfg : session_config.

Inductive due_by := DueNow | DueInLookahead | DueAt (t : time).
Definition due_prog (d : due_by) : prog (wire E) time :=
  match d with DueNow => now | DueInLookahead => in_lookahead cfg | DueAt t => mret t end.

(** What a caller asks of one session. *)
Inductive session_request :=
  | RequestRefresh (c : ctx) (principal : Principal) (v : ServiceID) (due : due_by) (trigger : RefreshTrigger)
  | RequestContinue (c : ctx) (principal : Principal) (v : ServiceID) (flight : refreshFlightResult)
  | RequestToken (c : ctx) (principal : Principal) (v : ServiceID)
      (flight : (refreshFlightResult * option go_error) + ctx_error)
  | RequestForce (caller c : ctx) (principal : Principal) (v : ServiceID)
  | RequestCheck (c : ctx) (principal : Principal) (v : ServiceID) (threshold : time)
  | RequestTerminate (c : ctx) (principal : Principal) (v : ServiceID)
  | RequestStore (c : ctx) (principal : Principal) (v : ServiceID) (token : oauth2_token) (scope : list string)
      (cn : connection).

Abbreviation W := (session_world E).
Definition answered {A} (p : lprog W A) : lprog W unit := p ≫= λ _, mret ().

Definition serve (rq : session_request) : lprog W unit :=
  match rq with
  | RequestRefresh c p v due trigger => answered (refresh_flight cfg c p v (due_prog due) trigger)
  | RequestContinue c p v flight => answered (continueSharedRefresh cfg c p v flight)
  | RequestToken c p v flight => answered (GetValidAccessToken cfg c p v flight)
  | RequestForce caller c p v => answered (ForceRefreshSession cfg caller c p v)
  | RequestCheck c p v t => answered (checkUnrefreshableSweepCandidate c p v t)
  | RequestTerminate c p v => answered (TerminateSession c p v)
  | RequestStore c p v token scope cn => answered (createSession c p v token scope cn)
  end.

(** ** The invariant *)

Variable idx : gmap string UserSession.

Definition event_ok (st : gmap string UserSession) (ev : session_event) : Prop :=
  match ev with
  | Sent key r _ => ∃ s, st !! key = Some s ∧ RefreshRejected s = false ∧ current_token s r
  | Stored key s => ∀ s0, st !! key = Some s0 → us_CallbackID s = us_CallbackID s0 →
                          us_UpstreamClientID s = us_UpstreamClientID s0
  | Removed _ => True
  end.

Fixpoint log_ok (log : list session_event) : Prop :=
  match log with
  | [] => True
  | ev :: log => event_ok (stored_at idx log) ev ∧ log_ok log
  end.

Definition sessions_inv (w : W) : Prop := us_index (sw_repo w) = stored_at idx (sw_log w) ∧ log_ok (sw_log w).
Definition indexed (key : string) (w : W) : option UserSession := us_index (sw_repo w) !! key.

Lemma log_ok_split l2 ev l1 : log_ok (l2 ++ ev :: l1) → event_ok (stored_at idx l1) ev.
Proof. induction l2 as [| e l2 IH]; simpl; [by intros [? _] | intros [_ ?]; auto]. Qed.

Abbreviation sent_events key l := ((λ '(r, o), Sent key r o) <$> l).

Lemma stored_at_sent key l log : stored_at idx (sent_events key l ++ log) = stored_at idx log.
Proof. induction l as [| [r o] l IH]; [done | apply IH]. Qed.

Lemma log_ok_sent key l log : log_ok log → Forall (λ x, event_ok (stored_at idx log) (Sent key x.1 x.2)) l →
  log_ok (sent_events key l ++ log).
Proof.
  intros Hlog Hl. induction l as [| [r o] l IH]; [done |]. inversion Hl; subst. split; [| by apply IH].
  by rewrite stored_at_sent.
Qed.

Abbreviation safely := (safe sessions_inv indexed).
Abbreviation kept := (rely indexed).

(** ** The building blocks are safe *)

(** What may be sent for the session of [key]. *)
Definition may_send (key : string) (w : W) (r : token_request) : Prop :=
  ∃ s, indexed key w = Some s ∧ RefreshRejected s = false ∧ current_token s r.

Lemma on_wire_guar {A} h key (f : wire E → wire E * A) P w :
  (∀ wi, ∃ l, wr_sent (f wi).1 = l ++ wr_sent wi ∧ Forall (λ x, P x.1) l) →
  (∀ r, P r → may_send key w r) → sessions_inv w →
  guar sessions_inv indexed h w (on_wire key f w).1 ∧ ∀ k, indexed k (on_wire key f w).1 = indexed k w.
Proof.
  intros Hf HP [Hidx Hlog]. unfold on_wire. destruct (Hf (Wire (sw_env w) [])) as (l & Hl & HF).
  destruct (f (Wire (sw_env w) [])) as [wi a]. simpl in *. rewrite app_nil_r in Hl. split; [| done]. split; [| done].
  split; simpl; rewrite Hl; [by rewrite stored_at_sent |]. apply log_ok_sent; [done |].
  eapply Forall_impl; [exact HF |]. intros [r o] Hr. simpl. rewrite <-Hidx. by apply HP.
Qed.

Lemma safe_lift {A} h key P (p : prog (wire E) A) (Q : A → W → Prop) w :
  sends P p → (∀ w1 r, sessions_inv w1 → kept h w w1 → P r → may_send key w1 r) →
  (∀ a w1, sessions_inv w1 → kept h w w1 → Q a w1) → safely h (λ _, h) Q (lift key p) w.
Proof.
  intros Hp HP HQ. revert w HP HQ. induction p as [a | X f k IH]; intros w HP HQ; simpl.
  - split; [done |]. intros w1 Hi Hw1. by apply HQ.
  - intros w1 Hi Hw1. assert (∀ wi, ∃ l, wr_sent (f wi).1 = l ++ wr_sent wi ∧ Forall (λ x, P x.1) l) as Hf.
    { intros wi. by destruct (Hp wi). }
    destruct (on_wire_guar h key f P w1 Hf (λ r, HP w1 r Hi Hw1) Hi) as [HG Hk]. split; [done |].
    assert (kept h w (on_wire key f w1).1) as Hw2.
    { intros k' Hh. rewrite Hk. by apply Hw1. }
    replace (on_wire key f w1).2 with (f (Wire (sw_env w1) [])).2 by (unfold on_wire; by destruct (f _)).
    destruct (Hp (Wire (sw_env w1) [])) as [_ Hs]. apply IH; [done | |].
    + intros w3 r Hi3 Hw3. apply HP; [done | by etrans].
    + intros a w3 Hi3 Hw3. apply HQ; [done | by etrans].
Qed.

(** Environment actions that send nothing. *)
Lemma safe_quiet {A} h key (p : prog (wire E) A) (Q : A → W → Prop) w :
  sends (λ _, False) p → (∀ a w1, sessions_inv w1 → kept h w w1 → Q a w1) → safely h (λ _, h) Q (lift key p) w.
Proof. intros Hp HQ. eapply safe_lift; [exact Hp | done | done]. Qed.

Lemma lsafe_read {A} h (f : UserSessionRepository → A) (Q : A → W → Prop) w :
  (∀ w1 w2, kept h w w1 → kept h w1 w2 → sessions_inv w2 → Q (f (sw_repo w1)) w2) → safely h (λ _, h) Q (read_repo f) w.
Proof.
  intros HQ w1 Hi Hw1. split; [by split |]. split; [done |]. intros w2 Hi2 Hw2. by eapply HQ.
Qed.

Lemma safe_store key s (Q : unit → W → Prop) w :
  (∀ w1, sessions_inv w1 → kept (Some key) w w1 → event_ok (us_index (sw_repo w1)) (Stored key s)) →
  (∀ w1, sessions_inv w1 → Q () w1) → safely (Some key) (λ _, Some key) Q (store_session key s) w.
Proof.
  intros Hok HQ w1 Hi Hw1. simpl. split; [| split; [done |]; intros w2 Hi2 _; by apply HQ].
  pose proof (Hok w1 Hi Hw1) as Hev. destruct Hi as [Hidx Hlog]. split; [split; simpl |].
  - by rewrite <-Hidx.
  - split; [| done]. by rewrite <-Hidx.
  - intros key' Hne. unfold indexed. simpl. apply lookup_insert_ne. congruence.
Qed.

(** Two programs in sequence that promise nothing. *)
Abbreviation nothing := (λ _ _, True).
Lemma safe_seq {A B} h h1 h2 (p : lprog W A) (g : A → lprog W B) w :
  safely h h1 nothing p w → (∀ a w1, safely (h1 a) h2 nothing (g a) w1) → safely h h2 nothing (p ≫= g) w.
Proof. intros Hp Hg. eapply safe_bind; [exact Hp | by intros a w1 _]. Qed.

Lemma safe_mret {A} (a : A) h w : safely h (λ _, h) nothing (mret a) w.
Proof. by apply (lsafe_ret _ _ (λ _, h)). Qed.

Lemma safe_quietly {A} h key (p : prog (wire E) A) w :
  sends (λ _, False) p → safely h (λ _, h) nothing (lift key p) w.
Proof. intros Hp. by apply safe_quiet. Qed.

Lemma safe_lfail {A} h key (e : prog (wire E) OperationError) w :
  sends (λ _, False) e → safely h (λ _, h) nothing (lfail (A:=A) key e) w.
Proof. intros He. apply safe_quietly. by eauto with sends. Qed.

Lemma safe_unlock_ret {A} key (a : A) w : safely (Some key) (λ _, None) nothing (_ ← unlock key; mret a) w.
Proof. apply (safe_seq _ (λ _, None)); [by apply safe_unlock | intros; apply safe_mret]. Qed.

(** Taking a lock succeeds with it held, or reports the context's error without it. *)
Abbreviation locked_unless_ended key := (λ e : option ctx_error, match e with None => Some key | Some _ => None end).
Lemma safe_lockSession c key w : safely None (locked_unless_ended key) nothing (lockSession c key) w.
Proof.
  split; [done |]. intros w1 _. split; [| intros e _; by split].
  apply (safe_seq _ (λ _, Some key)).
  - apply safe_quietly. by eauto with sends.
  - intros [e |] w2.
    + apply (safe_seq _ (λ _, None)); [by apply safe_unlock |]. intros _ w3. by split.
    + by split.
Qed.

(** ** The operations are safe *)

Lemma kept_indexed key w w1 : kept (Some key) w w1 → indexed key w1 = indexed key w.
Proof. intros Hk. by apply Hk. Qed.

(** The callback may send what the session read under the lock allows. *)
Lemma safe_WithLockedSession {X} c principal v (x0 : X) refresh w :
  (∀ s, sends (λ r, RefreshRejected s = false ∧ current_token s r) (refresh s)) →
  safely None (λ _, None) nothing (WithLockedSession c principal v x0 refresh) w.
Proof.
  intros Hcb. unfold WithLockedSession. case_match; [by split |]. cbv zeta. set (key := principalServiceKey principal v).
  apply (safe_seq _ (locked_unless_ended key)); [apply safe_lockSession |]. intros [e |] w1; [by split |].
  eapply (safe_bind _ _ _ (λ _, Some key) _ (λ a w, a = indexed key w)).
  { apply lsafe_read. intros w2 w3 _ Hw3 _. by rewrite (kept_indexed key w2 w3). }
  intros [current |] w2 Hcur; [| apply safe_unlock_ret].
  assert (∀ w3, sessions_inv w3 → kept (Some key) w2 w3 → indexed key w3 = Some current) as Hc.
  { intros w3 Hi3 Hw3. by rewrite (Hcur w3 Hi3 Hw3). }
  eapply (safe_bind _ _ _ (λ _, Some key) _ (λ _ w3, indexed key w3 = Some current)).
  { eapply safe_lift; [apply Hcb | | by eauto]. intros w3 r Hi3 Hw3 [Hr Ht]. exists current. split_and!; eauto. }
  intros [x [[updated session] | e]] w3 Hc3; [| apply safe_unlock_ret].
  set (session' := if decide _ then _ else _). destruct updated; cbn [negb]; [| apply safe_unlock_ret].
  case_match; [apply safe_unlock_ret |].
  eapply (safe_bind _ _ _ (λ _, Some key) _ (λ _ w4, indexed key w4 = Some current)).
  { apply safe_quiet; [by eauto with sends | by eauto]. }
  intros [e |] w4 Hc4; [apply safe_unlock_ret |].
  apply (safe_seq _ (λ _, Some key)); [| intros; apply safe_unlock_ret].
  apply safe_store; [| done]. intros w5 Hi5 Hw5 s0 Hs0 Hcb0.
  assert (s0 = current) as ->. { pose proof (Hc4 w5 Hi5 Hw5) as Hc5. unfold indexed in Hc5. congruence. }
  subst session'. case_decide as Hd; [done |]. by rewrite Hcb0 in Hd.
Qed.

Lemma due_quiet due P d : Some (due_prog due) = Some d → sends P d.
Proof. intros [= <-]. unfold due_prog, in_lookahead. destruct due; walk. Qed.

Lemma safe_refreshLockedSession c principal v dueBy trigger w :
  (∀ d, dueBy = Some d → ∀ P, sends P d) →
  safely None (λ _, None) nothing (refreshLockedSession cfg c principal v dueBy trigger) w.
Proof.
  intros Hdue. unfold refreshLockedSession. cbv zeta. apply (safe_seq _ (λ _, None)); [apply safe_quietly; by eauto with sends |].
  intros p w1. apply (safe_seq _ (λ _, None)).
  { apply safe_WithLockedSession. intros s. by apply sends_refresh_locked. }
  intros [[refreshed rejected] r] w2. apply (safe_seq _ (λ _, None)); [| intros; apply safe_mret].
  destruct r as [[session |] | e]; [destruct rejected | destruct rejected |];
    first [apply safe_mret | apply safe_lfail; by eauto with sends].
Qed.

Lemma safe_read_any {A} h (f : UserSessionRepository → A) w : safely h (λ _, h) nothing (read_repo f) w.
Proof. by apply lsafe_read. Qed.

Ltac quietly := first [solve [eauto with sends] | solve [walk]].
(** Follow a program outside the lock. *)
Ltac stroll :=
  repeat match goal with
  | |- safe _ _ _ _ _ (mret _) _ => apply safe_mret
  | |- safe _ _ _ _ _ (lfail _ _) _ => apply safe_lfail; quietly
  | |- safe _ _ _ _ _ (lift _ _) _ => apply safe_quietly; quietly
  | |- safe _ _ _ _ _ (read_repo _) _ => apply safe_read_any
  | |- safe _ _ _ _ _ (_ ≫= _) _ => apply (safe_seq None (λ _, None)); [| intros ? ?]
  | |- safe _ _ _ _ _ (match ?x with _ => _ end) _ => destruct x
  | |- safe _ _ _ _ _ (let _ := _ in _) _ => cbv zeta
  end.

Lemma safe_refresh_flight c principal v due trigger w : (∀ P, sends P due) →
  safely None (λ _, None) nothing (refresh_flight cfg c principal v due trigger) w.
Proof.
  intros Hdue. unfold refresh_flight. apply (safe_seq None (λ _, None)).
  - apply safe_refreshLockedSession. by intros d [= <-].
  - intros [p r] w1. apply safe_mret.
Qed.

Lemma safe_continue c principal v flight w :
  safely None (λ _, None) nothing (continueSharedRefresh cfg c principal v flight) w.
Proof.
  unfold continueSharedRefresh, in_lookahead. stroll.
  apply safe_refresh_flight. intros P. apply (due_quiet DueInLookahead). done.
Qed.

Lemma safe_token c principal v flight w :
  safely None (λ _, None) nothing (GetValidAccessToken cfg c principal v flight) w.
Proof.
  unfold GetValidAccessToken, in_lookahead, DecryptAccessToken. stroll.
Qed.

Lemma safe_force caller c principal v w :
  safely None (λ _, None) nothing (ForceRefreshSession cfg caller c principal v) w.
Proof.
  unfold ForceRefreshSession. stroll. by apply safe_refreshLockedSession.
Qed.

Lemma lsafe_check c principal v t w :
  safely None (λ _, None) nothing (checkUnrefreshableSweepCandidate c principal v t) w.
Proof.
  unfold checkUnrefreshableSweepCandidate. apply (safe_seq None (λ _, None)); [| intros [? ?] ?; stroll].
  apply safe_WithLockedSession. intros s. walk.
Qed.

Lemma safe_delete c principal v w :
  safely None (λ _, None) nothing (DeleteByPrincipalAndService c principal v) w.
Proof.
  unfold DeleteByPrincipalAndService. case_match; [by split |]. cbv zeta. set (key := principalServiceKey principal v).
  apply (safe_seq _ (locked_unless_ended key)); [apply safe_lockSession |]. intros [e |] w1; [by split |].
  apply (safe_seq _ (λ _, Some key)); [| intros; apply safe_unlock_ret].
  intros w2 Hi2 _. simpl. split; [| by split]. destruct Hi2 as [Hidx Hlog]. unfold session_DeleteByPrincipalAndService.
  fold key. destruct (us_index (sw_repo w2) !! key) as [s |] eqn:Hs.
  - split; [split; simpl; [by rewrite <-Hidx | done] |]. intros key' Hne. unfold indexed. simpl.
    apply lookup_delete_ne. congruence.
  - split; [split; simpl; [| done] |]; [| done]. by rewrite <-Hidx, delete_id.
Qed.

Lemma safe_terminate c principal v w :
  safely None (λ _, None) nothing (TerminateSession c principal v) w.
Proof.
  unfold TerminateSession. apply (safe_seq None (λ _, None)); [apply safe_read_any |]. intros [[s |] | e] w1; [| apply safe_mret ..].
  case_match; [apply safe_mret | apply safe_delete].
Qed.

Lemma safe_create c session w : safely None (λ _, None) nothing (CreateIfAbsent c session) w.
Proof.
  unfold CreateIfAbsent. cbv zeta. set (key := session_key session). case_match; [by split |].
  apply (safe_seq None (λ _, None)); [apply safe_quietly; quietly |]. intros current w1.
  destruct (currentDiscoveryStateError session _) as [u | k]; [| apply safe_mret].
  apply (safe_seq _ (locked_unless_ended key)); [apply safe_lockSession |]. intros [e |] w2; [by split |].
  eapply (safe_bind _ _ _ (λ _, Some key) _ (λ a w, a = indexed key w)).
  { apply lsafe_read. intros w3 w4 _ Hw4 _. by rewrite (kept_indexed key w3 w4). }
  intros existing w3 Hex. apply (safe_seq _ (λ _, Some key)); [| intros; apply (safe_seq _ (λ _, None)); [by apply safe_unlock | intros; apply safe_mret]].
  destruct existing as [s |]; [by apply (safe_mret s) |].
  apply (safe_seq _ (λ _, Some key)); [| intros; apply (safe_mret (clear_expected session))].
  apply safe_store; [| done]. intros w4 Hi4 Hw4 s0 Hs0. pose proof (Hex w4 Hi4 Hw4) as Hn. unfold indexed in Hn. congruence.
Qed.

Lemma safe_store_authorization c principal v token scope cn w :
  safely None (λ _, None) nothing (createSession c principal v token scope cn) w.
Proof.
  unfold createSession. stroll.
  - apply safe_WithLockedSession. intros s. walk.
  - apply safe_create.
Qed.

Lemma safe_serve rq w : safely None (λ _, None) nothing (serve rq) w.
Proof.
  destruct rq; (apply (safe_seq None (λ _, None)); [| intros; apply safe_mret]).
  - apply safe_refresh_flight. intros P. by apply (due_quiet due).
  - apply safe_continue.
  - apply safe_token.
  - apply safe_force.
  - apply lsafe_check.
  - apply safe_terminate.
  - apply safe_store_authorization.
Qed.
End pool.

(** ** Any number of concurrent requests *)

Section requests.
Context {E : Type} `{TokenPorts E} {GU : GoURL} {GN : GoNet} {UU : UUID} {PP : ProviderParsers}.
Variable cfg : session_config.

Definition requests (repo : UserSessionRepository) (e : E) (rqs : list session_request) : lpool (session_world E) unit :=
  LPool (SessionWorld repo e []) ∅ (serve cfg <$> rqs).

Lemma requests_safe repo e rqs c : rtc lstep (requests repo e rqs) c →
  pool_safe (sessions_inv (us_index repo)) indexed (λ _ _ _, True) c.
Proof.
  intros Hr. eapply pool_safe_steps; [exact Hr |]. apply pool_safe_start; [by split |].
  intros i p Hi. apply list_lookup_fmap_Some in Hi as (rq & -> & _). by apply safe_serve.
Qed.

(** Claim C23.  A refresh token is sent to a provider only while it is the one stored for the
    session, and never after the provider rejected it, until the user reconnects. *)
Theorem refresh_sends_current_token repo e rqs c l2 key r o l1 :
  rtc lstep (requests repo e rqs) c → sw_log (lp_world c) = l2 ++ Sent key r o :: l1 →
  us_index (sw_repo (lp_world c)) = stored_at (us_index repo) (sw_log (lp_world c)) ∧
  ∃ s token, stored_at (us_index repo) l1 !! key = Some s ∧ RefreshRejected s = false ∧
    decrypts_to (us_ServiceID s) (us_EncryptedRefreshToken s) token ∧ rq_form r !! "refresh_token" = Some token.
Proof.
  intros Hr Hlog. destruct (requests_safe repo e rqs c Hr) as [[Hidx Hok] _]. split; [done |].
  rewrite Hlog in Hok. apply log_ok_split in Hok as (s & Hs & Hrej & token & Hp & Hform). by exists s, token.
Qed.

(** Claim C24.  The upstream client identity of a session changes only with a new callback
    generation, that is when the user reconnects. *)
Theorem client_identity_pinned repo e rqs c l2 key s l1 s0 :
  rtc lstep (requests repo e rqs) c → sw_log (lp_world c) = l2 ++ Stored key s :: l1 →
  stored_at (us_index repo) l1 !! key = Some s0 → us_CallbackID s = us_CallbackID s0 →
  us_UpstreamClientID s = us_UpstreamClientID s0.
Proof.
  intros Hr Hlog. destruct (requests_safe repo e rqs c Hr) as [[_ Hok] _].
  rewrite Hlog in Hok. apply log_ok_split in Hok. apply Hok.
Qed.

(** Claim C25.  The session locks never deadlock, and every schedule of the requests ends: from any
    state all requests can be answered, and no execution is infinite. *)
Theorem session_requests_complete repo e rqs c :
  rtc lstep (requests repo e rqs) c →
  (∃ c', rtc lstep c c' ∧ Forall finished (lp_threads c')) ∧
  ¬ ∃ f : nat → lpool (session_world E) unit, f 0 = c ∧ ∀ n, lstep (f n) (f (S n)).
Proof.
  intros Hr. split; [eapply pool_safe_completes; by eapply requests_safe |].
  intros (f & Hf & Hs). clear Hr. revert f Hf Hs. induction (lstep_terminates c) as [c _ IH]. intros f <- Hs.
  apply (IH (f 1) (Hs 0) (λ n, f (S n))); [done |]. intros n. apply Hs.
Qed.
End requests.

Module RefreshDemo.

(** An environment without state: the clock stands still, encryption is the identity and
    the provider rotates the refresh token. *)
#[global] Instance toy_ports : TokenPorts unit := {|
  tp_now _ := ((), 100%Z);
  tp_ctx_Err _ _ := ((), None);
  tp_Deadline _ _ := ((), None);
  tp_Wait _ _ _ := ();
  tp_Encrypt _ x _ := ((), Ok x);
  tp_Decrypt _ x _ := ((), Ok x);
  tp_provider_Get _ _ := ((), Ok (set_pe_CredentialSource CredentialSourceStored
     {| pe_ID := "svc"; pe_CanonicalID := None; pe_ClearCanonicalID := false; pe_DisplayName := "S";
        pe_ClientID := "broker"; pe_Secret := NewAbsentSecret; pe_CredentialSource := "";
        pe_CredentialSourceTransitioned := false; pe_CredentialSourceProvided := false; pe_ClientRegistration := "static";
        pe_ClientRegistrationProvided := false; pe_ClientIDProvided := false; pe_ClientSecretProvided := false;
        pe_TokenEndpointAuthMethod := AuthMethodNone; pe_Flavor := FlavorStandard; pe_IssuerURI := "https://as";
        pe_Discovery := MkDiscovery false None None ""; pe_Endpoints := MkEndpoints "https://as/t" "https://as/a" "";
        pe_Scopes := []; pe_AuthorizationParams := None; pe_ResourceExplicit := false;
        pe_DiscoveryStatus := MkStatus None None None; pe_ProtectedResources := []; pe_Version := 1;
        pe_ServiceRequirements := []; pe_CreatedAt := 0; pe_UpdatedAt := 0 |}));
  tp_ReadClientID _ _ := ((), Err EText);
  tp_ReadPair _ _ _ := ((), Err EText);
  tp_SignClientAssertion _ _ _ := ((), Err EText);
  tp_Do _ _ := ((), HTTPResponse 200 "" (HTTPBody "token" None));
  tp_NewUUID _ := ((), "u");
  tp_CountAgents _ _ _ := ((), Ok 0);
  json_DecodeToken _ _ := Ok (TokenJSON "access2" "Bearer" None "refresh2" None);
  json_ErrorCode _ := None;
  url_QueryEscape s := s;
  http_ParseTime _ := None;
  strconv_ParseFloat _ := None;
|}.
Definition toy_config : session_config := SessionConfig "https://broker" 1 3 1 1 10 ∅ false false false.

Definition session : UserSession :=
  {| us_ID := "s1"; us_Principal := "alice"; us_ServiceID := "svc"; us_CallbackID := "cb"; us_UpstreamClientID := None;
     us_ExpectedIssuerURI := ""; us_ExpectedResource := ""; us_EncryptedAccessToken := "access";
     us_EncryptedRefreshToken := "refresh"; us_TokenType := "Bearer"; us_AccessTokenExpiresAt := Some 10%Z;
     us_RefreshRejectedAt := None; us_Scope := []; us_EncryptionContext := "svc"; us_InitiatedAt := 1; us_CreatedAt := 1;
     us_UpdatedAt := 1 |}.
Definition repo : UserSessionRepository := store_refreshed (session_key session) session NewUserSessionRepository.

(** Two callers find the session expired at the same time; their steps alternate. *)
Definition start := requests toy_config repo ()
  [RequestRefresh (Ctx 1 true) "alice" "svc" DueNow RefreshTriggerOnDemand;
   RequestRefresh (Ctx 2 true) "alice" "svc" DueNow RefreshTriggerSweep].
Definition stop := lschedule (concat (replicate 60 [0; 1])) start.

Lemma stop_reached : rtc lstep start stop.
Proof. apply lschedule_steps. Qed.

End RefreshDemo.

Lemma refresh_sends_current_token_witness :
  match sw_log (lp_world RefreshDemo.stop) with
  | [Stored _ _; Sent key r o] =>
      us_index (sw_repo (lp_world RefreshDemo.stop)) =
        stored_at (us_index RefreshDemo.repo) (sw_log (lp_world RefreshDemo.stop)) ∧
      ∃ s token, stored_at (us_index RefreshDemo.repo) [] !! key = Some s ∧ RefreshRejected s = false ∧
        decrypts_to (us_ServiceID s) (us_EncryptedRefreshToken s) token ∧ rq_form r !! "refresh_token" = Some token
  | _ => False
  end.
Proof.
  pose proof (λ l2 key r o l1, refresh_sends_current_token RefreshDemo.toy_config RefreshDemo.repo () _ RefreshDemo.stop
    l2 key r o l1 RefreshDemo.stop_reached) as Hsent.
  assert (match sw_log (lp_world RefreshDemo.stop) with [Stored _ _; Sent _ _ _] => true | _ => false end = true) as Hlog
    by (vm_compute; reflexivity).
  destruct (sw_log (lp_world RefreshDemo.stop)) as [| [| k s |] [| [key r o | |] [|]]]; try discriminate Hlog.
  exact (Hsent [Stored k s] key r o [] eq_refl).
Defined.

Lemma client_identity_pinned_witness :
  match sw_log (lp_world RefreshDemo.stop) with
  | [Stored key s; Sent _ _ _] =>
      match stored_at (us_index RefreshDemo.repo) [] !! key with
      | Some s0 => us_CallbackID s = us_CallbackID s0 ∧ us_UpstreamClientID s = us_UpstreamClientID s0
      | None => False
      end
  | _ => False
  end.
Proof.
  pose proof (λ l2 key s l1 s0, client_identity_pinned RefreshDemo.toy_config RefreshDemo.repo () _ RefreshDemo.stop
    l2 key s l1 s0 RefreshDemo.stop_reached) as Hpin.
  assert (match sw_log (lp_world RefreshDemo.stop) with
          | [Stored key s; Sent _ _ _] =>
              match stored_at (us_index RefreshDemo.repo) [] !! key with
              | Some s0 => bool_decide (us_CallbackID s = us_CallbackID s0) | None => false end
          | _ => false end = true) as Hlog by (vm_compute; reflexivity).
  destruct (sw_log (lp_world RefreshDemo.stop)) as [| [| key s |] [| [k r o | |] [|]]]; try discriminate Hlog.
  destruct (stored_at (us_index RefreshDemo.repo) [] !! key) as [s0 |] eqn:Hs0; [| discriminate Hlog].
  apply bool_decide_eq_true_1 in Hlog. split; [exact Hlog |].
  exact (Hpin [] key s [Sent k r o] s0 eq_refl Hs0 Hlog).
Defined.

(** One caller holds the lock; both can still be answered. *)
Lemma session_requests_complete_witness :
  let c := lschedule [0; 0; 0; 1; 1; 1] RefreshDemo.start in
  (∃ c', rtc lstep c c' ∧ Forall finished (lp_threads c')) ∧
  ¬ ∃ f : nat → lpool (session_world unit) unit, f 0 = c ∧ ∀ n, lstep (f n) (f (S n)).
Proof.
  intros c. exact (session_requests_complete RefreshDemo.toy_config RefreshDemo.repo () _ c (lschedule_steps _ _)).
Defined.
