(* ===== verification/SessionSweep.v ===== *)
(** * The session sweep

    internal/domain/oauth2session/sweep.go: an administrator refreshes every session that is
    due within a lookahead, page by page in (expiry, id) order.  Metrics and log lines are
    left out.  Map iteration orders are the argument [visit]. *)

From S2P Require Import Prelude ToolApproval ApprovalStore ApprovalHandlers OAuthSessions UserGrants Consent UriValidation NetPolicy Providers UserSessions BrokerErrors ServiceSessions SessionExpiry SessionLocks ProviderTokens ProviderTokensFacts SessionRefresh SessionRefreshFacts.
Import Session.

Record SweepRequest := MkSweep { sr_Lookahead : duration; sr_DryRun : bool; sr_PageSize : Z }.

Record SweepResult := MkSweepResult {
  sw_Refreshed : nat;
  sw_Skipped : nat;
  sw_Failed : nat;
  sw_TotalEvaluated : nat;
}.
Definition no_result : SweepResult := MkSweepResult 0 0 0 0.

(** What becomes of a candidate. *)
Inductive verdict := Refreshed | Skipped | Failed.
Definition count (v : verdict) (r : SweepResult) : SweepResult :=
  let '(MkSweepResult refreshed skipped failed total) := r in
  match v with
  | Refreshed => MkSweepResult (S refreshed) skipped failed (S total)
  | Skipped => MkSweepResult refreshed (S skipped) failed (S total)
  | Failed => MkSweepResult refreshed skipped (S failed) (S total)
  end.

(** The cursor after a page; a tuple that does not advance it is an error. *)
Fixpoint nextSweepCursor (page : list UserSession) (previous : SessionExpiryCursor) : option SessionExpiryCursor :=
  match page with
  | [] => Some previous
  | candidate :: page =>
      match us_AccessTokenExpiresAt candidate with
      | None => None
      | Some expiry =>
          if negb (nonzero_id (us_ID candidate)) then None
          else if nonzero_id (cur_ID previous) &&
                  match compareExpiryKey expiry (us_ID candidate) (cur_AccessTokenExpiresAt previous) (cur_ID previous) with
                  | Gt => false | _ => true
                  end then None
          else nextSweepCursor page (MkCursor expiry (us_ID candidate))
      end
  end.

(** A dry run only predicts. *)
Definition dry_verdict (threshold : time) (candidate : UserSession) : verdict :=
  if RefreshRejected candidate || negb (AccessTokenExpiresBy threshold candidate) then Skipped
  else if negb (CanRefresh candidate) then Failed else Refreshed.

(** What the failure of one candidate means for the sweep: [inr] ends it. *)
Definition failure_verdict (e : go_error) : verdict + go_error :=
  let m := sessionFailureMetadata e in
  if decide (em_detail m = DetailSessionMissing) then inl Skipped
  else if decide (em_kind m = KindCanceled) then inr e
  else if bool_decide (em_kind m = KindInfrastructure) &&
          bool_decide (em_dependency m = DependencySessionRepository ∨ em_dependency m = DependencyProviderRepository)
  then inr e
  else inl Failed.

Section sweep.
Context {E : Type} `{TokenPorts E} {GU : GoURL} {GN : GoNet} {UU : UUID} {PP : ProviderParsers}.
Variable cfg : session_config.
Variable visit : UserSessionRepository → list UserSession.

Abbreviation LM := (lprog (session_world E)).

(** One candidate of a real sweep; [rc] is the context of its refresh. *)
Definition evaluate (rc : ctx) (threshold : time) (candidate : UserSession) : LM (verdict + go_error) :=
  let refresh : LM (verdict + go_error) :=
    '(_, r) ← refreshLockedSession cfg rc (us_Principal candidate) (us_ServiceID candidate) (Some (mret threshold)) RefreshTriggerSweep;
    mret match r with
         | Ok (_, refreshed) => inl (if (refreshed : bool) then Refreshed else Skipped)
         | Err e => failure_verdict e
         end in
  if CanRefresh candidate then refresh
  else
    needed ← checkUnrefreshableSweepCandidate rc (us_Principal candidate) (us_ServiceID candidate) threshold;
    match needed with
    | Ok true => refresh
    | Ok false => mret (inl Skipped)
    | Err e => mret (failure_verdict e)
    end.

(** The answer of a sweep: the counts and the error that ended it early, if any. *)
Abbreviation answer := (SweepResult * option go_error)%type.

(** The candidates of one page: the sessions seen and the counts after it, or the answer. *)
Fixpoint sweep_page (c rc : ctx) (dry : bool) (threshold : time) (page : list UserSession)
    (seen : gset SessionID) (r : SweepResult) : LM ((gset SessionID * SweepResult) + answer) :=
  match page with
  | [] => mret (inl (seen, r))
  | candidate :: page =>
      ended ← lift "" (ctx_Err c);
      match ended with
      | Some e => mret (inr (r, Some (ECtx e)))
      | None =>
          if decide (us_ID candidate ∈ seen) then sweep_page c rc dry threshold page seen r
          else
            v ← (if dry then mret (inl (dry_verdict threshold candidate)) else evaluate rc threshold candidate);
            match v with
            | inr e => mret (inr (r, Some e))
            | inl v => sweep_page c rc dry threshold page ({[us_ID candidate]} ∪ seen) (count v r)
            end
      end
  end.

(** [fuel] pages at most; [None] when they do not suffice. *)
Fixpoint sweep_pages (fuel : nat) (c rc : ctx) (dry : bool) (pageSize : Z) (threshold : time)
    (cursor : SessionExpiryCursor) (seen : gset SessionID) (r : SweepResult) : LM (option answer) :=
  match fuel with
  | O => mret None
  | S fuel =>
      ended ← lift "" (ctx_Err c);
      match ended with
      | Some e => mret (Some (r, Some (ECtx e)))
      | None =>
          listed ← read_repo (λ repo, ListExpiringSessions threshold cursor pageSize (visit repo));
          ended ← match listed with Ok _ => mret None | Err _ => lift "" (ctx_Err c) end;
          match ended, match listed with
                | Ok page => match nextSweepCursor page cursor with Some cursor => Ok (page, cursor) | None => Err EText end
                | Err k => Err (EStorage k)
                end with
          | Some e, _ => mret (Some (r, Some (ECtx e)))
          | None, Err e =>
              f ← lift "" (sessionOperationError c OperationSessionLookup DetailRepositoryUnavailable e);
              mret (Some (r, Some (operation_error f)))
          | None, Ok (page, cursor) =>
              rest ← sweep_page c rc dry threshold page seen r;
              match rest with
              | inr a => mret (Some a)
              | inl (seen, r) =>
                  if bool_decide (Z.of_nat (length page) < pageSize)%Z then
                    ended ← lift "" (ctx_Err c); mret (Some (r, ECtx <$> ended))
                  else sweep_pages fuel c rc dry pageSize threshold cursor seen r
              end
          end
      end
  end.

(** An invalid request is refused with [EText]. *)
Definition Sweep (fuel : nat) (c rc : ctx) (req : SweepRequest) : LM (option answer) :=
  let lookahead := if decide (sr_Lookahead req = 0%Z) then sc_RefreshLookahead cfg else sr_Lookahead req in
  let pageSize := if decide (sr_PageSize req = 0%Z) then sc_SweepDefaultPageSize cfg else sr_PageSize req in
  if bool_decide (lookahead ≤ 0)%Z || negb (bool_decide (1 ≤ pageSize ≤ 1000)%Z)
  then mret (Some (no_result, Some EText))
  else
    t ← lift "" now;
    sweep_pages fuel c rc (sr_DryRun req) pageSize (t + lookahead)%Z (MkCursor zero_time zero_uuid) ∅ no_result.
End sweep.
