(* ===== verification/SessionSweepFacts.v ===== *)
(** * What a sweep visits

    The counts of a sweep always add up, and a dry run visits every due session exactly
    once: the pages of the listing, chained by their cursors, are the sorted list of the due
    sessions. *)

From S2P Require Import Prelude ToolApproval ApprovalStore ApprovalHandlers OAuthSessions UserGrants Consent UriValidation NetPolicy Providers UserSessions BrokerErrors ServiceSessions SessionExpiry SessionLocks ProviderTokens ProviderTokensFacts SessionRefresh SessionRefreshFacts SessionSweep.
Import Session.

(** ** Sorted sessions and cursors *)

Lemma compare_refl a : String.compare a a = Eq.
Proof. pose proof (String.compare_antisym a a). destruct (String.compare a a); simpl in *; congruence. Qed.

(** Strictly earlier. *)
Definition before (s u : UserSession) : Prop := session_lt s u = true.

Lemma before_spec s u : before s u ↔ session_le s u ∧ us_ID s ≠ us_ID u ∨ (us_expiry s < us_expiry u)%Z.
Proof.
  unfold before, session_lt, compareSessionExpiryKey, compareExpiryKey. rewrite session_le_spec. unfold String.le, String.leb.
  assert (String.compare (us_ID s) (us_ID u) = Eq ↔ us_ID s = us_ID u) as Heq.
  { split; [apply String.compare_eq_iff | intros ->; apply compare_refl]. }
  destruct (Z.compare_spec (us_expiry s) (us_expiry u)) as [Ez | Ez | Ez].
  - destruct (String.compare (us_ID s) (us_ID u)) eqn:Hc.
    + assert (us_ID s = us_ID u) by tauto. split; [done |]. intros [[_ ?] | ?]; [done | lia].
    + split; [| done]. intros _. left. split; [right; split; [done |] |]; [by rewrite ?Hc |]. intros He. apply (proj2 Heq) in He. done.
    + split; [done |]. intros [[[? | [_ Hl]] _] | ?]; [lia | | lia]. done.
  - split; [auto | done].
  - split; [done |]. intros [[[? | [? _]] _] | ?]; lia.
Qed.

#[export] Instance before_trans : Transitive before.
Proof.
  intros s u v. rewrite !before_spec. intros [[H1 N1] | H1] [[H2 N2] | H2].
  - destruct (decide (us_expiry s < us_expiry v)%Z) as [? | Hge]; [by right | left]. split; [by trans u |].
    intros He. apply session_le_spec in H1, H2. destruct H1 as [H1 | [E1 H1]], H2 as [H2 | [E2 H2]]; try lia.
    rewrite He in H1. apply N1. rewrite He. by apply (anti_symm String.le).
  - right. apply session_le_spec in H1. lia.
  - right. apply session_le_spec in H2. lia.
  - right. lia.
Qed.

Lemma strictly_sorted l : StronglySorted session_le l → NoDup (us_ID <$> l) → StronglySorted before l.
Proof.
  induction 1 as [| s l Hl IH Hs]; intros Hnd; [constructor |]. simpl in Hnd. apply NoDup_cons in Hnd as [Hn Hnd].
  constructor; [by apply IH |]. rewrite Forall_forall in Hs |- *. intros u Hu. apply before_spec. left. split; [by apply Hs |].
  intros He. apply Hn. rewrite He. apply list_elem_of_fmap. by exists u.
Qed.

(** The cursor of a listed session. *)
Definition cursor_of (s : UserSession) : SessionExpiryCursor := MkCursor (us_expiry s) (us_ID s).
Definition after_cursor (cursor : SessionExpiryCursor) (s : UserSession) : Prop :=
  nonzero_id (cur_ID cursor) = true → compareSessionExpiryKey s (cur_AccessTokenExpiresAt cursor) (cur_ID cursor) = Gt.

Lemma after_cursor_of x s : nonzero_id (us_ID x) = true → after_cursor (cursor_of x) s ↔ before x s.
Proof.
  intros Hx. unfold after_cursor, before, session_lt, compareSessionExpiryKey, compareExpiryKey. simpl. rewrite Hx.
  rewrite (String.compare_antisym (us_ID x) (us_ID s)), (Z.compare_antisym (us_expiry x) (us_expiry s)).
  destruct (us_expiry x ?= us_expiry s)%Z; simpl; [destruct (String.compare (us_ID s) (us_ID x)) | |]; simpl;
    (split; [intros Hg; specialize (Hg eq_refl); done | done]).
Qed.

Lemma after_cursor_trans cursor x s : after_cursor cursor x → before x s → after_cursor cursor s.
Proof.
  intros Hx Hs Hnz. set (y := set_us_ID (cur_ID cursor) (set_tokens "" (Some (cur_AccessTokenExpiresAt cursor)) "" None "" [] 0 x)).
  assert (∀ u, before y u ↔ after_cursor cursor u) as Hy.
  { intros u. rewrite <-(after_cursor_of y) by done. by destruct cursor. }
  apply Hy; [| done]. trans x; [by apply Hy | done].
Qed.

Lemma expiring_spec threshold cursor s : expiring threshold cursor s = true ↔
  (RefreshRejected s = false ∧ ∃ t, us_AccessTokenExpiresAt s = Some t ∧ (t ≤ threshold)%Z) ∧ after_cursor cursor s.
Proof.
  unfold expiring, after_cursor. destruct (RefreshRejected s); [naive_solver |]. simpl.
  destruct (us_AccessTokenExpiresAt s) as [t |]; [| naive_solver]. simpl.
  destruct (After t threshold) eqn:Ha; simpl.
  - apply After_spec in Ha. split; [done |]. intros [[_ (t' & [= <-] & ?)] _]. lia.
  - apply After_false in Ha. destruct (nonzero_id (cur_ID cursor)); simpl; [| naive_solver].
    destruct (compareSessionExpiryKey s _ _); simpl; naive_solver.
Qed.

(** ** Chaining pages *)

Section pages.
Context (r : UserSessionRepository) (threshold : time).
Hypothesis Hwf : sessions_wf r.

Definition valid_sessions (l : list UserSession) : Prop :=
  Forall (λ s, nonzero_id (us_ID s) = true ∧ is_Some (us_AccessTokenExpiresAt s)) l.

Lemma due_elem cursor s : s ∈ due_sessions threshold cursor r ↔ expiring threshold cursor s = true ∧ s ∈ all_sessions r.
Proof. unfold due_sessions. by rewrite merge_sort_Permutation, list_elem_of_filter. Qed.

Lemma all_sessions_valid s : s ∈ all_sessions r → nonzero_id (us_ID s) = true.
Proof.
  intros Hs. apply list_elem_of_fmap in Hs as ([i s'] & -> & Hin). apply elem_of_map_to_list in Hin. simpl.
  destruct (ssw_id r Hwf i s' Hin) as (_ & Hv & _). unfold session_Validate in Hv. by repeat (apply andb_true_iff in Hv as [Hv _]).
Qed.

Lemma due_valid cursor : valid_sessions (due_sessions threshold cursor r).
Proof.
  apply Forall_forall. intros s [Hx Hin]%due_elem. split; [by apply all_sessions_valid |].
  apply expiring_spec in Hx as [[_ (t & -> & _)] _]. by eexists.
Qed.

Lemma due_NoDup cursor : NoDup (us_ID <$> due_sessions threshold cursor r).
Proof.
  unfold due_sessions. rewrite merge_sort_Permutation.
  eapply sublist_NoDup; [by apply all_sessions_NoDup | apply fmap_sublist, sublist_filter].
Qed.

Lemma due_sorted cursor : StronglySorted before (due_sessions threshold cursor r).
Proof. apply strictly_sorted; [apply StronglySorted_merge_sort; apply _ | apply due_NoDup]. Qed.

(** After a listed session come those that follow it in the list. *)
Lemma due_after cursor l1 x l2 : due_sessions threshold cursor r = l1 ++ x :: l2 →
  due_sessions threshold (cursor_of x) r = l2.
Proof.
  intros Hdue. pose proof (due_sorted cursor) as Hs. pose proof (due_valid cursor) as Hv. pose proof (due_NoDup cursor) as Hnd.
  assert (nonzero_id (us_ID x) = true ∧ expiring threshold cursor x = true) as [Hx Hex].
  { split.
    - unfold valid_sessions in Hv. rewrite Forall_forall in Hv. apply (Hv x). rewrite Hdue. set_solver.
    - apply (due_elem cursor x). rewrite Hdue. set_solver. }
  assert (∀ s, s ∈ l2 ↔ s ∈ due_sessions threshold cursor r ∧ before x s) as Hl2.
  { intros s. rewrite Hdue in Hs |- *. apply StronglySorted_app in Hs as (Hl1 & _ & Hs). apply StronglySorted_inv in Hs as [_ Hs].
    rewrite Forall_forall in Hs. rewrite elem_of_app, elem_of_cons.
    assert (¬ before x x) as Hirr by (rewrite before_spec; intros [[_ ?] | ?]; [done | lia]).
    split; [intros Hin; split; [by right; right | by apply Hs] |]. intros [[Hin | [-> | Hin]] Hb]; [| done | done].
    exfalso. apply Hirr. trans s; [done |]. apply Hl1; [done | by left]. }
  apply sorted_sessions_unique.
  - apply due_NoDup.
  - apply NoDup_Permutation; [by eapply NoDup_fmap_1, due_NoDup | |].
    + rewrite Hdue, fmap_app in Hnd. apply NoDup_app in Hnd as (_ & _ & Hnd). simpl in Hnd.
      apply NoDup_cons in Hnd as [_ Hnd]. by eapply NoDup_fmap_1.
    + intros s. rewrite Hl2, !due_elem, !expiring_spec, after_cursor_of by done. apply expiring_spec in Hex as [_ Hac].
      assert (before x s → after_cursor cursor s) by (intros; by eapply after_cursor_trans). tauto.
  - apply Sorted_merge_sort; apply _.
  - assert (StronglySorted session_le (l1 ++ x :: l2)) as Hle.
    { rewrite <-Hdue. apply StronglySorted_merge_sort; apply _. }
    apply StronglySorted_app in Hle as (_ & _ & Hle). apply StronglySorted_inv in Hle as [Hle _]. by apply StronglySorted_Sorted.
Qed.
End pages.

Lemma nextSweepCursor_spec page previous : valid_sessions page → StronglySorted before page → Forall (after_cursor previous) page →
  nextSweepCursor page previous = Some (from_option cursor_of previous (last page)).
Proof.
  revert previous. induction page as [| x page IH]; intros previous Hv Hs Hp; [done |].
  apply Forall_cons in Hv as [[Hx [t Ht]] Hv], Hp as [Hp _]. apply StronglySorted_inv in Hs as [Hs Hxs]. cbn [nextSweepCursor]. rewrite Ht, Hx.
  assert (MkCursor t (us_ID x) = cursor_of x) as Hc by (unfold cursor_of, us_expiry; by rewrite Ht).
  assert (nonzero_id (cur_ID previous) && match compareExpiryKey t (us_ID x) (cur_AccessTokenExpiresAt previous) (cur_ID previous) with Gt => false | _ => true end = false) as Hg.
  { apply andb_false_iff. destruct (nonzero_id (cur_ID previous)) eqn:Hn; [right | by left]. specialize (Hp Hn).
    unfold compareSessionExpiryKey, us_expiry in Hp. rewrite Ht in Hp. unfold default, from_option, id in Hp. by rewrite Hp. }
  cbn [negb]. cbv iota. rewrite Hg, Hc, IH; [rewrite last_cons; by destruct (last page) | done | done |].
  eapply Forall_impl; [exact Hxs |]. intros s Hb. by apply after_cursor_of.
Qed.

(** ** Counts *)

Definition tally (r : SweepResult) : Prop := sw_Refreshed r + sw_Skipped r + sw_Failed r = sw_TotalEvaluated r.

Lemma count_tally v r : tally r → tally (count v r).
Proof. destruct r, v; unfold tally; simpl; lia. Qed.

Section counts.
Context {E : Type} `{TokenPorts E} {GU : GoURL} {GN : GoNet} {UU : UUID} {PP : ProviderParsers}.
Variable cfg : session_config.
Variable visit : UserSessionRepository → list UserSession.

Abbreviation good := (λ a : option (SweepResult * option go_error), ∀ r e, a = Some (r, e) → tally r).

Lemma good_some r e : tally r → returns good (mret (M := lprog (session_world E)) (Some (r, e))).
Proof. by intros ? ?? [= <- <-]. Qed.

Lemma sweep_page_returns c rc dry threshold page seen r : tally r →
  returns (λ x, match x with inl (_, r) | inr (r, _) => tally r end) (sweep_page cfg c rc dry threshold page seen r).
Proof.
  intros Hr. revert seen r Hr. induction page as [| x page IH]; intros seen r Hr; [done |].
  cbn [sweep_page]. apply returns_bind. intros [e |]; [done |].
  case_decide; [by apply IH |]. apply returns_bind. intros [v | e]; [| done]. by apply IH, count_tally.
Qed.

Lemma sweep_pages_returns fuel c rc dry pageSize threshold cursor seen r :
  tally r → returns good (sweep_pages cfg visit fuel c rc dry pageSize threshold cursor seen r).
Proof.
  revert cursor seen r. induction fuel as [| fuel IH]; intros cursor seen r Hr; [done |]. cbn [sweep_pages].
  apply returns_bind. intros [e |]; [by apply good_some |]. apply returns_bind. intros listed. apply returns_bind. intros ended.
  destruct ended as [e |]; [by apply good_some |].
  match goal with |- context [match ?m with Ok _ => _ | Err _ => _ end] => destruct m as [[page cursor'] | e] end.
  - eapply returns_seq; [by apply sweep_page_returns |]. intros [[seen' r'] | [r' e]] Hr'; [| by apply good_some].
    case_bool_decide; [| by apply IH]. apply returns_bind. intros. by apply good_some.
  - apply returns_bind. intros. by apply good_some.
Qed.

Lemma Sweep_returns fuel c rc req : returns good (Sweep cfg visit fuel c rc req).
Proof.
  unfold Sweep. case_match; [by apply good_some |]. apply returns_bind. intros t. by apply sweep_pages_returns.
Qed.

(** Whatever runs next to a sweep, and however it ends, every session it
    evaluated is counted exactly once: refreshed, skipped or failed. *)
Theorem sweep_counts fuel c rc req (pool pool' : lpool (session_world E) (option (SweepResult * option go_error))) i r e
    (Hstart : lp_threads pool !! i = Some (Sweep cfg visit fuel c rc req)) (Hrun : rtc lstep pool pool')
    (Hend : lp_threads pool' !! i = Some (LRet (Some (r, e)))) :
  sw_Refreshed r + sw_Skipped r + sw_Failed r = sw_TotalEvaluated r.
Proof. by eapply (returns_steps good pool pool'); [| | apply Sweep_returns | |]. Qed.
End counts.

(** ** A dry run *)

Section dry.
Context {E : Type} `{TokenPorts E} {GU : GoURL} {GN : GoNet} {UU : UUID} {PP : ProviderParsers}.
Variable cfg : session_config.
Variable visit : UserSessionRepository → list UserSession.
Variables (c rc : ctx) (repo : UserSessionRepository) (threshold : time).
Hypothesis Hwf : sessions_wf repo.
Hypothesis Hvisit : visit repo ≡ₚ all_sessions repo.
Hypothesis Hlive : ∀ env, (tp_ctx_Err c env).2 = None.

(** The world keeps its repository. *)
Abbreviation runs p w a := (∃ w' : session_world E, lrun p w = (w', a) ∧ sw_repo w' = repo).

Lemma runs_bind {A B} (p : lprog (session_world E) A) (g : A → lprog (session_world E) B) w a b :
  runs p w a → (∀ w, sw_repo w = repo → runs (g a) w b) → runs (p ≫= g) w b.
Proof. intros (w' & Hp & Hw') Hg. rewrite lrun_bind, Hp. by apply Hg. Qed.

Lemma runs_ret {A} (a : A) w : sw_repo w = repo → runs (mret (M := lprog (session_world E)) a) w a.
Proof. intros Hw. by exists w. Qed.

Lemma runs_live (w : session_world E) : sw_repo w = repo → runs (lift "" (ctx_Err c)) w None.
Proof.
  intros Hw. unfold ctx_Err. cbn. pose proof (Hlive (sw_env w)) as Hn. unfold on_wire. simpl.
  destruct (tp_ctx_Err c (sw_env w)) as [env o]. simpl in *. subst o. by eexists.
Qed.

Lemma dry_verdict_due cursor s : expiring threshold cursor s = true →
  dry_verdict threshold s = if CanRefresh s then Refreshed else Failed.
Proof.
  intros [[Hr (t & Ht & Hle)] _]%expiring_spec. unfold dry_verdict, AccessTokenExpiresBy. rewrite Hr, Ht. simpl.
  rewrite (proj2 (After_false t threshold)) by done. simpl. by destruct (CanRefresh s).
Qed.

Definition count_all (l : list UserSession) (r : SweepResult) : SweepResult :=
  foldl (λ r s, count (if CanRefresh s then Refreshed else Failed) r) r l.

Lemma count_all_spec l : count_all l no_result =
  MkSweepResult (length (filter (λ s, CanRefresh s = true) l)) 0 (length (filter (λ s, CanRefresh s = false) l)) (length l).
Proof.
  assert (∀ a k f t, count_all l (MkSweepResult a k f t) =
    MkSweepResult (a + length (filter (λ s, CanRefresh s = true) l)) k (f + length (filter (λ s, CanRefresh s = false) l)) (t + length l)) as Hg; [| apply Hg].
  induction l as [| s l IH]; intros a k f t; simpl; [by rewrite !Nat.add_0_r |].
  rewrite !filter_cons. destruct (CanRefresh s); simpl; rewrite IH; f_equal; lia.
Qed.

Definition seen_after (page : list UserSession) (seen : gset SessionID) : gset SessionID :=
  foldl (λ seen s, {[us_ID s]} ∪ seen) seen page.

Lemma elem_of_seen_after page seen i : i ∈ seen_after page seen ↔ i ∈ seen ∨ i ∈ us_ID <$> page.
Proof.
  revert seen. induction page as [| x page IH]; intros seen; simpl; [set_solver |].
  unfold seen_after in *. simpl. rewrite IH. set_solver.
Qed.

Lemma dry_page page cursor seen r w : sw_repo w = repo → (∀ s, s ∈ page → expiring threshold cursor s = true) →
  NoDup (us_ID <$> page) → (∀ s, s ∈ page → us_ID s ∉ seen) →
  runs (sweep_page cfg c rc true threshold page seen r) w (inl (seen_after page seen, count_all page r)).
Proof.
  revert seen r w. induction page as [| x page IH]; intros seen r w Hw Hdue Hnd Hseen; [by apply runs_ret |].
  simpl in Hnd. apply NoDup_cons in Hnd as [Hx Hnd].
  cbn [sweep_page]. eapply runs_bind; [by apply runs_live |]. intros w1 Hw1. cbv beta iota.
  rewrite decide_False by (apply Hseen; by left). eapply runs_bind; [by apply runs_ret |]. intros w2 Hw2. cbv beta iota.
  rewrite (dry_verdict_due cursor) by (apply Hdue; by left). apply IH; [done | | done |].
  - intros s Hs. apply Hdue. by right.
  - intros s Hs [He%elem_of_singleton | Hin]%elem_of_union; [| by eapply Hseen; [right |]].
    apply Hx. rewrite <-He. apply list_elem_of_fmap. by exists s.
Qed.

Abbreviation due cursor := (due_sessions threshold cursor repo).
Abbreviation valid_cursor cursor := (nonzero_id (cur_ID cursor) = true ∨ IsZero (cur_AccessTokenExpiresAt cursor) = true).

Lemma runs_listing pageSize cursor w : sw_repo w = repo → (1 ≤ pageSize ≤ 1000)%Z → valid_cursor cursor →
  runs (read_repo (λ repo, ListExpiringSessions threshold cursor pageSize (visit repo))) w
    (Ok (take (Z.to_nat pageSize) (due cursor))).
Proof.
  intros Hw Hsize Hcur. exists w. split; [| done]. simpl. rewrite Hw. f_equal. unfold ListExpiringSessions.
  rewrite bool_decide_true by done. cbn [negb].
  replace (negb (nonzero_id _) && negb (IsZero _)) with false by (destruct Hcur as [-> | ->]; by rewrite ?andb_false_r).
  rewrite (select_expiring_due repo) by (done || lia). done.
Qed.

(** The end of a page that is not empty splits what is due. *)
Lemma page_cursor n cursor : 0 < n →
  ∃ next, nextSweepCursor (take n (due cursor)) cursor = Some next ∧
    (length (take n (due cursor)) = n → valid_cursor next ∧ due next = drop n (due cursor)).
Proof.
  intros Hn. pose proof (due_sorted repo threshold Hwf cursor) as Hs. pose proof (due_valid repo threshold Hwf cursor) as Hv.
  eexists. split.
  - apply nextSweepCursor_spec.
    + by apply Forall_take.
    + rewrite <-(take_drop n (due cursor)) in Hs. by apply StronglySorted_app in Hs as (_ & Hs & _).
    + apply Forall_take, Forall_forall. intros s [Hin _]%(due_elem repo). by eapply expiring_spec.
  - intros Hlen. destruct (last (take n (due cursor))) as [x |] eqn:Hx; [| by apply last_None in Hx; rewrite Hx in Hlen; simpl in Hlen; lia].
    apply last_Some in Hx as [l1 Hl1]. assert (due cursor = l1 ++ x :: drop n (due cursor)) as Hdue.
    { rewrite <-(take_drop n (due cursor)) at 1. by rewrite Hl1, <-app_assoc. }
    split; [| by eapply due_after]. left. unfold valid_sessions in Hv. rewrite Forall_forall in Hv. apply (Hv x). rewrite Hdue. set_solver.
Qed.

(** The pages from [cursor] on count what is due after it. *)
Lemma dry_pages fuel pageSize cursor seen r w : sw_repo w = repo → (1 ≤ pageSize ≤ 1000)%Z → valid_cursor cursor →
  (∀ s, s ∈ due cursor → us_ID s ∉ seen) → length (due cursor) < fuel * Z.to_nat pageSize →
  runs (sweep_pages cfg visit fuel c rc true pageSize threshold cursor seen r) w (Some (count_all (due cursor) r, None)).
Proof.
  intros Hw Hsize. revert cursor seen r w Hw. induction fuel as [| fuel IH]; intros cursor seen r w Hw Hcur Hseen Hfuel; [lia |].
  pose proof (due_NoDup repo threshold Hwf cursor) as Hnd.
  assert (∀ s, s ∈ due cursor → expiring threshold cursor s = true) as Hexp by (intros s [Hs _]%(due_elem repo); done).
  destruct (page_cursor (Z.to_nat pageSize) cursor) as (next & Hnext & Hrest); [lia |].
  cbn [sweep_pages]. eapply runs_bind; [by apply runs_live |]. intros w1 Hw1. cbv beta iota.
  eapply runs_bind; [by apply runs_listing |]. clear w1 Hw1. intros w1 Hw1. cbv beta iota.
  eapply runs_bind; [by apply runs_ret |]. clear w1 Hw1. intros w1 Hw1. cbv beta iota. rewrite Hnext. cbv beta iota.
  rewrite <-(take_drop (Z.to_nat pageSize) (due cursor)) in Hnd, Hseen, Hexp.
  rewrite fmap_app in Hnd. apply NoDup_app in Hnd as (Hnd1 & Hnd2 & _).
  eapply runs_bind.
  { apply (dry_page _ cursor); [done | | done |]; intros s Hs; [apply Hexp | apply Hseen]; apply elem_of_app; by left. }
  clear w1 Hw1. intros w1 Hw1. cbv beta iota. case_bool_decide as Hlt.
  - assert (take (Z.to_nat pageSize) (due cursor) = due cursor) as Hall.
    { apply take_ge. rewrite length_take in Hlt. lia. }
    eapply runs_bind; [by apply runs_live |]. clear w1 Hw1. intros w1 Hw1. rewrite Hall. by apply runs_ret.
  - assert (length (take (Z.to_nat pageSize) (due cursor)) = Z.to_nat pageSize) as Hlen by (rewrite length_take in Hlt |- *; lia).
    destruct (Hrest Hlen) as [Hcur' Hdue]. replace (count_all (due cursor) r) with
      (count_all (due next) (count_all (take (Z.to_nat pageSize) (due cursor)) r)).
    2: { rewrite Hdue. unfold count_all. rewrite <-foldl_app. by rewrite take_drop. }
    apply IH; [done | done | |].
    + rewrite Hdue. intros s Hs [Hi | Hi]%elem_of_seen_after; [by apply (Hseen s); [apply elem_of_app; right |] |].
      apply (Hnd2 (us_ID s)); [done |]. apply list_elem_of_fmap. by exists s.
    + rewrite Hdue, length_drop. rewrite length_take in Hlen. lia.
Qed.
End dry.

Lemma lrun_now {E} `{TokenPorts E} (w : session_world E) :
  lrun (lift "" now) w = (SessionWorld (sw_repo w) (tp_now (sw_env w)).1 (sw_log w), (tp_now (sw_env w)).2).
Proof. unfold now, port. cbn. unfold on_wire. cbn. by destruct (tp_now (sw_env w)). Qed.

(** Claim C34.  A dry run alone on a repository counts every due session exactly once, in
    however many pages: those with a refresh token that has not been rejected would be
    refreshed, the others fail, nothing is skipped, and the sweep ends. *)
Theorem dry_run_sweep_exact {E} `{TokenPorts E} {GU : GoURL} {GN : GoNet} {UU : UUID} {PP : ProviderParsers}
    cfg visit fuel c rc lookahead pageSize (w : session_world E)
    (Hwf : sessions_wf (sw_repo w)) (Hvisit : visit (sw_repo w) ≡ₚ all_sessions (sw_repo w))
    (Hlive : ∀ env, (tp_ctx_Err c env).2 = None) (Hahead : (0 < lookahead)%Z) (Hsize : (1 ≤ pageSize ≤ 1000)%Z)
    (due := filter (λ s, expiring ((tp_now (sw_env w)).2 + lookahead)%Z (MkCursor zero_time zero_uuid) s = true) (all_sessions (sw_repo w)))
    (Hfuel : length due < fuel * Z.to_nat pageSize) :
  (lrun (Sweep cfg visit fuel c rc (MkSweep lookahead true pageSize)) w).2 =
    Some (MkSweepResult (length (filter (λ s, CanRefresh s = true) due)) 0
                        (length (filter (λ s, CanRefresh s = false) due)) (length due), None).
Proof.
  set (threshold := ((tp_now (sw_env w)).2 + lookahead)%Z) in *. set (repo := sw_repo w) in *.
  assert (due_sessions threshold (MkCursor zero_time zero_uuid) repo ≡ₚ due) as Hperm by apply merge_sort_Permutation.
  destruct (dry_pages cfg visit c rc repo threshold Hwf Hvisit Hlive fuel pageSize (MkCursor zero_time zero_uuid) ∅ no_result
    (lrun (lift "" now) w).1) as (w' & Hrun & _);
    [by rewrite lrun_now | done | by right | set_solver | by rewrite Hperm |].
  unfold Sweep. cbn [sr_Lookahead sr_PageSize sr_DryRun]. rewrite !decide_False by lia.
  rewrite (bool_decide_false (lookahead ≤ 0)%Z), (bool_decide_true (1 ≤ pageSize ≤ 1000)%Z) by lia. cbn [orb negb].
  rewrite lrun_bind. rewrite lrun_now in Hrun |- *. cbn [fst] in Hrun. fold threshold. cbv beta iota. rewrite Hrun. simpl.
  rewrite count_all_spec. by rewrite !Hperm.
Qed.

Module SweepRun.

Definition world : session_world unit := SessionWorld SweepDemo.repo () [].
Definition start : lpool (session_world unit) (option (SweepResult * option go_error)) :=
  LPool world ∅ [Sweep RefreshDemo.toy_config all_sessions 3 (Ctx 1 false) (Ctx 2 false) (MkSweep 1 false 2)].
Definition stop := lschedule (replicate 150 0) start.

End SweepRun.

Lemma sweep_counts_witness :
  match lp_threads SweepRun.stop with
  | [LRet (Some (r, _))] =>
      sw_TotalEvaluated r = 3 ∧ sw_Refreshed r + sw_Skipped r + sw_Failed r = sw_TotalEvaluated r
  | _ => False
  end.
Proof.
  pose proof (λ r e, sweep_counts RefreshDemo.toy_config all_sessions 3 (Ctx 1 false) (Ctx 2 false) (MkSweep 1 false 2)
    SweepRun.start SweepRun.stop 0 r e eq_refl (lschedule_steps _ _)) as Hsum.
  assert (match lp_threads SweepRun.stop with
          | [LRet (Some (r, _))] => bool_decide (sw_TotalEvaluated r = 3) | _ => false end = true) as Hend by (vm_compute; reflexivity).
  destruct (lp_threads SweepRun.stop) as [| [[[r e] |] | | |] [|]]; try discriminate Hend.
  split; [exact (bool_decide_eq_true_1 _ Hend) | exact (Hsum r e eq_refl)].
Defined.

Lemma dry_run_sweep_exact_witness :
  (lrun (Sweep RefreshDemo.toy_config all_sessions 2 (Ctx 1 false) (Ctx 2 false) (MkSweep 1 true 2)) SweepRun.world).2 =
    Some (MkSweepResult 3 0 0 3, None).
Proof.
  refine (eq_trans (dry_run_sweep_exact RefreshDemo.toy_config all_sessions 2 (Ctx 1 false) (Ctx 2 false) 1 2 SweepRun.world
    SweepDemo.repo_wf (Permutation_refl _) (λ _, eq_refl) _ _ _) _); [lia | lia | vm_compute; lia | vm_compute; reflexivity].
Defined.
