(* ===== verification/ExchangeInputs.v ===== *)
(** * What a token exchange is asked with

    From internal/domain/tokenexchange: the request (request.go, resource_uri.go), the
    validation of its two tokens (jwt_validator.go), the claims policies see
    (domain/jwtclaims), and the CEL evaluator (cel_evaluator.go, cel_fields.go,
    human_subject.go).  Token parsing and validation (jwx) and the CEL compiler (cel-go) are
    the classes [JWTLib] and [CELLib]; fetching keys and evaluating programs are ports. *)

From S2P Require Import Prelude ToolApproval ApprovalStore ApprovalHandlers OAuthSessions UserGrants Consent UriValidation NetPolicy Providers UserSessions BrokerErrors ProviderTokens.

(** ** The request *)

Definition TokenExchangeGrantType : string := "urn:ietf:params:oauth:grant-type:token-exchange".
Definition AccessTokenType : string := "urn:ietf:params:oauth:token-type:access_token".
Definition JWTBearerType : string := "urn:ietf:params:oauth:client-assertion-type:jwt-bearer".

Record TokenExchangeRequest := TERequest {
  tr_GrantType : string;
  tr_SubjectToken : string;
  tr_SubjectTokenType : string;
  tr_ClientAssertion : string;
  tr_ClientAssertionType : string;
  tr_Resource : string;
  tr_Scope : string;
}.

(** The normalized URI of a valid absolute URL. *)
Definition NewResourceURI `{GoURL} (uri : string) : option string :=
  if decide (uri = "") then None
  else match url_Parse uri with
  | None => None
  | Some parsed =>
      if negb (nonempty (u_Scheme parsed)) || negb (nonempty (u_Host parsed)) then None
      else Some (NormalizeResourceURI uri)
  end.

Definition malformed (description : string) : TokenExchangeError :=
  WithDiagnostic (NewDiagnostic StageRequestValidation DetailRequestMalformed) (NewInvalidRequestError description).

Definition request_Validate `{GoURL} (req : TokenExchangeRequest) : result TokenExchangeError unit :=
  if decide (tr_GrantType req = "") then Err (malformed "grant_type parameter is required")
  else if negb (bool_decide (tr_GrantType req = TokenExchangeGrantType))
  then Err (malformed "grant_type must identify token exchange")
  else if decide (tr_SubjectToken req = "") then Err (malformed "subject_token parameter is required")
  else if negb (bool_decide (tr_SubjectTokenType req = AccessTokenType))
  then Err (malformed "subject_token_type must be the access-token type")
  else if decide (tr_ClientAssertion req = "") then Err (malformed "client_assertion parameter is required")
  else if negb (bool_decide (tr_ClientAssertionType req = JWTBearerType))
  then Err (malformed "client_assertion_type must be the JWT bearer type")
  else if decide (tr_Resource req = "") then
    Err (WithDiagnostic (NewDiagnostic StageRequestValidation DetailResourceMissing)
           (NewInvalidRequestError "resource parameter is required"))
  else match NewResourceURI (tr_Resource req) with
  | None => Err (WithCause EText (malformed "resource parameter is invalid"))
  | Some _ => Ok ()
  end.

(** ** Tokens and their claims *)

Inductive claim := ClaimString (s : string) | ClaimStrings (l : list string) | ClaimInt (n : Z) | ClaimOther (json : string).

(** The accessors of a parsed token: an absent string is empty, an absent time the zero
    time; [jt_Claims] is the iteration over all claims. *)
Record jwt_token := JWTToken {
  jt_Issuer : string;
  jt_Subject : string;
  jt_Audience : list string;
  jt_Expiration : time;
  jt_IssuedAt : time;
  jt_NotBefore : time;
  jt_JwtID : string;
  jt_Claims : list (string * claim);
}.

(** [Time.Unix]: the zero time is year 1. *)
Definition Unix (t : time) : Z := (t / second - 62135596800)%Z.

Definition add_claim (m : gmap string claim) (kv : string * claim) : gmap string claim :=
  match m !! kv.1 with Some _ => m | None => <[kv.1 := kv.2]> m end.

Definition standard_claims (t : jwt_token) : gmap string claim :=
  let text k s (m : gmap string claim) := if nonempty s then <[k := ClaimString s]> m else m in
  let date k d (m : gmap string claim) := if IsZero d then m else <[k := ClaimInt (Unix d)]> m in
  text "jti" (jt_JwtID t) (date "nbf" (jt_NotBefore t) (date "iat" (jt_IssuedAt t) (date "exp" (jt_Expiration t)
    (match jt_Audience t with
     | [] => λ m, m
     | [aud] => <["aud" := ClaimString aud]>
     | l => <["aud" := ClaimStrings l]>
     end (text "sub" (jt_Subject t) (text "iss" (jt_Issuer t) ∅)))))).

Definition FromToken (t : jwt_token) : gmap string claim := foldl add_claim (standard_claims t) (jt_Claims t).

(** jwx: a token whose signature verifies under a key set, and the validation of its
    claims at a time; [None] is success. *)
Class JWTLib := {
  jwk_Set : Type;
  jwx_ParseString : string → jwk_Set → result go_error jwt_token;
  jwx_Validate : time → jwt_token → string → string → duration → option go_error;
}.

(** What jwx documents of a successful validation. *)
Class JWTLibLaws `{JWTLib} : Prop := {
  jwx_valid now t issuer audience skew : jwx_Validate now t issuer audience skew = None →
    jt_Issuer t = issuer ∧ audience ∈ jt_Audience t ∧
    (IsZero (jt_Expiration t) = true ∨ (now < jt_Expiration t + skew)%Z);
}.

Inductive jwt_role := SubjectToken | ClientAssertionToken.

Record JWTValidationPolicy := JWTPolicy {
  jp_has_provider : bool;
  jp_ExpectedIssuers : list string;
  jp_ExpectedAudience : string;
}.

Record JWTValidator := MkJWTValidator {
  jv_subjectTokenPolicy : JWTValidationPolicy;
  jv_clientAssertionPolicy : JWTValidationPolicy;
  jv_clockSkewSeconds : Z;
}.

Definition MaxClockSkewTolerance : Z := 300.

Fixpoint distinct_issuers (seen : list string) (l : list string) : option (list string) :=
  match l with
  | [] => Some seen
  | i :: l => if decide (i = "") then None
              else distinct_issuers (if bool_decide (i ∈ seen) then seen else seen ++ [i]) l
  end.

Definition normalizeValidationPolicy (p : JWTValidationPolicy) : option JWTValidationPolicy :=
  if negb (jp_has_provider p) then None
  else match distinct_issuers [] (jp_ExpectedIssuers p) with
  | None | Some [] => None
  | Some issuers => Some (JWTPolicy true issuers (jp_ExpectedAudience p))
  end.

Definition with_audience (fallback : string) (p : JWTValidationPolicy) : JWTValidationPolicy :=
  if decide (jp_ExpectedAudience p = "") then JWTPolicy (jp_has_provider p) (jp_ExpectedIssuers p) fallback else p.

Definition jwt_configuration (stage : FailureStage) (description : string) : TokenExchangeError :=
  WithDiagnostic (NewDiagnostic stage DetailJWTConfiguration) (NewServerError description).

Definition NewJWTValidatorWithPolicies (subject client : JWTValidationPolicy) (brokerAudience : string) (skew : Z)
    : result TokenExchangeError JWTValidator :=
  match normalizeValidationPolicy subject, normalizeValidationPolicy client with
  | None, _ => Err (WithCause EText (jwt_configuration StageSubjectValidation "subject token validation policy is invalid"))
  | _, None => Err (WithCause EText (jwt_configuration StageClientValidation "client assertion validation policy is invalid"))
  | Some subject, Some client =>
      let refuse d := Err (jwt_configuration StageSubjectValidation d) in
      if decide (brokerAudience = "") then refuse "JWT validation audience is not configured"
      else if bool_decide (skew < 0)%Z then refuse "JWT validation clock skew cannot be negative"
      else if bool_decide (MaxClockSkewTolerance < skew)%Z
      then refuse "JWT validation clock skew exceeds the maximum tolerance"
      else Ok (MkJWTValidator (with_audience brokerAudience subject) (with_audience brokerAudience client) skew)
  end.

(** ** CEL *)

(** The parts of a checked expression [FieldSelections] looks at; a select node is a field
    selection or a [has] test. *)
Inductive cel_expr :=
  | CIdent (name : string)
  | CSelect (operand : cel_expr) (field : string)
  | CCall (function : string) (target : option cel_expr) (args : list cel_expr)
  | CLiteralString (s : string)
  | COther (children : list cel_expr).

Inductive cel_type := CelBoolType | CelDynType | CelOtherType.
Inductive cel_value := CelString (s : string) | CelBool (b : bool) | CelOther.

(** The environment of an expression: that of the agent-subject detector, or the full one,
    which may have the function [resolveAgentIdByClientId]. *)
Inductive cel_env := CelSubjectEnv | CelExchangeEnv (resolver : bool).

Class CELLib := {
  cel_ast : Type;
  cel_program : Type;
  cel_Compile : cel_env → string → result go_error cel_ast;
  cel_OutputType : cel_ast → cel_type;
  cel_NativeRep : cel_ast → cel_expr;
  cel_Program : cel_env → cel_ast → result go_error cel_program;
  operators_Index : string;
}.

Definition select_here (index : string) (e : cel_expr) : list string :=
  match e with
  | CSelect (CIdent i) field => [i +:+ "." +:+ field]
  | CCall f _ [CIdent i; CLiteralString s] => if decide (f = index) then [i +:+ "." +:+ s] else []
  | _ => []
  end.

Fixpoint selections (index : string) (e : cel_expr) : list string :=
  select_here index e ++
  match e with
  | CSelect o _ => selections index o
  | CCall _ target args =>
      match target with Some t => selections index t | None => [] end ++ flat_map (selections index) args
  | COther children => flat_map (selections index) children
  | _ => []
  end.

Definition FieldSelections `{CELLib} (a : cel_ast) : list string := selections operators_Index (cel_NativeRep a).

Record CELEvaluatorConfig := CELConfig {
  cc_AgentSubjectExpression : string;
  cc_PrincipalExpression : string;
  cc_AgentIDExpression : string;
  cc_AuthorizationExpression : string;
  cc_EvaluationTimeout : duration;
  cc_has_resolver : bool;
}.

Record CELEvaluator `{CELLib} := MkEvaluator {
  ce_agentSubjectProgram : cel_program;
  ce_principalProgram : cel_program;
  ce_agentIDProgram : cel_program;
  ce_authorizationProgram : cel_program;
  ce_evaluationTimeout : duration;
}.

Definition DefaultPrincipalExpression : string := "subject_token.sub".
Definition DefaultAgentIDExpression : string := "subject_token.azp".
Definition DefaultAuthorizationExpression : string := "true".
Definition DefaultAgentSubjectExpression : string :=
  "has(subject_token.sub) && has(subject_token.agent_id) && subject_token.sub == subject_token.agent_id".

Section compile.
Context {CL : CELLib}.
Variable config : CELEvaluatorConfig.

Definition cel_configuration (stage : FailureStage) (description : string) : TokenExchangeError :=
  WithDiagnostic (NewDiagnostic stage DetailCELConfiguration) (NewServerError description).

Definition compileExpression (stage : FailureStage) (what : string) (expr default : string) : result TokenExchangeError cel_program :=
  let env := CelExchangeEnv (cc_has_resolver config) in
  match (a ← cel_Compile env (if decide (expr = "") then default else expr); cel_Program env a) with
  | Ok p => Ok p
  | Err e => Err (WithCause e (cel_configuration stage ("invalid " +:+ what +:+ " CEL expression at startup")))
  end.

Definition compileAgentSubjectExpression : result TokenExchangeError cel_program :=
  let expression := if decide (cc_AgentSubjectExpression config = "") then DefaultAgentSubjectExpression
                    else cc_AgentSubjectExpression config in
  let refuse {A} d : result TokenExchangeError A := Err (cel_configuration StageIdentityResolution d) in
  match cel_Compile CelSubjectEnv expression with
  | Err e => Err (WithCause e (cel_configuration StageIdentityResolution "invalid agent-subject CEL expression at startup"))
  | Ok checked =>
      if match cel_OutputType checked with CelOtherType => true | _ => false end
      then refuse "agent-subject CEL expression must return bool or dyn"
      else if negb (bool_decide ("subject_token.sub" ∈ FieldSelections checked))
      then refuse "agent-subject CEL expression must reference subject_token.sub"
      else match cel_Program CelSubjectEnv checked with
      | Ok p => Ok p
      | Err e => Err (WithCause e (cel_configuration StageIdentityResolution "invalid agent-subject CEL program"))
      end
  end.

Definition NewCELEvaluator : result TokenExchangeError CELEvaluator :=
  principal ← compileExpression StageIdentityResolution "principal extraction" (cc_PrincipalExpression config) DefaultPrincipalExpression;
  agentID ← compileExpression StageIdentityResolution "agent ID extraction" (cc_AgentIDExpression config) DefaultAgentIDExpression;
  authorization ← compileExpression StageClientAuthorization "authorization" (cc_AuthorizationExpression config) DefaultAuthorizationExpression;
  agentSubject ← compileAgentSubjectExpression;
  Ok (MkEvaluator _ agentSubject principal agentID authorization
        (if decide (cc_EvaluationTimeout config = 0%Z) then (100 * 1000000)%Z else cc_EvaluationTimeout config)).
End compile.

(** ** Evaluation and validation at run time *)

(** The variables of an evaluation; [cv_request] is the request context. *)
Record cel_vars := CelVars {
  cv_subject_token : gmap string claim;
  cv_client_assertion : option (gmap string claim);
  cv_request : option (gmap string string);
}.

(** What the exchange asks of its environment: the key sets of the two trust anchors and
    the evaluation of a program, [None] when it is not done by the deadline. *)
Class InputPorts (E : Type) `{JWTLib} `{CELLib} := {
  ip_GetKeySet : jwt_role → ctx → E → E * result go_error jwk_Set;
  ip_Eval : cel_program → cel_vars → duration → E → E * option (result go_error cel_value);
}.

Section run.
Context {E : Type} `{TokenPorts E} {GU : GoURL} {GN : GoNet} {UU : UUID} {PP : ProviderParsers}.
Context {JL : JWTLib} {CL : CELLib} {IP : InputPorts E}.

Abbreviation M := (prog (wire E)).

(** *** jwt_validator.go *)

Variable validator : JWTValidator.

(** The error of the issuer that matched, if one did, otherwise that of the first. *)
Fixpoint validate_issuers (t : jwt_token) (audience : string) (skew : duration) (issuers : list string)
    (firstErr preferredErr : option go_error) : M (option go_error) :=
  match issuers with
  | [] => mret match preferredErr with Some e => Some e | None => firstErr end
  | i :: issuers =>
      clock ← now;
      match jwx_Validate clock t i audience skew with
      | None => mret None
      | Some e =>
          validate_issuers t audience skew issuers
            (match firstErr with Some _ => firstErr | None => Some e end)
            (if negb (existsb (λ x, match x with EInvalidIssuer => true | _ => false end) (chain e)) then Some e else preferredErr)
      end
  end.

Definition policy_of (role : jwt_role) : JWTValidationPolicy :=
  match role with SubjectToken => jv_subjectTokenPolicy validator | ClientAssertionToken => jv_clientAssertionPolicy validator end.

Definition parseWithPolicy (tokenString : string) (keys : jwk_Set) (policy : JWTValidationPolicy) : M (result go_error jwt_token) :=
  match jwx_ParseString tokenString keys with
  | Err e => mret (Err e)
  | Ok token =>
      r ← validate_issuers token (jp_ExpectedAudience policy) (jv_clockSkewSeconds validator * second)%Z
            (jp_ExpectedIssuers policy) None None;
      mret match r with None => Ok token | Some e => Err e end
  end.

Definition is_expired_error (e : go_error) : bool := existsb (λ x, match x with ETokenExpired => true | _ => false end) (chain e).

Definition mapParseError (e : go_error) : TokenExchangeError :=
  WithDiagnostic (NewDiagnostic StageSubjectValidation (if is_expired_error e then DetailSubjectExpired else DetailSubjectInvalid))
    (WithCause e (NewInvalidGrantError "subject_token validation failed")).
Definition mapClientAssertionParseError (e : go_error) : TokenExchangeError :=
  WithDiagnostic (NewDiagnostic StageClientValidation (if is_expired_error e then DetailClientExpired else DetailClientInvalid))
    (WithCause e (NewInvalidClientError "client_assertion validation failed")).

(** [ValidateSubjectToken] and [ValidateClientAssertion]. *)
Definition validate_token (role : jwt_role) (c : ctx) (tokenString : string) : M (result TokenExchangeError jwt_token) :=
  let '(stage, name, unavailable, rejected) :=
    match role with
    | SubjectToken => (StageSubjectValidation, "subject_token is required", "failed to fetch JWKS for token validation", mapParseError)
    | ClientAssertionToken => (StageClientValidation, "client_assertion is required",
                               "failed to fetch JWKS for client assertion validation", mapClientAssertionParseError)
    end in
  if decide (tokenString = "") then mret (Err (malformed name))
  else
    keys ← port (ip_GetKeySet role c);
    match keys with
    | Err err =>
        ended ← ctx_Err c;
        mret (Err (match ended with
                   | Some x => WithDiagnostic (NewDiagnostic stage DetailCallerCanceled)
                                 (NewServerErrorWithCause unavailable (if is_ctx_error x err then err else EJoin err (ECtx x)))
                   | None => WithDiagnostic (NewDiagnostic stage DetailJWKSUnavailable) (NewServerErrorWithCause unavailable err)
                   end))
    | Ok keys =>
        r ← parseWithPolicy tokenString keys (policy_of role);
        mret match r with Ok t => Ok t | Err e => Err (rejected e) end
    end.
Definition ValidateSubjectToken := validate_token SubjectToken.
Definition ValidateClientAssertion := validate_token ClientAssertionToken.

(** *** cel_evaluator.go *)

Variable evaluator : CELEvaluator.

Definition evaluateWithTimeout (program : cel_program) (vars : cel_vars) : M (result go_error cel_value) :=
  r ← port (ip_Eval program vars (ce_evaluationTimeout evaluator));
  mret (match r with Some r => r | None => Err (ECtx DeadlineExceeded) end).

Definition celEvaluationError (description : string) (stage : FailureStage) (cause : go_error) : TokenExchangeError :=
  WithDiagnostic
    (match as_token cause with
     | Some (f, _) => if decide (dg_detail (error_diagnostic f) = DetailInternalUnclassified)
                      then NewDiagnostic stage DetailCELEvaluationFailed else error_diagnostic f
     | None => NewDiagnostic stage DetailCELEvaluationFailed
     end)
    (NewServerErrorWithCause description cause).

Definition subject_vars (claims : gmap string claim) : cel_vars := CelVars claims None None.

(** A text of the subject token: not empty. *)
Definition extract (program : cel_program) (failed wrong empty : string) (claims : gmap string claim)
    : M (result TokenExchangeError string) :=
  r ← evaluateWithTimeout program (subject_vars claims);
  mret match r with
       | Err e => Err (celEvaluationError failed StageIdentityResolution e)
       | Ok (CelString s) => if decide (s = "") then Err (cel_configuration StageIdentityResolution empty) else Ok s
       | Ok _ => Err (cel_configuration StageIdentityResolution wrong)
       end.
Definition ExtractPrincipal : gmap string claim → M (result TokenExchangeError Principal) :=
  extract (ce_principalProgram evaluator) "failed to extract principal from subject_token"
    "principal extraction did not return a string" "principal extraction returned empty value".
Definition ExtractAgentID : gmap string claim → M (result TokenExchangeError string) :=
  extract (ce_agentIDProgram evaluator) "failed to extract agent ID from subject_token"
    "agent ID extraction did not return a string" "agent ID extraction returned empty value".

Definition IsAgentSubject (claims : gmap string claim) : M (result TokenExchangeError bool) :=
  r ← evaluateWithTimeout (ce_agentSubjectProgram evaluator) (subject_vars claims);
  mret match r with
       | Err e => Err (celEvaluationError "agent-subject detection failed" StageIdentityResolution e)
       | Ok (CelBool b) => Ok b
       | Ok _ => Err (cel_configuration StageIdentityResolution "agent-subject expression did not return a boolean")
       end.

Definition request_context (req : TokenExchangeRequest) (principal : Principal) (agentID : string) : gmap string string :=
  {[ "resource" := tr_Resource req; "grant_type" := tr_GrantType req; "scope" := tr_Scope req;
     "principal" := principal; "agent_id" := agentID ]}.

Definition AuthorizePrivilegedClient (client subject : gmap string claim) (request : gmap string string)
    : M (result TokenExchangeError bool) :=
  r ← evaluateWithTimeout (ce_authorizationProgram evaluator) (CelVars subject (Some client) (Some request));
  mret match r with
       | Err e => Err (celEvaluationError "CEL authorization expression evaluation failed" StageClientAuthorization e)
       | Ok (CelBool true) => Ok true
       | Ok (CelBool false) =>
           Err (WithDiagnostic (NewDiagnostic StageClientAuthorization DetailClientPolicyDenied)
                  (NewAccessDeniedError "privileged client authorization denied by CEL policy"))
       | Ok _ => Err (cel_configuration StageClientAuthorization "authorization expression did not return a boolean")
       end.

(** *** human_subject.go *)

(** The principal, as soon as it is known, and the agent id or the refusal. *)
Definition ResolveHumanSubject (claims : gmap string claim) : M (Principal * result TokenExchangeError string) :=
  p ← ExtractPrincipal claims;
  match p with
  | Err e => mret ("", Err e)
  | Ok principal =>
      isAgent ← IsAgentSubject claims;
      match isAgent with
      | Err e => mret (principal, Err (WithCause (join_opt EText (ter_cause e)) e))
      | Ok true =>
          mret (principal, Err (WithCause EText
            (WithDiagnostic (NewDiagnostic StageIdentityResolution DetailSubjectCategoryUnsupported)
               (NewAccessDeniedError "agent-subject tokens cannot be exchanged for third-party service tokens"))))
      | Ok false =>
          agentID ← ExtractAgentID claims;
          mret (principal, agentID)
      end
  end.
End run.
