(* ===== verification/TokenExchange.v ===== *)
(** * Token exchange

    internal/domain/tokenexchange/service.go, session_diagnostic.go and response.go: an agent
    presents a user's token and gets the user's access token for a third-party service, if
    the user's grant covers the service.  The repositories are a class of ports; the user's
    session is looked up and refreshed by [GetValidAccessToken] of SessionRefresh.v.  Audit
    context and traces are left out. *)

From S2P Require Import Prelude ToolApproval ApprovalStore ApprovalHandlers OAuthSessions UserGrants Consent UriValidation NetPolicy Providers UserSessions BrokerErrors ServiceSessions SessionLocks ProviderTokens SessionRefresh ExchangeInputs.

(** ** Sessions as diagnostics (session_diagnostic.go) *)

Definition session_stage (o : Session.Operation) : FailureStage :=
  match o with
  | Session.OperationRefresh => StageRefresh
  | Session.OperationScopeValidation => StageScopeValidation
  | _ => StageSessionLookup
  end.

Definition session_detail (e : go_error) (d : Session.ErrorDetail) : FailureDetail :=
  match d with
  | Session.DetailSessionMissing => DetailSessionMissing
  | Session.DetailAccessTokenExpired => DetailAccessTokenExpired
  | Session.DetailRefreshUnavailable => DetailRefreshUnavailable
  | Session.DetailRefreshRejected => DetailRefreshRejected
  | Session.DetailProviderClientRejected => DetailProviderClientRejected
  | Session.DetailProviderRejected => DetailProviderRejected
  | Session.DetailProviderUnavailable => DetailProviderUnavailable
  | Session.DetailProviderResponseInvalid => DetailProviderResponseInvalid
  | Session.DetailRepositoryUnavailable => DetailSessionRepositoryUnavailable
  | Session.DetailDecryptionFailed => DetailSessionDecryptionFailed
  | Session.DetailEncryptionFailed => DetailSessionEncryptionFailed
  | Session.DetailPersistenceFailed => DetailSessionPersistenceFailed
  | Session.DetailConfiguration => DetailSessionConfiguration
  | Session.DetailCredentialSourceUnavailable =>
      match as_credential_source e with
      | Some Session.IdentityMismatch | Some Session.IdentityMissing => DetailCredentialIdentityChanged
      | _ => DetailCredentialSourceUnavailable
      end
  | Session.DetailCallerCanceled => DetailCallerCanceled
  | Session.DetailInternalUnclassified => DetailInternalUnclassified
  end.

Definition sessionDiagnostic (e : go_error) : Diagnostic :=
  match as_operation e with
  | None => NewDiagnostic StageSessionLookup DetailInternalUnclassified
  | Some m => NewDiagnostic (session_stage (Session.em_operation m)) (session_detail e (Session.em_detail m))
  end.

(** ** Response *)

(** [int64(d.Seconds())] of a duration that is not negative: [Seconds] is a float64, so the
    seconds and their fraction are rounded to 53 bits, half to even. *)
Definition round_div (n d : Z) : Z :=
  let q := (n / d)%Z in let r := (n mod d)%Z in
  if bool_decide (2 * r < d)%Z then q
  else if bool_decide (d < 2 * r)%Z then (q + 1)%Z
  else if Z.even q then q else (q + 1)%Z.

Definition Seconds_int (d : duration) : Z :=
  let sec := (d / second)%Z in
  let nsec := (d mod second)%Z in
  if decide (nsec = 0 ∨ sec = 0)%Z then sec
  else
    (* the fraction is [f / 2^k] with 53 bits; the sum keeps [52 - log2 sec] bits after the point *)
    let k := (52 + Z.log2_up ((second + nsec - 1) / nsec))%Z in
    let f := round_div (nsec * 2 ^ k) second in
    let p := (52 - Z.log2 sec)%Z in
    (round_div (sec * 2 ^ k + f) (2 ^ (k - p)) / 2 ^ p)%Z.

Record TokenExchangeResponse := TEResponse {
  xr_AccessToken : string;
  xr_TokenType : string;
  xr_IssuedTokenType : string;
  xr_ExpiresIn : option Z;
  xr_RefreshToken : string;
  xr_Scope : string;
  xr_GrantedPermissionSets : gmap PermissionSetID (list ServiceID);
  xr_Principal : Principal;
  xr_AgentID : string;
  xr_Service : ServiceID;
  xr_Authorization : AuthorizationRef;
}.

(** ** What a grant allows *)

(** The services an entry of the grant includes; of two entries for one permission set the
    last counts. *)
Definition included_index (g : UserGrant) : gmap PermissionSetID (gset ServiceID) :=
  foldl (λ m e, <[ge_PermissionSetID e := list_to_set (ge_IncludedServiceIDs e)]> m) ∅ (ug_GrantedPermissionSets g).
Definition set_index (sets : list PermissionSet) : gmap PermissionSetID PermissionSet :=
  foldl (λ m p, <[ps_ID p := p]> m) ∅ sets.

(** The scopes per service, and whether the requested service is included and defined. *)
Record coverage := Coverage {
  cv_scopes : gmap ServiceID (gset string);
  cv_included : bool;
  cv_defined : bool;
}.

Definition add_service_scope (requested : ServiceID) (included : gset ServiceID) (v : coverage) (ss : ServiceScope) : coverage :=
  let svc := ss_ServiceID ss in
  if decide (svc ∈ included) then
    Coverage (<[svc := default ∅ (cv_scopes v !! svc) ∪ list_to_set (ss_Scopes ss)]> (cv_scopes v)) (cv_included v)
      (cv_defined v || bool_decide (svc = requested))
  else v.

(** [None] when a permission set is missing. *)
Fixpoint cover (requested : ServiceID) (sets : gmap PermissionSetID PermissionSet)
    (index : gmap PermissionSetID (gset ServiceID)) (entries : list GrantedPermissionSetEntry) (v : coverage) : option coverage :=
  match entries with
  | [] => Some v
  | e :: entries =>
      match sets !! ge_PermissionSetID e with
      | None => None
      | Some p =>
          let included := default ∅ (index !! ge_PermissionSetID e) in
          let v := Coverage (cv_scopes v) (cv_included v || bool_decide (requested ∈ included)) (cv_defined v) in
          cover requested sets index entries (foldl (add_service_scope requested included) v (ps_ServiceScopes p))
      end
  end.

(** The ceilings of the agent's service requirements. *)
Definition all_scopes (agent : Agent) (svc : ServiceID) : bool :=
  existsb (λ r, sr_RequireAllScopes r && bool_decide (sr_ServiceID r = svc)) (ag_ServiceRequirements agent).
Definition ceilings (agent : Agent) : gmap ServiceID (gset string) :=
  foldl (λ m r, if sr_RequireAllScopes r then m else <[sr_ServiceID r := list_to_set (sr_RequiredScopes r)]> m) ∅
    (ag_ServiceRequirements agent).

Definition sort_scopes (s : gset string) : list string := merge_sort String.le (elements s).

(** The effective scopes of a service, or why it is not covered. *)
Definition cap (agent : Agent) (svc : ServiceID) (scopes : gset string) : list string + FailureDetail :=
  let hasSR := negb (bool_decide (ag_ServiceRequirements agent = [])) in
  let ceiling := ceilings agent !! svc in
  if hasSR && bool_decide (ceiling = None) && negb (all_scopes agent svc) then inr DetailGrantServiceRequirementExcluded
  else
    let allowed := if negb hasSR || all_scopes agent svc then scopes else scopes ∩ default ∅ ceiling in
    if bool_decide (allowed = ∅) && negb (bool_decide (scopes = ∅)) then inr DetailGrantScopeIntersectionEmpty
    else inl (sort_scopes allowed).

Definition effective_scopes (agent : Agent) (per_service : gmap ServiceID (gset string)) : gmap ServiceID (list string) :=
  map_imap (λ svc scopes, match cap agent svc scopes with inl l => Some l | inr _ => None end) per_service.

Definition coverage_detail (agent : Agent) (requested : ServiceID) (v : coverage) : FailureDetail :=
  if negb (cv_included v) then DetailGrantServiceOmitted
  else if negb (cv_defined v) then DetailGrantServiceDefinitionMissing
  else match cv_scopes v !! requested with
  | Some scopes => match cap agent requested scopes with inr d => d | inl _ => DetailNone end
  | None => DetailNone
  end.

(** ** The exchange *)

Class ExchangePorts (E : Type) := {
  ep_FindByProtectedResource : string → E → E * result go_error provider;
  ep_agent_Get : AgentID → E → E * result ErrorKind Agent;
  ep_grant_Find : Principal → AgentID → E → E * result ErrorKind UserGrant;
  ep_ps_GetByIDs : list PermissionSetID → E → E * result ErrorKind (list PermissionSet);
}.

(** What the exchange has found out when it ends; an id that is not known is empty. *)
Record observation := Observed {
  ob_stage : FailureStage;
  ob_service : ServiceID;
  ob_agent : AgentID;
  ob_grant : option UserGrant;
}.

Definition authorizationRef (agentID : AgentID) (grant : option UserGrant) : AuthorizationRef :=
  match grant with
  | None => AuthRef agentID "" 0 0 false
  | Some g => AuthRef agentID (ug_ID g) (ug_UpdatedAt g) (default 0%Z (ug_ValidUntil g)) (bool_decide (is_Some (ug_ValidUntil g)))
  end.

(** An authorized request. *)
Record authorized := Authorized {
  az_principal : Principal;
  az_service : provider;
  az_agent : Agent;
  az_grant : UserGrant;
  az_scopes : list string;
}.

Section exchange.
Context {E : Type} `{TokenPorts E} {GU : GoURL} {GN : GoNet} {UU : UUID} {PP : ProviderParsers}.
Context {JL : JWTLib} {CL : CELLib} {IP : InputPorts E} {EP : ExchangePorts E}.
Variable cfg : session_config.
Variable validator : JWTValidator.
Variable evaluator : CELEvaluator.

Abbreviation M := (prog (wire E)).

Definition agentConsentURL (agentID : AgentID) : string := TrimRightSlash (sc_CallbackBaseURL cfg) +:+ "/agents/" +:+ agentID.
Definition ServiceAuthorizeURL (serviceID : ServiceID) : string :=
  let base := TrimRightSlash (sc_CallbackBaseURL cfg) in
  base +:+ "/api/third-party/" +:+ serviceID +:+ "/oauth2/authorize?redirect_uri=" +:+ url_QueryEscape (base +:+ "/sessions").

Definition grant_denied (agentID : AgentID) (description : string) (detail : FailureDetail) : TokenExchangeError :=
  WithDiagnostic (NewDiagnostic StageGrantAuthorization detail)
    (WithErrorURI (agentConsentURL agentID) (NewAccessDeniedError description)).

Definition resolveEffectiveScopes (grant : UserGrant) (agent : Agent) (requested : ServiceID)
    : M (result TokenExchangeError (gmap ServiceID (list string) * FailureDetail)) :=
  let ids := ge_PermissionSetID <$> ug_GrantedPermissionSets grant in
  if negb (forallb (λ i, bool_decide (i ∈ aps_PermissionSetID <$> ag_PermissionSets agent)) ids)
  then mret (Err (grant_denied (ag_ID agent) "grant references a permission set not declared by the agent; re-consent required"
                    DetailGrantPermissionSetUndeclared))
  else
    sets ← port (ep_ps_GetByIDs ids);
    mret match sets with
         | Err k => Err (WithDiagnostic (NewDiagnostic StageGrantAuthorization DetailGrantRepositoryUnavailable)
                           (NewServerErrorWithCause "failed to resolve permission sets" (EStorage k)))
         | Ok sets =>
             match cover requested (set_index sets) (included_index grant) (ug_GrantedPermissionSets grant) (Coverage ∅ false false) with
             | None => Err (grant_denied (ag_ID agent) "grant references a missing permission set; re-consent required"
                              DetailGrantPermissionSetMissing)
             | Some v => Ok (effective_scopes agent (cv_scopes v), coverage_detail agent requested v)
             end
         end.

(** Steps 9 and 9a: the grant of the principal for the agent covers the service. *)
Definition authorize_grant (principal : Principal) (service : provider) (agent : Agent)
    : M (option UserGrant * result TokenExchangeError authorized) :=
  found ← port (ep_grant_Find principal (ag_ID agent));
  t ← now;
  let denied := grant_denied (ag_ID agent) in
  match VerifyAgentAccess t found with
  | Err ErrAgentAccessDenied =>
      mret (None, Err (WithCause (EConsent ErrAgentAccessDenied)
        (denied "user has not granted permission for this agent to access the requested service" DetailGrantMissing)))
  | Err ErrGrantExpired =>
      mret (None, Err (WithCause (EConsent ErrGrantExpired) (denied "user grant has expired" DetailGrantExpired)))
  | Err e =>
      mret (None, Err (WithDiagnostic (NewDiagnostic StageGrantAuthorization DetailGrantRepositoryUnavailable)
                         (NewServerErrorWithCause "failed to verify user grant" (EConsent e))))
  | Ok grant =>
      if decide (ug_GrantedPermissionSets grant = [])
      then mret (Some grant, Err (denied "grant has no permission set entries; re-consent required" DetailGrantEmpty))
      else
        r ← resolveEffectiveScopes grant agent (pe_ID service);
        mret (Some grant,
              match r with
              | Err e => Err e
              | Ok (scopes, detail) =>
                  if negb (bool_decide (detail = DetailNone))
                  then Err (denied "service is not authorized by the grant; re-consent required" detail)
                  else Ok (Authorized principal service agent grant (default [] (scopes !! pe_ID service)))
              end)
  end.

(** Steps 7 to 9a; the service is known once the resource is resolved. *)
Definition authorize_access (principal : Principal) (agentID resource : string)
    : M (observation * result go_error authorized) :=
  service ← port (ep_FindByProtectedResource (NormalizeResourceURI resource));
  match service with
  | Err e =>
      let obs := Observed StageResourceResolution "" "" None in
      if bool_decide (is_Some (as_token e)) then mret (obs, Err e)
      else mret (obs, Err (token_error (WithDiagnostic (NewDiagnostic StageResourceResolution DetailResourceRepositoryUnavailable)
                                         (NewServerErrorWithCause "failed to lookup service by resource URI" e))))
  | Ok service =>
      let obs := Observed StageIdentityResolution (pe_ID service) "" None in
      let refuse description cause detail : M (observation * result go_error authorized) :=
        mret (obs, Err (token_error (WithDiagnostic (NewDiagnostic StageIdentityResolution detail)
                                       (NewServerErrorWithCause description cause)))) in
      match uuid_Parse agentID with
      | None => refuse "agent identity configuration is invalid" EText DetailAgentInvalid
      | Some agentID =>
          agent ← port (ep_agent_Get agentID);
          match agent with
          | Err KNotFound => refuse "agent is not configured" (EStorage KNotFound) DetailAgentMissing
          | Err k => refuse "failed to lookup agent" (EStorage k) DetailAgentRepositoryUnavailable
          | Ok agent =>
              '(grant, r) ← authorize_grant principal service agent;
              mret (Observed StageGrantAuthorization (pe_ID service) (ag_ID agent) grant,
                    match r with Ok a => Ok a | Err e => Err (token_error e) end)
          end
      end
  end.

(** Steps 1 to 9a: everything before the session is looked at. *)
Definition authorize_request (c : ctx) (req : TokenExchangeRequest) : M (observation * result go_error authorized) :=
  let at_ stage := Observed stage "" "" None in
  let refuse stage (e : TokenExchangeError) : M (observation * result go_error authorized) := mret (at_ stage, Err (token_error e)) in
  ended ← ctx_Err c;
  match ended with
  | Some x => refuse StageRequestValidation (WithDiagnostic (NewDiagnostic StageRequestValidation DetailCallerCanceled)
                                               (NewServerErrorWithCause "token exchange canceled" (ECtx x)))
  | None =>
      match request_Validate req with
      | Err e => refuse StageRequestValidation e
      | Ok _ =>
          subject ← ValidateSubjectToken validator c (tr_SubjectToken req);
          match subject with
          | Err e => refuse StageSubjectValidation e
          | Ok subject =>
              client ← ValidateClientAssertion validator c (tr_ClientAssertion req);
              match client with
              | Err e => refuse StageClientValidation e
              | Ok client =>
                  '(principal, agentID) ← ResolveHumanSubject evaluator (FromToken subject);
                  match agentID with
                  | Err e => refuse StageIdentityResolution e
                  | Ok agentID =>
                      ok ← AuthorizePrivilegedClient evaluator (FromToken client) (FromToken subject)
                             (request_context req principal agentID);
                      match ok with
                      | Err e => refuse StageClientAuthorization e
                      | Ok false => refuse StageClientAuthorization
                          (WithDiagnostic (NewDiagnostic StageClientAuthorization DetailClientPolicyDenied)
                             (NewAccessDeniedError "privileged client authorization failed"))
                      | Ok true => authorize_access principal agentID (tr_Resource req)
                      end
                  end
              end
          end
      end
  end.

(** The deferred function: every failure leaves with a diagnostic and what was known. *)
Definition observe (c : ctx) (obs : observation) (e : go_error) : M TokenExchangeError :=
  ended ← ctx_Err c;
  let '(f, cause) := match as_token e with
                     | Some x => x
                     | None => let w := NewServerErrorWithCause "token exchange failed" e in (ter_fields w, ter_cause w)
                     end in
  let d := if decide (dg_detail (error_diagnostic f) = DetailInternalUnclassified)
           then NewDiagnostic (ob_stage obs) DetailInternalUnclassified else error_diagnostic f in
  let d := match ended with
           | Some x => if is_ctx_error x e && bool_decide (as_operation e = None)
                       then NewDiagnostic (dg_stage d) DetailCallerCanceled else d
           | None => d
           end in
  mret (WithObservation d (ob_service obs) (authorizationRef (ob_agent obs) (ob_grant obs)) (TErr f cause)).

Definition granted_permission_sets (g : UserGrant) : gmap PermissionSetID (list ServiceID) :=
  foldl (λ m e, <[ge_PermissionSetID e := ge_IncludedServiceIDs e]> m) ∅ (ug_GrantedPermissionSets g).

(** Steps 11 and 12. *)
Definition respond (a : authorized) (session : UserSession) (accessToken : string) : M (result go_error TokenExchangeResponse) :=
  if negb (forallb (λ s, bool_decide (s ∈ us_Scope session)) (az_scopes a)) then
    mret (Err (token_error (WithDiagnostic (NewDiagnostic StageScopeValidation DetailSessionScopeInsufficient)
      (WithErrorURI (ServiceAuthorizeURL (pe_ID (az_service a)))
         (NewInvalidGrantError "provider session does not cover required scopes; re-authentication required")))))
  else
    expiresIn ← match us_AccessTokenExpiresAt session with
                | None => mret None
                | Some expiry => t ← now; let d := Sub expiry t in
                                 mret (Some (if bool_decide (d < 0)%Z then 0%Z else Seconds_int d))
                end;
    mret (Ok {| xr_AccessToken := accessToken; xr_TokenType := us_TokenType session; xr_IssuedTokenType := AccessTokenType;
                xr_ExpiresIn := expiresIn; xr_RefreshToken := ""; xr_Scope := String.concat " " (us_Scope session);
                xr_GrantedPermissionSets := granted_permission_sets (az_grant a); xr_Principal := az_principal a;
                xr_AgentID := ag_ID (az_agent a); xr_Service := pe_ID (az_service a);
                xr_Authorization := authorizationRef (ag_ID (az_agent a)) (Some (az_grant a)) |}).

(** The failure of the session service. *)
Definition session_failure (serviceID : ServiceID) (e : go_error) : TokenExchangeError :=
  let d := sessionDiagnostic e in
  if decide (dg_outcome d = OutcomeReauthRequired) then
    WithDiagnostic d (WithErrorURI (ServiceAuthorizeURL serviceID)
      (WithCause e (NewInvalidGrantError "provider session is missing or unusable; re-authentication required")))
  else WithDiagnostic d (NewServerErrorWithCause "failed to get valid access token" e).

(** [Exchange], given what the session service's wait for a refresh flight ends with. *)
Definition Exchange (c : ctx) (req : TokenExchangeRequest) (flight : (refreshFlightResult * option go_error) + ctx_error)
    : lprog (session_world E) (result TokenExchangeError TokenExchangeResponse) :=
  '(obs, r) ← lift "" (authorize_request c req);
  match r with
  | Err e => failure ← lift "" (observe c obs e); mret (Err failure)
  | Ok a =>
      let service := pe_ID (az_service a) in
      let known stage := Observed stage service (ag_ID (az_agent a)) (Some (az_grant a)) in
      session ← GetValidAccessToken cfg c (az_principal a) service flight;
      match session with
      | Err e => failure ← lift "" (observe c (known StageSessionLookup) (token_error (session_failure service e))); mret (Err failure)
      | Ok (session, accessToken, _) =>
          r ← lift "" (respond a session accessToken);
          match r with
          | Ok response => mret (Ok response)
          | Err e => failure ← lift "" (observe c (known StageScopeValidation) e); mret (Err failure)
          end
      end
  end.
End exchange.
