(* ===== verification/TokenExchangeFacts.v ===== *)
(** * What a token exchange guarantees

    A response is only given for a request whose two tokens verify, whose principal is a
    person, whose client the policy admits, and whose service the principal's grant to the
    agent covers; a request that is refused for lack of authorization learns nothing about
    the principal's sessions. *)

From S2P Require Import Prelude ToolApproval ApprovalStore ApprovalHandlers OAuthSessions UserGrants Consent UriValidation NetPolicy Providers UserSessions BrokerErrors ServiceSessions SessionLocks ProviderTokens ProviderTokensFacts SessionRefresh SessionRefreshFacts ExchangeInputs TokenExchange.

(** ** The scopes a grant gives *)

Section scopes.
Variables (requested : ServiceID) (sets : gmap PermissionSetID PermissionSet) (index : gmap PermissionSetID (gset ServiceID)).

(** A scope of the service in a permission set of the entries, included for the service. *)
Definition granted_scope (entries : list GrantedPermissionSetEntry) (svc : ServiceID) (s : string) : Prop :=
  ∃ e p ss, e ∈ entries ∧ sets !! ge_PermissionSetID e = Some p ∧ svc ∈ default ∅ (index !! ge_PermissionSetID e) ∧
    ss ∈ ps_ServiceScopes p ∧ ss_ServiceID ss = svc ∧ s ∈ ss_Scopes ss.

(** The requested service is included by an entry whose permission set defines it. *)
Definition service_granted (entries : list GrantedPermissionSetEntry) : Prop :=
  ∃ e p ss, e ∈ entries ∧ sets !! ge_PermissionSetID e = Some p ∧ requested ∈ default ∅ (index !! ge_PermissionSetID e) ∧
    ss ∈ ps_ServiceScopes p ∧ ss_ServiceID ss = requested.

Definition scopes_of (v : coverage) (svc : ServiceID) : gset string := default ∅ (cv_scopes v !! svc).

Lemma add_scopes_spec included l v svc s :
  s ∈ scopes_of (foldl (add_service_scope requested included) v l) svc ↔
  s ∈ scopes_of v svc ∨ svc ∈ included ∧ ∃ ss, ss ∈ l ∧ ss_ServiceID ss = svc ∧ s ∈ ss_Scopes ss.
Proof.
  revert v. induction l as [| ss l IH]; intros v; simpl; [set_solver |]. rewrite IH.
  assert (s ∈ scopes_of (add_service_scope requested included v ss) svc ↔
    s ∈ scopes_of v svc ∨ svc ∈ included ∧ ss_ServiceID ss = svc ∧ s ∈ ss_Scopes ss) as ->.
  { unfold add_service_scope, scopes_of. case_decide as Hin; simpl; [| naive_solver].
    destruct (decide (ss_ServiceID ss = svc)) as [<- | Hne].
    - rewrite lookup_insert_eq. simpl. rewrite elem_of_union, elem_of_list_to_set. naive_solver.
    - rewrite lookup_insert_ne by done. naive_solver. }
  setoid_rewrite elem_of_cons. naive_solver.
Qed.

Lemma add_scopes_defined included l v :
  cv_defined (foldl (add_service_scope requested included) v l) = true ↔
  cv_defined v = true ∨ requested ∈ included ∧ ∃ ss, ss ∈ l ∧ ss_ServiceID ss = requested.
Proof.
  revert v. induction l as [| ss l IH]; intros v; simpl; [set_solver |]. rewrite IH.
  assert (cv_defined (add_service_scope requested included v ss) = true ↔
    cv_defined v = true ∨ requested ∈ included ∧ ss_ServiceID ss = requested) as ->.
  { unfold add_service_scope. case_decide as Hin; simpl; [| naive_solver].
    rewrite orb_true_iff, bool_decide_eq_true. naive_solver. }
  setoid_rewrite elem_of_cons. naive_solver.
Qed.

Lemma add_scopes_dom included l v svc : is_Some (cv_scopes v !! svc) →
  is_Some (cv_scopes (foldl (add_service_scope requested included) v l) !! svc).
Proof.
  revert v. induction l as [| ss l IH]; intros v Hv; simpl; [done |]. apply IH. unfold add_service_scope.
  case_decide; simpl; [| done]. destruct (decide (ss_ServiceID ss = svc)) as [<- | Hne].
  - by rewrite lookup_insert_eq.
  - by rewrite lookup_insert_ne.
Qed.

Lemma add_scopes_included included l v : cv_included (foldl (add_service_scope requested included) v l) = cv_included v.
Proof. revert v. induction l as [| ss l IH]; intros v; simpl; [done |]. rewrite IH. unfold add_service_scope. by case_decide. Qed.

(** The scopes of the requested service are known once it is defined. *)
Definition sane (v : coverage) : Prop := cv_defined v = true → is_Some (cv_scopes v !! requested).
Lemma add_scopes_sane included l v : sane v → sane (foldl (add_service_scope requested included) v l).
Proof.
  revert v. induction l as [| ss l IH]; intros v Hv; simpl; [done |]. apply IH. unfold add_service_scope, sane.
  case_decide; simpl; [| done]. rewrite orb_true_iff, bool_decide_eq_true. destruct (decide (ss_ServiceID ss = requested)) as [-> | Hne].
  - by rewrite lookup_insert_eq.
  - rewrite lookup_insert_ne by done. intros [? | ?]; [by apply Hv | done].
Qed.

Lemma granted_cons e p entries svc s : sets !! ge_PermissionSetID e = Some p →
  granted_scope (e :: entries) svc s ↔
  svc ∈ default ∅ (index !! ge_PermissionSetID e) ∧ (∃ ss, ss ∈ ps_ServiceScopes p ∧ ss_ServiceID ss = svc ∧ s ∈ ss_Scopes ss) ∨
  granted_scope entries svc s.
Proof.
  intros Hp. split.
  - intros (e' & p' & ss & [-> | He]%elem_of_cons & Hp' & Hi & Hss); [left | right; by exists e', p', ss].
    rewrite Hp in Hp'. injection Hp' as <-. split; [done | by exists ss].
  - intros [(Hi & ss & Hss) | (e' & p' & ss & He & Hss)]; [exists e, p, ss | exists e', p', ss]; (split; [set_solver | done]).
Qed.
Lemma service_granted_cons e p entries : sets !! ge_PermissionSetID e = Some p →
  service_granted (e :: entries) ↔
  requested ∈ default ∅ (index !! ge_PermissionSetID e) ∧ (∃ ss, ss ∈ ps_ServiceScopes p ∧ ss_ServiceID ss = requested) ∨
  service_granted entries.
Proof.
  intros Hp. split.
  - intros (e' & p' & ss & [-> | He]%elem_of_cons & Hp' & Hi & Hss); [left | right; by exists e', p', ss].
    rewrite Hp in Hp'. injection Hp' as <-. split; [done | by exists ss].
  - intros [(Hi & ss & Hss) | (e' & p' & ss & He & Hss)]; [exists e, p, ss | exists e', p', ss]; (split; [set_solver | done]).
Qed.

Lemma cover_spec entries v v' : cover requested sets index entries v = Some v' →
  (∀ svc s, s ∈ scopes_of v' svc ↔ s ∈ scopes_of v svc ∨ granted_scope entries svc s) ∧
  (cv_defined v' = true ↔ cv_defined v = true ∨ service_granted entries) ∧ (sane v → sane v') ∧
  (∀ e, e ∈ entries → is_Some (sets !! ge_PermissionSetID e)).
Proof.
  revert v. induction entries as [| e entries IH]; intros v; cbn [cover].
  { intros [= <-]. split_and!; [intros svc s | | done | intros e He; by apply elem_of_nil in He];
    (split; [by left |]; intros [? | (e & p & ss & He & _)]; [done | by apply elem_of_nil in He]). }
  destruct (sets !! ge_PermissionSetID e) as [p |] eqn:Hp; [| done]. intros (Hs & Hd & Hsane & Hall)%IH. split_and!.
  - intros svc s. rewrite Hs, add_scopes_spec, (granted_cons e p) by done. unfold scopes_of; simpl. tauto.
  - rewrite Hd, add_scopes_defined, (service_granted_cons e p) by done. simpl. tauto.
  - intros Hv. apply Hsane, add_scopes_sane. exact Hv.
  - intros e' [-> | He]%elem_of_cons; [by eexists | by apply Hall].
Qed.
End scopes.

(** What the agent's service requirements let through. *)
Definition admits (agent : Agent) (svc : ServiceID) (s : string) : Prop :=
  ag_ServiceRequirements agent = [] ∨ all_scopes agent svc = true ∨ ∃ ceiling, ceilings agent !! svc = Some ceiling ∧ s ∈ ceiling.

Lemma sort_scopes_spec (x : gset string) : NoDup (sort_scopes x) ∧ Sorted String.le (sort_scopes x) ∧ ∀ s, s ∈ sort_scopes x ↔ s ∈ x.
Proof.
  unfold sort_scopes. split_and!.
  - rewrite merge_sort_Permutation. apply NoDup_elements.
  - apply Sorted_merge_sort. apply _.
  - intros s. by rewrite merge_sort_Permutation, elem_of_elements.
Qed.

Lemma cap_spec agent svc scopes l : cap agent svc scopes = inl l →
  NoDup l ∧ Sorted String.le l ∧ (∀ s, s ∈ l ↔ s ∈ scopes ∧ admits agent svc s) ∧ (scopes ≠ ∅ → l ≠ []).
Proof.
  unfold cap, admits. destruct (bool_decide_reflect (ag_ServiceRequirements agent = [])) as [Hsr | Hsr]; cbn [negb andb orb].
  - case_match eqn:He; [done |]. intros [= <-]. destruct (sort_scopes_spec scopes) as (? & ? & Hin). split_and!; [done | done | naive_solver |].
    intros Hne Hnil. apply Hne. apply elem_of_equiv_empty_L. intros s Hs%Hin. rewrite Hnil in Hs. by apply elem_of_nil in Hs.
  - destruct (all_scopes agent svc) eqn:Ha; cbn [negb andb orb]; rewrite ?andb_false_r, ?andb_true_r.
    + case_match eqn:He; [done |]. intros [= <-]. destruct (sort_scopes_spec scopes) as (? & ? & Hin). split_and!; [done | done | naive_solver |].
      intros Hne Hnil. apply Hne. apply elem_of_equiv_empty_L. intros s Hs%Hin. rewrite Hnil in Hs. by apply elem_of_nil in Hs.
    + case_bool_decide as Hc; [done |]. destruct (ceilings agent !! svc) as [ceiling |] eqn:Hceil; [| done]. simpl.
      destruct (bool_decide (scopes ∩ ceiling = ∅) && negb (bool_decide (scopes = ∅))) eqn:He; [done |].
      intros [= <-]. destruct (sort_scopes_spec (scopes ∩ ceiling)) as (? & ? & Hin). split_and!; [done | done | |].
      * intros s. rewrite Hin, elem_of_intersection. naive_solver.
      * intros Hne Hnil. apply andb_false_iff in He as [He | He].
        -- apply bool_decide_eq_false in He. apply He. apply elem_of_equiv_empty_L. intros s Hs%Hin. rewrite Hnil in Hs. by apply elem_of_nil in Hs.
        -- apply negb_false_iff, bool_decide_eq_true in He. done.
Qed.

Section authorized.
Context {E : Type} `{TokenPorts E} {GU : GoURL} {GN : GoNet} {UU : UUID} {PP : ProviderParsers}.
Context {JL : JWTLib} {CL : CELLib} {IP : InputPorts E} {EP : ExchangePorts E}.
Variable cfg : session_config.
Variable validator : JWTValidator.
Variable evaluator : CELEvaluator.

(** *** The tokens *)

(** The token verifies under a key set of its trust anchor and is valid for one of the
    issuers and the audience of its policy. *)
Definition verified (role : jwt_role) (c : ctx) (text : string) (t : jwt_token) : Prop :=
  ∃ e keys clock issuer, (ip_GetKeySet role c e).2 = Ok keys ∧ jwx_ParseString text keys = Ok t ∧
    issuer ∈ jp_ExpectedIssuers (policy_of validator role) ∧
    jwx_Validate clock t issuer (jp_ExpectedAudience (policy_of validator role)) (jv_clockSkewSeconds validator * second) = None.

Lemma answers_issuers t audience skew issuers first preferred :
  answers (λ r, r = None →
      (∃ clock i, i ∈ issuers ∧ jwx_Validate clock t i audience skew = None) ∨ issuers = [] ∧ first = None ∧ preferred = None)
    (validate_issuers t audience skew issuers first preferred).
Proof.
  revert first preferred. induction issuers as [| i issuers IH]; intros first preferred; cbn [validate_issuers]; ask.
  { destruct preferred; naive_solver. }
  apply answers_port. intros e. destruct (jwx_Validate _ t i audience skew) as [err |] eqn:Hv; ask.
  - eapply answers_mono; [| apply IH]. intros r Hr ->. destruct (Hr eq_refl) as [(clock & j & Hj & Hjv) | (_ & Hf & _)].
    + left. exists clock, j. split; [by right | done].
    + by destruct first.
  - intros _. left. eexists _, i. split; [by left | exact Hv].
Qed.

Lemma answers_validate role c text : jp_ExpectedIssuers (policy_of validator role) ≠ [] →
  answers (λ r, ∀ t, r = Ok t → verified role c text t) (validate_token validator role c text).
Proof.
  intros Hne. unfold validate_token.
  assert (∀ stage name unavailable rejected, answers (λ r, ∀ t, r = Ok t → verified role c text t)
    (if decide (text = "") then mret (Err (malformed name))
     else keys ← port (ip_GetKeySet role c);
          match keys with
          | Err err => ended ← ctx_Err c;
              mret (Err (match ended with
                   | Some x => WithDiagnostic (NewDiagnostic stage DetailCallerCanceled)
                                 (NewServerErrorWithCause unavailable (if is_ctx_error x err then err else EJoin err (ECtx x)))
                   | None => WithDiagnostic (NewDiagnostic stage DetailJWKSUnavailable) (NewServerErrorWithCause unavailable err)
                   end))
          | Ok keys => r ← parseWithPolicy validator text keys (policy_of validator role);
              mret match r with Ok t => Ok t | Err e => Err (rejected e) end
          end)) as Hgen.
  { intros stage name unavailable rejected. case_decide; ask; [done |]. apply answers_port. intros e.
    destruct (ip_GetKeySet role c e).2 as [keys | err] eqn:Hkeys; ask.
    - unfold parseWithPolicy. destruct (jwx_ParseString text keys) as [tok | err] eqn:Hparse; ask; [| done].
      eapply answers_mono; [| apply answers_issuers]. intros r Hr. ask. destruct r as [err |]; ask; [done |].
      intros t [= <-]. destruct (Hr eq_refl) as [(clock & i & Hi & Hv) | (Hnil & _)]; [| done]. by exists e, keys, clock, i.
    - eapply answers_mono; [| apply answers_any]. intros ended _. done. }
  destruct role; apply Hgen.
Qed.

(** *** The policies *)

Definition evaluates (program : cel_program) (vars : cel_vars) (v : cel_value) : Prop :=
  ∃ e, (ip_Eval program vars (ce_evaluationTimeout evaluator) e).2 = Some (Ok v).

Lemma answers_eval program vars : answers (λ r, ∀ v, r = Ok v → evaluates program vars v) (evaluateWithTimeout evaluator program vars).
Proof.
  unfold evaluateWithTimeout. ask. apply answers_port. intros e.
  destruct (ip_Eval program vars (ce_evaluationTimeout evaluator) e).2 as [r |] eqn:Hr; ask; [| done].
  intros v ->. by exists e.
Qed.

Lemma answers_extract program failed wrong empty claims :
  answers (λ r, ∀ s, r = Ok s → s ≠ "" ∧ evaluates program (subject_vars claims) (CelString s))
    (extract evaluator program failed wrong empty claims).
Proof.
  unfold extract. ask. eapply answers_mono; [| apply answers_eval]. intros r Hr. ask. intros s.
  destruct r as [[s' | |] |]; try done. case_decide; [done |]. intros [= <-]. split; [done | by apply Hr].
Qed.

(** The principal and the agent a subject token speaks for. *)
Definition speaks_for (claims : gmap string claim) (principal : Principal) (agentID : string) : Prop :=
  principal ≠ "" ∧ evaluates (ce_principalProgram evaluator) (subject_vars claims) (CelString principal) ∧
  evaluates (ce_agentSubjectProgram evaluator) (subject_vars claims) (CelBool false) ∧
  evaluates (ce_agentIDProgram evaluator) (subject_vars claims) (CelString agentID).

Lemma answers_human claims :
  answers (λ r, ∀ agentID, r.2 = Ok agentID → speaks_for claims r.1 agentID) (ResolveHumanSubject evaluator claims).
Proof.
  unfold ResolveHumanSubject. ask. eapply answers_mono; [| apply answers_extract]. intros [principal | e] Hp; ask; [| done].
  destruct (Hp principal eq_refl) as [Hne Hev]. unfold IsAgentSubject. ask. eapply answers_mono; [| apply answers_eval].
  intros r Hr. ask. destruct r as [[| b |] |]; ask; try done. destruct b; ask; [done |].
  eapply answers_mono; [| apply answers_extract]. intros r' Hr'. ask. intros agentID Ha. simpl in Ha.
  destruct (Hr' agentID Ha) as [_ Hid]. split_and!; [done | done | by apply Hr | done].
Qed.

Lemma answers_client client subject request :
  answers (λ r, r = Ok true → evaluates (ce_authorizationProgram evaluator) (CelVars subject (Some client) (Some request)) (CelBool true))
    (AuthorizePrivilegedClient evaluator client subject request).
Proof.
  unfold AuthorizePrivilegedClient. ask. eapply answers_mono; [| apply answers_eval]. intros r Hr. ask.
  destruct r as [[| b |] |]; try done. destruct b; [| done]. intros _. by apply Hr.
Qed.

(** *** The grant *)

(** The grant gives the agent these scopes of the service, for the permission sets as they
    are stored. *)
Record covers (cv_sets : list PermissionSet) (grant : UserGrant) (agent : Agent) (svc : ServiceID) (scopes : list string) : Prop := Covers {
  cv_stored : ∃ e, (ep_ps_GetByIDs (ge_PermissionSetID <$> ug_GrantedPermissionSets grant) e).2 = Ok cv_sets;
  cv_known e : e ∈ ug_GrantedPermissionSets grant →
    ge_PermissionSetID e ∈ aps_PermissionSetID <$> ag_PermissionSets agent ∧ is_Some (set_index cv_sets !! ge_PermissionSetID e);
  cv_granted : service_granted svc (set_index cv_sets) (included_index grant) (ug_GrantedPermissionSets grant);
  cv_exact s : s ∈ scopes ↔
    granted_scope (set_index cv_sets) (included_index grant) (ug_GrantedPermissionSets grant) svc s ∧ admits agent svc s;
  cv_order : NoDup scopes ∧ Sorted String.le scopes;
}.

Lemma coverage_covers requested sets index agent entries v :
  cover requested sets index entries (Coverage ∅ false false) = Some v → coverage_detail agent requested v = DetailNone →
  ∃ l, effective_scopes agent (cv_scopes v) !! requested = Some l ∧ NoDup l ∧ Sorted String.le l ∧
    service_granted requested sets index entries ∧
    ∀ s, s ∈ l ↔ granted_scope sets index entries requested s ∧ admits agent requested s.
Proof.
  intros Hc Hd. apply cover_spec in Hc as (Hs & Hdef & Hsane & _). unfold coverage_detail in Hd.
  destruct (cv_included v); [| done]. destruct (cv_defined v) eqn:Hv; [| done]. simpl in Hd.
  destruct Hsane as [scopes Hscopes]; [done | done |]. rewrite Hscopes in Hd.
  destruct (cap agent requested scopes) as [l | d] eqn:Hcap.
  - exists l. unfold effective_scopes. rewrite map_lookup_imap, Hscopes. simpl. rewrite Hcap. split; [done |].
    apply cap_spec in Hcap as (? & ? & Hin & _). split_and!; [done | done | |].
    + by destruct (proj1 Hdef eq_refl).
    + intros s. rewrite Hin. specialize (Hs requested s). unfold scopes_of in Hs. rewrite Hscopes in Hs. cbn in Hs. rewrite lookup_empty in Hs. cbn in Hs.
      rewrite Hs. set_solver.
  - unfold cap in Hcap. repeat case_match; simplify_eq.
Qed.

Lemma answers_scopes grant agent svc :
  answers (λ r, ∀ m, r = Ok (m, DetailNone) → ∃ sets, covers sets grant agent svc (default [] (m !! svc)))
    (resolveEffectiveScopes cfg grant agent svc).
Proof.
  unfold resolveEffectiveScopes. destruct (forallb _ _) eqn:Hdecl; cbn [negb]; ask; [| done]. apply answers_port. intros e.
  destruct (ep_ps_GetByIDs _ e).2 as [sets | k] eqn:Hsets; ask; [| done]. destruct (cover _ _ _ _ _) as [v |] eqn:Hc; [| done].
  intros m [= <- Hd]. destruct (coverage_covers _ _ _ _ _ _ Hc Hd) as (l & -> & Hnd & Hsort & Hsvc & Hex). simpl.
  exists sets. split; [by exists e | | done | done | done]. intros x Hx. split.
  - rewrite forallb_forall in Hdecl. specialize (Hdecl (ge_PermissionSetID x)). rewrite bool_decide_eq_true in Hdecl. apply Hdecl.
    apply list_elem_of_In, list_elem_of_fmap. by exists x.
  - apply cover_spec in Hc as (_ & _ & _ & Hall). by apply Hall.
Qed.

(** *** The request *)

(** The user's grant to the agent exists and has not expired at a time read after it. *)
Definition grant_current (principal : Principal) (agentID : AgentID) (grant : UserGrant) : Prop :=
  ∃ e e', (ep_grant_Find principal agentID e).2 = Ok grant ∧ grant_expired (tp_now e').2 grant = false.

Lemma answers_grant principal service agent :
  answers (λ r, ∀ a, r.2 = Ok a → az_principal a = principal ∧ az_service a = service ∧ az_agent a = agent ∧
      grant_current principal (ag_ID agent) (az_grant a) ∧ ∃ sets, covers sets (az_grant a) agent (pe_ID service) (az_scopes a))
    (authorize_grant cfg principal service agent).
Proof.
  unfold authorize_grant. ask. apply answers_port. intros e. ask. apply answers_port. intros e'. ask.
  destruct (VerifyAgentAccess _ _) as [grant | err] eqn:Hv; [| destruct err; ask; done].
  assert (grant_current principal (ag_ID agent) grant) as Hcur.
  { unfold VerifyAgentAccess in Hv. exists e, e'. destruct (ep_grant_Find principal (ag_ID agent) e).2 as [g | k]; [| by destruct k].
    destruct (grant_expired _ g) eqn:Hexp; [done |]. by injection Hv as <-. }
  case_decide; ask; [done |]. eapply answers_mono; [| apply answers_scopes]. intros [[m d] | err] Hr; ask; [| done].
  intros a. simpl. case_bool_decide; [| done]. subst d. intros [= <-]. simpl. split_and!; try done. by apply Hr.
Qed.

(** An authorized request: what was found, and why it is allowed. *)
Record authorized_ok (c : ctx) (req : TokenExchangeRequest) (a : authorized) : Prop := AuthorizedOk {
  ao_request : request_Validate req = Ok ();
  ao_parties : ∃ subject client agentID i e,
    verified SubjectToken c (tr_SubjectToken req) subject ∧
    verified ClientAssertionToken c (tr_ClientAssertion req) client ∧
    speaks_for (FromToken subject) (az_principal a) agentID ∧
    evaluates (ce_authorizationProgram evaluator)
      (CelVars (FromToken subject) (Some (FromToken client)) (Some (request_context req (az_principal a) agentID))) (CelBool true) ∧
    uuid_Parse agentID = Some i ∧ (ep_agent_Get i e).2 = Ok (az_agent a);
  ao_service : ∃ e, (ep_FindByProtectedResource (NormalizeResourceURI (tr_Resource req)) e).2 = Ok (az_service a);
  ao_grant : grant_current (az_principal a) (ag_ID (az_agent a)) (az_grant a);
  ao_covers : ∃ sets, covers sets (az_grant a) (az_agent a) (pe_ID (az_service a)) (az_scopes a);
}.

Lemma answers_access principal agentID resource :
  answers (λ r, ∀ a, r.2 = Ok a → az_principal a = principal ∧
      (∃ i e, uuid_Parse agentID = Some i ∧ (ep_agent_Get i e).2 = Ok (az_agent a)) ∧
      (∃ e, (ep_FindByProtectedResource (NormalizeResourceURI resource) e).2 = Ok (az_service a)) ∧
      grant_current principal (ag_ID (az_agent a)) (az_grant a) ∧
      ∃ sets, covers sets (az_grant a) (az_agent a) (pe_ID (az_service a)) (az_scopes a))
    (authorize_access cfg principal agentID resource).
Proof.
  unfold authorize_access. ask. apply answers_port. intros e.
  destruct (ep_FindByProtectedResource _ e).2 as [service | err] eqn:Hservice; ask; [| case_bool_decide; ask; done].
  destruct (uuid_Parse agentID) as [i |] eqn:Hi; ask; [| done]. apply answers_port. intros e'.
  destruct (ep_agent_Get i e').2 as [agent | k] eqn:Hagent; ask; [| destruct k; ask; done].
  eapply answers_mono; [| apply answers_grant]. intros [grant [a | err]] Hr; ask; [| done].
  intros a' [= <-]. destruct (Hr a eq_refl) as (Hp & Hs & Ha & Hg & Hc). subst service agent.
  split_and!; [done | by exists i, e' | by exists e | done | done].
Qed.

Lemma answers_request c req :
  jp_ExpectedIssuers (jv_subjectTokenPolicy validator) ≠ [] → jp_ExpectedIssuers (jv_clientAssertionPolicy validator) ≠ [] →
  answers (λ r, ∀ a, r.2 = Ok a → authorized_ok c req a) (authorize_request cfg validator evaluator c req).
Proof.
  intros Hsubject Hclient. unfold authorize_request. ask. eapply answers_mono; [| apply answers_any]. intros ended _.
  destruct ended; ask; [done |]. destruct (request_Validate req) as [[] | err] eqn:Hreq; ask; [| done].
  eapply answers_mono; [| by apply (answers_validate SubjectToken)]. intros [subject | err] Hsub; ask; [| done].
  eapply answers_mono; [| by apply (answers_validate ClientAssertionToken)]. intros [client | err] Hcl; ask; [| done].
  eapply answers_mono; [| apply answers_human]. intros [principal [agentID | err]] Hp; ask; [| done].
  eapply answers_mono; [| apply answers_client]. intros [[|] | err] Hok; ask; [| done | done].
  eapply answers_mono; [| apply answers_access]. intros [obs [a | err]] Hr a' Ha; [| done]. injection Ha as <-.
  destruct (Hr a eq_refl) as (<- & (i & e & Hi & He) & Hs & Hg & Hc). split; [done | | done | done | done].
  exists subject, client, agentID, i, e. split_and!; [by apply Hsub | by apply Hcl | by apply (Hp agentID) | by apply Hok | done | done].
Qed.

(** *** The response *)

(** A session whose refresh token was not rejected, and its access token in plaintext. *)
Definition session_token (session : UserSession) (token : string) : Prop :=
  RefreshRejected session = false ∧ decrypts_to (us_ServiceID session) (us_EncryptedAccessToken session) token.

Abbreviation token_result := (λ r : result go_error (UserSession * string * bool),
  ∀ session token submitted, r = Ok (session, token, submitted) → session_token session token).

Lemma returns_caller_cancel {A} (Q : result go_error A → Prop) key c o (r : result go_error A) : (∀ x, Q (Err x)) → Q r →
  returns Q (lift (E:=E) key (on_caller_cancel c o (mret r))).
Proof.
  intros HQ Hr. apply returns_lift. unfold on_caller_cancel. ask. destruct r; ask; [done |].
  eapply answers_mono; [| apply answers_any]. intros ended _. ask. apply HQ.
Qed.

Lemma returns_decrypt {A} (Q : A → Prop) key session (g : result go_error string → lprog (session_world E) A) :
  (∀ r, (∀ token, r = Ok token → decrypts_to (us_ServiceID session) (us_EncryptedAccessToken session) token) → returns Q (g r)) →
  returns Q (lift key (DecryptAccessToken session) ≫= g).
Proof.
  intros Hg. eapply (returns_seq (λ r, ∀ token, r = Ok token → decrypts_to (us_ServiceID session) (us_EncryptedAccessToken session) token)); [| apply Hg].
  apply returns_lift. unfold DecryptAccessToken. apply answers_port. intros e token He. by exists e.
Qed.

Lemma GetValidAccessToken_returns c principal serviceID flight :
  returns token_result (GetValidAccessToken cfg c principal serviceID flight).
Proof.
  unfold GetValidAccessToken. eapply (returns_seq token_result); [| intros r Hr; by apply returns_caller_cancel].
  assert (∀ key (e : prog (wire E) OperationError), returns token_result (lfail key e)) as Hfail by (intros; by apply returns_lfail).
  assert (∀ key session operation (submitted : prog (wire E) bool), RefreshRejected session = false →
    returns token_result (token ← lift key (DecryptAccessToken session);
      match token with
      | Err e => lfail key (sessionOperationError c operation Session.DetailDecryptionFailed e)
      | Ok token => submitted ← lift key submitted; mret (Ok (session, token, submitted : bool))
      end)) as Hdecrypt.
  { intros key session operation submitted Hrej. apply returns_decrypt. intros [token | e] Hd; [| done].
    apply returns_bind. intros b s t b' [= <- <- <-]. split; [done | by apply Hd]. }
  apply returns_bind. intros [e |]; [done |]. apply returns_bind. intros [[session |] | k]; [| done | done].
  destruct (RefreshRejected session) eqn:Hrej; [done |]. apply returns_bind. intros t.
  destruct (HasValidAccessToken t session); [by apply Hdecrypt |]. apply returns_bind. intros [e |]; [done |].
  destruct flight as [[result err] | e]; [| done]. apply returns_bind. intros [e |]; [done |].
  destruct err as [e |]; [by intros ? | ]. destruct (fl_session result) as [current |]; [| done].
  destruct (RefreshRejected current) eqn:Hcur; [done |]. by apply Hdecrypt.
Qed.

(** What a response says, for an authorized request and the session it used. *)
Record response_ok (a : authorized) (session : UserSession) (r : TokenExchangeResponse) : Prop := ResponseOk {
  ro_token : session_token session (xr_AccessToken r);
  ro_scopes s : s ∈ az_scopes a → s ∈ us_Scope session;
  ro_described : xr_Scope r = String.concat " " (us_Scope session) ∧ xr_IssuedTokenType r = AccessTokenType;
  ro_parties : xr_Principal r = az_principal a ∧ xr_AgentID r = ag_ID (az_agent a) ∧ xr_Service r = pe_ID (az_service a);
}.

Lemma answers_respond a session token : session_token session token →
  answers (λ r, ∀ x, r = Ok x → response_ok a session x) (respond cfg a session token).
Proof.
  intros Ht. unfold respond. destruct (forallb _ _) eqn:Hs; cbn [negb]; ask; [| done].
  eapply answers_mono; [| apply answers_any]. intros expiresIn _. ask. intros x [= <-]. split; [done | | done | done].
  intros s Hin. rewrite forallb_forall in Hs. by apply (bool_decide_eq_true_1 _ (Hs s (proj1 (list_elem_of_In _ _) Hin))).
Qed.

Definition exchange_result (c : ctx) (req : TokenExchangeRequest) (r : result TokenExchangeError TokenExchangeResponse) : Prop :=
  ∀ response, r = Ok response → ∃ a session, authorized_ok c req a ∧ response_ok a session response.

Lemma Exchange_returns c req flight :
  jp_ExpectedIssuers (jv_subjectTokenPolicy validator) ≠ [] → jp_ExpectedIssuers (jv_clientAssertionPolicy validator) ≠ [] →
  returns (exchange_result c req) (Exchange cfg validator evaluator c req flight).
Proof.
  intros Hs Hc. unfold Exchange. eapply returns_seq; [apply returns_lift, answers_request; done |].
  intros [obs [a | e]] Ha; [| by apply returns_bind; intros failure ?]. specialize (Ha a eq_refl).
  eapply returns_seq; [apply GetValidAccessToken_returns |]. intros [[[session token] submitted] | e] Ht;
    [| by apply returns_bind; intros failure ?].
  eapply returns_seq; [apply returns_lift, answers_respond; by eapply Ht |]. intros [response | e] Hr;
    [| by apply returns_bind; intros failure ?].
  intros x [= <-]. exists a, session. split; [done | by apply Hr].
Qed.

Lemma normalized_issuers p p' : normalizeValidationPolicy p = Some p' → jp_ExpectedIssuers p' ≠ [].
Proof.
  unfold normalizeValidationPolicy. intros Hn. destruct (negb (jp_has_provider p)); [done |].
  destruct (distinct_issuers [] (jp_ExpectedIssuers p)) as [[| i l] |]; [done | by injection Hn as <- | done].
Qed.
Lemma new_validator_issuers subject client audience skew v :
  NewJWTValidatorWithPolicies subject client audience skew = Ok v →
  jp_ExpectedIssuers (jv_subjectTokenPolicy v) ≠ [] ∧ jp_ExpectedIssuers (jv_clientAssertionPolicy v) ≠ [].
Proof.
  unfold NewJWTValidatorWithPolicies. destruct (normalizeValidationPolicy subject) as [s |] eqn:Hs; [| done].
  destruct (normalizeValidationPolicy client) as [c |] eqn:Hc; [| done]. repeat case_match; try done. intros [= <-]. simpl.
  apply normalized_issuers in Hs, Hc. unfold with_audience. split; (match goal with |- context [decide ?P] => by destruct (decide P) end).
Qed.

(** Claim C5.  Whatever runs next to it, an exchange answers with a token only when the
    request is authorized: both tokens verify for their trust anchors, the principal is not
    an agent, the policy admits the client, the resource resolves to the service, the
    principal's grant to the agent is current and covers the service; and the session has
    the scopes the grant and the agent's requirements give, a token that decrypts, and no
    rejected refresh token. *)
Theorem exchange_authorized subject client audience skew c req flight
    (pool pool' : lpool (session_world E) (result TokenExchangeError TokenExchangeResponse)) i response
    (Hnew : NewJWTValidatorWithPolicies subject client audience skew = Ok validator)
    (Hstart : lp_threads pool !! i = Some (Exchange cfg validator evaluator c req flight)) (Hrun : rtc lstep pool pool')
    (Hend : lp_threads pool' !! i = Some (LRet (Ok response))) :
  ∃ a session, authorized_ok c req a ∧ response_ok a session response.
Proof.
  apply new_validator_issuers in Hnew as [Hs Hc]. by eapply (returns_steps (exchange_result c req) pool pool');
    [| | apply Exchange_returns | |].
Qed.

(** *** What a denial reveals *)

(** Worlds that may differ in the sessions only. *)
Definition same_but_sessions (w1 w2 : session_world E) : Prop := sw_env w1 = sw_env w2.
#[local] Instance same_but_sessions_equiv : Equivalence same_but_sessions.
Proof. split; repeat intro; unfold same_but_sessions in *; congruence. Qed.

Lemma lrun_lift_same {A} key (p : prog (wire E) A) w1 w2 : same_but_sessions w1 w2 →
  (lrun (lift key p) w1).2 = (lrun (lift key p) w2).2 ∧ same_but_sessions (lrun (lift key p) w1).1 (lrun (lift key p) w2).1.
Proof.
  revert w1 w2. induction p as [a | X f k IH]; intros w1 w2 Hw; [done |]. cbn [lift lrun]. unfold on_wire. rewrite Hw.
  destruct (f (Wire (sw_env w2) [])) as [wi x]. by apply IH.
Qed.

Lemma lrun_lift_quiet {A} key (p : prog (wire E) A) w : sends (λ _, False) p →
  sw_repo (lrun (lift key p) w).1 = sw_repo w ∧ sw_log (lrun (lift key p) w).1 = sw_log w.
Proof.
  revert w. induction p as [a | X f k IH]; intros w Hp; [done |]. cbn [lift lrun]. unfold on_wire.
  destruct (Hp (Wire (sw_env w) [])) as [(l & Hl & HF) Hk]. destruct (f (Wire (sw_env w) [])) as [wi x]. cbn [fst snd] in *.
  destruct (IH x (SessionWorld (sw_repo w) (wr_env wi) (((λ '(r, o), Sent key r o) <$> wr_sent wi) ++ sw_log w))) as [Hr Hlog]; [done |].
  rewrite Hr, Hlog. simpl. rewrite Hl. destruct l as [| y l]; [done |]. by apply Forall_cons in HF as [[] _].
Qed.

(** Nothing before the session is looked at sends a request to a provider. *)
Ltac silent := repeat first
  [ solve [eauto 2 with sends nocore]
  | match goal with
    | |- sends _ (port _) => apply sends_port
    | |- sends _ (_ ≫= _) => apply sends_bind; [| intros ?]
    | |- sends _ (match ?x with _ => _ end) => destruct x
    end
  | progress (cbv zeta) ].

Lemma sends_validate_token P role c text : sends P (validate_token validator role c text).
Proof.
  assert (∀ t aud skew l f p, sends P (validate_issuers t aud skew l f p)) as Hi.
  { intros t aud skew l. induction l as [| i l IH]; intros f p; cbn [validate_issuers]; silent. }
  unfold validate_token, parseWithPolicy, ctx_Err. destruct role; silent; apply Hi.
Qed.
Lemma sends_human P claims : sends P (ResolveHumanSubject evaluator claims).
Proof. unfold ResolveHumanSubject, ExtractPrincipal, ExtractAgentID, IsAgentSubject, extract, evaluateWithTimeout. silent. Qed.
Lemma sends_access P principal agentID resource : sends P (authorize_access cfg principal agentID resource).
Proof. unfold authorize_access, authorize_grant, resolveEffectiveScopes. silent. Qed.
Lemma sends_authorize P c req : sends P (authorize_request cfg validator evaluator c req).
Proof.
  unfold authorize_request, ValidateSubjectToken, ValidateClientAssertion, AuthorizePrivilegedClient, evaluateWithTimeout, ctx_Err.
  silent; first [apply sends_validate_token | apply sends_human | apply sends_access].
Qed.
Lemma sends_observe P c obs e : sends P (observe c obs e).
Proof. unfold observe, ctx_Err. silent. Qed.

(** A failure keeps its code when it is observed. *)
Lemma answers_observe c obs (e : TokenExchangeError) :
  answers (λ f, te_code (ter_fields f) = te_code (ter_fields e)) (observe c obs (token_error e)).
Proof. unfold observe. ask. eapply answers_mono; [| apply answers_any]. intros ended _. by ask. Qed.

Lemma session_failure_code serviceID e : te_code (ter_fields (session_failure cfg serviceID e)) ≠ "access_denied".
Proof. unfold session_failure. case_decide; done. Qed.

Lemma lrun_answers {A} (Q : A → Prop) key (p : prog (wire E) A) w : answers Q p → Q (lrun (lift key p) w).2.
Proof.
  revert w. induction p as [a | X f k IH]; intros w; [done |]. intros Hp. cbn [lift lrun]. unfold on_wire.
  specialize (Hp (Wire (sw_env w) [])). destruct (f (Wire (sw_env w) [])) as [wi x]. by apply IH.
Qed.

Lemma denial_observed c obs w (f e : TokenExchangeError) :
  te_code (ter_fields e) = "access_denied" → te_code (ter_fields f) ≠ "access_denied" →
  (let '(w, failure) := lrun (lift "" (observe c obs (token_error f))) w in
   lrun (mret (Err (A := TokenExchangeResponse) failure)) w).2 = Err e → False.
Proof.
  intros He Hf. pose proof (lrun_answers _ "" _ w (answers_observe c obs f)) as Hc. destruct (lrun (lift "" (observe c obs f)) w) as [w' x].
  simpl in *. intros [= ->]. congruence.
Qed.

(** An exchange that was authorized does not fail as a denial. *)
Lemma Exchange_denied c req flight w e :
  (lrun (Exchange cfg validator evaluator c req flight) w).2 = Err e → te_code (ter_fields e) = "access_denied" →
  ∃ obs x, (lrun (lift "" (authorize_request cfg validator evaluator c req)) w).2 = (obs, Err x).
Proof.
  unfold Exchange. rewrite lrun_bind.
  destruct (lrun (lift "" (authorize_request cfg validator evaluator c req)) w) as [w1 [obs [a | x]]]; [| by exists obs, x].
  intros He Hcode. exfalso. revert He. rewrite lrun_bind. destruct (lrun (GetValidAccessToken _ _ _ _ _) w1) as [w2 [[[session token] b] | x]].
  - rewrite lrun_bind. destruct (lrun (lift "" (respond cfg a session token)) w2) as [w3 r] eqn:Hr.
    assert (match r with Err x => ∃ f, x = token_error f ∧ te_code (ter_fields f) ≠ "access_denied" | Ok _ => True end) as Hx.
    { replace r with (lrun (lift "" (respond cfg a session token)) w2).2 by (by rewrite Hr). apply lrun_answers.
      unfold respond. destruct (negb _); ask; [by eexists |]. eapply answers_mono; [| apply answers_any]. intros ? _. by ask. }
    destruct r as [response | x]; [done |]. destruct Hx as (f & -> & Hf). rewrite lrun_bind. apply (denial_observed _ _ _ f); [done | done].
  - rewrite lrun_bind. apply (denial_observed _ _ _ (session_failure cfg _ x)); [done | apply session_failure_code].
Qed.

End authorized.

(** ** How a failure can be recovered from *)

Section recovery.
Context {E : Type} `{TokenPorts E} {GU : GoURL} {GN : GoNet} {UU : UUID} {PP : ProviderParsers}.
Context {JL : JWTLib} {CL : CELLib} {IP : InputPorts E} {EP : ExchangePorts E}.
Variable cfg : session_config.
Variable validator : JWTValidator.
Variable evaluator : CELEvaluator.

(** Who is sent to reconnect a service gets its authorization link, who is sent to consent
    gets the agent's consent page. *)
Definition recoverable (d : Diagnostic) (f : TokenExchangeFields) (service : ServiceID) (agent : AgentID) : Prop :=
  (dg_target d = TargetProviderSession → te_code f = "invalid_grant" ∧ te_errorURI f = ServiceAuthorizeURL cfg service) ∧
  (dg_target d = TargetConsent → te_code f = "access_denied" ∧ te_errorURI f = agentConsentURL cfg agent).

(** A diagnostic that sends the user nowhere. *)
Definition plain (d : Diagnostic) : Prop := dg_target d ≠ TargetProviderSession ∧ dg_target d ≠ TargetConsent.
Definition plain_error (x : go_error) : Prop := match as_token x with Some (f, _) => plain (error_diagnostic f) | None => True end.

(** What resource lookup and policy evaluation fail with sends the user nowhere. *)
Hypothesis resource_plain : ∀ r e x, (ep_FindByProtectedResource r e).2 = Err x → plain_error x.
Hypothesis eval_plain : ∀ p v d e x, (ip_Eval p v d e).2 = Some (Err x) → plain_error x.

Definition fault (obs : observation) (x : go_error) : Prop :=
  match as_token x with
  | Some (f, _) => recoverable (error_diagnostic f) f (ob_service obs) (ob_agent obs)
  | None => True
  end.

Lemma plain_fault obs x : plain_error x → fault obs x.
Proof. unfold plain_error, fault. destruct (as_token x) as [[f o] |]; [| done]. intros [H1 H2]. split; intros; tauto. Qed.
Lemma token_plain (t : TokenExchangeError) : plain (error_diagnostic (ter_fields t)) → plain_error (token_error t).
Proof. done. Qed.

Abbreviation plainly := (λ r, match r with Err t => plain_error (token_error t) | Ok _ => True end).

Lemma plain_eval d s x : plain_error x → plain_error (token_error (celEvaluationError d s x)).
Proof.
  unfold celEvaluationError, plain_error. destruct (as_token x) as [[f o] |]; [| by destruct s].
  intros Hx. case_decide; [by destruct s | exact Hx].
Qed.

Lemma plain_eval_run program vars :
  answers (λ r, match r with Err x => plain_error x | Ok _ => True end) (evaluateWithTimeout evaluator program vars).
Proof.
  unfold evaluateWithTimeout. ask. apply answers_port. intros e.
  destruct (ip_Eval program vars (ce_evaluationTimeout evaluator) e).2 as [[v | x] |] eqn:Hr; ask; [done | by eapply eval_plain | done].
Qed.

Lemma plain_extract program a b c claims : answers plainly (extract evaluator program a b c claims).
Proof.
  unfold extract. ask. eapply answers_mono; [| apply plain_eval_run]. intros [[s | |] | x] Hx; ask; [by case_decide | done | done | by apply plain_eval].
Qed.

Lemma plain_human claims : answers (λ r, plainly r.2) (ResolveHumanSubject evaluator claims).
Proof.
  unfold ResolveHumanSubject. ask. eapply answers_mono; [| apply plain_extract]. intros [principal | t] Ht; ask; [| done].
  unfold IsAgentSubject. ask. eapply answers_mono; [| apply plain_eval_run]. intros [[s | b |] | x] Hx; ask; try done.
  - destruct b; ask; [done |]. eapply answers_mono; [| apply plain_extract]. intros r Hr. by ask.
  - by apply (plain_eval "agent-subject detection failed" StageIdentityResolution) in Hx.
Qed.

Lemma plain_client client subject request : answers plainly (AuthorizePrivilegedClient evaluator client subject request).
Proof.
  unfold AuthorizePrivilegedClient. ask. eapply answers_mono; [| apply plain_eval_run].
  intros [[s | [|] |] | x] Hx; ask; try done. by apply plain_eval.
Qed.

Lemma plain_validate role c text : answers plainly (validate_token validator role c text).
Proof.
  unfold validate_token. destruct role; cbv iota beta; (case_decide; ask; [done |]); apply answers_port; intros e;
    (destruct (ip_GetKeySet _ c e).2 as [keys | x]; ask;
     [eapply answers_mono; [| apply answers_any]; intros [t | x] _; ask; [done |]; unfold mapParseError, mapClientAssertionParseError; by case_match
     | eapply answers_mono; [| apply answers_any]; intros [x' |] _; by ask]).
Qed.

Lemma plain_request req : plainly (request_Validate req).
Proof.
  unfold request_Validate. repeat match goal with |- context [if ?b then _ else _] => destruct b end; try done.
Qed.

Lemma grant_denied_fault obs description detail : dg_target (NewDiagnostic StageGrantAuthorization detail) = TargetConsent →
  fault obs (token_error (grant_denied cfg (ob_agent obs) description detail)).
Proof.
  intros Ht. change (recoverable (NewDiagnostic StageGrantAuthorization detail) (ter_fields (grant_denied cfg (ob_agent obs) description detail))
    (ob_service obs) (ob_agent obs)).
  split; [rewrite Ht; discriminate | done].
Qed.

Lemma coverage_detail_consent agent requested v : coverage_detail agent requested v ≠ DetailNone →
  dg_target (NewDiagnostic StageGrantAuthorization (coverage_detail agent requested v)) = TargetConsent.
Proof.
  unfold coverage_detail. destruct (negb (cv_included v)); [done |]. destruct (negb (cv_defined v)); [done |].
  destruct (cv_scopes v !! requested) as [scopes |]; [| done]. unfold cap.
  repeat match goal with |- context [if ?b then _ else _] => destruct b end; done.
Qed.

Lemma fault_scopes grant agent svc obs : ob_agent obs = ag_ID agent →
  answers (λ r, match r with
                | Err t => fault obs (token_error t)
                | Ok (m, d) => d ≠ DetailNone → dg_target (NewDiagnostic StageGrantAuthorization d) = TargetConsent
                end) (resolveEffectiveScopes cfg grant agent svc).
Proof.
  intros Ho. unfold resolveEffectiveScopes. destruct (forallb _ _); cbn [negb]; ask; [| rewrite <-Ho; by apply grant_denied_fault].
  apply answers_port. intros e. destruct (ep_ps_GetByIDs _ e).2 as [sets | k]; ask; [| by apply plain_fault].
  destruct (cover _ _ _ _ _) as [v |]; [apply coverage_detail_consent | rewrite <-Ho; by apply grant_denied_fault].
Qed.

Lemma fault_grant principal service agent obs : ob_agent obs = ag_ID agent →
  answers (λ r, match r.2 with Err t => fault obs (token_error t) | Ok _ => True end) (authorize_grant cfg principal service agent).
Proof.
  intros Ho. unfold authorize_grant. ask. apply answers_port. intros e. ask. apply answers_port. intros e'. ask.
  assert (∀ d detail, dg_target (NewDiagnostic StageGrantAuthorization detail) = TargetConsent →
    fault obs (token_error (grant_denied cfg (ag_ID agent) d detail))) as Hdenied by (rewrite <-Ho; apply grant_denied_fault).
  assert (∀ x d detail, dg_target (NewDiagnostic StageGrantAuthorization detail) = TargetConsent →
    fault obs (token_error (WithCause x (grant_denied cfg (ag_ID agent) d detail)))) as Hcause by (intros x; exact Hdenied).
  destruct (VerifyAgentAccess _ _) as [grant | err].
  - case_decide; ask; [by apply Hdenied |]. eapply answers_mono; [| by apply fault_scopes]. intros [[m d] | t] Hr; ask; [| done].
    simpl. case_bool_decide; simpl; [done |]. by apply Hdenied, Hr.
  - destruct err; ask; first [by apply Hcause | by apply plain_fault].
Qed.

Lemma fault_access principal agentID resource :
  answers (λ r, match r.2 with Err x => fault r.1 x | Ok _ => True end) (authorize_access cfg principal agentID resource).
Proof.
  unfold authorize_access. ask. apply answers_port. intros e.
  destruct (ep_FindByProtectedResource _ e).2 as [service | x] eqn:Hservice; ask.
  2: { case_bool_decide; ask; [by eapply plain_fault, resource_plain | by apply plain_fault]. }
  destruct (uuid_Parse agentID) as [i |]; ask; [| by apply plain_fault]. apply answers_port. intros e'.
  destruct (ep_agent_Get i e').2 as [agent | k]; ask; [| by destruct k; ask; apply plain_fault].
  eapply answers_mono; [| apply (fault_grant principal service agent (Observed StageGrantAuthorization (pe_ID service) (ag_ID agent) None)); done].
  intros [grant [a | t]] Hr; ask; [done | exact Hr].
Qed.

Lemma fault_request c req :
  answers (λ r, match r.2 with Err x => fault r.1 x | Ok _ => True end) (authorize_request cfg validator evaluator c req).
Proof.
  unfold authorize_request. ask. eapply answers_mono; [| apply answers_any]. intros ended _.
  destruct ended; ask; [by apply plain_fault |]. pose proof (plain_request req) as Hreq.
  destruct (request_Validate req) as [[] | t]; ask; [| by apply plain_fault].
  eapply answers_mono; [| apply (plain_validate SubjectToken)]. intros [subject | t] Hsub; ask; [| by apply plain_fault].
  eapply answers_mono; [| apply (plain_validate ClientAssertionToken)]. intros [client | t] Hcl; ask; [| by apply plain_fault].
  eapply answers_mono; [| apply plain_human]. intros [principal [agentID | t]] Hp; ask; [| by apply plain_fault].
  eapply answers_mono; [| apply plain_client]. intros [[|] | t] Hok; ask; [apply fault_access | by apply plain_fault | by apply plain_fault].
Qed.

(** The failure of an exchange: always diagnosed, and recoverable. *)
Definition failure_ok (t : TokenExchangeError) : Prop :=
  ∃ d, te_diagnostic (ter_fields t) = Some d ∧
    recoverable d (ter_fields t) (te_service (ter_fields t)) (ref_AgentID (te_authorization (ter_fields t))).

Lemma plain_recoverable d f service agent : plain d → recoverable d f service agent.
Proof. intros [H1 H2]. by split; intros ?. Qed.

Lemma observed_ok c obs x : fault obs x → answers failure_ok (observe c obs x).
Proof.
  intros Hx. unfold observe. ask. eapply answers_mono; [| apply answers_any]. intros ended _.
  set (fc := match as_token x with Some x => x | None => _ end).
  assert (recoverable (error_diagnostic fc.1) fc.1 (ob_service obs) (ob_agent obs)) as Hf.
  { unfold fault in Hx. subst fc. destruct (as_token x) as [[f o] |]; [exact Hx | by apply plain_recoverable]. }
  destruct fc as [f cause]. ask. eexists. split; [done |].
  replace (ref_AgentID (te_authorization _)) with (ob_agent obs) by (simpl; by destruct (ob_grant obs)). cbn [te_service ter_fields WithObservation].
  set (d := if decide _ then _ else error_diagnostic f).
  assert (recoverable d f (ob_service obs) (ob_agent obs)) as Hd by (subst d; case_decide; [by apply plain_recoverable | done]).
  destruct ended as [y |]; [| exact Hd]. destruct (is_ctx_error y x && _); [by apply plain_recoverable | exact Hd].
Qed.

Lemma session_diagnostic_target x :
  dg_target (sessionDiagnostic x) ≠ TargetConsent ∧
  (dg_target (sessionDiagnostic x) = TargetProviderSession → dg_outcome (sessionDiagnostic x) = OutcomeReauthRequired).
Proof.
  unfold sessionDiagnostic. destruct (as_operation x) as [m |]; [| done].
  destruct (Session.em_detail m); simpl; try done. by destruct (as_credential_source x) as [[] |].
Qed.

Lemma session_failure_fault obs x : fault obs (token_error (session_failure cfg (ob_service obs) x)).
Proof.
  destruct (session_diagnostic_target x) as [Hc Hs]. unfold session_failure. case_decide as Ho.
  - change (recoverable (sessionDiagnostic x) (ter_fields (WithErrorURI (ServiceAuthorizeURL cfg (ob_service obs))
      (NewInvalidGrantError "provider session is missing or unusable; re-authentication required"))) (ob_service obs) (ob_agent obs)).
    by split.
  - apply plain_fault. split; [intros Ht; by apply Ho, Hs | exact Hc].
Qed.

Abbreviation exchange_failure_ok := (λ r : result TokenExchangeError TokenExchangeResponse,
  match r with Err t => failure_ok t | Ok _ => True end).

Lemma observe_returns c obs x : fault obs x →
  returns exchange_failure_ok (failure ← lift "" (observe c obs x); mret (M := lprog (session_world E)) (Err failure)).
Proof. intros Hx. eapply returns_seq; [by apply returns_lift, observed_ok | done]. Qed.

Lemma Exchange_failures c req flight : returns exchange_failure_ok (Exchange cfg validator evaluator c req flight).
Proof.
  unfold Exchange. eapply returns_seq; [apply returns_lift, fault_request |]. intros [obs [a | x]] Hx; [| by apply observe_returns].
  apply returns_bind. intros [[[session token] b] | x].
  - eapply (returns_seq (λ r, match r with
      | Err x => fault (Observed StageScopeValidation (pe_ID (az_service a)) (ag_ID (az_agent a)) (Some (az_grant a))) x
      | Ok _ => True end)); [| intros [response | x] Hr; [done | by apply observe_returns]].
    apply returns_lift. unfold respond. destruct (negb _); ask; [done |].
    eapply answers_mono; [| apply answers_any]. intros expiresIn _. by ask.
  - apply observe_returns.
    apply (session_failure_fault (Observed StageSessionLookup (pe_ID (az_service a)) (ag_ID (az_agent a)) (Some (az_grant a)))).
Qed.

(** Every failed exchange carries a diagnostic; one that sends the user to
    reconnect the service is an invalid_grant with the service's authorization link, one
    that sends the user to consent is an access_denied with the agent's consent page, as
    long as resource lookup and policy evaluation do not invent such diagnostics. *)
Theorem exchange_failures_recoverable c req flight
    (pool pool' : lpool (session_world E) (result TokenExchangeError TokenExchangeResponse)) i t
    (Hstart : lp_threads pool !! i = Some (Exchange cfg validator evaluator c req flight)) (Hrun : rtc lstep pool pool')
    (Hend : lp_threads pool' !! i = Some (LRet (Err t))) :
  failure_ok t.
Proof. exact (returns_steps exchange_failure_ok pool pool' i _ _ Hrun Hstart (Exchange_failures c req flight) Hend). Qed.
End recovery.

(** ** A concrete deployment *)

Module ExchangeDemo.

#[global] Instance demo_UUID : UUID := Build_UUID Some "0".

(** Key sets are names; a token's text is its subject, and it is issued by "idp". *)
#[global] Instance demo_JWT : JWTLib := {|
  jwk_Set := string;
  jwx_ParseString text _ := Ok (JWTToken "idp" text ["broker"] 1000 0 0 "" [("azp", ClaimString "agent")]);
  jwx_Validate clock t issuer audience skew :=
    if bool_decide (jt_Issuer t = issuer) && bool_decide (audience ∈ jt_Audience t) &&
       bool_decide (clock < jt_Expiration t + skew)%Z then None else Some EInvalidIssuer;
|}.
(** Programs are their text. *)
#[global] Instance demo_CEL : CELLib := {|
  cel_ast := string;
  cel_program := string;
  cel_Compile _ s := Ok s;
  cel_OutputType _ := CelBoolType;
  cel_NativeRep _ := CSelect (CIdent "subject_token") "sub";
  cel_Program _ a := Ok a;
  operators_Index := "_[_]";
|}.

Definition eval (p : string) (v : cel_vars) : result go_error cel_value :=
  let field k := match cv_subject_token v !! k with Some (ClaimString s) => Ok (CelString s) | _ => Err EText end in
  if decide (p = DefaultPrincipalExpression) then field "sub"
  else if decide (p = DefaultAgentIDExpression) then field "azp"
  else if decide (p = DefaultAuthorizationExpression) then Ok (CelBool true)
  else Ok (CelBool false).
#[global] Instance demo_inputs : InputPorts unit := {|
  ip_GetKeySet _ _ _ := ((), Ok "keys");
  ip_Eval p v _ _ := ((), Some (eval p v));
|}.

Definition agent : Agent := simple_agent "agent" [] [{| aps_PermissionSetID := "ps"; aps_RequirementType := Mandatory |}] [].
Definition grant : UserGrant :=
  MkGrant "g" "alice" "agent" None [{| ge_PermissionSetID := "ps"; ge_IncludedServiceIDs := ["svc"] |}] 1 1.
Definition permission_set : PermissionSet :=
  {| ps_ID := "ps"; ps_CanonicalID := None; ps_ClearCanonicalID := false; ps_Name := "PS"; ps_Description := "";
     ps_ServiceScopes := [{| ss_ServiceID := "svc"; ss_Scopes := ["write"; "read"]; ss_RequirementType := Mandatory |}];
     ps_CreatedAt := 1; ps_UpdatedAt := 1 |}.
#[global] Instance demo_ports : ExchangePorts unit := {|
  ep_FindByProtectedResource _ _ := ((), Ok (ServiceSessions.Demo.service "S"));
  ep_agent_Get i _ := ((), if decide (i = "agent") then Ok agent else Err KNotFound);
  ep_grant_Find p a _ := ((), if decide (p = "alice" ∧ a = "agent") then Ok grant else Err KNotFound);
  ep_ps_GetByIDs _ _ := ((), Ok [permission_set]);
|}.

Definition policy : JWTValidationPolicy := JWTPolicy true ["other"; "idp"] "".
Definition validator : JWTValidator :=
  MkJWTValidator (JWTPolicy true ["other"; "idp"] "broker") (JWTPolicy true ["other"; "idp"] "broker") 60.
Definition evaluator : CELEvaluator :=
  MkEvaluator _ DefaultAgentSubjectExpression DefaultPrincipalExpression DefaultAgentIDExpression DefaultAuthorizationExpression
    (100 * 1000000).

Definition request (user : string) : TokenExchangeRequest :=
  TERequest TokenExchangeGrantType user AccessTokenType "gateway" JWTBearerType "https://api.example" "".

(** Alice is connected to the service; the token is valid for a while. *)
Definition session : UserSession :=
  set_tokens "access" (Some (90 * second)%Z) "refresh" None "Bearer" ["read"; "write"] 1 RefreshDemo.session.
Definition repo : UserSessionRepository := store_refreshed (session_key session) session NewUserSessionRepository.
Definition no_flight : (refreshFlightResult * option go_error) + ctx_error := inr Canceled.

Definition start (user : string) : lpool (session_world unit) (result TokenExchangeError TokenExchangeResponse) :=
  LPool (SessionWorld repo () []) ∅
    [Exchange RefreshDemo.toy_config validator evaluator (Ctx 1 false) (request user) no_flight].
Definition stop (user : string) := lschedule (replicate 60 0) (start user).

End ExchangeDemo.

Lemma exchange_authorized_witness :
  match lp_threads (ExchangeDemo.stop "alice") with
  | [LRet (Ok response)] =>
      xr_AccessToken response = "access" ∧
      ∃ a session, authorized_ok ExchangeDemo.validator ExchangeDemo.evaluator (Ctx 1 false)
                     (ExchangeDemo.request "alice") a ∧ response_ok a session response
  | _ => False
  end.
Proof.
  pose proof (λ response, exchange_authorized RefreshDemo.toy_config ExchangeDemo.validator ExchangeDemo.evaluator
    ExchangeDemo.policy ExchangeDemo.policy "broker" 60 (Ctx 1 false) (ExchangeDemo.request "alice") ExchangeDemo.no_flight
    (ExchangeDemo.start "alice") (ExchangeDemo.stop "alice") 0 response eq_refl eq_refl (lschedule_steps _ _)) as Hok.
  assert (match lp_threads (ExchangeDemo.stop "alice") with
          | [LRet (Ok r)] => bool_decide (xr_AccessToken r = "access") | _ => false end = true) as Hend by (vm_compute; reflexivity).
  destruct (lp_threads (ExchangeDemo.stop "alice")) as [| [[response | t] | | |] [|]]; try discriminate Hend.
  split; [exact (bool_decide_eq_true_1 _ Hend) | exact (Hok response eq_refl)].
Defined.


Lemma exchange_failures_recoverable_witness :
  match lp_threads (ExchangeDemo.stop "bob") with
  | [LRet (Err t)] => te_errorURI (ter_fields t) = "https://broker/agents/agent" ∧ failure_ok RefreshDemo.toy_config t
  | _ => False
  end.
Proof.
  assert (∀ p v d e x, (ip_Eval p v d e).2 = Some (Err x) → plain_error x) as Heval.
  { intros p v d e x. simpl. unfold ExchangeDemo.eval. repeat case_match; intros [= <-]; exact I. }
  assert (∀ r e x, (ep_FindByProtectedResource r e).2 = Err x → plain_error x) as Hresource by (intros r e x; discriminate).
  pose proof (λ t, exchange_failures_recoverable RefreshDemo.toy_config ExchangeDemo.validator ExchangeDemo.evaluator
    Hresource Heval (Ctx 1 false) (ExchangeDemo.request "bob") ExchangeDemo.no_flight
    (ExchangeDemo.start "bob") (ExchangeDemo.stop "bob") 0 t eq_refl (lschedule_steps _ _)) as Hok.
  assert (match lp_threads (ExchangeDemo.stop "bob") with
          | [LRet (Err t)] => bool_decide (te_errorURI (ter_fields t) = "https://broker/agents/agent") | _ => false end = true) as Hend
    by (vm_compute; reflexivity).
  destruct (lp_threads (ExchangeDemo.stop "bob")) as [| [[response | t] | | |] [|]]; try discriminate Hend.
  split; [exact (bool_decide_eq_true_1 _ Hend) | exact (Hok t eq_refl)].
Defined.
