(* ===== verification/AuthorizationFlow.v ===== *)
(** * Connecting to a service

    The authorization-code flow of internal/domain/oauth2session: the sealed state
    (state_token.go) and, from service.go, the authorization request, the exchange of the
    code and the callback that stores the session.  The oauth2 library, the sealing of the
    state (JWE) and query encoding are ports; log lines and audit records are left out. *)

From S2P Require Import Prelude ToolApproval ApprovalStore ApprovalHandlers OAuthSessions UserGrants Consent UriValidation NetPolicy Providers UserSessions BrokerErrors ServiceSessions SessionLocks ProviderTokens SessionRefresh.
Import Session.

(** ** The sealed state (state_token.go) *)

Record OAuth2StateTokenClaims := StateClaims {
  st_Principal : Principal;
  st_PKCEVerifier : string;
  st_ServiceID : ServiceID;
  st_IssuerURI : string;
  st_Resource : string;
  st_UpstreamClientID : option string;
  st_RedirectURI : string;
  st_ConsentStateID : string;
  st_SessionID : SessionID;
  st_SessionCallbackID : string;
  st_IssuedAt : time;
  st_ExpiresAt : time;
}.

Definition claims_Validate `{UUID} (c : OAuth2StateTokenClaims) : option go_error :=
  if negb (nonempty (st_Principal c)) || negb (nonempty (st_PKCEVerifier c)) || negb (nonzero_id (st_ServiceID c)) ||
     negb (Bool.eqb (nonempty (st_IssuerURI c)) (nonempty (st_Resource c))) then Some EText
  else if bool_decide (st_UpstreamClientID c = Some "") then Some (ECredentialSource IdentityMissing)
  else if negb (nonempty (st_RedirectURI c)) ||
          nonempty (st_ConsentStateID c) && bool_decide (uuid_Parse (st_ConsentStateID c) = None) ||
          IsZero (st_IssuedAt c) || IsZero (st_ExpiresAt c) then Some EText
  else None.

(** What the state says about the connection it renews or makes. *)
Definition connection_of (c : OAuth2StateTokenClaims) : connection :=
  Connection (st_SessionID c) (st_SessionCallbackID c) (st_UpstreamClientID c) (st_IssuerURI c) (st_Resource c).

Definition maxProviderStateBytes : Z := 6000.

(** ** The oauth2 library *)

Inductive auth_style := AuthStyleAutoDetect | AuthStyleInParams | AuthStyleInHeader.
#[export] Instance auth_style_eq_dec : EqDecision auth_style.
Proof. solve_decision. Defined.

Record oauth2_config := OAuth2Config {
  oc_ClientID : string;
  oc_ClientSecret : string;
  oc_RedirectURL : string;
  oc_Scopes : list string;
  oc_AuthURL : string;
  oc_TokenURL : string;
  oc_AuthStyle : auth_style;
}.
Definition set_client (i secret : string) (o : oauth2_config) : oauth2_config :=
  OAuth2Config i secret (oc_RedirectURL o) (oc_Scopes o) (oc_AuthURL o) (oc_TokenURL o) (oc_AuthStyle o).

Inductive code_option := VerifierOption (verifier : string) | SetAuthURLParam (name value : string).
#[export] Instance code_option_eq_dec : EqDecision code_option.
Proof. solve_decision. Defined.

(** [url.Values]. *)
Abbreviation url_values := (gmap string (list string)).

(** The code exchange, given the client the context carries; a sleep says whether the
    context's end woke it; [fp_Decrypt] opens what [fp_Encrypt] seals. *)
Class FlowPorts (E : Type) := {
  fp_GenerateVerifier : E → E * string;
  fp_Encrypt : OAuth2StateTokenClaims → E → E * result go_error string;
  fp_Decrypt : string → E → E * option OAuth2StateTokenClaims;
  fp_Exchange : http_client → oauth2_config → string → list code_option → E → E * result go_error oauth2_token;
  fp_Sleep : ctx → duration → E → E * bool;
  oauth2_AuthCodeURL : oauth2_config → string → string → string;
  url_Query : URL → url_values;
  url_Encode : url_values → string;
}.

(** The only error codes of a provider that leave the callback. *)
Definition safeAuthorizationErrorCode (code : string) : string :=
  if bool_decide (code ∈ ["invalid_request"; "unauthorized_client"; "access_denied"; "unsupported_response_type";
                          "invalid_scope"; "server_error"; "temporarily_unavailable"])
  then code else "callback_failed".

Definition safeTokenExchangeError (e : go_error) : OperationError :=
  let metadata :=
    match as_retrieve e with
    | None => NewErrorMetadata OperationCodeExchange DetailProviderUnavailable
    | Some (status, code) =>
        let status := default 0%Z status in
        let detail :=
          if is_server_busy status then DetailProviderUnavailable
          else if bool_decide (400 ≤ status ≤ 499)%Z && bool_decide (code ∈ ["invalid_client"; "unauthorized_client"])
          then DetailProviderClientRejected else DetailProviderRejected in
        WithProviderResponse status code (NewErrorMetadata OperationCodeExchange detail)
    end in
  OpErr metadata (EJoin (ESentinel ErrTokenExchange) e).

Definition safeDiscoveredTokenExchangeError (e : go_error) : go_error :=
  if is_ctx_error Canceled e then ECtx Canceled
  else if is_ctx_error DeadlineExceeded e then ECtx DeadlineExceeded
  else operation_error (OpErr (oe_metadata (safeTokenExchangeError e)) (ESentinel ErrTokenExchange)).

Definition tokenExchangeErrorIsPermanent (e : go_error) : bool :=
  match as_retrieve e with Some (_, code) => IsSafeOAuthErrorCode code | None => false end.

Definition shouldRetryTokenExchange (e : go_error) : bool :=
  match as_retrieve e with
  | Some (status, code) =>
      negb (bool_decide (code = "invalid_grant" ∨ code = "invalid_client")) &&
      match status with Some s => bool_decide (500 ≤ s < 600)%Z | None => false end
  | None => as_url_error e
  end.

(** [RetryBaseDelay * time.Duration(math.Pow(2, attempt))]; a power out of range converts to
    the least integer, as on amd64. *)
Definition exchange_delay (base : duration) (attempt : Z) : duration :=
  int64_wrap (base * (if bool_decide (attempt < 63)%Z then 2 ^ attempt else int64_min))%Z.

Section flow.
Context {E : Type} `{TokenPorts E} {GU : GoURL} {GN : GoNet} {UU : UUID} {PP : ProviderParsers} {FP : FlowPorts E}.
Variable cfg : session_config.

Abbreviation M := (prog (wire E)).
Abbreviation LM := (lprog (session_world E)).

Definition CreateStateToken (claims : OAuth2StateTokenClaims) : M (result go_error string) :=
  match claims_Validate claims with
  | Some e => mret (Err e)
  | None => port (fp_Encrypt claims)
  end.

Definition ValidateStateToken (tokenString : string) (currentPrincipal : Principal) (expectedServiceID : ServiceID)
    : M (result go_error OAuth2StateTokenClaims) :=
  let refuse s : M (result go_error OAuth2StateTokenClaims) := mret (Err (ESentinel s)) in
  if negb (nonempty tokenString) then refuse ErrInvalidStateToken
  else
    opened ← port (fp_Decrypt tokenString);
    match opened with
    | None => refuse ErrInvalidStateToken
    | Some claims =>
        match claims_Validate claims with
        | Some e => if bool_decide (is_Some (as_credential_source e)) then mret (Err (EJoin (ESentinel ErrInvalidStateToken) e))
                    else refuse ErrInvalidStateToken
        | None =>
            t ← now;
            if After t (st_ExpiresAt claims) then refuse ErrStateTokenExpired
            else if negb (bool_decide (st_Principal claims = currentPrincipal)) then refuse ErrPrincipalMismatch
            else if negb (bool_decide (st_ServiceID claims = expectedServiceID)) then refuse ErrServiceIDMismatch
            else mret (Ok claims)
        end
    end.

(** [None] is an error. *)
Definition buildOAuth2Config (e : provider) (callbackURL : string) : option oauth2_config :=
  match ValidateOutboundCredentials e with
  | None => None
  | Some e =>
      let config style := Some (OAuth2Config "" "" callbackURL (sc_ScopeValue <$> pe_Scopes e)
        (ep_AuthorizeEndpoint (pe_Endpoints e)) (ep_TokenEndpoint (pe_Endpoints e)) style) in
      if IsPublicClient e || IsCIMDConfidentialClient e then config AuthStyleInParams
      else if decide (dc_ClientMethod (pe_Discovery e) = ClientBootstrapDCR) then
        if decide (pe_TokenEndpointAuthMethod e = AuthMethodClientSecretBasic) then config AuthStyleInHeader
        else if decide (pe_TokenEndpointAuthMethod e = AuthMethodClientSecretPost) then config AuthStyleInParams
        else None
      else config AuthStyleAutoDetect
  end.

Definition callback_url (serviceID : ServiceID) : string :=
  sc_CallbackBaseURL cfg +:+ "/api/third-party/" +:+ serviceID +:+ "/oauth2/callback".

(** ** The authorization request *)

(** The query of the authorization URL: the library's, without the parameters of the
    service that it reserves, with the resource of a discovered service. *)
Definition authorization_query (e : provider) (query : url_values) : url_values :=
  let query := if decide (pe_Scopes e = []) then delete "scope" query else query in
  let query := ((λ v, [v]) <$> filter (λ '(name, _), IsReservedAuthorizationParamName name = false) (auth_params e)) ∪ query in
  if is_discovered e then
    <["resource" := [auth_resource e]]> (filter (λ '(name, _), fold_eq (bytes name) (bytes "resource") = false) query)
  else query.

Definition set_RawQuery (q : string) (u : URL) : URL :=
  {| u_Scheme := u_Scheme u; u_Opaque := u_Opaque u; u_User := u_User u; u_Host := u_Host u; u_Path := u_Path u;
     u_RawPath := u_RawPath u; u_OmitHost := u_OmitHost u; u_ForceQuery := u_ForceQuery u;
     u_RawQuery := q; u_Fragment := u_Fragment u; u_RawFragment := u_RawFragment u |}.

(** The claims of a flow that starts. *)
Definition initial_claims (principal : Principal) (serviceID : ServiceID) (redirectURI consentStateID verifier clientID : string)
    (service : provider) (previous : option UserSession) (t : time) : OAuth2StateTokenClaims :=
  {| st_Principal := principal; st_PKCEVerifier := verifier; st_ServiceID := serviceID;
     st_IssuerURI := if is_discovered service then pe_IssuerURI service else "";
     st_Resource := if is_discovered service then auth_resource service else "";
     st_UpstreamClientID := if credentialSourceEligible service then Some clientID else None;
     st_RedirectURI := redirectURI; st_ConsentStateID := consentStateID;
     st_SessionID := match previous with Some s => us_ID s | None => zero_uuid end;
     st_SessionCallbackID := match previous with Some s => us_CallbackID s | None => "" end;
     st_IssuedAt := t; st_ExpiresAt := (t + sc_StateTokenTTL cfg)%Z |}.

Record InitiateFlowResult := FlowStarted { if_AuthorizationURL : string; if_StateToken : string }.

(** The authorization URL for a sealed state. *)
Definition authorization_url (serviceID : ServiceID) (service : provider) (clientID secret stateToken verifier : string)
    : option (result unit InitiateFlowResult) :=
  match buildOAuth2Config service (callback_url serviceID) with
  | None => None
  | Some config =>
      match url_Parse (oauth2_AuthCodeURL (set_client clientID secret config) stateToken verifier) with
      | None => Some (Err ())
      | Some u => Some (Ok (FlowStarted (url_String (set_RawQuery (url_Encode (authorization_query service (url_Query u))) u)) stateToken))
      end
  end.

Definition initiateOAuth2Flow (c : ctx) (principal : Principal) (serviceID : ServiceID) (redirectURI consentStateID : string)
    : LM (result go_error InitiateFlowResult) :=
  if bool_decide (maxProviderStateBytes ≤ Z.of_nat (String.length redirectURI))%Z then mret (Err (ESentinel ErrStateTokenTooLarge))
  else
    service ← lift "" (GetForTokenAcquisition serviceID);
    match service with
    | Err e => lfail "" (tokenAcquisitionError c OperationCodeExchange e)
    | Ok service =>
        credentials ← lift "" (selectCredentials cfg c service CredInitiation None);
        match credentials with
        | Err e => mret (Err e)
        | Ok (clientID, secret) =>
            previous ← read_repo (session_FindByPrincipalAndService principal serviceID);
            match previous with
            | Err _ => lfail "" (sessionOperationError c OperationSessionLookup DetailRepositoryUnavailable EText)
            | Ok previous =>
                if is_discovered service && bool_decide (tokenHTTPClient cfg service = None) then mret (Err EText)
                else if is_discovered service && negb (nonempty (pe_IssuerURI service))
                then mret (Err (ESentinel ErrInvalidConfiguration))
                else
                  verifier ← lift "" (port fp_GenerateVerifier);
                  t ← lift "" now;
                  sealed ← lift "" (CreateStateToken
                    (initial_claims principal serviceID redirectURI consentStateID verifier clientID service previous t));
                  match sealed with
                  | Err e => mret (Err e)
                  | Ok stateToken =>
                      if bool_decide (maxProviderStateBytes ≤ Z.of_nat (String.length stateToken))%Z
                      then mret (Err (ESentinel ErrStateTokenTooLarge))
                      else match authorization_url serviceID service clientID secret stateToken verifier with
                      | None => lfail "" (sessionOperationError c OperationCodeExchange DetailConfiguration
                                            (EJoin (ESentinel ErrInvalidConfiguration) EText))
                      | Some (Err _) => mret (Err EText)
                      | Some (Ok started) => mret (Ok started)
                      end
                  end
            end
        end
    end.

(** ** The code exchange *)

(** The options of one attempt. *)
Definition exchange_options (service : provider) (verifier : string) (assertion : option string) : list code_option :=
  let params := filter (λ '(name, _), IsReservedAuthorizationParamName name = false) (auth_params service) in
  let params := if is_discovered service then <["resource" := auth_resource service]> params else params in
  VerifierOption verifier :: ((λ '(n, v), SetAuthURLParam n v) <$> map_to_list params) ++
  match assertion with
  | Some a => [SetAuthURLParam "client_assertion_type" "urn:ietf:params:oauth:client-assertion-type:jwt-bearer";
               SetAuthURLParam "client_assertion" a]
  | None => []
  end.

(** Attempt number [attempt] and the [n] that may follow. *)
Fixpoint exchange_attempts (n : nat) (attempt : Z) (c : ctx) (config : oauth2_config) (service : provider)
    (established : option string) (code verifier : string) (client : http_client) : M (result go_error oauth2_token) :=
  credentials ← selectCredentials cfg c service CredExchange established;
  match credentials with
  | Err e => mret (Err e)
  | Ok (clientID, secret) =>
      assertion ← sign_assertion cfg c service OperationCodeExchange;
      match assertion with
      | Err e => mret (Err e)
      | Ok assertion =>
          r ← port (fp_Exchange client (set_client clientID secret config) code (exchange_options service verifier assertion));
          match r with
          | Ok token => mret (Ok token)
          | Err e =>
              let lastErr := if is_discovered service then safeDiscoveredTokenExchangeError e
                             else operation_error (safeTokenExchangeError e) in
              let canceled x := fail (sessionOperationError c OperationCodeExchange DetailCallerCanceled (EJoin lastErr (ECtx x))) in
              if (IsCIMDConfidentialClient service || bool_decide (dc_ClientMethod (pe_Discovery service) = ClientBootstrapDCR)) &&
                 tokenExchangeErrorIsPermanent e then mret (Err lastErr)
              else
                ended ← ctx_Err c;
                match ended with
                | Some x => canceled x
                | None =>
                    match n with
                    | O => mret (Err lastErr)
                    | S n =>
                        if negb (shouldRetryTokenExchange e) then mret (Err lastErr)
                        else
                          woken ← port (fp_Sleep c (exchange_delay (sc_RetryBaseDelay cfg) attempt));
                          if (woken : bool) then ended ← ctx_Err c; canceled (default Canceled ended)
                          else exchange_attempts n (attempt + 1) c config service established code verifier client
                    end
                end
          end
      end
  end.

Definition exchangeCodeWithRetry (c : ctx) (config : oauth2_config) (service : provider) (established : option string)
    (code verifier : string) : M (result go_error oauth2_token) :=
  on_own_cancel c OperationCodeExchange
    match tokenHTTPClient cfg service with
    | None => fail (sessionOperationError c OperationCodeExchange DetailConfiguration (EJoin (ESentinel ErrInvalidConfiguration) EText))
    | Some client =>
        match Z.to_nat (sc_MaxRetries cfg) with
        | O => mret (Err (operation_error (OpErr (NewErrorMetadata OperationCodeExchange DetailConfiguration) (ESentinel ErrInvalidConfiguration))))
        | S n => exchange_attempts n 0 c config service established code verifier client
        end
    end.

(** ** The callback *)

Record HandleCallbackRequest := CallbackRequest { cb_ServiceID : ServiceID; cb_Code : string; cb_State : string; cb_Error : string }.
Record HandleCallbackResult := CallbackResult { cr_Session : UserSession; cr_RedirectURI : string; cr_ConsentStateID : string }.
Inductive callback_error := CallbackFailed (e : go_error) | AuthorizationCallbackError (code : string).

(** The state was issued for the discovery result the service has now. *)
Definition discovery_state_ok (service : provider) (claims : OAuth2StateTokenClaims) : bool :=
  Bool.eqb (is_discovered service) (nonempty (st_IssuerURI claims)) &&
  (negb (is_discovered service) ||
   bool_decide (st_IssuerURI claims = pe_IssuerURI service) && bool_decide (st_Resource claims = auth_resource service)).

Definition token_scopes (service : provider) (token : oauth2_token) : list string :=
  match match tk_scope token with Some s => if nonempty s then split_scopes (pe_Flavor service) s else [] | None => [] end with
  | [] => sc_ScopeValue <$> pe_Scopes service
  | l => l
  end.

(** The part of the callback before the session is stored: the claims of the state, the
    service and the tokens. *)
Definition callback_token (c : ctx) (principal : Principal) (req : HandleCallbackRequest)
    : M (result callback_error (OAuth2StateTokenClaims * provider * oauth2_token)) :=
  let refuse e : M (result callback_error (OAuth2StateTokenClaims * provider * oauth2_token)) := mret (Err (CallbackFailed e)) in
  claims ← ValidateStateToken (cb_State req) principal (cb_ServiceID req);
  match claims with
  | Err e =>
      if bool_decide (is_Some (as_credential_source e)) then
        f ← sessionOperationError c OperationCodeExchange DetailCredentialSourceUnavailable e; refuse (operation_error f)
      else refuse e
  | Ok claims =>
      if nonempty (cb_Error req) then mret (Err (AuthorizationCallbackError (safeAuthorizationErrorCode (cb_Error req))))
      else
        service ← GetForTokenAcquisition (cb_ServiceID req);
        match service with
        | Err e => f ← tokenAcquisitionError c OperationCodeExchange e; refuse (operation_error f)
        | Ok service =>
            if foreign_dcr service (cb_ServiceID req) then refuse EText
            else if negb (discovery_state_ok service claims) then refuse (ESentinel ErrInvalidStateToken)
            else match buildOAuth2Config service (callback_url (cb_ServiceID req)) with
            | None =>
                f ← sessionOperationError c OperationCodeExchange DetailConfiguration (EJoin (ESentinel ErrInvalidConfiguration) EText);
                refuse (operation_error f)
            | Some config =>
                r ← exchangeCodeWithRetry c config service (st_UpstreamClientID claims) (cb_Code req) (st_PKCEVerifier claims);
                match r with
                | Err e => refuse e
                | Ok token => mret (Ok (claims, service, token))
                end
            end
        end
  end.

Definition HandleCallback (c : ctx) (principal : Principal) (req : HandleCallbackRequest)
    : LM (result callback_error HandleCallbackResult) :=
  r ← lift "" (callback_token c principal req);
  match r with
  | Err e => mret (Err e)
  | Ok (claims, service, token) =>
      session ← createSession c principal (cb_ServiceID req) token (token_scopes service token) (connection_of claims);
      mret match session with
           | Err e => Err (CallbackFailed e)
           | Ok session => Ok (CallbackResult session (st_RedirectURI claims) (st_ConsentStateID claims))
           end
  end.
End flow.
