(* ===== verification/AuthorizationFlowFacts.v ===== *)
(** * What the callback guarantees

    The state binds a callback to the flow it ends: whoever presents it, for whichever
    service, gets exactly the answer its claims allow.  A callback that stores tokens
    redeemed the code it was given under the verifier of that state, with the client the
    service has now; the service's own parameters never displace the protocol's. *)

From S2P Require Import Prelude ToolApproval ApprovalStore ApprovalHandlers OAuthSessions UserGrants Consent UriValidation NetPolicy Providers UserSessions BrokerErrors ServiceSessions SessionLocks ProviderTokens ProviderTokensFacts SessionRefresh SessionRefreshFacts AuthorizationFlow.
Import Session.

Section flow.
Context {E : Type} `{TokenPorts E} {GU : GoURL} {GN : GoNet} {UU : UUID} {PP : ProviderParsers} {FP : FlowPorts E}.
Variable cfg : session_config.

(** ** The state token *)

(** What the state of a flow answers to [principal] at the callback of [serviceID]. *)
Definition state_answer (claims : OAuth2StateTokenClaims) (t : time) (principal : Principal) (serviceID : ServiceID)
    : result go_error OAuth2StateTokenClaims :=
  if After t (st_ExpiresAt claims) then Err (ESentinel ErrStateTokenExpired)
  else if negb (bool_decide (st_Principal claims = principal)) then Err (ESentinel ErrPrincipalMismatch)
  else if negb (bool_decide (st_ServiceID claims = serviceID)) then Err (ESentinel ErrServiceIDMismatch)
  else Ok claims.

(** Sealing: only what was sealed opens, to what was sealed, and no token is empty. *)
Definition seals : Prop := ∀ claims token e, (fp_Encrypt claims e).2 = Ok token →
  token ≠ "" ∧ ∀ e', (fp_Decrypt token e').2 = Some claims.

Lemma run_port {A} (f : E → E * A) w : run (port f) w = (Wire (f (wr_env w)).1 (wr_sent w), (f (wr_env w)).2).
Proof. unfold port, act. simpl. by destruct (f (wr_env w)). Qed.

(** A sealed state, presented by anyone, for any service. *)
Lemma state_bound claims token e (w : wire E) principal serviceID :
  seals → claims_Validate claims = None → (fp_Encrypt claims e).2 = Ok token →
  (run (ValidateStateToken token principal serviceID) w).2 =
    state_answer claims (tp_now (fp_Decrypt token (wr_env w)).1).2 principal serviceID.
Proof.
  intros Hseal Hv Hmade. destruct (Hseal _ _ _ Hmade) as [Hne Hopen].
  unfold ValidateStateToken. destruct (nonempty token) eqn:Hn; [| by destruct token].
  cbn [negb]. rewrite run_bind, run_port. cbn [fst snd]. rewrite Hopen. cbv beta iota. rewrite Hv, run_bind. unfold now.
  rewrite run_port. cbn [fst snd]. unfold state_answer. cbn [wr_env]. repeat (case_match; [done |]). done.
Qed.

Lemma answers_create_state claims :
  answers (λ r, ∀ token, r = Ok token → claims_Validate claims = None ∧ ∃ e, (fp_Encrypt claims e).2 = Ok token)
    (CreateStateToken claims).
Proof.
  unfold CreateStateToken. destruct (claims_Validate claims) eqn:Hv; ask; [done |]. apply answers_port. intros e token He.
  split; [done | by exists e].
Qed.

(** The state of a flow that was started. *)
Record state_started (principal : Principal) (serviceID : ServiceID) (redirectURI consentStateID : string)
    (started : InitiateFlowResult) (claims : OAuth2StateTokenClaims) : Prop := StateStarted {
  ss_claims : st_Principal claims = principal ∧ st_ServiceID claims = serviceID ∧ st_RedirectURI claims = redirectURI ∧
    st_ConsentStateID claims = consentStateID ∧ st_ExpiresAt claims = (st_IssuedAt claims + sc_StateTokenTTL cfg)%Z;
  ss_sealed : claims_Validate claims = None ∧ ∃ e, (fp_Encrypt claims e).2 = Ok (if_StateToken started);
  ss_bounded : (Z.of_nat (String.length (if_StateToken started)) < maxProviderStateBytes)%Z;
}.

Lemma initiate_returns c principal serviceID redirectURI consentStateID :
  returns (λ r, ∀ started, r = Ok started → ∃ claims, state_started principal serviceID redirectURI consentStateID started claims)
    (initiateOAuth2Flow cfg c principal serviceID redirectURI consentStateID).
Proof.
  unfold initiateOAuth2Flow. destruct (bool_decide _); [done |]. apply returns_bind. intros [service | e]; [| by apply returns_lfail].
  apply returns_bind. intros [[clientID secret] | e]; [| done]. apply returns_bind. intros [previous | k]; [| by apply returns_lfail].
  destruct (is_discovered service && _); [done |]. destruct (is_discovered service && _); [done |].
  apply returns_bind. intros verifier. apply returns_bind. intros t.
  eapply returns_seq; [apply returns_lift, answers_create_state |]. intros [token | e] Htoken; [| done].
  destruct (bool_decide_reflect (maxProviderStateBytes ≤ Z.of_nat (String.length token))%Z) as [Hlen | Hlen]; [done |].
  destruct (authorization_url _ _ _ _ _ _ _) as [[started | []] |] eqn:Hurl; [| done | by apply returns_lfail].
  intros s. intros [= <-]. unfold authorization_url in Hurl. repeat (case_match; [done |]). repeat case_match; simplify_eq.
  eexists. split; [| exact (Htoken _ eq_refl) | simpl; lia]. done.
Qed.

(** Claim C15.  The state a started flow hands out names its user, service, destination and
    expiry and is below the size limit; whoever presents it, for whichever service, it is
    accepted exactly for that user and service until it expires. *)
Theorem started_flow_bound c principal serviceID redirectURI consentStateID
    (pool pool' : lpool (session_world E) (result go_error InitiateFlowResult)) i started
    (Hseal : seals) (Hstart : lp_threads pool !! i = Some (initiateOAuth2Flow cfg c principal serviceID redirectURI consentStateID))
    (Hrun : rtc lstep pool pool') (Hend : lp_threads pool' !! i = Some (LRet (Ok started))) :
  ∃ claims, state_started principal serviceID redirectURI consentStateID started claims ∧
    ∀ principal' serviceID' (w : wire E), (run (ValidateStateToken (if_StateToken started) principal' serviceID') w).2 =
      state_answer claims (tp_now (fp_Decrypt (if_StateToken started) (wr_env w)).1).2 principal' serviceID'.
Proof.
  destruct (returns_steps _ pool pool' i _ _ Hrun Hstart (initiate_returns c principal serviceID redirectURI consentStateID) Hend started eq_refl)
    as [claims Hc]. exists claims. split; [done |]. destruct Hc as [_ [Hv [e He]] _]. intros. by eapply state_bound.
Qed.

(** ** The parameters of a service *)

Lemma reserved_kept e query name :
  IsReservedAuthorizationParamName name = true → fold_eq (bytes name) (bytes "resource") = false →
  authorization_query e query !! name = if decide (name = "scope" ∧ pe_Scopes e = []) then None else query !! name.
Proof.
  intros Hr Hn. unfold authorization_query.
  set (q := if decide (pe_Scopes e = []) then delete "scope" query else query).
  assert (q !! name = if decide (name = "scope" ∧ pe_Scopes e = []) then None else query !! name) as Hq.
  { subst q. destruct (decide (pe_Scopes e = [])) as [Hs | Hs], (decide (name = "scope" ∧ pe_Scopes e = [])) as [[-> ?] | Hns]; try done.
    - by rewrite lookup_delete_eq.
    - rewrite lookup_delete_ne; [done | naive_solver]. }
  set (m := ((λ v, [v]) <$> _) ∪ q). assert (m !! name = q !! name) as Hm.
  { subst m. apply lookup_union_r. rewrite lookup_fmap, fmap_None. apply map_lookup_filter_None_2. right. intros x _. by rewrite Hr. }
  destruct (is_discovered e); [| by rewrite Hm]. rewrite lookup_insert_ne.
  - rewrite map_lookup_filter, Hm, Hq. destruct (decide (name = "scope" ∧ pe_Scopes e = [])); [done |]. destruct (query !! name) as [l |] eqn:Hl; [| done]. cbn. by rewrite option_guard_True.
  - intros <-. vm_compute in Hn. done.
Qed.

Lemma resource_exact e query name : is_discovered e = true → fold_eq (bytes name) (bytes "resource") = true →
  authorization_query e query !! name = if decide (name = "resource") then Some [auth_resource e] else None.
Proof.
  intros He Hn. unfold authorization_query. rewrite He. destruct (decide (name = "resource")) as [-> | Hne].
  - apply lookup_insert_eq.
  - rewrite lookup_insert_ne by done. apply map_lookup_filter_None_2. right. intros x _. by rewrite Hn.
Qed.

Lemma options_reserved service verifier assertion name value :
  IsReservedAuthorizationParamName name = true → SetAuthURLParam name value ∉ exchange_options service verifier assertion.
Proof.
  intros Hr. unfold exchange_options. rewrite elem_of_cons, elem_of_app. intros [? | [Hin | Hin]]; [done | |].
  - apply list_elem_of_fmap in Hin as ([n v] & [= -> ->] & Hin%elem_of_map_to_list).
    destruct (is_discovered service).
    + apply lookup_insert_Some in Hin as [[<- _] | [_ Hin]]; [by vm_compute in Hr |].
      apply map_lookup_filter_Some in Hin as [_ Hin]. congruence.
    + apply map_lookup_filter_Some in Hin as [_ Hin]. congruence.
  - destruct assertion; [| by apply elem_of_nil in Hin].
    repeat (apply elem_of_cons in Hin as [[= -> ->] | Hin]; [by vm_compute in Hr |]). by apply elem_of_nil in Hin.
Qed.

(** The parameters configured for a service never replace a reserved parameter of
    the authorization request or of the code exchange, and the requests of a discovered
    service carry its resource once, however a parameter spells it. *)
Theorem service_parameters_confined e query name :
  (IsReservedAuthorizationParamName name = true → fold_eq (bytes name) (bytes "resource") = false →
   authorization_query e query !! name = (if decide (name = "scope" ∧ pe_Scopes e = []) then None else query !! name)) ∧
  (is_discovered e = true → fold_eq (bytes name) (bytes "resource") = true →
   authorization_query e query !! name = if decide (name = "resource") then Some [auth_resource e] else None) ∧
  (∀ verifier assertion value, IsReservedAuthorizationParamName name = true →
   SetAuthURLParam name value ∉ exchange_options e verifier assertion).
Proof. split_and!; [by apply reserved_kept | by apply resource_exact | intros; by apply options_reserved]. Qed.

(** ** The callback *)

(** The state was opened, and accepted for this principal and service at a time it had not
    expired. *)
Record state_accepted (req : HandleCallbackRequest) (principal : Principal) (claims : OAuth2StateTokenClaims) : Prop := StateAccepted {
  sa_opened : cb_State req ≠ "" ∧ ∃ e, (fp_Decrypt (cb_State req) e).2 = Some claims;
  sa_valid : claims_Validate claims = None;
  sa_bound : st_Principal claims = principal ∧ st_ServiceID claims = cb_ServiceID req;
  sa_current : ∃ e, After (tp_now e).2 (st_ExpiresAt claims) = false;
}.

Lemma answers_state req principal :
  answers (λ r, ∀ claims, r = Ok claims → state_accepted req principal claims)
    (ValidateStateToken (cb_State req) principal (cb_ServiceID req)).
Proof.
  unfold ValidateStateToken. destruct (nonempty (cb_State req)) eqn:Hn; cbn [negb]; ask; [| done]. apply answers_port. intros e.
  destruct (fp_Decrypt _ e).2 as [claims |] eqn:Hopen; ask; [| done].
  destruct (claims_Validate claims) eqn:Hv; [case_bool_decide; ask; done |]. ask. apply answers_port. intros e'.
  destruct (After _ _) eqn:Hexp; ask; [done |].
  destruct (bool_decide_reflect (st_Principal claims = principal)); cbn [negb]; ask; [| done].
  destruct (bool_decide_reflect (st_ServiceID claims = cb_ServiceID req)); cbn [negb]; ask; [| done].
  intros ? [= <-]. split; [| done | done | by exists e']. split; [by destruct (cb_State req) | by exists e].
Qed.

Lemma answers_yields {A} (Q : A → Prop) (p : prog (wire E) A) : yields Q p → answers Q p.
Proof. induction p as [a | X f k IH]; [done |]. intros Hp w. apply IH, Hp. Qed.
Lemma answers_fail {A} (Q : result go_error A → Prop) (e : prog (wire E) OperationError) : (∀ x, Q (Err x)) → answers Q (fail e).
Proof. intros HQ. unfold fail. ask. eapply answers_mono; [| apply answers_any]. intros f _. ask. apply HQ. Qed.

(** An established client identity is the one selected. *)
Definition pinned (service : provider) (established : option string) (clientID : string) : Prop :=
  ∀ i, credentialSourceEligible service = true → established = Some i → clientID = i.

Lemma answers_selected c service established :
  answers (λ r, ∀ clientID secret, r = Ok (clientID, secret) → pinned service established clientID)
    (selectCredentials cfg c service CredExchange established).
Proof.
  destruct (credentialSourceEligible service) eqn:He, established as [i |];
    [| eapply answers_mono; [| apply answers_any]; unfold pinned; congruence ..].
  eapply answers_mono; [| by apply answers_yields, (selected_identity cfg c service CredExchange i)].
  intros [[x s] | e] Hk; [| done]. simpl in Hk. intros ? ? [= <- <-] i' _ [= <-]. done.
Qed.

(** The provider's answer to the code, under the verifier, for the client of the state. *)
Definition redeemed (config : oauth2_config) (service : provider) (established : option string) (code verifier : string)
    (token : oauth2_token) : Prop :=
  ∃ client clientID secret assertion e, tokenHTTPClient cfg service = Some client ∧
    pinned service established clientID ∧
    (fp_Exchange client (set_client clientID secret config) code (exchange_options service verifier assertion) e).2 = Ok token.

Lemma answers_attempts n k c config service established code verifier client :
  tokenHTTPClient cfg service = Some client →
  answers (λ r, ∀ token, r = Ok token → redeemed config service established code verifier token)
    (exchange_attempts cfg n k c config service established code verifier client).
Proof.
  intros Hclient. revert k. induction n as [| n IH]; intros k; cbn [exchange_attempts]; ask.
  all: eapply answers_mono; [| apply answers_selected].
  all: intros [[clientID secret] | err] Hid; ask; [| done].
  all: eapply answers_mono; [| apply answers_any]; intros [assertion | err] _; ask; [| done].
  all: apply answers_port; intros e; destruct (fp_Exchange _ _ _ _ e).2 as [token | err] eqn:Hx; ask;
    [intros ? [= <-]; exists client, clientID, secret, assertion, e; split_and!; [done | by eapply Hid | done] |].
  all: destruct ((_ || _) && _)%bool; ask; [done |]; eapply answers_mono; [| apply answers_any]; intros [x |] _; [by apply answers_fail |].
  - by ask.
  - destruct (negb _); ask; [done |]. eapply answers_mono; [| apply answers_any]. intros [] _; ask; [| apply IH].
    eapply answers_mono; [| apply answers_any]. intros ended _. by apply answers_fail.
Qed.

Lemma answers_on_own_cancel {A} (Q : result go_error A → Prop) c o (p : prog (wire E) (result go_error A)) :
  (∀ x, Q (Err x)) → answers Q p → answers Q (on_own_cancel c o p).
Proof.
  intros HQ Hp. unfold on_own_cancel, on_caller_cancel. destruct (cx_shared c); [done |]. ask.
  eapply answers_mono; [| exact Hp]. intros [a | e] Hr; ask; [done |]. eapply answers_mono; [| apply answers_any]. intros ended _. ask. apply HQ.
Qed.

Lemma answers_exchange c config service established code verifier :
  answers (λ r, ∀ token, r = Ok token → redeemed config service established code verifier token)
    (exchangeCodeWithRetry cfg c config service established code verifier).
Proof.
  unfold exchangeCodeWithRetry. apply answers_on_own_cancel; [done |].
  destruct (tokenHTTPClient cfg service) as [client |] eqn:Hc; [| by apply answers_fail].
  destruct (Z.to_nat (sc_MaxRetries cfg)) as [| n]; ask; [done |]. by apply answers_attempts.
Qed.

(** The tokens of an accepted callback. *)
Record callback_ok (principal : Principal) (req : HandleCallbackRequest) (claims : OAuth2StateTokenClaims)
    (service : provider) (token : oauth2_token) : Prop := CallbackOk {
  ck_state : state_accepted req principal claims;
  ck_granted : cb_Error req = "";
  ck_discovery : discovery_state_ok service claims = true;
  ck_redeemed : ∃ config, buildOAuth2Config service (callback_url cfg (cb_ServiceID req)) = Some config ∧
    redeemed config service (st_UpstreamClientID claims) (cb_Code req) (st_PKCEVerifier claims) token;
}.

Lemma answers_callback_token c principal req :
  answers (λ r, ∀ claims service token, r = Ok (claims, service, token) → callback_ok principal req claims service token)
    (callback_token cfg c principal req).
Proof.
  unfold callback_token. ask. eapply answers_mono; [| apply answers_state]. intros [claims | e] Hst.
  2:{ case_bool_decide; ask; [| done]. eapply answers_mono; [| apply answers_any]. intros; by ask. }
  specialize (Hst claims eq_refl). destruct (nonempty (cb_Error req)) eqn:Herr; ask; [done |].
  eapply answers_mono; [| apply answers_any]. intros [service | e] _; ask.
  2:{ eapply answers_mono; [| apply answers_any]. intros; by ask. }
  destruct (foreign_dcr _ _); ask; [done |]. destruct (discovery_state_ok service claims) eqn:Hd; cbn [negb]; ask; [| done].
  destruct (buildOAuth2Config _ _) as [config |] eqn:Hconf; ask.
  2:{ eapply answers_mono; [| apply answers_any]. intros; by ask. }
  eapply answers_mono; [| apply answers_exchange]. intros [token | e] Hx; ask; [| done].
  intros ? ? ? [= <- <- <-]. split; [done | by destruct (cb_Error req) | done | exists config; split; [done | by apply Hx]].
Qed.

(** The session holds the tokens, encrypted for the service. *)
Definition holds_tokens (serviceID : ServiceID) (token : oauth2_token) (scope : list string) (s : UserSession) : Prop :=
  us_Scope s = scope ∧ us_EncryptionContext s = serviceID ∧ us_RefreshRejectedAt s = None ∧
  (∃ e, (tp_Encrypt serviceID (tk_AccessToken token) e).2 = Ok (us_EncryptedAccessToken s)) ∧
  if nonempty (tk_RefreshToken token) then ∃ e, (tp_Encrypt serviceID (tk_RefreshToken token) e).2 = Ok (us_EncryptedRefreshToken s)
  else us_EncryptedRefreshToken s = "".

Lemma returns_read {A B} (Q : B → Prop) (f : UserSessionRepository → A) (g : A → lprog (session_world E) B) :
  (∀ w : session_world E, returns Q (g (f (sw_repo w)))) → returns Q (read_repo f ≫= g).
Proof. intros Hg w. apply Hg. Qed.

(** What [WithLockedSession] makes of the session its callback returns. *)
Definition keep_client (current session : UserSession) : UserSession :=
  if decide (us_CallbackID session = us_CallbackID current)
  then set_us_UpstreamClientID (us_UpstreamClientID current) session else session.

Definition found (principal : Principal) (serviceID : ServiceID) (s : UserSession) : Prop :=
  ∃ w : session_world E, us_index (sw_repo w) !! principalServiceKey principal serviceID = Some s.

Lemma returns_locked {X} (Q : X * result go_error (option UserSession) → Prop) c principal serviceID x0 refresh :
  (∀ x e, Q (x, Err e)) → Q (x0, Ok None) →
  (∀ current, found principal serviceID current →
    answers (λ '(x, r), ∀ updated session, r = Ok (updated, session) → Q (x, Ok (Some (keep_client current session)))) (refresh current)) →
  returns Q (WithLockedSession c principal serviceID x0 refresh).
Proof.
  intros Herr Hnone Hsome. unfold WithLockedSession. destruct (negb _ || negb _); [apply Herr |]. cbv zeta.
  apply returns_bind. intros [e |]; [apply Herr |]. apply returns_read. intros w.
  destruct (us_index (sw_repo w) !! _) as [current |] eqn:Hc; [| by apply returns_bind].
  eapply returns_seq; [apply returns_lift, (Hsome current); by exists w |]. intros [x [[updated session] | e]] Hr;
    [| apply returns_bind; intros ?; apply Herr]. specialize (Hr _ _ eq_refl). fold (keep_client current session).
  destruct (negb updated); [by apply returns_bind |]. destruct (negb _); [apply returns_bind; intros ?; apply Herr |].
  apply returns_bind. intros [e |]; apply returns_bind; intros ?; [apply Herr |]. by apply returns_bind.
Qed.

(** What a callback leaves: its tokens, or the session that took their place. *)
Definition superseded (principal : Principal) (serviceID : ServiceID) (cn : connection) (s : UserSession) : Prop :=
  found principal serviceID s ∧
  (us_ID s ≠ cn_SessionID cn ∨ us_CallbackID s ≠ cn_CallbackID cn ∨ cn_SessionID cn = zero_uuid).

Lemma returns_create_if_absent c s :
  returns (λ r, ∀ s', r = Ok s' → s' = clear_expected s ∨ found (us_Principal s) (us_ServiceID s) s') (CreateIfAbsent c s).
Proof.
  unfold CreateIfAbsent. cbv zeta. destruct (negb _); [done |]. apply returns_bind. intros current. destruct (currentDiscoveryStateError _ _); [| done].
  apply returns_bind. intros [e |]; [done |]. apply returns_read. intros w.
  destruct (us_index (sw_repo w) !! session_key s) as [s0 |] eqn:Hs.
  - apply (returns_seq (λ s', s' = s0)); [done |]. intros s' ->. apply returns_bind. intros _ s'. intros [= <-]. right. by exists w.
  - eapply (returns_seq (λ s', s' = clear_expected s)); [by apply returns_bind |]. intros s' ->. apply returns_bind. intros _ s'. intros [= <-]. by left.
Qed.

Lemma returns_create c principal serviceID token scope cn :
  returns (λ r, ∀ s, r = Ok s → holds_tokens serviceID token scope s ∨ superseded principal serviceID cn s)
    (createSession c principal serviceID token scope cn).
Proof.
  unfold createSession. cbv zeta.
  eapply (returns_seq (λ r, ∀ a, r = Ok a → ∃ e, (tp_Encrypt serviceID (tk_AccessToken token) e).2 = Ok a));
    [apply returns_lift, answers_port; by eauto |]. intros [access | e] Ha; [| by apply returns_lfail].
  eapply (returns_seq (λ r, ∀ a, r = Ok a → if nonempty (tk_RefreshToken token)
      then ∃ e, (tp_Encrypt serviceID (tk_RefreshToken token) e).2 = Ok a else a = "")).
  { destruct (nonempty (tk_RefreshToken token)); [apply returns_lift, answers_port; by eauto |]. by intros a [= <-]. }
  intros [refresh | e] Hr; [| by apply returns_lfail]. apply returns_bind. intros t.
  specialize (Ha _ eq_refl). specialize (Hr _ eq_refl).
  eapply (returns_seq (λ r, ∀ s, r.2 = Ok (Some s) → holds_tokens serviceID token scope s ∨ superseded principal serviceID cn s)).
  - apply returns_locked; [done | done |]. intros current Hf. destruct (negb _ || negb _) eqn:Hcn; ask.
    + intros updated session [= _ <-] s [= <-]. right. unfold keep_client. rewrite decide_True by done.
      replace (set_us_UpstreamClientID _ current) with current by (by destruct current). split; [done |].
      apply orb_true_iff in Hcn as [Hcn | Hcn]; apply negb_true_iff, bool_decide_eq_false in Hcn; tauto.
    + eapply answers_mono; [| apply answers_any]. intros callbackID _. ask. intros updated session [= _ <-] s [= <-]. left.
      unfold keep_client. by destruct (decide _).
  - intros [[] [[s |] | e]] Hs; [| | by apply returns_lfail].
    + intros ? [= <-]. by apply Hs.
    + destruct (bool_decide_reflect (cn_SessionID cn = zero_uuid)) as [Hz | Hz].
      * unfold nonzero_id. rewrite (bool_decide_true (cn_SessionID cn = zero_uuid)) by done. cbn [negb].
        apply returns_bind. intros i. apply returns_bind. intros callbackID.
        eapply returns_seq; [apply returns_create_if_absent |]. intros [s | e] Hc; [| by apply returns_lfail].
        intros s'. intros [= <-]. destruct (Hc s eq_refl) as [-> | Hf]; [left; done |]. right. split; [done | tauto].
      * unfold nonzero_id. rewrite (bool_decide_false (cn_SessionID cn = zero_uuid)) by done. done.
Qed.

(** What a callback that succeeds has done. *)
Definition callback_stored (principal : Principal) (req : HandleCallbackRequest) (r : HandleCallbackResult) : Prop :=
  ∃ claims service token, callback_ok principal req claims service token ∧
    cr_RedirectURI r = st_RedirectURI claims ∧ cr_ConsentStateID r = st_ConsentStateID claims ∧
    (holds_tokens (cb_ServiceID req) token (token_scopes service token) (cr_Session r) ∨
     superseded principal (cb_ServiceID req) (connection_of claims) (cr_Session r)).

Lemma callback_returns c principal req :
  returns (λ a, ∀ r, a = Ok r → callback_stored principal req r) (HandleCallback cfg c principal req).
Proof.
  unfold HandleCallback. eapply returns_seq; [apply returns_lift, answers_callback_token |].
  intros [[[claims service] token] | e] Hok; [| done]. eapply returns_seq; [apply returns_create |].
  intros [session | e] Hs; [| done]. intros r. intros [= <-]. exists claims, service, token.
  split_and!; [by apply Hok | done | done | by apply Hs].
Qed.

(** Claim C14.  Whatever runs next to it, a callback succeeds only when its state was sealed
    and not expired, for this user, this service and the service's present discovery
    result, the provider reported no error, and the tokens are the provider's answer to the
    code of the request under the verifier and the client identity of the state; the
    session it returns holds these tokens, or took their place meanwhile. *)
Theorem callback_bound c principal req (pool pool' : lpool (session_world E) (result callback_error HandleCallbackResult)) i r
    (Hstart : lp_threads pool !! i = Some (HandleCallback cfg c principal req))
    (Hrun : rtc lstep pool pool') (Hend : lp_threads pool' !! i = Some (LRet (Ok r))) :
  callback_stored principal req r.
Proof. exact (returns_steps _ pool pool' i _ _ Hrun Hstart (callback_returns c principal req) Hend r eq_refl). Qed.
End flow.

(** ** A concrete deployment *)

Module FlowDemo.

(** Tokens are the bits of the claims. *)
Fixpoint bits (p : positive) : string := match p with xH => "1" | xO p => String "0" (bits p) | xI p => String "2" (bits p) end.
Fixpoint unbits (s : string) : option positive :=
  match s with
  | "1" => Some xH
  | String "0" s => xO <$> unbits s
  | String "2" s => xI <$> unbits s
  | _ => None
  end.
Lemma unbits_bits p : unbits (bits p) = Some p.
Proof. induction p as [p IH | p IH |]; [| | done]; cbn [bits unbits]; by rewrite IH. Qed.

Definition fields (c : OAuth2StateTokenClaims) : list positive :=
  [encode (st_Principal c); encode (st_PKCEVerifier c); encode (st_ServiceID c); encode (st_IssuerURI c); encode (st_Resource c);
   encode (st_UpstreamClientID c); encode (st_RedirectURI c); encode (st_ConsentStateID c); encode (st_SessionID c);
   encode (st_SessionCallbackID c); encode (st_IssuedAt c); encode (st_ExpiresAt c)].
Definition claims_of (l : list positive) : option OAuth2StateTokenClaims :=
  match l with
  | [p; v; s; i; r; u; d; c; si; sc; a; b] =>
      p ← decode p; v ← decode v; s ← decode s; i ← decode i; r ← decode r; u ← decode u; d ← decode d; c ← decode c;
      si ← decode si; sc ← decode sc; a ← decode a; b ← decode b; Some (StateClaims p v s i r u d c si sc a b)
  | _ => None
  end.
Definition open_state (s : string) : option OAuth2StateTokenClaims := p ← unbits s; l ← decode p; claims_of l.

(** One provider, whose client and verifier are the ones it was told. *)
#[global] Instance demo_flow : FlowPorts unit := {|
  fp_GenerateVerifier _ := ((), "verifier");
  fp_Encrypt c _ := ((), Ok (bits (encode (fields c))));
  fp_Decrypt s _ := ((), open_state s);
  fp_Exchange _ config code opts _ :=
    ((), if decide (code = "code" ∧ oc_ClientID config = "broker" ∧ VerifierOption "verifier" ∈ opts)
         then Ok (OAuth2Token "access" "" "refresh" 200 None) else Err EText);
  fp_Sleep _ _ _ := ((), false);
  oauth2_AuthCodeURL config state verifier := oc_AuthURL config;
  url_Query _ := ∅;
  url_Encode _ := "";
|}.

Lemma demo_seals : seals (E:=unit).
Proof.
  intros claims token e [= <-]. split; [by destruct (encode (fields claims)) |]. intros e'. simpl. unfold open_state.
  rewrite unbits_bits. cbn [mbind option_bind]. rewrite decode_encode. unfold fields, claims_of. cbn [mbind option_bind].
  rewrite !decode_encode. by destruct claims.
Qed.

(** A discovered service with parameters of its own. *)
Definition discovered (params : gmap string string) : provider :=
  {| pe_ID := "svc"; pe_CanonicalID := None; pe_ClearCanonicalID := false; pe_DisplayName := "S";
     pe_ClientID := "broker"; pe_Secret := NewAbsentSecret; pe_CredentialSource := CredentialSourceStored;
     pe_CredentialSourceTransitioned := false; pe_CredentialSourceProvided := false; pe_ClientRegistration := "static";
     pe_ClientRegistrationProvided := false; pe_ClientIDProvided := false; pe_ClientSecretProvided := false;
     pe_TokenEndpointAuthMethod := AuthMethodNone; pe_Flavor := FlavorStandard; pe_IssuerURI := "https://as";
     pe_Discovery := MkDiscovery false None (Some "https://api") ClientBootstrapDCR;
     pe_Endpoints := MkEndpoints "https://as/t" "https://as/a" "";
     pe_Scopes := []; pe_AuthorizationParams := Some params; pe_ResourceExplicit := false;
     pe_DiscoveryStatus := MkStatus None None None; pe_ProtectedResources := []; pe_Version := 1;
     pe_ServiceRequirements := []; pe_CreatedAt := 0; pe_UpdatedAt := 0 |}.

(** Alice connects, and comes back with the code; the steps run one after another. *)
Definition repo : UserSessionRepository := NewUserSessionRepository.
Definition caller : ctx := Ctx 1 false.
Definition start_pool := LPool (SessionWorld repo () []) ∅
  [initiateOAuth2Flow (E:=unit) RefreshDemo.toy_config caller "alice" "svc" "https://app/done" ""].
Definition started_pool := lschedule (replicate 40 0) start_pool.
Definition state : string :=
  match lp_threads started_pool with [LRet (Ok s)] => if_StateToken s | _ => "" end.
Definition callback_pool := LPool (SessionWorld repo () []) ∅
  [HandleCallback (E:=unit) RefreshDemo.toy_config caller "alice" (CallbackRequest "svc" "code" state "")].
Definition done_pool := lschedule (replicate 60 0) callback_pool.
End FlowDemo.

(** Nobody but Alice can use the state she was given. *)
Lemma started_flow_bound_witness :
  ∃ started claims, lp_threads FlowDemo.started_pool = [LRet (Ok started)] ∧ st_Principal claims = "alice" ∧
    let answer who := (run (ValidateStateToken (E:=unit) (if_StateToken started) who "svc") (Wire () [])).2 in
    answer "mallory" = Err (ESentinel ErrPrincipalMismatch) ∧ answer "alice" = Ok claims.
Proof.
  assert (match lp_threads FlowDemo.started_pool with
          | [LRet (Ok s)] => match FlowDemo.open_state (if_StateToken s) with Some c => bool_decide (100 <= st_ExpiresAt c)%Z | None => false end
          | _ => false end = true) as Hlog by (vm_compute; reflexivity).
  destruct (lp_threads FlowDemo.started_pool) as [| [[started | e] | | |] [| ? ?]] eqn:Hend; try discriminate Hlog.
  destruct (started_flow_bound (E:=unit) RefreshDemo.toy_config FlowDemo.caller "alice" "svc" "https://app/done" ""
    FlowDemo.start_pool FlowDemo.started_pool 0 started FlowDemo.demo_seals eq_refl (lschedule_steps _ _)
    ltac:(rewrite Hend; reflexivity)) as (claims & [(Hp & Hs & _) [_ [e He]] _] & Hany).
  destruct (FlowDemo.demo_seals _ _ _ He) as [_ Hopen]. specialize (Hopen ()). unfold fp_Decrypt, FlowDemo.demo_flow in Hopen.
  cbn [snd] in Hopen. rewrite Hopen in Hlog. apply bool_decide_eq_true_1 in Hlog.
  exists started, claims. split; [reflexivity | split; [exact Hp |]].
  cbv zeta beta. rewrite !Hany. unfold state_answer, After. cbn [fst snd tp_now RefreshDemo.toy_ports].
  rewrite (bool_decide_false (st_ExpiresAt claims < 100)%Z) by lia. rewrite Hp, Hs. split; reflexivity.
Defined.

Lemma callback_bound_witness :
  match lp_threads FlowDemo.done_pool with
  | [LRet (Ok r)] => callback_stored (E:=unit) RefreshDemo.toy_config "alice" (CallbackRequest "svc" "code" FlowDemo.state "") r
  | _ => False
  end.
Proof.
  destruct (lp_threads FlowDemo.done_pool) as [| [[r | e] | | |] [| ? ?]] eqn:Hend; try (vm_compute in Hend; discriminate Hend).
  apply (callback_bound (E:=unit) RefreshDemo.toy_config FlowDemo.caller "alice" _ FlowDemo.callback_pool FlowDemo.done_pool 0);
    [reflexivity | apply lschedule_steps | by rewrite Hend].
Defined.

(** A service that tries to replace the state, and spells the resource in capitals. *)
Lemma service_parameters_confined_witness :
  let e := FlowDemo.discovered {["state" := "forged"; "Resource" := "x"; "resource" := "https://api"]} in
  authorization_query e {["state" := ["sealed"]]} !! "state" = Some ["sealed"] ∧
  authorization_query e {["state" := ["sealed"]]} !! "Resource" = None ∧
  SetAuthURLParam "state" "forged" ∉ exchange_options e "v" None.
Proof.
  intros e. split_and!.
  - exact (proj1 (service_parameters_confined e {["state" := ["sealed"]]} "state") eq_refl eq_refl).
  - exact (proj1 (proj2 (service_parameters_confined e {["state" := ["sealed"]]} "Resource")) eq_refl eq_refl).
  - exact (proj2 (proj2 (service_parameters_confined e ∅ "state")) "v" None "forged" eq_refl).
Defined.
