(* ===== verification/BackgroundPool.v ===== *)
(** * The pool of background refreshes

    internal/domain/oauth2session/background_refresh.go: requests that find a token about
    to expire hand its refresh to a pool with a bounded number of workers; [Close] drains
    it.  The pool's mutex makes [submit], [finish] and the first part of [Close] atomic;
    the goroutines in between and the waits of [Close] are steps.  Metrics, spans and log
    lines are left out. *)

From S2P Require Import Prelude ToolApproval ApprovalStore ApprovalHandlers OAuthSessions UserGrants Consent UriValidation NetPolicy Providers UserSessions BrokerErrors ServiceSessions SessionLocks ProviderTokens SessionRefresh.
Import Session.

(** ** The pool *)

(** [bp_slots] counts the values in the channel; [bp_drained] says whether the channel of
    that name is closed, [bp_panicked] that it was closed twice.  [bp_running] are the keys
    of the goroutines from [submit] to [finish]. *)
Record backgroundRefresher := Refresher {
  bp_workers : nat;
  bp_slots : nat;
  bp_inflight : gset string;
  bp_closed : bool;
  bp_drained : bool;
  bp_canceled : bool;
  bp_panicked : bool;
  bp_running : list string;
}.

Definition newBackgroundRefresher (workers : nat) : backgroundRefresher :=
  Refresher workers 0 ∅ false false false false [].

Definition close_drained (p : backgroundRefresher) : backgroundRefresher :=
  Refresher (bp_workers p) (bp_slots p) (bp_inflight p) (bp_closed p) true (bp_canceled p) (bp_panicked p || bp_drained p) (bp_running p).

(** Whether a goroutine was started. *)
Definition submit (key : string) (p : backgroundRefresher) : backgroundRefresher * bool :=
  if bp_closed p then (p, false)
  else if decide (key ∈ bp_inflight p) then (p, false)
  else if bool_decide (bp_slots p < bp_workers p) then
    (Refresher (bp_workers p) (S (bp_slots p)) ({[key]} ∪ bp_inflight p) (bp_closed p) (bp_drained p) (bp_canceled p)
       (bp_panicked p) (key :: bp_running p), true)
  else (p, false). (* the key is stored and deleted again *)

(** Goroutine number [i] finishes; [None]: the receive from the channel blocks. *)
Definition finish (i : nat) (p : backgroundRefresher) : option backgroundRefresher :=
  key ← bp_running p !! i;
  match bp_slots p with
  | O => None
  | S slots =>
      let p := Refresher (bp_workers p) slots (bp_inflight p ∖ {[key]}) (bp_closed p) (bp_drained p) (bp_canceled p)
                 (bp_panicked p) (delete i (bp_running p)) in
      Some (if bp_closed p && bool_decide (slots = 0) then close_drained p else p)
  end.

Definition close_begin (p : backgroundRefresher) : backgroundRefresher :=
  if bp_closed p then p
  else
    let p := Refresher (bp_workers p) (bp_slots p) (bp_inflight p) true (bp_drained p) (bp_canceled p) (bp_panicked p) (bp_running p) in
    if bool_decide (bp_slots p = 0) then close_drained p else p.

(** The wait of [Close] ends: by the channel, or by its context. *)
Definition close_end (cancelled : option ctx_error) (p : backgroundRefresher) : option (backgroundRefresher * result ctx_error unit) :=
  let ended := Refresher (bp_workers p) (bp_slots p) (bp_inflight p) (bp_closed p) (bp_drained p) true (bp_panicked p) (bp_running p) in
  match cancelled with
  | Some e => Some (ended, Err e)
  | None => if bp_drained p then Some (ended, Ok ()) else None
  end.

Inductive pool_event := Submitted (key : string) | Finished (i : nat) | CloseCalled | CloseReturned (r : result ctx_error unit).

Inductive refresher_step : backgroundRefresher → pool_event → backgroundRefresher → Prop :=
  | step_submit key p : refresher_step p (Submitted key) (submit key p).1
  | step_finish i p p' : finish i p = Some p' → refresher_step p (Finished i) p'
  | step_close p : refresher_step p CloseCalled (close_begin p)
  | step_closed p p' c r : bp_closed p = true → close_end c p = Some (p', r) → refresher_step p (CloseReturned r) p'.

Definition steps (p p' : backgroundRefresher) : Prop := rtc (λ p p', ∃ e, refresher_step p e p') p p'.

(** ** Invariant *)

Record pool_inv (p : backgroundRefresher) : Prop := PoolInv {
  pi_slots : bp_slots p = length (bp_running p);
  pi_bound : bp_slots p ≤ bp_workers p;
  pi_keys : NoDup (bp_running p);
  pi_inflight key : key ∈ bp_inflight p ↔ key ∈ bp_running p;
  pi_drained : bp_drained p = true ↔ bp_closed p = true ∧ bp_running p = [];
  pi_panicked : bp_panicked p = false;
}.

Lemma pool_inv_new workers : pool_inv (newBackgroundRefresher workers).
Proof. split; simpl; try done; try lia; [constructor | set_solver]. Qed.

Lemma pool_inv_submit key p : pool_inv p → pool_inv (submit key p).1.
Proof.
  intros Hinv. pose proof Hinv as [Hs Hb Hk Hi Hd Hp]. unfold submit. destruct (bp_closed p) eqn:Hc; [done |]. destruct (decide (key ∈ bp_inflight p)) as [Hin | Hin]; [done |].
  destruct (bool_decide_reflect (bp_slots p < bp_workers p)); [| done]. split; simpl; [lia | lia | | | | done].
  - constructor; [by rewrite <-Hi | done].
  - intros key'. rewrite elem_of_union, elem_of_singleton, elem_of_cons, Hi. done.
  - rewrite Hd. naive_solver.
Qed.

Lemma elem_of_delete (l : list string) i x k : l !! i = Some x → NoDup l → k ∈ delete i l ↔ k ∈ l ∧ k ≠ x.
Proof.
  intros Hx Hnd. pose proof (delete_Permutation l i x Hx) as Hp. rewrite (elem_of_Permutation_proper k _ _ Hp), elem_of_cons.
  pose proof (proj1 (NoDup_Permutation_proper _ _ Hp) Hnd) as [Hn _]%NoDup_cons. naive_solver.
Qed.

Lemma pool_inv_finish i p p' : pool_inv p → finish i p = Some p' → pool_inv p'.
Proof.
  intros Hinv. pose proof Hinv as [Hs Hb Hk Hi Hd Hp]. unfold finish. destruct (bp_running p !! i) as [key |] eqn:Hkey; [simpl | done].
  destruct (bp_slots p) as [| slots] eqn:Hslots; [done |].
  assert (length (delete i (bp_running p)) = slots) as Hlen by (rewrite length_delete by eauto; lia).
  assert (NoDup (delete i (bp_running p))) as Hnd by (eapply sublist_NoDup; [exact Hk | apply sublist_delete]).
  assert (∀ k, k ∈ bp_inflight p ∖ {[key]} ↔ k ∈ delete i (bp_running p)) as Hin.
  { intros k. rewrite elem_of_difference, elem_of_singleton, Hi. by rewrite (elem_of_delete _ _ _ _ Hkey Hk). }
  assert (bp_drained p = false) as Hnd'.
  { destruct (bp_drained p); [| done]. destruct (proj1 Hd eq_refl) as [_ Hnil]. by rewrite Hnil in Hkey. }
  destruct (bp_closed p) eqn:Hc, (bool_decide_reflect (slots = 0)) as [-> | Hne]; intros [= <-]; split; simpl; try done; try lia;
    try (rewrite Hp, Hnd'; done).
  - split; [| done]. intros _. split; [done |]. by apply nil_length_inv.
  - rewrite Hnd'. split; [done |]. intros [_ Hnil]. rewrite Hnil in Hlen. by destruct Hne.
  - rewrite Hnd'. naive_solver.
  - rewrite Hnd'. naive_solver.
Qed.

Lemma pool_inv_close p : pool_inv p → pool_inv (close_begin p).
Proof.
  intros Hinv. pose proof Hinv as [Hs Hb Hk Hi Hd Hp]. unfold close_begin. destruct (bp_closed p) eqn:Hc; [done |].
  assert (bp_drained p = false) as Hnd by (destruct (bp_drained p); [destruct (proj1 Hd eq_refl); congruence | done]).
  cbn [bp_slots]. destruct (bool_decide_reflect (bp_slots p = 0)) as [H0 | H0]; split; simpl; try done; try (by rewrite ?Hp, ?Hnd).
  - split; [| done]. intros _. split; [done |]. apply nil_length_inv. lia.
  - rewrite Hnd. split; [done |]. intros [_ Hnil]. rewrite Hnil in Hs. done.
Qed.

Lemma pool_inv_step p e p' : pool_inv p → refresher_step p e p' → pool_inv p'.
Proof.
  intros Hinv Hstep. destruct Hstep as [key p | i p p' Hf | p | p p' c r Hc He].
  - by apply pool_inv_submit.
  - by eapply pool_inv_finish.
  - by apply pool_inv_close.
  - unfold close_end in He. destruct Hinv, c; [simplify_eq; by split |]. destruct (bp_drained p); simplify_eq. by split.
Qed.

Lemma workers_step p e p' : refresher_step p e p' → bp_workers p' = bp_workers p.
Proof.
  destruct 1 as [key p | i p p' Hf | p | p p' c r Hc He].
  - unfold submit. by repeat case_match.
  - unfold finish in Hf. apply bind_Some in Hf as (key & _ & Hf). destruct (bp_slots p); [done |]. by case_match; simplify_eq.
  - unfold close_begin. by repeat case_match.
  - unfold close_end in He. destruct c; [by simplify_eq |]. destruct (bp_drained p); by simplify_eq.
Qed.

(** Once the pool is closed it stays closed, and only finishes. *)
Lemma closed_step p e p' : bp_closed p = true → refresher_step p e p' →
  bp_closed p' = true ∧ sublist (bp_running p') (bp_running p).
Proof.
  intros Hc Hstep. destruct Hstep as [key p | i p p' Hf | p | p p' c r _ He].
  - unfold submit. by rewrite Hc.
  - unfold finish in Hf. apply bind_Some in Hf as (key & _ & Hf). destruct (bp_slots p); [done |].
    case_match; simplify_eq; simpl; (split; [done | apply sublist_delete]).
  - unfold close_begin. by rewrite Hc.
  - unfold close_end in He. destruct c; [by simplify_eq |]. destruct (bp_drained p); by simplify_eq.
Qed.

Lemma reachable workers p : steps (newBackgroundRefresher workers) p → pool_inv p ∧ bp_workers p = workers.
Proof.
  apply (rtc_ind_r (λ p, pool_inv p ∧ bp_workers p = workers)); [split; [apply pool_inv_new | done] |].
  intros p1 p2 _ [e Hstep] [Hinv <-]. split; [by eapply pool_inv_step | by eapply workers_step].
Qed.

Lemma closed_steps p p' : bp_closed p = true → steps p p' → bp_closed p' = true ∧ sublist (bp_running p') (bp_running p).
Proof.
  intros Hc. apply (rtc_ind_r (λ p', bp_closed p' = true ∧ sublist (bp_running p') (bp_running p))); [done |].
  intros p1 p2 _ [e Hstep] [H1 Hs]. destruct (closed_step _ _ _ H1 Hstep) as [H2 Hs']. split; [done | by etrans].
Qed.

Lemma finish_some i p : pool_inv p → i < length (bp_running p) → ∃ p', finish i p = Some p' ∧ length (bp_running p') = length (bp_running p) - 1.
Proof.
  intros [Hs _ _ _ _ _] Hi. apply lookup_lt_is_Some in Hi as [key Hkey]. unfold finish. rewrite Hkey. simpl.
  destruct (bp_slots p) as [| slots]; [by destruct (bp_running p) |].
  case_match; (eexists; split; [done |]); simpl; rewrite length_delete by eauto; lia.
Qed.

(** [n] refreshes finish one after another. *)
Definition finishing (n : nat) (p p' : backgroundRefresher) : Prop := nsteps (λ p p', ∃ i, refresher_step p (Finished i) p') n p p'.

Lemma finishing_drains n p p' : pool_inv p → bp_closed p = true → finishing n p p' → n = length (bp_running p) → bp_drained p' = true.
Proof.
  intros Hinv Hc Hn. induction Hn as [p | n p p1 p' [i Hstep] _ IH]; intros Hlen.
  - apply (pi_drained p Hinv). split; [done |]. by apply nil_length_inv.
  - destruct (closed_step _ _ _ Hc Hstep) as [Hc1 _]. apply IH; [by eapply pool_inv_step | done |].
    inversion Hstep as [| i' q q' Hf | |]; subst. assert (i < length (bp_running p)) as Hi.
    { unfold finish in Hf. apply bind_Some in Hf as (key & Hk & _). by eapply lookup_lt_Some. }
    destruct (finish_some i p Hinv Hi) as (q & Hq & Hl). rewrite Hf in Hq. injection Hq as <-. lia.
Qed.

Lemma finishing_exists n p : pool_inv p → n = length (bp_running p) → ∃ p', finishing n p p'.
Proof.
  revert p. induction n as [| n IH]; intros p Hinv Hn; [exists p; constructor |].
  destruct (finish_some 0 p Hinv) as (p1 & Hf & Hl); [lia |]. destruct (IH p1) as [p' Hp']; [by eapply pool_inv_finish | lia |].
  exists p'. econstructor; [exists 0; by constructor | exact Hp'].
Qed.

(** Claim C33.  At most [workers] background refreshes run at once and at most one per
    session; a finishing refresh never blocks and the pool never closes its channel twice;
    a [Close] that returns without an error leaves none running for ever, and once [Close]
    was called the pool is drained when the running ones have finished. *)
Theorem background_pool_drains workers p (Hr : steps (newBackgroundRefresher workers) p) :
  (length (bp_running p) ≤ workers ∧ NoDup (bp_running p) ∧ bp_panicked p = false) ∧
  (∀ i, i < length (bp_running p) → ∃ p', refresher_step p (Finished i) p') ∧
  (∀ p' p'', refresher_step p (CloseReturned (Ok ())) p' → steps p' p'' → bp_running p'' = []) ∧
  (bp_closed p = true → (∃ p', finishing (length (bp_running p)) p p') ∧
     ∀ p', finishing (length (bp_running p)) p p' → bp_drained p' = true).
Proof.
  destruct (reachable workers p Hr) as [Hinv <-]. pose proof Hinv as [Hs Hb Hk Hi Hd Hp]. split_and!; [lia | done | done | | |].
  - intros i (p' & Hf & _)%(finish_some i p Hinv). exists p'. by constructor.
  - intros p' p'' Hstep Hsteps. inversion Hstep as [| | | q q' c r Hc He]; subst.
    unfold close_end in He. destruct c; [done |]. destruct (bp_drained p) eqn:Hdr; [| done]. destruct (proj1 Hd eq_refl) as [Hcl Hnil].
    injection He as <-. pose proof (λ H, closed_steps _ _ H Hsteps) as Hcs. destruct (Hcs Hcl) as [_ Hsub]. simpl in Hsub. rewrite Hnil in Hsub.
    by apply sublist_nil_r in Hsub.
  - intros Hc. split; [by apply finishing_exists |]. intros p' Hp'. by eapply finishing_drains.
Qed.

(** ** The refresh of one goroutine *)

Section refresh.
Context {E : Type} `{TokenPorts E} {GU : GoURL} {GN : GoNet} {UU : UUID} {PP : ProviderParsers}.
Variable cfg : session_config.

(** What [refresh] does, given the outcome of the flight it led or joined. *)
Definition background_refresh (c : ctx) (principal : Principal) (serviceID : ServiceID)
    (flight : refreshFlightResult * option go_error) : lprog (session_world E) (refreshFlightResult * option go_error) :=
  match flight with
  | (f, None) => continueSharedRefresh cfg c principal serviceID f
  | (f, Some e) => mret (f, Some e)
  end.

(** The outcome it records. *)
Definition background_outcome (r : refreshFlightResult * option go_error) : string :=
  match r.2 with
  | None => if fl_refreshed r.1 then "refreshed" else "not_due"
  | Some e => if is_sentinel ErrSessionNotFound e || bool_decide (em_detail (sessionFailureMetadata e) = DetailSessionMissing)
              then "not_due" else "failed"
  end.
End refresh.

(** Two sessions are being refreshed by two workers, a third is dropped, and the pool is
    closed. *)
Module PoolDemo.
Definition pool : backgroundRefresher :=
  close_begin (submit "c" (submit "a" (submit "b" (submit "a" (newBackgroundRefresher 2)).1).1).1).1.
Lemma pool_reachable : steps (newBackgroundRefresher 2) pool.
Proof.
  assert (∀ key p p', steps (submit key p).1 p' → steps p p') as Hsub.
  { intros key p p' Hs. eapply rtc_l; [exists (Submitted key); apply step_submit | exact Hs]. }
  do 4 eapply Hsub. apply rtc_once. exists CloseCalled. apply step_close.
Qed.
End PoolDemo.

Lemma background_pool_drains_witness :
  bp_running PoolDemo.pool = ["b"; "a"] ∧ (∃ p', finishing 2 PoolDemo.pool p') ∧ ∀ p', finishing 2 PoolDemo.pool p' → bp_drained p' = true.
Proof. split; [reflexivity |]. exact (proj2 (proj2 (proj2 (background_pool_drains 2 PoolDemo.pool PoolDemo.pool_reachable))) eq_refl). Defined.
