(* ===== verification/AuthChallenge.v ===== *)
(** * Challenges of protected resources

    The WWW-Authenticate parser of internal/domain/thirdparty/protected_resource_discovery.go:
    [splitChallenges], [authTokenLength], [challengeParameter] and
    [challengeResourceMetadata].  Text is a list of bytes.  The parser finds the metadata
    URL of every challenge a server can print, and nothing else leads to one. *)

From S2P Require Import Prelude ToolApproval ApprovalStore ApprovalHandlers OAuthSessions UserGrants Consent UriValidation NetPolicy Providers.

Definition trim (l : list ascii) : list ascii := trim_bytes space_seqs l.

Definition backslash : ascii := byte 92.

(** The comma-separated segments from here, [seg] being read; [None]: a quote is open at the
    end. *)
Fixpoint split_challenges (l seg : list ascii) (quoted escaped : bool) : option (list (list ascii)) :=
  match l with
  | [] => if quoted || escaped then None else Some [trim seg]
  | c :: l =>
      if escaped then split_challenges l (seg ++ [c]) quoted false
      else if quoted && bool_decide (c = backslash) then split_challenges l (seg ++ [c]) quoted true
      else if bool_decide (c = dquote) then split_challenges l (seg ++ [c]) (negb quoted) false
      else if bool_decide (c = ","%char) && negb quoted then
        segs ← split_challenges l [] quoted false; Some (trim seg :: segs)
      else split_challenges l (seg ++ [c]) quoted false
  end.
Definition splitChallenges (header : list ascii) : option (list (list ascii)) := split_challenges header [] false false.

Definition is_token_byte (c : ascii) : bool :=
  let n := N_of_ascii c in
  bool_decide (97 ≤ n ≤ 122)%N || bool_decide (65 ≤ n ≤ 90)%N || bool_decide (48 ≤ n ≤ 57)%N ||
  bool_decide (c ∈ bytes "!#$%&'*+-.^_`|~").

Fixpoint authTokenLength (value : list ascii) : nat :=
  match value with c :: l => if is_token_byte c then S (authTokenLength l) else O | [] => O end.

Definition is_control (c : ascii) : bool := let n := N_of_ascii c in bool_decide (n < 32)%N || bool_decide (n = 127)%N.

(** A quoted string after its opening quote; only white space may follow it. *)
Fixpoint quoted_value (l acc : list ascii) : option (list ascii) :=
  match l with
  | [] => None
  | c :: l =>
      if bool_decide (c = dquote) then if bool_decide (trim l = []) then Some acc else None
      else if bool_decide (c = backslash) then
        match l with
        | [] => None
        | d :: l => if is_control d then None else quoted_value l (acc ++ [d])
        end
      else if is_control c then None
      else quoted_value l (acc ++ [c])
  end.

(** The name and value of a parameter, and whether the value was quoted; [None]: not valid. *)
Definition challengeParameter (segment : list ascii) : option (list ascii * list ascii * bool) :=
  let length := authTokenLength segment in
  if bool_decide (length = 0) then None
  else
    match trim (drop length segment) with
    | "="%char :: rest =>
        match trim rest with
        | [] => None
        | c :: rest =>
            if bool_decide (c = dquote) then value ← quoted_value rest []; Some (take length segment, value, true)
            else if bool_decide (authTokenLength (c :: rest) = List.length (c :: rest))
            then Some (take length segment, c :: rest, false) else None
        end
    | _ => None
    end.

(** [strings.Contains(strings.ToLower(s), "resource_metadata")] *)
Definition names_metadata (s : list ascii) : bool := contains_bytes (bytes "resource_metadata") (fold_bytes s).

Section challenges.
Context {GU : GoURL} {GN : GoNet}.

(** The failure code. *)
Definition discoveryURL (raw invalidCode : string) : option string :=
  match url_Parse raw with
  | None => Some invalidCode
  | Some parsed =>
      if negb (nonempty (u_Scheme parsed)) || negb (nonempty (u_Host parsed)) then Some invalidCode
      else if negb (ValidatePublicHTTPSURL raw) then Some "unsafe_destination"
      else None
  end.

Definition resource_metadata_invalid : string := "resource_metadata_invalid".

(** One segment of a header: the scheme in force and the URL found so far. *)
Definition challenge_segment (status : Z) (header scheme : list ascii) (metadataURL : string) (segment : list ascii)
    : result string (list ascii * string) :=
  let rejected_if (s : list ascii) : result string (list ascii * string) :=
    if names_metadata s then Err resource_metadata_invalid else Ok (scheme, metadataURL) in
  let length := authTokenLength segment in
  if bool_decide (segment = []) then rejected_if header
  else if bool_decide (length = 0) then rejected_if segment
  else
    let word := take length segment in
    let rest := trim (drop length segment) in
    let starts_value := bool_decide (head rest = Some "="%char) in
    if negb starts_value && names_metadata word then Err resource_metadata_invalid
    else
      let scheme := if starts_value then scheme else word in
      let segment := if starts_value then segment else rest in
      if bool_decide (segment = []) then Ok (scheme, metadataURL)
      else match challengeParameter segment with
      | None => if names_metadata segment then Err resource_metadata_invalid else Ok (scheme, metadataURL)
      | Some (name, value, quoted) =>
          if negb (fold_eq name (bytes "resource_metadata")) then
            if names_metadata name then Err resource_metadata_invalid else Ok (scheme, metadataURL)
          else if nonempty metadataURL || negb (bool_decide (status = 401)%Z) || negb quoted ||
                  negb (fold_eq scheme (bytes "bearer")) && negb (fold_eq scheme (bytes "dpop"))
          then Err resource_metadata_invalid
          else match discoveryURL (of_bytes value) resource_metadata_invalid with
          | Some code => Err code
          | None => Ok (scheme, of_bytes value)
          end
      end.

Fixpoint challenge_segments (status : Z) (header scheme : list ascii) (metadataURL : string) (segments : list (list ascii))
    : result string string :=
  match segments with
  | [] => Ok metadataURL
  | segment :: segments =>
      match challenge_segment status header scheme metadataURL segment with
      | Err code => Err code
      | Ok (scheme, metadataURL) => challenge_segments status header scheme metadataURL segments
      end
  end.

Fixpoint challenge_headers (status : Z) (metadataURL : string) (headers : list string) : result string string :=
  match headers with
  | [] => Ok metadataURL
  | header :: headers =>
      let header := bytes header in
      match splitChallenges header with
      | None => if names_metadata header then Err resource_metadata_invalid else challenge_headers status metadataURL headers
      | Some segments =>
          match challenge_segments status header [] metadataURL segments with
          | Err code => Err code
          | Ok metadataURL => challenge_headers status metadataURL headers
          end
      end
  end.

(** The metadata URL of the challenges, empty when there is none, or a failure code. *)
Definition challengeResourceMetadata (status : Z) (headers : list string) : result string string :=
  challenge_headers status "" headers.

(** ** What a server prints *)

(** A quoted string; a quote and a backslash are escaped. *)
Definition escape_byte (c : ascii) : list ascii := if bool_decide (c = dquote ∨ c = backslash) then [backslash; c] else [c].
Definition quote (v : list ascii) : list ascii := dquote :: (v ≫= escape_byte) ++ [dquote].
Definition print_param (p : list ascii * list ascii) : list ascii := p.1 ++ "="%char :: quote p.2.
(** The parameters after the first. *)
Definition print_more (ps : list (list ascii * list ascii)) : list ascii := ps ≫= (λ p, ","%char :: " "%char :: print_param p).
Definition print_challenge (scheme : list ascii) (p : list ascii * list ascii) (ps : list (list ascii * list ascii)) : list ascii :=
  scheme ++ " "%char :: print_param p ++ print_more ps.

Definition token (l : list ascii) : Prop := l ≠ [] ∧ Forall (λ c, is_token_byte c = true) l.
(** A parameter of the grammar. *)
Definition param_ok (p : list ascii * list ascii) : Prop := token p.1 ∧ Forall (λ c, is_control c = false) p.2.

Lemma token_byte_plain c : is_token_byte c = true → c ≠ dquote ∧ c ≠ backslash ∧ c ≠ ","%char ∧ c ≠ "="%char ∧ c ≠ " "%char.
Proof. intros Hc. split_and!; intros ->; vm_compute in Hc; done. Qed.

(** *** Splitting *)

(** Text the splitter passes over: outside quotes before and after it. *)
Definition atomic (l : list ascii) : Prop := ∀ r seg, split_challenges (l ++ r) seg false false = split_challenges r (seg ++ l) false false.

Lemma atomic_app l1 l2 : atomic l1 → atomic l2 → atomic (l1 ++ l2).
Proof. intros H1 H2 r seg. by rewrite <-app_assoc, H1, H2, app_assoc. Qed.
Lemma atomic_byte c : c ≠ dquote → c ≠ ","%char → atomic [c].
Proof. intros H1 H2 r seg. simpl. rewrite (bool_decide_false (c = dquote)), (bool_decide_false (c = ","%char)) by done. done. Qed.
Lemma atomic_space : atomic [" "%char].
Proof. by apply atomic_byte. Qed.
Lemma atomic_nil : atomic [].
Proof. intros r seg. by rewrite app_nil_r. Qed.
Lemma atomic_token l : Forall (λ c, is_token_byte c = true) l → atomic l.
Proof.
  induction 1 as [| c l Hc _ IH]; [apply atomic_nil |]. apply (atomic_app [c]); [| done].
  apply token_byte_plain in Hc as (? & ? & ? & _). by apply atomic_byte.
Qed.

Lemma split_escaped v r seg :
  split_challenges ((v ≫= escape_byte) ++ r) seg true false = split_challenges r (seg ++ (v ≫= escape_byte)) true false.
Proof.
  revert seg. induction v as [| c v IH]; intros seg; [by rewrite app_nil_r |]. cbn [mbind list_bind]. unfold escape_byte at 1 3.
  case_bool_decide as Hc; cbn [app split_challenges].
  - rewrite (bool_decide_true (backslash = backslash)) by done. cbn [andb]. cbn [split_challenges]. rewrite IH. by rewrite <-!app_assoc.
  - rewrite (bool_decide_false (c = backslash)), (bool_decide_false (c = dquote)) by naive_solver. cbn [andb negb].
    rewrite andb_false_r. rewrite IH. by rewrite <-!app_assoc.
Qed.
Lemma atomic_quote v : atomic (quote v).
Proof.
  intros r seg. unfold quote. cbn [app split_challenges]. rewrite (bool_decide_true (dquote = dquote)) by done. cbn [andb negb].
  rewrite <-app_assoc, split_escaped. cbn [app split_challenges]. rewrite (bool_decide_true (dquote = dquote)) by done.
  rewrite (bool_decide_false (dquote = backslash)) by done. cbn [andb negb]. by rewrite <-!app_assoc.
Qed.
Lemma atomic_param p : param_ok p → atomic (print_param p).
Proof.
  intros [[_ Ht] _]. unfold print_param. apply atomic_app; [by apply atomic_token |].
  apply (atomic_app ["="%char]); [by apply atomic_byte | apply atomic_quote].
Qed.

(** *** White space *)

Lemma trim_space l : trim (" "%char :: l) = trim l.
Proof. reflexivity. Qed.

(** Text that begins with a printable byte and ends with a quote. *)
Lemma trim_quoted c l : (is_token_byte c = true ∨ c = "="%char ∨ c = dquote) → trim (c :: l ++ [dquote]) = c :: l ++ [dquote].
Proof.
  intros Hc. apply trim_bytes_id; [| by rewrite app_comm_cons, reverse_app].
  destruct c as [[] [] [] [] [] [] [] []]; try reflexivity; destruct Hc as [Hc | [Hc | Hc]]; vm_compute in Hc; done.
Qed.
Lemma print_param_end p : ∃ l, print_param p = l ++ [dquote].
Proof.
  exists (p.1 ++ "="%char :: dquote :: (p.2 ≫= escape_byte)). unfold print_param, quote. by rewrite <-app_assoc.
Qed.
Lemma trim_param p : param_ok p → trim (print_param p) = print_param p.
Proof.
  intros [[Hne Ht] _]. destruct (print_param_end p) as [l Hl]. pose proof Hl as Hl'. unfold print_param in Hl at 1.
  destruct p.1 as [| c name]; [done |]. rewrite Hl'. destruct l as [| d l]; [simplify_eq; by destruct name |].
  injection Hl as <- _. apply (trim_quoted c). left. by apply Forall_inv in Ht.
Qed.

Lemma split_printed segs : Forall (λ s, atomic s ∧ trim s = s) segs →
  ∀ seg, split_challenges (segs ≫= (λ s, ","%char :: " "%char :: s)) seg false false = Some (trim seg :: segs).
Proof.
  induction 1 as [| s segs [Hs Ht] _ IH]; intros seg; [done |]. cbn [mbind list_bind].
  change ((","%char :: " "%char :: s) ++ (segs ≫= (λ s, ","%char :: " "%char :: s)))
    with (","%char :: ([" "%char] ++ s) ++ (segs ≫= (λ s, ","%char :: " "%char :: s))).
  cbn [split_challenges]. rewrite (bool_decide_false (","%char = dquote)), (bool_decide_true (","%char = ","%char)) by done. cbn [andb negb].
  rewrite (atomic_app _ s atomic_space Hs). rewrite IH. cbn [mbind option_bind app]. by rewrite trim_space, Ht.
Qed.

(** *** Parameters *)

Lemma authTokenLength_app l r : Forall (λ c, is_token_byte c = true) l → authTokenLength r = 0 → authTokenLength (l ++ r) = length l.
Proof. induction 1 as [| c l Hc _ IH]; intros Hr; simpl; [done |]. by rewrite Hc, IH. Qed.

Lemma quoted_value_print v acc : Forall (λ c, is_control c = false) v →
  quoted_value ((v ≫= escape_byte) ++ [dquote]) acc = Some (acc ++ v).
Proof.
  intros Hv. revert acc. induction Hv as [| c v Hc _ IH]; intros acc.
  { cbn. by rewrite app_nil_r. }
  cbn [mbind list_bind]. unfold escape_byte at 1. case_bool_decide as Hq; cbn [app quoted_value].
  - rewrite (bool_decide_false (backslash = dquote)), (bool_decide_true (backslash = backslash)), Hc by done.
    rewrite IH. by rewrite <-app_assoc.
  - rewrite (bool_decide_false (c = dquote)), (bool_decide_false (c = backslash)), Hc by naive_solver. rewrite IH. by rewrite <-app_assoc.
Qed.

Lemma print_param_length p : param_ok p → authTokenLength (print_param p) = length p.1.
Proof. intros [[_ Ht] _]. unfold print_param. by apply authTokenLength_app. Qed.

Lemma print_param_rest p : drop (length p.1) (print_param p) = "="%char :: quote p.2.
Proof. unfold print_param. by rewrite drop_app_length. Qed.

Lemma trim_value v : trim (quote v) = quote v.
Proof. apply (trim_quoted dquote). tauto. Qed.
Lemma trim_equals v : trim ("="%char :: quote v) = "="%char :: quote v.
Proof. unfold quote. change (dquote :: (v ≫= escape_byte) ++ [dquote]) with ((dquote :: (v ≫= escape_byte)) ++ [dquote]). apply trim_quoted. tauto. Qed.

Lemma challengeParameter_print p : param_ok p → challengeParameter (print_param p) = Some (p.1, p.2, true).
Proof.
  intros Hp. unfold challengeParameter. rewrite print_param_length, print_param_rest by done. destruct Hp as [[Hne Ht] Hv].
  rewrite bool_decide_false by (by destruct p.1). rewrite trim_equals, trim_value. unfold quote at 1.
  rewrite bool_decide_true by done. rewrite quoted_value_print by done. cbn. unfold print_param. by rewrite take_app_length.
Qed.

(** *** Names *)

Lemma token_fold l : Forall (λ c, is_token_byte c = true) l → fold_bytes l = lower_byte <$> l.
Proof.
  induction 1 as [| c l Hc _ IH]; [done |]. cbn [fold_bytes].
  assert (strip_prefix [byte 196; byte 176] (c :: l) = None) as -> by (simpl; case_decide; [by subst | done]).
  assert (strip_prefix [byte 226; byte 132; byte 170] (c :: l) = None) as -> by (simpl; case_decide; [by subst | done]).
  cbn. by rewrite IH.
Qed.

Lemma token_fold_eq l w : Forall (λ c, is_token_byte c = true) l → fold_eq l w = true → lower_byte <$> l = w.
Proof.
  intros Hl. revert w. induction Hl as [| c l Hc _ IH]; intros [| x w]; cbn [fold_eq]; try done.
  case_bool_decide as Hx; [intros Hf; cbn; by rewrite Hx, (IH w) |]. intros [_ Hf]%andb_true_iff. exfalso.
  destruct l as [| d r]; [done |]. apply andb_true_iff in Hf as [[-> ->]%bool_decide_eq_true_1 _]. by vm_compute in Hc.
Qed.

Lemma not_metadata name : Forall (λ c, is_token_byte c = true) name → names_metadata name = false →
  fold_eq name (bytes "resource_metadata") = false.
Proof.
  intros Ht Hn. apply not_true_is_false. intros Hf. unfold names_metadata in Hn. rewrite token_fold in Hn by done.
  rewrite (token_fold_eq _ _ Ht Hf) in Hn. by vm_compute in Hn.
Qed.

(** *** The challenge *)

Lemma segment_param status header scheme url p : param_ok p →
  challenge_segment status header scheme url (print_param p) =
  if negb (fold_eq p.1 (bytes "resource_metadata")) then
    if names_metadata p.1 then Err resource_metadata_invalid else Ok (scheme, url)
  else if nonempty url || negb (bool_decide (status = 401)%Z) || negb (fold_eq scheme (bytes "bearer")) && negb (fold_eq scheme (bytes "dpop"))
  then Err resource_metadata_invalid
  else match discoveryURL (of_bytes p.2) resource_metadata_invalid with Some code => Err code | None => Ok (scheme, of_bytes p.2) end.
Proof.
  intros Hp. unfold challenge_segment. cbv zeta. rewrite print_param_length, print_param_rest, trim_equals by done.
  pose proof Hp as [[Hne Ht] Hv].
  assert (print_param p ≠ []) as Hnil by (unfold print_param; by destruct p.1).
  rewrite (bool_decide_false (print_param p = [])), (bool_decide_false (length p.1 = 0)) by (done || by destruct p.1). cbn [head].
  rewrite (bool_decide_true (Some "="%char = Some "="%char)) by done. cbn [negb andb].
  rewrite (bool_decide_false (print_param p = [])) by done. rewrite challengeParameter_print by done. cbn [negb]. by rewrite orb_false_r.
Qed.

Lemma segment_first status header scheme0 scheme url p : token scheme → names_metadata scheme = false → param_ok p →
  challenge_segment status header scheme0 url (scheme ++ " "%char :: print_param p) =
  challenge_segment status header scheme url (print_param p).
Proof.
  intros [Hne Hs] Hm Hp. rewrite segment_param by done. unfold challenge_segment. cbv zeta.
  rewrite authTokenLength_app by done. rewrite drop_app_length, take_app_length, trim_space, trim_param by done.
  rewrite (bool_decide_false (scheme ++ _ = [])) by (by destruct scheme). rewrite (bool_decide_false (length scheme = 0)) by (by destruct scheme).
  pose proof Hp as [[Hpne Ht] Hv].
  assert (head (print_param p) ≠ Some "="%char) as Hh.
  { unfold print_param. destruct p.1 as [| c name]; [done |]. apply Forall_inv, token_byte_plain in Ht as (_ & _ & _ & ? & _). simpl. congruence. }
  rewrite (bool_decide_false (head _ = _)) by done. cbn [negb andb]. rewrite Hm. cbn [andb].
  rewrite (bool_decide_false (print_param p = [])) by (unfold print_param; by destruct p.1).
  rewrite challengeParameter_print by done. cbn [negb]. by rewrite orb_false_r.
Qed.

Lemma segments_other status header scheme url ps : Forall (λ p, param_ok p ∧ names_metadata p.1 = false) ps →
  challenge_segments status header scheme url (print_param <$> ps) = Ok url.
Proof.
  induction 1 as [| p ps [Hp Hm] _ IH]; [done |]. cbn [fmap list_fmap challenge_segments]. rewrite segment_param by done.
  rewrite not_metadata, Hm by (done || apply Hp). exact IH.
Qed.

Lemma segments_metadata header scheme ps1 name url ps2 :
  Forall (λ p, param_ok p ∧ names_metadata p.1 = false) ps1 → Forall (λ p, param_ok p ∧ names_metadata p.1 = false) ps2 →
  param_ok (name, url) → fold_eq name (bytes "resource_metadata") = true →
  fold_eq scheme (bytes "bearer") || fold_eq scheme (bytes "dpop") = true →
  challenge_segments 401 header scheme "" (print_param <$> ps1 ++ (name, url) :: ps2) =
  match discoveryURL (of_bytes url) resource_metadata_invalid with Some code => Err code | None => Ok (of_bytes url) end.
Proof.
  intros H1 H2 Hp Hname Hs. rewrite fmap_app. induction H1 as [| p ps1 [Hp1 Hm] _ IH].
  - cbn [app fmap list_fmap challenge_segments]. rewrite segment_param by done. cbn [fst snd]. rewrite Hname. cbn [negb].
    rewrite (bool_decide_true (401 = 401)%Z) by done. rewrite <-negb_orb, Hs. cbn.
    destruct (discoveryURL _ _); [done |]. by apply segments_other.
  - cbn [app fmap list_fmap challenge_segments]. rewrite segment_param by done. rewrite not_metadata, Hm by (done || apply Hp1). exact IH.
Qed.

(** A printed challenge splits into the scheme with its first parameter, and the others. *)
Lemma split_print_challenge scheme p ps : token scheme → Forall param_ok (p :: ps) →
  splitChallenges (print_challenge scheme p ps) = Some ((scheme ++ " "%char :: print_param p) :: (print_param <$> ps)).
Proof.
  intros [Hne Ht] [Hp Hrest]%Forall_cons.
  unfold splitChallenges, print_challenge. change (scheme ++ " "%char :: print_param p ++ print_more ps)
    with (scheme ++ ([" "%char] ++ print_param p) ++ print_more ps). rewrite app_assoc.
  rewrite (atomic_app scheme ([" "%char] ++ print_param p) (atomic_token _ Ht)
    (atomic_app _ _ atomic_space (atomic_param p Hp))). cbn [app].
  assert (print_more ps = (print_param <$> ps) ≫= (λ s, ","%char :: " "%char :: s)) as ->.
  { unfold print_more. clear. induction ps as [| p ps IH]; [done |]. cbn. by rewrite IH. }
  rewrite split_printed.
  - do 2 f_equal. destruct scheme as [| c scheme]; [done |]. destruct (print_param_end p) as [l ->].
    change ((c :: scheme) ++ " "%char :: l ++ [dquote]) with (c :: scheme ++ (" "%char :: l) ++ [dquote]).
    rewrite (app_assoc scheme). apply trim_quoted. left. by apply Forall_inv in Ht.
  - apply Forall_fmap. eapply Forall_impl; [exact Hrest |]. intros q Hq. split; [by apply atomic_param | by apply trim_param].
Qed.

(** The metadata URL of a challenge round-trips: whatever a server prints as
    quoted parameters of a Bearer or DPoP challenge, also with commas, quotes and
    backslashes in the values, the URL found is the one of its [resource_metadata]
    parameter, if that is a public URL. *)
Theorem challenge_round_trip scheme p ps ps1 name url ps2
    (Hscheme : token scheme) (Hkind : fold_eq scheme (bytes "bearer") || fold_eq scheme (bytes "dpop") = true)
    (Hps : p :: ps = ps1 ++ (name, url) :: ps2) (Hok : Forall param_ok (p :: ps))
    (Hname : fold_eq name (bytes "resource_metadata") = true)
    (Hother : Forall (λ q, names_metadata q.1 = false) (ps1 ++ ps2)) :
  challengeResourceMetadata 401 [of_bytes (print_challenge scheme p ps)] =
  match discoveryURL (of_bytes url) resource_metadata_invalid with Some code => Err code | None => Ok (of_bytes url) end.
Proof.
  assert (names_metadata scheme = false) as Hm.
  { destruct Hscheme as [_ Ht]. unfold names_metadata. rewrite token_fold by done.
    apply orb_true_iff in Hkind as [Hk | Hk]; by rewrite (token_fold_eq _ _ Ht Hk). }
  unfold challengeResourceMetadata. cbn [challenge_headers]. rewrite bytes_of_bytes.
  rewrite split_print_challenge by done.
  pose proof Hok as [Hp Hrest]%Forall_cons. destruct Hscheme as [Hne Ht].
  cbn [challenge_segments]. rewrite segment_first by done.
  pose proof (λ H1 H2 H3, segments_metadata (print_challenge scheme p ps) scheme ps1 name url ps2 H1 H2 H3 Hname Hkind) as Hseg.
  rewrite <-Hps in Hseg. cbn [fmap list_fmap challenge_segments] in Hseg. rewrite Hps in Hok.
  apply Forall_app in Hok as [Hok1 [Hurl Hok2]%Forall_cons]. apply Forall_app in Hother as [Ho1 Ho2].
  rewrite Hseg; [by destruct (discoveryURL _ _) | by apply Forall_and | by apply Forall_and | done].
Qed.

(** The URL of a challenge is public, and only a 401 response has one. *)
Lemma challenge_sound status headers url : challengeResourceMetadata status headers = Ok url →
  url = "" ∨ status = 401%Z ∧ discoveryURL url resource_metadata_invalid = None.
Proof.
  set (good u := u = "" ∨ status = 401%Z ∧ discoveryURL u resource_metadata_invalid = None).
  assert (∀ header scheme u segment s' u', good u → challenge_segment status header scheme u segment = Ok (s', u') → good u') as Hseg.
  { intros header scheme u segment s' u' Hu. unfold challenge_segment. repeat (case_match; try done); intros; simplify_eq; try done.
    all: right; split; [| done]; match goal with H : _ || _ || _ || _ = false |- _ =>
      apply orb_false_iff in H as [[[_ H]%orb_false_iff _]%orb_false_iff _]; by apply negb_false_iff, bool_decide_eq_true_1 in H end. }
  assert (∀ header segments scheme u u', good u → challenge_segments status header scheme u segments = Ok u' → good u') as Hsegs.
  { intros header segments. induction segments as [| s segments IH]; intros scheme u u' Hu; simpl; [by intros [= <-] |].
    destruct (challenge_segment _ _ _ _ _) as [[s' u1] |] eqn:Hs; [| done]. apply IH. by eapply Hseg. }
  enough (∀ u, good u → challenge_headers status u headers = Ok url → good url) as Hall by exact (Hall "" (or_introl eq_refl)).
  induction headers as [| h headers IH]; intros u Hu; simpl; [by intros [= <-] |]. destruct (splitChallenges _) as [segments |].
  - destruct (challenge_segments _ _ _ _ _) as [u1 |] eqn:Hs; [| done]. apply IH. by eapply Hsegs.
  - destruct (names_metadata _); [done |]. by apply IH.
Qed.
(** The failures of a challenge. *)
Lemma challenge_code status headers code : challengeResourceMetadata status headers = Err code →
  code = resource_metadata_invalid ∨ code = "unsafe_destination".
Proof.
  assert (∀ header scheme u segment c, challenge_segment status header scheme u segment = Err c →
    c = resource_metadata_invalid ∨ c = "unsafe_destination") as Hseg.
  { intros header scheme u segment c. unfold challenge_segment, discoveryURL. repeat (case_match; try done); intros; simplify_eq; auto. }
  assert (∀ header segments scheme u c, challenge_segments status header scheme u segments = Err c →
    c = resource_metadata_invalid ∨ c = "unsafe_destination") as Hsegs.
  { intros header segments. induction segments as [| s segments IH]; intros scheme u c; simpl; [done |].
    destruct (challenge_segment _ _ _ _ _) as [[s' u1] | c'] eqn:Hs; [apply IH | intros [= <-]; by eapply Hseg]. }
  enough (∀ u, challenge_headers status u headers = Err code → code = resource_metadata_invalid ∨ code = "unsafe_destination") as Hall by apply Hall.
  induction headers as [| h headers IH]; intros u; simpl; [done |].
  destruct (splitChallenges _) as [segments |].
  - destruct (challenge_segments _ _ _ _ _) as [u1 | c] eqn:Hs; [apply IH | intros [= <-]; by eapply Hsegs].
  - destruct (names_metadata _); [intros [= <-]; by left | apply IH].
Qed.
End challenges.

(** ** A concrete parser *)

Module ChallengeDemo.
(** Plain https URLs: a host and a path. *)
Fixpoint split_path (l host : list ascii) : list ascii * list ascii :=
  match l with
  | [] => (host, [])
  | c :: l => if bool_decide (c = "/"%char) then (host, c :: l) else split_path l (host ++ [c])
  end.
Definition mini_parse (s : string) : option URL :=
  r ← strip_prefix (bytes "https://") (bytes s);
  let '(host, path) := split_path r [] in
  Some {| u_Scheme := "https"; u_Opaque := ""; u_User := None; u_Host := of_bytes host; u_Path := of_bytes path; u_RawPath := "";
          u_OmitHost := false; u_ForceQuery := false; u_RawQuery := ""; u_Fragment := ""; u_RawFragment := "" |}.
Definition mini_URL : GoURL := Build_GoURL mini_parse mini_parse (λ _, "") u_Path Some.
Definition mini_Net : GoNet := Build_GoNet (λ _, None) (λ _, None).
Definition realm : list ascii * list ascii := (bytes "realm", bytes "files, and more" ++ [dquote; backslash]).
Definition metadata : list ascii * list ascii := (bytes "resource_metadata", bytes "https://api.example/meta").
End ChallengeDemo.

Lemma challenge_round_trip_witness :
  challengeResourceMetadata (GU:=ChallengeDemo.mini_URL) (GN:=ChallengeDemo.mini_Net) 401
    [of_bytes (print_challenge (bytes "Bearer") ChallengeDemo.realm [ChallengeDemo.metadata])] = Ok "https://api.example/meta".
Proof.
  refine (challenge_round_trip (GU:=ChallengeDemo.mini_URL) (GN:=ChallengeDemo.mini_Net) (bytes "Bearer") ChallengeDemo.realm
    [ChallengeDemo.metadata] [ChallengeDemo.realm] (bytes "resource_metadata") (bytes "https://api.example/meta") [] _ _ eq_refl _ _ _).
  - split; [done |]. repeat constructor.
  - reflexivity.
  - repeat (constructor; [split; [split; [done | repeat constructor] | repeat constructor] |]). constructor.
  - reflexivity.
  - repeat constructor.
Defined.
