(* ===== verification/ResourceDiscovery.v ===== *)
(** * Protected-resource discovery

    internal/domain/thirdparty/protected_resource_discovery.go: from the URL of a protected
    resource to its authorization server, the server's validated metadata, and a way for
    the broker to be its client, registering one if it must.  The HTTP client
    (ports/oauth_discovery.go) and encoding/json are classes; every outbound request is
    recorded.  WWW-Authenticate is parsed in AuthChallenge.v. *)

From S2P Require Import Prelude ToolApproval ApprovalStore ApprovalHandlers OAuthSessions UserGrants Consent UriValidation NetPolicy Providers BrokerErrors ProviderTokens AuthChallenge.

(** ** Documents *)

Record protectedResourceMetadata := ResourceMetadata { rm_Resource : string; rm_AuthorizationServers : list string }.

(** A missing or null list is [None]. *)
Record authorizationServerMetadata := ServerMetadata {
  sm_Issuer : string;
  sm_AuthorizationEndpoint : string;
  sm_TokenEndpoint : string;
  sm_JWKSURI : option string;
  sm_RegistrationEndpoint : option string;
  sm_ClientIDMetadataDocumentSupported : bool;
  sm_TokenEndpointAuthMethodsSupported : option (list string);
  sm_TokenEndpointAuthSigningAlgs : list string;
  sm_CodeChallengeMethodsSupported : list string;
}.

Record registration_request := RegistrationRequest {
  rr_RedirectURIs : list string;
  rr_ClientName : string;
  rr_ApplicationType : string;
  rr_GrantTypes : list string;
  rr_ResponseTypes : list string;
  rr_TokenEndpointAuthMethod : string;
}.

(** encoding/json: the members of a text that is one object, with their raw values; the
    typed readings of a text. *)
Class DiscoveryJSON := {
  json_Members : string → option (list (string * string));
  json_ResourceMetadata : string → option protectedResourceMetadata;
  json_ServerMetadata : string → option authorizationServerMetadata;
  json_String : string → option string;
  json_Strings : string → option (list string);
  json_Int64 : string → option Z;
  json_Registration : registration_request → string;
}.

(** [decodeUniqueJSONMembers] *)
Fixpoint unique_members (l : list (string * string)) (members : gmap string string) : option (gmap string string) :=
  match l with
  | [] => Some members
  | (name, value) :: l => if decide (is_Some (members !! name)) then None else unique_members l (<[name := value]> members)
  end.
Definition decodeUniqueJSONMembers `{DiscoveryJSON} (body : string) : option (gmap string string) :=
  l ← json_Members body; unique_members l ∅.

(** ** Errors *)

(** The sentinels [errors.Is] finds in an error of the client. *)
Inductive discovery_cause :=
  | ErrOAuthDiscoveryTimeout | ErrOAuthDiscoveryUnsafeDestination | ErrOAuthDiscoveryResponseTooLarge
  | ErrOAuthDiscoveryNotFound | ErrOAuthDiscoveryInvalidResponse | CauseDeadlineExceeded.
#[export] Instance discovery_cause_eq_dec : EqDecision discovery_cause.
Proof. solve_decision. Defined.
Abbreviation client_error := (list discovery_cause).

(** [DiscoveryPanic]: a URL that does not parse is dereferenced. *)
Inductive discovery_error :=
  | DiscoveryError (code : string) (servers : list string)
  | DiscoveryCanceled
  | DiscoveryPanic.
Definition discoveryFailure (code : string) : discovery_error := DiscoveryError code [].

Definition ctx_cause (x : ctx_error) : client_error := match x with DeadlineExceeded => [CauseDeadlineExceeded] | Canceled => [] end.

(** ** The environment *)

Inductive discovery_request := Probed (url : string) | Fetched (url : string) | Posted (url body : string).

(** The requests that left, latest first. *)
Record traced (E : Type) := Traced { tr_env : E; tr_requests : list discovery_request }.
Arguments Traced {E} _ _.
Arguments tr_env {E} _.
Arguments tr_requests {E} _.

Class DiscoveryPorts (E : Type) := {
  dp_ctx_Err : ctx → E → E * option ctx_error;
  dp_Probe : string → E → E * result client_error (Z * list string);
  dp_GetJSON : string → E → E * result client_error string;
  dp_PostJSON : string → string → E → E * result client_error string;
  dp_RequireUsablePublishedKey : E → E * bool;
}.

(** The service's configuration: what was injected, and the deployment's names. *)
Record discovery_config := DiscoveryDeployment {
  dd_has_client : bool;
  dd_has_key_readiness : bool;
  dd_cimdPublicURL : string;
  dd_dcrClientName : string;
}.

(** The selected client configuration. *)
Record discoveredProviderConfiguration := Discovered {
  dv_issuer : string;
  dv_endpoints : OAuth2Endpoints;
  dv_method : string;
  dv_auth : string;
  dv_registration : string;
  dv_clientID : string;
  dv_secret : Secret;
}.

Section discovery.
Context {E : Type} `{DiscoveryPorts E} {GU : GoURL} {GN : GoNet} {PP : ProviderParsers} {DJ : DiscoveryJSON}.
Variable cfg : discovery_config.

Abbreviation DM := (prog (traced E)).
Abbreviation DR A := (DM (result discovery_error A)).

Definition env_port {A} (f : E → E * A) : DM A := act (λ w, let '(e, a) := f (tr_env w) in (Traced e (tr_requests w), a)).
Definition request {A} (r : discovery_request) (f : E → E * A) : DM A :=
  act (λ w, let '(e, a) := f (tr_env w) in (Traced e (r :: tr_requests w), a)).
Definition ended (c : ctx) : DM (option ctx_error) := env_port (dp_ctx_Err c).

(** Transport errors become codes of a fixed vocabulary. *)
Definition discoveryReadFailure (c : ctx) (err : client_error) (document : string) : DM discovery_error :=
  e ← ended c;
  mret match e with
  | Some Canceled => DiscoveryCanceled
  | Some DeadlineExceeded => discoveryFailure "timeout"
  | None =>
      discoveryFailure
        (if bool_decide (ErrOAuthDiscoveryTimeout ∈ err) || bool_decide (CauseDeadlineExceeded ∈ err) then "timeout"
         else if bool_decide (ErrOAuthDiscoveryUnsafeDestination ∈ err) then "unsafe_destination"
         else if bool_decide (ErrOAuthDiscoveryResponseTooLarge ∈ err) then "response_too_large"
         else if bool_decide (ErrOAuthDiscoveryNotFound ∈ err) then document +:+ "_not_found"
         else if bool_decide (ErrOAuthDiscoveryInvalidResponse ∈ err) then document +:+ "_invalid"
         else document +:+ "_unavailable")
  end.
Definition read_failure {A} (c : ctx) (err : client_error) (document : string) : DR A :=
  e ← discoveryReadFailure c err document; mret (Err e).
Definition failure {A} (code : string) : DR A := mret (Err (discoveryFailure code)).

(** The failure of a value that has to be a public URL. *)
Definition check_urls (urls : list string) (invalidCode : string) : option string :=
  head (omap (λ u, discoveryURL u invalidCode) urls).

Fixpoint discoveryDocument (c : ctx) (locations : list string) (kind : string) : DR string :=
  match locations with
  | [] => failure (kind +:+ "_not_found")
  | location :: locations =>
      e ← ended c;
      match e with
      | Some x => read_failure c (ctx_cause x) kind
      | None =>
          r ← request (Fetched location) (dp_GetJSON location);
          e ← ended c;
          match e, r with
          | Some x, _ => read_failure c (ctx_cause x) kind
          | None, Ok body => mret (Ok body)
          | None, Err err =>
              if bool_decide (ErrOAuthDiscoveryNotFound ∈ err) && bool_decide (locations ≠ []) then discoveryDocument c locations kind
              else read_failure c err kind
          end
      end
  end.

(** ** The resource (RFC 9728) *)

(** [None]: a resource URL that does not parse is dereferenced. *)
Definition resource_locations (challengeURL resourceURL : string) : option (list string) :=
  if nonempty challengeURL then Some [challengeURL]
  else
    resource ← url_Parse resourceURL;
    let root := u_Scheme resource +:+ "://" +:+ u_Host resource +:+ "/.well-known/oauth-protected-resource" in
    let path := url_EscapedPath resource in
    Some ((if nonempty path && negb (bool_decide (path = "/")) then [root +:+ path] else []) ++ [root]).

(** The advertised issuers, each public, plain and named once; or the failure code. *)
Fixpoint check_issuers (servers : list string) (seen : list string) : option string :=
  match servers with
  | [] => None
  | issuer :: servers =>
      match discoveryURL issuer resource_metadata_invalid with
      | Some code => Some code
      | None =>
          let plain := match url_Parse issuer with
                       | Some u => negb (nonempty (u_RawQuery u)) && negb (u_ForceQuery u) && negb (nonempty (u_Fragment u))
                       | None => false
                       end in
          if negb plain || bool_decide (issuer ∈ seen) then Some resource_metadata_invalid
          else check_issuers servers (issuer :: seen)
      end
  end.

(** The issuer the document of a resource selects. *)
Definition select_issuer (metadata : protectedResourceMetadata) (resourceURL requestedIssuer : string) : result discovery_error string :=
  let fail code : result discovery_error string := Err (discoveryFailure code) in
  let servers := rm_AuthorizationServers metadata in
  if negb (nonempty (rm_Resource metadata)) then fail resource_metadata_invalid
  else if negb (bool_decide (rm_Resource metadata = resourceURL)) then fail "resource_mismatch"
  else if bool_decide (servers = []) then fail "authorization_server_missing"
  else match check_issuers servers [] with
  | Some code => fail code
  | None =>
      if nonempty requestedIssuer then
        if bool_decide (requestedIssuer ∈ servers) then Ok requestedIssuer else fail "issuer_not_advertised"
      else match servers with
      | [issuer] => Ok issuer
      | _ => Err (DiscoveryError "issuer_selection_required" servers)
      end
  end.

Definition resourceIssuer (c : ctx) (resourceURL requestedIssuer : string) : DR string :=
  r ← request (Probed resourceURL) (dp_Probe resourceURL);
  e ← ended c;
  match e, r with
  | Some x, _ => read_failure c (ctx_cause x) "resource_metadata"
  | None, Err err =>
      if bool_decide (ErrOAuthDiscoveryNotFound ∈ err) then failure "resource_metadata_unavailable"
      else read_failure c err "resource_metadata"
  | None, Ok (status, challenges) =>
      match challengeResourceMetadata status challenges with
      | Err code => failure code
      | Ok challengeURL =>
          match resource_locations challengeURL resourceURL with
          | None => mret (Err DiscoveryPanic)
          | Some locations =>
              r ← discoveryDocument c locations "resource_metadata";
              match r with
              | Err e => mret (Err e)
              | Ok body =>
                  match decodeUniqueJSONMembers body, json_ResourceMetadata body with
                  | Some _, Some metadata => mret (select_issuer metadata resourceURL requestedIssuer)
                  | _, _ => failure resource_metadata_invalid
                  end
              end
          end
      end
  end.

(** ** The authorization server (RFC 8414) *)

Definition server_metadata_invalid : string := "authorization_server_metadata_invalid".

Definition issuer_locations (issuer : string) : option (list string) :=
  parsed ← url_Parse issuer;
  let origin := u_Scheme parsed +:+ "://" +:+ u_Host parsed in
  let path := TrimRightSlash (url_EscapedPath parsed) in
  Some ([origin +:+ "/.well-known/oauth-authorization-server" +:+ path; origin +:+ "/.well-known/openid-configuration" +:+ path] ++
        (if nonempty path then [origin +:+ path +:+ "/.well-known/openid-configuration"] else [])).

(** The endpoints of the server's document, or the failure. *)
Definition check_server (issuer : string) (members : gmap string string) (metadata : authorizationServerMetadata)
    : result discovery_error OAuth2Endpoints :=
  let fail code : result discovery_error OAuth2Endpoints := Err (discoveryFailure code) in
  if negb (nonempty (sm_Issuer metadata)) then fail server_metadata_invalid
  else if bool_decide (sm_TokenEndpointAuthMethodsSupported metadata = None) &&
          bool_decide (is_Some (members !! "token_endpoint_auth_methods_supported")) then fail server_metadata_invalid
  else if negb (bool_decide (sm_Issuer metadata = issuer)) then fail "issuer_mismatch"
  else match check_urls ([sm_AuthorizationEndpoint metadata; sm_TokenEndpoint metadata] ++
                         option_list (sm_JWKSURI metadata) ++ option_list (sm_RegistrationEndpoint metadata))
               server_metadata_invalid with
  | Some code => fail code
  | None =>
      match url_Parse (sm_TokenEndpoint metadata) with
      | None => Err DiscoveryPanic
      | Some tokenURL =>
          match url_ParseQuery (u_RawQuery tokenURL) with
          | None => fail server_metadata_invalid
          | Some names =>
              if existsb IsDiscoveryResourceParamName names then fail server_metadata_invalid
              else Ok (MkEndpoints (sm_TokenEndpoint metadata) (sm_AuthorizationEndpoint metadata) (default "" (sm_JWKSURI metadata)))
          end
      end
  end.

Definition issuerMetadata (c : ctx) (issuer : string) : DR (authorizationServerMetadata * OAuth2Endpoints) :=
  match issuer_locations issuer with
  | None => mret (Err DiscoveryPanic)
  | Some locations =>
      r ← discoveryDocument c locations "authorization_server_metadata";
      match r with
      | Err e => mret (Err e)
      | Ok body =>
          match decodeUniqueJSONMembers body, json_ServerMetadata body with
          | Some members, Some metadata =>
              mret match check_server issuer members metadata with
                   | Ok endpoints => Ok (metadata, endpoints)
                   | Err e => Err e
                   end
          | _, _ => failure server_metadata_invalid
          end
      end
  end.

Definition readProtectedResourceMetadata (c : ctx) (resourceURL requestedIssuer : string)
    : DR (string * authorizationServerMetadata * OAuth2Endpoints) :=
  if negb (dd_has_client cfg) then failure "resource_metadata_unavailable"
  else
    r ← resourceIssuer c resourceURL requestedIssuer;
    match r with
    | Err e => mret (Err e)
    | Ok issuer =>
        r ← issuerMetadata c issuer;
        mret match r with Ok (metadata, endpoints) => Ok (issuer, metadata, endpoints) | Err e => Err e end
    end.

(** ** The client method *)

Definition supportsCIMD (m : authorizationServerMetadata) : bool :=
  sm_ClientIDMetadataDocumentSupported m &&
  bool_decide (AuthMethodPrivateKeyJWT ∈ default [] (sm_TokenEndpointAuthMethodsSupported m)) &&
  bool_decide ("ES256" ∈ sm_TokenEndpointAuthSigningAlgs m).

Definition supportsDCRAuthentication (m : authorizationServerMetadata) (method : string) : bool :=
  bool_decide (method ∈ default [AuthMethodClientSecretBasic] (sm_TokenEndpointAuthMethodsSupported m)) &&
  (negb (bool_decide (method = AuthMethodNone)) || bool_decide ("S256" ∈ sm_CodeChallengeMethodsSupported m)).

Definition supportsDCRMethod (m : authorizationServerMetadata) (method : string) : bool :=
  bool_decide (is_Some (sm_RegistrationEndpoint m)) && supportsDCRAuthentication m method.

Definition requireCIMDKey (c : ctx) : DM (option discovery_error) :=
  if negb (dd_has_key_readiness cfg) then mret (Some (discoveryFailure "cimd_unavailable"))
  else
    ready ← env_port dp_RequireUsablePublishedKey;
    if (ready : bool) then mret None
    else
      e ← ended c;
      match e with
      | Some x => f ← discoveryReadFailure c (ctx_cause x) "cimd"; mret (Some f)
      | None => mret (Some (discoveryFailure "cimd_unavailable"))
      end.

(** ** Dynamic client registration (RFC 7591) *)

(** An optional member: absent, or with the value of its type; [None]: neither. *)
Definition decodeRegistrationMember {A} (document : gmap string string) (name : string) (decode : string → option A) : option (option A) :=
  match document !! name with
  | None => Some None
  | Some value => if decide (value = "null") then None else Some <$> decode value
  end.

Definition validateRegistrationResponse (body callback method : string) : option (string * Secret) :=
  document ← decodeUniqueJSONMembers body;
  clientID ← decodeRegistrationMember document "client_id" json_String;
  clientID ← clientID;
  guard (TrimSpace clientID ≠ "");;
  returnedMethod ← decodeRegistrationMember document "token_endpoint_auth_method" json_String;
  guard (returnedMethod = Some method);;
  redirects ← decodeRegistrationMember document "redirect_uris" json_Strings;
  guard (callback ∈ default [callback] redirects);;
  grants ← decodeRegistrationMember document "grant_types" json_Strings;
  guard ("authorization_code" ∈ default ["authorization_code"] grants);;
  expiry ← decodeRegistrationMember document "client_secret_expires_at" json_Int64;
  guard (default 0%Z expiry = 0%Z);;
  credential ← decodeRegistrationMember document "client_secret" json_String;
  let credential := default "" credential in
  if decide (method = AuthMethodNone) then guard (credential = "");; Some (clientID, NewAbsentSecret)
  else guard (credential ≠ "");; Some (clientID, NewPlaintextSecret credential).

Definition dcr_callback (serviceID : ServiceID) : string :=
  TrimRightSlash (dd_cimdPublicURL cfg) +:+ "/api/third-party/" +:+ serviceID +:+ "/oauth2/callback".

Definition registerDCRClient (c : ctx) (endpoint : string) (serviceID : ServiceID) (method : string) : DR (string * Secret) :=
  if negb (nonempty (TrimSpace (dd_dcrClientName cfg))) then failure "client_name_unconfigured"
  else
    let origin_ok := match url_Parse (dd_cimdPublicURL cfg) with
                     | Some u => ValidatePublicHTTPSURL (dd_cimdPublicURL cfg) && negb (nonempty (u_RawQuery u)) && negb (u_ForceQuery u)
                     | None => false
                     end in
    if negb origin_ok || negb (nonzero_id serviceID) then failure "client_registration_invalid"
    else
      let body := json_Registration (RegistrationRequest [dcr_callback serviceID] (dd_dcrClientName cfg) "web"
                                       ["authorization_code"; "refresh_token"] ["code"] method) in
      r ← request (Posted endpoint body) (dp_PostJSON endpoint body);
      e ← ended c;
      match e, r with
      | Some x, _ => read_failure c (ctx_cause x) "client_registration"
      | None, Err err =>
          failure (if bool_decide (ErrOAuthDiscoveryTimeout ∈ err) || bool_decide (CauseDeadlineExceeded ∈ err) then "timeout"
                   else if bool_decide (ErrOAuthDiscoveryUnsafeDestination ∈ err) then "unsafe_destination"
                   else if bool_decide (ErrOAuthDiscoveryResponseTooLarge ∈ err) then "response_too_large"
                   else if bool_decide (ErrOAuthDiscoveryInvalidResponse ∈ err) then "client_registration_invalid"
                   else "client_registration_rejected")
      | None, Ok response =>
          mret match validateRegistrationResponse response (dcr_callback serviceID) method with
               | Some client => Ok client
               | None => Err (discoveryFailure "client_registration_invalid")
               end
      end.

(** The first method of the preference order that the server supports. *)
Definition dcr_method (m : authorizationServerMetadata) : option string :=
  find (supportsDCRMethod m) [AuthMethodClientSecretBasic; AuthMethodClientSecretPost; AuthMethodNone].

Definition discoverProtectedResource (c : ctx) (resourceURL requestedIssuer : string) (serviceID : ServiceID)
    : DR discoveredProviderConfiguration :=
  r ← readProtectedResourceMetadata c resourceURL requestedIssuer;
  match r with
  | Err e => mret (Err e)
  | Ok (issuer, metadata, endpoints) =>
      if supportsCIMD metadata then
        missing ← requireCIMDKey c;
        mret match missing with
             | Some e => Err e
             | None => Ok (Discovered issuer endpoints ClientBootstrapCIMD AuthMethodPrivateKeyJWT ClientRegistrationCIMD "" (MkSecret "" None false))
             end
      else match dcr_method metadata, sm_RegistrationEndpoint metadata with
      | Some method, Some endpoint =>
          r ← registerDCRClient c endpoint serviceID method;
          mret match r with
               | Ok (clientID, secret) => Ok (Discovered issuer endpoints ClientBootstrapDCR method ClientRegistrationStatic clientID secret)
               | Err e => Err e
               end
      | _, _ => failure "no_compatible_client_method"
      end
  end.
End discovery.
