(* ===== verification/ResourceDiscoveryFacts.v ===== *)
(** * What discovery guarantees

    Discovery only sends requests to public addresses, only accepts an authorization server
    the resource itself advertises and that answers for itself, and reports failures in a
    fixed vocabulary. *)

From S2P Require Import Prelude ToolApproval ApprovalStore ApprovalHandlers OAuthSessions UserGrants Consent UriValidation NetPolicy Providers BrokerErrors ProviderTokens AuthChallenge ResourceDiscovery.

(** ** Programs that send requests *)

Section obeys.
Context {E : Type}.

(** Whatever the environment is at each step, every request satisfies [P] and the value [Q]. *)
Fixpoint obeys {A} (P : discovery_request → Prop) (Q : A → Prop) (p : prog (traced E) A) : Prop :=
  match p with
  | Ret a => Q a
  | Act f k => ∀ w, (∃ l, tr_requests (f w).1 = l ++ tr_requests w ∧ Forall P l) ∧ obeys P Q (k (f w).2)
  end.

Lemma obeys_seq {A B} P (Q1 : A → Prop) (Q : B → Prop) (p : prog (traced E) A) g :
  obeys P Q1 p → (∀ a, Q1 a → obeys P Q (g a)) → obeys P Q (p ≫= g).
Proof.
  intros Hp Hg. induction p as [a | X f k IH]; [by apply Hg |]. intros w. destruct (Hp w) as [Hl Hk]. split; [done |]. by apply IH.
Qed.
Lemma obeys_ret {A} P (Q : A → Prop) (a : A) : Q a → obeys P Q (mret a).
Proof. done. Qed.
Lemma obeys_mono {A} P (Q Q' : A → Prop) (p : prog (traced E) A) : (∀ a, Q a → Q' a) → obeys P Q p → obeys P Q' p.
Proof. intros HQ. induction p as [a | X f k IH]; [apply HQ |]. intros Hp w. destruct (Hp w) as [Hl Hk]. split; [done |]. by apply IH. Qed.
Lemma obeys_env {A} P (Q : A → Prop) (f : E → E * A) : (∀ e, Q (f e).2) → obeys P Q (env_port f).
Proof. intros HQ w. specialize (HQ (tr_env w)). simpl. destruct (f (tr_env w)). split; [by exists [] | done]. Qed.
Lemma obeys_request {A} P (Q : A → Prop) r (f : E → E * A) : P r → (∀ e, Q (f e).2) → obeys P Q (request r f).
Proof.
  intros HP HQ w. specialize (HQ (tr_env w)). simpl. destruct (f (tr_env w)). split; [| done]. exists [r]. split; [done |]. by constructor.
Qed.
Lemma obeys_run {A} P (Q : A → Prop) (p : prog (traced E) A) w : obeys P Q p →
  Q (run p w).2 ∧ ∃ l, tr_requests (run p w).1 = l ++ tr_requests w ∧ Forall P l.
Proof.
  revert w. induction p as [a | X f k IH]; intros w Hp; simpl; [split; [done | by exists []] |].
  destruct (Hp w) as [(l & Hl & HP) Hk]. destruct (f w) as [w' x]. cbn in *. destruct (IH x w' Hk) as [HQ (l' & Hl' & HP')].
  split; [done |]. exists (l' ++ l). rewrite Hl', Hl, app_assoc. split; [done |]. by apply Forall_app.
Qed.
End obeys.

Section discovery.
Context {E : Type} `{DiscoveryPorts E} {GU : GoURL} {GN : GoNet} {PP : ProviderParsers} {DJ : DiscoveryJSON}.
Variable cfg : discovery_config.

(** ** Failures *)

(** The codes of discovery. *)
Definition discovery_codes : list string :=
  ["timeout"; "unsafe_destination"; "response_too_large"; "resource_metadata_unavailable"; "resource_metadata_not_found";
   "resource_metadata_invalid"; "resource_mismatch"; "authorization_server_missing"; "issuer_not_advertised";
   "issuer_selection_required"; "authorization_server_metadata_unavailable"; "authorization_server_metadata_not_found";
   "authorization_server_metadata_invalid"; "issuer_mismatch"; "no_compatible_client_method"; "cimd_unavailable";
   "cimd_not_found"; "cimd_invalid"; "client_name_unconfigured"; "client_registration_unavailable"; "client_registration_not_found";
   "client_registration_invalid"; "client_registration_rejected"].

Lemma codes_storable code : code ∈ discovery_codes → ValidDiscoveryFailureCode code = true.
Proof.
  assert (forallb ValidDiscoveryFailureCode discovery_codes = true) as Hall by (vm_compute; reflexivity).
  intros Hc. rewrite forallb_forall in Hall. by apply Hall, list_elem_of_In.
Qed.

(** A URL outbound requests may go to. *)
Definition public (u : string) : Prop := discoveryURL u resource_metadata_invalid = None.

Lemma discoveryURL_code u code c : discoveryURL u code = Some c → c = code ∨ c = "unsafe_destination".
Proof. unfold discoveryURL. intros Hc. repeat case_match; simplify_eq; auto. Qed.
Lemma discoveryURL_public u code : discoveryURL u code = None ↔ public u.
Proof. unfold public, discoveryURL. by repeat case_match. Qed.
Lemma public_parses u : public u → is_Some (url_Parse u) ∧ ValidatePublicHTTPSURL u = true.
Proof. unfold public, discoveryURL. repeat case_match; try done. intros _. breflect. split; [by eexists | done]. Qed.

(** A failure leaks nothing: its code is one of the list, and only the choice between
    issuers the resource advertises carries URLs, all public. *)
Definition failure_ok (e : discovery_error) : Prop :=
  match e with
  | DiscoveryError code servers =>
      code ∈ discovery_codes ∧ (servers = [] ∨ code = "issuer_selection_required" ∧ Forall public servers)
  | DiscoveryCanceled => True
  | DiscoveryPanic => False
  end.

(** The answers of a part of discovery: [Q] for a success. *)
Definition answer {A} (Q : A → Prop) (r : result discovery_error A) : Prop :=
  match r with Ok a => Q a | Err e => failure_ok e end.

(** The requests that may leave. *)
Definition allowed (resourceURL : string) (serviceID : ServiceID) (r : discovery_request) : Prop :=
  match r with
  | Probed u => u = resourceURL
  | Fetched u => public u ∨ ∃ base locations, public base ∧ u ∈ locations ∧
      (resource_locations "" base = Some locations ∨ issuer_locations base = Some locations)
  | Posted u body => public u ∧ ∃ method, body = json_Registration
      (RegistrationRequest [dcr_callback cfg serviceID] (dd_dcrClientName cfg) "web" ["authorization_code"; "refresh_token"] ["code"] method)
  end.

Variable resourceURL : string.
Variable serviceID : ServiceID.
Abbreviation obeying Q := (obeys (allowed resourceURL serviceID) Q).

Lemma in_codes code : bool_decide (code ∈ discovery_codes) = true → failure_ok (discoveryFailure code).
Proof. intros Hc%bool_decide_eq_true_1. split; [done | by left]. Qed.

Definition document_kind (kind : string) : Prop :=
  kind ∈ ["resource_metadata"; "authorization_server_metadata"; "cimd"; "client_registration"].

Lemma read_failure_ok c err kind : document_kind kind → obeying failure_ok (discoveryReadFailure (E:=E) c err kind).
Proof.
  intros Hk. unfold discoveryReadFailure. eapply obeys_seq; [by apply (obeys_env _ (λ _, True)) |]. intros [[] |] _; try apply obeys_ret; try done.
  - by apply in_codes.
  - unfold document_kind in Hk. repeat (apply elem_of_cons in Hk as [-> | Hk]); try (by apply elem_of_nil in Hk);
      repeat case_match; apply in_codes; reflexivity.
Qed.
Lemma obeys_read_failure {A} (Q : A → Prop) c err kind : document_kind kind → obeying (answer Q) (read_failure c err kind).
Proof. intros Hk. unfold read_failure. eapply obeys_seq; [by apply read_failure_ok |]. intros e He. by apply obeys_ret. Qed.
Lemma obeys_failure {A} (Q : A → Prop) code : bool_decide (code ∈ discovery_codes) = true → obeying (answer Q) (failure (E:=E) code).
Proof. intros Hc. apply obeys_ret. by apply in_codes. Qed.
Lemma obeys_ended {B} (Q : B → Prop) c g : (∀ x, obeying Q (g x)) → obeying Q (ended c ≫= g).
Proof. intros Hg. eapply obeys_seq; [by apply (obeys_env _ (λ _, True)) | intros x _; apply Hg]. Qed.

(** ** Documents *)

Definition served (locations : list string) (body : string) : Prop :=
  ∃ location e, location ∈ locations ∧ (dp_GetJSON location e).2 = Ok body.

Lemma document_ok c locations kind : document_kind kind → bool_decide (kind +:+ "_not_found" ∈ discovery_codes) = true →
  Forall (λ l, allowed resourceURL serviceID (Fetched l)) locations →
  obeying (answer (served locations)) (discoveryDocument (E:=E) c locations kind).
Proof.
  intros Hk Hnf Hl. induction Hl as [| location locations Hloc _ IH]; cbn [discoveryDocument]; [by apply obeys_failure |].
  apply obeys_ended. intros [x |]; [by apply obeys_read_failure |].
  eapply (obeys_seq _ (λ r, ∃ e, (dp_GetJSON location e).2 = r)); [apply obeys_request; [done | by eauto] |]. intros r [e He].
  apply obeys_ended. intros [x |]; [by apply obeys_read_failure |]. destruct r as [body | err].
  - apply obeys_ret. exists location, e. split; [by left | done].
  - destruct (_ && _); [| by apply obeys_read_failure]. eapply obeys_mono; [| exact IH].
    intros [body | e'] Ha; [| done]. destruct Ha as (l & e' & Hin & Hb). exists l, e'. split; [by right | done].
Qed.

(** *** The resource *)

Lemma check_issuers_ok servers seen : check_issuers servers seen = None → Forall public servers.
Proof.
  revert seen. induction servers as [| s servers IH]; intros seen; cbn [check_issuers]; [constructor |].
  destruct (discoveryURL s _) eqn:Hs; [done |]. destruct (_ || _); [done |]. intros Hc. constructor; [done | by eapply IH].
Qed.
Lemma check_issuers_code servers seen code : check_issuers servers seen = Some code → bool_decide (code ∈ discovery_codes) = true.
Proof.
  revert seen. induction servers as [| s servers IH]; intros seen; cbn [check_issuers]; [done |].
  destruct (discoveryURL s _) eqn:Hs; [intros [= <-]; by apply discoveryURL_code in Hs as [-> | ->] |].
  destruct (_ || _); [by intros [= <-] | apply IH].
Qed.

(** The resource's own document names the issuer among public ones. *)
Definition advertises (metadata : protectedResourceMetadata) (requestedIssuer issuer : string) : Prop :=
  rm_Resource metadata = resourceURL ∧ issuer ∈ rm_AuthorizationServers metadata ∧ Forall public (rm_AuthorizationServers metadata) ∧
  (requestedIssuer = issuer ∨ requestedIssuer = "" ∧ rm_AuthorizationServers metadata = [issuer]).

Lemma select_issuer_ok metadata requestedIssuer :
  answer (advertises metadata requestedIssuer) (select_issuer metadata resourceURL requestedIssuer).
Proof.
  unfold select_issuer. destruct (nonempty (rm_Resource metadata)); cbn [negb]; [| by apply in_codes].
  destruct (bool_decide_reflect (rm_Resource metadata = resourceURL)) as [Hr |]; cbn [negb]; [| by apply in_codes].
  case_bool_decide; [by apply in_codes |]. destruct (check_issuers _ _) as [code |] eqn:Hc.
  { apply in_codes. by eapply check_issuers_code. }
  pose proof (check_issuers_ok _ _ Hc) as Hpub. destruct (nonempty requestedIssuer) eqn:Hn.
  - case_bool_decide as Hin; [| by apply in_codes]. split_and!; [done | done | done | by left].
  - assert (requestedIssuer = "") as Hempty by (by destruct requestedIssuer).
    destruct (rm_AuthorizationServers metadata) as [| issuer [| s servers]] eqn:Hs; [done | | split; [by apply (bool_decide_eq_true_1 (_ ∈ discovery_codes)) | by right]].
    split_and!; [done | rewrite Hs; by left | by rewrite Hs | right; done].
Qed.

Definition resource_says (requestedIssuer issuer : string) : Prop :=
  ∃ location e body members metadata, (dp_GetJSON location e).2 = Ok body ∧ decodeUniqueJSONMembers body = Some members ∧
    json_ResourceMetadata body = Some metadata ∧ advertises metadata requestedIssuer issuer.

Lemma resource_issuer_ok c requestedIssuer : public resourceURL →
  obeying (answer (resource_says requestedIssuer)) (resourceIssuer (E:=E) c resourceURL requestedIssuer).
Proof.
  intros Hpub. unfold resourceIssuer. eapply (obeys_seq _ (λ _, True)); [by apply obeys_request |]. intros r _.
  apply obeys_ended. intros [x |]; [by apply obeys_read_failure; left |]. destruct r as [[status challenges] | err].
  2:{ case_bool_decide; [by apply obeys_failure | by apply obeys_read_failure; left]. }
  destruct (challengeResourceMetadata status challenges) as [url | code] eqn:Hch.
  2:{ apply obeys_failure. by apply challenge_code in Hch as [-> | ->]. }
  destruct (resource_locations url resourceURL) as [locations |] eqn:Hl.
  - eapply obeys_seq; [apply document_ok; [by left | done |] |].
    + unfold resource_locations in Hl. destruct (nonempty url) eqn:Hn.
      * injection Hl as <-. constructor; [| constructor]. left.
        apply challenge_sound in Hch as [-> | [_ Hch]]; [done | exact Hch].
      * apply Forall_forall. intros l Hin. right. exists resourceURL, locations. split_and!; [done | done |]. left. exact Hl.
    + intros [body | e] Hs; [| by apply obeys_ret]. destruct Hs as (l & e & Hin & Hb).
      destruct (decodeUniqueJSONMembers body) as [members |] eqn:Hm; [| by apply obeys_failure].
      destruct (json_ResourceMetadata body) as [metadata |] eqn:Hmd; [| by apply obeys_failure].
      apply obeys_ret. pose proof (select_issuer_ok metadata requestedIssuer) as Hsel.
      destruct (select_issuer _ _ _) as [issuer | e']; [| done]. by exists l, e, body, members, metadata.
  - exfalso. unfold resource_locations in Hl. destruct (nonempty url); [done |]. destruct (public_parses _ Hpub) as [[u Hu] _].
    by rewrite Hu in Hl.
Qed.

(** *** The authorization server *)

Lemma check_urls_ok urls code : check_urls urls code = None → Forall public urls.
Proof.
  unfold check_urls. induction urls as [| u urls IH]; simpl; [constructor |]. destruct (discoveryURL u code) eqn:Hu; [done |].
  intros Hc. constructor; [by apply discoveryURL_public in Hu | by apply IH].
Qed.
Lemma check_urls_code urls code c : check_urls urls code = Some c → c = code ∨ c = "unsafe_destination".
Proof.
  unfold check_urls. induction urls as [| u urls IH]; simpl; [done |]. destruct (discoveryURL u code) eqn:Hu; [| done].
  intros [= <-]. by apply discoveryURL_code in Hu.
Qed.

(** Every endpoint of the document is public, and none smuggles a resource. *)
Record server_says (issuer : string) (metadata : authorizationServerMetadata) (endpoints : OAuth2Endpoints) : Prop := ServerSays {
  sy_issuer : sm_Issuer metadata = issuer;
  sy_endpoints : endpoints = MkEndpoints (sm_TokenEndpoint metadata) (sm_AuthorizationEndpoint metadata) (default "" (sm_JWKSURI metadata));
  sy_public : Forall public ([sm_AuthorizationEndpoint metadata; sm_TokenEndpoint metadata] ++
    option_list (sm_JWKSURI metadata) ++ option_list (sm_RegistrationEndpoint metadata));
  sy_resource : ∃ u names, url_Parse (sm_TokenEndpoint metadata) = Some u ∧ url_ParseQuery (u_RawQuery u) = Some names ∧
    existsb IsDiscoveryResourceParamName names = false;
}.

Lemma check_server_ok issuer members metadata : answer (server_says issuer metadata) (check_server issuer members metadata).
Proof.
  unfold check_server. destruct (nonempty (sm_Issuer metadata)); cbn [negb]; [| by apply in_codes].
  destruct (_ && _); [by apply in_codes |].
  destruct (bool_decide_reflect (sm_Issuer metadata = issuer)) as [Hi |]; cbn [negb]; [| by apply in_codes].
  destruct (check_urls _ _) as [code |] eqn:Hc; [by apply check_urls_code in Hc as [-> | ->]; apply in_codes |].
  apply check_urls_ok in Hc. assert (public (sm_TokenEndpoint metadata)) as [[u Hu] _]%public_parses.
  { rewrite Forall_forall in Hc. apply Hc. right. by left. }
  rewrite Hu. destruct (url_ParseQuery (u_RawQuery u)) as [names |] eqn:Hq; [| by apply in_codes].
  destruct (existsb _ _) eqn:Hex; [by apply in_codes |]. split; [done | done | done | by exists u, names].
Qed.

Definition server_document (issuer : string) (metadata : authorizationServerMetadata) (endpoints : OAuth2Endpoints) : Prop :=
  ∃ locations location e body members, issuer_locations issuer = Some locations ∧ location ∈ locations ∧
    (dp_GetJSON location e).2 = Ok body ∧ decodeUniqueJSONMembers body = Some members ∧
    json_ServerMetadata body = Some metadata ∧ server_says issuer metadata endpoints.

Lemma issuer_metadata_ok c issuer : public issuer →
  obeying (answer (λ '(metadata, endpoints), server_document issuer metadata endpoints)) (issuerMetadata (E:=E) c issuer).
Proof.
  intros Hpub. unfold issuerMetadata. destruct (issuer_locations issuer) as [locations |] eqn:Hl.
  2:{ exfalso. unfold issuer_locations in Hl. destruct (public_parses _ Hpub) as [[u Hu] _]. by rewrite Hu in Hl. }
  eapply obeys_seq; [apply document_ok; [by right; left | done |] |].
  { apply Forall_forall. intros l Hin. right. exists issuer, locations. split_and!; [done | done | by right]. }
  intros [body | e] Hs; [| by apply obeys_ret]. destruct Hs as (l & e & Hin & Hb).
  destruct (decodeUniqueJSONMembers body) as [members |] eqn:Hm; [| by apply obeys_failure].
  destruct (json_ServerMetadata body) as [metadata |] eqn:Hmd; [| by apply obeys_failure].
  apply obeys_ret. pose proof (check_server_ok issuer members metadata) as Hc. destruct (check_server _ _ _) as [endpoints | e']; [| done].
  by exists locations, l, e, body, members.
Qed.

Lemma read_metadata_ok c requestedIssuer : public resourceURL →
  obeying (answer (λ '(issuer, metadata, endpoints), resource_says requestedIssuer issuer ∧ server_document issuer metadata endpoints))
    (readProtectedResourceMetadata (E:=E) cfg c resourceURL requestedIssuer).
Proof.
  intros Hpub. unfold readProtectedResourceMetadata. destruct (negb _); [by apply obeys_failure |].
  eapply obeys_seq; [by apply resource_issuer_ok |]. intros [issuer | e] Hi; [| by apply obeys_ret].
  assert (public issuer) as Hp.
  { destruct Hi as (l & e & body & members & md & _ & _ & _ & _ & Hin & Hall & _). rewrite Forall_forall in Hall. by apply Hall. }
  eapply obeys_seq; [by apply issuer_metadata_ok |]. intros [[metadata endpoints] | e] Hm; apply obeys_ret; [split; [exact Hi | exact Hm] | exact Hm].
Qed.

(** *** The client *)

Lemma cimd_key_ok c : obeying (λ r, match r with Some e => failure_ok e | None => True end) (requireCIMDKey (E:=E) cfg c).
Proof.
  unfold requireCIMDKey. destruct (negb _); [apply obeys_ret; by apply in_codes |].
  eapply (obeys_seq _ (λ _, True)); [by apply obeys_env |]. intros [] _; [by apply obeys_ret |].
  apply obeys_ended. intros [x |]; [| apply obeys_ret; by apply in_codes].
  eapply obeys_seq; [apply read_failure_ok; by right; right; left |]. intros f Hf. by apply obeys_ret.
Qed.

(** The registration's answer names the client, with the method that was asked for. *)
Definition registered (endpoint method : string) (client : string * Secret) : Prop :=
  public endpoint ∧ ∃ body response e, (dp_PostJSON endpoint body e).2 = Ok response ∧
    validateRegistrationResponse response (dcr_callback cfg serviceID) method = Some client.

Lemma register_ok c endpoint method : public endpoint →
  obeying (answer (registered endpoint method)) (registerDCRClient (E:=E) cfg c endpoint serviceID method).
Proof.
  intros Hpub. unfold registerDCRClient. destruct (negb (nonempty _)); [by apply obeys_failure |]. cbv zeta.
  destruct (_ || _); [by apply obeys_failure |]. set (body := json_Registration _).
  eapply (obeys_seq _ (λ r, ∃ e, (dp_PostJSON endpoint body e).2 = r)).
  { apply obeys_request; [| by eauto]. split; [done |]. by exists method. }
  intros r [e He]. apply obeys_ended. intros [x |]; [apply obeys_read_failure; by right; right; right; left |].
  destruct r as [response | err].
  - apply obeys_ret. destruct (validateRegistrationResponse _ _ _) as [client |] eqn:Hv; [| by apply in_codes].
    split; [done |]. by exists body, response, e.
  - apply obeys_failure. repeat case_match; reflexivity.
Qed.

Lemma registration_secret body callback method clientID secret :
  validateRegistrationResponse body callback method = Some (clientID, secret) →
  nonempty clientID = true ∧ (method = AuthMethodNone ∧ secret = NewAbsentSecret ∨ method ≠ AuthMethodNone ∧ is_Some (GetPlaintext secret)).
Proof.
  unfold validateRegistrationResponse. intros Hv. repeat (apply bind_Some in Hv as (? & ? & Hv)).
  assert (∀ i : string, TrimSpace i ≠ "" → nonempty i = true) as Hne by (by intros [| c i]).
  case_decide as Hm; apply bind_Some in Hv as (Hsec & _ & [= <- <-]); (split; [by apply Hne |]); [by left |].
  right. split; [done |]. unfold GetPlaintext, NewPlaintextSecret. cbn [sec_absent sec_ciphertext sec_plaintext].
  rewrite decide_False by (by intros [? ?]). rewrite decide_False by done. by eexists.
Qed.

(** ** Discovery *)

(** How the broker is a client of the server. *)
Inductive client_method (metadata : authorizationServerMetadata) (d : discoveredProviderConfiguration) : Prop :=
  | MethodCIMD : supportsCIMD metadata = true → dv_method d = ClientBootstrapCIMD → dv_auth d = AuthMethodPrivateKeyJWT →
      dv_registration d = ClientRegistrationCIMD → client_method metadata d
  | MethodDCR endpoint : supportsCIMD metadata = false → dv_method d = ClientBootstrapDCR →
      dv_registration d = ClientRegistrationStatic → dcr_method metadata = Some (dv_auth d) →
      sm_RegistrationEndpoint metadata = Some endpoint → registered endpoint (dv_auth d) (dv_clientID d, dv_secret d) →
      client_method metadata d.

(** What a discovered configuration rests on. *)
Definition discovered_ok (requestedIssuer : string) (d : discoveredProviderConfiguration) : Prop :=
  ∃ metadata, resource_says requestedIssuer (dv_issuer d) ∧ server_document (dv_issuer d) metadata (dv_endpoints d) ∧
    client_method metadata d.

Lemma discover_ok c requestedIssuer : public resourceURL →
  obeying (answer (discovered_ok requestedIssuer)) (discoverProtectedResource (E:=E) cfg c resourceURL requestedIssuer serviceID).
Proof.
  intros Hpub. unfold discoverProtectedResource. eapply obeys_seq; [by apply read_metadata_ok |].
  intros [[[issuer metadata] endpoints] | e] Hr; [destruct Hr as [Hi Hm] | by apply obeys_ret].
  destruct (supportsCIMD metadata) eqn:Hcimd.
  - eapply obeys_seq; [apply cimd_key_ok |]. intros [e |] He; apply obeys_ret; [done |].
    exists metadata. split_and!; [done | done | by apply MethodCIMD].
  - destruct (dcr_method metadata) as [method |] eqn:Hmethod; [| by apply obeys_failure].
    destruct (sm_RegistrationEndpoint metadata) as [endpoint |] eqn:Hend; [| by apply obeys_failure].
    eapply obeys_seq; [apply (register_ok c endpoint method) |].
    + destruct Hm as (? & ? & ? & ? & ? & _ & _ & _ & _ & _ & [_ _ Hall _]). rewrite Forall_forall in Hall. apply Hall.
      rewrite Hend. set_solver.
    + intros [[clientID secret] | e] He; apply obeys_ret; [| done]. exists metadata. split_and!; [done | done |].
      by apply (MethodDCR _ _ endpoint).
Qed.
End discovery.

Section theorems.
Context {E : Type} `{DiscoveryPorts E} {GU : GoURL} {GN : GoNet} {PP : ProviderParsers} {DJ : DiscoveryJSON}.
Variable cfg : discovery_config.

(** Claim C30.  A discovered configuration rests on documents that were served: the
    resource's own document names its issuer, the issuer's document answers for itself
    with public endpoints only, and the client method is the first of the preference order
    the server supports, with a registration response that was validated. *)
Theorem discovery_sound c resourceURL requestedIssuer serviceID (w : traced E) d (Hpub : public resourceURL)
    (Hrun : (run (discoverProtectedResource cfg c resourceURL requestedIssuer serviceID) w).2 = Ok d) :
  discovered_ok (E:=E) cfg resourceURL serviceID requestedIssuer d.
Proof.
  destruct (obeys_run _ _ _ w (discover_ok cfg resourceURL serviceID c requestedIssuer Hpub)) as [Ha _]. by rewrite Hrun in Ha.
Qed.

(** Claim C29.  Discovery never leads the broker anywhere but to public addresses: every
    request goes to the resource, to a public URL, or to a well-known location at the
    origin of one, and a registration names only the broker's own callback.  A failure
    carries a code of the fixed list, which the status column accepts, and no URL but a
    choice of public issuers; no unparsable URL is ever dereferenced. *)
Theorem discovery_confined c resourceURL requestedIssuer serviceID (w : traced E) (Hpub : public resourceURL) :
  let '(w', r) := run (discoverProtectedResource cfg c resourceURL requestedIssuer serviceID) w in
  (∃ l, tr_requests w' = l ++ tr_requests w ∧ Forall (allowed cfg resourceURL serviceID) l) ∧
  (∀ e, r = Err e → failure_ok e) ∧ ∀ code servers, r = Err (DiscoveryError code servers) → ValidDiscoveryFailureCode code = true.
Proof.
  pose proof (obeys_run _ _ _ w (discover_ok cfg resourceURL serviceID c requestedIssuer Hpub)) as [Ha Hl].
  destruct (run _ w) as [w' r]. cbn in *. split; [done |]. split; [intros e ->; exact Ha |].
  intros code servers ->. by apply codes_storable, Ha.
Qed.
End theorems.

(** ** A concrete deployment *)

Module DiscoveryDemo.
Definition url := "https://api.example/mcp".
Definition issuer := "https://as.example".

Definition resource_document := ResourceMetadata url [issuer].
Definition server_document := ServerMetadata issuer "https://as.example/authorize" "https://as.example/token" None
  (Some "https://as.example/register") false None [] [].
#[local] Instance demo_JSON : DiscoveryJSON := {|
  json_Members s := Some (if decide (s = "client") then [("client_id", "c1"); ("token_endpoint_auth_method", "client_secret_basic");
                                                       ("client_secret", "s3cret")] else []);
  json_ResourceMetadata s := if decide (s = "resource") then Some resource_document else None;
  json_ServerMetadata s := if decide (s = "server") then Some server_document else None;
  json_String := Some;
  json_Strings _ := None;
  json_Int64 _ := None;
  json_Registration r := rr_ClientName r;
|}.
(** The probe is answered without a challenge; the documents are at the well-known places. *)
#[local] Instance demo_discovery : DiscoveryPorts unit := {|
  dp_ctx_Err _ _ := ((), None);
  dp_Probe _ _ := ((), Ok (401%Z, []));
  dp_GetJSON u _ := ((), if decide (u = "https://api.example/.well-known/oauth-protected-resource") then Ok "resource"
                         else if decide (u = "https://as.example/.well-known/oauth-authorization-server") then Ok "server"
                         else Err [ErrOAuthDiscoveryNotFound]);
  dp_PostJSON _ _ _ := ((), Ok "client");
  dp_RequireUsablePublishedKey _ := ((), false);
|}.
Definition deployment := DiscoveryDeployment true false "https://broker.example" "Broker".
Definition parsers : ProviderParsers := Build_ProviderParsers (λ _, Some []) (λ _, None) (λ _, None).
Definition result := run (discoverProtectedResource (E:=unit) (GU:=ChallengeDemo.mini_URL) (GN:=ChallengeDemo.mini_Net) (PP:=parsers)
  deployment (Ctx 1 false) url "" "svc") (Traced () []).
End DiscoveryDemo.

Lemma discovery_sound_witness :
  ∃ d, DiscoveryDemo.result.2 = Ok d ∧ dv_issuer d = "https://as.example" ∧
    discovered_ok (E:=unit) (H:=DiscoveryDemo.demo_discovery) (GU:=ChallengeDemo.mini_URL) (GN:=ChallengeDemo.mini_Net)
      (PP:=DiscoveryDemo.parsers) (DJ:=DiscoveryDemo.demo_JSON) DiscoveryDemo.deployment DiscoveryDemo.url "svc" "" d.
Proof.
  eexists. split; [vm_compute; reflexivity | split; [reflexivity |]].
  apply (discovery_sound (E:=unit) (GU:=ChallengeDemo.mini_URL) (GN:=ChallengeDemo.mini_Net) (PP:=DiscoveryDemo.parsers)
    (DJ:=DiscoveryDemo.demo_JSON) DiscoveryDemo.deployment (Ctx 1 false) DiscoveryDemo.url "" "svc" (Traced () [])); [reflexivity |].
  vm_compute. reflexivity.
Defined.

Lemma discovery_confined_witness :
  Forall (allowed (GU:=ChallengeDemo.mini_URL) (GN:=ChallengeDemo.mini_Net) (DJ:=DiscoveryDemo.demo_JSON) DiscoveryDemo.deployment
    DiscoveryDemo.url "svc") (tr_requests DiscoveryDemo.result.1) ∧ length (tr_requests DiscoveryDemo.result.1) = 5.
Proof.
  pose proof (discovery_confined (E:=unit) (H:=DiscoveryDemo.demo_discovery) (GU:=ChallengeDemo.mini_URL) (GN:=ChallengeDemo.mini_Net)
    (PP:=DiscoveryDemo.parsers) (DJ:=DiscoveryDemo.demo_JSON) DiscoveryDemo.deployment (Ctx 1 false) DiscoveryDemo.url "" "svc"
    (Traced () []) eq_refl) as Hc.
  change (run (discoverProtectedResource _ _ _ _ _) _) with DiscoveryDemo.result in Hc.
  destruct DiscoveryDemo.result as [w r] eqn:Hr. destruct Hc as [(l & Hl & HP) _]. simpl in Hl. rewrite app_nil_r in Hl. subst l.
  split; [exact HP |]. assert (length (tr_requests DiscoveryDemo.result.1) = 5) as Hlen by (vm_compute; reflexivity). by rewrite Hr in Hlen.
Defined.
