(* ===== verification/ProviderService.v ===== *)
(** * The service for third-party services

    internal/domain/thirdparty/service.go: administrators create, change, delete and read
    the services users connect to, by hand or by discovery from a protected resource.  The
    repositories are those of ServiceSessions.v, discovery is ResourceDiscovery.v; the
    clock, ids, key management and the permission sets are ports.  An operation is one
    action per repository call or outbound call.  Logging and audit records are left out. *)

From S2P Require Import Prelude ToolApproval ApprovalStore ApprovalHandlers OAuthSessions UserGrants Consent UriValidation NetPolicy UniqueIndex BrokerErrors Providers ProviderStore ProviderStoreFacts UserSessions ServiceSessions ProviderTokens AuthChallenge ResourceDiscovery.

(** ** The entity (domain/model/thirdparty_oauth2_provider.go, discovery_status.go) *)

Definition set_pe_ID (i : ServiceID) (e : ThirdpartyOAuth2ProviderEntity) : ThirdpartyOAuth2ProviderEntity :=
  {| pe_ID := i; pe_CanonicalID := pe_CanonicalID e; pe_ClearCanonicalID := pe_ClearCanonicalID e;
     pe_DisplayName := pe_DisplayName e; pe_ClientID := pe_ClientID e; pe_Secret := pe_Secret e;
     pe_CredentialSource := pe_CredentialSource e;
     pe_CredentialSourceTransitioned := pe_CredentialSourceTransitioned e;
     pe_CredentialSourceProvided := pe_CredentialSourceProvided e; pe_ClientRegistration := pe_ClientRegistration e;
     pe_ClientRegistrationProvided := pe_ClientRegistrationProvided e; pe_ClientIDProvided := pe_ClientIDProvided e;
     pe_ClientSecretProvided := pe_ClientSecretProvided e;
     pe_TokenEndpointAuthMethod := pe_TokenEndpointAuthMethod e; pe_Flavor := pe_Flavor e;
     pe_IssuerURI := pe_IssuerURI e; pe_Discovery := pe_Discovery e; pe_Endpoints := pe_Endpoints e;
     pe_Scopes := pe_Scopes e; pe_AuthorizationParams := pe_AuthorizationParams e;
     pe_ResourceExplicit := pe_ResourceExplicit e; pe_DiscoveryStatus := pe_DiscoveryStatus e;
     pe_ProtectedResources := pe_ProtectedResources e; pe_Version := pe_Version e;
     pe_ServiceRequirements := pe_ServiceRequirements e; pe_CreatedAt := pe_CreatedAt e;
     pe_UpdatedAt := pe_UpdatedAt e |}.

Definition set_pe_IssuerURI (issuer : string) (e : ThirdpartyOAuth2ProviderEntity) : ThirdpartyOAuth2ProviderEntity :=
  {| pe_ID := pe_ID e; pe_CanonicalID := pe_CanonicalID e; pe_ClearCanonicalID := pe_ClearCanonicalID e;
     pe_DisplayName := pe_DisplayName e; pe_ClientID := pe_ClientID e; pe_Secret := pe_Secret e;
     pe_CredentialSource := pe_CredentialSource e;
     pe_CredentialSourceTransitioned := pe_CredentialSourceTransitioned e;
     pe_CredentialSourceProvided := pe_CredentialSourceProvided e; pe_ClientRegistration := pe_ClientRegistration e;
     pe_ClientRegistrationProvided := pe_ClientRegistrationProvided e; pe_ClientIDProvided := pe_ClientIDProvided e;
     pe_ClientSecretProvided := pe_ClientSecretProvided e;
     pe_TokenEndpointAuthMethod := pe_TokenEndpointAuthMethod e; pe_Flavor := pe_Flavor e; pe_IssuerURI := issuer;
     pe_Discovery := pe_Discovery e; pe_Endpoints := pe_Endpoints e; pe_Scopes := pe_Scopes e;
     pe_AuthorizationParams := pe_AuthorizationParams e; pe_ResourceExplicit := pe_ResourceExplicit e;
     pe_DiscoveryStatus := pe_DiscoveryStatus e; pe_ProtectedResources := pe_ProtectedResources e;
     pe_Version := pe_Version e; pe_ServiceRequirements := pe_ServiceRequirements e; pe_CreatedAt := pe_CreatedAt e;
     pe_UpdatedAt := pe_UpdatedAt e |}.

Definition set_pe_ClientID (clientID : string) (e : ThirdpartyOAuth2ProviderEntity) : ThirdpartyOAuth2ProviderEntity :=
  {| pe_ID := pe_ID e; pe_CanonicalID := pe_CanonicalID e; pe_ClearCanonicalID := pe_ClearCanonicalID e;
     pe_DisplayName := pe_DisplayName e; pe_ClientID := clientID; pe_Secret := pe_Secret e;
     pe_CredentialSource := pe_CredentialSource e;
     pe_CredentialSourceTransitioned := pe_CredentialSourceTransitioned e;
     pe_CredentialSourceProvided := pe_CredentialSourceProvided e; pe_ClientRegistration := pe_ClientRegistration e;
     pe_ClientRegistrationProvided := pe_ClientRegistrationProvided e; pe_ClientIDProvided := pe_ClientIDProvided e;
     pe_ClientSecretProvided := pe_ClientSecretProvided e;
     pe_TokenEndpointAuthMethod := pe_TokenEndpointAuthMethod e; pe_Flavor := pe_Flavor e;
     pe_IssuerURI := pe_IssuerURI e; pe_Discovery := pe_Discovery e; pe_Endpoints := pe_Endpoints e;
     pe_Scopes := pe_Scopes e; pe_AuthorizationParams := pe_AuthorizationParams e;
     pe_ResourceExplicit := pe_ResourceExplicit e; pe_DiscoveryStatus := pe_DiscoveryStatus e;
     pe_ProtectedResources := pe_ProtectedResources e; pe_Version := pe_Version e;
     pe_ServiceRequirements := pe_ServiceRequirements e; pe_CreatedAt := pe_CreatedAt e;
     pe_UpdatedAt := pe_UpdatedAt e |}.

(** [AuthorizationParams] and whether the administrator pinned the audience. *)
Definition set_params (params : gmap string string) (explicit : bool) (e : ThirdpartyOAuth2ProviderEntity) : ThirdpartyOAuth2ProviderEntity :=
  {| pe_ID := pe_ID e; pe_CanonicalID := pe_CanonicalID e; pe_ClearCanonicalID := pe_ClearCanonicalID e;
     pe_DisplayName := pe_DisplayName e; pe_ClientID := pe_ClientID e; pe_Secret := pe_Secret e;
     pe_CredentialSource := pe_CredentialSource e;
     pe_CredentialSourceTransitioned := pe_CredentialSourceTransitioned e;
     pe_CredentialSourceProvided := pe_CredentialSourceProvided e; pe_ClientRegistration := pe_ClientRegistration e;
     pe_ClientRegistrationProvided := pe_ClientRegistrationProvided e; pe_ClientIDProvided := pe_ClientIDProvided e;
     pe_ClientSecretProvided := pe_ClientSecretProvided e;
     pe_TokenEndpointAuthMethod := pe_TokenEndpointAuthMethod e; pe_Flavor := pe_Flavor e;
     pe_IssuerURI := pe_IssuerURI e; pe_Discovery := pe_Discovery e; pe_Endpoints := pe_Endpoints e;
     pe_Scopes := pe_Scopes e; pe_AuthorizationParams := Some params; pe_ResourceExplicit := explicit;
     pe_DiscoveryStatus := pe_DiscoveryStatus e; pe_ProtectedResources := pe_ProtectedResources e;
     pe_Version := pe_Version e; pe_ServiceRequirements := pe_ServiceRequirements e; pe_CreatedAt := pe_CreatedAt e;
     pe_UpdatedAt := pe_UpdatedAt e |}.

(** What discovery selected. *)
Definition set_selected (issuer : string) (endpoints : OAuth2Endpoints) (method auth registration clientID : string) (secret : Secret) (e : ThirdpartyOAuth2ProviderEntity) : ThirdpartyOAuth2ProviderEntity :=
  {| pe_ID := pe_ID e; pe_CanonicalID := pe_CanonicalID e; pe_ClearCanonicalID := pe_ClearCanonicalID e;
     pe_DisplayName := pe_DisplayName e; pe_ClientID := clientID; pe_Secret := secret;
     pe_CredentialSource := pe_CredentialSource e;
     pe_CredentialSourceTransitioned := pe_CredentialSourceTransitioned e;
     pe_CredentialSourceProvided := pe_CredentialSourceProvided e; pe_ClientRegistration := registration;
     pe_ClientRegistrationProvided := pe_ClientRegistrationProvided e; pe_ClientIDProvided := pe_ClientIDProvided e;
     pe_ClientSecretProvided := pe_ClientSecretProvided e; pe_TokenEndpointAuthMethod := auth;
     pe_Flavor := pe_Flavor e; pe_IssuerURI := issuer;
     pe_Discovery := MkDiscovery (dc_EnableDiscovery (pe_Discovery e)) (dc_MetadataURL (pe_Discovery e)) (dc_ResourceURL (pe_Discovery e)) method;
     pe_Endpoints := endpoints; pe_Scopes := pe_Scopes e; pe_AuthorizationParams := pe_AuthorizationParams e;
     pe_ResourceExplicit := pe_ResourceExplicit e; pe_DiscoveryStatus := pe_DiscoveryStatus e;
     pe_ProtectedResources := pe_ProtectedResources e; pe_Version := pe_Version e;
     pe_ServiceRequirements := pe_ServiceRequirements e; pe_CreatedAt := pe_CreatedAt e;
     pe_UpdatedAt := pe_UpdatedAt e |}.

(** What an update takes over from the stored service. *)
Definition set_prepared (source : string) (canonicalID : option string) (transitioned : bool) (e : ThirdpartyOAuth2ProviderEntity) : ThirdpartyOAuth2ProviderEntity :=
  {| pe_ID := pe_ID e; pe_CanonicalID := canonicalID; pe_ClearCanonicalID := pe_ClearCanonicalID e;
     pe_DisplayName := pe_DisplayName e; pe_ClientID := pe_ClientID e; pe_Secret := pe_Secret e;
     pe_CredentialSource := source; pe_CredentialSourceTransitioned := transitioned;
     pe_CredentialSourceProvided := pe_CredentialSourceProvided e; pe_ClientRegistration := pe_ClientRegistration e;
     pe_ClientRegistrationProvided := pe_ClientRegistrationProvided e; pe_ClientIDProvided := pe_ClientIDProvided e;
     pe_ClientSecretProvided := pe_ClientSecretProvided e;
     pe_TokenEndpointAuthMethod := pe_TokenEndpointAuthMethod e; pe_Flavor := pe_Flavor e;
     pe_IssuerURI := pe_IssuerURI e; pe_Discovery := pe_Discovery e; pe_Endpoints := pe_Endpoints e;
     pe_Scopes := pe_Scopes e; pe_AuthorizationParams := pe_AuthorizationParams e;
     pe_ResourceExplicit := pe_ResourceExplicit e; pe_DiscoveryStatus := pe_DiscoveryStatus e;
     pe_ProtectedResources := pe_ProtectedResources e; pe_Version := pe_Version e;
     pe_ServiceRequirements := pe_ServiceRequirements e; pe_CreatedAt := pe_CreatedAt e;
     pe_UpdatedAt := pe_UpdatedAt e |}.

(** [map[k] = v] on a map that may be nil, after its nil check. *)
Definition with_resource (value : string) (e : provider) : gmap string string := <["resource" := value]> (auth_params e).

Section model.
Context {GU : GoURL} {GN : GoNet} {UU : UUID} {PP : ProviderParsers}.

(** The request of an administrator, before anything remote is contacted. *)
Definition ValidateDiscoveryRequest (e : provider) : option provider :=
  if pe_ClientRegistrationProvided e || nonempty (pe_ClientRegistration e) then None
  else
    e ← validateCredentialSource e;
    if bool_decide (dc_ResourceURL (pe_Discovery e) = None) then None
    else if negb (validateResourceSource (pe_Discovery e)) then None
    else if nonempty (dc_ClientMethod (pe_Discovery e)) then None
    else if nonempty (pe_ClientID e) || negb (IsAbsent (pe_Secret e)) || nonempty (pe_TokenEndpointAuthMethod e) then None
    else if negb (bool_decide (pe_Endpoints e = MkEndpoints "" "" "")) then None
    else if negb (ValidateCanonicalID (pe_CanonicalID e)) then None
    else if negb (display_name_ok e) then None
    else if negb (bool_decide (effective_flavor e = FlavorStandard)) then None
    else if negb (forallb scope_Validate (pe_Scopes e)) then None
    else if negb (ValidateProtectedResources e) then None
    else if negb (validateAuthorizationParams (auth_params e)) then None
    else if negb (no_duplicate_resource_param e) then None
    else if nonempty (pe_IssuerURI e) && negb (validateDiscoveryIssuer (pe_IssuerURI e)) then None
    else match auth_params e !! "resource" with
         | Some resource => if validateExplicitDiscoveryResource resource then Some e else None
         | None => Some e
         end.

(** The broker-hosted identifier of a CIMD client. *)
Definition CIMDClientID (publicURL : string) (serviceID : ServiceID) : option string :=
  if negb (nonzero_id serviceID) then None
  else match url_Parse publicURL with
  | None => None
  | Some u =>
      if negb (bool_decide (u_Scheme u = "https")) || negb (nonempty (Hostname u)) || bool_decide (is_Some (u_User u)) ||
         nonempty (u_RawQuery u) || u_ForceQuery u || nonempty (u_Fragment u) then None
      else Some (TrimRightSlash (url_String u) +:+ "/.well-known/oauth-client/" +:+ serviceID)
  end.

Definition NormalizeProtectedResources (e : provider) : provider :=
  set_pe_ProtectedResources (NormalizeResourceURI <$> pe_ProtectedResources e) e.

(** Entities whose secret is kept elsewhere or that have none. *)
Definition secretless (e : provider) : bool :=
  bool_decide (pe_CredentialSource e = CredentialSourceFilesystem) || IsPublicClient e || IsCIMDConfidentialClient e.

Definition discovery_Status (s : DiscoveryStatus) (resourceURL : option string) : string :=
  match resourceURL, ds_FailureReason s with
  | None, _ => "not_applicable"
  | Some _, Some _ => "failed"
  | Some _, None => "ready"
  end.
End model.

(** ** Errors and environment *)

(** [SEUnavailable] is [errDiscoveryInfrastructure]; [SEDependency] wraps an error of key
    management, of encryption or of the permission sets; [SEKeyUnavailable] wraps that of
    the key readiness check, [SENotFound] is [ports.ErrNotFound]; context.Canceled is
    [DiscoveryCanceled]. *)
Inductive admin_error :=
  | SEDiscovery (e : discovery_error)
  | SEStore (e : pstore_error)
  | SEUnavailable
  | SEKeyUnavailable
  | SENotFound
  | SEDependency (e : go_error)
  | SEText.
Definition SECanceled : admin_error := SEDiscovery DiscoveryCanceled.
Definition SEPanic : admin_error := SEDiscovery DiscoveryPanic.
Definition se_failure (code : string) : admin_error := SEDiscovery (discoveryFailure code).
Definition store_result {A} (r : result pstore_error A) : result admin_error A :=
  match r with Ok a => Ok a | Err e => Err (SEStore e) end.

(** Both branch keys and encryption are bound to the service. *)
Class ServicePorts (E : Type) := {
  ps_now : E → E * time;
  ps_NewServiceID : E → E * ServiceID;
  ps_CreateBranchKey : ServiceID → E → E * result go_error string;
  ps_Encrypt : ServiceID → string → E → E * result go_error string;
  ps_Decrypt : ServiceID → string → E → E * result go_error string;
  ps_CountPermissionSetsForService : ServiceID → E → E * result go_error nat;
}.

(** The service's configuration; the discovery part is shared. *)
Record admin_config := ServiceDeployment {
  sd_discovery : discovery_config;
  sd_skipHTTPSValidation : bool;
  sd_has_permission_sets : bool;
  sd_has_user_sessions : bool;
  sd_has_status_writer : bool;
}.

Record provider_world (E : Type) := ProviderWorld { pw_store : service_world; pw_traced : traced E }.
Arguments ProviderWorld {E} _ _.
Arguments pw_store {E} _.
Arguments pw_traced {E} _.

Record DiscoveryStatusView := StatusView {
  sv_Status : string;
  sv_ResourceURL : option string;
  sv_IssuerURI : option string;
  sv_ClientMethod : option string;
  sv_LastAttemptAt : option time;
  sv_LastSuccessAt : option time;
  sv_FailureReason : option string;
}.

Record CIMDClientServiceProjection := CIMDProjection {
  cp_ID : ServiceID;
  cp_ClientID : string;
  cp_TokenEndpointAuthMethod : string;
}.

(** ** Operations *)

Section service.
Context {E : Type} {DP : DiscoveryPorts E} {SP : ServicePorts E}.
Context {GU : GoURL} {GN : GoNet} {UU : UUID} {PP : ProviderParsers} {DJ : DiscoveryJSON}.
Variable cfg : admin_config.

Abbreviation PM := (prog (provider_world E)).
Abbreviation PR A := (PM (result admin_error A)).

(** An action on the repositories, one outside, and a discovery program. *)
Definition repo_act {A} (f : service_world → service_world * A) : PM A :=
  act (λ w, let '(s, a) := f (pw_store w) in (ProviderWorld s (pw_traced w), a)).
Definition on_traced {A} (f : traced E → traced E * A) : provider_world E → provider_world E * A :=
  λ w, let '(t, a) := f (pw_traced w) in (ProviderWorld (pw_store w) t, a).
Definition outside {A} (f : E → E * A) : PM A :=
  act (on_traced (λ t, let '(e, a) := f (tr_env t) in (Traced e (tr_requests t), a))).
Fixpoint discovering {A} (p : prog (traced E) A) : PM A :=
  match p with
  | Ret a => Ret a
  | Act f k => Act (on_traced f) (λ x, discovering (k x))
  end.

Definition reading {A} (f : ProviderRepository → A) : PM A := repo_act (λ w, (w, f (sv_providers w))).
Definition changing {A} (f : ProviderRepository → ProviderRepository * A) : PM A :=
  repo_act (λ w, (on_providers f w, (f (sv_providers w)).2)).
Definition repository_Update (e : provider) (expectedVersion : option Z) : PM (result pstore_error provider) :=
  repo_act (λ w, (svc_Update e expectedVersion w,
                  (provider_Update (sessions_of (pe_ID e) w) e expectedVersion (sv_providers w)).2)).
Definition repository_Delete (i : ServiceID) : PM (result pstore_error unit) :=
  repo_act (λ w, (svc_Delete i w, (provider_Delete (sessions_of i w) i (sv_providers w)).2)).

Definition caller_ended (c : ctx) : PM (option ctx_error) := discovering (ended c).
Definition now : PM time := outside ps_now.
Definition publicURL : string := dd_cimdPublicURL (sd_discovery cfg).

(** The failure of an attempt whose context has ended. *)
Definition attempt_failure {A} (attempt : ctx) (x : ctx_error) : PR A :=
  e ← discovering (discoveryReadFailure attempt (ctx_cause x) "resource_metadata"); mret (Err (SEDiscovery e)).

(** *** Discovery *)

Definition setEffectiveDiscoveryResource (url : string) (e : provider) : provider :=
  if decide (is_Some (auth_params e !! "resource")) then set_params (auth_params e) true e
  else set_params (with_resource url e) false e.

(** [attempt] is the context made with the attempt's time limit. *)
Definition prepareDiscoveryCreate (attempt : ctx) (e : provider) : PR (time * provider) :=
  match ValidateDiscoveryRequest e with
  | None => mret (Err SEText)
  | Some e =>
      match dc_ResourceURL (pe_Discovery e) with
      | None => mret (Err SEPanic)
      | Some url =>
          i ← (if nonzero_id (pe_ID e) then mret (pe_ID e) else outside ps_NewServiceID);
          let e := set_pe_ID i e in
          r ← discovering (discoverProtectedResource (sd_discovery cfg) attempt url (pe_IssuerURI e) i);
          x ← caller_ended attempt;
          match x, r with
          | Some x, _ => attempt_failure attempt x
          | None, Err err => mret (Err (SEDiscovery err))
          | None, Ok d =>
              let dcr := bool_decide (dv_method d = ClientBootstrapDCR) in
              let e := set_selected (dv_issuer d) (dv_endpoints d) (dv_method d) (dv_auth d) (dv_registration d)
                         (if dcr then dv_clientID d else pe_ClientID e) (if dcr then dv_secret d else pe_Secret e) e in
              t ← now;
              mret (Ok (t, setEffectiveDiscoveryResource url e))
          end
      end
  end.

(** The parameters an update leaves: the stored ones when it names none. *)
Definition update_params (url : string) (e persisted : provider) : provider :=
  let '(params, explicit) :=
    match pe_AuthorizationParams e with
    | None => (auth_params persisted, pe_ResourceExplicit persisted)
    | Some m => (m, bool_decide (is_Some (m !! "resource")))
    end in
  set_params (if explicit then params else <["resource" := url]> params) explicit e.

(** Whether the server still admits the stored client, which is registered anew under a
    changed issuer. *)
Definition update_client (attempt : ctx) (e persisted : provider) (metadata : authorizationServerMetadata) (issuerChanged : bool)
    : PR (string * Secret) :=
  let changed : PR (string * Secret) := mret (Err (se_failure "client_method_changed")) in
  let method := pe_TokenEndpointAuthMethod persisted in
  if decide (dc_ClientMethod (pe_Discovery persisted) = ClientBootstrapCIMD) then
    if negb (bool_decide (method = AuthMethodPrivateKeyJWT)) || negb (supportsCIMD metadata) then changed
    else
      missing ← discovering (requireCIMDKey (sd_discovery cfg) attempt);
      mret match missing with Some err => Err (SEDiscovery err) | None => Ok (pe_ClientID e, pe_Secret e) end
  else if negb (nonempty (pe_ClientID persisted)) || negb (supportsDCRAuthentication metadata method) then changed
  else if negb (IsPublicClient persisted) && negb (IsEncrypted (pe_Secret persisted)) then changed
  else if negb issuerChanged then mret (Ok (pe_ClientID persisted, pe_Secret persisted))
  else if negb (supportsDCRMethod metadata method) then changed
  else match sm_RegistrationEndpoint metadata with
  | None => mret (Err SEPanic)
  | Some endpoint =>
      r ← discovering (registerDCRClient (sd_discovery cfg) attempt endpoint (pe_ID e) method);
      mret match r with Ok client => Ok client | Err err => Err (SEDiscovery err) end
  end.

(** The part of [prepareDiscoveryUpdate] under the attempt's context: its failures are
    recorded. *)
Definition refresh_discovery (attempt : ctx) (url : string) (e persisted : provider) (issuerChanged : bool) : PR provider :=
  r ← discovering (readProtectedResourceMetadata (sd_discovery cfg) attempt url (pe_IssuerURI e));
  x ← caller_ended attempt;
  match x, r with
  | Some x, _ => attempt_failure attempt x
  | None, Err err => mret (Err (SEDiscovery err))
  | None, Ok (issuer, metadata, endpoints) =>
      if negb (bool_decide (issuer = pe_IssuerURI persisted)) && negb issuerChanged
      then mret (Err (se_failure "client_method_changed"))
      else
        r ← update_client attempt e persisted metadata issuerChanged;
        match r with
        | Err err => mret (Err err)
        | Ok (clientID, secret) =>
            x ← caller_ended attempt;
            match x with
            | Some x => attempt_failure attempt x
            | None =>
                let method := pe_TokenEndpointAuthMethod persisted in
                mret (Ok (set_selected issuer endpoints (dc_ClientMethod (pe_Discovery persisted)) method
                            (ResolveClientRegistration method) clientID secret e))
            end
        end
  end.

(** The failure of an update, and when it is to be recorded. *)
Abbreviation update_result := (result (admin_error * option time) (time * provider)).

(** User sessions that stand in the way of a new issuer or audience. *)
Definition sessions_bar (i : ServiceID) (issuerChanged resourceChanged : bool) : PM (option (admin_error * option time)) :=
  if negb (issuerChanged || resourceChanged) then mret None
  else if negb (sd_has_user_sessions cfg) then mret (Some (SEUnavailable, None))
  else
    n ← repo_act (λ w, (w, session_CountByService i (sv_sessions w)));
    if bool_decide (n = 0) then mret None
    else
      t ← now;
      mret (Some (se_failure (if issuerChanged then "issuer_change_requires_no_sessions"
                              else "resource_change_requires_no_sessions"), Some t)).

Definition prepareDiscoveryUpdate (attempt : ctx) (e persisted : provider) : PM update_result :=
  if negb (nonzero_id (pe_ID e)) then mret (Err (SEText, None))
  else match ValidateDiscoveryRequest e with
  | None => mret (Err (SEText, None))
  | Some e =>
      match dc_ResourceURL (pe_Discovery e) with
      | None => mret (Err (SEPanic, None))
      | Some url =>
          if bool_decide (dc_ResourceURL (pe_Discovery persisted) = None) ||
             negb (bool_decide (dc_ClientMethod (pe_Discovery persisted) ∈ [ClientBootstrapCIMD; ClientBootstrapDCR]))
          then mret (Err (se_failure "client_method_changed", None))
          else
            let e := update_params url e persisted in
            let issuerChanged := nonempty (pe_IssuerURI e) && negb (bool_decide (pe_IssuerURI e = pe_IssuerURI persisted)) in
            let resourceChanged := negb (bool_decide (auth_resource e = auth_resource persisted)) in
            barred ← sessions_bar (pe_ID e) issuerChanged resourceChanged;
            match barred with
            | Some err => mret (Err err)
            | None =>
                let requested := if issuerChanged then pe_IssuerURI e else pe_IssuerURI persisted in
                r ← refresh_discovery attempt url (set_pe_IssuerURI requested e) persisted issuerChanged;
                t ← now;
                mret match r with Ok e => Ok (t, e) | Err err => Err (err, Some t) end
            end
      end
  end.

(** The code of a failure that is recorded. *)
Definition failure_code (failure : admin_error) : option string :=
  match failure with
  | SEDiscovery (DiscoveryError code _) => Some code
  | SEStore ErrDuplicateDCRClientIdentity => Some "duplicate_client_identity"
  | SEStore ErrIssuerChangeHasSessions => Some "issuer_change_requires_no_sessions"
  | SEStore ErrResourceChangeHasSessions => Some "resource_change_requires_no_sessions"
  | _ => None
  end.

(** The error the update returns. *)
Definition recordFailedDiscoveryUpdate (c : ctx) (active : provider) (completedAt : time) (failure : admin_error) : PM admin_error :=
  x ← caller_ended c;
  match x, failure with
  | Some Canceled, _ | _, SEDiscovery DiscoveryCanceled => mret SECanceled
  | _, _ =>
      match failure_code failure with
      | None => mret failure
      | Some code =>
          if negb (sd_has_status_writer cfg) then mret SEUnavailable
          else
            r ← changing (RecordDiscoveryFailure (pe_ID active) (pe_Version active) completedAt code);
            mret match r with
                 | Ok _ | Err (PStorage KConflict) => failure
                 | Err err => SEStore err
                 end
      end
  end.

(** *** Create and update *)

Definition discovered (e : provider) : bool := bool_decide (is_Some (dc_ResourceURL (pe_Discovery e))).

(** An error of key management: local failures of a discovered service are not shown. *)
Definition dependency_error (c : ctx) (isDiscovered : bool) (err : go_error) : PM admin_error :=
  if isDiscovered then
    x ← caller_ended c;
    mret match x with Some Canceled => SECanceled | _ => SEUnavailable end
  else mret (SEDependency err).

(** The hosted identity of a CIMD client needs a published key. *)
Definition require_client_key (e : provider) : PM bool :=
  if negb (discovered e) && IsCIMDConfidentialClient e then
    if negb (dd_has_key_readiness (sd_discovery cfg)) then mret false
    else outside dp_RequireUsablePublishedKey
  else mret true.

(** The service's branch key, and the secret encrypted under it unless it is retained. *)
Definition provision (c : ctx) (retained : bool) (e : provider) : PR provider :=
  r ← outside (ps_CreateBranchKey (pe_ID e));
  match r with
  | Err err => err ← dependency_error c (discovered e) err; mret (Err err)
  | Ok _ =>
      if secretless e || retained then mret (Ok e)
      else match GetPlaintext (pe_Secret e) with
      | None => mret (Err SEText)
      | Some plaintext =>
          r ← outside (ps_Encrypt (pe_ID e) plaintext);
          match r with
          | Err err => err ← dependency_error c (discovered e) err; mret (Err err)
          | Ok ciphertext => mret (Ok (set_pe_Secret (NewEncryptedSecret ciphertext) e))
          end
      end
  end.

Definition succeeded (attemptedAt : option time) (e : provider) : provider :=
  match attemptedAt with
  | Some t => set_pe_DiscoveryStatus (MkStatus (Some t) (Some t) None) e
  | None => e
  end.

(** [Create] once the entity is complete. *)
Definition create_validated (c : ctx) (attemptedAt : option time) (e : provider) : PR provider :=
  match ValidateForCreate (sd_skipHTTPSValidation cfg) e with
  | None => mret (Err SEText)
  | Some e =>
      let e := NormalizeProtectedResources e in
      if negb (ValidateProtectedResources e) then mret (Err SEText)
      else
        i ← (if nonzero_id (pe_ID e) then mret (pe_ID e) else outside ps_NewServiceID);
        let e := set_pe_ID i e in
        match (if IsCIMDClient e then (λ clientID, set_pe_ClientID clientID e) <$> CIMDClientID publicURL i else Some e) with
        | None => mret (Err (if discovered e then se_failure "cimd_unavailable" else SEText))
        | Some e =>
            usable ← require_client_key e;
            if negb usable then mret (Err SEKeyUnavailable)
            else
              r ← provision c false e;
              match r with
              | Err err => mret (Err err)
              | Ok e => r ← changing (provider_Create (succeeded attemptedAt e)); mret (store_result r)
              end
        end
  end.

Definition Create (c attempt : ctx) (e : provider) : PR provider :=
  if discovered e then
    r ← prepareDiscoveryCreate attempt e;
    match r with
    | Err err => mret (Err err)
    | Ok (attemptedAt, e) => create_validated c (Some attemptedAt) e
    end
  else create_validated c None e.

(** The entity an update proposes, with the stored one. *)
Definition update_checked (e : provider) : option unit :=
  if discovered e then
    match ValidateDiscoveryRequest e with
    | None => None
    | Some _ => if nonzero_id (pe_ID e) then Some () else None
    end
  else if bool_decide (pe_CredentialSource e ≠ CredentialSourceFilesystem) &&
            (negb (IsAbsent (pe_Secret e)) || nonempty (pe_ClientID e)) ||
          IsPublicClient e || IsCIMDConfidentialClient e || bool_decide (pe_Flavor e = FlavorGoogle)
  then (λ _, ()) <$> ValidateForUpdate (sd_skipHTTPSValidation cfg) e
  else Some ().

(** Going back to inline credentials takes new ones. *)
Definition source_transition_ok (e persisted : provider) : bool :=
  negb (bool_decide (pe_CredentialSource persisted = CredentialSourceFilesystem) &&
        bool_decide (pe_CredentialSource e = CredentialSourceStored)) ||
  pe_ClientIDProvided e && pe_ClientSecretProvided e && nonempty (pe_ClientID e) &&
  bool_decide (is_Some (GetPlaintext (pe_Secret e))).

Definition prepareUpdate (e : provider) : PR (provider * provider) :=
  if negb (discovered e) && (negb (nonzero_id (pe_ID e)) || negb (nonempty (pe_DisplayName e))) then
    mret (Err match ValidateForUpdate (sd_skipHTTPSValidation cfg) e with None => SEText | Some _ => SEPanic end)
  else if bool_decide (update_checked e = None) then mret (Err SEText)
  else
    r ← reading (provider_Get (pe_ID e));
    mret match r with
    | Err err => Err (SEStore err)
    | Ok persisted =>
        let source := if negb (pe_CredentialSourceProvided e) && bool_decide (pe_CredentialSource e = "")
                      then previous_source persisted else pe_CredentialSource e in
        let canonicalID := if bool_decide (pe_CanonicalID e = None) && negb (pe_ClearCanonicalID e)
                           then pe_CanonicalID persisted else pe_CanonicalID e in
        let transitioned := pe_CredentialSourceTransitioned persisted ||
                            negb (bool_decide (previous_source persisted = source)) in
        let e := set_prepared source canonicalID transitioned e in
        if source_transition_ok e persisted then Ok (e, persisted) else Err SEText
    end.

(** The hosted identity of an updated CIMD service. *)
Definition update_identity (e persisted : provider) : result admin_error provider :=
  if negb (IsCIMDClient e) then Ok e
  else match CIMDClientID publicURL (pe_ID e) with
  | None => Err (if discovered e then se_failure "cimd_unavailable" else SEText)
  | Some clientID =>
      let moved := negb (bool_decide (pe_ClientID persisted = clientID)) in
      if discovered e then if moved then Err (se_failure "cimd_unavailable") else Ok (set_pe_ClientID (pe_ClientID persisted) e)
      else if IsCIMDClient persisted && moved then Err SEText else Ok (set_pe_ClientID clientID e)
  end.

(** [Update] from the complete entity to the one that is stored. *)
Definition update_validated (c : ctx) (e persisted : provider) : PR provider :=
  match ValidateForUpdate (sd_skipHTTPSValidation cfg) e with
  | None => mret (Err (SEStore (PStorage KValidation)))
  | Some e =>
      let e := NormalizeProtectedResources e in
      if negb (ValidateProtectedResources e) then mret (Err SEText)
      else match update_identity e persisted with
      | Err err => mret (Err err)
      | Ok e =>
          usable ← require_client_key e;
          if negb usable then mret (Err SEKeyUnavailable)
          else provision c (discovered e && bool_decide (dc_ClientMethod (pe_Discovery persisted) = ClientBootstrapDCR) &&
                            IsEncrypted (pe_Secret e)) e
      end
  end.

(** Without a version the update keeps the protected resources it read, and their version. *)
Definition update_store (e persisted : provider) (expectedVersion : option Z) : PM (result pstore_error provider) :=
  match expectedVersion with
  | Some v => repository_Update e (Some v)
  | None => repository_Update (set_pe_ProtectedResources (pe_ProtectedResources persisted) e) (Some (pe_Version persisted))
  end.

Definition recorded_conflict (err : pstore_error) : bool :=
  match err with
  | ErrDuplicateDCRClientIdentity | ErrIssuerChangeHasSessions | ErrResourceChangeHasSessions => true
  | _ => false
  end.

Definition update_prepared (c : ctx) (attemptedAt : option time) (e persisted : provider) (expectedVersion : option Z) : PR provider :=
  r ← update_validated c e persisted;
  match r with
  | Err err => mret (Err err)
  | Ok e =>
      r ← update_store (succeeded attemptedAt e) persisted expectedVersion;
      match r with
      | Ok e => mret (Ok e)
      | Err err =>
          if bool_decide (is_Some attemptedAt) && recorded_conflict err then
            t ← now;
            err ← recordFailedDiscoveryUpdate c persisted t (SEStore err);
            mret (Err err)
          else mret (Err (SEStore err))
      end
  end.

(** A failed preparation is a validation error unless it comes from the repository. *)
Definition update_error (err : admin_error) : admin_error :=
  match err with
  | SEStore _ => err
  | SEDiscovery DiscoveryPanic => err
  | _ => SEStore (PStorage KValidation)
  end.

Definition Update (c attempt : ctx) (e : provider) (expectedVersion : option Z) : PR provider :=
  r ← prepareUpdate e;
  match r with
  | Err err => mret (Err (update_error err))
  | Ok (e, persisted) =>
      if negb (discovered e) then update_prepared c None e persisted expectedVersion
      else
        r ← prepareDiscoveryUpdate attempt e persisted;
        match r with
        | Err (err, None) => mret (Err err)
        | Err (err, Some completedAt) => err ← recordFailedDiscoveryUpdate c persisted completedAt err; mret (Err err)
        | Ok (attemptedAt, e) => update_prepared c (Some attemptedAt) e persisted expectedVersion
        end
  end.

Definition ValidateUpdate (e : provider) : PM bool :=
  r ← prepareUpdate e;
  mret match r with
  | Err _ => false
  | Ok (e, _) =>
      if discovered e then bool_decide (is_Some (ValidateDiscoveryRequest e))
      else bool_decide (is_Some (ValidateForUpdate (sd_skipHTTPSValidation cfg) e))
  end.

(** *** Reading *)

(** A secret that cannot be decrypted stays encrypted. *)
Definition decrypted (e : provider) : PM provider :=
  if secretless e then mret e
  else match GetCiphertext (pe_Secret e) with
  | None => mret e
  | Some ciphertext =>
      r ← outside (ps_Decrypt (pe_ID e) ciphertext);
      mret match r with Ok plaintext => set_pe_Secret (NewPlaintextSecret plaintext) e | Err _ => e end
  end.
Fixpoint all_decrypted (l : list provider) : PM (list provider) :=
  match l with
  | [] => mret []
  | e :: l => e ← decrypted e; l ← all_decrypted l; mret (e :: l)
  end.

Definition Get (i : ServiceID) : PR provider :=
  r ← reading (provider_Get i);
  match r with
  | Err err => mret (Err (SEStore err))
  | Ok e => if negb (bool_decide (pe_ID e = i)) then mret (Err SEText) else e ← decrypted e; mret (Ok e)
  end.

Definition GetByIDs (ids : list ServiceID) : PM (list provider) := l ← reading (provider_GetByIDs ids); all_decrypted l.
Definition List : PM (list provider) := l ← reading provider_List; all_decrypted l.

Definition GetDiscoveryStatus (i : ServiceID) : PR DiscoveryStatusView :=
  r ← reading (provider_Get i);
  mret match r with
  | Err err => Err (SEStore err)
  | Ok e =>
      let s := pe_DiscoveryStatus e in
      let resource := dc_ResourceURL (pe_Discovery e) in
      let status := discovery_Status s resource in
      if negb (bool_decide (pe_ID e = i)) then Err SEText
      else Ok match resource with
              | None => StatusView status None None None None None None
              | Some url => StatusView status (Some url) (Some (pe_IssuerURI e)) (Some (dc_ClientMethod (pe_Discovery e)))
                              (ds_LastAttemptAt s) (ds_LastSuccessAt s) (ds_FailureReason s)
              end
  end.

Definition GetCIMDClientService (i : ServiceID) : PR CIMDClientServiceProjection :=
  r ← reading (provider_Get i);
  mret match r with
  | Err err => Err (SEStore err)
  | Ok e =>
      if negb (bool_decide (pe_ID e = i)) || negb (IsCIMDClient e) || negb (nonempty (pe_ClientID e))
      then Err SENotFound
      else Ok (CIMDProjection (pe_ID e) (pe_ClientID e) (pe_TokenEndpointAuthMethod e))
  end.

Definition ResolveID (value : string) : PR ServiceID :=
  match uuid_Parse value with
  | Some i => mret (Ok i)
  | None =>
      r ← reading (provider_GetByCanonicalID value);
      mret match r with
           | Ok (Some e) => Ok (pe_ID e)
           | Ok None => Err SEPanic
           | Err err => Err (SEStore err)
           end
  end.

Definition CanonicalIDs (ids : list ServiceID) : PM (gmap ServiceID string) := reading (provider_GetCanonicalIDs ids).

(** Whether a service needs a client key; [None]: an identity does not match the origin. *)
Fixpoint verify_identities (l : list provider) (requiresClientKey : bool) : option bool :=
  match l with
  | [] => Some requiresClientKey
  | e :: l =>
      if negb (IsCIMDClient e) then verify_identities l requiresClientKey
      else if bool_decide (CIMDClientID publicURL (pe_ID e) = Some (pe_ClientID e))
      then verify_identities l (requiresClientKey || IsCIMDConfidentialClient e)
      else None
  end.
Definition VerifyCIMDServiceIdentities : PM (option bool) := l ← reading provider_List; mret (verify_identities l false).

Definition FindByProtectedResource (resourceURI : string) : PM (result TokenExchangeError (option provider)) :=
  reading (provider_FindByProtectedResource resourceURI).

(** The first requirement that names no service, or a scope the service does not have. *)
Fixpoint service_ValidateServiceRequirements (l : list (ServiceID * list string)) : PR unit :=
  match l with
  | [] => mret (Ok ())
  | (i, scopes) :: l =>
      r ← reading (provider_Get i);
      match r with
      | Err (PStorage KNotFound) => mret (Err (SEStore (PStorage KValidation)))
      | Err err => mret (Err (SEStore err))
      | Ok e =>
          if forallb (λ s, bool_decide (s ∈ sc_ScopeValue <$> pe_Scopes e)) scopes then service_ValidateServiceRequirements l
          else mret (Err (SEStore (PStorage KValidation)))
      end
  end.

(** *** Deletion and protected resources *)

Definition Delete (i : ServiceID) : PR unit :=
  referenced ← (if negb (sd_has_permission_sets cfg) then mret (Ok 0) else outside (ps_CountPermissionSetsForService i));
  match referenced with
  | Err err => mret (Err (SEDependency err))
  | Ok (S _) => mret (Err (SEStore (PStorage KConflict)))
  | Ok 0 => r ← repository_Delete i; mret (store_result r)
  end.

Definition service_AddProtectedResource (i : ServiceID) (uri : string) : PR ProtectedResourceMutationResult :=
  match NormalizeAndValidateProtectedResource uri with
  | None => mret (Err (SEStore (PStorage KValidation)))
  | Some uri => r ← changing (AddProtectedResource i uri); mret (store_result r)
  end.
Definition service_RemoveProtectedResource (i : ServiceID) (uri : string) : PR ProtectedResourceMutationResult :=
  match NormalizeAndValidateProtectedResource uri with
  | None => mret (Err (SEStore (PStorage KValidation)))
  | Some uri => r ← changing (RemoveProtectedResource i uri); mret (store_result r)
  end.
Definition service_RenameProtectedResource (i : ServiceID) (fromURI toURI : string) : PR ProtectedResourceMutationResult :=
  match NormalizeAndValidateProtectedResource fromURI, NormalizeAndValidateProtectedResource toURI with
  | Some from, Some to => r ← changing (RenameProtectedResource i from to); mret (store_result r)
  | _, _ => mret (Err (SEStore (PStorage KValidation)))
  end.
Definition service_ListProtectedResources (i : ServiceID) : PR (list string * Z) :=
  r ← reading (ListProtectedResources i); mret (store_result r).

End service.
