(* ===== verification/ServiceEffects.v ===== *)
(** * Effects of the service for third-party services

    What the validation of a service leaves alone, and a logic for programs on the
    repositories that also send discovery requests: what leaves, and what is written. *)

From S2P Require Import Prelude ToolApproval ApprovalStore ApprovalHandlers OAuthSessions UserGrants Consent UriValidation NetPolicy UniqueIndex BrokerErrors Providers ProviderStore ProviderStoreFacts UserSessions ServiceSessions ProviderTokens AuthChallenge ResourceDiscovery ResourceDiscoveryFacts ProviderService.

(** ** What validation leaves alone *)

(** Only a Google credential determines the client, the issuer and the endpoints. *)
Record validated (e e' : provider) : Prop := Validated {
  vd_ID : pe_ID e' = pe_ID e;
  vd_Secret : pe_Secret e' = pe_Secret e;
  vd_Discovery : pe_Discovery e' = pe_Discovery e;
  vd_Method : pe_TokenEndpointAuthMethod e' = pe_TokenEndpointAuthMethod e;
  vd_Flavor : pe_Flavor e' = pe_Flavor e;
  vd_client : effective_flavor e ≠ FlavorGoogle →
    pe_ClientID e' = pe_ClientID e ∧ pe_IssuerURI e' = pe_IssuerURI e ∧ pe_Endpoints e' = pe_Endpoints e;
}.
#[export] Instance validated_preorder : PreOrder validated.
Proof.
  split; [by intros e; split |]. intros e1 e2 e3 [? ? ? ? Hf Hc] [? ? ? ? ? Hc']. split; try congruence.
  intros Hg. destruct (Hc Hg) as (? & ? & ?). unfold effective_flavor in *. rewrite Hf in Hc'. destruct (Hc' Hg) as (? & ? & ?).
  split_and!; congruence.
Qed.

(** The checks a success has passed. *)
Ltac passed H := repeat match type of H with (if ?b then None else _) = Some _ => let P := fresh "Hpassed" in destruct b eqn:P; [done |] end.

Section model.
Context {GU : GoURL} {GN : GoNet} {UU : UUID} {PP : ProviderParsers}.

(** Only the first step of the validation determines the registration. *)
Definition late (e e' : provider) : Prop := validated e e' ∧ pe_ClientRegistration e' = pe_ClientRegistration e.
#[local] Instance late_preorder : PreOrder late.
Proof. split; [by split |]. intros e1 e2 e3 [H1 ?] [H2 ?]. split; [by etrans | congruence]. Qed.

Lemma source_late e e' : validateCredentialSource e = Some e' → late e e'.
Proof. intros (v & -> & _)%validateCredentialSource_set. by split. Qed.
Lemma registration_validated f e e' : validateClientRegistration f e = Some e' →
  validated e e' ∧ (dc_ClientMethod (pe_Discovery e) = ClientBootstrapDCR → IsCIMDClient e' = false).
Proof.
  intros Hv. destruct (validateClientRegistration_set f e e' Hv) as (v & -> & _). split; [by split |]. intros Hd.
  revert Hv. unfold validateClientRegistration. cbv zeta.
  assert (∀ y, pe_Discovery y = pe_Discovery e → (if IsCIMDClient y then
    if bool_decide (f = FlavorGoogle) then None else if bool_decide (pe_CredentialSource y = CredentialSourceFilesystem) then None
    else if negb (IsCIMDConfidentialClient y) && negb (IsPublicClient y) then None
    else if bool_decide (dc_ClientMethod (pe_Discovery y) = ClientBootstrapDCR) then None else Some y
    else if IsCIMDConfidentialClient y then None
    else if bool_decide (dc_ClientMethod (pe_Discovery y) = ClientBootstrapCIMD) then None else Some y) =
    Some (set_pe_ClientRegistration v e) → IsCIMDClient (set_pe_ClientRegistration v e) = false) as Hy.
  { intros y Hdy Hy. destruct (IsCIMDClient y) eqn:Hc; passed Hy; injection Hy as <-; [| done].
    rewrite Hdy, Hd in *. by breflect. }
  destruct (bool_decide (pe_ClientRegistration e = "") && _); (destruct (negb _); [done |]); by apply Hy.
Qed.
Lemma outbound_late e e' : ValidateOutboundCredentials e = Some e' → late e e'.
Proof.
  unfold ValidateOutboundCredentials. intros (e1 & H1 & H2)%bind_Some. assert (e' = e1) as -> by (revert H2; repeat case_match; congruence).
  destruct (_ || _); [by apply source_late | by simplify_eq].
Qed.
Lemma remainder_late skip e e' : validate_remainder skip e = Some e' → late e e'.
Proof. unfold validate_remainder. intros Hv. passed Hv. by apply outbound_late. Qed.
Lemma flavor_late skip b credential need e e' : validate_flavor skip b credential need e = Some e' → late e e'.
Proof.
  unfold validate_flavor. case_decide as Hg.
  - unfold enrichForGoogleFlavor. intros (g & _ & Hg')%bind_Some.
    assert (∃ c ep i, e' = set_google c ep i e) as (c & ep & i & ->) by (revert Hg'; repeat case_match; intros [= <-]; eauto).
    by split.
  - intros Hs. assert (e' = e) as -> by (revert Hs; repeat case_match; congruence). done.
Qed.
Definition dcr_static (e e' : provider) : Prop := dc_ClientMethod (pe_Discovery e) = ClientBootstrapDCR → IsCIMDClient e' = false.
Lemma late_cimd e e1 e' : late e1 e' → dcr_static e e1 → dcr_static e e'.
Proof. intros [_ Hr] He Hd. unfold IsCIMDClient in *. rewrite Hr. by apply He. Qed.

Lemma authentication_validated f e e' b : validateClientAuthentication f e = Some (e', b) → validated e e' ∧ dcr_static e e'.
Proof.
  unfold validateClientAuthentication. intros (e1 & [H1 Hr]%registration_validated & (e2 & H2%source_late & H3)%bind_Some)%bind_Some.
  assert (e' = e2) as -> by (revert H3; repeat case_match; congruence). split; [etrans; [exact H1 | apply H2] |]. by eapply late_cimd.
Qed.
Lemma stored_validated e e' : ValidateStoredClientAuthentication e = Some e' → validated e e'.
Proof.
  unfold ValidateStoredClientAuthentication. intros (e1 & [H1 _]%registration_validated & (e2 & H2%source_late & H3)%bind_Some)%bind_Some.
  passed H3. assert (e' = e2) as -> by (revert H3; repeat case_match; congruence). etrans; [exact H1 | apply H2].
Qed.

Lemma ValidateForCreate_validated skip e e' : ValidateForCreate skip e = Some e' → validated e e' ∧ dcr_static e e'.
Proof.
  unfold ValidateForCreate. intros Hv. passed Hv. apply bind_Some in Hv as ([e1 b] & [H1 Hr]%authentication_validated & H2).
  passed H2. apply bind_Some in H2 as (cr & _ & (e2 & H2%flavor_late & H3%remainder_late)%bind_Some).
  assert (late e1 e') as H4 by (by etrans). split; [| by eapply late_cimd]. etrans; [| apply H4]. etrans; [| exact H1]. by split.
Qed.
Lemma ValidateForUpdate_validated skip e e' : ValidateForUpdate skip e = Some e' →
  validated e e' ∧ dcr_static e e' ∧ nonzero_id (pe_ID e) = true.
Proof.
  unfold ValidateForUpdate. intros Hv. destruct (nonzero_id (pe_ID e)); passed Hv; [| done].
  apply bind_Some in Hv as ([e1 b] & [H1 Hr]%authentication_validated & H2). passed H2.
  apply bind_Some in H2 as (cr & _ & (e2 & H2%flavor_late & H3%remainder_late)%bind_Some).
  assert (late e1 e') as H4 by (by etrans). split; [etrans; [exact H1 | apply H4] |]. split; [by eapply late_cimd | done].
Qed.

Lemma valid_public url : ValidatePublicHTTPSURL url = true → public url.
Proof.
  intros Hv. unfold public, discoveryURL. rewrite Hv. unfold ValidatePublicHTTPSURL in Hv. destruct (url_Parse url) as [u |]; [| done].
  destruct (bool_decide_reflect (u_Scheme u = "https")) as [-> |]; [| done]. cbn [negb] in *.
  destruct (nonempty (u_Host u)); [done |]. by rewrite orb_true_r in Hv.
Qed.

(** An accepted discovery request: a public resource, and no client of its own. *)
Lemma ValidateDiscoveryRequest_spec e e' : ValidateDiscoveryRequest e = Some e' →
  (∃ v, e' = set_pe_CredentialSource v e) ∧ effective_flavor e = FlavorStandard ∧
  (∃ url, dc_ResourceURL (pe_Discovery e) = Some url ∧ public url) ∧ pe_ClientID e = "" ∧ IsAbsent (pe_Secret e) = true.
Proof.
  unfold ValidateDiscoveryRequest. intros Hv. passed Hv. apply bind_Some in Hv as (e1 & (v & -> & _)%validateCredentialSource_set & Hv).
  passed Hv. assert (e' = set_pe_CredentialSource v e) as -> by (revert Hv; repeat case_match; congruence).
  cbn [pe_Discovery pe_ClientID pe_Secret pe_TokenEndpointAuthMethod set_pe_CredentialSource] in *. split; [by exists v |].
  repeat match goal with H : (_ || _) = false |- _ => apply orb_false_iff in H as [? ?] end. breflect.
  destruct (dc_ResourceURL (pe_Discovery e)) as [url |] eqn:Hurl; [| done]. split_and!.
  - done.
  - exists url. split; [done |]. apply valid_public. unfold validateResourceSource in *. rewrite Hurl in *. by destruct (ValidatePublicHTTPSURL url); rewrite ?andb_false_r in *.
  - unfold nonempty in *. by breflect.
  - done.
Qed.
End model.

(** ** Programs on the repositories *)

(** What an operation writes: the record of a service, [None] when it is deleted, or the
    failure of a discovery. *)
Inductive effect :=
  | Wrote (i : ServiceID) (record : option provider)
  | RecordedFailure (i : ServiceID) (version : Z) (t : time) (code : string).

Section effects.
Context {E : Type} {GU : GoURL} {GN : GoNet} {UU : UUID} {PP : ProviderParsers}.

(** A write to one service leaves the others and all sessions as they are. *)
Definition effect_step (l : effect) (w w' : service_world) : Prop :=
  svc_step w w' ∧ sv_sessions w' = sv_sessions w ∧
  match l with
  | Wrote i record => pr_providers (sv_providers w') = partial_alter (λ _, record) i (pr_providers (sv_providers w))
  | RecordedFailure i v t code => w' = on_providers (RecordDiscoveryFailure i v t code) w
  end.

Definition sends (P : discovery_request → Prop) (w w' : provider_world E) : Prop :=
  ∃ l, tr_requests (pw_traced w') = l ++ tr_requests (pw_traced w) ∧ Forall P l.

(** Whatever the world is at each action, as long as it satisfies the invariant: what leaves
    satisfies [P], and the value with the effects so far [Q]. *)
Fixpoint effects {A} (P : discovery_request → Prop) (Q : list effect → A → Prop) (log : list effect)
    (p : prog (provider_world E) A) : Prop :=
  match p with
  | Ret a => Q log a
  | Act f k => ∀ w, svc_inv (pw_store w) → sends P w (f w).1 ∧
      (pw_store (f w).1 = pw_store w ∧ effects P Q log (k (f w).2) ∨
       ∃ l, effect_step l (pw_store w) (pw_store (f w).1) ∧ effects P Q (log ++ [l]) (k (f w).2))
  end.

Lemma eff_bind {A B} P Q1 Q log (p : prog (provider_world E) A) (g : A → prog (provider_world E) B) :
  effects P Q1 log p → (∀ log a, Q1 log a → effects P Q log (g a)) → effects P Q log (p ≫= g).
Proof.
  intros Hp Hg. revert log Hp. induction p as [a | X f k IH]; intros log Hp; [by apply Hg |]. intros w Hw.
  destruct (Hp w Hw) as [Hs [[Hq Hk] | (l & Hl & Hk)]]; (split; [done |]); [left | right; exists l]; (split; [done |]); by apply IH.
Qed.
Lemma eff_ret {A} P (Q : list effect → A → Prop) log a : Q log a → effects P Q log (mret a).
Proof. done. Qed.
Lemma eff_mono {A} P (Q Q' : list effect → A → Prop) log (p : prog (provider_world E) A) :
  (∀ log a, Q log a → Q' log a) → effects P Q log p → effects P Q' log p.
Proof.
  intros HQ. revert log. induction p as [a | X f k IH]; intros log Hp; [by apply HQ |]. intros w Hw.
  destruct (Hp w Hw) as [Hs [[Hq Hk] | (l & Hl & Hk)]]; (split; [done |]); [left | right; exists l]; (split; [done |]); by apply IH.
Qed.

(** *** Actions that write nothing *)

Lemma sends_none P w w' : tr_requests (pw_traced w') = tr_requests (pw_traced w) → sends P w w'.
Proof. intros Heq. exists []. by rewrite Heq. Qed.

Abbreviation quiet Q log := (λ log' a, log' = log ∧ Q a).

Lemma eff_outside {A} P (Q : A → Prop) log (f : E → E * A) : (∀ e, Q (f e).2) → effects P (quiet Q log) log (outside f).
Proof.
  intros HQ w Hw. specialize (HQ (tr_env (pw_traced w))). unfold on_traced. destruct (f (tr_env (pw_traced w))) as [e a].
  split; [by apply sends_none |]. left. split; [done |]. by split.
Qed.
Lemma eff_discovering {A} (P P' : discovery_request → Prop) (Q : A → Prop) log p : (∀ r, P' r → P r) → obeys P' Q p →
  effects P (quiet Q log) log (discovering p).
Proof.
  intros HP. induction p as [a | X f k IH]; intros Hp; [done |]. intros w Hw. destruct (Hp (pw_traced w)) as [(l & Hl & HF) Hk].
  unfold on_traced. destruct (f (pw_traced w)) as [t x]. cbn in *. split; [| left; split; [done |]; by apply IH].
  exists l. split; [done |]. by eapply Forall_impl.
Qed.
Lemma eff_repo_read {A} P (Q : A → Prop) log (f : service_world → A) : (∀ w, svc_inv w → Q (f w)) →
  effects P (quiet Q log) log (repo_act (λ w, (w, f w))).
Proof. intros HQ w Hw. cbn. split; [by apply sends_none |]. left. split; [done |]. split; [done |]. by apply HQ. Qed.
Lemma eff_reading {A} P (Q : A → Prop) log (f : ProviderRepository → A) : (∀ r, store_wf r → Q (f r)) →
  effects P (quiet Q log) log (reading f).
Proof. intros HQ. apply eff_repo_read. intros w Hw. apply HQ, Hw. Qed.

(** *** Actions that write *)

(** What is stored of an entity. *)
Record stored_as (e record : provider) : Prop := StoredAs {
  sa_ok : stored_ok record;
  sa_ID : pe_ID record = pe_ID e;
  sa_ClientID : pe_ClientID record = pe_ClientID e;
  sa_Issuer : pe_IssuerURI record = pe_IssuerURI e;
  sa_Discovery : pe_Discovery record = pe_Discovery e;
  sa_Method : pe_TokenEndpointAuthMethod record = pe_TokenEndpointAuthMethod e;
  sa_secret : (if IsAbsent (pe_Secret e) then Some NewAbsentSecret else NewEncryptedSecret <$> GetCiphertext (pe_Secret e)) = Some (pe_Secret record);
}.

Lemma record_stored_as e record : providerEntityToRecord e = Some record → stored_as e record.
Proof.
  intros Hr. assert ((if IsAbsent (pe_Secret e) then Some NewAbsentSecret else NewEncryptedSecret <$> GetCiphertext (pe_Secret e)) = Some (pe_Secret record)) as Hsec.
  { revert Hr. unfold providerEntityToRecord. intros (e1 & H1%stored_validated & Hr)%bind_Some. passed Hr.
    apply bind_Some in Hr as (sec & Hsec & [= <-]). by rewrite (vd_Secret _ _ H1) in Hsec. }
  by destruct (providerEntityToRecord_spec e record Hr) as (src & reg & sec & -> & Hok).
Qed.
Lemma stored_absent e record : stored_as e record → pe_Secret e = NewAbsentSecret → pe_Secret record = NewAbsentSecret.
Proof. intros Hs He. pose proof (sa_secret _ _ Hs) as Hsec. rewrite He in Hsec. by injection Hsec as <-. Qed.
Lemma stored_encrypted e record c : stored_as e record → pe_Secret e = NewEncryptedSecret c → pe_Secret record = NewEncryptedSecret c.
Proof.
  intros Hs He. pose proof (sa_secret _ _ Hs) as Hsec. rewrite He in Hsec. unfold GetCiphertext in Hsec. cbn in Hsec.
  case_decide; [done |]. by injection Hsec as <-.
Qed.
Lemma stored_plaintext e record s : stored_as e record → GetPlaintext (pe_Secret e) = Some s → False.
Proof.
  intros Hs He. pose proof (sa_secret _ _ Hs) as Hsec. unfold GetPlaintext, GetCiphertext, IsAbsent in *.
  destruct (pe_Secret e) as [p [c |] []]; cbn in *; try done.
Qed.

(** An operation on one service: nothing if it fails, and only its record otherwise, which
    [Q] relates to the answer. *)
Definition touches {A} (i : ServiceID) (Q : option provider → A → Prop)
    (f : ProviderRepository → ProviderRepository * result pstore_error A) : Prop :=
  ∀ r, match (f r).2 with
       | Ok a => ∃ o, pr_providers (f r).1 = partial_alter (λ _, o) i (pr_providers r) ∧ Q o a
       | Err _ => (f r).1 = r
       end.

(** The record of an entity, as the repository answers with it. *)
Definition stores (e : provider) (o : option provider) (e' : provider) : Prop :=
  pe_ID e' = pe_ID e ∧ ∃ record, o = Some record ∧ stored_as e record.

Lemma provider_Create_touches e : touches (pe_ID e) (stores e) (provider_Create e).
Proof.
  intros r. unfold provider_Create. destruct (negb _); [done |]. destruct (normalizedResourceSet _) as [X |]; [| done]. cbv zeta.
  repeat match goal with |- context [if ?b then (r, _) else _] => destruct b; [done |] end.
  destruct (providerEntityToRecord _) as [record |] eqn:Hr; [| done]. apply record_stored_as in Hr.
  exists (Some (set_pe_CredentialSourceTransitioned false record)). split; [done |]. split; [done |]. eexists. split; [done |].
  destruct Hr as [[] ? ? ? ? ? ?]. by split.
Qed.
Lemma provider_Update_touches n e v : touches (pe_ID e) (stores e) (provider_Update n e v).
Proof.
  intros r. unfold provider_Update. destruct (pr_providers r !! pe_ID e) as [old |]; [| done].
  destruct (match v with Some _ => _ | None => _ end); [done |]. destruct (stale_attempt e old); [done |]. cbv zeta.
  destruct (session_conflict _ _ _ _); [done |].
  destruct (match proposed_canonical e old with Some _ => _ | None => _ end); [done |].
  destruct (match providerDCRIdentity e with Some _ => _ | None => _ end); [done |].
  destruct (if decide (is_Some v) then _ else _) as [X |]; [| done]. destruct (bool_decide (is_Some v) && _); [done |].
  destruct (providerEntityToRecord _) as [record |] eqn:Hr; [| done]. apply record_stored_as in Hr. cbn [fst snd pr_providers].
  eexists (Some (set_pe_CredentialSourceTransitioned _ record)). split; [done |]. split; [done |]. eexists. split; [done |].
  destruct Hr as [[] ? ? ? ? ? ?]. by split.
Qed.
Lemma provider_Delete_touches n i : touches i (λ o _, o = None) (provider_Delete n i).
Proof. intros r. unfold provider_Delete. destruct (_ && _); [done |]. by exists None. Qed.

Lemma bumped i e X owners r : ∃ o, pr_providers (set_resources i e X owners r) = partial_alter (λ _, o) i (pr_providers r) ∧ is_Some o.
Proof. by exists (Some (bump_version e)). Qed.
Lemma unchanged i e r : pr_providers r !! i = Some e → ∃ o, pr_providers r = partial_alter (λ _, o) i (pr_providers r) ∧ is_Some o.
Proof. intros Hi. exists (Some e). split; [exact (eq_sym (insert_id (pr_providers r) i e Hi)) | done]. Qed.

Abbreviation any := (λ (o : option provider) _, is_Some o).
Lemma AddProtectedResource_touches i uri : touches i any (AddProtectedResource i uri).
Proof.
  intros r. unfold AddProtectedResource. destruct (NormalizeAndValidateProtectedResource uri) as [x |]; [| done].
  destruct (pr_providers r !! i) as [e |] eqn:He; [| done].
  destruct (resourceOwners r !! x); [case_decide; [done | by eapply unchanged] | apply bumped].
Qed.
Lemma RemoveProtectedResource_touches i uri : touches i any (RemoveProtectedResource i uri).
Proof.
  intros r. unfold RemoveProtectedResource. destruct (NormalizeAndValidateProtectedResource uri) as [x |]; [| done].
  destruct (pr_providers r !! i) as [e |]; [| done]. destruct (negb _); [done | apply bumped].
Qed.
Lemma RenameProtectedResource_touches i from to : touches i any (RenameProtectedResource i from to).
Proof.
  intros r. unfold RenameProtectedResource. destruct (NormalizeAndValidateProtectedResource from) as [x |]; [| done].
  destruct (NormalizeAndValidateProtectedResource to) as [y |]; [| done]. destruct (pr_providers r !! i) as [e |] eqn:He; [| done].
  destruct (negb _); [done |]. case_decide; [by eapply unchanged |]. destruct (bool_decide _); [done | apply bumped].
Qed.

(** An answer with its effect. *)
Definition wrote {Er A} (i : ServiceID) (Q : option provider → A → Prop) (log : list effect) : list effect → result Er A → Prop :=
  λ log' r, match r with Ok a => ∃ o, log' = log ++ [Wrote i o] ∧ Q o a | Err _ => log' = log end.

Lemma eff_touching {A} P (Q : option provider → A → Prop) log i (f : service_world → ProviderRepository → ProviderRepository * result pstore_error A) :
  (∀ w, touches i Q (f w)) → (∀ w, svc_step w (on_providers (f w) w)) →
  effects P (wrote i Q log) log (repo_act (λ w, (on_providers (f w) w, (f w (sv_providers w)).2))).
Proof.
  intros Ht Hstep w Hw. cbn. specialize (Ht (pw_store w) (sv_providers (pw_store w))). specialize (Hstep (pw_store w)).
  unfold on_providers in *. destruct (f (pw_store w) (sv_providers (pw_store w))) as [r [a | e]]; cbn in *.
  - destruct Ht as (o & Ho & HQ). split; [by apply sends_none |]. right. exists (Wrote i o). split; [by split_and! | by exists o].
  - split; [by apply sends_none |]. left. rewrite Ht. split; [by destruct (pw_store w) | done].
Qed.
Lemma eff_changing {A} P (Q : option provider → A → Prop) log i f : touches i Q f → (∀ w, svc_step w (on_providers f w)) →
  effects P (wrote i Q log) log (changing f).
Proof. intros Ht Hs. by apply (eff_touching P Q log i (λ _, f)). Qed.
Lemma eff_Update P log e v : effects P (wrote (pe_ID e) (stores e) log) log (repository_Update e v).
Proof.
  apply (eff_touching P (stores e) log (pe_ID e) (λ w, provider_Update (sessions_of (pe_ID e) w) e v)); intros w;
    [apply provider_Update_touches | apply (svc_provider_update w e v)].
Qed.
Lemma eff_Delete P log i : effects P (wrote i (λ o _, o = None) log) log (repository_Delete i).
Proof.
  apply (eff_touching P _ log i (λ w, provider_Delete (sessions_of i w) i)); intros w;
    [apply provider_Delete_touches | apply (svc_provider_delete w i)].
Qed.
Lemma eff_RecordFailure P log i v t code :
  effects P (λ log' r, match r with Ok _ => log' = log ++ [RecordedFailure i v t code] | Err _ => log' = log end) log
    (changing (RecordDiscoveryFailure i v t code)).
Proof.
  intros w Hw. pose proof (svc_discovery_failure (pw_store w) i v t code) as Hs. cbn.
  assert (match (RecordDiscoveryFailure i v t code (sv_providers (pw_store w))).2 with
          | Ok _ => True | Err _ => on_providers (RecordDiscoveryFailure i v t code) (pw_store w) = pw_store w end) as Ht.
  { unfold on_providers, RecordDiscoveryFailure. destruct (negb _); [by destruct (pw_store w) |].
    destruct (pr_providers _ !! i); [| by destruct (pw_store w)]. destruct (_ || _); [by destruct (pw_store w) |].
    destruct (ds_LastAttemptAt _); [| by destruct (pw_store w)]. destruct (ds_LastSuccessAt _); [| by destruct (pw_store w)].
    destruct (_ && _); [done | by destruct (pw_store w)]. }
  destruct (RecordDiscoveryFailure i v t code (sv_providers (pw_store w))).2 as [a | x].
  - split; [by apply sends_none |]. right. by exists (RecordedFailure i v t code).
  - split; [by apply sends_none |]. by left.
Qed.
End effects.
