(* ===== verification/ProviderServiceFacts.v ===== *)
(** * What the service for third-party services guarantees

    Every operation only moves the repositories by their own steps and writes at most once;
    what leaves the broker is confined; a secret is stored under the service's key and read
    back; discovery refreshes a service without changing how the broker is its client. *)

From S2P Require Import Prelude ToolApproval ApprovalStore ApprovalHandlers OAuthSessions UserGrants Consent UriValidation NetPolicy UniqueIndex BrokerErrors Providers ProviderStore ProviderStoreFacts UserSessions ServiceSessions ProviderTokens AuthChallenge ResourceDiscovery ResourceDiscoveryFacts ProviderService ServiceEffects.

(** ** The operations *)

Section service.
Context {E : Type} {DP : DiscoveryPorts E} {SP : ServicePorts E}.
Context {GU : GoURL} {GN : GoNet} {UU : UUID} {PP : ProviderParsers} {DJ : DiscoveryJSON}.
Variable cfg : admin_config.

(** What may leave: the requests of the discovery of a public resource. *)
Definition outbound (r : discovery_request) : Prop := ∃ url i, public url ∧ allowed (sd_discovery cfg) url i r.

(** No nil pointer was followed, and a failure to be recorded has a code the status takes. *)
Definition err_ok (err : admin_error) : Prop :=
  err ≠ SEPanic ∧ ∀ code, failure_code err = Some code → ValidDiscoveryFailureCode code = true.

Lemma failure_err_ok e : failure_ok e → err_ok (SEDiscovery e).
Proof. destruct e as [code servers | |]; [| done | done]. intros [Hc _]. split; [done |]. intros ? [= <-]. by apply codes_storable. Qed.
Lemma code_ok code : ValidDiscoveryFailureCode code = true → err_ok (se_failure code).
Proof. intros Hc. split; [done |]. by intros ? [= <-]. Qed.
Lemma store_err_ok err : err_ok (SEStore err).
Proof. split; [done |]. intros code. destruct err; intros [= <-]; vm_compute; reflexivity. Qed.

Abbreviation effs := (effects (E:=E) outbound).
Abbreviation quiet Q log := (λ log' a, log' = log ∧ Q a).
(** The answers of a part of an operation that writes nothing. *)
Definition reply {A} (Q : A → Prop) (r : result admin_error A) : Prop := match r with Ok a => Q a | Err err => err_ok err end.

Lemma eff_discovery {A} (Q : A → Prop) log url i (p : prog (traced E) A) : public url →
  obeys (allowed (sd_discovery cfg) url i) Q p → effs (quiet Q log) log (discovering p).
Proof. intros Hu. apply eff_discovering. intros r Hr. by exists url, i. Qed.

Lemma ended_eff c log : effs (quiet (λ _, True) log) log (caller_ended c).
Proof. apply (eff_discovering _ (λ _, False)); [done |]. by apply obeys_env. Qed.
Lemma now_eff log : effs (quiet (λ _, True) log) log now.
Proof. by apply eff_outside. Qed.

Lemma attempt_failure_eff {A} (Q : A → Prop) attempt x url log : public url →
  effs (quiet (reply Q) log) log (attempt_failure attempt x).
Proof.
  intros Hu. unfold attempt_failure. eapply eff_bind; [apply (eff_discovery failure_ok log url zero_uuid); [done |] |].
  - apply read_failure_ok. by left.
  - intros log' e [-> He]. apply eff_ret. split; [done |]. by apply failure_err_ok.
Qed.

(** *** Provisioning *)

Definition same_service (e e' : provider) : Prop := pe_ID e' = pe_ID e ∧ dc_ResourceURL (pe_Discovery e') = dc_ResourceURL (pe_Discovery e).
#[local] Instance same_service_preorder : PreOrder same_service.
Proof. split; [by split |]. intros e1 e2 e3 [? ?] [? ?]. split; congruence. Qed.

Lemma validated_same e e' : validated e e' → same_service e e'.
Proof. intros [H1 _ H2 _ _ _]. split; [done |]. by rewrite H2. Qed.
Lemma same_discovered e e' : same_service e e' → discovered e' = discovered e.
Proof. intros [_ Hd]. unfold discovered. by rewrite Hd. Qed.

Lemma dependency_eff c b err log : effs (quiet err_ok log) log (dependency_error c b err).
Proof.
  unfold dependency_error. destruct b; [| by apply eff_ret]. eapply eff_bind; [apply ended_eff |].
  intros log' x [-> _]. apply eff_ret. split; [done |]. by destruct x as [[] |].
Qed.
Lemma require_key_eff e log : effs (quiet (λ _, True) log) log (require_client_key cfg e).
Proof. unfold require_client_key. destruct (_ && _); [| by apply eff_ret]. destruct (negb _); [by apply eff_ret | by apply eff_outside]. Qed.

(** What provisioning makes of an entity: the secret is encrypted for its service. *)
Definition provisioned (retained : bool) (e e' : provider) : Prop :=
  (secretless e || retained = true ∧ e' = e) ∨
  ∃ s c x, GetPlaintext (pe_Secret e) = Some s ∧ (ps_Encrypt (pe_ID e) s x).2 = Ok c ∧ e' = set_pe_Secret (NewEncryptedSecret c) e.

Lemma provision_eff c retained e log : effs (quiet (reply (provisioned retained e)) log) log (provision c retained e).
Proof.
  unfold provision. eapply (eff_bind _ (quiet (λ _, True) log)); [by apply eff_outside |]. intros log' r [-> _].
  assert (∀ err, effs (quiet (reply (provisioned retained e)) log) log (x ← dependency_error c (discovered e) err; mret (Err x))) as Hfail.
  { intros err. eapply eff_bind; [apply dependency_eff |]. intros log' x [-> Hx]. by apply eff_ret. }
  destruct r as [id | err]; [| apply Hfail]. destruct (_ || _) eqn:Hret; [apply eff_ret; split; [done | by left] |].
  destruct (GetPlaintext (pe_Secret e)) as [plaintext |] eqn:Hs; [| by apply eff_ret].
  eapply (eff_bind _ (quiet (λ r, ∃ x, (ps_Encrypt (pe_ID e) plaintext x).2 = r) log)); [by apply eff_outside; eauto |].
  intros log' r [-> [x Hx]]. destruct r as [ciphertext | err]; [| apply Hfail]. apply eff_ret. split; [done |]. right.
  by exists plaintext, ciphertext, x.
Qed.

(** *** Create *)

(** How the record that is stored comes from the entity [x] before validation. *)
Record sealed (x record : provider) : Prop := Sealed {
  se_ok : stored_ok record;
  se_ID : nonzero_id (pe_ID x) = true → pe_ID record = pe_ID x;
  se_Discovery : pe_Discovery record = pe_Discovery x;
  se_Method : pe_TokenEndpointAuthMethod record = pe_TokenEndpointAuthMethod x;
  se_Issuer : effective_flavor x ≠ FlavorGoogle → pe_IssuerURI record = pe_IssuerURI x;
  se_ClientID : effective_flavor x ≠ FlavorGoogle →
    pe_ClientID record = pe_ClientID x ∨ CIMDClientID (publicURL cfg) (pe_ID record) = Some (pe_ClientID record);
  se_DCR : effective_flavor x ≠ FlavorGoogle → dc_ClientMethod (pe_Discovery x) = ClientBootstrapDCR → pe_ClientID record = pe_ClientID x;
  se_secret s : GetPlaintext (pe_Secret x) = Some s →
    ∃ c env, (ps_Encrypt (pe_ID record) s env).2 = Ok c ∧ pe_Secret record = NewEncryptedSecret c;
}.

(** The entity a creation starts from: as it was given, or as discovery completed it. *)
Definition create_origin (e x : provider) : Prop :=
  if discovered e then
    ∃ url d, dc_ResourceURL (pe_Discovery e) = Some url ∧ public url ∧
      discovered_ok (E:=E) (sd_discovery cfg) url (pe_ID x) (pe_IssuerURI e) d ∧
      effective_flavor x = FlavorStandard ∧ pe_IssuerURI x = dv_issuer d ∧ pe_Endpoints x = dv_endpoints d ∧
      dc_ClientMethod (pe_Discovery x) = dv_method d ∧ pe_TokenEndpointAuthMethod x = dv_auth d ∧
      (dv_method d = ClientBootstrapDCR → pe_ClientID x = dv_clientID d ∧ pe_Secret x = dv_secret d)
  else x = e.

(** A success stores the service it returns, a failure writes nothing. *)
Definition created (e : provider) (log : list effect) (r : result admin_error provider) : Prop :=
  match r with
  | Ok e' => ∃ x record, log = [Wrote (pe_ID e') (Some record)] ∧ pe_ID record = pe_ID e' ∧ create_origin e x ∧ sealed x record
  | Err err => log = [] ∧ err_ok err
  end.

Lemma allocate_eff e log : effs (quiet (λ i, nonzero_id (pe_ID e) = true → i = pe_ID e) log) log
  (if nonzero_id (pe_ID e) then mret (pe_ID e) else outside ps_NewServiceID).
Proof. destruct (nonzero_id (pe_ID e)); [by apply eff_ret | by apply eff_outside]. Qed.

Lemma seal x e1 i e2 e3 t record : validated x e1 → dcr_static x e1 → (nonzero_id (pe_ID e1) = true → i = pe_ID e1) →
  (if IsCIMDClient (set_pe_ID i (NormalizeProtectedResources e1))
   then (λ clientID, set_pe_ClientID clientID (set_pe_ID i (NormalizeProtectedResources e1))) <$> CIMDClientID (publicURL cfg) i
   else Some (set_pe_ID i (NormalizeProtectedResources e1))) = Some e2 →
  provisioned false e2 e3 → stored_as (succeeded t e3) record → sealed x record.
Proof.
  intros [V1 V2 V3 V4 V5 V6] Hdcr Hi He2 Hp HS. pose proof HS as [S1 S2 S3 S4 S5 S6 _].
  assert (∃ c, e2 = set_pe_ClientID c (set_pe_ID i (NormalizeProtectedResources e1)) ∧ (c = pe_ClientID e1 ∨ CIMDClientID (publicURL cfg) i = Some c) ∧
      (IsCIMDClient e1 = false → c = pe_ClientID e1)) as (c & -> & Hc & Hst).
  { change (IsCIMDClient (set_pe_ID i (NormalizeProtectedResources e1))) with (IsCIMDClient e1) in He2.
    destruct (IsCIMDClient e1); [| injection He2 as <-; exists (pe_ClientID e1); split_and!; [by destruct e1 | by left | done]].
    destruct (CIMDClientID (publicURL cfg) i) as [c |]; [| done]. injection He2 as <-. exists c. split_and!; [done | by right | done]. }
  assert (∃ s, e3 = set_pe_Secret s (set_pe_ClientID c (set_pe_ID i (NormalizeProtectedResources e1)))) as [s Hs].
  { destruct Hp as [[_ ->] | (p & ct & env & _ & _ & ->)]; [by exists (pe_Secret e1); destruct e1 | by exists (NewEncryptedSecret ct)]. }
  assert (∀ A (g : provider → A), (∀ st y, g (set_pe_DiscoveryStatus st y) = g y) → g (succeeded t e3) = g e3) as Hsucc by (by intros A g Hg; destruct t; [apply Hg |]).
  rewrite Hsucc in S2, S3, S4, S5, S6 by done. split.
  - done.
  - intros Hx. rewrite S2, Hs. cbn. rewrite Hi; congruence.
  - rewrite S5, Hs. done.
  - rewrite S6, Hs. done.
  - intros Hf. rewrite S4, Hs. cbn. by apply V6.
  - intros Hf. destruct (V6 Hf) as (<- & _). rewrite S3, S2, Hs. cbn. destruct Hc as [-> | Hc]; [by left | by right].
  - intros Hf Hd. destruct (V6 Hf) as (<- & _). rewrite S3, Hs. apply Hst, (Hdcr Hd).
  - intros p Hpl. destruct Hp as [[_ ->] | (p' & ct & env & Hg & Henc & ->)].
    + exfalso. eapply (stored_plaintext _ _ p HS). rewrite (Hsucc _ pe_Secret) by done. cbn. by rewrite V2.
    + cbn in Hg, Henc. rewrite V2 in Hg. assert (p' = p) as -> by congruence. exists ct, env. rewrite S2. split; [done |].
      eapply stored_encrypted; [exact HS |]. by rewrite (Hsucc _ pe_Secret).
Qed.

Lemma create_validated_eff c attemptedAt e x : create_origin e x → effs (created e) [] (create_validated cfg c attemptedAt x).
Proof.
  intros Ho. unfold create_validated. destruct (ValidateForCreate _ x) as [e1 |] eqn:Hv; [| by apply eff_ret]. cbv zeta.
  apply ValidateForCreate_validated in Hv as [Hv Hdcr]. destruct (negb _); [by apply eff_ret |].
  eapply eff_bind; [apply (allocate_eff (NormalizeProtectedResources e1)) |]. intros log i [-> Hi].
  destruct (if IsCIMDClient _ then _ else _) as [e2 |] eqn:He2.
  2:{ apply eff_ret. split; [done |]. destruct (discovered _); [by apply code_ok | done]. }
  eapply eff_bind; [apply require_key_eff |]. intros log [] [-> _]; [| by apply eff_ret].
  eapply eff_bind; [apply provision_eff |]. intros log [e3 | err] [-> He]; [| by apply eff_ret].
  eapply eff_bind; [apply eff_changing; [apply provider_Create_touches | intros w; constructor] |].
  intros log [e4 | err]; [intros (o & -> & Hid & record & -> & Hr) | intros ->]; apply eff_ret; [| split; [done | apply store_err_ok]].
  exists x, record. rewrite Hid. split_and!; [done | apply Hr | done |]. by eapply seal.
Qed.

Lemma prepare_create_eff attempt e log : discovered e = true →
  effs (quiet (reply (λ '(_, x), create_origin e x)) log) log (prepareDiscoveryCreate cfg attempt e).
Proof.
  intros Hdisc. unfold prepareDiscoveryCreate. destruct (ValidateDiscoveryRequest e) as [e1 |] eqn:Hv; [| by apply eff_ret].
  destruct (ValidateDiscoveryRequest_spec e e1 Hv) as ((v & ->) & Hf & (url & Hurl & Hpub) & _).
  cbn [pe_Discovery set_pe_CredentialSource pe_ID]. rewrite Hurl. eapply eff_bind; [apply (allocate_eff (set_pe_CredentialSource v e)) |].
  intros log' i [-> _]. eapply eff_bind; [apply (eff_discovery (answer (discovered_ok (E:=E) (sd_discovery cfg) url i (pe_IssuerURI e))) log url i);
    [done | by apply discover_ok] |].
  intros log' r [-> Hr]. eapply eff_bind; [apply ended_eff |]. intros log' [x |] [-> _]; [by eapply attempt_failure_eff |].
  destruct r as [d | err]; [| apply eff_ret; split; [done | by apply failure_err_ok]].
  eapply eff_bind; [apply now_eff |]. intros log' t [-> _]. apply eff_ret. split; [done |]. unfold reply, create_origin. rewrite Hdisc.
  exists url, d. set (x := set_selected _ _ _ _ _ _ _ _). assert (∀ A (g : provider → A), (∀ m b y, g (set_params m b y) = g y) →
    g (setEffectiveDiscoveryResource url x) = g x) as Hg.
  { intros A g Hset. unfold setEffectiveDiscoveryResource. by case_decide. }
  unfold effective_flavor in *. rewrite !Hg by done. split_and!; try done.
  intros Hm. unfold x. rewrite Hm. done.
Qed.

Lemma Create_eff c attempt e : effs (created e) [] (Create cfg c attempt e).
Proof.
  unfold Create. destruct (discovered e) eqn:Hd; [| apply create_validated_eff; unfold create_origin; by rewrite Hd].
  eapply eff_bind; [by apply prepare_create_eff |]. intros log [[t x] | err] [-> Hr]; [by apply create_validated_eff | by apply eff_ret].
Qed.

(** *** Update *)

(** What discovery leaves as it was: how the broker is the provider's client, and with the
    same issuer also the client itself. *)
Record client_kept (persisted x : provider) : Prop := ClientKept {
  ck_method : dc_ClientMethod (pe_Discovery x) = dc_ClientMethod (pe_Discovery persisted);
  ck_auth : pe_TokenEndpointAuthMethod x = pe_TokenEndpointAuthMethod persisted;
  ck_flavor : effective_flavor x = FlavorStandard;
  ck_client : pe_IssuerURI x = pe_IssuerURI persisted → dc_ClientMethod (pe_Discovery persisted) = ClientBootstrapDCR →
    pe_ClientID x = pe_ClientID persisted ∧ pe_Secret x = pe_Secret persisted;
}.

Lemma endpoint_public issuer metadata endpoints endpoint : server_document (E:=E) issuer metadata endpoints →
  sm_RegistrationEndpoint metadata = Some endpoint → public endpoint.
Proof.
  intros (? & ? & ? & ? & ? & _ & _ & _ & _ & _ & [_ _ Hall _]) Hend. rewrite Forall_forall in Hall. apply Hall.
  rewrite Hend. set_solver.
Qed.

(** The client of an update: the stored one, unless the issuer changed. *)
Definition kept_client (e persisted : provider) (issuerChanged : bool) (client : string * Secret) : Prop :=
  issuerChanged = false → dc_ClientMethod (pe_Discovery persisted) = ClientBootstrapDCR →
  client = (pe_ClientID persisted, pe_Secret persisted).

Lemma update_client_eff attempt e persisted metadata issuerChanged issuer endpoints url log : public url →
  server_document (E:=E) issuer metadata endpoints →
  effs (quiet (reply (kept_client e persisted issuerChanged)) log) log (update_client cfg attempt e persisted metadata issuerChanged).
Proof.
  intros Hpub Hdoc. unfold update_client.
  assert (effs (quiet (reply (kept_client e persisted issuerChanged)) log) log (mret (Err (se_failure "client_method_changed")))) as Hchanged
    by (apply eff_ret; split; [done | by apply code_ok]).
  case_decide as Hm.
  - destruct (_ || _); [apply Hchanged |]. eapply eff_bind; [eapply (eff_discovery _ log url zero_uuid); [done | apply cimd_key_ok] |].
    intros log' [err |] [-> Hk]; apply eff_ret; (split; [done |]); [by apply failure_err_ok |]. intros _ Hd. by rewrite Hm in Hd.
  - destruct (_ || _); [apply Hchanged |]. destruct (_ && _); [apply Hchanged |]. destruct issuerChanged; cbn [negb].
    + destruct (supportsDCRMethod _ _) eqn:Hs; cbn [negb]; [| apply Hchanged].
      destruct (sm_RegistrationEndpoint metadata) as [endpoint |] eqn:Hend.
      2:{ exfalso. unfold supportsDCRMethod in Hs. rewrite Hend in Hs. done. }
      eapply eff_bind; [eapply (eff_discovery _ log url (pe_ID e)); [done | apply register_ok; by eapply endpoint_public] |].
      intros log' [client | err] [-> Hr]; apply eff_ret; (split; [done |]); [done | by apply failure_err_ok].
    + apply eff_ret. split; [done |]. by intros _ _.
Qed.

Lemma refresh_discovery_eff attempt url e persisted issuerChanged log : public url → effective_flavor e = FlavorStandard →
  (issuerChanged = true → pe_IssuerURI e ≠ pe_IssuerURI persisted ∧ pe_IssuerURI e ≠ "") →
  effs (quiet (reply (λ x, same_service e x ∧ client_kept persisted x)) log) log (refresh_discovery cfg attempt url e persisted issuerChanged).
Proof.
  intros Hpub Hf Hc. unfold refresh_discovery. eapply eff_bind; [eapply (eff_discovery _ log url zero_uuid); [done | by apply read_metadata_ok] |].
  intros log' r [-> Hr]. eapply eff_bind; [apply ended_eff |]. intros log' [x |] [-> _]; [by eapply attempt_failure_eff |].
  destruct r as [[[issuer metadata] endpoints] | err]; [| apply eff_ret; split; [done | by apply failure_err_ok]].
  destruct Hr as [Hi Hdoc]. destruct (negb (bool_decide (issuer = pe_IssuerURI persisted)) && negb issuerChanged) eqn:Hissuer.
  { apply eff_ret. split; [done | by apply code_ok]. }
  eapply eff_bind; [by eapply update_client_eff |]. intros log' [[clientID secret] | err] [-> Hk]; [| by apply eff_ret].
  eapply eff_bind; [apply ended_eff |]. intros log' [x |] [-> _]; [by eapply attempt_failure_eff |].
  apply eff_ret. split; [done |]. split; [by split |]. split; try done. cbn. intros Heq Hd. destruct issuerChanged.
  - exfalso. destruct (Hc eq_refl) as [Hne Hnn]. apply Hne.
    destruct Hi as (? & ? & ? & ? & ? & _ & _ & _ & _ & _ & _ & [Hreq | [Hreq _]]); congruence.
  - by injection (Hk eq_refl Hd) as -> ->.
Qed.

(** What an update takes from a stored record, and what discovery keeps of it. *)
Definition stored_at (i : ServiceID) (persisted : provider) : Prop := ∃ r, store_wf r ∧ provider_Get i r = Ok persisted.
Lemma stored_at_spec i persisted : stored_at i persisted → pe_ID persisted = i ∧
  (pe_Secret persisted = NewAbsentSecret ∨ ∃ c, c ≠ "" ∧ pe_Secret persisted = NewEncryptedSecret c).
Proof.
  intros (r & Hw & Hg). unfold provider_Get in Hg. destruct (pr_providers r !! i) as [e |] eqn:He; [| done]. injection Hg as <-.
  split; [apply (sw_id r Hw i e He) |]. apply (so_secret e), (sw_stored r Hw i e He).
Qed.

Record record_kept (persisted record : provider) : Prop := RecordKept {
  rk_method : dc_ClientMethod (pe_Discovery record) = dc_ClientMethod (pe_Discovery persisted);
  rk_auth : pe_TokenEndpointAuthMethod record = pe_TokenEndpointAuthMethod persisted;
  rk_client : pe_IssuerURI record = pe_IssuerURI persisted → dc_ClientMethod (pe_Discovery persisted) = ClientBootstrapDCR →
    pe_ClientID record = pe_ClientID persisted ∧ pe_Secret record = pe_Secret persisted;
}.

(** The outcome of an update: one record is stored, or nothing; only the failure of a
    discovery is recorded. *)
Definition failed (e : provider) (log : list effect) (err : admin_error) : Prop :=
  err_ok err ∧ (log = [] ∨ discovered e = true ∧ ∃ v t code, log = [RecordedFailure (pe_ID e) v t code] ∧ failure_code err = Some code).
Definition updated (e persisted : provider) (log : list effect) (r : result admin_error provider) : Prop :=
  match r with
  | Ok e' => pe_ID e' = pe_ID e ∧ ∃ record, log = [Wrote (pe_ID e) (Some record)] ∧ stored_ok record ∧ pe_ID record = pe_ID e ∧
      (discovered e = true → record_kept persisted record)
  | Err err => failed e log err
  end.

Lemma record_failure_eff c e persisted t err : pe_ID persisted = pe_ID e → discovered e = true → err_ok err →
  effs (λ log err', failed e log err') [] (recordFailedDiscoveryUpdate cfg c persisted t err).
Proof.
  intros Hid Hd Hok. unfold recordFailedDiscoveryUpdate. eapply eff_bind; [apply ended_eff |]. intros log x [-> _].
  assert (effs (λ log err', failed e log err') [] (mret SECanceled)) as Hcanceled by (apply eff_ret; split; [done | by left]).
  assert (effs (λ log err', failed e log err') [] (match failure_code err with
    | None => mret err
    | Some code => if negb (sd_has_status_writer cfg) then mret SEUnavailable
        else r ← changing (RecordDiscoveryFailure (pe_ID persisted) (pe_Version persisted) t code);
             mret match r with Ok _ | Err (PStorage KConflict) => err | Err e => SEStore e end
    end)) as Hrecord.
  { destruct (failure_code err) as [code |] eqn:Hcode; [| apply eff_ret; split; [done | by left]].
    destruct (negb _); [apply eff_ret; split; [done | by left] |]. eapply eff_bind; [apply eff_RecordFailure |].
    intros log [a | k]; [intros -> | intros ->]; apply eff_ret.
    - split; [done |]. right. split; [done |]. rewrite Hid. eauto.
    - split; [| by left]. destruct k as [[] | | | |]; try done; apply store_err_ok. }
  destruct x as [[] |]; try apply Hcanceled; destruct err as [[] | | | | | |]; try apply Hrecord; apply Hcanceled.
Qed.

(** The entity [update_validated] starts from, against the stored one. *)
Definition update_origin (persisted x : provider) : Prop := discovered x = true → client_kept persisted x.

Lemma identity_spec e persisted x : update_identity cfg e persisted = Ok x → ∃ c, x = set_pe_ClientID c e ∧ (IsCIMDClient e = false → c = pe_ClientID e).
Proof.
  unfold update_identity. destruct (IsCIMDClient e) eqn:Hc; cbn [negb]; [| intros [= <-]; exists (pe_ClientID e); by destruct e].
  destruct (CIMDClientID _ _) as [id |]; [| done]. cbv zeta. intros Hx.
  destruct (discovered e); (case_match; [done |]); injection Hx as <-; by eexists.
Qed.
Lemma identity_err e persisted err : update_identity cfg e persisted = Err err → err_ok err.
Proof.
  unfold update_identity. destruct (negb _); [done |]. destruct (CIMDClientID _ _) as [id |].
  - cbv zeta. intros Hx. destruct (discovered e); case_match; try done; injection Hx as <-; [by apply code_ok | done].
  - intros [= <-]. destruct (discovered e); [by apply code_ok | done].
Qed.

(** How the entity that is stored comes from the one before validation. *)
Definition update_sealed (persisted x e3 : provider) : Prop :=
  ∃ e1 c e2, validated x e1 ∧ e2 = set_pe_ClientID c (NormalizeProtectedResources e1) ∧ (dc_ClientMethod (pe_Discovery x) = ClientBootstrapDCR → c = pe_ClientID e1) ∧
    provisioned (discovered x && bool_decide (dc_ClientMethod (pe_Discovery persisted) = ClientBootstrapDCR) && IsEncrypted (pe_Secret x)) e2 e3.

Lemma update_validated_eff c x persisted log : effs (quiet (reply (update_sealed persisted x)) log) log (update_validated cfg c x persisted).
Proof.
  unfold update_validated. destruct (ValidateForUpdate _ x) as [e1 |] eqn:Hv; [| apply eff_ret; split; [done | apply store_err_ok]].
  apply ValidateForUpdate_validated in Hv as (Hv & Hdcr & _). cbv zeta. destruct (negb _); [by apply eff_ret |].
  destruct (update_identity _ _ _) as [e2 | err] eqn:Hid; [| apply eff_ret; split; [done | by eapply identity_err]].
  apply identity_spec in Hid as (cid & -> & Hcid). eapply eff_bind; [apply require_key_eff |].
  intros log' [] [-> _]; [| by apply eff_ret]. eapply eff_mono; [| apply provision_eff]. intros log' [e3 | err] [-> Hp]; [| done].
  split; [done |]. exists e1, cid, (set_pe_ClientID cid (NormalizeProtectedResources e1)). split_and!; [done | done | intros Hd; apply Hcid, (Hdcr Hd) |].
  assert (discovered x = discovered (set_pe_ClientID cid (NormalizeProtectedResources e1))) as ->.
  { unfold discovered. cbn. by rewrite (vd_Discovery _ _ Hv). }
  rewrite <-(vd_Secret _ _ Hv). exact Hp.
Qed.

Lemma sealed_record persisted x e3 t l record : stored_at (pe_ID x) persisted → client_kept persisted x → update_sealed persisted x e3 →
  stored_as (set_pe_ProtectedResources l (succeeded t e3)) record → record_kept persisted record.
Proof.
  intros Hat [K1 K2 K3 K4] (e1 & c & e2 & [V1 V2 V3 V4 V5 V6] & -> & Hc & Hp) HS. pose proof HS as [S1 S2 S3 S4 S5 S6 _].
  assert (effective_flavor x ≠ FlavorGoogle) as Hg by (by rewrite K3). destruct (V6 Hg) as (V7 & V8 & _).
  assert (∀ A (g : provider → A), (∀ l y, g (set_pe_ProtectedResources l y) = g y) → (∀ st y, g (set_pe_DiscoveryStatus st y) = g y) →
    g (set_pe_ProtectedResources l (succeeded t e3)) = g e3) as Hsucc by (intros A g Hg1 Hg2; rewrite Hg1; destruct t; [apply Hg2 | done]).
  rewrite Hsucc in S3, S4, S5, S6 by done.
  set (e2 := set_pe_ClientID c (NormalizeProtectedResources e1)) in *.
  assert (∃ s, e3 = set_pe_Secret s e2) as [s Hs].
  { destruct Hp as [[_ ->] | (p & ct & env & _ & _ & ->)]; [by exists (pe_Secret e1) | by exists (NewEncryptedSecret ct)]. }
  assert (pe_IssuerURI record = pe_IssuerURI x) as Hiss by (rewrite S4, Hs; exact V8).
  split.
  - rewrite S5, Hs. cbn. by rewrite V3.
  - rewrite S6, Hs. cbn. by rewrite V4.
  - intros Heq Hd. destruct K4 as [K4 K5]; [congruence | done |]. split.
    + rewrite S3, Hs. cbn. rewrite Hc by (by rewrite K1). congruence.
    + destruct (stored_at_spec _ _ Hat) as [_ Hsec]. assert (pe_Secret e2 = pe_Secret persisted) as Hsame by (cbn; congruence).
      assert (e3 = e2) as ->.
      { destruct Hp as [[_ ->] | (p & ct & env & Hpl & _)]; [done |]. exfalso. rewrite Hsame in Hpl.
        by destruct Hsec as [Hsec | (? & _ & Hsec)]; rewrite Hsec in Hpl. }
      destruct Hsec as [Hsec | (ct & _ & Hsec)]; rewrite Hsec in *;
        [eapply stored_absent | eapply stored_encrypted]; try exact HS; by rewrite (Hsucc _ pe_Secret).
Qed.

Lemma update_store_eff e persisted v log : effs (wrote (pe_ID e) (λ o e', ∃ l, stores (set_pe_ProtectedResources l e) o e') log) log (update_store e persisted v).
Proof.
  unfold update_store. destruct v as [v |].
  - eapply eff_mono; [| apply (eff_Update _ log e)]. intros log' [e' | err]; [| done]. intros (o & Hl & Ho). exists o. split; [done |].
    exists (pe_ProtectedResources e). by destruct e.
  - eapply eff_mono; [| apply (eff_Update _ log (set_pe_ProtectedResources (pe_ProtectedResources persisted) e))].
    intros log' [e' | err]; [| done]. intros (o & Hl & Ho). exists o. split; [done |]. by eexists.
Qed.

Lemma update_prepared_eff c attemptedAt e x persisted v : same_service e x → stored_at (pe_ID e) persisted →
  (discovered e = true → client_kept persisted x) → bool_decide (is_Some attemptedAt) = discovered e →
  effs (updated e persisted) [] (update_prepared cfg c attemptedAt x persisted v).
Proof.
  intros Hsame Hat Hkept Hatt. pose proof (same_discovered _ _ Hsame) as Hdisc. destruct Hsame as [Hid _].
  unfold update_prepared. eapply eff_bind; [apply update_validated_eff |].
  intros log [e3 | err] [-> Hs]; [| apply eff_ret; split; [exact Hs | by left]].
  assert (pe_ID (succeeded attemptedAt e3) = pe_ID e) as Hid3.
  { destruct Hs as (e1 & cid & e2 & V & -> & _ & Hp). assert (pe_ID e3 = pe_ID e1) as He3 by (by destruct Hp as [[_ ->] | (? & ? & ? & _ & _ & ->)]).
    assert (pe_ID (succeeded attemptedAt e3) = pe_ID e3) as -> by (by destruct attemptedAt). rewrite He3, (vd_ID _ _ V). exact Hid. }
  eapply eff_bind; [apply update_store_eff |]. rewrite Hid3. intros log [e4 | err].
  - intros (o & -> & l & Hid4 & record & -> & Hr). apply eff_ret. split; [rewrite Hid4; exact Hid3 |]. exists record.
    split_and!; [done | apply Hr | rewrite (sa_ID _ _ Hr); exact Hid3 |]. intros Hd. eapply sealed_record; [| by apply Hkept | exact Hs | exact Hr].
    by rewrite Hid.
  - intros ->. rewrite Hatt. destruct (discovered e) eqn:Hd; cbn [andb].
    + destruct (recorded_conflict err); [| apply eff_ret; split; [apply store_err_ok | by left]].
      eapply eff_bind; [apply now_eff |]. intros log t [-> _]. eapply eff_bind; [apply record_failure_eff; [by apply stored_at_spec | done | apply store_err_ok] |].
      intros log err' Hf. by apply eff_ret.
    + apply eff_ret. split; [apply store_err_ok | by left].
Qed.

Lemma sessions_bar_eff i b1 b2 log :
  effs (quiet (λ r, match r with Some (err, _) => err_ok err | None => True end) log) log (sessions_bar cfg i b1 b2).
Proof.
  unfold sessions_bar. destruct (negb (b1 || b2)); [by apply eff_ret |]. destruct (negb _); [by apply eff_ret |].
  eapply (eff_bind _ (quiet (λ _ : nat, True) log)); [by apply eff_repo_read |]. intros log' n [-> _]. destruct (bool_decide _); [by apply eff_ret |].
  eapply eff_bind; [apply now_eff |]. intros log' t [-> _]. apply eff_ret. split; [done |]. apply code_ok. by destruct b1.
Qed.

Lemma prepare_discovery_update_eff attempt e persisted log : 
  effs (quiet (λ r, match r with Ok (_, x) => same_service e x ∧ client_kept persisted x | Err (err, _) => err_ok err end) log) log
    (prepareDiscoveryUpdate cfg attempt e persisted).
Proof.
  unfold prepareDiscoveryUpdate. destruct (negb _); [by apply eff_ret |].
  destruct (ValidateDiscoveryRequest e) as [e1 |] eqn:Hv; [| by apply eff_ret].
  destruct (ValidateDiscoveryRequest_spec e e1 Hv) as ((s & ->) & Hf & (url & Hurl & Hpub) & _).
  cbn [pe_Discovery set_pe_CredentialSource]. rewrite Hurl. destruct (_ || _); [apply eff_ret; split; [done | by apply code_ok] |]. cbv zeta.
  set (e2 := update_params url _ _).
  assert (same_service e e2 ∧ effective_flavor e2 = FlavorStandard) as [Hs2 Hf2].
  { subst e2. unfold update_params, same_service, effective_flavor in *. cbn [pe_AuthorizationParams set_pe_CredentialSource].
    by destruct (pe_AuthorizationParams e). }
  set (issuerChanged := nonempty (pe_IssuerURI e2) && _). eapply eff_bind; [apply sessions_bar_eff |].
  intros log' [[err t] |] [-> Hb]; [by apply eff_ret |].
  eapply eff_bind; [apply (refresh_discovery_eff attempt url); [done | exact Hf2 |] |].
  - cbn. intros Hc. rewrite Hc. unfold issuerChanged in Hc. apply andb_true_iff in Hc as [Hc1 Hc2]. breflect. unfold nonempty in Hc1. by breflect.
  - intros log' r [-> Hr]. eapply eff_bind; [apply now_eff |]. intros log' t [-> _]. apply eff_ret. split; [done |].
    destruct r as [x | err]; [| exact Hr]. destruct Hr as [Hsx Hk]. split; [| done]. destruct Hs2, Hsx. split; etrans; eauto.
Qed.

(** What an update takes over leaves the service's identity and its discovery alone. *)
Definition prepared (e : provider) (r : provider * provider) : Prop := same_service e r.1 ∧ stored_at (pe_ID e) r.2.
Lemma prepareUpdate_eff e log : effs (quiet (reply (prepared e)) log) log (prepareUpdate cfg e).
Proof.
  unfold prepareUpdate. destruct (negb (discovered e) && _) eqn:Hshape.
  { apply eff_ret. split; [done |]. destruct (ValidateForUpdate _ e) as [e' |] eqn:Hv; [| done]. exfalso.
    apply andb_true_iff in Hshape as [_ Hshape]. unfold ValidateForUpdate, display_name_ok in Hv.
    destruct (nonzero_id (pe_ID e)), (nonempty (pe_DisplayName e)); try done; by passed Hv. }
  destruct (bool_decide _); [by apply eff_ret |].
  eapply eff_bind; [apply (eff_reading _ (λ r, ∀ persisted, r = Ok persisted → stored_at (pe_ID e) persisted)) |].
  { intros r Hr persisted Hg. by exists r. }
  intros log' [persisted | err] [-> Hat]; apply eff_ret; (split; [done |]); [| apply store_err_ok]. cbv zeta.
  destruct (source_transition_ok _ _); [| done]. split; [done | by apply Hat].
Qed.

(** [Update] after its preparation. *)
Lemma update_rest_eff c attempt e x persisted v : same_service e x → stored_at (pe_ID e) persisted →
  effs (updated e persisted) []
    (if negb (discovered x) then update_prepared cfg c None x persisted v
     else r ← prepareDiscoveryUpdate cfg attempt x persisted;
       match r with
       | Err (err, None) => mret (Err err)
       | Err (err, Some completedAt) => err ← recordFailedDiscoveryUpdate cfg c persisted completedAt err; mret (Err err)
       | Ok (attemptedAt, x) => update_prepared cfg c (Some attemptedAt) x persisted v
       end).
Proof.
  intros Hs Hat. pose proof (same_discovered _ _ Hs) as Hd. destruct (discovered x) eqn:Hdx; cbn [negb].
  - eapply eff_bind; [apply prepare_discovery_update_eff |]. intros log [[t y] | [err [t |]]] [-> Hr].
    + destruct Hr as [Hy Hk]. apply update_prepared_eff; [destruct Hs, Hy; split; etrans; eauto | done | done | by rewrite <-Hd].
    + eapply eff_bind; [apply record_failure_eff; [by apply stored_at_spec | by rewrite <-Hd | done] |]. intros log err' Hf. by apply eff_ret.
    + apply eff_ret. split; [done | by left].
  - apply update_prepared_eff; [done | done | by rewrite <-Hd | by rewrite <-Hd].
Qed.

Lemma Update_eff c attempt e v : effs (λ log r, ∃ persisted, updated e persisted log r ∧ ((∃ e', r = Ok e') → stored_at (pe_ID e) persisted)) []
  (Update cfg c attempt e v).
Proof.
  unfold Update. eapply eff_bind; [apply prepareUpdate_eff |]. intros log [[x persisted] | err] [-> Hr].
  - destruct Hr as [Hs Hat]. eapply eff_mono; [| by apply update_rest_eff]. intros log r Hu. by exists persisted.
  - apply eff_ret. exists e. split; [| by intros []]. split; [| by left]. destruct err as [[] | | | | | |]; try exact Hr; apply store_err_ok.
Qed.

(** *** The other operations *)

Abbreviation silent := (λ (log : list effect) _, log = []).

Lemma effs_weaken {A} (Q : A → Prop) (p : prog (provider_world E) A) : effs (quiet Q []) [] p → effs silent [] p.
Proof. apply eff_mono. by intros log a [-> _]. Qed.
Lemma reading_silent {A} (f : ProviderRepository → A) : effs silent [] (reading f).
Proof. apply (effs_weaken (λ _, True)). by apply eff_reading. Qed.
Lemma silent_bind {A B} (p : prog (provider_world E) A) (g : A → prog (provider_world E) B) :
  effs silent [] p → (∀ a, effs silent [] (g a)) → effs silent [] (p ≫= g).
Proof. intros Hp Hg. eapply eff_bind; [exact Hp |]. by intros log a ->. Qed.
Lemma decrypted_silent e : effs silent [] (decrypted e).
Proof.
  unfold decrypted. destruct (secretless e); [done |]. destruct (GetCiphertext _); [| done].
  apply silent_bind; [apply (effs_weaken (λ _, True)); by apply eff_outside | by intros []].
Qed.
Lemma all_decrypted_silent l : effs silent [] (all_decrypted l).
Proof. induction l as [| e l IH]; [done |]. apply silent_bind; [apply decrypted_silent |]. intros e'. by apply silent_bind. Qed.
Lemma requirements_silent l : effs silent [] (service_ValidateServiceRequirements l).
Proof.
  induction l as [| [i scopes] l IH]; [done |]. apply silent_bind; [apply reading_silent |].
  intros [e | [[] | | | |]]; try done. by destruct (forallb _ _).
Qed.

(** A write answered by the repository. *)
Definition touched {A} (i : ServiceID) (Q : option provider → Prop) (log : list effect) (r : result admin_error A) : Prop :=
  match r with Ok _ => ∃ o, log = [Wrote i o] ∧ Q o | Err err => log = [] ∧ err_ok err end.
Lemma changing_eff {A} i (Q : option provider → Prop) f : touches i (λ o (_ : A), Q o) f → (∀ w, svc_step w (on_providers f w)) →
  effs (touched i Q) [] (r ← changing f; mret (store_result r)).
Proof.
  intros Ht Hs. eapply eff_bind; [by apply eff_changing |]. intros log [a | err]; [intros (o & -> & Ho) | intros ->]; apply eff_ret; [by exists o |].
  split; [done | apply store_err_ok].
Qed.
Lemma Add_eff i uri : effs (touched i is_Some) [] (service_AddProtectedResource i uri).
Proof.
  unfold service_AddProtectedResource. destruct (NormalizeAndValidateProtectedResource uri); [| apply eff_ret; split; [done | apply store_err_ok]].
  apply changing_eff; [apply AddProtectedResource_touches | intros w; constructor].
Qed.
Lemma Remove_eff i uri : effs (touched i is_Some) [] (service_RemoveProtectedResource i uri).
Proof.
  unfold service_RemoveProtectedResource. destruct (NormalizeAndValidateProtectedResource uri); [| apply eff_ret; split; [done | apply store_err_ok]].
  apply changing_eff; [apply RemoveProtectedResource_touches | intros w; constructor].
Qed.
Lemma Rename_eff i from to : effs (touched i is_Some) [] (service_RenameProtectedResource i from to).
Proof.
  unfold service_RenameProtectedResource. destruct (NormalizeAndValidateProtectedResource from), (NormalizeAndValidateProtectedResource to);
    try (apply eff_ret; split; [done | apply store_err_ok]).
  apply changing_eff; [apply RenameProtectedResource_touches | intros w; constructor].
Qed.

(** A service that permission sets refer to is not deleted. *)
Lemma Delete_eff i : effs (touched i (λ o, o = None)) [] (Delete cfg i).
Proof.
  unfold Delete. eapply (eff_bind _ (quiet (λ _, True) [])).
  { destruct (negb _); [by apply eff_ret | by apply eff_outside]. }
  intros log [[| n] | err] [-> _]; try (apply eff_ret; split; [done | apply store_err_ok]); [| by apply eff_ret].
  eapply eff_bind; [apply eff_Delete |]. intros log [a | err]; [intros (o & -> & ->) | intros ->]; apply eff_ret; [by eexists |].
  split; [done | apply store_err_ok].
Qed.

(** ** Any number of operations at once *)

Inductive service_request :=
  | RqCreate (c attempt : ctx) (e : provider)
  | RqUpdate (c attempt : ctx) (e : provider) (expectedVersion : option Z)
  | RqValidateUpdate (e : provider)
  | RqDelete (i : ServiceID)
  | RqAddResource (i : ServiceID) (uri : string)
  | RqRemoveResource (i : ServiceID) (uri : string)
  | RqRenameResource (i : ServiceID) (from to : string)
  | RqGet (i : ServiceID) | RqGetByIDs (ids : list ServiceID) | RqList
  | RqRequirements (l : list (ServiceID * list string)).

Definition handle (rq : service_request) : prog (provider_world E) unit :=
  match rq with
  | RqCreate c attempt e => Create cfg c attempt e ≫= λ _, mret ()
  | RqUpdate c attempt e v => Update cfg c attempt e v ≫= λ _, mret ()
  | RqValidateUpdate e => ValidateUpdate cfg e ≫= λ _, mret ()
  | RqDelete i => Delete cfg i ≫= λ _, mret ()
  | RqAddResource i uri => service_AddProtectedResource i uri ≫= λ _, mret ()
  | RqRemoveResource i uri => service_RemoveProtectedResource i uri ≫= λ _, mret ()
  | RqRenameResource i from to => service_RenameProtectedResource i from to ≫= λ _, mret ()
  | RqGet i => Get i ≫= λ _, mret ()
  | RqGetByIDs ids => GetByIDs ids ≫= λ _, mret ()
  | RqList => List ≫= λ _, mret ()
  | RqRequirements l => service_ValidateServiceRequirements l ≫= λ _, mret ()
  end.

Lemma handle_effects rq : effs (λ _ _, True) [] (handle rq).
Proof.
  assert (∀ A Q (p : prog (provider_world E) A), effs Q [] p → effs (λ _ _, True) [] (p ≫= λ _, mret ())) as Hop
    by (intros A Q p Hp; eapply eff_bind; [exact Hp | done]).
  destruct rq; eapply Hop.
  - apply Create_eff.
  - apply Update_eff.
  - unfold ValidateUpdate. eapply eff_bind; [apply prepareUpdate_eff |]. intros log r [-> _]. by apply (eff_ret _ silent).
  - apply Delete_eff.
  - apply Add_eff.
  - apply Remove_eff.
  - apply Rename_eff.
  - unfold Get. apply silent_bind; [apply reading_silent |]. intros [e | err]; [| done]. destruct (negb _); [done |].
    apply silent_bind; [apply decrypted_silent | done].
  - unfold GetByIDs. apply silent_bind; [apply reading_silent | apply all_decrypted_silent].
  - unfold List. apply silent_bind; [apply reading_silent | apply all_decrypted_silent].
  - apply requirements_silent.
Qed.

(** The operations' own steps, and those of the sessions and of anything else that uses the
    repositories. *)
Inductive system_step : provider_world E * list (prog (provider_world E) unit) → provider_world E * list (prog (provider_world E) unit) → Prop :=
  | system_operation c c' : pool_step c c' → system_step c c'
  | system_other w s ps : svc_step (pw_store w) s → system_step (w, ps) (ProviderWorld s (pw_traced w), ps).

Definition contained (c : provider_world E * list (prog (provider_world E) unit)) : Prop :=
  svc_inv (pw_store c.1) ∧ Forall (λ p, ∃ log, effs (λ _ _, True) log p) c.2.

Lemma system_step_contained c c' : system_step c c' → contained c →
  contained c' ∧ rtc svc_step (pw_store c.1) (pw_store c'.1) ∧ sends outbound c.1 c'.1.
Proof.
  intros [c1 c2 Hp | w s ps Hs] [Hinv Hall].
  - destruct Hp as [w ps i X f k w' x Hi Hf]. cbn in *. rewrite Forall_lookup in Hall. destruct (Hall i _ Hi) as [log Heff].
    destruct (Heff w Hinv) as [Hsend Hstep]. rewrite Hf in *. cbn in *.
    assert (∃ log', effs (λ _ _, True) log' (k x)) as Hk by (destruct Hstep as [[_ ?] | (l & _ & ?)]; by eexists).
    assert (rtc svc_step (pw_store w) (pw_store w')) as Hr by (destruct Hstep as [[-> _] | (l & [? _] & _)]; [done | by apply rtc_once]).
    split; [| done]. split; cbn.
    + destruct Hstep as [[-> _] | (l & [? _] & _)]; [done | by eapply svc_step_inv].
    + apply Forall_insert; [by apply Forall_lookup | done].
  - cbn. split; [split; [by eapply svc_step_inv | done] |]. split; [by apply rtc_once | by apply sends_none].
Qed.

(** ** Executions *)

(** An execution of a program with anything going on in between: the worlds its actions
    found and left. *)
Inductive observed {A} : prog (provider_world E) A → list (provider_world E * provider_world E) → A → Prop :=
  | observed_ret a : observed (Ret a) [] a
  | observed_act {X} (f : provider_world E → provider_world E * X) k w tr a :
      svc_inv (pw_store w) → observed (k (f w).2) tr a → observed (Act f k) ((w, (f w).1) :: tr) a.

(** The effects of an execution: all other actions leave the repositories as they are. *)
Inductive leaves : list (provider_world E * provider_world E) → list effect → Prop :=
  | leaves_nil : leaves [] []
  | leaves_silent w w' tr log : pw_store w' = pw_store w → leaves tr log → leaves ((w, w') :: tr) log
  | leaves_effect w w' l tr log : effect_step l (pw_store w) (pw_store w') → leaves tr log → leaves ((w, w') :: tr) (l :: log).

Lemma eff_observed {A} Q log (p : prog (provider_world E) A) tr a : effs Q log p → observed p tr a →
  ∃ log', leaves tr log' ∧ Q (log ++ log') a.
Proof.
  intros Hp Ho. revert log Hp. induction Ho as [a | X f k w tr a Hw Ho IH]; intros log Hp.
  - exists []. rewrite app_nil_r. split; [constructor | exact Hp].
  - destruct (Hp w Hw) as [_ [[Hq Hk] | (l & Hl & Hk)]]; destruct (IH _ Hk) as (log' & Htr & HQ).
    + exists log'. split; [by constructor | done].
    + exists (l :: log'). split; [by constructor |]. by rewrite <-app_assoc in HQ.
Qed.

(** An execution alone goes through its effects. *)
Fixpoint passes (s : service_world) (log : list effect) (s' : service_world) : Prop :=
  match log with [] => s' = s | l :: log => ∃ s1, effect_step l s s1 ∧ passes s1 log s' end.
Lemma eff_run {A} Q log (p : prog (provider_world E) A) w : effs Q log p → svc_inv (pw_store w) →
  ∃ log', passes (pw_store w) log' (pw_store (run p w).1) ∧ Q (log ++ log') (run p w).2.
Proof.
  revert log w. induction p as [a | X f k IH]; intros log w Hp Hw; [exists []; by rewrite app_nil_r |].
  destruct (Hp w Hw) as [_ Hk]. cbn. destruct (f w) as [w' x]. cbn in *. destruct Hk as [[Hq Hk] | (l & Hl & Hk)].
  - rewrite <-Hq in Hw. destruct (IH x log w' Hk Hw) as (log' & Hs & HQ). exists log'. rewrite Hq in Hs. done.
  - assert (svc_inv (pw_store w')) as Hw' by (eapply svc_step_inv; [apply Hl | done]).
    destruct (IH x _ w' Hk Hw') as (log' & Hs & HQ). exists (l :: log'). rewrite <-app_assoc in HQ. split; [by exists (pw_store w') | done].
Qed.

Lemma passes_inv s log s' : passes s log s' → svc_inv s → svc_inv s'.
Proof.
  revert s. induction log as [| l log IH]; intros s; cbn; [by intros -> |]. intros (s1 & [Hs _] & Hp) Hinv.
  eapply IH; [exact Hp | by eapply svc_step_inv].
Qed.
Lemma passes_wrote s i record s' : passes s [Wrote i (Some record)] s' → svc_step s s' ∧ pr_providers (sv_providers s') !! i = Some record.
Proof. intros (s1 & (Hs & _ & Hp) & ->). split; [done |]. rewrite Hp. by rewrite lookup_partial_alter_eq. Qed.

Lemma run_reading {A B} (f : ProviderRepository → A) (g : A → prog (provider_world E) B) w :
  run (reading f ≫= g) w = run (g (f (sv_providers (pw_store w)))) w.
Proof. cbn. by destruct w. Qed.

(** A secret at rest can be read back. *)
Lemma encrypted_needs_key record c : stored_ok record → pe_Secret record = NewEncryptedSecret c → c ≠ "" ∧ secretless record = false.
Proof.
  intros Hok Hc. destruct (so_secret _ Hok) as [Ha | (c' & Hne & Hc')]; [by rewrite Ha in Hc |].
  assert (c = c') as -> by (rewrite Hc in Hc'; by injection Hc'). split; [done |]. unfold secretless.
  pose proof (so_source _ Hok) as Hsrc. rewrite elem_of_cons, list_elem_of_singleton in Hsrc. destruct Hsrc as [Hsrc | Hsrc].
  - rewrite bool_decide_eq_false_2 by (by rewrite Hsrc). destruct (so_stored _ Hok Hsrc) as [_ Hiff].
    destruct (IsPublicClient record) eqn:H1; [by rewrite (proj2 Hiff) in Hc by (by left) |].
    destruct (IsCIMDConfidentialClient record) eqn:H2; [by rewrite (proj2 Hiff) in Hc by (by right) | done].
  - destruct (so_filesystem _ Hok Hsrc) as (Ha & _). by rewrite Ha in Hc.
Qed.

Lemma Get_decrypts i record c s w : pr_providers (sv_providers (pw_store w)) !! i = Some record → pe_ID record = i →
  stored_ok record → pe_Secret record = NewEncryptedSecret c → (∀ y : E, (ps_Decrypt i c y).2 = Ok s) →
  (run (Get i) w).2 = Ok (set_pe_Secret (NewPlaintextSecret s) (providerRecordToEntity record (pr_resources (sv_providers (pw_store w)) !! i))).
Proof.
  intros Hi Hid Hok Hc Hdec. destruct (encrypted_needs_key record c Hok Hc) as [Hne Hl]. unfold Get. rewrite run_reading.
  unfold provider_Get. rewrite Hi. set (e := providerRecordToEntity record _). assert (pe_ID e = i) as He by done.
  rewrite bool_decide_eq_true_2 by done. cbn [negb]. unfold decrypted. change (secretless e) with (secretless record). rewrite Hl.
  change (pe_Secret e) with (pe_Secret record). rewrite Hc. unfold GetCiphertext, NewEncryptedSecret. cbn [sec_absent sec_ciphertext].
  rewrite decide_False by done. rewrite He. specialize (Hdec (tr_env (pw_traced w))). cbn. unfold on_traced.
  destruct (ps_Decrypt i c (tr_env (pw_traced w))) as [y r]. cbn in *. by rewrite Hdec.
Qed.

Lemma run_prepareUpdate {B} e (g : result admin_error (provider * provider) → prog (provider_world E) B) w old :
  provider_Get (pe_ID e) (sv_providers (pw_store w)) = Ok old →
  ∃ r, run (prepareUpdate cfg e ≫= g) w = run (g r) w ∧ ∀ x persisted, r = Ok (x, persisted) → same_service e x ∧ persisted = old.
Proof.
  intros Hold. unfold prepareUpdate. destruct (negb (discovered e) && _); [eexists; split; [done | by intros ? ?] |].
  destruct (bool_decide _); [eexists; split; [done | by intros ? ?] |]. eexists. split; [cbn; by destruct w |]. cbn. rewrite Hold.
  intros x persisted Hx. cbv zeta in Hx. destruct (source_transition_ok _ _); [| done]. by injection Hx as <- <-.
Qed.
End service.

Section theorems.
Context {E : Type} {DP : DiscoveryPorts E} {SP : ServicePorts E}.
Context {GU : GoURL} {GN : GoNet} {UU : UUID} {PP : ProviderParsers} {DJ : DiscoveryJSON}.
Variable cfg : admin_config.

(** Claim C20.  However many operations of the service run at once, interleaved with each
    other and with everything users' sessions do: the repositories only take their own
    steps, so that all that is proved of those holds, and every request that leaves belongs
    to the discovery of a validated public resource. *)
Theorem service_refines_store requests w0 w ps (Hinv : svc_inv (pw_store w0))
    (Hr : rtc (system_step (E:=E)) (w0, handle cfg <$> requests) (w, ps)) :
  rtc svc_step (pw_store w0) (pw_store w) ∧ svc_inv (pw_store w) ∧ sends (outbound cfg) w0 w.
Proof.
  assert (∀ c c', rtc (system_step (E:=E)) c c' → contained cfg c →
    contained cfg c' ∧ rtc svc_step (pw_store c.1) (pw_store c'.1) ∧ sends (outbound cfg) c.1 c'.1) as Hsteps.
  { induction 1 as [c | c c1 c2 Hs _ IH]; intros Hc; [split_and!; [done | done | by apply sends_none] |].
    destruct (system_step_contained cfg c c1 Hs Hc) as (Hc1 & Hr1 & l1 & Hl1 & HF1). destruct (IH Hc1) as (Hc2 & Hr2 & l2 & Hl2 & HF2).
    split_and!; [done | by etrans |]. exists (l2 ++ l1). rewrite Hl2, Hl1, app_assoc. split; [done |]. by apply Forall_app. }
  destruct (Hsteps _ _ Hr) as ([Hinv' _] & Hstore & Hsends); [| by split_and!]. split; [done |]. cbn. apply Forall_fmap, Forall_forall.
  intros rq _. exists []. apply handle_effects.
Qed.


(** Claim C21.  A client secret survives: once a service is created from a secret, given or
    registered, it is at rest only as ciphertext, and as long as nobody changes the service
    it is read back as it was. *)
Theorem secret_round_trip c attempt e w w1 e' w2
    (Hdec : ∀ i s ct (x y : E), (ps_Encrypt i s x).2 = Ok ct → (ps_Decrypt i ct y).2 = Ok s)
    (Hinv : svc_inv (pw_store w)) (Hrun : run (Create cfg c attempt e) w = (w1, Ok e'))
    (Hsame : pr_providers (sv_providers (pw_store w2)) !! pe_ID e' = pr_providers (sv_providers (pw_store w1)) !! pe_ID e') :
  ∃ x record, create_origin (E:=E) cfg e x ∧ pr_providers (sv_providers (pw_store w1)) !! pe_ID e' = Some record ∧
    GetPlaintext (pe_Secret record) = None ∧ pe_TokenEndpointAuthMethod record = pe_TokenEndpointAuthMethod x ∧
    ∀ s, GetPlaintext (pe_Secret x) = Some s →
      ∃ e2, (run (Get (pe_ID e')) w2).2 = Ok e2 ∧ pe_Secret e2 = NewPlaintextSecret s ∧ pe_ClientID e2 = pe_ClientID record.
Proof.
  destruct (eff_run cfg _ _ _ w (Create_eff cfg c attempt e) Hinv) as (log & Hpath & Hc). rewrite Hrun in Hpath, Hc.
  destruct Hc as (x & record & Hlog & Hid & Ho & Hse). cbn [app] in Hlog. subst log. apply passes_wrote in Hpath as [_ Hrec].
  exists x, record. split_and!; [done | exact Hrec | | apply Hse |].
  - destruct (so_secret _ (se_ok _ _ _ Hse)) as [-> | (ct & _ & ->)]; done.
  - intros s Hs. destruct (se_secret _ _ _ Hse s Hs) as (ct & env & Henc & Hsec). rewrite Hid in Henc.
    eexists. split; [eapply (Get_decrypts (pe_ID e') record ct s w2); [by rewrite Hsame | done | apply Hse | done | by eauto] |]. done.
Qed.

(** Claim C22.  A successful refresh of a discovered service keeps how the broker is the
    provider's client, keeps a registered client and its sealed secret as long as the issuer
    stays, and cannot move issuer or audience under a service that users are connected to. *)
Theorem discovered_update_keeps_client c attempt e v w w1 e' old
    (Hinv : svc_inv (pw_store w)) (Hget : provider_Get (pe_ID e) (sv_providers (pw_store w)) = Ok old) (Hd : discovered e = true)
    (Hrun : run (Update cfg c attempt e v) w = (w1, Ok e')) :
  ∃ record, pr_providers (sv_providers (pw_store w1)) !! pe_ID e = Some record ∧ stored_ok record ∧ record_kept old record ∧
    (session_count (pw_store w) (pe_ID e) ≠ 0 → discovery_backed old →
     pe_IssuerURI record = pe_IssuerURI old ∧ auth_resource record = auth_resource old).
Proof.
  revert Hrun. unfold Update. destruct (run_prepareUpdate cfg e (λ r, match r with
    | Err err => mret (Err (update_error err))
    | Ok (x, persisted) => if negb (discovered x) then update_prepared cfg c None x persisted v
        else r ← prepareDiscoveryUpdate cfg attempt x persisted;
          match r with
          | Err (err, None) => mret (Err err)
          | Err (err, Some completedAt) => err ← recordFailedDiscoveryUpdate cfg c persisted completedAt err; mret (Err err)
          | Ok (attemptedAt, x) => update_prepared cfg c (Some attemptedAt) x persisted v
          end
    end) w old Hget) as (r & Hr & Hrok). intros Hrun. rewrite Hr in Hrun. destruct r as [[x persisted] | err]; [| done].
  destruct (Hrok x persisted eq_refl) as [Hs ->].
  assert (stored_at (pe_ID e) old) as Hat by (exists (sv_providers (pw_store w)); split; [apply Hinv | done]).
  destruct (eff_run cfg _ _ _ w (update_rest_eff cfg c attempt e x old v Hs Hat) Hinv) as (log & Hpath & Hu). rewrite Hrun in Hpath, Hu.
  destruct Hu as (_ & record & Hlog & Hok & _ & Hkept). cbn [app] in Hlog. subst log. apply passes_wrote in Hpath as [Hstep Hrec].
  exists record. split_and!; [done | done | by apply Hkept |]. intros Hn Hb. unfold provider_Get in Hget.
  destruct (pr_providers (sv_providers (pw_store w)) !! pe_ID e) as [o |] eqn:Ho; [| done]. injection Hget as <-.
  destruct (svc_step_service _ _ _ o Hstep Ho) as [(o' & Ho' & Hch) | [_ ?]]; [| done].
  assert (o' = record) as -> by (rewrite Hrec in Ho'; by injection Ho'). destruct Hch as [-> | [_ Hch]]; [done |]. apply Hch; [done | by left].
Qed.
End theorems.

(** A service is created from a protected resource by registration, and refreshed. *)
Module ServiceDemo.
#[local] Instance discovery : DiscoveryPorts Z := {|
  dp_ctx_Err _ t := (t, None);
  dp_Probe u t := (t, (dp_Probe (DiscoveryPorts:=DiscoveryDemo.demo_discovery) u ()).2);
  dp_GetJSON u t := (t, (dp_GetJSON (DiscoveryPorts:=DiscoveryDemo.demo_discovery) u ()).2);
  dp_PostJSON u b t := (t, (dp_PostJSON (DiscoveryPorts:=DiscoveryDemo.demo_discovery) u b ()).2);
  dp_RequireUsablePublishedKey t := (t, false);
|}.
(** A clock, and an encryption that tags its text. *)
#[local] Instance ports : ServicePorts Z := {|
  ps_now t := let t := (t + 1000000)%Z in (t, t);
  ps_NewServiceID t := (t, "svc");
  ps_CreateBranchKey i t := (t, Ok i);
  ps_Encrypt i s t := (t, Ok ("E" +:+ s));
  ps_Decrypt i c t := (t, match c with String _ s => Ok s | EmptyString => Err EText end);
  ps_CountPermissionSetsForService i t := (t, Ok 0);
|}.
#[local] Instance net_url : GoURL := ChallengeDemo.mini_URL.
#[local] Instance net_ip : GoNet := ChallengeDemo.mini_Net.
#[local] Instance ids : UUID := Demo.toy_UUID.
#[local] Instance parsers : ProviderParsers := DiscoveryDemo.parsers.
#[local] Instance documents : DiscoveryJSON := DiscoveryDemo.demo_JSON.
Definition deployment := ServiceDeployment DiscoveryDemo.deployment false false true true.
Definition caller := Ctx 1 false.

Definition request : provider :=
  {| pe_ID := "svc"; pe_CanonicalID := None; pe_ClearCanonicalID := false; pe_DisplayName := "Files";
     pe_ClientID := ""; pe_Secret := NewAbsentSecret; pe_CredentialSource := "";
     pe_CredentialSourceTransitioned := false; pe_CredentialSourceProvided := false; pe_ClientRegistration := "";
     pe_ClientRegistrationProvided := false; pe_ClientIDProvided := false; pe_ClientSecretProvided := false;
     pe_TokenEndpointAuthMethod := ""; pe_Flavor := ""; pe_IssuerURI := "";
     pe_Discovery := MkDiscovery true None (Some DiscoveryDemo.url) ""; pe_Endpoints := MkEndpoints "" "" ""; pe_Scopes := [];
     pe_AuthorizationParams := None; pe_ResourceExplicit := false; pe_DiscoveryStatus := MkStatus None None None;
     pe_ProtectedResources := []; pe_Version := 0; pe_ServiceRequirements := []; pe_CreatedAt := 0; pe_UpdatedAt := 0 |}.

(** One described by hand. *)
Definition manual : provider :=
  set_pe_Secret (NewPlaintextSecret "s3cret")
    (set_selected "https://as.example" (MkEndpoints "https://as.example/token" "https://as.example/authorize" "") "" "" "" "c1" NewAbsentSecret
       {| pe_ID := "svc"; pe_CanonicalID := None; pe_ClearCanonicalID := false; pe_DisplayName := "Files";
          pe_ClientID := ""; pe_Secret := NewAbsentSecret; pe_CredentialSource := "";
          pe_CredentialSourceTransitioned := false; pe_CredentialSourceProvided := false; pe_ClientRegistration := "";
          pe_ClientRegistrationProvided := false; pe_ClientIDProvided := false; pe_ClientSecretProvided := false;
          pe_TokenEndpointAuthMethod := ""; pe_Flavor := ""; pe_IssuerURI := "";
          pe_Discovery := MkDiscovery false None None ""; pe_Endpoints := MkEndpoints "" "" ""; pe_Scopes := [];
          pe_AuthorizationParams := None; pe_ResourceExplicit := false; pe_DiscoveryStatus := MkStatus None None None;
          pe_ProtectedResources := ["https://files.example/api"]; pe_Version := 0; pe_ServiceRequirements := [];
          pe_CreatedAt := 0; pe_UpdatedAt := 0 |}).

Definition w0 : provider_world Z := ProviderWorld new_service_world (Traced 0%Z []).
Definition creation := run (Create deployment caller caller request) w0.
Definition w1 := creation.1.
Definition manual_creation := run (Create deployment caller caller manual) w0.
Definition update := run (Update deployment caller caller request None) w1.

Lemma w1_inv : svc_inv (pw_store w1).
Proof.
  destruct (eff_run deployment _ [] _ w0 (Create_eff deployment caller caller request) new_world_inv) as (log & Hp & _).
  eapply passes_inv; [exact Hp | apply new_world_inv].
Qed.
Lemma manual_created : ∃ w e, manual_creation = (w, Ok e) ∧ pe_ID e = "svc".
Proof.
  assert (match manual_creation.2 with Ok e => pe_ID e | Err _ => "" end = "svc") as Hr by (vm_compute; reflexivity).
  destruct manual_creation as [w [e | err]]; [exists w, e; exact (conj eq_refl Hr) | discriminate Hr].
Qed.
Lemma updated_ok : ∃ w e, update = (w, Ok e).
Proof.
  assert (match update.2 with Ok e => true | Err _ => false end = true) as Hr by (vm_compute; reflexivity).
  destruct update as [w [e | err]]; [by exists w, e | discriminate Hr].
Qed.
Lemma law i s ct (x y : Z) : (ps_Encrypt i s x).2 = Ok ct → (ps_Decrypt i ct y).2 = Ok s.
Proof. by intros [= <-]. Qed.
End ServiceDemo.

#[local] Existing Instances ServiceDemo.discovery ServiceDemo.ports ServiceDemo.net_url ServiceDemo.net_ip ServiceDemo.ids ServiceDemo.parsers ServiceDemo.documents.

Lemma secret_round_trip_witness :
  ∃ w e2, (run (Get "svc") w).2 = Ok e2 ∧ pe_Secret e2 = NewPlaintextSecret "s3cret" ∧
    ∃ record, pr_providers (sv_providers (pw_store w)) !! "svc" = Some record ∧ GetPlaintext (pe_Secret record) = None.
Proof.
  destruct ServiceDemo.manual_created as (w & e & Hrun & Hid).
  destruct (secret_round_trip (E:=Z) ServiceDemo.deployment ServiceDemo.caller ServiceDemo.caller
    ServiceDemo.manual ServiceDemo.w0 w e w ServiceDemo.law new_world_inv Hrun eq_refl) as (x & record & Hx & Hrec & Hnone & _ & Hget).
  clear Hrun. change (x = ServiceDemo.manual) in Hx. subst x. rewrite Hid in Hrec, Hget. destruct (Hget "s3cret" eq_refl) as (e2 & He2 & Hs2 & _).
  exists w, e2. split; [exact He2 | split; [exact Hs2 |]]. exists record. exact (conj Hrec Hnone).
Defined.

Lemma discovered_update_keeps_client_witness :
  ∃ old record (w : provider_world Z), provider_Get "svc" (sv_providers (pw_store ServiceDemo.w1)) = Ok old ∧
    pr_providers (sv_providers (pw_store w)) !! "svc" = Some record ∧ record_kept old record.
Proof.
  destruct (provider_Get "svc" (sv_providers (pw_store ServiceDemo.w1))) as [old |] eqn:Hold; [| by vm_compute in Hold].
  destruct ServiceDemo.updated_ok as (w & e & Hrun).
  destruct (discovered_update_keeps_client (E:=Z) ServiceDemo.deployment ServiceDemo.caller ServiceDemo.caller
    ServiceDemo.request None ServiceDemo.w1 w e old ServiceDemo.w1_inv Hold eq_refl Hrun) as (record & Hrec & _ & Hk & _).
  exists old, record, w. exact (conj eq_refl (conj Hrec Hk)).
Defined.

Lemma service_refines_store_witness :
  let requests := [RqCreate ServiceDemo.caller ServiceDemo.caller ServiceDemo.request; RqGet "svc"] in
  let handlers := handle (E:=Z) ServiceDemo.deployment <$> requests in
  let w := (schedule [0; 0; 0; 1; 0; 0; 0; 0; 0; 0; 0; 0; 0; 0; 0; 0] (ServiceDemo.w0, handlers)).1 in
  tr_requests (pw_traced w) ≠ [] ∧
  svc_inv (pw_store w).
Proof.
  intros requests handlers w. split; [by vm_compute |]. subst w. generalize (schedule_steps [0; 0; 0; 1; 0; 0; 0; 0; 0; 0; 0; 0; 0; 0; 0; 0] (ServiceDemo.w0, handlers)).
  destruct (schedule _ (ServiceDemo.w0, handlers)) as [w ps]. intros Hp.
  refine (proj1 (proj2 (service_refines_store (E:=Z) ServiceDemo.deployment requests
    ServiceDemo.w0 w ps new_world_inv _))).
  exact (rtc_subrel pool_step system_step _ _ (λ c c' H, system_operation c c' H) Hp).
Defined.

