(* ===== verification/ExchangeErrors.v ===== *)
(** * Errors and diagnostics of the external processor

    internal/extproc/server/exchange_errors.go, diagnostic.go, circuit_breaker.go
    ([isServerError]) and the error values of exchanger.go.  The classifications are
    strings, as in the code: the constructors map every value outside their vocabulary
    to a default.  Log lines and span attributes are left out. *)

From S2P Require Import Prelude.

(** ** Bounded metadata *)

Definition OperationExchange := "exchange".
Definition OperationAssertionRefresh := "assertion_refresh".
Definition OperationConfiguration := "configuration".
Definition operations : list string := [OperationExchange; OperationAssertionRefresh; OperationConfiguration].

Definition KindNone := "none".
Definition KindConfiguration := "configuration".
Definition KindUnavailable := "unavailable".
Definition KindRejected := "rejected".
Definition KindInvalidResponse := "invalid_response".
Definition KindCallerCanceled := "caller_canceled".
Definition KindAssertionExpired := "assertion_expired".
Definition KindCircuitOpen := "circuit_open".
Definition KindInternal := "internal".
Definition kinds : list string :=
  [KindNone; KindConfiguration; KindUnavailable; KindRejected; KindInvalidResponse; KindCallerCanceled;
   KindAssertionExpired; KindCircuitOpen; KindInternal].

Definition DependencyLocal := "local".
Definition DependencyBroker := "broker".
Definition DependencyOAuthProvider := "oauth_provider".
Definition dependencies : list string := [DependencyLocal; DependencyBroker; DependencyOAuthProvider].

Definition oauth_codes : list string :=
  ["invalid_request"; "invalid_client"; "invalid_grant"; "unauthorized_client"; "unsupported_grant_type";
   "invalid_scope"; "invalid_target"; "invalid_token"; "access_denied"; "server_error";
   "temporarily_unavailable"; "slow_down"; "reauth_required"].

Definition safeOAuthCode (code : string) : string := if decide (code ∈ oauth_codes) then code else "unknown".

Record ExtMetadata := Meta {
  em_operation : string;
  em_kind : string;
  em_dependency : string;
  em_statusCode : Z;
  em_oauthCode : string;
}.

Definition NewErrorMetadata (operation kind dependency : string) (statusCode : Z) (oauthCode : string) : ExtMetadata :=
  {| em_operation := if decide (operation ∈ operations) then operation else OperationExchange;
     em_kind := if decide (kind ∈ kinds) then kind else KindInternal;
     em_dependency := if decide (dependency ∈ dependencies) then dependency else DependencyLocal;
     em_statusCode := if bool_decide (statusCode < 100)%Z || bool_decide (599 < statusCode)%Z then 0%Z else statusCode;
     em_oauthCode := safeOAuthCode oauthCode |}.

Definition responseErrorKind (statusCode : Z) : string :=
  if bool_decide (statusCode = 429)%Z || bool_decide (500 <= statusCode)%Z then KindUnavailable else KindRejected.

(** ** Diagnostics *)

Record ExtDiagnostic := ExtDiag {
  ed_outcome : string;
  ed_stage : string;
  ed_detail : string;
  ed_action : string;
  ed_target : string;
  ed_exchange : string;
  ed_serverError : string;
}.

Definition asServerError (kind : string) (d : ExtDiagnostic) : ExtDiagnostic :=
  ExtDiag (ed_outcome d) (ed_stage d) (ed_detail d) (ed_action d) (ed_target d) (ed_exchange d) kind.

Definition failure_stages : list string :=
  ["request_validation"; "exchange_routing"; "client_authorization"; "refresh"; "response_write"].

(** The outcome, action and target of a detail; [None]: not a detail of a failure. *)
Definition detail_class (detail : string) : option (string * string * string) :=
  if decide (detail ∈ ["resource_missing"; "request_malformed"]) then Some ("invalid_request", "none", "none")
  else if decide (detail ∈ ["subject_invalid"; "client_invalid"; "client_expired"; "credential_rejected"])
  then Some ("authentication_failed", "none", "none")
  else if decide (detail ∈ ["authorization_denied"; "policy_denied"]) then Some ("authorization_denied", "none", "none")
  else if decide (detail = "consent_required") then Some ("authorization_denied", "reconsent", "consent")
  else if decide (detail = "reauth_required") then Some ("reauth_required", "none", "none")
  else if decide (detail = "session_reauth_required") then Some ("reauth_required", "reauthenticate", "provider_session")
  else if decide (detail ∈ ["configuration"; "policy_configuration"])
  then Some ("configuration_error", "fix_configuration", "none")
  else if decide (detail = "caller_canceled") then Some ("canceled", "none", "none")
  else if decide (detail ∈ ["broker_unavailable"; "broker_response_invalid"; "provider_unavailable";
                            "provider_response_invalid"; "circuit_open"; "policy_evaluation_failed";
                            "response_write_failed"; "internal_unclassified"])
  then Some ("infrastructure_error", "retry", "none")
  else None.

Definition NewExtDiagnostic (stage detail : string) : ExtDiagnostic :=
  let stage := if decide (stage ∈ failure_stages) then stage else "exchange_routing" in
  match detail_class detail with
  | Some (outcome, action, target) => ExtDiag outcome stage detail action target "unknown" ""
  | None => ExtDiag "infrastructure_error" stage "internal_unclassified" "retry" "none" "unknown" ""
  end.

Definition WithExchangeKind (kind : string) (d : ExtDiagnostic) : ExtDiagnostic :=
  ExtDiag (ed_outcome d) (ed_stage d) (ed_detail d) (ed_action d) (ed_target d)
    (if decide (kind ∈ ["third_party"; "impersonation"]) then kind else "unknown") (ed_serverError d).

Definition SuccessExtDiagnostic (kind : string) : ExtDiagnostic :=
  WithExchangeKind kind (ExtDiag "success" "none" "none" "none" "none" "" "").

(** ** Error values *)

(** A non-200 answer of the broker. *)
Record BrokerExchangeError := BrokerErr {
  bx_StatusCode : Z;
  bx_Code : string;
  bx_Description : string;
  bx_ErrorURI : string;
}.

Inductive context_error := ContextCanceled | ContextDeadlineExceeded.

(** The errors the code builds and tests for.  [ErrNet] is a net.Error, [ErrRetrieve] an
    oauth2.RetrieveError with the status of its response and its error code, [ErrJoin]
    the value of errors.Join, and [ErrText] every other error. *)
#[warnings="-register-all"]
Inductive exch_error :=
  | ErrOperation (metadata : ExtMetadata) (cause : exch_error) (diagnostic : ExtDiagnostic)
  | ErrBroker (e : BrokerExchangeError)
  | ErrAssertionExpired
  | ErrCircuitOpen
  | ErrOpenState
  | ErrTooManyRequests
  | ErrContext (e : context_error)
  | ErrNet (cause : option context_error)
  | ErrRetrieve (response : option Z) (code : string)
  | ErrJoin (first second : exch_error)
  | ErrText (text : string).

#[export] Instance BrokerExchangeError_eq_dec : EqDecision BrokerExchangeError.
Proof. solve_decision. Defined.
#[export] Instance context_error_eq_dec : EqDecision context_error.
Proof. solve_decision. Defined.

(** [errors.Is] and [errors.As]: the first error of the chain, depth first. *)
Fixpoint errors_chain (e : exch_error) : list exch_error :=
  e :: match e with
       | ErrOperation _ cause _ => errors_chain cause
       | ErrNet (Some c) => [ErrContext c]
       | ErrJoin e1 e2 => errors_chain e1 ++ errors_chain e2
       | _ => []
       end.

Fixpoint first_of {A B} (f : A → option B) (l : list A) : option B :=
  match l with
  | [] => None
  | x :: l => match f x with Some y => Some y | None => first_of f l end
  end.

Definition as_broker (e : exch_error) : option BrokerExchangeError :=
  first_of (λ e, match e with ErrBroker b => Some b | _ => None end) (errors_chain e).
Definition as_operation (e : exch_error) : option (ExtMetadata * ExtDiagnostic) :=
  first_of (λ e, match e with ErrOperation m _ d => Some (m, d) | _ => None end) (errors_chain e).
Definition as_retrieve (e : exch_error) : option (option Z * string) :=
  first_of (λ e, match e with ErrRetrieve r c => Some (r, c) | _ => None end) (errors_chain e).
Definition is_some {A} (o : option A) : bool := match o with Some _ => true | None => false end.
Definition errors_is (test : exch_error → bool) (e : exch_error) : bool := existsb test (errors_chain e).

Definition is_assertion_expired := errors_is (λ e, match e with ErrAssertionExpired => true | _ => false end).
Definition is_circuit_open := errors_is (λ e, match e with ErrCircuitOpen => true | _ => false end).
Definition is_breaker_rejection := errors_is (λ e, match e with ErrOpenState | ErrTooManyRequests => true | _ => false end).
Definition is_context_error (c : context_error) :=
  errors_is (λ e, match e with ErrContext c' => bool_decide (c' = c) | _ => false end).
Definition is_net_error := errors_is (λ e, match e with ErrNet _ => true | _ => false end).

(** [BrokerExchangeError.Metadata] *)
Definition broker_Metadata (e : BrokerExchangeError) : ExtMetadata :=
  let kind :=
    if bool_decide (bx_StatusCode e = 429)%Z && negb (bool_decide (bx_ErrorURI e = "")) then KindRejected
    else responseErrorKind (bx_StatusCode e) in
  NewErrorMetadata OperationExchange kind DependencyBroker (bx_StatusCode e) (bx_Code e).

Definition provider_or_broker (dependency provider broker : string) : string :=
  if decide (dependency = DependencyOAuthProvider) then provider else broker.

(** The detail of a rejection, by its OAuth2 error code. *)
Definition rejected_detail (m : ExtMetadata) (hasRecovery : bool) : string :=
  let code := em_oauthCode m in
  if decide (code ∈ ["invalid_request"; "invalid_target"; "invalid_scope"; "unsupported_grant_type"]) then "request_malformed"
  else if decide (code ∈ ["invalid_client"; "unauthorized_client"]) then "client_invalid"
  else if decide (code = "invalid_token") then "subject_invalid"
  else if decide (code = "invalid_grant") then (if hasRecovery then "session_reauth_required" else "credential_rejected")
  else if decide (code = "reauth_required") then (if hasRecovery then "session_reauth_required" else "reauth_required")
  else if decide (code = "access_denied") then (if hasRecovery then "consent_required" else "authorization_denied")
  else if decide (code ∈ ["server_error"; "temporarily_unavailable"])
  then provider_or_broker (em_dependency m) "provider_unavailable" "broker_unavailable"
  else "internal_unclassified".

Definition diagnosticForMetadata (m : ExtMetadata) (cause : exch_error) : ExtDiagnostic :=
  let stage := if decide (em_operation m = OperationAssertionRefresh) then "refresh" else "exchange_routing" in
  let kind := em_kind m in
  if decide (kind = KindNone) then SuccessExtDiagnostic "unknown"
  else NewExtDiagnostic stage
    (if decide (kind = KindConfiguration) then "configuration"
     else if decide (kind = KindCallerCanceled) then "caller_canceled"
     else if decide (kind = KindAssertionExpired) then "client_expired"
     else if decide (kind = KindCircuitOpen) then "circuit_open"
     else if decide (kind = KindUnavailable)
     then provider_or_broker (em_dependency m) "provider_unavailable" "broker_unavailable"
     else if decide (kind = KindInvalidResponse)
     then provider_or_broker (em_dependency m) "provider_response_invalid" "broker_response_invalid"
     else if decide (kind = KindRejected)
     then rejected_detail m match as_broker cause with Some b => negb (bool_decide (bx_ErrorURI b = "")) | None => false end
     else "internal_unclassified").

Definition NewOperationError (m : ExtMetadata) (cause : exch_error) : exch_error :=
  let m := NewErrorMetadata (em_operation m) (em_kind m) (em_dependency m) (em_statusCode m) (em_oauthCode m) in
  ErrOperation m cause (diagnosticForMetadata m cause).

(** The common call: the metadata built in place. *)
Definition operation_error (operation kind dependency : string) (status : Z) (cause : exch_error) : exch_error :=
  NewOperationError (NewErrorMetadata operation kind dependency status "") cause.

(** [canceled]: the error of the caller's context, once it has ended. *)
Definition metadataFromError (canceled : option context_error) (err : exch_error) : ExtMetadata :=
  match as_operation err with
  | Some (m, _) => m
  | None =>
      if match canceled with Some c => is_context_error c err | None => false end
      then NewErrorMetadata OperationExchange KindCallerCanceled DependencyLocal 0 ""
      else match as_broker err with
           | Some b => broker_Metadata b
           | None =>
               if is_assertion_expired err
               then NewErrorMetadata OperationAssertionRefresh KindAssertionExpired DependencyLocal 0 ""
               else if is_circuit_open err then NewErrorMetadata OperationExchange KindCircuitOpen DependencyBroker 0 ""
               else NewErrorMetadata OperationExchange KindInternal DependencyLocal 0 ""
           end
  end.

Definition diagnosticFromError (canceled : option context_error) (err : exch_error) : ExtDiagnostic :=
  let m := metadataFromError canceled err in
  match as_operation err with
  | Some (_, d) =>
      if decide (em_kind m = KindCallerCanceled) then NewExtDiagnostic (ed_stage d) "caller_canceled" else d
  | None => diagnosticForMetadata m err
  end.

Definition assertionErrorMetadata (err : exch_error) : ExtMetadata :=
  let kind :=
    if is_net_error err || is_context_error ContextCanceled err || is_context_error ContextDeadlineExceeded err
    then KindUnavailable else KindInvalidResponse in
  match as_retrieve err with
  | None => NewErrorMetadata OperationAssertionRefresh kind DependencyOAuthProvider 0 ""
  | Some (response, code) =>
      let status := default 0%Z response in
      NewErrorMetadata OperationAssertionRefresh
        (if decide (status = 200)%Z then KindInvalidResponse else responseErrorKind status)
        DependencyOAuthProvider status code
  end.

(** The text of an [OperationError] and of a [BrokerExchangeError]. *)
Definition metadata_text (m : ExtMetadata) : string :=
  "extproc " +:+ em_operation m +:+ " failed: " +:+ em_kind m +:+ " (" +:+ em_dependency m +:+ ", status="
    +:+ pretty (em_statusCode m) +:+ ", code=" +:+ em_oauthCode m +:+ ")".
Definition broker_text (e : BrokerExchangeError) : string :=
  let m := broker_Metadata e in
  "broker exchange failed: " +:+ em_kind m +:+ " (status=" +:+ pretty (em_statusCode m) +:+ ", code=" +:+ em_oauthCode m +:+ ")".

(** ** Which failures count as transient, and which trip the breaker *)

Definition isTransientBrokerError (err : exch_error) : bool :=
  if is_assertion_expired err then false
  else match as_broker err with
       | Some b =>
           if decide (bx_StatusCode b = 429)%Z then bool_decide (bx_ErrorURI b = "")
           else bool_decide (500 <= bx_StatusCode b)%Z
       | None => true
       end.

Definition isServerError (err : option exch_error) : bool :=
  match err with
  | None => false
  | Some err =>
      match as_broker err with
      | Some b => bool_decide (500 <= bx_StatusCode b)%Z
      | None => true
      end
  end.

(** ** Facts *)

(** Everything telemetry is told about a failure comes from fixed vocabularies. *)
Definition bounded_metadata (m : ExtMetadata) : Prop :=
  em_operation m ∈ operations ∧ em_kind m ∈ kinds ∧ em_dependency m ∈ dependencies ∧
  (em_statusCode m = 0 ∨ 100 <= em_statusCode m <= 599)%Z ∧ em_oauthCode m ∈ "unknown" :: oauth_codes.

Lemma NewErrorMetadata_bounded op k d st c : bounded_metadata (NewErrorMetadata op k d st c).
Proof.
  assert (∀ (l : list string) x y, y ∈ l → (if decide (x ∈ l) then x else y) ∈ l) as Hin.
  { intros l x y Hy. by case_decide. }
  unfold NewErrorMetadata. split_and!; simpl.
  - apply Hin. unfold operations, dependencies. set_solver.
  - apply Hin. unfold kinds. set_solver.
  - apply Hin. unfold operations, dependencies. set_solver.
  - destruct (bool_decide _) eqn:E1, (bool_decide (599 < st)%Z) eqn:E2; simpl; breflect; lia.
  - unfold safeOAuthCode. case_decide as H; [by right | left].
Qed.

(** Metadata is a fixed point of its constructor: wrapping twice changes nothing. *)
Lemma NewErrorMetadata_id m :
  bounded_metadata m →
  NewErrorMetadata (em_operation m) (em_kind m) (em_dependency m) (em_statusCode m) (em_oauthCode m) = m.
Proof.
  intros (Ho & Hk & Hd & Hs & Hc). destruct m as [op k d st c]; simpl in *. unfold NewErrorMetadata.
  rewrite !decide_True by done. f_equal.
  - destruct Hs as [-> | Hs]; [done |]. by rewrite !bool_decide_eq_false_2 by lia.
  - unfold safeOAuthCode. case_decide as H; [done |]. by apply elem_of_cons in Hc as [-> | ?].
Qed.

Lemma operation_error_chain op k d st cause :
  errors_chain (operation_error op k d st cause) = operation_error op k d st cause :: errors_chain cause.
Proof. done. Qed.

Lemma as_broker_operation m cause : as_broker (NewOperationError m cause) = as_broker cause.
Proof. done. Qed.

Lemma expired_operation m cause : is_assertion_expired (NewOperationError m cause) = is_assertion_expired cause.
Proof. done. Qed.

(** Wrapping an error in its operation does not change how it is classified. *)
Lemma transient_operation m cause : isTransientBrokerError (NewOperationError m cause) = isTransientBrokerError cause.
Proof. done. Qed.
