(* ===== verification/TokenExchanger.v ===== *)
(** * The token exchanger of the external processor

    internal/extproc/server/exchanger.go and circuit_breaker.go: the RFC 8693 exchange
    with its cache, its stale fallback, the circuit breaker and the background refresh of
    the client assertion.  Every critical section, atomic load and outbound call is one
    action of a [prog].  The broker and the OAuth2 provider behind the HTTP client, JSON
    decoding and the breaker (sony/gobreaker) are the class [ProcessorPorts].  Logging,
    spans and the timeouts of requests are left out. *)

From S2P Require Import Prelude ExchangeErrors.

(** ** Data *)

Record tokenCacheKey := CacheKey { subjectToken : string; resourceURI : string }.
#[export] Instance tokenCacheKey_eq_dec : EqDecision tokenCacheKey.
Proof. solve_decision. Defined.
#[export] Instance tokenCacheKey_countable : Countable tokenCacheKey.
Proof.
  refine (inj_countable' (λ k, (subjectToken k, resourceURI k)) (λ p, CacheKey p.1 p.2) _). by intros [].
Defined.

(** A Go map of slices; [None] is the nil map. *)
Abbreviation permission_sets := (option (gmap string (list string))).

Record ExchangeResult := XResult {
  xr_Token : string;
  xr_GrantedPermissionSets : permission_sets;
  xr_Principal : string;
  xr_AgentID : string;
}.

Record cachedToken := Cached {
  ct_accessToken : string;
  ct_grantedPermissionSets : permission_sets;
  ct_principal : string;
  ct_agentID : string;
  ct_reAuthErr : option exch_error;
  ct_expiresAt : time;
  ct_staleUntil : time;
}.

Record tokenExchangeResponse := TokenResponse {
  tr_AccessToken : string;
  tr_ExpiresIn : option Z;
  tr_GrantedPermissionSets : permission_sets;
  tr_Principal : string;
  tr_AgentID : string;
}.

Record brokerErrorBody := BrokerBody { bb_Code : string; bb_Description : string; bb_ErrorURI : string }.

Record assertionState := Assertion { as_value : string; as_issuedAt : time; as_expiresAt : time }.

Record exchanger_config := ExchangerConfig {
  xc_DefaultTTL : duration;
  xc_MaxTTL : duration;
  xc_BreakerEnabled : bool;
  xc_MaxFailures : Z;
  xc_ResetTimeout : duration;
  xc_TokenEndpoint : string;
  xc_Issuer : string;
  xc_ClientID : string;
  xc_ClientSecret : string;
  xc_ClientCredentialsEndpoint : string;
  xc_ClientCredentialsScopes : list string;
  xc_ClientAssertionType : string;
}.

(** gobreaker.Settings, without the logging callback. *)
Record breaker_settings := BreakerSettings {
  gb_MaxRequests : N;
  gb_Timeout : duration;
  gb_ReadyToTrip : N → bool;
  gb_IsSuccessful : option exch_error → bool;
}.

(** uint32(cfg.CircuitBreaker.MaxFailures) wraps. *)
Definition newGobreakerCB (cfg : exchanger_config) : breaker_settings :=
  let maxFail := Z.to_N (xc_MaxFailures cfg mod 2 ^ 32) in
  {| gb_MaxRequests := 1;
     gb_Timeout := xc_ResetTimeout cfg;
     gb_ReadyToTrip failures := bool_decide (maxFail <= failures)%N;
     gb_IsSuccessful err := match err with None => true | Some _ => negb (isServerError err) end |}.

(** clientcredentials.Config and the token it obtains. *)
Record credentials_request := CredentialsRequest {
  cc_ClientID : string;
  cc_ClientSecret : string;
  cc_TokenURL : string;
  cc_Scopes : list string;
}.
Record oauth_token := OAuthToken { ot_AccessToken : string; ot_IDToken : option string; ot_Expiry : time }.

(** A response: its status, and its body or the error that ended reading it. *)
Record exchange_response := ExchangeResponse { xs_StatusCode : Z; xs_Body : result exch_error string }.

(** What the exchanger calls: the HTTP client, encoding/json, and the breaker, which either
    refuses a call or admits it under a generation that its outcome is reported with. *)
Class ProcessorPorts := {
  outside : Type;
  breaker : Type;
  xp_NewRequest : string → option exch_error;
  xp_Do : time → string → list (string * string) → outside → outside * result exch_error exchange_response;
  xp_Token : time → credentials_request → outside → outside * result exch_error oauth_token;
  json_ExchangeResponse : string → result exch_error tokenExchangeResponse;
  json_BrokerError : string → brokerErrorBody;
  breaker_Before : breaker_settings → time → breaker → breaker * result exch_error N;
  breaker_After : breaker_settings → N → bool → time → breaker → breaker;
}.

(** ** Lifetimes *)

Definition reAuthCooldownTTL : duration := (5 * second)%Z.
Definition minExpiryMargin : duration := (10 * second)%Z.

Record tokenLifetimes := Lifetimes { tl_fresh : duration; tl_lifetime : duration }.

(** Go's [/] truncates; the products and differences are int64. *)
Definition computeTTL (cfg : exchanger_config) (expiresIn : option Z) : tokenLifetimes :=
  match expiresIn with
  | None =>
      let ttl := Z.min (xc_DefaultTTL cfg) (xc_MaxTTL cfg) in
      Lifetimes ttl ttl
  | Some n =>
      if bool_decide (n <= 0)%Z then Lifetimes 0 0
      else
        let lifetime := int64_wrap (n * second) in
        let fresh := int64_wrap (lifetime - Z.max minExpiryMargin (Z.quot lifetime 10)) in
        let fresh := Z.max fresh (Z.quot lifetime 2) in
        Lifetimes (Z.min fresh (xc_MaxTTL cfg)) (Z.min lifetime (xc_MaxTTL cfg))
  end.

Definition isExpired (now : time) (c : cachedToken) : bool := After now (ct_expiresAt c).

Definition isAssertionExpired (now : time) (s : option assertionState) : bool :=
  match s with
  | None => true
  | Some s =>
      if decide (as_value s = "") then true
      else negb (IsZero (as_expiresAt s)) && After now (as_expiresAt s)
  end.

Definition cloneGrantedPermissionSets (src : permission_sets) : permission_sets :=
  fmap (M:=gmap string) (λ serviceIDs, [] ++ serviceIDs) <$> src.

(** The answer a cached entry stands for. *)
Definition entry_result (e : cachedToken) : ExchangeResult :=
  XResult (ct_accessToken e) (cloneGrantedPermissionSets (ct_grantedPermissionSets e)) (ct_principal e) (ct_agentID e).

Definition entry_answer (e : cachedToken) : result exch_error ExchangeResult :=
  match ct_reAuthErr e with Some err => Err err | None => Ok (entry_result e) end.

Definition reauth_entry (now : time) (err : exch_error) : cachedToken :=
  Cached "" None "" "" (Some err) (now + reAuthCooldownTTL)%Z zero_time.

Definition success_entry (cfg : exchanger_config) (now : time) (result : ExchangeResult) (window : tokenLifetimes)
    : cachedToken :=
  let staleUntil := (now + int64_wrap (tl_lifetime window + reAuthCooldownTTL))%Z in
  let maxAbs := (now + xc_MaxTTL cfg)%Z in
  Cached (xr_Token result) (cloneGrantedPermissionSets (xr_GrantedPermissionSets result)) (xr_Principal result)
    (xr_AgentID result) None (now + tl_fresh window)%Z
    (if Before maxAbs staleUntil then maxAbs else staleUntil).

(** An expired entry whose stale window is over. *)
Definition evictable (now : time) (e : cachedToken) : bool :=
  isExpired now e && (IsZero (ct_staleUntil e) || Before (ct_staleUntil e) now).

Definition clientCredentialsScopes (configured : list string) : list string :=
  match filter (λ s, s ≠ "") (TrimSpace <$> configured) with
  | [] => ["openid"]
  | filtered => filtered
  end.

(** ** The exchanger *)

(** [xw_now] is the clock, [xw_stopped] says whether [stopCh] is closed. *)
Record exchanger `{ProcessorPorts} := Exchanger {
  xw_cache : gmap tokenCacheKey cachedToken;
  xw_assertion : option assertionState;
  xw_breaker : breaker;
  xw_now : time;
  xw_stopped : bool;
  xw_outside : outside;
}.

Section exchanger.
Context `{ProcessorPorts} (cfg : exchanger_config).

Definition with_cache (f : gmap tokenCacheKey cachedToken → gmap tokenCacheKey cachedToken) (w : exchanger) : exchanger :=
  Exchanger _ (f (xw_cache w)) (xw_assertion w) (xw_breaker w) (xw_now w) (xw_stopped w) (xw_outside w).
Definition with_assertion (a : option assertionState) (w : exchanger) : exchanger :=
  Exchanger _ (xw_cache w) a (xw_breaker w) (xw_now w) (xw_stopped w) (xw_outside w).
Definition with_breaker (b : breaker) (w : exchanger) : exchanger :=
  Exchanger _ (xw_cache w) (xw_assertion w) b (xw_now w) (xw_stopped w) (xw_outside w).
Definition with_now (t : time) (w : exchanger) : exchanger :=
  Exchanger _ (xw_cache w) (xw_assertion w) (xw_breaker w) t (xw_stopped w) (xw_outside w).
Definition with_outside (o : outside) (w : exchanger) : exchanger :=
  Exchanger _ (xw_cache w) (xw_assertion w) (xw_breaker w) (xw_now w) (xw_stopped w) o.

Definition read {X} (f : exchanger → X) : prog exchanger X := act (λ w, (w, f w)).
Definition update (f : exchanger → exchanger) : prog exchanger unit := act (λ w, (f w, ())).

(** ** One exchange *)

Definition current_assertion (w : exchanger) : result exch_error string :=
  match xw_assertion w with
  | Some a =>
      if isAssertionExpired (xw_now w) (Some a)
      then Err (operation_error OperationAssertionRefresh KindAssertionExpired DependencyLocal 0 ErrAssertionExpired)
      else Ok (as_value a)
  | None => Err (operation_error OperationAssertionRefresh KindAssertionExpired DependencyLocal 0 ErrAssertionExpired)
  end.

Definition ClientAssertion : prog exchanger (result exch_error string) := read current_assertion.

Definition exchange_form (key : tokenCacheKey) (assertion : string) : list (string * string) :=
  [("grant_type", "urn:ietf:params:oauth:grant-type:token-exchange");
   ("subject_token", subjectToken key);
   ("subject_token_type", "urn:ietf:params:oauth:token-type:access_token");
   ("resource", resourceURI key);
   ("client_assertion", assertion);
   ("client_assertion_type", "urn:ietf:params:oauth:client-assertion-type:jwt-bearer")].

(** The result and window of a response. *)
Definition exchange_answer (r : exchange_response) : result exch_error (ExchangeResult * tokenLifetimes) :=
  let status := xs_StatusCode r in
  let invalid cause := Err (operation_error OperationExchange KindInvalidResponse DependencyBroker status cause) in
  match xs_Body r with
  | Err err =>
      Err (operation_error OperationExchange
             (if bool_decide (status = 200)%Z then KindInvalidResponse else responseErrorKind status)
             DependencyBroker status err)
  | Ok body =>
      if negb (bool_decide (status = 200)%Z) then
        let b := json_BrokerError body in
        let brokerErr := BrokerErr status (bb_Code b) (bb_Description b) (bb_ErrorURI b) in
        Err (NewOperationError (broker_Metadata brokerErr) (ErrBroker brokerErr))
      else
        match json_ExchangeResponse body with
        | Err err => invalid err
        | Ok response =>
            if decide (tr_AccessToken response = "") then invalid (ErrText "token exchange response missing access_token")
            else Ok (XResult (tr_AccessToken response) (cloneGrantedPermissionSets (tr_GrantedPermissionSets response))
                       (tr_Principal response) (tr_AgentID response),
                     computeTTL cfg (tr_ExpiresIn response))
        end
  end.

Definition call_broker (form : list (string * string)) : prog exchanger (result exch_error exchange_response) :=
  act (λ w, let r := xp_Do (xw_now w) (xc_TokenEndpoint cfg) form (xw_outside w) in (with_outside r.1 w, r.2)).

Definition doExchange (key : tokenCacheKey) : prog exchanger (result exch_error (ExchangeResult * tokenLifetimes)) :=
  a ← ClientAssertion;
  match a with
  | Err err => Ret (Err err)
  | Ok assertion =>
      match xp_NewRequest (xc_TokenEndpoint cfg) with
      | Some err => Ret (Err (operation_error OperationExchange KindConfiguration DependencyLocal 0 err))
      | None =>
          r ← call_broker (exchange_form key assertion);
          match r with
          | Err err => Ret (Err (operation_error OperationExchange KindUnavailable DependencyBroker 0 err))
          | Ok response => Ret (exchange_answer response)
          end
      end
  end.

(** The rejections that are remembered: those that name a recovery URL. *)
Definition reauth_rejection (err : exch_error) : bool :=
  match as_broker err with
  | Some b => negb (bool_decide (bx_ErrorURI b = "")) && negb (isTransientBrokerError err)
  | None => false
  end.

Definition doExchangeAndCache (key : tokenCacheKey) : prog exchanger (result exch_error ExchangeResult) :=
  r ← doExchange key;
  match r with
  | Err err =>
      if reauth_rejection err then
        _ ← update (λ w, with_cache <[key := reauth_entry (xw_now w) err]> w);
        Ret (Err err)
      else Ret (Err err)
  | Ok (result, window) =>
      if bool_decide (tl_lifetime window <= 0)%Z then
        _ ← update (with_cache (delete key));
        Ret (Ok result)
      else
        _ ← update (λ w, with_cache <[key := success_entry cfg (xw_now w) result window]> w);
        Ret (Ok (XResult (xr_Token result) (cloneGrantedPermissionSets (xr_GrantedPermissionSets result))
                   (xr_Principal result) (xr_AgentID result)))
  end.

(** ** The cache in front of it *)

(** A hit: an unexpired entry, while the client assertion is good. *)
Definition cache_hit (key : tokenCacheKey) : prog exchanger (option (result exch_error ExchangeResult)) :=
  entry ← read (λ w, match xw_cache w !! key with
                     | Some e => if isExpired (xw_now w) e then None else Some e
                     | None => None
                     end);
  match entry with
  | None => Ret None
  | Some e =>
      expired ← read (λ w, isAssertionExpired (xw_now w) (xw_assertion w));
      Ret (if (expired : bool) then None else Some (entry_answer e))
  end.

Definition stale_entry (key : tokenCacheKey) (w : exchanger) : option cachedToken :=
  match xw_cache w !! key with
  | Some e =>
      if negb (bool_decide (ct_accessToken e = "")) && Before (xw_now w) (ct_staleUntil e) then Some e else None
  | None => None
  end.

Definition serveStaleOrErr (key : tokenCacheKey) (execErr : exch_error) : prog exchanger (result exch_error ExchangeResult) :=
  if isTransientBrokerError execErr then
    expired ← read (λ w, isAssertionExpired (xw_now w) (xw_assertion w));
    if (expired : bool) then Ret (Err execErr)
    else
      entry ← read (stale_entry key);
      Ret match entry with Some e => Ok (entry_result e) | None => Err execErr end
  else Ret (Err execErr).

Definition error_of {A} (r : result exch_error A) : option exch_error :=
  match r with Ok _ => None | Err err => Some err end.

(** [te.cb.Execute] around the exchange. *)
Definition Execute {A} (body : prog exchanger (result exch_error A)) : prog exchanger (result exch_error A) :=
  admitted ← act (λ w, let r := breaker_Before (newGobreakerCB cfg) (xw_now w) (xw_breaker w) in (with_breaker r.1 w, r.2));
  match admitted with
  | Err err => Ret (Err err)
  | Ok generation =>
      r ← body;
      _ ← update (λ w, with_breaker (breaker_After (newGobreakerCB cfg) generation
                         (gb_IsSuccessful (newGobreakerCB cfg) (error_of r)) (xw_now w) (xw_breaker w)) w);
      Ret r
  end.

Definition breaker_error (err : exch_error) : exch_error :=
  if is_breaker_rejection err
  then operation_error OperationExchange KindCircuitOpen DependencyBroker 0 (ErrJoin ErrCircuitOpen err)
  else err.

Definition exchange_or_stale (key : tokenCacheKey) : prog exchanger (result exch_error ExchangeResult) :=
  if xc_BreakerEnabled cfg then
    r ← Execute (doExchangeAndCache key);
    match r with
    | Err execErr => serveStaleOrErr key (breaker_error execErr)
    | Ok result => Ret (Ok result)
    end
  else
    r ← doExchangeAndCache key;
    match r with
    | Err execErr => serveStaleOrErr key execErr
    | Ok result => Ret (Ok result)
    end.

(** The function a flight of the singleflight group runs. *)
Definition flight_body (key : tokenCacheKey) : prog exchanger (result exch_error ExchangeResult) :=
  hit ← cache_hit key;
  match hit with
  | Some r => Ret r
  | None => exchange_or_stale key
  end.

(** ** Background work *)

Definition evictExpired (w : exchanger) : exchanger :=
  with_cache (filter (λ ke, evictable (xw_now w) ke.2 = false)) w.

Definition refresh_endpoint : string :=
  if decide (xc_ClientCredentialsEndpoint cfg = "") then xc_Issuer cfg +:+ "/oauth/token"
  else xc_ClientCredentialsEndpoint cfg.

Definition credentials_for : credentials_request :=
  {| cc_ClientID := xc_ClientID cfg; cc_ClientSecret := xc_ClientSecret cfg; cc_TokenURL := refresh_endpoint;
     cc_Scopes := clientCredentialsScopes (xc_ClientCredentialsScopes cfg) |}.

(** The assertion in a token response, by the configured type. *)
Definition assertion_of (token : oauth_token) : result exch_error string :=
  let missing name :=
    Err (operation_error OperationAssertionRefresh KindInvalidResponse DependencyOAuthProvider 200
           (ErrText ("client credentials response missing " +:+ name))) in
  if decide (xc_ClientAssertionType cfg = "id_token") then
    match ot_IDToken token with
    | Some idToken => if decide (idToken = "") then missing "id_token" else Ok idToken
    | None => missing "id_token"
    end
  else if decide (xc_ClientAssertionType cfg = "access_token") then
    if decide (ot_AccessToken token = "") then missing "access_token" else Ok (ot_AccessToken token)
  else Err (operation_error OperationAssertionRefresh KindConfiguration DependencyLocal 0
              (ErrText "invalid client assertion type")).

Definition refreshClientAssertion : prog exchanger (result exch_error unit) :=
  token ← act (λ w, let r := xp_Token (xw_now w) credentials_for (xw_outside w) in (with_outside r.1 w, r.2));
  match token with
  | Err err => Ret (Err (NewOperationError (assertionErrorMetadata err) err))
  | Ok token =>
      match assertion_of token with
      | Err err => Ret (Err err)
      | Ok assertion =>
          _ ← update (λ w, with_assertion (Some (Assertion assertion (xw_now w) (ot_Expiry token))) w);
          Ret (Ok ())
      end
  end.

(** The remaining lifetime below which the assertion is renewed. *)
Definition refresh_threshold (s : assertionState) : duration :=
  let lifetime := Sub (as_expiresAt s) (as_issuedAt s) in
  let lifetime := if IsZero (as_issuedAt s) || bool_decide (lifetime <= 0)%Z then 0%Z else lifetime in
  Z.max (Z.quot lifetime 5) (30 * second)%Z.

Definition refresh_due (now : time) (s : assertionState) : bool :=
  bool_decide (Sub (as_expiresAt s) now < refresh_threshold s)%Z.

Definition maybeRefreshAssertion : prog exchanger unit :=
  s ← read xw_assertion;
  match s with
  | None => Ret ()
  | Some s =>
      if IsZero (as_expiresAt s) then Ret ()
      else
        due ← read (λ w, refresh_due (xw_now w) s);
        if (due : bool) then _ ← refreshClientAssertion; Ret () else Ret ()
  end.

Definition evictInterval : duration := Z.max (Z.quot (xc_DefaultTTL cfg) 2) second.
Definition assertionInterval : duration := Z.min (Z.max (Z.quot (xc_DefaultTTL cfg) 2) second) (30 * second).

(** [client]: the error of building the HTTP client. *)
Definition NewTokenExchanger (client : option exch_error) : prog exchanger (result exch_error unit) :=
  match client with
  | Some err => Ret (Err (operation_error OperationConfiguration KindConfiguration DependencyLocal 0 err))
  | None => refreshClientAssertion
  end.

(** Closing a closed channel panics: [None]. *)
Definition Shutdown (w : exchanger) : option exchanger :=
  if xw_stopped w then None
  else Some (Exchanger _ (xw_cache w) (xw_assertion w) (xw_breaker w) (xw_now w) true (xw_outside w)).

(** ** Concurrent callers

    [Exchange] looks into the cache, then shares a flight of the singleflight group with
    the callers of the same group key.  golang.org/x/sync/singleflight runs a flight or
    lets the caller join one that has not ended; which of the two is left open. *)

Definition sfKey (key : tokenCacheKey) : string :=
  subjectToken key +:+ String Ascii.zero EmptyString +:+ resourceURI key.

Abbreviation answer := (result exch_error ExchangeResult).

Inductive caller_state :=
  | Looking (p : prog exchanger (option answer))
  | Waiting (flight : nat)
  | Answered (r : answer).

(** A flight, with the moment it began; a caller, with the moment its lookup, or the flight
    it shares, began. *)
Record flight := Flight { fl_key : tokenCacheKey; fl_since : time; fl_prog : prog exchanger answer }.
Record caller := Caller { ca_key : tokenCacheKey; ca_since : time; ca_state : caller_state }.

Record system := System {
  sy_world : exchanger;
  sy_flights : list flight;
  sy_callers : list caller;
  sy_background : prog exchanger unit;
}.

(** The caller's own context ends while it waits. *)
Definition abandoned (e : context_error) : answer :=
  Err (operation_error OperationExchange KindCallerCanceled DependencyLocal 0 (ErrContext e)).

(** The steps of the system; [evicting]: the eviction ticker runs. *)
Inductive exchange_step (evicting : bool) : system → system → Prop :=
  | step_clock w t fs cs b :
      (xw_now w <= t)%Z →
      exchange_step evicting (System w fs cs b) (System (with_now t w) fs cs b)
  | step_call w fs cs b key :
      exchange_step evicting (System w fs cs b) (System w fs (cs ++ [Caller key (xw_now w) (Looking (cache_hit key))]) b)
  | step_look w fs cs b i key s X (f : exchanger → exchanger * X) k :
      cs !! i = Some (Caller key s (Looking (Act f k))) →
      exchange_step evicting (System w fs cs b) (System (f w).1 fs (<[i := Caller key s (Looking (k (f w).2))]> cs) b)
  | step_hit w fs cs b i key s r :
      cs !! i = Some (Caller key s (Looking (Ret (Some r)))) →
      exchange_step evicting (System w fs cs b) (System w fs (<[i := Caller key s (Answered r)]> cs) b)
  | step_lead w fs cs b i key s :
      cs !! i = Some (Caller key s (Looking (Ret None))) →
      exchange_step evicting (System w fs cs b)
        (System w (fs ++ [Flight key (xw_now w) (flight_body key)]) (<[i := Caller key (xw_now w) (Waiting (length fs))]> cs) b)
  | step_join w fs cs b i key s j fl :
      cs !! i = Some (Caller key s (Looking (Ret None))) →
      fs !! j = Some fl → sfKey (fl_key fl) = sfKey key → (∀ r, fl_prog fl ≠ Ret r) →
      exchange_step evicting (System w fs cs b) (System w fs (<[i := Caller key (fl_since fl) (Waiting j)]> cs) b)
  | step_fly w fs cs b j key s X (f : exchanger → exchanger * X) k :
      fs !! j = Some (Flight key s (Act f k)) →
      exchange_step evicting (System w fs cs b) (System (f w).1 (<[j := Flight key s (k (f w).2)]> fs) cs b)
  | step_land w fs cs b i key s j key' s' r :
      cs !! i = Some (Caller key s (Waiting j)) → fs !! j = Some (Flight key' s' (Ret r)) →
      exchange_step evicting (System w fs cs b) (System w fs (<[i := Caller key s (Answered r)]> cs) b)
  | step_abandon w fs cs b i key s j e :
      cs !! i = Some (Caller key s (Waiting j)) →
      exchange_step evicting (System w fs cs b) (System w fs (<[i := Caller key s (Answered (abandoned e))]> cs) b)
  | step_evict w fs cs :
      evicting = true → xw_stopped w = false →
      exchange_step evicting (System w fs cs (Ret ())) (System (evictExpired w) fs cs (Ret ()))
  | step_refresh w fs cs :
      xw_stopped w = false →
      exchange_step evicting (System w fs cs (Ret ())) (System w fs cs maybeRefreshAssertion)
  | step_background w fs cs X (f : exchanger → exchanger * X) k :
      exchange_step evicting (System w fs cs (Act f k)) (System (f w).1 fs cs (k (f w).2))
  | step_stop w w' fs cs b :
      Shutdown w = Some w' →
      exchange_step evicting (System w fs cs b) (System w' fs cs b).

Definition no_callers (w : exchanger) : system := System w [] [] (Ret ()).

End exchanger.
