(* ===== verification/TokenExchangerFacts.v ===== *)
(** * Facts about the token exchanger

    The windows of [computeTTL], what a cache entry stands for, which answers [Exchange]
    gives in every interleaving, the life of a remembered rejection, the stale fallback,
    and eviction. *)

From S2P Require Import Prelude ExchangeErrors TokenExchanger.

(** ** Windows *)

Lemma wrap_below z : (0 <= z)%Z → (int64_wrap z <= z)%Z.
Proof. intros Hz. unfold int64_wrap. pose proof (Z.mod_le (z + 2 ^ 63) (2 ^ 64)). lia. Qed.

Lemma second_val : second = 1000000000%Z.
Proof. done. Qed.

(** Claim C38.  The window of a reported expiry: a cached token outlives neither the report nor the
    cap, also when the seconds overflow int64 as a duration, and it is served from the cache
    only up to a margin before the report. *)
Lemma computeTTL_reported cfg n :
  (0 < xc_MaxTTL cfg)%Z →
  let w := computeTTL cfg (Some n) in
  (0 < tl_lifetime w)%Z →
  (0 < n)%Z ∧ (tl_lifetime w <= Z.min (n * second) (xc_MaxTTL cfg))%Z ∧
  (0 <= tl_fresh w <= tl_lifetime w)%Z ∧
  (tl_fresh w <= n * second - Z.min (10 * second) (n * second / 2))%Z.
Proof.
  intros Hmax w. unfold w, computeTTL. destruct (bool_decide (n <= 0)%Z) eqn:Hn; breflect; simpl; [lia |].
  pose proof (wrap_below (n * second) ltac:(rewrite second_val; lia)) as Hle.
  set (L := int64_wrap (n * second)) in *. intros HL.
  pose proof (int64_wrap_range (n * second)) as Hrange. fold L in Hrange.
  assert (0 < L)%Z as HL0 by lia. unfold minExpiryMargin. rewrite !Z.quot_div_nonneg by lia.
  pose proof (Z.div_mod L 10 ltac:(lia)) as H10. pose proof (Z.mod_pos_bound L 10 ltac:(lia)).
  pose proof (Z.div_mod L 2 ltac:(lia)) as H2. pose proof (Z.mod_pos_bound L 2 ltac:(lia)).
  pose proof (Z.div_mod (n * second) 2 ltac:(lia)) as H3. pose proof (Z.mod_pos_bound (n * second) 2 ltac:(lia)).
  set (L2 := (L / 2)%Z) in *. set (L10 := (L / 10)%Z) in *. set (N2 := (n * second / 2)%Z) in *.
  rewrite (int64_wrap_id (L - Z.max (10 * second) L10))
    by (unfold int64_min, int64_max in *; rewrite second_val; lia).
  rewrite second_val in *. split_and!; lia.
Qed.

Lemma computeTTL_window cfg expires :
  (0 < xc_DefaultTTL cfg)%Z → (0 < xc_MaxTTL cfg)%Z → (0 < tl_lifetime (computeTTL cfg expires))%Z →
  (0 <= tl_fresh (computeTTL cfg expires) <= tl_lifetime (computeTTL cfg expires))%Z ∧
  (tl_lifetime (computeTTL cfg expires) <= xc_MaxTTL cfg)%Z.
Proof.
  intros Hd Hm. destruct expires as [n |].
  - intros HL. destruct (computeTTL_reported cfg n Hm HL) as (_ & ? & ? & _). lia.
  - simpl. lia.
Qed.

Lemma clone_sets_id s : cloneGrantedPermissionSets s = s.
Proof.
  unfold cloneGrantedPermissionSets. destruct s as [m |]; [| done]. simpl. f_equal.
  apply map_eq. intros k. rewrite lookup_fmap. by destruct (m !! k).
Qed.

Lemma Before_spec t u : Before t u = true ↔ (t < u)%Z.
Proof. unfold Before. by rewrite bool_decide_eq_true. Qed.

Lemma Before_false t u : Before t u = false ↔ (u <= t)%Z.
Proof. unfold Before. rewrite bool_decide_eq_false. lia. Qed.

(** The last occurrence of a separator splits a list. *)
Lemma separator_inj {A} (x : A) l l' r r' :
  x ∉ r → x ∉ r' → l ++ x :: r = l' ++ x :: r' → l = l' ∧ r = r'.
Proof.
  intros Hr Hr'. revert l'. induction l as [| c l IH]; intros [| c' l'] Heq; simpl in Heq.
  - by injection Heq.
  - injection Heq as _ Heq. destruct Hr. rewrite Heq. set_solver.
  - injection Heq as _ Heq. destruct Hr'. rewrite <-Heq. set_solver.
  - injection Heq as -> Heq. by destruct (IH l' Heq) as [-> ?].
Qed.

Section exchanger.
Context `{ProcessorPorts} (cfg : exchanger_config).

(** ** What the broker said *)

Definition result_of (tr : tokenExchangeResponse) : ExchangeResult :=
  XResult (tr_AccessToken tr) (tr_GrantedPermissionSets tr) (tr_Principal tr) (tr_AgentID tr).

(** At [t] the broker answered the exchange of exactly this subject token for exactly this
    resource with this result and expiry. *)
Definition broker_answer (key : tokenCacheKey) (res : ExchangeResult) (expires : option Z) (t : time) : Prop :=
  ∃ o assertion body tr,
    (xp_Do t (xc_TokenEndpoint cfg) (exchange_form key assertion) o).2 = Ok (ExchangeResponse 200 (Ok body)) ∧
    json_ExchangeResponse body = Ok tr ∧ tr_AccessToken tr ≠ "" ∧
    res = result_of tr ∧ expires = tr_ExpiresIn tr.

(** When an answer may be given for a key, at [t]: the broker gives it at that moment, or it
    gave it before and the fresh window is open, or the stale window is. *)
Inductive served (key : tokenCacheKey) (res : ExchangeResult) (t : time) : Prop :=
  | served_direct expires :
      broker_answer key res expires t → served key res t
  | served_fresh expires t0 stored :
      broker_answer key res expires t0 → (t0 <= stored <= t)%Z →
      (t <= stored + tl_fresh (computeTTL cfg expires))%Z → served key res t
  | served_stale expires t0 stored :
      broker_answer key res expires t0 → (t0 <= stored <= t)%Z →
      (t < stored + Z.min (int64_wrap (tl_lifetime (computeTTL cfg expires) + reAuthCooldownTTL)) (xc_MaxTTL cfg))%Z →
      served key res t.

(** A cache entry: a remembered rejection, or an answer of the broker for its key with the
    windows of the moment it was stored. *)
Definition entry_ok (now : time) (key : tokenCacheKey) (e : cachedToken) : Prop :=
  match ct_reAuthErr e with
  | Some err => reauth_rejection err = true ∧ ct_accessToken e = "" ∧ ct_staleUntil e = zero_time ∧
                (ct_expiresAt e <= now + reAuthCooldownTTL)%Z
  | None => ∃ expires t0 stored,
      broker_answer key (entry_result e) expires t0 ∧ (t0 <= stored <= now)%Z ∧
      (0 < tl_lifetime (computeTTL cfg expires))%Z ∧
      ct_expiresAt e = (stored + tl_fresh (computeTTL cfg expires))%Z ∧
      ct_staleUntil e = (stored + Z.min (int64_wrap (tl_lifetime (computeTTL cfg expires) + reAuthCooldownTTL))
                                    (xc_MaxTTL cfg))%Z
  end.

Definition cache_ok (w : exchanger) : Prop :=
  map_Forall (entry_ok (xw_now w)) (xw_cache w).

(** Every step keeps the entries honest and never turns the clock back. *)
Definition honest (w w' : exchanger) : Prop :=
  (xw_now w <= xw_now w')%Z ∧ (cache_ok w → cache_ok w').

Lemma entry_ok_later now now' key e : (now <= now')%Z → entry_ok now key e → entry_ok now' key e.
Proof.
  intros Hle. unfold entry_ok. destruct (ct_reAuthErr e).
  - intros (? & ? & ? & ?). split_and!; try done. lia.
  - intros (expires & t0 & stored & ? & ? & ?). exists expires, t0, stored. split_and!; try done; lia.
Qed.

Lemma honest_same w w' : xw_now w' = xw_now w → xw_cache w' = xw_cache w → honest w w'.
Proof. unfold honest, cache_ok. intros -> ->. split; [lia | done]. Qed.

Lemma honest_rtc w w' : rtc honest w w' → honest w w'.
Proof.
  induction 1 as [w | w w1 w2 [H1 H2] _ [IH1 IH2]]; [by apply honest_same |]. split; [lia | auto].
Qed.

Lemma honest_clock t w : (xw_now w <= t)%Z → honest w (with_now t w).
Proof.
  intros Ht. split; [done |]. intros Hok key e He. simpl in *. eapply entry_ok_later; [exact Ht |]. by apply Hok.
Qed.

Lemma honest_delete key w : honest w (with_cache (delete key) w).
Proof. split; [done |]. intros Hok. simpl. by apply map_Forall_delete. Qed.

Lemma honest_insert key e w : entry_ok (xw_now w) key e → honest w (with_cache <[key := e]> w).
Proof. intros He. split; [done |]. intros Hok. by apply map_Forall_insert_2. Qed.

Lemma honest_evict w : honest w (evictExpired w).
Proof. split; [done |]. intros Hok key e [He _]%map_lookup_filter_Some. by apply Hok. Qed.

Lemma success_entry_ok w key res expires t0 :
  broker_answer key res expires t0 → (t0 <= xw_now w)%Z → (0 < tl_lifetime (computeTTL cfg expires))%Z →
  entry_ok (xw_now w) key (success_entry cfg (xw_now w) res (computeTTL cfg expires)).
Proof.
  intros Hans Ht HL. exists expires, t0, (xw_now w). unfold entry_result, success_entry; simpl.
  rewrite !clone_sets_id. split_and!; try done; try lia.
  - by destruct res.
  - destruct (Before _ _) eqn:E; [apply Before_spec in E | apply Before_false in E]; lia.
Qed.

Lemma reauth_entry_ok w key err :
  reauth_rejection err = true → entry_ok (xw_now w) key (reauth_entry (xw_now w) err).
Proof. done. Qed.

(** ** Reading the cache *)

Definition since_served (since : time) (key : tokenCacheKey) (res : ExchangeResult) (w : exchanger) : Prop :=
  ∃ t, (since <= t <= xw_now w)%Z ∧ served key res t.

(** The guarantee of a flight and of a lookup for [key] that began at [since]. *)
Definition own_answer (since : time) (key : tokenCacheKey) (r : result exch_error ExchangeResult) (w : exchanger) : Prop :=
  match r with Ok res => since_served since key res w | Err _ => True end.

Lemma own_answer_later since key r w w' : rtc honest w w' → own_answer since key r w → own_answer since key r w'.
Proof.
  intros [Hle _]%honest_rtc. destruct r as [res |]; [| done]. intros (t & ? & ?). exists t. split; [lia | done].
Qed.

Lemma fresh_entry_served w key e since :
  entry_ok (xw_now w) key e → isExpired (xw_now w) e = false → (since <= xw_now w)%Z →
  own_answer since key (entry_answer e) w.
Proof.
  intros Hok Hexp Hs. unfold entry_answer, entry_ok in *. destruct (ct_reAuthErr e); [done |].
  destruct Hok as (expires & t0 & stored & Hans & Ht & HL & Hfresh & _).
  apply After_false in Hexp. exists (xw_now w). split; [lia |].
  apply (served_fresh _ _ _ expires t0 stored); [exact Hans | lia | lia].
Qed.

Lemma stale_entry_served w key e since :
  cache_ok w → stale_entry key w = Some e → (since <= xw_now w)%Z →
  own_answer since key (Ok (entry_result e)) w.
Proof.
  unfold stale_entry. destruct (xw_cache w !! key) as [e' |] eqn:He; [| done].
  destruct (negb _ && _) eqn:Hb; [| done]. intros Hok [= ->] Hs. breflect.
  match goal with Hb : Before _ _ = true |- _ => apply Before_spec in Hb as Hbef end.
  specialize (Hok _ _ He). unfold entry_ok in Hok. destruct (ct_reAuthErr e).
  { by destruct Hok as (_ & ? & _). }
  destruct Hok as (expires & t0 & stored & Hans & Ht & HL & _ & Hstale).
  exists (xw_now w). split; [lia |]. apply (served_stale _ _ _ expires t0 stored); [exact Hans | lia | lia].
Qed.

(** ** Every action is honest *)

Abbreviation hrg := (rg honest honest).

Lemma xrg_act {X B} (f : exchanger → exchanger * X) (g : X → prog exchanger B) Q w :
  (∀ w1, rtc honest w w1 → honest w1 (f w1).1 ∧ hrg Q (g (f w1).2) (f w1).1) →
  hrg Q (pbind (act f) g) w.
Proof. done. Qed.

Lemma xrg_read {X B} (f : exchanger → X) (g : X → prog exchanger B) Q w :
  (∀ w1, rtc honest w w1 → hrg Q (g (f w1)) w1) → hrg Q (pbind (read f) g) w.
Proof. intros Hg. apply xrg_act. intros w1 Hw1. split; [by apply honest_same |]. by apply Hg. Qed.

Lemma xrg_ret {A} (Q : A → exchanger → Prop) a w :
  (∀ w1, rtc honest w w1 → Q a w1) → hrg Q (Ret a) w.
Proof. done. Qed.

Lemma ok_later w w' : rtc honest w w' → cache_ok w → cache_ok w'.
Proof. by intros [_ ?]%honest_rtc. Qed.

Lemma now_later w w' : rtc honest w w' → (xw_now w <= xw_now w')%Z.
Proof. by intros [? _]%honest_rtc. Qed.

Lemma hrg_error since key (err : exch_error) w :
  hrg (own_answer since key) (Ret (Err err)) w.
Proof. by intros w1 _. Qed.

(** A lookup gives an answer that may be given, or none. *)
Lemma cache_hit_own key w :
  cache_ok w →
  hrg (λ o w', match o with Some r => own_answer (xw_now w) key r w' | None => True end) (cache_hit key) w.
Proof.
  intros Hok. apply xrg_read. intros w1 Hw1.
  pose proof (ok_later _ _ Hw1 Hok) as Hok1. pose proof (now_later _ _ Hw1).
  destruct (xw_cache w1 !! key) as [e |] eqn:He; [| by apply xrg_ret].
  destruct (isExpired (xw_now w1) e) eqn:Hexp; [by apply xrg_ret |].
  apply xrg_read. intros w2 Hw2. apply xrg_ret. intros w3 Hw3.
  destruct (isAssertionExpired _ _); [done |].
  apply (own_answer_later _ _ _ w1); [by etrans |]. by apply fresh_entry_served; [apply Hok1 | |].
Qed.

(** ** The exchange *)

Definition from_broker (since : time) (key : tokenCacheKey) (r : result exch_error (ExchangeResult * tokenLifetimes))
    (w : exchanger) : Prop :=
  match r with
  | Ok (res, window) => ∃ expires t0,
      (since <= t0 <= xw_now w)%Z ∧ broker_answer key res expires t0 ∧ window = computeTTL cfg expires
  | Err _ => True
  end.

Lemma exchange_answer_ok key assertion o t r res window :
  (xp_Do t (xc_TokenEndpoint cfg) (exchange_form key assertion) o).2 = Ok r →
  exchange_answer cfg r = Ok (res, window) →
  ∃ expires, broker_answer key res expires t ∧ window = computeTTL cfg expires.
Proof.
  intros Hdo. unfold exchange_answer. destruct r as [status [body | err]]; simpl in *; [| done].
  destruct (bool_decide (status = 200)%Z) eqn:Hst; simpl; [| done]. breflect. subst.
  destruct (json_ExchangeResponse body) as [tr |] eqn:Hj; [| done].
  case_decide; [done |]. intros [= <- <-]. exists (tr_ExpiresIn tr). split; [| done].
  exists o, assertion, body, tr. rewrite clone_sets_id. by split_and!.
Qed.

Lemma doExchange_own key w : hrg (from_broker (xw_now w) key) (doExchange cfg key) w.
Proof.
  apply xrg_read. intros w1 Hw1. destruct (current_assertion w1) as [assertion | err]; [| by apply xrg_ret].
  destruct (xp_NewRequest _); [by apply xrg_ret |]. apply xrg_act. intros w2 Hw2. split; [by apply honest_same |].
  cbn [fst snd]. destruct (xp_Do _ _ _ _).2 as [r | err] eqn:Hdo; [| by apply xrg_ret]. apply xrg_ret. intros w3 Hw3.
  unfold from_broker. destruct (exchange_answer cfg r) as [[res window] |] eqn:Hans; [| done].
  destruct (exchange_answer_ok _ _ _ _ _ _ _ Hdo Hans) as (expires & Hb & ->).
  apply now_later in Hw1, Hw2, Hw3. simpl in Hw3. exists expires, (xw_now w2). split_and!; [lia | lia | done | done].
Qed.

Lemma own_direct since key res expires t0 w :
  broker_answer key res expires t0 → (since <= t0 <= xw_now w)%Z → own_answer since key (Ok res) w.
Proof. intros Hb Ht. exists t0. split; [done |]. by eapply served_direct. Qed.

Lemma doExchangeAndCache_own key w :
  hrg (own_answer (xw_now w) key) (doExchangeAndCache cfg key) w.
Proof.
  eapply rg_pbind; [apply doExchange_own |]. intros [[res window] | err] w1 Hq; simpl in Hq.
  - destruct Hq as (expires & t0 & Ht & Hb & ->).
    destruct (bool_decide _) eqn:HL; breflect.
    + apply xrg_act. intros w2 Hw2. split; [apply honest_delete |]. apply xrg_ret. intros w3 Hw3.
      apply now_later in Hw2, Hw3. simpl in Hw3. eapply own_direct; [exact Hb | lia].
    + apply xrg_act. intros w2 Hw2. apply now_later in Hw2. split.
      * apply honest_insert. eapply success_entry_ok; [exact Hb | lia | lia].
      * apply xrg_ret. intros w3 Hw3. apply now_later in Hw3. simpl in Hw3. rewrite clone_sets_id.
        eapply own_direct; [| instantiate (1 := t0); lia]. by destruct res.
  - destruct (reauth_rejection err) eqn:Hr; [| by apply xrg_ret].
    apply xrg_act. intros w2 Hw2. split; [by apply honest_insert, reauth_entry_ok |]. by apply xrg_ret.
Qed.

Lemma Execute_own since key (body : prog exchanger (result exch_error ExchangeResult)) w :
  (∀ w1, rtc honest w w1 → hrg (own_answer since key) body w1) →
  hrg (own_answer since key) (Execute cfg body) w.
Proof.
  intros Hb. apply xrg_act. intros w1 Hw1. split; [by apply honest_same |].
  cbn [fst snd]. destruct (breaker_Before _ _ _).2 as [g | err]; [| by apply xrg_ret].
  eapply rg_pbind; [apply Hb; eapply rtc_r; [exact Hw1 | by apply honest_same] |]. intros r w2 Hr.
  apply xrg_act. intros w3 Hw3. split; [by apply honest_same |]. apply xrg_ret. intros w4 Hw4.
  cbn [fst] in Hw4. eapply own_answer_later; [| exact Hr]. etrans; [exact Hw3 |].
  eapply rtc_l; [| exact Hw4]. by apply honest_same.
Qed.

Lemma serveStaleOrErr_own since key err w :
  cache_ok w → (since <= xw_now w)%Z → hrg (own_answer since key) (serveStaleOrErr key err) w.
Proof.
  intros Hok Hs. unfold serveStaleOrErr. destruct (isTransientBrokerError err); [| by apply xrg_ret].
  apply xrg_read. intros w1 Hw1. destruct (isAssertionExpired _ _); [by apply xrg_ret |].
  apply xrg_read. intros w2 Hw2. apply xrg_ret. intros w3 Hw3.
  destruct (stale_entry key w2) as [e |] eqn:He; [| done].
  eapply own_answer_later; [exact Hw3 |].
  assert (rtc honest w w2) as Hw by (by etrans).
  apply stale_entry_served; [by eapply ok_later | done |]. apply now_later in Hw. lia.
Qed.

Lemma exchange_or_stale_own key w :
  cache_ok w → hrg (own_answer (xw_now w) key) (exchange_or_stale cfg key) w.
Proof.
  intros Hok. unfold exchange_or_stale.
  assert (∀ body fix_err, hrg (own_answer (xw_now w) key) body w →
    hrg (own_answer (xw_now w) key)
      (pbind body (λ r, match r with Ok res => Ret (Ok res) | Err e => serveStaleOrErr key (fix_err e) end)) w) as Hthen.
  { intros body fix_err Hb.
    eapply (rg_pbind _ _ (λ r w1, own_answer (xw_now w) key r w1 ∧ rtc honest w w1)); [by apply rg_reached |].
    intros [res | err] w1 [Hr Hw1].
    - apply xrg_ret. intros w2 Hw2. by eapply own_answer_later.
    - apply serveStaleOrErr_own; [by eapply ok_later | by apply now_later]. }
  destruct (xc_BreakerEnabled cfg); apply Hthen; [| apply doExchangeAndCache_own].
  apply Execute_own. intros w1 Hw1. eapply rg_impl; [| apply doExchangeAndCache_own].
  intros [res |] w2; [| done]. intros (t & Ht & Hserved). apply now_later in Hw1. exists t. split; [lia | done].
Qed.

Lemma flight_own key w : cache_ok w → hrg (own_answer (xw_now w) key) (flight_body cfg key) w.
Proof.
  intros Hok.
  eapply (rg_pbind _ _ (λ o w1, match o with Some r => own_answer (xw_now w) key r w1 | None => True end ∧ rtc honest w w1));
    [by apply rg_reached, cache_hit_own |].
  intros [r |] w1 [Hr Hw1].
  - apply xrg_ret. intros w2 Hw2. by eapply own_answer_later.
  - eapply rg_impl; [| apply exchange_or_stale_own; by eapply ok_later].
    intros [res |] w2; [| done]. intros (t & Ht & Hserved). apply now_later in Hw1. exists t. split; [lia | done].
Qed.

Lemma refresh_honest w : hrg (λ _ _, True) (refreshClientAssertion cfg) w.
Proof.
  apply xrg_act. intros w1 _. split; [by apply honest_same |]. cbn [fst snd].
  destruct (xp_Token _ _ _).2 as [token | err]; [| by apply xrg_ret].
  destruct (assertion_of cfg token); [| by apply xrg_ret].
  apply xrg_act. intros w2 _. split; [by apply honest_same | by apply xrg_ret].
Qed.

Lemma maybeRefresh_honest w : hrg (λ _ _, True) (maybeRefreshAssertion cfg) w.
Proof.
  apply xrg_read. intros w1 _. destruct (xw_assertion w1) as [s |]; [| by apply xrg_ret].
  destruct (IsZero _); [by apply xrg_ret |]. apply xrg_read. intros w2 _.
  destruct (refresh_due _ _); [| by apply xrg_ret]. eapply rg_pbind; [apply refresh_honest |].
  intros r w3 _. by apply xrg_ret.
Qed.

(** ** Interleavings *)

Definition clean (key : tokenCacheKey) : Prop := Ascii.zero ∉ bytes (resourceURI key).

(** The group key separates subject and resource by a zero byte, which a resource that
    net/url parses cannot hold. *)
Lemma sfKey_inj key key' : clean key → clean key' → sfKey key = sfKey key' → key = key'.
Proof.
  destruct key as [s r], key' as [s' r']. unfold clean, sfKey; simpl. intros Hr Hr' Heq.
  apply (f_equal bytes) in Heq. rewrite !bytes_app in Heq. apply separator_inj in Heq as [Hs Hres]; [| done..].
  f_equal; by apply (inj bytes).
Qed.

Definition flight_ok (w : exchanger) (fl : flight) : Prop :=
  clean (fl_key fl) ∧ hrg (own_answer (fl_since fl) (fl_key fl)) (fl_prog fl) w.

Definition caller_ok (w : exchanger) (fs : list flight) (c : caller) : Prop :=
  clean (ca_key c) ∧
  match ca_state c with
  | Looking p => hrg (λ o w', match o with Some r => own_answer (ca_since c) (ca_key c) r w' | None => True end) p w
  | Waiting j => ∃ fl, fs !! j = Some fl ∧ fl_key fl = ca_key c ∧ fl_since fl = ca_since c
  | Answered r => own_answer (ca_since c) (ca_key c) r w
  end.

Record system_ok (s : system) : Prop := SystemOk {
  so_cache : cache_ok (sy_world s);
  so_flights : Forall (flight_ok (sy_world s)) (sy_flights s);
  so_callers : Forall (caller_ok (sy_world s) (sy_flights s)) (sy_callers s);
  so_background : hrg (λ _ _, True) (sy_background s) (sy_world s);
}.

(** A resource reaches the exchanger through [validateResourceURI]. *)
Definition clean_step (s s' : system) : Prop :=
  exchange_step cfg true s s' ∧ Forall (λ c, clean (ca_key c)) (sy_callers s').

Lemma flight_ok_later w w' fl : honest w w' → flight_ok w fl → flight_ok w' fl.
Proof. intros Hw [? ?]. split; [done |]. eapply rg_rely; [by apply rtc_once | done]. Qed.

(** Flights only advance: the index, key and beginning of a flight stay. *)
Definition flights_kept (fs fs' : list flight) : Prop :=
  ∀ j fl, fs !! j = Some fl → ∃ fl', fs' !! j = Some fl' ∧ fl_key fl' = fl_key fl ∧ fl_since fl' = fl_since fl.

Lemma caller_ok_later w w' fs fs' c : honest w w' → flights_kept fs fs' → caller_ok w fs c → caller_ok w' fs' c.
Proof.
  intros Hw Hfs [Hc Hst]. split; [done |]. destruct (ca_state c) as [p | j | r].
  - eapply rg_rely; [by apply rtc_once | done].
  - destruct Hst as (fl & Hj & Hk & Hs). destruct (Hfs _ _ Hj) as (fl' & Hj' & Hk' & Hs'). exists fl'. split_and!; congruence.
  - eapply own_answer_later; [by apply rtc_once | done].
Qed.

Lemma flights_kept_refl fs : flights_kept fs fs.
Proof. intros j fl Hj. by exists fl. Qed.

(** A step of the world alone. *)
Lemma system_ok_world w w' fs cs b :
  honest w w' → system_ok (System w fs cs b) → system_ok (System w' fs cs b).
Proof.
  intros Hw [Hc Hf Hca Hb]. simpl in *. split; simpl.
  - by apply Hw.
  - eapply Forall_impl; [exact Hf |]. intros fl. by apply flight_ok_later.
  - eapply Forall_impl; [exact Hca |]. intros c. by apply caller_ok_later, flights_kept_refl.
  - eapply rg_rely; [by apply rtc_once | done].
Qed.

Lemma system_ok_callers w fs fs' cs b i c :
  flights_kept fs fs' → Forall (flight_ok w) fs' → caller_ok w fs' c →
  system_ok (System w fs cs b) → system_ok (System w fs' (<[i := c]> cs) b).
Proof.
  intros Hk Hf Hc [Hok _ Hca Hb]. simpl in *. split; simpl; [done | done | | done].
  apply Forall_insert; [| done]. eapply Forall_impl; [exact Hca |]. intros c'. apply caller_ok_later; [by apply honest_same | done].
Qed.

Lemma flights_kept_app fs fl : flights_kept fs (fs ++ [fl]).
Proof. intros j f Hj. exists f. split_and!; [by apply lookup_app_l_Some | done | done]. Qed.

Lemma flights_kept_insert fs j fl p :
  fs !! j = Some fl → flights_kept fs (<[j := Flight (fl_key fl) (fl_since fl) p]> fs).
Proof.
  intros Hj j' fl' Hj'. destruct (decide (j = j')) as [<- | Hne].
  - exists (Flight (fl_key fl) (fl_since fl) p). rewrite list_lookup_insert_eq by (by eapply lookup_lt_Some). by simplify_eq.
  - exists fl'. by rewrite list_lookup_insert_ne.
Qed.

(** One action of a program the system runs. *)
Lemma hrg_step {X A} (f : exchanger → exchanger * X) k (Q : A → exchanger → Prop) w :
  hrg Q (Act f k) w → honest w (f w).1 ∧ hrg Q (k (f w).2) (f w).1.
Proof. intros Hp. by apply Hp. Qed.

Lemma fly_ok w fs cs b j key s X (f : exchanger → exchanger * X) k :
  fs !! j = Some (Flight key s (Act f k)) → system_ok (System w fs cs b) →
  system_ok (System (f w).1 (<[j := Flight key s (k (f w).2)]> fs) cs b).
Proof.
  intros Hj Hok. pose proof (so_flights _ Hok) as Hf. simpl in Hf.
  destruct (Forall_lookup_1 _ _ _ _ Hf Hj) as [Hc [Hw Hk]%hrg_step]. simpl in *.
  destruct (system_ok_world _ _ _ _ _ Hw Hok) as [H1 H2 H3 H4]. simpl in *. split; simpl; [done | | | done].
  - by apply Forall_insert.
  - eapply Forall_impl; [exact H3 |]. intros c. apply caller_ok_later; [by apply honest_same |].
    exact (flights_kept_insert _ _ _ (k (f w).2) Hj).
Qed.

Lemma look_ok w fs cs b i key s X (f : exchanger → exchanger * X) k :
  cs !! i = Some (Caller key s (Looking (Act f k))) → system_ok (System w fs cs b) →
  system_ok (System (f w).1 fs (<[i := Caller key s (Looking (k (f w).2))]> cs) b).
Proof.
  intros Hi Hok. pose proof (so_callers _ Hok) as Hca. simpl in Hca.
  destruct (Forall_lookup_1 _ _ _ _ Hca Hi) as [Hc [Hw Hk]%hrg_step]. simpl in *.
  pose proof (system_ok_world _ _ _ _ _ Hw Hok) as Hok'.
  apply (system_ok_callers _ fs); [apply flights_kept_refl | apply Hok' | by split | done].
Qed.

Lemma join_ok w fs cs b i key s j fl :
  cs !! i = Some (Caller key s (Looking (Ret None))) →
  fs !! j = Some fl → sfKey (fl_key fl) = sfKey key → system_ok (System w fs cs b) →
  system_ok (System w fs (<[i := Caller key (fl_since fl) (Waiting j)]> cs) b).
Proof.
  intros Hi Hj Hkey Hok. pose proof Hok as [_ Hf Hca _]. simpl in *.
  destruct (Forall_lookup_1 _ _ _ _ Hca Hi) as [Hc _]. destruct (Forall_lookup_1 _ _ _ _ Hf Hj) as [Hc' _].
  apply (system_ok_callers _ fs); [apply flights_kept_refl | done | | done].
  split; [done |]. exists fl. split_and!; [done | by apply sfKey_inj | done].
Qed.

Lemma lead_ok w fs cs b i key s :
  cs !! i = Some (Caller key s (Looking (Ret None))) → system_ok (System w fs cs b) →
  system_ok (System w (fs ++ [Flight key (xw_now w) (flight_body cfg key)])
               (<[i := Caller key (xw_now w) (Waiting (length fs))]> cs) b).
Proof.
  intros Hi Hok. pose proof Hok as [Hcache Hf Hca _]. simpl in *.
  destruct (Forall_lookup_1 _ _ _ _ Hca Hi) as [Hc _]. simpl in Hc.
  apply (system_ok_callers _ fs); [apply flights_kept_app | | | done].
  - apply Forall_app. split; [done |]. constructor; [| done]. split; [done | by apply flight_own].
  - split; [done |]. simpl. eexists. split; [by apply list_lookup_middle | done].
Qed.

Lemma answer_ok w fs cs b i key s r :
  clean key → own_answer s key r w → system_ok (System w fs cs b) →
  system_ok (System w fs (<[i := Caller key s (Answered r)]> cs) b).
Proof.
  intros Hc Hr Hok. apply (system_ok_callers _ fs); [apply flights_kept_refl | apply Hok | by split | done].
Qed.

Lemma clean_step_ok s s' : clean_step s s' → system_ok s → system_ok s'.
Proof.
  intros [Hstep Hclean] Hok. pose proof Hok as [Hcache Hf Hca Hb].
  destruct Hstep; simpl in *;
    try match goal with Hi : _ !! _ = Some (Caller _ _ _) |- _ =>
      pose proof (Forall_lookup_1 _ _ _ _ Hca Hi) as [Hcl Hst]; simpl in Hcl, Hst end.
  - eapply system_ok_world; [by apply honest_clock | done].
  - split; simpl; [done | done | | done]. apply Forall_app. split; [done |]. constructor; [| done].
    apply Forall_app in Hclean as [_ [Hcl _]%Forall_cons]. split; [done | by apply cache_hit_own].
  - by apply look_ok.
  - apply answer_ok; [done | by apply (Hst w) | done].
  - by eapply lead_ok.
  - by eapply join_ok.
  - by apply fly_ok.
  - destruct Hst as (fl & Hj & <- & <-).
    match goal with Hj' : _ !! _ = Some (Flight _ _ (Ret _)) |- _ => rewrite Hj' in Hj end. simplify_eq/=.
    apply answer_ok; [done | | done].
    match goal with Hj' : _ !! _ = Some (Flight _ _ (Ret _)) |- _ => destruct (Forall_lookup_1 _ _ _ _ Hf Hj') as [_ Hfl] end.
    by apply (Hfl w).
  - by apply answer_ok.
  - eapply system_ok_world; [apply honest_evict | done].
  - split; simpl; [done | done | done | apply maybeRefresh_honest].
  - apply hrg_step in Hb as [Hw Hk]. destruct (system_ok_world _ _ _ _ _ Hw Hok). split; [done | done | done |]. exact Hk.
  - unfold Shutdown in *. destruct (xw_stopped w); simplify_eq. apply (system_ok_world w); [by apply honest_same | done].
Qed.

Lemma reachable_ok w s : xw_cache w = ∅ → rtc clean_step (no_callers w) s → system_ok s.
Proof.
  intros Hw Hs. assert (system_ok (no_callers w)) as H0.
  { split; simpl; [| done | done | by intros w1 _]. intros k e. by rewrite Hw. }
  revert H0. induction Hs as [s | s s1 s2 Hstep _ IH]; [done |]. intros H0. apply IH. by eapply clean_step_ok.
Qed.

(** Claim C4.  However calls of [Exchange], flights, evictions, assertion refreshes and the
    clock interleave, a token given to a caller is one the broker issued for exactly the
    subject token and resource of that caller: at a moment not before the caller's lookup
    (or the flight it shares) began the broker gave that answer, or it had given it before
    and the fresh window or the stale window of that answer was open. *)
Theorem exchanged_token_is_own w s i key since res :
  xw_cache w = ∅ → rtc clean_step (no_callers w) s →
  sy_callers s !! i = Some (Caller key since (Answered (Ok res))) →
  ∃ t, (since <= t <= xw_now (sy_world s))%Z ∧ served key res t.
Proof.
  intros Hw Hs Hi. pose proof (so_callers _ (reachable_ok _ _ Hw Hs)) as Hca.
  by destruct (Forall_lookup_1 _ _ _ _ Hca Hi) as [_ ?].
Qed.

(** ** Eviction

    Two exchangers agree when they differ only in entries that nobody can be served from
    any more. *)

Definition live (now : time) (o : option cachedToken) : option cachedToken :=
  e ← o; if evictable now e then None else Some e.

Record agree (w w' : exchanger) : Prop := Agree {
  ag_clock : (0 <= xw_now w)%Z;
  ag_now : xw_now w' = xw_now w;
  ag_assertion : xw_assertion w' = xw_assertion w;
  ag_breaker : xw_breaker w' = xw_breaker w;
  ag_stopped : xw_stopped w' = xw_stopped w;
  ag_outside : xw_outside w' = xw_outside w;
  ag_cache : ∀ key, live (xw_now w) (xw_cache w' !! key) = live (xw_now w) (xw_cache w !! key);
}.

Lemma evictable_later now now' e : (now <= now')%Z → evictable now e = true → evictable now' e = true.
Proof.
  unfold evictable, isExpired. intros Hle [H1 H2]%andb_true_iff. apply After_spec in H1.
  apply andb_true_iff. split; [apply After_spec; lia |].
  apply orb_true_iff in H2 as [-> | H2]; [done |]. apply Before_spec in H2.
  apply orb_true_iff. right. apply Before_spec. lia.
Qed.

Lemma live_later now now' o : (now <= now')%Z → live now' o = live now' (live now o).
Proof.
  intros Hle. destruct o as [e |]; [| done]. simpl. destruct (evictable now e) eqn:E; [| done].
  by rewrite (evictable_later _ _ _ Hle E).
Qed.

Lemma agree_evict w : (0 <= xw_now w)%Z → agree w (evictExpired w).
Proof.
  intros Hw. split; try done. intros key. simpl. destruct (xw_cache w !! key) as [e |] eqn:He.
  - rewrite map_lookup_filter, He. simpl. destruct (evictable (xw_now w) e) eqn:E; simpl; [done |]. by rewrite E.
  - by rewrite map_lookup_filter, He.
Qed.

Lemma agree_clock t w w' : (xw_now w <= t)%Z → agree w w' → agree (with_now t w) (with_now t w').
Proof.
  intros Ht [Hc Hn ? ? ? ? Hl]. split; try done; simpl; [lia |]. intros key.
  rewrite (live_later (xw_now w) t (xw_cache w' !! key)), (live_later (xw_now w) t (xw_cache w !! key)) by done.
  by rewrite Hl.
Qed.

Lemma agree_insert key e w w' :
  agree w w' → agree (with_cache <[key := e]> w) (with_cache <[key := e]> w').
Proof.
  intros [? ? ? ? ? ? Hl]. split; try done. intros key'. simpl. destruct (decide (key = key')) as [<- | Hne].
  - by rewrite !lookup_insert_eq.
  - by rewrite !lookup_insert_ne.
Qed.

Lemma agree_delete key w w' : agree w w' → agree (with_cache (delete key) w) (with_cache (delete key) w').
Proof.
  intros [? ? ? ? ? ? Hl]. split; try done. intros key'. simpl. destruct (decide (key = key')) as [<- | Hne].
  - by rewrite !lookup_delete_eq.
  - by rewrite !lookup_delete_ne.
Qed.

(** A program that cannot tell agreeing exchangers apart. *)
Fixpoint oblivious {A} (p : prog exchanger A) : Prop :=
  match p with
  | Ret _ => True
  | Act f k => (∀ w w', agree w w' → (f w').2 = (f w).2 ∧ agree (f w).1 (f w').1) ∧ (∀ x, oblivious (k x))
  end.

Lemma oblivious_pbind {A B} (p : prog exchanger A) (g : A → prog exchanger B) :
  oblivious p → (∀ a, oblivious (g a)) → oblivious (pbind p g).
Proof. intros Hp Hg. induction p as [a | X f k IH]; simpl in *; [apply Hg |]. destruct Hp. split; auto. Qed.

Lemma oblivious_read {X} (f : exchanger → X) : (∀ w w', agree w w' → f w' = f w) → oblivious (read f).
Proof. intros Hf. split; [| done]. intros w w' Hw. split; [by apply Hf | done]. Qed.

Lemma oblivious_update f : (∀ w w', agree w w' → agree (f w) (f w')) → oblivious (update f).
Proof. intros Hf. split; [| done]. intros w w' Hw. split; [done | by apply Hf]. Qed.

(** Both readings of an entry pass through [live]. *)
Lemma fresh_live now o :
  match live now o with Some e => if isExpired now e then None else Some e | None => None end =
  match o with Some e => if isExpired now e then None else Some e | None => None end.
Proof.
  destruct o as [e |]; [| done]. simpl. unfold evictable.
  destruct (isExpired now e) eqn:E; simpl; [| by rewrite E]. destruct (_ || _); [done |]. by rewrite E.
Qed.

Lemma agree_fresh key w w' :
  agree w w' →
  match xw_cache w' !! key with Some e => if isExpired (xw_now w') e then None else Some e | None => None end =
  match xw_cache w !! key with Some e => if isExpired (xw_now w) e then None else Some e | None => None end.
Proof. intros [_ -> _ _ _ _ Hl]. by rewrite <-fresh_live, Hl, fresh_live. Qed.

Lemma stale_open now e : (0 <= now)%Z → Before now (ct_staleUntil e) = true → evictable now e = false.
Proof.
  intros Hn Hb%Before_spec. unfold evictable. apply andb_false_iff. right.
  apply orb_false_iff. split; [| apply Before_false; lia].
  unfold IsZero, zero_time. apply bool_decide_eq_false_2. lia.
Qed.

Definition open_stale (now : time) (o : option cachedToken) : option cachedToken :=
  match o with
  | Some e => if negb (bool_decide (ct_accessToken e = "")) && Before now (ct_staleUntil e) then Some e else None
  | None => None
  end.

Lemma stale_live now o : (0 <= now)%Z → open_stale now (live now o) = open_stale now o.
Proof.
  intros Hn. destruct o as [e |]; [| done]. simpl. destruct (evictable now e) eqn:E; [| done]. simpl.
  destruct (Before now _) eqn:Hb; [by rewrite (stale_open _ _ Hn Hb) in E | by rewrite andb_false_r].
Qed.

Lemma agree_stale key w w' : agree w w' → stale_entry key w' = stale_entry key w.
Proof.
  intros [Hc Hn _ _ _ _ Hl]. change (open_stale (xw_now w') (xw_cache w' !! key) = open_stale (xw_now w) (xw_cache w !! key)).
  by rewrite Hn, <-stale_live, Hl, stale_live.
Qed.

Lemma agree_same w w' o : agree w w' → agree (with_outside o w) (with_outside o w').
Proof. by intros []. Qed.

Lemma agree_breaker b w w' : agree w w' → agree (with_breaker b w) (with_breaker b w').
Proof. by intros []. Qed.

Lemma agree_assertion a w w' : agree w w' → agree (with_assertion a w) (with_assertion a w').
Proof. by intros []. Qed.

Lemma oblivious_expired : oblivious (read (λ w, isAssertionExpired (xw_now w) (xw_assertion w))).
Proof. apply oblivious_read. by intros w w' [_ -> -> _ _ _ _]. Qed.

Lemma cache_hit_oblivious key : oblivious (cache_hit key).
Proof.
  apply oblivious_pbind; [apply oblivious_read; intros w w'; apply agree_fresh |]. intros [e |]; [| done].
  by apply oblivious_pbind; [apply oblivious_expired |].
Qed.

Lemma doExchange_oblivious key : oblivious (doExchange cfg key).
Proof.
  apply oblivious_pbind.
  { apply oblivious_read. intros w w' [_ Hn Ha _ _ _ _]. unfold current_assertion. by rewrite Hn, Ha. }
  intros [assertion | err]; [| done]. destruct (xp_NewRequest _); [done |]. apply oblivious_pbind; [| by intros []].
  split; [| done]. intros w w' Hw. pose proof Hw as [_ -> _ _ _ -> _]. split; [done | by apply agree_same].
Qed.

Lemma doExchangeAndCache_oblivious key : oblivious (doExchangeAndCache cfg key).
Proof.
  apply oblivious_pbind; [apply doExchange_oblivious |]. intros [[res window] | err].
  - destruct (bool_decide _); (apply oblivious_pbind; [apply oblivious_update | done]); intros w w' Hw.
    + by apply agree_delete.
    + pose proof Hw as [_ -> _ _ _ _ _]. by apply agree_insert.
  - destruct (reauth_rejection err); [| done]. apply oblivious_pbind; [| done]. apply oblivious_update.
    intros w w' Hw. pose proof Hw as [_ -> _ _ _ _ _]. by apply agree_insert.
Qed.

Lemma serveStaleOrErr_oblivious key err : oblivious (serveStaleOrErr key err).
Proof.
  unfold serveStaleOrErr. destruct (isTransientBrokerError err); [| done].
  apply oblivious_pbind; [apply oblivious_expired |]. intros []; [done |].
  apply oblivious_pbind; [| done]. apply oblivious_read. intros w w'. apply agree_stale.
Qed.

Lemma Execute_oblivious {A} (body : prog exchanger (result exch_error A)) : oblivious body → oblivious (Execute cfg body).
Proof.
  intros Hb. apply oblivious_pbind; [split; [| done] |].
  - intros w w' Hw. pose proof Hw as [_ -> _ -> _ _ _]. split; [done | by apply agree_breaker].
  - intros [g | err]; [| done]. apply oblivious_pbind; [done |]. intros r. apply oblivious_pbind; [| done].
    apply oblivious_update. intros w w' Hw. pose proof Hw as [_ -> _ -> _ _ _]. by apply agree_breaker.
Qed.

Lemma flight_oblivious key : oblivious (flight_body cfg key).
Proof.
  apply oblivious_pbind; [apply cache_hit_oblivious |]. intros [r |]; [done |].
  unfold exchange_or_stale. destruct (xc_BreakerEnabled cfg).
  all: apply oblivious_pbind; [| intros []; [done | apply serveStaleOrErr_oblivious]].
  - by apply Execute_oblivious, doExchangeAndCache_oblivious.
  - apply doExchangeAndCache_oblivious.
Qed.

Lemma refresh_oblivious : oblivious (maybeRefreshAssertion cfg).
Proof.
  apply oblivious_pbind; [apply oblivious_read; by intros w w' [_ _ -> _ _ _ _] |]. intros [s |]; [| done].
  destruct (IsZero _); [done |].
  apply oblivious_pbind; [apply oblivious_read; by intros w w' [_ -> _ _ _ _ _] |]. intros []; [| done].
  apply oblivious_pbind; [| done]. apply oblivious_pbind; [split; [| done] |].
  - intros w w' Hw. pose proof Hw as [_ -> _ _ _ -> _]. split; [done | by apply agree_same].
  - intros [token | err]; [| done]. destruct (assertion_of cfg token); [| done].
    apply oblivious_pbind; [| done]. apply oblivious_update. intros w w' Hw.
    pose proof Hw as [_ -> _ _ _ _ _]. by apply agree_assertion.
Qed.

(** Systems that differ in evictions only. *)
Record blind (s : system) : Prop := Blind {
  bl_clock : (0 <= xw_now (sy_world s))%Z;
  bl_flights : Forall (λ fl, oblivious (fl_prog fl)) (sy_flights s);
  bl_callers : Forall (λ c, match ca_state c with Looking p => oblivious p | _ => True end) (sy_callers s);
  bl_background : oblivious (sy_background s);
}.

Lemma agree_refl w : (0 <= xw_now w)%Z → agree w w.
Proof. by split. Qed.

Lemma agree_trans w1 w2 w3 : agree w1 w2 → agree w2 w3 → agree w1 w3.
Proof.
  intros [? ? ? ? ? ? H1] [? ? ? ? ? ? H2]. split; congruence.
Qed.

Lemma oblivious_act {X A} (f : exchanger → exchanger * X) (k : X → prog exchanger A) w w' :
  oblivious (Act f k) → agree w w' →
  (f w).2 = (f w').2 ∧ agree (f w).1 (f w').1 ∧ oblivious (k (f w').2) ∧ (0 <= xw_now (f w').1)%Z.
Proof.
  intros [Hf Hk] Hw. destruct (Hf _ _ Hw) as [Hr Ha]. split_and!; [done | done | apply Hk |].
  rewrite (ag_now _ _ Ha). apply (ag_clock _ _ Ha).
Qed.

(** A step with evictions is matched by at most one step without. *)
Lemma eviction_step s s1 w :
  exchange_step cfg true s s1 → blind s → agree w (sy_world s) →
  blind s1 ∧ ∃ w1, agree w1 (sy_world s1) ∧
    rtc (exchange_step cfg false) (System w (sy_flights s) (sy_callers s) (sy_background s))
      (System w1 (sy_flights s1) (sy_callers s1) (sy_background s1)).
Proof.
  intros Hstep [Hc Hf Hca Hb] Hw. destruct Hstep; simpl in *;
    try match goal with Hi : _ !! _ = Some (Caller _ _ _) |- _ => pose proof (Forall_lookup_1 _ _ _ _ Hca Hi) as Hst; simpl in Hst end;
    try match goal with Hj : _ !! _ = Some (Flight _ _ (Act _ _)) |- _ => pose proof (Forall_lookup_1 _ _ _ _ Hf Hj) as Hfl; simpl in Hfl end.
  - split; [split; simpl; [lia | done..] |]. exists (with_now t w). rewrite (ag_now _ _ Hw) in *.
    split; [by apply agree_clock | by apply rtc_once, step_clock].
  - split; [split; simpl; [done | done | | done] |].
    + apply Forall_app. split; [done |]. constructor; [apply cache_hit_oblivious | done].
    + exists w. split; [done |]. rewrite (ag_now _ _ Hw). apply rtc_once, step_call.
  - destruct (oblivious_act _ _ _ _ Hst Hw) as (Hr & Ha & Hk & Hn).
    split; [split; simpl; [done | done | by apply Forall_insert | done] |].
    exists (f w).1. split; [done |]. rewrite <-Hr. by apply rtc_once, step_look.
  - split; [split; simpl; [done | done | by apply Forall_insert | done] |].
    exists w. split; [done |]. by eapply rtc_once, step_hit.
  - split; [split; simpl; [done | | by apply Forall_insert | done] |].
    + apply Forall_app. split; [done |]. constructor; [apply flight_oblivious | done].
    + exists w. split; [done |]. rewrite (ag_now _ _ Hw). by eapply rtc_once, step_lead.
  - split; [split; simpl; [done | done | by apply Forall_insert | done] |].
    exists w. split; [done |]. by eapply rtc_once, step_join.
  - destruct (oblivious_act _ _ _ _ Hfl Hw) as (Hr & Ha & Hk & Hn).
    split; [split; simpl; [done | by apply Forall_insert | done | done] |].
    exists (f w).1. split; [done |]. rewrite <-Hr. by apply rtc_once, step_fly.
  - split; [split; simpl; [done | done | by apply Forall_insert | done] |].
    exists w. split; [done |]. by eapply rtc_once, step_land.
  - split; [split; simpl; [done | done | by apply Forall_insert | done] |].
    exists w. split; [done |]. by eapply rtc_once, step_abandon.
  - split; [by split |]. exists w. split; [| done]. eapply agree_trans; [exact Hw | by apply agree_evict].
  - split; [split; simpl; [done | done | done | apply refresh_oblivious] |].
    exists w. split; [done |]. apply rtc_once, step_refresh. by rewrite <-(ag_stopped _ _ Hw).
  - destruct (oblivious_act _ _ _ _ Hb Hw) as (Hr & Ha & Hk & Hn). split; [by split |].
    exists (f w).1. split; [done |]. rewrite <-Hr. apply rtc_once, step_background.
  - unfold Shutdown in *. destruct (xw_stopped w0) eqn:Hst; simplify_eq. split; [by split |].
    exists (Exchanger _ (xw_cache w) (xw_assertion w) (xw_breaker w) (xw_now w) true (xw_outside w)).
    split; [by destruct Hw; split |]. apply rtc_once, step_stop. unfold Shutdown. by rewrite <-(ag_stopped _ _ Hw), Hst.
Qed.

(** Claim C18.  Eviction is unobservable: every history of calls, flights and answers that
    the exchanger shows with the eviction ticker it can also show without. *)
Theorem eviction_invisible w s :
  (0 <= xw_now w)%Z → rtc (exchange_step cfg true) (no_callers w) s →
  ∃ w', rtc (exchange_step cfg false) (no_callers w) (System w' (sy_flights s) (sy_callers s) (sy_background s)) ∧
    agree w' (sy_world s).
Proof.
  intros Hw Hs.
  assert (∀ s0 w0, rtc (exchange_step cfg true) s0 s → blind s0 → agree w0 (sy_world s0) →
    ∃ w', rtc (exchange_step cfg false) (System w0 (sy_flights s0) (sy_callers s0) (sy_background s0))
            (System w' (sy_flights s) (sy_callers s) (sy_background s)) ∧ agree w' (sy_world s)) as Hgen.
  { intros s0 w0 Hs0. revert w0. induction Hs0 as [s0 | s0 s1 s2 Hstep _ IH]; intros w0 Hb Ha; [by exists w0 |].
    destruct (eviction_step _ _ _ Hstep Hb Ha) as (Hb1 & w1 & Ha1 & Hr1).
    destruct (IH Hs w1 Hb1 Ha1) as (w2 & Hr2 & Ha2). exists w2. split; [by etrans | done]. }
  apply (Hgen _ w Hs); [by split | by apply agree_refl].
Qed.

(** ** Rejections *)

Lemma run_then {A B} (p : prog exchanger A) (g : A → prog exchanger B) w :
  run (p ≫= g) w = run (g (run p w).2) (run p w).1.
Proof. unfold mbind, prog_bind. rewrite run_pbind. by destruct (run p w). Qed.

Lemma run_read_then {X B} (f : exchanger → X) (g : X → prog exchanger B) w : run (read f ≫= g) w = run (g (f w)) w.
Proof. by rewrite run_then. Qed.

Lemma run_update {B} (f : exchanger → exchanger) (g : () → prog exchanger B) w : run (update f ≫= g) w = run (g ()) (f w).
Proof. by rewrite run_then. Qed.

Lemma run_act_then {X B} (f : exchanger → exchanger * X) (g : X → prog exchanger B) w :
  run (act f ≫= g) w = run (g (f w).2) (f w).1.
Proof. rewrite run_then. simpl. by destruct (f w). Qed.

(** What a run of the exchange leaves behind. *)
Lemma run_doExchange key w :
  ∃ o, run (doExchange cfg key) w = (with_outside o w, (run (doExchange cfg key) w).2).
Proof.
  assert (with_outside (xw_outside w) w = w) as Hid by (by destruct w).
  unfold doExchange, ClientAssertion. rewrite run_read_then. destruct (current_assertion w) as [a | err].
  - destruct (xp_NewRequest _); [exists (xw_outside w); by rewrite Hid |]. unfold call_broker. rewrite run_act_then.
    cbn [fst snd]. exists (xp_Do (xw_now w) (xc_TokenEndpoint cfg) (exchange_form key a) (xw_outside w)).1.
    by destruct (xp_Do _ _ _ _).2.
  - exists (xw_outside w). by rewrite Hid.
Qed.

Lemma run_exchange key w :
  ∃ o, run (doExchangeAndCache cfg key) w =
    let w' := with_outside o w in
    match (run (doExchange cfg key) w).2 with
    | Err err => ((if reauth_rejection err then with_cache <[key := reauth_entry (xw_now w) err]> w' else w'), Err err)
    | Ok (res, window) =>
        ((if bool_decide (tl_lifetime window <= 0)%Z then with_cache (delete key) w'
          else with_cache <[key := success_entry cfg (xw_now w) res window]> w'), Ok res)
    end.
Proof.
  destruct (run_doExchange key w) as [o Ho]. exists o. unfold doExchangeAndCache. rewrite run_then, Ho. cbn [fst snd].
  destruct (run (doExchange cfg key) w).2 as [[res window] | err].
  - destruct (bool_decide _); rewrite run_update; [done |]. rewrite clone_sets_id. by destruct res.
  - destruct (reauth_rejection err); [by rewrite run_update | done].
Qed.

Lemma run_rejected key w w1 err :
  run (doExchangeAndCache cfg key) w = (w1, Err err) → reauth_rejection err = true →
  ∃ o, w1 = with_cache <[key := reauth_entry (xw_now w) err]> (with_outside o w).
Proof.
  destruct (run_exchange key w) as [o ->]. destruct (run (doExchange cfg key) w).2 as [[res window] | e]; [by intros [= _] |].
  intros [= <- <-] Hr. exists o. by rewrite Hr.
Qed.

Lemma run_cache_hit key w :
  run (cache_hit key) w =
  (w, match xw_cache w !! key with
      | Some e => if isExpired (xw_now w) e || isAssertionExpired (xw_now w) (xw_assertion w) then None
                  else Some (entry_answer e)
      | None => None
      end).
Proof.
  unfold cache_hit. rewrite run_read_then. destruct (xw_cache w !! key) as [e |]; [| done].
  destruct (isExpired _ e); [done |]. rewrite run_read_then. simpl. by destruct (isAssertionExpired _ _).
Qed.

(** A token obtained now comes from the broker now. *)
Lemma run_fresh_only key w w1 res :
  run (doExchangeAndCache cfg key) w = (w1, Ok res) → ∃ expires, broker_answer key res expires (xw_now w).
Proof.
  pose proof (rg_run _ _ _ _ _ (doExchange_own key w)) as [_ Hq]. destruct (run_doExchange key w) as [o Ho].
  rewrite Ho in Hq. destruct (run_exchange key w) as [o' ->].
  destruct (run (doExchange cfg key) w).2 as [[r window] | e]; [| done]. simpl in *. intros [= _ <-].
  destruct Hq as (expires & t0 & Ht & Hb & _). exists expires. by assert (t0 = xw_now w) as -> by lia.
Qed.

Lemma run_serveStale key err w :
  run (serveStaleOrErr key err) w =
  (w, if isTransientBrokerError err && negb (isAssertionExpired (xw_now w) (xw_assertion w))
      then match stale_entry key w with Some e => Ok (entry_result e) | None => Err err end else Err err).
Proof.
  unfold serveStaleOrErr. destruct (isTransientBrokerError err); [| done]. rewrite run_read_then.
  destruct (isAssertionExpired _ _); [done |]. by rewrite run_read_then.
Qed.

Lemma run_Execute {A} (body : prog exchanger (result exch_error A)) w :
  run (Execute cfg body) w =
  let '(b, admitted) := breaker_Before (newGobreakerCB cfg) (xw_now w) (xw_breaker w) in
  match admitted with
  | Err err => (with_breaker b w, Err err)
  | Ok generation =>
      let '(w1, r) := run body (with_breaker b w) in
      (with_breaker (breaker_After (newGobreakerCB cfg) generation (gb_IsSuccessful (newGobreakerCB cfg) (error_of r))
                       (xw_now w1) (xw_breaker w1)) w1, r)
  end.
Proof.
  unfold Execute. rewrite run_act_then. destruct (breaker_Before _ _ _) as [b [g | err]]; cbn [fst snd]; [| done].
  rewrite run_then, run_update. by destruct (run body _).
Qed.

Lemma breaker_error_transient err : isTransientBrokerError (breaker_error err) = isTransientBrokerError err.
Proof. unfold breaker_error. by destruct (is_breaker_rejection err). Qed.

Lemma reauth_not_transient err : reauth_rejection err = true → isTransientBrokerError err = false.
Proof. unfold reauth_rejection. destruct (as_broker err); [| done]. intros [_ ?]%andb_true_iff. by apply negb_true_iff. Qed.

(** A failed exchange leaves a token entry alone unless the failure is final. *)
Lemma failed_exchange_stale key w w1 err :
  run (doExchangeAndCache cfg key) w = (w1, Err err) → isTransientBrokerError err = true →
  ∃ o, w1 = with_outside o w.
Proof.
  destruct (run_exchange key w) as [o ->]. destruct (run (doExchange cfg key) w).2 as [[res window] | e]; [by intros [= _] |].
  intros [= <- <-] Ht. exists o. destruct (reauth_rejection e) eqn:Hr; [| done].
  apply reauth_not_transient in Hr. congruence.
Qed.

(** Past the cache a token is new, or it stands in for an outage. *)
Definition new_or_stale (key : tokenCacheKey) (w : exchanger) (res : ExchangeResult) : Prop :=
  (∃ expires, broker_answer key res expires (xw_now w)) ∨
  (∃ e, stale_entry key w = Some e ∧ res = entry_result e ∧ isAssertionExpired (xw_now w) (xw_assertion w) = false).

Lemma stale_after key w err w1 res :
  run (serveStaleOrErr key err) w = (w1, Ok res) →
  isTransientBrokerError err = true ∧ isAssertionExpired (xw_now w) (xw_assertion w) = false ∧
  ∃ e, stale_entry key w = Some e ∧ res = entry_result e.
Proof.
  rewrite run_serveStale. destruct (_ && _) eqn:Hb; [| done]. apply andb_true_iff in Hb as [? ?%negb_true_iff].
  destruct (stale_entry key w) as [e |]; [| done]. intros [= _ <-]. split_and!; [done | done | by exists e].
Qed.

Lemma exchange_or_stale_ok key w w1 res :
  run (exchange_or_stale cfg key) w = (w1, Ok res) → new_or_stale key w res.
Proof.
  unfold exchange_or_stale. destruct (xc_BreakerEnabled cfg); rewrite run_then.
  - rewrite run_Execute. destruct (breaker_Before _ _ _) as [b [g | err]]; cbn [fst snd].
    + destruct (run (doExchangeAndCache cfg key) _) as [w2 [r | err]] eqn:Hrun; cbn [fst snd].
      * intros [= _ <-]. left. by destruct (run_fresh_only _ _ _ _ Hrun) as [expires ?]; exists expires.
      * intros (Ht & Ha & e & He & ->)%stale_after. rewrite breaker_error_transient in Ht.
        destruct (failed_exchange_stale _ _ _ _ Hrun Ht) as [o ->]. right. by exists e.
    + intros (Ht & Ha & e & He & ->)%stale_after. right. by exists e.
  - destruct (run (doExchangeAndCache cfg key) w) as [w2 [r | err]] eqn:Hrun; cbn [fst snd].
    + intros [= _ <-]. left. exact (run_fresh_only _ _ _ _ Hrun).
    + intros (Ht & Ha & e & He & ->)%stale_after.
      destruct (failed_exchange_stale _ _ _ _ Hrun Ht) as [o ->]. right. by exists e.
Qed.

Lemma run_flight key w :
  run (flight_body cfg key) w =
  match (run (cache_hit key) w).2 with Some r => (w, r) | None => run (exchange_or_stale cfg key) w end.
Proof.
  unfold flight_body. rewrite run_then, run_cache_hit. cbn [fst snd].
  destruct (xw_cache w !! key) as [e |]; [| done]. by destruct (_ || _).
Qed.


(** While the breaker refuses calls, a call that finds no fresh entry leaves the
    broker and the cache alone: it is answered with the token of an open stale window if the
    client assertion is good, and with the circuit-open error otherwise. *)
Theorem open_breaker_stale key w b e :
  xc_BreakerEnabled cfg = true → (e = ErrOpenState ∨ e = ErrTooManyRequests) →
  breaker_Before (newGobreakerCB cfg) (xw_now w) (xw_breaker w) = (b, Err e) →
  (run (cache_hit key) w).2 = None →
  ∃ err, is_circuit_open err = true ∧
    run (flight_body cfg key) w =
    (with_breaker b w,
     if isAssertionExpired (xw_now w) (xw_assertion w) then Err err
     else match stale_entry key w with Some t => Ok (entry_result t) | None => Err err end).
Proof.
  intros Hb He Hbefore Hhit. rewrite run_flight, Hhit. unfold exchange_or_stale. rewrite Hb, run_then, run_Execute, Hbefore.
  cbn [fst snd]. exists (breaker_error e). destruct He as [-> | ->]; (split; [done |]);
    rewrite run_serveStale; simpl; by destruct (isAssertionExpired _ _).
Qed.

(** ** The client assertion *)

(** A refresh ticker that fires every [assertionInterval] finds the renewal due,
    and asks the provider for a new assertion, at some tick before the assertion expires. *)
Theorem assertion_renewed_in_time s start :
  as_expiresAt s ≠ zero_time → (start <= as_expiresAt s)%Z → (as_expiresAt s - start <= int64_max)%Z →
  ∃ n : nat, let tick := (start + Z.of_nat n * assertionInterval cfg)%Z in
    (tick <= as_expiresAt s)%Z ∧
    ∀ w, xw_assertion w = Some s → xw_now w = tick →
      run (maybeRefreshAssertion cfg) w = ((run (refreshClientAssertion cfg) w).1, ()).
Proof.
  intros Hz Hs Hrange. set (I := assertionInterval cfg).
  assert (0 < I <= 30 * second)%Z as HI by (unfold I, assertionInterval; rewrite second_val; lia).
  pose proof (Z.div_mod (as_expiresAt s - start) I ltac:(lia)) as Hdiv.
  pose proof (Z.mod_pos_bound (as_expiresAt s - start) I ltac:(lia)) as Hmod.
  assert (0 <= (as_expiresAt s - start) / I)%Z as Hq by (apply Z.div_pos; lia).
  exists (Z.to_nat ((as_expiresAt s - start) / I)). rewrite Z2Nat.id by done. cbv zeta. split; [lia |].
  intros w Ha Hn. unfold maybeRefreshAssertion. rewrite run_read_then, Ha.
  unfold IsZero. rewrite bool_decide_eq_false_2 by done. cbv iota. rewrite run_read_then.
  assert (refresh_due (xw_now w) s = true) as ->.
  { unfold refresh_due. apply bool_decide_eq_true_2. unfold refresh_threshold, Sub, int64_min, int64_max in *. lia. }
  by rewrite run_then.
Qed.

End exchanger.

(** ** Executable histories *)

Inductive move := MClock (t : time) | MCall (key : tokenCacheKey) | MLook (i : nat) | MAnswer (i : nat) | MFly (j : nat) | MEvict.

Section histories.
Context `{ProcessorPorts} (cfg : exchanger_config).

(** One move: [MAnswer] gives a hit, starts a flight or lands one. *)
Definition play_move (m : move) (s : system) : option system :=
  let '(System w fs cs b) := s in
  match m with
  | MClock t => if decide (xw_now w <= t)%Z then Some (System (with_now t w) fs cs b) else None
  | MCall key => if decide (clean key) then Some (System w fs (cs ++ [Caller key (xw_now w) (Looking (cache_hit key))]) b) else None
  | MLook i =>
      match cs !! i with
      | Some (Caller key s (Looking (Act f k))) => Some (System (f w).1 fs (<[i := Caller key s (Looking (k (f w).2))]> cs) b)
      | _ => None
      end
  | MAnswer i =>
      match cs !! i with
      | Some (Caller key s (Looking (Ret (Some r)))) => Some (System w fs (<[i := Caller key s (Answered r)]> cs) b)
      | Some (Caller key s (Looking (Ret None))) =>
          Some (System w (fs ++ [Flight key (xw_now w) (flight_body cfg key)]) (<[i := Caller key (xw_now w) (Waiting (length fs))]> cs) b)
      | Some (Caller key s (Waiting j)) =>
          match fs !! j with
          | Some (Flight _ _ (Ret r)) => Some (System w fs (<[i := Caller key s (Answered r)]> cs) b)
          | _ => None
          end
      | _ => None
      end
  | MFly j =>
      match fs !! j with
      | Some (Flight key s (Act f k)) => Some (System (f w).1 (<[j := Flight key s (k (f w).2)]> fs) cs b)
      | _ => None
      end
  | MEvict =>
      match b with
      | Ret () => if xw_stopped w then None else Some (System (evictExpired w) fs cs (Ret ()))
      | Act _ _ => None
      end
  end.

Definition play (moves : list move) (s : system) : option system := foldl (λ o m, s ← o; play_move m s) (Some s) moves.

Definition callers_clean (s : system) : Prop := Forall (λ c, clean (ca_key c)) (sy_callers s).

Lemma play_move_step m s s' : play_move m s = Some s' → callers_clean s → clean_step cfg s s' .
Proof.
  destruct s as [w fs cs b]. intros Hm Hc. unfold callers_clean in Hc. simpl in Hc.
  destruct m as [t | key | i | i | j |]; simpl in Hm.
  - case_decide; simplify_eq. split; [by apply step_clock | done].
  - case_decide; simplify_eq. split; [apply step_call |]. apply Forall_app. by split; [| constructor].
  - destruct (cs !! i) as [[key s [[r | X f k] | j | r]] |] eqn:Hi; simplify_eq.
    split; [by apply step_look |]. apply Forall_insert; [done |]. by apply (Forall_lookup_1 _ _ _ _ Hc Hi).
  - destruct (cs !! i) as [[key s [[[r |] | X f k] | j | r]] |] eqn:Hi; simplify_eq.
    + split; [by eapply step_hit |]. apply Forall_insert; [done |]. by apply (Forall_lookup_1 _ _ _ _ Hc Hi).
    + split; [by eapply step_lead |]. apply Forall_insert; [done |]. by apply (Forall_lookup_1 _ _ _ _ Hc Hi).
    + destruct (fs !! j) as [[key' s2 [r | X f k]] |] eqn:Hj; simplify_eq.
      split; [by eapply step_land |]. apply Forall_insert; [done |]. by apply (Forall_lookup_1 _ _ _ _ Hc Hi).
  - destruct (fs !! j) as [[key s [r | X f k]] |] eqn:Hj; simplify_eq. split; [by apply step_fly | done].
  - destruct b as [[] |]; [| done]. destruct (xw_stopped w) eqn:Hst; simplify_eq. split; [by apply step_evict | done].
Qed.

Lemma play_steps moves s s' : play moves s = Some s' → callers_clean s → rtc (clean_step cfg) s s'.
Proof.
  unfold play. revert s. induction moves as [| m moves IH]; intros s; simpl; [by intros [= ->] |].
  destruct (play_move m s) as [s1 |] eqn:Hm.
  - intros Hp Hc. pose proof (play_move_step _ _ _ Hm Hc) as Hs. eapply rtc_l; [exact Hs |]. apply IH; [done | apply Hs].
  - intros Hp. assert (∀ l, foldl (λ o m, s ← o; play_move m s) None l = None) as Hnone by (by induction l).
    by rewrite Hnone in Hp.
Qed.

End histories.

(** ** A concrete deployment *)

Module ExchangeDemo.

(** A broker that counts its calls, issues the token [subject@resource] for an hour, and is
    down from its second call on; the resource [https://gone] needs a new consent. *)
Definition value_of (name : string) (form : list (string * string)) : string :=
  default "" ((list_to_map form : gmap string string) !! name).

#[local] Instance demo : ProcessorPorts := {|
  outside := nat;
  breaker := bool;
  xp_NewRequest _ := None;
  xp_Do _ _ form n :=
    (S n, if decide (value_of "resource" form = "https://gone")
          then Ok (ExchangeResponse 403 (Ok "https://broker/consent"))
          else match n with
               | O => Ok (ExchangeResponse 200 (Ok (value_of "subject_token" form +:+ "@" +:+ value_of "resource" form)))
               | S _ => Err (ErrNet None)
               end);
  xp_Token now _ n := (n, Ok (OAuthToken "assertion" None (now + 600 * second)%Z));
  json_ExchangeResponse body := Ok (TokenResponse body (Some 3600%Z) None "ana" "agent");
  json_BrokerError body := BrokerBody "access_denied" "consent needed" body;
  breaker_Before _ _ open := (open, if (open : bool) then Err ErrOpenState else Ok 0%N);
  breaker_After _ _ _ _ open := open;
|}.

Definition config : exchanger_config :=
  ExchangerConfig (300 * second) (3600 * second) true 5 (30 * second) "https://broker/token" "https://idp" "id" "secret" ""
    [] "access_token".

Definition start_time : time := (1000000 * second)%Z.

Definition started : exchanger :=
  Exchanger _ ∅ (Some (Assertion "assertion" start_time (start_time + 7200 * second))) false start_time false 0.

Definition ana : tokenCacheKey := CacheKey "ana-token" "https://api".
Definition gone : tokenCacheKey := CacheKey "ana-token" "https://gone".

(** Ana exchanges; half an hour later, after an eviction, she is served from the cache. *)
Definition history : list move :=
  [MCall ana; MLook 0; MAnswer 0] ++ replicate 6 (MFly 0) ++ [MAnswer 0; MClock (start_time + 1800 * second)%Z; MEvict;
   MCall ana; MLook 1; MLook 1; MAnswer 1].

Definition after_history : system := default (no_callers started) (play config history (no_callers started)).

Lemma play_history : play config history (no_callers started) = Some after_history.
Proof. vm_compute. reflexivity. Qed.

Lemma history_steps : rtc (clean_step config) (no_callers started) after_history.
Proof. apply (play_steps config history); [apply play_history | constructor]. Qed.

Definition ana_result : ExchangeResult := XResult "ana-token@https://api" None "ana" "agent".

Lemma second_answer :
  sy_callers after_history !! 1 = Some (Caller ana (start_time + 1800 * second)%Z (Answered (Ok ana_result))).
Proof. vm_compute. reflexivity. Qed.

Lemma exchanged_token_is_own_witness :
  ∃ t, (start_time + 1800 * second <= t)%Z ∧ served config ana ana_result t.
Proof.
  destruct (exchanged_token_is_own config started after_history 1 ana _ ana_result eq_refl history_steps second_answer)
    as (t & [Ht _] & Hs).
  by exists t.
Defined.

Lemma eviction_invisible_witness :
  ∃ w', rtc (exchange_step config false) (no_callers started)
          (System w' (sy_flights after_history) (sy_callers after_history) (sy_background after_history)).
Proof.
  destruct (eviction_invisible config started after_history) as (w' & Hw' & _).
  - done.
  - eapply rtc_subrel; [| exact history_steps]. by intros s s' [? _].
  - by exists w'.
Defined.

(** The broker rejects [gone] with a recovery URL. *)
Definition rejected := run (doExchangeAndCache config gone) started.


(** An hour's token, 58 minutes later, with the breaker open. *)
Definition outage : exchanger :=
  with_breaker true (with_now (start_time + 3500 * second)%Z (run (flight_body config ana) started).1).

Lemma open_breaker_stale_witness :
  ∃ b err, is_circuit_open err = true ∧ (run (flight_body config ana) outage).2 = Ok ana_result ∧ b = true.
Proof.
  destruct (open_breaker_stale config ana outage true ErrOpenState eq_refl (or_introl eq_refl)) as (err & Herr & Hrun).
  - vm_compute. reflexivity.
  - vm_compute. reflexivity.
  - exists true, err. split_and!; [done | | done]. rewrite Hrun. vm_compute. reflexivity.
Defined.

Lemma computeTTL_reported_witness :
  tl_lifetime (computeTTL config (Some 3600%Z)) = (3600 * second)%Z ∧
  (tl_fresh (computeTTL config (Some 3600%Z)) <= 3600 * second - 10 * second)%Z.
Proof.
  split; [vm_compute; reflexivity |].
  destruct (computeTTL_reported config 3600 ltac:(vm_compute; reflexivity) ltac:(vm_compute; reflexivity)) as (_ & _ & _ & Hf).
  exact Hf.
Defined.

Definition short_assertion : assertionState := Assertion "assertion" start_time (start_time + 75 * second)%Z.

Lemma assertion_renewed_in_time_witness :
  ∃ n : nat, (start_time + Z.of_nat n * assertionInterval config <= start_time + 75 * second)%Z.
Proof.
  destruct (assertion_renewed_in_time config short_assertion start_time) as (n & Hn & _).
  - done.
  - vm_compute. discriminate.
  - vm_compute. discriminate.
  - by exists n.
Defined.

End ExchangeDemo.
