(* ===== verification/McpMessages.v ===== *)
(** * MCP messages and policy decisions

    internal/extproc/authorization (parser.go, input_builder.go, input.go, decision.go and
    the evaluation in authorizer.go) and the decoding functions of
    internal/extproc/server/server.go: from the bytes of a request to the document a policy
    is evaluated on, and from what the policy engine answers to a decision.

    The tokens of encoding/json, the envoy plugin and the policy engine are classes. *)

From S2P Require Import Prelude ToolPattern UriValidation.

(** ** Names *)

(** [strings.EqualFold], when one of the two strings is ASCII: letters fold to lower case,
    the long s (U+017F) to s and the Kelvin sign (U+212A) to k. *)
Fixpoint simple_fold (l : list ascii) : list ascii :=
  match l with
  | [] => []
  | c :: l' =>
      if bool_decide (c = byte 197) && match l' with d :: _ => bool_decide (d = byte 191) | [] => false end
      then "s"%char :: match l' with _ :: r => simple_fold r | [] => [] end
      else if bool_decide (c = byte 226) &&
              match l' with d :: e :: _ => bool_decide (d = byte 132) && bool_decide (e = byte 170) | _ => false end
      then "k"%char :: match l' with _ :: _ :: r => simple_fold r | _ => [] end
      else lower_byte c :: simple_fold l'
  end.
Definition EqualFold (s t : string) : bool := bool_decide (simple_fold (bytes s) = simple_fold (bytes t)).

(** The first of the names that a key folds to, or the key itself. *)
Definition canonical_name (names : list string) (key : string) : string :=
  match filter (λ name, EqualFold key name = true) names with name :: _ => name | [] => key end.

Definition envelope_fields : list string := ["jsonrpc"; "id"; "method"; "params"].
Definition params_fields : list string := ["name"; "arguments"].

(** ** Decoding *)

(** The tokens of a [json.Decoder]: delimiters, strings (keys too), numbers as text. *)
Inductive jtoken := TDelim (c : ascii) | TString (s : string) | TNumber (s : string) | TBool (b : bool) | TNull.

(** [json_tokens]: the tokens of a text up to its end or its first syntax error, each with
    the offset behind it.  [json_MarshalID]: json.Marshal of a decoded id. *)
Class JSONText `{GoFloat} := {
  json_tokens : string → list (jtoken * nat);
  json_MarshalID : any → option string;
}.

Record decoder := Decoder { d_tokens : list (jtoken * nat); d_offset : nat }.

Definition Token (d : decoder) : option (jtoken * decoder) :=
  match d_tokens d with
  | [] => None
  | (t, off) :: rest => Some (t, Decoder rest off)
  end.

Definition More (d : decoder) : bool :=
  match d_tokens d with
  | [] => false
  | (TDelim c, _) :: _ => negb (bool_decide (c = "]"%char)) && negb (bool_decide (c = "}"%char))
  | _ => true
  end.

Section decoding.
Context `{GoFloat}.

Abbreviation object := (list (string * any)).

(** A Go map lookup: [nil] when absent. *)
Definition map_get (key : string) (m : object) : any :=
  match filter (λ p, p.1 = key) m with p :: _ => p.2 | [] => ANil end.

(** Assignment to a key of a map. *)
Fixpoint map_set (key : string) (v : any) (m : object) : object :=
  match m with
  | [] => [(key, v)]
  | (k, u) :: m => if decide (k = key) then (k, v) :: m else (k, u) :: map_set key v m
  end.

(** [Decode] into an [any], with [UseNumber]. *)
Fixpoint decode_value (fuel : nat) (d : decoder) : option (any * decoder) :=
  match fuel with
  | O => None
  | S fuel =>
      match Token d with
      | None => None
      | Some (TString s, d) => Some (AString s, d)
      | Some (TNumber s, d) => Some (ANumber s, d)
      | Some (TBool b, d) => Some (ABool b, d)
      | Some (TNull, d) => Some (ANil, d)
      | Some (TDelim c, d) =>
          if decide (c = "{"%char) then decode_members fuel d []
          else if decide (c = "["%char) then decode_elements fuel d [] else None
      end
  end
with decode_members (fuel : nat) (d : decoder) (m : object) : option (any * decoder) :=
  match fuel with
  | O => None
  | S fuel =>
      if More d then
        match Token d with
        | Some (TString key, d) =>
            match decode_value fuel d with
            | Some (v, d) => decode_members fuel d (map_set key v m)
            | None => None
            end
        | _ => None
        end
      else match Token d with Some (TDelim c, d) => if decide (c = "}"%char) then Some (AMap m, d) else None | _ => None end
  end
with decode_elements (fuel : nat) (d : decoder) (l : list any) : option (any * decoder) :=
  match fuel with
  | O => None
  | S fuel =>
      if More d then
        match decode_value fuel d with
        | Some (v, d) => decode_elements fuel d (l ++ [v])
        | None => None
        end
      else match Token d with Some (TDelim c, d) => if decide (c = "]"%char) then Some (ASlice l, d) else None | _ => None end
  end.

(** Every call reads a token or follows one that was read. *)
Definition decode_fuel (d : decoder) : nat := S (2 * length (d_tokens d)).
Definition Decode (d : decoder) : option (any * decoder) := decode_value (decode_fuel d) d.

(** The loop of [decodeMCPObject]; the inner object is decoded by the same function. *)
Fixpoint decode_mcp (fuel : nat) (d : decoder) (params : bool) (m : object) : option (object * decoder) :=
  match fuel with
  | O => None
  | S fuel =>
      if More d then
        match Token d with
        | Some (TString key, d) =>
            let key := canonical_name (if params then params_fields else envelope_fields) key in
            if decide (key ∈ m.*1) then None
            else
              let value :=
                if negb params && bool_decide (key = "params") then
                  match Token d with
                  | Some (TNull, d) => Some (ANil, d)
                  | Some (TDelim c, d) =>
                      if decide (c = "{"%char) then prod_map AMap id <$> decode_mcp fuel d true [] else None
                  | _ => None
                  end
                else Decode d in
              match value with
              | Some (v, d) => decode_mcp fuel d params (m ++ [(key, v)])
              | None => None
              end
        | _ => None
        end
      else match Token d with Some (TDelim c, d) => if decide (c = "}"%char) then Some (m, d) else None | _ => None end
  end.

Definition decodeMCPObject (d : decoder) (params : bool) : option (object * decoder) :=
  decode_mcp (S (length (d_tokens d))) d params [].

Definition decodeMCPMessage (d : decoder) : option (object * decoder) :=
  match Token d with
  | Some (TDelim c, d) => if decide (c = "{"%char) then decodeMCPObject d false else None
  | _ => None
  end.

Definition drop_bytes (n : nat) (s : string) : string := of_bytes (drop n (bytes s)).
Definition slice_bytes (i j : nat) (s : string) : string := of_bytes (take (j - i) (drop i (bytes s))).

Context {JT : JSONText}.

Definition NewDecoder (body : string) : decoder := Decoder (json_tokens body) 0.

(** Nothing but space behind the decoder. *)
Definition at_end (body : string) (d : decoder) : bool := bool_decide (TrimSpace (drop_bytes (d_offset d) body) = "").

Definition decodeJSONBody (body : string) (isMCP : bool) : any :=
  let parsed :=
    if isMCP then prod_map AMap id <$> decodeMCPMessage (NewDecoder body) else Decode (NewDecoder body) in
  match parsed with
  | Some (v, d) => if at_end body d then v else ANil
  | None => ANil
  end.

Record decodedBatchMessage := BatchMessage { bm_raw : string; bm_parsed : any }.

Definition batch_cutset : list ascii := [" "%char; byte 9; byte 13; byte 10; ","%char].
Definition TrimLeft (cutset : list ascii) (s : string) : string :=
  of_bytes (trim_left (length (bytes s)) (map (λ c, [c]) cutset) (bytes s)).

Fixpoint decode_batch (fuel : nat) (body : string) (d : decoder) : option (list decodedBatchMessage * decoder) :=
  match fuel with
  | O => None
  | S fuel =>
      if More d then
        match decodeMCPMessage d with
        | Some (m, d') =>
            let message := BatchMessage (TrimLeft batch_cutset (slice_bytes (d_offset d) (d_offset d') body)) (AMap m) in
            match decode_batch fuel body d' with
            | Some (messages, d'') => Some (message :: messages, d'')
            | None => None
            end
        | None => None
        end
      else Some ([], d)
  end.

Definition decodeJSONBatch (body : string) : option (list decodedBatchMessage) :=
  match Token (NewDecoder body) with
  | Some (TDelim c, d) =>
      if decide (c = "["%char) then
        match decode_batch (S (length (d_tokens d))) body d with
        | Some (messages, d) =>
            match Token d with
            | Some (TDelim c, d) => if decide (c = "]"%char) then (if at_end body d then Some messages else None) else None
            | _ => None
            end
        | None => None
        end
      else None
  | _ => None
  end.

End decoding.

(** ** JSON-RPC messages *)

Inductive mcp_error :=
  | NotAnObject
  | DuplicateField (field : string)
  | WrongType (field : string)
  | BadVersion (version : string)
  | NoMethod
  | MissingParams
  | MissingToolName.

Section messages.
Context `{GoFloat}.

Record MCPMessage := MkMCPMessage {
  mm_JSONRPC : string;
  mm_Method : string;
  mm_ID : any;
  mm_Params : option (list (string * any));
}.

Definition duplicateEnvelopeField (m : list (string * any)) : option string :=
  match filter (λ field, (1 < length (filter (λ p, EqualFold p.1 field = true) m))%nat) envelope_fields with
  | field :: _ => Some field
  | [] => None
  end.

(** A field that must be a string: [""] when it is absent or null. *)
Definition string_field (field : string) (m : list (string * any)) : result mcp_error string :=
  match map_get field m with
  | AString s => Ok s
  | ANil => Ok ""
  | _ => Err (WrongType field)
  end.

Definition params_field (m : list (string * any)) : result mcp_error (option (list (string * any))) :=
  match map_get "params" m with
  | AMap params => Ok (Some params)
  | ANil => Ok None
  | _ => Err (WrongType "params")
  end.

Definition ParseMCPMessage (value : any) : result mcp_error MCPMessage :=
  match value with
  | AMap m =>
      match duplicateEnvelopeField m with
      | Some field => Err (DuplicateField field)
      | None =>
          version ← string_field "jsonrpc" m;
          method ← string_field "method" m;
          params ← params_field m;
          if decide (version ≠ "2.0") then Err (BadVersion version)
          else if decide (method = "") then Err NoMethod
          else Ok (MkMCPMessage version method (map_get "id" m) params)
      end
  | _ => Err NotAnObject
  end.

(** ** The policy's input *)

Record ContextInput := MkContextInput {
  ci_GrantedPermissionSetsAvailable : bool;
  ci_GrantedPermissionSets : option (gmap string (list string));
  ci_AgentSessionID : string;
}.

(** The "mcp" object; [None]: the key is absent. *)
Record mcp_input := McpInput {
  mi_jsonrpc : option string;
  mi_method : option string;
  mi_id : option any;
  mi_session_id : option string;
  mi_target_server_name : option string;
  mi_tool_name : option string;
  mi_arguments : option (list (string * any));
  mi_params : option (list (string * any));
}.

(** What the ext_authz plugin is asked to convert. *)
Record check_request := CheckRequest {
  cq_Method : string;
  cq_Path : string;
  cq_Host : string;
  cq_Scheme : string;
  cq_Protocol : string;
  cq_Headers : gmap string string;
}.

(** envoyauth.RequestToInput; [None]: it fails. *)
Class EnvoyAuth := {
  envoy_input : Type;
  RequestToInput : check_request → option envoy_input;
}.

End messages.

Section input.
Context `{GoFloat} `{EnvoyAuth}.

(** The plugin's document with the keys the code sets on it. *)
Record OPAInput := MkOPAInput {
  oi_base : envoy_input;
  oi_body : option string;
  oi_parsed_body : any;
  oi_truncated_body : bool;
  oi_context : ContextInput;
  oi_type : string;
  oi_mcp : option mcp_input;
}.

Definition header_get (headers : gmap string string) (name : string) : string := default "" (headers !! name).

Definition buildCheckRequest (headers : gmap string string) : check_request :=
  {| cq_Method := header_get headers ":method";
     cq_Path := header_get headers ":path";
     cq_Host := header_get headers ":authority";
     cq_Scheme := header_get headers ":scheme";
     cq_Protocol := header_get headers ":protocol";
     cq_Headers := filter (λ p, HasPrefix p.1 ":" = false) headers |}.

(** The value of the first header, in the order of the iteration, whose name folds to the
    given one. *)
Definition configuredHeader (headers : gmap string string) (name : string) : string :=
  match filter (λ p, EqualFold p.1 name = true) (map_to_list headers) with p :: _ => p.2 | [] => "" end.

Definition extractSessionID (headers : gmap string string) : string := configuredHeader headers "mcp-session-id".

Definition omit_empty (s : string) : option string := if decide (s = "") then None else Some s.
Definition omit_nil (v : any) : option any := match v with ANil => None | _ => Some v end.
Definition omit_no_entries (m : option (list (string * any))) : option (list (string * any)) :=
  match m with Some (p :: m) => Some (p :: m) | _ => None end.

Record InputBuilder := MkInputBuilder {
  ib_base : envoy_input;
  ib_protocol : string;
  ib_sessionID : string;
  ib_targetServerName : string;
  ib_context : ContextInput;
}.

Definition NewInputBuilder (protocol : string) (headers : gmap string string) (targetServerName : string)
    (contextInput : ContextInput) : option InputBuilder :=
  base ← RequestToInput (buildCheckRequest headers);
  Some (MkInputBuilder base protocol (extractSessionID headers) targetServerName contextInput).

(** The type and the "mcp" object of a message. *)
Definition buildMCPInput (parsed : any) (sessionID targetServerName : string) : result mcp_error (string * mcp_input) :=
  msg ← ParseMCPMessage parsed;
  let common tool arguments params :=
    McpInput (Some (mm_JSONRPC msg)) (Some (mm_Method msg)) (omit_nil (mm_ID msg)) (omit_empty sessionID)
      (omit_empty targetServerName) tool arguments params in
  if decide (mm_Method msg = "tools/call") then
    match mm_Params msg with
    | None => Err MissingParams
    | Some params =>
        match map_get "name" params with
        | AString name =>
            if decide (name = "") then Err MissingToolName
            else Ok ("mcp_tool_call",
                     common (Some name)
                       (omit_no_entries match map_get "arguments" params with AMap args => Some args | _ => None end) None)
        | _ => Err MissingToolName
        end
    end
  else Ok ("mcp_method", common None None (omit_no_entries (mm_Params msg))).

Definition Build (b : InputBuilder) (body : string) (parsed : any) : result mcp_error OPAInput :=
  let input := MkOPAInput (ib_base b) (omit_empty body) parsed false (ib_context b) in
  if decide (ib_protocol b ≠ "mcp") then Ok (input "unknown" None)
  else
    r ← buildMCPInput parsed (ib_sessionID b) (ib_targetServerName b);
    Ok (input r.1 (Some r.2)).

Definition BuildOPAInputHeadersOnly (protocol : string) (headers : gmap string string) (targetServerName : string)
    : option OPAInput :=
  base ← RequestToInput (buildCheckRequest headers);
  let input := MkOPAInput base None ANil false (MkContextInput false None (extractSessionID headers)) in
  Some (if decide (protocol = "mcp")
        then input "mcp_headers_only"
               (Some (McpInput None None None (omit_empty (extractSessionID headers)) (omit_empty targetServerName) None None None))
        else input "unknown" None).

End input.

(** ** Decisions *)

Definition ActionAllow : string := "allow".
Definition ActionDeny : string := "deny".
Definition ActionApprovalRequired : string := "approval_required".
Definition ActionCIBARequired : string := "ciba_required".

Record ApprovalContext := MkApprovalContext { ac_Description : string; ac_RiskLevel : string }.

Record OPADecision := MkOPADecision {
  od_Action : string;
  od_Reasons : list string;
  od_ApprovalContext : option ApprovalContext;
}.

Definition deny_because (reason : string) : OPADecision := MkOPADecision ActionDeny [reason] None.

Section decisions.
Context `{GoFloat}.

(** [v, _ = x.(string)] *)
Definition as_string (v : any) : string := match v with AString s => s | _ => "" end.
Definition string_elements (v : any) : list string :=
  match v with ASlice l => omap (λ e, match e with AString s => Some s | _ => None end) l | _ => [] end.

(** [None]: the nil map. *)
Definition ParseDecision (result : option (list (string * any))) : OPADecision :=
  match result with
  | None => deny_because "undefined result"
  | Some m =>
      match map_get "action" m with
      | AString action =>
          if decide (action = ActionAllow) then MkOPADecision ActionAllow [] None
          else if decide (action = ActionApprovalRequired) then
            MkOPADecision ActionApprovalRequired []
              match map_get "approval_context" m with
              | AMap raw => Some (MkApprovalContext (as_string (map_get "description" raw)) (as_string (map_get "risk_level" raw)))
              | _ => None
              end
          else if decide (action = ActionCIBARequired) then deny_because (ActionCIBARequired +:+ " is not yet supported")
          else if decide (action = ActionDeny) then MkOPADecision ActionDeny (string_elements (map_get "reasons" m)) None
          else deny_because ("unknown action: " +:+ action)
      | _ => deny_because "undefined result"
      end
  end.

(** What the two engines answer: a prepared query, or the SDK. *)
Inductive engine_answer :=
  | QueryFailed
  | QueryUndefined
  | QueryValue (v : any)
  | SDKFailed (undefined : bool)
  | SDKResult (v : any).

Definition as_map (v : any) : option (list (string * any)) := match v with AMap m => Some m | _ => None end.

Definition evaluated (a : engine_answer) : OPADecision :=
  match a with
  | QueryFailed => deny_because "policy evaluation error"
  | QueryUndefined | QueryValue ANil => deny_because "policy result is undefined"
  | QueryValue v | SDKResult v => ParseDecision (as_map v)
  | SDKFailed undefined => deny_because (if undefined then "policy result is undefined" else "policy evaluation error")
  end.

(** [OPAAuthorizer.Evaluate]; the deadline is tested before and after the input is
    converted, and the engine is asked under it. *)
Definition Evaluate_policy (expired_before expired_after converted : bool) (engine : engine_answer) : OPADecision :=
  if expired_before || expired_after then deny_because "evaluation timeout"
  else if negb converted then deny_because "policy evaluation error"
  else evaluated engine.

End decisions.
