(* ===== verification/McpMessagesFacts.v ===== *)
(** * Facts about MCP messages

    Decoding a message agrees with a definition on the parsed document: the members, under
    their canonical names, if no two of them fold to one name.  A policy only allows a
    request by answering so. *)

From S2P Require Import Prelude ToolPattern UriValidation McpMessages.

Section decoding.
Context {GF : GoFloat}.

(** ** Documents *)

#[warnings="-register-all"]
Inductive document_tree :=
  | JNull
  | JBool (b : bool)
  | JNumber (s : string)
  | JString (s : string)
  | JArray (l : list document_tree)
  | JObject (l : list (string * document_tree)).

(** The tokens of a document. *)
Fixpoint tokens_of (t : document_tree) : list jtoken :=
  match t with
  | JNull => [TNull]
  | JBool b => [TBool b]
  | JNumber s => [TNumber s]
  | JString s => [TString s]
  | JArray l => TDelim "[" :: concat (map tokens_of l) ++ [TDelim "]"]
  | JObject l => TDelim "{" :: concat (map (λ '(k, t), TString k :: tokens_of t) l) ++ [TDelim "}"]
  end.

(** Its value as Go decodes it into an [any]: of two members with one name the last wins. *)
Fixpoint value_of (t : document_tree) : any :=
  match t with
  | JNull => ANil
  | JBool b => ABool b
  | JNumber s => ANumber s
  | JString s => AString s
  | JArray l => ASlice (map value_of l)
  | JObject l => AMap (foldl (λ m '(k, v), map_set k v m) [] (map (λ '(k, t), (k, value_of t)) l))
  end.

Lemma document_ind (P : document_tree → Prop)
    (Hnull : P JNull) (Hbool : ∀ b, P (JBool b)) (Hnum : ∀ s, P (JNumber s)) (Hstr : ∀ s, P (JString s))
    (Harr : ∀ l, Forall P l → P (JArray l)) (Hobj : ∀ l, Forall (λ kt, P kt.2) l → P (JObject l)) :
  ∀ t, P t.
Proof.
  fix rec 1. intros [| b | s | s | l | l]; [done | done | done | done | apply Harr | apply Hobj].
  - induction l as [| t l IH]; constructor; [apply rec | done].
  - induction l as [| [k t] l IH]; constructor; [apply rec | done].
Qed.

(** The offset behind the tokens read. *)
Definition after (ts : list (jtoken * nat)) (off : nat) : nat := default off (snd <$> last ts).

Lemma after_app ts ts' off : after (ts ++ ts') off = after ts' (after ts off).
Proof. unfold after. rewrite last_app. by destruct (last ts'). Qed.

Lemma after_cons t o ts off : after ((t, o) :: ts) off = after ts o.
Proof. unfold after. rewrite last_cons. by destruct (last ts). Qed.

(** A document is never read as the end of an array or object. *)
Lemma tokens_more t ts rest off : ts.*1 = tokens_of t → More (Decoder (ts ++ rest) off) = true.
Proof. intros Hts. destruct t, ts as [| [] ts]; by simplify_eq/=. Qed.

Lemma tokens_nonempty t : (0 < length (tokens_of t))%nat.
Proof. destruct t; simpl; lia. Qed.

(** ** Decode *)

Definition decodes (t : document_tree) : Prop := ∀ fuel ts rest off,
  ts.*1 = tokens_of t → (2 * length ts <= fuel)%nat →
  decode_value fuel (Decoder (ts ++ rest) off) = Some (value_of t, Decoder rest (after ts off)).

Lemma decode_elements_spec l : Forall decodes l → ∀ fuel ts rest off acc,
  ts.*1 = concat (map tokens_of l) ++ [TDelim "]"] → (2 * length ts <= S fuel)%nat →
  decode_elements fuel (Decoder (ts ++ rest) off) acc = Some (ASlice (acc ++ map value_of l), Decoder rest (after ts off)).
Proof.
  induction 1 as [| t l Ht _ IH]; intros fuel ts rest off acc Hts Hfuel; simpl in Hts.
  - destruct ts as [| [? o] [|]]; simplify_eq/=. destruct fuel; [lia |]. cbn. by rewrite app_nil_r.
  - rewrite <-app_assoc in Hts. apply fmap_app_inv in Hts as (ts1 & ts2 & Hts1 & Hts2 & ->).
    pose proof (tokens_nonempty t) as Hpos. rewrite Hts1, length_fmap in Hpos.
    rewrite length_app in Hfuel. destruct fuel as [| fuel]; [lia |]. cbn [decode_elements].
    rewrite <-app_assoc, (tokens_more t) by done.
    assert (0 < length ts2)%nat as Hpos2.
    { destruct ts2; [| simpl; lia]. destruct (concat (map tokens_of l)); done. }
    rewrite Ht by (done || lia). rewrite IH by (done || lia). rewrite after_app. cbn. by rewrite <-app_assoc.
Qed.

Lemma decode_members_spec l : Forall (λ kt, decodes kt.2) l → ∀ fuel ts rest off acc,
  ts.*1 = concat (map (λ '(k, t), TString k :: tokens_of t) l) ++ [TDelim "}"] → (2 * length ts <= S fuel)%nat →
  decode_members fuel (Decoder (ts ++ rest) off) acc =
  Some (AMap (foldl (λ m '(k, v), map_set k v m) acc (map (λ '(k, t), (k, value_of t)) l)), Decoder rest (after ts off)).
Proof.
  induction 1 as [| [k t] l Ht _ IH]; intros fuel ts rest off acc Hts Hfuel; simpl in Hts.
  - destruct ts as [| [? o] [|]]; simplify_eq/=. destruct fuel; [lia |]. done.
  - destruct ts as [| [tok o] ts]; [done |]. simpl in Hts. injection Hts as -> Hts. rewrite <-app_assoc in Hts. simpl in Hfuel.
    apply fmap_app_inv in Hts as (ts1 & ts2 & Hts1 & Hts2 & ->).
    pose proof (tokens_nonempty t) as Hpos. rewrite Hts1, length_fmap in Hpos.
    rewrite length_app in Hfuel. destruct fuel as [| fuel]; [lia |]. cbn.
    rewrite <-app_assoc, Ht by (done || lia). rewrite IH by (done || lia).
    by rewrite after_cons, after_app.
Qed.

Lemma decode_value_spec t : decodes t.
Proof.
  induction t as [| b | s | s | l IH | l IH] using document_ind; intros fuel ts rest off Hts Hfuel; simpl in Hts.
  1-4: destruct ts as [| [? o] [|]]; simplify_eq/=; destruct fuel; [lia | done].
  - destruct ts as [| [tok o] ts]; [done |]. simpl in Hts. injection Hts as -> Hts. simpl in Hfuel.
    destruct fuel; [lia |]. cbn.
    rewrite (decode_elements_spec l IH) by (done || lia). by rewrite after_cons.
  - destruct ts as [| [tok o] ts]; [done |]. simpl in Hts. injection Hts as -> Hts. simpl in Hfuel.
    destruct fuel; [lia |]. cbn.
    rewrite (decode_members_spec l IH) by (done || lia). by rewrite after_cons.
Qed.

Lemma Decode_spec t ts rest off :
  ts.*1 = tokens_of t → Decode (Decoder (ts ++ rest) off) = Some (value_of t, Decoder rest (after ts off)).
Proof. intros Hts. apply decode_value_spec; [done |]. unfold decode_fuel; simpl. rewrite length_app. lia. Qed.

(** ** The members of a message *)

(** The members under their canonical names, if the names stay distinct. *)
Definition canonical_members (names : list string) (value : string → document_tree → option any)
    (l : list (string * document_tree)) : option (list (string * any)) :=
  if decide (NoDup (canonical_name names <$> l.*1))
  then mapM (λ '(k, t), v ← value (canonical_name names k) t; Some (canonical_name names k, v)) l
  else None.

(** The params: null, or an object with distinct members. *)
Definition params_value (t : document_tree) : option any :=
  match t with
  | JNull => Some ANil
  | JObject l => AMap <$> canonical_members params_fields (λ _ t, Some (value_of t)) l
  | _ => None
  end.

Definition message_members : list (string * document_tree) → option (list (string * any)) :=
  canonical_members envelope_fields (λ key t, if decide (key = "params") then params_value t else Some (value_of t)).

(** The loop on the rest of the members, with those decoded before. *)
Definition loop_members (names : list string) (value : string → document_tree → option any)
    (acc : list (string * any)) (l : list (string * document_tree)) : option (list (string * any)) :=
  if decide (NoDup (acc.*1 ++ (canonical_name names <$> l.*1)))
  then (acc ++.) <$> mapM (λ '(k, t), v ← value (canonical_name names k) t; Some (canonical_name names k, v)) l
  else None.

Lemma loop_members_cons names value acc k t l :
  NoDup acc.*1 →
  loop_members names value acc ((k, t) :: l) =
  if decide (canonical_name names k ∈ acc.*1) then None
  else v ← value (canonical_name names k) t; loop_members names value (acc ++ [(canonical_name names k, v)]) l.
Proof.
  intros Hacc. unfold loop_members. simpl. set (key := canonical_name names k).
  destruct (decide (key ∈ acc.*1)) as [Hin | Hnin].
  { rewrite decide_False; [done |]. intros (_ & Hd & _)%NoDup_app. apply (Hd key Hin). by left. }
  assert (∀ v, NoDup ((acc ++ [(key, v)]).*1 ++ (canonical_name names <$> l.*1)) ↔
               NoDup (acc.*1 ++ key :: (canonical_name names <$> l.*1))) as Hnd.
  { intros v. rewrite fmap_app, <-app_assoc. done. }
  destruct (value key t) as [v |]; simpl.
  - destruct (decide (NoDup (acc.*1 ++ key :: _))) as [Hy | Hn].
    + rewrite decide_True by by apply Hnd. destruct (mapM _ l); simpl; [| done]. by rewrite <-app_assoc.
    + by rewrite decide_False by by rewrite Hnd.
  - by destruct (decide _).
Qed.

Lemma loop_members_dup names value acc l : ¬ NoDup acc.*1 → loop_members names value acc l = None.
Proof. intros Hn. unfold loop_members. rewrite decide_False; [done |]. by intros [? _]%NoDup_app. Qed.

Lemma mcp_params_loop l : ∀ fuel ts rest off acc,
  ts.*1 = concat (map (λ '(k, t), TString k :: tokens_of t) l) ++ [TDelim "}"] → (length ts <= fuel)%nat → NoDup acc.*1 →
  decode_mcp fuel (Decoder (ts ++ rest) off) true acc =
  (λ m, (m, Decoder rest (after ts off))) <$> loop_members params_fields (λ _ t, Some (value_of t)) acc l.
Proof.
  induction l as [| [k t] l IH]; intros fuel ts rest off acc Hts Hfuel Hnd; simpl in Hts.
  - destruct ts as [| [? o] [|]]; simplify_eq/=. destruct fuel; [lia |]. cbn. unfold loop_members. simpl.
    rewrite app_nil_r, decide_True by done. simpl. by rewrite app_nil_r.
  - destruct ts as [| [tok o] ts]; [done |]. simpl in Hts. injection Hts as -> Hts. rewrite <-app_assoc in Hts. simpl in Hfuel.
    apply fmap_app_inv in Hts as (ts1 & ts2 & Hts1 & Hts2 & ->). rewrite length_app in Hfuel.
    destruct fuel as [| fuel]; [lia |]. rewrite loop_members_cons by done.
    cbn -[Decode canonical_name loop_members]. destruct (decide _) as [| Hnin]; [done |].
    rewrite <-app_assoc, (Decode_spec t) by done. rewrite (IH _ ts2); [by rewrite after_cons, after_app | done | lia |].
    rewrite fmap_app. apply NoDup_app. split_and!; [done | | by apply NoDup_singleton]. intros x Hx ->%list_elem_of_singleton. done.
Qed.

Lemma loop_members_nil names value l : loop_members names value [] l = canonical_members names value l.
Proof. unfold loop_members, canonical_members. simpl. destruct (decide _); [| done]. by destruct (mapM _ l). Qed.

(** The value of the params member, past its first token. *)
Definition read_params (fuel : nat) (d : decoder) : option (any * decoder) :=
  match Token d with
  | Some (TNull, d) => Some (ANil, d)
  | Some (TDelim c, d) =>
      if decide (c = "{"%char) then prod_map AMap id <$> decode_mcp fuel d true [] else None
  | _ => None
  end.

Lemma decode_mcp_S fuel d m :
  decode_mcp (S fuel) d false m =
  if More d then
    match Token d with
    | Some (TString k, d) =>
        let key := canonical_name envelope_fields k in
        if decide (key ∈ m.*1) then None
        else match (if bool_decide (key = "params") then read_params fuel d else Decode d) with
             | Some (v, d) => decode_mcp fuel d false (m ++ [(key, v)])
             | None => None
             end
    | _ => None
    end
  else match Token d with Some (TDelim c, d) => if decide (c = "}"%char) then Some (m, d) else None | _ => None end.
Proof. done. Qed.

Lemma read_params_spec t fuel ts rest off :
  ts.*1 = tokens_of t → (length ts <= S fuel)%nat →
  read_params fuel (Decoder (ts ++ rest) off) = (λ v, (v, Decoder rest (after ts off))) <$> params_value t.
Proof.
  intros Hts Hfuel. destruct t as [| b | x | x | l | l]; simpl in Hts.
  1-4: destruct ts as [| [? o] [|]]; simplify_eq/=; done.
  - destruct ts as [| [tok o] ts]; [done |]. simpl in Hts. by injection Hts as -> Hts.
  - destruct ts as [| [tok o] ts]; [done |]. simpl in Hts. injection Hts as -> Hts. simpl in Hfuel.
    unfold read_params. cbn -[decode_mcp]. rewrite (mcp_params_loop l) by (done || lia || apply NoDup_nil_2).
    rewrite loop_members_nil, after_cons. by destruct (canonical_members _ _ l).
Qed.

Definition member_value (key : string) (t : document_tree) : option any :=
  if decide (key = "params") then params_value t else Some (value_of t).

Lemma mcp_message_loop l : ∀ fuel ts rest off acc,
  ts.*1 = concat (map (λ '(k, t), TString k :: tokens_of t) l) ++ [TDelim "}"] → (length ts <= fuel)%nat → NoDup acc.*1 →
  decode_mcp fuel (Decoder (ts ++ rest) off) false acc =
  (λ m, (m, Decoder rest (after ts off))) <$> loop_members envelope_fields member_value acc l.
Proof.
  induction l as [| [k t] l IH]; intros fuel ts rest off acc Hts Hfuel Hnd; simpl in Hts.
  - destruct ts as [| [? o] [|]]; simplify_eq/=. destruct fuel; [lia |]. cbn. unfold loop_members. simpl.
    rewrite app_nil_r, decide_True by done. simpl. by rewrite app_nil_r.
  - destruct ts as [| [tok o] ts]; [done |]. simpl in Hts. injection Hts as -> Hts. rewrite <-app_assoc in Hts. simpl in Hfuel.
    apply fmap_app_inv in Hts as (ts1 & ts2 & Hts1 & Hts2 & ->). rewrite length_app in Hfuel.
    destruct fuel as [| fuel]; [lia |]. rewrite loop_members_cons, decode_mcp_S by done.
    cbn -[Decode canonical_name loop_members read_params decode_mcp]. destruct (decide _) as [| Hnin]; [done |]. rewrite <-app_assoc.
    assert ((if bool_decide (canonical_name envelope_fields k = "params") then read_params fuel (Decoder (ts1 ++ ts2 ++ rest) o)
             else Decode (Decoder (ts1 ++ ts2 ++ rest) o)) =
            (λ v, (v, Decoder (ts2 ++ rest) (after ts1 o))) <$> member_value (canonical_name envelope_fields k) t) as Hread.
    { unfold member_value. destruct (decide _) as [Hk | Hk].
      - rewrite bool_decide_eq_true_2 by done. apply read_params_spec; [done | lia].
      - rewrite bool_decide_eq_false_2 by done. by apply Decode_spec. }
    rewrite Hread.
    destruct (member_value _ t) as [v |]; simpl; [| done].
    rewrite (IH _ ts2); [by rewrite after_cons, after_app | done | lia |].
    rewrite fmap_app. apply NoDup_app. split_and!; [done | | by apply NoDup_singleton]. by intros x Hx ->%list_elem_of_singleton.
Qed.

(** Claim C17.  Decoding a message is exact: of a JSON object it yields each member, and each
    member of its params, under the canonical name the member's name folds to, with the
    value the JSON says; and it fails when two names fold to one, so that no reader that
    ignores case can see another method, tool or arguments than the policy was shown. *)
Theorem decoded_message_exact l ts rest off :
  ts.*1 = tokens_of (JObject l) →
  decodeMCPMessage (Decoder (ts ++ rest) off) =
  (λ m, (m, Decoder rest (after ts off))) <$> message_members l.
Proof.
  intros Hts. destruct ts as [| [tok o] ts]; [done |]. simpl in Hts. injection Hts as -> Hts.
  unfold decodeMCPMessage, decodeMCPObject. cbn -[decode_mcp]. rewrite length_app.
  rewrite (mcp_message_loop l) by (done || lia || apply NoDup_nil_2).
  by rewrite loop_members_nil, after_cons.
Qed.

(** ** The policy *)

(** The policy fails closed: a request is allowed exactly when the engine, asked
    in time on a converted input, answers an object whose action is "allow". *)
Theorem policy_fails_closed before late converted engine :
  od_Action (Evaluate_policy before late converted engine) = ActionAllow ↔
  before = false ∧ late = false ∧ converted = true ∧
  ∃ m, (engine = QueryValue (AMap m) ∨ engine = SDKResult (AMap m)) ∧ map_get "action" m = AString "allow".
Proof.
  assert (∀ m, od_Action (ParseDecision (Some m)) = ActionAllow ↔ map_get "action" m = AString "allow") as Hparse.
  { intros m. unfold ParseDecision. split; [| by intros ->].
    destruct (map_get "action" m); try done. by repeat (destruct (decide _) as [-> |]; [done |]). }
  unfold Evaluate_policy. destruct before, late; simpl; try (split; [done | by intros (? & ? & _)]).
  destruct converted; simpl; [| split; [done | by intros (_ & _ & ? & _)]].
  split.
  - intros Hd. split_and!; [done.. |]. destruct engine as [| | v | u | v]; simpl in Hd; try done; try by destruct u.
    + destruct v; simpl in Hd; try done. eexists. split; [by left | by apply Hparse].
    + destruct v; simpl in Hd; try done. eexists. split; [by right | by apply Hparse].
  - intros (_ & _ & _ & m & [-> | ->] & Hm); by apply Hparse.
Qed.

End decoding.

(** ** A concrete message *)

Module MessageDemo.

#[local] Instance message_float : GoFloat := {| float64 := Z; FormatFloat _ := ""; Number_Float64 _ := None |}.

(** A call of the tool [rm], its names in mixed case. *)
Definition call : list (string * document_tree) :=
  [("JsonRPC", JString "2.0"); ("METHOD", JString "tools/call"); ("params", JObject [("Name", JString "rm"); ("extra", JNull)])].

Definition read_at_7 (l : list (string * document_tree)) : list (jtoken * nat) := map (λ t, (t, 7)) (tokens_of (JObject l)).

(** It is read as the call; with a second member that folds to "params" it is refused. *)
Lemma decoded_message_exact_witness :
  decodeMCPMessage (Decoder (read_at_7 call ++ []) 0) =
    Some ([("jsonrpc", AString "2.0"); ("method", AString "tools/call"); ("params", AMap [("name", AString "rm"); ("extra", ANil)])],
          Decoder [] 7) ∧
  decodeMCPMessage (Decoder (read_at_7 (call ++ [("PARAMS", JNull)]) ++ []) 0) = None.
Proof.
  split.
  - rewrite (decoded_message_exact call (read_at_7 call) [] 0); [| reflexivity]. vm_compute. reflexivity.
  - rewrite (decoded_message_exact (call ++ [("PARAMS", JNull)]) (read_at_7 (call ++ [("PARAMS", JNull)])) [] 0); [| reflexivity].
    vm_compute. reflexivity.
Defined.

End MessageDemo.
