(* ===== verification/ExtProcServer.v ===== *)
(** * The external processor

    internal/extproc/server/server.go and reauth_challenge.go: what the gateway's stream of
    request phases is answered with.  A handler is a [dialog]: its calls of the exchanger,
    the policy and the approval gate, in order, each continued with the answer.  Trace
    headers, spans, metrics and logging are left out. *)

From S2P Require Import Prelude ToolPattern UriValidation ToolApproval ApprovalHandlers ApprovalCache ApprovalGate ExchangeErrors TokenExchanger McpMessages.

(** ** Messages of the stream *)

(** A value of the filter metadata: a string, or another kind; nil pointers are [None]. *)
Inductive metadata_value := MString (s : string) | MOther.
Record metadata_struct := MetadataStruct { ms_Fields : option (gmap string (option metadata_value)) }.
(** [MetadataContext]; its namespaces may hold nil. *)
Abbreviation filter_metadata := (option (gmap string (option metadata_struct))).

(** Header pairs: key, value, raw value. *)
Record header_value := HeaderValue { hv_Key : string; hv_Value : string; hv_RawValue : string }.
Record http_headers := HttpHeaders { hh_headers : list header_value; hh_EndOfStream : bool }.
(** A body message; [None] is nil. *)
Record http_body := HttpBody { hb_Body : string; hb_EndOfStream : bool }.

Inductive processing_request :=
  | RequestHeaders (metadata : filter_metadata) (headers : http_headers)
  | RequestBody (body : option http_body)
  | ResponseHeaders
  | ResponseBody (body : option http_body)
  | RequestTrailers
  | ResponseTrailers
  | OtherRequest.

(** A body the processor writes itself: a fixed text, the JSON of a denial, or an MCP URL
    elicitation with the id of its request. *)
Inductive immediate_body :=
  | BodyText (text : string)
  | BodyAccessDenied (description : string)
  | BodyElicitation (url message : string) (rawID : option string).

(** [HeadersResponse]: the Authorization header it sets, and whether the body is to be
    buffered. *)
Inductive processing_response :=
  | HeadersResponse (authorization : option string) (buffered : bool)
  | ImmediateResponse (status : Z) (headers : list (string * string)) (body : immediate_body)
  | RequestBodyResponse (body : string) (end_of_stream : bool)
  | ResponseHeadersResponse
  | ResponseBodyResponse (body : string) (end_of_stream : bool)
  | RequestTrailersResponse
  | ResponseTrailersResponse.

Definition content_type : string * string := ("content-type", "application/json").
Definition immediateResponse (status : Z) (body : immediate_body) : processing_response :=
  ImmediateResponse status [content_type] body.
Definition immediateResponseWithHeaders (status : Z) (body : immediate_body) (extra : list (string * string)) : processing_response :=
  ImmediateResponse status (content_type :: extra) body.
Definition error_text (error description : string) : immediate_body :=
  BodyText ("{" +:+ quoteJSON "error" +:+ ":" +:+ quoteJSON error +:+ "," +:+ quoteJSON "error_description" +:+ ":"
              +:+ quoteJSON description +:+ "}").

Definition passThrough : processing_response := HeadersResponse None false.
Definition replaceAuthorizationHeader (value : string) : processing_response := HeadersResponse (Some value) false.
Definition requestBodyBufferingResponseWithAuth (value : string) : processing_response := HeadersResponse (Some value) true.
Definition echoRequestBody (body : option http_body) : processing_response :=
  match body with Some b => RequestBodyResponse (hb_Body b) (hb_EndOfStream b) | None => RequestBodyResponse "" false end.
Definition echoResponseBody (body : option http_body) : processing_response :=
  match body with Some b => ResponseBodyResponse (hb_Body b) (hb_EndOfStream b) | None => ResponseBodyResponse "" false end.

Definition accessDeniedResponse (reasons : list string) : processing_response :=
  immediateResponse StatusForbidden (BodyAccessDenied (Join reasons "; ")).
Definition access_denied (description : string) : processing_response :=
  immediateResponse StatusForbidden (error_text "access_denied" description).
Definition method_not_supported : processing_response :=
  immediateResponseWithHeaders 405 (error_text "invalid_request" "method not supported for MCP") [("allow", "GET, POST")].
Definition urlElicitationResponse (url message : string) (rawID : option string) : processing_response :=
  immediateResponse StatusOK (BodyElicitation url message rawID).

(** ** Challenges *)

Definition validChallenge (low : N) (value : string) : bool :=
  forallb (λ c, bool_decide (low <= N_of_ascii c <= 126)%N && negb (bool_decide (c = dquote)) && negb (bool_decide (c = bslash)))
    (bytes value).
Definition validChallengeDescription : string → bool := validChallenge 32.
Definition validChallengeURI : string → bool := validChallenge 33.

Definition challenge_attribute (name value : string) : string := ", " +:+ name +:+ "=" +:+ dquote_str +:+ value +:+ dquote_str.

Definition insufficientScopeChallenge (description errorURI : string) : string :=
  "Bearer error=" +:+ dquote_str +:+ "insufficient_scope" +:+ dquote_str +:+
  (if negb (bool_decide (description = "")) && validChallengeDescription description
   then challenge_attribute "error_description" description else "") +:+
  (if negb (bool_decide (errorURI = "")) && validChallengeURI errorURI
   then challenge_attribute "error_uri" errorURI else "").

Definition reauthChallengeResponse (recoveryURI description : string) : processing_response :=
  immediateResponseWithHeaders StatusForbidden (BodyElicitation recoveryURI description None)
    [("www-authenticate", insufficientScopeChallenge description recoveryURI)].

Definition tokenExchangeErrorResponse (err : exch_error) : processing_response :=
  if is_assertion_expired err
  then immediateResponse StatusServiceUnavailable (error_text "service_unavailable" "client assertion expired")
  else if is_circuit_open err
  then immediateResponse StatusServiceUnavailable (error_text "service_unavailable" "circuit breaker is open")
  else immediateResponse 500 (error_text "token_exchange_failed" "token exchange request failed").

Definition exchangeErrorResponse (err : exch_error) : processing_response :=
  match as_broker err with
  | Some b =>
      if negb (bool_decide (bx_ErrorURI b = "")) && negb (isTransientBrokerError err)
      then reauthChallengeResponse (bx_ErrorURI b) (bx_Description b)
      else tokenExchangeErrorResponse err
  | None => tokenExchangeErrorResponse err
  end.

(** ** What a request carries *)

Inductive inputRejection := InvalidSubjectToken | InvalidResource (detail : string).

Definition inputRejectionResponse (r : inputRejection) : processing_response :=
  immediateResponse StatusServiceUnavailable
    match r with
    | InvalidResource _ => error_text "invalid_resource" "resource metadata is missing or invalid"
    | InvalidSubjectToken => error_text "invalid_subject_token" "subject token metadata is missing or invalid"
    end.

Definition metadataStringField (fields : gmap string (option metadata_value)) (key : string) : option string :=
  match fields !! key with Some (Some (MString s)) => Some s | _ => None end.

(** The fields of a namespace of the metadata; nil at any level is [None]. *)
Definition metadata_fields (m : filter_metadata) (namespace : string) : option (gmap string (option metadata_value)) :=
  namespaces ← m;
  s ← namespaces !! namespace;
  s ← s;
  ms_Fields s.

(** A non-empty string field of the agentgateway namespace. *)
Definition agentgateway_field (m : filter_metadata) (key : string) : option string :=
  fields ← metadata_fields m "agentgateway";
  match metadataStringField fields key with
  | Some s => if decide (s = "") then None else Some s
  | None => None
  end.
Definition extractProtocolFromMetadata (m : filter_metadata) : option string := agentgateway_field m "protocol".
Definition extractMCPServerFromMetadata (m : filter_metadata) : option string := agentgateway_field m "mcp_server".

(** Lower-case names (header names are ASCII); of two headers with one name the last wins. *)
Definition extractAllHeaders (headers : http_headers) : gmap string string :=
  foldl (λ m h, <[ToLower (hv_Key h) := if decide (hv_RawValue h = "") then hv_Value h else hv_RawValue h]> m)
    ∅ (hh_headers headers).

(** [strings.ToUpper(method)] compared with a word in which no letter but s has a further
    lower-case form (U+017F), as [EqualFold] knows it. *)
Definition isMCPHeaderOnlyMethod (method : string) : bool := EqualFold method "GET".
Definition isBodyBearingMethod (method : string) : bool := EqualFold method "POST".

Section input.
Context {GU : GoURL}.

Definition validateResourceURI (resourceURI : string) : bool :=
  match url_ParseRequestURI resourceURI with
  | Some u => bool_decide (u_Scheme u = "http" ∨ u_Scheme u = "https") && negb (bool_decide (u_Host u = ""))
  | None => false
  end.

Definition has_bearer_prefix (token : string) : bool :=
  bool_decide (7 <= length (bytes token))%nat && EqualFold (of_bytes (take 7 (bytes token))) "bearer ".

Definition extractTokenExchangeInput (m : filter_metadata) : result inputRejection tokenCacheKey :=
  match metadata_fields m "aib.tokenexchange" with
  | None => Err InvalidSubjectToken
  | Some fields =>
      match metadataStringField fields "subject_token" with
      | None => Err InvalidSubjectToken
      | Some subject =>
          if decide (TrimSpace subject = "") then Err InvalidSubjectToken
          else if has_bearer_prefix subject then Err InvalidSubjectToken
          else
            match metadataStringField fields "resource_uri" with
            | None =>
                Err (InvalidResource (match fields !! "resource_uri" with
                                      | Some (Some _) => "request_malformed"
                                      | _ => "resource_missing"
                                      end))
            | Some resource =>
                if decide (TrimSpace resource = "") then Err (InvalidResource "resource_missing")
                else if negb (validateResourceURI resource) then Err (InvalidResource "request_malformed")
                else Ok (CacheKey subject resource)
            end
      end
  end.

End input.

(** ** Dialogs *)

Section server.
Context {GF : GoFloat} {JT : JSONText} {EA : EnvoyAuth} {GU : GoURL}.

Inductive dialog (A : Type) : Type :=
  | Reply (a : A)
  | AskExchange (key : tokenCacheKey) (k : result exch_error ExchangeResult → dialog A)
  | AskPolicy (input : OPAInput) (k : result unit OPADecision → dialog A)
  | AskGate (invocation : Invocation) (k : Outcome → dialog A).
Arguments Reply {A} a.
Arguments AskExchange {A} key k.
Arguments AskPolicy {A} input k.
Arguments AskGate {A} invocation k.

(** The calls of a dialog with their answers. *)
Inductive asked :=
  | Exchanged (key : tokenCacheKey) (r : result exch_error ExchangeResult)
  | Evaluated (input : OPAInput) (r : result unit OPADecision)
  | Gated (invocation : Invocation) (r : Outcome).

Inductive says {A} : dialog A → list asked → A → Prop :=
  | says_reply a : says (Reply a) [] a
  | says_exchange key k r calls a : says (k r) calls a → says (AskExchange key k) (Exchanged key r :: calls) a
  | says_policy input k r calls a : says (k r) calls a → says (AskPolicy input k) (Evaluated input r :: calls) a
  | says_gate inv k r calls a : says (k r) calls a → says (AskGate inv k) (Gated inv r :: calls) a.

Fixpoint dbind {A B} (d : dialog A) (g : A → dialog B) : dialog B :=
  match d with
  | Reply a => g a
  | AskExchange key k => AskExchange key (λ r, dbind (k r) g)
  | AskPolicy input k => AskPolicy input (λ r, dbind (k r) g)
  | AskGate inv k => AskGate inv (λ r, dbind (k r) g)
  end.

(** A dialog run against implementations of the three components. *)
Fixpoint perform {W A} (exchange : tokenCacheKey → prog W (result exch_error ExchangeResult))
    (policy : OPAInput → prog W (result unit OPADecision)) (gate : Invocation → prog W Outcome)
    (d : dialog A) : prog W A :=
  match d with
  | Reply a => Ret a
  | AskExchange key k => pbind (exchange key) (λ r, perform exchange policy gate (k r))
  | AskPolicy input k => pbind (policy input) (λ r, perform exchange policy gate (k r))
  | AskGate inv k => pbind (gate inv) (λ r, perform exchange policy gate (k r))
  end.

(** ** Configuration and state *)

Record server_config := ServerConfig {
  sc_MaxBodySize : Z;
  sc_SessionHeader : string;
  sc_authorizer : bool;
  sc_approvalGate : bool;
}.

Record requestState := RequestState {
  rs_key : tokenCacheKey;
  rs_headers : gmap string string;
  rs_protocol : string;
  rs_targetServerName : string;
  rs_grantedPermissionSets : option (gmap string (list string));
  rs_principal : string;
  rs_agentID : string;
  rs_agentSessionID : string;
}.

Context (cfg : server_config).

(** ** The headers phase *)

Definition processRequestHeaders (m : filter_metadata) : dialog processing_response :=
  match extractTokenExchangeInput m with
  | Err rejection => Reply (inputRejectionResponse rejection)
  | Ok key =>
      AskExchange key (λ r, Reply match r with
                                  | Err err => exchangeErrorResponse err
                                  | Ok result => replaceAuthorizationHeader ("Bearer " +:+ xr_Token result)
                                  end)
  end.

(** The checks of the headers phase under a policy: a rejection, or the state. *)
Definition opa_state (m : filter_metadata) (headers : http_headers) : result processing_response requestState :=
  match extractTokenExchangeInput m with
  | Err rejection => Err (inputRejectionResponse rejection)
  | Ok key =>
      match extractProtocolFromMetadata m with
      | None => Err (access_denied "protocol metadata is required when authorization is enabled")
      | Some protocol =>
          let headerMap := extractAllHeaders headers in
          let method := header_get headerMap ":method" in
          if bool_decide (protocol = "mcp") && negb (isMCPHeaderOnlyMethod method) && negb (isBodyBearingMethod method)
          then Err method_not_supported
          else
            match extractMCPServerFromMetadata m with
            | None =>
                if decide (protocol = "mcp")
                then Err (access_denied "mcp_server metadata is required when authorization is enabled for MCP requests")
                else Ok (RequestState key headerMap protocol "" None "" "" (configuredHeader headerMap (sc_SessionHeader cfg)))
            | Some server =>
                Ok (RequestState key headerMap protocol server None "" "" (configuredHeader headerMap (sc_SessionHeader cfg)))
            end
      end
  end.

Definition with_result (s : requestState) (r : ExchangeResult) : requestState :=
  RequestState (rs_key s) (rs_headers s) (rs_protocol s) (rs_targetServerName s) (xr_GrantedPermissionSets r)
    (xr_Principal r) (xr_AgentID r) (rs_agentSessionID s).

Definition processRequestHeadersOPA (m : filter_metadata) (headers : http_headers)
    : dialog (processing_response * option requestState) :=
  match opa_state m headers with
  | Err response => Reply (response, None)
  | Ok state =>
      if hh_EndOfStream headers then Reply (passThrough, Some state)
      else
        AskExchange (rs_key state) (λ r, Reply match r with
          | Err err => (exchangeErrorResponse err, None)
          | Ok result => (requestBodyBufferingResponseWithAuth ("Bearer " +:+ xr_Token result), Some (with_result state result))
          end)
  end.

(** ** The body phase *)

Definition state_context (s : requestState) : ContextInput :=
  MkContextInput match rs_grantedPermissionSets s with Some _ => true | None => false end (rs_grantedPermissionSets s)
    (rs_agentSessionID s).

Definition semanticRequestID (id : any) (rawID : option string) : string :=
  match id with
  | ANil => ""
  | AString s => s
  | _ => default "" rawID
  end.

(** [None]: the message is no standalone tool call. *)
Definition approvalInvocation (message : any) (state : requestState) (decision : OPADecision)
    : option (Invocation * option string) :=
  match message with
  | AMap m =>
      let params := match map_get "params" m with AMap p => p | _ => [] end in
      let name := as_string (map_get "name" params) in
      if decide (as_string (map_get "method" m) ≠ "tools/call" ∨ name = "") then None
      else
        match map_get "arguments" params with
        | (AMap _ | ANil) as value =>
            let arguments := match value with AMap a => a | _ => [] end in
            let id := map_get "id" m in
            let rawID := match id with ANil => Some None | _ => Some <$> json_MarshalID id end in
            match rawID with
            | None => None
            | Some rawID =>
                Some (MkInvocation _ (MkIdentity (rs_principal state) (rs_agentID state)) name (Some (list_to_map arguments))
                        (rs_agentSessionID state) (configuredHeader (rs_headers state) "Mcp-Session-Id")
                        (semanticRequestID id rawID) (subjectToken (rs_key state))
                        match od_ApprovalContext decision with Some c => ac_Description c | None => "" end
                        match od_ApprovalContext decision with Some c => ac_RiskLevel c | None => "" end,
                      rawID)
            end
        | _ => None
        end
  | _ => None
  end.

Definition not_standalone : processing_response :=
  accessDeniedResponse ["approval required requests must be standalone MCP tool calls"].

(** An approval_required decision on a single message. *)
Definition processApproval (state : requestState) (body : option http_body) (input : OPAInput) (decision : OPADecision)
    : dialog processing_response :=
  if decide (rs_protocol state ≠ "mcp") then Reply not_standalone
  else
    match approvalInvocation (oi_parsed_body input) state decision with
    | None => Reply not_standalone
    | Some (invocation, rawID) =>
        AskGate invocation (λ outcome, Reply
          (if Proceed outcome then echoRequestBody body
           else if decide (URL outcome ≠ "") then urlElicitationResponse (URL outcome) "approval required" rawID
           else accessDeniedResponse [Reason outcome]))
    end.

(** The loop over the elements of a batch: the reasons of the denials, in order. *)
Fixpoint evaluate_batch (b : InputBuilder) (messages : list decodedBatchMessage) : dialog (list string) :=
  match messages with
  | [] => Reply []
  | message :: messages =>
      let denied reasons := dbind (evaluate_batch b messages) (λ rest, Reply (reasons ++ rest)) in
      match ParseMCPMessage (bm_parsed message) with
      | Err _ => denied ["batch element could not be evaluated"]
      | Ok _ =>
          match Build b (bm_raw message) (bm_parsed message) with
          | Err _ => denied ["failed to parse batch element"]
          | Ok input =>
              AskPolicy input (λ r,
                match r with
                | Err _ => denied ["authorization evaluation failed"]
                | Ok decision =>
                    if decide (od_Action decision = ActionAllow) then evaluate_batch b messages
                    else if decide (od_Action decision = ActionApprovalRequired)
                    then denied ["approval required tool calls must be re-issued as standalone requests"]
                    else match od_Reasons decision with
                         | [] => denied ["access denied"]
                         | reasons => denied reasons
                         end
                end)
          end
      end
  end.

Definition state_builder (state : requestState) : option InputBuilder :=
  NewInputBuilder (rs_protocol state) (rs_headers state) (rs_targetServerName state) (state_context state).

(** [denied] is set exactly when a reason is appended. *)
Definition processRequestBodyBatch (state : requestState) (bodyBytes : string) (body : option http_body)
    : dialog processing_response :=
  match decodeJSONBatch bodyBytes with
  | None => Reply (access_denied "failed to parse batch request")
  | Some [] => Reply (access_denied "empty batch is not valid JSON-RPC 2.0")
  | Some messages =>
      match state_builder state with
      | None => Reply (access_denied "failed to parse batch request")
      | Some b =>
          dbind (evaluate_batch b messages) (λ reasons,
            Reply match reasons with [] => echoRequestBody body | _ => accessDeniedResponse reasons end)
      end
  end.

Definition is_batch (bodyBytes : string) : bool :=
  match bytes (TrimLeft [" "%char; byte 9; byte 13; byte 10] bodyBytes) with
  | c :: _ => bool_decide (c = "["%char)
  | [] => false
  end.

(** A single message: the document, the decision, its enforcement. *)
Definition processSingle (state : requestState) (bodyBytes : string) (body : option http_body) : dialog processing_response :=
  match state_builder state with
  | None => Reply (access_denied "failed to parse request protocol")
  | Some b =>
      match Build b bodyBytes (decodeJSONBody bodyBytes (bool_decide (rs_protocol state = "mcp"))) with
      | Err _ => Reply (access_denied "failed to parse request protocol")
      | Ok input =>
          AskPolicy input (λ r,
            match r with
            | Err _ => Reply (access_denied "authorization evaluation failed")
            | Ok decision =>
                if decide (od_Action decision = ActionApprovalRequired) then
                  if sc_approvalGate cfg then processApproval state body input decision
                  else Reply (accessDeniedResponse ["approval_required is not yet supported"])
                else if decide (od_Action decision ≠ ActionAllow) then Reply (accessDeniedResponse (od_Reasons decision))
                else Reply (echoRequestBody body)
            end)
      end
  end.

Definition body_bytes (body : option http_body) : string := match body with Some b => hb_Body b | None => "" end.

Definition processRequestBody (state : requestState) (body : option http_body) : dialog processing_response :=
  let bodyBytes := body_bytes body in
  let size := Z.of_nat (length (bytes bodyBytes)) in
  let mcp := bool_decide (rs_protocol state = "mcp") in
  if mcp && isMCPHeaderOnlyMethod (header_get (rs_headers state) ":method") then Reply method_not_supported
  else if bool_decide (0 < sc_MaxBodySize cfg)%Z && bool_decide (sc_MaxBodySize cfg < size)%Z
  then Reply (immediateResponse StatusForbidden (error_text "request_too_large" "request body exceeds maximum allowed size"))
  else if mcp && is_batch bodyBytes then processRequestBodyBatch state bodyBytes body
  else processSingle state bodyBytes body.

(** ** Header-only requests *)

Definition processHeadersOnlyOPA (state : requestState) : dialog processing_response :=
  match BuildOPAInputHeadersOnly (rs_protocol state) (rs_headers state) (rs_targetServerName state) with
  | None => Reply (access_denied "failed to parse request protocol")
  | Some input =>
      let context := MkContextInput (ci_GrantedPermissionSetsAvailable (oi_context input))
                       (ci_GrantedPermissionSets (oi_context input)) (rs_agentSessionID state) in
      let input := {| oi_base := oi_base input; oi_body := oi_body input; oi_parsed_body := oi_parsed_body input;
                      oi_truncated_body := oi_truncated_body input; oi_context := context; oi_type := oi_type input;
                      oi_mcp := oi_mcp input |} in
      AskPolicy input (λ r,
        match r with
        | Err _ => Reply (access_denied "authorization evaluation failed")
        | Ok decision =>
            if decide (od_Action decision ≠ "allow") then Reply (accessDeniedResponse (od_Reasons decision))
            else
              AskExchange (rs_key state) (λ r, Reply
                match r with
                | Err err => exchangeErrorResponse err
                | Ok result => replaceAuthorizationHeader ("Bearer " +:+ xr_Token result)
                end)
        end)
  end.

(** ** The stream *)

(** The answer to the headers and the state kept for the body. *)
Definition on_headers (m : filter_metadata) (headers : http_headers) : dialog (processing_response * option requestState) :=
  if sc_authorizer cfg then
    dbind (processRequestHeadersOPA m headers) (λ '(response, state),
      match state with
      | Some s =>
          if hh_EndOfStream headers then
            let method := header_get (rs_headers s) ":method" in
            if bool_decide (rs_protocol s = "mcp") && negb (isMCPHeaderOnlyMethod method) then
              Reply (if isBodyBearingMethod method
                     then immediateResponse 400 (error_text "invalid_request" "MCP request must have a body")
                     else method_not_supported, None)
            else dbind (processHeadersOnlyOPA s) (λ response, Reply (response, None))
          else Reply (response, Some s)
      | None => Reply (response, None)
      end)
  else dbind (processRequestHeaders m) (λ response, Reply (response, None)).

(** One message of the stream; without an authorizer the state stays as it is. *)
Definition on_message (request : processing_request) (state : option requestState)
    : dialog (processing_response * option requestState) :=
  match request with
  | RequestHeaders m headers =>
      dbind (on_headers m headers) (λ '(response, state'), Reply (response, if sc_authorizer cfg then state' else state))
  | RequestBody body =>
      match state with
      | Some s => dbind (processRequestBody s body) (λ response, Reply (response, None))
      | None => Reply (echoRequestBody body, None)
      end
  | ResponseHeaders => Reply (ResponseHeadersResponse, state)
  | ResponseBody body => Reply (echoResponseBody body, state)
  | RequestTrailers => Reply (RequestTrailersResponse, state)
  | ResponseTrailers => Reply (ResponseTrailersResponse, state)
  | OtherRequest => Reply (passThrough, state)
  end.

Definition is_immediate (r : processing_response) : bool := match r with ImmediateResponse _ _ _ => true | _ => false end.

(** What [Recv] and [Send] do: a message whose answer is or is not delivered, the end of
    the stream, or an error, which is canceled or another one. *)
Inductive stream_event := Received (request : processing_request) (delivered : bool) | StreamEnd | RecvError (canceled : bool).
Inductive stream_result := StreamDone | StreamFailed.

(** The answers that are sent, until the stream ends. *)
Fixpoint process (events : list stream_event) (state : option requestState)
    : dialog (list processing_response * option stream_result) :=
  match events with
  | [] => Reply ([], None)
  | StreamEnd :: _ => Reply ([], Some StreamDone)
  | RecvError canceled :: _ => Reply ([], Some (if (canceled : bool) then StreamDone else StreamFailed))
  | Received request delivered :: events =>
      dbind (on_message request state) (λ '(response, state),
        if negb delivered then Reply ([], Some StreamFailed)
        else if is_immediate response then Reply ([response], Some StreamDone)
        else dbind (process events state) (λ '(responses, r), Reply (response :: responses, r)))
  end.

Definition Process (events : list stream_event) : dialog (list processing_response * option stream_result) :=
  process events None.

End server.
Arguments Reply {_ _ _} a.
Arguments AskExchange {_ _ _} key k.
Arguments AskPolicy {_ _ _} input k.
Arguments AskGate {_ _ _} invocation k.
