(* ===== verification/ExtProcServerFacts.v ===== *)
(** * Facts about the external processor

    What a stream's answers say about the calls behind them: a request is only passed on
    after the policy, or the policy and the approval gate, admitted exactly that request;
    the token it carries is the one issued for its own subject and resource. *)

From S2P Require Import Prelude UriValidation NetPolicy Providers AuthChallenge ToolPattern ToolApproval ApprovalHandlers ApprovalCache ApprovalGate ExchangeErrors TokenExchanger TokenExchangerFacts McpMessages ExtProcServer.

Section facts.
Context {GF : GoFloat} {JT : JSONText} {EA : EnvoyAuth} {GU : GoURL}.

(** ** Dialogs *)

Lemma says_dbind {A B} (d : dialog A) (g : A → dialog B) calls b :
  says (dbind d g) calls b → ∃ a calls1 calls2, says d calls1 a ∧ says (g a) calls2 b ∧ calls = calls1 ++ calls2.
Proof.
  revert calls. induction d as [a | key k IH | input k IH | inv k IH]; simpl; intros calls Hs.
  - exists a, [], calls. split_and!; [constructor | done | done].
  - inversion Hs as [| ? ? r c ? Hk | |]; subst. destruct (IH _ _ Hk) as (a & c1 & c2 & ? & ? & ->).
    exists a, (Exchanged key r :: c1), c2. split_and!; [by constructor | done | done].
  - inversion Hs as [| | ? ? r c ? Hk |]; subst. destruct (IH _ _ Hk) as (a & c1 & c2 & ? & ? & ->).
    exists a, (Evaluated input r :: c1), c2. split_and!; [by constructor | done | done].
  - inversion Hs as [| | | ? ? r c ? Hk]; subst. destruct (IH _ _ Hk) as (a & c1 & c2 & ? & ? & ->).
    exists a, (Gated inv r :: c1), c2. split_and!; [by constructor | done | done].
Qed.

Lemma says_Reply {A} (a a' : A) calls : says (Reply a) calls a' → calls = [] ∧ a' = a.
Proof. inversion 1; by subst. Qed.
Lemma says_AskPolicy {A} input (k : _ → dialog A) calls a :
  says (AskPolicy input k) calls a → ∃ r rest, calls = Evaluated input r :: rest ∧ says (k r) rest a.
Proof. inversion 1; subst. by do 2 eexists. Qed.
Lemma says_AskExchange {A} key (k : _ → dialog A) calls a :
  says (AskExchange key k) calls a → ∃ r rest, calls = Exchanged key r :: rest ∧ says (k r) rest a.
Proof. inversion 1; subst. by do 2 eexists. Qed.
Lemma says_AskGate {A} inv (k : _ → dialog A) calls a :
  says (AskGate inv k) calls a → ∃ r rest, calls = Gated inv r :: rest ∧ says (k r) rest a.
Proof. inversion 1; subst. by do 2 eexists. Qed.

(** A dialog against implementations ends with what it says. *)
Lemma perform_says {W A} exchange policy gate (d : dialog A) (w : W) :
  ∃ calls, says d calls (run (perform exchange policy gate d) w).2.
Proof.
  revert w. induction d as [a | key k IH | input k IH | inv k IH]; intros w; simpl.
  - exists []. constructor.
  - rewrite run_pbind. destruct (run (exchange key) w) as [w' r]. destruct (IH r w') as [calls ?]. eexists. by constructor.
  - rewrite run_pbind. destruct (run (policy input) w) as [w' r]. destruct (IH r w') as [calls ?]. eexists. by constructor.
  - rewrite run_pbind. destruct (run (gate inv) w) as [w' r]. destruct (IH r w') as [calls ?]. eexists. by constructor.
Qed.

(** ** What admits a body *)

Context (cfg : server_config).

(** The document of a body, for the state of its stream. *)
Definition document (state : requestState) (bytes : string) (input : OPAInput) : Prop :=
  ∃ b, state_builder state = Some b ∧
    Build b bytes (decodeJSONBody bytes (bool_decide (rs_protocol state = "mcp"))) = Ok input.

(** An invocation is the tool call of the document, on behalf of the stream's user. *)
Definition invokes (state : requestState) (input : OPAInput) (inv : Invocation) : Prop :=
  ∃ mcp, oi_mcp input = Some mcp ∧ mi_tool_name mcp = Some (inv_ToolName inv) ∧
    inv_Arguments inv = Some (list_to_map (default [] (mi_arguments mcp))) ∧
    inv_Identity inv = MkIdentity (rs_principal state) (rs_agentID state) ∧
    inv_SubjectToken inv = subjectToken (rs_key state) ∧ inv_AgentSessionID inv = rs_agentSessionID state.

Inductive authorized (state : requestState) (bytes : string) : list asked → Prop :=
  | by_policy input d :
      document state bytes input → od_Action d = ActionAllow → authorized state bytes [Evaluated input (Ok d)]
  | by_approval input d inv outcome :
      document state bytes input → od_Action d = ActionApprovalRequired → sc_approvalGate cfg = true →
      rs_protocol state = "mcp" → invokes state input inv → Proceed outcome = true →
      authorized state bytes [Evaluated input (Ok d); Gated inv outcome]
  | by_batch b messages calls :
      rs_protocol state = "mcp" → decodeJSONBatch bytes = Some messages → messages ≠ [] →
      state_builder state = Some b →
      Forall2 (λ m call, ∃ input d, call = Evaluated input (Ok d) ∧
                 Build b (bm_raw m) (bm_parsed m) = Ok input ∧ od_Action d = ActionAllow) messages calls →
      authorized state bytes calls.

Definition forwards (r : processing_response) : Prop := is_immediate r = false.

Lemma echo_forwards body : forwards (echoRequestBody body).
Proof. by destruct body. Qed.

Lemma error_not_forwards err : is_immediate (exchangeErrorResponse err) = true.
Proof. unfold exchangeErrorResponse, tokenExchangeErrorResponse. by repeat case_match. Qed.

Lemma as_string_inv v s : as_string v = s → s ≠ "" → v = AString s.
Proof. destruct v; simpl; congruence. Qed.

Lemma approvalInvocation_inv m state d inv rawID :
  approvalInvocation (AMap m) state d = Some (inv, rawID) →
  ∃ params, map_get "params" m = AMap params ∧ map_get "method" m = AString "tools/call" ∧
    map_get "name" params = AString (inv_ToolName inv) ∧ inv_ToolName inv ≠ "" ∧
    inv_Arguments inv = Some (list_to_map match map_get "arguments" params with AMap a => a | _ => [] end) ∧
    inv_Identity inv = MkIdentity (rs_principal state) (rs_agentID state) ∧
    inv_SubjectToken inv = subjectToken (rs_key state) ∧ inv_AgentSessionID inv = rs_agentSessionID state.
Proof.
  unfold approvalInvocation. set (params := match map_get "params" m with AMap p => p | _ => [] end).
  destruct (decide _) as [| Hn]; [done |]. intros Hinv.
  assert (inv_ToolName inv = as_string (map_get "name" params) ∧
    inv_Arguments inv = Some (list_to_map match map_get "arguments" params with AMap a => a | _ => [] end) ∧
    inv_Identity inv = MkIdentity (rs_principal state) (rs_agentID state) ∧
    inv_SubjectToken inv = subjectToken (rs_key state) ∧ inv_AgentSessionID inv = rs_agentSessionID state)
    as (Hname & Hargs & Hid & Hsub & Hses).
  { destruct (match map_get "id" m with ANil => Some None | _ => Some <$> json_MarshalID (map_get "id" m) end) as [rid |] eqn:Hrid.
    all: destruct (map_get "id" m), (map_get "arguments" params); simpl in *; rewrite ?Hrid in Hinv; by simplify_eq/=. }
  assert (as_string (map_get "name" params) ≠ "") as Hne by (intros E; apply Hn; by right).
  exists params. split_and!; try done.
  - unfold params in *. destruct (map_get "params" m); try done.
  - apply as_string_inv; [| done]. destruct (decide (as_string (map_get "method" m) = "tools/call")) as [| E]; [done |].
    destruct Hn. by left.
  - rewrite Hname. by apply as_string_inv.
  - by rewrite Hname.
Qed.

(** The "mcp" object of a tool call. *)
Lemma buildMCPInput_call m params name session server ty mcp :
  map_get "params" m = AMap params → map_get "method" m = AString "tools/call" →
  map_get "name" params = AString name →
  buildMCPInput (AMap m) session server = Ok (ty, mcp) →
  mi_tool_name mcp = Some name ∧
  mi_arguments mcp = omit_no_entries match map_get "arguments" params with AMap args => Some args | _ => None end.
Proof.
  intros Hp Hm Hn. unfold buildMCPInput, ParseMCPMessage, string_field, params_field.
  destruct (duplicateEnvelopeField m); [done |]. rewrite Hp, Hm. simpl.
  destruct (map_get "jsonrpc" m); simpl; try done; (destruct (decide _); [done |]); simpl; rewrite Hn;
    (destruct (decide (name = "")); [done |]); by intros [= _ <-].
Qed.

(** The tool call of a document is the invocation built from its message. *)
Lemma invocation_of_document b bytes parsed input state d inv rawID :
  Build b bytes parsed = Ok input → ib_protocol b = "mcp" →
  approvalInvocation (oi_parsed_body input) state d = Some (inv, rawID) → invokes state input inv.
Proof.
  unfold Build. intros Hb Hp. rewrite decide_False in Hb by (intros H; by apply H).
  destruct (buildMCPInput parsed (ib_sessionID b) (ib_targetServerName b)) as [[ty mcp] | e] eqn:Hm; [| done].
  injection Hb as <-. simpl. destruct parsed as [| | | | | | | | m | | | |]; try done.
  intros (params & Hpar & Hmeth & Hname & Hne & Hargs & Hid & Hsub & Hses)%approvalInvocation_inv.
  destruct (buildMCPInput_call _ _ _ _ _ _ _ Hpar Hmeth Hname Hm) as [Ht Ha].
  exists mcp. split_and!; [done | done | | done..]. rewrite Hargs, Ha. f_equal.
  destruct (map_get "arguments" params) as [| | | | | | | | [| p a] | | | |]; done.
Qed.

Lemma state_builder_protocol state b : state_builder state = Some b → ib_protocol b = rs_protocol state.
Proof. unfold state_builder, NewInputBuilder. destruct (RequestToInput _); [| done]. by intros [= <-]. Qed.

(** A single message is passed on by the policy's leave, or the gate's. *)
Lemma single_authorized state text body calls r :
  says (processSingle cfg state text body) calls r → forwards r → authorized state text calls ∧ r = echoRequestBody body.
Proof.
  unfold processSingle, forwards. destruct (state_builder state) as [b |] eqn:Hb; [| by intros [_ ->]%says_Reply].
  destruct (Build b text _) as [input | e] eqn:Hi; [| by intros [_ ->]%says_Reply].
  intros (answer & rest & -> & Hs)%says_AskPolicy Hf. destruct answer as [d | e]; [| by apply says_Reply in Hs as [_ ->]].
  assert (document state text input) as Hdoc by by exists b.
  destruct (decide (od_Action d = ActionApprovalRequired)) as [Ha | Hna].
  - destruct (sc_approvalGate cfg) eqn:Hg; [| by apply says_Reply in Hs as [_ ->]].
    unfold processApproval in Hs. destruct (decide _) as [| Hp]; [by apply says_Reply in Hs as [_ ->] |].
    assert (rs_protocol state = "mcp") as Hmcp by (by destruct (decide (rs_protocol state = "mcp"))).
    destruct (approvalInvocation _ state d) as [[inv rawID] |] eqn:Hinv; [| by apply says_Reply in Hs as [_ ->]].
    apply says_AskGate in Hs as (outcome & rest' & -> & Hs). apply says_Reply in Hs as [-> ->].
    destruct (Proceed outcome) eqn:Hpro; [| by destruct (decide _)]. split; [| done].
    eapply by_approval; try done. eapply invocation_of_document; [exact Hi | | exact Hinv].
    by rewrite (state_builder_protocol _ _ Hb).
  - destruct (decide _) as [| Hallow]; apply says_Reply in Hs as [-> ->]; [done |]. split; [| done].
    eapply by_policy; [done |]. by destruct (decide (od_Action d = ActionAllow)).
Qed.

(** A batch without a reason to deny it: every element was allowed. *)
Lemma evaluate_batch_allowed b messages calls :
  says (evaluate_batch b messages) calls [] →
  Forall2 (λ m call, ∃ input d, call = Evaluated input (Ok d) ∧
             Build b (bm_raw m) (bm_parsed m) = Ok input ∧ od_Action d = ActionAllow) messages calls.
Proof.
  revert calls. induction messages as [| m messages IH]; intros calls; simpl; [by intros [-> _]%says_Reply |].
  assert (∀ reason reasons c, says (dbind (evaluate_batch b messages) (λ rest, Reply (reason :: reasons ++ rest))) c [] → False) as Hden.
  { intros reason reasons c (a & c1 & c2 & _ & Hr & _)%says_dbind. by apply says_Reply in Hr as [_ ?]. }
  destruct (ParseMCPMessage (bm_parsed m)); [| by intros ?%(Hden _ [])].
  destruct (Build b (bm_raw m) (bm_parsed m)) as [input |] eqn:Hb; [| by intros ?%(Hden _ [])].
  intros (answer & rest & -> & Hs)%says_AskPolicy. destruct answer as [d |]; [| by apply (Hden _ []) in Hs].
  destruct (decide (od_Action d = ActionAllow)); [| by case_decide; [apply (Hden _ []) in Hs | destruct (od_Reasons d); [apply (Hden _ []) in Hs | apply Hden in Hs]]].
  constructor; [by exists input, d |]. by apply IH.
Qed.

Lemma batch_authorized state text body calls r :
  rs_protocol state = "mcp" → says (processRequestBodyBatch state text body) calls r → forwards r →
  authorized state text calls ∧ r = echoRequestBody body.
Proof.
  unfold processRequestBodyBatch, forwards. intros Hp.
  destruct (decodeJSONBatch text) as [[| m messages] |] eqn:Hd; [by intros [_ ->]%says_Reply | | by intros [_ ->]%says_Reply].
  destruct (state_builder state) as [b |] eqn:Hb; [| by intros [_ ->]%says_Reply].
  intros (reasons & c1 & c2 & Hs & Hr & ->)%says_dbind. apply says_Reply in Hr as [-> ->].
  destruct reasons; [| done]. intros _. rewrite app_nil_r. split; [| done].
  eapply by_batch; try done. by apply evaluate_batch_allowed.
Qed.

Lemma body_authorized state body calls r :
  says (processRequestBody cfg state body) calls r → forwards r →
  authorized state (body_bytes body) calls ∧ r = echoRequestBody body.
Proof.
  unfold processRequestBody. destruct (_ && isMCPHeaderOnlyMethod _); [by intros [_ ->]%says_Reply |].
  destruct (_ && _); [by intros [_ ->]%says_Reply |].
  destruct (_ && is_batch _) eqn:Hb; [| apply single_authorized].
  apply andb_true_iff in Hb as [Hp _]. breflect. by apply batch_authorized.
Qed.

(** ** The stream *)

Lemma headersOnly_authorized state calls r :
  says (processHeadersOnlyOPA state) calls r → forwards r →
  ∃ input d res, calls = [Evaluated input (Ok d); Exchanged (rs_key state) (Ok res)] ∧ od_Action d = ActionAllow ∧
    oi_mcp input = (if decide (rs_protocol state = "mcp")
                    then Some (McpInput None None None (omit_empty (extractSessionID (rs_headers state)))
                                 (omit_empty (rs_targetServerName state)) None None None) else None) ∧
    r = HeadersResponse (Some ("Bearer " +:+ xr_Token res)) false.
Proof.
  unfold processHeadersOnlyOPA, BuildOPAInputHeadersOnly, forwards.
  destruct (RequestToInput _) as [base |]; simpl; [| by intros [_ ->]%says_Reply].
  intros (answer & rest & -> & Hs)%says_AskPolicy Hf. destruct answer as [d |]; [| by apply says_Reply in Hs as [_ ->]].
  destruct (decide _) as [| Ha]; [by apply says_Reply in Hs as [_ ->] |].
  apply says_AskExchange in Hs as (answer & rest' & -> & Hs). apply says_Reply in Hs as [-> ->].
  destruct answer as [res | err]; [| by rewrite error_not_forwards in Hf].
  do 3 eexists. split_and!; [done | by destruct (decide (od_Action d = "allow")) | | done].
  by destruct (decide (rs_protocol state = "mcp")).
Qed.

Lemma opa_state_key m h state : opa_state cfg m h = Ok state → extractTokenExchangeInput m = Ok (rs_key state).
Proof.
  unfold opa_state. destruct (extractTokenExchangeInput m) as [key |]; [| done].
  destruct (extractProtocolFromMetadata m); [| done]. destruct (_ && _ && _); [done |].
  destruct (extractMCPServerFromMetadata m); [by intros [= <-] |]. destruct (decide _); [done | by intros [= <-]].
Qed.

Lemma opa_state_rejects m h r : opa_state cfg m h = Err r → is_immediate r = true.
Proof.
  unfold opa_state. destruct (extractTokenExchangeInput m) as [key |]; [| by intros [= <-]].
  destruct (extractProtocolFromMetadata m); [| by intros [= <-]]. destruct (_ && _ && _); [by intros [= <-] |].
  destruct (extractMCPServerFromMetadata m); [done |]. destruct (decide _); [by intros [= <-] | done].
Qed.

(** Headers under a policy: rejected; admitted without a body; or passed on with the
    exchanged token, with the state that the body will be judged under. *)
Lemma headers_cases m h calls r state' :
  sc_authorizer cfg = true → says (on_headers cfg m h) calls (r, state') →
  (is_immediate r = true ∧ state' = None) ∨
  ∃ state, opa_state cfg m h = Ok state ∧
    ((hh_EndOfStream h = true ∧ state' = None ∧ says (processHeadersOnlyOPA state) calls r) ∨
     (hh_EndOfStream h = false ∧ ∃ res, calls = [Exchanged (rs_key state) (Ok res)] ∧
        state' = Some (with_result state res) ∧ r = HeadersResponse (Some ("Bearer " +:+ xr_Token res)) true)).
Proof.
  unfold on_headers. intros ->. unfold processRequestHeadersOPA.
  intros ([r1 s1] & c1 & c2 & Hs1 & Hs2 & ->)%says_dbind.
  destruct (opa_state cfg m h) as [state | rej] eqn:Hst.
  - destruct (hh_EndOfStream h) eqn:Heos.
    + apply says_Reply in Hs1 as [-> [= -> ->]]. simpl in Hs2. destruct (_ && _).
      * left. apply says_Reply in Hs2 as [-> [= -> ->]]. by destruct (isBodyBearingMethod _).
      * apply says_dbind in Hs2 as (r2 & c3 & c4 & Hs3 & Hs4 & ->). apply says_Reply in Hs4 as [-> [= -> ->]].
        rewrite app_nil_r. right. exists state. split; [done |]. by left.
    + apply says_AskExchange in Hs1 as (answer & rest & -> & Hs1). apply says_Reply in Hs1 as [-> Heq].
      destruct answer as [res | err]; injection Heq as -> ->; apply says_Reply in Hs2 as [-> [= -> ->]].
      * right. exists state. split; [done |]. right. split; [done |]. by exists res.
      * left. split; [apply error_not_forwards | done].
  - apply says_Reply in Hs1 as [-> [= -> ->]]. apply says_Reply in Hs2 as [-> [= -> ->]]. left.
    split; [by eapply opa_state_rejects | done].
Qed.

(** The first answer of a stream. *)
Lemma process_first request rest state calls r0 responses out :
  says (process cfg (Received request true :: rest) state) calls (r0 :: responses, out) →
  ∃ state' c1 c2, says (on_message cfg request state) c1 (r0, state') ∧ calls = c1 ++ c2 ∧
    (is_immediate r0 = true ∨ says (process cfg rest state') c2 (responses, out)).
Proof.
  cbn [process]. intros ([r s'] & c1 & c2 & H1 & H2 & ->)%says_dbind. cbn in H2.
  destruct (is_immediate r) eqn:Hr.
  - apply says_Reply in H2 as [-> [= -> -> ->]]. exists s', c1, []. split_and!; [done | done | by left].
  - apply says_dbind in H2 as ([rs o] & c3 & c4 & H3 & H4 & ->). apply says_Reply in H4 as [-> [= -> -> ->]].
    exists s', c1, c3. rewrite app_nil_r. split_and!; [done | done | by right].
Qed.


(** ** Tokens of the exchanger *)

(** A header that carries a token is the answer to the one exchange of the metadata's own
    subject and resource. *)
Lemma header_from_exchange m h calls auth buffered state :
  says (on_headers cfg m h) calls (HeadersResponse (Some auth) buffered, state) →
  ∃ key res, extractTokenExchangeInput m = Ok key ∧ auth = "Bearer " +:+ xr_Token res ∧
    ∀ key' r, Exchanged key' r ∈ calls → key' = key ∧ r = Ok res.
Proof.
  destruct (sc_authorizer cfg) eqn:Hauth.
  - intros Hs. destruct (headers_cases _ _ _ _ _ Hauth Hs) as [[Hi _] | (st & Hst & Hcase)]; [done |].
    exists (rs_key st). apply opa_state_key in Hst. destruct Hcase as [(_ & _ & Hho) | (_ & res & -> & _ & Hr)].
    + destruct (headersOnly_authorized _ _ _ Hho eq_refl) as (input & d & res & -> & _ & _ & [= -> _]).
      exists res. split_and!; [done | done |]. intros key' r Hin.
      apply elem_of_cons in Hin as [Hin | Hin%list_elem_of_singleton]; [done |]. by simplify_eq.
    + injection Hr as -> _. exists res. split_and!; [done | done |].
      intros key' r Hin%list_elem_of_singleton. by simplify_eq.
  - unfold on_headers. rewrite Hauth. intros (r1 & c1 & c2 & Hs1 & Hs2 & ->)%says_dbind.
    apply says_Reply in Hs2 as [-> [= <- ->]]. rewrite app_nil_r. unfold processRequestHeaders in Hs1.
    destruct (extractTokenExchangeInput m) as [key |] eqn:Hkey; [| by apply says_Reply in Hs1 as [_ ?]].
    apply says_AskExchange in Hs1 as (r & rest & -> & Hs1). apply says_Reply in Hs1 as [-> Hr].
    destruct r as [res | err]; [| pose proof (error_not_forwards err) as He; by rewrite <-Hr in He].
    injection Hr as ->. exists key, res. split_and!; [done | done |].
    intros key' r Hin%list_elem_of_singleton. by simplify_eq.
Qed.

(** What extraction guarantees of subject and resource. *)
Lemma extracted_valid m key :
  extractTokenExchangeInput m = Ok key →
  TrimSpace (subjectToken key) ≠ "" ∧ has_bearer_prefix (subjectToken key) = false ∧
  ∃ u, url_ParseRequestURI (resourceURI key) = Some u ∧ (u_Scheme u = "http" ∨ u_Scheme u = "https") ∧ u_Host u ≠ "".
Proof.
  unfold extractTokenExchangeInput. destruct (metadata_fields m _) as [fields |]; [| done].
  destruct (metadataStringField fields "subject_token") as [subject |]; [| done].
  destruct (decide (TrimSpace subject = "")); [done |]. destruct (has_bearer_prefix subject) eqn:Hb; [done |].
  destruct (metadataStringField fields "resource_uri") as [resource |]; [| done].
  destruct (decide (TrimSpace resource = "")); [done |].
  destruct (validateResourceURI resource) eqn:Hv; [| done]. simpl. intros [= <-]. simpl. split_and!; [done | done |].
  unfold validateResourceURI in Hv. destruct (url_ParseRequestURI resource) as [u |]; [| done].
  exists u. apply andb_true_iff in Hv as [H1 H2]. breflect. done.
Qed.

(** net/url rejects ASCII control bytes. *)
Definition rejects_control_bytes : Prop := ∀ s u, url_ParseRequestURI s = Some u → Ascii.zero ∉ bytes s.

Context {PP : ProcessorPorts} (xcfg : exchanger_config).

(** The exchanger behind the server: its callers' keys come from requests' metadata. *)
Definition served_step (s s' : system) : Prop :=
  exchange_step xcfg true s s' ∧ Forall (λ c, ∃ m, extractTokenExchangeInput m = Ok (ca_key c)) (sy_callers s').

Lemma served_step_clean s s' : rejects_control_bytes → served_step s s' → clean_step xcfg s s'.
Proof.
  intros Hlaw [Hstep Hk]. split; [done |]. eapply Forall_impl; [exact Hk |]. intros c [m Hm].
  apply extracted_valid in Hm as (_ & _ & u & Hu & _). by eapply Hlaw.
Qed.

(** Claim C3.  The processor and its exchanger together, with any number of concurrent
    requests: the Authorization header set on a request carries the token the broker issued
    for the subject token and the resource of that request's own metadata, while it may be
    served. *)
Theorem header_token_is_own w s i key since r m h calls auth buffered state :
  rejects_control_bytes → xw_cache w = ∅ → rtc served_step (no_callers w) s →
  sy_callers s !! i = Some (Caller key since (Answered r)) →
  says (on_headers cfg m h) calls (HeadersResponse (Some auth) buffered, state) → Exchanged key r ∈ calls →
  extractTokenExchangeInput m = Ok key ∧
  ∃ res t, auth = "Bearer " +:+ xr_Token res ∧ (since <= t <= xw_now (sy_world s))%Z ∧ served xcfg key res t.
Proof.
  intros Hlaw Hw Hs Hi Hsays Hin.
  destruct (header_from_exchange _ _ _ _ _ _ Hsays) as (key' & res & Hkey & -> & Hall).
  destruct (Hall _ _ Hin) as [-> ->]. split; [done |]. exists res.
  assert (rtc (clean_step xcfg) (no_callers w) s) as Hs'.
  { eapply rtc_subrel; [| exact Hs]. intros s1 s2. by apply served_step_clean. }
  pose proof (so_callers _ _ (reachable_ok _ _ _ Hw Hs')) as Hca.
  destruct (Forall_lookup_1 _ _ _ _ Hca Hi) as [_ (t & Ht & Hserved)]. by exists t.
Qed.

(** ** Executable streams *)

Inductive reply := RExchange (r : result exch_error ExchangeResult) | RPolicy (r : result unit OPADecision) | RGate (r : Outcome).

(** The calls and the end of a dialog under scripted replies. *)
Fixpoint follow {A} (d : dialog A) (replies : list reply) : option (list asked * A) :=
  match d, replies with
  | Reply a, [] => Some ([], a)
  | AskExchange key k, RExchange r :: replies => prod_map (Exchanged key r ::.) id <$> follow (k r) replies
  | AskPolicy input k, RPolicy r :: replies => prod_map (Evaluated input r ::.) id <$> follow (k r) replies
  | AskGate inv k, RGate r :: replies => prod_map (Gated inv r ::.) id <$> follow (k r) replies
  | _, _ => None
  end.

Lemma follow_says {A} (d : dialog A) replies calls a : follow d replies = Some (calls, a) → says d calls a.
Proof.
  revert replies calls. induction d as [x | key k IH | input k IH | inv k IH]; intros [| [r | r | r] replies] calls; simpl; try done.
  - intros [= <- <-]. constructor.
  - destruct (follow (k r) replies) as [[c y] |] eqn:E; [| done]. intros [= <- <-]. constructor. by eapply IH.
  - destruct (follow (k r) replies) as [[c y] |] eqn:E; [| done]. intros [= <- <-]. constructor. by eapply IH.
  - destruct (follow (k r) replies) as [[c y] |] eqn:E; [| done]. intros [= <- <-]. constructor. by eapply IH.
Qed.

Lemma follow_result {A} (d : dialog A) replies a :
  snd <$> follow d replies = Some a → says d (default [] (fst <$> follow d replies)) a.
Proof. destruct (follow d replies) as [[calls b] |] eqn:E; [| done]. intros [= ->]. by eapply follow_says. Qed.

(** Callers stay, with their keys. *)
Lemma step_keys s s' : exchange_step xcfg true s s' → (ca_key <$> sy_callers s) `prefix_of` (ca_key <$> sy_callers s').
Proof.
  assert (∀ (cs : list caller) i c c', cs !! i = Some c → ca_key c' = ca_key c → ca_key <$> <[i := c']> cs = ca_key <$> cs) as Hins.
  { intros cs i c c' Hi Hk. rewrite list_fmap_insert, Hk. apply list_insert_id. by rewrite list_lookup_fmap, Hi. }
  destruct 1; simpl; try done; try (rewrite fmap_app; by eexists); by (erewrite Hins by done).
Qed.

Lemma steps_served s s' :
  rtc (clean_step xcfg) s s' → Forall (λ c, ∃ m, extractTokenExchangeInput m = Ok (ca_key c)) (sy_callers s') → rtc served_step s s'.
Proof.
  intros Hs Hf. induction Hs as [| s s1 s' [Hstep _] Hs IH]; [done |]. eapply rtc_l; [| by apply IH].
  split; [done |]. assert ((ca_key <$> sy_callers s1) `prefix_of` (ca_key <$> sy_callers s')) as [k Hk].
  { clear IH Hf Hstep. induction Hs as [| a b c [Hab _] _ IH]; [done |]. etrans; [by apply step_keys | done]. }
  apply (Forall_fmap _ (λ key, ∃ m, extractTokenExchangeInput m = Ok key)) in Hf.
  apply (Forall_fmap _ (λ key, ∃ m, extractTokenExchangeInput m = Ok key)). rewrite Hk in Hf. by apply Forall_app in Hf as [? _].
Qed.

End facts.

(** ** Challenges *)

(** The parameters of a recovery challenge after [error]: the values that are safe to quote. *)
Definition challenge_extra (description uri : string) : list (list ascii * list ascii) :=
  (if negb (bool_decide (description = "")) && validChallengeDescription description
   then [(bytes "error_description", bytes description)] else []) ++
  (if negb (bool_decide (uri = "")) && validChallengeURI uri then [(bytes "error_uri", bytes uri)] else []).

Definition scope_param : list ascii * list ascii := (bytes "error", bytes "insufficient_scope").

Lemma quote_plain low value : validChallenge low value = true → (32 <= low)%N →
  quote (bytes value) = bytes (dquote_str +:+ value +:+ dquote_str) ∧ Forall (λ c, is_control c = false) (bytes value).
Proof.
  unfold validChallenge, quote. intros Hv Hlow. apply Is_true_true_2, forallb_True in Hv. split.
  - assert ((bytes value ≫= AuthChallenge.escape_byte) = bytes value) as ->; [| by rewrite !bytes_app].
    induction Hv as [| c l Hc Hv IH]; [done |]. cbn [mbind list_bind] in *. rewrite IH.
    unfold AuthChallenge.escape_byte. apply Is_true_true_1 in Hc. repeat (apply andb_true_iff in Hc as [Hc ?]). breflect.
    rewrite bool_decide_eq_false_2; [done |]. intros [-> | ->]; done.
  - induction Hv as [| c l Hc Hv IH]; constructor; [| done]. apply Is_true_true_1 in Hc.
    repeat (apply andb_true_iff in Hc as [Hc ?]). breflect. unfold is_control.
    apply orb_false_iff. split; apply bool_decide_eq_false_2; lia.
Qed.

Lemma challenge_attribute_print low name value :
  validChallenge low value = true → (32 <= low)%N →
  bytes (challenge_attribute name value) = ","%char :: " "%char :: print_param (bytes name, bytes value).
Proof.
  intros Hv Hl. unfold challenge_attribute, print_param. destruct (quote_plain _ _ Hv Hl) as [Hq _]. cbn [fst snd]. rewrite Hq.
  by rewrite !bytes_app.
Qed.

(** A recovery challenge is well formed: whatever description and URL the broker sent, the
    broker's own parser of challenges reads from it the error, and the description and the
    URL exactly as they were, or not at all; no text of the broker ends a value early. *)
Theorem reauth_challenge_parses description uri :
  splitChallenges (bytes (insufficientScopeChallenge description uri)) =
    Some ((bytes "Bearer" ++ " "%char :: print_param scope_param) :: (print_param <$> challenge_extra description uri)) ∧
  Forall (λ p, challengeParameter (print_param p) = Some (p.1, p.2, true)) (scope_param :: challenge_extra description uri).
Proof.
  assert (∀ name, name ∈ ["error"; "error_description"; "error_uri"] → token (bytes name)) as Htok.
  { intros name Hn. repeat (apply elem_of_cons in Hn as [-> | Hn]; [split; [done |]; by repeat constructor |]). by apply elem_of_nil in Hn. }
  assert (Forall param_ok (scope_param :: challenge_extra description uri)) as Hok.
  { constructor; [split; [apply Htok; set_solver | by repeat constructor] |]. unfold challenge_extra. apply Forall_app. split.
    - destruct (_ && _) eqn:E; [| done]. apply andb_true_iff in E as [_ E]. constructor; [| done].
      split; [apply Htok; set_solver | by eapply quote_plain].
    - destruct (_ && _) eqn:E; [| done]. apply andb_true_iff in E as [_ E]. constructor; [| done].
      split; [apply Htok; set_solver | by eapply quote_plain]. }
  split; [| eapply Forall_impl; [exact Hok |]; apply challengeParameter_print].
  rewrite <-split_print_challenge by (done || (split; [done | by repeat constructor])). f_equal.
  unfold insufficientScopeChallenge, print_challenge, challenge_extra, print_more. rewrite !bytes_app.
  destruct (negb (bool_decide (description = "")) && _) eqn:E1, (negb (bool_decide (uri = "")) && _) eqn:E2;
    repeat match goal with E : _ && _ = true |- _ => apply andb_true_iff in E as [_ E] end;
    rewrite ?(challenge_attribute_print 32 "error_description" description), ?(challenge_attribute_print 33 "error_uri" uri) by done;
    change (bytes "") with (@nil ascii); cbn [mbind list_bind app]; rewrite ?app_nil_r; reflexivity.
Qed.

(** ** A concrete stream *)

Module StreamDemo.
Import ExchangeDemo.

Definition text : string := "rm -rf".

(** The one text that is a message: a call of the tool [rm] with the id 7. *)
Definition text_tokens : list jtoken :=
  [TDelim "{"; TString "jsonrpc"; TString "2.0"; TString "ID"; TNumber "7"; TString "Method"; TString "tools/call"; TString "params";
   TDelim "{"; TString "NAME"; TString "rm"; TDelim "}"; TDelim "}"].

#[local] Instance demo_float : GoFloat := {| float64 := Z; FormatFloat _ := ""; Number_Float64 _ := None |}.
#[local] Instance demo_json : JSONText := {|
  json_tokens s := if decide (s = text) then map (λ t, (t, length (bytes text))) text_tokens else [];
  json_MarshalID v := match v with ANumber s => Some s | _ => None end;
|}.
#[local] Instance demo_envoy : EnvoyAuth := {| envoy_input := check_request; RequestToInput := Some |}.

(** "https://" and a host. *)
Definition demo_parse (s : string) : option UriValidation.URL :=
  if decide (s = "https://api")
  then Some {| u_Scheme := "https"; u_Opaque := ""; u_User := None; u_Host := "api"; u_Path := ""; u_RawPath := "";
               u_OmitHost := false; u_ForceQuery := false; u_RawQuery := ""; u_Fragment := ""; u_RawFragment := "" |}
  else None.
#[local] Instance demo_url : GoURL := Build_GoURL demo_parse demo_parse (λ _, "") u_Path Some.

Definition settings : server_config := ServerConfig 1000 "x-session" true true.

(** Ana's request: her subject token, the resource, the protocol and the server. *)
Definition fields (l : list (string * string)) : option metadata_struct :=
  Some (MetadataStruct (Some (list_to_map (map (λ p, (p.1, Some (MString p.2))) l)))).
Definition ana_metadata : filter_metadata :=
  Some (list_to_map [("aib.tokenexchange", fields [("subject_token", "ana-token"); ("resource_uri", "https://api")]);
                     ("agentgateway", fields [("protocol", "mcp"); ("mcp_server", "files")])]).
Definition post_headers : http_headers := HttpHeaders [HeaderValue ":Method" "POST" ""; HeaderValue "X-Session" "" "run-1"] false.

Definition stream : list stream_event :=
  [Received (RequestHeaders ana_metadata post_headers) true; Received (RequestBody (Some (HttpBody text true))) true; StreamEnd].
Definition ask : OPADecision := MkOPADecision ActionApprovalRequired [] (Some (MkApprovalContext "deletes files" "high")).
Definition replies : list reply := [RExchange (Ok ana_result); RPolicy (Ok ask); RGate (MkOutcome true "" "")].

(** The stream under these replies: its calls and its answers. *)
Definition outcome := follow (Process settings stream) replies.
Definition calls : list asked := default [] (fst <$> outcome).

Definition exchanged_principal (l : list asked) : string :=
  match l with Exchanged _ (Ok r) :: _ => xr_Principal r | _ => "" end.

Lemma stream_says :
  says (Process settings stream) calls
    ([HeadersResponse (Some "Bearer ana-token@https://api") true; RequestBodyResponse text true], Some StreamDone).
Proof. apply (follow_result _ replies). vm_compute. reflexivity. Qed.


Definition header_calls : list asked := default [] (fst <$> follow (on_headers settings ana_metadata post_headers) (take 1 replies)).
Lemma headers_say : ∃ state,
  says (on_headers settings ana_metadata post_headers) header_calls
    (HeadersResponse (Some "Bearer ana-token@https://api") true, state).
Proof.
  assert (fst <$> (snd <$> follow (on_headers settings ana_metadata post_headers) (take 1 replies)) =
          Some (HeadersResponse (Some "Bearer ana-token@https://api") true)) as Hr by (vm_compute; reflexivity).
  destruct (snd <$> follow (on_headers settings ana_metadata post_headers) (take 1 replies)) as [[r state] |] eqn:E; [| done].
  injection Hr as ->. exists state. by apply follow_result.
Qed.

Lemma demo_rejects : rejects_control_bytes.
Proof.
  intros s u. unfold url_ParseRequestURI, demo_url, demo_parse. simpl. destruct (decide (s = "https://api")) as [-> |]; [| done].
  intros _. apply (bool_decide_unpack (Ascii.zero ∉ bytes "https://api")). vm_compute. exact I.
Qed.

Lemma history_served : rtc (served_step config) (no_callers started) after_history.
Proof.
  apply steps_served; [apply history_steps |].
  assert (ca_key <$> sy_callers after_history = [ana; ana]) as Hkeys by (vm_compute; reflexivity).
  apply (Forall_fmap ca_key (λ key, ∃ m, extractTokenExchangeInput m = Ok key)). rewrite Hkeys.
  assert (extractTokenExchangeInput ana_metadata = Ok ana) as Hana by (vm_compute; reflexivity).
  constructor; [by exists ana_metadata |]. constructor; [by exists ana_metadata | done].
Qed.

Lemma header_called : Exchanged ana (Ok ana_result) ∈ header_calls.
Proof. assert (header_calls = [Exchanged ana (Ok ana_result)]) as -> by (vm_compute; reflexivity). by left. Qed.

(** The second call of the exchanger's history, served from its cache, answers this stream. *)
Lemma header_token_is_own_witness :
  ∃ res t, "Bearer ana-token@https://api" = "Bearer " +:+ xr_Token res ∧ served (H:=demo) config ana res t.
Proof.
  destruct headers_say as [state Hsay].
  destruct (header_token_is_own settings config started after_history 1 ana (start_time + 1800 * second)%Z (Ok ana_result)
              ana_metadata post_headers header_calls _ _ _ demo_rejects eq_refl history_served second_answer Hsay header_called)
    as (_ & res & t & Hr & _ & Hserved).
  by exists res, t.
Defined.

End StreamDemo.
